(* ===== verification/_CoqProject ===== *)
-Q . S2P
Prelude.v
StdMap.v
IntervalSet.v
CrushHash.v
CrushMapper.v
CrushChoose.v
CrushBucket.v
CrushFirstn.v
CrushIndep.v
CrushRule.v
CrushBuilder.v
CrushTreeBuild.v
CrushBuilt.v
CrushMapBuild.v
PgPool.v
PgSplit.v
OSDMap.v
CrushWrapper.v
OSDMapCorrect.v
OSDMapInc.v
OSDMapUpdate.v
MonTypes.v
Paxos.v
Elector.v
Monitor.v
Consensus.v
PaxosInv.v
PaxosData.v
PaxosStep.v
PaxosLead.v
PaxosCollect.v
PaxosPeer.v
PaxosLast.v
PaxosPromise.v
PaxosHandlers.v
PaxosElect.v
PaxosSafe.v
PaxosAgree.v
PaxosRound.v
RefMap.v
Denc.v
BlueTypes.v
UseTracker.v
Armor.v
Utf8.v
Striper.v
StupidAllocator.v
Flock.v
PGLog.v
PGLogMerge.v
PGLogPeering.v
PGLogRecovery.v
PGLogReplica.v
PGLogTrim.v
