(* ===== verification/Prelude.v ===== *)
(** * Ceph: a verification of data placement, the monitors' consensus, the logs
      of placement groups, the block bookkeeping of BlueStore, file striping and
      file locks

    Ceph stores an object on the OSDs (object storage daemons) that every party
    computes from the object's name and a small cluster map.  The monitors agree on
    that map; the OSDs keep the data in an object store; the file system stripes files
    over objects and its metadata servers keep the locks on them.  This library models
    parts of all of these and proves what makes them correct.

    Placement is a chain of parts:

    - an object name is hashed ([src/src/common/ceph_hash.cc]) and folded to one
      of the placement groups of its pool ([src/src/osd/osd_types.cc],
      [src/src/include/rados.h]);
    - the placement seed of the group is mapped to devices by CRUSH
      ([src/src/crush/mapper.c]), a pseudo-random descent through a weighted tree
      of buckets that is built by [src/src/crush/builder.c] and held by the class
      [CrushWrapper];
    - the OSD map ([src/src/osd/OSDMap.cc]) removes devices that do not exist or
      are down, applies explicit and temporary mappings and picks the primary;
    - a new map is an old one with an incremental applied to it.

    The monitors elect a leader ([src/src/mon/Elector.cc]) that proposes values to
    its quorum ([src/src/mon/Paxos.cc]); [src/src/mon/Monitor.cc] moves between the
    two, and what is committed is written by the thread of the store
    ([src/src/mon/MonitorDBStore.h]).

    The OSDs of a placement group keep a log of its changes and the set of objects
    whose logged version is not in their store ([src/src/osd/PGLog.cc],
    [src/src/osd/PGLog.h], [src/src/osd/osd_types.h]).  When the group peers, each of
    them merges the authoritative log: what diverges is undone or marked as missing and
    what is new appended; recovery then works through the missing objects.

    BlueStore counts who uses a block: an extent reference map for blocks shared
    between objects and a use tracker for the units of one blob
    ([src/src/os/bluestore/bluestore_types.cc]); its structures are stored in the
    compact encodings of [src/src/include/denc.h].  Free space is kept by an allocator
    ([src/src/os/bluestore/StupidAllocator.cc]) in bins of interval sets, one for each
    order of magnitude of the length of an extent.

    A file is cut into stripe units that go round a set of objects
    ([src/src/osdc/Striper.cc]); a read of a range of a file is a read of an extent of
    each of its objects, whose answers are put together.  The locks that processes of
    clients hold on ranges of a file, and those that they wait for, are kept by
    [src/src/mds/flock.cc], which looks for deadlocks between files.

    Below all of them are containers and codecs: [interval_set]
    ([src/src/include/interval_set.h]), base64 ([src/src/common/armor.c]) and UTF-8
    ([src/src/common/utf8.c]).

    ** Conventions

    A C integer of width [w] is a [Z]; wrap-around and conversions to signed types
    are written out ([u8] to [u64], [s32], [s64]) where the source performs them.
    Code that can stop returns [res]: [AssertFailed] for an assertion,
    [BadAccess] for what the language leaves undefined, [DivByZero], [EndOfBuffer]
    for the exception of a decoder, and [OutOfFuel] for the bound of a loop that is
    not structural.  Arrays are lists
    accessed through [zget] and [zset], which fault out of range.  State is passed
    explicitly.  Definitions keep the names of the source and can be evaluated.

    ** Files

    - Prelude.v: machine integers, [res] and its notations, array access, the
      tactics [wrap_small], [zb], [zcase], [res_inv] and lemmas shared by all.
    - StdMap.v: [std::map] as a sorted association list, with the iterator
      operations that interval_set.h and the reference map use.
    - IntervalSet.v, Module [IntervalSet]: the class [interval_set]; the record
      [t] has the members [_size] and [m], one definition per method.
    - CrushHash.v: crush/hash.c, and [crush_ln] tables.
    - CrushMapper.v, Module [Crush]: the data of crush/crush.h and all of
      crush/mapper.c.  The union of bucket structures is the type [bucket_data];
      the [goto]s of [crush_choose_firstn] and [crush_choose_indep] become the
      functions [firstn_try] and [indep_descend], one turn per pass of the code.
    - CrushChoose.v, CrushBucket.v: the five choose methods: the permutation
      cache, straw2 draws, lists and trees.
    - CrushFirstn.v, CrushIndep.v, CrushRule.v: the descents and the rule
      interpreter; the relation [under] says which items lie below a bucket.
    - CrushBuilder.v, Module [Builder]: all of crush/builder.c; the contents of
      memory that [realloc] did not initialise is the parameter [junk], the value
      read one place past an array the parameter [over], and [pow] of the C
      library a parameter.  Doubles are the IEEE doubles of [SpecFloat].
    - CrushTreeBuild.v, CrushBuilt.v, CrushMapBuild.v: what the builder makes.
    - PgPool.v, Module [PgPool]: string hashes, [ceph_stable_mod], [pg_t],
      [pg_pool_t], bit reversal and [hobject_t] with its order.
    - PgSplit.v: folding and splitting of placement groups.
    - OSDMap.v: the placement pipeline of the OSD map over the class
      [CrushPlacer], the interface between the OSD map and CRUSH, whose laws are
      the class [PlacerLaws].
    - CrushWrapper.v: the part of crush/CrushWrapper.h that the OSD map calls, and
      the proof that it implements the interface.
    - OSDMapCorrect.v: the pipeline is correct for every implementation of the
      interface, and together with CRUSH.
    - OSDMapInc.v, OSDMapUpdate.v: the whole state of the map, its setters and
      [apply_incremental], and what they keep.
    - MonTypes.v: the store, the messages and the memory of a monitor, and the
      monad of its handlers, which send messages and stop at a failed assertion.
    - Paxos.v, Elector.v, Monitor.v: mon/Paxos.cc, mon/Elector.cc and the part of
      mon/Monitor.cc between them, one definition per handler; [Monitor.exec] is the
      step of a system of monitors whose channels are in order and lose messages.
      The elector calls the monitor through the class [MonitorOps].
    - Consensus.v: the argument that a value chosen by a quorum is the only one,
      independent of the code.
    - PaxosInv.v, PaxosData.v: the invariant, over the state and a ghost history of
      ballots, votes and the log.  PaxosStep.v: weakest preconditions of handlers.
      PaxosLead.v, PaxosCollect.v, PaxosPeer.v, PaxosLast.v, PaxosPromise.v,
      PaxosHandlers.v, PaxosElect.v: each handler keeps the invariant.  PaxosSafe.v:
      every event does.
    - PaxosAgree.v: agreement, refinement of a replicated log, and the runs that
      show where the code departs from it.  PaxosRound.v: a round ends.
    - RefMap.v, Module [ExtentRefMap]: [bluestore_extent_ref_map_t].
    - Denc.v: the variable length integers of include/denc.h.
    - BlueTypes.v: vectors and versioned frames over the class [Codec] with its laws
      [CodecLaws], and the structures of bluestore_types.h and bluefs_types.h.
    - UseTracker.v: [bluestore_blob_use_tracker_t].
    - Armor.v, Utf8.v: common/armor.c and common/utf8.c.
    - Striper.v, Module [Striper]: all of osdc/Striper.cc, with the layout of
      include/fs_types.h; the name of an object, which the code prints with a format,
      is the parameter [name_of].
    - StupidAllocator.v: Module [Btree] has the insertion of btree_interval_set.h, whose
      other operations are those of [IntervalSet]; Module [StupidAllocator] the
      allocator, a record [state] with the members of the class and one definition per
      method.
    - Flock.v, Module [Flock]: mds/flock.cc and flock.h; a [lock_state] is a
      [ceph_lock_state_t], and a [world] all of them with the table of waiting locks
      that they share.  The iterators into the multimap of held locks that the code
      keeps while it changes the map are identities of nodes.
    - PGLog.v, Module [PGLog]: osd/PGLog.cc and PGLog.h with the log and missing types of
      osd_types.h; [pg_missing_set], [pg_log_t], [IndexedLog], [PGLog_t] and [pg_info_t]
      have the members of the classes that the code looks at, and there is one definition
      per method.  Iterators into the log are distances from its end.  What is done to the
      store goes through the class [LogEntryHandler], as in the code.
    - PGLogMerge.v: the order of versions and objects, the laws of a store
      ([HandlerLaws]), and what merging divergent entries and appending new ones do.
      PGLogPeering.v: two logs with a shared history, and [merge_log].  PGLogRecovery.v:
      the index of the missing set, activation and recovery.  PGLogReplica.v:
      [proc_replica_log].  PGLogTrim.v: trimming.

    ** What is proved

    Interval sets: under the invariant [wf] (sorted, disjoint, not adjacent
    intervals and a correct cached size) every operation computes the set operation
    it stands for and keeps the invariant; equality is extensional; operations
    outside of their contract are stopped by an assertion, with one exception.

    CRUSH, choosing in one bucket: the permutation method is a function of its
    input, independent of the state of its cache; straw2 moves data only towards
    an item whose weight grows; list, tree and straw2 never choose a weightless
    item; no method faults on a well-formed bucket.

    CRUSH, rules: on a well-formed map ([wf_map]: ids match positions, buckets are
    well-formed, child pointers decrease a rank) every rule ends, without a fault
    and with at most the requested number of results.  A replicated rule returns
    distinct devices that are in, from distinct failure domains; an erasure-code
    rule fills fixed positions with devices from distinct failure domains.

    CRUSH, building: the operations of the builder establish and keep the
    invariant [built], which implies the well-formedness that the mapper needs,
    with the exceptions stated as theorems; finalising a map computes the working
    size that placement asserts.

    Placement groups: growing a pool only splits groups; the shortcuts that
    enumerate children, count bits, find parents and draw positions agree with the
    definition by folding; a group is one interval of the object order.

    OSD map: the up and acting sets are computed without a fault, contain only
    OSDs that are up, keep the positions of erasure-coded pools, and the primary is
    chosen by affinity; the mapping does not depend on whether the group number
    was folded; with a replicated CRUSH rule the OSDs are distinct, in, up and in
    distinct failure domains.

    Incrementals: applying one keeps the invariant of the map and gives every OSD
    the state that its entries prescribe.

    Monitors, safety: in every state reached from fresh stores by any sequence of
    events, two monitors never commit different values for a version (the first
    version is compared up to the write that [begin] wraps it in), and the system
    refines one log from which every monitor has learnt a prefix.  The events
    include lost messages, failed assertions, elections at any time and restarts;
    a restart is excluded only when the monitor has promised a number that is not
    in its store ([careful]), and a run shows that this exclusion is needed.
    Monitors, liveness: a round of a leader whose quorum answers ends with the value
    committed and applied by all of it.  What the services make of a write is the
    parameter [needs_bootstrap] of the configuration: whether they ask the monitor to
    start anew, as a change of the monitor map does.  Safety holds whatever it answers;
    the round needs that it does not ask for the value of the round.

    BlueStore: the reference map refines the function from bytes to counts, stays
    merged, so that it is determined by the counts, and releases what is no longer
    referenced; the use tracker does the same per allocation unit.  What is encoded
    is decoded to itself, whatever follows, and in the bytes reserved, on the domain
    that the theorems state; where the domain is not the whole type a theorem says
    what happens outside of it.

    Allocator: in every state its users reach the bins are disjoint, every extent is
    in the bin of its length and the counters are exact; what is reserved can be
    allocated in full, from free space, with every byte in one extent; released space
    is free again.

    Striping: a range of a file and the extents of objects that it is mapped to are in
    one-to-one correspondence, in both directions; a read gives the bytes of the file
    whatever the order of the answers; truncation keeps exactly what lies before the
    new end; the number of objects is exact.

    File locks: a lock is set exactly when nothing conflicts with it; setting and
    removing locks does to the bytes of a file what the request says and keeps the
    table coherent and counted; a deadlock is reported only when there is a cycle.

    Placement group logs: when the entries of our log and of the authoritative one know
    what they replace and the two share a history, merging fails no assertion, leaves the
    authoritative history in our log, and leaves missing set and store in accordance with
    it ([accurate]: what is not missing has the version of the history, what is missing is
    needed in it).  The view that the primary takes of a replica agrees with what the
    replica itself arrives at.  Trimming keeps all of this.  Activation and recovery keep
    [last_complete] below every version that is needed, in any order of recovery, until it
    reaches the head.  The index of the missing set is kept under a condition on version
    numbers, and a run shows that it is lost without.

    Base64 and UTF-8: decoding undoes encoding, and the checker accepts exactly the
    well-formed strings, which are defined by the bytes of each range of code points and
    not by the encoder.

    Theorems about defects state what the code does where it departs from what it
    means to do; [forgotten_promise], [merge_loses_extent], [remove_item_defects],
    [merge_log_loses_index], [allocate_4g_never_ends], [chooseleaf_shift_undefined] and
    [merge_past_2g] are examples.

    ** Bounds and fuel

    The descents of CRUSH follow child pointers that nothing in the code keeps
    from forming a cycle, and retry; they take fuel.  On a map of depth [D] with at
    most [T] tries and [R] local retries, [(T + R + 0x10000) * (D + 1) + D + 1]
    turns are enough ([set_fuel] in CrushRule.v), as the termination theorems
    show.  [height] gets 32 turns, the width of its argument.  The shift of a replica
    number by [vary_r - 1] is defined for a [vary_r] of at most 32 ([shift_ok] in
    CrushFirstn.v), which the theorems on [firstn] rules ask for.  The loop of
    [is_split] needs at most [new_pg_num + 1] turns.  Pools have at most 2^30 groups,
    where the masks of the code fit an [int].  [RefMap.get] takes two turns per
    extent of the map and two more, [put] and [contains] one per extent and one
    more; the use tracker one per unit and one more; an encoded integer has at most
    ten bytes.  A range of a file takes a turn per stripe unit and three more, the
    insertion of free space one per bin and one more, an allocation one per unit and one
    more; the search for deadlocks is as deep as [MAX_DEADLK_DEPTH].  The allocator is
    used with a unit that is a power of two below 2^32, and file locks are set within
    the first 2^31 bytes, where the ends that the code computes fit.  All other
    recursion is structural.  There are 2 to 100 monitors, since the last two digits of a proposal number are the rank of its owner.

    ** What is not modelled

    Of the parts above: printing, configuration, names and statistics; reference
    counting and freeing of memory; the choose-tries histogram of the mapper; the
    encodings of the maps and of the messages.  Of the monitor: probing and the
    synchronisation of stores, which decide when an election starts and are events
    of the model; sessions, commands and the services, whose proposals are arbitrary
    writes; numbers of versions and proposals, 64-bit in the code, are unbounded.
    [wait_for_paxos_write] gives up the lock of the monitor while the store writes; the
    model completes the write in the same step, so nothing else runs at this monitor
    between the two.
    Of the logs of placement groups: the index by request, splitting a log, rebuilding
    the missing set from a store, reading and writing; the versions are unbounded too.
    Everything else in the repository: the rest of the OSD, the MDS and manager daemons, the rest of
    the object stores, messenger, client libraries, gateway and tools, which are
    event-driven I/O, and vendored libraries. *)
From stdpp Require Export prelude sorting.
From Stdlib Require Export ZArith Lia.
#[global] Open Scope Z_scope.

(** ** Machine integers

    A C or C++ integer of width [w] is a [Z]; the wrap-around of unsigned
    arithmetic and the two's complement conversion to a signed type are written
    out at the place where the source performs them. *)
Definition u8 (x : Z) : Z := x mod 2 ^ 8.
Definition u16 (x : Z) : Z := x mod 2 ^ 16.
Definition u32 (x : Z) : Z := x mod 2 ^ 32.
Definition u64 (x : Z) : Z := x mod 2 ^ 64.
Definition s32 (x : Z) : Z := (x + 2 ^ 31) mod 2 ^ 32 - 2 ^ 31.
Definition s64 (x : Z) : Z := (x + 2 ^ 63) mod 2 ^ 64 - 2 ^ 63.

Lemma u8_small x : 0 <= x < 2 ^ 8 -> u8 x = x.
Proof. apply Z.mod_small. Qed.
Lemma u16_small x : 0 <= x < 2 ^ 16 -> u16 x = x.
Proof. apply Z.mod_small. Qed.
Lemma u32_small x : 0 <= x < 2 ^ 32 -> u32 x = x.
Proof. apply Z.mod_small. Qed.
Lemma u64_small x : 0 <= x < 2 ^ 64 -> u64 x = x.
Proof. apply Z.mod_small. Qed.
Lemma s32_small x : - 2 ^ 31 <= x < 2 ^ 31 -> s32 x = x.
Proof. intros H. unfold s32. rewrite Z.mod_small; lia. Qed.
Lemma s64_small x : - 2 ^ 63 <= x < 2 ^ 63 -> s64 x = x.
Proof. intros H. unfold s64. rewrite Z.mod_small; lia. Qed.
Lemma u32_range x : 0 <= u32 x < 2 ^ 32.
Proof. apply Z.mod_pos_bound. lia. Qed.
Lemma u64_range x : 0 <= u64 x < 2 ^ 64.
Proof. apply Z.mod_pos_bound. lia. Qed.
Lemma s32_range x : - 2 ^ 31 <= s32 x < 2 ^ 31.
Proof.
  unfold s32. pose proof (Z.mod_pos_bound (x + 2 ^ 31) (2 ^ 32)). lia.
Qed.

(** [wrap_small] removes the wrap-arounds whose argument is provably in range. *)
Ltac wrap_small :=
  repeat match goal with
    | |- context [u64 ?e] => rewrite (u64_small e) by lia
    | |- context [s64 ?e] => rewrite (s64_small e) by lia
    | |- context [u32 ?e] => rewrite (u32_small e) by lia
    | |- context [s32 ?e] => rewrite (s32_small e) by lia
    | H : context [u64 ?e] |- _ => rewrite (u64_small e) in H by lia
    | H : context [s64 ?e] |- _ => rewrite (s64_small e) in H by lia
    | H : context [u32 ?e] |- _ => rewrite (u32_small e) in H by lia
    | H : context [s32 ?e] |- _ => rewrite (s32_small e) in H by lia
    end.

(** [zb] turns the boolean comparisons of the code, in hypotheses and in the
    tests of the goal, into the propositions [lia] reads. *)
Ltac zb :=
  repeat match goal with
    | H : (_ <? _) = true |- _ => apply Z.ltb_lt in H
    | H : (_ <? _) = false |- _ => apply Z.ltb_ge in H
    | H : (_ <=? _) = true |- _ => apply Z.leb_le in H
    | H : (_ <=? _) = false |- _ => apply Z.leb_gt in H
    | H : (_ =? _) = true |- _ => apply Z.eqb_eq in H
    | H : (_ =? _) = false |- _ => apply Z.eqb_neq in H
    end.

(** [zcase] splits on the comparisons the goal branches on, discarding the
    branches that arithmetic excludes. *)
Ltac zcase_one :=
  match goal with
  | |- context [if ?a <? ?b then _ else _] => destruct (Z.ltb_spec a b); try lia
  | |- context [if ?a <=? ?b then _ else _] => destruct (Z.leb_spec a b); try lia
  | |- context [if ?a =? ?b then _ else _] => destruct (Z.eqb_spec a b); try lia
  end.
Ltac zcase := repeat (zcase_one; simpl).

(** ** Computations that may stop

    [AssertFailed] is a failed [assert] or a [ceph_abort] of the source,
    [BadAccess] what the language leaves undefined (a null or out-of-bounds
    dereference, a shift beyond the type), [DivByZero] a division or remainder by zero,
    [EndOfBuffer] the exception a read past the end of a buffer throws and
    [OutOfFuel] the artificial bound of a loop that is not structural. *)
Inductive fault : Type :=
| AssertFailed
| BadAccess
| DivByZero
| EndOfBuffer
| OutOfFuel.

Inductive res (A : Type) : Type :=
| Ok (a : A)
| Err (f : fault).
Arguments Ok {A} a.
Arguments Err {A} f.

#[export] Instance fault_eq_dec : EqDecision fault.
Proof. solve_decision. Defined.

Definition bind {A B} (m : res A) (f : A → res B) : res B :=
  match m with Ok a => f a | Err e => Err e end.

Declare Scope res_scope.
Delimit Scope res_scope with res.
Notation "x <- m ;; k" := (bind m (λ x, k))
  (at level 20, m at level 99, k at level 200) : res_scope.
Notation "' p <- m ;; k" := (bind m (λ x, match x with p => k end))
  (at level 20, p pattern, m at level 99, k at level 200) : res_scope.
Notation "m ;;; k" := (bind m (λ _, k))
  (at level 100, right associativity) : res_scope.
#[global] Open Scope res_scope.

(** [assert] is the C [assert]; [deref] reads through a pointer or an index. *)
Definition assert (b : bool) : res unit := if b then Ok tt else Err AssertFailed.
Definition deref {A} (o : option A) : res A :=
  match o with Some a => Ok a | None => Err BadAccess end.

(** Array accesses at a C index: out of range is undefined behaviour. *)
Definition zget {A} (l : list A) (i : Z) : res A :=
  if i <? 0 then Err BadAccess else deref (l !! Z.to_nat i).
Definition zset {A} (l : list A) (i : Z) (a : A) : res (list A) :=
  if (i <? 0) || (Z.of_nat (length l) <=? i) then Err BadAccess
  else Ok (<[Z.to_nat i := a]> l).

Lemma bind_ok {A B} (f : A → res B) (a : A) : bind (Ok a) f = f a.
Proof. reflexivity. Qed.
Lemma bind_inv {A B} (m : res A) (f : A → res B) b :
  bind m f = Ok b → ∃ a, m = Ok a ∧ f a = Ok b.
Proof. destruct m as [a|]; simpl; [eauto | discriminate]. Qed.
Lemma assert_ok b : assert b = Ok tt ↔ b = true.
Proof. by destruct b. Qed.
Lemma assert_true b : b = true → assert b = Ok tt.
Proof. by intros ->. Qed.
Lemma assert_false b : b = false → assert b = Err AssertFailed.
Proof. by intros ->. Qed.
Lemma deref_ok {A} (o : option A) a : deref o = Ok a ↔ o = Some a.
Proof. destruct o; simpl; split; congruence. Qed.

Lemma zget_ok {A} (l : list A) i a :
  zget l i = Ok a ↔ 0 <= i ∧ l !! Z.to_nat i = Some a.
Proof.
  unfold zget. destruct (Z.ltb_spec i 0); [split; [done|lia]|].
  rewrite deref_ok. split; [auto|by intros [_ ?]].
Qed.
Lemma zget_in {A} (l : list A) i :
  0 <= i < Z.of_nat (length l) → ∃ a, zget l i = Ok a ∧ a ∈ l.
Proof.
  intros H. destruct (lookup_lt_is_Some_2 l (Z.to_nat i)) as [a Ha]; [lia|].
  exists a. split; [apply zget_ok; auto with lia | by eapply list_elem_of_lookup_2].
Qed.
Lemma zget_elem {A} (l : list A) i a : zget l i = Ok a → a ∈ l.
Proof. intros [_ H]%zget_ok. by eapply list_elem_of_lookup_2. Qed.
Lemma zset_ok {A} (l : list A) i a :
  0 <= i < Z.of_nat (length l) → zset l i a = Ok (<[Z.to_nat i := a]> l).
Proof.
  intros H. unfold zset. destruct (Z.ltb_spec i 0), (Z.leb_spec (Z.of_nat (length l)) i);
    simpl; lia || done.
Qed.

(** Masks of consecutive bits. *)
Lemma land_shifted i m p :
  0 <= p → Z.land i (Z.shiftl m p) = Z.shiftl (Z.land (Z.shiftr i p) m) p.
Proof.
  intros Hp. apply Z.bits_inj'. intros j Hj. rewrite Z.land_spec.
  destruct (Z.lt_ge_cases j p).
  - by rewrite !Z.shiftl_spec_low, andb_false_r.
  - rewrite !Z.shiftl_spec, Z.land_spec, Z.shiftr_spec by lia.
    by replace (j - p + p) with j by lia.
Qed.

Lemma land_shifted_mask i q p :
  0 <= p → 0 <= q → Z.land i (Z.shiftl (Z.ones q) p) = (i / 2 ^ p) mod 2 ^ q * 2 ^ p.
Proof.
  intros Hp Hq. rewrite land_shifted, Z.land_ones, Z.shiftr_div_pow2, Z.shiftl_mul_pow2 by done.
  done.
Qed.

(** Rounding down to a multiple of a power of two. *)
Lemma land_align x k : 0 <= k < 64 → 0 <= x < 2 ^ 64 → Z.land x (u64 (- 2 ^ k)) = x / 2 ^ k * 2 ^ k.
Proof.
  intros Hk Hx. assert (u64 (- 2 ^ k) = Z.shiftl (Z.ones (64 - k)) k) as ->.
  { rewrite Z.shiftl_mul_pow2, Z.ones_equiv, Z.mul_pred_l, <- Z.pow_add_r by lia. replace (64 - k + k) with 64 by lia.
    symmetry. apply (Z.mod_unique _ _ (-1)); [|lia]. pose proof (Z.pow_pos_nonneg 2 k). pose proof (Z.pow_le_mono_r 2 k 63). lia. }
  rewrite land_shifted_mask by lia. f_equal. apply Z.mod_small. split; [apply Z.div_pos; lia|].
  apply Z.div_lt_upper_bound; [lia|]. rewrite <- Z.pow_add_r by lia. replace (k + (64 - k)) with 64 by lia. lia.
Qed.

(** A decidable property of the numbers below a constant, by evaluation. *)
Definition all_below (n : nat) (P : Z → bool) : bool := forallb (λ i, P (Z.of_nat i)) (seq 0 n).
Lemma all_below_spec n P k : all_below n P = true → 0 <= k < Z.of_nat n → P k = true.
Proof.
  unfold all_below. rewrite forallb_forall. intros H Hk. rewrite <- (Z2Nat.id k) by lia.
  apply H, in_seq. lia.
Qed.

Lemma Forall2_with_l {A B} (P : A → Prop) (Q : A → B → Prop) l k :
  Forall P l → Forall2 Q l k → Forall2 (λ a b, P a ∧ Q a b) l k.
Proof. intros HP HQ. induction HQ; inversion_clear HP; constructor; auto. Qed.

(** Inverts every successful bind, assertion and dereference of the context. *)
Ltac res_inv :=
  repeat match goal with
    | H : bind _ _ = Ok _ |- _ =>
        let a := fresh "v" in let E := fresh "E" in
        apply bind_inv in H as (a & E & H)
    | H : Ok _ = Ok _ |- _ => injection H as H; subst
    | H : Err _ = Ok _ |- _ => discriminate H
    | H : assert _ = Ok _ |- _ => apply assert_ok in H
    | H : deref _ = Ok _ |- _ => apply deref_ok in H
    end; zb.
