(* ===== verification/StdMap.v ===== *)
(** * [std::map] with integer keys

    An ordered map is the list of its nodes in key order.  An iterator is a
    position in that list, [length m] being [end()]; a node is identified by its
    key, so that [m\[k\] = v] and [erase] act on keys and keep the other
    iterators valid, as the container does. *)
From S2P Require Import Prelude.

Section StdMap.
Context {V : Type}.
Implicit Types (m pre suf : list (Z * V)) (k : Z) (v : V).

(** Position of the first node whose key is not below [k]. *)
Fixpoint lower_bound (k : Z) (m : list (Z * V)) : nat :=
  match m with
  | [] => 0
  | (k', _) :: m' => if k' <? k then S (lower_bound k m') else 0
  end.

(** Position of the first node whose key is above [k]. *)
Fixpoint upper_bound (k : Z) (m : list (Z * V)) : nat :=
  match m with
  | [] => 0
  | (k', _) :: m' => if k' <=? k then S (upper_bound k m') else 0
  end.

(** [m\[k\] = v]. *)
Fixpoint map_set (k : Z) (v : V) (m : list (Z * V)) : list (Z * V) :=
  match m with
  | [] => [(k, v)]
  | (k', v') :: m' =>
      if k' <? k then (k', v') :: map_set k v m'
      else if k' =? k then (k, v) :: m'
      else (k, v) :: (k', v') :: m'
  end.

Fixpoint map_find (k : Z) (m : list (Z * V)) : option V :=
  match m with
  | [] => None
  | (k', v') :: m' => if k' =? k then Some v' else map_find k m'
  end.

Fixpoint map_erase (k : Z) (m : list (Z * V)) : list (Z * V) :=
  match m with
  | [] => []
  | (k', v') :: m' => if k' =? k then m' else (k', v') :: map_erase k m'
  end.

(** [insert(value_type(k, v))]: the node of [k], which an earlier one keeps. *)
Definition map_insert (k : Z) (v : V) (m : list (Z * V)) : nat * list (Z * V) :=
  (lower_bound k m,
   match map_find k m with Some _ => m | None => map_set k v m end).

Definition keys_below (k : Z) (m : list (Z * V)) : Prop := Forall (λ p, p.1 < k) m.
Definition keys_above (k : Z) (m : list (Z * V)) : Prop := Forall (λ p, k < p.1) m.

Lemma lower_bound_app k pre suf :
  keys_below k pre → lower_bound k (pre ++ suf) = (length pre + lower_bound k suf)%nat.
Proof.
  induction pre as [|[k' v'] pre IH]; intros H; [done|].
  apply Forall_cons in H as [H1 H2]; simpl in *. zcase. by rewrite IH.
Qed.

Lemma lower_bound_above k m : keys_above k m → lower_bound k m = 0%nat.
Proof.
  destruct m as [|[k' v'] m]; intros H; [done|].
  apply Forall_cons in H as [H1 H2]; simpl in *. by zcase.
Qed.

Lemma lower_bound_split k m :
  ∃ pre suf, m = pre ++ suf ∧ lower_bound k m = length pre ∧ keys_below k pre ∧
    match suf with [] => True | (k', _) :: _ => k <= k' end.
Proof.
  induction m as [|[k' v'] m (pre & suf & -> & IH & Hb & Hs)]; simpl.
  { exists [], []. split_and!; try done. constructor. }
  destruct (Z.ltb_spec k' k).
  - exists ((k', v') :: pre), suf. split_and!; [done|by rewrite IH| |done]. by constructor.
  - exists [], ((k', v') :: pre ++ suf). split_and!; try done. constructor.
Qed.

Lemma map_set_app k v pre suf :
  keys_below k pre → map_set k v (pre ++ suf) = pre ++ map_set k v suf.
Proof.
  induction pre as [|[k' v'] pre IH]; intros H; [done|].
  apply Forall_cons in H as [H1 H2]; simpl in *. zcase. by rewrite IH.
Qed.

Lemma map_set_end k v m : keys_below k m → map_set k v m = m ++ [(k, v)].
Proof. intros H. by rewrite <- (app_nil_r m) at 1; rewrite map_set_app. Qed.

Lemma map_set_above k v m : keys_above k m → map_set k v m = (k, v) :: m.
Proof.
  destruct m as [|[k' v'] m]; intros H; [done|].
  apply Forall_cons in H as [H1 H2]; simpl in *. by zcase.
Qed.

Lemma map_set_here k v v' m : map_set k v ((k, v') :: m) = (k, v) :: m.
Proof. simpl. by zcase. Qed.

Lemma map_set_snd k k' v v' m :
  k' < k → map_set k v ((k', v') :: m) = (k', v') :: map_set k v m.
Proof. intros H. simpl. by zcase. Qed.

Lemma map_set_Forall (P : Z * V → Prop) k v m : P (k, v) → Forall P m → Forall P (map_set k v m).
Proof.
  intros Hkv. induction 1 as [|[k' v'] m Hk Hm IH]; simpl; [by constructor|].
  destruct (k' <? k); [by constructor|]. destruct (k' =? k); by repeat constructor.
Qed.

Lemma map_erase_app k pre suf :
  keys_below k pre → map_erase k (pre ++ suf) = pre ++ map_erase k suf.
Proof.
  induction pre as [|[k' v'] pre IH]; intros H; [done|].
  apply Forall_cons in H as [H1 H2]; simpl in *. zcase. by rewrite IH.
Qed.

Lemma map_erase_here k v m : map_erase k ((k, v) :: m) = m.
Proof. simpl. by zcase. Qed.

Lemma map_erase_snd k k' v m :
  k' < k → map_erase k ((k', v) :: m) = (k', v) :: map_erase k m.
Proof. intros H. simpl. by zcase. Qed.

Lemma map_find_app k pre suf :
  keys_below k pre → map_find k (pre ++ suf) = map_find k suf.
Proof.
  induction pre as [|[k' v'] pre IH]; intros H; [done|].
  apply Forall_cons in H as [H1 H2]; simpl in *. zcase. by apply IH.
Qed.

Lemma map_find_above k m : keys_above k m → map_find k m = None.
Proof. induction 1 as [|[k' v'] m H1 H2 IH]; simpl in *; [done|]. by zcase. Qed.

Lemma map_insert_mid k v pre suf :
  keys_below k pre → keys_above k suf →
  map_insert k v (pre ++ suf) = (length pre, pre ++ (k, v) :: suf).
Proof.
  intros H1 H2. unfold map_insert.
  rewrite lower_bound_app, lower_bound_above, map_find_app, map_find_above,
    map_set_app, map_set_above by done. by rewrite Nat.add_0_r.
Qed.

Lemma map_insert_after k v k' v' pre suf :
  keys_below k pre → k' < k → keys_above k suf →
  map_insert k v (pre ++ (k', v') :: suf) = (S (length pre), pre ++ (k', v') :: (k, v) :: suf).
Proof.
  intros H1 H2 H3. change (pre ++ (k', v') :: suf) with (pre ++ [(k', v')] ++ suf).
  rewrite app_assoc, map_insert_mid, length_app, Nat.add_1_r, <- app_assoc; [done| |done].
  apply Forall_app. split; [done|]. by repeat constructor.
Qed.

Lemma lookup_pre_eq pre suf : (pre ++ suf) !! length pre = head suf.
Proof.
  rewrite lookup_app_r by lia. rewrite Nat.sub_diag. by destruct suf.
Qed.

Lemma lookup_pre_next pre p suf : (pre ++ p :: suf) !! S (length pre) = head suf.
Proof.
  rewrite lookup_app_r by lia. replace (S (length pre) - length pre)%nat with 1%nat by lia.
  by destruct suf.
Qed.

Lemma drop_pre_next pre p suf : drop (S (length pre)) (pre ++ p :: suf) = suf.
Proof. by induction pre. Qed.

Lemma keys_below_app k pre suf : keys_below k (pre ++ suf) ↔ keys_below k pre ∧ keys_below k suf.
Proof. apply Forall_app. Qed.
Lemma keys_below_mono k k' m : k <= k' → keys_below k m → keys_below k' m.
Proof. intros H Hm. eapply Forall_impl; [exact Hm | simpl; intros; lia]. Qed.
Lemma keys_above_mono k k' m : k' <= k → keys_above k m → keys_above k' m.
Proof. intros H Hm. eapply Forall_impl; [exact Hm | simpl; intros; lia]. Qed.

(** The nodes are in key order. *)
Definition keys_sorted (m : list (Z * V)) : Prop := StronglySorted (λ e e', e.1 < e'.1) m.

Lemma map_find_None k m : k ∉ m.*1 → map_find k m = None.
Proof.
  induction m as [|[k' v'] m IH]; intros H; [done|]. simpl. apply not_elem_of_cons in H as [H1 H2]. simpl in H1.
  rewrite (proj2 (Z.eqb_neq _ _)) by congruence. by apply IH.
Qed.

Lemma map_set_fresh k v m : k ∉ m.*1 → map_set k v m ≡ₚ (k, v) :: m.
Proof.
  induction m as [|[k' v'] m IH]; intros H; [done|]. simpl. apply not_elem_of_cons in H as [H1 H2]. simpl in H1.
  destruct (k' <? k); [rewrite IH by done; apply Permutation_swap|]. by rewrite (proj2 (Z.eqb_neq _ _)) by congruence.
Qed.

Lemma map_set_sorted k v m : keys_sorted m → keys_sorted (map_set k v m).
Proof.
  induction 1 as [|[k' v'] m Hs IH Hf]; simpl; [by repeat constructor|].
  destruct (Z.ltb_spec k' k); [|destruct (Z.eqb_spec k' k)].
  - constructor; [done|]. by apply map_set_Forall.
  - subst k'. by constructor.
  - constructor; [by constructor|]. constructor; [simpl; lia|]. eapply Forall_impl; [exact Hf|]. simpl. intros. lia.
Qed.

Lemma keys_sorted_nodup m : keys_sorted m → NoDup m.*1.
Proof.
  induction 1 as [|e m Hs IH Hf]; simpl; [constructor|]. apply NoDup_cons. split; [|done].
  intros (e' & E & He)%list_elem_of_fmap. rewrite Forall_forall in Hf. specialize (Hf _ He). lia.
Qed.

Lemma keys_sorted_unique m m' : keys_sorted m → keys_sorted m' → m ≡ₚ m' → m = m'.
Proof.
  intros H1 H2. apply (StronglySorted_unique_strong (λ e e', e.1 < e'.1)); [|done|done]. intros x y _ _ ? ?. lia.
Qed.

(** Nodes set one after the other in a map: any order of distinct keys gives the same. *)
Lemma map_find_set c c' v m : map_find c' (map_set c v m) = if c' =? c then Some v else map_find c' m.
Proof.
  induction m as [|[k w] m IH]; simpl; [by rewrite (Z.eqb_sym c c'); destruct (c' =? c)|].
  destruct (Z.ltb_spec k c), (Z.eqb_spec k c); simpl; rewrite ?IH; destruct (Z.eqb_spec c' c), (Z.eqb_spec c c'), (Z.eqb_spec k c'); (lia || done).
Qed.
Lemma map_find_erase c c' m : keys_sorted m → map_find c' (map_erase c m) = if c' =? c then None else map_find c' m.
Proof.
  induction 1 as [|[k w] m Hs IH Hf]; simpl; [by destruct (c' =? c)|].
  destruct (Z.eqb_spec k c) as [->|Hk]; simpl.
  - destruct (Z.eqb_spec c' c) as [->|]; [|destruct (Z.eqb_spec c c'); [lia|done]].
    apply map_find_above. eapply Forall_impl; [exact Hf|]. done.
  - rewrite IH. destruct (Z.eqb_spec k c'), (Z.eqb_spec c' c); (lia || done).
Qed.
Lemma map_erase_sorted c m : keys_sorted m → keys_sorted (map_erase c m).
Proof.
  induction 1 as [|[k w] m Hs IH Hf]; simpl; [constructor|]. destruct (k =? c); [done|]. constructor; [done|].
  clear -Hf. induction Hf as [|[k' w'] m H Hf IH]; simpl; [constructor|]. destruct (k' =? c); [done|]. by constructor.
Qed.

Definition map_set_all (es m : list (Z * V)) : list (Z * V) := foldl (λ m e, map_set e.1 e.2 m) m es.

Lemma map_set_all_sorted es m : keys_sorted m → keys_sorted (map_set_all es m).
Proof. revert m. induction es as [|e es IH]; intros m H; [done|]. by apply IH, map_set_sorted. Qed.

Lemma map_set_all_perm es m : NoDup (es ++ m).*1 → map_set_all es m ≡ₚ es ++ m.
Proof.
  revert m. induction es as [|[k v] es IH]; intros m H; [done|]. simpl in *. apply NoDup_cons in H as [Hk H].
  rewrite fmap_app, elem_of_app in Hk. unfold map_set_all in *. rewrite IH.
  - rewrite map_set_fresh by tauto. by rewrite Permutation_middle.
  - rewrite fmap_app in H |- *. rewrite map_set_fresh by tauto. simpl. rewrite <- Permutation_middle. apply NoDup_cons.
    rewrite elem_of_app. done.
Qed.

Lemma map_set_all_chain es m : NoDup es.*1 → keys_sorted m → es ≡ₚ m → map_set_all es [] = m.
Proof.
  intros Hd Hs Hp. apply keys_sorted_unique; [apply map_set_all_sorted; constructor|done|].
  rewrite map_set_all_perm by (by rewrite app_nil_r). by rewrite app_nil_r.
Qed.
End StdMap.
