(* ===== verification/IntervalSet.v ===== *)
(** * [interval_set<T>] (include/interval_set.h)

    A set of integers kept as an ordered map from the start of each maximal
    interval to its length, with a running element count.  [T] is instantiated at
    [uint64_t], the type the OSD and the object stores use; the additions of the
    source wrap at 64 bits and [_size] is an [int64_t]. *)
From S2P Require Import Prelude StdMap.

Module IntervalSet.

Record t : Type := mk { _size : Z; m : list (Z * Z) }.

#[export] Instance t_eq_dec : EqDecision t.
Proof. solve_decision. Defined.

(** ** Operations *)

Definition new : t := mk 0 [].
Definition clear (_ : t) : t := mk 0 [].

Definition sum_len (l : list (Z * Z)) : Z := foldl (λ acc p, s64 (acc + p.2)) 0 l.

(** The constructor from a map, and what [decode] does after reading the map. *)
Definition of_map (other : list (Z * Z)) : t := mk (sum_len other) other.

Definition num_intervals (s : t) : Z := s32 (Z.of_nat (length (m s))).

Definition find_inc (s : t) (start : Z) : nat :=
  let p := lower_bound start (m s) in
  if bool_decide (p ≠ 0%nat) &&
     match m s !! p with None => true | Some (f, _) => start <? f end
  then
    let q := pred p in
    match m s !! q with
    | Some (f, l) => if u64 (f + l) <=? start then S q else q
    | None => q
    end
  else p.

Definition find_adj (s : t) (start : Z) : nat :=
  let p := lower_bound start (m s) in
  if bool_decide (p ≠ 0%nat) &&
     match m s !! p with None => true | Some (f, _) => start <? f end
  then
    let q := pred p in
    match m s !! q with
    | Some (f, l) => if u64 (f + l) <? start then S q else q
    | None => q
    end
  else p.

Definition eqb (a b : t) : bool := (_size a =? _size b) && bool_decide (m a = m b).

Definition size (s : t) : Z := _size s.

(** [contains(i, &pstart, &plen)]: the interval found, if any. *)
Definition contains_at (s : t) (i : Z) : res (option (Z * Z)) :=
  match m s !! find_inc s i with
  | None => Ok None
  | Some (f, l) =>
      if i <? f then Ok None
      else if u64 (f + l) <=? i then Ok None
      else
        assert ((f <=? i) && (i <? u64 (f + l)));;;
        Ok (Some (f, l))
  end.

(** [contains(start, len)]. *)
Definition contains (s : t) (start len : Z) : res bool :=
  match m s !! find_inc s start with
  | None => Ok false
  | Some (f, l) =>
      if start <? f then Ok false
      else if u64 (f + l) <=? start then Ok false
      else
        assert ((f <=? start) && (start <? u64 (f + l)));;;
        if u64 (f + l) <? u64 (start + len) then Ok false else Ok true
  end.

Definition empty (s : t) : bool := bool_decide (m s = []).

Definition range_start (s : t) : res Z :=
  assert (negb (empty s));;;
  '(f, _) <- deref (m s !! 0%nat);;
  Ok f.

Definition range_end (s : t) : res Z :=
  assert (negb (empty s));;;
  '(f, l) <- deref (m s !! pred (length (m s)));;
  Ok (u64 (f + l)).

Definition starts_after (s : t) (i : Z) : res bool :=
  c <- contains_at s i;;
  assert (bool_decide (c = None));;;
  Ok (match m s !! find_inc s i with None => false | Some _ => true end).

Definition start_after (s : t) (i : Z) : res Z :=
  c <- contains_at s i;;
  assert (bool_decide (c = None));;;
  '(f, _) <- deref (m s !! find_inc s i);;
  Ok f.

Definition end_after (s : t) (start : Z) : res Z :=
  c <- contains_at s start;;
  assert (negb (bool_decide (c = None)));;;
  '(f, l) <- deref (m s !! find_inc s start);;
  Ok (u64 (f + l)).

(** [insert(start, len, &pstart, &plen)]: the new set and the interval that now
    holds the inserted range. *)
Definition insert_at (s : t) (start len : Z) : res (t * (Z * Z)) :=
  assert (0 <? len);;;
  let sz := s64 (_size s + len) in
  let i := find_adj s start in
  match m s !! i with
  | None => Ok (mk sz (map_set start len (m s)), (start, len))
  | Some (f, l) =>
      if f <? start then
        assert (u64 (f + l) =? start);;;
        let l1 := u64 (l + len) in
        let m1 := map_set f l1 (m s) in
        match m1 !! S i with
        | Some (nf, nl) =>
            if u64 (start + len) =? nf then
              let l2 := u64 (l1 + nl) in
              Ok (mk sz (map_erase nf (map_set f l2 m1)), (f, l2))
            else Ok (mk sz m1, (f, l1))
        | None => Ok (mk sz m1, (f, l1))
        end
      else if u64 (start + len) =? f then
        let l1 := u64 (len + l) in
        Ok (mk sz (map_erase f (map_set start l1 (m s))), (start, l1))
      else
        assert (u64 (start + len) <? f);;;
        Ok (mk sz (map_set start len (m s)), (start, len))
  end.

Definition insert (s : t) (start len : Z) : res t :=
  r <- insert_at s start len;; Ok r.1.

(** [erase(start, len)]. *)
Definition erase (s : t) (start len : Z) : res t :=
  let p := find_inc s start in
  let sz := s64 (_size s - len) in
  assert (0 <=? sz);;;
  match m s !! p with
  | None => Err AssertFailed
  | Some (f, l) =>
      assert (f <=? start);;;
      let before := u64 (start - f) in
      assert (u64 (before + len) <=? l);;;
      let after := u64 (l - before - len) in
      let m1 := if before =? 0 then map_erase f (m s) else map_set f before (m s) in
      let m2 := if after =? 0 then m1 else map_set (u64 (start + len)) after m1 in
      Ok (mk sz m2)
  end.

(** [erase(iterator)]. *)
Definition erase_iter (s : t) (i : nat) : res t :=
  '(f, l) <- deref (m s !! i);;
  let sz := s64 (_size s - l) in
  assert (0 <=? sz);;;
  Ok (mk sz (map_erase f (m s))).

Fixpoint erase_all (s : t) (l : list (Z * Z)) : res t :=
  match l with
  | [] => Ok s
  | (f, n) :: l' => s' <- erase s f n;; erase_all s' l'
  end.
Definition subtract (s a : t) : res t := erase_all s (m a).

Fixpoint insert_all (s : t) (l : list (Z * Z)) : res t :=
  match l with
  | [] => Ok s
  | (f, n) :: l' => s' <- insert s f n;; insert_all s' l'
  end.
Definition insert_set (s a : t) : res t := insert_all s (m a).

(** The merge loop of [intersection_of]; each turn advances one of the two
    iterators, so the two lengths together bound the turns. *)
Fixpoint intersection_loop (fuel : nat) (s : t) (pa pb : list (Z * Z)) : res t :=
  match pa, pb with
  | [], _ | _, [] => Ok s
  | (fa, la) :: pa', (fb, lb) :: pb' =>
      match fuel with
      | O => Err OutOfFuel
      | S fuel =>
          if u64 (fa + la) <=? fb then intersection_loop fuel s pa' pb
          else if u64 (fb + lb) <=? fa then intersection_loop fuel s pa pb'
          else
            let start := Z.max fa fb in
            let en := Z.min (u64 (fa + la)) (u64 (fb + lb)) in
            assert (start <? en);;;
            s' <- insert s start (u64 (en - start));;
            if u64 (fb + lb) <? u64 (fa + la)
            then intersection_loop fuel s' pa pb'
            else intersection_loop fuel s' pa' pb
      end
  end.
Definition intersection_of (a b : t) : res t :=
  intersection_loop (length (m a) + length (m b)) new (m a) (m b).

Definition intersects (s : t) (start len : Z) : res bool :=
  a <- insert new start len;;
  i <- intersection_of s a;;
  Ok (negb (empty i)).

Definition union_of (a b : t) : res t :=
  ab <- intersection_of a b;;
  s <- subtract (mk (_size a) (m a)) ab;;
  insert_set s b.

(** The variants with one argument swap the contents out first. *)
Definition swap (s other : t) : t * t := (other, s).
Definition intersection_with (s b : t) : res t :=
  let '(_, a) := swap s new in intersection_of a b.
Definition union_with (s b : t) : res t :=
  let '(_, a) := swap s new in union_of a b.
Definition union_insert (s : t) (off len : Z) : res t :=
  a <- insert new off len;;
  union_with s a.

(** The variants for a single value. *)
Definition insert_val (s : t) (val : Z) : res t := insert s val 1.
Definition erase_val (s : t) (val : Z) : res t := erase s val 1.

(** [move_into] hands the map over and leaves [_size] as it was. *)
Definition move_into (s : t) : list (Z * Z) * t := (m s, mk (_size s) []).

Fixpoint subset_loop (l : list (Z * Z)) (big : t) : res bool :=
  match l with
  | [] => Ok true
  | (f, n) :: l' =>
      c <- contains big f n;;
      if c then subset_loop l' big else Ok false
  end.
Definition subset_of (s big : t) : res bool := subset_loop (m s) big.

Fixpoint span_loop (s : t) (l : list (Z * Z)) (len : Z) : res t :=
  match l with
  | [] => Ok s
  | (f, n) :: l' =>
      if 0 <? len then
        if n <? len then
          s' <- insert s f n;; span_loop s' l' (u64 (len - n))
        else insert s f len
      else Ok s
  end.

Definition span_of (other : t) (start len : Z) : res t :=
  let p := find_inc other start in
  match m other !! p with
  | None => Ok new
  | Some (f, l) =>
      if f <? start then
        if u64 (f + l) <? start then Ok new
        else if u64 (f + l) <? u64 (start + len) then
          let howmuch := u64 (l - u64 (start - f)) in
          s <- insert new start howmuch;;
          span_loop s (drop (S p) (m other)) (u64 (len - howmuch))
        else insert new start len
      else span_loop new (drop p (m other)) len
  end.

(** ** The invariant

    Intervals are non-empty, in increasing order and never touch, so that every
    set has one representation; all bounds stay below 2^63, where neither the
    unsigned additions nor the signed element count wrap. *)
Fixpoint chain (lo : Z) (l : list (Z * Z)) : Prop :=
  match l with
  | [] => True
  | (f, n) :: l' => lo <= f ∧ 0 < n ∧ f + n < 2 ^ 63 ∧ chain (f + n + 1) l'
  end.

Fixpoint total (l : list (Z * Z)) : Z :=
  match l with [] => 0 | (_, n) :: l' => n + total l' end.

Definition wf (s : t) : Prop := chain 0 (m s) ∧ _size s = total (m s).

(** Membership: [x] lies in one of the intervals. *)
Definition covers (l : list (Z * Z)) (x : Z) : Prop := Exists (λ p, p.1 <= x < p.1 + p.2) l.
#[export] Instance elem_of_t : ElemOf Z t := λ x s, covers (m s) x.

Lemma elem_of_eq x s : (x ∈ s) = covers (m s) x.
Proof. reflexivity. Qed.

(** Where the next interval may start. *)
Fixpoint bound (lo : Z) (l : list (Z * Z)) : Z :=
  match l with [] => lo | (f, n) :: l' => bound (f + n + 1) l' end.

Lemma chain_app lo pre suf :
  chain lo (pre ++ suf) ↔ chain lo pre ∧ chain (bound lo pre) suf.
Proof.
  revert lo; induction pre as [|[f n] pre IH]; intros lo; simpl; [tauto|].
  rewrite IH. tauto.
Qed.

Lemma chain_mono lo lo' l : lo' <= lo → chain lo l → chain lo' l.
Proof. destruct l as [|[f n] l]; simpl; intuition lia. Qed.

Lemma bound_ge lo l : chain lo l → lo <= bound lo l.
Proof.
  revert lo; induction l as [|[f n] l IH]; intros lo; simpl; [lia|].
  intros (? & ? & ? & H). apply IH in H. lia.
Qed.

Lemma chain_ends lo l : chain lo l → Forall (λ p, p.1 + p.2 < bound lo l) l.
Proof.
  revert lo; induction l as [|[f n] l IH]; intros lo; simpl; [by constructor|].
  intros (? & ? & ? & H). constructor; [|by apply IH].
  apply bound_ge in H. simpl. lia.
Qed.

Lemma chain_nonempty lo l : chain lo l → Forall (λ p, lo <= p.1 ∧ 0 < p.2 ∧ p.1 + p.2 < 2 ^ 63) l.
Proof.
  revert lo; induction l as [|[f n] l IH]; intros lo; simpl; [by constructor|].
  intros (? & ? & ? & H). constructor; [simpl; lia|].
  eapply Forall_impl; [by apply IH|]. simpl; lia.
Qed.

Lemma bound_app lo pre suf : bound lo (pre ++ suf) = bound (bound lo pre) suf.
Proof. revert lo; induction pre as [|[f n] pre IH]; intros lo; simpl; auto. Qed.

Lemma bound_le lo k l : lo <= k → Forall (λ p, p.1 + p.2 < k) l → bound lo l <= k.
Proof.
  revert lo; induction l as [|[f n] l IH]; intros lo Hlo H; simpl; [lia|].
  apply Forall_cons in H as [? ?]; simpl in *. apply IH; [lia|done].
Qed.

Lemma chain_keys_below lo l k :
  chain lo l → Forall (λ p, p.1 + p.2 <= k) l → keys_below k l.
Proof.
  intros H He. apply chain_nonempty in H.
  eapply Forall_impl; [exact (proj2 (Forall_and _ _) (conj H He))|]. simpl; lia.
Qed.

Lemma chain_keys_above lo l k : chain lo l → k < lo → keys_above k l.
Proof.
  intros H Hk. apply chain_nonempty in H. eapply Forall_impl; [exact H|]. simpl; lia.
Qed.

Lemma covers_app pre suf x : covers (pre ++ suf) x ↔ covers pre x ∨ covers suf x.
Proof. apply Exists_app. Qed.
Lemma covers_cons f n l x : covers ((f, n) :: l) x ↔ f <= x < f + n ∨ covers l x.
Proof. apply Exists_cons. Qed.
Lemma covers_nil x : covers [] x ↔ False.
Proof. apply Exists_nil. Qed.

Lemma covers_range lo l x : chain lo l → covers l x → lo <= x < bound lo l.
Proof.
  intros H Hx. pose proof (chain_nonempty _ _ H) as H1. pose proof (chain_ends _ _ H) as H2.
  apply Exists_exists in Hx as (p & Hp & ?).
  rewrite Forall_forall in H1, H2. specialize (H1 _ Hp). specialize (H2 _ Hp). lia.
Qed.

Lemma covers_above e l x : chain (e + 1) l → covers l x → e < x.
Proof. intros H Hx. apply (covers_range _ _ _ H) in Hx. lia. Qed.

Lemma total_app pre suf : total (pre ++ suf) = total pre + total suf.
Proof. induction pre as [|[f n] pre IH]; simpl; lia. Qed.

Lemma total_bound lo l :
  chain lo l → 0 <= total l ∧ lo + total l + Z.of_nat (length l) <= bound lo l.
Proof.
  revert lo; induction l as [|[f n] l IH]; intros lo; simpl; [lia|].
  intros (? & ? & ? & H). apply IH in H. lia.
Qed.

Lemma bound_small lo l : lo <= 2 ^ 63 → chain lo l → bound lo l <= 2 ^ 63.
Proof.
  revert lo; induction l as [|[f n] l IH]; intros lo ?; simpl; [lia|].
  intros (? & ? & ? & Hc). apply IH in Hc; lia.
Qed.

(** ** The two searches

    Both stop at the first interval whose end passes the test; [find_inc] wants
    an end above [start], [find_adj] an end at or above it. *)
Definition find_with (past : Z → Z → bool) (l : list (Z * Z)) (start : Z) : nat :=
  let p := lower_bound start l in
  if bool_decide (p ≠ 0%nat) &&
     match l !! p with None => true | Some (f, _) => start <? f end
  then
    let q := pred p in
    match l !! q with
    | Some (f, n) => if past (u64 (f + n)) start then S q else q
    | None => q
    end
  else p.

Lemma find_with_spec (past : Z → Z → bool) (ok : Z → Z → Prop) lo l start :
  (∀ e, past e start = true ↔ ok e start) →
  (∀ e, e < start → ok e start) → (∀ e, start < e → ¬ ok e start) →
  0 <= lo → chain lo l →
  ∃ pre suf, l = pre ++ suf ∧ find_with past l start = length pre ∧
    Forall (λ p, ok (p.1 + p.2) start) pre ∧
    match suf with [] => True | (f, n) :: _ => ¬ ok (f + n) start end.
Proof.
  intros Hpast Hlt Hgt Hlo H. unfold find_with.
  destruct (lower_bound_split start l) as (pre & suf & -> & -> & Hb & Hs).
  rewrite lookup_pre_eq. apply chain_app in H as [Hp Hc].
  assert (Hpre : ∀ k, bound lo pre <= k → k <= start → Forall (λ p, ok (p.1 + p.2) start) pre).
  { intros k H1 H2. eapply Forall_impl; [by apply chain_ends|].
    simpl. intros p ?. apply Hlt. lia. }
  assert ((∃ n suf', suf = (start, n) :: suf') ∨
    (match head suf with None => true | Some (f, _) => start <? f end = true ∧
     match suf with [] => True | (f, _) :: _ => start < f end)) as [(n & suf' & ->)|[-> Hs']].
  { destruct suf as [|[f n] suf]; [by right|]. destruct (decide (f = start)) as [->|]; [eauto|].
    right. simpl. split; [apply Z.ltb_lt|]; lia. }
  { simpl in *. rewrite Z.ltb_irrefl, andb_false_r. exists pre, ((start, n) :: suf').
    repeat split; auto; [apply (Hpre start); lia | apply Hgt; lia]. }
  rewrite andb_true_r.
  destruct pre as [|p0 pre0] using rev_ind; [|clear IHpre0]; simpl.
  { exists [], suf. repeat split; auto. destruct suf as [|[f n] suf]; [done|].
    simpl in *. apply Hgt. lia. }
  destruct p0 as [f n]. rewrite length_app, bool_decide_eq_true_2 by (simpl; lia).
  replace (pred (length pre0 + length [(f, n)])) with (length pre0) by (simpl; lia).
  rewrite <- app_assoc, lookup_pre_eq. simpl.
  apply chain_app in Hp as [Hp0 Hp1]. simpl in Hp1.
  pose proof (bound_ge _ _ Hp0).
  apply keys_below_app in Hb as [_ Hb]. apply Forall_cons in Hb as [Hb _]; simpl in Hb.
  rewrite u64_small by lia.
  assert (Forall (λ p, ok (p.1 + p.2) start) pre0).
  { eapply Forall_impl; [by apply chain_ends|]. simpl. intros p ?. apply Hlt. lia. }
  destruct (past (f + n) start) eqn:Ep.
  - exists (pre0 ++ [(f, n)]), suf. rewrite <- app_assoc, length_app. repeat split; auto.
    + simpl. lia.
    + apply Forall_app. split; [done|]. constructor; [|constructor]. by apply Hpast.
    + destruct suf as [|[f' n'] suf]; [done|]. simpl in *. apply Hgt. lia.
  - exists pre0, ((f, n) :: suf). repeat split; auto.
    rewrite <- Hpast. congruence.
Qed.

Lemma find_inc_spec s start :
  chain 0 (m s) →
  ∃ pre suf, m s = pre ++ suf ∧ find_inc s start = length pre ∧
    Forall (λ p, p.1 + p.2 <= start) pre ∧
    match suf with [] => True | (f, n) :: _ => start < f + n end.
Proof.
  intros H. destruct (find_with_spec Z.leb Z.le 0 (m s) start) as (pre & suf & ? & ? & ? & Hs);
    auto; try lia.
  exists pre, suf. repeat split; auto. destruct suf as [|[f n] ?]; [done|lia].
Qed.

Lemma find_adj_spec s start :
  chain 0 (m s) →
  ∃ pre suf, m s = pre ++ suf ∧ find_adj s start = length pre ∧
    Forall (λ p, p.1 + p.2 < start) pre ∧
    match suf with [] => True | (f, n) :: _ => start <= f + n end.
Proof.
  intros H. destruct (find_with_spec Z.ltb Z.lt 0 (m s) start) as (pre & suf & ? & ? & ? & Hs);
    auto; try lia.
  exists pre, suf. repeat split; auto. destruct suf as [|[f n] ?]; [done|lia].
Qed.

Lemma total_small l : chain 0 l → 0 <= total l < 2 ^ 63.
Proof.
  intros H. pose proof (total_bound _ _ H). pose proof (bound_small 0 l ltac:(lia) H).
  destruct l; [simpl; lia|]. cbn [length] in *. lia.
Qed.

(** ** Insertion *)

Definition disjoint_from (start len : Z) (s : t) : Prop :=
  ∀ x, start <= x < start + len → x ∉ s.

(** What it means for [l'] to be the intervals of [l] with [start, start+len)
    added. *)
Definition adds (l : list (Z * Z)) (start len : Z) (l' : list (Z * Z)) : Prop :=
  chain 0 l' ∧ total l' = total l + len ∧
  ∀ x, covers l' x ↔ covers l x ∨ start <= x < start + len.

Lemma adds_wf s start len l' iv :
  wf s → adds (m s) start len l' → iv ∈ l' →
  iv.1 <= start → start + len <= iv.1 + iv.2 →
  ∃ s' p, Ok (mk (s64 (_size s + len)) l', iv) = Ok (s', p) ∧ wf s' ∧
    size s' = size s + len ∧ (∀ x, x ∈ s' ↔ x ∈ s ∨ start <= x < start + len) ∧
    p ∈ m s' ∧ p.1 <= start ∧ start + len <= p.1 + p.2.
Proof.
  intros [Hc Hsz] (Hc' & Ht & Hx) Hiv ??.
  pose proof (total_small _ Hc'). rewrite s64_small by lia.
  eexists _, _. split; [done|]. split; [split; [done | simpl; lia]|].
  split; [done|]. split; [exact Hx | done].
Qed.

(** Splits the statements on an interval list at its visible joints. *)
Ltac joints :=
  repeat match goal with
    | H : chain _ (_ ++ _) |- _ => apply chain_app in H as [? ?]
    | H : chain _ (_ :: _) |- _ => cbn [chain] in H; destruct_and! H
    end;
  repeat first [rewrite total_app | rewrite chain_app | progress cbn [total chain bound]].
Ltac joints_cover :=
  intros x; repeat first [rewrite covers_app | rewrite covers_cons | rewrite covers_nil];
  try (intuition lia).

(** The four shapes an insertion takes: a new interval, an interval extended at
    its end, one extended at its front, and two intervals joined. *)
Lemma adds_new pre suf start len :
  chain 0 (pre ++ suf) → 0 <= start → 0 < len → start + len < 2 ^ 63 →
  bound 0 pre <= start →
  match suf with [] => True | (f, _) :: _ => start + len < f end →
  adds (pre ++ suf) start len (pre ++ (start, len) :: suf).
Proof.
  intros Hc ???? Hs. unfold adds. joints. split; [|split; [lia | joints_cover]].
  repeat split; auto; try lia.
  destruct suf as [|[f n] suf]; [done|]. simpl in *. intuition lia.
Qed.

Lemma adds_after pre f n suf len :
  chain 0 (pre ++ (f, n) :: suf) → 0 < len → f + n + len < 2 ^ 63 →
  match suf with [] => True | (f', _) :: _ => f + n + len < f' end →
  adds (pre ++ (f, n) :: suf) (f + n) len (pre ++ (f, n + len) :: suf).
Proof.
  intros Hc ?? Hs. unfold adds. joints. split; [|split; [lia | joints_cover]].
  repeat split; auto; try lia.
  destruct suf as [|[f' n'] suf]; [done|]. simpl in *. intuition lia.
Qed.

Lemma adds_before pre n suf start len :
  chain 0 (pre ++ (start + len, n) :: suf) → 0 < len → bound 0 pre <= start →
  adds (pre ++ (start + len, n) :: suf) start len (pre ++ (start, len + n) :: suf).
Proof.
  intros Hc ??. unfold adds. joints. split; [|split; [lia | joints_cover]].
  repeat split; auto; try lia. eapply chain_mono; [|eauto]; lia.
Qed.

Lemma adds_bridge pre f n nl suf len :
  chain 0 (pre ++ (f, n) :: (f + n + len, nl) :: suf) → 0 < len →
  adds (pre ++ (f, n) :: (f + n + len, nl) :: suf) (f + n) len
       (pre ++ (f, n + len + nl) :: suf).
Proof.
  intros Hc ?. unfold adds. joints. split; [|split; [lia | joints_cover]].
  repeat split; auto; try lia. eapply chain_mono; [|eauto]; lia.
Qed.

Lemma insert_at_ok s start len :
  wf s → 0 <= start → 0 < len → start + len < 2 ^ 63 → disjoint_from start len s →
  ∃ s' p, insert_at s start len = Ok (s', p) ∧ wf s' ∧ size s' = size s + len ∧
    (∀ x, x ∈ s' ↔ x ∈ s ∨ start <= x < start + len) ∧
    p ∈ m s' ∧ p.1 <= start ∧ start + len <= p.1 + p.2.
Proof.
  intros Hwf H0 Hlen Hmax Hdis. pose proof Hwf as [Hc Hsz].
  destruct (find_adj_spec s start Hc) as (pre & suf & Em & Ei & Hpre & Hsuf).
  unfold insert_at. rewrite Ei, assert_true, bind_ok by (by apply Z.ltb_lt).
  assert (Hd : ∀ x, covers (m s) x → start <= x → start + len <= x).
  { intros x Hx ?. destruct (decide (x < start + len)); [|lia]. destruct (Hdis x); [lia|done]. }
  assert (Hb : bound 0 pre <= start) by (by apply bound_le).
  pose proof (λ l' iv, adds_wf s start len l' iv Hwf) as Hfin.
  rewrite Em in Hc, Hd, Hfin |- *. pose proof Hc as [Hp Hs]%chain_app.
  assert (Hkb : ∀ k, bound 0 pre <= k → keys_below k pre).
  { intros k Hk. eapply chain_keys_below; [done|].
    eapply Forall_impl; [by apply chain_ends | simpl; lia]. }
  rewrite lookup_pre_eq.
  destruct suf as [|[f n] suf]; cbn [head].
  { rewrite app_nil_r in *. rewrite map_set_end by auto.
    apply Hfin; simpl; try lia; [|set_solver].
    rewrite <- (app_nil_r pre) at 1. by apply adds_new; rewrite ?app_nil_r. }
  destruct Hs as (? & ? & ? & Hs). pose proof (bound_ge 0 pre Hp). wrap_small.
  assert (Hf : covers (pre ++ (f, n) :: suf) f).
  { apply covers_app, or_intror, covers_cons. lia. }
  destruct (Z.ltb_spec f start).
  - assert (start = f + n) as ->.
    { destruct (decide (start < f + n)); [|lia].
      assert (start + len <= start); [apply Hd|]; [|lia..].
      apply covers_app, or_intror, covers_cons. lia. }
    rewrite assert_true, bind_ok by (apply Z.eqb_refl).
    rewrite !map_set_app, !map_set_here, lookup_pre_next by auto.
    destruct suf as [|[nf nl] suf]; cbn [head].
    { apply Hfin; simpl; try lia; [|set_solver]. by apply adds_after. }
    destruct Hs as (? & ? & ? & Hs). assert (f + n + len <= nf).
    { apply Hd; [|lia].
      apply covers_app, or_intror, covers_cons, or_intror, covers_cons. lia. }
    destruct (Z.eqb_spec (f + n + len) nf) as [<-|].
    + wrap_small. rewrite map_set_app, map_set_here, map_erase_app, map_erase_snd, map_erase_here by auto with lia.
      apply Hfin; simpl; try lia; [|set_solver]. by apply adds_bridge.
    + apply Hfin; simpl; try lia; [|set_solver].
      apply adds_after; auto; lia.
  - assert (start + len <= f) by auto.
    assert (keys_above start ((f, n) :: suf)).
    { constructor; [simpl; lia|]. eapply chain_keys_above; [eauto|lia]. }
    destruct (Z.eqb_spec (start + len) f) as [<-|].
    + rewrite map_set_app, map_set_above by auto.
      rewrite map_erase_app, map_erase_snd, map_erase_here by auto with lia. wrap_small.
      apply Hfin; simpl; try lia; [|set_solver]. by apply adds_before.
    + rewrite assert_true, bind_ok by (apply Z.ltb_lt; lia).
      rewrite map_set_app, map_set_above by auto.
      apply Hfin; simpl; try lia; [|set_solver]. apply adds_new; auto; lia.
Qed.

(** ** Containment and removal *)

Definition within (start len : Z) (s : t) : Prop := ∀ x, start <= x < start + len → x ∈ s.

(** A covered range lies inside one interval, the one [find_inc] returns. *)
Lemma within_single s start len pre suf :
  chain 0 (m s) → 0 < len → m s = pre ++ suf →
  Forall (λ p, p.1 + p.2 <= start) pre →
  match suf with [] => True | (f, n) :: _ => start < f + n end →
  within start len s ↔
  ∃ f n suf', suf = (f, n) :: suf' ∧ f <= start ∧ start + len <= f + n.
Proof.
  intros Hc Hlen Em Hpre Hsuf. unfold within. setoid_rewrite elem_of_eq. rewrite Em in *.
  apply chain_app in Hc as [Hp Hs].
  assert (Hno : ∀ x, start <= x → ¬ covers pre x).
  { intros x Hx Hcov. apply Exists_exists in Hcov as (p & Hin & ?).
    rewrite Forall_forall in Hpre. specialize (Hpre _ Hin). lia. }
  setoid_rewrite covers_app. split.
  - intros H. destruct suf as [|[f n] suf].
    { destruct (H start) as [?|?%covers_nil]; [lia|edestruct Hno; eauto; lia|done]. }
    destruct Hs as (? & ? & ? & Hs).
    assert (Hs' : ∀ x, covers ((f, n) :: suf) x → f <= x ∧ (x < f + n ∨ f + n < x)).
    { intros x [?|Hx]%covers_cons; [lia|]. apply (covers_range _ _ _ Hs) in Hx. lia. }
    exists f, n, suf. repeat split.
    + destruct (H start) as [?|?%Hs']; [lia|edestruct Hno; eauto; lia|lia].
    + destruct (decide (start + len <= f + n)); [done|].
      destruct (H (f + n)) as [?|?%Hs']; [lia|edestruct Hno; eauto; lia|lia].
  - intros (f & n & suf' & -> & ? & ?) x ?. right. apply covers_cons. lia.
Qed.

(** [l'] is [l] without [start, start+len). *)
Definition removes (l : list (Z * Z)) (start len : Z) (l' : list (Z * Z)) : Prop :=
  chain 0 l' ∧ total l' = total l - len ∧
  ∀ x, covers l' x ↔ covers l x ∧ ¬ (start <= x < start + len).

Lemma removes_split pre f n suf start len :
  chain 0 (pre ++ (f, n) :: suf) → 0 < len → f <= start → start + len <= f + n →
  removes (pre ++ (f, n) :: suf) start len
    (pre ++ (if start - f =? 0 then [] else [(f, start - f)]) ++
     (if f + n - (start + len) =? 0 then [] else [(start + len, f + n - (start + len))]) ++ suf).
Proof.
  intros Hc ???. unfold removes. joints.
  assert (Hlo : ∀ x, covers pre x → x < f).
  { intros x Hx. eapply covers_range in Hx; eauto. lia. }
  assert (Hhi : ∀ x, covers suf x → f + n < x).
  { intros x Hx. eapply covers_range in Hx; eauto. lia. }
  repeat zcase_one; joints; cbn [app]; split_and!; auto; try lia; try joints_cover.
  all: try (eapply chain_mono; [|eauto]; lia).
  all: specialize (Hlo x); specialize (Hhi x); intuition lia.
Qed.

Lemma chain_pre_below pre suf k :
  chain 0 (pre ++ suf) → bound 0 pre <= k → keys_below k pre.
Proof.
  intros [H _]%chain_app Hk. eapply chain_keys_below; [done|].
  eapply Forall_impl; [by apply chain_ends | simpl; lia].
Qed.

Lemma erase_ok s start len :
  wf s → 0 <= start → 0 < len → within start len s →
  ∃ s', erase s start len = Ok s' ∧ wf s' ∧ size s' = size s - len ∧
    (∀ x, x ∈ s' ↔ x ∈ s ∧ ¬ (start <= x < start + len)).
Proof.
  intros [Hc Hsz] H0 Hlen Hin.
  destruct (find_inc_spec s start Hc) as (pre & suf & Em & Ei & Hpre & Hsuf).
  apply (within_single s start len pre suf) in Hin as (f & n & suf' & -> & ? & ?); auto.
  pose proof (total_small _ Hc) as Htot. unfold erase.
  rewrite Ei, Em, lookup_pre_eq. cbn [head]. setoid_rewrite elem_of_eq. rewrite Em in *.
  pose proof Hc as (Hp & ? & ? & ? & Hs)%chain_app. pose proof (bound_ge 0 pre Hp).
  destruct (removes_split pre f n suf' start len Hc Hlen) as (Hc' & Ht & Hx); [done..|].
  pose proof (total_small _ Hc'). wrap_small.
  pose proof (λ k, chain_pre_below pre _ k Hc) as Hkb.
  assert (Hka : ∀ k, k <= f + n → keys_above k suf') by
    (intros; eapply chain_keys_above; [exact Hs | lia]).
  rewrite !assert_true, !bind_ok by (apply Z.leb_le; lia).
  replace (n - (start - f) - len) with (f + n - (start + len)) by lia.
  eexists. split; [done|]. unfold wf, size. cbn [_size m].
  match goal with |- context [chain 0 ?l] => set (l' := l) end.
  match type of Hc' with chain 0 ?l => assert (l' = l) as -> end.
  { subst l'. repeat zcase_one;
      repeat first [rewrite map_set_app by auto with lia | rewrite map_erase_app by auto
        | rewrite map_erase_here | rewrite map_set_here | rewrite map_set_snd by lia
        | rewrite map_set_above by auto]; done. }
  split; [split; [done|lia]|]. split; [lia|done].
Qed.

Lemma erase_err s start len :
  wf s → 0 <= start → 0 < len → start + len < 2 ^ 63 → ¬ within start len s →
  erase s start len = Err AssertFailed.
Proof.
  intros [Hc Hsz] H0 Hlen Hmax Hout.
  destruct (find_inc_spec s start Hc) as (pre & suf & Em & Ei & Hpre & Hsuf).
  rewrite (within_single s start len pre suf) in Hout by done.
  unfold erase. destruct (assert (0 <=? _)) as [[]|fl] eqn:Ea; [|by destruct (_ <=? _); inv Ea].
  rewrite Ei, Em, lookup_pre_eq, bind_ok. destruct suf as [|[f n] suf]; [done|]. cbn [head].
  rewrite Em in Hc. apply chain_app in Hc as (Hp & ? & ? & ? & Hs). pose proof (bound_ge 0 pre Hp).
  destruct (Z.leb_spec f start); [|done]. simpl. wrap_small.
  rewrite assert_false; [done|]. apply Z.leb_gt. destruct (decide (start + len <= f + n)); [|lia].
  destruct Hout. by exists f, n, suf.
Qed.

Lemma contains_ok s start len :
  wf s → 0 <= start → 0 < len → start + len < 2 ^ 63 →
  ∃ b, contains s start len = Ok b ∧ (b = true ↔ within start len s).
Proof.
  intros [Hc Hsz] H0 Hlen Hmax.
  destruct (find_inc_spec s start Hc) as (pre & suf & Em & Ei & Hpre & Hsuf).
  setoid_rewrite (within_single s start len pre suf Hc Hlen Em Hpre Hsuf).
  unfold contains. rewrite Ei, Em, lookup_pre_eq.
  destruct suf as [|[f n] suf]; cbn [head].
  { exists false. split; [done|]. split; [done|]. by intros (? & ? & ? & ? & ?). }
  rewrite Em in Hc. apply chain_app in Hc as (Hp & ? & ? & ? & Hs). pose proof (bound_ge 0 pre Hp).
  wrap_small. repeat zcase_one; rewrite ?assert_true, ?bind_ok by lia;
    (eexists; split; [done|]); split; try done; try (intros (? & ? & ? & ? & ?); simplify_eq; lia).
  by exists f, n, suf.
Qed.

Lemma contains_at_ok s i :
  wf s → 0 <= i → ∃ o, contains_at s i = Ok o ∧
    match o with None => i ∉ s | Some (f, n) => (f, n) ∈ m s ∧ f <= i < f + n end.
Proof.
  intros [Hc Hsz] H0.
  destruct (find_inc_spec s i Hc) as (pre & suf & Em & Ei & Hpre & Hsuf).
  unfold contains_at. rewrite elem_of_eq, Ei, Em, lookup_pre_eq. rewrite Em in Hc.
  apply chain_app in Hc as (Hp & Hs).
  assert (Hno : ¬ covers pre i).
  { intros Hcov. apply Exists_exists in Hcov as (p & Hin & ?).
    rewrite Forall_forall in Hpre. specialize (Hpre _ Hin). lia. }
  destruct suf as [|[f n] suf]; cbn [head].
  { exists None. split; [done|]. by rewrite app_nil_r. }
  destruct Hs as (? & ? & ? & Hs). pose proof (bound_ge 0 pre Hp).
  wrap_small. repeat zcase_one.
  - exists None. split; [done|]. intros [?|[?|Hx]%covers_cons]%covers_app; [done|lia|].
    eapply covers_range in Hx; eauto. lia.
  - rewrite assert_true, bind_ok by lia. eexists. split; [done|]. split; [set_solver|lia].
Qed.

(** ** One representation per set *)

Lemma chain_ext lo l1 l2 :
  chain lo l1 → chain lo l2 → (∀ x, covers l1 x ↔ covers l2 x) → l1 = l2.
Proof.
  assert (Hmin : ∀ lo f n l x, chain lo ((f, n) :: l) → covers ((f, n) :: l) x →
    f <= x ∧ x ≠ f + n ∧ (x < f + n ∨ covers l x ∧ f + n < x)).
  { intros lo' f n l x (? & ? & ? & Hs) [?|Hx]%covers_cons; [lia|].
    pose proof (covers_range _ _ _ Hs Hx). split_and!; [lia..|auto with lia]. }
  assert (Hhd : ∀ lo f n l x, chain lo ((f, n) :: l) → f <= x < f + n → covers ((f, n) :: l) x).
  { intros. apply covers_cons. auto. }
  revert lo l2; induction l1 as [|[f1 n1] l1 IH]; intros lo [|[f2 n2] l2] H1 H2 Heq; [done|..].
  - simpl in H2. by destruct (proj1 (covers_nil f2)); apply Heq, covers_cons; left; lia.
  - simpl in H1. by destruct (proj1 (covers_nil f1)); apply Heq, covers_cons; left; lia.
  - pose proof H1 as (? & ? & ? & Hs1). pose proof H2 as (? & ? & ? & Hs2).
    pose proof (λ x h, Hmin lo f2 n2 l2 x H2 (proj1 (Heq x) h)) as M2.
    pose proof (λ x h, Hmin lo f1 n1 l1 x H1 (proj2 (Heq x) h)) as M1.
    pose proof (λ x, Hhd lo f1 n1 l1 x H1) as D1. pose proof (λ x, Hhd lo f2 n2 l2 x H2) as D2.
    assert (f1 = f2) as <-.
    { pose proof (M2 f1 (D1 f1 ltac:(lia))). pose proof (M1 f2 (D2 f2 ltac:(lia))). lia. }
    assert (n1 = n2) as <-.
    { destruct (Z.lt_trichotomy n1 n2) as [?|[?|?]]; [|done|].
      - pose proof (M1 (f1 + n1) (D2 (f1 + n1) ltac:(lia))). lia.
      - pose proof (M2 (f1 + n2) (D1 (f1 + n2) ltac:(lia))). lia. }
    f_equal. apply (IH (f1 + n1 + 1)); auto. intros x. split; intros Hx.
    + pose proof (covers_range _ _ _ Hs1 Hx).
      destruct (M2 x) as (_ & _ & [?|[? _]]); [by apply covers_cons; right|lia|done].
    + pose proof (covers_range _ _ _ Hs2 Hx).
      destruct (M1 x) as (_ & _ & [?|[? _]]); [by apply covers_cons; right|lia|done].
Qed.

Lemma wf_ext a b : wf a → wf b → (∀ x, x ∈ a ↔ x ∈ b) → a = b.
Proof.
  intros [Ha Sa] [Hb Sb] H. destruct a as [sa la], b as [sb lb]; simpl in *.
  assert (la = lb) as -> by (by eapply chain_ext). by subst.
Qed.

(** ** Intersection, union, difference *)

Lemma insert_ok s start len :
  wf s → 0 <= start → 0 < len → start + len < 2 ^ 63 → disjoint_from start len s →
  ∃ s', insert s start len = Ok s' ∧ wf s' ∧ size s' = size s + len ∧
    (∀ x, x ∈ s' ↔ x ∈ s ∨ start <= x < start + len).
Proof.
  intros. destruct (insert_at_ok s start len) as (s' & p & E & ? & ? & ? & _); auto.
  exists s'. unfold insert. by rewrite E.
Qed.

Lemma wf_new : wf new.
Proof. by split. Qed.
Lemma new_empty x : x ∉ new.
Proof. intros H. by apply covers_nil in H. Qed.

Lemma intersection_loop_ok fuel s pa pb lim :
  (length pa + length pb <= fuel)%nat →
  wf s → chain 0 pa → chain 0 pb → (∀ x, x ∈ s → x < lim) → chain lim pa ∨ chain lim pb →
  ∃ s', intersection_loop fuel s pa pb = Ok s' ∧ wf s' ∧
    (∀ x, x ∈ s' ↔ x ∈ s ∨ covers pa x ∧ covers pb x).
Proof.
  revert s pa pb lim; induction fuel as [|fuel IH]; intros s pa pb lim Hf Hwf Ha Hb Hlim Hab.
  { destruct pa, pb; simpl in Hf; try lia. exists s. split; [done|]. split; [done|].
    intros x. rewrite covers_nil. tauto. }
  destruct pa as [|[fa la] pa]; [|destruct pb as [|[fb lb] pb]].
  1-2: exists s; (split; [done|]); split; [done|]; intros x; rewrite covers_nil; tauto.
  pose proof Ha as (? & ? & ? & Ha'). pose proof Hb as (? & ? & ? & Hb').
  assert (Ha0 : chain 0 pa) by (eapply chain_mono; [|eauto]; lia).
  assert (Hb0 : chain 0 pb) by (eapply chain_mono; [|eauto]; lia).
  pose proof (λ x, covers_above _ _ x Ha') as Hca. pose proof (λ x, covers_above _ _ x Hb') as Hcb.
  cbn [intersection_loop length] in *. wrap_small.
  destruct (Z.leb_spec (fa + la) fb); [|destruct (Z.leb_spec (fb + lb) fa)].
  - destruct (IH s pa ((fb, lb) :: pb) lim) as (s' & -> & ? & Hs'); cbn [length]; auto; try lia.
    { destruct Hab as [(? & ? & ? & Hab)|Hab]; [left|by right]. eapply chain_mono; [|exact Hab]; lia. }
    exists s'. split; [done|]. split; [done|]. intros x. rewrite Hs', !covers_cons.
    specialize (Hca x). specialize (Hcb x). intuition lia.
  - destruct (IH s ((fa, la) :: pa) pb lim) as (s' & -> & ? & Hs'); cbn [length]; auto; try lia.
    { destruct Hab as [Hab|(? & ? & ? & Hab)]; [by left|right]. eapply chain_mono; [|exact Hab]; lia. }
    exists s'. split; [done|]. split; [done|]. intros x. rewrite Hs', !covers_cons.
    specialize (Hca x). specialize (Hcb x). intuition lia.
  - rewrite assert_true, bind_ok by (apply Z.ltb_lt; lia). wrap_small.
    destruct (insert_ok s (Z.max fa fb) (Z.min (fa + la) (fb + lb) - Z.max fa fb))
      as (s1 & -> & Hwf1 & _ & Hs1); auto; try lia.
    { intros x Hx Hin. specialize (Hlim x Hin). simpl in Hab. lia. }
    rewrite bind_ok. destruct (Z.ltb_spec (fb + lb) (fa + la)).
    + destruct (IH s1 ((fa, la) :: pa) pb (fb + lb + 1)) as (s' & -> & ? & Hs'); cbn [length]; auto; try lia.
      { intros x [?%Hlim|?]%Hs1; [simpl in Hab|]; lia. }
      exists s'. split; [done|]. split; [done|]. intros x. rewrite Hs', Hs1, !covers_cons.
      specialize (Hca x). specialize (Hcb x). intuition lia.
    + destruct (IH s1 pa ((fb, lb) :: pb) (fa + la + 1)) as (s' & -> & ? & Hs'); cbn [length]; auto; try lia.
      { intros x [?%Hlim|?]%Hs1; [simpl in Hab|]; lia. }
      exists s'. split; [done|]. split; [done|]. intros x. rewrite Hs', Hs1, !covers_cons.
      specialize (Hca x). specialize (Hcb x). intuition lia.
Qed.

Lemma intersection_of_ok a b :
  wf a → wf b →
  ∃ s, intersection_of a b = Ok s ∧ wf s ∧ (∀ x, x ∈ s ↔ x ∈ a ∧ x ∈ b).
Proof.
  intros [Ha ?] [Hb ?].
  destruct (intersection_loop_ok (length (m a) + length (m b)) new (m a) (m b) 0)
    as (s & E & ? & Hs); auto using wf_new.
  { intros x Hx. by apply new_empty in Hx. }
  exists s. split; [done|]. split; [done|]. intros x. rewrite Hs, !elem_of_eq.
  pose proof (new_empty x). tauto.
Qed.

Lemma erase_all_ok l s lo :
  0 <= lo → chain lo l → wf s → (∀ x, covers l x → x ∈ s) →
  ∃ s', erase_all s l = Ok s' ∧ wf s' ∧ (∀ x, x ∈ s' ↔ x ∈ s ∧ ¬ covers l x).
Proof.
  revert s lo; induction l as [|[f n] l IH]; intros s lo Hlo Hc Hwf Hin; simpl.
  { exists s. split; [done|]. split; [done|]. intros x. rewrite covers_nil. tauto. }
  destruct Hc as (? & ? & ? & Hc).
  pose proof (λ x, covers_above _ _ x Hc) as Hcl.
  destruct (erase_ok s f n) as (s1 & -> & Hwf1 & _ & Hs1); auto; try lia.
  { intros x Hx. apply Hin, covers_cons. by left. }
  destruct (IH s1 (f + n + 1)) as (s' & E & ? & Hs'); auto; try lia.
  { intros x Hx. apply Hs1. split; [apply Hin, covers_cons; by right|]. apply Hcl in Hx. lia. }
  exists s'. split; [done|]. split; [done|]. intros x. rewrite Hs', Hs1, covers_cons. tauto.
Qed.

Lemma insert_all_ok l s lo :
  0 <= lo → chain lo l → wf s → (∀ x, covers l x → x ∉ s) →
  ∃ s', insert_all s l = Ok s' ∧ wf s' ∧ (∀ x, x ∈ s' ↔ x ∈ s ∨ covers l x).
Proof.
  revert s lo; induction l as [|[f n] l IH]; intros s lo Hlo Hc Hwf Hin; simpl.
  { exists s. split; [done|]. split; [done|]. intros x. rewrite covers_nil. tauto. }
  destruct Hc as (? & ? & ? & Hc).
  pose proof (λ x, covers_above _ _ x Hc) as Hcl.
  destruct (insert_ok s f n) as (s1 & -> & Hwf1 & _ & Hs1); auto; try lia.
  { intros x Hx. apply Hin, covers_cons. by left. }
  destruct (IH s1 (f + n + 1)) as (s' & E & ? & Hs'); auto; try lia.
  { intros x Hx [?|?]%Hs1; [by eapply Hin; [apply covers_cons; right|]|]. apply Hcl in Hx. lia. }
  exists s'. split; [done|]. split; [done|]. intros x. rewrite Hs', Hs1, covers_cons. tauto.
Qed.

Lemma elem_of_dec' (s : t) (x : Z) : Decision (x ∈ s).
Proof. rewrite elem_of_eq. unfold covers. apply _. Defined.

Lemma union_of_ok a b :
  wf a → wf b → ∃ s, union_of a b = Ok s ∧ wf s ∧ (∀ x, x ∈ s ↔ x ∈ a ∨ x ∈ b).
Proof.
  intros Ha Hb. unfold union_of.
  destruct (intersection_of_ok a b Ha Hb) as (ab & -> & [Hab ?] & Eab). simpl.
  destruct (erase_all_ok (m ab) a 0) as (s1 & E1 & ? & Hs1); auto; [lia|intros x Hx; exact (proj1 (proj1 (Eab x) Hx))|].
  replace (mk (_size a) (m a)) with a by (by destruct a). unfold subtract. rewrite E1. simpl.
  destruct Hb as [Hb ?].
  destruct (insert_all_ok (m b) s1 0) as (s2 & E2 & ? & Hs2); auto; [lia|..].
  { intros x Hx [? Hn]%Hs1. by apply Hn, (Eab x). }
  exists s2. split; [done|]. split; [done|]. intros x. rewrite Hs2, Hs1.
  change (covers (m ab) x) with (x ∈ ab). change (covers (m b) x) with (x ∈ b). rewrite Eab.
  destruct (elem_of_dec' b x); tauto.
Qed.

Lemma subset_of_ok s big :
  wf s → wf big → ∃ b, subset_of s big = Ok b ∧ (b = true ↔ ∀ x, x ∈ s → x ∈ big).
Proof.
  intros [Hc _] Hbig. unfold subset_of. setoid_rewrite elem_of_eq.
  assert (∃ lo, 0 <= lo ∧ chain lo (m s)) as (lo & Hlo & Hc') by (exists 0; auto with lia).
  clear Hc. revert lo Hlo Hc'; induction (m s) as [|[f n] l IH]; intros lo Hlo Hc; simpl.
  { exists true. split; [done|]. split; [|done]. intros _ x. by rewrite covers_nil. }
  destruct Hc as (? & ? & ? & Hc).
  destruct (contains_ok big f n) as (b & -> & Hb); auto; [lia|]. simpl.
  destruct b.
  - destruct (IH (f + n + 1)) as (b & -> & Hb'); [lia|done|]. exists b. split; [done|].
    rewrite Hb'. split.
    + intros Hall x [?|?]%covers_cons; [|auto]. by apply Hb.
    + intros Hall x Hx. apply Hall, covers_cons. by right.
  - exists false. split; [done|]. split; [done|]. intros Hall. apply Hb.
    intros x Hx. apply Hall, covers_cons. by left.
Qed.

(** ** Spans *)

Lemma span_loop_ok l s len lo :
  0 <= len < 2 ^ 63 → 0 <= lo → chain lo l → wf s → (∀ x, x ∈ s → x < lo) →
  ∃ s' cut, span_loop s l len = Ok s' ∧ wf s' ∧ lo <= cut ∧
    (∀ x, x ∈ s' ↔ x ∈ s ∨ covers l x ∧ x < cut) ∧
    (size s' = size s + len ∨ size s' < size s + len ∧ ∀ x, covers l x → x < cut).
Proof.
  revert s len lo; induction l as [|[f n] l IH]; intros s len lo Hlen Hlo Hc Hwf Hs; simpl.
  { exists s, lo. split; [done|]. split; [done|]. split; [lia|]. setoid_rewrite covers_nil.
    split; [tauto|]. destruct (decide (len = 0)); [left; lia|right; split; [lia|done]]. }
  pose proof Hc as (? & ? & ? & Hc').
  pose proof (λ x, covers_above _ _ x Hc') as Hcl. setoid_rewrite covers_cons.
  destruct (Z.ltb_spec 0 len); [destruct (Z.ltb_spec n len)|].
  - destruct (insert_ok s f n) as (s1 & -> & Hwf1 & Hsz & Hs1); auto; try lia.
    { intros x Hx ?%Hs. lia. }
    wrap_small. destruct (IH s1 (len - n) (f + n + 1)) as (s' & cut & E & ? & ? & Hs' & Hend);
      auto; try lia.
    { intros x [?%Hs|?]%Hs1; lia. }
    exists s', cut. split; [done|]. split; [done|]. split; [lia|]. split.
    + intros x. rewrite Hs', Hs1. intuition lia.
    + destruct Hend as [?|[? Hend]]; [left; lia|right]. split; [lia|].
      intros x [?|?]; [lia|auto].
  - destruct (insert_ok s f len) as (s1 & -> & Hwf1 & Hsz & Hs1); auto; try lia.
    { intros x Hx ?%Hs. lia. }
    exists s1, (f + len). split; [done|]. split; [done|]. split; [lia|]. split; [|auto].
    intros x. rewrite Hs1. specialize (Hcl x). intuition lia.
  - exists s, lo. split; [done|]. split; [done|]. split; [lia|]. split; [|left; lia].
    intros x. specialize (Hcl x). intuition lia.
Qed.

Lemma span_of_ok other start len :
  wf other → 0 <= start → 0 < len → start + len < 2 ^ 63 →
  ∃ s cut, span_of other start len = Ok s ∧ wf s ∧
    (∀ x, x ∈ s ↔ x ∈ other ∧ start <= x < cut) ∧
    (size s = len ∨ size s < len ∧ ∀ x, x ∈ other → x < cut).
Proof.
  intros [Hc _] H0 Hlen Hmax.
  destruct (find_inc_spec other start Hc) as (pre & suf & Em & Ei & Hpre & Hsuf).
  unfold span_of. setoid_rewrite elem_of_eq. rewrite Ei, Em, lookup_pre_eq. rewrite Em in Hc.
  apply chain_app in Hc as (Hp & Hs). pose proof (bound_ge _ _ Hp).
  assert (Hno : ∀ x, covers pre x → x < start).
  { intros x Hcov. apply Exists_exists in Hcov as (p & Hin & ?).
    rewrite Forall_forall in Hpre. specialize (Hpre _ Hin). lia. }
  setoid_rewrite covers_app.
  destruct suf as [|[f n] suf]; cbn [head].
  { exists new, start. split; [done|]. split; [by apply wf_new|]. setoid_rewrite covers_nil. split.
    - intros x. pose proof (new_empty x). change (covers (m new) x) with (x ∈ new).
      specialize (Hno x). intuition lia.
    - right. split; [done|]. intros x [?|?]; [auto|done]. }
  pose proof Hs as (? & ? & ? & Hs'). pose proof (λ x, covers_above _ _ x Hs') as Hcl.
  rewrite drop_app_length, drop_pre_next. wrap_small. setoid_rewrite covers_cons.
  assert (Hnew : ∀ x, ¬ covers (m new) x) by (intros x; apply new_empty).
  destruct (Z.ltb_spec f start); [destruct (Z.ltb_spec (f + n) start); [lia|];
    destruct (Z.ltb_spec (f + n) (start + len))|].
  - wrap_small. destruct (insert_ok new start (n - (start - f))) as (s1 & -> & Hwf1 & Hsz & Hs1);
      auto using wf_new; try lia. { intros x _. apply new_empty. }
    simpl. change (size new) with 0 in Hsz. wrap_small.
    destruct (span_loop_ok suf s1 (len - (n - (start - f))) (f + n + 1))
      as (s' & cut & E & ? & ? & Hs2 & Hend); auto; try lia.
    { intros x [?%new_empty|?]%Hs1; [done|lia]. }
    exists s', cut. split; [done|]. split; [done|]. split.
    + intros x. change (covers (m s') x) with (x ∈ s'). rewrite Hs2, Hs1.
      pose proof (new_empty x). specialize (Hno x). specialize (Hcl x). intuition lia.
    + destruct Hend as [?|[? Hend]]; [left; lia|right]. split; [lia|].
      intros x [?%Hno|[?|?]]; [lia|lia|auto].
  - destruct (insert_ok new start len) as (s1 & -> & Hwf1 & Hsz & Hs1);
      auto using wf_new; try lia. { intros x _. apply new_empty. }
    exists s1, (start + len). split; [done|]. split; [done|]. split; [|by left].
    intros x. change (covers (m s1) x) with (x ∈ s1). rewrite Hs1.
    pose proof (new_empty x). specialize (Hno x). specialize (Hcl x). intuition lia.
  - destruct (span_loop_ok ((f, n) :: suf) new len f)
      as (s' & cut & -> & ? & ? & Hs2 & Hend); auto using wf_new; try lia.
    { simpl. intuition lia. } { by intros x ?%new_empty. }
    exists s', cut. split; [done|]. split; [done|]. setoid_rewrite covers_cons in Hs2.
    setoid_rewrite covers_cons in Hend. split.
    + intros x. change (covers (m s') x) with (x ∈ s'). rewrite Hs2.
      pose proof (new_empty x). specialize (Hno x). specialize (Hcl x). intuition lia.
    + destruct Hend as [?|[? Hend]]; [by left|right]. split; [done|].
      intros x [?%Hno|[?|?]]; [lia|auto..].
Qed.

(** ** Overlapping insertions *)

Lemma insert_overlap_abort s start len :
  wf s → 0 <= start → 0 < len → start + len < 2 ^ 63 → ¬ disjoint_from start len s →
  (∀ f n, (f, n) ∈ m s → f + n ≠ start) → insert s start len = Err AssertFailed.
Proof.
  intros [Hc Hsz] H0 Hlen Hmax Hov Hadj.
  destruct (find_adj_spec s start Hc) as (pre & suf & Em & Ei & Hpre & Hsuf).
  unfold insert, insert_at. rewrite Ei, assert_true, bind_ok by (by apply Z.ltb_lt).
  rewrite Em in *. apply chain_app in Hc as (Hp & Hs). pose proof (bound_ge _ _ Hp).
  rewrite lookup_pre_eq. destruct suf as [|[f n] suf]; cbn [head].
  { destruct Hov. intros x Hx. rewrite elem_of_eq, Em, app_nil_r. intros (p & Hin & ?)%Exists_exists.
    rewrite Forall_forall in Hpre. specialize (Hpre _ Hin). lia. }
  destruct Hs as (? & ? & ? & Hs). pose proof (Hadj f n ltac:(set_solver)). wrap_small.
  destruct (Z.ltb_spec f start).
  { rewrite assert_false; [done|]. apply Z.eqb_neq. lia. }
  destruct (decide (f < start + len)).
  { rewrite (proj2 (Z.eqb_neq _ _)), assert_false by (rewrite ?Z.ltb_ge; lia). done. }
  destruct Hov. intros x Hx. rewrite elem_of_eq, Em. intros [Hcov|[?|Hcov]%covers_cons]%covers_app.
  - apply (covers_range _ _ _ Hp) in Hcov.
    assert (bound 0 pre <= start) by (by apply bound_le). lia.
  - lia.
  - apply (covers_above _ _ _ Hs) in Hcov. lia.
Qed.

Lemma insert_overlap_accepted s start len f n :
  wf s → 0 < len → start + len < 2 ^ 63 → ¬ disjoint_from start len s →
  (f, n) ∈ m s → f + n = start →
  ∃ s', insert s start len = Ok s' ∧ ¬ wf s'.
Proof.
  intros [Hc Hsz] Hlen Hmax Hov Hin <-.
  assert (0 <= f ∧ 0 < n) as [??].
  { apply chain_nonempty in Hc. rewrite Forall_forall in Hc. specialize (Hc _ Hin). simpl in Hc. lia. }
  destruct (find_adj_spec s (f + n) Hc) as (pre & suf & Em & Ei & Hpre & Hsuf).
  unfold insert, insert_at. rewrite Ei, assert_true, bind_ok by (by apply Z.ltb_lt).
  unfold disjoint_from in Hov. setoid_rewrite elem_of_eq in Hov.
  rewrite Em in *. pose proof Hc as (Hp & Hs)%chain_app. pose proof (bound_ge _ _ Hp).
  pose proof (λ k, chain_pre_below pre _ k Hc) as Hkb.
  apply elem_of_app in Hin as [Hin|Hin].
  { rewrite Forall_forall in Hpre. specialize (Hpre _ Hin). simpl in Hpre. lia. }
  destruct suf as [|[f' n'] suf]; [by apply not_elem_of_nil in Hin|].
  destruct Hs as (? & ? & ? & Hs). apply elem_of_cons in Hin as [?|Hin]; simplify_eq.
  2: { apply chain_nonempty in Hs. rewrite Forall_forall in Hs. specialize (Hs _ Hin). simpl in Hs. lia. }
  rewrite lookup_pre_eq. cbn [head].
  rewrite (proj2 (Z.ltb_lt _ _)), assert_true, bind_ok by (wrap_small; rewrite ?Z.eqb_eq; lia).
  wrap_small. rewrite map_set_app, map_set_here, lookup_pre_next by auto.
  assert (Hnext : ∃ g k suf', suf = (g, k) :: suf' ∧ g < f' + n' + len).
  { destruct suf as [|[g k] suf'].
    - destruct Hov. intros x Hx [Hcov|[?|[]%covers_nil]%covers_cons]%covers_app; [|lia].
      apply (covers_range _ _ _ Hp) in Hcov. lia.
    - exists g, k, suf'. split; [done|]. destruct (decide (g < f' + n' + len)); [done|].
      destruct Hs as (? & ? & ? & Hs). destruct Hov.
      intros x Hx [Hcov|[?|[?|Hcov]%covers_cons]%covers_cons]%covers_app; [|lia|lia|].
      + apply (covers_range _ _ _ Hp) in Hcov. lia.
      + apply (covers_above _ _ _ Hs) in Hcov. lia. }
  destruct Hnext as (g & k & suf' & -> & ?). cbn [head].
  rewrite (proj2 (Z.eqb_neq _ _)) by lia. simpl. eexists. split; [done|].
  intros [(_ & _ & _ & _ & ? & _)%chain_app _]. lia.
Qed.

(** ** Properties *)

(** [C31] Inserting a range that is disjoint from the set succeeds and yields a
    well-formed set holding exactly the old elements and the new range; the element
    count grows by the length, and the interval reported back through [pstart] and
    [plen] is an interval of the new set that encloses the inserted range. *)
Theorem insert_correct (s : t) (start len : Z) :
  wf s → 0 <= start → 0 < len → start + len < 2 ^ 63 → disjoint_from start len s →
  ∃ s' p, insert_at s start len = Ok (s', p) ∧ insert s start len = Ok s' ∧ wf s' ∧
    size s' = size s + len ∧
    (∀ x, x ∈ s' ↔ x ∈ s ∨ start <= x < start + len) ∧
    p ∈ m s' ∧ p.1 <= start ∧ start + len <= p.1 + p.2.
Proof.
  intros. destruct (insert_at_ok s start len) as (s' & p & E & ?); auto.
  exists s', p. split; [done|]. split; [unfold insert; by rewrite E | done].
Qed.

Lemma insert_correct_witness :
  ∃ s' p, insert_at (mk 7 [(0, 5); (10, 2)]) 5 5 = Ok (s', p) ∧ size s' = 12 ∧ p = (0, 12).
Proof.
  destruct (insert_correct (mk 7 [(0, 5); (10, 2)]) 5 5) as (s' & p & E & _ & _ & Hsz & _).
  - vm_compute. intuition discriminate.
  - lia.
  - lia.
  - lia.
  - intros x Hx [?|[?|[]%covers_nil]%covers_cons]%covers_cons; lia.
  - exists s', p. split; [done|]. split; [exact Hsz|]. vm_compute in E. congruence.
Defined.

(** What happens to a range that overlaps the set depends on where it starts:
    when no interval ends at [start] the insertion is stopped by an assertion, but
    when one does, the overlap with the following interval goes unnoticed and the
    returned set violates the representation invariant. *)
Theorem insert_overlap (s : t) (start len : Z) :
  wf s → 0 <= start → 0 < len → start + len < 2 ^ 63 → ¬ disjoint_from start len s →
  ((∀ f n, (f, n) ∈ m s → f + n ≠ start) → insert s start len = Err AssertFailed) ∧
  (∀ f n, (f, n) ∈ m s → f + n = start → ∃ s', insert s start len = Ok s' ∧ ¬ wf s').
Proof. split; [by apply insert_overlap_abort | eauto using insert_overlap_accepted]. Qed.

Lemma insert_overlap_witness :
  ∃ s', insert (mk 7 [(0, 5); (8, 2)]) 5 5 = Ok s' ∧ ¬ wf s'.
Proof.
  apply (insert_overlap (mk 7 [(0, 5); (8, 2)]) 5 5) with (f := 0) (n := 5); try lia.
  - vm_compute. intuition discriminate.
  - intros H. apply (H 8); [lia|]. rewrite elem_of_eq. apply covers_cons. right.
    apply covers_cons. left. lia.
  - set_solver.
Defined.

(** [C32] Erasing succeeds exactly on a range the set contains, and then removes that
    range and nothing else, decreasing the element count by its length; on any other
    range an assertion stops it. *)
Theorem erase_correct (s : t) (start len : Z) :
  wf s → 0 <= start → 0 < len → start + len < 2 ^ 63 →
  (within start len s →
   ∃ s', erase s start len = Ok s' ∧ wf s' ∧ size s' = size s - len ∧
     (∀ x, x ∈ s' ↔ x ∈ s ∧ ¬ (start <= x < start + len))) ∧
  (¬ within start len s → erase s start len = Err AssertFailed).
Proof. split; [by apply erase_ok | by apply erase_err]. Qed.

Lemma erase_correct_witness :
  ∃ s', erase (mk 7 [(0, 5); (8, 2)]) 1 2 = Ok s' ∧ wf s' ∧ size s' = 5.
Proof.
  destruct (erase_correct (mk 7 [(0, 5); (8, 2)]) 1 2) as [H _]; try lia.
  - vm_compute. intuition discriminate.
  - destruct H as (s' & ? & ? & Hsz & _); [|exists s'; auto].
    intros x Hx. rewrite elem_of_eq. apply covers_cons. left. lia.
Defined.

(** The merge loop of [intersection_of] ends within its bound, never trips an
    assertion, and computes the set intersection in canonical form. *)
Theorem intersection_correct (a b : t) :
  wf a → wf b →
  ∃ s, intersection_of a b = Ok s ∧ wf s ∧ (∀ x, x ∈ s ↔ x ∈ a ∧ x ∈ b).
Proof. apply intersection_of_ok. Qed.

Lemma intersection_correct_witness :
  ∃ s, intersection_of (mk 7 [(0, 5); (8, 2)]) (mk 6 [(3, 6)]) = Ok s ∧ wf s.
Proof.
  destruct (intersection_correct (mk 7 [(0, 5); (8, 2)]) (mk 6 [(3, 6)])) as (s & ? & ? & _).
  - vm_compute. intuition discriminate.
  - vm_compute. intuition discriminate.
  - eauto.
Defined.

(** [union_of], which subtracts the intersection and then inserts the second
    operand, never trips an assertion and computes the set union; [subset_of] decides
    inclusion. *)
Theorem union_subset_correct (a b : t) :
  wf a → wf b →
  (∃ s, union_of a b = Ok s ∧ wf s ∧ (∀ x, x ∈ s ↔ x ∈ a ∨ x ∈ b)) ∧
  (∃ r, subset_of a b = Ok r ∧ (r = true ↔ ∀ x, x ∈ a → x ∈ b)).
Proof. split; [by apply union_of_ok | by apply subset_of_ok]. Qed.

Lemma union_subset_correct_witness :
  ∃ s, union_of (mk 7 [(0, 5); (8, 2)]) (mk 6 [(3, 6)]) = Ok s ∧ wf s.
Proof.
  destruct (union_subset_correct (mk 7 [(0, 5); (8, 2)]) (mk 6 [(3, 6)])) as [(s & ? & ? & _) _].
  - vm_compute. intuition discriminate.
  - vm_compute. intuition discriminate.
  - eauto.
Defined.

(** Two well-formed sets have the same elements only when they are the same
    value, so [operator==] decides equality of sets. *)
Theorem eqb_extensional (a b : t) :
  wf a → wf b → eqb a b = true ↔ ∀ x, x ∈ a ↔ x ∈ b.
Proof.
  intros Ha Hb. unfold eqb. rewrite andb_true_iff, Z.eqb_eq, bool_decide_eq_true. split.
  - intros [Hs Hm] x. by rewrite !elem_of_eq, Hm.
  - intros H. by rewrite (wf_ext a b Ha Hb H).
Qed.

Lemma eqb_extensional_witness :
  eqb (mk 7 [(0, 5); (8, 2)]) (mk 7 [(0, 5); (8, 2)]) = true.
Proof.
  apply (eqb_extensional (mk 7 [(0, 5); (8, 2)]) (mk 7 [(0, 5); (8, 2)])).
  - vm_compute. intuition discriminate.
  - vm_compute. intuition discriminate.
  - done.
Defined.

(** [span_of] returns an initial part of the elements of [other] from [start]
    on: exactly [len] of them, or all of them when fewer remain. *)
Theorem span_correct (other : t) (start len : Z) :
  wf other → 0 <= start → 0 < len → start + len < 2 ^ 63 →
  ∃ s cut, span_of other start len = Ok s ∧ wf s ∧
    (∀ x, x ∈ s ↔ x ∈ other ∧ start <= x < cut) ∧
    (size s = len ∨ size s < len ∧ ∀ x, x ∈ other → x < cut).
Proof. apply span_of_ok. Qed.

Lemma span_correct_witness :
  span_of (mk 15 [(5, 10); (20, 5)]) 8 8 = Ok (mk 8 [(8, 7); (20, 1)]) ∧
  wf (mk 8 [(8, 7); (20, 1)]).
Proof.
  destruct (span_correct (mk 15 [(5, 10); (20, 5)]) 8 8) as (s & cut & E & H & _); try lia.
  - vm_compute. intuition discriminate.
  - vm_compute in E. injection E as <-. split; [reflexivity | exact H].
Defined.


(** The example in the comment of [span_of] gives [8~2, 20~3] for the first call;
    the interval 5~10 ends at 15, so five values from 8 on lie inside it. *)
Example span_of_comment_example :
  span_of (mk 15 [(5, 10); (20, 5)]) 8 5 = Ok (mk 5 [(8, 5)]) ∧
  span_of (mk 10 [(5, 5); (20, 5)]) 8 5 = Ok (mk 5 [(8, 2); (20, 3)]).
Proof. split; reflexivity. Qed.

End IntervalSet.
