(* ===== verification/CrushMapper.v ===== *)
(** * CRUSH: the map and the placement algorithm (crush/crush.h, crush/mapper.c)

    Buckets, rules and the working space as the C structures hold them; the five
    bucket choose methods, the two descents [crush_choose_firstn] and
    [crush_choose_indep], and the rule interpreter [crush_do_rule].  A null or
    out-of-range access is [Err BadAccess]; the descents follow child pointers of
    a map that nothing in the code prevents from being cyclic, so they carry
    fuel. *)
From S2P Require Import Prelude CrushHash.
Export CrushHash.

Module Crush.

Definition CRUSH_ITEM_UNDEF : Z := 0x7ffffffe.
Definition CRUSH_ITEM_NONE : Z := 0x7fffffff.
Definition S64_MIN : Z := - 2 ^ 63.

(** ** Data *)

(** The part of a bucket that depends on its algorithm; the C code casts the
    common header according to the [alg] tag. *)
Inductive bucket_data : Type :=
| Uniform (item_weight : Z)
| List (item_weights sum_weights : list Z)
| Tree (num_nodes : Z) (node_weights : list Z)
| Straw (item_weights straws : list Z)
| Straw2 (item_weights : list Z)
| OtherAlg (alg : Z).

Record crush_bucket : Type := mk_bucket {
  id : Z;
  type : Z;
  hash : Z;
  weight : Z;
  size : Z;
  items : list Z;
  data : bucket_data
}.

Definition CRUSH_BUCKET_UNIFORM : Z := 1.
Definition CRUSH_BUCKET_LIST : Z := 2.
Definition CRUSH_BUCKET_TREE : Z := 3.
Definition CRUSH_BUCKET_STRAW : Z := 4.
Definition CRUSH_BUCKET_STRAW2 : Z := 5.

Definition alg (b : crush_bucket) : Z :=
  match data b with
  | Uniform _ => CRUSH_BUCKET_UNIFORM
  | List _ _ => CRUSH_BUCKET_LIST
  | Tree _ _ => CRUSH_BUCKET_TREE
  | Straw _ _ => CRUSH_BUCKET_STRAW
  | Straw2 _ => CRUSH_BUCKET_STRAW2
  | OtherAlg a => a
  end.

Record crush_choose_arg : Type := mk_choose_arg {
  ids : option (list Z);
  weight_set : option (list (list Z))
}.

Record crush_rule_step : Type := mk_step { op : Z; arg1 : Z; arg2 : Z }.
Record crush_rule_mask : Type :=
  mk_mask { ruleset : Z; mtype : Z; min_size : Z; max_size : Z }.
Record crush_rule : Type := mk_rule { mask : crush_rule_mask; steps : list crush_rule_step }.

Definition CRUSH_RULE_NOOP : Z := 0.
Definition CRUSH_RULE_TAKE : Z := 1.
Definition CRUSH_RULE_CHOOSE_FIRSTN : Z := 2.
Definition CRUSH_RULE_CHOOSE_INDEP : Z := 3.
Definition CRUSH_RULE_EMIT : Z := 4.
Definition CRUSH_RULE_CHOOSELEAF_FIRSTN : Z := 6.
Definition CRUSH_RULE_CHOOSELEAF_INDEP : Z := 7.
Definition CRUSH_RULE_SET_CHOOSE_TRIES : Z := 8.
Definition CRUSH_RULE_SET_CHOOSELEAF_TRIES : Z := 9.
Definition CRUSH_RULE_SET_CHOOSE_LOCAL_TRIES : Z := 10.
Definition CRUSH_RULE_SET_CHOOSE_LOCAL_FALLBACK_TRIES : Z := 11.
Definition CRUSH_RULE_SET_CHOOSELEAF_VARY_R : Z := 12.
Definition CRUSH_RULE_SET_CHOOSELEAF_STABLE : Z := 13.

(** [buckets] and [rules] are arrays of pointers; [None] is the null pointer and
    the array lengths are [max_buckets] and [max_rules]. *)
Record crush_map : Type := mk_map {
  buckets : list (option crush_bucket);
  rules : list (option crush_rule);
  max_devices : Z;
  choose_local_tries : Z;
  choose_local_fallback_tries : Z;
  choose_total_tries : Z;
  chooseleaf_descend_once : Z;
  chooseleaf_vary_r : Z;
  chooseleaf_stable : Z;
  working_size : Z;
  straw_calc_version : Z;
  allowed_bucket_algs : Z
}.
Definition max_buckets (map : crush_map) : Z := Z.of_nat (length (buckets map)).
Definition max_rules (map : crush_map) : Z := Z.of_nat (length (rules map)).

Record crush_work_bucket : Type := mk_work { perm_x : Z; perm_n : Z; perm : list Z }.
Definition crush_work : Type := list (option crush_work_bucket).

(** Dereferences [map->buckets\[-1-item\]]. *)
Definition get_bucket (map : crush_map) (item : Z) : res crush_bucket :=
  p <- zget (buckets map) (-1 - item);; deref p.

(** ** Rule lookup *)

Fixpoint crush_find_rule_from (i : Z) (rs : list (option crush_rule))
    (rset ty sz : Z) : Z :=
  match rs with
  | [] => -1
  | None :: rs' => crush_find_rule_from (i + 1) rs' rset ty sz
  | Some r :: rs' =>
      let k := mask r in
      if (ruleset k =? rset) && (mtype k =? ty) && (min_size k <=? sz) && (sz <=? max_size k)
      then s32 i
      else crush_find_rule_from (i + 1) rs' rset ty sz
  end.
Definition crush_find_rule (map : crush_map) (rset ty sz : Z) : Z :=
  crush_find_rule_from 0 (rules map) rset ty sz.

(** ** Bucket choose methods *)

(** [for (i = from; i < from + n; i++) perm\[i\] = i]. *)
Fixpoint perm_iota (n : nat) (i : Z) (p : list Z) : res (list Z) :=
  match n with
  | O => Ok p
  | S n => p <- zset p i i;; perm_iota n (i + 1) p
  end.

(** The body of the loop that calculates the permutation: position [p] is drawn
    from the positions not used yet. *)
Definition perm_draw (b : crush_bucket) (x p : Z) (pm : list Z) : res (list Z) :=
  if p <? size b - 1 then
    let i := crush_hash32_3 (hash b) x (id b) p mod (size b - p) in
    if i =? 0 then Ok pm
    else
      t <- zget pm (p + i);;
      s <- zget pm p;;
      q <- zset pm (p + i) s;;
      zset q p t
  else Ok pm.

(** [while (work->perm_n <= pr)]. *)
Fixpoint perm_extend (fuel : nat) (b : crush_bucket) (x pr : Z) (w : crush_work_bucket)
    : res crush_work_bucket :=
  if perm_n w <=? pr then
    match fuel with
    | O => Err OutOfFuel
    | S fuel =>
        q <- perm_draw b x (perm_n w) (perm w);;
        perm_extend fuel b x pr (mk_work (perm_x w) (perm_n w + 1) q)
    end
  else Ok w.

(** From "calculate permutation up to pr" to the end of the function. *)
Definition perm_finish (b : crush_bucket) (x pr : Z) (w : crush_work_bucket)
    : res (Z * crush_work_bucket) :=
  w <- perm_extend (S (Z.to_nat pr)) b x pr w;;
  s <- zget (perm w) pr;;
  item <- zget (items b) s;;
  Ok (item, w).

Definition bucket_perm_choose (b : crush_bucket) (w : crush_work_bucket) (x r : Z)
    : res (Z * crush_work_bucket) :=
  if size b =? 0 then Err DivByZero
  else
    let pr := u32 r mod size b in
    if negb (perm_x w =? u32 x) || (perm_n w =? 0) then
      if pr =? 0 then
        let s := crush_hash32_3 (hash b) x (id b) 0 mod size b in
        p <- zset (perm w) 0 s;;
        item <- zget (items b) s;;
        Ok (item, mk_work (u32 x) 0xffff p)
      else
        p <- perm_iota (Z.to_nat (size b)) 0 (perm w);;
        perm_finish b x pr (mk_work (u32 x) 0 p)
    else if perm_n w =? 0xffff then
      p <- perm_iota (Z.to_nat (size b - 1)) 1 (perm w);;
      p0 <- zget p 0;;
      p <- zset p p0 0;;
      perm_finish b x pr (mk_work (perm_x w) 1 p)
    else perm_finish b x pr w.

(** The list walk, from the last item down to the first. *)
Fixpoint list_choose_from (n : nat) (b : crush_bucket) (iw sw : list Z) (x r : Z) : res Z :=
  match n with
  | O => zget (items b) 0
  | S n =>
      let i := Z.of_nat n in
      item <- zget (items b) i;;
      si <- zget sw i;;
      wi <- zget iw i;;
      let w := Z.land (crush_hash32_4 (hash b) x item r (id b)) 0xffff in
      let w := Z.shiftr (u64 (w * si)) 16 in
      if w <? wi then Ok item else list_choose_from n b iw sw x r
  end.
Definition bucket_list_choose (b : crush_bucket) (iw sw : list Z) (x r : Z) : res Z :=
  list_choose_from (Z.to_nat (size b)) b iw sw x r.

(** [height] counts trailing zero bits and loops forever on zero; [int] has 31
    of them to count. *)
Fixpoint height_from (fuel : nat) (n h : Z) : res Z :=
  if Z.land n 1 =? 0 then
    match fuel with
    | O => Err OutOfFuel
    | S fuel => height_from fuel (Z.shiftr n 1) (h + 1)
    end
  else Ok h.
Definition height (n : Z) : res Z := height_from 32 n 0.
Definition left (x : Z) : res Z := h <- height x;; Ok (x - Z.shiftl 1 (h - 1)).
Definition right (x : Z) : res Z := h <- height x;; Ok (x + Z.shiftl 1 (h - 1)).
Definition terminal (x : Z) : bool := negb (Z.land x 1 =? 0).

Fixpoint tree_choose_from (fuel : nat) (b : crush_bucket) (nw : list Z) (x r n : Z) : res Z :=
  if terminal n then zget (items b) (Z.shiftr n 1)
  else
    match fuel with
    | O => Err OutOfFuel
    | S fuel =>
        w <- zget nw n;;
        let t := Z.shiftr (u64 (crush_hash32_4 (hash b) x n r (id b) * w)) 32 in
        l <- left n;;
        wl <- zget nw l;;
        if t <? wl then tree_choose_from fuel b nw x r l
        else rt <- right n;; tree_choose_from fuel b nw x r rt
    end.
(** [num_nodes] is an 8-bit count, so a descent has at most eight levels. *)
Definition bucket_tree_choose (b : crush_bucket) (nn : Z) (nw : list Z) (x r : Z) : res Z :=
  tree_choose_from 8 b nw x r (Z.shiftr nn 1).

(** Walks the draws of a straw bucket from position [i] on, with the best
    position and draw so far. *)
Fixpoint straw_choose_from (n : nat) (i : Z) (b : crush_bucket) (straws : list Z) (x r : Z)
    (high high_draw : Z) : res Z :=
  match n with
  | O => zget (items b) high
  | S n =>
      item <- zget (items b) i;;
      s <- zget straws i;;
      let draw := u64 (Z.land (crush_hash32_3 (hash b) x item r) 0xffff * s) in
      if (i =? 0) || (high_draw <? draw)
      then straw_choose_from n (i + 1) b straws x r i draw
      else straw_choose_from n (i + 1) b straws x r high high_draw
  end.
Definition bucket_straw_choose (b : crush_bucket) (straws : list Z) (x r : Z) : res Z :=
  straw_choose_from (Z.to_nat (size b)) 0 b straws x r 0 0.

Definition get_choose_arg_weights (iw : list Z) (arg : option crush_choose_arg) (position : Z)
    : res (list Z) :=
  match arg with
  | None => Ok iw
  | Some a =>
      match weight_set a with
      | None => Ok iw
      | Some ws =>
          let n := Z.of_nat (length ws) in
          zget ws (if n <=? position then n - 1 else position)
      end
  end.
Definition get_choose_arg_ids (b : crush_bucket) (arg : option crush_choose_arg) : list Z :=
  match arg with
  | None => items b
  | Some a => match ids a with None => items b | Some l => l end
  end.

(** The straw drawn for an item of the given id and weight. *)
Definition straw2_draw (b : crush_bucket) (x r w idi : Z) : res Z :=
  if w =? 0 then Ok S64_MIN
  else
    let u := Z.land (crush_hash32_3 (hash b) x idi r) 0xffff in
    ln <- crush_ln u;;
    Ok (Z.quot (s64 (ln - 0x1000000000000)) w).

Fixpoint straw2_choose_from (n : nat) (i : Z) (b : crush_bucket) (weights idl : list Z)
    (x r : Z) (high high_draw : Z) : res Z :=
  match n with
  | O => zget (items b) high
  | S n =>
      w <- zget weights i;;
      idi <- zget idl i;;
      draw <- straw2_draw b x r w idi;;
      if (i =? 0) || (high_draw <? draw)
      then straw2_choose_from n (i + 1) b weights idl x r i draw
      else straw2_choose_from n (i + 1) b weights idl x r high high_draw
  end.
Definition bucket_straw2_choose (b : crush_bucket) (iw : list Z) (x r : Z)
    (arg : option crush_choose_arg) (position : Z) : res Z :=
  weights <- get_choose_arg_weights iw arg position;;
  straw2_choose_from (Z.to_nat (size b)) 0 b weights (get_choose_arg_ids b arg) x r 0 0.

Definition crush_bucket_choose (b : crush_bucket) (w : crush_work_bucket) (x r : Z)
    (arg : option crush_choose_arg) (position : Z) : res (Z * crush_work_bucket) :=
  assert (negb (size b =? 0));;;
  let pure (m : res Z) := item <- m;; Ok (item, w) in
  match data b with
  | Uniform _ => bucket_perm_choose b w x r
  | List iw sw => pure (bucket_list_choose b iw sw x r)
  | Tree nn nw => pure (bucket_tree_choose b nn nw x r)
  | Straw _ straws => pure (bucket_straw_choose b straws x r)
  | Straw2 iw => pure (bucket_straw2_choose b iw x r arg position)
  | OtherAlg _ => pure (zget (items b) 0)
  end.

(** ** Descents *)

Section Descent.
Context (map : crush_map) (weights : list Z) (weight_max : Z) (x : Z).
Context (choose_args : option (list crush_choose_arg)).

Definition is_out (item : Z) : res bool :=
  if weight_max <=? item then Ok true
  else
    w <- zget weights item;;
    if 0x10000 <=? w then Ok false
    else if w =? 0 then Ok true
    else Ok (negb (Z.land (crush_hash32_2 CRUSH_HASH_RJENKINS1 x item) 0xffff <? w)).

(** Runs a choose method on the working space [work->work\[-1-in->id\]]. *)
Definition on_work (work : crush_work) (b : crush_bucket)
    (f : crush_work_bucket → res (Z * crush_work_bucket)) : res (Z * crush_work) :=
  p <- zget work (-1 - id b);;
  w <- deref p;;
  '(item, w) <- f w;;
  work <- zset work (-1 - id b) (Some w);;
  Ok (item, work).

Definition choose_arg_of (b : crush_bucket) : res (option crush_choose_arg) :=
  match choose_args with
  | None => Ok None
  | Some l => a <- zget l (-1 - id b);; Ok (Some a)
  end.

Definition item_type (item : Z) : res Z :=
  if item <? 0 then c <- get_bucket map item;; Ok (type c) else Ok 0.

(** *** firstn *)

Inductive attempt : Type :=
| Skip
| Got (item : Z) (leaf : option Z).

(** The [r] of the recursive call: shifting an [int] by its width or more is undefined. *)
Definition shift_r (r vary_r : Z) : res Z :=
  if vary_r =? 0 then Ok 0
  else if (0 <=? vary_r - 1) && (vary_r - 1 <? 32) then Ok (Z.shiftr r (vary_r - 1))
  else Err BadAccess.

Section Firstn.
(** The tunables of one call; [leaf] is the recursive call of chooseleaf, absent
    when [recurse_to_leaf] is zero.  It receives the child bucket, the leaves
    chosen so far, the remaining output size and the [r] to pass down, and returns
    the leaves after the call; there are [outpos] leaves before it. *)
Context (bucket : crush_bucket) (ty tries local_retries local_fallback_retries vary_r : Z).
Context (parent_r : Z).
Context (leaf : option (crush_bucket → list Z → Z → Z → crush_work → res (list Z * crush_work))).

(** One turn of the innermost loop after another: [b] is the C variable [in]. *)
Fixpoint firstn_try (fuel : nat) (b : crush_bucket) (rep ftotal flocal : Z)
    (out out2 : list Z) (count : Z) (work : crush_work) : res (attempt * crush_work) :=
  match fuel with
  | O => Err OutOfFuel
  | S fuel =>
      let outpos := Z.of_nat (length out) in
      let r := s32 (s32 (rep + parent_r) + ftotal) in
      (* the code from the label [reject] on *)
      let next_try (collide : bool) (work : crush_work) :=
        let ftotal := u32 (ftotal + 1) in
        let flocal := u32 (flocal + 1) in
        if collide && (flocal <=? local_retries)
        then firstn_try fuel b rep ftotal flocal out out2 count work
        else if (0 <? local_fallback_retries) &&
                (flocal <=? u32 (size b + local_fallback_retries))
        then firstn_try fuel b rep ftotal flocal out out2 count work
        else if ftotal <? tries
        then firstn_try fuel bucket rep ftotal 0 out out2 count work
        else Ok (Skip, work) in
      if size b =? 0 then next_try false work
      else
        '(item, work) <-
          (if (0 <? local_fallback_retries) && (Z.shiftr (size b) 1 <=? flocal) &&
              (local_fallback_retries <? flocal)
           then on_work work b (λ w, bucket_perm_choose b w x r)
           else
             arg <- choose_arg_of b;;
             on_work work b (λ w, crush_bucket_choose b w x r arg outpos));;
        if max_devices map <=? item then Ok (Skip, work)
        else
          itemtype <- item_type item;;
          if negb (itemtype =? ty) then
            if (0 <=? item) || (max_buckets map <=? -1 - item) then Ok (Skip, work)
            else
              c <- get_bucket map item;;
              firstn_try fuel c rep ftotal flocal out out2 count work
          else
            let collide := bool_decide (item ∈ out) in
            '(reject, lf, work) <-
              (match leaf with
               | Some f =>
                   if collide then Ok (false, None, work)
                   else if item <? 0 then
                     sub_r <- shift_r r vary_r;;
                     c <- get_bucket map item;;
                     '(out2', work) <- f c out2 count sub_r work;;
                     if Z.of_nat (length out2') <=? outpos then Ok (true, None, work)
                     else lf <- zget out2' outpos;; Ok (false, Some lf, work)
                   else Ok (false, Some item, work)
               | None => Ok (false, None, work)
               end);;
            reject <-
              (if negb reject && negb collide && (itemtype =? 0) then is_out item
               else Ok reject);;
            if reject || collide then next_try collide work
            else Ok (Got item lf, work)
  end.

(** The loop over [rep]: [n] turns are left. *)
Fixpoint firstn_reps (fuel n : nat) (rep : Z) (out out2 : list Z) (count : Z)
    (work : crush_work) : res (list Z * list Z * crush_work) :=
  match n with
  | O => Ok (out, out2, work)
  | S n =>
      if 0 <? count then
        '(a, work) <- firstn_try fuel bucket rep 0 0 out out2 count work;;
        match a with
        | Skip => firstn_reps fuel n (rep + 1) out out2 count work
        | Got item lf =>
            firstn_reps fuel n (rep + 1) (out ++ [item])
              (match lf with Some l => out2 ++ [l] | None => out2 end) (count - 1) work
        end
      else Ok (out, out2, work)
  end.
End Firstn.

(** [crush_choose_firstn] with [recurse_to_leaf = 0] and [out2 = NULL]. *)
Definition choose_firstn_leaf (fuel : nat) (bucket : crush_bucket) (numrep ty : Z)
    (out : list Z) (out_size tries local_retries local_fallback_retries vary_r stable parent_r : Z)
    (work : crush_work) : res (list Z * crush_work) :=
  let rep := if stable =? 0 then Z.of_nat (length out) else 0 in
  '(out, _, work) <-
    firstn_reps bucket ty tries local_retries local_fallback_retries vary_r parent_r None
      fuel (Z.to_nat (numrep - rep)) rep out [] out_size work;;
  Ok (out, work).

Definition crush_choose_firstn (fuel : nat) (bucket : crush_bucket) (numrep ty out_size tries
    recurse_tries local_retries local_fallback_retries : Z) (recurse_to_leaf : bool)
    (vary_r stable parent_r : Z) (work : crush_work) : res (list Z * list Z * crush_work) :=
  let leaf (c : crush_bucket) (out2 : list Z) (count sub_r : Z) (work : crush_work) :=
    choose_firstn_leaf fuel c (if stable =? 0 then Z.of_nat (length out2) + 1 else 1) 0 out2
      count recurse_tries local_retries local_fallback_retries vary_r stable sub_r work in
  firstn_reps bucket ty tries local_retries local_fallback_retries vary_r parent_r
    (if recurse_to_leaf then Some leaf else None)
    fuel (Z.to_nat numrep) 0 [] [] out_size work.

(** *** indep *)

(** Positions [from .. from + n - 1] of an output array set to a value. *)
Fixpoint fill (n : nat) (from v : Z) (l : list Z) : res (list Z) :=
  match n with
  | O => Ok l
  | S n => l <- zset l from v;; fill n (from + 1) v l
  end.
Definition fill_opt (n : nat) (from v : Z) (o : option (list Z)) : res (option (list Z)) :=
  match o with None => Ok None | Some l => l <- fill n from v l;; Ok (Some l) end.
Definition set_opt (o : option (list Z)) (i v : Z) : res (option (list Z)) :=
  match o with None => Ok None | Some l => l <- zset l i v;; Ok (Some l) end.

(** The arrays [out] and [out2], the count [left] and the working space. *)
Definition indep_state : Type := list Z * option (list Z) * Z * crush_work.

(** [for (i = from; i < from + n; i++) if (out\[i\] == item) collide = 1]. *)
Fixpoint collides (n : nat) (i item : Z) (out : list Z) : res bool :=
  match n with
  | O => Ok false
  | S n => v <- zget out i;; if v =? item then Ok true else collides n (i + 1) item out
  end.

Section Indep.
Context (bucket : crush_bucket) (numrep ty outpos endpos parent_r : Z).
Context (leaf : option (crush_bucket → list Z → Z → Z → crush_work → res (list Z * crush_work))).

(** The inner [for (;;)] for position [rep]; [b] is the C variable [in]. *)
Fixpoint indep_descend (fuel : nat) (b : crush_bucket) (rep ftotal : Z) (st : indep_state)
    : res indep_state :=
  match fuel with
  | O => Err OutOfFuel
  | S fuel =>
      let '(out, out2, left, work) := st in
      let r := s32 (rep + parent_r) in
      r <- (if alg b =? CRUSH_BUCKET_UNIFORM then
              if u32 numrep =? 0 then Err DivByZero
              else if size b mod u32 numrep =? 0
              then Ok (s32 (r + (numrep + 1) * ftotal))
              else Ok (s32 (r + numrep * ftotal))
            else Ok (s32 (r + numrep * ftotal)));;
      if size b =? 0 then Ok st
      else
        arg <- choose_arg_of b;;
        '(item, work) <- on_work work b (λ w, crush_bucket_choose b w x r arg outpos);;
        let st := (out, out2, left, work) in
        let bad :=
          out <- zset out rep CRUSH_ITEM_NONE;;
          out2 <- set_opt out2 rep CRUSH_ITEM_NONE;;
          Ok (out, out2, left - 1, work) in
        if max_devices map <=? item then bad
        else
          itemtype <- item_type item;;
          if negb (itemtype =? ty) then
            if (0 <=? item) || (max_buckets map <=? -1 - item) then bad
            else c <- get_bucket map item;; indep_descend fuel c rep ftotal st
          else
            collide <- collides (Z.to_nat (endpos - outpos)) outpos item out;;
            if collide then Ok st
            else
              '(none, out2, work) <-
                (match leaf with
                 | Some f =>
                     o2 <- deref out2;;
                     if item <? 0 then
                       c <- get_bucket map item;;
                       '(o2, work) <- f c o2 rep r work;;
                       v <- zget o2 rep;;
                       Ok (v =? CRUSH_ITEM_NONE, Some o2, work)
                     else o2 <- zset o2 rep item;; Ok (false, Some o2, work)
                 | None => Ok (false, out2, work)
                 end);;
              let st := (out, out2, left, work) in
              if (none : bool) then Ok st
              else
                rejected <- (if itemtype =? 0 then is_out item else Ok false);;
                if (rejected : bool) then Ok st
                else out <- zset out rep item;; Ok (out, out2, left - 1, work)
  end.

(** One pass over the positions that are still undefined. *)
Fixpoint indep_pass (fuel n : nat) (rep ftotal : Z) (st : indep_state) : res indep_state :=
  match n with
  | O => Ok st
  | S n =>
      let '(out, out2, left, work) := st in
      v <- zget out rep;;
      st <- (if negb (v =? CRUSH_ITEM_UNDEF) then Ok st
             else indep_descend fuel bucket rep ftotal st);;
      indep_pass fuel n (rep + 1) ftotal st
  end.

(** [for (ftotal = 0; left > 0 && ftotal < tries; ftotal++)]. *)
Fixpoint indep_tries (fuel n : nat) (ftotal : Z) (st : indep_state) : res indep_state :=
  match n with
  | O => Ok st
  | S n =>
      let '(out, out2, left, work) := st in
      if 0 <? left then
        st <- indep_pass fuel (Z.to_nat (endpos - outpos)) outpos ftotal st;;
        indep_tries fuel n (ftotal + 1) st
      else Ok st
  end.

(** The closing loop: what is still undefined becomes none. *)
Fixpoint undef_to_none (n : nat) (i : Z) (l : list Z) : res (list Z) :=
  match n with
  | O => Ok l
  | S n =>
      v <- zget l i;;
      l <- (if v =? CRUSH_ITEM_UNDEF then zset l i CRUSH_ITEM_NONE else Ok l);;
      undef_to_none n (i + 1) l
  end.

Definition choose_indep (fuel : nat) (tries : Z) (out : list Z) (out2 : option (list Z))
    (work : crush_work) : res (list Z * option (list Z) * crush_work) :=
  let n := Z.to_nat (endpos - outpos) in
  out <- fill n outpos CRUSH_ITEM_UNDEF out;;
  out2 <- fill_opt n outpos CRUSH_ITEM_UNDEF out2;;
  '(out, out2, _, work) <-
    indep_tries fuel (Z.to_nat tries) 0 (out, out2, endpos - outpos, work);;
  out <- undef_to_none n outpos out;;
  out2 <- (match out2 with
           | None => Ok None
           | Some l => l <- undef_to_none n outpos l;; Ok (Some l)
           end);;
  Ok (out, out2, work).
End Indep.

(** The recursive call: [left = 1], type 0, [out2 = NULL]. *)
Definition choose_indep_leaf (fuel : nat) (numrep recurse_tries : Z) (c : crush_bucket)
    (o2 : list Z) (rep r : Z) (work : crush_work) : res (list Z * crush_work) :=
  '(o2, _, work) <-
    choose_indep c numrep 0 rep (rep + 1) r None fuel recurse_tries o2 None work;;
  Ok (o2, work).

(** [crush_choose_indep] as the rule interpreter calls it, on the fresh segments
    [o + osize] and [c + osize] of length [left]. *)
Definition crush_choose_indep (fuel : nat) (bucket : crush_bucket) (left numrep ty tries
    recurse_tries : Z) (recurse_to_leaf : bool) (work : crush_work)
    : res (list Z * list Z * crush_work) :=
  let fresh := replicate (Z.to_nat left) CRUSH_ITEM_UNDEF in
  '(out, out2, work) <-
    choose_indep bucket numrep ty 0 left 0
      (if recurse_to_leaf then Some (choose_indep_leaf fuel numrep recurse_tries) else None)
      fuel tries fresh (Some fresh) work;;
  o2 <- deref out2;;
  Ok (out, o2, work).
End Descent.

(** ** The working space and the rule interpreter *)

Definition sizeof_crush_work : Z := 8.
Definition sizeof_pointer : Z := 8.
Definition sizeof_crush_work_bucket : Z := 16.
Definition sizeof_u32 : Z := 4.

(** The permutation arrays live in memory that the caller allocated and nobody
    initialised: [mem] is its content.  The second component is how far [point]
    moved. *)
Fixpoint init_work_buckets (bs : list (option crush_bucket)) (mem : list (list Z))
    : crush_work * Z :=
  match bs with
  | [] => ([], 0)
  | None :: bs' =>
      let '(wk, n) := init_work_buckets bs' (tail mem) in (None :: wk, n)
  | Some b :: bs' =>
      let '(wk, n) := init_work_buckets bs' (tail mem) in
      (Some (mk_work 0 0 (default [] (head mem))) :: wk,
       sizeof_crush_work_bucket + size b * sizeof_u32 + n)
  end.
Definition crush_init_workspace (map : crush_map) (mem : list (list Z)) : res crush_work :=
  let '(wk, n) := init_work_buckets (buckets map) mem in
  let point := sizeof_crush_work + max_buckets map * sizeof_pointer + n in
  assert (point =? working_size map);;;
  Ok wk.

(** The local variables of [crush_do_rule] that steps change. *)
Record rule_state : Type := mk_rstate {
  choose_tries : Z;
  choose_leaf_tries : Z;
  choose_local_retries : Z;
  choose_local_fallback_retries : Z;
  vary_r : Z;
  stable : Z;
  w : list Z;
  result : list Z;
  work_of : crush_work
}.

Definition set_w (st : rule_state) (w' : list Z) (wk : crush_work) : rule_state :=
  mk_rstate (choose_tries st) (choose_leaf_tries st) (choose_local_retries st)
    (choose_local_fallback_retries st) (vary_r st) (stable st) w' (result st) wk.

Section DoRule.
Context (fuel : nat) (map : crush_map) (x result_max : Z) (weights : list Z) (weight_max : Z).
Context (choose_args : option (list crush_choose_arg)).

(** The loop over the current working set: [o] and [c] are what has been written
    to the two output arrays, [osize = length o]. *)
Fixpoint choose_step (step : crush_rule_step) (st : rule_state) (firstn recurse_to_leaf : bool)
    (ws : list Z) (o c : list Z) (wk : crush_work) : res (list Z * list Z * crush_work) :=
  match ws with
  | [] => Ok (o, c, wk)
  | wi :: ws' =>
      let osize := Z.of_nat (length o) in
      let numrep := if arg1 step <=? 0 then s32 (arg1 step + result_max) else arg1 step in
      let bno := -1 - wi in
      if numrep <=? 0 then choose_step step st firstn recurse_to_leaf ws' o c wk
      else if (bno <? 0) || (max_buckets map <=? bno)
      then choose_step step st firstn recurse_to_leaf ws' o c wk
      else
        b <- get_bucket map wi;;
        '(out, out2, wk) <-
          (if firstn then
             let recurse_tries :=
               if negb (choose_leaf_tries st =? 0) then choose_leaf_tries st
               else if negb (chooseleaf_descend_once map =? 0) then 1
               else choose_tries st in
             crush_choose_firstn map weights weight_max x choose_args fuel b numrep (arg2 step)
               (result_max - osize) (u32 (choose_tries st)) (u32 recurse_tries)
               (choose_local_retries st)
               (choose_local_fallback_retries st) recurse_to_leaf (vary_r st) (stable st) 0 wk
           else
             let out_size := if numrep <? result_max - osize then numrep
                             else result_max - osize in
             crush_choose_indep map weights weight_max x choose_args fuel b out_size numrep
               (arg2 step) (u32 (choose_tries st))
               (u32 (if negb (choose_leaf_tries st =? 0) then choose_leaf_tries st else 1))
               recurse_to_leaf wk);;
        choose_step step st firstn recurse_to_leaf ws' (o ++ out) (c ++ out2) wk
  end.

Definition do_step (step : crush_rule_step) (st : rule_state) : res rule_state :=
  if op step =? CRUSH_RULE_TAKE then
    ok <- (if (0 <=? arg1 step) && (arg1 step <? max_devices map) then Ok true
           else if (0 <=? -1 - arg1 step) && (-1 - arg1 step <? max_buckets map)
           then p <- zget (buckets map) (-1 - arg1 step);; Ok (bool_decide (is_Some p))
           else Ok false);;
    if (ok : bool) then
      if result_max <=? 0 then Err BadAccess else Ok (set_w st [arg1 step] (work_of st))
    else Ok st
  else if op step =? CRUSH_RULE_SET_CHOOSE_TRIES then
    Ok (if 0 <? arg1 step then
          mk_rstate (arg1 step) (choose_leaf_tries st) (choose_local_retries st)
            (choose_local_fallback_retries st) (vary_r st) (stable st) (w st) (result st) (work_of st)
        else st)
  else if op step =? CRUSH_RULE_SET_CHOOSELEAF_TRIES then
    Ok (if 0 <? arg1 step then
          mk_rstate (choose_tries st) (arg1 step) (choose_local_retries st)
            (choose_local_fallback_retries st) (vary_r st) (stable st) (w st) (result st) (work_of st)
        else st)
  else if op step =? CRUSH_RULE_SET_CHOOSE_LOCAL_TRIES then
    Ok (if 0 <=? arg1 step then
          mk_rstate (choose_tries st) (choose_leaf_tries st) (arg1 step)
            (choose_local_fallback_retries st) (vary_r st) (stable st) (w st) (result st) (work_of st)
        else st)
  else if op step =? CRUSH_RULE_SET_CHOOSE_LOCAL_FALLBACK_TRIES then
    Ok (if 0 <=? arg1 step then
          mk_rstate (choose_tries st) (choose_leaf_tries st) (choose_local_retries st)
            (arg1 step) (vary_r st) (stable st) (w st) (result st) (work_of st)
        else st)
  else if op step =? CRUSH_RULE_SET_CHOOSELEAF_VARY_R then
    Ok (if 0 <=? arg1 step then
          mk_rstate (choose_tries st) (choose_leaf_tries st) (choose_local_retries st)
            (choose_local_fallback_retries st) (arg1 step) (stable st) (w st) (result st) (work_of st)
        else st)
  else if op step =? CRUSH_RULE_SET_CHOOSELEAF_STABLE then
    Ok (if 0 <=? arg1 step then
          mk_rstate (choose_tries st) (choose_leaf_tries st) (choose_local_retries st)
            (choose_local_fallback_retries st) (vary_r st) (arg1 step) (w st) (result st) (work_of st)
        else st)
  else if (op step =? CRUSH_RULE_CHOOSELEAF_FIRSTN) || (op step =? CRUSH_RULE_CHOOSE_FIRSTN) ||
          (op step =? CRUSH_RULE_CHOOSELEAF_INDEP) || (op step =? CRUSH_RULE_CHOOSE_INDEP) then
    if bool_decide (w st = []) then Ok st
    else
      let firstn := (op step =? CRUSH_RULE_CHOOSELEAF_FIRSTN) ||
                    (op step =? CRUSH_RULE_CHOOSE_FIRSTN) in
      let recurse_to_leaf := (op step =? CRUSH_RULE_CHOOSELEAF_FIRSTN) ||
                             (op step =? CRUSH_RULE_CHOOSELEAF_INDEP) in
      '(o, c, wk) <- choose_step step st firstn recurse_to_leaf (w st) [] [] (work_of st);;
      Ok (set_w st (if recurse_to_leaf then c else o) wk)
  else if op step =? CRUSH_RULE_EMIT then
    let room := Z.to_nat (result_max - Z.of_nat (length (result st))) in
    Ok (mk_rstate (choose_tries st) (choose_leaf_tries st) (choose_local_retries st)
          (choose_local_fallback_retries st) (vary_r st) (stable st) []
          (result st ++ take room (w st)) (work_of st))
  else Ok st.

Fixpoint do_steps (ss : list crush_rule_step) (st : rule_state) : res rule_state :=
  match ss with
  | [] => Ok st
  | s :: ss' => st <- do_step s st;; do_steps ss' st
  end.

(** The result vector and the working space after the call. *)
Definition crush_do_rule (ruleno : Z) (wk : crush_work) : res (list Z * crush_work) :=
  if max_rules map <=? u32 ruleno then Ok ([], wk)
  else
    p <- zget (rules map) ruleno;;
    rule <- deref p;;
    st <- do_steps (steps rule)
            (mk_rstate (s32 (choose_total_tries map + 1)) 0 (choose_local_tries map)
               (choose_local_fallback_tries map) (chooseleaf_vary_r map) (chooseleaf_stable map)
               [] [] wk);;
    Ok (result st, work_of st).
End DoRule.
End Crush.
