(* ===== verification/CrushChoose.v ===== *)
(** * CRUSH: correctness of the bucket choose methods

    The permutation cache is transparent, every method returns an item of its
    bucket, and straw2 moves data only towards an item whose weight grew. *)
From S2P Require Import Prelude CrushHash CrushMapper.

Module Choose.
Import Crush.

(** ** Hash values are 32-bit *)

Lemma lxor_range a b n : 0 <= n → 0 <= a < 2 ^ n → 0 <= b < 2 ^ n → 0 <= Z.lxor a b < 2 ^ n.
Proof.
  intros Hn [Ha Ha'] [Hb Hb']. assert (0 <= Z.lxor a b) by (by apply Z.lxor_nonneg).
  split; [done|]. destruct (decide (Z.lxor a b = 0)) as [->|]; [lia|].
  apply Z.log2_lt_pow2; [lia|].
  pose proof (Z.log2_lxor a b ltac:(done) ltac:(done)).
  destruct (decide (n = 0)) as [->|].
  { assert (a = 0) as -> by lia. assert (b = 0) as -> by lia. by rewrite Z.lxor_0_l in *. }
  assert (Z.log2 a < n) by (destruct (decide (a = 0)) as [->|]; [simpl; lia | apply Z.log2_lt_pow2; lia]).
  assert (Z.log2 b < n) by (destruct (decide (b = 0)) as [->|]; [simpl; lia | apply Z.log2_lt_pow2; lia]).
  lia.
Qed.

Definition word (a : Z) : Prop := 0 <= a < 2 ^ 32.

Lemma word_u32 a : word (u32 a).
Proof. apply u32_range. Qed.
Lemma word_shiftr a n : 0 <= n → word a → word (Z.shiftr a n).
Proof.
  intros Hn [? ?]. rewrite Z.shiftr_div_pow2 by done. split; [apply Z.div_pos; lia|].
  apply Z.le_lt_trans with a; [|done]. apply Z.div_le_upper_bound; [lia|]. nia.
Qed.
Lemma word_lxor a b : word a → word b → word (Z.lxor a b).
Proof. by apply lxor_range. Qed.

Lemma word_mix_right a b c n : 0 <= n → word c → word (mix_right a b c n).
Proof. intros. apply word_lxor; [apply word_u32 | by apply word_shiftr]. Qed.
Lemma word_mix_left a b c n : word (mix_left a b c n).
Proof. apply word_lxor; apply word_u32. Qed.

Create HintDb words.
#[export] Hint Resolve word_u32 word_lxor word_mix_right word_mix_left : words.
#[export] Hint Extern 1 (0 <= _) => lia : words.

Lemma hashmix_word v : word v.2 → let v' := crush_hashmix v in word v'.1.1 ∧ word v'.1.2 ∧ word v'.2.
Proof. destruct v as [[a b] c]. cbn [snd]. intros. cbn -[mix_right mix_left]. auto 20 with words. Qed.

Ltac hash_word :=
  repeat match goal with
    | |- context [crush_hashmix ?v] =>
        let H := fresh in
        pose proof (hashmix_word v) as H; destruct (crush_hashmix v) as [[??]?];
        cbn [fst snd] in H |- *; destruct H as (? & ? & ?); [by auto 10 with words|]
    end; assumption.

Lemma word_seed : word crush_hash_seed.
Proof. by vm_compute. Qed.
#[local] Hint Resolve word_seed : words.

Lemma hash4_word t a b c d : word (crush_hash32_4 t a b c d).
Proof.
  unfold crush_hash32_4. destruct (_ =? _); [|split; lia].
  unfold crush_hash32_rjenkins1_4. hash_word.
Qed.

(** ** The permutation cache *)

Definition swap (l : list Z) (i j : nat) : list Z :=
  match l !! i, l !! j with
  | Some a, Some c => <[i := c]> (<[j := a]> l)
  | _, _ => l
  end.

Lemma swap_lookup l i j k :
  (i < length l)%nat → (j < length l)%nat →
  swap l i j !! k = if decide (k = i) then l !! j else if decide (k = j) then l !! i else l !! k.
Proof.
  intros Hi Hj. unfold swap.
  destruct (lookup_lt_is_Some_2 l i Hi) as [a Ea], (lookup_lt_is_Some_2 l j Hj) as [c Ec].
  rewrite Ea, Ec. repeat case_decide; subst.
  - by rewrite list_lookup_insert_eq by (rewrite length_insert; lia).
  - rewrite list_lookup_insert_ne by done. by rewrite list_lookup_insert_eq.
  - by rewrite !list_lookup_insert_ne by done.
Qed.

Lemma swap_length l i j : length (swap l i j) = length l.
Proof. unfold swap. repeat case_match; rewrite ?length_insert; done. Qed.

Lemma swap_nodup l i j : (i < length l)%nat → (j < length l)%nat → NoDup l → NoDup (swap l i j).
Proof.
  intros Hi Hj Hl. rewrite NoDup_alt in *. intros k1 k2 v. rewrite !swap_lookup by done.
  intros E1 E2. repeat case_decide; subst; try done; pose proof (Hl _ _ _ E1 E2); congruence.
Qed.

Lemma swap_forall P l i j : Forall P l → Forall P (swap l i j).
Proof.
  intros H. unfold swap. destruct (l !! i) eqn:Ei; [|done]. destruct (l !! j) eqn:Ej; [|done].
  rewrite Forall_forall in H.
  apply Forall_insert; [apply Forall_insert|]; [by apply Forall_forall|..];
    apply H; by eapply list_elem_of_lookup_2.
Qed.

(** The permutation of the positions of [b] for input [x], after the first [n]
    positions have been drawn. *)
Definition perm_pick (b : crush_bucket) (x : Z) (p : nat) : nat :=
  Z.to_nat (crush_hash32_3 (hash b) x (id b) (Z.of_nat p) mod (size b - Z.of_nat p)).
Fixpoint perm_ref (b : crush_bucket) (x : Z) (n : nat) : list Z :=
  match n with
  | O => seqZ 0 (size b)
  | S n => if Z.of_nat n <? size b - 1 then swap (perm_ref b x n) n (n + perm_pick b x n)
           else perm_ref b x n
  end.

Section Perm.
Context (b : crush_bucket) (Hsize : 0 < size b).

Lemma perm_pick_bound x n : Z.of_nat n < size b → (n + perm_pick b x n < Z.to_nat (size b))%nat.
Proof.
  intros H. unfold perm_pick.
  pose proof (Z.mod_pos_bound (crush_hash32_3 (hash b) x (id b) (Z.of_nat n)) (size b - Z.of_nat n)). lia.
Qed.

Lemma perm_ref_length x n : length (perm_ref b x n) = Z.to_nat (size b).
Proof.
  induction n as [|n IH]; simpl; [by rewrite length_seqZ|].
  destruct (_ <? _); [by rewrite swap_length|done].
Qed.

Lemma perm_ref_nodup x n : NoDup (perm_ref b x n).
Proof.
  induction n as [|n IH]; simpl; [apply NoDup_seqZ|].
  destruct (Z.ltb_spec (Z.of_nat n) (size b - 1)); [|done].
  pose proof (perm_pick_bound x n). apply swap_nodup; rewrite ?perm_ref_length; auto with lia.
Qed.

Lemma perm_ref_range x n : Forall (λ s, 0 <= s < size b) (perm_ref b x n).
Proof.
  induction n as [|n IH]; simpl.
  - apply Forall_forall. intros s Hs%elem_of_seqZ. lia.
  - destruct (_ <? _); [by apply swap_forall|done].
Qed.

(** Drawing a later position leaves the earlier ones alone. *)
Lemma perm_ref_stable x n m k : (k < n)%nat → (n <= m)%nat → perm_ref b x m !! k = perm_ref b x n !! k.
Proof.
  intros Hk Hnm. induction Hnm as [|m Hnm IH]; [done|]. rewrite <- IH. simpl.
  destruct (Z.ltb_spec (Z.of_nat m) (size b - 1)); [|done].
  pose proof (perm_pick_bound x m). rewrite swap_lookup by (rewrite perm_ref_length; lia).
  by rewrite !decide_False by lia.
Qed.

Definition perm_inv (w : crush_work_bucket) : Prop :=
  Z.of_nat (length (perm w)) = size b ∧
  (perm_n w = 0 ∨
   perm_n w = 0xffff ∧ perm w !! 0%nat = Some (crush_hash32_3 (hash b) (perm_x w) (id b) 0 mod size b) ∨
   1 <= perm_n w <= size b ∧ perm w = perm_ref b (perm_x w) (Z.to_nat (perm_n w))).

Lemma u32_u32 a : u32 (u32 a) = u32 a.
Proof. apply u32_small, u32_range. Qed.

Lemma hash3_u32 t x c d : crush_hash32_3 t (u32 x) c d = crush_hash32_3 t x c d.
Proof. unfold crush_hash32_3. by rewrite u32_u32. Qed.

Lemma perm_ref_u32 x n : perm_ref b (u32 x) n = perm_ref b x n.
Proof.
  induction n as [|n IH]; simpl; [done|]. unfold perm_pick. by rewrite hash3_u32, IH.
Qed.

Lemma perm_iota_ok n i (p : list Z) :
  0 <= i → i + Z.of_nat n <= Z.of_nat (length p) →
  perm_iota n i p = Ok (take (Z.to_nat i) p ++ seqZ i (Z.of_nat n) ++ drop (Z.to_nat i + n) p).
Proof.
  revert i p; induction n as [|n IH]; intros i p Hi Hp.
  { simpl. by rewrite Nat.add_0_r, take_drop. }
  cbn [perm_iota]. rewrite zset_ok by lia. cbn [bind].
  rewrite IH by (rewrite ?length_insert; lia). f_equal.
  rewrite Z2Nat.inj_add, Nat.add_1_r by lia.
  rewrite (take_S_r _ _ i) by (apply list_lookup_insert_eq; lia).
  rewrite take_insert_ge, drop_insert_lt by lia.
  rewrite (seqZ_cons i) by lia. replace (Z.pred (Z.of_nat (S n))) with (Z.of_nat n) by lia.
  replace (Z.to_nat i + S n)%nat with (S (Z.to_nat i) + n)%nat by lia.
  replace (Z.succ i) with (i + 1) by lia. by rewrite <- app_assoc.
Qed.

Lemma perm_draw_ok x n :
  Z.of_nat n < size b → perm_draw b x (Z.of_nat n) (perm_ref b x n) = Ok (perm_ref b x (S n)).
Proof.
  intros Hn. unfold perm_draw. cbn [perm_ref].
  destruct (Z.ltb_spec (Z.of_nat n) (size b - 1)); [|done].
  pose proof (perm_pick_bound x n Hn) as Hb. unfold perm_pick in *.
  set (i := crush_hash32_3 _ _ _ _ mod _) in *.
  assert (0 <= i) by (apply Z.mod_pos_bound; lia).
  pose proof (perm_ref_length x n) as Hlen.
  destruct (lookup_lt_is_Some_2 (perm_ref b x n) n) as [v Ev]; [lia|].
  destruct (lookup_lt_is_Some_2 (perm_ref b x n) (n + Z.to_nat i)) as [t Et]; [lia|].
  unfold swap. rewrite Ev, Et. destruct (Z.eqb_spec i 0) as [E|E].
  { rewrite E, Nat.add_0_r in *. simplify_eq. by rewrite list_insert_insert_eq, list_insert_id. }
  rewrite (proj2 (zget_ok _ _ t)) by (split; [lia|]; rewrite <- Et; f_equal; lia).
  rewrite (proj2 (zget_ok _ _ v)) by (split; [lia|]; rewrite <- Ev; f_equal; lia).
  cbn [bind]. rewrite zset_ok by lia. cbn [bind]. rewrite zset_ok by (rewrite length_insert; lia).
  repeat f_equal; lia.
Qed.

Lemma perm_extend_ok fuel x pr w n :
  perm_n w = Z.of_nat n → perm w = perm_ref b x n → 0 <= pr < size b → Z.of_nat n <= size b →
  (Z.to_nat pr + 1 - n <= fuel)%nat →
  ∃ k, perm_extend fuel b x pr w = Ok (mk_work (perm_x w) (Z.of_nat k) (perm_ref b x k)) ∧
    pr < Z.of_nat k <= size b.
Proof.
  revert w n; induction fuel as [|fuel IH]; intros w n Hn Hp Hpr Hle Hf; simpl; rewrite Hn.
  all: destruct (Z.leb_spec (Z.of_nat n) pr); [try lia|
    exists n; split; [|lia]; destruct w; simpl in *; by subst].
  rewrite Hp, perm_draw_ok by lia. cbn [bind].
  destruct (IH (mk_work (perm_x w) (Z.of_nat n + 1) (perm_ref b x (S n))) (S n)) as (k & -> & ?);
    simpl; eauto with lia.
Qed.

(** The array left by the shortcut for [r = 0], cleaned up, is the permutation
    with its first position drawn. *)
Lemma perm_cleanup_ok x s :
  s = crush_hash32_3 (hash b) x (id b) 0 mod size b →
  <[Z.to_nat s := 0]> (s :: seqZ 1 (size b - 1)) = perm_ref b x 1.
Proof.
  intros Hs. pose proof (Z.mod_pos_bound (crush_hash32_3 (hash b) x (id b) 0) (size b) Hsize).
  cbn [perm_ref]. unfold perm_pick. change (Z.of_nat 0) with 0.
  rewrite !Z.sub_0_r, <- Hs, Nat.add_0_l.
  destruct (Z.ltb_spec 0 (size b - 1)) as [Hs1|Hs1].
  2: { assert (size b = 1) as E by lia. rewrite E in *. rewrite Z.mod_1_r in Hs. by subst s. }
  apply list_eq. intros k. rewrite swap_lookup by (rewrite length_seqZ; lia).
  destruct (decide (k = Z.to_nat s)) as [->|Hk].
  - rewrite list_lookup_insert_eq by (simpl; rewrite length_seqZ; lia).
    case_decide as E; [|by rewrite lookup_seqZ_lt by lia].
    rewrite lookup_seqZ_lt by lia. f_equal. lia.
  - rewrite list_lookup_insert_ne by done. destruct k as [|k]; simpl.
    + rewrite lookup_seqZ_lt by lia. f_equal. lia.
    + rewrite ?decide_False by done.
      destruct (decide (Z.of_nat (S k) < size b)).
      * rewrite !lookup_seqZ_lt by lia. f_equal. lia.
      * rewrite !lookup_seqZ_ge by lia. done.
Qed.

Lemma item_at s :
  Z.of_nat (length (items b)) = size b → 0 <= s < size b →
  ∃ item, zget (items b) s = Ok item ∧ items b !! Z.to_nat s = Some item.
Proof.
  intros Hlen Hs. destruct (lookup_lt_is_Some_2 (items b) (Z.to_nat s)) as [i Hi]; [lia|].
  exists i. split; [apply zget_ok; auto with lia | done].
Qed.

(** [item] is what the permutation for [x] has at position [pr]. *)
Definition perm_item (x pr item : Z) : Prop :=
  ∃ s, perm_ref b x (Z.to_nat (size b)) !! Z.to_nat pr = Some s ∧ items b !! Z.to_nat s = Some item.

Lemma perm_finish_ok x px pr n :
  Z.of_nat (length (items b)) = size b → 0 <= pr < size b → Z.of_nat n <= size b →
  (∀ k, perm_ref b px k = perm_ref b x k) →
  ∃ item w', perm_finish b x pr (mk_work px (Z.of_nat n) (perm_ref b x n)) = Ok (item, w') ∧
    perm_inv w' ∧ perm_item x pr item.
Proof.
  intros Hitems Hpr Hn Hpx. unfold perm_finish.
  destruct (perm_extend_ok (S (Z.to_nat pr)) x pr (mk_work px (Z.of_nat n) (perm_ref b x n)) n)
    as (k & -> & Hk); simpl; auto; [lia|].
  destruct (lookup_lt_is_Some_2 (perm_ref b x k) (Z.to_nat pr)) as [s Es]; [rewrite perm_ref_length; lia|].
  pose proof (perm_ref_range x k) as Hr. rewrite Forall_lookup in Hr. specialize (Hr _ _ Es).
  rewrite (proj2 (zget_ok _ _ s)) by auto with lia. cbn [bind].
  destruct (item_at s Hitems Hr) as (item & -> & Hi). cbn [bind].
  eexists item, _. split; [done|]. split.
  - split; cbn [perm_x perm_n perm]; [rewrite perm_ref_length; lia|]. right; right. rewrite Hpx, Nat2Z.id. split; [lia|done].
  - exists s. split; [|done]. rewrite <- Es. apply perm_ref_stable; lia.
Qed.

(** Whatever the cache holds, the answer is the item at position [r mod size] of
    the permutation, and the cache stays valid. *)
Lemma bucket_perm_choose_ok w x r :
  size b < 0xffff → Z.of_nat (length (items b)) = size b → perm_inv w →
  ∃ item w', bucket_perm_choose b w x r = Ok (item, w') ∧ perm_inv w' ∧
    perm_item x (u32 r mod size b) item.
Proof.
  intros Hbig Hitems [Hlen Hw]. unfold bucket_perm_choose.
  rewrite (proj2 (Z.eqb_neq _ _)) by lia.
  pose proof (Z.mod_pos_bound (u32 r) (size b) Hsize) as Hpr. set (pr := u32 r mod size b) in *.
  pose proof (Z.mod_pos_bound (crush_hash32_3 (hash b) x (id b) 0) (size b) Hsize) as Hs.
  destruct (negb (perm_x w =? u32 x) || (perm_n w =? 0)) eqn:Enew.
  - destruct (Z.eqb_spec pr 0) as [E0|E0].
    + rewrite zset_ok by lia. cbn [bind].
      set (s := crush_hash32_3 (hash b) x (id b) 0 mod size b) in *.
      destruct (item_at s Hitems Hs) as (item & -> & Hi). cbn [bind].
      eexists item, _. split; [done|]. split; [|exists s; split; [|done]].
      * split; cbn [perm_x perm_n perm]; [rewrite length_insert; lia|]. right; left. split; [done|].
        rewrite list_lookup_insert_eq by lia. by rewrite hash3_u32.
      * rewrite E0, (perm_ref_stable x 1) by lia. rewrite <- (perm_cleanup_ok x s) by done.
        destruct (decide (s = 0)) as [->|]; [done|]. by rewrite list_lookup_insert_ne by lia.
    + rewrite perm_iota_ok by lia. cbn [bind].
      rewrite drop_ge, app_nil_r by lia. simpl. rewrite Z2Nat.id by lia.
      apply (perm_finish_ok x (u32 x) pr 0%nat); auto with lia; intros; apply perm_ref_u32.
  - apply orb_false_iff in Enew as [Ex%negb_false_iff En]. zb.
    destruct Hw as [Hw|[[Hw Hp0]|[Hw Hp]]]; [lia|..].
    + rewrite Hw. rewrite Z.eqb_refl, perm_iota_ok by lia. cbn [bind].
      rewrite drop_ge, app_nil_r, Z2Nat.id by lia.
      rewrite Ex, hash3_u32 in Hp0. destruct (perm w) as [|p0 q]; [done|]. simplify_eq/=.
      rewrite zset_ok by (simpl; rewrite length_seqZ; lia). cbn [bind].
      rewrite (perm_cleanup_ok x) by done.
      apply (perm_finish_ok x (perm_x w) pr 1%nat); auto with lia. intros; rewrite Ex; apply perm_ref_u32.
    + rewrite (proj2 (Z.eqb_neq _ _)) by lia. destruct w as [px pn pm]; simpl in *. subst px pm.
      rewrite perm_ref_u32.
      assert (∃ n, pn = Z.of_nat n) as [n ->] by (exists (Z.to_nat pn); lia). rewrite Nat2Z.id.
      apply perm_finish_ok; auto with lia. intros; apply perm_ref_u32.
Qed.
End Perm.

(** ** The logarithm table

    Over the whole 16-bit input range [crush_ln] stays within [0, 2^48], so that
    the draw of a straw is never positive. *)

(** For table row [j], the second index reached from any normalised input of that
    row stays below 256, and no table sum exceeds 2^48. *)
Definition ln_row_ok (j : nat) : bool :=
  match __RH_LH_tbl !! (2 * j)%nat, __RH_LH_tbl !! (2 * j + 1)%nat with
  | Some rh, Some lh =>
      let y := 256 * (128 + Z.of_nat j) in
      let top := ((y + 255) * rh) / 2 ^ 48 - 0x8000 in
      (0 <=? lh) && (2 ^ 63 <=? y * rh) && ((y + 255) * rh <? 0x8100 * 2 ^ 48) &&
      forallb (λ ll, (0 <=? ll) && (lh + ll <=? 2 ^ 48)) (take (S (Z.to_nat top)) __LL_tbl)
  | _, _ => false
  end.

Lemma ln_rows : forallb ln_row_ok (seq 0 128) = true.
Proof. vm_compute. reflexivity. Qed.

Lemma land_0x18000 x : 0 <= x < 2 ^ 16 → (Z.land x 0x18000 =? 0) = (x <? 2 ^ 15).
Proof.
  intros Hx. change 0x18000 with (Z.shiftl 3 15).
  destruct (Z.ltb_spec x (2 ^ 15)); [apply Z.eqb_eq | apply Z.eqb_neq].
  - apply Z.bits_inj'. intros n Hn. rewrite Z.land_spec, Z.bits_0.
    destruct (decide (n < 15)); [by rewrite Z.shiftl_spec_low, andb_false_r by lia|].
    assert (Z.testbit x n = false) as ->; [|done].
    apply Z.testbit_false; [lia|]. rewrite Z.div_small; [done|]. split; [lia|]. apply Z.lt_le_trans with (2 ^ 15); [lia|]. apply Z.pow_le_mono_r; lia.
  - intros E. apply (f_equal (λ z, Z.testbit z 15)) in E.
    rewrite Z.land_spec, Z.bits_0 in E.
    assert (Z.testbit x 15 = true) as Ex.
    { apply Z.testbit_true; [lia|]. replace (x / 2 ^ 15) with 1; [done|].
      apply Z.div_unique with (x - 2 ^ 15); lia. }
    rewrite Ex in E. by vm_compute in E.
Qed.

Lemma ln_normalize_ok x :
  1 <= x < 2 ^ 16 →
  ∃ y e, ln_normalize x = Ok (y, e) ∧ 2 ^ 15 <= y < 2 ^ 16 ∧ 0 <= e <= 15.
Proof.
  intros Hx. unfold ln_normalize. rewrite land_0x18000 by lia. destruct (Z.ltb_spec x (2 ^ 15)); [|eauto with lia].
  change 0x1FFFF with (Z.ones 17). rewrite Z.land_ones, Z.mod_small by lia.
  unfold clz. rewrite (proj2 (Z.leb_gt _ _)) by lia. cbn [bind].
  pose proof (Z.log2_spec x ltac:(lia)) as [Hl Hu]. pose proof (Z.log2_nonneg x).
  assert (Z.log2 x < 15) by (apply Z.log2_lt_pow2; lia).
  replace (31 - Z.log2 x - 16) with (15 - Z.log2 x) by lia.
  rewrite Z.shiftl_mul_pow2 by lia.
  assert (2 ^ 15 = 2 ^ Z.log2 x * 2 ^ (15 - Z.log2 x)) as E by (rewrite <- Z.pow_add_r; [f_equal|..]; lia).
  rewrite Z.pow_succ_r in Hu by lia.
  assert (0 < 2 ^ (15 - Z.log2 x)) by (apply Z.pow_pos_nonneg; lia).
  assert (2 ^ 15 <= x * 2 ^ (15 - Z.log2 x) < 2 ^ 16) by nia.
  rewrite u32_small by lia. eexists _, _. split; [done|]. lia.
Qed.

Lemma crush_ln_ok u : 0 <= u <= 0xffff → ∃ v, crush_ln u = Ok v ∧ 0 <= v <= 2 ^ 48.
Proof.
  intros Hu. destruct (decide (u = 0xffff)) as [->|].
  { eexists. split; [vm_compute; reflexivity|]. split; vm_compute; discriminate. }
  unfold crush_ln. rewrite u32_small by lia.
  destruct (ln_normalize_ok (u + 1)) as (y & e & -> & Hy & He); [lia|]. cbn [bind].
  rewrite Z.shiftr_div_pow2, Z.shiftl_mul_pow2 by lia. change (2 ^ 8) with 256. change (2 ^ 1) with 2.
  pose proof (Z.div_mod y 256 ltac:(lia)) as Edm. pose proof (Z.mod_pos_bound y 256 ltac:(lia)).
  assert (128 <= y / 256 < 256) by lia.
  set (j := Z.to_nat (y / 256 - 128)).
  pose proof ln_rows as Hrow. rewrite forallb_forall in Hrow.
  specialize (Hrow j). rewrite in_seq in Hrow. specialize (Hrow ltac:(lia)). unfold ln_row_ok in Hrow.
  destruct (__RH_LH_tbl !! (2 * j)%nat) as [rh|] eqn:Erh; [|done].
  destruct (__RH_LH_tbl !! (2 * j + 1)%nat) as [lh|] eqn:Elh; [|done].
  rewrite (proj2 (zget_ok _ _ rh)) by (split; [lia|]; rewrite <- Erh; f_equal; lia). cbn [bind].
  rewrite (proj2 (zget_ok _ _ lh)) by (split; [lia|]; rewrite <- Elh; f_equal; lia). cbn [bind].
  rewrite !andb_true_iff in Hrow. destruct Hrow as (((Hlh & Hlo) & Hhi) & Hll).
  replace (128 + Z.of_nat j) with (y / 256) in * by lia. zb.
  assert (0 < rh) by nia.
  assert (256 * (y / 256) * rh <= y * rh <= (256 * (y / 256) + 255) * rh) as [Hb1 Hb2] by nia.
  rewrite u64_small by lia. rewrite Z.shiftr_div_pow2 by lia. set (q := (y * rh) / 2 ^ 48).
  assert (0x8000 <= q) by (apply Z.div_le_lower_bound; lia).
  assert (q < 0x8100) by (apply Z.div_lt_upper_bound; lia).
  assert (q <= (256 * (y / 256) + 255) * rh / 2 ^ 48) by (apply Z.div_le_mono; lia).
  change 255 with (Z.ones 8). rewrite Z.land_ones by lia.
  replace (q mod 2 ^ 8) with (q - 0x8000) by (apply Z.mod_unique_pos with 128; lia).
  destruct (lookup_lt_is_Some_2 __LL_tbl (Z.to_nat (q - 0x8000))) as [ll Ell].
  { change (length __LL_tbl) with 256%nat. lia. }
  rewrite (proj2 (zget_ok _ _ ll)) by auto with lia. cbn [bind].
  rewrite forallb_forall in Hll. specialize (Hll ll). rewrite <- list_elem_of_In in Hll.
  rewrite andb_true_iff in Hll. destruct Hll as [Hl1 Hl2].
  { apply (list_elem_of_lookup_2 _ (Z.to_nat (q - 0x8000))). by rewrite lookup_take_lt by lia. }
  zb. rewrite Z.shiftl_mul_pow2, Z.shiftr_div_pow2 by lia.
  change (2 ^ (48 - 12 - 32)) with 16. change (2 ^ (12 + 32)) with (2 ^ 44). wrap_small.
  assert (0 <= (lh + ll) / 16 <= 2 ^ 44) by (split; [apply Z.div_pos | apply Z.div_le_upper_bound]; lia).
  wrap_small. eexists. split; [done|]. lia.
Qed.

(** ** straw2 *)

Lemma land_ffff h : 0 <= Z.land h 0xffff <= 0xffff.
Proof.
  change 0xffff with (Z.ones 16). rewrite Z.land_ones by lia.
  pose proof (Z.mod_pos_bound h (2 ^ 16)). change (Z.ones 16) with 65535. lia.
Qed.

Lemma straw2_draw_ok b x r w i :
  0 <= w → ∃ d, straw2_draw b x r w i = Ok d ∧ S64_MIN <= d <= 0 ∧ (0 < w → S64_MIN < d).
Proof.
  intros Hw. unfold straw2_draw, S64_MIN. destruct (Z.eqb_spec w 0); [eexists; split; [done|]; lia|].
  destruct (crush_ln_ok (Z.land (crush_hash32_3 (hash b) x i r) 0xffff)) as (v & -> & Hv).
  { apply land_ffff. }
  cbn [bind]. rewrite s64_small by lia. eexists. split; [done|].
  assert (Z.quot (v - 2 ^ 48) w = - ((2 ^ 48 - v) / w)) as Eq.
  { replace (v - 2 ^ 48) with (- (2 ^ 48 - v)) by lia. rewrite Z.quot_opp_l by lia.
    by rewrite Z.quot_div_nonneg by lia. }
  change 0x1000000000000 with (2 ^ 48). rewrite Eq.
  assert (0 <= (2 ^ 48 - v) / w <= 2 ^ 48).
  { split; [apply Z.div_pos; lia|]. apply Z.div_le_upper_bound; nia. }
  lia.
Qed.

(** A larger weight never shortens the straw. *)
Lemma straw2_draw_mono b x r w w' i d d' :
  0 <= w <= w' → straw2_draw b x r w i = Ok d → straw2_draw b x r w' i = Ok d' → d <= d'.
Proof.
  intros Hw Hd Hd'. destruct (decide (w = 0)) as [->|].
  { destruct (straw2_draw_ok b x r w' i) as (e & E & ? & _); [lia|]. rewrite Hd' in E.
    injection E as <-. unfold straw2_draw in Hd. simpl in Hd. injection Hd as <-. lia. }
  unfold straw2_draw in *. rewrite (proj2 (Z.eqb_neq w 0)) in Hd by lia.
  rewrite (proj2 (Z.eqb_neq w' 0)) in Hd' by lia.
  destruct (crush_ln_ok (Z.land (crush_hash32_3 (hash b) x i r) 0xffff)) as (v & E & Hv).
  { apply land_ffff. }
  rewrite E in Hd, Hd'. cbn [bind] in *. simplify_eq. change 0x1000000000000 with (2 ^ 48).
  rewrite s64_small by lia. replace (v - 2 ^ 48) with (- (2 ^ 48 - v)) by lia.
  rewrite !Z.quot_opp_l, !Z.quot_div_nonneg by lia.
  enough ((2 ^ 48 - v) / w' <= (2 ^ 48 - v) / w) by lia. apply Z.div_le_compat_l; lia.
Qed.

(** The position the loop ends on: the first of the longest straws. *)
Fixpoint best (ds : list Z) (i high hd : Z) : Z :=
  match ds with
  | [] => high
  | d :: ds' => if (i =? 0) || (hd <? d) then best ds' (i + 1) i d else best ds' (i + 1) high hd
  end.

Definition first_max (ds : list Z) (k : nat) : Prop :=
  ∃ d, ds !! k = Some d ∧ ∀ j e, ds !! j = Some e → e <= d ∧ ((j < k)%nat → e < d).

Lemma best_spec ds pre k :
  first_max pre k → ∃ d k', pre !! k = Some d ∧
    best ds (Z.of_nat (length pre)) (Z.of_nat k) d = Z.of_nat k' ∧ first_max (pre ++ ds) k'.
Proof.
  revert pre k; induction ds as [|e ds IH]; intros pre k (d & Ek & Hk); simpl.
  { exists d, k. rewrite app_nil_r. split; [done|]. split; [done|]. by exists d. }
  assert (Hlen : (k < length pre)%nat) by (by eapply lookup_lt_Some).
  rewrite (proj2 (Z.eqb_neq _ _)) by lia. simpl.
  replace (Z.of_nat (length pre) + 1) with (Z.of_nat (length (pre ++ [e]))) by (rewrite length_app; simpl; lia).
  exists d. destruct (Z.ltb_spec d e) as [Hde|Hde].
  - destruct (IH (pre ++ [e]) (length pre)) as (d' & k' & E & Hb & Hm).
    + exists e. split; [by rewrite lookup_app_r, Nat.sub_diag by lia|].
      intros j e' Hj. destruct (decide (j < length pre)%nat).
      * rewrite lookup_app_l in Hj by done. destruct (Hk _ _ Hj). lia.
      * rewrite lookup_app_r in Hj by lia. apply list_lookup_singleton_Some in Hj as [? ->].
        split; [lia|]. intros; lia.
    + rewrite lookup_app_r, Nat.sub_diag in E by lia. simplify_eq/=.
      exists k'. split; [done|]. split; [done|]. by rewrite <- app_assoc in Hm.
  - destruct (IH (pre ++ [e]) k) as (d' & k' & E & Hb & Hm).
    + exists d. split; [by rewrite lookup_app_l by lia|].
      intros j e' Hj. destruct (decide (j < length pre)%nat).
      * rewrite lookup_app_l in Hj by done. auto.
      * rewrite lookup_app_r in Hj by lia. apply list_lookup_singleton_Some in Hj as [? ->].
        split; [lia|]. intros; lia.
    + rewrite lookup_app_l in E by lia. simplify_eq.
      exists k'. split; [done|]. split; [done|]. by rewrite <- app_assoc in Hm.
Qed.

Lemma best_first_max ds : ds ≠ [] → ∃ k, best ds 0 0 0 = Z.of_nat k ∧ first_max ds k.
Proof.
  destruct ds as [|d ds]; [done|]. intros _. simpl.
  destruct (best_spec ds [d] 0) as (d' & k' & E & Hb & Hm).
  { exists d. split; [done|]. intros j e Hj. apply list_lookup_singleton_Some in Hj as [-> ->]. split; lia. }
  simplify_eq/=. eauto.
Qed.

Lemma first_max_unique ds k k' : first_max ds k → first_max ds k' → k = k'.
Proof.
  intros (d & E & H) (d' & E' & H').
  destruct (H _ _ E'), (H' _ _ E). destruct (decide (k < k')%nat); [lia|].
  destruct (decide (k' < k)%nat); [lia|]. lia.
Qed.

(** Lengthening one straw moves the choice only to that straw. *)
Lemma first_max_grow ds ds' j k k' :
  length ds = length ds' →
  (∀ i d d', ds !! i = Some d → ds' !! i = Some d' → i ≠ j → d = d') →
  (∀ d d', ds !! j = Some d → ds' !! j = Some d' → d <= d') →
  first_max ds k → first_max ds' k' → k' = k ∨ k' = j.
Proof.
  intros Hlen Hsame Hgrow (d & Ek & Hk) (d' & Ek' & Hk').
  destruct (decide (k' = j)) as [|Hj]; [by right|left].
  destruct (lookup_lt_is_Some_2 ds k') as [e Ee]; [rewrite Hlen; by eapply lookup_lt_Some|].
  assert (e = d') as -> by eauto.
  destruct (lookup_lt_is_Some_2 ds' k) as [e' Ee']; [rewrite <- Hlen; by eapply lookup_lt_Some|].
  assert (d <= e') by (destruct (decide (k = j)) as [->|]; [eauto | enough (d = e') by lia; eauto]).
  destruct (Hk _ _ Ee), (Hk' _ _ Ee'). destruct (decide (k < k')%nat); [lia|].
  destruct (decide (k' < k)%nat); [lia|]. lia.
Qed.

Definition draw_of (b : crush_bucket) (x r w i : Z) : Z :=
  match straw2_draw b x r w i with Ok d => d | Err _ => 0 end.
Definition draws (b : crush_bucket) (x r : Z) (ws idl : list Z) : list Z :=
  zip_with (draw_of b x r) ws idl.

Lemma draw_of_ok b x r w i : 0 <= w → straw2_draw b x r w i = Ok (draw_of b x r w i).
Proof. intros Hw. unfold draw_of. by destruct (straw2_draw_ok b x r w i Hw) as (d & -> & _). Qed.

Lemma straw2_choose_from_best n i b ws idl x r high hd :
  Forall (λ w, 0 <= w) ws → length ws = length idl → (i + n)%nat = length ws →
  straw2_choose_from n (Z.of_nat i) b ws idl x r high hd =
  zget (items b) (best (drop i (draws b x r ws idl)) (Z.of_nat i) high hd).
Proof.
  intros Hws Hlen. revert i high hd; induction n as [|n IH]; intros i high hd Hi; simpl.
  { rewrite drop_ge; [done|]. unfold draws. rewrite length_zip_with. lia. }
  destruct (lookup_lt_is_Some_2 ws i) as [w Ew]; [lia|].
  destruct (lookup_lt_is_Some_2 idl i) as [idi Ei]; [lia|].
  rewrite (proj2 (zget_ok ws _ w)) by (rewrite Nat2Z.id; auto with lia). cbn [bind].
  rewrite (proj2 (zget_ok idl _ idi)) by (rewrite Nat2Z.id; auto with lia). cbn [bind].
  rewrite draw_of_ok by (rewrite Forall_lookup in Hws; eauto). cbn [bind].
  rewrite (drop_S _ (draw_of b x r w idi) i).
  2: { unfold draws. rewrite lookup_zip_with, Ew, Ei. done. }
  simpl. replace (Z.of_nat i + 1) with (Z.of_nat (S i)) by lia.
  destruct (_ || _); apply IH; lia.
Qed.

Lemma straw2_choose_ok b ws idl x r :
  0 < size b → Z.of_nat (length (items b)) = size b → Z.of_nat (length ws) = size b →
  Z.of_nat (length idl) = size b → Forall (λ w, 0 <= w) ws →
  ∃ k item, straw2_choose_from (Z.to_nat (size b)) 0 b ws idl x r 0 0 = Ok item ∧
    items b !! k = Some item ∧ first_max (draws b x r ws idl) k.
Proof.
  intros Hsz Hit Hlw Hli Hws.
  change 0 with (Z.of_nat 0) at 1. rewrite straw2_choose_from_best by (auto; lia).
  assert (Hld : length (draws b x r ws idl) = length ws).
  { unfold draws. rewrite length_zip_with. lia. }
  destruct (best_first_max (draws b x r ws idl)) as (k & Ek & Hm).
  { intros E. rewrite E in Hld. simpl in Hld. lia. }
  change (Z.of_nat 0) with 0. rewrite drop_0, Ek. destruct Hm as (d & Ed & Hm). pose proof (lookup_lt_Some _ _ _ Ed).
  destruct (lookup_lt_is_Some_2 (items b) k) as [item Ei]; [lia|].
  exists k, item. split; [apply zget_ok; rewrite Nat2Z.id; auto with lia|]. split; [done|]. by exists d.
Qed.

(** A straw2 bucket as the builder makes it: one non-negative weight per item. *)
Definition straw2_wf (b : crush_bucket) (ws : list Z) : Prop :=
  0 < size b ∧ Z.of_nat (length (items b)) = size b ∧ Z.of_nat (length ws) = size b ∧
  Forall (λ w, 0 <= w) ws.

(** ** Properties *)

(** Choosing by permutation is a function of the bucket and the input alone:
    from any valid state of the cache in the working space, the item returned for
    replica [r] is the one at position [r mod size] of a fixed arrangement
    [perm_ref] of the item positions in which every position occurs once, and the
    cache is valid again afterwards.  The shortcut for [r = 0] and its later
    clean-up are therefore invisible. *)
Theorem perm_cache_transparent (b : crush_bucket) (w : crush_work_bucket) (x r : Z) :
  0 < size b < 0xffff → Z.of_nat (length (items b)) = size b → perm_inv b w →
  NoDup (perm_ref b x (Z.to_nat (size b))) ∧
  Forall (λ s, 0 <= s < size b) (perm_ref b x (Z.to_nat (size b))) ∧
  Z.of_nat (length (perm_ref b x (Z.to_nat (size b)))) = size b ∧
  ∃ item w', bucket_perm_choose b w x r = Ok (item, w') ∧ perm_inv b w' ∧
    perm_item b x (u32 r mod size b) item.
Proof.
  intros [H1 H2] Hit Hw. split; [by apply perm_ref_nodup|]. split; [by apply perm_ref_range|].
  split; [rewrite perm_ref_length; lia|]. by apply bucket_perm_choose_ok.
Qed.

Definition sample_bucket : crush_bucket :=
  mk_bucket (-1) 1 0 0x30000 3 [10; 11; 12] (Straw2 [0x10000; 0x10000; 0x10000]).

Lemma perm_cache_transparent_witness :
  perm_inv sample_bucket (mk_work 0 0 [7; 7; 7]) ∧
  ∃ item w', bucket_perm_choose sample_bucket (mk_work 0 0 [7; 7; 7]) 5 4 = Ok (item, w') ∧
    perm_inv sample_bucket w'.
Proof.
  assert (H : perm_inv sample_bucket (mk_work 0 0 [7; 7; 7])) by (split; [reflexivity | left; reflexivity]).
  split; [exact H|].
  destruct (perm_cache_transparent sample_bucket (mk_work 0 0 [7; 7; 7]) 5 4)
    as (_ & _ & _ & item & w' & E & Hw & _); [cbv; auto | reflexivity | exact H | exists item, w'; auto].
Defined.

(** [C34] straw2 moves data only towards an item that gained weight.  When the
    weight of position [j] grows from [wj] to [wj'] and all others stay, then for
    every input the bucket's choice is either unchanged or is the item at [j];
    read backwards, an item that loses weight only gives data away. *)
Theorem straw2_optimal_movement (b : crush_bucket) (ws : list Z) (j : nat) (wj wj' x r : Z) :
  straw2_wf b ws → ws !! j = Some wj → wj <= wj' →
  ∃ item item' target, items b !! j = Some target ∧
    bucket_straw2_choose b ws x r None 0 = Ok item ∧
    bucket_straw2_choose b (<[j := wj']> ws) x r None 0 = Ok item' ∧
    (item' = item ∨ item' = target).
Proof.
  intros (Hsz & Hit & Hlen & Hws) Ej Hw. unfold bucket_straw2_choose. cbn [get_choose_arg_weights
    get_choose_arg_ids bind].
  assert (0 <= wj) by (rewrite Forall_lookup in Hws; eauto).
  destruct (straw2_choose_ok b ws (items b) x r) as (k & item & -> & Ek & Hm); auto.
  destruct (straw2_choose_ok b (<[j := wj']> ws) (items b) x r) as (k' & item' & -> & Ek' & Hm'); auto.
  { by rewrite length_insert. }
  { apply Forall_insert; [done|lia]. }
  pose proof (lookup_lt_Some _ _ _ Ej).
  destruct (lookup_lt_is_Some_2 (items b) j) as [target Et]; [lia|].
  exists item, item', target. repeat split; [done..|].
  destruct (first_max_grow (draws b x r ws (items b)) (draws b x r (<[j := wj']> ws) (items b)) j k k')
    as [->| ->]; simplify_eq; auto; unfold draws.
  - rewrite !length_zip_with, length_insert. done.
  - intros i d d'. rewrite !lookup_zip_with. intros E1 E2 Hij.
    rewrite list_lookup_insert_ne in E2 by done. congruence.
  - intros d d'. rewrite !lookup_zip_with, list_lookup_insert_eq, Ej, Et by done. simpl.
    intros [= <-] [= <-]. eapply straw2_draw_mono; [|apply draw_of_ok..]; lia.
Qed.

Lemma straw2_optimal_movement_witness :
  straw2_wf sample_bucket [0x10000; 0x10000; 0x10000] ∧
  ∃ item item' target, items sample_bucket !! 1%nat = Some target ∧
    bucket_straw2_choose sample_bucket [0x10000; 0x10000; 0x10000] 7 0 None 0 = Ok item ∧
    bucket_straw2_choose sample_bucket [0x10000; 0x80000; 0x10000] 7 0 None 0 = Ok item' ∧
    (item' = item ∨ item' = target).
Proof.
  assert (H : straw2_wf sample_bucket [0x10000; 0x10000; 0x10000]).
  { repeat split. repeat constructor; discriminate. }
  split; [exact H|].
  apply (straw2_optimal_movement sample_bucket [0x10000; 0x10000; 0x10000] 1 0x10000 0x80000 7 0 H);
    [reflexivity | discriminate].
Defined.

(** A straw2 bucket never chooses an item of weight zero as long as some item
    has a positive weight. *)
Theorem straw2_skips_zero (b : crush_bucket) (ws : list Z) (j : nat) (wj x r : Z) :
  straw2_wf b ws → ws !! j = Some wj → 0 < wj →
  ∃ k item wk, bucket_straw2_choose b ws x r None 0 = Ok item ∧
    items b !! k = Some item ∧ ws !! k = Some wk ∧ 0 < wk.
Proof.
  intros (Hsz & Hit & Hlen & Hws) Ej Hw. unfold bucket_straw2_choose. cbn [get_choose_arg_weights
    get_choose_arg_ids bind].
  destruct (straw2_choose_ok b ws (items b) x r) as (k & item & -> & Ek & Hm); auto.
  destruct Hm as (d & Ed & Hm). unfold draws in *. pose proof (lookup_lt_Some _ _ _ Ej).
  destruct (lookup_lt_is_Some_2 (items b) j) as [target Et]; [lia|].
  destruct (Hm j (draw_of b x r wj target)) as [Hle _].
  { by rewrite lookup_zip_with, Ej, Et. }
  rewrite lookup_zip_with in Ed. destruct (ws !! k) as [wk|] eqn:Ewk; [|done].
  rewrite Ek in Ed. simplify_eq/=. exists k, item, wk. repeat split; auto.
  destruct (straw2_draw_ok b x r wj target) as (dj & Edj & _ & Hpos); [lia|].
  assert (0 <= wk) by (rewrite Forall_lookup in Hws; eauto).
  destruct (decide (wk = 0)) as [->|]; [|lia].
  unfold draw_of in Hle. rewrite Edj in Hle. simpl in Hle. specialize (Hpos Hw). lia.
Qed.

Lemma straw2_skips_zero_witness :
  ∃ k item wk, bucket_straw2_choose sample_bucket [0; 0x10000; 0] 7 0 None 0 = Ok item ∧
    items sample_bucket !! k = Some item ∧ [0; 0x10000; 0] !! k = Some wk ∧ 0 < wk.
Proof.
  apply (straw2_skips_zero sample_bucket [0; 0x10000; 0] 1 0x10000 7 0);
    [repeat split; repeat constructor; discriminate | reflexivity | reflexivity].
Defined.

(** [crush_ln] stays within [0, 2^48] on all 16-bit inputs, as the straw2 draw
    needs, but it is not monotone at the top: the largest input maps below its
    predecessor, since the last table row holds 0xffff00000000 where the table's
    own description gives 2^48. *)
Theorem crush_ln_range :
  (∀ u, 0 <= u <= 0xffff → ∃ v, crush_ln u = Ok v ∧ 0 <= v <= 2 ^ 48) ∧
  (∃ v v', crush_ln 0xfffe = Ok v ∧ crush_ln 0xffff = Ok v' ∧ v' < v) ∧
  __RH_LH_tbl !! 257%nat = Some 0xffff00000000.
Proof.
  split; [apply crush_ln_ok|]. split; [|reflexivity].
  do 2 eexists. split; [vm_compute; reflexivity|]. split; [vm_compute; reflexivity|].
  vm_compute. reflexivity.
Qed.

End Choose.
