(* ===== verification/CrushBucket.v ===== *)
(** * CRUSH: every bucket yields one of its items (crush/mapper.c)

    The list and tree choose methods on buckets whose sums are those the builder
    maintains, and the dispatcher [crush_bucket_choose] on well-formed buckets of
    every kind: it never faults, returns an item of the bucket and keeps the
    working space valid. *)
From S2P Require Import Prelude CrushHash CrushMapper CrushChoose.

Module Bucket.
Import Crush Choose.

Definition zsum (l : list Z) : Z := foldr Z.add 0 l.

Lemma zsum_app l k : zsum (l ++ k) = zsum l + zsum k.
Proof. induction l as [|a l IH]; simpl; lia. Qed.
Lemma zsum_nonneg l : Forall (λ w, 0 <= w) l → 0 <= zsum l.
Proof. induction 1; simpl; lia. Qed.
Lemma zsum_pos l : Forall (λ w, 0 <= w) l → 0 < zsum l ↔ ∃ i w, l !! i = Some w ∧ 0 < w.
Proof.
  induction 1 as [|a l Ha Hl IH]; simpl.
  { split; [lia|]. intros (i & w & ? & ?). by destruct i. }
  pose proof (zsum_nonneg _ Hl). split.
  - intros Hs. destruct (Z.ltb_spec 0 a); [by exists 0%nat, a|].
    destruct (proj1 IH) as (i & w & ? & ?); [lia|]. by exists (S i), w.
  - intros ([|i] & w & Hw & Hp); simplify_eq/=; [lia|].
    assert (0 < zsum l) by (apply IH; eauto). lia.
Qed.

(** ** List buckets *)

(** What the builder maintains: one weight per item and the running sums, which
    fit in 32 bits. *)
Definition list_wf (b : crush_bucket) (iw sw : list Z) : Prop :=
  0 < size b ∧ Z.of_nat (length (items b)) = size b ∧ Z.of_nat (length iw) = size b ∧
  Z.of_nat (length sw) = size b ∧ Forall (λ w, 0 <= w) iw ∧ zsum iw < 2 ^ 32 ∧
  ∀ i s, sw !! i = Some s → s = zsum (take (S i) iw).

(** Scaling a 16-bit draw by a sum stays strictly below the sum. *)
Lemma scale16_bound h s : 0 < s < 2 ^ 32 →
  0 <= Z.shiftr (u64 (Z.land h 0xffff * s)) 16 < s.
Proof.
  intros Hs. pose proof (land_ffff h). rewrite u64_small by nia.
  rewrite Z.shiftr_div_pow2 by lia. split; [apply Z.div_pos; nia|].
  apply Z.div_lt_upper_bound; nia.
Qed.

Lemma scale32_bound h s : word h → 0 < s < 2 ^ 32 → 0 <= Z.shiftr (u64 (h * s)) 32 < s.
Proof.
  intros Hh Hs. unfold word in Hh. rewrite u64_small by nia.
  rewrite Z.shiftr_div_pow2 by lia. split; [apply Z.div_pos; nia|].
  apply Z.div_lt_upper_bound; nia.
Qed.

Lemma zget_nat {A} (l : list A) (i : nat) a : l !! i = Some a → zget l (Z.of_nat i) = Ok a.
Proof. intros H. apply zget_ok. rewrite Nat2Z.id. auto with lia. Qed.

Lemma list_choose_from_ok b iw sw x r n :
  list_wf b iw sw → (n <= length iw)%nat →
  ∃ item, list_choose_from n b iw sw x r = Ok item ∧ item ∈ items b ∧
    (0 < zsum (take n iw) → ∃ k wk, items b !! k = Some item ∧ iw !! k = Some wk ∧ 0 < wk).
Proof.
  intros (Hsz & Hit & Hiw & Hsw & Hpos & Hmax & Hsum). induction n as [|n IH]; intros Hn.
  { destruct (zget_in (items b) 0) as (item & E & Hin); [lia|]. exists item. simpl. auto with lia. }
  destruct (lookup_lt_is_Some_2 (items b) n) as [item Ei]; [lia|].
  destruct (lookup_lt_is_Some_2 sw n) as [s Es]; [lia|].
  destruct (lookup_lt_is_Some_2 iw n) as [w Ew]; [lia|].
  cbn [list_choose_from]. rewrite (zget_nat _ _ _ Ei), (zget_nat _ _ _ Es), (zget_nat _ _ _ Ew).
  cbn [bind]. assert (0 <= w) by (rewrite Forall_lookup in Hpos; eauto).
  pose proof (Hsum _ _ Es) as Hs. rewrite (take_S_r _ _ _ Ew), zsum_app in *. cbn in Hs |- *.
  pose proof (zsum_nonneg _ (Forall_take _ n _ Hpos)) as Hpre.
  pose proof (zsum_nonneg _ (Forall_drop _ (S n) _ Hpos)) as Hpost.
  assert (zsum iw = s + zsum (drop (S n) iw)) as Hsplit.
  { rewrite <- (take_drop (S n) iw) at 1. rewrite zsum_app, (take_S_r _ _ _ Ew), zsum_app. cbn. lia. }
  destruct (Z.ltb_spec (Z.shiftr (u64 (Z.land (crush_hash32_4 (hash b) x item r (id b)) 0xffff * s)) 16) w)
    as [Hlt|Hge].
  - exists item. split; [done|]. split; [by eapply list_elem_of_lookup_2|]. intros _.
    exists n, w. repeat split; auto. destruct (Z.eqb_spec s 0) as [->|]; [rewrite Z.mul_0_r in Hlt; exact Hlt|].
    pose proof (scale16_bound (crush_hash32_4 (hash b) x item r (id b)) s). lia.
  - destruct IH as (it & -> & Hin & Hz); [lia|]. exists it. repeat split; auto.
    intros Ht. apply Hz. destruct (Z.ltb_spec 0 (zsum (take n iw))); [done|exfalso].
    pose proof (scale16_bound (crush_hash32_4 (hash b) x item r (id b)) s). lia.
Qed.

(** ** Tree buckets *)

(** Node [2^h * (2k+1)] of the implicit tree has height [h]. *)
Definition node (h k : nat) : Z := 2 ^ Z.of_nat h * (2 * Z.of_nat k + 1).

Lemma node_S h k : node (S h) k = 2 * node h k.
Proof. unfold node. rewrite Nat2Z.inj_succ, Z.pow_succ_r by lia. lia. Qed.
Lemma node_pos h k : 0 < node h k.
Proof. unfold node. pose proof (Z.pow_pos_nonneg 2 (Z.of_nat h)). nia. Qed.

Lemma land_1 a : Z.land a 1 = a mod 2.
Proof. exact (Z.land_ones a 1 ltac:(lia)). Qed.
Lemma shiftr_double a : Z.shiftr (2 * a) 1 = a.
Proof. rewrite Z.shiftr_div_pow2, Z.mul_comm by lia. by rewrite Z.div_mul by lia. Qed.
Lemma shiftr_double1 a : Z.shiftr (2 * a + 1) 1 = a.
Proof. rewrite Z.shiftr_div_pow2 by lia. symmetry. apply (Z.div_unique_pos _ _ _ 1); lia. Qed.
Lemma node_parity h k : Z.land (node h k) 1 = match h with O => 1 | S _ => 0 end.
Proof.
  rewrite land_1. destruct h as [|h].
  - replace (node 0 k) with (1 + Z.of_nat k * 2) by (unfold node; simpl; lia).
    by rewrite Z.mod_add by lia.
  - rewrite node_S, Z.mul_comm. by rewrite Z.mod_mul by lia.
Qed.

Lemma height_from_ok fuel h k a : (h <= fuel)%nat →
  height_from fuel (node h k) a = Ok (a + Z.of_nat h).
Proof.
  revert h a; induction fuel as [|fuel IH]; intros [|h] a Hh; try lia;
    cbn [height_from]; rewrite node_parity; simpl; [f_equal; lia..|].
  rewrite node_S, shiftr_double, IH by lia. f_equal. lia.
Qed.

Lemma left_ok h k : (h < 32)%nat → left (node (S h) k) = Ok (node h (2 * k)).
Proof.
  intros Hh. unfold left, height. rewrite height_from_ok by lia. cbn [bind].
  f_equal. rewrite node_S. replace (0 + Z.of_nat (S h) - 1) with (Z.of_nat h) by lia.
  rewrite Z.shiftl_mul_pow2 by lia. unfold node. nia.
Qed.
Lemma right_ok h k : (h < 32)%nat → right (node (S h) k) = Ok (node h (2 * k + 1)).
Proof.
  intros Hh. unfold right, height. rewrite height_from_ok by lia. cbn [bind].
  f_equal. rewrite node_S. replace (0 + Z.of_nat (S h) - 1) with (Z.of_nat h) by lia.
  rewrite Z.shiftl_mul_pow2 by lia. unfold node. nia.
Qed.

(** What the builder maintains: a complete tree of [2^d] nodes, leaf [2i+1] for
    item [i], each inner node the sum of its children, unused leaves zero. *)
Record tree_wf (b : crush_bucket) (nn : Z) (nw : list Z) (d : nat) : Prop := {
  tree_size : 0 < size b;
  tree_items : Z.of_nat (length (items b)) = size b;
  tree_depth : (1 <= d < 8)%nat;
  tree_nodes : nn = 2 ^ Z.of_nat d;
  tree_weights : Z.of_nat (length nw) = nn;
  tree_range : ∀ h k w, nw !! Z.to_nat (node h k) = Some w → 0 <= w < 2 ^ 32;
  tree_sums : ∀ h k w wl wr, nw !! Z.to_nat (node (S h) k) = Some w →
    nw !! Z.to_nat (node h (2 * k)) = Some wl →
    nw !! Z.to_nat (node h (2 * k + 1)) = Some wr → w = wl + wr;
  tree_unused : ∀ i w, nw !! (2 * i + 1)%nat = Some w → size b <= Z.of_nat i → w = 0
}.

Lemma node_bound d h k : (k < 2 ^ (d - S h))%nat → (h < d)%nat → node h k < 2 ^ Z.of_nat d.
Proof.
  intros Hk Hh. unfold node. replace (Z.of_nat d) with (Z.of_nat h + (1 + Z.of_nat (d - S h))) by lia.
  rewrite !Z.pow_add_r by lia. pose proof (Z.pow_pos_nonneg 2 (Z.of_nat h)).
  assert (Z.of_nat k < 2 ^ Z.of_nat (d - S h)); [|nia].
  change 2 with (Z.of_nat 2). rewrite <- Nat2Z.inj_pow. lia.
Qed.
Lemma node_children d h k : (k < 2 ^ (d - S (S h)))%nat → (S h < d)%nat →
  (2 * k < 2 ^ (d - S h))%nat ∧ (2 * k + 1 < 2 ^ (d - S h))%nat.
Proof. intros Hk Hh. replace (d - S h)%nat with (S (d - S (S h))) by lia. simpl. lia. Qed.
Lemma tree_get b nn nw d h k : tree_wf b nn nw d → (k < 2 ^ (d - S h))%nat → (h < d)%nat →
  ∃ w, nw !! Z.to_nat (node h k) = Some w ∧ zget nw (node h k) = Ok w ∧ 0 <= w < 2 ^ 32.
Proof.
  intros Hwf Hk Hh. pose proof (node_bound d h k Hk Hh). pose proof (node_pos h k).
  pose proof (tree_weights _ _ _ _ Hwf). pose proof (tree_nodes _ _ _ _ Hwf).
  destruct (lookup_lt_is_Some_2 nw (Z.to_nat (node h k))) as [w Ew]; [lia|].
  exists w. split; [done|]. split; [apply zget_ok; auto with lia|].
  by eapply tree_range.
Qed.

(** A descent from a node of positive weight ends at an item of positive weight. *)
Lemma tree_choose_from_ok b nn nw d x r fuel h k w :
  tree_wf b nn nw d → (h <= fuel)%nat → (h < d)%nat → (k < 2 ^ (d - S h))%nat →
  nw !! Z.to_nat (node h k) = Some w → 0 < w →
  ∃ i item wi, tree_choose_from fuel b nw x r (node h k) = Ok item ∧
    items b !! i = Some item ∧ nw !! (2 * i + 1)%nat = Some wi ∧ 0 < wi.
Proof.
  intros Hwf. pose proof (tree_depth _ _ _ _ Hwf).
  revert h k w; induction fuel as [|fuel IH]; intros [|h] k w Hf Hh Hk Hw Hpos; try lia.
  1,2: cbn [tree_choose_from]; unfold terminal; rewrite node_parity; cbn [Z.eqb negb];
    replace (Z.to_nat (node 0 k)) with (2 * k + 1)%nat in Hw by (unfold node; simpl; lia);
    replace (node 0 k) with (2 * Z.of_nat k + 1) by (unfold node; simpl; lia);
    rewrite shiftr_double1;
    pose proof (tree_items _ _ _ _ Hwf); pose proof (tree_unused _ _ _ _ Hwf k w Hw);
    (destruct (lookup_lt_is_Some_2 (items b) k) as [item Ei]; [lia|]);
    exists k, item, w; (split; [by apply zget_nat|done]).
  cbn [tree_choose_from]. unfold terminal. rewrite node_parity. cbn [Z.eqb negb].
  destruct (node_children d h k) as [Hl Hr]; [done..|].
  destruct (tree_get b nn nw d (S h) k) as (w' & ? & -> & Hw32); [done..|]. simplify_eq.
  destruct (tree_get b nn nw d h (2 * k)) as (wl & El & Gl & ?); [done|done|lia|].
  destruct (tree_get b nn nw d h (2 * k + 1)) as (wr & Er & Gr & ?); [done|done|lia|].
  cbn [bind]. rewrite left_ok by lia. cbn [bind]. rewrite Gl. cbn [bind].
  pose proof (tree_sums _ _ _ _ Hwf _ _ _ _ _ Hw El Er) as Hs.
  pose proof (scale32_bound (crush_hash32_4 (hash b) x (node (S h) k) r (id b)) w
                (hash4_word _ _ _ _ _) ltac:(lia)).
  zcase_one; [eapply IH; eauto; lia|]. rewrite right_ok by lia. cbn [bind]. eapply IH; eauto; lia.
Qed.

Lemma tree_choose_ok b nn nw d w x r :
  tree_wf b nn nw d → nw !! Z.to_nat (Z.shiftr nn 1) = Some w → 0 < w →
  ∃ i item wi, bucket_tree_choose b nn nw x r = Ok item ∧
    items b !! i = Some item ∧ nw !! (2 * i + 1)%nat = Some wi ∧ 0 < wi.
Proof.
  intros Hwf Hw Hpos. pose proof (tree_depth _ _ _ _ Hwf) as Hd. unfold bucket_tree_choose.
  assert (Z.shiftr nn 1 = node (d - 1) 0) as E.
  { rewrite (tree_nodes _ _ _ _ Hwf), Z.shiftr_div_pow2 by lia. unfold node.
    replace (Z.of_nat d) with (1 + Z.of_nat (d - 1)) by lia. rewrite Z.pow_add_r by lia.
    change (2 ^ 1) with 2. rewrite Z.mul_comm, Z.div_mul by lia. lia. }
  rewrite E in *. eapply tree_choose_from_ok; eauto; [lia|lia|].
  replace (d - S (d - 1))%nat with 0%nat by lia. simpl. lia.
Qed.

(** ** Straw buckets *)

Lemma straw_choose_from_ok n i b straws x r high hd :
  Z.of_nat (length (items b)) = size b → Z.of_nat (length straws) = size b →
  0 <= i → i + Z.of_nat n = size b → 0 <= high < size b →
  ∃ item, straw_choose_from n i b straws x r high hd = Ok item ∧ item ∈ items b.
Proof.
  intros Hit Hst. revert i high hd; induction n as [|n IH]; intros i high hd Hi Hn Hh; simpl.
  { apply zget_in. lia. }
  destruct (zget_in (items b) i) as (item & -> & _); [lia|].
  destruct (zget_in straws i) as (s & -> & _); [lia|]. cbn [bind].
  destruct (_ || _); apply IH; lia.
Qed.

(** ** The dispatcher *)

(** The lengths and sums that the builder maintains, per algorithm; [0xffff] items
    would clash with the mark of the permutation cache. *)
Definition wf_data (b : crush_bucket) : Prop :=
  match data b with
  | Uniform _ | OtherAlg _ => True
  | List iw sw => list_wf b iw sw
  | Tree nn nw => ∃ d w, tree_wf b nn nw d ∧ nw !! Z.to_nat (Z.shiftr nn 1) = Some w ∧ 0 < w
  | Straw iw straws => Z.of_nat (length iw) = size b ∧ Z.of_nat (length straws) = size b
  | Straw2 iw => straw2_wf b iw
  end.
Definition wf_bucket (b : crush_bucket) : Prop :=
  0 <= size b < 0xffff ∧ Z.of_nat (length (items b)) = size b ∧ (0 < size b → wf_data b).

(** A weight set or an id list that replaces the bucket's own has its size. *)
Definition wf_arg (b : crush_bucket) (arg : option crush_choose_arg) : Prop :=
  match arg with
  | None => True
  | Some a =>
      (∀ ws, weight_set a = Some ws → ws ≠ [] ∧
         Forall (λ l, Z.of_nat (length l) = size b ∧ Forall (λ w, 0 <= w) l) ws) ∧
      (∀ l, ids a = Some l → Z.of_nat (length l) = size b)
  end.

Lemma choose_arg_weights_ok b iw arg position :
  straw2_wf b iw → wf_arg b arg → 0 <= position →
  ∃ ws, get_choose_arg_weights iw arg position = Ok ws ∧ straw2_wf b ws.
Proof.
  intros Hwf Harg Hp. unfold get_choose_arg_weights.
  destruct arg as [[ids [ws|]]|]; simpl; [|eauto..].
  destruct Harg as [Hws _]. destruct (Hws ws eq_refl) as [Hne Hall]. simpl in *.
  assert (0 < Z.of_nat (length ws)) by (destruct ws; [done|simpl; lia]).
  destruct (zget_in ws (if Z.of_nat (length ws) <=? position then Z.of_nat (length ws) - 1 else position))
    as (l & -> & Hin); [zcase_one|].
  exists l. split; [done|]. rewrite Forall_forall in Hall. destruct (Hall l Hin).
  destruct Hwf as (? & ? & ? & ?). done.
Qed.
Lemma choose_arg_ids_length b arg :
  Z.of_nat (length (items b)) = size b → wf_arg b arg →
  Z.of_nat (length (get_choose_arg_ids b arg)) = size b.
Proof.
  intros Hit Harg. unfold get_choose_arg_ids. destruct arg as [[[l|] ws]|]; simpl; auto.
  destruct Harg as [_ Hl]. by apply Hl.
Qed.

Lemma bucket_choose_ok b w x r arg position :
  wf_bucket b → 0 < size b → perm_inv b w → wf_arg b arg → 0 <= position →
  ∃ item w', crush_bucket_choose b w x r arg position = Ok (item, w') ∧
    item ∈ items b ∧ perm_inv b w'.
Proof.
  intros (Hb & Hit & Hd) Hsz Hw Harg Hp. specialize (Hd Hsz).
  unfold crush_bucket_choose, wf_data in *. rewrite (proj2 (Z.eqb_neq _ _)) by lia. cbn [negb assert bind].
  destruct (data b) as [iw|iw sw|nn nw|iw straws|iw|a].
  - destruct (bucket_perm_choose_ok b Hsz w x r) as (item & w' & E & Hw' & s & _ & Hs); [lia|done..|].
    exists item, w'. split; [done|]. split; [by eapply list_elem_of_lookup_2|done].
  - destruct (list_choose_from_ok b iw sw x r (Z.to_nat (size b)) Hd) as (item & E & Hin & _).
    { destruct Hd as (_ & _ & ? & _). lia. }
    exists item, w. unfold bucket_list_choose. by rewrite E.
  - destruct Hd as (d & wr & Ht & Er & Hr).
    destruct (tree_choose_ok b nn nw d wr x r Ht Er Hr) as (i & item & wi & -> & Hi & _).
    exists item, w. split; [done|]. split; [by eapply list_elem_of_lookup_2|done].
  - destruct Hd as [_ Hst].
    destruct (straw_choose_from_ok (Z.to_nat (size b)) 0 b straws x r 0 0) as (item & E & Hin); [lia..|].
    exists item, w. unfold bucket_straw_choose. by rewrite E.
  - destruct (choose_arg_weights_ok b iw arg position) as (ws & Ews & _ & _ & Hl & Hnn); [done..|].
    destruct (straw2_choose_ok b ws (get_choose_arg_ids b arg) x r) as (k & item & E & Ek & _);
      [done|done|done|by apply choose_arg_ids_length|done|].
    exists item, w. unfold bucket_straw2_choose. rewrite Ews. cbn [bind]. rewrite E.
    split; [done|]. split; [by eapply list_elem_of_lookup_2|done].
  - destruct (zget_in (items b) 0) as (item & -> & Hin); [lia|]. by exists item, w.
Qed.

(** ** Properties *)

(** The list and tree methods choose an item of positive weight: a list
    bucket with a positive total, and a tree bucket with a positive root, whose
    sums are those the builder keeps, never return an item of weight zero, read
    no array out of range and, for the tree, end the descent at a used leaf. *)
Theorem list_tree_skip_zero (b : crush_bucket) (x r : Z) :
  (∀ iw sw, list_wf b iw sw → 0 < zsum iw →
   ∃ i item w, bucket_list_choose b iw sw x r = Ok item ∧
     items b !! i = Some item ∧ iw !! i = Some w ∧ 0 < w) ∧
  (∀ nn nw d root, tree_wf b nn nw d → nw !! Z.to_nat (Z.shiftr nn 1) = Some root → 0 < root →
   ∃ i item w, bucket_tree_choose b nn nw x r = Ok item ∧
     items b !! i = Some item ∧ nw !! (2 * i + 1)%nat = Some w ∧ 0 < w).
Proof.
  split; [|intros; by eapply tree_choose_ok]. intros iw sw Hl Hs.
  assert (Z.to_nat (size b) = length iw) as E by (destruct Hl as (_ & _ & ? & _); lia).
  destruct (list_choose_from_ok b iw sw x r (length iw) Hl (Nat.le_refl _)) as (item & Ei & _ & Hz).
  rewrite take_ge in Hz by done. destruct (Hz Hs) as (k & wk & ?).
  exists k, item, wk. unfold bucket_list_choose. by rewrite E.
Qed.

Definition sample_tree_weights : list Z := [0; 5; 5; 0; 12; 7; 7; 0].

Lemma sample_tree_wf : tree_wf sample_bucket 8 sample_tree_weights 3.
Proof.
  split; [done|done|lia|done|done| | |].
  { intros h k w E. assert (Forall (λ w, 0 <= w < 2 ^ 32) sample_tree_weights) as Hf by (repeat constructor; lia).
    rewrite Forall_lookup in Hf. eauto. }
  - intros h k w wl wr E1 E2 E3. pose proof (lookup_lt_Some _ _ _ E1) as Hb.
    change (length sample_tree_weights) with 8%nat in Hb. pose proof (node_pos h k).
    rewrite node_S in Hb. assert (node h k < 4) as Hn by lia. unfold node in Hn.
    destruct h as [|[|h]]; [destruct k as [|[|k]]|destruct k as [|k]|]; [..|exfalso].
    1,2,4: vm_compute in E1, E2, E3; simplify_eq; reflexivity.
    1,2: change (2 ^ Z.of_nat 0) with 1 in Hn; change (2 ^ Z.of_nat 1) with 2 in Hn; lia.
    pose proof (Z.pow_le_mono_r 2 2 (Z.of_nat (S (S h)))). nia.
  - intros i w E Hi. pose proof (lookup_lt_Some _ _ _ E) as Hb.
    change (length sample_tree_weights) with 8%nat in Hb. change (size sample_bucket) with 3 in Hi.
    assert (i = 3%nat) as -> by lia. by vm_compute in E; simplify_eq.
Qed.

Lemma list_tree_skip_zero_witness :
  (∃ i item w, bucket_list_choose sample_bucket [5; 0; 7] [5; 5; 12] 3 1 = Ok item ∧
     items sample_bucket !! i = Some item ∧ [5; 0; 7] !! i = Some w ∧ 0 < w) ∧
  (∃ i item w, bucket_tree_choose sample_bucket 8 sample_tree_weights 3 1 = Ok item ∧
     items sample_bucket !! i = Some item ∧ sample_tree_weights !! (2 * i + 1)%nat = Some w ∧ 0 < w).
Proof.
  split.
  - apply (proj1 (list_tree_skip_zero sample_bucket 3 1) [5; 0; 7] [5; 5; 12]); [|reflexivity].
    repeat split; [repeat constructor; discriminate|].
    intros i s E. destruct i as [|[|[|i]]]; simplify_eq/=; reflexivity.
  - apply (proj2 (list_tree_skip_zero sample_bucket 3 1) 8 sample_tree_weights 3%nat 12);
      [exact sample_tree_wf|reflexivity..].
Defined.

(** Every algorithm's choose method, on a well-formed non-empty bucket and
    any valid cache state and weight set, returns an item of the bucket without a
    fault, and leaves the cache valid for the next call. *)
Theorem bucket_choose_total (b : crush_bucket) (w : crush_work_bucket) (x r : Z)
    (arg : option crush_choose_arg) (position : Z) :
  wf_bucket b → 0 < size b → perm_inv b w → wf_arg b arg → 0 <= position →
  ∃ item w', crush_bucket_choose b w x r arg position = Ok (item, w') ∧
    item ∈ items b ∧ perm_inv b w'.
Proof. apply bucket_choose_ok. Qed.

Lemma sample_bucket_wf : wf_bucket sample_bucket.
Proof. repeat split; try done. repeat constructor; discriminate. Qed.

Lemma bucket_choose_total_witness :
  ∃ item w', crush_bucket_choose sample_bucket (mk_work 0 0 [0; 0; 0]) 9 2
      (Some (mk_choose_arg None (Some [[0; 0x10000; 0x8000]]))) 1 = Ok (item, w') ∧
    item ∈ items sample_bucket ∧ perm_inv sample_bucket w'.
Proof.
  apply (bucket_choose_total sample_bucket);
    [exact sample_bucket_wf|reflexivity|split; [reflexivity|left; reflexivity]| |discriminate].
  split; [|discriminate]. intros ws [= <-]. split; [discriminate|].
  repeat constructor; discriminate.
Defined.
End Bucket.
