(* ===== verification/CrushFirstn.v ===== *)
(** * CRUSH: the replicated placement (crush/mapper.c, [crush_choose_firstn])

    On a well-formed map the descent terminates within a computed number of turns
    without a fault, and the items it returns are distinct, of the requested type,
    below the starting bucket and, with chooseleaf, paired with distinct devices
    that are in and lie below their item. *)
From S2P Require Import Prelude CrushHash CrushMapper CrushChoose CrushBucket.

Module Firstn.
Import Crush Choose Bucket.

(** ** Well-formed maps *)

Definition in_map (map : crush_map) (b : crush_bucket) : Prop :=
  buckets map !! Z.to_nat (-1 - id b) = Some (Some b).

(** What the builder and the decoder establish: the bucket at index [i] carries
    the id [-1-i], its arrays fit, its type is positive, its negative items are
    buckets of the map, and some ranking of at most [D] levels shows that no bucket
    contains itself. *)
Record wf_map (map : crush_map) (rank : Z → nat) (D : nat) : Prop := {
  map_ids : ∀ i b, buckets map !! i = Some (Some b) → id b = -1 - Z.of_nat i;
  map_buckets : ∀ b, in_map map b → wf_bucket b;
  map_types : ∀ b, in_map map b → 0 < type b;
  map_items : ∀ b item, in_map map b → item ∈ items b → item < 0 → ∃ c, get_bucket map item = Ok c;
  map_rank : ∀ b item, in_map map b → item ∈ items b → item < 0 → (rank item < rank (id b))%nat;
  map_depth : ∀ item, (rank item <= D)%nat
}.

(** [under map a item]: [item] occurs in the subtree of bucket [a]. *)
Inductive under (map : crush_map) : Z → Z → Prop :=
| under_item a b item : get_bucket map a = Ok b → item ∈ items b → under map a item
| under_child a b c item :
    get_bucket map a = Ok b → c ∈ items b → under map c item → under map a item.

Definition at_or_under (map : crush_map) (a item : Z) : Prop := a = item ∨ under map a item.

Lemma under_snoc map a c b item :
  at_or_under map a c → get_bucket map c = Ok b → item ∈ items b → under map a item.
Proof.
  intros [->|H] Hb Hin; [by eapply under_item|].
  induction H as [a b' c Ha Hc|a b' c' c Ha Hc _ IH]; eapply under_child; eauto using under_item.
Qed.

Section Map.
Context (map : crush_map) (rank : Z → nat) (D : nat) (Hmap : wf_map map rank D).

(** The caches of all buckets are valid. *)
Definition work_ok (work : crush_work) : Prop :=
  ∀ b, in_map map b → ∃ w, work !! Z.to_nat (-1 - id b) = Some (Some w) ∧ perm_inv b w.

Lemma in_map_id b : in_map map b → 0 <= -1 - id b.
Proof. intros H. pose proof (map_ids _ _ _ Hmap _ _ H). lia. Qed.

Lemma get_bucket_in item c : get_bucket map item = Ok c → in_map map c ∧ id c = item ∧ item < 0.
Proof.
  unfold get_bucket. intros (p & [Hi Hp]%zget_ok & E%deref_ok)%bind_inv. subst p.
  pose proof (map_ids _ _ _ Hmap _ _ Hp) as E. assert (id c = item) as <- by lia.
  repeat split; [done|lia].
Qed.
Lemma in_map_get b : in_map map b → get_bucket map (id b) = Ok b.
Proof.
  intros H. unfold get_bucket. pose proof (in_map_id b H).
  rewrite (proj2 (zget_ok _ _ (Some b))) by (split; [lia|exact H]). done.
Qed.

Lemma on_work_ok work b f :
  work_ok work → in_map map b →
  (∀ w, perm_inv b w → ∃ item w', f w = Ok (item, w') ∧ item ∈ items b ∧ perm_inv b w') →
  ∃ item work', on_work work b f = Ok (item, work') ∧ item ∈ items b ∧ work_ok work'.
Proof.
  unfold work_ok, crush_work in *. intros Hw Hb Hf. destruct (Hw b Hb) as (w & Ew & Hi). pose proof (in_map_id b Hb).
  destruct (Hf w Hi) as (item & w' & Ef & Hin & Hi'). unfold on_work.
  rewrite (proj2 (zget_ok _ _ (Some w))) by auto. cbn [bind deref]. rewrite Ef. cbn [bind].
  pose proof (lookup_lt_Some _ _ _ Ew). rewrite zset_ok by lia. cbn [bind].
  exists item, (<[Z.to_nat (-1 - id b) := Some w']> work). repeat split; [done|].
  intros c Hc. destruct (decide (Z.to_nat (-1 - id c) = Z.to_nat (-1 - id b))) as [E|E].
  - rewrite E, list_lookup_insert_eq by done. unfold in_map in *. rewrite E in Hc. simplify_eq. eauto.
  - rewrite list_lookup_insert_ne by done. auto.
Qed.

(** The type test of the descent on an item of a bucket of the map. *)
Lemma item_type_ok b item :
  in_map map b → item ∈ items b →
  0 <= item ∧ item_type map item = Ok 0 ∨
  ∃ c, get_bucket map item = Ok c ∧ in_map map c ∧ id c = item ∧ item < 0 ∧
    item_type map item = Ok (type c) ∧ 0 < type c ∧ -1 - item < max_buckets map ∧
    (rank item < rank (id b))%nat.
Proof.
  intros Hb Hin. unfold item_type. zcase_one; [right|by left].
  destruct (map_items _ _ _ Hmap b item Hb Hin) as [c Hc]; [lia|].
  pose proof (get_bucket_in _ _ Hc) as (Hcm & Hid & _). rewrite Hc. exists c.
  pose proof (lookup_lt_Some _ _ _ Hcm). pose proof (map_types _ _ _ Hmap c Hcm).
  unfold max_buckets. split; [done|]. do 5 (split; [done|]). split; [lia|]. by eapply map_rank.
Qed.

Section Pick.
Context (x : Z) (choose_args : option (list crush_choose_arg)).
Context (Hargs : ∀ b, in_map map b →
  ∃ arg, choose_arg_of choose_args b = Ok arg ∧ wf_arg b arg).

(** One choice of the descent, by the bucket's method or by permutation. *)
Lemma pick_ok work b r position (perm : bool) :
  work_ok work → in_map map b → 0 < size b → 0 <= position →
  ∃ item work',
    (if perm then on_work work b (λ w, bucket_perm_choose b w x r)
     else arg <- choose_arg_of choose_args b;;
          on_work work b (λ w, crush_bucket_choose b w x r arg position)) = Ok (item, work') ∧
    item ∈ items b ∧ work_ok work'.
Proof.
  intros Hw Hb Hsz Hp. pose proof (map_buckets _ _ _ Hmap _ Hb) as Hwf. destruct perm.
  - apply on_work_ok; [done..|]. intros w Hi. destruct Hwf as (Hs & Hit & _).
    destruct (bucket_perm_choose_ok b Hsz w x r) as (item & w' & E & Hi' & s & _ & Hl); [lia|done..|].
    exists item, w'. split; [done|]. split; [by eapply list_elem_of_lookup_2|done].
  - destruct (Hargs b Hb) as (arg & -> & Harg). cbn [bind]. apply on_work_ok; [done..|].
    intros w Hi. by apply bucket_choose_ok.
Qed.

End Pick.
End Map.
Arguments in_map_id {map rank D} Hmap b.
Arguments get_bucket_in {map rank D} Hmap item c.
Arguments in_map_get {map rank D} Hmap b.
Arguments on_work_ok {map rank D} Hmap work b f.
Arguments item_type_ok {map rank D} Hmap b item.
Arguments pick_ok {map rank D} Hmap x {choose_args} Hargs work b r position perm.

Section Placement.
Context (map : crush_map) (rank : Z → nat) (D : nat) (weights : list Z) (weight_max x : Z).
Context (choose_args : option (list crush_choose_arg)).
Context (Hmap : wf_map map rank D) (Hweights : weight_max <= Z.of_nat (length weights)).
Context (Hargs : ∀ b, in_map map b →
  ∃ arg, choose_arg_of choose_args b = Ok arg ∧ wf_arg b arg).

(** A device of the map that is not marked out. *)
Definition avail (d : Z) : Prop :=
  0 <= d < max_devices map ∧ is_out weights weight_max x d = Ok false.

(** An acceptable choice of type [ty]: a device that is in, or a bucket. *)
Definition choice (ty item : Z) : Prop :=
  ty = 0 ∧ avail item ∨ item < 0 ∧ ∃ c, get_bucket map item = Ok c ∧ type c = ty.

Lemma is_out_total d : 0 <= d → ∃ o, is_out weights weight_max x d = Ok o.
Proof.
  intros Hd. unfold is_out. zcase_one; [eauto|].
  destruct (zget_in weights d) as (w & -> & _); [lia|]. cbn [bind]. repeat zcase_one; eauto.
Qed.


(** The values of [vary_r] that can be shifted by. *)
Definition shift_ok (vary_r : Z) : Prop := 0 <= vary_r <= 32.

(** ** One replica *)

Section Try.
Context (bucket : crush_bucket) (ty tries local_retries local_fallback_retries vary_r parent_r : Z).
Context (leaf : option (crush_bucket → list Z → Z → Z → crush_work → res (list Z * crush_work))).
Context (Hbucket : in_map map bucket).

(** The bound on local retries: the exhaustive search of a bucket counts its items. *)
Definition local_max (local_retries local_fallback_retries : Z) : Z :=
  Z.max local_retries (0xffff + local_fallback_retries).
#[local] Abbreviation L := (local_max local_retries local_fallback_retries).

Context (Htries : 0 <= tries) (Hfallback : 0 <= local_fallback_retries).
Context (Hwide : tries + L + 2 < 2 ^ 32) (Hshift : shift_ok vary_r).

Lemma shift_r_ok r : ∃ sub_r, shift_r r vary_r = Ok sub_r.
Proof.
  unfold shift_r, shift_ok in *. destruct (Z.eqb_spec vary_r 0); [eauto|].
  rewrite (proj2 (Z.leb_le _ _)), (proj2 (Z.ltb_lt _ _)) by lia. simpl. eauto.
Qed.

(** What the recursive call of chooseleaf promises: it adds at most one leaf. *)
Definition leaf_promise : Prop :=
  match leaf with
  | None => True
  | Some f => ∀ c out2 count r work, in_map map c → work_ok map work → 0 < count →
      ∃ out2' work', f c out2 count r work = Ok (out2', work') ∧ work_ok map work' ∧
        (out2' = out2 ∨ ∃ l, out2' = out2 ++ [l] ∧ avail l ∧ under map (id c) l ∧ (l ∉ out2))
  end.
Context (Hleaf : leaf_promise).

(** How the two output vectors correspond. *)
Definition paired (out out2 : list Z) : Prop :=
  is_Some leaf → length out2 = length out ∧ (ty = 0 → out2 = out).

(** What a successful attempt returns. *)
Definition got_ok (out out2 : list Z) (item : Z) (lf : option Z) : Prop :=
  (item ∉ out) ∧ choice ty item ∧ under map (id bucket) item ∧
  match leaf with
  | None => lf = None
  | Some _ => ∃ l, lf = Some l ∧ avail l ∧ (l ∉ out2) ∧ at_or_under map item l ∧ (ty = 0 → l = item)
  end.
Definition attempt_ok (out out2 : list Z) (m : res (attempt * crush_work)) : Prop :=
  ∃ a work', m = Ok (a, work') ∧ work_ok map work' ∧
    match a with Skip => True | Got item lf => got_ok out out2 item lf end.

(** The number of retries that may still happen. *)
Definition retries (ftotal flocal : Z) : Z :=
  if ftotal <? tries then tries - ftotal + (L + 1) else L + 1 - flocal.
Definition turns (b : crush_bucket) (ftotal flocal : Z) : Z :=
  retries ftotal flocal * (Z.of_nat D + 1) + Z.of_nat (rank (id b)) + 1.

Lemma retries_S ftotal flocal ftotal' flocal' :
  0 <= flocal <= L → ftotal' = ftotal + 1 →
  (flocal' = flocal + 1 ∧ flocal' <= L ∨ flocal' = 0 ∧ ftotal' < tries) →
  0 <= retries ftotal' flocal' < retries ftotal flocal.
Proof. unfold retries. intros. repeat zcase_one. Qed.

Lemma turns_retry fuel b c ftotal flocal ftotal' flocal' :
  turns b ftotal flocal <= Z.of_nat (S fuel) →
  0 <= retries ftotal' flocal' < retries ftotal flocal → turns c ftotal' flocal' <= Z.of_nat fuel.
Proof.
  unfold turns. intros Ht Hr. pose proof (map_depth _ _ _ Hmap (id c)). nia.
Qed.
Lemma turns_child fuel b c ftotal flocal :
  turns b ftotal flocal <= Z.of_nat (S fuel) → (rank (id c) < rank (id b))%nat →
  turns c ftotal flocal <= Z.of_nat fuel.
Proof. unfold turns. lia. Qed.

(** The leaf found for an accepted item, or the reason for a rejection. *)
Lemma leaf_step out out2 count work item itemtype r (collide : bool) :
  work_ok map work → 0 < count → paired out out2 → collide = bool_decide (item ∈ out) →
  under map (id bucket) item → item < max_devices map → itemtype = ty →
  (0 <= item ∧ itemtype = 0 ∨ item < 0 ∧ itemtype <> 0 ∧
     ∃ c, get_bucket map item = Ok c ∧ in_map map c ∧ id c = item ∧ type c = ty) →
  ∃ reject lf work',
    (match leaf with
     | Some f =>
         if collide then Ok (false, None, work)
         else if item <? 0 then
           sub_r <- shift_r r vary_r;;
           c <- get_bucket map item;;
           '(out2', work) <- f c out2 count sub_r work;;
           if Z.of_nat (length out2') <=? Z.of_nat (length out) then Ok (true, None, work)
           else lf <- zget out2' (Z.of_nat (length out));; Ok (false, Some lf, work)
         else Ok (false, Some item, work)
     | None => Ok (false, None, work)
     end) = Ok (reject, lf, work') ∧ work_ok map work' ∧
    ∃ reject', (if negb reject && negb collide && (itemtype =? 0)
                then is_out weights weight_max x item else Ok reject) = Ok reject' ∧
    (reject' || collide = false → got_ok out out2 item lf).
Proof.
  intros Hw Hc Hp Hcol Hu Hdev Hty Hkind. unfold leaf_promise, paired, got_ok in *.
  assert (∀ reject, ∃ reject', (if negb reject && negb collide && (itemtype =? 0)
            then is_out weights weight_max x item else Ok reject) = Ok reject' ∧
          (reject' || collide = false → reject = false ∧ (item ∉ out) ∧ choice ty item)) as Hout.
  { intros reject. destruct Hkind as [[Hi E]|(Hi & E & c & Ec & _ & _ & Et)].
    - destruct (is_out_total item Hi) as [o Eo]. rewrite E. simpl. rewrite andb_true_r.
      destruct reject, collide; simpl; eexists; (split; [done||exact Eo|]); try done.
      rewrite orb_false_r. intros ->. split; [done|]. split; [by apply (bool_decide_eq_false _); symmetry|].
      left. repeat split; [congruence|done..].
    - rewrite (proj2 (Z.eqb_neq _ _)) by done. rewrite andb_false_r. eexists. split; [done|].
      intros [-> Ho]%orb_false_elim. split; [done|]. subst collide.
      split; [by apply (bool_decide_eq_false _)|]. right. eauto. }
  destruct leaf as [f|].
  2: { exists false, None, work. destruct (Hout false) as (rj & -> & Hr). repeat split; auto.
       exists rj. split; [done|]. intros (_ & ? & ?)%Hr. auto. }
  destruct Hp as [Hlen Heq]; [done|].
  destruct collide eqn:Ecol.
  { exists false, None, work. destruct (Hout false) as (rj & -> & Hr). repeat split; auto.
    exists rj. split; [done|]. by rewrite orb_true_r. }
  destruct Hkind as [[Hi E]|(Hi & E & c & Ec & Hcm & Hid & Et)].
  - rewrite (proj2 (Z.ltb_ge _ _)) by lia. exists false, (Some item), work.
    destruct (Hout false) as (rj & Ej & Hr). split; [done|]. split; [done|]. exists rj. split; [done|].
    intros (_ & Hn & Hch)%Hr. repeat split; auto. exists item.
    split; [done|]. rewrite Heq by congruence. split; [|unfold at_or_under; auto].
    destruct Hch as [[_ ?]|[? _]]; [done|lia].
  - rewrite (proj2 (Z.ltb_lt _ _)) by lia. destruct (shift_r_ok r) as [sub_r ->]. rewrite Ec. cbn [bind].
    destruct (Hleaf c out2 count sub_r work)
      as (out2' & work' & -> & Hw' & Hl); [done..|]. cbn [bind].
    destruct Hl as [->|(l & -> & Hav & Hul & Hnl)].
    + rewrite Hlen, (proj2 (Z.leb_le _ _)) by lia. exists true, None, work'.
      destruct (Hout true) as (rj & Ej & Hr). split; [done|]. split; [done|]. exists rj.
      split; [done|]. intros (? & _)%Hr. done.
    + rewrite length_app. simpl. rewrite (proj2 (Z.leb_gt _ _)) by lia.
      rewrite (zget_nat _ _ l) by (rewrite <- Hlen; by apply list_lookup_middle). cbn [bind].
      exists false, (Some l), work'. destruct (Hout false) as (rj & Ej & Hr).
      split; [done|]. split; [done|]. exists rj. split; [done|]. intros (_ & Hn & Hch)%Hr.
      repeat split; auto. exists l. split; [done|]. split; [done|]. split; [done|].
      rewrite Hid in Hul. unfold at_or_under. split; [auto|]. intros ->. congruence.
Qed.

#[local] Abbreviation try_ := (firstn_try map weights weight_max x choose_args bucket ty tries
  local_retries local_fallback_retries vary_r parent_r leaf).

(** The code from the label [reject] on: every retry has fewer turns left. *)
Lemma next_try_ok fuel b rep ftotal flocal out out2 count (collide : bool) work :
  (∀ b ftotal flocal work, in_map map b → at_or_under map (id bucket) (id b) → work_ok map work →
     0 <= ftotal <= tries + flocal → 0 <= flocal <= L → turns b ftotal flocal <= Z.of_nat fuel →
     attempt_ok out out2 (try_ fuel b rep ftotal flocal out out2 count work)) →
  in_map map b → at_or_under map (id bucket) (id b) → work_ok map work →
  0 <= ftotal <= tries + flocal → 0 <= flocal <= L → turns b ftotal flocal <= Z.of_nat (S fuel) →
  attempt_ok out out2
    (if collide && (u32 (flocal + 1) <=? local_retries)
     then try_ fuel b rep (u32 (ftotal + 1)) (u32 (flocal + 1)) out out2 count work
     else if (0 <? local_fallback_retries) &&
             (u32 (flocal + 1) <=? u32 (size b + local_fallback_retries))
     then try_ fuel b rep (u32 (ftotal + 1)) (u32 (flocal + 1)) out out2 count work
     else if u32 (ftotal + 1) <? tries
     then try_ fuel bucket rep (u32 (ftotal + 1)) 0 out out2 count work
     else Ok (Skip, work)).
Proof.
  intros IH Hb Hu Hw Hft Hfl Hturns. pose proof (map_buckets _ _ _ Hmap _ Hb) as (Hsize & _).
  unfold local_max in *. rewrite !u32_small by lia.
  destruct (_ && (flocal + 1 <=? _)) eqn:E1; [|destruct (_ && (flocal + 1 <=? size b + _)) eqn:E2;
    [|destruct (Z.ltb_spec (ftotal + 1) tries)]].
  1,2: rewrite andb_true_iff in *; zb; apply IH; auto; try (unfold local_max; lia);
    eapply turns_retry; [exact Hturns|]; apply retries_S; unfold local_max; lia.
  - apply IH; auto; try (unfold local_max; lia); [by left|].
    eapply turns_retry; [exact Hturns|]. apply retries_S; unfold local_max; lia.
  - exists Skip, work. done.
Qed.

Lemma firstn_try_ok fuel b rep ftotal flocal out out2 count work :
  in_map map b → at_or_under map (id bucket) (id b) → work_ok map work → paired out out2 → 0 < count →
  0 <= ftotal <= tries + flocal → 0 <= flocal <= L → turns b ftotal flocal <= Z.of_nat fuel →
  attempt_ok out out2 (try_ fuel b rep ftotal flocal out out2 count work).
Proof.
  intros Hb Hu Hw Hp Hc. revert b ftotal flocal work Hb Hu Hw.
  induction fuel as [|fuel IH]; intros b ftotal flocal work Hb Hu Hw Hft Hfl Hturns.
  { exfalso. revert Hturns. unfold turns, retries. zcase_one; nia. }
  pose proof (map_buckets _ _ _ Hmap _ Hb) as (Hsize & _). cbn [firstn_try].
  destruct (Z.eqb_spec (size b) 0); [by apply next_try_ok|].
  set (r := s32 (s32 (rep + parent_r) + ftotal)).
  destruct (pick_ok Hmap x Hargs work b r (Z.of_nat (length out))
    ((0 <? local_fallback_retries) && (Z.shiftr (size b) 1 <=? flocal) &&
     (local_fallback_retries <? flocal))) as (item & work1 & -> & Hin & Hw1); [done|done|lia|lia|].
  cbn [bind]. pose proof (under_snoc _ _ _ _ _ Hu (in_map_get Hmap b Hb) Hin) as Hui.
  destruct (Z.leb_spec (max_devices map) item); [by exists Skip, work1|].
  assert (∀ itemtype, itemtype = ty →
    (0 <= item ∧ itemtype = 0 ∨ item < 0 ∧ itemtype <> 0 ∧
     ∃ c, get_bucket map item = Ok c ∧ in_map map c ∧ id c = item ∧ type c = ty) →
    ∃ reject lf work', _ ∧ work_ok map work' ∧ ∃ reject', _ ∧ _) as Hstep
    by (intros it E Hk; exact (leaf_step out out2 count work1 item it r _ Hw1 Hc Hp eq_refl Hui
                                 ltac:(lia) E Hk)).
  destruct (item_type_ok Hmap b item Hb Hin) as [[Hi ->]|(c & Ec & Hcm & Hid & Hneg & -> & Htp & Hmx & Hrk)];
    cbn [bind]; [destruct (Z.eqb_spec 0 ty) as [Ety|]|destruct (Z.eqb_spec (type c) ty) as [Ety|]];
    cbn [negb].
  2: { rewrite (proj2 (Z.leb_le _ _)) by lia. by exists Skip, work1. }
  3: { rewrite (proj2 (Z.leb_gt _ _)), (proj2 (Z.leb_gt _ _)), Ec by lia. cbn [orb bind].
       apply IH; auto; [rewrite Hid; by right|]. eapply turns_child; [done|]. by rewrite Hid. }
  - destruct (Hstep 0) as (reject & lf & work2 & -> & Hw2 & rj & E2 & Hgot); [done|auto|].
    cbn [bind]. rewrite E2. cbn [bind]. destruct (rj || _) eqn:Erj.
    + by apply next_try_ok.
    + exists (Got item lf), work2. auto.
  - destruct (Hstep (type c)) as (reject & lf & work2 & -> & Hw2 & rj & E2 & Hgot);
      [done|right; repeat split; [done|lia|by exists c]|].
    cbn [bind]. rewrite E2. cbn [bind]. destruct (rj || _) eqn:Erj.
    + by apply next_try_ok.
    + exists (Got item lf), work2. auto.
Qed.

Lemma turns_start fuel b :
  (tries + L + 1) * (Z.of_nat D + 1) + Z.of_nat D + 1 <= Z.of_nat fuel → turns b 0 0 <= Z.of_nat fuel.
Proof.
  intros Hf. unfold turns, retries, local_max in *. pose proof (map_depth _ _ _ Hmap (id b)).
  zcase_one; nia.
Qed.

(** ** All replicas *)

(** The items placed so far and, with chooseleaf, their leaves. *)
Definition placed (out out2 : list Z) : Prop :=
  NoDup out ∧ Forall (λ item, choice ty item ∧ under map (id bucket) item) out ∧
  match leaf with
  | None => out2 = []
  | Some _ => NoDup out2 ∧
      Forall2 (λ item l, avail l ∧ at_or_under map item l ∧ (ty = 0 → l = item)) out out2
  end.

Lemma placed_paired out out2 : placed out out2 → paired out out2.
Proof.
  unfold placed, paired. intros (_ & _ & Hl) [f E]. rewrite E in Hl. destruct Hl as [_ Hl].
  split; [by symmetry; eapply Forall2_length|]. intros H0.
  induction Hl as [|i l out out2 (_ & _ & Hi) _ IH]; [done|]. by rewrite Hi, IH.
Qed.
Lemma nodup_snoc {A} (l : list A) a : NoDup l → a ∉ l → NoDup (l ++ [a]).
Proof.
  intros Hl Ha. apply NoDup_app. repeat split; [done| |apply NoDup_singleton].
  intros y Hy ->%list_elem_of_singleton. done.
Qed.
Lemma placed_snoc out out2 item lf :
  placed out out2 → got_ok out out2 item lf →
  placed (out ++ [item]) (match lf with Some l => out2 ++ [l] | None => out2 end).
Proof.
  unfold placed, got_ok. intros (Hn & Hf & Hl) (Hni & Hc & Hu & Hlf).
  split; [by apply nodup_snoc|]. split; [by apply Forall_app; split; [|apply Forall_singleton]|].
  destruct leaf; [|by subst]. destruct Hl as [Hn2 H2], Hlf as (l & -> & Ha & Hnl & Hul & Ht).
  split; [by apply nodup_snoc|]. apply Forall2_app; [done|]. constructor; [done|constructor].
Qed.

Lemma firstn_reps_ok fuel n rep out out2 count work :
  (tries + L + 1) * (Z.of_nat D + 1) + Z.of_nat D + 1 <= Z.of_nat fuel →
  work_ok map work → placed out out2 → 0 <= count →
  ∃ out' out2' work', firstn_reps map weights weight_max x choose_args bucket ty tries local_retries
      local_fallback_retries vary_r parent_r leaf fuel n rep out out2 count work
      = Ok (out', out2', work') ∧ work_ok map work' ∧ placed out' out2' ∧
    Z.of_nat (length out') <= Z.of_nat (length out) + Z.min (Z.of_nat n) count.
Proof.
  intros Hfuel. revert rep out out2 count work.
  induction n as [|n IH]; intros rep out out2 count work Hw Hp Hc; cbn [firstn_reps].
  { exists out, out2, work. do 3 (split; [done|]). lia. }
  destruct (Z.ltb_spec 0 count).
  2: { exists out, out2, work. do 3 (split; [done|]). lia. }
  destruct (firstn_try_ok fuel bucket rep 0 0 out out2 count work)
    as (a & work1 & -> & Hw1 & Ha); auto using placed_paired.
  { by left. } { lia. } { unfold local_max. lia. } { by apply turns_start. }
  cbn [bind]. destruct a as [|item lf].
  - destruct (IH (rep + 1) out out2 count work1) as (o & o2 & w & -> & ? & ? & ?); auto.
    exists o, o2, w. do 3 (split; [done|]). lia.
  - destruct (IH (rep + 1) (out ++ [item]) (match lf with Some l => out2 ++ [l] | None => out2 end)
      (count - 1) work1) as (o & o2 & w & -> & ? & ? & Hlen); auto using placed_snoc; [lia|].
    rewrite length_app in Hlen. simpl in Hlen. exists o, o2, w. do 3 (split; [done|]). lia.
Qed.
End Try.

(** ** The whole call *)

Section Call.
Context (fuel : nat) (bucket : crush_bucket) (ty tries recurse_tries local_retries : Z).
Context (local_fallback_retries vary_r stable : Z).
#[local] Abbreviation L := (local_max local_retries local_fallback_retries).

(** The turns of the innermost loop that a call may take. *)
Definition firstn_turns (tries local_retries local_fallback_retries : Z) (D : nat) : Z :=
  (tries + local_max local_retries local_fallback_retries + 1) * (Z.of_nat D + 1) + Z.of_nat D + 1.

Context (Htries : 0 <= tries) (Hrecurse : 0 <= recurse_tries).
Context (Hfallback : 0 <= local_fallback_retries).
Context (Hwide : Z.max tries recurse_tries + L + 2 < 2 ^ 32) (Hshift : shift_ok vary_r).
Context (Hfuel : firstn_turns (Z.max tries recurse_tries) local_retries local_fallback_retries D
                 <= Z.of_nat fuel).

Lemma choice_leaf l : choice 0 l → avail l.
Proof.
  intros [[_ H]|(_ & c & Hc & Ht)]; [done|].
  pose proof (map_types _ _ _ Hmap c (proj1 (get_bucket_in Hmap _ _ Hc))). lia.
Qed.

Lemma leaf_promise_ok :
  leaf_promise (Some (λ c out2 count sub_r work,
    choose_firstn_leaf map weights weight_max x choose_args fuel c
      (if stable =? 0 then Z.of_nat (length out2) + 1 else 1) 0 out2
      count recurse_tries local_retries local_fallback_retries vary_r stable sub_r work)).
Proof.
  intros c out2 count r work Hc Hw Hcount. unfold choose_firstn_leaf.
  replace (Z.to_nat _) with 1%nat by (destruct (stable =? 0); lia).
  cbn [firstn_reps]. rewrite (proj2 (Z.ltb_lt _ _)) by done.
  set (rep := if stable =? 0 then _ else _).
  unfold firstn_turns in Hfuel.
  destruct (firstn_try_ok c 0 recurse_tries local_retries local_fallback_retries vary_r r None Hc
    Hrecurse Hfallback ltac:(lia) Hshift I fuel c rep 0 0 out2 [] count work)
    as (a & work1 & -> & Hw1 & Ha); auto; try (unfold local_max; lia).
  { by left. } { by intros [? ?]. } { apply turns_start; nia. }
  cbn [bind]. destruct a as [|l lf]; cbn [bind].
  - exists out2, work1. auto.
  - destruct Ha as (Hn & Hch & Hu & ->). exists (out2 ++ [l]), work1. repeat split; auto.
    right. exists l. auto using choice_leaf.
Qed.

Definition replicas_ok (recurse_to_leaf : bool) (out out2 : list Z) : Prop :=
  NoDup out ∧ Forall (λ item, choice ty item ∧ under map (id bucket) item) out ∧
  if recurse_to_leaf
  then NoDup out2 ∧ Forall2 (λ item l, avail l ∧ at_or_under map item l) out out2
  else out2 = [].

Lemma crush_choose_firstn_ok numrep out_size recurse_to_leaf parent_r work :
  in_map map bucket → work_ok map work → 0 <= numrep → 0 <= out_size →
  ∃ out out2 work', crush_choose_firstn map weights weight_max x choose_args fuel bucket numrep ty
      out_size tries recurse_tries local_retries local_fallback_retries recurse_to_leaf vary_r stable
      parent_r work = Ok (out, out2, work') ∧ work_ok map work' ∧
    replicas_ok recurse_to_leaf out out2 ∧ Z.of_nat (length out) <= Z.min numrep out_size.
Proof.
  intros Hb Hw Hn Hs. unfold crush_choose_firstn, firstn_turns in *.
  edestruct (firstn_reps_ok bucket ty tries local_retries local_fallback_retries vary_r parent_r)
    with (fuel := fuel) (n := Z.to_nat numrep) (rep := 0) (out := @nil Z) (out2 := @nil Z)
         (count := out_size) (work := work)
    as (out & out2 & work' & -> & Hw' & Hp & Hlen); auto; try (unfold local_max in *; nia).
  - destruct recurse_to_leaf; [apply leaf_promise_ok|exact I].
  - repeat split; [constructor|constructor|]. destruct recurse_to_leaf; [|done].
    split; constructor.
  - exists out, out2, work'. repeat split; auto; try apply Hp; [|simpl in Hlen; lia].
    destruct Hp as (_ & _ & Hl). destruct recurse_to_leaf; [|done].
    destruct Hl as [? H2]. split; [done|]. eapply Forall2_impl; [exact H2|]. simpl. tauto.
Qed.
End Call.
End Placement.

End Firstn.
