(* ===== verification/CrushIndep.v ===== *)
(** * CRUSH: the positional placement (crush/mapper.c, [crush_choose_indep])

    On a well-formed map the breadth-first descent terminates without a fault and
    fills every position of its segment, and no other, with [CRUSH_ITEM_NONE] or
    with an item of the requested type; no item is used twice, and with chooseleaf
    the leaf at a position is a device that is in and lies below the item there. *)
From S2P Require Import Prelude CrushHash CrushMapper CrushChoose CrushBucket CrushFirstn.

Module Indep.
Import Crush Choose Bucket Firstn.

(** ** Updates of one position *)

(** [l'] is [l] except at position [i]. *)
Definition only_at (i : Z) (l l' : list Z) : Prop :=
  length l' = length l ∧ ∀ j, j <> i → zget l' j = zget l j.
Definition only_at_opt (i : Z) (o o' : option (list Z)) : Prop :=
  match o, o' with
  | None, None => True
  | Some l, Some l' => only_at i l l'
  | _, _ => False
  end.

Lemma zset_get (l : list Z) i a : 0 <= i < Z.of_nat (length l) →
  ∃ l', zset l i a = Ok l' ∧ only_at i l l' ∧ zget l' i = Ok a.
Proof.
  intros Hi. exists (<[Z.to_nat i := a]> l). rewrite zset_ok by done.
  split; [done|]. repeat split.
  - by rewrite length_insert.
  - intros j Hj. unfold zget. destruct (Z.ltb_spec j 0); [done|].
    rewrite list_lookup_insert_ne by lia. done.
  - apply zget_ok. split; [lia|]. apply list_lookup_insert_eq. lia.
Qed.

Lemma only_at_refl i l : only_at i l l.
Proof. done. Qed.
Lemma only_at_opt_refl i o : only_at_opt i o o.
Proof. by destruct o. Qed.
Lemma only_at_trans i l1 l2 l3 : only_at i l1 l2 → only_at i l2 l3 → only_at i l1 l3.
Proof.
  intros [E1 H1] [E2 H2]. split; [congruence|]. intros j Hj. by rewrite H2, H1.
Qed.
#[local] Hint Resolve only_at_refl only_at_opt_refl : core.

(** The value at a position of the second vector, if there is one. *)
Definition slot2 (o : option (list Z)) (i : Z) : option Z :=
  match o with
  | None => None
  | Some l => match zget l i with Ok v => Some v | Err _ => None end
  end.
Lemma slot2_only_at i j o o' : only_at_opt i o o' → j <> i → slot2 o' j = slot2 o j.
Proof. destruct o, o'; simpl; try done. intros [_ H] Hj. by rewrite H. Qed.

Lemma set_opt_get o i v :
  (∀ l, o = Some l → 0 <= i < Z.of_nat (length l)) →
  ∃ o', set_opt o i v = Ok o' ∧ only_at_opt i o o' ∧ (o' = None ∨ slot2 o' i = Some v).
Proof.
  intros Hl. destruct o as [l|]; simpl; [|eauto].
  destruct (zset_get l i v (Hl l eq_refl)) as (l' & -> & Ho & Hg). cbn [bind].
  exists (Some l'). simpl. rewrite Hg. auto.
Qed.

(** [collides] scans the segment. *)
Lemma collides_ok n i item out :
  0 <= i → i + Z.of_nat n <= Z.of_nat (length out) →
  ∃ c, collides n i item out = Ok c ∧
    (c = false → ∀ j, i <= j < i + Z.of_nat n → zget out j <> Ok item).
Proof.
  revert i; induction n as [|n IH]; intros i Hi Hn; cbn [collides].
  { exists false. split; [done|]. lia. }
  destruct (zget_in out i) as (v & E & _); [lia|]. rewrite E. cbn [bind].
  destruct (Z.eqb_spec v item) as [->|Hv]; [by exists true|].
  destruct (IH (i + 1)) as (c & -> & Hc); [lia..|]. exists c. split; [done|].
  intros Hf j Hj. destruct (decide (j = i)) as [->|]; [congruence|]. apply Hc; [done|lia].
Qed.

(** ** Loops over a segment *)

(** [l'] is [l] outside the positions [a .. b-1]. *)
Definition only_in (a b : Z) (l l' : list Z) : Prop :=
  length l' = length l ∧ ∀ j, ¬ (a <= j < b) → zget l' j = zget l j.
Definition only_in_opt (a b : Z) (o o' : option (list Z)) : Prop :=
  match o, o' with
  | None, None => True
  | Some l, Some l' => only_in a b l l'
  | _, _ => False
  end.

Lemma only_in_trans a b l1 l2 l3 : only_in a b l1 l2 → only_in a b l2 l3 → only_in a b l1 l3.
Proof.
  intros [E1 H1] [E2 H2]. split; [congruence|]. intros j Hj. by rewrite H2, H1.
Qed.
Lemma only_in_opt_trans a b o1 o2 o3 :
  only_in_opt a b o1 o2 → only_in_opt a b o2 o3 → only_in_opt a b o1 o3.
Proof. destruct o1, o2, o3; simpl; try done. apply only_in_trans. Qed.
Lemma only_in_opt_refl a b o : only_in_opt a b o o.
Proof. by destruct o. Qed.
Lemma only_at_in a b i l l' : a <= i < b → only_at i l l' → only_in a b l l'.
Proof. intros Hi [E H]. split; [done|]. intros j Hj. apply H. lia. Qed.
Lemma only_at_in_opt a b i o o' : a <= i < b → only_at_opt i o o' → only_in_opt a b o o'.
Proof. destruct o, o'; simpl; try done. apply only_at_in. Qed.

Lemma fill_ok n i v (l : list Z) : 0 <= i → i + Z.of_nat n <= Z.of_nat (length l) →
  ∃ l', fill n i v l = Ok l' ∧ only_in i (i + Z.of_nat n) l l' ∧
    ∀ j, i <= j < i + Z.of_nat n → zget l' j = Ok v.
Proof.
  revert i l; induction n as [|n IH]; intros i l Hi Hn; cbn [fill].
  { exists l. split; [done|]. split; [done|]. lia. }
  destruct (zset_get l i v) as (l1 & -> & [E1 H1] & Hg); [lia|]. cbn [bind].
  destruct (IH (i + 1) l1) as (l2 & -> & [E2 H2] & Hf); [lia..|].
  exists l2. split; [done|]. split; [split; [congruence|]|].
  - intros j Hj. rewrite H2, H1 by lia. done.
  - intros j Hj. destruct (decide (j = i)) as [->|]; [rewrite H2 by lia; done|]. apply Hf. lia.
Qed.
Lemma fill_opt_ok n i v o : 0 <= i → (∀ l, o = Some l → i + Z.of_nat n <= Z.of_nat (length l)) →
  ∃ o', fill_opt n i v o = Ok o' ∧ only_in_opt i (i + Z.of_nat n) o o' ∧
    ∀ j, i <= j < i + Z.of_nat n → is_Some o → slot2 o' j = Some v.
Proof.
  intros Hi Hl. destruct o as [l|]; simpl; [|exists None; repeat split; by intros ? ? []].
  destruct (fill_ok n i v l Hi (Hl l eq_refl)) as (l' & -> & Ho & Hf). cbn [bind].
  exists (Some l'). repeat split; try apply Ho. intros j Hj _. simpl. by rewrite Hf.
Qed.

Definition settle (v : Z) : Z := if v =? CRUSH_ITEM_UNDEF then CRUSH_ITEM_NONE else v.
Lemma undef_to_none_ok n i (l : list Z) : 0 <= i → i + Z.of_nat n <= Z.of_nat (length l) →
  ∃ l', undef_to_none n i l = Ok l' ∧ only_in i (i + Z.of_nat n) l l' ∧
    ∀ j v, i <= j < i + Z.of_nat n → zget l j = Ok v → zget l' j = Ok (settle v).
Proof.
  revert i l; induction n as [|n IH]; intros i l Hi Hn; cbn [undef_to_none].
  { exists l. split; [done|]. split; [done|]. lia. }
  destruct (zget_in l i) as (v & Ev & _); [lia|]. rewrite Ev. cbn [bind].
  assert (∃ l1, (if v =? CRUSH_ITEM_UNDEF then zset l i CRUSH_ITEM_NONE else Ok l) = Ok l1 ∧
    only_at i l l1 ∧ zget l1 i = Ok (settle v)) as (l1 & -> & [E1 H1] & Hg).
  { unfold settle. destruct (_ =? _); [apply zset_get; lia|eauto]. }
  cbn [bind]. destruct (IH (i + 1) l1) as (l2 & -> & [E2 H2] & Hf); [lia..|].
  exists l2. split; [done|]. split; [split; [congruence|]|].
  - intros j Hj. rewrite H2, H1 by lia. done.
  - intros j u Hj Hu. destruct (decide (j = i)) as [->|].
    + rewrite H2 by lia. congruence.
    + apply Hf; [lia|]. rewrite H1 by lia. done.
Qed.

Section Positional.
Context (map : crush_map) (rank : Z → nat) (D : nat) (weights : list Z) (weight_max x : Z).
Context (choose_args : option (list crush_choose_arg)).
Context (Hmap : wf_map map rank D) (Hweights : weight_max <= Z.of_nat (length weights)).
Context (Hargs : ∀ b, in_map map b →
  ∃ arg, choose_arg_of choose_args b = Ok arg ∧ wf_arg b arg).
Context (Hdevices : max_devices map <= CRUSH_ITEM_UNDEF).
Context (fuel : nat) (Hfuel : (D < fuel)%nat).
Context (numrep : Z) (Hnumrep : 0 < numrep < 2 ^ 31).

#[local] Abbreviation avail := (avail map weights weight_max x).
#[local] Abbreviation choice := (choice map weights weight_max x).
#[local] Abbreviation work_ok := (work_ok map).

Lemma choice_real ty item : choice ty item → item <> CRUSH_ITEM_UNDEF ∧ item <> CRUSH_ITEM_NONE.
Proof.
  unfold CRUSH_ITEM_UNDEF, CRUSH_ITEM_NONE in *. intros [(_ & H & _)|(H & _)]; lia.
Qed.

Section Segment.
Context (bucket : crush_bucket) (ty outpos endpos parent_r : Z).
Context (leaf : option (crush_bucket → list Z → Z → Z → crush_work → res (list Z * crush_work))).
Context (Hbucket : in_map map bucket) (Hseg : 0 <= outpos <= endpos).

(** What the recursive call promises: it writes one position only. *)
Definition leaf_fills : Prop :=
  match leaf with
  | None => True
  | Some f => ∀ c o2 rep r work, in_map map c → work_ok work → 0 <= rep < Z.of_nat (length o2) →
      ∃ o2' work', f c o2 rep r work = Ok (o2', work') ∧ work_ok work' ∧ only_at rep o2 o2' ∧
        ∃ v, zget o2' rep = Ok v ∧ (v = CRUSH_ITEM_NONE ∨ avail v ∧ under map (id c) v)
  end.
Context (Hleaf : leaf_fills).

(** The state of one position: undefined, given up or placed.  While a device
    type is chosen with chooseleaf, the second vector of an undefined position may
    hold the device last rejected. *)
Definition pending (v2 : option Z) : Prop :=
  ∃ u, v2 = Some u ∧
    (u = CRUSH_ITEM_UNDEF ∨ u = CRUSH_ITEM_NONE ∨ ty = 0 ∧ 0 <= u < max_devices map).
Definition slot_ok (v : Z) (v2 : option Z) : Prop :=
  v = CRUSH_ITEM_UNDEF ∧ (is_Some leaf → pending v2) ∨
  v = CRUSH_ITEM_NONE ∧ (v2 = None ∨ v2 = Some CRUSH_ITEM_NONE) ∨
  (choice ty v ∧ under map (id bucket) v) ∧
    (is_Some leaf → ∃ l, v2 = Some l ∧ avail l ∧ at_or_under map v l).

Definition room (out : list Z) (out2 : option (list Z)) : Prop :=
  endpos <= Z.of_nat (length out) ∧
  (∀ l, out2 = Some l → endpos <= Z.of_nat (length l)) ∧ (is_Some leaf → is_Some out2).

(** The result of one descent for position [rep]. *)
Definition descent_ok (rep : Z) (out : list Z) (out2 : option (list Z)) (m : res indep_state) : Prop :=
  ∃ out' out2' left' work', m = Ok (out', out2', left', work') ∧ work_ok work' ∧
    only_at rep out out' ∧ only_at_opt rep out2 out2' ∧
    ∃ v, zget out' rep = Ok v ∧ slot_ok v (slot2 out2' rep) ∧
      (v = CRUSH_ITEM_UNDEF ∨ v = CRUSH_ITEM_NONE ∨
       ∀ j, outpos <= j < endpos → zget out j <> Ok v).

Lemma descent_bad rep out out2 left work :
  outpos <= rep < endpos → room out out2 → work_ok work →
  descent_ok rep out out2
    (out <- zset out rep CRUSH_ITEM_NONE;;
     out2 <- set_opt out2 rep CRUSH_ITEM_NONE;;
     Ok (out, out2, left - 1, work)).
Proof.
  intros Hr (H1 & H2 & _) Hw. destruct (zset_get out rep CRUSH_ITEM_NONE) as (o & -> & Ho & Hg); [lia|].
  destruct (set_opt_get out2 rep CRUSH_ITEM_NONE) as (o2 & Es & Ho2 & Hg2).
  { intros l ->. specialize (H2 l eq_refl). lia. }
  cbn [bind]. rewrite Es. cbn [bind]. exists o, o2, (left - 1), work. repeat split; try apply Ho; auto.
  exists CRUSH_ITEM_NONE. repeat split; auto. right. left. split; [done|].
  destruct Hg2 as [->|]; auto.
Qed.

Lemma descent_keep rep out out2 out2' left work :
  outpos <= rep < endpos → work_ok work → zget out rep = Ok CRUSH_ITEM_UNDEF →
  only_at_opt rep out2 out2' →
  (is_Some leaf → pending (slot2 out2' rep)) →
  descent_ok rep out out2 (Ok (out, out2', left, work)).
Proof.
  intros Hr Hw Hg Ho Hs. exists out, out2', left, work. repeat split; auto.
  exists CRUSH_ITEM_UNDEF. repeat split; auto. left. auto.
Qed.

(** From the collision test on: find a leaf, test the device, place the item. *)
Lemma place_ok rep out out2 left work item itemtype r :
  outpos <= rep < endpos → room out out2 → work_ok work →
  zget out rep = Ok CRUSH_ITEM_UNDEF → slot_ok CRUSH_ITEM_UNDEF (slot2 out2 rep) →
  under map (id bucket) item → item < max_devices map → itemtype = ty →
  (0 <= item ∧ itemtype = 0 ∨ item < 0 ∧ itemtype <> 0 ∧
     ∃ c, get_bucket map item = Ok c ∧ in_map map c ∧ id c = item ∧ type c = ty) →
  (∀ j, outpos <= j < endpos → zget out j <> Ok item) →
  descent_ok rep out out2
    ('(none, out2, work) <-
       (match leaf with
        | Some f =>
            o2 <- deref out2;;
            if item <? 0 then
              c <- get_bucket map item;;
              '(o2, work) <- f c o2 rep r work;;
              v <- zget o2 rep;;
              Ok (v =? CRUSH_ITEM_NONE, Some o2, work)
            else o2 <- zset o2 rep item;; Ok (false, Some o2, work)
        | None => Ok (false, out2, work)
        end);;
     if (none : bool) then Ok (out, out2, left, work)
     else
       rejected <- (if itemtype =? 0 then is_out weights weight_max x item else Ok false);;
       if (rejected : bool) then Ok (out, out2, left, work)
       else out <- zset out rep item;; Ok (out, out2, left - 1, work)).
Proof.
  intros Hr Hroom Hw Hg Hs Hu Hdev Hty Hkind Hfresh.
  assert (Hplace : ∀ out2' work', work_ok work' → only_at_opt rep out2 out2' → choice ty item →
    (is_Some leaf → ∃ l, slot2 out2' rep = Some l ∧ avail l ∧ at_or_under map item l) →
    descent_ok rep out out2 (out <- zset out rep item;; Ok (out, out2', left - 1, work'))).
  { intros out2' work' Hw' Ho2 Hch Hl. destruct Hroom as (H1 & _).
    destruct (zset_get out rep item) as (o & -> & Ho & Hgo); [lia|]. cbn [bind].
    exists o, out2', (left - 1), work'. do 4 (split; [done|]). exists item.
    split; [done|]. split; [right; right; auto|auto]. }
  destruct Hkind as [[Hi E]|(Hi & E & c & Ec & Hcm & Hid & Et)]; rewrite Hty in E.
  - assert (∀ out2', only_at_opt rep out2 out2' → (is_Some leaf → slot2 out2' rep = Some item) →
      descent_ok rep out out2
        (rejected <- is_out weights weight_max x item;;
         if (rejected : bool) then Ok (out, out2', left, work)
         else out <- zset out rep item;; Ok (out, out2', left - 1, work))) as Hout.
    { intros out2' Ho Hl. destruct (is_out_total weights weight_max x Hweights item Hi) as [[] Eo];
        rewrite Eo; cbn [bind].
      { apply descent_keep; auto. intros Hlf. rewrite (Hl Hlf). exists item. auto with lia. }
      assert (avail item) by (split; [lia|done]).
      apply Hplace; auto; [by left|]. intros [f Ef]. exists item.
      unfold at_or_under. split; [|auto]. apply Hl. eauto. }
    rewrite (proj2 (Z.eqb_eq itemtype 0)) by congruence.
    destruct leaf as [f|] eqn:Elf; [|cbn [bind]; apply Hout; [done|by intros []]].
    destruct Hroom as (_ & H2 & H3). destruct (H3 ltac:(rewrite Elf; eauto)) as [l ->]. cbn [deref bind].
    specialize (H2 l eq_refl). rewrite (proj2 (Z.ltb_ge _ _)) by lia.
    destruct (zset_get l rep item) as (l' & -> & Ho & Hgl); [lia|]. cbn [bind].
    apply Hout; [done|]. simpl. by rewrite Hgl.
  - rewrite (proj2 (Z.eqb_neq itemtype 0)) by congruence.
    assert (choice ty item) as Hch by (right; eauto). pose proof Hleaf as Hlf. unfold leaf_fills in Hlf.
    destruct leaf as [f|] eqn:Elf; [|cbn [bind]; apply Hplace; auto; by intros []].
    destruct Hroom as (H1 & H2 & H3). destruct (H3 ltac:(rewrite Elf; eauto)) as [l El]. rewrite El in *.
    cbn [deref bind]. specialize (H2 l eq_refl). rewrite (proj2 (Z.ltb_lt _ _)) by lia.
    rewrite Ec. cbn [bind].
    destruct (Hlf c l rep r work) as (o2 & work' & -> & Hw' & Ho & v & Ev & Hv); [done|done|lia|].
    cbn [bind]. rewrite Ev. cbn [bind]. destruct (Z.eqb_spec v CRUSH_ITEM_NONE) as [->|Hne].
    + apply descent_keep; auto. simpl. rewrite Ev. intros _. exists CRUSH_ITEM_NONE. auto.
    + cbn [bind]. apply Hplace; auto. intros _. exists v. simpl. rewrite Ev.
      destruct Hv as [?|[? ?]]; [done|]. unfold at_or_under. rewrite Hid in *. auto.
Qed.

Lemma indep_descend_ok n b rep ftotal out out2 left work :
  (rank (id b) < n)%nat → in_map map b → at_or_under map (id bucket) (id b) → work_ok work →
  outpos <= rep < endpos → room out out2 →
  zget out rep = Ok CRUSH_ITEM_UNDEF → slot_ok CRUSH_ITEM_UNDEF (slot2 out2 rep) →
  descent_ok rep out out2
    (indep_descend map weights weight_max x choose_args numrep ty outpos endpos parent_r leaf
       n b rep ftotal (out, out2, left, work)).
Proof.
  intros Hn Hb Hu Hw Hr Hroom Hg Hs. revert b work Hn Hb Hu Hw.
  induction n as [|n IH]; intros b work Hn Hb Hu Hw; [lia|]. cbn [indep_descend].
  rewrite u32_small, (proj2 (Z.eqb_neq numrep 0)) by lia.
  assert (∃ r, (if alg b =? CRUSH_BUCKET_UNIFORM then
              if size b mod numrep =? 0
              then Ok (s32 (s32 (rep + parent_r) + (numrep + 1) * ftotal))
              else Ok (s32 (s32 (rep + parent_r) + numrep * ftotal))
            else Ok (s32 (s32 (rep + parent_r) + numrep * ftotal))) = Ok r) as [r ->]
    by (repeat destruct (_ =? _); eauto).
  cbn [bind]. pose proof (map_buckets _ _ _ Hmap _ Hb) as (Hsize & _).
  assert (is_Some leaf → pending (slot2 out2 rep)) as Hpend.
  { destruct Hs as [[_ ?]|[[? _]|[[[? ?]%choice_real _] _]]]; done. }
  destruct (Z.eqb_spec (size b) 0); [by apply descent_keep|].
  destruct (pick_ok Hmap x Hargs work b r outpos false)
    as (item & work1 & Ep & Hin & Hw1); [done|done|lia|lia|].
  apply bind_inv in Ep as (arg & -> & Ep). cbn [bind]. rewrite Ep. cbn [bind].
  pose proof (under_snoc _ _ _ _ _ Hu (in_map_get Hmap b Hb) Hin) as Hui.
  destruct (Z.leb_spec (max_devices map) item); [by apply descent_bad|].
  assert (∀ itemtype, itemtype = ty →
    (0 <= item ∧ itemtype = 0 ∨ item < 0 ∧ itemtype <> 0 ∧
     ∃ c, get_bucket map item = Ok c ∧ in_map map c ∧ id c = item ∧ type c = ty) → _) as Hstep
    by (intros it E Hk; exact (place_ok rep out out2 left work1 item it r Hr Hroom Hw1 Hg Hs Hui
                                 ltac:(lia) E Hk)).
  destruct (collides_ok (Z.to_nat (endpos - outpos)) outpos item out) as (cl & Ecl & Hcl);
    [lia|destruct Hroom; lia|]. rewrite Z2Nat.id in Hcl by lia.
  replace (outpos + (endpos - outpos)) with endpos in Hcl by lia.
  destruct (item_type_ok Hmap b item Hb Hin)
    as [[Hi ->]|(c & Ec & Hcm & Hid & Hneg & -> & Htp & Hmx & Hrk)];
    cbn [bind]; [destruct (Z.eqb_spec 0 ty) as [Ety|]|destruct (Z.eqb_spec (type c) ty) as [Ety|]];
    cbn [negb].
  2: { rewrite (proj2 (Z.leb_le _ _)) by lia. by apply descent_bad. }
  3: { rewrite (proj2 (Z.leb_gt _ _)), (proj2 (Z.leb_gt _ _)), Ec by lia. cbn [orb bind].
       apply IH; auto; [rewrite Hid; lia|rewrite Hid; by right]. }
  all: rewrite Ecl; cbn [bind]; destruct cl; [by apply descent_keep|].
  - apply (Hstep 0); auto.
  - apply (Hstep (type c)); auto. right. repeat split; [done|lia|by exists c].
Qed.

(** ** Passes over the segment *)

Definition distinct (out : list Z) : Prop :=
  ∀ p q v, outpos <= p < endpos → outpos <= q < endpos → p <> q →
    zget out p = Ok v → zget out q = Ok v → v = CRUSH_ITEM_UNDEF ∨ v = CRUSH_ITEM_NONE.
Definition segment_ok (out : list Z) (out2 : option (list Z)) : Prop :=
  room out out2 ∧ distinct out ∧
  ∀ p, outpos <= p < endpos → ∃ v, zget out p = Ok v ∧ slot_ok v (slot2 out2 p).

(** A computation on the state that stays within the segment. *)
Definition pass_ok (out : list Z) (out2 : option (list Z)) (m : res indep_state) : Prop :=
  ∃ out' out2' left' work', m = Ok (out', out2', left', work') ∧ work_ok work' ∧
    segment_ok out' out2' ∧ only_in outpos endpos out out' ∧ only_in_opt outpos endpos out2 out2'.

Lemma room_frame out out2 out' out2' :
  room out out2 → only_in outpos endpos out out' → only_in_opt outpos endpos out2 out2' →
  room out' out2'.
Proof.
  intros (H1 & H2 & H3) [E _] Ho. split; [lia|]. destruct out2 as [l|], out2' as [l'|]; try done.
  split; [|eauto]. intros l0 [= <-]. destruct Ho as [E2 _]. specialize (H2 l eq_refl). lia.
Qed.

Lemma descent_pass rep out out2 m :
  outpos <= rep < endpos → segment_ok out out2 → descent_ok rep out out2 m → pass_ok out out2 m.
Proof.
  intros Hr (Hroom & Hdist & Hslots) (o & o2 & left & work & -> & Hw & Ho & Ho2 & v & Ev & Hv & Hfresh).
  pose proof (only_at_in outpos endpos rep _ _ Hr Ho) as Hi.
  pose proof (only_at_in_opt outpos endpos rep _ _ Hr Ho2) as Hi2.
  exists o, o2, left, work. do 2 (split; [done|]). split; [|done].
  split; [by eapply room_frame|]. destruct Ho as [_ Ho]. split.
  - intros p q u Hp Hq Hne Ep Eq.
    destruct (decide (p = rep)) as [->|]; [|destruct (decide (q = rep)) as [->|]].
    + rewrite Ho in Eq by done. assert (u = v) as -> by congruence.
      destruct Hfresh as [|[|Hf]]; auto. by destruct (Hf q Hq).
    + rewrite Ho in Ep by done. assert (u = v) as -> by congruence.
      destruct Hfresh as [|[|Hf]]; auto. by destruct (Hf p Hp).
    + rewrite Ho in Ep, Eq by done. eauto.
  - intros p Hp. destruct (decide (p = rep)) as [->|Hne]; [eauto|].
    rewrite (Ho p Hne), (slot2_only_at rep p out2 o2 Ho2 Hne). auto.
Qed.

Lemma pass_trans out out2 m (f : indep_state → res indep_state) :
  pass_ok out out2 m →
  (∀ o o2 left work, segment_ok o o2 → work_ok work → pass_ok o o2 (f (o, o2, left, work))) →
  pass_ok out out2 (st <- m;; f st).
Proof.
  intros (o & o2 & left & work & -> & Hw & Hs & Hi & Hi2) Hf. cbn [bind].
  destruct (Hf o o2 left work Hs Hw) as (o' & o2' & left' & work' & -> & Hw' & Hs' & Hj & Hj2).
  exists o', o2', left', work'. do 3 (split; [done|]).
  split; [by eapply only_in_trans|by eapply only_in_opt_trans].
Qed.
Lemma pass_refl out out2 left work :
  segment_ok out out2 → work_ok work → pass_ok out out2 (Ok (out, out2, left, work)).
Proof.
  intros Hs Hw. exists out, out2, left, work. do 3 (split; [done|]). split; [done|apply only_in_opt_refl].
Qed.

Lemma indep_pass_ok n rep ftotal out out2 left work :
  outpos <= rep → rep + Z.of_nat n <= endpos → segment_ok out out2 → work_ok work →
  pass_ok out out2 (indep_pass map weights weight_max x choose_args bucket numrep ty outpos endpos
    parent_r leaf fuel n rep ftotal (out, out2, left, work)).
Proof.
  revert rep out out2 left work. induction n as [|n IH]; intros rep out out2 left work Hr Hn Hs Hw;
    cbn [indep_pass]; [by apply pass_refl|].
  destruct Hs as (Hroom & Hd & Hslots). destruct (Hslots rep) as (v & Ev & Hv); [lia|].
  rewrite Ev. cbn [bind]. apply pass_trans; [|intros; apply IH; auto; lia].
  destruct (Z.eqb_spec v CRUSH_ITEM_UNDEF) as [->|]; cbn [negb]; [|by apply pass_refl].
  apply (descent_pass rep); [lia|done|]. apply indep_descend_ok; auto; [|by left|lia].
  pose proof (map_depth _ _ _ Hmap (id bucket)). lia.
Qed.

Lemma indep_tries_ok n ftotal out out2 left work :
  segment_ok out out2 → work_ok work →
  pass_ok out out2 (indep_tries map weights weight_max x choose_args bucket numrep ty outpos endpos
    parent_r leaf fuel n ftotal (out, out2, left, work)).
Proof.
  revert ftotal out out2 left work. induction n as [|n IH]; intros ftotal out out2 left work Hs Hw;
    cbn [indep_tries]; [by apply pass_refl|].
  destruct (0 <? left); [|by apply pass_refl].
  apply pass_trans; [apply indep_pass_ok; auto; lia|auto].
Qed.

(** ** The whole call *)

Definition settled (v : Z) (v2 : option Z) : Prop :=
  v = CRUSH_ITEM_NONE ∧
    (is_Some leaf → ∃ u, v2 = Some u ∧ (u = CRUSH_ITEM_NONE ∨ ty = 0 ∧ 0 <= u < max_devices map)) ∨
  (choice ty v ∧ under map (id bucket) v) ∧
    (is_Some leaf → ∃ l, v2 = Some l ∧ avail l ∧ at_or_under map v l).

Lemma settle_real v : v <> CRUSH_ITEM_UNDEF → settle v = v.
Proof. intros H. unfold settle. by rewrite (proj2 (Z.eqb_neq _ _)). Qed.
Lemma avail_real l : avail l → l <> CRUSH_ITEM_UNDEF.
Proof. intros [H _]. lia. Qed.

Lemma slot_settled v v2 v2' :
  slot_ok v v2 → v2' = settle <$> v2 → (is_Some leaf → is_Some v2) → settled (settle v) v2'.
Proof.
  intros [[-> H]|[[-> H]|[[Hc Hu] H]]] -> Hsome.
  - left. split; [done|]. intros Hl. destruct (H Hl) as (u & -> & Hu).
    exists (settle u). split; [done|]. unfold settle. destruct (Z.eqb_spec u CRUSH_ITEM_UNDEF); tauto.
  - left. split; [done|]. intros Hl. destruct H as [-> | ->]; [by destruct (Hsome Hl)|].
    exists CRUSH_ITEM_NONE. auto.
  - right. rewrite settle_real by (by apply choice_real in Hc as []). split; [done|].
    intros Hl. destruct (H Hl) as (l & -> & Ha & Hul). exists l. simpl.
    rewrite settle_real by (by apply avail_real). auto.
Qed.

Lemma choose_indep_ok tries out out2 work :
  room out out2 → work_ok work →
  ∃ out' out2' work', choose_indep map weights weight_max x choose_args bucket numrep ty outpos endpos
      parent_r leaf fuel tries out out2 work = Ok (out', out2', work') ∧ work_ok work' ∧
    only_in outpos endpos out out' ∧ only_in_opt outpos endpos out2 out2' ∧
    (∀ p, outpos <= p < endpos → ∃ v, zget out' p = Ok v ∧ settled v (slot2 out2' p)) ∧
    (∀ p q v, outpos <= p < endpos → outpos <= q < endpos → p <> q →
       zget out' p = Ok v → zget out' q = Ok v → v = CRUSH_ITEM_NONE).
Proof.
  intros Hroom Hw. unfold choose_indep. set (n := Z.to_nat (endpos - outpos)).
  assert (Hend : outpos + Z.of_nat n = endpos) by lia. pose proof Hroom as (H1 & H2 & H3).
  destruct (fill_ok n outpos CRUSH_ITEM_UNDEF out) as (o & -> & Ho & Hof); [lia..|].
  destruct (fill_opt_ok n outpos CRUSH_ITEM_UNDEF out2) as (o2 & Eo2 & Ho2 & Hof2);
    [lia|intros l Hl; specialize (H2 l Hl); lia|].
  rewrite Hend in *. cbn [bind]. rewrite Eo2. cbn [bind].
  assert (segment_ok o o2) as Hs.
  { split; [by eapply room_frame|]. split.
    - intros p q v Hp _ _ Ep _. left. rewrite Hof in Ep by done. congruence.
    - intros p Hp. exists CRUSH_ITEM_UNDEF. split; [auto|]. left. split; [done|].
      intros Hl. exists CRUSH_ITEM_UNDEF. auto. }
  destruct (indep_tries_ok (Z.to_nat tries) 0 o o2 (endpos - outpos) work Hs Hw)
    as (o' & o2' & left' & work' & -> & Hw' & (Hroom' & Hd & Hslots) & Hi & Hi2).
  cbn [bind]. pose proof Hroom' as (H1' & H2' & H3').
  destruct (undef_to_none_ok n outpos o') as (o3 & -> & Hf & Hfg); [lia..|]. rewrite Hend in *. cbn [bind].
  assert (∃ o2f, (match o2' with
           | None => Ok None
           | Some l => l <- undef_to_none n outpos l;; Ok (Some l)
           end) = Ok o2f ∧ only_in_opt outpos endpos o2' o2f ∧
           ∀ p, outpos <= p < endpos → slot2 o2f p = settle <$> slot2 o2' p)
    as (o2f & -> & Hf2 & Hfg2).
  { destruct o2' as [l|]; [|by exists None]. specialize (H2' l eq_refl).
    destruct (undef_to_none_ok n outpos l) as (lf & -> & Hl & Hlg); [lia..|]. rewrite Hend in *.
    exists (Some lf). do 2 (split; [done|]). intros p Hp. simpl.
    destruct (zget_in l p) as (v & Ev & _); [lia|]. by rewrite (Hlg p v Hp Ev), Ev. }
  cbn [bind]. exists o3, o2f, work'. do 2 (split; [done|]).
  split; [by eapply only_in_trans, only_in_trans|].
  split; [by eapply only_in_opt_trans, only_in_opt_trans|]. split.
  - intros p Hp. destruct (Hslots p Hp) as (v & Ev & Hv). exists (settle v).
    split; [by apply Hfg|]. eapply slot_settled; eauto. intros Hl.
    destruct (H3' Hl) as [l ->]. simpl. specialize (H2' l eq_refl).
    destruct (zget_in l p) as (u & -> & _); [lia|eauto].
  - intros p q v Hp Hq Hne Ep Eq. destruct (Hslots p Hp) as (vp & Evp & Hvp).
    destruct (Hslots q Hq) as (vq & Evq & Hvq).
    rewrite (Hfg p vp), (Hfg q vq) in * by done. simplify_eq. unfold settle in *.
    destruct (Z.eqb_spec vp CRUSH_ITEM_UNDEF), (Z.eqb_spec vq CRUSH_ITEM_UNDEF); subst; auto.
    by destruct (Hd p q vq Hp Hq Hne Evp Evq).
Qed.
End Segment.

(** The recursive call of chooseleaf fulfils the promise. *)
Lemma leaf_fills_ok recurse_tries :
  leaf_fills (Some (choose_indep_leaf map weights weight_max x choose_args fuel numrep recurse_tries)).
Proof.
  intros c o2 rep r work Hc Hw Hr. unfold choose_indep_leaf.
  destruct (choose_indep_ok c 0 rep (rep + 1) r None Hc ltac:(lia) I recurse_tries o2 None work)
    as (out & out2 & work' & -> & Hw' & [E Ho] & _ & Hslots & _); auto.
  { split; [lia|]. split; [done|]. by intros []. }
  cbn [bind]. exists out, work'. do 2 (split; [done|]).
  split; [split; [done|]; intros j Hj; apply Ho; lia|].
  destruct (Hslots rep) as (v & Ev & [[-> _]|[[Hch Hu] _]]); [lia|eauto..].
  exists v. split; [done|]. right. split; [|done].
  by eapply choice_leaf.
Qed.
End Positional.
End Indep.
