(* ===== verification/CrushRule.v ===== *)
(** * CRUSH: the rule interpreter (crush/mapper.c, [crush_do_rule])

    On a well-formed map and a rule whose numbers stay below the bounds [T] and
    [R], every rule runs to the end without a fault and returns at most
    [result_max] valid items.  The two shapes of rule that the monitor generates,
    chooseleaf firstn for replication and chooseleaf indep for erasure coding,
    place their replicas on available devices of distinct failure domains. *)
From S2P Require Import Prelude CrushHash CrushMapper CrushChoose CrushBucket CrushFirstn CrushIndep.

Module Rule.
Import Crush Choose Bucket Firstn Indep.

(** The locals of [crush_do_rule] before the first step. *)
Definition initial (map : crush_map) (wk : crush_work) : rule_state :=
  mk_rstate (s32 (choose_total_tries map + 1)) 0 (choose_local_tries map)
    (choose_local_fallback_tries map) (chooseleaf_vary_r map) (chooseleaf_stable map) [] [] wk.

Lemma do_rule_steps fuel map x result_max weights weight_max choose_args ruleno rule wk :
  0 <= ruleno < 2 ^ 32 → rules map !! Z.to_nat ruleno = Some (Some rule) →
  crush_do_rule fuel map x result_max weights weight_max choose_args ruleno wk =
  st <- do_steps fuel map x result_max weights weight_max choose_args (steps rule) (initial map wk);; Ok (result st, work_of st).
Proof.
  intros Hn Hr. unfold crush_do_rule, max_rules. pose proof (lookup_lt_Some _ _ _ Hr).
  rewrite u32_small, (proj2 (Z.leb_gt _ _)) by lia.
  rewrite (proj2 (zget_ok _ _ (Some rule))) by (split; [lia|done]). done.
Qed.

Section Interpreter.
Context (map : crush_map) (rank : Z → nat) (D : nat) (weights : list Z) (weight_max x : Z).
Context (choose_args : option (list crush_choose_arg)).
Context (Hmap : wf_map map rank D) (Hweights : weight_max <= Z.of_nat (length weights)).
Context (Hargs : ∀ b, in_map map b →
  ∃ arg, choose_arg_of choose_args b = Ok arg ∧ wf_arg b arg).
Context (Hdevices : max_devices map <= CRUSH_ITEM_UNDEF).
(** [T] bounds the numbers of tries and [R] those of local retries. *)
Context (T R : Z) (HT : 1 <= T < 2 ^ 31) (HR : 0 <= R) (Hwide : T + R + 0x10001 < 2 ^ 32).
Context (fuel : nat) (Hfuel : (T + R + 0x10000) * (Z.of_nat D + 1) + Z.of_nat D + 1 <= Z.of_nat fuel).
Context (result_max : Z) (Hmax : 0 < result_max).

#[local] Abbreviation avail := (avail map weights weight_max x).
#[local] Abbreviation choice := (choice map weights weight_max x).
#[local] Abbreviation work_ok := (work_ok map).

Lemma fuel_depth : (D < fuel)%nat.
Proof. nia. Qed.

(** ** The two descents as the interpreter calls them *)

Lemma choose_firstn_ok bucket numrep ty out_size tries recurse_tries lr lf rec vr stable work :
  in_map map bucket → work_ok work → 0 <= numrep → 0 <= out_size →
  0 <= tries <= T → 0 <= recurse_tries <= T → lr <= R → 0 <= lf <= R → shift_ok vr →
  ∃ out out2 work', crush_choose_firstn map weights weight_max x choose_args fuel bucket numrep ty
      out_size tries recurse_tries lr lf rec vr stable 0 work = Ok (out, out2, work') ∧
    work_ok work' ∧ replicas_ok map weights weight_max x bucket ty rec out out2 ∧
    Z.of_nat (length out) <= Z.min numrep out_size.
Proof.
  intros. apply (crush_choose_firstn_ok map rank D); auto; try lia;
    unfold firstn_turns, local_max; [lia|nia].
Qed.

(** What a positional call leaves in the two vectors. *)
Definition positions_ok (bucket : crush_bucket) (ty : Z) (rec : bool) (out out2 : list Z) : Prop :=
  length out2 = length out ∧
  (∀ p q v, out !! p = Some v → out !! q = Some v → p <> q → v = CRUSH_ITEM_NONE) ∧
  ∀ p v, out !! p = Some v →
    v = CRUSH_ITEM_NONE ∧
      (rec = true → ∃ u, out2 !! p = Some u ∧
         (u = CRUSH_ITEM_NONE ∨ ty = 0 ∧ 0 <= u < max_devices map)) ∨
    (choice ty v ∧ under map (id bucket) v) ∧
      (rec = true → ∃ l, out2 !! p = Some l ∧ avail l ∧ at_or_under map v l).

Lemma slot2_lookup (l : list Z) (p : nat) : slot2 (Some l) (Z.of_nat p) = l !! p.
Proof.
  simpl. unfold zget. rewrite (proj2 (Z.ltb_ge _ _)) by lia. rewrite Nat2Z.id.
  by destruct (l !! p).
Qed.

Lemma choose_indep_call_ok bucket left numrep ty tries recurse_tries rec work :
  in_map map bucket → work_ok work → 0 <= left → 0 < numrep < 2 ^ 31 →
  ∃ out out2 work', crush_choose_indep map weights weight_max x choose_args fuel bucket left numrep ty
      tries recurse_tries rec work = Ok (out, out2, work') ∧
    work_ok work' ∧ positions_ok bucket ty rec out out2 ∧ Z.of_nat (length out) = left.
Proof.
  intros Hb Hw Hl Hn. unfold crush_choose_indep.
  set (fresh := replicate (Z.to_nat left) CRUSH_ITEM_UNDEF).
  assert (Z.of_nat (length fresh) = left) as Hfl by (unfold fresh; rewrite length_replicate; lia).
  set (leaf := if rec then _ else _).
  destruct (choose_indep_ok map rank D weights weight_max x choose_args Hmap Hweights Hargs Hdevices fuel
    fuel_depth numrep Hn bucket ty 0 left 0 leaf Hb) with (tries := tries) (out := fresh)
      (out2 := Some fresh) (work := work)
    as (out & out2 & work' & -> & Hw' & [Eo _] & Ho2 & Hslots & Hdist); auto; [lia| | |].
  { unfold leaf. destruct rec; [by eapply leaf_fills_ok; eauto using fuel_depth|done]. }
  { split; [lia|]. split; [|eauto]. intros l [= <-]. lia. }
  cbn [bind]. destruct out2 as [o2|]; [|done]. destruct Ho2 as [Eo2 _]. cbn [deref bind].
  exists out, o2, work'. do 2 (split; [done|]). split; [|lia].
  assert (∀ p v, out !! p = Some v → 0 <= Z.of_nat p < left ∧ zget out (Z.of_nat p) = Ok v) as Hget.
  { intros p v Ep. pose proof (lookup_lt_Some _ _ _ Ep). split; [lia|by apply zget_nat]. }
  split; [congruence|]. split.
  - intros p q v [Hp Ep]%Hget [Hq Eq]%Hget Hne. apply (Hdist (Z.of_nat p) (Z.of_nat q)); auto; lia.
  - intros p v [Hp Ep]%Hget. destruct (Hslots _ Hp) as (v' & Ev & Hs).
    assert (v' = v) as -> by congruence. rewrite slot2_lookup in Hs.
    assert (rec = true → is_Some leaf) as Hrec by (unfold leaf; intros ->; eauto).
    destruct Hs as [[-> H]|[H1 H2]]; [left|right]; auto.
Qed.

(** ** The interpreter's state *)

(** An entry of the working set or of the result. *)
Definition valid (v : Z) : Prop :=
  v = CRUSH_ITEM_NONE ∨ 0 <= v < max_devices map ∨ ∃ c, get_bucket map v = Ok c.

Definition tunables_ok (st : rule_state) : Prop :=
  0 <= choose_tries st <= T ∧ 0 <= choose_leaf_tries st <= T ∧
  choose_local_retries st <= R ∧ 0 <= choose_local_fallback_retries st <= R.
Definition state_ok (st : rule_state) : Prop :=
  tunables_ok st ∧ work_ok (work_of st) ∧ Forall valid (w st) ∧ Forall valid (result st) ∧
  Z.of_nat (length (w st)) <= result_max ∧ Z.of_nat (length (result st)) <= result_max ∧ shift_ok (vary_r st).

(** The numbers a step may set. *)
Definition step_ok (s : crush_rule_step) : Prop :=
  - 2 ^ 31 <= arg1 s < 2 ^ 31 ∧
  (op s = CRUSH_RULE_SET_CHOOSE_TRIES ∨ op s = CRUSH_RULE_SET_CHOOSELEAF_TRIES → arg1 s <= T) ∧
  (op s = CRUSH_RULE_SET_CHOOSE_LOCAL_TRIES ∨ op s = CRUSH_RULE_SET_CHOOSE_LOCAL_FALLBACK_TRIES →
   arg1 s <= R) ∧
  (op s = CRUSH_RULE_SET_CHOOSELEAF_VARY_R → arg1 s <= 32).

Lemma avail_valid l : avail l → valid l.
Proof. intros [H _]. right. by left. Qed.
Lemma choice_valid ty v : choice ty v → valid v.
Proof. intros [[_ H]|(_ & c & H & _)]; [by apply avail_valid|]. right. right. eauto. Qed.

Lemma replicas_valid bucket ty rec out out2 :
  replicas_ok map weights weight_max x bucket ty rec out out2 →
  Forall valid out ∧ (rec = true → length out2 = length out ∧ Forall valid out2).
Proof.
  intros (_ & Hc & H). split.
  { eapply Forall_impl; [exact Hc|]. intros v [Hv _]. by eapply choice_valid. }
  intros ->. destruct H as [_ H]. split; [by symmetry; eapply Forall2_length|].
  eapply Forall2_Forall_r; [exact H|]. apply Forall_true. intros v l [Hl _]. by apply avail_valid.
Qed.
Lemma positions_valid bucket ty rec out out2 :
  positions_ok bucket ty rec out out2 →
  Forall valid out ∧ (rec = true → length out2 = length out ∧ Forall valid out2).
Proof.
  intros (Hlen & _ & H). rewrite !Forall_lookup. split.
  - intros p v Ep. destruct (H p v Ep) as [[-> _]|[[Hv _] _]]; [by left|by eapply choice_valid].
  - intros Hr. split; [done|]. intros p u Ep. pose proof (lookup_lt_Some _ _ _ Ep).
    destruct (lookup_lt_is_Some_2 out p) as [v Ev]; [lia|].
    destruct (H p v Ev) as [[_ Hu]|[_ Hl]].
    + destruct (Hu Hr) as (u' & E & [-> |[_ ?]]); simplify_eq; [by left|right; by left].
    + destruct (Hl Hr) as (l & E & ? & _); simplify_eq. by apply avail_valid.
Qed.

(** One element of the working set. *)
Lemma choose_one_ok step st firstn rec b osize numrep wk :
  tunables_ok st → (firstn = true → shift_ok (vary_r st)) → in_map map b → work_ok wk → 0 <= osize <= result_max → 0 < numrep < 2 ^ 31 →
  ∃ out out2 wk',
    (if (firstn : bool) then
       let recurse_tries :=
         if negb (choose_leaf_tries st =? 0) then choose_leaf_tries st
         else if negb (chooseleaf_descend_once map =? 0) then 1
         else choose_tries st in
       crush_choose_firstn map weights weight_max x choose_args fuel b numrep (arg2 step)
         (result_max - osize) (u32 (choose_tries st)) (u32 recurse_tries)
         (choose_local_retries st)
         (choose_local_fallback_retries st) rec (vary_r st) (stable st) 0 wk
     else
       let out_size := if numrep <? result_max - osize then numrep else result_max - osize in
       crush_choose_indep map weights weight_max x choose_args fuel b out_size numrep
         (arg2 step) (u32 (choose_tries st))
         (u32 (if negb (choose_leaf_tries st =? 0) then choose_leaf_tries st else 1))
         rec wk) = Ok (out, out2, wk') ∧ work_ok wk' ∧
    (if firstn then replicas_ok map weights weight_max x b (arg2 step) rec out out2 ∧
                    Z.of_nat (length out) <= Z.min numrep (result_max - osize)
     else positions_ok b (arg2 step) rec out out2 ∧
          Z.of_nat (length out) = Z.min numrep (result_max - osize)).
Proof.
  intros (H1 & H2 & H3 & H4) Hsh Hb Hw Ho Hn. destruct firstn; cbv zeta.
  - set (rt := if negb (choose_leaf_tries st =? 0) then _ else _).
    assert (0 <= rt <= T) by (unfold rt; repeat (destruct (negb _)); lia).
    rewrite !u32_small by lia.
    destruct (choose_firstn_ok b numrep (arg2 step) (result_max - osize) (choose_tries st) rt
      (choose_local_retries st) (choose_local_fallback_retries st) rec (vary_r st) (stable st) wk)
      as (out & out2 & wk' & E & Hrest); auto; try lia.
    exists out, out2, wk'. tauto.
  - destruct (choose_indep_call_ok b (if numrep <? result_max - osize then numrep else result_max - osize)
      numrep (arg2 step) (u32 (choose_tries st))
      (u32 (if negb (choose_leaf_tries st =? 0) then choose_leaf_tries st else 1)) rec wk)
      as (out & out2 & wk' & E & Hw' & Hp & Hl); auto; [zcase_one|].
    exists out, out2, wk'. do 3 (split; [done|]). rewrite Hl. zcase_one.
Qed.

Lemma choose_step_ok step st firstn rec ws o c wk :
  tunables_ok st → (firstn = true → shift_ok (vary_r st)) → work_ok wk → Forall valid ws →
  -2 ^ 31 <= arg1 step < 2 ^ 31 →
  Forall valid o → Z.of_nat (length o) <= result_max →
  (rec = true → length c = length o ∧ Forall valid c) →
  ∃ o' c' wk', choose_step fuel map x result_max weights weight_max choose_args step st firstn rec
      ws o c wk = Ok (o', c', wk') ∧ work_ok wk' ∧
    Forall valid o' ∧ Z.of_nat (length o') <= result_max ∧
    (rec = true → length c' = length o' ∧ Forall valid c').
Proof.
  intros Ht Hsh Hw Hws Harg. revert o c wk Hw.
  induction Hws as [|wi ws Hwi Hws IH]; intros o c wk Hw Ho Hlo Hc; cbn [choose_step].
  { exists o, c, wk. auto. }
  set (numrep := if arg1 step <=? 0 then s32 (arg1 step + result_max) else arg1 step).
  assert (numrep < 2 ^ 31) as Hn.
  { unfold numrep. pose proof (s32_range (arg1 step + result_max)). zcase_one. }
  destruct (Z.leb_spec numrep 0); [by apply IH|].
  destruct ((-1 - wi <? 0) || (max_buckets map <=? -1 - wi)) eqn:Eb; [by apply IH|].
  apply orb_false_elim in Eb as [Eb1 Eb2]. zb.
  destruct Hwi as [-> |[?|[b Hb]]]; [unfold CRUSH_ITEM_NONE in Eb1; lia|lia|].
  rewrite Hb. cbn [bind]. apply (get_bucket_in Hmap) in Hb as (Hb & _ & _).
  destruct (choose_one_ok step st firstn rec b (Z.of_nat (length o)) numrep wk)
    as (out & out2 & wk' & E & Hw' & Hr); auto; [lia..|]. cbv zeta in E. rewrite E. cbn [bind].
  assert (Forall valid out ∧ (rec = true → length out2 = length out ∧ Forall valid out2) ∧
          Z.of_nat (length out) <= result_max - Z.of_nat (length o)) as (Hvo & Hv2 & Hlen).
  { destruct firstn; destruct Hr as [Hr Hl].
    - destruct (replicas_valid _ _ _ _ _ Hr). split_and!; auto; lia.
    - destruct (positions_valid _ _ _ _ _ Hr). split_and!; auto; lia. }
  apply IH; auto.
  - by apply Forall_app.
  - rewrite length_app. lia.
  - intros Hrec. destruct (Hc Hrec), (Hv2 Hrec). rewrite !length_app, Forall_app. split; [lia|done].
Qed.

#[local] Abbreviation do_step_ :=
  (do_step fuel map x result_max weights weight_max choose_args).
#[local] Abbreviation do_steps_ :=
  (do_steps fuel map x result_max weights weight_max choose_args).

Lemma take_step_ok s st :
  state_ok st → op s = CRUSH_RULE_TAKE → ∃ st', do_step_ s st = Ok st' ∧ state_ok st'.
Proof.
  intros (Ht & Hw & Hv & Hres & Hl & Hlr & Hsh) Eop. unfold do_step. rewrite Eop. cbn [Z.eqb CRUSH_RULE_TAKE Pos.eqb].
  assert (∃ ok, (if (0 <=? arg1 s) && (arg1 s <? max_devices map) then Ok true
           else if (0 <=? -1 - arg1 s) && (-1 - arg1 s <? max_buckets map)
           then p <- zget (buckets map) (-1 - arg1 s);; Ok (bool_decide (is_Some p))
           else Ok false) = Ok ok ∧ (ok = true → valid (arg1 s))) as (ok & -> & Hok).
  { destruct ((0 <=? arg1 s) && _) eqn:E1.
    { apply andb_true_iff in E1 as [? ?]. zb. exists true. split; [done|]. right. left. lia. }
    destruct ((0 <=? -1 - arg1 s) && _) eqn:E2; [|by exists false].
    apply andb_true_iff in E2 as [? ?]. zb. unfold max_buckets in *.
    destruct (zget_in (buckets map) (-1 - arg1 s)) as (p & Ep & _); [lia|]. rewrite Ep. cbn [bind].
    eexists. split; [done|]. intros [b ->]%bool_decide_eq_true. right. right.
    exists b. unfold get_bucket. by rewrite Ep. }
  cbn [bind]. destruct ok.
  - rewrite (proj2 (Z.leb_gt _ _)) by lia. eexists. split; [done|].
    unfold state_ok, set_w. simpl. split_and!; auto. lia.
  - exists st. split; [done|]. split_and!; auto.
Qed.

Lemma choose_steps_ok s st :
  state_ok st → step_ok s →
  op s = CRUSH_RULE_CHOOSELEAF_FIRSTN ∨ op s = CRUSH_RULE_CHOOSE_FIRSTN ∨
  op s = CRUSH_RULE_CHOOSELEAF_INDEP ∨ op s = CRUSH_RULE_CHOOSE_INDEP →
  ∃ st', do_step_ s st = Ok st' ∧ state_ok st'.
Proof.
  intros Hst (Harg & _) Hop. pose proof Hst as (Ht & Hw & Hv & Hres & Hl & Hlr & Hsh).
  assert (∀ firstn rec, ∃ st', (if bool_decide (w st = []) then Ok st
     else '(o, c, wk) <- choose_step fuel map x result_max weights weight_max choose_args s st firstn rec
            (w st) [] [] (work_of st);;
          Ok (set_w st (if (rec : bool) then c else o) wk)) = Ok st' ∧ state_ok st') as Hmain.
  { intros firstn rec. destruct (bool_decide _); [eauto|].
    destruct (choose_step_ok s st firstn rec (w st) [] [] (work_of st))
      as (o & c & wk & -> & Hwk & Ho & Hlo & Hc); auto; [simpl; lia|].
    cbn [bind]. eexists. split; [done|]. unfold state_ok, set_w. simpl.
    destruct rec; [destruct (Hc eq_refl) as [? ?]|]; split_and!; auto; lia. }
  unfold do_step. destruct Hop as [E|[E|[E|E]]]; rewrite E; apply Hmain.
Qed.

Lemma do_step_ok s st : state_ok st → step_ok s → ∃ st', do_step_ s st = Ok st' ∧ state_ok st'.
Proof.
  intros Hst Hs. destruct (decide (op s = CRUSH_RULE_TAKE)); [by apply take_step_ok|].
  destruct (decide (op s = CRUSH_RULE_CHOOSELEAF_FIRSTN)); [apply choose_steps_ok; auto|].
  destruct (decide (op s = CRUSH_RULE_CHOOSE_FIRSTN)); [apply choose_steps_ok; auto|].
  destruct (decide (op s = CRUSH_RULE_CHOOSELEAF_INDEP)); [apply choose_steps_ok; auto|].
  destruct (decide (op s = CRUSH_RULE_CHOOSE_INDEP)); [apply choose_steps_ok; auto|].
  destruct Hs as (_ & HsT & HsR & HsV). pose proof Hst as ((H1 & H2 & H3 & H4) & Hw & Hv & Hres & Hl & Hlr & Hsh).
  unfold do_step.
  repeat match goal with |- context [op s =? ?k] => destruct (Z.eqb_spec (op s) k); [try done|] end;
    cbn [orb]; repeat match goal with H : op s <> _ |- _ => clear H end.
  1-6: eexists; split; [done|]; zcase_one; [|done]; unfold state_ok, tunables_ok, shift_ok in *; simpl;
       split_and!; auto; lia.
  - eexists. split; [done|]. unfold state_ok, tunables_ok. simpl. split_and!; auto; try lia.
    + apply Forall_app. split; [done|]. by apply Forall_take.
    + rewrite length_app, length_take. lia.
  - eauto.
Qed.

Lemma do_steps_ok ss st :
  state_ok st → Forall step_ok ss → ∃ st', do_steps_ ss st = Ok st' ∧ state_ok st'.
Proof.
  intros Hst Hss. revert st Hst. induction Hss as [|s ss Hs _ IH]; intros st Hst; cbn [do_steps]; [eauto|].
  destruct (do_step_ok s st Hst Hs) as (st1 & -> & Hst1). cbn [bind]. auto.
Qed.

(** ** Whole rules *)

(** The map's tunables are within the bounds. *)
Definition map_tunables_ok : Prop :=
  0 <= choose_total_tries map < T ∧ choose_local_tries map <= R ∧
  0 <= choose_local_fallback_tries map <= R.
Context (Htun : map_tunables_ok).

Lemma initial_ok wk : work_ok wk → shift_ok (chooseleaf_vary_r map) → state_ok (initial map wk).
Proof.
  intros Hw Hsh. destruct Htun as (H1 & H2 & H3). unfold state_ok, tunables_ok, initial. simpl.
  rewrite s32_small by lia. split_and!; auto; lia.
Qed.

Lemma do_rule_ok ruleno rule wk :
  0 <= ruleno < 2 ^ 32 → rules map !! Z.to_nat ruleno = Some (Some rule) →
  Forall step_ok (steps rule) → shift_ok (chooseleaf_vary_r map) → work_ok wk →
  ∃ res wk', crush_do_rule fuel map x result_max weights weight_max choose_args ruleno wk = Ok (res, wk') ∧
    work_ok wk' ∧ Z.of_nat (length res) <= result_max ∧ Forall valid res.
Proof.
  intros Hn Hr Hs Hsh Hw. rewrite (do_rule_steps _ _ _ _ _ _ _ ruleno rule) by done.
  destruct (do_steps_ok (steps rule) (initial map wk)) as (st & -> & Hst); auto using initial_ok.
  cbn [bind]. destruct Hst as (_ & Hwk & _ & Hres & _ & Hl & _). eauto 10.
Qed.

Lemma take_bucket root b st :
  get_bucket map root = Ok b →
  do_step_ (mk_step CRUSH_RULE_TAKE root 0) st = Ok (set_w st [root] (work_of st)).
Proof.
  intros Hb. pose proof (get_bucket_in Hmap _ _ Hb) as (Hm & <- & Hneg).
  unfold do_step. cbn [op arg1 Z.eqb CRUSH_RULE_TAKE Pos.eqb].
  pose proof (in_map_id Hmap b Hm). pose proof (lookup_lt_Some _ _ _ Hm). unfold max_buckets.
  rewrite (proj2 (Z.leb_gt 0 (id b))), (proj2 (Z.leb_le 0 _)), (proj2 (Z.ltb_lt (-1 - id b) _)) by lia.
  cbn [andb]. rewrite (proj2 (zget_ok _ _ (Some b))) by (split; [lia|exact Hm]). cbn [bind].
  rewrite bool_decide_true by eauto. rewrite (proj2 (Z.leb_gt _ _)) by lia. done.
Qed.

(** A chooseleaf step with count 0 on a working set of one bucket. *)
Lemma chooseleaf_single (firstn : bool) root b ty st :
  get_bucket map root = Ok b → result_max < 2 ^ 31 → tunables_ok st → (firstn = true → shift_ok (vary_r st)) → work_ok (work_of st) →
  w st = [root] →
  ∃ out out2 wk',
    do_step_ (mk_step (if firstn then CRUSH_RULE_CHOOSELEAF_FIRSTN else CRUSH_RULE_CHOOSELEAF_INDEP) 0 ty) st
      = Ok (set_w st out2 wk') ∧ work_ok wk' ∧
    (if firstn then replicas_ok map weights weight_max x b ty true out out2 ∧
                    Z.of_nat (length out) <= result_max
     else positions_ok b ty true out out2 ∧ Z.of_nat (length out) = result_max).
Proof.
  intros Hb Hm Ht Hsh Hw Ew. pose proof (get_bucket_in Hmap _ _ Hb) as (Hbm & Hid & Hneg).
  destruct (choose_one_ok (mk_step (if firstn then CRUSH_RULE_CHOOSELEAF_FIRSTN else
    CRUSH_RULE_CHOOSELEAF_INDEP) 0 ty) st firstn true b 0 result_max (work_of st))
    as (out & out2 & wk' & E & Hw' & Hr); auto; [lia..|].
  exists out, out2, wk'. split; [|split; [done|]].
  2: { rewrite Z.sub_0_r, Z.min_id in Hr. exact Hr. }
  assert (choose_step fuel map x result_max weights weight_max choose_args
    (mk_step (if firstn then CRUSH_RULE_CHOOSELEAF_FIRSTN else CRUSH_RULE_CHOOSELEAF_INDEP) 0 ty)
    st firstn true [root] [] [] (work_of st) = Ok (out, out2, wk')) as Es.
  { cbn [choose_step length arg1 Z.of_nat Z.leb Z.compare]. rewrite s32_small by lia.
    change (0 + result_max) with result_max. rewrite (proj2 (Z.leb_gt result_max 0)) by lia.
    pose proof (lookup_lt_Some _ _ _ Hbm). unfold max_buckets.
    rewrite (proj2 (Z.ltb_ge _ _)), (proj2 (Z.leb_gt _ _)), Hb by lia. cbn [orb bind].
    cbv zeta in E |- *. change (Z.of_nat 0) with 0. rewrite E. cbn [bind app]. done. }
  assert (∀ s, op s = (if firstn then CRUSH_RULE_CHOOSELEAF_FIRSTN else CRUSH_RULE_CHOOSELEAF_INDEP) →
    do_step_ s st = if bool_decide (w st = []) then Ok st
      else '(o, c, wk) <- choose_step fuel map x result_max weights weight_max choose_args s st firstn
             true (w st) [] [] (work_of st);;
           Ok (set_w st c wk)) as Hs
    by (intros s E'; unfold do_step; rewrite E'; destruct firstn; reflexivity).
  rewrite Hs, Ew, bool_decide_false by done. rewrite Es. done.
Qed.

Lemma emit_step st :
  Z.of_nat (length (w st)) <= result_max → result st = [] →
  do_step_ (mk_step CRUSH_RULE_EMIT 0 0) st =
  Ok (mk_rstate (choose_tries st) (choose_leaf_tries st) (choose_local_retries st)
        (choose_local_fallback_retries st) (vary_r st) (stable st) [] (w st) (work_of st)).
Proof.
  intros Hl Hr. unfold do_step. cbn [op]. rewrite Hr, take_ge by (simpl; lia). done.
Qed.

Lemma chooseleaf_rule (firstn : bool) pre root b ty st :
  get_bucket map root = Ok b → result_max < 2 ^ 31 → tunables_ok st → (firstn = true → shift_ok (vary_r st)) → work_ok (work_of st) →
  result st = [] → do_steps_ pre (initial map (work_of st)) = Ok st →
  ∃ out out2 wk',
    do_steps_ (pre ++ [mk_step CRUSH_RULE_TAKE root 0;
        mk_step (if firstn then CRUSH_RULE_CHOOSELEAF_FIRSTN else CRUSH_RULE_CHOOSELEAF_INDEP) 0 ty;
        mk_step CRUSH_RULE_EMIT 0 0]) (initial map (work_of st))
      = Ok (mk_rstate (choose_tries st) (choose_leaf_tries st) (choose_local_retries st)
        (choose_local_fallback_retries st) (vary_r st) (stable st) [] out2 wk') ∧
    work_ok wk' ∧
    (if firstn then replicas_ok map weights weight_max x b ty true out out2 ∧
                    Z.of_nat (length out) <= result_max
     else positions_ok b ty true out out2 ∧ Z.of_nat (length out) = result_max).
Proof.
  intros Hb Hm Ht Hsh Hw Hr Hpre.
  assert (∀ ss st0, do_steps_ (pre ++ ss) st0 = st <- do_steps_ pre st0;; do_steps_ ss st) as Happ.
  { clear. intros ss. induction pre as [|s pre IH]; intros st0; [done|]. cbn [app do_steps].
    destruct (do_step_ s st0); cbn [bind]; [apply IH|done]. }
  rewrite Happ, Hpre. cbn [bind do_steps]. rewrite (take_bucket root b) by done. cbn [bind].
  destruct (chooseleaf_single firstn root b ty (set_w st [root] (work_of st)))
    as (out & out2 & wk' & -> & Hw' & H); auto.
  cbn [bind]. exists out, out2, wk'.
  assert (length out2 = length out) as Hlen.
  { destruct firstn; destruct H as [H _].
    - by apply replicas_valid in H as [_ [? _]].
    - by destruct H as [? _]. }
  rewrite emit_step; [done| |done]. unfold set_w. cbn [w]. rewrite Hlen. destruct firstn; lia.
Qed.
End Interpreter.

(** ** Properties *)

(** Everything a caller has to provide. *)
Record placement_setting (map : crush_map) (rank : Z → nat) (D : nat) (weights : list Z)
    (weight_max : Z) (choose_args : option (list crush_choose_arg)) (T R : Z) (fuel : nat)
    (result_max : Z) : Prop := {
  set_map : wf_map map rank D;
  set_weights : weight_max <= Z.of_nat (length weights);
  set_args : ∀ b, in_map map b → ∃ arg, choose_arg_of choose_args b = Ok arg ∧ wf_arg b arg;
  set_devices : max_devices map <= CRUSH_ITEM_UNDEF;
  set_tries : 1 <= T < 2 ^ 31;
  set_retries : 0 <= R;
  set_wide : T + R + 0x10001 < 2 ^ 32;
  set_fuel : (T + R + 0x10000) * (Z.of_nat D + 1) + Z.of_nat D + 1 <= Z.of_nat fuel;
  set_max : 0 < result_max < 2 ^ 31;
  set_tunables : map_tunables_ok map T R
}.

(** [C8] Every rule is executed to its end: on a well-formed map, for any rule whose
    numbers respect the bounds ([vary_r] at most 32, since [r] is shifted by
    [vary_r - 1] and a shift by 32 is undefined), any input, any device weights and any valid
    working space, [crush_do_rule] neither faults nor runs out of turns, returns
    at most [result_max] entries, each [CRUSH_ITEM_NONE] or an item of the map,
    and leaves the working space valid for the next call. *)
Theorem do_rule_total map rank D weights weight_max x choose_args T R fuel result_max ruleno rule wk :
  placement_setting map rank D weights weight_max choose_args T R fuel result_max →
  0 <= ruleno < 2 ^ 32 → rules map !! Z.to_nat ruleno = Some (Some rule) →
  Forall (step_ok T R) (steps rule) → shift_ok (chooseleaf_vary_r map) → work_ok map wk →
  ∃ res wk', crush_do_rule fuel map x result_max weights weight_max choose_args ruleno wk = Ok (res, wk') ∧
    work_ok map wk' ∧ Z.of_nat (length res) <= result_max ∧ Forall (valid map) res.
Proof. intros []; intros. eapply (do_rule_ok map rank D) with (T := T) (R := R); eauto; lia. Qed.

Lemma replicated_rule_ok map rank D weights weight_max x choose_args T R fuel result_max
    ruleno rule root b ty wk :
  placement_setting map rank D weights weight_max choose_args T R fuel result_max →
  0 <= ruleno < 2 ^ 32 → rules map !! Z.to_nat ruleno = Some (Some rule) →
  steps rule = [mk_step CRUSH_RULE_TAKE root 0; mk_step CRUSH_RULE_CHOOSELEAF_FIRSTN 0 ty;
                mk_step CRUSH_RULE_EMIT 0 0] →
  get_bucket map root = Ok b → shift_ok (chooseleaf_vary_r map) → work_ok map wk →
  ∃ devs doms wk', crush_do_rule fuel map x result_max weights weight_max choose_args ruleno wk
      = Ok (devs, wk') ∧
    NoDup devs ∧ NoDup doms ∧ Z.of_nat (length devs) <= result_max ∧
    Forall2 (λ dom dev, choice map weights weight_max x ty dom ∧ under map root dom ∧
       avail map weights weight_max x dev ∧ at_or_under map dom dev) doms devs.
Proof.
  intros [] Hn Hr Hs Hb Hsh Hw. rewrite (do_rule_steps _ _ _ _ _ _ _ ruleno rule) by done. rewrite Hs.
  assert (tunables_ok T R (initial map wk)) as Ht.
  { destruct (initial_ok map) with (T := T) (R := R) (result_max := result_max) (wk := wk)
      as [? _]; auto; lia. }
  destruct (chooseleaf_rule map rank D weights weight_max x choose_args set_map0 set_weights0 set_args0
    set_devices0 T R set_tries0 set_retries0 set_wide0 fuel set_fuel0 result_max ltac:(lia)
    true [] root b ty (initial map wk)) as (out & out2 & wk' & E & Hw' & (Hnd & Hf & Hnd2 & Hl) & Hlen);
    auto; [lia|].
  cbn [app initial work_of] in E. rewrite E. cbn [bind result work_of].
  exists out2, out, wk'. split; [done|]. do 2 (split; [done|]).
  split; [by rewrite <- (Forall2_length _ _ _ Hl)|].
  rewrite <- (proj1 (proj2 (get_bucket_in set_map0 _ _ Hb))).
  eapply Forall2_impl; [exact (Forall2_with_l _ _ _ _ Hf Hl)|]. simpl. tauto.
Qed.

(** [C6] A replicated rule (take a root, chooseleaf firstn over failure domains of
    type [ty], emit) returns distinct devices of the map that are in, and the
    devices lie in distinct failure domains of that type below the root.  The tunable
    [chooseleaf_vary_r] of the map is at most 32. *)
Theorem replicated_rule_correct map rank D weights weight_max x choose_args T R fuel result_max
    ruleno rule root b ty wk :
  placement_setting map rank D weights weight_max choose_args T R fuel result_max →
  0 <= ruleno < 2 ^ 32 → rules map !! Z.to_nat ruleno = Some (Some rule) →
  steps rule = [mk_step CRUSH_RULE_TAKE root 0; mk_step CRUSH_RULE_CHOOSELEAF_FIRSTN 0 ty;
                mk_step CRUSH_RULE_EMIT 0 0] →
  get_bucket map root = Ok b → shift_ok (chooseleaf_vary_r map) → work_ok map wk →
  ∃ devs doms wk', crush_do_rule fuel map x result_max weights weight_max choose_args ruleno wk
      = Ok (devs, wk') ∧
    NoDup devs ∧ NoDup doms ∧ Z.of_nat (length devs) <= result_max ∧
    Forall2 (λ dom dev, choice map weights weight_max x ty dom ∧ under map root dom ∧
       avail map weights weight_max x dev ∧ at_or_under map dom dev) doms devs.
Proof. apply replicated_rule_ok. Qed.

Lemma erasure_rule_ok map rank D weights weight_max x choose_args T R fuel result_max
    ruleno rule root b ty leaf_tries tries wk :
  placement_setting map rank D weights weight_max choose_args T R fuel result_max →
  0 <= ruleno < 2 ^ 32 → rules map !! Z.to_nat ruleno = Some (Some rule) →
  steps rule = [mk_step CRUSH_RULE_SET_CHOOSELEAF_TRIES leaf_tries 0;
                mk_step CRUSH_RULE_SET_CHOOSE_TRIES tries 0;
                mk_step CRUSH_RULE_TAKE root 0; mk_step CRUSH_RULE_CHOOSELEAF_INDEP 0 ty;
                mk_step CRUSH_RULE_EMIT 0 0] →
  0 < leaf_tries <= T → 0 < tries <= T → ty <> 0 → get_bucket map root = Ok b → work_ok map wk →
  ∃ devs doms wk', crush_do_rule fuel map x result_max weights weight_max choose_args ruleno wk
      = Ok (devs, wk') ∧
    Z.of_nat (length devs) = result_max ∧ length doms = length devs ∧
    (∀ p q dom, doms !! p = Some dom → doms !! q = Some dom → p <> q → dom = CRUSH_ITEM_NONE) ∧
    ∀ p dom, doms !! p = Some dom → ∃ dev, devs !! p = Some dev ∧
      (dom = CRUSH_ITEM_NONE ∧ dev = CRUSH_ITEM_NONE ∨
       choice map weights weight_max x ty dom ∧ under map root dom ∧
       avail map weights weight_max x dev ∧ at_or_under map dom dev).
Proof.
  intros [] Hn Hr Hs Hlt Htr Hty Hb Hw. rewrite (do_rule_steps _ _ _ _ _ _ _ ruleno rule) by done.
  rewrite Hs.
  set (st := mk_rstate tries leaf_tries (choose_local_tries map) (choose_local_fallback_tries map)
    (chooseleaf_vary_r map) (chooseleaf_stable map) [] [] wk).
  assert (tunables_ok T R st) as Ht
    by (destruct set_tunables0 as (_ & ? & ?); unfold tunables_ok, st; simpl; lia).
  destruct (chooseleaf_rule map rank D weights weight_max x choose_args set_map0 set_weights0 set_args0
    set_devices0 T R set_tries0 set_retries0 set_wide0 fuel set_fuel0 result_max ltac:(lia)
    false [mk_step CRUSH_RULE_SET_CHOOSELEAF_TRIES leaf_tries 0;
           mk_step CRUSH_RULE_SET_CHOOSE_TRIES tries 0] root b ty st)
    as (out & out2 & wk' & E & Hw' & (Hlen2 & Hd & Hp) & Hlen); auto; [lia|done| |].
  { cbn [do_steps]. unfold do_step at 2. cbn. rewrite (proj2 (Z.ltb_lt 0 leaf_tries)) by lia.
    unfold do_step. cbn. by rewrite (proj2 (Z.ltb_lt 0 tries)) by lia. }
  cbn [app work_of st] in E. rewrite E. cbn [bind result work_of].
  exists out2, out, wk'. split; [done|]. split; [lia|]. do 2 (split; [done|]).
  rewrite <- (proj1 (proj2 (get_bucket_in set_map0 _ _ Hb))).
  intros p dom Ep. destruct (Hp p dom Ep) as [[-> Hu]|[[Hc Hun] Hl]].
  - destruct (Hu eq_refl) as (u & -> & [-> |[? _]]); [eauto|done].
  - destruct (Hl eq_refl) as (l & -> & Ha & Hal). exists l. split; [done|]. right. auto.
Qed.

(** [C7] An erasure-code rule (set the numbers of tries, take a root, chooseleaf indep
    over failure domains of bucket type [ty], emit) fills exactly [result_max]
    positions.  A position without a failure domain holds [CRUSH_ITEM_NONE]; every
    other holds a device that is in and lies in the failure domain of that
    position, and no failure domain serves two positions. *)
Theorem erasure_rule_correct map rank D weights weight_max x choose_args T R fuel result_max
    ruleno rule root b ty leaf_tries tries wk :
  placement_setting map rank D weights weight_max choose_args T R fuel result_max →
  0 <= ruleno < 2 ^ 32 → rules map !! Z.to_nat ruleno = Some (Some rule) →
  steps rule = [mk_step CRUSH_RULE_SET_CHOOSELEAF_TRIES leaf_tries 0;
                mk_step CRUSH_RULE_SET_CHOOSE_TRIES tries 0;
                mk_step CRUSH_RULE_TAKE root 0; mk_step CRUSH_RULE_CHOOSELEAF_INDEP 0 ty;
                mk_step CRUSH_RULE_EMIT 0 0] →
  0 < leaf_tries <= T → 0 < tries <= T → ty <> 0 → get_bucket map root = Ok b → work_ok map wk →
  ∃ devs doms wk', crush_do_rule fuel map x result_max weights weight_max choose_args ruleno wk
      = Ok (devs, wk') ∧
    Z.of_nat (length devs) = result_max ∧ length doms = length devs ∧
    (∀ p q dom, doms !! p = Some dom → doms !! q = Some dom → p <> q → dom = CRUSH_ITEM_NONE) ∧
    ∀ p dom, doms !! p = Some dom → ∃ dev, devs !! p = Some dev ∧
      (dom = CRUSH_ITEM_NONE ∧ dev = CRUSH_ITEM_NONE ∨
       choice map weights weight_max x ty dom ∧ under map root dom ∧
       avail map weights weight_max x dev ∧ at_or_under map dom dev).
Proof. apply erasure_rule_ok. Qed.

(** *** A map of two hosts with two devices each *)

Definition sample_root : crush_bucket :=
  mk_bucket (-1) 10 0 0x40000 2 [-2; -3] (Straw2 [0x20000; 0x20000]).
Definition sample_host1 : crush_bucket :=
  mk_bucket (-2) 1 0 0x20000 2 [0; 1] (Straw2 [0x10000; 0x10000]).
Definition sample_host2 : crush_bucket :=
  mk_bucket (-3) 1 0 0x20000 2 [2; 3] (Uniform 0x10000).
Definition sample_rules : list (option crush_rule) :=
  [Some (mk_rule (mk_mask 0 1 1 10)
     [mk_step CRUSH_RULE_TAKE (-1) 0; mk_step CRUSH_RULE_CHOOSELEAF_FIRSTN 0 1;
      mk_step CRUSH_RULE_EMIT 0 0]);
   Some (mk_rule (mk_mask 1 3 3 20)
     [mk_step CRUSH_RULE_SET_CHOOSELEAF_TRIES 5 0; mk_step CRUSH_RULE_SET_CHOOSE_TRIES 100 0;
      mk_step CRUSH_RULE_TAKE (-1) 0; mk_step CRUSH_RULE_CHOOSELEAF_INDEP 0 1;
      mk_step CRUSH_RULE_EMIT 0 0]);
   Some (mk_rule (mk_mask 2 3 3 20)
     [mk_step CRUSH_RULE_SET_CHOOSE_TRIES 2 0; mk_step CRUSH_RULE_TAKE (-1) 0;
      mk_step CRUSH_RULE_CHOOSELEAF_INDEP 0 0;
      mk_step CRUSH_RULE_EMIT 0 0])].
Definition sample_map : crush_map :=
  mk_map [Some sample_root; Some sample_host1; Some sample_host2] sample_rules 4 0 0 50 1 1 1
    (8 + 3 * 8 + 3 * 16 + 6 * 4) 1 54.
Definition sample_rank (item : Z) : nat :=
  if item =? -1 then 2%nat else if item <? 0 then 1%nat else 0%nat.
Definition sample_work : crush_work :=
  [Some (mk_work 0 0 [0; 0]); Some (mk_work 0 0 [0; 0]); Some (mk_work 0 0 [0; 0])].
Definition sample_weights : list Z := [0x10000; 0; 0x10000; 0x10000].

Lemma sample_in_map b : in_map sample_map b → b = sample_root ∨ b = sample_host1 ∨ b = sample_host2.
Proof.
  unfold in_map. destruct (Z.to_nat (-1 - id b)) as [|[|[|n]]]; intros H; simplify_eq/=; auto.
Qed.
Lemma sample_map_wf : wf_map sample_map sample_rank 2.
Proof.
  split.
  - intros [|[|[|i]]] b E; simplify_eq/=; done.
  - intros b [-> |[-> | ->]]%sample_in_map; repeat split; try done; repeat constructor; done.
  - by intros b [-> |[-> | ->]]%sample_in_map.
  - intros b item [-> |[-> | ->]]%sample_in_map Hin Hneg;
      apply list_elem_of_In in Hin; destruct Hin as [<-|[<-|[]]]; try lia; eexists; reflexivity.
  - intros b item [-> |[-> | ->]]%sample_in_map Hin Hneg;
      apply list_elem_of_In in Hin; destruct Hin as [<-|[<-|[]]]; try lia; cbn; lia.
  - intros item. unfold sample_rank. repeat zcase_one; lia.
Qed.
Lemma sample_work_ok : work_ok sample_map sample_work.
Proof.
  intros b [-> |[-> | ->]]%sample_in_map; eexists; (split; [reflexivity|]);
    split; [done|by left|done|by left|done|by left].
Qed.
Lemma sample_setting :
  placement_setting sample_map sample_rank 2 sample_weights 4 None 100 0 (Z.to_nat 200000) 3.
Proof.
  split.
  - exact sample_map_wf.
  - simpl. lia.
  - intros b _. by exists None.
  - discriminate.
  - lia.
  - lia.
  - lia.
  - rewrite Z2Nat.id; lia.
  - lia.
  - repeat split; simpl; lia.
Qed.
Lemma sample_shift : shift_ok (chooseleaf_vary_r sample_map).
Proof. unfold shift_ok. simpl. lia. Qed.

Lemma do_rule_total_witness :
  ∃ res wk', crush_do_rule (Z.to_nat 200000) sample_map 12345 3 sample_weights 4 None 2 sample_work
      = Ok (res, wk') ∧
    work_ok sample_map wk' ∧ Z.of_nat (length res) <= 3 ∧ Forall (valid sample_map) res.
Proof.
  eapply (do_rule_total sample_map sample_rank 2 sample_weights 4 12345 None 100 0 (Z.to_nat 200000) 3 2);
    [exact sample_setting|done|reflexivity| |exact sample_shift|exact sample_work_ok].
  repeat apply Forall_cons_2; [..|apply Forall_nil_2];
    (split; [cbn; lia|]); split_and!; cbn; intros H; lia || discriminate || (destruct H; discriminate).
Defined.

Lemma replicated_rule_correct_witness :
  ∃ devs doms wk', crush_do_rule (Z.to_nat 200000) sample_map 7 3 sample_weights 4 None 0 sample_work
      = Ok (devs, wk') ∧
    NoDup devs ∧ NoDup doms ∧ Z.of_nat (length devs) <= 3 ∧
    Forall2 (λ dom dev, choice sample_map sample_weights 4 7 1 dom ∧ under sample_map (-1) dom ∧
       avail sample_map sample_weights 4 7 dev ∧ at_or_under sample_map dom dev) doms devs.
Proof.
  eapply (replicated_rule_correct sample_map sample_rank 2 sample_weights 4 7 None 100 0
    (Z.to_nat 200000) 3 0);
    [exact sample_setting|done|reflexivity|reflexivity|reflexivity|exact sample_shift|exact sample_work_ok].
Defined.

Lemma erasure_rule_correct_witness :
  ∃ devs doms wk', crush_do_rule (Z.to_nat 200000) sample_map 7 3 sample_weights 4 None 1 sample_work
      = Ok (devs, wk') ∧
    Z.of_nat (length devs) = 3 ∧ length doms = length devs ∧
    (∀ p q dom, doms !! p = Some dom → doms !! q = Some dom → p <> q → dom = CRUSH_ITEM_NONE) ∧
    ∀ p dom, doms !! p = Some dom → ∃ dev, devs !! p = Some dev ∧
      (dom = CRUSH_ITEM_NONE ∧ dev = CRUSH_ITEM_NONE ∨
       choice sample_map sample_weights 4 7 1 dom ∧ under sample_map (-1) dom ∧
       avail sample_map sample_weights 4 7 dev ∧ at_or_under sample_map dom dev).
Proof.
  eapply (erasure_rule_correct sample_map sample_rank 2 sample_weights 4 7 None 100 0
    (Z.to_nat 200000) 3 1);
    [exact sample_setting|done|reflexivity|reflexivity|lia|lia|done|reflexivity|exact sample_work_ok].
Defined.

(** With failure domains that are devices (type 0) chooseleaf indep can return a
    device that is out: the rejected device stays in the second output vector, the
    retries give up, and the clean-up only replaces entries that are still
    undefined.  Here position 0 receives device 1, whose weight is zero. *)
Theorem chooseleaf_indep_device_out :
  (∃ wk', crush_do_rule 6 sample_map 2 1 sample_weights 4 None 2 sample_work = Ok ([1], wk')) ∧
  is_out sample_weights 4 2 1 = Ok true.
Proof. split; [eexists; vm_compute; reflexivity | reflexivity]. Qed.

(** A rule may set [vary_r] to any number; from 33 on chooseleaf firstn shifts an [int] by its width. *)
Definition shifting_map (vary_r : Z) : crush_map :=
  mk_map [Some sample_root; Some sample_host1; Some sample_host2]
    [Some (mk_rule (mk_mask 0 1 1 10)
       [mk_step CRUSH_RULE_SET_CHOOSELEAF_VARY_R vary_r 0; mk_step CRUSH_RULE_TAKE (-1) 0;
        mk_step CRUSH_RULE_CHOOSELEAF_FIRSTN 0 1; mk_step CRUSH_RULE_EMIT 0 0])] 4 0 0 50 1 1 1
    (8 + 3 * 8 + 3 * 16 + 6 * 4) 1 54.
Theorem chooseleaf_shift_undefined :
  (∃ devs wk', crush_do_rule 200 (shifting_map 32) 7 2 sample_weights 4 None 0 sample_work = Ok (devs, wk')) ∧
  crush_do_rule 200 (shifting_map 33) 7 2 sample_weights 4 None 0 sample_work = Err BadAccess.
Proof. split; [do 2 eexists|]; vm_compute; reflexivity. Qed.
End Rule.
