(* ===== verification/CrushBuilder.v ===== *)
(** * CRUSH: construction and modification of maps (crush/builder.c, crush/crush.c)

    Every operation of the builder on buckets, rules and maps.  An operation on a
    bucket returns the C result code and the bucket after the call, also on the
    error paths, where the arrays may already have been resized or partly written.
    The content of memory that [realloc] adds is the parameter [junk]; [realloc]
    to size zero returns null, as glibc does, when [realloc0_null] holds.
    Allocation otherwise succeeds. *)
From Stdlib Require Import SpecFloat.
From S2P Require Import Prelude CrushHash CrushMapper.

Module Builder.
Import Crush.

Definition EINVAL : Z := 22.
Definition ERANGE : Z := 34.
Definition ENOENT : Z := 2.
Definition ENOMEM : Z := 12.
Definition EEXIST : Z := 17.
Definition ENOSPC : Z := 28.
Definition CRUSH_MAX_RULES : Z := 256.

(** ** Arithmetic guards *)

Definition crush_addition_is_unsafe (a b : Z) : bool :=
  u32 (2 ^ 32 - 1 - u32 b) <? u32 a.
Definition crush_multiplication_is_unsafe (a b : Z) : bool :=
  if u32 a =? 0 then false
  else if u32 b =? 0 then true
  else (2 ^ 32 - 1) / u32 b <? u32 a.

(** ** Memory *)

(** [realloc] to [n] elements: the old content, then whatever the memory holds. *)
Definition realloc (junk : nat → Z) (l : list Z) (n : Z) : list Z :=
  take (Z.to_nat n) l ++ (junk <$> seq (length l) (Z.to_nat n - length l)).

(** A read that may go past the end of the array: [over] is the value found
    there, [None] when such an access is treated as a fault. *)
Definition read_over (over : option Z) (l : list Z) (i : Z) : res Z :=
  if (Z.of_nat (length l) <=? i) then deref over else zget l i.

(** The first position of an item in the first [n] slots: the search loop that
    starts most functions. *)
Fixpoint find_item_from (n : nat) (i : Z) (l : list Z) (item : Z) : res (option Z) :=
  match n with
  | O => Ok None
  | S n => v <- zget l i;; if v =? item then Ok (Some i) else find_item_from n (i + 1) l item
  end.
Definition find_item (b : crush_bucket) (item : Z) : res (option Z) :=
  find_item_from (Z.to_nat (size b)) 0 (items b) item.

Definition with_data (b : crush_bucket) (weight size : Z) (items : list Z) (d : bucket_data)
    : crush_bucket :=
  mk_bucket (id b) (type b) (hash b) weight size items d.

(** [for (i = from; i < from + n; i++) dst\[i\] = src\[i\]]. *)
Fixpoint copy_array (n : nat) (i : Z) (src dst : list Z) : res (list Z) :=
  match n with
  | O => Ok dst
  | S n => v <- zget src i;; dst <- zset dst i v;; copy_array n (i + 1) src dst
  end.

(** A freshly allocated array of [n] elements. *)
Definition malloc (junk : nat → Z) (n : Z) : list Z := realloc junk [] n.

(** ** Doubles

    IEEE 754 binary64 arithmetic, rounding to nearest even. *)
Definition double : Type := spec_float.
Definition d_of_Z (n : Z) : double := binary_normalize 53 1024 n 0 false.
Definition d_add : double → double → double := SFadd 53 1024.
Definition d_sub : double → double → double := SFsub 53 1024.
Definition d_mul : double → double → double := SFmul 53 1024.
Definition d_div : double → double → double := SFdiv 53 1024.
(** Conversion to [__u32] truncates; what does not fit is undefined. *)
Definition d_to_u32 (x : double) : res Z :=
  match x with
  | S754_zero _ => Ok 0
  | S754_finite sgn m e =>
      let n := if 0 <=? e then Z.shiftl (Zpos m) e else Z.shiftr (Zpos m) (- e) in
      let n := if (sgn : bool) then - n else n in
      if (0 <=? n) && (n <? 2 ^ 32) then Ok n else Err BadAccess
  | S754_infinity _ | S754_nan => Err BadAccess
  end.

Section Alloc.
Context (junk : nat → Z) (realloc0_null : bool).
(** The [pow] of the C mathematics library. *)
Context (pow : double → double → double).

(** Whether a [realloc] to [n] elements reports failure. *)
Definition realloc_fails (n : Z) : bool := (n =? 0) && realloc0_null.

(** ** Making buckets *)

Definition crush_make_uniform_bucket (hash type size : Z) (its : list Z) (item_weight : Z)
    : res (option crush_bucket) :=
  if crush_multiplication_is_unsafe size item_weight then Ok None
  else
    arr <- copy_array (Z.to_nat size) 0 its (malloc junk size);;
    Ok (Some (mk_bucket 0 (u16 type) (u8 hash) (u32 (size * item_weight)) (u32 size) arr
                (Uniform (u32 item_weight)))).

(** The loop of [crush_make_list_bucket]; [None] is the jump to [err]. *)
Fixpoint make_list_loop (n : nat) (i w : Z) (its ws arr iw sw : list Z)
    : res (option (Z * list Z * list Z * list Z)) :=
  match n with
  | O => Ok (Some (w, arr, iw, sw))
  | S n =>
      item <- zget its i;;
      arr <- zset arr i item;;
      wi <- zget ws i;;
      iw <- zset iw i (u32 wi);;
      if crush_addition_is_unsafe w wi then Ok None
      else
        let w := s32 (w + wi) in
        sw <- zset sw i (u32 w);;
        make_list_loop n (i + 1) w its ws arr iw sw
  end.
Definition crush_make_list_bucket (hash type size : Z) (its ws : list Z)
    : res (option crush_bucket) :=
  o <- make_list_loop (Z.to_nat size) 0 0 its ws (malloc junk size) (malloc junk size)
         (malloc junk size);;
  match o with
  | None => Ok None
  | Some (w, arr, iw, sw) =>
      Ok (Some (mk_bucket 0 (u16 type) (u8 hash) (u32 w) (u32 size) arr (List iw sw)))
  end.

(** *** Trees *)

Definition crush_calc_tree_node (i : Z) : Z := Z.shiftl (i + 1) 1 - 1.
Definition on_right (n h : Z) : bool := negb (Z.land n (Z.shiftl 1 (h + 1)) =? 0).
Definition parent (n : Z) : res Z :=
  h <- height n;;
  if on_right n h then Ok (n - Z.shiftl 1 h) else Ok (n + Z.shiftl 1 h).

(** [int] has 31 bits to shift out. *)
Fixpoint calc_depth_loop (fuel : nat) (t depth : Z) : res Z :=
  if t =? 0 then Ok depth
  else match fuel with
       | O => Err OutOfFuel
       | S fuel => calc_depth_loop fuel (Z.shiftr t 1) (depth + 1)
       end.
Definition calc_depth (size : Z) : res Z :=
  if size =? 0 then Ok 0 else calc_depth_loop 32 (size - 1) 1.

(** [for (j=1; j<depth; j++)]: adds [w] to the ancestors of [node]; the second
    component tells whether an addition was refused. *)
Fixpoint add_ancestors (n : nat) (node w : Z) (nw : list Z) : res (list Z * bool) :=
  match n with
  | O => Ok (nw, false)
  | S n =>
      node <- parent node;;
      v <- zget nw node;;
      if crush_addition_is_unsafe v w then Ok (nw, true)
      else nw <- zset nw node (u32 (v + w));; add_ancestors n node w nw
  end.

Fixpoint make_tree_loop (n : nat) (i depth weight : Z) (its ws arr nw : list Z)
    : res (option (Z * list Z * list Z)) :=
  match n with
  | O => Ok (Some (weight, arr, nw))
  | S n =>
      item <- zget its i;;
      arr <- zset arr i item;;
      let node := crush_calc_tree_node i in
      wi <- zget ws i;;
      nw <- zset nw node (u32 wi);;
      if crush_addition_is_unsafe weight wi then Ok None
      else
        '(nw, unsafe) <- add_ancestors (Z.to_nat (depth - 1)) node wi nw;;
        if (unsafe : bool) then Ok None
        else make_tree_loop n (i + 1) depth (u32 (weight + wi)) its ws arr nw
  end.
Definition crush_make_tree_bucket (hash type size : Z) (its ws : list Z)
    : res (option crush_bucket) :=
  if size =? 0 then
    Ok (Some (mk_bucket 0 (u16 type) (u8 hash) 0 (u32 size) [] (Tree 0 [])))
  else
    depth <- calc_depth size;;
    let num_nodes := u8 (Z.shiftl 1 depth) in
    o <- make_tree_loop (Z.to_nat size) 0 depth 0 its ws (replicate (Z.to_nat size) 0)
           (replicate (Z.to_nat num_nodes) 0);;
    match o with
    | None => Ok None
    | Some (weight, arr, nw) =>
        root <- zget nw (num_nodes / 2);;
        assert (root =? weight);;;
        Ok (Some (mk_bucket 0 (u16 type) (u8 hash) weight (u32 size) arr (Tree num_nodes nw)))
    end.

(** *** Straws *)

(** The insertion sort of item positions by weight: [i] goes before the first
    position whose weight is larger. *)
Fixpoint straw_insert (ws : list Z) (wi i : Z) (reverse : list Z) : res (list Z) :=
  match reverse with
  | [] => Ok [i]
  | r :: reverse' =>
      wr <- zget ws r;;
      if wi <? wr then Ok (i :: reverse)
      else rest <- straw_insert ws wi i reverse';; Ok (r :: rest)
  end.
Fixpoint straw_sort (n : nat) (i : Z) (ws reverse : list Z) : res (list Z) :=
  match n with
  | O => Ok reverse
  | S n =>
      wi <- zget ws i;;
      reverse <- straw_insert ws wi i reverse;;
      straw_sort n (i + 1) ws reverse
  end.

(** The doubles carried through the straw loop. *)
Record straw_state : Type := mk_straw {
  straw : double;
  wbelow : double;
  lastw : double;
  numleft : Z
}.

(** The number of leading positions whose weight is [v]. *)
Fixpoint count_equal (ws todo : list Z) (v : Z) : res Z :=
  match todo with
  | [] => Ok 0
  | r :: todo' =>
      w <- zget ws r;;
      if w =? v then n <- count_equal ws todo' v;; Ok (n + 1) else Ok 0
  end.

(** The adjustment for the next larger weight [wi] after [wp]; [below] and [next]
    are the values of [numleft] in the two places that use it. *)
Definition straw_adjust (st : straw_state) (wp wi below next : Z) : straw_state :=
  let wbelow := d_add (wbelow st) (d_mul (d_sub (d_of_Z wp) (lastw st)) (d_of_Z below)) in
  let wnext := d_of_Z (u32 (next * u32 (wi - wp))) in
  let pbelow := d_div wbelow (d_add wbelow wnext) in
  let one := d_of_Z 1 in
  mk_straw (d_mul (straw st) (pow (d_div one pbelow) (d_div one (d_of_Z next))))
    wbelow (d_of_Z wp) next.

(** The loop [while (i < size)]: [todo] are the positions from [reverse\[i\]] on. *)
Fixpoint straw_loop (version : Z) (ws todo : list Z) (st : straw_state) (straws : list Z)
    : res (list Z) :=
  match todo with
  | [] => Ok straws
  | r :: todo' =>
      w <- zget ws r;;
      if w =? 0 then
        straws <- zset straws r 0;;
        straw_loop version ws todo'
          (if version =? 0 then st
           else mk_straw (straw st) (wbelow st) (lastw st) (numleft st - 1)) straws
      else
        v <- d_to_u32 (d_mul (straw st) (d_of_Z 0x10000));;
        straws <- zset straws r v;;
        match todo' with
        | [] => Ok straws
        | r' :: _ =>
            wi <- zget ws r';;
            if version =? 0 then
              if wi =? w then straw_loop version ws todo' st straws
              else
                n <- count_equal ws todo' wi;;
                straw_loop version ws todo'
                  (straw_adjust st w wi (numleft st) (numleft st - n)) straws
            else
              straw_loop version ws todo'
                (straw_adjust st w wi (numleft st) (numleft st - 1)) straws
        end
  end.

(** The straw lengths for the weights; [straws] is the array to overwrite. *)
Definition crush_calc_straw (map : crush_map) (size : Z) (ws straws : list Z) : res (list Z) :=
  reverse <- (if size =? 0 then Ok [] else straw_sort (Z.to_nat size - 1) 1 ws [0]);;
  straw_loop (straw_calc_version map) ws reverse
    (mk_straw (d_of_Z 1) (d_of_Z 0) (d_of_Z 0) size) straws.

(** The loop that copies items and weights and adds up the total, unchecked. *)
Fixpoint copy_weights (n : nat) (i weight : Z) (its ws arr iw : list Z)
    : res (Z * list Z * list Z) :=
  match n with
  | O => Ok (weight, arr, iw)
  | S n =>
      item <- zget its i;;
      arr <- zset arr i item;;
      wi <- zget ws i;;
      iw <- zset iw i (u32 wi);;
      copy_weights n (i + 1) (u32 (weight + wi)) its ws arr iw
  end.
Definition crush_make_straw_bucket (map : crush_map) (hash type size : Z) (its ws : list Z)
    : res (option crush_bucket) :=
  '(weight, arr, iw) <- copy_weights (Z.to_nat size) 0 0 its ws (malloc junk size) (malloc junk size);;
  straws <- crush_calc_straw map size iw (malloc junk size);;
  Ok (Some (mk_bucket 0 (u16 type) (u8 hash) weight (u32 size) arr (Straw iw straws))).
Definition crush_make_straw2_bucket (hash type size : Z) (its ws : list Z)
    : res (option crush_bucket) :=
  '(weight, arr, iw) <- copy_weights (Z.to_nat size) 0 0 its ws (malloc junk size) (malloc junk size);;
  Ok (Some (mk_bucket 0 (u16 type) (u8 hash) weight (u32 size) arr (Straw2 iw))).

(** [weights] may be null for uniform buckets only. *)
Definition crush_make_bucket (map : crush_map) (alg hash type size : Z) (its : list Z)
    (weights : option (list Z)) : res (option crush_bucket) :=
  if alg =? CRUSH_BUCKET_UNIFORM then
    item_weight <- (match weights with
                    | Some ws => if size =? 0 then Ok 0 else zget ws 0
                    | None => Ok 0
                    end);;
    crush_make_uniform_bucket hash type size its item_weight
  else if alg =? CRUSH_BUCKET_LIST then
    crush_make_list_bucket hash type size its (default [] weights)
  else if alg =? CRUSH_BUCKET_TREE then
    crush_make_tree_bucket hash type size its (default [] weights)
  else if alg =? CRUSH_BUCKET_STRAW then
    crush_make_straw_bucket map hash type size its (default [] weights)
  else if alg =? CRUSH_BUCKET_STRAW2 then
    crush_make_straw2_bucket hash type size its (default [] weights)
  else Ok None.

(** ** Adding items *)

Definition crush_add_uniform_bucket_item (b : crush_bucket) (item_weight item weight_ : Z)
    : res (Z * crush_bucket) :=
  let newsize := size b + 1 in
  if negb (item_weight =? u32 weight_) then Ok (- EINVAL, b)
  else
    arr <- zset (realloc junk (items b) newsize) (newsize - 1) item;;
    if crush_addition_is_unsafe (weight b) weight_
    then Ok (- ERANGE, with_data b (weight b) (size b) arr (data b))
    else Ok (0, with_data b (u32 (weight b + weight_)) (size b + 1) arr (data b)).

Definition crush_add_list_bucket_item (b : crush_bucket) (iw sw : list Z) (item weight_ : Z)
    : res (Z * crush_bucket) :=
  let newsize := size b + 1 in
  arr <- zset (realloc junk (items b) newsize) (newsize - 1) item;;
  iw <- zset (realloc junk iw newsize) (newsize - 1) (u32 weight_);;
  let sw := realloc junk sw newsize in
  if 1 <? newsize then
    s <- zget sw (newsize - 2);;
    if crush_addition_is_unsafe s weight_
    then Ok (- ERANGE, with_data b (weight b) (size b) arr (List iw sw))
    else
      sw <- zset sw (newsize - 1) (u32 (s + weight_));;
      Ok (0, with_data b (u32 (weight b + weight_)) (size b + 1) arr (List iw sw))
  else
    sw <- zset sw (newsize - 1) (u32 weight_);;
    Ok (0, with_data b (u32 (weight b + weight_)) (size b + 1) arr (List iw sw)).

Definition crush_add_tree_bucket_item (b : crush_bucket) (nw : list Z) (item weight_ : Z)
    : res (Z * crush_bucket) :=
  let newsize := size b + 1 in
  depth <- calc_depth newsize;;
  let num_nodes := u8 (Z.shiftl 1 depth) in
  let arr := realloc junk (items b) newsize in
  if realloc_fails num_nodes
  then Ok (- ENOMEM, with_data b (weight b) (size b) arr (Tree num_nodes nw))
  else
    let node := crush_calc_tree_node (newsize - 1) in
    nw <- zset (realloc junk nw num_nodes) node (u32 weight_);;
    let root := num_nodes / 2 in
    nw <- (if (2 <=? depth) && (node - 1 =? root)
           then v <- zget nw (root / 2);; zset nw root v
           else Ok nw);;
    '(nw, unsafe) <- add_ancestors (Z.to_nat (depth - 1)) node weight_ nw;;
    if (unsafe : bool) || crush_addition_is_unsafe (weight b) weight_
    then Ok (- ERANGE, with_data b (weight b) (size b) arr (Tree num_nodes nw))
    else
      arr <- zset arr (newsize - 1) item;;
      Ok (0, with_data b (u32 (weight b + weight_)) (size b + 1) arr (Tree num_nodes nw)).

Definition crush_add_straw_bucket_item (map : crush_map) (b : crush_bucket) (iw straws : list Z)
    (item weight_ : Z) : res (Z * crush_bucket) :=
  let newsize := size b + 1 in
  let straws := realloc junk straws newsize in
  arr <- zset (realloc junk (items b) newsize) (newsize - 1) item;;
  iw <- zset (realloc junk iw newsize) (newsize - 1) (u32 weight_);;
  if crush_addition_is_unsafe (weight b) weight_
  then Ok (- ERANGE, with_data b (weight b) (size b) arr (Straw iw straws))
  else
    straws <- crush_calc_straw map (size b + 1) iw straws;;
    Ok (0, with_data b (u32 (weight b + weight_)) (size b + 1) arr (Straw iw straws)).

Definition crush_add_straw2_bucket_item (b : crush_bucket) (iw : list Z) (item weight_ : Z)
    : res (Z * crush_bucket) :=
  let newsize := size b + 1 in
  arr <- zset (realloc junk (items b) newsize) (newsize - 1) item;;
  iw <- zset (realloc junk iw newsize) (newsize - 1) (u32 weight_);;
  if crush_addition_is_unsafe (weight b) weight_
  then Ok (- ERANGE, with_data b (weight b) (size b) arr (Straw2 iw))
  else Ok (0, with_data b (u32 (weight b + weight_)) (size b + 1) arr (Straw2 iw)).

Definition crush_bucket_add_item (map : crush_map) (b : crush_bucket) (item weight_ : Z)
    : res (Z * crush_bucket) :=
  match data b with
  | Uniform iw => crush_add_uniform_bucket_item b iw item weight_
  | List iw sw => crush_add_list_bucket_item b iw sw item weight_
  | Tree _ nw => crush_add_tree_bucket_item b nw item weight_
  | Straw iw straws => crush_add_straw_bucket_item map b iw straws item weight_
  | Straw2 iw => crush_add_straw2_bucket_item b iw item weight_
  | OtherAlg _ => Ok (-1, b)
  end.

(** ** Removing items *)

(** [for (j = i; j < i + n; j++) l\[j\] = l\[j+1\] - d]. *)
Fixpoint shift_left (over : option Z) (n : nat) (j d : Z) (l : list Z) : res (list Z) :=
  match n with
  | O => Ok l
  | S n =>
      v <- read_over over l (j + 1);;
      l <- zset l j (if d =? 0 then v else u32 (v - d));;
      shift_left over n (j + 1) d l
  end.
Definition weight_less (b : crush_bucket) (w : Z) : Z := if w <? weight b then weight b - w else 0.

Definition crush_remove_uniform_bucket_item (over : option Z) (b : crush_bucket)
    (item_weight item : Z) : res (Z * crush_bucket) :=
  o <- find_item b item;;
  match o with
  | None => Ok (- ENOENT, b)
  | Some i =>
      arr <- shift_left over (Z.to_nat (size b - i)) i 0 (items b);;
      let newsize := size b - 1 in
      let weight' := weight_less b item_weight in
      if realloc_fails newsize
      then Ok (- ENOMEM, with_data b weight' newsize [] (data b))
      else Ok (0, with_data b weight' newsize (realloc junk arr newsize) (data b))
  end.

Definition crush_remove_list_bucket_item (over : option Z) (b : crush_bucket) (iw sw : list Z)
    (item : Z) : res (Z * crush_bucket) :=
  o <- find_item b item;;
  match o with
  | None => Ok (- ENOENT, b)
  | Some i =>
      w <- zget iw i;;
      let n := Z.to_nat (size b - i) in
      arr <- shift_left over n i 0 (items b);;
      iw <- shift_left over n i 0 iw;;
      sw <- shift_left over n i w sw;;
      let newsize := size b - 1 in
      if realloc_fails newsize
      then Ok (- ENOMEM, with_data b (weight_less b w) newsize [] (List iw sw))
      else Ok (0, with_data b (weight_less b w) newsize (realloc junk arr newsize)
                    (List (realloc junk iw newsize) (realloc junk sw newsize)))
  end.

(** Subtracts [w] from the ancestors of [node]. *)
Fixpoint sub_ancestors (n : nat) (node w : Z) (nw : list Z) : res (list Z) :=
  match n with
  | O => Ok nw
  | S n =>
      node <- parent node;;
      v <- zget nw node;;
      nw <- zset nw node (u32 (v - w));;
      sub_ancestors n node w nw
  end.
(** [while (newsize > 0)]: drops trailing leaves of weight zero. *)
Fixpoint trim_leaves (n : nat) (nw : list Z) : res Z :=
  match n with
  | O => Ok 0
  | S n' =>
      v <- zget nw (crush_calc_tree_node (Z.of_nat n'));;
      if negb (v =? 0) then Ok (Z.of_nat n) else trim_leaves n' nw
  end.
Definition crush_remove_tree_bucket_item (b : crush_bucket) (num_nodes : Z) (nw : list Z) (item : Z)
    : res (Z * crush_bucket) :=
  o <- find_item b item;;
  match o with
  | None => Ok (- ENOENT, b)
  | Some i =>
      depth <- calc_depth (size b);;
      arr <- zset (items b) i 0;;
      let node := crush_calc_tree_node i in
      w <- zget nw node;;
      nw <- zset nw node 0;;
      nw <- sub_ancestors (Z.to_nat (depth - 1)) node w nw;;
      let weight' := weight_less b w in
      newsize <- trim_leaves (Z.to_nat (size b)) nw;;
      if newsize =? size b
      then Ok (0, with_data b weight' (size b) arr (Tree num_nodes nw))
      else if realloc_fails newsize
      then Ok (- ENOMEM, with_data b weight' (size b) [] (Tree num_nodes nw))
      else
        let arr := realloc junk arr newsize in
        newdepth <- calc_depth newsize;;
        if depth =? newdepth
        then Ok (0, with_data b weight' newsize arr (Tree num_nodes nw))
        else
          let num_nodes := u8 (Z.shiftl 1 newdepth) in
          if realloc_fails num_nodes
          then Ok (- ENOMEM, with_data b weight' (size b) arr (Tree num_nodes []))
          else Ok (0, with_data b weight' newsize arr (Tree num_nodes (realloc junk nw num_nodes)))
  end.

(** The size is decremented before it is compared with the position found. *)
Definition crush_remove_straw_bucket_item (map : crush_map) (b : crush_bucket) (iw straws : list Z)
    (item : Z) : res (Z * crush_bucket) :=
  o <- find_item b item;;
  match o with
  | None => Ok (- ENOENT, b)
  | Some i =>
      let newsize := size b - 1 in
      w <- zget iw i;;
      let n := Z.to_nat (newsize - i) in
      arr <- shift_left None n i 0 (items b);;
      iw <- shift_left None n i 0 iw;;
      if i =? newsize
      then Ok (- ENOENT, with_data b (weight_less b w) newsize arr (Straw iw straws))
      else
        let iw := realloc junk iw newsize in
        straws <- crush_calc_straw map newsize iw (realloc junk straws newsize);;
        Ok (0, with_data b (weight_less b w) newsize (realloc junk arr newsize) (Straw iw straws))
  end.
Definition crush_remove_straw2_bucket_item (b : crush_bucket) (iw : list Z) (item : Z)
    : res (Z * crush_bucket) :=
  o <- find_item b item;;
  match o with
  | None => Ok (- ENOENT, b)
  | Some i =>
      let newsize := size b - 1 in
      w <- zget iw i;;
      let n := Z.to_nat (newsize - i) in
      arr <- shift_left None n i 0 (items b);;
      iw <- shift_left None n i 0 iw;;
      if i =? newsize
      then Ok (- ENOENT, with_data b (weight_less b w) newsize arr (Straw2 iw))
      else Ok (0, with_data b (weight_less b w) newsize (realloc junk arr newsize)
                    (Straw2 (realloc junk iw newsize)))
  end.

Definition crush_bucket_remove_item (over : option Z) (map : crush_map) (b : crush_bucket) (item : Z)
    : res (Z * crush_bucket) :=
  match data b with
  | Uniform iw => crush_remove_uniform_bucket_item over b iw item
  | List iw sw => crush_remove_list_bucket_item over b iw sw item
  | Tree nn nw => crush_remove_tree_bucket_item b nn nw item
  | Straw iw straws => crush_remove_straw_bucket_item map b iw straws item
  | Straw2 iw => crush_remove_straw2_bucket_item b iw item
  | OtherAlg _ => Ok (-1, b)
  end.

(** ** Adjusting weights *)

Definition crush_adjust_uniform_bucket_item_weight (b : crush_bucket) (item_weight weight_ : Z)
    : Z * crush_bucket :=
  let diff := s32 ((weight_ - item_weight) * size b) in
  (diff, with_data b (u32 (u32 weight_ * size b)) (size b) (items b) (Uniform (u32 weight_))).

(** [for (j = i; j < i + n; j++) l\[j\] += diff]. *)
Fixpoint add_from (n : nat) (j diff : Z) (l : list Z) : res (list Z) :=
  match n with
  | O => Ok l
  | S n => v <- zget l j;; l <- zset l j (u32 (v + diff));; add_from n (j + 1) diff l
  end.
Definition crush_adjust_list_bucket_item_weight (b : crush_bucket) (iw sw : list Z)
    (item weight_ : Z) : res (Z * crush_bucket) :=
  o <- find_item b item;;
  match o with
  | None => Ok (0, b)
  | Some i =>
      v <- zget iw i;;
      let diff := s32 (weight_ - v) in
      iw <- zset iw i (u32 weight_);;
      sw <- add_from (Z.to_nat (size b - i)) i diff sw;;
      Ok (diff, with_data b (u32 (weight b + diff)) (size b) (items b) (List iw sw))
  end.

Fixpoint adjust_ancestors (n : nat) (node diff : Z) (nw : list Z) : res (list Z) :=
  match n with
  | O => Ok nw
  | S n =>
      node <- parent node;;
      v <- zget nw node;;
      nw <- zset nw node (u32 (v + diff));;
      adjust_ancestors n node diff nw
  end.
Definition crush_adjust_tree_bucket_item_weight (b : crush_bucket) (num_nodes : Z) (nw : list Z)
    (item weight_ : Z) : res (Z * crush_bucket) :=
  depth <- calc_depth (size b);;
  o <- find_item b item;;
  match o with
  | None => Ok (0, b)
  | Some i =>
      let node := crush_calc_tree_node i in
      v <- zget nw node;;
      let diff := s32 (weight_ - v) in
      nw <- zset nw node (u32 weight_);;
      nw <- adjust_ancestors (Z.to_nat (depth - 1)) node diff nw;;
      Ok (diff, with_data b (u32 (weight b + diff)) (size b) (items b) (Tree num_nodes nw))
  end.

Definition crush_adjust_straw_bucket_item_weight (map : crush_map) (b : crush_bucket)
    (iw straws : list Z) (item weight_ : Z) : res (Z * crush_bucket) :=
  o <- find_item b item;;
  match o with
  | None => Ok (0, b)
  | Some i =>
      v <- zget iw i;;
      let diff := s32 (weight_ - v) in
      iw <- zset iw i (u32 weight_);;
      straws <- crush_calc_straw map (size b) iw straws;;
      Ok (diff, with_data b (u32 (weight b + diff)) (size b) (items b) (Straw iw straws))
  end.
Definition crush_adjust_straw2_bucket_item_weight (b : crush_bucket) (iw : list Z)
    (item weight_ : Z) : res (Z * crush_bucket) :=
  o <- find_item b item;;
  match o with
  | None => Ok (0, b)
  | Some i =>
      v <- zget iw i;;
      let diff := s32 (weight_ - v) in
      iw <- zset iw i (u32 weight_);;
      Ok (diff, with_data b (u32 (weight b + diff)) (size b) (items b) (Straw2 iw))
  end.

Definition crush_bucket_adjust_item_weight (map : crush_map) (b : crush_bucket) (item weight_ : Z)
    : res (Z * crush_bucket) :=
  match data b with
  | Uniform iw => Ok (crush_adjust_uniform_bucket_item_weight b iw weight_)
  | List iw sw => crush_adjust_list_bucket_item_weight b iw sw item weight_
  | Tree nn nw => crush_adjust_tree_bucket_item_weight b nn nw item weight_
  | Straw iw straws => crush_adjust_straw_bucket_item_weight map b iw straws item weight_
  | Straw2 iw => crush_adjust_straw2_bucket_item_weight b iw item weight_
  | OtherAlg _ => Ok (-1, b)
  end.

(** ** Recomputing weights *)

Definition put_bucket (map : crush_map) (bid : Z) (b : crush_bucket) : res crush_map :=
  bs <- zset (buckets map) (-1 - bid) (Some b);;
  Ok (mk_map bs (rules map) (max_devices map) (choose_local_tries map)
        (choose_local_fallback_tries map) (choose_total_tries map) (chooseleaf_descend_once map)
        (chooseleaf_vary_r map) (chooseleaf_stable map) (working_size map)
        (straw_calc_version map) (allowed_bucket_algs map)).

(** The stored weight of item [i]: [item_weights\[i\]], or the leaf of a tree. *)
Definition item_weight_at (d : bucket_data) (i : Z) : res Z :=
  match d with
  | List iw _ | Straw iw _ | Straw2 iw => zget iw i
  | Tree _ nw => zget nw (crush_calc_tree_node i)
  | Uniform w => Ok w
  | OtherAlg _ => Ok 0
  end.
Definition set_item_weight (d : bucket_data) (i w : Z) : res bucket_data :=
  match d with
  | List iw sw => iw <- zset iw i w;; Ok (List iw sw)
  | Straw iw straws => iw <- zset iw i w;; Ok (Straw iw straws)
  | Straw2 iw => iw <- zset iw i w;; Ok (Straw2 iw)
  | Tree nn nw => nw <- zset nw (crush_calc_tree_node i) w;; Ok (Tree nn nw)
  | Uniform _ | OtherAlg _ => Ok d
  end.

Section Reweight.
(** The recursive call on a child bucket; its result code is ignored. *)
Context (reweight : crush_map → Z → res (Z * crush_map)).

(** The loop of the list, tree, straw and straw2 variants. *)
Fixpoint reweight_items (n : nat) (i bid : Z) (map : crush_map) : res (Z * crush_map) :=
  match n with
  | O => Ok (0, map)
  | S n =>
      b <- get_bucket map bid;;
      item <- zget (items b) i;;
      map <- (if item <? 0 then
                '(_, map) <- reweight map item;;
                c <- get_bucket map item;;
                b <- get_bucket map bid;;
                d <- set_item_weight (data b) i (weight c);;
                put_bucket map bid (with_data b (weight b) (size b) (items b) d)
              else Ok map);;
      b <- get_bucket map bid;;
      wi <- item_weight_at (data b) i;;
      if crush_addition_is_unsafe (weight b) wi then Ok (- ERANGE, map)
      else
        map <- put_bucket map bid
                 (with_data b (u32 (weight b + wi)) (size b) (items b) (data b));;
        reweight_items n (i + 1) bid map
  end.

(** The loop of the uniform variant: the sum and number of child buckets and the
    number of devices; [None] when the sum overflows. *)
Fixpoint reweight_uniform (n : nat) (i bid sum nb leaves : Z) (map : crush_map)
    : res (option (Z * Z * Z) * crush_map) :=
  match n with
  | O => Ok (Some (sum, nb, leaves), map)
  | S n =>
      b <- get_bucket map bid;;
      item <- zget (items b) i;;
      if item <? 0 then
        '(_, map) <- reweight map item;;
        c <- get_bucket map item;;
        if crush_addition_is_unsafe sum (weight c) then Ok (None, map)
        else reweight_uniform n (i + 1) bid (u32 (sum + weight c)) (nb + 1) leaves map
      else reweight_uniform n (i + 1) bid sum nb (leaves + 1) map
  end.

Definition crush_reweight_uniform_bucket (map : crush_map) (bid : Z) : res (Z * crush_map) :=
  b <- get_bucket map bid;;
  '(o, map) <- reweight_uniform (Z.to_nat (size b)) 0 bid 0 0 0 map;;
  match o with
  | None => Ok (- ERANGE, map)
  | Some (sum, nb, leaves) =>
      b <- get_bucket map bid;;
      w <- item_weight_at (data b) 0;;
      let w := if leaves <? nb then sum / nb else w in
      map <- put_bucket map bid (with_data b (u32 (w * size b)) (size b) (items b) (Uniform w));;
      Ok (0, map)
  end.
Definition crush_reweight_items_bucket (map : crush_map) (bid : Z) : res (Z * crush_map) :=
  b <- get_bucket map bid;;
  map <- put_bucket map bid (with_data b 0 (size b) (items b) (data b));;
  '(r, map) <- reweight_items (Z.to_nat (size b)) 0 bid map;;
  if r <? 0 then Ok (r, map)
  else
    b <- get_bucket map bid;;
    match data b with
    | Straw iw straws =>
        straws <- crush_calc_straw map (size b) iw straws;;
        map <- put_bucket map bid (with_data b (weight b) (size b) (items b) (Straw iw straws));;
        Ok (0, map)
    | _ => Ok (0, map)
    end.
End Reweight.

Fixpoint crush_reweight_bucket (fuel : nat) (map : crush_map) (bid : Z) : res (Z * crush_map) :=
  match fuel with
  | O => Err OutOfFuel
  | S fuel =>
      b <- get_bucket map bid;;
      match data b with
      | Uniform _ => crush_reweight_uniform_bucket (crush_reweight_bucket fuel) map bid
      | List _ _ | Tree _ _ | Straw _ _ | Straw2 _ =>
          crush_reweight_items_bucket (crush_reweight_bucket fuel) map bid
      | OtherAlg _ => Ok (-1, map)
      end
  end.
End Alloc.

(** ** Maps *)

Definition crush_get_bucket_item_weight (b : crush_bucket) (p : Z) : res Z :=
  if size b <=? u32 p then Ok 0 else w <- item_weight_at (data b) p;; Ok (s32 w).

Definition with_buckets (map : crush_map) (bs : list (option crush_bucket)) (md ws : Z) : crush_map :=
  mk_map bs (rules map) md (choose_local_tries map) (choose_local_fallback_tries map)
    (choose_total_tries map) (chooseleaf_descend_once map) (chooseleaf_vary_r map)
    (chooseleaf_stable map) ws (straw_calc_version map) (allowed_bucket_algs map).
Definition with_rules (map : crush_map) (rs : list (option crush_rule)) : crush_map :=
  mk_map (buckets map) rs (max_devices map) (choose_local_tries map)
    (choose_local_fallback_tries map) (choose_total_tries map) (chooseleaf_descend_once map)
    (chooseleaf_vary_r map) (chooseleaf_stable map) (working_size map)
    (straw_calc_version map) (allowed_bucket_algs map).

Definition set_legacy_crush_map (map : crush_map) : crush_map :=
  mk_map (buckets map) (rules map) (max_devices map) 2 5 19 0 0 0 (working_size map) 0
    (Z.lor (Z.lor (Z.shiftl 1 CRUSH_BUCKET_UNIFORM) (Z.shiftl 1 CRUSH_BUCKET_LIST))
       (Z.shiftl 1 CRUSH_BUCKET_STRAW)).
Definition set_optimal_crush_map (map : crush_map) : crush_map :=
  mk_map (buckets map) (rules map) (max_devices map) 0 0 50 1 1 1 (working_size map)
    (straw_calc_version map)
    (Z.lor (Z.lor (Z.lor (Z.shiftl 1 CRUSH_BUCKET_UNIFORM) (Z.shiftl 1 CRUSH_BUCKET_LIST))
       (Z.shiftl 1 CRUSH_BUCKET_STRAW)) (Z.shiftl 1 CRUSH_BUCKET_STRAW2)).
Definition crush_create : crush_map :=
  set_optimal_crush_map (mk_map [] [] 0 0 0 0 0 0 0 0 0 0).

Fixpoint max_item (n : nat) (i md : Z) (l : list Z) : res Z :=
  match n with
  | O => Ok md
  | S n =>
      v <- zget l i;;
      max_item n (i + 1) (if md <=? v then v + 1 else md) l
  end.
Fixpoint finalize_loop (bs : list (option crush_bucket)) (md ws : Z) : res (Z * Z) :=
  match bs with
  | [] => Ok (md, ws)
  | None :: bs' => finalize_loop bs' md ws
  | Some b :: bs' =>
      md <- max_item (Z.to_nat (size b)) 0 md (items b);;
      finalize_loop bs' md (ws + sizeof_crush_work_bucket + size b * sizeof_u32)
  end.
Definition crush_finalize (map : crush_map) : res crush_map :=
  '(md, ws) <- finalize_loop (buckets map) 0 (sizeof_crush_work + max_buckets map * sizeof_pointer);;
  Ok (with_buckets map (buckets map) md ws).

(** The first free slot, or the length. *)
Fixpoint free_slot {A} (l : list (option A)) : nat :=
  match l with
  | [] => 0
  | None :: _ => 0
  | Some _ :: l' => S (free_slot l')
  end.
Definition crush_get_next_bucket_id (map : crush_map) : Z := -1 - Z.of_nat (free_slot (buckets map)).

(** [while (pos >= map->max_buckets)]: the array doubles, from 8 on. *)
Fixpoint grow_buckets (fuel : nat) (pos : Z) (bs : list (option crush_bucket))
    : res (list (option crush_bucket)) :=
  let n := Z.of_nat (length bs) in
  if n <=? pos then
    match fuel with
    | O => Err OutOfFuel
    | S fuel =>
        let n' := if n =? 0 then 8 else 2 * n in
        grow_buckets fuel pos (bs ++ replicate (Z.to_nat (n' - n)) None)
    end
  else Ok bs.
Definition crush_add_bucket (map : crush_map) (bid : Z) (b : crush_bucket) : res (Z * Z * crush_map) :=
  let bid := if bid =? 0 then crush_get_next_bucket_id map else bid in
  let pos := -1 - bid in
  bs <- grow_buckets 32 pos (buckets map);;
  p <- zget bs pos;;
  match p with
  | Some _ => Ok (- EEXIST, bid, with_buckets map bs (max_devices map) (working_size map))
  | None =>
      bs <- zset bs pos
              (Some (mk_bucket bid (type b) (hash b) (weight b) (size b) (items b) (data b)));;
      Ok (0, bid, with_buckets map bs (max_devices map) (working_size map))
  end.
Definition crush_remove_bucket (map : crush_map) (b : crush_bucket) : res crush_map :=
  let pos := -1 - id b in
  assert (pos <? max_buckets map);;;
  bs <- zset (buckets map) pos None;;
  Ok (with_buckets map bs (max_devices map) (working_size map)).

Definition crush_add_rule (map : crush_map) (rule : crush_rule) (ruleno : Z) : res (Z * crush_map) :=
  r <- (if ruleno <? 0 then
          let r := Z.of_nat (free_slot (rules map)) in
          assert (r <? CRUSH_MAX_RULES);;; Ok r
        else Ok ruleno);;
  if max_rules map <=? r then
    if CRUSH_MAX_RULES <? max_rules map + 1 then Ok (- ENOSPC, map)
    else
      rs <- zset (rules map ++ replicate (Z.to_nat (r + 1 - max_rules map)) None) r (Some rule);;
      Ok (r, with_rules map rs)
  else
    rs <- zset (rules map) r (Some rule);;
    Ok (r, with_rules map rs).
(** The steps are uninitialised until they are set; [init] is their content. *)
Definition crush_make_rule (init : crush_rule_step) (len rset ty minsize maxsize : Z) : crush_rule :=
  mk_rule (mk_mask (u8 rset) (u8 ty) (u8 minsize) (u8 maxsize)) (replicate (Z.to_nat len) init).
Definition crush_rule_set_step (rule : crush_rule) (n op arg1 arg2 : Z) : res crush_rule :=
  assert (u32 n <? Z.of_nat (length (steps rule)));;;
  ss <- zset (steps rule) n (mk_step op arg1 arg2);;
  Ok (mk_rule (mask rule) ss).

(** Every bucket is read as a straw2 bucket: list and straw buckets keep their
    weights at the same offset, uniform and tree buckets do not. *)
Definition straw2_view (b : crush_bucket) : res (list Z) :=
  match data b with
  | List iw _ | Straw iw _ | Straw2 iw => Ok iw
  | Uniform _ | Tree _ _ | OtherAlg _ => Err BadAccess
  end.
Fixpoint make_choose_args (bs : list (option crush_bucket)) (num_positions : Z)
    : res (list crush_choose_arg) :=
  match bs with
  | [] => Ok []
  | None :: bs' =>
      rest <- make_choose_args bs' num_positions;;
      Ok (mk_choose_arg None None :: rest)
  | Some b :: bs' =>
      iw <- straw2_view b;;
      rest <- make_choose_args bs' num_positions;;
      Ok (mk_choose_arg (Some (take (Z.to_nat (size b)) (items b)))
            (Some (replicate (Z.to_nat num_positions) (take (Z.to_nat (size b)) iw))) :: rest)
  end.
Definition crush_make_choose_args (map : crush_map) (num_positions : Z) : res (list crush_choose_arg) :=
  make_choose_args (buckets map) num_positions.
End Builder.
