(* ===== verification/CrushTreeBuild.v ===== *)
(** * CRUSH: how the builder keeps tree buckets (crush/builder.c)

    A tree bucket over leaf weights [ws] stores at node [2^h * (2k+1)] the sum of
    the leaves [k * 2^h .. (k+1) * 2^h - 1].  Setting a leaf and walking to the
    root with [parent] keeps that, so [crush_make_tree_bucket] builds the tree the
    descent of the mapper relies on. *)
From S2P Require Import Prelude CrushHash CrushMapper CrushChoose CrushBucket CrushBuilder.

Module TreeBuild.
Import Crush Choose Bucket Builder.

(** ** The guards *)

Lemma addition_unsafe_spec a b : 0 <= a < 2 ^ 32 → 0 <= b < 2 ^ 32 →
  crush_addition_is_unsafe a b = (2 ^ 32 <=? a + b).
Proof.
  intros Ha Hb. unfold crush_addition_is_unsafe. rewrite (u32_small a), (u32_small b) by lia.
  rewrite u32_small by lia. apply eq_bool_prop_intro. rewrite !Is_true_true, Z.ltb_lt, Z.leb_le. lia.
Qed.
Lemma addition_safe a b : 0 <= a → 0 <= b → a + b < 2 ^ 32 → crush_addition_is_unsafe a b = false.
Proof. intros. rewrite addition_unsafe_spec by lia. apply Z.leb_gt. lia. Qed.

(** ** Navigation *)

Lemma land_pow2_zero a m : 0 <= m → (Z.land a (2 ^ m) =? 0) = negb (Z.testbit a m).
Proof.
  intros Hm. destruct (Z.testbit a m) eqn:Eb.
  - apply Z.eqb_neq. intros H0. assert (Z.testbit (Z.land a (2 ^ m)) m = true) as H.
    { by rewrite Z.land_spec, Eb, Z.pow2_bits_true. }
    by rewrite H0, Z.bits_0 in H.
  - apply Z.eqb_eq. apply Z.bits_inj'. intros n Hn. rewrite Z.land_spec, Z.bits_0, Z.pow2_bits_eqb by done.
    destruct (Z.eqb_spec m n) as [->|]; [by rewrite Eb|apply andb_false_r].
Qed.

Lemma odd_of_nat k : Z.odd (Z.of_nat k) = Nat.odd k.
Proof.
  induction k as [|k IH]; [done|].
  by rewrite Nat2Z.inj_succ, Z.odd_succ, Nat.odd_succ, <- Z.negb_odd, <- Nat.negb_odd, IH.
Qed.
Lemma on_right_node h k : on_right (node h k) (Z.of_nat h) = Nat.odd k.
Proof.
  unfold on_right. rewrite Z.shiftl_1_l, land_pow2_zero, negb_involutive by lia.
  unfold node. rewrite Z.mul_comm, Z.mul_pow2_bits by lia.
  replace (Z.of_nat h + 1 - Z.of_nat h) with (Z.succ 0) by lia.
  rewrite Z.testbit_odd_succ, Z.bit0_odd by lia. apply odd_of_nat.
Qed.

Lemma parent_node h k : (h < 32)%nat → parent (node h k) = Ok (node (S h) (k / 2)).
Proof.
  intros Hh. unfold parent, height. rewrite height_from_ok by lia. cbn [bind].
  rewrite Z.add_0_l, on_right_node, Z.shiftl_1_l. pose proof (Nat.div_mod_eq k 2) as Hk.
  rewrite node_S. unfold node. rewrite <- Nat.negb_even.
  destruct (Nat.even k) eqn:Ek; cbn [negb]; f_equal.
  - apply Nat.even_spec in Ek as [m ->]. rewrite Nat.mul_comm, Nat.div_mul by lia. lia.
  - assert (Nat.odd k = true) as [m ->]%Nat.odd_spec by (by rewrite <- Nat.negb_even, Ek).
    replace ((2 * m + 1) / 2)%nat with m; [lia|]. apply (Nat.div_unique _ _ _ 1); lia.
Qed.

Lemma calc_depth_loop_ok fuel t a : 0 <= t < 2 ^ Z.of_nat fuel →
  ∃ n : nat, calc_depth_loop fuel t a = Ok (a + Z.of_nat n) ∧ t < 2 ^ Z.of_nat n ∧
    (n = O ∨ 2 ^ (Z.of_nat n - 1) <= t).
Proof.
  revert t a; induction fuel as [|fuel IH]; intros t a Ht; cbn [calc_depth_loop];
    destruct (Z.eqb_spec t 0) as [->|Ht0].
  1,3: exists 0%nat; split; [f_equal; lia|split; [simpl; lia|by left]].
  { simpl in Ht. lia. }
  assert (Z.shiftr t 1 = t / 2) as E by (by rewrite Z.shiftr_div_pow2).
  rewrite Nat2Z.inj_succ, Z.pow_succ_r in Ht by lia.
  pose proof (Z.div_mod t 2 ltac:(lia)). pose proof (Z.mod_pos_bound t 2 ltac:(lia)).
  destruct (IH (Z.shiftr t 1) (a + 1)) as (n & -> & Hn & Hn'); [rewrite E; lia|].
  exists (S n). split; [f_equal; lia|]. rewrite E in *. split.
  - rewrite Nat2Z.inj_succ, Z.pow_succ_r by lia. lia.
  - right. replace (Z.of_nat (S n) - 1) with (Z.of_nat n) by lia.
    destruct Hn' as [->|Hn']; [simpl; lia|].
    destruct n as [|n]; [simpl; lia|]. rewrite Nat2Z.inj_succ, Z.pow_succ_r by lia.
    replace (Z.of_nat (S n) - 1) with (Z.of_nat n) in Hn' by lia. lia.
Qed.

Lemma calc_depth_ok s : 0 < s < 2 ^ 32 →
  ∃ d : nat, calc_depth s = Ok (Z.of_nat d) ∧ (1 <= d)%nat ∧ s <= 2 ^ Z.of_nat (d - 1) ∧
    (d = 1%nat ∨ 2 ^ Z.of_nat (d - 2) < s).
Proof.
  intros Hs. unfold calc_depth. rewrite (proj2 (Z.eqb_neq _ _)) by lia.
  destruct (calc_depth_loop_ok 32 (s - 1) 1) as (n & -> & Hn & Hn'); [change (Z.of_nat 32) with 32; lia|].
  exists (S n). split; [f_equal; lia|]. split; [lia|].
  replace (S n - 1)%nat with n by lia. split; [lia|].
  destruct n as [|n]; [by left|]. right. destruct Hn' as [|Hn']; [done|].
  replace (S (S n) - 2)%nat with n by lia.
  replace (Z.of_nat (S n) - 1) with (Z.of_nat n) in Hn' by lia. lia.
Qed.

(** ** The sums of a tree *)

(** The weight below node [(h, k)]. *)
Definition seg (h k : nat) (ws : list Z) : Z := zsum (take (2 ^ h) (drop (k * 2 ^ h) ws)).

(** [nw] is the array of a tree of depth [d] over the leaf weights [ws]. *)
Definition tree_of (d : nat) (ws nw : list Z) : Prop :=
  length nw = (2 ^ d)%nat ∧ (length ws <= 2 ^ (d - 1))%nat ∧
  ∀ h k, (h < d)%nat → (k < 2 ^ (d - S h))%nat → nw !! Z.to_nat (node h k) = Some (seg h k ws).

Lemma seg_split h k ws : seg (S h) k ws = seg h (2 * k) ws + seg h (2 * k + 1) ws.
Proof.
  unfold seg. replace (2 ^ S h)%nat with (2 ^ h + 2 ^ h)%nat by (simpl; lia).
  rewrite <- take_take_drop, zsum_app, drop_drop. f_equal; do 3 f_equal; lia.
Qed.
Lemma zsum_take_le n ws : Forall (λ w, 0 <= w) ws → 0 <= zsum (take n ws) <= zsum ws.
Proof.
  intros Hw. pose proof (zsum_nonneg _ (Forall_take _ n _ Hw)).
  pose proof (zsum_nonneg _ (Forall_drop _ n _ Hw)).
  rewrite <- (take_drop n ws) at 3. rewrite zsum_app. lia.
Qed.
Lemma zsum_drop_le n ws : Forall (λ w, 0 <= w) ws → zsum (drop n ws) <= zsum ws.
Proof.
  intros Hw. pose proof (zsum_nonneg _ (Forall_take _ n _ Hw)).
  rewrite <- (take_drop n ws) at 2. rewrite zsum_app. lia.
Qed.
Lemma seg_bounds h k ws : Forall (λ w, 0 <= w) ws → 0 <= seg h k ws <= zsum ws.
Proof.
  intros Hw. unfold seg. pose proof (zsum_drop_le (k * 2 ^ h) ws Hw).
  pose proof (zsum_take_le (2 ^ h) _ (Forall_drop _ (k * 2 ^ h) _ Hw)). lia.
Qed.
Lemma zsum_insert ws i w w' : ws !! i = Some w → zsum (<[i := w']> ws) = zsum ws + (w' - w).
Proof.
  intros Hi. rewrite (insert_take_drop _ _ _ (lookup_lt_Some _ _ _ Hi)).
  rewrite <- (take_drop_middle _ _ _ Hi) at 3. rewrite !zsum_app. simpl. lia.
Qed.

(** Changing leaf [i] changes exactly the sums on its path to the root. *)
Lemma seg_insert h k ws i w w' : ws !! i = Some w →
  seg h k (<[i := w']> ws) = seg h k ws + (if (i / 2 ^ h =? k)%nat then w' - w else 0).
Proof.
  intros Hi. pose proof (lookup_lt_Some _ _ _ Hi) as Hlt. unfold seg.
  assert (2 ^ h <> 0)%nat as H2 by (apply Nat.pow_nonzero; lia).
  pose proof (Nat.div_mod_eq i (2 ^ h)) as Hdm. pose proof (Nat.mod_upper_bound i (2 ^ h) H2) as Hm.
  destruct (Nat.eqb_spec (i / 2 ^ h) k) as [<-|Hne].
  - rewrite drop_insert_ge by nia. rewrite take_insert_lt by nia.
    rewrite zsum_insert with (w := w); [done|].
    rewrite lookup_take_lt by nia. rewrite lookup_drop. rewrite <- Hi. f_equal. nia.
  - rewrite Z.add_0_r. destruct (decide (i / 2 ^ h < k)%nat).
    + by rewrite drop_insert_lt by nia.
    + rewrite drop_insert_ge by nia. by rewrite take_insert_ge by nia.
Qed.

Lemma node_inj h k h' k' : node h k = node h' k' → h = h' ∧ k = k'.
Proof.
  revert h'. induction h as [|h IH]; intros [|h'] E.
  - unfold node in E. simpl in E. lia.
  - pose proof (node_parity 0 k) as P. rewrite E, node_parity in P. lia.
  - pose proof (node_parity (S h) k) as P. rewrite E, node_parity in P. lia.
  - rewrite !node_S in E. destruct (IH h'); lia.
Qed.
Lemma node_nat_inj h k h' k' : Z.to_nat (node h k) = Z.to_nat (node h' k') → h = h' ∧ k = k'.
Proof.
  pose proof (node_pos h k). pose proof (node_pos h' k'). intros. apply node_inj. lia.
Qed.
Lemma div_pow_S i h : (i / 2 ^ h / 2 = i / 2 ^ S h)%nat.
Proof. rewrite Nat.Div0.div_div. f_equal. simpl. lia. Qed.
Lemma div_pow_bound i d h : (i < 2 ^ (d - 1))%nat → (h < d)%nat → (i / 2 ^ h < 2 ^ (d - S h))%nat.
Proof.
  intros Hi Hh. apply Nat.Div0.div_lt_upper_bound. rewrite <- Nat.pow_add_r.
  replace (h + (d - S h))%nat with (d - 1)%nat by lia. done.
Qed.

(** The nodes up to height [h] hold the sums over [ws'], those above over [ws]. *)
Definition climbing (d h : nat) (ws ws' nw : list Z) : Prop :=
  length nw = (2 ^ d)%nat ∧
  ∀ h' k', (h' < d)%nat → (k' < 2 ^ (d - S h'))%nat →
    nw !! Z.to_nat (node h' k') = Some (seg h' k' (if (h <? h')%nat then ws else ws')).

Section Climb.
Context (d i : nat) (ws : list Z) (w w' : Z).
Context (Hd : (d < 32)%nat) (Hi : ws !! i = Some w) (Hlen : (length ws <= 2 ^ (d - 1))%nat).
#[local] Abbreviation ws' := (<[i := w']> ws).

Lemma climb_bound : (i < 2 ^ (d - 1))%nat.
Proof. pose proof (lookup_lt_Some _ _ _ Hi). lia. Qed.

Lemma climb_step h nw :
  climbing d h ws ws' nw → (S h < d)%nat →
  ∃ v, parent (node h (i / 2 ^ h)) = Ok (node (S h) (i / 2 ^ S h)) ∧
    zget nw (node (S h) (i / 2 ^ S h)) = Ok v ∧ v = seg (S h) (i / 2 ^ S h) ws ∧
    v + (w' - w) = seg (S h) (i / 2 ^ S h) ws' ∧
    ∃ nw', zset nw (node (S h) (i / 2 ^ S h)) (v + (w' - w)) = Ok nw' ∧ climbing d (S h) ws ws' nw'.
Proof.
  intros [Hl Hnodes] Hh. set (k := (i / 2 ^ S h)%nat).
  assert (k < 2 ^ (d - S (S h)))%nat as Hk by (apply div_pow_bound; [apply climb_bound|lia]).
  pose proof (node_pos (S h) k). pose proof (Hnodes (S h) k ltac:(lia) Hk) as Hv.
  rewrite (proj2 (Nat.ltb_lt h (S h))) in Hv by lia.
  exists (seg (S h) k ws). split; [rewrite parent_node, div_pow_S by lia; done|].
  split; [apply zget_ok; auto with lia|]. split; [done|].
  assert (seg (S h) k ws + (w' - w) = seg (S h) k ws') as Hs.
  { rewrite (seg_insert _ _ _ _ w) by done. unfold k. by rewrite Nat.eqb_refl. }
  split; [done|]. pose proof (lookup_lt_Some _ _ _ Hv).
  rewrite zset_ok by lia. eexists. split; [done|]. split; [by rewrite length_insert|].
  intros h' k' Hh' Hk'. destruct (decide (node h' k' = node (S h) k)) as [E|E].
  - apply node_inj in E as [-> ->]. rewrite list_lookup_insert_eq by done.
    by rewrite Nat.ltb_irrefl, Hs.
  - rewrite list_lookup_insert_ne by (pose proof (node_pos h' k'); lia).
    rewrite Hnodes by done. f_equal. destruct (Nat.ltb_spec h h'), (Nat.ltb_spec (S h) h'); try lia; try done.
    assert (h' = S h) as -> by lia. rewrite (seg_insert _ _ _ _ w) by done.
    rewrite (proj2 (Nat.eqb_neq _ _)); [lia|]. intros <-. done.
Qed.

Lemma climbing_top nw : climbing d (d - 1) ws ws' nw → tree_of d ws' nw.
Proof.
  intros [Hl Hn]. split; [done|]. split; [by rewrite length_insert|]. intros h k Hh Hk.
  rewrite Hn by done. by rewrite (proj2 (Nat.ltb_ge _ _)) by lia.
Qed.

Lemma adjust_ancestors_ok n h nw :
  climbing d h ws ws' nw → (h + n = d - 1)%nat → (h < d)%nat →
  Forall (λ v, 0 <= v) ws' → zsum ws' < 2 ^ 32 →
  ∃ nw', adjust_ancestors n (node h (i / 2 ^ h)) (w' - w) nw = Ok nw' ∧ tree_of d ws' nw'.
Proof.
  intros Hc Hn Hh Hnn Hmax. revert h nw Hc Hn Hh. induction n as [|n IH]; intros h nw Hc Hn Hh.
  { exists nw. split; [done|]. apply climbing_top. by replace (d - 1)%nat with h by lia. }
  destruct (climb_step h nw Hc ltac:(lia)) as (v & Ep & Ev & _ & Es & nw' & Ez & Hc').
  cbn [adjust_ancestors]. rewrite Ep. cbn [bind]. rewrite Ev. cbn [bind].
  pose proof (seg_bounds (S h) (i / 2 ^ S h) ws' Hnn). rewrite u32_small by lia.
  rewrite Ez. cbn [bind]. apply IH; auto; lia.
Qed.

Lemma add_ancestors_ok n h nw :
  w = 0 → climbing d h ws ws' nw → (h + n = d - 1)%nat → (h < d)%nat →
  Forall (λ v, 0 <= v) ws' → 0 <= w' → zsum ws' < 2 ^ 32 →
  ∃ nw', add_ancestors n (node h (i / 2 ^ h)) w' nw = Ok (nw', false) ∧ tree_of d ws' nw'.
Proof.
  intros H0 Hc Hn Hh Hnn Hw Hmax. revert h nw Hc Hn Hh. induction n as [|n IH]; intros h nw Hc Hn Hh.
  { exists nw. split; [done|]. apply climbing_top. by replace (d - 1)%nat with h by lia. }
  destruct (climb_step h nw Hc ltac:(lia)) as (v & Ep & Ev & Eseg & Es & nw' & Ez & Hc').
  cbn [add_ancestors]. rewrite Ep. cbn [bind]. rewrite Ev. cbn [bind].
  pose proof (seg_bounds (S h) (i / 2 ^ S h) ws' Hnn). rewrite H0, Z.sub_0_r in *.
  assert (0 <= v).
  { rewrite Eseg. apply seg_bounds. apply Forall_lookup. intros j u Ej.
    destruct (decide (j = i)) as [->|]; [rewrite Hi in Ej; simplify_eq; lia|].
    rewrite Forall_lookup in Hnn. apply (Hnn j). by rewrite list_lookup_insert_ne by done. }
  rewrite addition_safe, u32_small by lia. rewrite Ez. cbn [bind]. apply IH; auto; lia.
Qed.
End Climb.

Lemma climbing_start d ws i w w' nw :
  tree_of d ws nw → ws !! i = Some w → (1 <= d)%nat →
  ∃ nw', zset nw (crush_calc_tree_node (Z.of_nat i)) w' = Ok nw' ∧
    crush_calc_tree_node (Z.of_nat i) = node 0 (i / 2 ^ 0) ∧
    climbing d 0 ws (<[i := w']> ws) nw'.
Proof.
  intros (Hl & Hlen & Hn) Hi Hd. pose proof (lookup_lt_Some _ _ _ Hi).
  assert (crush_calc_tree_node (Z.of_nat i) = node 0 i) as E.
  { unfold crush_calc_tree_node, node. rewrite Z.shiftl_mul_pow2 by lia. simpl. lia. }
  rewrite Nat.pow_0_r, Nat.div_1_r, E.
  assert (i < 2 ^ (d - 1))%nat as Hb by lia.
  pose proof (Hn 0%nat i ltac:(lia) Hb) as Hv. pose proof (lookup_lt_Some _ _ _ Hv).
  pose proof (node_pos 0 i). rewrite zset_ok by lia. eexists. split; [done|]. split; [done|].
  split; [by rewrite length_insert|]. intros h' k' Hh' Hk'.
  destruct (decide (node h' k' = node 0 i)) as [E'|E'].
  - apply node_inj in E' as [-> ->]. rewrite list_lookup_insert_eq by done. cbn [Nat.ltb Nat.leb].
    f_equal. rewrite (seg_insert _ _ _ _ w) by done. rewrite Nat.pow_0_r, Nat.div_1_r, Nat.eqb_refl.
    unfold seg. rewrite Nat.pow_0_r, Nat.mul_1_r, (drop_S _ _ _ Hi). simpl. lia.
  - rewrite list_lookup_insert_ne by (pose proof (node_pos h' k'); lia). rewrite Hn by done. f_equal.
    destruct (Nat.ltb_spec 0 h'); [done|]. assert (h' = 0%nat) as -> by lia.
    rewrite (seg_insert _ _ _ _ w) by done. rewrite Nat.pow_0_r, Nat.div_1_r.
    rewrite (proj2 (Nat.eqb_neq _ _)); [lia|]. intros ->. done.
Qed.

Lemma tree_leaf d ws nw i w :
  tree_of d ws nw → (1 <= d)%nat → ws !! i = Some w →
  zget nw (crush_calc_tree_node (Z.of_nat i)) = Ok w.
Proof.
  intros (_ & Hlen & Hn) Hd E. pose proof (lookup_lt_Some _ _ _ E).
  assert (crush_calc_tree_node (Z.of_nat i) = node 0 i) as ->.
  { unfold crush_calc_tree_node, node. rewrite Z.shiftl_mul_pow2 by lia. simpl. lia. }
  apply zget_ok. pose proof (node_pos 0 i). split; [lia|]. rewrite Hn by lia. f_equal.
  unfold seg. rewrite Nat.pow_0_r, Nat.mul_1_r, (drop_S _ _ _ E). simpl. lia.
Qed.

(** ** Making a tree *)

Lemma zsum_zeros n : zsum (replicate n 0) = 0.
Proof. induction n; simpl; lia. Qed.
Lemma tree_of_zeros d n : (n <= 2 ^ (d - 1))%nat → tree_of d (replicate n 0) (replicate (2 ^ d) 0).
Proof.
  intros Hn. split; [by rewrite length_replicate|]. split; [by rewrite length_replicate|].
  intros h k Hh Hk. pose proof (node_bound d h k Hk Hh). pose proof (node_pos h k).
  rewrite lookup_replicate_2.
  - unfold seg. by rewrite drop_replicate, take_replicate, zsum_zeros.
  - apply Nat2Z.inj_lt. rewrite Nat2Z.inj_pow. change (Z.of_nat 2) with 2. lia.
Qed.

Lemma fill_next {A} (l : list A) i n (a z : A) : l !! i = Some a →
  <[i := a]> (take i l ++ replicate (S n) z) = take (S i) l ++ replicate n z.
Proof.
  intros Hi. pose proof (lookup_lt_Some _ _ _ Hi).
  rewrite insert_app_r_alt by (rewrite length_take; lia). rewrite length_take_le by lia.
  rewrite Nat.sub_diag. simpl. by rewrite (take_S_r _ _ _ Hi), <- app_assoc.
Qed.

Section Make.
Context (d : nat) (its ws : list Z).
Context (Hd : (1 <= d < 32)%nat) (Hlen : length its = length ws) (Hfit : (length ws <= 2 ^ (d - 1))%nat).
Context (Hnn : Forall (λ w, 0 <= w) ws) (Hmax : zsum ws < 2 ^ 32).

Lemma partial_nonneg i n : Forall (λ w, 0 <= w) (take i ws ++ replicate n 0).
Proof. apply Forall_app. split; [by apply Forall_take|]. apply Forall_replicate. lia. Qed.

Lemma make_tree_loop_ok n i arr nw :
  (i + n = length ws)%nat → length arr = length ws → take i arr = take i its →
  tree_of d (take i ws ++ replicate n 0) nw →
  ∃ nw', make_tree_loop n (Z.of_nat i) (Z.of_nat d) (zsum (take i ws)) its ws arr nw
      = Ok (Some (zsum ws, its, nw')) ∧ tree_of d ws nw'.
Proof.
  revert i arr nw. induction n as [|n IH]; intros i arr nw Hn Harr Htake Ht; cbn [make_tree_loop].
  { rewrite !take_ge in * by lia. rewrite app_nil_r in Ht. subst arr. eauto. }
  destruct (lookup_lt_is_Some_2 its i) as [item Eit]; [lia|].
  destruct (lookup_lt_is_Some_2 ws i) as [w Ew]; [lia|].
  rewrite (zget_nat _ _ _ Eit), (zget_nat _ _ _ Ew). cbn [bind]. rewrite zset_ok by lia. cbn [bind].
  assert (0 <= w) by (rewrite Forall_lookup in Hnn; eauto).
  pose proof (zsum_take_le (S i) ws Hnn) as Hle. rewrite (take_S_r _ _ _ Ew), zsum_app in Hle. cbn in Hle.
  pose proof (zsum_take_le i ws Hnn).
  assert ((take i ws ++ replicate (S n) 0) !! i = Some 0) as Hz.
  { rewrite lookup_app_r by (rewrite length_take; lia). rewrite length_take_le by lia.
    by rewrite Nat.sub_diag. }
  rewrite u32_small by lia.
  destruct (climbing_start d _ i 0 w nw Ht Hz) as (nw1 & Ez & En & Hc); [lia|].
  rewrite Ez. cbn [bind]. rewrite addition_safe by lia. rewrite En.
  pose proof (fill_next ws i n w 0 Ew) as Hf.
  assert (zsum (take (S i) ws ++ replicate n 0) < 2 ^ 32) as Hs.
  { rewrite zsum_app, zsum_zeros. pose proof (zsum_take_le (S i) ws Hnn). lia. }
  destruct (add_ancestors_ok d i (take i ws ++ replicate (S n) 0) 0 w ltac:(lia) Hz
    ltac:(rewrite length_app, length_take, length_replicate; lia) (d - 1) 0 nw1)
    as (nw2 & E2 & Ht2); auto; try lia; [rewrite Hf; apply partial_nonneg|by rewrite Hf|].
  replace (Z.to_nat (Z.of_nat d - 1)) with (d - 1)%nat by lia. rewrite E2. cbn [bind].
  rewrite u32_small by lia. rewrite Hf in Ht2. replace (Z.of_nat i + 1) with (Z.of_nat (S i)) by lia.
  replace (zsum (take i ws) + w) with (zsum (take (S i) ws))
    by (rewrite (take_S_r _ _ _ Ew), zsum_app; cbn; lia).
  rewrite Nat2Z.id. apply IH; auto; [lia|by rewrite length_insert|].
  rewrite (take_S_r _ _ item) by (apply list_lookup_insert_eq; lia).
  by rewrite (take_S_r _ _ _ Eit), take_insert_ge, Htake by lia.
Qed.
End Make.

Lemma node_range d h k : node h k < 2 ^ Z.of_nat d → (h < d)%nat ∧ (k < 2 ^ (d - S h))%nat.
Proof.
  unfold node. intros H. assert (h < d)%nat as Hh.
  { apply Nat2Z.inj_lt, (Z.pow_lt_mono_r_iff 2); [lia..|].
    pose proof (Z.pow_pos_nonneg 2 (Z.of_nat h)). nia. }
  split; [done|]. replace (Z.of_nat d) with (Z.of_nat h + Z.of_nat (S (d - S h))) in H by lia.
  rewrite Z.pow_add_r in H by lia. apply Z.mul_lt_mono_pos_l in H; [|apply Z.pow_pos_nonneg; lia].
  rewrite Nat2Z.inj_succ, Z.pow_succ_r in H by lia.
  apply Nat2Z.inj_lt. rewrite Nat2Z.inj_pow. change (Z.of_nat 2) with 2. lia.
Qed.

Lemma seg_all d ws : (length ws <= 2 ^ (d - 1))%nat → seg (d - 1) 0 ws = zsum ws.
Proof. intros H. unfold seg. rewrite Nat.mul_0_l, drop_0, take_ge; auto. Qed.

(** The array of a tree supports the descent of the mapper. *)
Lemma tree_of_wf b d ws nw :
  tree_of d ws nw → (1 <= d < 8)%nat → 0 < size b → Z.of_nat (length (items b)) = size b →
  Z.of_nat (length ws) = size b → Forall (λ w, 0 <= w) ws → zsum ws < 2 ^ 32 →
  tree_wf b (2 ^ Z.of_nat d) nw d ∧ nw !! Z.to_nat (Z.shiftr (2 ^ Z.of_nat d) 1) = Some (zsum ws).
Proof.
  intros (Hl & Hlen & Hn) Hd Hsz Hit Hws Hnn Hmax.
  assert (Z.of_nat (length nw) = 2 ^ Z.of_nat d) as Hl'
    by (rewrite Hl, Nat2Z.inj_pow; done).
  assert (∀ h k w, nw !! Z.to_nat (node h k) = Some w → w = seg h k ws) as Hval.
  { intros h k w E. pose proof (lookup_lt_Some _ _ _ E). pose proof (node_pos h k).
    destruct (node_range d h k) as [? ?]; [lia|]. rewrite Hn in E by done. congruence. }
  split; [split; try done|].
  - intros h k w ->%Hval. pose proof (seg_bounds h k ws Hnn). lia.
  - intros h k w wl wr ->%Hval ->%Hval ->%Hval. apply seg_split.
  - intros i w E Hi. assert (Z.to_nat (node 0 i) = (2 * i + 1)%nat) as En by (unfold node; simpl; lia).
    rewrite <- En in E. apply Hval in E as ->. unfold seg.
    rewrite Nat.pow_0_r, Nat.mul_1_r, drop_ge by lia. done.
  - replace (Z.shiftr (2 ^ Z.of_nat d) 1) with (node (d - 1) 0).
    { rewrite Hn, seg_all; [done|done|lia|]. replace (d - S (d - 1))%nat with 0%nat by lia. simpl. lia. }
    unfold node. replace (Z.of_nat d) with (1 + Z.of_nat (d - 1)) by lia.
    rewrite Z.pow_add_r by lia. change (2 ^ 1) with 2. rewrite shiftr_double. lia.
Qed.

Lemma shiftl_depth d : (d < 8)%nat → u8 (Z.shiftl 1 (Z.of_nat d)) = 2 ^ Z.of_nat d.
Proof.
  intros Hd. rewrite Z.shiftl_1_l. apply u8_small. pose proof (Z.pow_pos_nonneg 2 (Z.of_nat d)).
  pose proof (Z.pow_lt_mono_r 2 (Z.of_nat d) 8). lia.
Qed.

Lemma make_tree_ok hash type size its ws :
  0 < size <= 64 → Z.of_nat (length its) = size → Z.of_nat (length ws) = size →
  Forall (λ w, 0 <= w) ws → zsum ws < 2 ^ 32 →
  ∃ nn nw d, crush_make_tree_bucket hash type size its ws =
      Ok (Some (mk_bucket 0 (u16 type) (u8 hash) (zsum ws) size its (Tree nn nw))) ∧
    tree_of d ws nw ∧ nn = 2 ^ Z.of_nat d ∧ (1 <= d < 8)%nat ∧ calc_depth size = Ok (Z.of_nat d).
Proof.
  intros Hsz Hit Hws Hnn Hmax. unfold crush_make_tree_bucket.
  rewrite (proj2 (Z.eqb_neq _ _)) by lia.
  destruct (calc_depth_ok size) as (d & Ed & Hd1 & Hfit & Htight); [lia|]. rewrite Ed. cbn [bind].
  assert (d < 8)%nat as Hd.
  { destruct Htight as [->|Ht]; [lia|]. apply Nat.nle_gt. intros H8.
    pose proof (Z.pow_le_mono_r 2 6 (Z.of_nat (d - 2))). lia. }
  rewrite shiftl_depth by done.
  assert (length ws <= 2 ^ (d - 1))%nat as Hfit'.
  { apply Nat2Z.inj_le. rewrite Nat2Z.inj_pow. change (Z.of_nat 2) with 2. lia. }
  assert (Z.to_nat (2 ^ Z.of_nat d) = (2 ^ d)%nat) as E2
    by (change 2 with (Z.of_nat 2); rewrite <- Nat2Z.inj_pow; apply Nat2Z.id).
  rewrite E2. replace (Z.to_nat size) with (length ws) by lia.
  destruct (make_tree_loop_ok d its ws ltac:(lia) ltac:(lia) Hfit' Hnn Hmax (length ws) 0
    (replicate (length ws) 0) (replicate (2 ^ d) 0)) as (nw & E & Ht);
    [done|by rewrite length_replicate|done|by apply tree_of_zeros|].
  change (Z.of_nat 0) with 0 in E. change (zsum (take 0 ws)) with 0 in E. rewrite E. cbn [bind].
  set (b := mk_bucket 0 (u16 type) (u8 hash) (zsum ws) size its (Tree 0 [])).
  destruct (tree_of_wf b d ws nw) as [_ Hroot]; auto; [simpl; lia|].
  rewrite <- Z.div2_spec, Z.div2_div in Hroot.
  rewrite (proj2 (zget_ok _ _ (zsum ws))) by (split; [apply Z.div_pos; lia|done]).
  cbn [bind]. rewrite Z.eqb_refl. cbn [assert bind].
  rewrite u32_small by lia. eauto 10.
Qed.
End TreeBuild.
