(* ===== verification/CrushBuilt.v ===== *)
(** * CRUSH: the builder keeps buckets and maps well formed (crush/builder.c)

    [built] is what the builder maintains of a bucket: array lengths, the total
    weight and, for lists and trees, the partial sums.  Making, adding, adjusting
    and removing items keep it; together with the operations on the map they
    establish the well-formedness the mapper's theorems start from. *)
From S2P Require Import Prelude CrushHash CrushMapper CrushChoose CrushBucket CrushFirstn CrushBuilder CrushTreeBuild.

Module Built.
Import Crush Choose Bucket Builder TreeBuild.

(** ** Arrays *)

Lemma realloc_length junk l n : length (realloc junk l n) = Z.to_nat n.
Proof. unfold realloc. rewrite length_app, length_take, length_fmap, length_seq. lia. Qed.
Lemma realloc_snoc junk l n : n = Z.of_nat (length l) + 1 → realloc junk l n = l ++ [junk (length l)].
Proof.
  intros ->. unfold realloc. rewrite take_ge by lia.
  replace (Z.to_nat (Z.of_nat (length l) + 1) - length l)%nat with 1%nat by lia. done.
Qed.
Lemma realloc_shrink junk l n : 0 <= n <= Z.of_nat (length l) → realloc junk l n = take (Z.to_nat n) l.
Proof.
  intros Hn. unfold realloc. replace (Z.to_nat n - length l)%nat with 0%nat by lia. by rewrite app_nil_r.
Qed.
Lemma set_last (l : list Z) (a z : Z) n : n = Z.of_nat (length l) → zset (l ++ [z]) n a = Ok (l ++ [a]).
Proof.
  intros ->. rewrite zset_ok by (rewrite length_app; simpl; lia).
  rewrite Nat2Z.id. f_equal. by rewrite insert_app_r_alt, Nat.sub_diag by lia.
Qed.

(** ** What the builder maintains *)

Definition weights_ok (b : crush_bucket) (iw : list Z) : Prop :=
  Z.of_nat (length iw) = size b ∧ Forall (λ w, 0 <= w) iw ∧ zsum iw = weight b.
Definition sums_ok (iw sw : list Z) : Prop :=
  length sw = length iw ∧ ∀ i s, sw !! i = Some s → s = zsum (take (S i) iw).
Definition built (b : crush_bucket) : Prop :=
  Z.of_nat (length (items b)) = size b ∧ 0 <= weight b < 2 ^ 32 ∧
  match data b with
  | Uniform w => 0 <= w < 2 ^ 32 ∧ weight b = size b * w
  | List iw sw => weights_ok b iw ∧ sums_ok iw sw
  | Tree nn nw => size b = 0 ∨
      ∃ d ws, weights_ok b ws ∧ tree_of d ws nw ∧ nn = 2 ^ Z.of_nat d ∧ (1 <= d < 8)%nat ∧
        calc_depth (size b) = Ok (Z.of_nat d)
  | Straw iw straws => weights_ok b iw ∧ length straws = length iw
  | Straw2 iw => weights_ok b iw
  | OtherAlg _ => False
  end.

(** A built bucket supports every choose method. *)
Lemma built_wf b :
  built b → size b < 0xffff → (∀ nn nw, data b = Tree nn nw → 0 < size b → 0 < weight b) → wf_bucket b.
Proof.
  intros (Hit & Hw & Hd) Hsz Htree. split; [lia|]. split; [done|]. intros Hpos. unfold wf_data.
  destruct (data b) as [w|iw sw|nn nw|iw st|iw|a]; try done.
  - destruct Hd as ((Hl & Hnn & Hs) & Hls & Hsum). repeat split; auto; lia.
  - destruct Hd as [?|(d & ws & (Hl & Hnn & Hs) & Ht & -> & Hd & _)]; [lia|].
    destruct (tree_of_wf b d ws nw) as [Hwf Hr]; auto; [lia|].
    exists d, (zsum ws). rewrite Hs in *. eauto.
  - destruct Hd as ((Hl & _) & Hls). lia.
  - destruct Hd as (Hl & Hnn & Hs). by repeat split.
Qed.

(** ** Making buckets *)

Section Ops.
Context (junk : nat → Z) (realloc0_null : bool) (pow : double → double → double).

Lemma copy_weights_ok n i its ws arr iw :
  (i + n = length ws)%nat → length its = length ws →
  length arr = length ws → length iw = length ws → take i arr = take i its → take i iw = take i ws →
  Forall (λ w, 0 <= w) ws → zsum ws < 2 ^ 32 →
  copy_weights n (Z.of_nat i) (zsum (take i ws)) its ws arr iw = Ok (zsum ws, its, ws).
Proof.
  intros Hn Hits Harr Hiw Ha Hi Hnn Hmax. revert i arr iw Hn Harr Hiw Ha Hi.
  induction n as [|n IH]; intros i arr iw Hn Harr Hiw Ha Hi; cbn [copy_weights].
  { rewrite !take_ge in * by lia. by subst. }
  destruct (lookup_lt_is_Some_2 its i) as [item Eit]; [lia|].
  destruct (lookup_lt_is_Some_2 ws i) as [w Ew]; [lia|].
  assert (0 <= w) by (rewrite Forall_lookup in Hnn; eauto).
  pose proof (zsum_take_le (S i) ws Hnn) as Hle. rewrite (take_S_r _ _ _ Ew), zsum_app in Hle. cbn in Hle.
  pose proof (zsum_take_le i ws Hnn).
  rewrite (zget_nat _ _ _ Eit), (zget_nat _ _ _ Ew). cbn [bind]. rewrite !zset_ok by lia. cbn [bind].
  rewrite !u32_small by lia. rewrite Nat2Z.id.
  replace (Z.of_nat i + 1) with (Z.of_nat (S i)) by lia.
  replace (zsum (take i ws) + w) with (zsum (take (S i) ws))
    by (rewrite (take_S_r _ _ _ Ew), zsum_app; cbn; lia).
  apply IH; [lia|by rewrite length_insert..| |].
  - rewrite (take_S_r _ _ item) by (apply list_lookup_insert_eq; lia).
    by rewrite (take_S_r _ _ _ Eit), take_insert_ge, Ha by lia.
  - rewrite (take_S_r _ _ w) by (apply list_lookup_insert_eq; lia).
    by rewrite (take_S_r _ _ _ Ew), take_insert_ge, Hi by lia.
Qed.

Lemma make_straw2_ok hash type size its ws :
  0 <= size < 2 ^ 32 → Z.of_nat (length its) = size → Z.of_nat (length ws) = size →
  Forall (λ w, 0 <= w) ws → zsum ws < 2 ^ 32 →
  crush_make_straw2_bucket junk hash type size its ws =
    Ok (Some (mk_bucket 0 (u16 type) (u8 hash) (zsum ws) size its (Straw2 ws))).
Proof.
  intros Hsz Hit Hws Hnn Hmax. unfold crush_make_straw2_bucket, malloc.
  pose proof (copy_weights_ok (Z.to_nat size) 0 its ws (realloc junk [] size) (realloc junk [] size)) as E.
  change (Z.of_nat 0) with 0 in E. change (zsum (take 0 ws)) with 0 in E.
  rewrite E; try (rewrite ?realloc_length; lia); try done. cbn [bind]. by rewrite u32_small by lia.
Qed.

Lemma make_list_loop_ok n i its ws arr iw sw :
  (i + n = length ws)%nat → length its = length ws →
  length arr = length ws → length iw = length ws → length sw = length ws →
  take i arr = take i its → take i iw = take i ws →
  (∀ j s, (j < i)%nat → sw !! j = Some s → s = zsum (take (S j) ws)) →
  Forall (λ w, 0 <= w) ws → zsum ws < 2 ^ 31 →
  ∃ sw', make_list_loop n (Z.of_nat i) (zsum (take i ws)) its ws arr iw sw
      = Ok (Some (zsum ws, its, ws, sw')) ∧ sums_ok ws sw'.
Proof.
  intros Hn Hits Harr Hiw Hsw Ha Hi Hs Hnn Hmax. revert i arr iw sw Hn Harr Hiw Hsw Ha Hi Hs.
  induction n as [|n IH]; intros i arr iw sw Hn Harr Hiw Hsw Ha Hi Hs; cbn [make_list_loop].
  { rewrite !take_ge in * by lia. subst. exists sw. split; [done|]. split; [done|].
    intros j s Ej. apply Hs; [|done]. apply lookup_lt_Some in Ej. lia. }
  destruct (lookup_lt_is_Some_2 its i) as [item Eit]; [lia|].
  destruct (lookup_lt_is_Some_2 ws i) as [w Ew]; [lia|].
  assert (0 <= w) by (rewrite Forall_lookup in Hnn; eauto).
  pose proof (zsum_take_le (S i) ws Hnn) as Hle. rewrite (take_S_r _ _ _ Ew), zsum_app in Hle. cbn in Hle.
  pose proof (zsum_take_le i ws Hnn).
  rewrite (zget_nat _ _ _ Eit), (zget_nat _ _ _ Ew). cbn [bind]. rewrite !zset_ok by lia. cbn [bind].
  rewrite addition_safe, s32_small by lia. cbn [bind].
  rewrite !u32_small by lia. rewrite Nat2Z.id.
  replace (Z.of_nat i + 1) with (Z.of_nat (S i)) by lia.
  replace (zsum (take i ws) + w) with (zsum (take (S i) ws))
    by (rewrite (take_S_r _ _ _ Ew), zsum_app; cbn; lia).
  apply IH; [lia|by rewrite length_insert..| | |].
  - rewrite (take_S_r _ _ item) by (apply list_lookup_insert_eq; lia).
    by rewrite (take_S_r _ _ _ Eit), take_insert_ge, Ha by lia.
  - rewrite (take_S_r _ _ w) by (apply list_lookup_insert_eq; lia).
    by rewrite (take_S_r _ _ _ Ew), take_insert_ge, Hi by lia.
  - intros j s Hj Ej. destruct (decide (j = i)) as [->|].
    + rewrite list_lookup_insert_eq in Ej by lia. congruence.
    + rewrite list_lookup_insert_ne in Ej by done. apply Hs; [lia|done].
Qed.

Lemma make_list_ok hash type size its ws :
  0 <= size < 2 ^ 32 → Z.of_nat (length its) = size → Z.of_nat (length ws) = size →
  Forall (λ w, 0 <= w) ws → zsum ws < 2 ^ 31 →
  ∃ sw, crush_make_list_bucket junk hash type size its ws =
    Ok (Some (mk_bucket 0 (u16 type) (u8 hash) (zsum ws) size its (List ws sw))) ∧ sums_ok ws sw.
Proof.
  intros Hsz Hit Hws Hnn Hmax. unfold crush_make_list_bucket, malloc.
  pose proof (zsum_nonneg _ Hnn).
  destruct (make_list_loop_ok (Z.to_nat size) 0 its ws (realloc junk [] size) (realloc junk [] size)
    (realloc junk [] size)) as (sw & E & Hs); try (rewrite ?realloc_length; lia); try done.
  change (Z.of_nat 0) with 0 in E. change (zsum (take 0 ws)) with 0 in E. rewrite E. cbn [bind].
  exists sw. by rewrite !u32_small by lia.
Qed.

Lemma copy_array_ok n i (src dst : list Z) :
  (i + n = length src)%nat → length dst = length src → take i dst = take i src →
  copy_array n (Z.of_nat i) src dst = Ok src.
Proof.
  revert i dst. induction n as [|n IH]; intros i dst Hn Hl Ht; cbn [copy_array].
  { rewrite !take_ge in Ht by lia. by subst. }
  destruct (lookup_lt_is_Some_2 src i) as [v Ev]; [lia|]. rewrite (zget_nat _ _ _ Ev). cbn [bind].
  rewrite zset_ok by lia. cbn [bind]. rewrite Nat2Z.id.
  replace (Z.of_nat i + 1) with (Z.of_nat (S i)) by lia. apply IH; [lia|by rewrite length_insert|].
  rewrite (take_S_r _ _ v) by (apply list_lookup_insert_eq; lia).
  by rewrite (take_S_r _ _ _ Ev), take_insert_ge, Ht by lia.
Qed.

(** The multiplication guard refuses exactly the overflows, and a zero weight. *)
Lemma multiplication_unsafe_spec a b : 0 <= a < 2 ^ 32 → 0 <= b < 2 ^ 32 →
  crush_multiplication_is_unsafe a b = (0 <? a) && ((b =? 0) || (2 ^ 32 <=? a * b)).
Proof.
  intros Ha Hb. unfold crush_multiplication_is_unsafe. rewrite !u32_small by lia.
  destruct (Z.eqb_spec a 0) as [->|]; [done|]. rewrite (proj2 (Z.ltb_lt 0 a)) by lia. cbn [andb].
  destruct (Z.eqb_spec b 0) as [->|]; [done|]. cbn [orb].
  apply eq_bool_prop_intro. rewrite !Is_true_true, Z.ltb_lt, Z.leb_le.
  pose proof (Z.div_mod (2 ^ 32 - 1) b ltac:(lia)). pose proof (Z.mod_pos_bound (2 ^ 32 - 1) b ltac:(lia)).
  nia.
Qed.

Lemma make_uniform_ok hash type size its w :
  0 <= size < 2 ^ 32 → Z.of_nat (length its) = size → 0 <= w < 2 ^ 32 → size = 0 ∨ 0 < w →
  size * w < 2 ^ 32 →
  crush_make_uniform_bucket junk hash type size its w =
    Ok (Some (mk_bucket 0 (u16 type) (u8 hash) (size * w) size its (Uniform w))).
Proof.
  intros Hsz Hit Hw H0 Hm. unfold crush_make_uniform_bucket.
  rewrite multiplication_unsafe_spec by lia.
  replace ((0 <? size) && _) with false.
  2: { symmetry. apply andb_false_iff. rewrite orb_false_iff, Z.ltb_ge, Z.eqb_neq, Z.leb_gt. lia. }
  pose proof (copy_array_ok (Z.to_nat size) 0 its (malloc junk size)) as E.
  change (Z.of_nat 0) with 0 in E.
  rewrite E; [|lia|unfold malloc; rewrite realloc_length; lia|done]. cbn [bind].
  by rewrite !u32_small by nia.
Qed.

(** ** Adding items *)

Lemma sums_snoc iw sw w : sums_ok iw sw → sums_ok (iw ++ [w]) (sw ++ [zsum iw + w]).
Proof.
  intros [Hl Hs]. split; [rewrite !length_app; simpl; lia|]. intros i s E.
  destruct (decide (i < length sw)%nat).
  - rewrite lookup_app_l in E by done. rewrite take_app_le by lia. auto.
  - pose proof (lookup_lt_Some _ _ _ E) as Hi. rewrite length_app in Hi. simpl in Hi.
    assert (i = length sw) as -> by lia. rewrite list_lookup_middle in E by done. simplify_eq.
    rewrite take_ge by (rewrite length_app; simpl; lia). rewrite zsum_app. simpl. lia.
Qed.
Lemma sums_last iw sw i s : sums_ok iw sw → sw !! i = Some s → S i = length iw → s = zsum iw.
Proof. intros [_ H] E Hi. rewrite (H _ _ E), take_ge; [done|lia]. Qed.
Lemma weights_snoc b iw w :
  weights_ok b iw → 0 <= w → Forall (λ w, 0 <= w) (iw ++ [w]) ∧ zsum (iw ++ [w]) = weight b + w ∧
  Z.of_nat (length (iw ++ [w])) = size b + 1.
Proof.
  intros (Hl & Hnn & Hs) Hw. rewrite Forall_app, zsum_app, length_app. simpl.
  split; [split; [done|by constructor]|]. lia.
Qed.

(** The outcomes of adding an item: added, or refused with the bucket's logical
    content unchanged. *)
Definition add_outcome (b : crush_bucket) (item w r : Z) (b' : crush_bucket) : Prop :=
  r = 0 ∧ weight b + w < 2 ^ 32 ∧ built b' ∧ items b' = items b ++ [item] ∧
    size b' = size b + 1 ∧ weight b' = weight b + w ∨
  r = - ERANGE ∧ 2 ^ 32 <= weight b + w ∧ size b' = size b ∧ weight b' = weight b ∧
    take (Z.to_nat (size b)) (items b') = items b ∨
  r = - EINVAL ∧ b' = b ∧ ∃ iw, data b = Uniform iw ∧ iw <> w.

Lemma add_straw2_ok b iw item w :
  built b → data b = Straw2 iw → 0 <= w < 2 ^ 31 →
  ∃ r b', crush_add_straw2_bucket_item junk b iw item w = Ok (r, b') ∧ add_outcome b item w r b'.
Proof.
  intros (Hit & Hwt & Hd) Ed Hw. rewrite Ed in Hd. pose proof Hd as (Hl & Hnn & Hs).
  destruct (weights_snoc b iw w Hd ltac:(lia)) as (H1 & H2 & H3).
  unfold crush_add_straw2_bucket_item. rewrite !realloc_snoc, !set_last by lia. cbn [bind].
  rewrite addition_unsafe_spec, !u32_small by lia.
  destruct (Z.leb_spec (2 ^ 32) (weight b + w)); do 2 eexists; (split; [done|]).
  - right. left. rewrite <- Hit, Nat2Z.id. simpl. rewrite take_app_length. auto 10.
  - left. rewrite u32_small by lia. simpl.
    split; [done|]. split; [done|]. split; [|done].
    split; [simpl; rewrite length_app; simpl; lia|]. split; [simpl; lia|]. done.
Qed.
Lemma add_list_ok b iw sw item w :
  built b → data b = List iw sw → 0 <= w < 2 ^ 31 →
  ∃ r b', crush_add_list_bucket_item junk b iw sw item w = Ok (r, b') ∧ add_outcome b item w r b'.
Proof.
  intros (Hit & Hwt & Hd) Ed Hw. rewrite Ed in Hd. destruct Hd as [Hd Hsum].
  pose proof Hd as (Hl & Hnn & Hs). pose proof Hsum as [Hls _].
  destruct (weights_snoc b iw w Hd ltac:(lia)) as (H1 & H2 & H3).
  pose proof (sums_snoc iw sw w Hsum) as Hsum'. rewrite Hs in Hsum'.
  unfold crush_add_list_bucket_item. rewrite !realloc_snoc, !set_last by lia. cbn [bind].
  rewrite !u32_small by lia.
  assert (built (with_data b (weight b + w) (size b + 1) (items b ++ [item])
            (List (iw ++ [w]) (sw ++ [weight b + w]))) ∨ 2 ^ 32 <= weight b + w) as Hb'.
  { destruct (Z.leb_spec (2 ^ 32) (weight b + w)); [by right|left].
    split; [simpl; rewrite length_app; simpl; lia|]. split; [simpl; lia|]. done. }
  destruct (Z.ltb_spec 1 (size b + 1)).
  - destruct (lookup_lt_is_Some_2 sw (length sw - 1)) as [s Es]; [lia|].
    pose proof (sums_last _ _ _ _ Hsum Es ltac:(lia)) as Ess.
    rewrite (proj2 (zget_ok _ _ s)).
    2: { split; [lia|]. rewrite lookup_app_l by lia. rewrite <- Es. f_equal. lia. }
    cbn [bind]. rewrite addition_unsafe_spec by lia. rewrite Ess, Hs.
    destruct (Z.leb_spec (2 ^ 32) (weight b + w)); [|rewrite set_last by lia]; do 2 eexists; (split; [done|]).
    + right. left. rewrite <- Hit, Nat2Z.id. simpl. rewrite take_app_length. auto 10.
    + left. rewrite u32_small by lia. destruct Hb'; [|lia]. auto 10.
  - cbn [bind]. do 2 eexists. split; [done|]. left.
    assert (iw = []) as -> by (destruct iw; [done|simpl in *; lia]). simpl in Hs.
    rewrite u32_small by lia. destruct Hb'; [|lia]. rewrite <- Hs in *. simpl in *.
    split_and!; auto; lia.
Qed.

Lemma add_uniform_ok b iw item w :
  built b → data b = Uniform iw → 0 <= w < 2 ^ 31 →
  ∃ r b', crush_add_uniform_bucket_item junk b iw item w = Ok (r, b') ∧ add_outcome b item w r b'.
Proof.
  intros Hb Ed Hw. pose proof Hb as (Hit & Hwt & Hd). rewrite Ed in Hd. destruct Hd as [Hiw Hs].
  unfold crush_add_uniform_bucket_item. rewrite u32_small by lia.
  destruct (Z.eqb_spec iw w) as [->|Hne]; cbn [negb].
  2: { exists (- EINVAL), b. split; [done|]. right. right. eauto. }
  rewrite realloc_snoc, set_last by lia. cbn [bind]. rewrite addition_unsafe_spec by lia.
  destruct (Z.leb_spec (2 ^ 32) (weight b + w)); do 2 eexists; (split; [done|]).
  - right. left. rewrite <- Hit, Nat2Z.id. simpl. rewrite take_app_length. auto 10.
  - left. rewrite u32_small by lia. split; [done|]. split; [done|]. split; [|done].
    unfold built, with_data. simpl. rewrite Ed, length_app. simpl. split_and!; lia.
Qed.

Lemma add_item_ok map b item w :
  built b → 0 <= w < 2 ^ 31 →
  match data b with Uniform _ | List _ _ | Straw2 _ => True | _ => False end →
  ∃ r b', crush_bucket_add_item junk realloc0_null pow map b item w = Ok (r, b') ∧
    add_outcome b item w r b'.
Proof.
  intros Hb Hw Hk. unfold crush_bucket_add_item. destruct (data b) eqn:Ed; try done.
  - by apply add_uniform_ok.
  - by apply add_list_ok.
  - by apply add_straw2_ok.
Qed.

(** ** Searching *)

Lemma find_item_from_ok n i l item :
  (i + n = length l)%nat → item ∉ take i l →
  ∃ o, find_item_from n (Z.of_nat i) l item = Ok o ∧
    match o with
    | None => item ∉ l
    | Some p => ∃ j, p = Z.of_nat j ∧ l !! j = Some item ∧ item ∉ take j l
    end.
Proof.
  revert i. induction n as [|n IH]; intros i Hn Hni; cbn [find_item_from].
  { exists None. split; [done|]. by rewrite take_ge in Hni by lia. }
  destruct (lookup_lt_is_Some_2 l i) as [v Ev]; [lia|]. rewrite (zget_nat _ _ _ Ev). cbn [bind].
  destruct (Z.eqb_spec v item) as [->|Hv]; [by exists (Some (Z.of_nat i)); eauto 10|].
  replace (Z.of_nat i + 1) with (Z.of_nat (S i)) by lia. apply IH; [lia|].
  rewrite (take_S_r _ _ _ Ev). intros [?|?%list_elem_of_singleton]%elem_of_app; congruence.
Qed.
Lemma find_item_ok b item :
  Z.of_nat (length (items b)) = size b →
  ∃ o, find_item b item = Ok o ∧
    match o with
    | None => item ∉ items b
    | Some p => ∃ j, p = Z.of_nat j ∧ items b !! j = Some item ∧ item ∉ take j (items b)
    end.
Proof.
  intros Hl. unfold find_item. apply (find_item_from_ok _ 0); [lia|]. simpl. apply not_elem_of_nil.
Qed.

Lemma find_item_at b item j :
  Z.of_nat (length (items b)) = size b → items b !! j = Some item → item ∉ take j (items b) →
  find_item b item = Ok (Some (Z.of_nat j)).
Proof.
  intros Hit Ej Hfirst. destruct (find_item_ok b item Hit) as (o & -> & Ho).
  destruct o as [p|]; [|by destruct Ho; eapply list_elem_of_lookup_2].
  destruct Ho as (j' & -> & Ej' & Hf'). do 3 f_equal.
  destruct (Nat.lt_trichotomy j j') as [Hlt|[?|Hlt]]; [exfalso|done|exfalso].
  - apply Hf'. apply list_elem_of_lookup_2 with j. by rewrite lookup_take_lt.
  - apply Hfirst. apply list_elem_of_lookup_2 with j'. by rewrite lookup_take_lt.
Qed.

(** ** Removing items *)

Definition less (d x : Z) : Z := if d =? 0 then x else u32 (x - d).

Lemma shift_left_ok over v n j d l :
  (j + n <= length l)%nat → (j + n < length l)%nat ∨ n = 0%nat ∨ over = Some v →
  shift_left over n (Z.of_nat j) d l =
  Ok (take j l ++ (less d <$> take n (drop (S j) l ++ [v])) ++ drop (j + n) l).
Proof.
  revert j l. induction n as [|n IH]; intros j l Hn Hv; cbn [shift_left].
  { simpl. rewrite Nat.add_0_r. by rewrite take_drop. }
  assert (∃ u, read_over over l (Z.of_nat j + 1) = Ok u ∧
    drop (S j) l ++ [v] = u :: drop (S (S j)) l ++ (if (S j <? length l)%nat then [v] else []))
    as (u & -> & Eu).
  { unfold read_over. destruct (Nat.ltb_spec (S j) (length l)).
    - destruct (lookup_lt_is_Some_2 l (S j)) as [u Eu]; [lia|].
      rewrite (proj2 (Z.leb_gt _ _)) by lia. exists u. rewrite (drop_S _ _ _ Eu).
      split; [apply zget_ok; split; [lia|]; rewrite <- Eu; f_equal; lia|done].
    - rewrite (proj2 (Z.leb_le _ _)) by lia. destruct Hv as [?|[?| ->]]; [lia|lia|].
      exists v. split; [done|]. by rewrite !drop_ge by lia. }
  cbn [bind]. rewrite zset_ok by lia. cbn [bind]. rewrite Nat2Z.id.
  change (if d =? 0 then u else u32 (u - d)) with (less d u).
  replace (Z.of_nat j + 1) with (Z.of_nat (S j)) by lia.
  rewrite IH by (rewrite length_insert; destruct Hv as [?|[?|?]]; auto; lia).
  rewrite (take_S_r _ _ (less d u)) by (apply list_lookup_insert_eq; lia).
  rewrite take_insert_ge, !drop_insert_lt by lia. rewrite Eu. simpl.
  rewrite <- app_assoc. simpl. do 3 f_equal. replace (S (j + n))%nat with (j + S n)%nat by lia.
  f_equal. f_equal. destruct (Nat.ltb_spec (S j) (length l)); [done|].
  assert (n = 0)%nat as -> by lia. done.
Qed.

(** Moving the tail down by one place deletes the element. *)
Lemma shift_delete over v i l :
  (i < length l)%nat → over = Some v →
  ∃ l', shift_left over (length l - i) (Z.of_nat i) 0 l = Ok l' ∧ length l' = length l ∧
    take (length l - 1) l' = delete i l.
Proof.
  intros Hi Hv. rewrite (shift_left_ok over v) by (auto; lia). eexists. split; [done|].
  assert (less 0 <$> take (length l - i) (drop (S i) l ++ [v]) = drop (S i) l ++ [v]) as ->.
  { rewrite take_ge by (rewrite length_app, length_drop; simpl; lia). apply list_fmap_id. }
  rewrite (drop_ge l (i + (length l - i))) by lia. rewrite app_nil_r. split.
  - rewrite !length_app, length_take, length_drop. simpl. lia.
  - rewrite delete_take_drop, app_assoc, take_app_le by (rewrite length_app, length_take, length_drop; lia).
    apply take_ge. rewrite length_app, length_take, length_drop. lia.
Qed.
Lemma shift_delete_inner i l :
  (S i < length l)%nat →
  ∃ l', shift_left None (length l - 1 - i) (Z.of_nat i) 0 l = Ok l' ∧ length l' = length l ∧
    take (length l - 1) l' = delete i l.
Proof.
  intros Hi. rewrite (shift_left_ok None 0) by (auto; lia). eexists. split; [done|].
  assert (less 0 <$> take (length l - 1 - i) (drop (S i) l ++ [0]) = drop (S i) l) as ->.
  { rewrite take_app_le by (rewrite length_drop; lia). rewrite take_ge by (rewrite length_drop; lia).
    apply list_fmap_id. }
  split.
  - rewrite !length_app, length_take, !length_drop. lia.
  - rewrite delete_take_drop, app_assoc, take_app_le by (rewrite length_app, length_take, length_drop; lia).
    apply take_ge. rewrite length_app, length_take, length_drop. lia.
Qed.

Lemma zsum_delete iw j w : iw !! j = Some w → zsum (delete j iw) = zsum iw - w.
Proof.
  intros E. pose proof (f_equal zsum (take_drop_middle _ _ _ E)) as H.
  rewrite zsum_app in H. rewrite delete_take_drop, zsum_app. simpl in H. lia.
Qed.
Lemma Forall_delete {A} (P : A → Prop) l j : Forall P l → Forall P (delete j l).
Proof. intros H. rewrite delete_take_drop. apply Forall_app. split; [by apply Forall_take|by apply Forall_drop]. Qed.
Lemma weight_in b iw j w : weights_ok b iw → iw !! j = Some w → 0 <= w <= weight b.
Proof.
  intros (Hl & Hnn & Hs) E. split; [rewrite Forall_lookup in Hnn; eauto|].
  pose proof (zsum_delete iw j w E). pose proof (zsum_nonneg _ (Forall_delete _ _ j Hnn)). lia.
Qed.
Lemma weight_less_ok b w : w <= weight b → weight_less b w = weight b - w.
Proof. intros H. unfold weight_less. zcase_one. Qed.
Lemma weights_delete b iw j w :
  weights_ok b iw → iw !! j = Some w →
  Z.of_nat (length (delete j iw)) = size b - 1 ∧ Forall (λ w, 0 <= w) (delete j iw) ∧
  zsum (delete j iw) = weight b - w.
Proof.
  intros (Hl & Hnn & Hs) E. pose proof (lookup_lt_Some _ _ _ E).
  rewrite length_delete by eauto. rewrite (zsum_delete _ _ _ E), Hs.
  split_and!; [lia|by apply Forall_delete|done].
Qed.

(** The item at position [j] and its weight are gone. *)
Definition removed (b : crush_bucket) (j : nat) (w : Z) (b' : crush_bucket) : Prop :=
  built b' ∧ items b' = delete j (items b) ∧ size b' = size b - 1 ∧ weight b' = weight b - w.

Lemma remove_straw2_ok b iw item j w :
  built b → data b = Straw2 iw →
  items b !! j = Some item → item ∉ take j (items b) → iw !! j = Some w →
  ∃ b', crush_remove_straw2_bucket_item junk b iw item =
      Ok (if (S j =? length (items b))%nat then - ENOENT else 0, b') ∧
    (if (S j =? length (items b))%nat
     then size b' = size b - 1 ∧ weight b' = weight b - w
     else removed b j w b').
Proof.
  intros (Hit & Hwt & Hd) Ed Ej Hfirst Ew. rewrite Ed in Hd. pose proof Hd as (Hl & Hnn & Hs).
  pose proof (lookup_lt_Some _ _ _ Ej) as Hj. unfold crush_remove_straw2_bucket_item.
  rewrite (find_item_at b item j) by done. cbn [bind].
  rewrite (zget_nat _ _ _ Ew). cbn [bind].
  pose proof (weight_in _ _ _ _ Hd Ew). rewrite !weight_less_ok by lia.
  destruct (weights_delete _ _ _ _ Hd Ew) as (D1 & D2 & D3).
  destruct (Nat.eqb_spec (S j) (length (items b))) as [Elast|Hnl].
  - rewrite (proj2 (Z.eqb_eq (Z.of_nat j) (size b - 1))) by lia.
    replace (Z.to_nat (size b - 1 - Z.of_nat j)) with 0%nat by lia. cbn [shift_left bind]. eauto.
  - rewrite (proj2 (Z.eqb_neq (Z.of_nat j) (size b - 1))) by lia.
    destruct (shift_delete_inner j (items b)) as (arr & Ea & La & Ta); [lia|].
    destruct (shift_delete_inner j iw) as (iw' & Ei & Li & Ti); [lia|].
    replace (Z.to_nat (size b - 1 - Z.of_nat j)) with (length (items b) - 1 - j)%nat by lia.
    rewrite Ea. cbn [bind]. replace (length (items b) - 1 - j)%nat with (length iw - 1 - j)%nat by lia.
    rewrite Ei. cbn [bind]. rewrite !realloc_shrink by lia.
    replace (Z.to_nat (size b - 1)) with (length (items b) - 1)%nat by lia. rewrite Ta.
    replace (length (items b) - 1)%nat with (length iw - 1)%nat by lia. rewrite Ti.
    eexists. split; [done|]. split; [|done]. split; [simpl; rewrite length_delete by eauto; lia|].
    split; [simpl; lia|]. done.
Qed.

(** The last move of the tail reads one element past the array. *)
Lemma shift_over_faults n j d l :
  (j + S n = length l)%nat → shift_left None (S n) (Z.of_nat j) d l = Err BadAccess.
Proof.
  revert j l. induction n as [|n IH]; intros j l Hn; cbn [shift_left].
  - unfold read_over. by rewrite (proj2 (Z.leb_le _ _)) by lia.
  - unfold read_over. rewrite (proj2 (Z.leb_gt _ _)) by lia.
    destruct (lookup_lt_is_Some_2 l (S j)) as [u Eu]; [lia|].
    rewrite (proj2 (zget_ok _ _ u)) by (split; [lia|]; rewrite <- Eu; f_equal; lia).
    cbn [bind]. rewrite zset_ok by lia. cbn [bind].
    replace (Z.of_nat j + 1) with (Z.of_nat (S j)) by lia. apply IH. rewrite length_insert. lia.
Qed.

Lemma remove_uniform_ok v b iw item j :
  built b → data b = Uniform iw → items b !! j = Some item → item ∉ take j (items b) →
  ∃ b', crush_remove_uniform_bucket_item junk realloc0_null (Some v) b iw item =
      Ok (if realloc_fails realloc0_null (size b - 1) then - ENOMEM else 0, b') ∧ removed b j iw b'.
Proof.
  intros (Hit & Hwt & Hd) Ed Ej Hf. rewrite Ed in Hd. destruct Hd as [Hiw Hw].
  pose proof (lookup_lt_Some _ _ _ Ej) as Hj. unfold crush_remove_uniform_bucket_item.
  rewrite (find_item_at b item j) by done. cbn [bind].
  destruct (shift_delete (Some v) v j (items b) Hj eq_refl) as (arr & Ea & La & Ta).
  replace (Z.to_nat (size b - Z.of_nat j)) with (length (items b) - j)%nat by lia.
  rewrite Ea. cbn [bind]. rewrite weight_less_ok by nia.
  assert (length (delete j (items b)) = length (items b) - 1)%nat as Ld by (rewrite length_delete; eauto).
  assert (∀ arr', arr' = delete j (items b) →
    removed b j iw (with_data b (weight b - iw) (size b - 1) arr' (data b))) as Hr.
  { intros arr' ->. split; [|done]. split; [simpl; lia|]. split; [simpl; nia|]. simpl. rewrite Ed.
    split; [done|]. lia. }
  unfold realloc_fails. destruct (Z.eqb_spec (size b - 1) 0), realloc0_null; cbn [andb];
    eexists; (split; [done|]); apply Hr.
  1: { symmetry. apply nil_length_inv. lia. }
  all: rewrite realloc_shrink by lia; rewrite <- Ta; f_equal; lia.
Qed.

Lemma sums_delete iw sw j w v :
  sums_ok iw sw → Forall (λ w, 0 <= w) iw → zsum iw < 2 ^ 32 → iw !! j = Some w →
  ∃ sw', shift_left (Some v) (length sw - j) (Z.of_nat j) w sw = Ok sw' ∧ length sw' = length sw ∧
    sums_ok (delete j iw) (take (length sw - 1) sw').
Proof.
  intros [Hl Hs] Hnn Hmax Ew. pose proof (lookup_lt_Some _ _ _ Ew) as Hj.
  rewrite (shift_left_ok (Some v) v) by (auto; lia).
  rewrite (take_ge (drop (S j) sw ++ [v])) by (rewrite length_app, length_drop; simpl; lia).
  rewrite (drop_ge sw (j + (length sw - j))) by lia. rewrite app_nil_r, fmap_app. eexists. split; [done|].
  rewrite app_assoc. split.
  { rewrite !length_app, length_take, length_fmap, length_drop. simpl. lia. }
  rewrite take_app_le by (rewrite length_app, length_take, length_fmap, length_drop; lia).
  rewrite take_ge by (rewrite length_app, length_take, length_fmap, length_drop; lia).
  split. { rewrite length_app, length_take, length_fmap, length_drop, length_delete by eauto. lia. }
  intros i s E. rewrite delete_take_drop. destruct (decide (i < j)%nat).
  - rewrite lookup_app_l, lookup_take_lt in E by (rewrite ?length_take; lia).
    rewrite take_app_le, take_take, Nat.min_l by (rewrite ?length_take; lia). by apply Hs.
  - rewrite lookup_app_r in E by (rewrite length_take; lia). rewrite length_take_le in E by lia.
    rewrite list_lookup_fmap, lookup_drop in E. replace (S j + (i - j))%nat with (S i) in E by lia.
    destruct (sw !! S i) as [t|] eqn:Et; simplify_eq/=.
    rewrite (Hs _ _ Et). pose proof (zsum_take_le (S (S i)) iw Hnn).
    rewrite take_app_ge by (rewrite length_take; lia). rewrite length_take_le by lia.
    assert (zsum (take (S (S i)) iw) =
      zsum (take j iw) + w + zsum (take (S i - j) (drop (S j) iw))) as Hsplit.
    { replace (S (S i)) with (j + (1 + (S i - j)))%nat by lia.
      rewrite <- take_take_drop, zsum_app, (drop_S _ _ _ Ew). simpl. lia. }
    pose proof (zsum_nonneg _ (Forall_take _ j _ Hnn)).
    pose proof (zsum_nonneg _ (Forall_take _ (S i - j) _ (Forall_drop _ (S j) _ Hnn))).
    assert (0 <= w) by (rewrite Forall_lookup in Hnn; eauto).
    rewrite zsum_app. unfold less. destruct (Z.eqb_spec w 0); [lia|]. rewrite u32_small; lia.
Qed.

Lemma remove_list_ok v b iw sw item j w :
  built b → data b = List iw sw → items b !! j = Some item → item ∉ take j (items b) →
  iw !! j = Some w → 1 < size b →
  ∃ b', crush_remove_list_bucket_item junk realloc0_null (Some v) b iw sw item = Ok (0, b') ∧
    removed b j w b'.
Proof.
  intros (Hit & Hwt & Hd) Ed Ej Hf Ew Hsz. rewrite Ed in Hd. destruct Hd as [Hd Hsum].
  pose proof Hd as (Hl & Hnn & Hs). pose proof Hsum as [Hls _].
  pose proof (lookup_lt_Some _ _ _ Ej) as Hj. unfold crush_remove_list_bucket_item.
  rewrite (find_item_at b item j) by done. cbn [bind]. rewrite (zget_nat _ _ _ Ew). cbn [bind].
  destruct (shift_delete (Some v) v j (items b) Hj eq_refl) as (arr & Ea & La & Ta).
  destruct (shift_delete (Some v) v j iw ltac:(lia) eq_refl) as (iw' & Ei & Li & Ti).
  destruct (sums_delete iw sw j w v Hsum Hnn ltac:(lia) Ew) as (sw' & Es & Lsw & Ts).
  pose proof (weight_in _ _ _ _ Hd Ew). rewrite weight_less_ok by lia.
  destruct (weights_delete _ _ _ _ Hd Ew) as (D1 & D2 & D3).
  replace (Z.to_nat (size b - Z.of_nat j)) with (length (items b) - j)%nat by lia.
  rewrite Ea. cbn [bind]. replace (length (items b) - j)%nat with (length iw - j)%nat by lia.
  rewrite Ei. cbn [bind]. replace (length iw - j)%nat with (length sw - j)%nat by lia.
  rewrite Es. cbn [bind]. unfold realloc_fails. rewrite (proj2 (Z.eqb_neq _ _)) by lia. cbn [andb].
  rewrite !realloc_shrink by lia.
  replace (take (Z.to_nat (size b - 1)) arr) with (delete j (items b)) by (rewrite <- Ta; f_equal; lia).
  replace (take (Z.to_nat (size b - 1)) iw') with (delete j iw) by (rewrite <- Ti; f_equal; lia).
  replace (take (Z.to_nat (size b - 1)) sw') with (take (length sw - 1) sw') by (f_equal; lia).
  eexists. split; [done|]. split; [|done]. split; [simpl; rewrite length_delete by eauto; lia|].
  split; [simpl; lia|]. done.
Qed.

(** ** Adjusting weights *)

Lemma weights_insert b iw j w w' :
  weights_ok b iw → iw !! j = Some w → 0 <= w' →
  Z.of_nat (length (<[j := w']> iw)) = size b ∧ Forall (λ w, 0 <= w) (<[j := w']> iw) ∧
  zsum (<[j := w']> iw) = weight b + (w' - w).
Proof.
  intros (Hl & Hnn & Hs) E Hw. rewrite length_insert, (zsum_insert _ _ _ _ E), Hs.
  split_and!; [done| |done]. by apply Forall_insert.
Qed.

(** The weight at position [j] went from [w] to [w'], nothing else changed. *)
Definition adjusted (b : crush_bucket) (j : nat) (w w' : Z) (b' : crush_bucket) : Prop :=
  built b' ∧ items b' = items b ∧ size b' = size b ∧ weight b' = weight b + (w' - w) ∧
  item_weight_at (data b') (Z.of_nat j) = Ok w'.

Lemma adjust_straw2_ok b iw item j w w' :
  built b → data b = Straw2 iw → items b !! j = Some item → item ∉ take j (items b) →
  iw !! j = Some w → w < 2 ^ 31 → 0 <= w' < 2 ^ 31 → weight b + (w' - w) < 2 ^ 32 →
  ∃ b', crush_adjust_straw2_bucket_item_weight b iw item w' = Ok (w' - w, b') ∧ adjusted b j w w' b'.
Proof.
  intros (Hit & Hwt & Hd) Ed Ej Hf Ew Hw Hw' Hmax. rewrite Ed in Hd.
  pose proof (weight_in _ _ _ _ Hd Ew). destruct (weights_insert _ _ _ _ w' Hd Ew) as (D1 & D2 & D3); [lia|].
  unfold crush_adjust_straw2_bucket_item_weight. rewrite (find_item_at b item j) by done. cbn [bind].
  rewrite (zget_nat _ _ _ Ew). cbn [bind]. pose proof (lookup_lt_Some _ _ _ Ew).
  rewrite zset_ok by lia. cbn [bind]. rewrite s32_small, !u32_small, Nat2Z.id by lia.
  eexists. split; [done|]. split; [|split_and!; try done].
  - split; [done|]. split; [simpl; lia|]. done.
  - apply zget_nat. by apply list_lookup_insert_eq.
Qed.

Lemma add_from_ok n j diff l :
  (j + n = length l)%nat → (∀ i v, (j <= i)%nat → l !! i = Some v → 0 <= v + diff < 2 ^ 32) →
  add_from n (Z.of_nat j) diff l = Ok (take j l ++ ((λ v, v + diff) <$> drop j l)).
Proof.
  revert j l. induction n as [|n IH]; intros j l Hn Hv; cbn [add_from].
  { rewrite drop_ge, take_ge by lia. by rewrite app_nil_r. }
  destruct (lookup_lt_is_Some_2 l j) as [v Ev]; [lia|]. rewrite (zget_nat _ _ _ Ev). cbn [bind].
  rewrite zset_ok by lia. cbn [bind]. rewrite Nat2Z.id, u32_small by (eapply Hv; eauto; lia).
  replace (Z.of_nat j + 1) with (Z.of_nat (S j)) by lia. rewrite IH.
  - rewrite (take_S_r _ _ (v + diff)) by (apply list_lookup_insert_eq; lia).
    rewrite take_insert_ge, drop_insert_lt by lia. rewrite (drop_S _ _ _ Ev). simpl.
    by rewrite <- app_assoc.
  - rewrite length_insert. lia.
  - intros i u Hi Eu. rewrite list_lookup_insert_ne in Eu by lia. apply (Hv i); [lia|done].
Qed.

Lemma zsum_take_insert iw j w w' i : iw !! j = Some w →
  zsum (take (S i) (<[j := w']> iw)) = zsum (take (S i) iw) + (if (j <=? i)%nat then w' - w else 0).
Proof.
  intros E. destruct (Nat.leb_spec j i).
  - rewrite take_insert_lt by lia. apply zsum_insert. rewrite lookup_take_lt by lia. done.
  - rewrite take_insert_ge by lia. lia.
Qed.

Lemma adjust_list_ok b iw sw item j w w' :
  built b → data b = List iw sw → items b !! j = Some item → item ∉ take j (items b) →
  iw !! j = Some w → w < 2 ^ 31 → 0 <= w' < 2 ^ 31 → weight b + (w' - w) < 2 ^ 32 →
  ∃ b', crush_adjust_list_bucket_item_weight b iw sw item w' = Ok (w' - w, b') ∧ adjusted b j w w' b'.
Proof.
  intros (Hit & Hwt & Hd) Ed Ej Hf Ew Hw Hw' Hmax. rewrite Ed in Hd. destruct Hd as [Hd [Hls Hsum]].
  pose proof Hd as (Hlw & _ & Hsw).
  pose proof (weight_in _ _ _ _ Hd Ew). destruct (weights_insert _ _ _ _ w' Hd Ew) as (D1 & D2 & D3); [lia|].
  unfold crush_adjust_list_bucket_item_weight. rewrite (find_item_at b item j) by done. cbn [bind].
  rewrite (zget_nat _ _ _ Ew). cbn [bind]. pose proof (lookup_lt_Some _ _ _ Ew). pose proof (lookup_lt_Some _ _ _ Ej).
  rewrite zset_ok by lia. cbn [bind]. rewrite s32_small, u32_small, Nat2Z.id by lia.
  replace (Z.to_nat (size b - Z.of_nat j)) with (length sw - j)%nat by lia.
  assert (∀ i v, (j <= i)%nat → sw !! i = Some v → v + (w' - w) = zsum (take (S i) (<[j := w']> iw))) as Hs'.
  { intros i v Hi Ei. rewrite (Hsum _ _ Ei), (zsum_take_insert _ _ w) by done.
    by rewrite (proj2 (Nat.leb_le _ _)). }
  rewrite add_from_ok.
  2: lia.
  2: { intros i v Hi Ei. rewrite (Hs' i v Hi Ei). pose proof (zsum_take_le (S i) _ D2). lia. }
  cbn [bind]. rewrite u32_small by lia. eexists. split; [done|].
  split; [|split_and!; try done; apply zget_nat; by apply list_lookup_insert_eq].
  split; [done|]. split; [simpl; lia|]. split; [done|]. split; [rewrite length_app, length_take, length_fmap, length_drop, length_insert; lia|].
  intros i s E. destruct (decide (i < j)%nat).
  - rewrite lookup_app_l, lookup_take_lt in E by (rewrite ?length_take; lia).
    rewrite (zsum_take_insert _ _ w), (proj2 (Nat.leb_gt _ _)), Z.add_0_r by done. by apply Hsum.
  - rewrite lookup_app_r in E by (rewrite length_take; lia). rewrite length_take_le in E by lia.
    rewrite list_lookup_fmap, lookup_drop in E. replace (j + (i - j))%nat with i in E by lia.
    destruct (sw !! i) as [v|] eqn:Ev; simplify_eq/=. apply Hs'; [lia|done].
Qed.

Lemma adjust_tree_ok b nn nw ws d item j w w' :
  built b → data b = Tree nn nw → weights_ok b ws → tree_of d ws nw → nn = 2 ^ Z.of_nat d →
  (1 <= d < 8)%nat → calc_depth (size b) = Ok (Z.of_nat d) →
  items b !! j = Some item → item ∉ take j (items b) →
  ws !! j = Some w → w < 2 ^ 31 → 0 <= w' < 2 ^ 31 → weight b + (w' - w) < 2 ^ 32 →
  ∃ b', crush_adjust_tree_bucket_item_weight b nn nw item w' = Ok (w' - w, b') ∧ adjusted b j w w' b'.
Proof.
  intros (Hit & Hwt & _) Ed Hd Ht Hnn Hdd Hcd Ej Hf Ew Hw Hw' Hmax. pose proof Hd as (Hlw & _ & Hsw).
  pose proof (weight_in _ _ _ _ Hd Ew). destruct (weights_insert _ _ _ _ w' Hd Ew) as (D1 & D2 & D3); [lia|].
  unfold crush_adjust_tree_bucket_item_weight. rewrite Hcd, (find_item_at b item j) by done. cbn [bind].
  destruct (climbing_start d ws j w w' nw Ht Ew) as (nw1 & Ez & En & Hc); [lia|].
  rewrite (tree_leaf d ws nw j w) by (auto; lia).
  cbn [bind]. rewrite s32_small, (u32_small w'), Ez by lia. cbn [bind]. rewrite En.
  replace (Z.to_nat (Z.of_nat d - 1)) with (d - 1)%nat by lia.
  destruct (adjust_ancestors_ok d j ws w w' ltac:(lia) Ew (proj1 (proj2 Ht)) (d - 1) 0 nw1)
    as (nw2 & -> & Ht2); auto; try lia. cbn [bind]. rewrite u32_small by lia.
  eexists. split; [done|]. split.
  - split; [done|]. split; [simpl; lia|]. right. exists d, (<[j := w']> ws). done.
  - split_and!; try done. eapply tree_leaf; [done|lia|]. apply list_lookup_insert_eq.
    by eapply lookup_lt_Some.
Qed.

Lemma adjust_uniform_ok b iw w' :
  built b → data b = Uniform iw → 0 <= w' → size b * w' < 2 ^ 31 → weight b < 2 ^ 31 →
  ∃ b', crush_adjust_uniform_bucket_item_weight b iw w' = (size b * w' - weight b, b') ∧
    built b' ∧ items b' = items b ∧ size b' = size b ∧ weight b' = size b * w'.
Proof.
  intros (Hit & Hwt & Hd) Ed Hw' Hmax Hm2. rewrite Ed in Hd. destruct Hd as [Hiw Hw].
  unfold crush_adjust_uniform_bucket_item_weight.
  destruct (Z.eqb_spec (size b) 0) as [E0|].
  { rewrite E0, !Z.mul_0_r, s32_small, (u32_small 0) by lia. rewrite E0, Z.mul_0_l in *.
    rewrite Hw. eexists. split; [done|]. unfold built, with_data. simpl.
    pose proof (u32_range w'). split_and!; try done; lia. }
  assert (w' < 2 ^ 31) by nia. rewrite s32_small, (u32_small w'), u32_small by nia.
  replace ((w' - iw) * size b) with (size b * w' - weight b) by nia.
  rewrite (Z.mul_comm w'). eexists. split; [done|].
  unfold built, with_data. simpl. split_and!; try done; nia.
Qed.
End Ops.

(** ** Properties *)

(** [C33] Making a bucket of any algorithm but straw gives a bucket with the items
    and weights asked for: the total is the sum, the partial sums of lists and the
    inner nodes of trees are right, and no guard or assertion fires.  A tree takes
    at most 64 items and the items of a uniform bucket share a positive weight. *)
Theorem make_bucket_built junk pow map alg hash type its ws :
  length its = length ws → ws <> [] → Z.of_nat (length ws) < 0xffff →
  Forall (λ w, 0 <= w) ws → zsum ws < 2 ^ 31 →
  alg = CRUSH_BUCKET_LIST ∨ alg = CRUSH_BUCKET_STRAW2 ∨
  alg = CRUSH_BUCKET_TREE ∧ (length ws <= 64)%nat ∨
  alg = CRUSH_BUCKET_UNIFORM ∧ (∃ w, 0 < w ∧ ws = replicate (length ws) w) →
  ∃ b, crush_make_bucket junk pow map alg hash type (Z.of_nat (length its)) its (Some ws) = Ok (Some b) ∧
    built b ∧ items b = its ∧ weight b = zsum ws ∧ Crush.alg b = alg ∧
    ∀ i w, ws !! i = Some w → crush_get_bucket_item_weight b (Z.of_nat i) = Ok w.
Proof.
  intros Hl Hne Hsz Hnn Hmax Halg. pose proof (zsum_nonneg _ Hnn).
  assert (0 < Z.of_nat (length ws)) by (destruct ws; [done|simpl; lia]).
  assert (∀ i w, ws !! i = Some w → 0 <= w < 2 ^ 31) as Hrange.
  { intros i w E. pose proof (zsum_delete ws i w E).
    pose proof (zsum_nonneg _ (Forall_delete _ _ i Hnn)). rewrite Forall_lookup in Hnn.
    specialize (Hnn i w E). simpl in Hnn. lia. }
  assert (∀ b, size b = Z.of_nat (length its) →
    (∀ i w, ws !! i = Some w → item_weight_at (data b) (Z.of_nat i) = Ok w) →
    ∀ i w, ws !! i = Some w → crush_get_bucket_item_weight b (Z.of_nat i) = Ok w) as Hget.
  { intros b Hb Hat i w E. unfold crush_get_bucket_item_weight. pose proof (lookup_lt_Some _ _ _ E).
    rewrite u32_small, (proj2 (Z.leb_gt _ _)), (Hat i w E) by lia. cbn [bind].
    specialize (Hrange _ _ E). by rewrite s32_small by lia. }
  destruct Halg as [-> |[-> |[[-> H64]|[-> (w & Hw & Ew)]]]]; unfold crush_make_bucket; simpl.
  - destruct (make_list_ok junk hash type (Z.of_nat (length its)) its ws) as (sw & -> & Hs); auto; [lia..|].
    eexists. split; [done|]. split; [|split_and!; try done].
    + split; [done|]. split; [simpl; lia|]. split; [split; [simpl; lia|done]|done].
    + apply Hget; [done|]. intros i w E. by apply zget_nat.
  - rewrite (make_straw2_ok junk hash type (Z.of_nat (length its)) its ws) by (auto; lia).
    eexists. split; [done|]. split; [|split_and!; try done].
    + split; [done|]. split; [simpl; lia|]. split; [simpl; lia|done].
    + apply Hget; [done|]. intros i w E. by apply zget_nat.
  - destruct (make_tree_ok hash type (Z.of_nat (length its)) its ws)
      as (nn & nw & d & -> & Ht & Hnn2 & Hd & Hcd); auto; [lia..|].
    eexists. split; [done|]. split; [|split_and!; try done].
    + split; [done|]. split; [simpl; lia|]. right. exists d, ws.
      split; [split; [simpl; lia|done]|]. done.
    + apply Hget; [done|]. intros i w E. eapply tree_leaf; eauto; lia.
  - assert (zsum ws = Z.of_nat (length ws) * w) as Es.
    { rewrite Ew at 1. clear. induction (length ws) as [|n IH]; simpl; lia. }
    assert (ws !! 0%nat = Some w) as E0 by (rewrite Ew; apply lookup_replicate_2; lia).
    rewrite (proj2 (Z.eqb_neq _ _)) by lia. change 0 with (Z.of_nat 0) at 1. rewrite (zget_nat ws 0 w E0). cbn [bind].
    rewrite make_uniform_ok by nia. eexists. split; [done|].
    split; [|split_and!; try done; [simpl; lia|]].
    + split; [done|]. split; [simpl; nia|]. simpl. nia.
    + apply Hget; [done|]. intros i u E. simpl. rewrite Ew in E. by apply lookup_replicate_1 in E as [-> _].
Qed.

Lemma make_bucket_built_witness :
  ∃ b, crush_make_bucket (λ _, 77) (λ x _, x) crush_create CRUSH_BUCKET_TREE 0 1 3 [10; 11; 12]
      (Some [0x10000; 0x20000; 0]) = Ok (Some b) ∧
    built b ∧ items b = [10; 11; 12] ∧ weight b = 0x30000 ∧ Crush.alg b = CRUSH_BUCKET_TREE ∧
    ∀ i w, [0x10000; 0x20000; 0] !! i = Some w → crush_get_bucket_item_weight b (Z.of_nat i) = Ok w.
Proof.
  apply (make_bucket_built (λ _, 77) (λ x _, x) crush_create CRUSH_BUCKET_TREE 0 1 [10; 11; 12]
    [0x10000; 0x20000; 0]); [reflexivity|discriminate|reflexivity| |reflexivity|].
  - repeat constructor; discriminate.
  - right. right. left. simpl. split; [reflexivity|lia].
Defined.

(** Adding an item to a uniform, list or straw2 bucket either appends it and adds
    its weight, keeping all sums, or refuses: with -ERANGE exactly when the total
    would leave 32 bits, and then size, total and items are unchanged, or with
    -EINVAL when the weight differs from that of the uniform bucket.  Whatever the
    reallocated memory contains does not matter. *)
Theorem add_item_correct junk null pow map b item w :
  built b → 0 <= w < 2 ^ 31 →
  match data b with Uniform _ | List _ _ | Straw2 _ => True | _ => False end →
  ∃ r b', crush_bucket_add_item junk null pow map b item w = Ok (r, b') ∧ add_outcome b item w r b'.
Proof. apply add_item_ok. Qed.

Definition sample_list : crush_bucket :=
  mk_bucket (-4) 1 0 0x30000 2 [5; 6] (List [0x10000; 0x20000] [0x10000; 0x30000]).
Lemma sample_list_built : built sample_list.
Proof.
  repeat split; simpl; try lia.
  - repeat constructor; lia.
  - intros [|[|i]] s E; simplify_eq/=; done.
Qed.

Lemma add_item_correct_witness :
  ∃ r b', crush_bucket_add_item (λ n, Z.of_nat n) true (λ x _, x) crush_create sample_list 9 0x10000
      = Ok (r, b') ∧ add_outcome sample_list 9 0x10000 r b'.
Proof.
  apply (add_item_correct (λ n, Z.of_nat n) true (λ x _, x) crush_create sample_list 9 0x10000);
    [exact sample_list_built|lia|exact I].
Defined.

(** Adjusting the weight of an item of a list, tree or straw2 bucket sets the
    first occurrence of the item, updates the total and every partial sum, and
    returns the difference; an item that is not there leaves the bucket alone. *)
Theorem adjust_item_correct pow map b item w' :
  built b → 0 < size b → 0 <= w' → weight b + w' < 2 ^ 31 →
  match data b with List _ _ | Tree _ _ | Straw2 _ => True | _ => False end →
  ((item ∉ items b) ∧ crush_bucket_adjust_item_weight pow map b item w' = Ok (0, b)) ∨
  ∃ j w b', items b !! j = Some item ∧ item_weight_at (data b) (Z.of_nat j) = Ok w ∧
    crush_bucket_adjust_item_weight pow map b item w' = Ok (w' - w, b') ∧ adjusted b j w w' b'.
Proof.
  intros Hb Hsz Hw' Hmax Hk. pose proof Hb as (Hit & Hwt & Hd).
  destruct (find_item_ok b item Hit) as (o & Eo & Ho). unfold crush_bucket_adjust_item_weight.
  destruct o as [p|].
  2: { left. split; [done|]. destruct (data b) as [| | nn nw| | |] eqn:Ed; try done;
         unfold crush_adjust_list_bucket_item_weight, crush_adjust_tree_bucket_item_weight,
           crush_adjust_straw2_bucket_item_weight; rewrite ?Eo; try done.
       destruct Hd as [?|(d & ws & _ & _ & _ & _ & ->)]; [lia|]. done. }
  destruct Ho as (j & -> & Ej & Hf). right. pose proof (lookup_lt_Some _ _ _ Ej). exists j.
  destruct (data b) as [|iw sw|nn nw| |iw|] eqn:Ed; try done.
  - destruct Hd as [Hd ?]. destruct (lookup_lt_is_Some_2 iw j) as [w Ew]; [destruct Hd; lia|].
    pose proof (weight_in _ _ _ _ Hd Ew).
    destruct (adjust_list_ok b iw sw item j w w') as (b' & E & Ha); auto; [lia..|].
    exists w, b'. split; [done|]. split; [by apply zget_nat|done].
  - destruct Hd as [?|(d & ws & Hd & Ht & -> & Hdd & Hcd)]; [lia|].
    destruct (lookup_lt_is_Some_2 ws j) as [w Ew]; [destruct Hd; lia|].
    pose proof (weight_in _ _ _ _ Hd Ew).
    destruct (adjust_tree_ok b (2 ^ Z.of_nat d) nw ws d item j w w') as (b' & E & Ha); auto; [lia..|].
    exists w, b'. split; [done|]. split; [|done]. simpl. eapply tree_leaf; eauto; lia.
  - destruct (lookup_lt_is_Some_2 iw j) as [w Ew]; [destruct Hd; lia|].
    pose proof (weight_in _ _ _ _ Hd Ew).
    destruct (adjust_straw2_ok b iw item j w w') as (b' & E & Ha); auto; [lia..|].
    exists w, b'. split; [done|]. split; [by apply zget_nat|done].
Qed.

Lemma adjust_item_correct_witness :
  (((6 ∉ items sample_list) ∧
    crush_bucket_adjust_item_weight (λ x _, x) crush_create sample_list 6 0x8000 = Ok (0, sample_list)) ∨
   ∃ j w b', items sample_list !! j = Some 6 ∧ item_weight_at (data sample_list) (Z.of_nat j) = Ok w ∧
    crush_bucket_adjust_item_weight (λ x _, x) crush_create sample_list 6 0x8000 = Ok (0x8000 - w, b') ∧
    adjusted sample_list j w 0x8000 b').
Proof.
  apply (adjust_item_correct (λ x _, x) crush_create sample_list 6 0x8000);
    [exact sample_list_built|reflexivity|discriminate|reflexivity|exact I].
Defined.

(** Removing an item from a uniform bucket, from a list of at least two items, or
    from a straw2 bucket where it is not in last place deletes its first
    occurrence with its weight and keeps all sums.  For the first two the value
    [v] that the loop reads one place past the array does not matter. *)
Theorem remove_item_correct junk null pow v map b item j w :
  built b → items b !! j = Some item → item ∉ take j (items b) →
  item_weight_at (data b) (Z.of_nat j) = Ok w →
  match data b with
  | Uniform _ => null = false ∨ 1 < size b
  | List _ _ => 1 < size b
  | Straw2 _ => Z.of_nat (S j) < size b
  | _ => False
  end →
  ∃ b', crush_bucket_remove_item junk null pow (Some v) map b item = Ok (0, b') ∧ removed b j w b'.
Proof.
  intros Hb Ej Hf Ew Hk. pose proof Hb as (Hit & _). unfold crush_bucket_remove_item.
  destruct (data b) as [iw|iw sw|nn nw| |iw|] eqn:Ed; try done; simpl in Ew.
  - simplify_eq. destruct (remove_uniform_ok junk null v b w item j Hb Ed Ej Hf) as (b' & -> & Hr).
    exists b'. split; [|done]. unfold realloc_fails.
    destruct (Z.eqb_spec (size b - 1) 0), Hk as [-> |?]; try done; lia.
  - apply zget_ok in Ew as [_ Ew]. rewrite Nat2Z.id in Ew. by apply remove_list_ok.
  - apply zget_ok in Ew as [_ Ew]. rewrite Nat2Z.id in Ew.
    destruct (remove_straw2_ok junk b iw item j w Hb Ed Ej Hf Ew) as (b' & -> & Hr).
    rewrite (proj2 (Nat.eqb_neq _ _)) in * by lia. eauto.
Qed.

Lemma remove_item_correct_witness :
  ∃ b', crush_bucket_remove_item (λ _, 0) true (λ x _, x) (Some 99) crush_create sample_list 5 = Ok (0, b') ∧
    removed sample_list 0 0x10000 b'.
Proof.
  apply (remove_item_correct (λ _, 0) true (λ x _, x) 99 crush_create sample_list 5 0 0x10000);
    [exact sample_list_built|reflexivity|apply not_elem_of_nil|reflexivity|reflexivity].
Defined.

(** [C38] Two defects of item removal.  A straw2 bucket that loses the item in its last
    place reports -ENOENT although size and total have already been reduced.  The
    loops of the uniform and list variants read one element past the end of the
    item array on every removal. *)
Theorem remove_item_defects junk null pow map b item j :
  built b → items b !! j = Some item → item ∉ take j (items b) →
  (∀ iw w, data b = Straw2 iw → iw !! j = Some w → Z.of_nat (S j) = size b →
   ∃ b', crush_bucket_remove_item junk null pow None map b item = Ok (- ENOENT, b') ∧
     size b' = size b - 1 ∧ weight b' = weight b - w) ∧
  (match data b with Uniform _ | List _ _ => True | _ => False end →
   crush_bucket_remove_item junk null pow None map b item = Err BadAccess).
Proof.
  intros Hb Ej Hf. pose proof Hb as (Hit & _ & Hd). pose proof (lookup_lt_Some _ _ _ Ej) as Hj.
  unfold crush_bucket_remove_item. split.
  - intros iw w Ed Ew Hlast. rewrite Ed.
    destruct (remove_straw2_ok junk b iw item j w Hb Ed Ej Hf Ew) as (b' & -> & Hr).
    rewrite (proj2 (Nat.eqb_eq _ _)) in * by lia. eauto.
  - replace (Z.to_nat (size b - Z.of_nat j)) with (S (length (items b) - S j)) by lia.
    assert (shift_left None (Z.to_nat (size b - Z.of_nat j)) (Z.of_nat j) 0 (items b) = Err BadAccess) as Es.
    { replace (Z.to_nat (size b - Z.of_nat j)) with (S (length (items b) - S j)) by lia.
      apply shift_over_faults. lia. }
    destruct (data b) as [iw|iw sw| | | |] eqn:Ed; try done; intros _;
      unfold crush_remove_uniform_bucket_item, crush_remove_list_bucket_item;
      rewrite (find_item_at b item j) by done; cbn [bind].
    + by rewrite Es.
    + destruct Hd as [(Hl & _) _]. destruct (zget_in iw (Z.of_nat j)) as (w & -> & _); [lia|].
      cbn [bind]. by rewrite Es.
Qed.

Lemma remove_item_defects_witness :
  (∀ iw w, data sample_list = Straw2 iw → iw !! 1%nat = Some w → 2 = size sample_list →
   ∃ b', crush_bucket_remove_item (λ _, 0) true (λ x _, x) None crush_create sample_list 6
       = Ok (- ENOENT, b') ∧
     size b' = size sample_list - 1 ∧ weight b' = weight sample_list - w) ∧
  (True → crush_bucket_remove_item (λ _, 0) true (λ x _, x) None crush_create sample_list 6 = Err BadAccess).
Proof.
  apply (remove_item_defects (λ _, 0) true (λ x _, x) crush_create sample_list 6 1);
    [exact sample_list_built|reflexivity|].
  intros H%list_elem_of_In. destruct H as [H|[]]. discriminate H.
Defined.

(** Three limits of bucket construction.  A tree bucket of 65 to 128 items writes
    outside its node array, because the number of nodes does not fit its 8-bit
    field.  Adding the third item to a tree of two leaves a node built from
    uninitialised memory.  A uniform bucket of weightless items is refused. *)
Theorem make_bucket_limits :
  (∀ hash type size its ws, 64 < size <= 128 → Z.of_nat (length its) = size →
     Z.of_nat (length ws) = size → crush_make_tree_bucket hash type size its ws = Err BadAccess) ∧
  (∀ v, 0 <= v < 2 ^ 31 → ∃ b', crush_add_tree_bucket_item (λ _, v) true
       (mk_bucket (-5) 1 0 2 2 [7; 8] (Tree 4 [0; 1; 2; 1])) [0; 1; 2; 1] 9 1 = Ok (0, b') ∧
     data b' = Tree 8 [0; 1; 2; 1; 3; 1; v + 1; v]) ∧
  (∀ junk hash type its, crush_make_uniform_bucket junk hash type 3 its 0 = Ok None).
Proof.
  split; [|split].
  - intros hash type size its ws Hsz Hit Hws. unfold crush_make_tree_bucket.
    rewrite (proj2 (Z.eqb_neq _ _)) by lia.
    destruct (calc_depth_ok size) as (d & -> & Hd1 & Hfit & Htight); [lia|]. cbn [bind].
    assert (d = 8%nat) as ->.
    { destruct Htight as [-> |Ht]; [simpl in Hfit; lia|].
      destruct (Nat.lt_trichotomy d 8) as [H|[?|H]]; [exfalso|done|exfalso].
      - pose proof (Z.pow_le_mono_r 2 (Z.of_nat (d - 1)) 6). lia.
      - pose proof (Z.pow_le_mono_r 2 7 (Z.of_nat (d - 2))). lia. }
    change (u8 (Z.shiftl 1 (Z.of_nat 8))) with 0. replace (Z.to_nat size) with (S (Z.to_nat size - 1)) by lia.
    cbn [make_tree_loop]. destruct (zget_in its 0) as (item & -> & _); [lia|]. cbn [bind].
    rewrite zset_ok by (rewrite length_replicate; lia). cbn [bind].
    destruct (zget_in ws 0) as (w & -> & _); [lia|]. done.
  - intros v Hv. unfold crush_add_tree_bucket_item. cbn [size]. change (calc_depth (2 + 1)) with (Ok 3).
    cbn [bind]. change (u8 (Z.shiftl 1 3)) with 8. cbn [realloc_fails Z.eqb andb].
    change (realloc (λ _, v) [0; 1; 2; 1] 8) with [0; 1; 2; 1; v; v; v; v].
    change (crush_calc_tree_node (2 + 1 - 1)) with 5. change (u32 1) with 1.
    change (zset [0; 1; 2; 1; v; v; v; v] 5 1) with (Ok [0; 1; 2; 1; v; 1; v; v]). cbn [bind].
    change ((2 <=? 3) && (5 - 1 =? 8 / 2)) with true.
    change (zget [0; 1; 2; 1; v; 1; v; v] (8 / 2 / 2)) with (Ok 2). cbn [bind].
    change (zset [0; 1; 2; 1; v; 1; v; v] (8 / 2) 2) with (Ok [0; 1; 2; 1; 2; 1; v; v]). cbn [bind].
    assert (add_ancestors (Z.to_nat (3 - 1)) 5 1 [0; 1; 2; 1; 2; 1; v; v] =
      Ok ([0; 1; 2; 1; 3; 1; v + 1; v], false)) as ->.
    { change (Z.to_nat (3 - 1)) with 2%nat. cbn [add_ancestors]. change (parent 5) with (Ok 6). cbn [bind].
      change (zget [0; 1; 2; 1; 2; 1; v; v] 6) with (Ok v). cbn [bind].
      rewrite addition_safe, u32_small by lia.
      change (zset [0; 1; 2; 1; 2; 1; v; v] 6 (v + 1)) with (Ok [0; 1; 2; 1; 2; 1; v + 1; v]). reflexivity. }
    eexists. split; reflexivity.
  - done.
Qed.
End Built.
