(* ===== verification/CrushMapBuild.v ===== *)
(** * CRUSH: building maps (crush/builder.c, crush/mapper.c)

    Buckets and rules enter and leave the map under their own number without
    touching the others, and a finalised map has exactly the working space that
    [crush_init_workspace] checks for, valid for the first placement. *)
From S2P Require Import Prelude CrushHash CrushMapper CrushChoose CrushBucket CrushFirstn CrushBuilder.

Module MapBuild.
Import Crush Choose Bucket Firstn Builder.

(** ** Slots *)

Lemma free_slot_spec {A} (l : list (option A)) :
  l !! free_slot l = Some None ∨ free_slot l = length l.
Proof. induction l as [|[a|] l IH]; simpl; [by right|destruct IH; auto|by left]. Qed.

Lemma grow_ok fuel pos bs :
  (0 < length bs)%nat → pos < Z.of_nat (length bs) * 2 ^ Z.of_nat fuel →
  ∃ k, grow_buckets fuel pos bs = Ok (bs ++ replicate k None) ∧
    pos < Z.of_nat (length bs + k).
Proof.
  revert bs. induction fuel as [|fuel IH]; intros bs Hl Hp; cbn [grow_buckets].
  - rewrite (proj2 (Z.leb_gt _ _)) by (simpl in Hp; lia). exists 0%nat. rewrite app_nil_r.
    split; [done|]. simpl in Hp. lia.
  - destruct (Z.leb_spec (Z.of_nat (length bs)) pos); [|exists 0%nat; rewrite app_nil_r; split; [done|lia]].
    rewrite (proj2 (Z.eqb_neq _ _)) by lia.
    replace (Z.to_nat (2 * Z.of_nat (length bs) - Z.of_nat (length bs))) with (length bs) by lia.
    rewrite Nat2Z.inj_succ, Z.pow_succ_r in Hp by lia.
    destruct (IH (bs ++ replicate (length bs) None)) as (k & -> & Hk);
      rewrite ?length_app, ?length_replicate in *; [lia|lia|].
    exists (length bs + k)%nat. rewrite <- app_assoc, <- replicate_add. split; [done|lia].
Qed.
Lemma grow_empty fuel pos :
  grow_buckets (S fuel) pos [] = if 0 <=? pos then grow_buckets fuel pos (replicate 8 None) else Ok [].
Proof. reflexivity. Qed.
Lemma grow_buckets_ok pos bs :
  pos < 2 ^ 31 →
  ∃ k, grow_buckets 32 pos bs = Ok (bs ++ replicate k None) ∧ pos < Z.of_nat (length bs + k).
Proof.
  intros Hp. destruct bs as [|b bs].
  - rewrite (grow_empty 31). destruct (Z.leb_spec 0 pos); [|exists 0%nat; split; [done|simpl; lia]].
    destruct (grow_ok 31 pos (replicate 8 None)) as (k & -> & Hk); rewrite ?length_replicate in *;
      [lia|change (2 ^ Z.of_nat 31) with (2 ^ 31); lia|].
    exists (8 + k)%nat. rewrite replicate_add. split; [done|]. simpl length. lia.
  - apply grow_ok; [simpl; lia|]. simpl length. change (2 ^ Z.of_nat 32) with (2 ^ 32). lia.
Qed.

(** What [get_bucket] sees of the array. *)
Lemma get_bucket_spec map i b : 0 <= -1 - i →
  get_bucket map i = Ok b ↔ buckets map !! Z.to_nat (-1 - i) = Some (Some b).
Proof.
  intros Hi. unfold get_bucket. split.
  - intros (p & [_ Hp]%zget_ok & ->%deref_ok)%bind_inv. done.
  - intros E. by rewrite (proj2 (zget_ok _ _ (Some b))).
Qed.
Lemma get_bucket_neg map i b : get_bucket map i = Ok b → 0 <= -1 - i.
Proof. unfold get_bucket. by intros (p & [? _]%zget_ok & _)%bind_inv. Qed.

Definition ids_ok (map : crush_map) : Prop :=
  ∀ i b, buckets map !! i = Some (Some b) → id b = -1 - Z.of_nat i.
Definition with_id (b : crush_bucket) (bid : Z) : crush_bucket :=
  mk_bucket bid (type b) (hash b) (weight b) (size b) (items b) (data b).

Lemma grown_lookup (bs : list (option crush_bucket)) k i b :
  (bs ++ replicate k None) !! i = Some (Some b) ↔ bs !! i = Some (Some b).
Proof.
  destruct (decide (i < length bs)%nat); [by rewrite lookup_app_l|].
  rewrite lookup_app_r by lia. split.
  - intros [? _]%lookup_replicate_1. done.
  - intros E%lookup_lt_Some. lia.
Qed.

Lemma add_bucket_ok map bid b :
  - 2 ^ 31 <= bid < 0 → ids_ok map →
  (∀ c, get_bucket map bid <> Ok c) →
  ∃ map', crush_add_bucket map bid b = Ok (0, bid, map') ∧ ids_ok map' ∧
    get_bucket map' bid = Ok (with_id b bid) ∧
    ∀ i c, i <> bid → get_bucket map' i = Ok c ↔ get_bucket map i = Ok c.
Proof.
  intros Hbid Hids Hfree. unfold crush_add_bucket. rewrite (proj2 (Z.eqb_neq _ _)) by lia.
  destruct (grow_buckets_ok (-1 - bid) (buckets map)) as (k & -> & Hk); [lia|]. cbn [bind].
  set (bs := buckets map ++ replicate k None).
  assert (length bs = length (buckets map) + k)%nat as Hlen
    by (unfold bs; by rewrite length_app, length_replicate).
  destruct (lookup_lt_is_Some_2 bs (Z.to_nat (-1 - bid))) as [p Ep]; [lia|].
  rewrite (proj2 (zget_ok _ _ p)) by (split; [lia|done]). cbn [bind].
  destruct p as [c|].
  { exfalso. apply (Hfree c), get_bucket_spec; [lia|]. by apply (grown_lookup _ k). }
  rewrite zset_ok by lia. cbn [bind]. eexists. split; [done|].
  assert (∀ i, 0 <= -1 - i → i <> bid → Z.to_nat (-1 - bid) ≠ Z.to_nat (-1 - i)) as Hne by lia.
  split_and!.
  - intros i c E. cbn [buckets with_buckets] in E.
    destruct (decide (i = Z.to_nat (-1 - bid))) as [->|Hi].
    + rewrite list_lookup_insert_eq in E by lia. simplify_eq. simpl. lia.
    + rewrite list_lookup_insert_ne in E by done. by apply grown_lookup, Hids in E.
  - apply get_bucket_spec; [lia|]. cbn [buckets with_buckets]. by rewrite list_lookup_insert_eq by lia.
  - intros i c Hi. destruct (decide (0 <= -1 - i)) as [Hp|Hp].
    + rewrite !get_bucket_spec by done. cbn [buckets with_buckets].
      rewrite list_lookup_insert_ne by auto. apply grown_lookup.
    + split; intros E%get_bucket_neg; lia.
Qed.

Lemma next_id_free map c :
  get_bucket map (crush_get_next_bucket_id map) <> Ok c.
Proof.
  unfold crush_get_next_bucket_id. intros E. apply get_bucket_spec in E; [|lia].
  replace (Z.to_nat _) with (free_slot (buckets map)) in E by lia.
  destruct (free_slot_spec (buckets map)) as [E'|E']; [congruence|].
  rewrite E' in E. apply lookup_lt_Some in E. lia.
Qed.

(** ** Working space *)

Lemma max_item_ok n i md l :
  (i + n <= length l)%nat → 0 <= md → Forall (λ v, v < md) (take i l) →
  ∃ md', max_item n (Z.of_nat i) md l = Ok md' ∧ md <= md' ∧ Forall (λ v, v < md') (take (i + n) l).
Proof.
  revert i md. induction n as [|n IH]; intros i md Hn Hmd Hf; cbn [max_item].
  { exists md. rewrite Nat.add_0_r. auto with lia. }
  destruct (lookup_lt_is_Some_2 l i) as [v Ev]; [lia|]. rewrite (zget_nat _ _ _ Ev). cbn [bind].
  replace (Z.of_nat i + 1) with (Z.of_nat (S i)) by lia.
  destruct (IH (S i) (if md <=? v then v + 1 else md)) as (md' & -> & Hle & Hf').
  - lia.
  - zcase_one.
  - rewrite (take_S_r _ _ _ Ev). apply Forall_app. split.
    + eapply Forall_impl; [exact Hf|]. simpl. intros u Hu. zcase_one.
    + constructor; [zcase_one|constructor].
  - exists md'. split; [done|]. replace (i + S n)%nat with (S i + n)%nat by lia. split; [|done].
    revert Hle. zcase_one.
Qed.

Definition sized (bs : list (option crush_bucket)) : Prop :=
  ∀ i b, bs !! i = Some (Some b) → Z.of_nat (length (items b)) = size b.
Definition below (bs : list (option crush_bucket)) (md : Z) : Prop :=
  ∀ i b, bs !! i = Some (Some b) → Forall (λ v, v < md) (items b).

Lemma finalize_loop_ok bs md ws mem :
  sized bs → 0 <= md →
  ∃ md', finalize_loop bs md ws = Ok (md', ws + (init_work_buckets bs mem).2) ∧ md <= md' ∧ below bs md'.
Proof.
  revert md ws mem. induction bs as [|[b|] bs IH]; intros md ws mem Hs Hmd; cbn [finalize_loop init_work_buckets].
  - exists md. simpl. rewrite Z.add_0_r. split; [done|]. split; [lia|]. by intros [|?] ?.
  - pose proof (Hs 0%nat b eq_refl) as Hb.
    destruct (max_item_ok (Z.to_nat (size b)) 0 md (items b)) as (md1 & E & Hle & Hf); [lia|lia|constructor|].
    change (Z.of_nat 0) with 0 in E. rewrite E. cbn [bind].
    destruct (IH md1 (ws + sizeof_crush_work_bucket + size b * sizeof_u32) (tail mem)) as (md2 & -> & Hle2 & Hb2);
      [intros i c Hc; by apply (Hs (S i))|lia|].
    destruct (init_work_buckets bs (tail mem)) as [wk n]. simpl in *. exists md2. split; [do 2 f_equal; lia|].
    split; [lia|]. intros [|i] c Ec; simplify_eq/=; [|by eapply Hb2].
    rewrite take_ge in Hf by lia. eapply Forall_impl; [exact Hf|]. simpl. lia.
  - destruct (IH md ws (tail mem)) as (md2 & -> & Hle2 & Hb2); [intros i c Hc; by apply (Hs (S i))|lia|].
    destruct (init_work_buckets bs (tail mem)) as [wk n]. simpl in *. exists md2. split; [done|].
    split; [lia|]. intros [|i] c Ec; simplify_eq/=. by eapply Hb2.
Qed.

Lemma init_work_ok bs mem i b :
  bs !! i = Some (Some b) → 
  (init_work_buckets bs mem).1 !! i = Some (Some (mk_work 0 0 (default [] (mem !! i)))).
Proof.
  revert mem i. induction bs as [|o bs IH]; intros mem i E; [done|].
  destruct i as [|i].
  - simplify_eq/=. destruct (init_work_buckets bs (tail mem)). simpl. by destruct mem.
  - cbn [init_work_buckets]. specialize (IH (tail mem) i E).
    assert (tail mem !! i = mem !! S i) as Et by (by destruct mem). rewrite Et in IH.
    destruct o, (init_work_buckets bs (tail mem)); exact IH.
Qed.

(** ** Properties *)

(** A bucket enters the map under the id asked for, or under the first free one
    when the id is 0; it is then found there, every other id sees what it saw
    before, and ids keep matching array positions.  An id that is taken is refused
    with -EEXIST and nothing observable changes. *)
Theorem add_bucket_correct map bid b :
  - 2 ^ 31 <= bid <= 0 → Z.of_nat (length (buckets map)) < 2 ^ 31 → ids_ok map →
  let bid' := if bid =? 0 then crush_get_next_bucket_id map else bid in
  ∃ r map', crush_add_bucket map bid b = Ok (r, bid', map') ∧ ids_ok map' ∧
    (r = 0 ∧ (∀ c, get_bucket map bid' <> Ok c) ∧ get_bucket map' bid' = Ok (with_id b bid') ∧
       (∀ i c, i <> bid' → get_bucket map' i = Ok c ↔ get_bucket map i = Ok c) ∨
     r = - EEXIST ∧ (∃ c, get_bucket map bid' = Ok c) ∧
       ∀ i c, get_bucket map' i = Ok c ↔ get_bucket map i = Ok c).
Proof.
  intros Hbid Hlen Hids bid'.
  assert (- 2 ^ 31 <= bid' < 0) as Hr.
  { unfold bid', crush_get_next_bucket_id. destruct (Z.eqb_spec bid 0); [|lia].
    destruct (free_slot_spec (buckets map)) as [E%lookup_lt_Some|E]; lia. }
  assert (crush_add_bucket map bid b = crush_add_bucket map bid' b) as ->.
  { unfold crush_add_bucket at 2. rewrite (proj2 (Z.eqb_neq bid' 0)) by lia. done. }
  destruct (get_bucket map bid') as [c|e] eqn:Eb.
  - unfold crush_add_bucket. rewrite (proj2 (Z.eqb_neq bid' 0)) by lia.
    destruct (grow_buckets_ok (-1 - bid') (buckets map)) as (k & -> & Hk); [lia|]. cbn [bind].
    apply get_bucket_spec in Eb as Ec; [|lia].
    rewrite (proj2 (zget_ok _ _ (Some c))) by (split; [lia|]; by apply grown_lookup). cbn [bind].
    do 2 eexists. split; [done|]. split.
    { intros i d E. cbn [buckets with_buckets] in E. by apply grown_lookup, Hids in E. }
    right. split; [done|]. split; [eauto|]. intros i d. destruct (decide (0 <= -1 - i)) as [Hp|Hp].
    + rewrite !get_bucket_spec by done. cbn [buckets with_buckets]. apply grown_lookup.
    + split; intros E%get_bucket_neg; lia.
  - destruct (add_bucket_ok map bid' b Hr Hids) as (map' & -> & H1 & H2 & H3); [congruence|].
    exists 0, map'. split; [done|]. split; [done|]. left. by split_and!.
Qed.

Lemma add_bucket_correct_witness :
  ∃ r map', crush_add_bucket crush_create 0 sample_bucket = Ok (r, -1, map') ∧ ids_ok map' ∧
    (r = 0 ∧ (∀ c, get_bucket crush_create (-1) <> Ok c) ∧
       get_bucket map' (-1) = Ok (with_id sample_bucket (-1)) ∧
       (∀ i c, i <> -1 → get_bucket map' i = Ok c ↔ get_bucket crush_create i = Ok c) ∨
     r = - EEXIST ∧ (∃ c, get_bucket crush_create (-1) = Ok c) ∧
       ∀ i c, get_bucket map' i = Ok c ↔ get_bucket crush_create i = Ok c).
Proof.
  apply (add_bucket_correct crush_create 0 sample_bucket); [lia|reflexivity|].
  intros [|i] b E; discriminate E.
Defined.

(** The workspace of a map whose working size is right, over memory that is large
    enough. *)
Definition memory_for (map : crush_map) (mem : list (list Z)) : Prop :=
  ∀ i b, buckets map !! i = Some (Some b) → ∃ l, mem !! i = Some l ∧ Z.of_nat (length l) = size b.
Lemma init_workspace_ok map mem :
  working_size map = sizeof_crush_work + max_buckets map * sizeof_pointer + (init_work_buckets (buckets map) mem).2 →
  memory_for map mem → ∃ wk, crush_init_workspace map mem = Ok wk ∧ work_ok map wk.
Proof.
  intros Hs Hmem. unfold crush_init_workspace. destruct (init_work_buckets (buckets map) mem) as [wk n] eqn:Ei.
  cbn [snd] in Hs. rewrite Hs, Z.eqb_refl. exists wk. split; [done|].
  intros b Hb. unfold in_map in Hb. pose proof (init_work_ok _ mem _ _ Hb) as Hw. rewrite Ei in Hw. simpl in Hw.
  destruct (Hmem _ _ Hb) as (l & El & Hl). rewrite El in Hw. simpl in Hw.
  exists (mk_work 0 0 l). split; [done|]. split; [done|]. by left.
Qed.

(** Finalising a map computes a device count above every item and exactly the
    working size that [crush_init_workspace] asserts, so that the workspace it lays
    out over any memory is accepted and valid for the first placement. *)
Theorem finalize_workspace map mem :
  sized (buckets map) → memory_for map mem →
  ∃ map' wk, crush_finalize map = Ok map' ∧ buckets map' = buckets map ∧
    below (buckets map) (max_devices map') ∧ 0 <= max_devices map' ∧
    crush_init_workspace map' mem = Ok wk ∧ work_ok map' wk.
Proof.
  intros Hs Hmem. unfold crush_finalize.
  destruct (finalize_loop_ok (buckets map) 0 (sizeof_crush_work + max_buckets map * sizeof_pointer) mem Hs)
    as (md & -> & Hmd & Hb); [lia|]. cbn [bind].
  destruct (init_work_buckets (buckets map) mem) as [wk n] eqn:Ei. simpl in *.
  edestruct (init_workspace_ok (with_buckets map (buckets map) md
    (sizeof_crush_work + max_buckets map * sizeof_pointer + n)) mem) as (wk' & E & Hw);
    [unfold with_buckets; cbn [buckets working_size]; by rewrite Ei|done|].
  eexists _, wk'. do 4 (split; [done|]). done.
Qed.

Definition two_slots : crush_map :=
  with_buckets crush_create [Some sample_bucket; None] 0 0.
Lemma finalize_workspace_witness :
  ∃ map' wk, crush_finalize two_slots = Ok map' ∧ buckets map' = buckets two_slots ∧
    below (buckets two_slots) (max_devices map') ∧ 0 <= max_devices map' ∧
    crush_init_workspace map' [[4; 4; 4]] = Ok wk ∧ work_ok map' wk.
Proof.
  apply (finalize_workspace two_slots [[4; 4; 4]]).
  - intros [|[|i]] b E; simplify_eq/=; reflexivity.
  - intros [|[|i]] b E; simplify_eq/=. exists [4; 4; 4]. split; reflexivity.
Defined.

(** A rule enters the map under the number asked for or the first free one, is
    found there afterwards and leaves the others alone.  The guard against more
    than [CRUSH_MAX_RULES] rules looks at the current size only: a number far
    beyond the limit is accepted. *)
Theorem add_rule_correct map rule ruleno :
  ruleno < 2 ^ 31 → Z.of_nat (length (rules map)) < CRUSH_MAX_RULES →
  (∃ r map', crush_add_rule map rule ruleno = Ok (r, map') ∧
     rules map' !! Z.to_nat r = Some (Some rule) ∧ (0 <= ruleno → r = ruleno) ∧
     (ruleno < 0 → 0 <= r < CRUSH_MAX_RULES ∧ (∀ old, rules map !! Z.to_nat r <> Some (Some old))) ∧
     ∀ i old, i <> Z.to_nat r → rules map' !! i = Some (Some old) ↔ rules map !! i = Some (Some old)).
Proof.
  intros Hr Hlen. unfold crush_add_rule, CRUSH_MAX_RULES, max_rules in *.
  set (r := if ruleno <? 0 then Z.of_nat (free_slot (rules map)) else ruleno).
  assert (0 <= r) by (unfold r; zcase_one).
  assert ((if ruleno <? 0 then assert (Z.of_nat (free_slot (rules map)) <? 256);;; Ok (Z.of_nat (free_slot (rules map)))
           else Ok ruleno) = Ok r) as ->.
  { unfold r. destruct (Z.ltb_spec ruleno 0); [|done]. rewrite assert_true; [done|]. apply Z.ltb_lt.
    destruct (free_slot_spec (rules map)) as [E%lookup_lt_Some|E]; lia. }
  cbn [bind].
  set (k := Z.to_nat (r + 1 - Z.of_nat (length (rules map)))).
  set (rs := rules map ++ replicate k None).
  assert (∀ i old, rs !! i = Some (Some old) ↔ rules map !! i = Some (Some old)) as Hrs.
  { intros i old. unfold rs. destruct (decide (i < length (rules map))%nat); [by rewrite lookup_app_l|].
    rewrite lookup_app_r by lia. split; [by intros [? _]%lookup_replicate_1|intros E%lookup_lt_Some; lia]. }
  assert (Z.to_nat r < length rs)%nat as Hin
    by (unfold rs, k; rewrite length_app, length_replicate; lia).
  assert ((if Z.of_nat (length (rules map)) <=? r
     then if 256 <? Z.of_nat (length (rules map)) + 1 then Ok (- ENOSPC, map)
          else rs <- zset rs r (Some rule);; Ok (r, with_rules map rs)
     else rs <- zset (rules map) r (Some rule);; Ok (r, with_rules map rs))
    = Ok (r, with_rules map (<[Z.to_nat r := Some rule]> rs))) as ->.
  { rewrite (proj2 (Z.ltb_ge _ _)) by lia. destruct (Z.leb_spec (Z.of_nat (length (rules map))) r).
    - by rewrite zset_ok by lia.
    - rewrite zset_ok by lia. cbn [bind]. do 3 f_equal. unfold rs, k.
      replace (Z.to_nat (r + 1 - Z.of_nat (length (rules map)))) with 0%nat by lia. by rewrite app_nil_r. }
  exists r, (with_rules map (<[Z.to_nat r := Some rule]> rs)). split; [done|]. cbn [rules with_rules].
  split; [by apply list_lookup_insert_eq|]. split; [unfold r; intros; zcase_one|]. split.
  - intros Hneg. unfold r. rewrite (proj2 (Z.ltb_lt _ _)) by done. rewrite Nat2Z.id.
    destruct (free_slot_spec (rules map)) as [E|E]; rewrite ?E; (split; [apply lookup_lt_Some in E || idtac; lia|]).
    + congruence.
    + intros old E'%lookup_lt_Some. lia.
  - intros i old Hi. rewrite list_lookup_insert_ne by done. apply Hrs.
Qed.

Lemma add_rule_correct_witness :
  (∃ r map', crush_add_rule crush_create (mk_rule (mk_mask 0 1 1 10) []) 1000 = Ok (r, map') ∧
     rules map' !! Z.to_nat r = Some (Some (mk_rule (mk_mask 0 1 1 10) [])) ∧ (0 <= 1000 → r = 1000) ∧
     (1000 < 0 → 0 <= r < CRUSH_MAX_RULES ∧ (∀ old, rules crush_create !! Z.to_nat r <> Some (Some old))) ∧
     ∀ i old, i <> Z.to_nat r → rules map' !! i = Some (Some old) ↔ rules crush_create !! i = Some (Some old)).
Proof. apply (add_rule_correct crush_create (mk_rule (mk_mask 0 1 1 10) []) 1000); reflexivity. Defined.
End MapBuild.
