(* ===== verification/PgPool.v ===== *)
(** * Placement groups of a pool (osd/osd_types.cc, include/rados.h,
    include/intarith.h, common/ceph_hash.cc, common/reverse.c, common/hobject)

    An object name is hashed to 32 bits, the hash is folded to one of the
    [pg_num] placement groups of the pool by [ceph_stable_mod], and the
    placement seed that is handed to CRUSH is derived from it.  The file models
    the hashes, the folding, the arithmetic of splitting a pool into more
    placement groups, and the order of objects in which a placement group is one
    contiguous range. *)
From stdpp Require Import gmap.
From S2P Require Import Prelude CrushHash.

Module PgPool.
Import CrushHash.

(** ** String hashes (common/ceph_hash.cc) *)

Definition CEPH_STR_HASH_LINUX : Z := 1.
Definition CEPH_STR_HASH_RJENKINS : Z := 2.

(** [mix(a, b, c)], the nine lines of the macro. *)
Definition mix (v : Z * Z * Z) : Z * Z * Z :=
  let '(a, b, c) := v in
  let a := mix_right a b c 13 in
  let b := mix_left b c a 8 in
  let c := mix_right c a b 13 in
  let a := mix_right a b c 12 in
  let b := mix_left b c a 16 in
  let c := mix_right c a b 5 in
  let a := mix_right a b c 3 in
  let b := mix_left b c a 10 in
  let c := mix_right c a b 15 in
  (a, b, c).

(** Bytes [i] to [i + 3] as a little-endian word. *)
Definition le_word (k : list Z) (i : nat) : Z :=
  let byte j := default 0 (k !! (i + j)%nat) in
  byte 0%nat + Z.shiftl (byte 1%nat) 8 + Z.shiftl (byte 2%nat) 16 + Z.shiftl (byte 3%nat) 24.

(** The loop over blocks of twelve bytes, at most [n] of them: the state and the
    bytes left. *)
Fixpoint rjenkins_blocks (n : nat) (a b c : Z) (k : list Z) : Z * Z * Z * list Z :=
  match n with
  | O => (a, b, c, k)
  | S n =>
      if decide (12 <= length k)%nat then
        let a := u32 (a + u32 (le_word k 0)) in
        let b := u32 (b + u32 (le_word k 4)) in
        let c := u32 (c + u32 (le_word k 8)) in
        let '(a, b, c) := mix (a, b, c) in
        rjenkins_blocks n a b c (drop 12 k)
      else (a, b, c, k)
  end.

(** One case of the final switch: byte [i] of the rest, when there is one,
    shifted left by [s]; the cases fall through. *)
Definition rjenkins_tail (k : list Z) (i : nat) (s : Z) (v : Z) : Z :=
  match k !! i with Some b => u32 (v + Z.shiftl b s) | None => v end.

Definition ceph_str_hash_rjenkins (str : list Z) : Z :=
  let '(a, b, c, k) := rjenkins_blocks (length str) 0x9e3779b9 0x9e3779b9 0 str in
  let c := u32 (c + u32 (Z.of_nat (length str))) in
  let c := rjenkins_tail k 10 24 c in
  let c := rjenkins_tail k 9 16 c in
  let c := rjenkins_tail k 8 8 c in
  let b := rjenkins_tail k 7 24 b in
  let b := rjenkins_tail k 6 16 b in
  let b := rjenkins_tail k 5 8 b in
  let b := rjenkins_tail k 4 0 b in
  let a := rjenkins_tail k 3 24 a in
  let a := rjenkins_tail k 2 16 a in
  let a := rjenkins_tail k 1 8 a in
  let a := rjenkins_tail k 0 0 a in
  let '(_, _, c) := mix (a, b, c) in c.

Fixpoint hash_linux_from (hash : Z) (str : list Z) : Z :=
  match str with
  | [] => hash
  | c :: str => hash_linux_from (u32 ((hash + Z.shiftl c 4 + Z.shiftr c 4) * 11)) str
  end.
Definition ceph_str_hash_linux (str : list Z) : Z := hash_linux_from 0 str.

Definition ceph_str_hash (type : Z) (s : list Z) : Z :=
  if type =? CEPH_STR_HASH_LINUX then ceph_str_hash_linux s
  else if type =? CEPH_STR_HASH_RJENKINS then ceph_str_hash_rjenkins s
  else u32 (-1).

(** ** Bit arithmetic *)

(** [cbits]: the position of the highest set bit plus one. *)
Definition cbits (v : Z) : Z := if v =? 0 then 0 else 32 - (31 - Z.log2 v).

(** [(1 << n) - 1] in [int]: beyond 30 the shift or the subtraction leaves the
    type. *)
Definition low_mask (n : Z) : res Z :=
  if (0 <=? n) && (n <? 31) then Ok (Z.shiftl 1 n - 1) else Err BadAccess.

(** [ceph_stable_mod]; the three arguments and the result are [int]s. *)
Definition ceph_stable_mod (x b bmask : Z) : Z :=
  if Z.land x bmask <? b then Z.land x bmask else Z.land x (Z.shiftr bmask 1).

Definition reverse_bits (v : Z) : Z :=
  if v =? 0 then v
  else
    let v := Z.lor (Z.land (Z.shiftr v 1) 0x55555555) (u32 (Z.shiftl (Z.land v 0x55555555) 1)) in
    let v := Z.lor (Z.land (Z.shiftr v 2) 0x33333333) (u32 (Z.shiftl (Z.land v 0x33333333) 2)) in
    let v := Z.lor (Z.land (Z.shiftr v 4) 0x0F0F0F0F) (u32 (Z.shiftl (Z.land v 0x0F0F0F0F) 4)) in
    let v := Z.lor (Z.land (Z.shiftr v 8) 0x00FF00FF) (u32 (Z.shiftl (Z.land v 0x00FF00FF) 8)) in
    Z.lor (Z.shiftr v 16) (u32 (Z.shiftl v 16)).

(** ** Placement groups *)

Record pg_t : Type := mk_pg {
  m_pool : Z;
  m_seed : Z;
  m_preferred : Z
}.

#[export] Instance pg_eq_dec : EqDecision pg_t.
Proof. solve_decision. Defined.
#[export] Instance pg_countable : Countable pg_t.
Proof.
  refine (inj_countable' (λ p, (m_pool p, m_seed p, m_preferred p))
    (λ q, mk_pg q.1.1 q.1.2 q.2) _). by intros [].
Defined.

Definition set_ps (pg : pg_t) (p : Z) : pg_t := mk_pg (m_pool pg) p (m_preferred pg).

(** [pg_t::get_ancestor]. *)
Definition get_ancestor (pg : pg_t) (old_pg_num : Z) : res pg_t :=
  old_mask <- low_mask (cbits old_pg_num);;
  Ok (set_ps pg (u32 (ceph_stable_mod (s32 (m_seed pg)) (s32 old_pg_num) old_mask))).

(** The loop of [pg_t::is_split] from turn [n]; [acc] is the set of children. *)
Fixpoint split_loop (fuel : nat) (pg : pg_t) (old_pg_num new_pg_num old_bits old_mask n : Z)
    (acc : bool * gset pg_t) : res (bool * gset pg_t) :=
  match fuel with
  | O => Err OutOfFuel
  | S fuel =>
      let next_bit := u32 (Z.shiftl n (old_bits - 1)) in
      let s := Z.lor next_bit (m_seed pg) in
      if (s <? old_pg_num) || (s =? m_seed pg) then
        split_loop fuel pg old_pg_num new_pg_num old_bits old_mask (u32 (n + 1)) acc
      else if new_pg_num <=? s then Ok acc
      else
        let acc :=
          if u32 (ceph_stable_mod (s32 s) (s32 old_pg_num) (s32 old_mask)) =? m_seed pg
          then (true, {[mk_pg (m_pool pg) s (m_preferred pg)]} ∪ acc.2)
          else acc in
        split_loop fuel pg old_pg_num new_pg_num old_bits old_mask (u32 (n + 1)) acc
  end.
Definition is_split (fuel : nat) (pg : pg_t) (old_pg_num new_pg_num : Z)
    (children : gset pg_t) : res (bool * gset pg_t) :=
  assert (m_seed pg <? old_pg_num);;;
  if new_pg_num <=? old_pg_num then Ok (false, children)
  else
    let old_bits := cbits old_pg_num in
    old_mask <- low_mask old_bits;;
    split_loop fuel pg old_pg_num new_pg_num old_bits old_mask 1 (false, children).

(** [pg_t::get_split_bits]. *)
Definition get_split_bits (pg : pg_t) (pg_num : Z) : res Z :=
  if pg_num =? 1 then Ok 0
  else
    assert (1 <? pg_num);;;
    let p := cbits pg_num in
    assert (negb (p =? 0));;;
    m <- low_mask (p - 1);;
    if m_seed pg mod (m + 1) <? pg_num mod (m + 1) then Ok p else Ok (p - 1).

(** [pg_t::get_parent]. *)
Definition get_parent (pg : pg_t) : res pg_t :=
  let bits := cbits (m_seed pg) in
  assert (negb (bits =? 0));;;
  Ok (set_ps pg (Z.land (m_seed pg) (u32 (Z.lnot (Z.shiftl (Z.lnot 0) (bits - 1)))))).

(** ** Object names in the order of the object store (common/hobject) *)

Definition CEPH_NOSNAP : Z := 2 ^ 64 - 2.

Record hobject_t : Type := mk_hobj {
  h_max : bool;
  h_pool : Z;
  h_hash : Z;
  h_nspace : list Z;
  h_key : list Z;
  h_oid : list Z;
  h_snap : Z
}.

(** [hobject_t::get_bitwise_key] over the cache [hash_reverse_bits] that
    [build_hash_cache] fills. *)
Definition get_bitwise_key (h : hobject_t) : Z :=
  if h_max h then 0x100000000 else reverse_bits (h_hash h).
Definition get_effective_key (h : hobject_t) : list Z :=
  match h_key h with [] => h_oid h | _ => h_key h end.

(** Comparison of [std::string]s, and of a lexicographic chain. *)
Fixpoint str_cmp (a b : list Z) : comparison :=
  match a, b with
  | [], [] => Eq
  | [], _ :: _ => Lt
  | _ :: _, [] => Gt
  | x :: a, y :: b => match x ?= y with Eq => str_cmp a b | c => c end
  end.
Definition then_cmp (c d : comparison) : comparison :=
  match c with Eq => d | _ => c end.

(** [cmp(const hobject_t&, const hobject_t&)]. *)
Definition hobj_cmp (l r : hobject_t) : comparison :=
  then_cmp (Z.b2z (h_max l) ?= Z.b2z (h_max r))
 (then_cmp (h_pool l ?= h_pool r)
 (then_cmp (get_bitwise_key l ?= get_bitwise_key r)
 (then_cmp (str_cmp (h_nspace l) (h_nspace r))
 (then_cmp (str_cmp (get_effective_key l) (get_effective_key r))
 (then_cmp (str_cmp (h_oid l) (h_oid r))
           (h_snap l ?= h_snap r)))))).
Definition hobj_lt (l r : hobject_t) : bool := if hobj_cmp l r is Lt then true else false.

(** [hobject_t::get_max]: a default object with the maximum flag. *)
Definition hobj_get_max : hobject_t := mk_hobj true (- 2 ^ 63) 0 [] [] [] 0.

(** [hobject_t::match_hash]. *)
Definition match_hash (to_check bits match_ : Z) : bool :=
  let m := u32 (Z.lnot (Z.shiftl (Z.lnot 0) bits)) in
  Z.land match_ m =? Z.land to_check m.
(** [pg_t::contains]. *)
Definition contains (pg : pg_t) (bits : Z) (o : hobject_t) : bool :=
  match_hash (h_hash o) bits (m_seed pg).

Definition get_hobj_start (pg : pg_t) : hobject_t :=
  mk_hobj false (s64 (m_pool pg)) (m_seed pg) [] [] [] CEPH_NOSNAP.
Definition get_hobj_end (pg : pg_t) (pg_num : Z) : res hobject_t :=
  bits <- get_split_bits pg pg_num;;
  let rev_start := reverse_bits (m_seed pg) in
  let rev_end := Z.lor rev_start (Z.shiftr 0xffffffff bits) + 1 in
  if 0x100000000 <=? rev_end then
    assert (rev_end =? 0x100000000);;;
    Ok hobj_get_max
  else
    Ok (mk_hobj false (s64 (m_pool pg)) (reverse_bits rev_end) [] [] [] CEPH_NOSNAP).

(** ** Pools *)

Definition TYPE_REPLICATED : Z := 1.
Definition TYPE_ERASURE : Z := 3.
Definition FLAG_HASHPSPOOL : Z := 1.

Record pg_pool_t : Type := mk_pool {
  type : Z;
  size : Z;
  crush_rule : Z;
  object_hash : Z;
  flags : Z;
  pg_num : Z;
  pgp_num : Z;
  pg_num_mask : Z;
  pgp_num_mask : Z
}.

Definition can_shift_osds (p : pg_pool_t) : res bool :=
  if type p =? TYPE_REPLICATED then Ok true
  else if type p =? TYPE_ERASURE then Ok false
  else Err AssertFailed.

Definition calc_pg_masks (p : pg_pool_t) : res pg_pool_t :=
  m <- low_mask (cbits (u32 (pg_num p - 1)));;
  m' <- low_mask (cbits (u32 (pgp_num p - 1)));;
  Ok (mk_pool (type p) (size p) (crush_rule p) (object_hash p) (flags p) (pg_num p) (pgp_num p) m m').

Definition get_pg_num_divisor (p : pg_pool_t) (pgid : pg_t) : Z :=
  if pg_num p =? u32 (pg_num_mask p + 1) then pg_num p
  else
    let mask := Z.shiftr (pg_num_mask p) 1 in
    if Z.land (m_seed pgid) mask <? Z.land (pg_num p) mask then u32 (pg_num_mask p + 1)
    else Z.shiftr (u32 (pg_num_mask p + 1)) 1.

Definition hash_key (p : pg_pool_t) (key ns : list Z) : Z :=
  match ns with
  | [] => ceph_str_hash (object_hash p) key
  | _ => ceph_str_hash (object_hash p) (ns ++ 31 :: key)
  end.

Definition raw_hash_to_pg (p : pg_pool_t) (v : Z) : Z :=
  u32 (ceph_stable_mod (s32 v) (s32 (pg_num p)) (s32 (pg_num_mask p))).

Definition raw_pg_to_pg (p : pg_pool_t) (pg : pg_t) : pg_t :=
  set_ps pg (u32 (ceph_stable_mod (s32 (m_seed pg)) (s32 (pg_num p)) (s32 (pg_num_mask p)))).

(** Both branches reduce the 64-bit pool number to 32 bits. *)
Definition raw_pg_to_pps (p : pg_pool_t) (pg : pg_t) : Z :=
  let m := ceph_stable_mod (s32 (m_seed pg)) (s32 (pgp_num p)) (s32 (pgp_num_mask p)) in
  if negb (Z.land (flags p) FLAG_HASHPSPOOL =? 0)
  then crush_hash32_2 CRUSH_HASH_RJENKINS1 (u32 m) (u32 (m_pool pg))
  else u32 (m + m_pool pg).

Definition get_random_pg_position (p : pg_pool_t) (pg : pg_t) (seed : Z) : Z :=
  let r := crush_hash32_2 CRUSH_HASH_RJENKINS1 seed 123 in
  let keep :=
    if pg_num p =? u32 (pg_num_mask p + 1) then pg_num_mask p
    else
      let smaller_mask := Z.shiftr (pg_num_mask p) 1 in
      if Z.land (m_seed pg) smaller_mask <? Z.land (pg_num p) smaller_mask
      then pg_num_mask p else smaller_mask in
  Z.lor (Z.land r (u32 (Z.lnot keep))) (m_seed pg).

End PgPool.
