(* ===== verification/PgSplit.v ===== *)
(** * Folding hashes to placement groups, and splitting them

    The properties of [ceph_stable_mod] and of the operations built on it: a
    hash is folded to the longest suffix of its bits that names a placement
    group, so that growing [pg_num] only moves objects from a placement group to
    its children, every routine that computes the same partition in another way
    agrees with it, and in the bit-reversed order of the object store a
    placement group is one interval. *)
From stdpp Require Import gmap.
From S2P Require Import Prelude CrushHash PgPool.

Module PgSplit.
Import CrushHash PgPool.

(** ** Folding as the longest suffix *)

(** [folds x b r]: among the suffixes [x mod 2^j] of the bits of [x], [r] is the
    greatest that is below [b]. *)
Definition folds (x b r : Z) : Prop :=
  (∃ j, 0 <= j ∧ r = x mod 2 ^ j) ∧ r < b ∧ ∀ i, 0 <= i → x mod 2 ^ i < b → x mod 2 ^ i <= r.

Lemma mod_mod_min x i j : 0 <= i → 0 <= j → (x mod 2 ^ i) mod 2 ^ j = x mod 2 ^ Z.min i j.
Proof.
  intros Hi Hj. apply Z.bits_inj'. intros n Hn.
  rewrite !Z.testbit_mod_pow2 by lia.
  destruct (Z.ltb_spec n i), (Z.ltb_spec n j), (Z.ltb_spec n (Z.min i j)); simpl; auto; lia.
Qed.

Lemma mod_mono x i j : 0 <= i <= j → x mod 2 ^ i <= x mod 2 ^ j.
Proof.
  intros H. replace i with (Z.min j i) by lia. rewrite <- mod_mod_min by lia.
  apply Z.mod_le; [apply Z.mod_pos_bound|]; lia.
Qed.

Lemma folds_unique x b r r' : folds x b r → folds x b r' → r = r'.
Proof.
  intros ((j & Hj & ->) & Hlt & Hmax) ((j' & Hj' & ->) & Hlt' & Hmax').
  pose proof (Hmax j'). pose proof (Hmax' j). lia.
Qed.

Lemma folds_range x b r : folds x b r → 0 <= r < b.
Proof. intros ((j & ? & ->) & ? & _). pose proof (Z.mod_pos_bound x (2 ^ j)). lia. Qed.

(** Folding in two stages is folding once. *)
Lemma folds_nested x b b' r : b <= b' → folds x b' r → ∀ r', folds x b r' ↔ folds r b r'.
Proof.
  intros Hb ((j & Hj & ->) & Hlt & Hmax).
  assert (∀ i, 0 <= i → x mod 2 ^ i < b → x mod 2 ^ Z.min j i = x mod 2 ^ i) as Hcut.
  { intros i Hi H. destruct (Z.le_ge_cases i j); [f_equal; f_equal; lia|].
    rewrite Z.min_l by lia. pose proof (mod_mono x j i). pose proof (Hmax i). lia. }
  intros r'. split; intros ((i & Hi & ->) & Hl & Hm).
  - split; [|split; [done|]].
    + exists i. split; [done|]. rewrite mod_mod_min by lia. by rewrite Hcut.
    + intros i' Hi'. rewrite mod_mod_min by lia. apply Hm. lia.
  - rewrite mod_mod_min in * by lia. split; [|split; [done|]].
    + exists (Z.min j i). split; [lia|done].
    + intros i' Hi' H. rewrite <- (Hcut i') by done. rewrite <- (mod_mod_min x j i') by lia.
      apply Hm; [done|]. rewrite mod_mod_min, Hcut by (auto; lia). done.
Qed.

Lemma fold_cases x b k : 0 <= k → 2 ^ (k - 1) <= b <= 2 ^ k → 0 < b →
  folds x b (if x mod 2 ^ k <? b then x mod 2 ^ k else x mod 2 ^ (k - 1)).
Proof.
  intros Hk Hb Hpos. destruct (Z.ltb_spec (x mod 2 ^ k) b) as [H|H].
  - split; [eauto|]. split; [done|]. intros i Hi Hlt.
    destruct (Z.le_ge_cases i k); [apply mod_mono; lia|].
    rewrite <- (Z.mod_small (x mod 2 ^ i) (2 ^ k)).
    + rewrite mod_mod_min, Z.min_r by lia. lia.
    + split; [apply Z.mod_pos_bound|]; lia.
  - assert (0 < k).
    { destruct (Z.eq_dec k 0) as [->|]; [|lia]. rewrite Z.mod_1_r in H. lia. }
    assert (0 < 2 ^ (k - 1)) by (apply Z.pow_pos_nonneg; lia).
    split; [exists (k - 1); split; [lia|done]|].
    split; [pose proof (Z.mod_pos_bound x (2 ^ (k - 1))); lia|]. intros i Hi Hlt.
    destruct (Z.le_ge_cases i (k - 1)); [apply mod_mono; lia|].
    pose proof (mod_mono x k i). destruct (Z.eq_dec i (k - 1)) as [->|]; lia.
Qed.

(** ** The arithmetic of the code *)

Lemma cbits_pos v : 0 < v → cbits v = Z.log2 v + 1.
Proof. intros H. unfold cbits. destruct (Z.eqb_spec v 0); lia. Qed.

Lemma cbits_spec v : 0 < v → 0 < cbits v ∧ 2 ^ (cbits v - 1) <= v < 2 ^ cbits v.
Proof.
  intros H. rewrite cbits_pos by done. pose proof (Z.log2_nonneg v). pose proof (Z.log2_spec v H).
  replace (Z.log2 v + 1 - 1) with (Z.log2 v) by lia. rewrite <- Z.add_1_r in *. lia.
Qed.

Lemma cbits_le v n : 0 <= v < 2 ^ n → 0 <= n → 0 <= cbits v <= n.
Proof.
  intros H Hn. destruct (Z.eq_dec v 0) as [->|]; [done|].
  pose proof (cbits_spec v ltac:(lia)) as [? ?].
  assert (cbits v - 1 < n); [|lia]. apply (Z.pow_lt_mono_r_iff 2); lia.
Qed.

Lemma low_mask_ok n : 0 <= n < 31 → low_mask n = Ok (2 ^ n - 1).
Proof.
  intros H. unfold low_mask. rewrite (proj2 (Z.leb_le _ _)), (proj2 (Z.ltb_lt _ _)) by lia.
  cbn [andb]. by rewrite Z.shiftl_1_l.
Qed.

Lemma land_mask x k : 0 <= k → Z.land x (2 ^ k - 1) = x mod 2 ^ k.
Proof. intros H. rewrite <- Z.land_ones by done. by rewrite Z.ones_equiv, Z.sub_1_r. Qed.

Lemma half_mask k : 0 < k → Z.shiftr (2 ^ k - 1) 1 = 2 ^ (k - 1) - 1.
Proof.
  intros H. rewrite Z.shiftr_div_pow2 by lia. change (2 ^ 1) with 2.
  replace (2 ^ k) with (2 * 2 ^ (k - 1)) by (rewrite <- Z.pow_succ_r by lia; f_equal; lia).
  symmetry. apply (Z.div_unique _ _ _ 1); lia.
Qed.

Lemma s32_mod v k : 0 <= k <= 32 → s32 v mod 2 ^ k = v mod 2 ^ k.
Proof.
  intros H. unfold s32. rewrite Zminus_mod, mod_mod_min, Z.min_r by lia.
  rewrite <- Zminus_mod. f_equal. lia.
Qed.

Lemma pow2_le k n : 0 <= k <= n → 0 < 2 ^ k <= 2 ^ n.
Proof. intros H. split; [apply Z.pow_pos_nonneg|apply Z.pow_le_mono_r]; lia. Qed.

(** [ceph_stable_mod] as the code calls it, on 32-bit values. *)
Lemma stable_mod_eq v b k : 0 <= k <= 30 → 0 < b <= 2 ^ k →
  u32 (ceph_stable_mod (s32 v) (s32 b) (2 ^ k - 1))
  = if v mod 2 ^ k <? b then v mod 2 ^ k else v mod 2 ^ (k - 1).
Proof.
  intros Hk Hb. pose proof (pow2_le k 30). unfold ceph_stable_mod.
  rewrite (s32_small b) by lia. rewrite !land_mask, !s32_mod by lia.
  pose proof (Z.mod_pos_bound v (2 ^ k)). destruct (Z.ltb_spec (v mod 2 ^ k) b).
  - by wrap_small.
  - assert (0 < k). { destruct (Z.eq_dec k 0) as [->|]; [|lia]. rewrite Z.mod_1_r in *. lia. }
    rewrite half_mask, land_mask, s32_mod by lia.
    pose proof (pow2_le (k - 1) 30). pose proof (Z.mod_pos_bound v (2 ^ (k - 1))). by wrap_small.
Qed.

Lemma stable_mod_folds v b k : 0 <= k <= 30 → 2 ^ (k - 1) <= b <= 2 ^ k → 0 < b →
  folds v b (u32 (ceph_stable_mod (s32 v) (s32 b) (2 ^ k - 1))).
Proof. intros. rewrite stable_mod_eq by lia. apply fold_cases; lia. Qed.

(** ** Pools *)

(** What [calc_pg_masks] establishes for a pool of at most 2^30 groups. *)
Record pool_ok (p : pg_pool_t) : Prop := {
  ok_pg_num : 0 < pg_num p <= 2 ^ 30;
  ok_pgp_num : 0 < pgp_num p <= 2 ^ 30;
  ok_pg_mask : pg_num_mask p = 2 ^ cbits (pg_num p - 1) - 1;
  ok_pgp_mask : pgp_num_mask p = 2 ^ cbits (pgp_num p - 1) - 1
}.

Lemma mask_bits b : 0 < b <= 2 ^ 30 →
  0 <= cbits (b - 1) <= 30 ∧ 2 ^ (cbits (b - 1) - 1) <= b <= 2 ^ cbits (b - 1).
Proof.
  intros H. pose proof (cbits_le (b - 1) 30). split; [lia|].
  destruct (Z.eq_dec b 1) as [->|]; [done|]. pose proof (cbits_spec (b - 1)). lia.
Qed.

Lemma calc_pg_masks_ok p : 0 < pg_num p <= 2 ^ 30 → 0 < pgp_num p <= 2 ^ 30 →
  ∃ q, calc_pg_masks p = Ok q ∧ pool_ok q ∧ pg_num q = pg_num p ∧ pgp_num q = pgp_num p.
Proof.
  intros Hp Hq. pose proof (mask_bits _ Hp). pose proof (mask_bits _ Hq).
  unfold calc_pg_masks. wrap_small. rewrite !low_mask_ok by lia. cbn [bind].
  eexists. split; [done|]. split; [|done]. by split.
Qed.

Lemma s32_mask k : 0 <= k <= 30 → s32 (2 ^ k - 1) = 2 ^ k - 1.
Proof. intros H. pose proof (pow2_le k 30). by wrap_small. Qed.

Lemma pool_mod v b m : 0 < b <= 2 ^ 30 → m = 2 ^ cbits (b - 1) - 1 →
  folds v b (u32 (ceph_stable_mod (s32 v) (s32 b) (s32 m))).
Proof.
  intros H ->. pose proof (mask_bits b H). rewrite s32_mask by lia. apply stable_mod_folds; lia.
Qed.

Lemma raw_hash_folds p v : pool_ok p → folds v (pg_num p) (raw_hash_to_pg p v).
Proof. intros []. by apply pool_mod. Qed.

Lemma ancestor_folds pg b : 0 < b < 2 ^ 30 →
  ∃ r, get_ancestor pg b = Ok (set_ps pg r) ∧ folds (m_seed pg) b r.
Proof.
  intros H. pose proof (cbits_spec b ltac:(lia)). pose proof (cbits_le b 30).
  unfold get_ancestor. rewrite low_mask_ok by lia. cbn [bind].
  eexists. split; [done|]. apply stable_mod_folds; lia.
Qed.

Lemma folds_small x b : 0 <= x < b → folds x b x.
Proof.
  intros H. split; [|split; [lia|]].
  - exists x. pose proof (Z.pow_gt_lin_r 2 x). rewrite Z.mod_small; lia.
  - intros i Hi _. apply Z.mod_le; lia.
Qed.

Lemma folds_le x b b' r : b <= b' → folds x b' r → r < b → folds x b r.
Proof.
  intros Hb Hf Hr. pose proof (folds_range _ _ _ Hf).
  apply (folds_nested x b b' r); auto. apply folds_small. lia.
Qed.

(** [C27] Growing a pool only splits placement groups: when [pg_num] grows, an
    object stays in its placement group or moves to a new one, and its old group
    is the ancestor of its new group. *)
Theorem growth_splits old new pool pref v :
  pool_ok old → pool_ok new → pg_num old <= pg_num new → pg_num old < 2 ^ 30 →
  (raw_hash_to_pg new v = raw_hash_to_pg old v ∨ pg_num old <= raw_hash_to_pg new v < pg_num new) ∧
  get_ancestor (mk_pg pool (raw_hash_to_pg new v) pref) (pg_num old)
    = Ok (mk_pg pool (raw_hash_to_pg old v) pref).
Proof.
  intros Ho Hn Hle Hs. pose proof (raw_hash_folds old v Ho) as Fo. pose proof (raw_hash_folds new v Hn) as Fn.
  pose proof (folds_range _ _ _ Fn). split.
  - destruct (Z.lt_ge_cases (raw_hash_to_pg new v) (pg_num old)) as [Hlt|]; [left|right; lia].
    eapply folds_unique; [|exact Fo]. by eapply folds_le.
  - destruct (ancestor_folds (mk_pg pool (raw_hash_to_pg new v) pref) (pg_num old)) as (r & -> & Fr).
    { destruct Ho. lia. }
    unfold set_ps. cbn in *. do 2 f_equal. eapply folds_unique; [|exact Fo].
    by eapply folds_nested.
Qed.

Definition sample_pool (n : Z) : pg_pool_t :=
  mk_pool TYPE_REPLICATED 3 0 CEPH_STR_HASH_RJENKINS FLAG_HASHPSPOOL n n
    (2 ^ cbits (n - 1) - 1) (2 ^ cbits (n - 1) - 1).
Lemma sample_pool_ok n : 0 < n <= 2 ^ 30 → pool_ok (sample_pool n).
Proof. intros H. by split. Qed.

Lemma growth_splits_witness :
  get_ancestor (mk_pg 2 (raw_hash_to_pg (sample_pool 12) 0x7fc1f40b) (-1)) 6 = Ok (mk_pg 2 3 (-1)) ∧
  raw_hash_to_pg (sample_pool 12) 0x7fc1f40b = 11.
Proof.
  split; [|reflexivity].
  destruct (growth_splits (sample_pool 6) (sample_pool 12) 2 (-1) 0x7fc1f40b) as [_ H];
    [by apply sample_pool_ok|by apply sample_pool_ok|done|done|].
  exact H.
Defined.

(** The placement seed does not depend on whether the placement group was
    folded first, as long as [pgp_num] does not exceed [pg_num]; folding twice
    is folding once, and the folded group exists. *)
Lemma folded_seed p pg : pool_ok p → pgp_num p <= pg_num p →
  raw_pg_to_pps p (raw_pg_to_pg p pg) = raw_pg_to_pps p pg ∧
  raw_pg_to_pg p (raw_pg_to_pg p pg) = raw_pg_to_pg p pg ∧
  0 <= m_seed (raw_pg_to_pg p pg) < pg_num p.
Proof.
  intros [] Hle. pose proof (pool_mod (m_seed pg) _ _ ok_pg_num0 ok_pg_mask0) as F.
  pose proof (folds_range _ _ _ F) as Hr.
  pose proof (pool_mod (m_seed (raw_pg_to_pg p pg)) _ _ ok_pg_num0 ok_pg_mask0) as F2.
  assert (folds (m_seed (raw_pg_to_pg p pg)) (pgp_num p)
    (u32 (ceph_stable_mod (s32 (m_seed pg)) (s32 (pgp_num p)) (s32 (pgp_num_mask p))))) as F3.
  { apply (folds_nested _ _ _ _ Hle F). by apply pool_mod. }
  pose proof (pool_mod (m_seed (raw_pg_to_pg p pg)) _ _ ok_pgp_num0 ok_pgp_mask0) as F4.
  split; [|split].
  - pose proof (folds_unique _ _ _ _ F3 F4) as E. unfold raw_pg_to_pps. cbn [raw_pg_to_pg set_ps m_pool].
    destruct (negb _); [by rewrite E|]. unfold u32 in *.
    rewrite Zplus_mod, <- E, <- Zplus_mod. done.
  - unfold raw_pg_to_pg at 1 3, set_ps. cbn [m_pool m_preferred]. f_equal.
    eapply folds_unique; [exact F2|]. by apply folds_small.
  - done.
Qed.

(** ** The children of a placement group *)

Lemma lor_low a b k : 0 <= k → 0 <= b < 2 ^ k → Z.lor (Z.shiftl a k) b = a * 2 ^ k + b.
Proof.
  intros Hk Hb. rewrite <- Z.shiftl_mul_pow2 by done.
  assert (Z.land (Z.shiftl a k) b = 0) as E.
  { apply Z.bits_inj'. intros i Hi. rewrite Z.land_spec, Z.shiftl_spec, Z.bits_0 by done.
    destruct (Z.lt_ge_cases i k); [by rewrite Z.testbit_neg_r by lia|].
    rewrite <- (Z.mod_small b (2 ^ k)), Z.mod_pow2_bits_high by lia. apply andb_false_r. }
  by rewrite Z.add_nocarry_lxor, Z.lxor_lor.
Qed.

Section Split.
Context (pg : pg_t) (old new : Z).
Context (Hold : 0 < old < 2 ^ 30) (Hnew : old < new <= 2 ^ 31) (Hseed : 0 <= m_seed pg < old).

Let k : Z := cbits old - 1.

(** The candidate of turn [n]. *)
Definition candidate (n : Z) : Z := Z.lor (Z.shiftl n k) (m_seed pg).

Lemma k_range : 0 <= k < 30 ∧ 2 ^ k <= old < 2 ^ (k + 1).
Proof.
  unfold k. pose proof (cbits_spec old ltac:(lia)). pose proof (cbits_le old 30).
  replace (cbits old - 1 + 1) with (cbits old) by lia. lia.
Qed.

Lemma seed_top : m_seed pg / 2 ^ k = 0 ∨ m_seed pg / 2 ^ k = 1.
Proof.
  pose proof k_range as [? H]. rewrite Z.pow_add_r in H by lia.
  pose proof (Z.div_pos (m_seed pg) (2 ^ k)). pose proof (Z.div_lt_upper_bound (m_seed pg) (2 ^ k) 2).
  lia.
Qed.

Lemma lor_top n : 0 <= n → n <= Z.lor n (m_seed pg / 2 ^ k) <= n + 1.
Proof.
  intros Hn. destruct seed_top as [-> | ->]; [rewrite Z.lor_0_r; lia|].
  destruct (Z.Even_or_Odd n) as [[m ->]|[m ->]].
  - assert (Z.lor (2 * m) 1 = 2 * m + 1) as ->; [|lia]. by destruct m.
  - assert (Z.lor (2 * m + 1) 1 = 2 * m + 1) as ->; [|lia]. by destruct m as [|[]|[]].
Qed.

Lemma candidate_parts n : 0 <= n →
  candidate n = Z.lor n (m_seed pg / 2 ^ k) * 2 ^ k + m_seed pg mod 2 ^ k.
Proof.
  intros Hn. pose proof k_range as [? _]. pose proof (Z.mod_pos_bound (m_seed pg) (2 ^ k)) as Hm.
  rewrite <- lor_low by lia. rewrite Z.shiftl_lor, <- Z.lor_assoc, (lor_low (m_seed pg / 2 ^ k)) by lia.
  unfold candidate. f_equal. rewrite Z.mul_comm. apply Z.div_mod. lia.
Qed.

Lemma candidate_mono n n' : 0 <= n <= n' → candidate n <= candidate n'.
Proof.
  intros H. pose proof k_range as [? _]. rewrite !candidate_parts by lia.
  apply Z.add_le_mono_r, Z.mul_le_mono_nonneg_r; [lia|].
  destruct (Z.eq_dec n n') as [->|]; [lia|].
  pose proof (lor_top n). pose proof (lor_top n'). lia.
Qed.

Lemma candidate_ge n : 0 <= n → n * 2 ^ k <= candidate n.
Proof.
  intros H. pose proof k_range as [? _]. rewrite candidate_parts by lia.
  pose proof (Z.mod_pos_bound (m_seed pg) (2 ^ k)). pose proof (lor_top n). nia.
Qed.

(** [x] is a child: it is a new group whose hashes were folded to the seed. *)
Definition child (x : Z) : Prop :=
  old <= x < new ∧ u32 (ceph_stable_mod (s32 x) (s32 old) (2 ^ cbits old - 1)) = m_seed pg.

(** Every child is the candidate of the turn its upper bits name. *)
Lemma child_candidate x : child x → candidate (x / 2 ^ k) = x ∧ 1 <= x / 2 ^ k.
Proof.
  intros [Hx Hf]. pose proof k_range as [? [? ?]].
  assert (1 <= x / 2 ^ k) by (apply Z.div_le_lower_bound; lia). split; [|done].
  rewrite stable_mod_eq in Hf by (unfold k in *; replace (cbits old - 1 + 1) with (cbits old) in * by lia; lia).
  replace (cbits old) with (k + 1) in Hf by (unfold k; lia).
  replace (k + 1 - 1) with k in Hf by lia.
  rewrite candidate_parts by lia. transitivity (x / 2 ^ k * 2 ^ k + x mod 2 ^ k).
  2: rewrite Z.mul_comm; symmetry; apply Z.div_mod; lia.
  destruct (x mod 2 ^ (k + 1) <? old).
  - rewrite <- Hf. rewrite mod_mod_min, Z.min_r by lia. f_equal. f_equal.
    apply Z.bits_inj'. intros i Hi.
    rewrite Z.lor_spec, !Z.div_pow2_bits, Z.testbit_mod_pow2 by lia.
    destruct (_ <? _); [apply orb_diag|apply orb_false_r].
  - rewrite <- Hf. rewrite Z.mod_mod by lia. rewrite (Z.div_small (x mod 2 ^ k)) by (apply Z.mod_pos_bound; lia). by rewrite Z.lor_0_r.
Qed.

Lemma candidate_child n : 0 <= n → child (candidate n) ↔
  (candidate n <? old) || (candidate n =? m_seed pg) = false ∧ candidate n < new ∧
  u32 (ceph_stable_mod (s32 (candidate n)) (s32 old) (2 ^ cbits old - 1)) = m_seed pg.
Proof. intros Hn. unfold child. rewrite orb_false_iff, Z.ltb_ge, Z.eqb_neq. lia. Qed.

(** The children found from turn [n] on. *)
Definition found_from (n x : Z) : Prop := ∃ n', n <= n' ∧ child (candidate n') ∧ x = candidate n'.

Lemma found_step n x :
  found_from n x ↔ child (candidate n) ∧ x = candidate n ∨ found_from (n + 1) x.
Proof.
  split.
  - intros (n' & Hn & Hc & ->). destruct (Z.eq_dec n' n) as [->|]; [by left|right].
    exists n'. split; [lia|done].
  - intros [[? ->]|(n' & Hn & Hc)]; [by exists n|]. exists n'. split; [lia|done].
Qed.

(** The loop from turn [n] adds the children among the candidates that are left. *)
Definition split_result (n : Z) (acc acc' : bool * gset pg_t) : Prop :=
  (∀ c, c ∈ acc'.2 ↔ c ∈ acc.2 ∨ ∃ x, found_from n x ∧ c = set_ps pg x) ∧
  (acc'.1 = true ↔ acc.1 = true ∨ ∃ x, found_from n x).

Lemma split_stop n acc : 0 <= n → new <= candidate n → split_result n acc acc.
Proof.
  intros Hn Hb. assert (∀ x, ~ found_from n x) as Hno.
  { intros x (n' & Hn' & [? _] & _). pose proof (candidate_mono n n'). lia. }
  split; [intros c|]; split; auto; intros [?|(x & H)]; try done; exfalso; eapply Hno; apply H.
Qed.

Lemma split_skip n acc acc' :
  ~ child (candidate n) → split_result (n + 1) acc acc' → split_result n acc acc'.
Proof.
  intros Hc [H1 H2]. assert (∀ x, found_from n x ↔ found_from (n + 1) x) as E.
  { intros x. rewrite found_step. tauto. }
  split; [intros c; rewrite H1|rewrite H2]; by setoid_rewrite E.
Qed.

Lemma split_add n acc acc' : child (candidate n) →
  split_result (n + 1) (true, {[set_ps pg (candidate n)]} ∪ acc.2) acc' → split_result n acc acc'.
Proof.
  intros Hc [H1 H2]. cbn [fst snd] in *. split.
  - intros c. rewrite H1, elem_of_union, elem_of_singleton. setoid_rewrite (found_step n).
    split; [intros [[->|?]|(x & ? & ->)]|intros [?|(x & [[? ->]|?] & ->)]]; eauto 6.
  - rewrite H2. setoid_rewrite (found_step n).
    split; [intros _|by left]. eauto 6.
Qed.

Lemma split_loop_ok fuel n acc : 1 <= n <= new / 2 ^ k + 1 → new / 2 ^ k + 1 - n < Z.of_nat fuel →
  ∃ acc', split_loop fuel pg old new (cbits old) (2 ^ cbits old - 1) n acc = Ok acc' ∧
    split_result n acc acc'.
Proof.
  pose proof k_range as [Hk _]. pose proof (pow2_le k 30).
  revert n acc. induction fuel as [|fuel IH]; intros n acc Hn Hf; [lia|].
  cbn [split_loop]. fold k. rewrite s32_mask by (unfold k in Hk; lia).
  assert (n * 2 ^ k <= new + 2 ^ k) as Hnk.
  { pose proof (Z.mul_div_le new (2 ^ k)). nia. }
  rewrite (u32_small (Z.shiftl n k)) by (rewrite Z.shiftl_mul_pow2 by lia; nia).
  rewrite (u32_small (n + 1)) by nia. fold (candidate n).
  pose proof (candidate_child n ltac:(lia)) as Hc.
  assert (candidate n < new → n <= new / 2 ^ k) as Hgo.
  { intros ?. apply Z.div_le_lower_bound; [lia|]. pose proof (candidate_ge n). lia. }
  destruct (_ || _) eqn:Hskip; [|destruct (Z.leb_spec new (candidate n)) as [Hb|Hb]].
  - assert (candidate n < new) by (apply orb_true_iff in Hskip as [?|?]; zb; lia).
    destruct (IH (n + 1) acc) as (acc' & -> & HS); [lia..|].
    exists acc'. split; [done|]. apply split_skip; [|done]. intros (E & _ & E')%Hc; congruence.
  - exists acc. split; [done|]. apply split_stop; lia.
  - destruct (Z.eqb_spec (u32 (ceph_stable_mod (s32 (candidate n)) (s32 old) (2 ^ cbits old - 1))) (m_seed pg));
      (edestruct (IH (n + 1)) as (acc' & -> & HS); [lia..|]; exists acc'; split; [done|]).
    + apply split_add; [by apply Hc|exact HS].
    + apply split_skip; [|done]. intros (E & _ & E')%Hc; congruence.
Qed.

Lemma found_all x : found_from 1 x ↔ child x.
Proof.
  split; [by intros (n & _ & H & ->)|]. intros Hx. destruct (child_candidate x Hx) as [E ?].
  exists (x / 2 ^ k). by rewrite E.
Qed.

Lemma child_ancestor x :
  child x ↔ old <= x < new ∧ get_ancestor (set_ps pg x) old = Ok pg.
Proof.
  unfold child, get_ancestor. pose proof k_range as [Hk _]. unfold k in Hk.
  rewrite low_mask_ok by lia. cbn [bind set_ps m_seed m_pool m_preferred].
  set (r := u32 _). clearbody r. destruct pg as [pl sd pr]. unfold set_ps. cbn [m_seed m_pool m_preferred].
  split; intros [? E]; (split; [done|]); congruence.
Qed.
End Split.

(** The enumeration of candidate bit patterns in [is_split] finds exactly the
    groups a search through all new groups finds: the children of a placement
    group are the new groups whose ancestor it is, and the answer says whether
    there are any.  The loop ends within [new_pg_num + 1] turns. *)
Theorem is_split_correct fuel pg old_pg_num new_pg_num children :
  0 < old_pg_num < 2 ^ 30 → old_pg_num < new_pg_num <= 2 ^ 31 → 0 <= m_seed pg < old_pg_num →
  new_pg_num < Z.of_nat fuel →
  ∃ split children', is_split fuel pg old_pg_num new_pg_num children = Ok (split, children') ∧
    (∀ c, c ∈ children' ↔ c ∈ children ∨
       ∃ x, old_pg_num <= x < new_pg_num ∧ c = set_ps pg x ∧ get_ancestor c old_pg_num = Ok pg) ∧
    (split = true ↔
       ∃ x, old_pg_num <= x < new_pg_num ∧ get_ancestor (set_ps pg x) old_pg_num = Ok pg).
Proof.
  intros Hold Hnew Hseed Hf. pose proof (k_range old_pg_num Hold) as [Hk Hk2]. pose proof (pow2_le (cbits old_pg_num - 1) 30).
  unfold is_split. rewrite (proj2 (Z.ltb_lt _ _)), (proj2 (Z.leb_gt _ _)) by lia. cbn [assert bind].
  rewrite low_mask_ok by lia. cbn [bind].
  destruct (split_loop_ok pg old_pg_num new_pg_num Hold Hnew Hseed fuel 1 (false, children))
    as ([fl S] & -> & H1 & H2).
  { pose proof (Z.div_pos new_pg_num (2 ^ (cbits old_pg_num - 1))). lia. }
  { pose proof (Z.div_le_upper_bound new_pg_num (2 ^ (cbits old_pg_num - 1)) new_pg_num). nia. }
  exists fl, S. split; [done|].
  assert (∀ x, found_from pg old_pg_num new_pg_num 1 x ↔
    old_pg_num <= x < new_pg_num ∧ get_ancestor (set_ps pg x) old_pg_num = Ok pg) as E.
  { intros x. by rewrite <- child_ancestor, found_all. }
  split.
  - intros c. rewrite H1. setoid_rewrite E. cbn [snd]. split; (intros [?|(x & H')]; [by left|right; exists x]).
    + destruct H' as [[? ?] ->]. done.
    + destruct H' as (? & -> & ?). done.
  - rewrite H2. setoid_rewrite E. cbn [fst]. split; [by intros [?|?]|by right].
Qed.

Lemma is_split_correct_witness : ∃ children, is_split 18 (mk_pg 2 1 (-1)) 3 17 ∅ = Ok (true, children) ∧
  mk_pg 2 13 (-1) ∈ children.
Proof.
  destruct (is_split_correct 18 (mk_pg 2 1 (-1)) 3 17 ∅) as (fl & S & E & HS & Hfl);
    [done|done|done|done|].
  assert (get_ancestor (mk_pg 2 13 (-1)) 3 = Ok (mk_pg 2 1 (-1))) as H by reflexivity.
  assert (fl = true) as ->.
  { apply Hfl. exists 13. split; [lia|exact H]. }
  exists S. split; [exact E|]. apply HS. right. exists 13. split; [lia|]. split; [reflexivity|exact H].
Defined.

(** [get_parent] of a group is its ancestor in the pool that had one group
    less than needed to hold it: the parent of group [x] is where its hashes went
    while [pg_num] was [x]. *)
Theorem parent_is_ancestor pg : 0 < m_seed pg < 2 ^ 30 → get_parent pg = get_ancestor pg (m_seed pg).
Proof.
  intros H. pose proof (cbits_spec (m_seed pg) ltac:(lia)) as [? Hc]. pose proof (cbits_le (m_seed pg) 30).
  unfold get_parent, get_ancestor. rewrite low_mask_ok by lia.
  rewrite (proj2 (Z.eqb_neq (cbits (m_seed pg)) 0)) by lia. cbn [negb assert bind].
  rewrite stable_mod_eq by lia. rewrite (Z.mod_small (m_seed pg) (2 ^ cbits _)), Z.ltb_irrefl by lia.
  do 2 f_equal. set (k := cbits (m_seed pg) - 1) in *.
  assert (Z.lnot (Z.shiftl (Z.lnot 0) k) = 2 ^ k - 1) as ->.
  { rewrite Z.shiftl_mul_pow2 by lia. unfold Z.lnot. lia. }
  pose proof (pow2_le k 30). rewrite u32_small by lia. apply land_mask. lia.
Qed.

Lemma parent_is_ancestor_witness : get_parent (mk_pg 2 13 (-1)) = get_ancestor (mk_pg 2 13 (-1)) 13.
Proof. apply (parent_is_ancestor (mk_pg 2 13 (-1))). cbn. lia. Defined.

(** ** The bits that decide membership *)

Lemma mod_half x h : 0 < h → 0 <= x < 2 * h → x mod h = if x <? h then x else x - h.
Proof.
  intros Hh Hx. destruct (Z.ltb_spec x h); [apply Z.mod_small; lia|].
  symmetry. apply (Z.mod_unique _ _ 1); lia.
Qed.

Lemma fold_top v b p : 0 < p → 2 ^ (p - 1) <= b < 2 ^ p → ∀ r, folds v b r →
  r = if v mod 2 ^ p <? b then v mod 2 ^ p else v mod 2 ^ (p - 1).
Proof.
  intros Hp Hb r Hf. eapply folds_unique; [exact Hf|].
  pose proof (pow2_le (p - 1) p). apply fold_cases; lia.
Qed.

Lemma member_bits b p seed v r : 0 < p → 2 ^ (p - 1) <= b < 2 ^ p → 0 <= seed < b → folds v b r →
  let bits := if seed mod 2 ^ (p - 1) <? b mod 2 ^ (p - 1) then p else p - 1 in
  seed < 2 ^ bits ∧ (r = seed ↔ v mod 2 ^ bits = seed).
Proof.
  intros Hp Hb Hs Hf bits. apply (fold_top v b p) in Hf as ->; [|done..].
  assert (v mod 2 ^ (p - 1) = (v mod 2 ^ p) mod 2 ^ (p - 1)) as E.
  { rewrite mod_mod_min by lia. f_equal. f_equal. lia. }
  assert (2 ^ p = 2 * 2 ^ (p - 1)) as E2 by (rewrite <- Z.pow_succ_r by lia; f_equal; lia).
  pose proof (Z.mod_pos_bound v (2 ^ p)). pose proof (pow2_le (p - 1) p).
  subst bits. rewrite !(mod_half seed), !(mod_half b) by lia. rewrite (mod_half (v mod 2 ^ p)) in E by lia.
  destruct (Z.ltb_spec (v mod 2 ^ p) b), (Z.ltb_spec (v mod 2 ^ p) (2 ^ (p - 1))), (Z.ltb_spec seed (2 ^ (p - 1))),
    (Z.ltb_spec b (2 ^ (p - 1))); try lia;
    match goal with |- context [if ?a <? ?b then p else _] => destruct (Z.ltb_spec a b) end; lia.
Qed.

Lemma pow2_sandwich x i j :
  0 < i → 0 < j → 2 ^ (i - 1) <= x < 2 ^ i → 2 ^ (j - 1) <= x < 2 ^ j → i = j.
Proof.
  intros. assert (i - 1 < j) by (apply (Z.pow_lt_mono_r_iff 2); lia).
  assert (j - 1 < i) by (apply (Z.pow_lt_mono_r_iff 2); lia). lia.
Qed.

(** The divisor computed from the masks of the pool. *)
Lemma divisor_bits p pg q : pool_ok p → 0 <= m_seed pg < pg_num p →
  0 < q → 2 ^ (q - 1) <= pg_num p < 2 ^ q →
  get_pg_num_divisor p pg
  = 2 ^ (if m_seed pg mod 2 ^ (q - 1) <? pg_num p mod 2 ^ (q - 1) then q else q - 1).
Proof.
  intros [] Hs Hq Hc. pose proof (mask_bits _ ok_pg_num0) as HK.
  unfold get_pg_num_divisor. rewrite ok_pg_mask0. set (K := cbits (pg_num p - 1)) in *.
  rewrite Z.sub_add. pose proof (pow2_le K 30). wrap_small.
  destruct (Z.eqb_spec (pg_num p) (2 ^ K)) as [E|].
  - assert (q = K + 1) as -> by (apply (pow2_sandwich (pg_num p)); [lia..|];
      rewrite Z.add_simpl_r, Z.pow_add_r by lia; lia).
    rewrite Z.add_simpl_r, <- E, Z.mod_same, (proj2 (Z.ltb_ge _ _)) by (try apply Z.mod_pos_bound; lia). done.
  - assert (0 < K). { destruct (Z.eq_dec K 0) as [E|]; [rewrite E in *|]; lia. }
    assert (q = K) as -> by (apply (pow2_sandwich (pg_num p)); lia).
    rewrite half_mask, !land_mask by lia. destruct (_ <? _); [done|].
    rewrite Z.shiftr_div_pow2 by lia. replace K with (K - 1 + 1) at 1 by lia.
    rewrite Z.pow_add_r, Z.div_mul by lia. done.
Qed.

(** The number of hash bits a group of the pool fixes. *)
Lemma split_bits_spec p pg : pool_ok p → 0 <= m_seed pg < pg_num p →
  ∃ bits, get_split_bits pg (pg_num p) = Ok bits ∧ 0 <= bits <= 30 ∧ m_seed pg < 2 ^ bits ∧
    get_pg_num_divisor p pg = 2 ^ bits ∧
    ∀ v, raw_hash_to_pg p v = m_seed pg ↔ v mod 2 ^ bits = m_seed pg.
Proof.
  intros Hp Hs. pose proof Hp as []. pose proof (mask_bits _ ok_pg_num0) as HK.
  pose proof (cbits_spec (pg_num p) ltac:(lia)) as [? Hc]. pose proof (cbits_le (pg_num p) 31).
  set (q := cbits (pg_num p)) in *. set (K := cbits (pg_num p - 1)) in *.
  set (bits := if m_seed pg mod 2 ^ (q - 1) <? pg_num p mod 2 ^ (q - 1) then q else q - 1).
  assert (get_split_bits pg (pg_num p) = Ok bits) as Hbits.
  { unfold get_split_bits. fold q. destruct (Z.eqb_spec (pg_num p) 1) as [E|].
    - unfold bits, q. replace (m_seed pg) with 0 by lia. by rewrite E.
    - rewrite (proj2 (Z.ltb_lt 1 _)), (proj2 (Z.eqb_neq q 0)), low_mask_ok by lia. cbn [assert negb bind].
      rewrite Z.sub_add. unfold bits. by destruct (_ <? _). }
  exists bits. split; [done|].
  destruct (member_bits (pg_num p) q (m_seed pg) 0 _ H Hc Hs (raw_hash_folds p 0 Hp)) as [Hlt _]. fold bits in Hlt.
  rewrite (divisor_bits p pg q) by done. fold bits.
  split; [|split; [done|split; [done|]]].
  - unfold bits. destruct (Z.ltb_spec (m_seed pg mod 2 ^ (q - 1)) (pg_num p mod 2 ^ (q - 1))) as [Hm|]; [|lia].
    destruct (Z.eq_dec q 31) as [E|]; [|lia]. rewrite E in *.
    replace (pg_num p) with (2 ^ (31 - 1)) in Hm by lia. rewrite Z.mod_same in Hm by lia.
    pose proof (Z.mod_pos_bound (m_seed pg) (2 ^ (31 - 1))). lia.
  - intros v. by apply (member_bits (pg_num p) q (m_seed pg) v _ H Hc Hs), raw_hash_folds.
Qed.

(** Membership is decided by a suffix of the hash: for a group of the pool,
    [get_split_bits] returns the number of bits such that an object belongs to
    the group exactly when [contains] finds its hash to agree with the seed in
    these bits, and [get_pg_num_divisor], computed from the masks of the pool,
    is the power of two of that number. *)
Theorem split_bits_correct p pg : pool_ok p → 0 <= m_seed pg < pg_num p →
  ∃ bits, get_split_bits pg (pg_num p) = Ok bits ∧ get_pg_num_divisor p pg = 2 ^ bits ∧
    ∀ o, 0 <= h_hash o < 2 ^ 32 →
      contains pg bits o = true ↔ raw_hash_to_pg p (h_hash o) = m_seed pg.
Proof.
  intros Hp Hs. destruct (split_bits_spec p pg Hp Hs) as (bits & E & Hb & Hlt & Hd & H).
  exists bits. do 2 (split; [done|]). intros o Ho. rewrite H. unfold contains, match_hash.
  assert (Z.lnot (Z.shiftl (Z.lnot 0) bits) = 2 ^ bits - 1) as ->.
  { rewrite Z.shiftl_mul_pow2 by lia. unfold Z.lnot. lia. }
  pose proof (pow2_le bits 30). rewrite u32_small, !land_mask, Z.eqb_eq by lia.
  rewrite (Z.mod_small (m_seed pg)) by lia. done.
Qed.

Lemma split_bits_correct_witness : get_split_bits (mk_pg 2 5 (-1)) 12 = Ok 3 ∧
  (contains (mk_pg 2 5 (-1)) 3 (mk_hobj false 2 0x7fc1f40d [] [] [102] CEPH_NOSNAP) = true ↔
   raw_hash_to_pg (sample_pool 12) 0x7fc1f40d = 5).
Proof.
  destruct (split_bits_correct (sample_pool 12) (mk_pg 2 5 (-1))) as (bits & E & _ & H);
    [by apply sample_pool_ok|done|].
  assert (bits = 3) as -> by (injection E; auto). split; [exact E|].
  apply (H (mk_hobj false 2 0x7fc1f40d [] [] [102] CEPH_NOSNAP)). done.
Defined.

(** ** The bit-reversed order *)

Lemma u32_testbit x i : 0 <= i → Z.testbit (u32 x) i = (i <? 32) && Z.testbit x i.
Proof. intros H. unfold u32. by rewrite Z.testbit_mod_pow2 by lia. Qed.

(** One stage of the reversal: neighbouring blocks of [n] bits are swapped. *)
Definition swap_stage (v m n : Z) : Z :=
  Z.lor (Z.land (Z.shiftr v n) m) (u32 (Z.shiftl (Z.land v m) n)).

(** Bit positions are checked one by one. *)
Lemma check32 (P : Z → bool) : forallb P (seqZ 0 32) = true → ∀ i, 0 <= i < 32 → P i = true.
Proof. intros H i Hi. rewrite forallb_forall in H. apply H, list_elem_of_In, elem_of_seqZ. lia. Qed.

(** The mask [m] selects the lower block of every pair of blocks of [n] bits. *)
Definition mask_swaps (m n : Z) : bool :=
  forallb (λ i, let j := Z.lxor i n in (j <? 32) && (0 <=? j) &&
    if Z.testbit m i then (i + n =? j) && negb (Z.testbit m (i - n))
    else (i - n =? j) && Z.testbit m (i - n)) (seqZ 0 32).

Lemma swap_stage_bit v m n i : 0 <= n → mask_swaps m n = true → 0 <= i < 32 →
  0 <= Z.lxor i n < 32 ∧ Z.testbit (swap_stage v m n) i = Z.testbit v (Z.lxor i n).
Proof.
  intros Hn Hm Hi. pose proof (check32 _ Hm i Hi) as H. cbv zeta in H. clear Hm.
  apply andb_true_iff in H as [[H1 H2]%andb_true_iff H]. zb. split; [lia|].
  unfold swap_stage.
  rewrite Z.lor_spec, Z.land_spec, Z.shiftr_spec, u32_testbit, Z.shiftl_spec, Z.land_spec by lia.
  rewrite (proj2 (Z.ltb_lt i 32)) by lia. cbn [andb].
  destruct (Z.testbit m i).
  - apply andb_true_iff in H as [H3 H4%negb_true_iff]. zb. rewrite H4, H3. by rewrite andb_false_r, orb_false_r, andb_true_r.
  - apply andb_true_iff in H as [H3 H4]. zb. rewrite H4, H3. by rewrite andb_false_r, andb_true_r.
Qed.

Lemma swap_stage_high v m n i : 0 <= m < 2 ^ 32 → 32 <= i → 0 <= n → Z.testbit (swap_stage v m n) i = false.
Proof.
  intros Hm Hi Hn. unfold swap_stage. rewrite Z.lor_spec, Z.land_spec, u32_testbit by lia.
  rewrite <- (Z.mod_small m (2 ^ 32)), Z.testbit_mod_pow2, (proj2 (Z.ltb_ge i 32)) by lia.
  by rewrite andb_false_r.
Qed.

Lemma reverse_stages v : v <> 0 → reverse_bits v =
  let w := swap_stage (swap_stage (swap_stage (swap_stage v 0x55555555 1) 0x33333333 2) 0x0F0F0F0F 4) 0x00FF00FF 8 in
  Z.lor (Z.shiftr w 16) (u32 (Z.shiftl w 16)).
Proof. intros Hv. unfold reverse_bits. by rewrite (proj2 (Z.eqb_neq v 0)). Qed.

(** The four masked stages and the exchange of the halves flip the five bits of
    a position. *)
Lemma reverse_bit v i : 0 <= i < 32 → Z.testbit (reverse_bits v) i = Z.testbit v (31 - i).
Proof.
  intros Hi. destruct (Z.eq_dec v 0) as [->|Hz]; [by rewrite !Z.testbit_0_l|].
  rewrite reverse_stages by done. cbv zeta.
  assert (∀ j, 0 <= j < 32 → Z.testbit (swap_stage (swap_stage (swap_stage (swap_stage v 0x55555555 1)
    0x33333333 2) 0x0F0F0F0F 4) 0x00FF00FF 8) j = Z.testbit v (Z.lxor j 15)) as H.
  { intros j Hj.
    destruct (swap_stage_bit (swap_stage (swap_stage (swap_stage v 0x55555555 1) 0x33333333 2) 0x0F0F0F0F 4)
      0x00FF00FF 8 j) as [H1 ->]; [done..|].
    destruct (swap_stage_bit (swap_stage (swap_stage v 0x55555555 1) 0x33333333 2) 0x0F0F0F0F 4 (Z.lxor j 8))
      as [H2 ->]; [done..|].
    destruct (swap_stage_bit (swap_stage v 0x55555555 1) 0x33333333 2 (Z.lxor (Z.lxor j 8) 4)) as [H3 ->]; [done..|].
    destruct (swap_stage_bit v 0x55555555 1 (Z.lxor (Z.lxor (Z.lxor j 8) 4) 2)) as [H4 ->]; [done..|].
    by rewrite !Z.lxor_assoc. }
  rewrite Z.lor_spec, Z.shiftr_spec, u32_testbit, Z.shiftl_spec by lia.
  rewrite (proj2 (Z.ltb_lt i 32)) by lia. cbn [andb].
  destruct (Z.lt_ge_cases i 16).
  - rewrite H by lia. rewrite (Z.testbit_neg_r _ (i - 16)), orb_false_r by lia. f_equal.
    assert ((16 <=? i) || (Z.lxor (i + 16) 15 =? 31 - i) = true) as Hx
      by (apply (check32 (λ i, (16 <=? i) || (Z.lxor (i + 16) 15 =? 31 - i))); [reflexivity|lia]).
    apply orb_true_iff in Hx as [?|?]; zb; lia.
  - rewrite swap_stage_high, H by lia. cbn [orb]. f_equal.
    assert ((i <? 16) || (Z.lxor (i - 16) 15 =? 31 - i) = true) as Hx
      by (apply (check32 (λ i, (i <? 16) || (Z.lxor (i - 16) 15 =? 31 - i))); [reflexivity|lia]).
    apply orb_true_iff in Hx as [?|?]; zb; lia.
Qed.

Lemma reverse_high v i : 0 <= v < 2 ^ 32 → 32 <= i → Z.testbit (reverse_bits v) i = false.
Proof.
  intros Hv Hi. destruct (Z.eq_dec v 0) as [->|Hz]; [by rewrite Z.testbit_0_l|].
  rewrite reverse_stages by done. cbv zeta.
  rewrite Z.lor_spec, Z.shiftr_spec, swap_stage_high, u32_testbit, (proj2 (Z.ltb_ge i 32)) by lia. done.
Qed.

Lemma bits_bound v n : 0 <= n → (∀ i, n <= i → Z.testbit v i = false) → 0 <= v < 2 ^ n.
Proof.
  intros Hn H. assert (v = v mod 2 ^ n) as ->.
  { apply Z.bits_inj'. intros i Hi. rewrite Z.testbit_mod_pow2 by done.
    destruct (Z.ltb_spec i n); [done|]. by rewrite H. }
  apply Z.mod_pos_bound. lia.
Qed.

Lemma reverse_range v : 0 <= v < 2 ^ 32 → 0 <= reverse_bits v < 2 ^ 32.
Proof. intros Hv. apply bits_bound; [lia|]. intros i Hi. by apply reverse_high. Qed.

Lemma reverse_involutive v : 0 <= v < 2 ^ 32 → reverse_bits (reverse_bits v) = v.
Proof.
  intros Hv. apply Z.bits_inj'. intros i Hi. destruct (Z.lt_ge_cases i 32).
  - rewrite !reverse_bit by lia. f_equal. lia.
  - rewrite reverse_high by (auto using reverse_range; lia).
    by rewrite <- (Z.mod_small v (2 ^ 32)), Z.mod_pow2_bits_high by lia.
Qed.

(** The low bits of a hash are the high bits of its reversal. *)
Lemma reverse_suffix v s b : 0 <= v < 2 ^ 32 → 0 <= b <= 32 → 0 <= s < 2 ^ b →
  v mod 2 ^ b = s ↔ reverse_bits v / 2 ^ (32 - b) = reverse_bits s / 2 ^ (32 - b).
Proof.
  intros Hv Hb Hs. pose proof (pow2_le b 32). split; intros E.
  - apply Z.bits_inj'. intros i Hi. rewrite !Z.div_pow2_bits by lia.
    destruct (Z.lt_ge_cases (i + (32 - b)) 32); [|by rewrite !reverse_high by lia].
    rewrite !reverse_bit by lia. subst s. by rewrite Z.mod_pow2_bits_low by lia.
  - apply Z.bits_inj'. intros i Hi. rewrite Z.testbit_mod_pow2 by lia.
    destruct (Z.ltb_spec i b); cbn [andb].
    2: by rewrite <- (Z.mod_small s (2 ^ b)), Z.mod_pow2_bits_high by lia.
    apply (f_equal (λ z, Z.testbit z (31 - i - (32 - b)))) in E. rewrite !Z.div_pow2_bits in E by lia.
    rewrite !reverse_bit in E by lia. by replace (31 - (31 - i - (32 - b) + (32 - b))) with i in E by lia.
Qed.

Lemma reverse_aligned s b : 0 <= b <= 32 → 0 <= s < 2 ^ b → reverse_bits s mod 2 ^ (32 - b) = 0.
Proof.
  intros Hb Hs. pose proof (pow2_le b 32). apply Z.bits_inj'. intros i Hi.
  rewrite Z.testbit_mod_pow2, Z.bits_0 by lia. destruct (Z.ltb_spec i (32 - b)); [|done]. cbn [andb].
  rewrite reverse_bit by lia. by rewrite <- (Z.mod_small s (2 ^ b)), Z.mod_pow2_bits_high by lia.
Qed.

(** The end of the range of a group, as the code computes it. *)
Lemma rev_end_eq s b : 0 <= b <= 32 → 0 <= s < 2 ^ b →
  Z.lor (reverse_bits s) (Z.shiftr 0xffffffff b) + 1 = reverse_bits s + 2 ^ (32 - b).
Proof.
  intros Hb Hs. pose proof (reverse_aligned s b Hb Hs) as E. pose proof (pow2_le (32 - b) 32).
  assert (Z.shiftr 0xffffffff b = 2 ^ (32 - b) - 1) as ->.
  { rewrite Z.shiftr_div_pow2 by lia. pose proof (pow2_le b 32). symmetry. apply (Z.div_unique _ _ _ (2 ^ b - 1)); [lia|].
    change 0xffffffff with (2 ^ 32 - 1). replace (2 ^ 32) with (2 ^ b * 2 ^ (32 - b)) by (rewrite <- Z.pow_add_r by lia; f_equal; lia).
    lia. }
  pose proof (Z.div_mod (reverse_bits s) (2 ^ (32 - b))) as D. rewrite E in D.
  replace (reverse_bits s) with (Z.shiftl (reverse_bits s / 2 ^ (32 - b)) (32 - b)) at 1
    by (rewrite Z.shiftl_mul_pow2 by lia; lia).
  rewrite lor_low by lia. lia.
Qed.

Lemma div_interval x y n : 0 < n → y mod n = 0 → (x / n = y / n ↔ y <= x < y + n).
Proof.
  intros Hn Hy. pose proof (Z.div_mod x n). pose proof (Z.div_mod y n).
  pose proof (Z.mod_pos_bound x n). nia.
Qed.

Lemma aligned_le r a n : 0 < n → 0 <= r < a * n → r mod n = 0 → r + n <= a * n.
Proof.
  intros Hn Hr Hm. pose proof (Z.div_mod r n). assert (r / n < a) by (apply Z.div_lt_upper_bound; lia). nia.
Qed.

(** Against a boundary (an object without names), a named object is compared by
    its reversed hash, and follows the boundary of equal hash. *)
Lemma cmp_boundary o q h : h_max o = false → h_pool o = q → h_oid o <> [] →
  hobj_lt o (mk_hobj false q h [] [] [] CEPH_NOSNAP) = (reverse_bits (h_hash o) <? reverse_bits h).
Proof.
  intros Hm Hq Ho. unfold hobj_lt, hobj_cmp, get_bitwise_key, get_effective_key.
  cbn [h_max h_pool h_hash h_nspace h_key h_oid h_snap]. rewrite Hm, Hq, !Z.compare_refl. cbn [then_cmp].
  unfold Z.ltb. destruct (_ ?= _); [|done..]. cbn [then_cmp].
  destruct (h_nspace o), (h_key o), (h_oid o); done.
Qed.

Lemma cmp_max o : h_max o = false → hobj_lt o hobj_get_max = true.
Proof. intros Hm. unfold hobj_lt, hobj_cmp. by rewrite Hm. Qed.

(** [C28] In the order of the object store a placement group is one interval: an
    object of the pool (with a name, as all but the group's own metadata object
    have) belongs to the group exactly when it lies between [get_hobj_start] and
    [get_hobj_end]. *)
Theorem pg_range_correct p pg : pool_ok p → 0 <= m_seed pg < pg_num p →
  ∃ e, get_hobj_end pg (pg_num p) = Ok e ∧
    ∀ o, h_max o = false → h_pool o = s64 (m_pool pg) → h_oid o <> [] → 0 <= h_hash o < 2 ^ 32 →
      raw_hash_to_pg p (h_hash o) = m_seed pg ↔
      hobj_lt o (get_hobj_start pg) = false ∧ hobj_lt o e = true.
Proof.
  intros Hp Hs. destruct (split_bits_spec p pg Hp Hs) as (bits & E & Hb & Hlt & _ & H).
  pose proof (pow2_le bits 32). pose proof (pow2_le (32 - bits) 32).
  assert (0 <= m_seed pg < 2 ^ 32) as Hs32 by lia.
  pose proof (reverse_range _ Hs32) as Hr. pose proof (reverse_aligned (m_seed pg) bits ltac:(lia) ltac:(lia)) as Ha.
  assert (reverse_bits (m_seed pg) + 2 ^ (32 - bits) <= 2 ^ 32) as Hle.
  { assert (2 ^ 32 = 2 ^ bits * 2 ^ (32 - bits)) as E32 by (rewrite <- Z.pow_add_r by lia; f_equal; lia).
    rewrite E32. apply aligned_le; lia. }
  unfold get_hobj_end. rewrite E. cbn [bind]. rewrite rev_end_eq by lia.
  set (rev_end := reverse_bits (m_seed pg) + 2 ^ (32 - bits)) in *.
  assert (∀ v, 0 <= v < 2 ^ 32 → raw_hash_to_pg p v = m_seed pg ↔
    reverse_bits (m_seed pg) <= reverse_bits v < rev_end) as Hin.
  { intros v Hv. rewrite H, (reverse_suffix v) by lia. apply div_interval; lia. }
  destruct (Z.leb_spec 0x100000000 rev_end).
  - rewrite (proj2 (Z.eqb_eq _ _)) by lia. cbn [assert bind]. eexists. split; [done|].
    intros o Hm Hq Ho Hh. unfold get_hobj_start. rewrite cmp_boundary, cmp_max, Hin, Z.ltb_ge by done.
    pose proof (reverse_range _ Hh). lia.
  - eexists. split; [done|]. intros o Hm Hq Ho Hh. unfold get_hobj_start.
    rewrite !cmp_boundary, reverse_involutive, Hin, Z.ltb_ge, Z.ltb_lt by (done || lia). done.
Qed.

Lemma pg_range_correct_witness :
  ∃ e, get_hobj_end (mk_pg 2 5 (-1)) 12 = Ok e ∧
    (raw_hash_to_pg (sample_pool 12) 0x7fc1f40d = 5 ↔
     hobj_lt (mk_hobj false 2 0x7fc1f40d [] [] [102] CEPH_NOSNAP) (get_hobj_start (mk_pg 2 5 (-1))) = false ∧
     hobj_lt (mk_hobj false 2 0x7fc1f40d [] [] [102] CEPH_NOSNAP) e = true).
Proof.
  destruct (pg_range_correct (sample_pool 12) (mk_pg 2 5 (-1))) as (e & E & H);
    [by apply sample_pool_ok|done|].
  exists e. split; [exact E|].
  apply (H (mk_hobj false 2 0x7fc1f40d [] [] [102] CEPH_NOSNAP)); done.
Defined.

(** The bits of the random position that are replaced by the seed. *)
Definition position_mask (p : pg_pool_t) (pg : pg_t) : Z :=
  if pg_num p =? u32 (pg_num_mask p + 1) then pg_num_mask p
  else if Z.land (m_seed pg) (Z.shiftr (pg_num_mask p) 1) <? Z.land (pg_num p) (Z.shiftr (pg_num_mask p) 1)
  then pg_num_mask p else Z.shiftr (pg_num_mask p) 1.

Lemma position_mask_divisor p pg : pool_ok p → position_mask p pg = get_pg_num_divisor p pg - 1.
Proof.
  intros []. pose proof (mask_bits _ ok_pg_num0) as [HK ?]. unfold position_mask, get_pg_num_divisor.
  rewrite ok_pg_mask0. set (K := cbits (pg_num p - 1)) in *. rewrite Z.sub_add. pose proof (pow2_le K 30).
  wrap_small. destruct (Z.eqb_spec (pg_num p) (2 ^ K)) as [->|]; [done|].
  assert (0 < K). { destruct (Z.eq_dec K 0) as [E|]; [rewrite E in *|]; lia. }
  destruct (_ <? _); [done|]. rewrite half_mask by lia. f_equal.
  rewrite Z.shiftr_div_pow2 by lia. replace K with (K - 1 + 1) at 2 by lia.
  by rewrite Z.pow_add_r, Z.div_mul by lia.
Qed.

(** A random position drawn for a placement group is a hash of that group,
    whatever the seed of the draw. *)
Theorem random_position_in_pg p pg seed : pool_ok p → 0 <= m_seed pg < pg_num p →
  raw_hash_to_pg p (get_random_pg_position p pg seed) = m_seed pg.
Proof.
  intros Hp Hs. destruct (split_bits_spec p pg Hp Hs) as (bits & _ & Hb & Hlt & Hd & H).
  apply H. change (Z.lor (Z.land (crush_hash32_2 CRUSH_HASH_RJENKINS1 seed 123) (u32 (Z.lnot (position_mask p pg))))
    (m_seed pg) mod 2 ^ bits = m_seed pg). rewrite position_mask_divisor, Hd by done.
  apply Z.bits_inj'. intros i Hi. rewrite Z.testbit_mod_pow2 by lia.
  destruct (Z.ltb_spec i bits); cbn [andb].
  2: by rewrite <- (Z.mod_small (m_seed pg) (2 ^ bits)), Z.mod_pow2_bits_high by lia.
  rewrite Z.lor_spec, Z.land_spec, u32_testbit, Z.lnot_spec by lia.
  rewrite Z.sub_1_r, <- Z.ones_equiv, Z.ones_spec_low by lia.
  by rewrite !andb_false_r.
Qed.

Lemma random_position_in_pg_witness :
  raw_hash_to_pg (sample_pool 12) (get_random_pg_position (sample_pool 12) (mk_pg 2 5 (-1)) 42) = 5.
Proof.
  apply (random_position_in_pg (sample_pool 12) (mk_pg 2 5 (-1)) 42); [by apply sample_pool_ok|done].
Defined.
End PgSplit.
