(* ===== verification/OSDMap.v ===== *)
(** * The OSD map: from a placement group to its OSDs (osd/OSDMap.cc, osd/OSDMap.h)

    The pipeline that every client and daemon runs: the placement seed goes
    through CRUSH, OSDs that do not exist are dropped, explicit remappings
    ([pg_upmap], [pg_upmap_items]) are applied, OSDs that are down are dropped,
    the primary is picked with regard to primary affinity, and the temporary
    mappings override the acting set.  CRUSH is used through an interface, the
    class [CrushPlacer]; CrushWrapper.v has the instance. *)
From stdpp Require Import gmap.
From S2P Require Import Prelude CrushMapper PgPool.

(** What the OSD map asks of a CRUSH implementation: the number of the rule for
    a pool, and the devices a rule selects. *)
Class CrushPlacer (C : Type) : Type := {
  find_rule : C → Z → Z → Z → res Z;
  do_rule : C → Z → Z → Z → list Z → Z → res (list Z)
}.

(** ... and what it promises: under [placer_ok c weights sz] every rule that is
    found for a pool of size [sz] is executed to its end and returns at most [sz]
    entries. *)
Class PlacerLaws (C : Type) `{CrushPlacer C} : Type := {
  placer_ok : C → list Z → Z → Prop;
  find_rule_total c ws sz ruleset type :
    placer_ok c ws sz → 0 <= ruleset → ∃ n, find_rule c ruleset type sz = Ok n;
  do_rule_bounded c ws sz ruleset type n x idx :
    placer_ok c ws sz → find_rule c ruleset type sz = Ok n → 0 <= n →
    ∃ osds, do_rule c n x sz ws idx = Ok osds ∧ Z.of_nat (length osds) <= sz
}.

Module OSDMap.
Import CrushHash PgPool.
Abbreviation CRUSH_ITEM_NONE := Crush.CRUSH_ITEM_NONE.

Definition CEPH_OSD_EXISTS : Z := 1.
Definition CEPH_OSD_UP : Z := 2.
Definition CEPH_OSD_MAX_PRIMARY_AFFINITY : Z := 0x10000.
Definition CEPH_OSD_DEFAULT_PRIMARY_AFFINITY : Z := 0x10000.
Definition ENOENT : Z := 2.

Record osd_map (C : Type) : Type := mk_osdmap {
  max_osd : Z;
  osd_state : list Z;
  osd_weight : list Z;
  osd_primary_affinity : option (list Z);
  pools : gmap Z pg_pool_t;
  pg_temp : gmap pg_t (list Z);
  primary_temp : gmap pg_t Z;
  pg_upmap : gmap pg_t (list Z);
  pg_upmap_items : gmap pg_t (list (Z * Z));
  crush : C
}.
Arguments mk_osdmap {C}.
Arguments max_osd {C}. Arguments osd_state {C}. Arguments osd_weight {C}.
Arguments osd_primary_affinity {C}. Arguments pools {C}. Arguments pg_temp {C}.
Arguments primary_temp {C}. Arguments pg_upmap {C}. Arguments pg_upmap_items {C}.
Arguments crush {C}.

Section Placement.
Context {C : Type} `{CrushPlacer C}.
Implicit Types m : osd_map C.

(** ** The state of an OSD *)

Definition has_state m (osd bit : Z) : res bool :=
  s <- zget (osd_state m) osd;;
  Ok (negb (Z.land s bit =? 0)).
Definition exists_osd m (osd : Z) : res bool :=
  if (0 <=? osd) && (osd <? max_osd m) then has_state m osd CEPH_OSD_EXISTS else Ok false.
Definition is_up m (osd : Z) : res bool :=
  e <- exists_osd m osd;;
  if e then has_state m osd CEPH_OSD_UP else Ok false.
Definition is_down m (osd : Z) : res bool :=
  u <- is_up m osd;; Ok (negb u).
(** [!exists(osd) || is_down(osd)], the test of every loop below. *)
Definition dne_or_down m (osd : Z) : res bool :=
  e <- exists_osd m osd;;
  if negb e then Ok true else is_down m osd.

(** ** From object names to placement groups *)

Definition map_to_pg m (poolid : Z) (name key nspace : list Z) : Z + pg_t :=
  match pools m !! poolid with
  | None => inl (- ENOENT)
  | Some pool =>
      let ps := hash_key pool (match key with [] => name | _ => key end) nspace in
      inr (mk_pg poolid ps (-1))
  end.

Record object_locator_t : Type := mk_locator {
  l_pool : Z;
  l_key : list Z;
  l_nspace : list Z;
  l_hash : Z
}.

Definition object_locator_to_pg m (oid : list Z) (loc : object_locator_t) : Z + pg_t :=
  if 0 <=? l_hash loc then
    match pools m !! l_pool loc with
    | None => inl (- ENOENT)
    | Some _ => inr (mk_pg (l_pool loc) (u32 (l_hash loc)) (-1))
    end
  else map_to_pg m (l_pool loc) oid (l_key loc) (l_nspace loc).

(** ** Raw mapping *)

(** The compaction loop over [osds] from position [i]. *)
Fixpoint compact_loop (fuel : nat) m (i removed : Z) (osds : list Z) : res (Z * list Z) :=
  match fuel with
  | O => Ok (removed, osds)
  | S fuel =>
      osd <- zget osds i;;
      e <- exists_osd m osd;;
      if negb e then compact_loop fuel m (i + 1) (removed + 1) osds
      else
        osds <- (if negb (removed =? 0) then zset osds (i - removed) osd else Ok osds);;
        compact_loop fuel m (i + 1) removed osds
  end.

Fixpoint blank_nonexistent m (osds : list Z) : res (list Z) :=
  match osds with
  | [] => Ok []
  | osd :: osds =>
      e <- exists_osd m osd;;
      rest <- blank_nonexistent m osds;;
      Ok ((if negb e then CRUSH_ITEM_NONE else osd) :: rest)
  end.

Definition _remove_nonexistent_osds m (pool : pg_pool_t) (osds : list Z) : res (list Z) :=
  shift <- can_shift_osds pool;;
  if shift then
    '(removed, osds) <- compact_loop (length osds) m 0 0 osds;;
    Ok (if negb (removed =? 0) then take (length osds - Z.to_nat removed) osds else osds)
  else blank_nonexistent m osds.

Definition _pg_to_raw_osds m (pool : pg_pool_t) (pg : pg_t) : res (list Z * Z) :=
  let pps := raw_pg_to_pps pool pg in
  ruleno <- find_rule (crush m) (crush_rule pool) (type pool) (size pool);;
  osds <- (if 0 <=? ruleno
           then do_rule (crush m) ruleno (s32 pps) (size pool) (osd_weight m) (m_pool pg)
           else Ok []);;
  osds <- _remove_nonexistent_osds m pool osds;;
  Ok (osds, pps).

Fixpoint _pick_primary (osds : list Z) : Z :=
  match osds with
  | [] => -1
  | osd :: osds => if negb (osd =? CRUSH_ITEM_NONE) then osd else _pick_primary osds
  end.

(** ** Explicit remappings *)

(** [osd != NONE && osd < max_osd && osd_weight\[osd\] == 0]: the target is out. *)
Definition target_out m (osd : Z) : res bool :=
  if negb (osd =? CRUSH_ITEM_NONE) && (osd <? max_osd m) then
    w <- zget (osd_weight m) osd;; Ok (w =? 0)
  else Ok false.
Fixpoint any_target_out m (osds : list Z) : res bool :=
  match osds with
  | [] => Ok false
  | osd :: osds => o <- target_out m osd;; if o then Ok true else any_target_out m osds
  end.

(** The inner loop of the item remapping: the first pair for [i] decides. *)
Fixpoint upmap_item m (items : list (Z * Z)) (i : Z) : res Z :=
  match items with
  | [] => Ok i
  | r :: items =>
      if negb (r.1 =? i) then upmap_item m items i
      else o <- target_out m r.2;; Ok (if negb o then r.2 else i)
  end.
Fixpoint upmap_items m (items : list (Z * Z)) (raw : list Z) : res (list Z) :=
  match raw with
  | [] => Ok []
  | i :: raw => i' <- upmap_item m items i;; rest <- upmap_items m items raw;; Ok (i' :: rest)
  end.

Definition _apply_upmap m (pi : pg_pool_t) (raw_pg : pg_t) (raw : list Z) : res (list Z) :=
  let pg := raw_pg_to_pg pi raw_pg in
  let items raw :=
    match pg_upmap_items m !! pg with
    | None => Ok raw
    | Some q => upmap_items m q raw
    end in
  match pg_upmap m !! pg with
  | None => items raw
  | Some p => o <- any_target_out m p;; if o then Ok raw else items p
  end.

(** ** Up set and primary *)

Fixpoint live_only m (raw : list Z) : res (list Z) :=
  match raw with
  | [] => Ok []
  | osd :: raw =>
      d <- dne_or_down m osd;;
      rest <- live_only m raw;;
      Ok (if d then rest else osd :: rest)
  end.
Fixpoint live_or_none m (raw : list Z) : res (list Z) :=
  match raw with
  | [] => Ok []
  | osd :: raw =>
      d <- dne_or_down m osd;;
      rest <- live_or_none m raw;;
      Ok ((if d then CRUSH_ITEM_NONE else osd) :: rest)
  end.
Definition _raw_to_up_osds m (pool : pg_pool_t) (raw : list Z) : res (list Z) :=
  shift <- can_shift_osds pool;;
  if shift then live_only m raw else live_or_none m raw.

Fixpoint any_affinity (aff osds : list Z) : res bool :=
  match osds with
  | [] => Ok false
  | osd :: osds =>
      if osd =? CRUSH_ITEM_NONE then any_affinity aff osds
      else
        a <- zget aff osd;;
        if negb (a =? CEPH_OSD_DEFAULT_PRIMARY_AFFINITY) then Ok true else any_affinity aff osds
  end.

(** The search for the primary from position [i]: the first OSD that accepts,
    else the first OSD there is ([pos]). *)
Fixpoint pick_position (aff : list Z) (seed : Z) (osds : list Z) (i pos : Z) : res Z :=
  match osds with
  | [] => Ok pos
  | o :: osds =>
      if o =? CRUSH_ITEM_NONE then pick_position aff seed osds (i + 1) pos
      else
        a <- zget aff o;;
        if (a <? CEPH_OSD_MAX_PRIMARY_AFFINITY) &&
           (a <=? Z.shiftr (crush_hash32_2 CRUSH_HASH_RJENKINS1 seed o) 16)
        then pick_position aff seed osds (i + 1) (if pos <? 0 then i else pos)
        else Ok i
  end.

(** [for (i = pos; i > 0; --i) osds\[i\] = osds\[i-1\]]. *)
Fixpoint shift_right (i : nat) (osds : list Z) : res (list Z) :=
  match i with
  | O => Ok osds
  | S i' =>
      o <- zget osds (Z.of_nat i');;
      osds <- zset osds (Z.of_nat i) o;;
      shift_right i' osds
  end.

Definition _apply_primary_affinity m (seed : Z) (pool : pg_pool_t) (osds : list Z) (primary : Z)
    : res (list Z * Z) :=
  match osd_primary_affinity m with
  | None => Ok (osds, primary)
  | Some aff =>
      any <- any_affinity aff osds;;
      if negb any then Ok (osds, primary)
      else
        pos <- pick_position aff seed osds 0 (-1);;
        if pos <? 0 then Ok (osds, primary)
        else
          primary <- zget osds pos;;
          shift <- can_shift_osds pool;;
          if shift && (0 <? pos) then
            osds <- shift_right (Z.to_nat pos) osds;;
            osds <- zset osds 0 primary;;
            Ok (osds, primary)
          else Ok (osds, primary)
  end.

(** ** Temporary mappings *)

Fixpoint temp_osds m (shift : bool) (osds : list Z) : res (list Z) :=
  match osds with
  | [] => Ok []
  | osd :: osds =>
      d <- dne_or_down m osd;;
      rest <- temp_osds m shift osds;;
      Ok (if d then (if shift then rest else CRUSH_ITEM_NONE :: rest) else osd :: rest)
  end.

Definition _get_temp_osds m (pool : pg_pool_t) (pg : pg_t) : res (list Z * Z) :=
  let pg := raw_pg_to_pg pool pg in
  temp_pg <- match pg_temp m !! pg with
             | None => Ok []
             | Some p => shift <- can_shift_osds pool;; temp_osds m shift p
             end;;
  Ok (temp_pg, match primary_temp m !! pg with
               | Some pp => pp
               | None => _pick_primary temp_pg
               end).

(** ** The mappings offered to callers *)

Definition pg_to_raw_osds m (pg : pg_t) : res (list Z * Z) :=
  match pools m !! m_pool pg with
  | None => Ok ([], -1)
  | Some pool =>
      '(raw, _) <- _pg_to_raw_osds m pool pg;;
      Ok (raw, _pick_primary raw)
  end.

Definition pg_to_raw_up m (pg : pg_t) : res (list Z * Z) :=
  match pools m !! m_pool pg with
  | None => Ok ([], -1)
  | Some pool =>
      '(raw, pps) <- _pg_to_raw_osds m pool pg;;
      raw <- _apply_upmap m pool pg raw;;
      up <- _raw_to_up_osds m pool raw;;
      _apply_primary_affinity m pps pool up (_pick_primary raw)
  end.

(** The up set and its primary, as [_pg_to_up_acting_osds] computes them. *)
Definition compute_up m (pool : pg_pool_t) (pg : pg_t) : res (list Z * Z) :=
  '(raw, pps) <- _pg_to_raw_osds m pool pg;;
  raw <- _apply_upmap m pool pg raw;;
  up <- _raw_to_up_osds m pool raw;;
  _apply_primary_affinity m pps pool up (_pick_primary up).

(** [need_up] tells whether the caller passed pointers for the up set; the
    results it did not ask for are [None]. *)
Definition _pg_to_up_acting_osds m (pg : pg_t) (need_up fold_pg : bool)
    : res (option (list Z * Z) * (list Z * Z)) :=
  let nothing := Ok ((if need_up then Some ([], -1) else None), ([], -1)) in
  match pools m !! m_pool pg with
  | None => nothing
  | Some pool =>
      if negb fold_pg && (pg_num pool <=? m_seed pg) then nothing
      else
        '(acting, acting_primary) <- _get_temp_osds m pool pg;;
        if bool_decide (acting = []) || need_up then
          '(up, up_primary) <- compute_up m pool pg;;
          let acting' := if bool_decide (acting = []) then up else acting in
          let acting_primary' :=
            if bool_decide (acting = []) && (acting_primary =? -1) then up_primary
            else acting_primary in
          Ok ((if need_up then Some (up, up_primary) else None), (acting', acting_primary'))
        else Ok (None, (acting, acting_primary))
  end.

Definition pg_to_acting_osds m (pg : pg_t) : res (list Z * Z) :=
  '(_, acting) <- _pg_to_up_acting_osds m pg false true;; Ok acting.
Definition pg_to_up_acting_osds m (pg : pg_t) : res (option (list Z * Z) * (list Z * Z)) :=
  _pg_to_up_acting_osds m pg true true.
End Placement.

(** ** Ranks and changes of the primary *)

Fixpoint rank_from (osd : Z) (acting : list Z) (i : Z) (n : nat) : res Z :=
  match n with
  | O => Ok (-1)
  | S n => a <- zget acting i;; if a =? osd then Ok i else rank_from osd acting (i + 1) n
  end.
Definition calc_pg_rank (osd : Z) (acting : list Z) (nrep : Z) : res Z :=
  let nrep := if nrep =? 0 then Z.of_nat (length acting) else nrep in
  rank_from osd acting 0 (Z.to_nat nrep).

Definition primary_changed (oldprimary : Z) (oldacting : list Z) (newprimary : Z)
    (newacting : list Z) : res bool :=
  if bool_decide (oldacting = []) && bool_decide (newacting = []) then Ok false
  else if xorb (bool_decide (oldacting = [])) (bool_decide (newacting = [])) then Ok true
  else if negb (oldprimary =? newprimary) then Ok true
  else
    r <- calc_pg_rank oldprimary oldacting 0;;
    r' <- calc_pg_rank newprimary newacting 0;;
    Ok (negb (r =? r')).

End OSDMap.
