(* ===== verification/CrushWrapper.v ===== *)
(** * CrushWrapper: the face of CRUSH towards the OSD map (crush/CrushWrapper.h)

    [find_rule], [choose_args_get_with_fallback] and [do_rule] of the C++ class
    around the C map, and the proof that they implement the interface
    [CrushPlacer] that the OSD map is verified against. *)
From stdpp Require Import gmap.
From S2P Require Import Prelude CrushMapper CrushChoose CrushBucket CrushFirstn CrushIndep CrushRule CrushBuilder CrushMapBuild OSDMap.

Module Wrapper.
Import Crush Choose Bucket Firstn Indep Rule MapBuild.

Definition DEFAULT_CHOOSE_ARGS : Z := -1.

(** The object, and what a call finds outside of it: [w_stack] is the content of
    the stack memory the working space is laid over, [w_fuel] bounds the number of
    turns of the descents. *)
Record CrushWrapper : Type := mk_wrapper {
  w_crush : option crush_map;
  have_uniform_rules : bool;
  choose_args : gmap Z (list crush_choose_arg);
  w_stack : list (list Z);
  w_fuel : nat
}.

Definition find_rule (w : CrushWrapper) (rset type size : Z) : res Z :=
  match w_crush w with
  | None => Ok (-1)
  | Some map =>
      if negb (have_uniform_rules w) then Ok (crush_find_rule map rset type size)
      else if rset <? max_rules map then
        r <- zget (rules map) rset;;
        Ok (match r with Some _ => rset | None => -1 end)
      else Ok (-1)
  end.

(** The weight set of the pool, else the default one, else none. *)
Definition choose_args_get_with_fallback (w : CrushWrapper) (choose_args_index : Z)
    : option (list crush_choose_arg) :=
  match choose_args w !! choose_args_index with
  | Some a => Some a
  | None => choose_args w !! DEFAULT_CHOOSE_ARGS
  end.

Definition do_rule (w : CrushWrapper) (rule x maxout : Z) (weight : list Z) (choose_args_index : Z)
    : res (list Z) :=
  map <- deref (w_crush w);;
  work <- crush_init_workspace map (w_stack w);;
  '(rawout, _) <- crush_do_rule (w_fuel w) map x maxout weight (Z.of_nat (length weight))
                    (choose_args_get_with_fallback w choose_args_index) rule work;;
  Ok rawout.

#[export] Instance wrapper_placer : CrushPlacer CrushWrapper :=
  { OSDMap.find_rule := find_rule; OSDMap.do_rule := do_rule }.

(** ** The interface is implemented *)

(** The setting in which rules are executed to their end: a well-formed map with
    a correct working size, weight sets that fit, a [chooseleaf_vary_r] that the shift
    of the mapper is defined for, and rules whose numbers respect the bounds [T] and
    [R]. *)
Record wrapper_setting (w : CrushWrapper) (map : crush_map) (rank : Z → nat) (D : nat)
    (T R : Z) (ws : list Z) (sz : Z) : Prop := {
  ws_map : w_crush w = Some map;
  ws_placement idx : placement_setting map rank D ws (Z.of_nat (length ws))
    (choose_args_get_with_fallback w idx) T R (w_fuel w) sz;
  ws_rules i rule : rules map !! i = Some (Some rule) → Forall (step_ok T R) (steps rule);
  ws_shift : shift_ok (chooseleaf_vary_r map);
  ws_count : max_rules map < 2 ^ 31;
  ws_working_size : working_size map = sizeof_crush_work + max_buckets map * sizeof_pointer
    + (init_work_buckets (buckets map) (w_stack w)).2;
  ws_stack : memory_for map (w_stack w)
}.

Definition wrapper_ok (w : CrushWrapper) (ws : list Z) (sz : Z) : Prop :=
  ∃ map rank D T R, wrapper_setting w map rank D T R ws sz.

Lemma find_rule_from_spec rs i rset ty sz n :
  0 <= i → i + Z.of_nat (length rs) < 2 ^ 31 → crush_find_rule_from i rs rset ty sz = n → 0 <= n →
  ∃ r, i <= n ∧ rs !! Z.to_nat (n - i) = Some (Some r) ∧
    ruleset (mask r) = rset ∧ mtype (mask r) = ty ∧ min_size (mask r) <= sz <= max_size (mask r).
Proof.
  revert i. induction rs as [|[r|] rs IH]; intros i Hi Hl E Hn; cbn [crush_find_rule_from length] in *; [lia| |].
  - destruct (_ && _) eqn:Em.
    + rewrite !andb_true_iff in Em. destruct Em as [[[E1 E2] E3] E4]. zb. rewrite s32_small in E by lia.
      subst n. exists r. split; [lia|]. by rewrite Z.sub_diag.
    + destruct (IH (i + 1)) as (r' & ? & E' & ?); [lia..|done|done|]. exists r'. split; [lia|].
      by replace (Z.to_nat (n - i)) with (S (Z.to_nat (n - (i + 1)))) by lia.
  - destruct (IH (i + 1)) as (r' & ? & E' & ?); [lia..|done|done|]. exists r'. split; [lia|].
    by replace (Z.to_nat (n - i)) with (S (Z.to_nat (n - (i + 1)))) by lia.
Qed.

(** A rule that is found exists. *)
Lemma find_rule_spec w map rset ty sz n : w_crush w = Some map → max_rules map < 2 ^ 31 →
  find_rule w rset ty sz = Ok n → 0 <= n →
  ∃ r, n < 2 ^ 31 ∧ rules map !! Z.to_nat n = Some (Some r).
Proof.
  intros Em Hc E Hn. unfold find_rule in E. rewrite Em in E. unfold max_rules in *.
  destruct (have_uniform_rules w); cbn [negb] in E.
  - destruct (Z.ltb_spec rset (Z.of_nat (length (rules map)))); [|injection E; lia].
    apply bind_inv in E as (o & Eo & E). apply zget_ok in Eo as [? Eo]. destruct o as [r|]; injection E as <-; [|lia].
    exists r. split; [lia|done].
  - injection E as E. destruct (find_rule_from_spec (rules map) 0 rset ty sz n) as (r & ? & E' & _); [lia..|done|done|].
    rewrite Z.sub_0_r in E'. exists r. apply lookup_lt_Some in E' as ?. split; [lia|done].
Qed.

Lemma wrapper_find_rule_ok w ws sz rset ty : wrapper_ok w ws sz → 0 <= rset → ∃ n, find_rule w rset ty sz = Ok n.
Proof.
  intros (map & rank & D & T & R & []) Hr. unfold find_rule. rewrite ws_map0.
  destruct (have_uniform_rules w); cbn [negb]; [|eauto]. unfold max_rules.
  destruct (Z.ltb_spec rset (Z.of_nat (length (rules map)))); [|eauto].
  destruct (zget_in (rules map) rset) as (r & -> & _); [lia|]. cbn [bind]. eauto.
Qed.

Lemma wrapper_do_rule_ok w ws sz rset ty n x idx : wrapper_ok w ws sz →
  find_rule w rset ty sz = Ok n → 0 <= n →
  ∃ osds, do_rule w n x sz ws idx = Ok osds ∧ Z.of_nat (length osds) <= sz.
Proof.
  intros (map & rank & D & T & R & []) E Hn.
  destruct (find_rule_spec w map rset ty sz n) as (r & Hn' & Er); [done..|].
  destruct (init_workspace_ok map (w_stack w)) as (wk & Ew & Hw); [done..|].
  destruct (ws_placement0 idx).
  destruct (Rule.do_rule_ok map rank D ws (Z.of_nat (length ws)) x (choose_args_get_with_fallback w idx))
    with (T := T) (R := R) (fuel := w_fuel w) (result_max := sz) (ruleno := n) (rule := r) (wk := wk)
    as (osds & wk' & Ed & _ & Hl & _); eauto; [lia..|].
  exists osds. unfold do_rule. rewrite ws_map0. cbn [deref bind]. rewrite Ew. cbn [bind]. by rewrite Ed.
Qed.

#[export] Instance wrapper_laws : PlacerLaws CrushWrapper :=
  { placer_ok := wrapper_ok; find_rule_total := wrapper_find_rule_ok; do_rule_bounded := wrapper_do_rule_ok }.
End Wrapper.
