(* ===== verification/OSDMapCorrect.v ===== *)
(** * Correctness of the placement of the OSD map

    Proved against the interface [CrushPlacer]: for a well-formed OSD map the
    pipeline of OSDMap.v returns, the up and acting sets contain only OSDs that
    exist and are up, keep the positions of an erasure-coded pool, and the
    primary is a member chosen as the affinities prescribe. *)
From stdpp Require Import gmap.
From S2P Require Import Prelude CrushMapper CrushChoose CrushBucket CrushFirstn CrushIndep CrushRule CrushBuilder CrushMapBuild PgPool PgSplit OSDMap CrushWrapper.

Module OSDMapCorrect.
Import CrushHash PgPool PgSplit OSDMap.

Section Correct.
Context {C : Type} `{PlacerLaws C}.
Implicit Types m : osd_map C.

(** ** Well-formed maps *)

(** A target of an explicit mapping: the monitor accepts OSD numbers only. *)
Definition target_ok (osd : Z) : Prop := 0 <= osd.

Record wf_osdmap m : Prop := {
  wf_state : Z.of_nat (length (osd_state m)) = max_osd m;
  wf_weight : Z.of_nat (length (osd_weight m)) = max_osd m;
  wf_affinity aff : osd_primary_affinity m = Some aff → Z.of_nat (length aff) = max_osd m;
  wf_max : max_osd m <= CRUSH_ITEM_NONE;
  wf_upmap pg l : pg_upmap m !! pg = Some l → Forall target_ok l;
  wf_items pg l : pg_upmap_items m !! pg = Some l → Forall (λ r, target_ok r.2) l
}.

(** The state of an OSD as a predicate. *)
Definition state_bit m (osd bit : Z) : bool :=
  (0 <=? osd) && (osd <? max_osd m) &&
  negb (Z.land (default 0 (osd_state m !! Z.to_nat osd)) bit =? 0).
Definition present m (osd : Z) : bool := state_bit m osd CEPH_OSD_EXISTS.
Definition live m (osd : Z) : bool := present m osd && state_bit m osd CEPH_OSD_UP.

Section Map.
Context m (Hm : wf_osdmap m).

Lemma has_state_ok osd bit : 0 <= osd < max_osd m → has_state m osd bit = Ok (state_bit m osd bit).
Proof.
  intros Ho. unfold has_state, state_bit.
  destruct (lookup_lt_is_Some_2 (osd_state m) (Z.to_nat osd)) as [s Hs]; [destruct Hm; lia|].
  rewrite (proj2 (zget_ok _ _ s)) by (split; [lia|done]). rewrite Hs. cbn [bind default].
  by rewrite (proj2 (Z.leb_le _ _)), (proj2 (Z.ltb_lt _ _)) by lia.
Qed.

Lemma exists_ok osd : exists_osd m osd = Ok (present m osd).
Proof.
  unfold exists_osd, present. destruct ((0 <=? osd) && (osd <? max_osd m)) eqn:E.
  - apply andb_true_iff in E as [? ?]. zb. apply has_state_ok. lia.
  - unfold state_bit. by rewrite E.
Qed.

Lemma present_range osd : present m osd = true → 0 <= osd < max_osd m.
Proof. unfold present, state_bit. intros [[? ?]%andb_true_iff _]%andb_true_iff. zb. lia. Qed.
Lemma live_present osd : live m osd = true → present m osd = true.
Proof. unfold live. by intros [? _]%andb_true_iff. Qed.
Lemma live_range osd : live m osd = true → 0 <= osd < max_osd m.
Proof. intros E. by apply present_range, live_present. Qed.
Lemma live_not_none osd : live m osd = true → osd <> CRUSH_ITEM_NONE.
Proof. intros E%live_range. destruct Hm. lia. Qed.

Lemma is_up_ok osd : is_up m osd = Ok (live m osd).
Proof.
  unfold is_up, live. rewrite exists_ok. cbn [bind]. destruct (present m osd) eqn:E; [|done]. cbn [andb].
  apply has_state_ok. by apply present_range.
Qed.
Lemma dne_or_down_ok osd : dne_or_down m osd = Ok (negb (live m osd)).
Proof.
  unfold dne_or_down, is_down. rewrite exists_ok, is_up_ok. cbn [bind]. unfold live.
  by destruct (present m osd).
Qed.

(** ** The loops *)

Definition live_at (osd : Z) : Z := if live m osd then osd else CRUSH_ITEM_NONE.
Definition present_at (osd : Z) : Z := if present m osd then osd else CRUSH_ITEM_NONE.

Lemma live_only_ok raw : live_only m raw = Ok (List.filter (live m) raw).
Proof.
  induction raw as [|o raw IH]; [done|]. cbn [live_only List.filter].
  rewrite dne_or_down_ok, IH. cbn [bind]. by destruct (live m o).
Qed.
Lemma live_or_none_ok raw : live_or_none m raw = Ok (live_at <$> raw).
Proof.
  induction raw as [|o raw IH]; [done|]. cbn [live_or_none]. rewrite dne_or_down_ok, IH. cbn [bind].
  rewrite fmap_cons. unfold live_at at 2. by destruct (live m o).
Qed.
Lemma temp_osds_ok shift osds :
  temp_osds m shift osds = Ok (if shift then List.filter (live m) osds else live_at <$> osds).
Proof.
  induction osds as [|o osds IH]; [by destruct shift|]. cbn [temp_osds].
  rewrite dne_or_down_ok, IH. cbn [bind List.filter]. destruct shift.
  - by destruct (live m o).
  - rewrite fmap_cons. unfold live_at at 3. by destruct (live m o).
Qed.
Lemma blank_ok osds : blank_nonexistent m osds = Ok (present_at <$> osds).
Proof.
  induction osds as [|o osds IH]; [done|]. cbn [blank_nonexistent]. rewrite exists_ok, IH. cbn [bind].
  rewrite fmap_cons. unfold present_at at 2. by destruct (present m o).
Qed.

(** The in-place compaction keeps the existing OSDs in order. *)
Lemma compact_ok rest kept junk :
  ∃ junk', compact_loop (length rest) m (Z.of_nat (length kept + length junk)) (Z.of_nat (length junk))
      (kept ++ junk ++ rest)
    = Ok (Z.of_nat (length junk'), kept ++ List.filter (present m) rest ++ junk').
Proof.
  revert kept junk. induction rest as [|o rest IH]; intros kept junk.
  { exists junk. cbn. by rewrite app_nil_r. }
  cbn [compact_loop length]. rewrite (proj2 (zget_ok _ _ o)).
  2: { split; [lia|]. rewrite Nat2Z.id, (assoc_L (++)), <- length_app. by apply list_lookup_middle. }
  cbn [bind]. rewrite exists_ok. cbn [bind List.filter]. destruct (present m o); cbn [negb].
  - destruct junk as [|j junk].
    + change (negb (Z.of_nat (length []) =? 0)) with false. cbn [bind]. destruct (IH (kept ++ [o]) []) as (junk' & E).
      exists junk'. rewrite <- !(assoc_L (++)) in E. cbn [app] in E |- *. rewrite <- E. f_equal.
      rewrite length_app. simpl. lia.
    + rewrite (proj2 (Z.eqb_neq _ 0)) by (simpl; lia). cbn [negb].
      unfold zset. rewrite (proj2 (Z.ltb_ge _ 0)), (proj2 (Z.leb_gt _ _)) by (rewrite ?length_app; simpl; lia).
      cbn [orb bind]. replace (Z.to_nat _) with (length kept + 0)%nat by lia.
      rewrite insert_app_r. cbn [app insert list_insert].
      destruct (IH (kept ++ [o]) (junk ++ [o])) as (junk' & E). exists junk'.
      rewrite <- !(assoc_L (++)) in E. cbn [app] in E |- *. rewrite <- E. f_equal; rewrite ?length_app; simpl; lia.
  - destruct (IH kept (junk ++ [o])) as (junk' & E). exists junk'.
    rewrite <- !(assoc_L (++)) in E. cbn [app] in E |- *. rewrite <- E.
    f_equal; rewrite ?length_app; simpl; lia.
Qed.

(** Pools are replicated or erasure-coded. *)
Definition shifts (pool : pg_pool_t) : bool := type pool =? TYPE_REPLICATED.
Definition pool_wf (pool : pg_pool_t) : Prop :=
  (type pool = TYPE_REPLICATED ∨ type pool = TYPE_ERASURE) ∧ 0 <= crush_rule pool.

Lemma can_shift_ok pool : pool_wf pool → can_shift_osds pool = Ok (shifts pool).
Proof. intros [[E|E] _]; unfold can_shift_osds, shifts; by rewrite E. Qed.

(** The members of [l] that satisfy [f]: shifted together, or in place. *)
Definition select (f : Z → bool) (shift : bool) (l : list Z) : list Z :=
  if shift then List.filter f l else (λ o, if f o then o else CRUSH_ITEM_NONE) <$> l.

Lemma remove_nonexistent_ok pool osds : pool_wf pool →
  _remove_nonexistent_osds m pool osds = Ok (select (present m) (shifts pool) osds).
Proof.
  intros Hp. unfold _remove_nonexistent_osds, select. rewrite can_shift_ok by done. cbn [bind].
  destruct (shifts pool); [|apply blank_ok].
  destruct (compact_ok osds [] []) as (junk & E). cbn [length app Nat.add] in E. change (Z.of_nat 0) with 0 in E. rewrite E. cbn [bind].
  destruct (Z.eqb_spec (Z.of_nat (length junk)) 0) as [E0|]; cbn [negb].
  - assert (junk = []) as -> by (apply nil_length_inv; lia). by rewrite app_nil_r.
  - rewrite Nat2Z.id, length_app, Nat.add_sub. by rewrite take_app_length.
Qed.

Lemma raw_to_up_ok pool raw : pool_wf pool →
  _raw_to_up_osds m pool raw = Ok (select (live m) (shifts pool) raw).
Proof.
  intros Hp. unfold _raw_to_up_osds, select. rewrite can_shift_ok by done. cbn [bind].
  destruct (shifts pool); [apply live_only_ok|apply live_or_none_ok].
Qed.

(** ** Explicit remappings *)

Definition out_target (osd : Z) : bool :=
  negb (osd =? CRUSH_ITEM_NONE) && (osd <? max_osd m) &&
  (default 0 (osd_weight m !! Z.to_nat osd) =? 0).

Lemma target_out_ok osd : target_ok osd → target_out m osd = Ok (out_target osd).
Proof.
  intros Ho. unfold target_out, out_target, target_ok in *.
  destruct (negb (osd =? CRUSH_ITEM_NONE) && (osd <? max_osd m)) eqn:E; [|done].
  apply andb_true_iff in E as [_ E]. zb.
  destruct (lookup_lt_is_Some_2 (osd_weight m) (Z.to_nat osd)) as [s Hs]; [destruct Hm; lia|].
  rewrite (proj2 (zget_ok _ _ s)) by (split; [lia|done]). by rewrite Hs.
Qed.

Lemma any_target_out_ok osds : Forall target_ok osds → any_target_out m osds = Ok (existsb out_target osds).
Proof.
  induction 1 as [|o osds Ho _ IH]; [done|]. cbn [any_target_out existsb].
  rewrite target_out_ok by done. cbn [bind]. by destruct (out_target o).
Qed.

(** What a list of item remappings makes of one OSD. *)
Definition remap (items : list (Z * Z)) (i : Z) : Z :=
  match List.find (λ r, r.1 =? i) items with
  | Some r => if out_target r.2 then i else r.2
  | None => i
  end.

Lemma upmap_items_ok items raw : Forall (λ r, target_ok r.2) items →
  upmap_items m items raw = Ok (remap items <$> raw).
Proof.
  intros Hi. assert (∀ i, upmap_item m items i = Ok (remap items i)) as E.
  { intros i. unfold remap. induction Hi as [|r items Hr _ IH]; [done|]. cbn [upmap_item List.find].
    destruct (r.1 =? i); cbn [negb]; [|done]. rewrite target_out_ok by done. cbn [bind]. by destruct (out_target _). }
  induction raw as [|i raw IH]; [done|]. cbn [upmap_items]. rewrite E, IH. done.
Qed.

(** The explicit mapping of a group, when it has one that names no OSD that is
    out, replaces what CRUSH chose; then single OSDs are exchanged. *)
Definition upmapped (pool : pg_pool_t) (pg : pg_t) (raw : list Z) : list Z :=
  let items l := match pg_upmap_items m !! raw_pg_to_pg pool pg with
                 | Some q => remap q <$> l | None => l end in
  match pg_upmap m !! raw_pg_to_pg pool pg with
  | Some l => if existsb out_target l then raw else items l
  | None => items raw
  end.

Lemma apply_upmap_ok pool pg raw : _apply_upmap m pool pg raw = Ok (upmapped pool pg raw).
Proof.
  unfold _apply_upmap, upmapped. cbv zeta. set (pg' := raw_pg_to_pg pool pg).
  assert (∀ l, match pg_upmap_items m !! pg' with None => Ok l | Some q => upmap_items m q l end
    = Ok (match pg_upmap_items m !! pg' with Some q => remap q <$> l | None => l end)) as E.
  { intros l. destruct (pg_upmap_items m !! pg') as [q|] eqn:Eq; [|done].
    apply upmap_items_ok. by eapply wf_items. }
  destruct (pg_upmap m !! pg') as [l|] eqn:El; [|apply E].
  rewrite any_target_out_ok by (by eapply wf_upmap). cbn [bind]. destruct (existsb _ _); [done|apply E].
Qed.

(** ** Primary affinity *)

(** Whether the OSD takes the role of a primary for this placement seed. *)
Definition accepts (seed osd : Z) : bool :=
  match osd_primary_affinity m with
  | None => true
  | Some aff =>
      let a := default 0 (aff !! Z.to_nat osd) in
      negb ((a <? CEPH_OSD_MAX_PRIMARY_AFFINITY) &&
            (a <=? Z.shiftr (crush_hash32_2 CRUSH_HASH_RJENKINS1 seed osd) 16))
  end.
Definition declines (seed osd : Z) : Prop := osd = CRUSH_ITEM_NONE ∨ accepts seed osd = false.

(** [prim] is the first OSD that accepts or, when all decline, the first one. *)
Definition preferred (seed : Z) (l1 : list Z) (prim : Z) (l2 : list Z) : Prop :=
  prim <> CRUSH_ITEM_NONE ∧
  (accepts seed prim = true ∧ Forall (declines seed) l1 ∨
   Forall (declines seed) (l1 ++ prim :: l2) ∧ Forall (eq CRUSH_ITEM_NONE) l1).

(** Positions of a set hold an OSD of the map or nothing. *)
Definition slot (osd : Z) : Prop := osd = CRUSH_ITEM_NONE ∨ 0 <= osd < max_osd m.

Lemma slot_lookup aff osd : osd_primary_affinity m = Some aff → 0 <= osd < max_osd m →
  zget aff osd = Ok (default 0 (aff !! Z.to_nat osd)).
Proof.
  intros Ha Ho. pose proof (wf_affinity _ Hm _ Ha).
  destruct (lookup_lt_is_Some_2 aff (Z.to_nat osd)) as [a E]; [lia|].
  rewrite E. apply zget_ok. split; [lia|done].
Qed.

Lemma any_affinity_ok aff osds : osd_primary_affinity m = Some aff → Forall slot osds →
  ∃ any, any_affinity aff osds = Ok any ∧
    (any = false → ∀ seed o, o ∈ osds → o <> CRUSH_ITEM_NONE → accepts seed o = true).
Proof.
  intros Ha. induction 1 as [|o osds Ho _ IH].
  { exists false. split; [done|]. intros _ seed o Hin%not_elem_of_nil. done. }
  destruct IH as (any & E & H2). cbn [any_affinity]. destruct (Z.eqb_spec o CRUSH_ITEM_NONE) as [->|Hn].
  { exists any. split; [done|]. intros -> seed o [->|Ho']%elem_of_cons ?; [done|]. by apply H2. }
  destruct Ho as [?|Ho]; [done|]. rewrite (slot_lookup aff) by done. cbn [bind].
  destruct (Z.eqb_spec (default 0 (aff !! Z.to_nat o)) CEPH_OSD_DEFAULT_PRIMARY_AFFINITY) as [E'|].
  - cbn [negb]. exists any. split; [done|]. intros -> seed o' [->|Ho']%elem_of_cons ?; [|by apply H2].
    unfold accepts. rewrite Ha, E'. done.
  - exists true. split; [done|discriminate].
Qed.

Lemma pick_primary_spec osds :
  Forall (eq CRUSH_ITEM_NONE) osds ∧ _pick_primary osds = -1 ∨
  ∃ l1 l2, osds = l1 ++ _pick_primary osds :: l2 ∧ Forall (eq CRUSH_ITEM_NONE) l1 ∧
    _pick_primary osds <> CRUSH_ITEM_NONE.
Proof.
  induction osds as [|o osds IH]; [by left|]. cbn [_pick_primary].
  destruct (Z.eqb_spec o CRUSH_ITEM_NONE) as [->|]; cbn [negb].
  - destruct IH as [[? ?]|(l1 & l2 & E & ? & ?)]; [left; auto|right].
    exists (CRUSH_ITEM_NONE :: l1), l2. rewrite E at 1. auto.
  - right. by exists [], osds.
Qed.

(** The search: what is known of the positions before the current one. *)
Definition scanned (seed : Z) (pre : list Z) (pos : Z) : Prop :=
  Forall (declines seed) pre ∧
  (pos = -1 ∧ Forall (eq CRUSH_ITEM_NONE) pre ∨
   ∃ l1 o l2, pre = l1 ++ o :: l2 ∧ pos = Z.of_nat (length l1) ∧
     Forall (eq CRUSH_ITEM_NONE) l1 ∧ o <> CRUSH_ITEM_NONE).

Lemma scanned_none seed pre pos : scanned seed pre pos → scanned seed (pre ++ [CRUSH_ITEM_NONE]) pos.
Proof.
  intros [Hd Hp]. split; [apply Forall_app; split; [done|]; constructor; [by left|done]|].
  destruct Hp as [[-> ?]|(l1 & o & l2 & -> & -> & ? & ?)]; [left|right].
  - split; [done|]. apply Forall_app. by repeat constructor.
  - exists l1, o, (l2 ++ [CRUSH_ITEM_NONE]). by rewrite <- (assoc_L (++)).
Qed.

Lemma scanned_declined seed pre pos o : scanned seed pre pos → o <> CRUSH_ITEM_NONE → accepts seed o = false →
  scanned seed (pre ++ [o]) (if pos <? 0 then Z.of_nat (length pre) else pos).
Proof.
  intros [Hd Hp] Ho Ha. split; [apply Forall_app; split; [done|]; constructor; [by right|done]|].
  right. destruct Hp as [[-> ?]|(l1 & o' & l2 & -> & -> & ? & ?)].
  - by exists pre, o, [].
  - rewrite (proj2 (Z.ltb_ge _ _)) by lia. exists l1, o', (l2 ++ [o]). by rewrite <- (assoc_L (++)).
Qed.

Lemma pick_position_ok aff seed rest : osd_primary_affinity m = Some aff → Forall slot rest →
  ∀ pre pos, scanned seed pre pos →
  ∃ pos', pick_position aff seed rest (Z.of_nat (length pre)) pos = Ok pos' ∧
    (pos' = -1 ∧ Forall (eq CRUSH_ITEM_NONE) (pre ++ rest) ∨
     ∃ l1 o l2, pre ++ rest = l1 ++ o :: l2 ∧ pos' = Z.of_nat (length l1) ∧ preferred seed l1 o l2).
Proof.
  intros Ha. induction 1 as [|o rest Ho _ IH]; intros pre pos Hs.
  { exists pos. split; [done|]. rewrite app_nil_r. destruct Hs as [Hd [[-> ?]|(l1 & o & l2 & -> & -> & ? & ?)]];
      [by left|right]. exists l1, o, l2. do 2 (split; [done|]). split; [done|by right]. }
  cbn [pick_position]. assert (∀ x, Z.of_nat (length pre) + 1 = Z.of_nat (length (pre ++ [x]))) as El
    by (intros; rewrite length_app; simpl; lia).
  destruct (Z.eqb_spec o CRUSH_ITEM_NONE) as [->|Hn].
  { rewrite (El CRUSH_ITEM_NONE). destruct (IH (pre ++ [CRUSH_ITEM_NONE]) pos (scanned_none _ _ _ Hs)) as (pos' & -> & H2).
    exists pos'. split; [done|]. by rewrite <- (assoc_L (++)) in H2. }
  destruct Ho as [?|Ho]; [done|]. rewrite (slot_lookup aff) by done. cbn [bind].
  destruct (_ && _) eqn:E.
  - assert (accepts seed o = false) as Hacc by (unfold accepts; rewrite Ha, E; done).
    rewrite (El o). destruct (IH (pre ++ [o]) _ (scanned_declined _ _ _ _ Hs Hn Hacc)) as (pos' & -> & H2).
    exists pos'. split; [done|]. by rewrite <- (assoc_L (++)) in H2.
  - assert (accepts seed o = true) as Hacc by (unfold accepts; rewrite Ha, E; done).
    eexists. split; [done|]. right. exists pre, o, rest. do 2 (split; [done|]). split; [done|]. left.
    split; [done|apply Hs].
Qed.

Lemma shift_right_ok (l1 : list Z) x l2 :
  shift_right (length l1) (l1 ++ x :: l2) = Ok (match l1 with [] => x :: l2 | a :: _ => a :: l1 ++ l2 end).
Proof.
  revert x l2. induction l1 as [|y l1 IH] using rev_ind; intros x l2; [done|].
  rewrite length_app, Nat.add_comm. cbn [length Nat.add shift_right].
  rewrite <- (assoc_L (++)). cbn [app].
  rewrite (proj2 (zget_ok _ _ y)) by (split; [lia|]; rewrite Nat2Z.id; by apply list_lookup_middle).
  cbn [bind]. unfold zset. rewrite (proj2 (Z.ltb_ge _ 0)), (proj2 (Z.leb_gt _ _)) by (rewrite ?length_app; simpl; lia).
  cbn [orb bind]. rewrite Nat2Z.id. replace (S (length l1)) with (length l1 + 1)%nat by lia.
  rewrite insert_app_r. cbn [insert list_insert]. rewrite IH. destruct l1 as [|a l1]; [done|].
  cbn [app]. by rewrite <- (assoc_L (++)).
Qed.

(** The set after the primary was chosen: the primary of a replicated pool is
    moved to the front, the others keep their order. *)
Definition arranged (pool : pg_pool_t) (seed : Z) (osds osds' : list Z) (prim : Z) : Prop :=
  Forall (eq CRUSH_ITEM_NONE) osds ∧ osds' = osds ∧ prim = -1 ∨
  ∃ l1 l2, osds = l1 ++ prim :: l2 ∧ preferred seed l1 prim l2 ∧
    osds' = if shifts pool then prim :: l1 ++ l2 else osds.

Lemma no_none_prefix l1 (x : Z) l2 :
  (CRUSH_ITEM_NONE ∉ l1 ++ x :: l2) → Forall (eq CRUSH_ITEM_NONE) l1 → l1 = [].
Proof. destruct l1 as [|a l1]; [done|]. intros Hn [E _]%Forall_cons. destruct Hn. rewrite <- E. by left. Qed.

Lemma arranged_first pool seed osds :
  (shifts pool = true → (CRUSH_ITEM_NONE ∉ osds)) →
  (∀ o, o ∈ osds → o <> CRUSH_ITEM_NONE → accepts seed o = true) →
  arranged pool seed osds osds (_pick_primary osds).
Proof.
  intros Hs Ha. destruct (pick_primary_spec osds) as [[? ->]|(l1 & l2 & E & Hl1 & Hn)]; [by left|right].
  set (p := _pick_primary osds) in *. clearbody p. subst osds. exists l1, l2. split; [done|]. split.
  - split; [done|]. left. split; [apply Ha; [set_solver|done]|]. eapply Forall_impl; [exact Hl1|]. intros ? <-. by left.
  - destruct (shifts pool); [|done]. by rewrite (no_none_prefix l1 p l2) by auto.
Qed.

Lemma primary_affinity_ok pool seed osds : pool_wf pool → Forall slot osds →
  (shifts pool = true → (CRUSH_ITEM_NONE ∉ osds)) →
  ∃ osds' prim, _apply_primary_affinity m seed pool osds (_pick_primary osds) = Ok (osds', prim) ∧
    arranged pool seed osds osds' prim.
Proof.
  intros Hp Hsl Hs. unfold _apply_primary_affinity.
  destruct (osd_primary_affinity m) as [aff|] eqn:Ea.
  2: { eexists _, _. split; [done|]. apply arranged_first; [done|]. intros. unfold accepts. by rewrite Ea. }
  destruct (any_affinity_ok aff osds Ea Hsl) as (any & -> & Hany). cbn [bind].
  destruct any; cbn [negb].
  2: { eexists _, _. split; [done|]. apply arranged_first; auto. }
  destruct (pick_position_ok aff seed osds Ea Hsl [] (-1)) as (pos & E & Hpos).
  { split; [done|]. by left. }
  cbn [app length] in *. change (Z.of_nat 0) with 0 in E. rewrite E. cbn [bind].
  destruct Hpos as [[-> Hall]|(l1 & o & l2 & -> & -> & Hpref)].
  - destruct (pick_primary_spec osds) as [[_ E']|(l1 & l2 & E' & _ & Hn)].
    + eexists _, _. split; [done|]. left. done.
    + rewrite E' in Hall. apply Forall_app in Hall as [_ [? _]%Forall_cons]. congruence.
  - rewrite (proj2 (Z.ltb_ge _ 0)) by lia.
    rewrite (proj2 (zget_ok _ _ o)) by (split; [lia|]; rewrite Nat2Z.id; by apply list_lookup_middle).
    cbn [bind]. rewrite can_shift_ok by done. cbn [bind].
    destruct (shifts pool) eqn:Esh; cbn [andb].
    2: { eexists _, _. split; [done|]. right. exists l1, l2. by rewrite Esh. }
    destruct (Z.ltb_spec 0 (Z.of_nat (length l1))).
    + rewrite Nat2Z.id, shift_right_ok. destruct l1 as [|a l1]; [simpl in *; lia|]. cbn [bind].
      eexists _, _. split; [reflexivity|]. right. exists (a :: l1), l2. by rewrite Esh.
    + assert (l1 = []) as -> by (apply nil_length_inv; lia). eexists _, _. split; [done|].
      right. exists [], l2. by rewrite Esh.
Qed.

(** ** The up set *)

Lemma select_slots f shift raw : (∀ o, f o = true → 0 <= o < max_osd m) → Forall slot (select f shift raw).
Proof.
  intros Hf. unfold select. destruct shift.
  - apply Forall_forall. intros o Ho. apply list_elem_of_In, filter_In in Ho as [_ Ho]. right. auto.
  - apply Forall_fmap, Forall_forall. intros o _. unfold compose. destruct (f o) eqn:E; [right|left]; auto.
Qed.

Lemma select_no_none f raw : (∀ o, f o = true → o <> CRUSH_ITEM_NONE) →
  CRUSH_ITEM_NONE ∉ select f true raw.
Proof. intros Hf Ho. apply list_elem_of_In, filter_In in Ho as [_ Ho]. by eapply Hf. Qed.

(** What CRUSH returned for a group: the result of the rule of the pool, or
    nothing when there is no rule. *)
Definition crush_result (pool : pg_pool_t) (pg : pg_t) (raw : list Z) : Prop :=
  ∃ n, find_rule (crush m) (crush_rule pool) (type pool) (size pool) = Ok n ∧
    if 0 <=? n
    then do_rule (crush m) n (s32 (raw_pg_to_pps pool pg)) (size pool) (osd_weight m) (m_pool pg) = Ok raw
    else raw = [].

Lemma raw_osds_ok pool pg : pool_wf pool → placer_ok (crush m) (osd_weight m) (size pool) →
  ∃ raw, crush_result pool pg raw ∧
    _pg_to_raw_osds m pool pg = Ok (select (present m) (shifts pool) raw, raw_pg_to_pps pool pg).
Proof.
  intros Hp Hpl. destruct (find_rule_total _ _ _ (crush_rule pool) (type pool) Hpl ltac:(apply Hp)) as (n & En).
  unfold _pg_to_raw_osds, crush_result. setoid_rewrite En. cbn [bind]. destruct (0 <=? n) eqn:Hn; zb.
  - destruct (do_rule_bounded _ _ _ _ _ _ (s32 (raw_pg_to_pps pool pg)) (m_pool pg) Hpl En) as (raw & E & _); [done|].
    rewrite E. cbn [bind]. rewrite remove_nonexistent_ok by done. exists raw. split; [|done]. exists n. by rewrite (proj2 (Z.leb_le _ _)).
  - cbn [bind]. rewrite remove_nonexistent_ok by done. exists []. split; [|done]. exists n. by rewrite (proj2 (Z.leb_gt _ _)).
Qed.

(** The pipeline behind it. *)
Lemma compute_up_ok pool pg : pool_wf pool → placer_ok (crush m) (osd_weight m) (size pool) →
  ∃ raw up prim, crush_result pool pg raw ∧ compute_up m pool pg = Ok (up, prim) ∧
    arranged pool (raw_pg_to_pps pool pg)
      (select (live m) (shifts pool) (upmapped pool pg (select (present m) (shifts pool) raw))) up prim.
Proof.
  intros Hp Hpl. destruct (raw_osds_ok pool pg Hp Hpl) as (raw & Hraw & Er).
  unfold compute_up. rewrite Er. cbn [bind]. rewrite apply_upmap_ok. cbn [bind].
  rewrite raw_to_up_ok by done. cbn [bind].
  destruct (primary_affinity_ok pool (raw_pg_to_pps pool pg) (select (live m) (shifts pool)
    (upmapped pool pg (select (present m) (shifts pool) raw))) Hp) as (up & prim & -> & Harr).
  { apply select_slots, live_range. }
  { intros ->. apply select_no_none, live_not_none. }
  exists raw, up, prim. done.
Qed.

(** ** What the callers rely on *)

(** A position of a set: an OSD that is up or, in an erasure-coded pool, a hole. *)
Definition live_or_hole (pool : pg_pool_t) (o : Z) : Prop :=
  live m o = true ∨ shifts pool = false ∧ o = CRUSH_ITEM_NONE.

(** A set that can serve: its primary is a member that is up, or the set is
    empty and there is no primary. *)
Definition serves (pool : pg_pool_t) (osds : list Z) (prim : Z) : Prop :=
  Forall (live_or_hole pool) osds ∧
  (prim ∈ osds ∧ live m prim = true ∨ prim = -1 ∧ Forall (eq CRUSH_ITEM_NONE) osds).

Lemma select_live pool raw : Forall (live_or_hole pool) (select (live m) (shifts pool) raw).
Proof.
  unfold select, live_or_hole. destruct (shifts pool).
  - apply Forall_forall. intros o [_ Ho]%list_elem_of_In%filter_In. auto.
  - apply Forall_fmap, Forall_forall. intros o _. unfold compose. destruct (live m o) eqn:E; auto.
Qed.

Lemma arranged_perm pool seed osds osds' prim : arranged pool seed osds osds' prim → osds' ≡ₚ osds.
Proof.
  intros [(_ & -> & _)|(l1 & l2 & -> & _ & ->)]; [done|]. destruct (shifts pool); [|done].
  by rewrite Permutation_middle.
Qed.

Lemma arranged_serves pool seed osds osds' prim :
  Forall (live_or_hole pool) osds → arranged pool seed osds osds' prim → serves pool osds' prim.
Proof.
  intros Hl Ha. pose proof (arranged_perm _ _ _ _ _ Ha) as Hp. split; [by rewrite Hp|].
  destruct Ha as [(Hn & -> & ->)|(l1 & l2 & E & [Hne _] & _)]; [by right|left].
  assert (prim ∈ osds) as Hin by (subst osds; set_solver). rewrite Hp. split; [done|].
  rewrite Forall_forall in Hl. destruct (Hl prim Hin) as [?|[_ ?]]; [done|]. done.
Qed.

Lemma pick_serves pool osds : Forall (live_or_hole pool) osds → serves pool osds (_pick_primary osds).
Proof.
  intros Hl. split; [done|]. destruct (pick_primary_spec osds) as [[? ->]|(l1 & l2 & E & _ & Hne)]; [by right|left].
  assert (_pick_primary osds ∈ osds) as Hin by (rewrite E at 2; set_solver). split; [done|].
  rewrite Forall_forall in Hl. destruct (Hl _ Hin) as [?|[_ ?]]; done.
Qed.

Lemma get_temp_ok pool pg : pool_wf pool →
  _get_temp_osds m pool pg =
  let temp := select (live m) (shifts pool) (default [] (pg_temp m !! raw_pg_to_pg pool pg)) in
  Ok (temp, default (_pick_primary temp) (primary_temp m !! raw_pg_to_pg pool pg)).
Proof.
  intros Hp. unfold _get_temp_osds. cbv zeta.
  assert (select (live m) (shifts pool) [] = []) as E0 by (by destruct (shifts pool)).
  destruct (pg_temp m !! _) as [l|]; cbn [default]; [|rewrite E0]; cbn [bind].
  - rewrite can_shift_ok by done. cbn [bind]. rewrite temp_osds_ok. cbn [bind]. unfold select, live_at.
    by destruct (primary_temp m !! _).
  - by destruct (primary_temp m !! _).
Qed.

(** The acting set and its primary, given the up set. *)
Definition acting_of (pool : pg_pool_t) (pg : pg_t) (up : list Z) (up_primary : Z) (act : list Z) (act_primary : Z)
    : Prop :=
  let temp := select (live m) (shifts pool) (default [] (pg_temp m !! raw_pg_to_pg pool pg)) in
  act = (if bool_decide (temp = []) then up else temp) ∧
  act_primary = match primary_temp m !! raw_pg_to_pg pool pg with
                | Some pp => if bool_decide (temp = []) && (pp =? -1) then up_primary else pp
                | None => if bool_decide (temp = []) then up_primary else _pick_primary temp
                end.

Lemma up_acting_ok pool pg : pools m !! m_pool pg = Some pool → pool_wf pool →
  placer_ok (crush m) (osd_weight m) (size pool) →
  ∃ up upp act actp, compute_up m pool pg = Ok (up, upp) ∧
    pg_to_up_acting_osds m pg = Ok (Some (up, upp), (act, actp)) ∧ acting_of pool pg up upp act actp.
Proof.
  intros Epool Hp Hpl. destruct (compute_up_ok pool pg Hp Hpl) as (raw & up & prim & _ & E & _).
  unfold pg_to_up_acting_osds, _pg_to_up_acting_osds. rewrite Epool. cbn [negb andb].
  rewrite get_temp_ok by done. cbv zeta. cbn [bind]. rewrite orb_true_r, E. cbn [bind].
  eexists _, _, _, _. split; [done|]. split; [done|]. split; [done|].
  set (temp := select _ _ _). destruct (bool_decide_reflect (temp = [])) as [->|].
  - cbn. destruct (primary_temp m !! _) as [pp|]; [|done]. done.
  - cbn [andb]. by destruct (primary_temp m !! _).
Qed.
End Map.

(** ** Properties of every implementation of the interface *)

(** The primary that is read off a set: its first member, past the holes. *)
Definition first_member m (osds : list Z) (prim : Z) : Prop :=
  (∃ l1 l2, osds = l1 ++ prim :: l2 ∧ Forall (eq CRUSH_ITEM_NONE) l1 ∧ live m prim = true) ∨
  Forall (eq CRUSH_ITEM_NONE) osds ∧ prim = -1.

Lemma first_member_pick m (Hm : wf_osdmap m) pool osds : Forall (live_or_hole m pool) osds → first_member m osds (_pick_primary osds).
Proof.
  intros Hl. destruct (pick_primary_spec osds) as [[? E]|(l1 & l2 & E & Hn & Hne)]; [by right|left]. exists l1, l2. split_and!; [done..|].
  assert (_pick_primary osds ∈ osds) as Hin by (rewrite E at 2; set_solver). rewrite Forall_forall in Hl. destruct (Hl _ Hin) as [?|[_ ?]]; done.
Qed.

(** [C9] The up and acting sets of a group of a known pool are computed without a
    fault.  The up set holds only OSDs that are up (or, in an erasure-coded pool,
    holes) and its primary is one of them.  The acting set is the entry of [pg_temp] without
    the OSDs that are not up, which move together in a replicated pool and leave holes in an
    erasure-coded one; where this is empty, for want of an entry or, in a replicated pool,
    of an OSD in it that is up, it is the up set.  The acting primary is the one that [primary_temp]
    names, or else the first member of the entry or the primary of the up set. *)
Theorem up_acting_correct m pg pool :
  wf_osdmap m → pools m !! m_pool pg = Some pool → pool_wf pool →
  placer_ok (crush m) (osd_weight m) (size pool) →
  let temp := select (live m) (shifts pool) (default [] (pg_temp m !! raw_pg_to_pg pool pg)) in
  ∃ up upp act actp, pg_to_up_acting_osds m pg = Ok (Some (up, upp), (act, actp)) ∧
    serves m pool up upp ∧ Forall (live_or_hole m pool) act ∧
    (temp = [] → act = up ∧ actp = match primary_temp m !! raw_pg_to_pg pool pg with
                                   | Some pp => if pp =? -1 then upp else pp
                                   | None => upp
                                   end) ∧
    (temp ≠ [] → act = temp ∧ match primary_temp m !! raw_pg_to_pg pool pg with
                              | Some pp => actp = pp
                              | None => first_member m temp actp
                              end).
Proof.
  intros Hm Epool Hp Hpl temp.
  destruct (up_acting_ok m Hm pool pg Epool Hp Hpl) as (up & upp & act & actp & Eup & E & Hact & Hprim).
  destruct (compute_up_ok m Hm pool pg Hp Hpl) as (raw & up' & prim' & _ & Eup' & Harr).
  assert (up' = up ∧ prim' = upp) as [-> ->] by (split; congruence).
  pose proof (arranged_serves m Hm _ _ _ _ _ (select_live m pool _) Harr) as Hup.
  pose proof (select_live m pool (default [] (pg_temp m !! raw_pg_to_pg pool pg)) : Forall _ temp) as Htemp.
  exists up, upp, act, actp. split; [done|]. split; [done|]. fold temp in Hact, Hprim.
  destruct (bool_decide_reflect (temp = [])) as [E0|Hne]; subst act.
  - split; [apply Hup|]. split; [|done]. intros _. split; [done|]. by destruct (primary_temp m !! _).
  - split; [done|]. split; [done|]. intros _. split; [done|]. subst actp. destruct (primary_temp m !! _); [done|].
    by apply (first_member_pick m Hm pool).
Qed.

(** [C10] The up set is determined by the result of CRUSH, step by step: OSDs that do
    not exist are removed, the explicit mappings are applied, OSDs that are down
    are removed.  In a replicated pool the rest moves together and the primary to
    the front, in an erasure-coded pool every OSD keeps its position.  The primary
    is the first member whose affinity accepts the role for this placement seed
    or, when all decline, the first member. *)
Theorem up_set_correct m pg pool :
  wf_osdmap m → pools m !! m_pool pg = Some pool → pool_wf pool →
  placer_ok (crush m) (osd_weight m) (size pool) →
  ∃ raw up prim act, crush_result m pool pg raw ∧
    pg_to_up_acting_osds m pg = Ok (Some (up, prim), act) ∧
    arranged m pool (raw_pg_to_pps pool pg)
      (select (live m) (shifts pool) (upmapped m pool pg (select (present m) (shifts pool) raw))) up prim.
Proof.
  intros Hm Epool Hp Hpl.
  destruct (up_acting_ok m Hm pool pg Epool Hp Hpl) as (up & upp & act & actp & Eup & E & _).
  destruct (compute_up_ok m Hm pool pg Hp Hpl) as (raw & up' & prim' & Hraw & Eup' & Harr).
  exists raw, up', prim', (act, actp). split; [done|]. split; [|done].
  rewrite Eup in Eup'. injection Eup' as <- <-. done.
Qed.

(** The mapping of a group does not depend on whether its number was folded
    into the range of the pool before, as long as [pgp_num] does not exceed
    [pg_num]: clients that use the full hash and daemons that use the group
    number compute the same sets. *)
Theorem mapping_folded m pg pool :
  pools m !! m_pool pg = Some pool → pool_ok pool → pgp_num pool <= pg_num pool →
  pg_to_up_acting_osds m (raw_pg_to_pg pool pg) = pg_to_up_acting_osds m pg.
Proof.
  intros Epool Hok Hle. destruct (folded_seed pool pg Hok Hle) as (Epps & Epg & _).
  assert (m_pool (raw_pg_to_pg pool pg) = m_pool pg) as Emp by done.
  assert (compute_up m pool (raw_pg_to_pg pool pg) = compute_up m pool pg) as Eup.
  { unfold compute_up, _pg_to_raw_osds, _apply_upmap. by rewrite Epps, Epg, Emp. }
  assert (_get_temp_osds m pool (raw_pg_to_pg pool pg) = _get_temp_osds m pool pg) as Et.
  { unfold _get_temp_osds. by rewrite Epg. }
  unfold pg_to_up_acting_osds, _pg_to_up_acting_osds. by rewrite Emp, Epool, Eup, Et.
Qed.

(** ** Duplicates *)

(** No OSD twice; holes do not count. *)
Definition no_repeats (l : list Z) : Prop := NoDup (List.filter (λ o, negb (o =? CRUSH_ITEM_NONE)) l).

Lemma filter_perm (f : Z → bool) l l' : l ≡ₚ l' → List.filter f l ≡ₚ List.filter f l'.
Proof.
  induction 1 as [|x l l' _ IH|x y l|l l' l'' _ IH _ IH2]; cbn [List.filter];
    [done| | |by etrans]; repeat destruct (f _); by try constructor.
Qed.

Lemma filter_and (f g : Z → bool) l : List.filter f (List.filter g l) = List.filter (λ o, g o && f o) l.
Proof.
  induction l as [|o l IH]; [done|]. cbn [List.filter].
  destruct (g o) eqn:Eg; cbn [List.filter andb]; [destruct (f o); by rewrite IH|done].
Qed.

Lemma nodup_filter_and (f g : Z → bool) l : NoDup (List.filter g l) → NoDup (List.filter (λ o, f o && g o) l).
Proof.
  intros H2. rewrite <- (filter_ext (λ o, g o && f o)) by (intros; apply andb_comm).
  rewrite <- filter_and. apply NoDup_ListNoDup, List.NoDup_filter. by apply NoDup_ListNoDup.
Qed.

Lemma select_distinct f shift l : no_repeats l → no_repeats (select f shift l).
Proof.
  intros Hd. unfold no_repeats, select in *. destruct shift.
  - rewrite filter_and. by apply nodup_filter_and.
  - replace (List.filter _ (_ <$> l)) with (List.filter (λ o, f o && negb (o =? CRUSH_ITEM_NONE)) l);
      [by apply nodup_filter_and|].
    induction l as [|o l IH]; [done|]. rewrite fmap_cons. cbn [List.filter] in *.
    assert (NoDup (List.filter (λ o, negb (o =? CRUSH_ITEM_NONE)) l)) as Hd'
      by (destruct (negb (o =? CRUSH_ITEM_NONE)); [by apply NoDup_cons in Hd as [_ ?]|done]).
    rewrite IH by done. destruct (f o) eqn:Ef; cbn [andb]; done.
Qed.

Lemma distinct_perm l l' : l ≡ₚ l' → no_repeats l → no_repeats l'.
Proof. intros Hp. unfold no_repeats. by rewrite (filter_perm _ _ _ Hp). Qed.

Definition no_upmap m (pool : pg_pool_t) (pg : pg_t) : Prop :=
  pg_upmap m !! raw_pg_to_pg pool pg = None ∧ pg_upmap_items m !! raw_pg_to_pg pool pg = None.

Lemma no_upmap_raw m pool pg raw : no_upmap m pool pg → upmapped m pool pg raw = raw.
Proof. intros [E1 E2]. unfold upmapped. by rewrite E1, E2. Qed.

(** Without explicit mappings the up set has no OSD twice if CRUSH returned none
    twice. *)
Theorem up_distinct m pg pool :
  wf_osdmap m → pools m !! m_pool pg = Some pool → pool_wf pool →
  placer_ok (crush m) (osd_weight m) (size pool) → no_upmap m pool pg →
  (∀ n x raw, do_rule (crush m) n x (size pool) (osd_weight m) (m_pool pg) = Ok raw → no_repeats raw) →
  ∃ up prim act, pg_to_up_acting_osds m pg = Ok (Some (up, prim), act) ∧ no_repeats up.
Proof.
  intros Hm Epool Hp Hpl Hu Hd.
  destruct (up_acting_ok m Hm pool pg Epool Hp Hpl) as (up & upp & act & actp & Eup & E & _).
  destruct (compute_up_ok m Hm pool pg Hp Hpl) as (raw & up' & prim' & Hraw & Eup' & Harr).
  rewrite Eup in Eup'. injection Eup' as <- <-. exists up, upp, (act, actp). split; [done|].
  eapply distinct_perm; [symmetry; by eapply arranged_perm|].
  rewrite no_upmap_raw by done. do 2 apply select_distinct.
  destruct Hraw as (n & _ & Er). destruct (0 <=? n); [by eapply Hd|]. subst raw. by apply NoDup_nil.
Qed.

(** [pg_to_raw_up] picks its primary from the raw set: when the first OSD of a
    group is down, the primary it reports is that OSD, which is not in the up set
    it returns. *)
Theorem raw_up_primary_down m pg pool :
  wf_osdmap m → pools m !! m_pool pg = Some pool → pool_wf pool →
  placer_ok (crush m) (osd_weight m) (size pool) → osd_primary_affinity m = None →
  ∃ chosen, crush_result m pool pg chosen ∧
    let raw := upmapped m pool pg (select (present m) (shifts pool) chosen) in
    let up := select (live m) (shifts pool) raw in
    pg_to_raw_up m pg = Ok (up, _pick_primary raw) ∧
    (shifts pool = true → live m (_pick_primary raw) = false → (_pick_primary raw ∉ up)).
Proof.
  intros Hm Epool Hp Hpl Ha.
  destruct (raw_osds_ok m Hm pool pg Hp Hpl) as (raw & Hraw & Er).
  exists raw. split; [done|]. cbv zeta. unfold pg_to_raw_up. rewrite Epool, Er. cbn [bind]. rewrite apply_upmap_ok by done. cbn [bind].
  rewrite raw_to_up_ok by done. cbn [bind]. unfold _apply_primary_affinity. rewrite Ha.
  split; [done|]. intros -> Hl [_ Hin]%list_elem_of_In%filter_In. congruence.
Qed.

Lemma filter_twice (f : Z → bool) b l1 l2 l3 : f b = true →
  ~ NoDup (List.filter f (l1 ++ b :: l2 ++ b :: l3)).
Proof.
  intros Hb. rewrite !List.filter_app. cbn [List.filter]. rewrite Hb, List.filter_app. cbn [List.filter]. rewrite Hb.
  intros (_ & _ & [Hn _]%NoDup_cons)%NoDup_app. set_solver.
Qed.

(** An exchange of single OSDs is not checked against the rest of the set: when
    the target of an exchange is already in the set (and is up and in), the up set
    of a replicated pool holds it twice. *)
Theorem upmap_items_duplicate m pg pool items a b chosen l1 l2 l3 :
  wf_osdmap m → pools m !! m_pool pg = Some pool → pool_wf pool → shifts pool = true →
  placer_ok (crush m) (osd_weight m) (size pool) → osd_primary_affinity m = None →
  pg_upmap m !! raw_pg_to_pg pool pg = None → pg_upmap_items m !! raw_pg_to_pg pool pg = Some items →
  (∀ raw, crush_result m pool pg raw → raw = chosen) →
  select (present m) true chosen = l1 ++ a :: l2 ++ b :: l3 →
  remap m items a = b → remap m items b = b → live m b = true →
  ∃ up prim act, pg_to_up_acting_osds m pg = Ok (Some (up, prim), act) ∧ ~ NoDup up.
Proof.
  intros Hm Epool Hp Hs Hpl Ha E1 E2 Hc Hsel Hra Hrb Hl.
  destruct (up_acting_ok m Hm pool pg Epool Hp Hpl) as (up & upp & act & actp & Eup & E & _).
  destruct (compute_up_ok m Hm pool pg Hp Hpl) as (raw & up' & prim' & Hraw & Eup' & Harr).
  rewrite Eup in Eup'. injection Eup' as <- <-. exists up, upp, (act, actp). split; [done|].
  apply Hc in Hraw as ->. intros Hnd. apply arranged_perm in Harr. rewrite Harr in Hnd. revert Hnd.
  unfold upmapped. rewrite E1, E2, Hs. unfold select at 1. rewrite Hsel, !fmap_app, fmap_cons, fmap_app, fmap_cons, Hra, Hrb.
  by apply filter_twice.
Qed.
End Correct.

(** ** Together with CRUSH *)

Import Crush Choose Bucket Firstn Indep Rule MapBuild Wrapper.

Lemma Forall2_submseteq {A B} (P : A → B → Prop) (k l : list B) : k ⊆+ l →
  ∀ ds, Forall2 P ds l → ∃ ds', ds' ⊆+ ds ∧ Forall2 P ds' k.
Proof.
  induction 1 as [|x k l _ IH|x y l|x k l _ IH|k l l' _ IH _ IH2]; intros ds Hf.
  - exists []. split; [apply submseteq_nil_l|constructor].
  - apply Forall2_cons_inv_r in Hf as (d & ds1 & Hd & Hf & ->). destruct (IH ds1 Hf) as (ds' & Hs & Hf').
    exists (d :: ds'). split; [by constructor|by constructor].
  - apply Forall2_cons_inv_r in Hf as (d & ds1 & Hd & Hf & ->).
    apply Forall2_cons_inv_r in Hf as (d2 & ds2 & Hd2 & Hf & ->).
    exists (d2 :: d :: ds2). split; [by constructor|by repeat constructor].
  - apply Forall2_cons_inv_r in Hf as (d & ds1 & Hd & Hf & ->). destruct (IH ds1 Hf) as (ds' & Hs & Hf').
    exists ds'. split; [by constructor|done].
  - destruct (IH2 ds Hf) as (ds1 & Hs1 & Hf1). destruct (IH ds1 Hf1) as (ds2 & Hs2 & Hf2).
    exists ds2. split; [by etrans|done].
Qed.

Lemma submseteq_NoDup {A} (k l : list A) : k ⊆+ l → NoDup l → NoDup k.
Proof. intros [k' Hp]%submseteq_Permutation Hn. rewrite Hp in Hn. by apply NoDup_app in Hn as [? _]. Qed.

Lemma filter_submseteq (f : Z → bool) l : List.filter f l ⊆+ l.
Proof. induction l as [|o l IH]; [done|]. cbn [List.filter]. destruct (f o); by constructor. Qed.

Lemma wrapper_replicated w map rank D T R ws sz n rule root b ty x idx :
  wrapper_setting w map rank D T R ws sz → 0 <= n → rules map !! Z.to_nat n = Some (Some rule) →
  steps rule = [mk_step CRUSH_RULE_TAKE root 0; mk_step CRUSH_RULE_CHOOSELEAF_FIRSTN 0 ty;
                mk_step CRUSH_RULE_EMIT 0 0] →
  get_bucket map root = Ok b →
  ∃ devs doms, Wrapper.do_rule w n x sz ws idx = Ok devs ∧
    NoDup devs ∧ NoDup doms ∧ Z.of_nat (length devs) <= sz ∧
    Forall2 (λ dom dev, choice map ws (Z.of_nat (length ws)) x ty dom ∧ under map root dom ∧
       avail map ws (Z.of_nat (length ws)) x dev ∧ at_or_under map dom dev) doms devs.
Proof.
  intros [] Hn Hr Hs Hb. unfold max_rules in *. apply lookup_lt_Some in Hr as ?.
  destruct (init_workspace_ok map (w_stack w)) as (wk & Ew & Hw); [done..|].
  destruct (replicated_rule_ok map rank D ws (Z.of_nat (length ws)) x (choose_args_get_with_fallback w idx)
    T R (w_fuel w) sz n rule root b ty wk) as (devs & doms & wk' & E & H1); auto; [lia|].
  exists devs, doms. split; [|done]. unfold Wrapper.do_rule. rewrite ws_map0. cbn [deref bind].
  rewrite Ew. cbn [bind]. by rewrite E.
Qed.

Lemma Forall2_with_r {A B} (P : B → Prop) (Q : A → B → Prop) l k :
  Forall P k → Forall2 Q l k → Forall2 (λ a b, Q a b ∧ P b) l k.
Proof. intros HP HQ. induction HQ; inversion_clear HP; constructor; auto. Qed.

(** [C3] From the pool to the OSDs: in a replicated pool whose rule takes a root and
    chooses leaves over failure domains of type [ty], over a map in the setting of
    [wrapper_setting] (a [chooseleaf_vary_r] of at most 32 is part of it), the up set of
    every group without explicit mappings consists of distinct OSDs that exist, are up and are
    in, each in a failure domain of its own below the root; there are at most as
    many as the pool asks for, and the primary is one of them. *)
Theorem replicated_pool_placed (m : osd_map CrushWrapper) pg pool map rank D T R n rule root b ty :
  wf_osdmap m → pools m !! m_pool pg = Some pool → pool_wf pool → shifts pool = true → no_upmap m pool pg →
  wrapper_setting (crush m) map rank D T R (osd_weight m) (PgPool.size pool) →
  Wrapper.find_rule (crush m) (PgPool.crush_rule pool) (PgPool.type pool) (PgPool.size pool) = Ok n → 0 <= n →
  rules map !! Z.to_nat n = Some (Some rule) →
  steps rule = [mk_step CRUSH_RULE_TAKE root 0; mk_step CRUSH_RULE_CHOOSELEAF_FIRSTN 0 ty;
                mk_step CRUSH_RULE_EMIT 0 0] →
  get_bucket map root = Ok b →
  let x := s32 (raw_pg_to_pps pool pg) in
  ∃ up prim act doms, pg_to_up_acting_osds m pg = Ok (Some (up, prim), act) ∧
    NoDup up ∧ NoDup doms ∧ Z.of_nat (length up) <= PgPool.size pool ∧
    Forall2 (λ dom osd, choice map (osd_weight m) (max_osd m) x ty dom ∧ under map root dom ∧
       avail map (osd_weight m) (max_osd m) x osd ∧ at_or_under map dom osd ∧ live m osd = true) doms up ∧
    (prim ∈ up ∨ up = [] ∧ prim = -1).
Proof.
  intros Hm Epool Hp Hs Hu Hset Efind Hn Hr Hst Hb x.
  assert (placer_ok (crush m) (osd_weight m) (PgPool.size pool)) as Hpl by (by exists map, rank, D, T, R).
  destruct (up_acting_ok m Hm pool pg Epool Hp Hpl) as (up & upp & act & actp & Eup & E & _).
  destruct (compute_up_ok m Hm pool pg Hp Hpl) as (raw & up' & prim' & Hraw & Eup' & Harr).
  rewrite Eup in Eup'. injection Eup' as <- <-. rewrite no_upmap_raw in Harr by done.
  destruct (wrapper_replicated _ _ _ _ _ _ _ _ n rule root b ty x (m_pool pg) Hset) as (devs & doms & Ed & Hnd & Hnd2 & Hlen & Hf);
    [done..|]. rewrite (wf_weight _ Hm) in Hf.
  assert (raw ⊆+ devs) as Hsub.
  { destruct Hraw as (n' & En & Er). pose proof (eq_trans (eq_sym Efind) En) as [= <-].
    rewrite (proj2 (Z.leb_le 0 n)) in Er by done. by pose proof (eq_trans (eq_sym Ed) Er) as [= <-]. }
  pose proof (arranged_perm _ _ _ _ _ _ Harr) as Hperm. pose proof (arranged_serves m Hm _ _ _ _ _ (select_live m pool _) Harr) as Hsv.
  unfold select in Hperm. rewrite Hs in Hperm.
  assert (up ⊆+ devs) as Hup.
  { rewrite Hperm. etrans; [apply filter_submseteq|]. etrans; [apply filter_submseteq|done]. }
  destruct (Forall2_submseteq _ _ _ Hup _ Hf) as (doms' & Hds & Hf').
  exists up, upp, (act, actp), doms'. split; [done|]. split; [by eapply submseteq_NoDup|].
  split; [by eapply submseteq_NoDup|]. split; [apply submseteq_length in Hup; lia|]. split.
  - destruct Hsv as [Hl _]. apply (Forall2_with_r _ _ _ _ Hl) in Hf'. eapply Forall2_impl; [exact Hf'|].
    cbn beta. intros d o [(? & ? & ? & ?) Hlo]. repeat (split; [done|]). destruct Hlo as [?|[? _]]; [done|congruence].
  - destruct Hsv as [Hl [[? _]|[-> Hno]]]; [by left|right]. split; [|done].
    destruct up as [|o up]; [done|]. apply Forall_cons in Hl as [[Hlo|[? _]] _]; [|congruence].
    apply Forall_cons in Hno as [Hno _]. by apply (live_not_none m Hm) in Hlo.
Qed.

(** ** Concrete maps *)

(** The sample CRUSH map under a pool of twelve groups; OSD 2 is down. *)
Definition sample_wrapper : CrushWrapper :=
  mk_wrapper (Some sample_map) false ∅ [[0; 0]; [0; 0]; [0; 0]] (Z.to_nat 200000).
Definition sample_osdmap : osd_map CrushWrapper :=
  mk_osdmap 4 [3; 3; 1; 3] sample_weights (Some [0x10000; 0x10000; 0x10000; 0x8000])
    {[2 := sample_pool 12]} {[mk_pg 2 4 (-1) := [2; 1; 0]]} {[mk_pg 2 5 (-1) := 3]} ∅ ∅ sample_wrapper.

Lemma sample_osdmap_wf : wf_osdmap sample_osdmap.
Proof.
  split; [done|done|by intros aff [= <-]|done|..]; intros pg l E; discriminate (eq_trans (eq_sym (lookup_empty pg)) E).
Qed.
Lemma sample_pool_wf : pool_wf (sample_pool 12).
Proof. split; [by left|done]. Qed.
Lemma sample_wrapper_setting : wrapper_setting sample_wrapper sample_map sample_rank 2 100 0 sample_weights 3.
Proof.
  split.
  - reflexivity.
  - intros idx. replace (choose_args_get_with_fallback sample_wrapper idx) with (@None (list crush_choose_arg)).
    + exact sample_setting.
    + unfold choose_args_get_with_fallback. cbn. by rewrite !lookup_empty.
  - intros [|[|[|i]]] rule E; [injection E as <-..|discriminate];
      repeat apply Forall_cons_2; try apply Forall_nil_2;
      (split; [cbn; lia|]); split_and!; cbn; intros Hop; lia || discriminate || (destruct Hop; discriminate).
  - exact sample_shift.
  - reflexivity.
  - reflexivity.
  - intros [|[|[|i]]] c E; [injection E as <-; eexists; split; reflexivity..|discriminate].
Qed.
Lemma sample_placer_ok : placer_ok (crush sample_osdmap) (osd_weight sample_osdmap) (PgPool.size (sample_pool 12)).
Proof. exists sample_map, sample_rank, 2%nat, 100, 0. exact sample_wrapper_setting. Qed.

(** OSD 2 of the entry of [pg_temp] is down. *)
Lemma up_acting_correct_witness :
  ∃ up upp actp, pg_to_up_acting_osds sample_osdmap (mk_pg 2 4 (-1)) = Ok (Some (up, upp), ([1; 0], actp)) ∧
    serves sample_osdmap (sample_pool 12) up upp ∧ first_member sample_osdmap [1; 0] actp.
Proof.
  destruct (up_acting_correct sample_osdmap (mk_pg 2 4 (-1)) (sample_pool 12)) as
    (up & upp & act & actp & E & Hs & _ & _ & Ht);
    [exact sample_osdmap_wf|reflexivity|exact sample_pool_wf|exact sample_placer_ok|].
  destruct Ht as [Ea Hf]; [discriminate|]. cbn in Ea. subst act. exists up, upp, actp. split; [exact E|]. split; [exact Hs|exact Hf].
Defined.

Lemma up_set_correct_witness :
  ∃ raw up prim act, crush_result sample_osdmap (sample_pool 12) (mk_pg 2 5 (-1)) raw ∧
    pg_to_up_acting_osds sample_osdmap (mk_pg 2 5 (-1)) = Ok (Some (up, prim), act) ∧
    arranged sample_osdmap (sample_pool 12) (raw_pg_to_pps (sample_pool 12) (mk_pg 2 5 (-1)))
      (select (live sample_osdmap) true (upmapped sample_osdmap (sample_pool 12) (mk_pg 2 5 (-1))
         (select (present sample_osdmap) true raw))) up prim.
Proof.
  apply (up_set_correct sample_osdmap (mk_pg 2 5 (-1)) (sample_pool 12));
    [exact sample_osdmap_wf|reflexivity|exact sample_pool_wf|exact sample_placer_ok].
Defined.

Lemma mapping_folded_witness :
  pg_to_up_acting_osds sample_osdmap (raw_pg_to_pg (sample_pool 12) (mk_pg 2 0x7fc1f406 (-1)))
  = pg_to_up_acting_osds sample_osdmap (mk_pg 2 0x7fc1f406 (-1)).
Proof.
  apply (mapping_folded sample_osdmap (mk_pg 2 0x7fc1f406 (-1)) (sample_pool 12));
    [reflexivity|by apply sample_pool_ok|done].
Defined.

Lemma replicated_pool_placed_witness :
  ∃ up prim act (doms : list Z), pg_to_up_acting_osds sample_osdmap (mk_pg 2 6 (-1)) = Ok (Some (up, prim), act) ∧
    NoDup up ∧ NoDup doms ∧ Z.of_nat (length up) <= 3 ∧ Forall (λ o, live sample_osdmap o = true) up.
Proof.
  destruct (replicated_pool_placed sample_osdmap (mk_pg 2 6 (-1)) (sample_pool 12) sample_map sample_rank 2 100 0 0
    (mk_rule (mk_mask 0 1 1 10) [mk_step CRUSH_RULE_TAKE (-1) 0; mk_step CRUSH_RULE_CHOOSELEAF_FIRSTN 0 1;
       mk_step CRUSH_RULE_EMIT 0 0]) (-1) sample_root 1) as (up & prim & act & doms & E & Hn & Hn2 & Hl & Hf & _);
    [exact sample_osdmap_wf|reflexivity|exact sample_pool_wf|reflexivity|split; apply lookup_empty
    |exact sample_wrapper_setting|reflexivity|lia|reflexivity|reflexivity|reflexivity|].
  exists up, prim, act, doms. split; [exact E|]. do 3 (split; [assumption|]).
  clear -Hf. induction Hf as [|dom osd doms up H Hf IH]; constructor; [apply H|exact IH].
Defined.

(** A placer that always answers with the same OSDs. *)
Definition fixed_placer : Type := list Z.
#[export] Instance fixed_crush : CrushPlacer fixed_placer :=
  { find_rule _ _ _ _ := Ok 0; do_rule c _ _ _ _ _ := Ok c }.
Lemma fixed_find_rule (c : fixed_placer) (ws : list Z) (sz ruleset type : Z) :
  Z.of_nat (length c) <= sz → 0 <= ruleset → ∃ n, OSDMap.find_rule c ruleset type sz = Ok n.
Proof. intros _ _. by exists 0. Qed.
Lemma fixed_do_rule (c : fixed_placer) (ws : list Z) (sz ruleset type n x idx : Z) :
  Z.of_nat (length c) <= sz → OSDMap.find_rule c ruleset type sz = Ok n → 0 <= n →
  ∃ osds, OSDMap.do_rule c n x sz ws idx = Ok osds ∧ Z.of_nat (length osds) <= sz.
Proof. intros Hc _ _. by exists c. Qed.
#[export] Instance fixed_laws : PlacerLaws fixed_placer :=
  { placer_ok c _ sz := Z.of_nat (length c) <= sz;
    find_rule_total := fixed_find_rule; do_rule_bounded := fixed_do_rule }.

Definition fixed_osdmap (osds : list Z) (items : gmap pg_t (list (Z * Z))) : osd_map fixed_placer :=
  mk_osdmap 4 [3; 3; 1; 3] [0x10000; 0x10000; 0x10000; 0x10000] None
    {[2 := sample_pool 12]} ∅ ∅ ∅ items osds.
Lemma fixed_osdmap_wf osds items :
  (∀ pg l, items !! pg = Some l → Forall (λ r, target_ok r.2) l) → wf_osdmap (fixed_osdmap osds items).
Proof. intros Hi. split; [done..|done|intros pg l E; discriminate (eq_trans (eq_sym (lookup_empty pg)) E)|exact Hi]. Qed.

Lemma up_distinct_witness :
  ∃ up prim act, pg_to_up_acting_osds (fixed_osdmap [2; 0; 3] ∅) (mk_pg 2 6 (-1)) = Ok (Some (up, prim), act) ∧
    no_repeats up.
Proof.
  apply (up_distinct (fixed_osdmap [2; 0; 3] ∅) (mk_pg 2 6 (-1)) (sample_pool 12));
    [apply fixed_osdmap_wf; intros pg l E; discriminate (eq_trans (eq_sym (lookup_empty pg)) E)|reflexivity|exact sample_pool_wf
    |cbn; lia|split; apply lookup_empty|].
  intros n x raw [= <-]. unfold no_repeats. cbn. by apply (bool_decide_unpack _).
Defined.

Lemma raw_up_primary_down_witness :
  pg_to_raw_up (fixed_osdmap [2; 0; 3] ∅) (mk_pg 2 6 (-1)) = Ok ([0; 3], 2) ∧
  live (fixed_osdmap [2; 0; 3] ∅) 2 = false.
Proof.
  destruct (raw_up_primary_down (fixed_osdmap [2; 0; 3] ∅) (mk_pg 2 6 (-1)) (sample_pool 12))
    as (chosen & Hc & E & _);
    [apply fixed_osdmap_wf; intros pg l E; discriminate (eq_trans (eq_sym (lookup_empty pg)) E)|reflexivity|exact sample_pool_wf
    |cbn; lia|reflexivity|].
  split; reflexivity.
Defined.

Lemma upmap_items_duplicate_witness :
  ∃ up prim act, pg_to_up_acting_osds (fixed_osdmap [1; 0; 3] {[mk_pg 2 6 (-1) := [(1, 3)]]}) (mk_pg 2 6 (-1))
    = Ok (Some (up, prim), act) ∧ ~ NoDup up.
Proof.
  apply (upmap_items_duplicate (fixed_osdmap [1; 0; 3] {[mk_pg 2 6 (-1) := [(1, 3)]]}) (mk_pg 2 6 (-1)) (sample_pool 12)
    [(1, 3)] 1 3 [1; 0; 3] [] [0] []);
    [|reflexivity|exact sample_pool_wf|reflexivity|cbn; lia|reflexivity|reflexivity|reflexivity| |reflexivity..].
  - apply fixed_osdmap_wf. intros pg l E. apply lookup_singleton_Some in E as [_ <-]. by repeat constructor.
  - by intros raw (n & [= <-] & [= <-]).
Defined.
End OSDMapCorrect.
