(* ===== verification/OSDMapInc.v ===== *)
(** * Updates of the OSD map (OSDMap::apply_incremental of osd/OSDMap.cc)

    The monitor publishes the OSD map as a chain of incrementals, one per epoch,
    which every party applies to its copy.  The state of the whole map is the
    placement state of OSDMap.v together with the arrays that describe each OSD,
    the tables of pools and the global fields.  A [std::map] of an incremental is
    the list of its entries in the order of iteration; addresses, uuids and times
    are numbers. *)
From stdpp Require Import gmap.
From Stdlib Require Import SpecFloat.
From S2P Require Import Prelude CrushMapper PgPool OSDMap.

Module OSDMapInc.
Import PgPool OSDMap.

(** ** State *)

Definition CEPH_OSD_AUTOOUT : Z := 4.
Definition CEPH_OSD_NEW : Z := 8.
Definition CEPH_OSD_OUT : Z := 0.
Definition CEPH_OSDMAP_REQUIRE_JEWEL : Z := 2 ^ 16.
Definition CEPH_OSDMAP_REQUIRE_KRAKEN : Z := 2 ^ 17.
Definition CEPH_OSDMAP_REQUIRE_LUMINOUS : Z := 2 ^ 18.
Definition CEPH_OSDMAP_RECOVERY_DELETES : Z := 2 ^ 19.
Definition CEPH_OSDMAP_LEGACY_REQUIRE_FLAGS : Z :=
  Z.lor CEPH_OSDMAP_REQUIRE_JEWEL (Z.lor CEPH_OSDMAP_REQUIRE_KRAKEN CEPH_OSDMAP_REQUIRE_LUMINOUS).
Definition CEPH_RELEASE_JEWEL : Z := 10.
Definition CEPH_RELEASE_KRAKEN : Z := 11.
Definition CEPH_RELEASE_LUMINOUS : Z := 12.
Definition EINVAL : Z := 22.

Record osd_info_t : Type := mk_info {
  last_clean_begin : Z;
  last_clean_end : Z;
  up_from : Z;
  up_thru : Z;
  down_at : Z;
  lost_at : Z
}.
Definition info0 : osd_info_t := mk_info 0 0 0 0 0 0.

Record osd_xinfo_t : Type := mk_xinfo {
  down_stamp : Z;
  laggy_probability : spec_float;
  laggy_interval : Z;
  features : Z;
  old_weight : Z
}.
Definition xinfo0 : osd_xinfo_t := mk_xinfo 0 (S754_zero false) 0 0 0.

(** The vectors indexed by OSD that placement does not read. *)
Record osd_table : Type := mk_table {
  client_addr : list (option Z);
  cluster_addr : list (option Z);
  hb_back_addr : list (option Z);
  hb_front_addr : list (option Z);
  osd_info : list osd_info_t;
  osd_xinfo : list osd_xinfo_t;
  osd_uuid : list Z
}.

(** Pools besides their placement parameters; strings are lists of bytes. *)
Record pool_table : Type := mk_pools {
  pool_max : Z;
  last_change : gmap Z Z;
  pool_name : gmap Z (list Z);
  name_pool : gmap (list Z) Z;
  erasure_code_profiles : gmap (list Z) (gmap (list Z) (list Z))
}.

Record map_header : Type := mk_header {
  fsid : Z;
  epoch : Z;
  modified : Z;
  flags : Z;
  num_osd : Z;
  num_up_osd : Z;
  num_in_osd : Z;
  blacklist : gmap Z Z;
  new_blacklist_entries : bool;
  cluster_snapshot : list Z;
  cluster_snapshot_epoch : Z;
  nearfull_ratio : spec_float;
  backfillfull_ratio : spec_float;
  full_ratio : spec_float;
  require_min_compat_client : Z;
  require_osd_release : Z;
  crush_version : Z;
  cached_up_osd_features : Z
}.

Record OSDMap (C : Type) : Type := mk_full {
  place : osd_map C;
  osds : osd_table;
  pool_info : pool_table;
  header : map_header
}.
Arguments mk_full {C}. Arguments place {C}. Arguments osds {C}.
Arguments pool_info {C}. Arguments header {C}.

(** [fullmap] and [inc_crush] are the decoded contents of the two buffers, [None]
    when they are empty. *)
Record Incremental (C : Type) : Type := mk_inc {
  inc_fsid : Z;
  inc_epoch : Z;
  inc_modified : Z;
  new_pool_max : Z;
  new_flags : Z;
  new_require_osd_release : Z;
  fullmap : option (OSDMap C);
  inc_crush : option C;
  new_max_osd : Z;
  new_pools : list (Z * pg_pool_t);
  new_pool_names : list (Z * list Z);
  old_pools : list Z;
  new_erasure_code_profiles : list (list Z * gmap (list Z) (list Z));
  old_erasure_code_profiles : list (list Z);
  new_up_client : list (Z * Z);
  new_up_cluster : list (Z * Z);
  new_state : list (Z * Z);
  new_weight : list (Z * Z);
  new_pg_temp : list (pg_t * list Z);
  new_primary_temp : list (pg_t * Z);
  new_primary_affinity : list (Z * Z);
  new_up_thru : list (Z * Z);
  new_last_clean_interval : list (Z * (Z * Z));
  new_lost : list (Z * Z);
  new_uuid : list (Z * Z);
  new_xinfo : list (Z * osd_xinfo_t);
  new_blacklist : list (Z * Z);
  old_blacklist : list Z;
  new_hb_back_up : list (Z * Z);
  new_hb_front_up : list (Z * Z);
  new_pg_upmap : list (pg_t * list Z);
  new_pg_upmap_items : list (pg_t * list (Z * Z));
  old_pg_upmap : list pg_t;
  old_pg_upmap_items : list pg_t;
  inc_cluster_snapshot : list Z;
  new_nearfull_ratio : spec_float;
  new_backfillfull_ratio : spec_float;
  new_full_ratio : spec_float;
  new_require_min_compat_client : Z
}.
Arguments inc_fsid {C}. Arguments inc_epoch {C}. Arguments inc_modified {C}.
Arguments new_pool_max {C}. Arguments new_flags {C}.
Arguments new_require_osd_release {C}. Arguments fullmap {C}. Arguments inc_crush {C}.
Arguments new_max_osd {C}. Arguments new_pools {C}. Arguments new_pool_names {C}.
Arguments old_pools {C}. Arguments new_erasure_code_profiles {C}.
Arguments old_erasure_code_profiles {C}. Arguments new_up_client {C}.
Arguments new_up_cluster {C}. Arguments new_state {C}. Arguments new_weight {C}.
Arguments new_pg_temp {C}. Arguments new_primary_temp {C}.
Arguments new_primary_affinity {C}. Arguments new_up_thru {C}.
Arguments new_last_clean_interval {C}. Arguments new_lost {C}. Arguments new_uuid {C}.
Arguments new_xinfo {C}. Arguments new_blacklist {C}. Arguments old_blacklist {C}.
Arguments new_hb_back_up {C}. Arguments new_hb_front_up {C}. Arguments new_pg_upmap {C}.
Arguments new_pg_upmap_items {C}. Arguments old_pg_upmap {C}.
Arguments old_pg_upmap_items {C}. Arguments inc_cluster_snapshot {C}.
Arguments new_nearfull_ratio {C}. Arguments new_backfillfull_ratio {C}.
Arguments new_full_ratio {C}. Arguments new_require_min_compat_client {C}.

(** ** Loops and vectors *)

Fixpoint foldM {S A} (f : S → A → res S) (l : list A) (s : S) : res S :=
  match l with
  | [] => Ok s
  | a :: l => s <- f s a;; foldM f l s
  end.

(** [std::vector::resize]. *)
Definition resize {A} (n : Z) (d : A) (l : list A) : list A :=
  take (Z.to_nat n) l ++ replicate (Z.to_nat n - length l) d.
(** [v\[i\] = f (v\[i\])]. *)
Definition zupd {A} (l : list A) (i : Z) (f : A → A) : res (list A) :=
  a <- zget l i;; zset l i (f a).
(** [map::find]. *)
Definition assoc_find {A} (k : Z) (l : list (Z * A)) : option A :=
  snd <$> List.find (λ e, e.1 =? k) l.

Section Update.
Context {C : Type}.
Implicit Types (m : OSDMap C) (p : osd_map C) (inc : Incremental C).

(** Field updates. *)
Definition with_osds_of p (max : Z) (st ws : list Z) (aff : option (list Z)) : osd_map C :=
  mk_osdmap max st ws aff (pools p) (pg_temp p) (primary_temp p) (pg_upmap p) (pg_upmap_items p) (crush p).
Definition with_state p (st : list Z) : osd_map C :=
  with_osds_of p (max_osd p) st (osd_weight p) (osd_primary_affinity p).
Definition with_affinity p (aff : option (list Z)) : osd_map C :=
  with_osds_of p (max_osd p) (osd_state p) (osd_weight p) aff.
Definition with_pools p ps : osd_map C :=
  mk_osdmap (max_osd p) (osd_state p) (osd_weight p) (osd_primary_affinity p) ps
    (pg_temp p) (primary_temp p) (pg_upmap p) (pg_upmap_items p) (crush p).
Definition with_temps p t pt : osd_map C :=
  mk_osdmap (max_osd p) (osd_state p) (osd_weight p) (osd_primary_affinity p) (pools p)
    t pt (pg_upmap p) (pg_upmap_items p) (crush p).
Definition with_upmaps p u ui : osd_map C :=
  mk_osdmap (max_osd p) (osd_state p) (osd_weight p) (osd_primary_affinity p) (pools p)
    (pg_temp p) (primary_temp p) u ui (crush p).
Definition with_crush p (c : C) : osd_map C :=
  mk_osdmap (max_osd p) (osd_state p) (osd_weight p) (osd_primary_affinity p) (pools p)
    (pg_temp p) (primary_temp p) (pg_upmap p) (pg_upmap_items p) c.

Definition set_old_weight (w : Z) (x : osd_xinfo_t) : osd_xinfo_t :=
  mk_xinfo (down_stamp x) (laggy_probability x) (laggy_interval x) (features x) w.
Definition set_down_stamp (t : Z) (x : osd_xinfo_t) : osd_xinfo_t :=
  mk_xinfo t (laggy_probability x) (laggy_interval x) (features x) (old_weight x).
Definition set_down_at (e : Z) (i : osd_info_t) : osd_info_t :=
  mk_info (last_clean_begin i) (last_clean_end i) (up_from i) (up_thru i) e (lost_at i).
Definition set_up_from (e : Z) (i : osd_info_t) : osd_info_t :=
  mk_info (last_clean_begin i) (last_clean_end i) e (up_thru i) (down_at i) (lost_at i).
Definition set_up_thru (e : Z) (i : osd_info_t) : osd_info_t :=
  mk_info (last_clean_begin i) (last_clean_end i) (up_from i) e (down_at i) (lost_at i).
Definition set_lost_at (e : Z) (i : osd_info_t) : osd_info_t :=
  mk_info (last_clean_begin i) (last_clean_end i) (up_from i) (up_thru i) (down_at i) e.
Definition set_last_clean (r : Z * Z) (i : osd_info_t) : osd_info_t :=
  mk_info r.1 r.2 (up_from i) (up_thru i) (down_at i) (lost_at i).

Definition with_info (t : osd_table) (i : list osd_info_t) (x : list osd_xinfo_t) : osd_table :=
  mk_table (client_addr t) (cluster_addr t) (hb_back_addr t) (hb_front_addr t) i x (osd_uuid t).
Definition with_uuid (t : osd_table) (u : list Z) : osd_table :=
  mk_table (client_addr t) (cluster_addr t) (hb_back_addr t) (hb_front_addr t) (osd_info t) (osd_xinfo t) u.
Definition with_addrs (t : osd_table) (cl cu hb hf : list (option Z)) : osd_table :=
  mk_table cl cu hb hf (osd_info t) (osd_xinfo t) (osd_uuid t).

(** ** The operations on single OSDs *)

(** [set_max_osd]: the vectors grow or shrink together; new OSDs have no state and
    are out.  The counts are computed by the caller. *)
Definition set_max_osd p (t : osd_table) (n : Z) : osd_map C * osd_table :=
  (with_osds_of p n (resize n 0 (osd_state p)) (resize n CEPH_OSD_OUT (osd_weight p))
     (resize n CEPH_OSD_DEFAULT_PRIMARY_AFFINITY <$> osd_primary_affinity p),
   mk_table (resize n None (client_addr t)) (resize n None (cluster_addr t))
     (resize n None (hb_back_addr t)) (resize n None (hb_front_addr t))
     (resize n info0 (osd_info t)) (resize n xinfo0 (osd_xinfo t)) (resize n 0 (osd_uuid t))).

Definition set_weight p (o w : Z) : res (osd_map C) :=
  assert (o <? max_osd p);;;
  ws <- zset (osd_weight p) o w;;
  st <- (if negb (w =? 0) then zupd (osd_state p) o (Z.lor CEPH_OSD_EXISTS) else Ok (osd_state p));;
  Ok (with_osds_of p (max_osd p) st ws (osd_primary_affinity p)).

Definition set_primary_affinity p (o w : Z) : res (osd_map C) :=
  assert (o <? max_osd p);;;
  let aff := default (replicate (Z.to_nat (max_osd p)) CEPH_OSD_DEFAULT_PRIMARY_AFFINITY)
               (osd_primary_affinity p) in
  aff <- zset aff o w;;
  Ok (with_affinity p (Some aff)).

(** Counting loop of [calc_num_osds] from OSD [i] on, [n] OSDs left. *)
Fixpoint count_osds p (n : nat) (i a b c : Z) : res (Z * Z * Z) :=
  match n with
  | O => Ok (a, b, c)
  | S n =>
      s <- zget (osd_state p) i;;
      if negb (Z.land s CEPH_OSD_EXISTS =? 0) then
        w <- zget (osd_weight p) i;;
        count_osds p n (i + 1) (a + 1)
          (if negb (Z.land s CEPH_OSD_UP =? 0) then b + 1 else b)
          (if negb (w =? CEPH_OSD_OUT) then c + 1 else c)
      else count_osds p n (i + 1) a b c
  end.
Definition calc_num_osds p : res (Z * Z * Z) := count_osds p (Z.to_nat (max_osd p)) 0 0 0 0.

(** The intersection of the features of the OSDs that are up. *)
Fixpoint up_features p (xi : list osd_xinfo_t) (n : nat) (osd : Z) (acc : option Z) : res Z :=
  match n with
  | O => Ok (default 0 acc)
  | S n =>
      u <- is_up p osd;;
      if negb u then up_features p xi n (osd + 1) acc
      else
        x <- zget xi osd;;
        up_features p xi n (osd + 1)
          (Some (match acc with None => features x | Some f => Z.land f (features x) end))
  end.
Definition _calc_up_osd_features p (xi : list osd_xinfo_t) : res Z :=
  up_features p xi (Z.to_nat (max_osd p)) 0 None.

(** ** The loops of [apply_incremental] *)

Definition apply_weight (s : osd_map C * osd_table) (e : Z * Z) : res (osd_map C * osd_table) :=
  let '(p, t) := s in
  p <- set_weight p e.1 e.2;;
  if negb (e.2 =? 0) then
    st <- zupd (osd_state p) e.1 (λ v, Z.land v (Z.lnot (Z.lor CEPH_OSD_AUTOOUT CEPH_OSD_NEW)));;
    xi <- zupd (osd_xinfo t) e.1 (set_old_weight 0);;
    Ok (with_state p st, with_info t (osd_info t) xi)
  else Ok (p, t).

Definition apply_affinity p (e : Z * Z) : res (osd_map C) := set_primary_affinity p e.1 e.2.

(** An entry of [new_state] is XORed onto the state, 0 standing for the up bit; an
    OSD that exists and whose exists bit is flipped is wiped. *)
Definition apply_state (ep md : Z) (s : osd_map C * osd_table) (e : Z * Z) : res (osd_map C * osd_table) :=
  let '(p, t) := s in
  let osd := e.1 in
  let x := if negb (e.2 =? 0) then e.2 else CEPH_OSD_UP in
  v <- zget (osd_state p) osd;;
  t <- (if negb (Z.land v CEPH_OSD_UP =? 0) && negb (Z.land x CEPH_OSD_UP =? 0) then
          i <- zupd (osd_info t) osd (set_down_at ep);;
          xi <- zupd (osd_xinfo t) osd (set_down_stamp md);;
          Ok (with_info t i xi)
        else Ok t);;
  if negb (Z.land v CEPH_OSD_EXISTS =? 0) && negb (Z.land x CEPH_OSD_EXISTS =? 0) then
    u <- zset (osd_uuid t) osd 0;;
    i <- zset (osd_info t) osd info0;;
    xi <- zset (osd_xinfo t) osd xinfo0;;
    p <- set_primary_affinity p osd CEPH_OSD_DEFAULT_PRIMARY_AFFINITY;;
    cl <- zset (client_addr t) osd (Some 0);;
    cu <- zset (cluster_addr t) osd (Some 0);;
    hf <- zset (hb_front_addr t) osd (Some 0);;
    hb <- zset (hb_back_addr t) osd (Some 0);;
    st <- zset (osd_state p) osd 0;;
    Ok (with_state p st, mk_table cl cu hb hf i xi u)
  else
    st <- zset (osd_state p) osd (Z.lxor v x);;
    Ok (with_state p st, t).

Definition apply_up_client inc (ep : Z) (s : osd_map C * osd_table) (e : Z * Z) : res (osd_map C * osd_table) :=
  let '(p, t) := s in
  st <- zupd (osd_state p) e.1 (λ v, Z.lor v (Z.lor CEPH_OSD_EXISTS CEPH_OSD_UP));;
  cl <- zset (client_addr t) e.1 (Some e.2);;
  back <- (match new_hb_back_up inc with
           | [] => Ok e.2
           | l => deref (assoc_find e.1 l)
           end);;
  hb <- zset (hb_back_addr t) e.1 (Some back);;
  hf <- zset (hb_front_addr t) e.1 (assoc_find e.1 (new_hb_front_up inc));;
  i <- zupd (osd_info t) e.1 (set_up_from ep);;
  Ok (with_state p st, mk_table cl (cluster_addr t) hb hf i (osd_xinfo t) (osd_uuid t)).

Definition apply_up_cluster (t : osd_table) (e : Z * Z) : res osd_table :=
  cu <- zset (cluster_addr t) e.1 (Some e.2);;
  Ok (with_addrs t (client_addr t) cu (hb_back_addr t) (hb_front_addr t)).
Definition apply_info (f : osd_info_t → osd_info_t) (osd : Z) (t : osd_table) : res osd_table :=
  i <- zupd (osd_info t) osd f;; Ok (with_info t i (osd_xinfo t)).
Definition apply_up_thru (t : osd_table) (e : Z * Z) := apply_info (set_up_thru e.2) e.1 t.
Definition apply_last_clean (t : osd_table) (e : Z * (Z * Z)) := apply_info (set_last_clean e.2) e.1 t.
Definition apply_lost (t : osd_table) (e : Z * Z) := apply_info (set_lost_at e.2) e.1 t.
Definition apply_xinfo (t : osd_table) (e : Z * osd_xinfo_t) : res osd_table :=
  xi <- zset (osd_xinfo t) e.1 e.2;; Ok (with_info t (osd_info t) xi).
Definition apply_uuid (t : osd_table) (e : Z * Z) : res osd_table :=
  u <- zset (osd_uuid t) e.1 e.2;; Ok (with_uuid t u).

(** A new name of a pool: the entry of its old name is dropped. *)
Definition apply_name (s : gmap Z (list Z) * gmap (list Z) Z) (e : Z * list Z) :=
  let '(pn, np) := s in
  let np := match pn !! e.1 with Some old => delete old np | None => np end in
  (<[e.1 := e.2]> pn, <[e.2 := e.1]> np).
(** [name_pool.erase(pool_name\[pool\]); pool_name.erase(pool)]: an unknown pool has
    the empty name. *)
Definition erase_name (s : gmap Z (list Z) * gmap (list Z) Z) (pool : Z) :=
  let '(pn, np) := s in (delete pool pn, delete (default [] (pn !! pool)) np).

Definition apply_pool_tables (ep : Z) (t : pool_table) inc : pool_table :=
  let '(pn, np) := foldl apply_name (pool_name t, name_pool t) (new_pool_names inc) in
  let '(pn, np) := foldl erase_name (pn, np) (old_pools inc) in
  mk_pools
    (if negb (new_pool_max inc =? -1) then s32 (new_pool_max inc) else pool_max t)
    (foldl (λ l pool, delete pool l)
       (foldl (λ l e, <[e.1 := ep]> l) (last_change t) (new_pools inc)) (old_pools inc))
    pn np
    (foldl (λ l e, <[e.1 := e.2]> l)
       (foldl (λ l n, delete n l) (erasure_code_profiles t) (old_erasure_code_profiles inc))
       (new_erasure_code_profiles inc)).

Definition apply_pools p inc : osd_map C :=
  with_pools p (foldl (λ l pool, delete pool l)
    (foldl (λ l e, <[e.1 := e.2]> l) (pools p) (new_pools inc)) (old_pools inc)).

Definition apply_temps p inc : osd_map C :=
  with_temps p
    (foldl (λ l e, match e.2 with [] => delete e.1 l | v => <[e.1 := v]> l end)
       (pg_temp p) (new_pg_temp inc))
    (foldl (λ l e, if e.2 =? -1 then delete e.1 l else <[e.1 := e.2]> l)
       (primary_temp p) (new_primary_temp inc)).

Definition apply_upmaps p inc : osd_map C :=
  with_upmaps p
    (foldl (λ l pg, delete pg l)
       (foldl (λ l e, <[e.1 := e.2]> l) (pg_upmap p) (new_pg_upmap inc)) (old_pg_upmap inc))
    (foldl (λ l pg, delete pg l)
       (foldl (λ l e, <[e.1 := e.2]> l) (pg_upmap_items p) (new_pg_upmap_items inc))
       (old_pg_upmap_items inc)).

(** [unordered_map::insert] of a range keeps an entry that is already there. *)
Definition apply_blacklist (b : gmap Z Z) inc : gmap Z Z :=
  foldl (λ l a, delete a l)
    (foldl (λ l e, match l !! e.1 with Some _ => l | None => <[e.1 := e.2]> l end) b (new_blacklist inc))
    (old_blacklist inc).

(** [new_flags] and the releases it implies. *)
Definition flags_release (h : map_header) inc : Z * Z :=
  if 0 <=? new_flags inc then
    let f := new_flags inc in
    let r := require_osd_release h in
    (f, if negb (Z.land f CEPH_OSDMAP_REQUIRE_KRAKEN =? 0)
        then (if r <? CEPH_RELEASE_KRAKEN then CEPH_RELEASE_KRAKEN else r)
        else if negb (Z.land f CEPH_OSDMAP_REQUIRE_JEWEL =? 0)
        then (if r <? CEPH_RELEASE_JEWEL then CEPH_RELEASE_JEWEL else r)
        else r)
  else (flags h, require_osd_release h).
(** [new_require_osd_release], applied after them. *)
Definition release_flags (fr : Z * Z) inc : Z * Z :=
  if 0 <=? new_require_osd_release inc then
    let r := new_require_osd_release inc in
    (if CEPH_RELEASE_LUMINOUS <=? r
     then Z.lor (Z.land fr.1 (Z.lnot CEPH_OSDMAP_LEGACY_REQUIRE_FLAGS)) CEPH_OSDMAP_RECOVERY_DELETES
     else fr.1, r)
  else fr.

Definition not_negative (f : spec_float) : bool := SFleb (S754_zero false) f.

(** The loops over OSDs, in the order of the code. *)
Definition apply_osds (ep : Z) p (t : osd_table) inc : res (osd_map C * osd_table) :=
  '(p, t) <- foldM apply_weight (new_weight inc) (p, t);;
  p <- foldM apply_affinity (new_primary_affinity inc) p;;
  '(p, t) <- foldM (apply_state ep (inc_modified inc)) (new_state inc) (p, t);;
  '(p, t) <- foldM (apply_up_client inc ep) (new_up_client inc) (p, t);;
  t <- foldM apply_up_cluster (new_up_cluster inc) t;;
  t <- foldM apply_up_thru (new_up_thru inc) t;;
  t <- foldM apply_last_clean (new_last_clean_interval inc) t;;
  t <- foldM apply_lost (new_lost inc) t;;
  t <- foldM apply_xinfo (new_xinfo inc) t;;
  t <- foldM apply_uuid (new_uuid inc) t;;
  Ok (p, t).

Definition apply_header (h : map_header) (ep fs : Z) (counts : Z * Z * Z) (feat : Z) inc : map_header :=
  let '(nosd, nup, nin) := counts in
  let fr := release_flags (flags_release h inc) inc in
  mk_header fs ep (inc_modified inc) fr.1 nosd nup nin
    (apply_blacklist (blacklist h) inc)
    (match new_blacklist inc with [] => false | _ => true end)
    (inc_cluster_snapshot inc)
    (match inc_cluster_snapshot inc with [] => 0 | _ => inc_epoch inc end)
    (if not_negative (new_nearfull_ratio inc) then new_nearfull_ratio inc else nearfull_ratio h)
    (if not_negative (new_backfillfull_ratio inc) then new_backfillfull_ratio inc else backfillfull_ratio h)
    (if not_negative (new_full_ratio inc) then new_full_ratio inc else full_ratio h)
    (if 0 <? new_require_min_compat_client inc then new_require_min_compat_client inc
     else require_min_compat_client h)
    fr.2
    (match inc_crush inc with
     | Some _ => if CEPH_RELEASE_LUMINOUS <=? fr.2 then u32 (crush_version h + 1) else crush_version h
     | None => crush_version h
     end)
    feat.

Definition refuse (h : map_header) : map_header :=
  mk_header (fsid h) (epoch h) (modified h) (flags h) (num_osd h) (num_up_osd h) (num_in_osd h)
    (blacklist h) false (cluster_snapshot h) (cluster_snapshot_epoch h) (nearfull_ratio h)
    (backfillfull_ratio h) (full_ratio h) (require_min_compat_client h) (require_osd_release h)
    (crush_version h) (cached_up_osd_features h).

Definition apply_incremental m inc : res (Z * OSDMap C) :=
  let h := header m in
  if negb (inc_epoch inc =? 1) && negb (inc_fsid inc =? fsid h) then
    Ok (- EINVAL, mk_full (place m) (osds m) (pool_info m) (refuse h))
  else
    let fs := if inc_epoch inc =? 1 then inc_fsid inc else fsid h in
    assert (inc_epoch inc =? u32 (epoch h + 1));;;
    let ep := u32 (epoch h + 1) in
    match fullmap inc with
    | Some m' => Ok (0, m')
    | None =>
        let '(p, t) := if 0 <=? new_max_osd inc then set_max_osd (place m) (osds m) (new_max_osd inc)
                       else (place m, osds m) in
        let p := apply_pools p inc in
        let pt := apply_pool_tables ep (pool_info m) inc in
        '(p, t) <- apply_osds ep p t inc;;
        let p := apply_upmaps (apply_temps p inc) inc in
        let p := match inc_crush inc with Some c => with_crush p c | None => p end in
        counts <- calc_num_osds p;;
        feat <- _calc_up_osd_features p (osd_xinfo t);;
        Ok (0, mk_full p t pt (apply_header h ep fs counts feat inc))
    end.
End Update.
End OSDMapInc.
