(* ===== verification/OSDMapUpdate.v ===== *)
(** * Correctness of the updates of the OSD map

    An incremental whose entries name OSDs below the new [max_osd] is applied
    without a fault, keeps the invariant that placement relies on (OSDMapCorrect.v),
    leaves the state of the OSDs it does not name alone, marks up what it should,
    and the counts it recomputes are right. *)
From stdpp Require Import gmap.
From Stdlib Require Import SpecFloat.
From S2P Require Import Prelude CrushMapper PgPool OSDMap OSDMapCorrect OSDMapInc.

Module OSDMapUpdate.
Import PgPool OSDMap OSDMapCorrect OSDMapInc.

(** ** Vectors *)

Lemma zupd_in {A} (l : list A) i (f : A → A) : 0 <= i < Z.of_nat (length l) →
  ∃ a, l !! Z.to_nat i = Some a ∧ zupd l i f = Ok (<[Z.to_nat i := f a]> l).
Proof.
  intros Hi. destruct (lookup_lt_is_Some_2 l (Z.to_nat i)) as [a E]; [lia|]. exists a. split; [done|].
  unfold zupd. rewrite (proj2 (zget_ok _ _ a)) by (split; [lia|done]). cbn [bind]. by apply zset_ok.
Qed.

Lemma length_resize {A} n (d : A) l : 0 <= n → Z.of_nat (length (resize n d l)) = n.
Proof. intros Hn. unfold resize. rewrite length_app, length_take, length_replicate. lia. Qed.

Lemma lookup_resize {A} n (d : A) l i : (i < length l)%nat → Z.of_nat i < n → resize n d l !! i = l !! i.
Proof.
  intros Hi Hn. unfold resize. rewrite lookup_app_l by (rewrite length_take; lia). apply lookup_take_lt. lia.
Qed.

Lemma foldM_ok {S A} (P : S → Prop) (f : S → A → res S) l s :
  (∀ s a, a ∈ l → P s → ∃ s', f s a = Ok s' ∧ P s') → P s → ∃ s', foldM f l s = Ok s' ∧ P s'.
Proof.
  revert s. induction l as [|a l IH]; intros s Hf Hs; [by exists s|]. cbn [foldM].
  destruct (Hf s a) as (s1 & -> & Hs1); [by left|done|]. cbn [bind].
  apply IH; [|done]. intros s2 a2 Ha. apply Hf. by right.
Qed.

(** [foldM] over entries with distinct keys, each of which changes the state of its
    own OSD only. *)
Lemma foldM_pointwise {S A} (P : S → Prop) (st : S → list Z) (f : S → Z * A → res S) (g : A → Z → Z) l s :
  NoDup (map fst l) → Forall (λ e, 0 <= e.1) l →
  (∀ s e, e ∈ l → P s → ∃ v s', st s !! Z.to_nat e.1 = Some v ∧ f s e = Ok s' ∧ P s' ∧
     st s' = <[Z.to_nat e.1 := g e.2 v]> (st s)) →
  P s →
  ∃ s', foldM f l s = Ok s' ∧ P s' ∧
    ∀ osd, 0 <= osd → st s' !! Z.to_nat osd =
      match assoc_find osd l with Some x => g x <$> st s !! Z.to_nat osd | None => st s !! Z.to_nat osd end.
Proof.
  revert s. induction l as [|[k a] l IH]; intros s Hnd Hpos Hf Hs; [by exists s|]. cbn [foldM].
  apply NoDup_cons in Hnd as [Hk Hnd]. apply Forall_cons in Hpos as [Hk0 Hpos]. cbn [fst] in Hk0.
  destruct (Hf s (k, a)) as (v & s1 & Ev & -> & Hs1 & E1); [by left|done|]. cbn [bind fst snd] in *.
  destruct (IH s1 Hnd Hpos) as (s' & E & Hs' & Hst); [|done|].
  { intros s2 e He. apply Hf. by right. }
  exists s'. split; [done|]. split; [done|]. intros osd Ho. rewrite (Hst osd Ho), E1.
  unfold assoc_find. cbn [List.find fst]. destruct (k =? osd) eqn:Ek; zb; cbn [fmap option_fmap option_map snd].
  - subst osd. replace (snd <$> List.find _ l) with (@None A).
    + rewrite list_lookup_insert_eq by (by eapply lookup_lt_Some). by rewrite Ev.
    + destruct (List.find _ l) as [[k' a']|] eqn:Ef; [|done]. apply find_some in Ef as [Hin Heq]. cbn [fst] in Heq. zb.
      subst k'. destruct Hk. apply list_elem_of_In, in_map_iff. by exists (k, a').
  - rewrite list_lookup_insert_ne; [done|]. intros Heq%Z2Nat.inj; lia.
Qed.

Section Update.
Context {C : Type}.
Implicit Types (m : OSDMap C) (p : osd_map C) (t : osd_table).

(** ** The invariant *)

(** All vectors have one entry per OSD. *)
Record arrays_ok (n : Z) p t : Prop := {
  a_max : max_osd p = n;
  a_state : Z.of_nat (length (osd_state p)) = n;
  a_weight : Z.of_nat (length (osd_weight p)) = n;
  a_aff aff : osd_primary_affinity p = Some aff → Z.of_nat (length aff) = n;
  a_client : Z.of_nat (length (client_addr t)) = n;
  a_cluster : Z.of_nat (length (cluster_addr t)) = n;
  a_back : Z.of_nat (length (hb_back_addr t)) = n;
  a_front : Z.of_nat (length (hb_front_addr t)) = n;
  a_info : Z.of_nat (length (osd_info t)) = n;
  a_xinfo : Z.of_nat (length (osd_xinfo t)) = n;
  a_uuid : Z.of_nat (length (osd_uuid t)) = n
}.

Definition upmaps_ok p : Prop :=
  (∀ pg l, pg_upmap p !! pg = Some l → Forall target_ok l) ∧
  (∀ pg l, pg_upmap_items p !! pg = Some l → Forall (λ r, target_ok r.2) l).

(** The fields the loops over OSDs do not touch. *)
Definition same_rest p p' : Prop :=
  pools p' = pools p ∧ pg_temp p' = pg_temp p ∧ primary_temp p' = primary_temp p ∧
  pg_upmap p' = pg_upmap p ∧ pg_upmap_items p' = pg_upmap_items p ∧ crush p' = crush p.

Definition loop_inv (n : Z) p0 (s : osd_map C * osd_table) : Prop :=
  arrays_ok n s.1 s.2 ∧ same_rest p0 s.1.

(** ** One entry at a time *)

Lemma same_rest_trans p1 p2 p3 : same_rest p1 p2 → same_rest p2 p3 → same_rest p1 p3.
Proof. unfold same_rest. intros (-> & -> & -> & -> & -> & ->). auto. Qed.

(** [loop_inv] after a step from a state that satisfies it. *)
Lemma loop_inv_step n p0 p t p' t' : loop_inv n p0 (p, t) →
  arrays_ok n p' t' → same_rest p p' → loop_inv n p0 (p', t').
Proof. intros (_ & Hr) Ha' Hr'. split; [done|by eapply same_rest_trans]. Qed.

Lemma set_affinity_ok n p t o w : arrays_ok n p t → 0 <= o < n →
  ∃ aff, set_primary_affinity p o w = Ok (with_affinity p (Some aff)) ∧ Z.of_nat (length aff) = n.
Proof.
  intros Ha Ho. unfold set_primary_affinity. rewrite (a_max _ _ _ Ha), (proj2 (Z.ltb_lt _ _)) by lia. cbn [assert bind].
  set (aff := default _ _). assert (Z.of_nat (length aff) = n) as Hl.
  { unfold aff. destruct (osd_primary_affinity p) eqn:E; cbn [default]; [by eapply a_aff|].
    rewrite length_replicate. lia. }
  rewrite zset_ok by lia. cbn [bind]. eexists. split; [done|]. by rewrite length_insert.
Qed.

Lemma arrays_affinity n p t aff : arrays_ok n p t → Z.of_nat (length aff) = n →
  arrays_ok n (with_affinity p (Some aff)) t.
Proof. intros [] Hl. split; try done. by intros aff' [= <-]. Qed.
Lemma arrays_state n p t st : arrays_ok n p t → length st = length (osd_state p) → arrays_ok n (with_state p st) t.
Proof. intros [] Hl. split; try done. cbn. lia. Qed.
Lemma arrays_info n p t i x : arrays_ok n p t → length i = length (osd_info t) → length x = length (osd_xinfo t) →
  arrays_ok n p (with_info t i x).
Proof. intros [] Hi Hx. split; try done; cbn; lia. Qed.

(** The state of an OSD after an entry [w] of [new_weight]. *)
Definition weighed (w v : Z) : Z :=
  if negb (w =? 0) then Z.land (Z.lor CEPH_OSD_EXISTS v) (Z.lnot (Z.lor CEPH_OSD_AUTOOUT CEPH_OSD_NEW)) else v.

Lemma apply_weight_ok n p0 s e : loop_inv n p0 s → 0 <= e.1 < n →
  ∃ v s', osd_state s.1 !! Z.to_nat e.1 = Some v ∧ apply_weight s e = Ok s' ∧ loop_inv n p0 s' ∧
    osd_state s'.1 = <[Z.to_nat e.1 := weighed e.2 v]> (osd_state s.1).
Proof.
  destruct s as [p t]. intros Hs Ho. pose proof (proj1 Hs) as Ha. cbn [fst snd] in *. pose proof Ha as [].
  unfold apply_weight, set_weight, weighed. rewrite a_max0, (proj2 (Z.ltb_lt _ _)) by lia. cbn [assert bind].
  rewrite zset_ok by lia. cbn [bind]. destruct (negb (e.2 =? 0)).
  - destruct (zupd_in (osd_state p) e.1 (Z.lor CEPH_OSD_EXISTS)) as (v & Ev & ->); [lia|]. cbn [bind].
    cbn [osd_state with_osds_of].
    destruct (zupd_in (<[Z.to_nat e.1:=Z.lor CEPH_OSD_EXISTS v]> (osd_state p)) e.1
      (λ v, Z.land v (Z.lnot (Z.lor CEPH_OSD_AUTOOUT CEPH_OSD_NEW)))) as (v' & Ev' & ->); [rewrite length_insert; lia|].
    cbn [bind]. rewrite list_lookup_insert_eq in Ev' by lia. injection Ev' as <-.
    destruct (zupd_in (osd_xinfo t) e.1 (set_old_weight 0)) as (x & _ & ->); [lia|].
    cbn [bind]. eexists v, _. split; [done|]. split; [done|]. split.
    + eapply loop_inv_step; [exact Hs| |repeat split]. split; try done; cbn; by rewrite ?length_insert.
    + cbn. by rewrite list_insert_insert_eq.
  - destruct (lookup_lt_is_Some_2 (osd_state p) (Z.to_nat e.1)) as [v Ev]; [lia|]. cbn [bind].
    exists v. eexists. split; [done|]. split; [done|]. split.
    + eapply loop_inv_step; [exact Hs| |repeat split]. split; try done; cbn; by rewrite ?length_insert.
    + cbn. by rewrite list_insert_id.
Qed.

Lemma apply_affinity_ok n p0 p t e : loop_inv n p0 (p, t) → 0 <= e.1 < n →
  ∃ p', apply_affinity p e = Ok p' ∧ loop_inv n p0 (p', t) ∧ osd_state p' = osd_state p.
Proof.
  intros Hs Ho. pose proof (proj1 Hs) as Ha. cbn [fst snd] in Ha.
  destruct (set_affinity_ok n p t e.1 e.2 Ha Ho) as (aff & E & Hl). unfold apply_affinity. rewrite E.
  eexists. split; [done|]. split; [|done]. eapply loop_inv_step; [exact Hs|by apply arrays_affinity|repeat split].
Qed.

(** The first part of an entry of [new_state]: the time an OSD went down. *)
Lemma down_stamp_ok n p t osd (b : bool) ep md : arrays_ok n p t → 0 <= osd < n →
  ∃ t', (if b then i <- zupd (osd_info t) osd (set_down_at ep);; xi <- zupd (osd_xinfo t) osd (set_down_stamp md);;
          Ok (with_info t i xi) else Ok t) = Ok t' ∧ arrays_ok n p t'.
Proof.
  intros Ha Ho. destruct b; [|by eexists]. pose proof Ha as [].
  destruct (zupd_in (osd_info t) osd (set_down_at ep)) as (i & _ & ->); [lia|]. cbn [bind].
  destruct (zupd_in (osd_xinfo t) osd (set_down_stamp md)) as (x & _ & ->); [lia|]. cbn [bind].
  eexists. split; [done|]. apply arrays_info; [done|by rewrite length_insert..].
Qed.

(** The new state of an OSD after an entry [x] of [new_state]. *)
Definition flipped (x v : Z) : Z :=
  let x := if negb (x =? 0) then x else CEPH_OSD_UP in
  if negb (Z.land v CEPH_OSD_EXISTS =? 0) && negb (Z.land x CEPH_OSD_EXISTS =? 0) then 0 else Z.lxor v x.

Lemma apply_state_ok n p0 ep md s e : loop_inv n p0 s → 0 <= e.1 < n →
  ∃ v s', osd_state s.1 !! Z.to_nat e.1 = Some v ∧ apply_state ep md s e = Ok s' ∧ loop_inv n p0 s' ∧
    osd_state s'.1 = <[Z.to_nat e.1 := flipped e.2 v]> (osd_state s.1).
Proof.
  destruct s as [p t]. intros Hs Ho. pose proof (proj1 Hs) as Ha. cbn [fst snd] in *.
  destruct (lookup_lt_is_Some_2 (osd_state p) (Z.to_nat e.1)) as [v Ev]; [destruct Ha; lia|].
  exists v. unfold apply_state, flipped. set (x := if negb (e.2 =? 0) then e.2 else CEPH_OSD_UP). cbv zeta.
  rewrite (proj2 (zget_ok _ _ v)) by (split; [lia|done]). cbn [bind].
  destruct (down_stamp_ok n p t e.1 (negb (Z.land v CEPH_OSD_UP =? 0) && negb (Z.land x CEPH_OSD_UP =? 0)) ep md Ha Ho)
    as (t1 & -> & Ha1). cbn [bind].
  destruct (negb (Z.land v CEPH_OSD_EXISTS =? 0) && negb (Z.land x CEPH_OSD_EXISTS =? 0)).
  - pose proof Ha1 as []. destruct (set_affinity_ok n p t1 e.1 CEPH_OSD_DEFAULT_PRIMARY_AFFINITY Ha1 Ho) as (aff & Eaff & Hl).
    do 3 (rewrite zset_ok by lia; cbn [bind]). rewrite Eaff. cbn [bind].
    do 5 (rewrite zset_ok by (cbn; lia); cbn [bind]). eexists. split; [done|]. split; [done|]. split; [|done].
    eapply loop_inv_step; [exact Hs| |repeat split].
    split; try done; cbn; rewrite ?length_insert; try done. by intros aff' [= <-].
  - rewrite zset_ok by (destruct Ha; lia). cbn [bind]. eexists. split; [done|]. split; [done|]. split; [|done].
    eapply loop_inv_step; [exact Hs| |repeat split].
    apply arrays_state; [done|by rewrite length_insert].
Qed.

Definition hb_back_known (inc : Incremental C) (osd : Z) : Prop :=
  new_hb_back_up inc = [] ∨ is_Some (assoc_find osd (new_hb_back_up inc)).

Lemma apply_up_client_ok n p0 inc ep s e : loop_inv n p0 s → 0 <= e.1 < n →
  hb_back_known inc e.1 →
  ∃ v s', osd_state s.1 !! Z.to_nat e.1 = Some v ∧ apply_up_client inc ep s e = Ok s' ∧ loop_inv n p0 s' ∧
    osd_state s'.1 = <[Z.to_nat e.1 := Z.lor v (Z.lor CEPH_OSD_EXISTS CEPH_OSD_UP)]> (osd_state s.1).
Proof.
  destruct s as [p t]. intros Hs Ho Hb. pose proof (proj1 Hs) as Ha. cbn [fst snd] in *. pose proof Ha as [].
  unfold apply_up_client.
  destruct (zupd_in (osd_state p) e.1 (λ v, Z.lor v (Z.lor CEPH_OSD_EXISTS CEPH_OSD_UP))) as (v & Ev & ->); [lia|].
  cbn [bind]. rewrite zset_ok by lia. cbn [bind].
  assert (∃ back, match new_hb_back_up inc with [] => Ok e.2 | l => deref (assoc_find e.1 l) end = Ok back) as (back & ->).
  { destruct Hb as [->|[a E]]; [by eexists|]. destruct (new_hb_back_up inc); [by eexists|]. rewrite E. by eexists. }
  cbn [bind]. do 2 (rewrite zset_ok by lia; cbn [bind]).
  destruct (zupd_in (osd_info t) e.1 (set_up_from ep)) as (i & _ & ->); [lia|]. cbn [bind].
  eexists v, _. split; [done|]. split; [done|]. split; [|done]. eapply loop_inv_step; [exact Hs| |repeat split].
  split; try done; cbn; rewrite ?length_insert; done.
Qed.

(** The loops that only touch the table. *)
Lemma table_loops_ok n p t (inc : Incremental C) : arrays_ok n p t →
  Forall (λ e, 0 <= e.1 < n) (new_up_cluster inc) → Forall (λ e, 0 <= e.1 < n) (new_up_thru inc) →
  Forall (λ e, 0 <= e.1 < n) (new_last_clean_interval inc) → Forall (λ e, 0 <= e.1 < n) (new_lost inc) →
  Forall (λ e, 0 <= e.1 < n) (new_xinfo inc) → Forall (λ e, 0 <= e.1 < n) (new_uuid inc) →
  ∃ t', (t <- foldM apply_up_cluster (new_up_cluster inc) t;;
         t <- foldM apply_up_thru (new_up_thru inc) t;;
         t <- foldM apply_last_clean (new_last_clean_interval inc) t;;
         t <- foldM apply_lost (new_lost inc) t;;
         t <- foldM apply_xinfo (new_xinfo inc) t;;
         t <- foldM apply_uuid (new_uuid inc) t;; Ok (p, t)) = Ok (p, t') ∧ arrays_ok n p t'.
Proof.
  rewrite !Forall_forall. intros Ha H1 H2 H3 H4 H5 H6.
  assert (∀ f osd t, arrays_ok n p t → 0 <= osd < n → ∃ t', apply_info f osd t = Ok t' ∧ arrays_ok n p t') as Hinfo.
  { intros f osd t0 Ha0 Ho. unfold apply_info. destruct (zupd_in (osd_info t0) osd f) as (i & _ & ->); [destruct Ha0; lia|].
    eexists. split; [done|]. apply arrays_info; [done|by rewrite length_insert|done]. }
  assert (∀ t e, e ∈ new_up_cluster inc → arrays_ok n p t → ∃ t', apply_up_cluster t e = Ok t' ∧ arrays_ok n p t') as Hc.
  { intros t0 e He Ha0. pose proof Ha0 as []. unfold apply_up_cluster. rewrite zset_ok by (specialize (H1 e He); simpl in H1; lia).
    eexists. split; [done|]. split; try done; cbn; by rewrite length_insert. }
  assert (∀ t e, e ∈ new_xinfo inc → arrays_ok n p t → ∃ t', apply_xinfo t e = Ok t' ∧ arrays_ok n p t') as Hx.
  { intros t0 e He Ha0. pose proof Ha0 as []. unfold apply_xinfo. rewrite zset_ok by (specialize (H5 e He); simpl in H5; lia).
    eexists. split; [done|]. apply arrays_info; [done|done|by rewrite length_insert]. }
  assert (∀ t e, e ∈ new_uuid inc → arrays_ok n p t → ∃ t', apply_uuid t e = Ok t' ∧ arrays_ok n p t') as Hu.
  { intros t0 e He Ha0. pose proof Ha0 as []. unfold apply_uuid. rewrite zset_ok by (specialize (H6 e He); simpl in H6; lia).
    eexists. split; [done|]. split; try done; cbn; by rewrite length_insert. }
  destruct (foldM_ok (arrays_ok n p) apply_up_cluster (new_up_cluster inc) t) as (t1 & -> & A1); [done..|]. cbn [bind].
  destruct (foldM_ok (arrays_ok n p) apply_up_thru (new_up_thru inc) t1) as (t2 & -> & A2);
    [intros; apply Hinfo; [done|by apply H2]|done|]. cbn [bind].
  destruct (foldM_ok (arrays_ok n p) apply_last_clean (new_last_clean_interval inc) t2) as (t3 & -> & A3);
    [intros; apply Hinfo; [done|by apply H3]|done|]. cbn [bind].
  destruct (foldM_ok (arrays_ok n p) apply_lost (new_lost inc) t3) as (t4 & -> & A4);
    [intros; apply Hinfo; [done|by apply H4]|done|]. cbn [bind].
  destruct (foldM_ok (arrays_ok n p) apply_xinfo (new_xinfo inc) t4) as (t5 & -> & A5); [done..|]. cbn [bind].
  destruct (foldM_ok (arrays_ok n p) apply_uuid (new_uuid inc) t5) as (t6 & -> & A6); [done..|]. cbn [bind].
  by exists t6.
Qed.
(** ** The counts *)

(** How many of the OSDs below [n] satisfy [f]. *)
Definition how_many (f : Z → bool) (n : Z) : Z := Z.of_nat (length (List.filter f (seqZ 0 n))).

Definition weighted_in p (osd : Z) : bool :=
  present p osd && negb (default 0 (osd_weight p !! Z.to_nat osd) =? CEPH_OSD_OUT).

Lemma count_osds_ok p (Hp : wf_osdmap p) k i a b c : 0 <= i → i + Z.of_nat k = max_osd p →
  count_osds p k i a b c =
    Ok (a + Z.of_nat (length (List.filter (present p) (seqZ i (Z.of_nat k)))),
        b + Z.of_nat (length (List.filter (live p) (seqZ i (Z.of_nat k)))),
        c + Z.of_nat (length (List.filter (weighted_in p) (seqZ i (Z.of_nat k))))).
Proof.
  revert i a b c. induction k as [|k IH]; intros i a b c Hi Hk.
  { cbn [count_osds]. change (seqZ i (Z.of_nat 0)) with (@nil Z). cbn. do 3 f_equal; lia. }
  cbn [count_osds]. rewrite seqZ_cons by lia. replace (Z.pred (Z.of_nat (S k))) with (Z.of_nat k) by lia.
  rewrite <- Z.add_1_r. cbn [List.filter].
  destruct (lookup_lt_is_Some_2 (osd_state p) (Z.to_nat i)) as [v Ev]; [destruct Hp; lia|].
  destruct (lookup_lt_is_Some_2 (osd_weight p) (Z.to_nat i)) as [w Ew]; [destruct Hp; lia|].
  rewrite (proj2 (zget_ok _ _ v)) by (split; [lia|done]). cbn [bind].
  assert (∀ bit, state_bit p i bit = negb (Z.land v bit =? 0)) as Hbit.
  { intros bit. unfold state_bit. rewrite Ev, (proj2 (Z.leb_le _ _)), (proj2 (Z.ltb_lt _ _)) by lia. done. }
  assert (present p i = negb (Z.land v CEPH_OSD_EXISTS =? 0)) as Ep by apply Hbit.
  assert (live p i = present p i && negb (Z.land v CEPH_OSD_UP =? 0)) as El by (unfold live; by rewrite Hbit).
  assert (weighted_in p i = present p i && negb (w =? CEPH_OSD_OUT)) as Ei by (unfold weighted_in; by rewrite Ew).
  rewrite Ei, El, Ep. destruct (negb (Z.land v CEPH_OSD_EXISTS =? 0)); cbn [andb].
  - rewrite (proj2 (zget_ok _ _ w)) by (split; [lia|done]). cbn [bind]. rewrite IH by lia.
    destruct (negb (Z.land v CEPH_OSD_UP =? 0)), (negb (w =? CEPH_OSD_OUT)); cbn [length];
      (apply (f_equal Ok), (f_equal2 pair); [apply (f_equal2 pair)|]; lia).
  - by rewrite IH by lia.
Qed.

Lemma calc_num_osds_ok p : wf_osdmap p → 0 <= max_osd p →
  calc_num_osds p = Ok (how_many (present p) (max_osd p), how_many (live p) (max_osd p),
                        how_many (weighted_in p) (max_osd p)).
Proof.
  intros Hp H0. unfold calc_num_osds. rewrite (count_osds_ok p Hp) by lia.
  unfold how_many. by rewrite !Z2Nat.id by lia.
Qed.

Lemma up_features_ok p (xi : list osd_xinfo_t) (Hp : wf_osdmap p) k i acc : 0 <= i →
  Z.of_nat (length xi) = max_osd p → i + Z.of_nat k = max_osd p → ∃ f, up_features p xi k i acc = Ok f.
Proof.
  intros Hi Hx. revert i acc Hi. induction k as [|k IH]; intros i acc Hi Hk; [by eexists|]. cbn [up_features].
  rewrite (is_up_ok p Hp). cbn [bind]. destruct (negb _); [apply IH; lia|].
  destruct (lookup_lt_is_Some_2 xi (Z.to_nat i)) as [x Ex]; [lia|].
  rewrite (proj2 (zget_ok _ _ x)) by (split; [lia|done]). cbn [bind]. apply IH; lia.
Qed.

(** ** The whole update *)

Definition new_max m (inc : Incremental C) : Z :=
  if 0 <=? new_max_osd inc then new_max_osd inc else max_osd (place m).

Definition in_range {A} (n : Z) (l : list (Z * A)) : Prop := Forall (λ e, 0 <= e.1 < n) l.
(** The keys of a [std::map] are distinct. *)
Definition map_keys {A} (l : list (Z * A)) : Prop := NoDup (map fst l).

(** An incremental for [m] that does not replace the map: every OSD it names is below
    the new maximum, and a heartbeat address is known for those it marks up. *)
Record inc_ok m (inc : Incremental C) : Prop := {
  i_fsid : inc_epoch inc = 1 ∨ inc_fsid inc = fsid (header m);
  i_epoch : inc_epoch inc = u32 (epoch (header m) + 1);
  i_full : fullmap inc = None;
  i_max : new_max m inc <= CRUSH_ITEM_NONE;
  i_weight : in_range (new_max m inc) (new_weight inc) ∧ map_keys (new_weight inc);
  i_state : in_range (new_max m inc) (new_state inc) ∧ map_keys (new_state inc);
  i_client : in_range (new_max m inc) (new_up_client inc) ∧ map_keys (new_up_client inc);
  i_aff : in_range (new_max m inc) (new_primary_affinity inc);
  i_cluster : in_range (new_max m inc) (new_up_cluster inc);
  i_thru : in_range (new_max m inc) (new_up_thru inc);
  i_clean : in_range (new_max m inc) (new_last_clean_interval inc);
  i_lost : in_range (new_max m inc) (new_lost inc);
  i_xinfo : in_range (new_max m inc) (new_xinfo inc);
  i_uuid : in_range (new_max m inc) (new_uuid inc);
  i_back : Forall (λ e, hb_back_known inc e.1) (new_up_client inc);
  i_upmap : Forall (λ e, Forall target_ok e.2) (new_pg_upmap inc);
  i_items : Forall (λ e, Forall (λ r, target_ok r.2) e.2) (new_pg_upmap_items inc)
}.

Definition full_ok m : Prop :=
  wf_osdmap (place m) ∧ arrays_ok (max_osd (place m)) (place m) (osds m).

(** The state of an OSD after the update: its weight, the flipped bits, then the up
    mark. *)
Definition next_state (inc : Incremental C) (osd v : Z) : Z :=
  let v := match assoc_find osd (new_weight inc) with Some w => weighed w v | None => v end in
  let v := match assoc_find osd (new_state inc) with Some x => flipped x v | None => v end in
  match assoc_find osd (new_up_client inc) with
  | Some _ => Z.lor v (Z.lor CEPH_OSD_EXISTS CEPH_OSD_UP)
  | None => v
  end.

Lemma in_range_pos {A} n (l : list (Z * A)) : in_range n l → Forall (λ e, 0 <= e.1) l.
Proof. intros Hl. eapply List.Forall_impl; [|exact Hl]. cbn. lia. Qed.

Lemma apply_osds_ok n m inc p t ep : n = new_max m inc → arrays_ok n p t → inc_ok m inc →
  ∃ p' t', apply_osds ep p t inc = Ok (p', t') ∧ loop_inv n p (p', t') ∧
    ∀ osd, 0 <= osd → osd_state p' !! Z.to_nat osd = next_state inc osd <$> osd_state p !! Z.to_nat osd.
Proof.
  intros -> Ha []. set (n := new_max m inc) in *. unfold apply_osds.
  destruct i_weight0 as [Rw Nw], i_state0 as [Rs Ns], i_client0 as [Rc Nc].
  destruct (foldM_pointwise (loop_inv n p) (λ s, osd_state s.1) apply_weight weighed (new_weight inc) (p, t))
    as ((p1, t1) & -> & I1 & S1); [done|by eapply in_range_pos| |split; [done|repeat split]|].
  { intros s e He Hs. apply apply_weight_ok; [done|]. by apply (proj1 (Forall_forall _ _) Rw). }
  cbn [bind].
  destruct (foldM_ok (λ p', loop_inv n p (p', t1) ∧ osd_state p' = osd_state p1) apply_affinity
    (new_primary_affinity inc) p1) as (p2 & -> & I2 & E2); [|done|].
  { intros p' e He [Hp' E]. destruct (apply_affinity_ok n p p' t1 e) as (p'' & -> & ? & E'); [done| |].
    - by apply (proj1 (Forall_forall _ _) i_aff0).
    - eexists. split; [done|]. split; [done|congruence]. }
  cbn [bind].
  destruct (foldM_pointwise (loop_inv n p) (λ s, osd_state s.1) (apply_state ep (inc_modified inc)) flipped
    (new_state inc) (p2, t1)) as ((p3, t3) & -> & I3 & S3); [done|by eapply in_range_pos| |done|].
  { intros s e He Hs. apply apply_state_ok; [done|]. by apply (proj1 (Forall_forall _ _) Rs). }
  cbn [bind].
  destruct (foldM_pointwise (loop_inv n p) (λ s, osd_state s.1) (apply_up_client inc ep)
    (λ _ v, Z.lor v (Z.lor CEPH_OSD_EXISTS CEPH_OSD_UP)) (new_up_client inc) (p3, t3))
    as ((p4, t4) & -> & I4 & S4); [done|by eapply in_range_pos| |done|].
  { intros s e He Hs. apply apply_up_client_ok; [done|by apply (proj1 (Forall_forall _ _) Rc)|].
    by apply (proj1 (Forall_forall _ _) i_back0). }
  cbn [bind]. destruct (table_loops_ok n p4 t4 inc) as (t5 & -> & A5); [apply I4|done..|].
  exists p4, t5. split; [done|]. split; [split; [done|apply I4]|].
  intros osd Ho. cbn [fst] in S1, S3, S4. rewrite (S4 osd Ho), (S3 osd Ho), E2, (S1 osd Ho). unfold next_state.
  destruct (osd_state p !! Z.to_nat osd), (assoc_find osd (new_weight inc)), (assoc_find osd (new_state inc)),
    (assoc_find osd (new_up_client inc)); done.
Qed.

Lemma set_max_ok p t n : wf_osdmap p → 0 <= n → arrays_ok n (set_max_osd p t n).1 (set_max_osd p t n).2.
Proof.
  intros Hp Hn. split; cbn; rewrite ?length_resize by done; try done.
  intros aff E. apply fmap_Some in E as (a & _ & ->). by rewrite length_resize.
Qed.

Lemma foldl_insert_inv `{Countable K} {A B} (P : A → Prop) (f : B → K) (g : B → A) l (u : gmap K A) :
  (∀ k a, u !! k = Some a → P a) → Forall (λ e, P (g e)) l →
  ∀ k a, foldl (λ u e, <[f e := g e]> u) u l !! k = Some a → P a.
Proof.
  revert u. induction l as [|e l IH]; intros u Hu Hl; [done|]. apply Forall_cons in Hl as [He Hl]. cbn [foldl].
  apply IH; [|done]. intros k a. rewrite lookup_insert_Some. intros [[_ <-]|[_ E]]; [done|by eapply Hu].
Qed.
Lemma foldl_delete_inv `{Countable K} {A} (P : A → Prop) l (u : gmap K A) :
  (∀ k a, u !! k = Some a → P a) → ∀ k a, foldl (λ u k, delete k u) u l !! k = Some a → P a.
Proof.
  revert u. induction l as [|e l IH]; intros u Hu; [done|]. cbn [foldl]. apply IH.
  intros k a. rewrite lookup_delete_Some. intros [_ E]. by eapply Hu.
Qed.

(** What [apply_osds] and the table updates leave satisfies the invariant of placement. *)
Lemma updated_wf n p t inc : arrays_ok n p t → n <= CRUSH_ITEM_NONE → upmaps_ok p →
  Forall (λ e, Forall target_ok e.2) (new_pg_upmap inc) →
  Forall (λ e, Forall (λ r, target_ok r.2) e.2) (new_pg_upmap_items inc) →
  wf_osdmap (match inc_crush inc with
             | Some c => with_crush (apply_upmaps (apply_temps p inc) inc) c
             | None => apply_upmaps (apply_temps p inc) inc
             end).
Proof.
  intros [] Hn [Hu Hi] Hnu Hni. assert (wf_osdmap (apply_upmaps (apply_temps p inc) inc)) as Hwf.
  { split; cbn; try lia.
    - intros aff E. rewrite a_max0. by apply a_aff0.
    - apply (foldl_delete_inv (Forall target_ok)), (foldl_insert_inv (Forall target_ok)); done.
    - apply (foldl_delete_inv (Forall (λ r, target_ok r.2))), (foldl_insert_inv (Forall (λ r, target_ok r.2))); done. }
  destruct (inc_crush inc); [|done]. by destruct Hwf.
Qed.

Lemma assoc_find_in {A} k (x : A) l : (k, x) ∈ l → is_Some (assoc_find k l).
Proof.
  intros Hin%list_elem_of_In. unfold assoc_find. destruct (List.find _ l) eqn:E; [by eexists|].
  apply (find_none _ _ E) in Hin. cbn [fst] in Hin. by rewrite Z.eqb_refl in Hin.
Qed.

(** The vectors after [new_max_osd]. *)
Lemma resized m inc : wf_osdmap (place m) → arrays_ok (max_osd (place m)) (place m) (osds m) → 0 <= max_osd (place m) →
  ∃ p t, (if 0 <=? new_max_osd inc then set_max_osd (place m) (osds m) (new_max_osd inc) else (place m, osds m)) = (p, t) ∧
    arrays_ok (new_max m inc) p t ∧ upmaps_ok p ∧
    ∀ osd, 0 <= osd < new_max m inc → osd_state p !! Z.to_nat osd = Some (default 0 (osd_state (place m) !! Z.to_nat osd)).
Proof.
  intros Hwf Ha Hm. unfold new_max. destruct (0 <=? new_max_osd inc) eqn:E; zb.
  - eexists _, _. split; [done|]. split; [by apply (set_max_ok _ _ _ Hwf)|]. split; [split; apply Hwf|].
    intros osd Ho. cbn. unfold resize.
    destruct (decide (Z.to_nat osd < length (osd_state (place m)))%nat) as [Hl|Hl].
    + destruct (lookup_lt_is_Some_2 _ _ Hl) as [v Ev].
      rewrite lookup_app_l, lookup_take_lt, Ev by (rewrite ?length_take; lia). done.
    + rewrite lookup_app_r by (rewrite length_take; lia).
      rewrite (lookup_ge_None_2 (osd_state (place m))) by lia. cbn. apply lookup_replicate. rewrite length_take. lia.
  - eexists _, _. split; [done|]. split; [done|]. split; [split; apply Hwf|].
    intros osd Ho. destruct (lookup_lt_is_Some_2 (osd_state (place m)) (Z.to_nat osd)) as [v ->]; [destruct Ha; lia|done].
Qed.

Lemma lor_keeps v a b : Z.land a b <> 0 → negb (Z.land (Z.lor v a) b =? 0) = true.
Proof.
  intros Hne. apply negb_true_iff, Z.eqb_neq. rewrite Z.land_lor_distr_l. intros E. apply Hne.
  by apply Z.lor_eq_0_iff in E as [_ ?].
Qed.

Lemma marked_up m inc (q : osd_map C) : in_range (new_max m inc) (new_up_client inc) ∧ map_keys (new_up_client inc) →
  max_osd q = new_max m inc →
  (∀ osd, 0 <= osd < new_max m inc → osd_state q !! Z.to_nat osd =
     Some (next_state inc osd (default 0 (osd_state (place m) !! Z.to_nat osd)))) →
  ∀ e, e ∈ new_up_client inc → live q e.1 = true.
Proof.
  intros [Hr _] Eq Hs [k a] He. pose proof (proj1 (Forall_forall _ _) Hr _ He) as Hk. cbn [fst] in *.
  destruct (assoc_find_in _ _ _ He) as [x Ex].
  assert (∀ bit, Z.land (Z.lor CEPH_OSD_EXISTS CEPH_OSD_UP) bit <> 0 → state_bit q k bit = true) as Hb.
  { intros bit Hbit. unfold state_bit. rewrite Eq, (proj2 (Z.leb_le _ _)), (proj2 (Z.ltb_lt _ _)) by lia.
    rewrite (Hs k Hk). unfold next_state. rewrite Ex. cbn [default andb]. by apply lor_keeps. }
  unfold live, present. by rewrite !Hb.
Qed.

(** [C11] Applying an incremental to a well-formed map: it succeeds, the new map is
    well formed again, its epoch is the next one, every OSD below the new maximum
    has the state the entries prescribe, in particular an OSD that no entry names
    keeps its state and the OSDs marked up are up, and the counts that the map caches
    are those of its vectors. *)
Theorem apply_incremental_correct m inc : full_ok m → 0 <= max_osd (place m) → inc_ok m inc →
  ∃ m' : OSDMap C, apply_incremental m inc = Ok (0, m') ∧ full_ok m' ∧
    max_osd (place m') = new_max m inc ∧
    epoch (header m') = u32 (epoch (header m) + 1) ∧
    (∀ osd, 0 <= osd < new_max m inc → osd_state (place m') !! Z.to_nat osd =
       Some (next_state inc osd (default 0 (osd_state (place m) !! Z.to_nat osd)))) ∧
    (∀ e, e ∈ new_up_client inc → live (place m') e.1 = true) ∧
    num_osd (header m') = how_many (present (place m')) (max_osd (place m')) ∧
    num_up_osd (header m') = how_many (live (place m')) (max_osd (place m')) ∧
    num_in_osd (header m') = how_many (weighted_in (place m')) (max_osd (place m')).
Proof.
  intros [Hwf Ha] Hmax Hi. pose proof Hi as []. unfold apply_incremental.
  replace (negb (inc_epoch inc =? 1) && negb (inc_fsid inc =? fsid (header m))) with false.
  2: { destruct i_fsid0 as [->| ->]; [done|]. rewrite Z.eqb_refl. by destruct (inc_epoch inc =? 1). }
  cbv beta iota zeta. rewrite (proj2 (Z.eqb_eq _ _) i_epoch0). cbn [assert bind]. rewrite i_full0.
  destruct (resized m inc Hwf Ha Hmax) as (p & t & -> & Hpt & Hup & Hst).
  destruct (apply_osds_ok (new_max m inc) m inc (apply_pools p inc) t (u32 (epoch (header m) + 1)))
    as (p' & t' & -> & [A' R'] & S'); [done| |done|]. { by destruct Hpt. }
  cbn [bind fst snd] in *. set (q := match inc_crush inc with Some c => _ | None => _ end).
  assert (wf_osdmap q) as Hq.
  { apply (updated_wf (new_max m inc) p' t' inc); [done..| |done|done].
    destruct R' as (_ & _ & _ & E1 & E2 & _). unfold upmaps_ok. by rewrite E1, E2. }
  assert (max_osd q = new_max m inc ∧ osd_state q = osd_state p' ∧ arrays_ok (new_max m inc) q t') as (Eq & Esq & Aq).
  { destruct A'. unfold q. by destruct (inc_crush inc). }
  assert (0 <= new_max m inc) as Hn by (destruct Aq; lia).
  rewrite calc_num_osds_ok by (done || lia). cbn [bind].
  destruct (up_features_ok q (osd_xinfo t') Hq (Z.to_nat (max_osd q)) 0 None) as [f Ef]; [lia|destruct Aq; lia|lia|].
  unfold _calc_up_osd_features. rewrite Ef. cbn [bind]. eexists. split; [done|]. cbn [place osds header].
  split; [split; [exact Hq|]|]. { cbn [place osds]. rewrite Eq. exact Aq. }
  split; [done|]. split; [done|].
  assert (∀ osd, 0 <= osd < new_max m inc → osd_state q !! Z.to_nat osd =
       Some (next_state inc osd (default 0 (osd_state (place m) !! Z.to_nat osd)))) as Hs.
  { intros osd Ho. rewrite Esq, (S' osd) by lia. cbn. by rewrite (Hst osd Ho). }
  split; [done|]. split; [|done]. apply (marked_up m inc q i_client0 Eq Hs).
Qed.
End Update.

(** ** Samples *)

Definition sample_header : map_header :=
  mk_header 7 41 0 0 2 1 2 {[ 5 := 100 ]} false [] 0 (S754_zero false) (S754_zero false) (S754_zero false) 0 12 1 0.
(** Two OSDs, of which 0 is up. *)
Definition sample_full : OSDMap unit :=
  mk_full (mk_osdmap 2 [3; 1] [0x10000; 0x10000] None ∅ ∅ ∅ ∅ ∅ tt)
    (mk_table [None; None] [None; None] [None; None] [None; None] [info0; info0] [xinfo0; xinfo0] [0; 0])
    (mk_pools 0 ∅ ∅ ∅ ∅) sample_header.
(** Room for a third OSD, 0 goes down, 1 comes up, 2 gets a weight; address 5 is
    blacklisted until time 200. *)
Definition sample_inc : Incremental unit :=
  mk_inc unit 7 42 9 (-1) (-1) (-1) None None 3 [] [] [] [] [] [(1, 77)] [(1, 78)] [(0, 0)] [(2, 0x8000)]
    [] [] [] [] [] [] [] [] [(5, 200)] [] [] [] [] [] [] [] [] (S754_nan) (S754_nan) (S754_nan) 0.

Lemma sample_full_ok : full_ok sample_full.
Proof.
  split; split; try done; try (intros pg l E; discriminate (eq_trans (eq_sym (lookup_empty pg)) E)).
Qed.
Lemma sample_inc_ok : inc_ok sample_full sample_inc.
Proof.
  split; try done; try (split; [|apply NoDup_singleton]); try (repeat constructor; cbn; lia); try constructor; try constructor.
Qed.

Lemma apply_incremental_correct_witness :
  ∃ m', apply_incremental sample_full sample_inc = Ok (0, m') ∧ live (place m') 1 = true ∧
    osd_state (place m') !! 0%nat = Some 1 ∧ num_up_osd (header m') = how_many (live (place m')) 3.
Proof.
  destruct (apply_incremental_correct sample_full sample_inc sample_full_ok) as
    (m' & E & _ & Em & _ & Hs & Hl & _ & Hu & _); [done|exact sample_inc_ok|].
  exists m'. split; [exact E|]. split; [apply (Hl (1, 77)); left|]. split; [by apply (Hs 0)|].
  by rewrite Em in Hu.
Defined.

(** Blacklisting an address again does not move the time at which the entry
    expires. *)
Example blacklist_not_extended :
  ∃ m', apply_incremental sample_full sample_inc = Ok (0, m') ∧ blacklist (header m') !! 5 = Some 100.
Proof. eexists. split; [reflexivity|reflexivity]. Qed.

(** Two pools that swap their names in one incremental: the second renaming drops
    the entry the first one made, and one name no longer resolves. *)
Example swapped_names_lost :
  foldl apply_name ({[ 1 := [97]; 2 := [98] ]}, {[ [97] := 1; [98] := 2 ]}) [(1, [98]); (2, [97])]
  = ({[ 1 := [98]; 2 := [97] ]}, {[ [97] := 2 ]}).
Proof. reflexivity. Qed.
End OSDMapUpdate.
