(* ===== verification/MonTypes.v ===== *)
(** * The state of a monitor (mon/Monitor.h, mon/Elector.h, mon/Paxos.h)

    A monitor keeps a key/value store that survives a restart and, in memory, the
    state of the elector and of Paxos.  Its handlers run under one lock; they are
    written here in a monad that threads the monitor and the messages it sends and
    that stops at a failed assertion, keeping what was stored and sent before it.

    Of the store the keys of Paxos and of the elector are fields (a missing counter
    reads as 0), everything the services keep under their own prefixes is a map from
    prefix and key to bytes.  A buffer that holds an encoded transaction is the
    transaction itself, [None] being the empty buffer.  Counters of type [version_t]
    are unbounded: a 64-bit counter of rounds does not wrap. *)
From stdpp Require Import gmap.
From S2P Require Import Prelude StdMap.

Module MonTypes.

(** ** The store *)

(** What a proposed transaction can do: Paxos trims its own versions, services write
    and erase keys under other prefixes. *)
Inductive vop : Type :=
| OpErase (v : Z)
| OpFirst (v : Z)
| OpService (prefix key : list Z) (bl : option (list Z)).
Definition value : Type := list vop.
Definition bufferlist : Type := option value.

(** The counters a monitor writes outside of proposed transactions. *)
Inductive counter : Type := LastPn | AcceptedPn | LastCommitted | PendingV | PendingPn | ElectionEpoch.
Inductive op : Type :=
| Put (k : counter) (n : Z)
| PutVersion (v : Z) (bl : bufferlist)
| Do (o : vop).
Definition transaction : Type := list op.

(** The persistent state. *)
Record db : Type := mk_db {
  election_epoch : Z;
  db_last_pn : Z;
  db_accepted_pn : Z;
  db_last_committed : Z;
  db_first_committed : Z;
  pending_v : Z;
  pending_pn : Z;
  versions : gmap Z bufferlist;
  services : gmap (list Z * list Z) (list Z)
}.
Definition set_election_epoch (x : Z) (r : db) : db := mk_db x (db_last_pn r) (db_accepted_pn r)
  (db_last_committed r) (db_first_committed r) (pending_v r) (pending_pn r) (versions r) (services r).
Definition set_db_last_pn (x : Z) (r : db) : db := mk_db (election_epoch r) x (db_accepted_pn r)
  (db_last_committed r) (db_first_committed r) (pending_v r) (pending_pn r) (versions r) (services r).
Definition set_db_accepted_pn (x : Z) (r : db) : db := mk_db (election_epoch r) (db_last_pn r) x
  (db_last_committed r) (db_first_committed r) (pending_v r) (pending_pn r) (versions r) (services r).
Definition set_db_last_committed (x : Z) (r : db) : db := mk_db (election_epoch r) (db_last_pn r)
  (db_accepted_pn r) x (db_first_committed r) (pending_v r) (pending_pn r) (versions r) (services r).
Definition set_db_first_committed (x : Z) (r : db) : db := mk_db (election_epoch r) (db_last_pn r)
  (db_accepted_pn r) (db_last_committed r) x (pending_v r) (pending_pn r) (versions r) (services r).
Definition set_pending_v (x : Z) (r : db) : db := mk_db (election_epoch r) (db_last_pn r) (db_accepted_pn r)
  (db_last_committed r) (db_first_committed r) x (pending_pn r) (versions r) (services r).
Definition set_pending_pn (x : Z) (r : db) : db := mk_db (election_epoch r) (db_last_pn r) (db_accepted_pn r)
  (db_last_committed r) (db_first_committed r) (pending_v r) x (versions r) (services r).
Definition set_versions (x : gmap Z bufferlist) (r : db) : db := mk_db (election_epoch r) (db_last_pn r)
  (db_accepted_pn r) (db_last_committed r) (db_first_committed r) (pending_v r) (pending_pn r) x (services r).
Definition set_services (x : gmap (list Z * list Z) (list Z)) (r : db) : db := mk_db (election_epoch r)
  (db_last_pn r) (db_accepted_pn r) (db_last_committed r) (db_first_committed r) (pending_v r) (pending_pn r)
  (versions r) x.

Definition apply_vop (d : db) (o : vop) : db :=
  match o with
  | OpErase v => set_versions (delete v (versions d)) d
  | OpFirst v => set_db_first_committed v d
  | OpService p k (Some bl) => set_services (<[(p, k) := bl]> (services d)) d
  | OpService p k None => set_services (delete (p, k) (services d)) d
  end.
Definition apply_op (d : db) (o : op) : db :=
  match o with
  | Put LastPn n => set_db_last_pn n d
  | Put AcceptedPn n => set_db_accepted_pn n d
  | Put LastCommitted n => set_db_last_committed n d
  | Put PendingV n => set_pending_v n d
  | Put PendingPn n => set_pending_pn n d
  | Put ElectionEpoch n => set_election_epoch n d
  | PutVersion v bl => set_versions (<[v := bl]> (versions d)) d
  | Do o => apply_vop d o
  end.
Definition apply_ops (d : db) (t : transaction) : db := foldl apply_op d t.

(** ** Messages *)

(** [con_features] are the features of the connection the message came over. *)
Inductive election_op : Type := OP_PROPOSE | OP_ACK | OP_NAK | OP_VICTORY.
Record MMonElection : Type := mk_election {
  e_op : election_op;
  e_epoch : Z;
  e_monmap_epoch : Z;
  e_quorum : gset Z;
  e_quorum_features : Z;
  e_mon_features : Z;
  con_features : Z
}.

Inductive paxos_op : Type := OP_COLLECT | OP_LAST | OP_BEGIN | OP_ACCEPT | OP_COMMIT | OP_LEASE | OP_LEASE_ACK.
Record MMonPaxos : Type := mk_pmsg {
  p_op : paxos_op;
  p_epoch : Z;
  p_first_committed : Z;
  p_last_committed : Z;
  p_pn_from : Z;
  p_pn : Z;
  p_uncommitted_pn : Z;
  p_lease_timestamp : Z;
  p_values : list (Z * bufferlist)
}.

Inductive message : Type :=
| MsgElection (m : MMonElection)
| MsgPaxos (m : MMonPaxos).

(** ** The state in memory *)

Record elector_info_t : Type := mk_info_t { cluster_features : Z; mon_features : Z }.

Record elector_t : Type := mk_elector {
  participating : bool;
  electing_me : bool;
  acked_me : list (Z * elector_info_t);
  leader_acked : Z;
  epoch : Z;
  expire_event : bool
}.
Definition set_participating (x : bool) (r : elector_t) : elector_t := mk_elector x (electing_me r) (acked_me
  r) (leader_acked r) (epoch r) (expire_event r).
Definition set_electing_me (x : bool) (r : elector_t) : elector_t := mk_elector (participating r) x (acked_me
  r) (leader_acked r) (epoch r) (expire_event r).
Definition set_acked_me (x : list (Z * elector_info_t)) (r : elector_t) : elector_t := mk_elector
  (participating r) (electing_me r) x (leader_acked r) (epoch r) (expire_event r).
Definition set_leader_acked (x : Z) (r : elector_t) : elector_t := mk_elector (participating r) (electing_me
  r) (acked_me r) x (epoch r) (expire_event r).
Definition set_epoch (x : Z) (r : elector_t) : elector_t := mk_elector (participating r) (electing_me r)
  (acked_me r) (leader_acked r) x (expire_event r).
Definition set_expire_event (x : bool) (r : elector_t) : elector_t := mk_elector (participating r)
  (electing_me r) (acked_me r) (leader_acked r) (epoch r) x.

Inductive paxos_state : Type :=
| STATE_RECOVERING
| STATE_ACTIVE
| STATE_UPDATING
| STATE_UPDATING_PREVIOUS
| STATE_WRITING
| STATE_WRITING_PREVIOUS
| STATE_REFRESH.
#[export] Instance paxos_state_eq_dec : EqDecision paxos_state.
Proof. solve_decision. Defined.

(** Completions that wait for a proposal: [C_Trimmed] or one of a service. *)
Inductive finisher : Type := C_Trimmed | C_Service.

(** The state of [Paxos]; a timer event is whether it is set. *)
Record paxos_t : Type := mk_paxos {
  state : paxos_state;
  first_committed : Z;
  last_committed : Z;
  last_pn : Z;
  accepted_pn : Z;
  accepted_pn_from : Z;
  peer_first_committed : list (Z * Z);
  peer_last_committed : list (Z * Z);
  num_last : Z;
  uncommitted_v : Z;
  uncommitted_pn : Z;
  uncommitted_value : bufferlist;
  new_value : bufferlist;
  accepted : gset Z;
  lease_expire : Z;
  acked_lease : gset Z;
  collect_timeout_event : bool;
  accept_timeout_event : bool;
  lease_renew_event : bool;
  lease_ack_timeout_event : bool;
  lease_timeout_event : bool;
  pending_proposal : option value;
  pending_finishers : list finisher;
  committing_finishers : list finisher;
  trimming : bool;
  plugged : bool
}.
Definition set_state (x : paxos_state) (r : paxos_t) : paxos_t := mk_paxos x (first_committed r)
  (last_committed r) (last_pn r) (accepted_pn r) (accepted_pn_from r) (peer_first_committed r)
  (peer_last_committed r) (num_last r) (uncommitted_v r) (uncommitted_pn r) (uncommitted_value r) (new_value
  r) (accepted r) (lease_expire r) (acked_lease r) (collect_timeout_event r) (accept_timeout_event r)
  (lease_renew_event r) (lease_ack_timeout_event r) (lease_timeout_event r) (pending_proposal r)
  (pending_finishers r) (committing_finishers r) (trimming r) (plugged r).
Definition set_first_committed (x : Z) (r : paxos_t) : paxos_t := mk_paxos (state r) x (last_committed r)
  (last_pn r) (accepted_pn r) (accepted_pn_from r) (peer_first_committed r) (peer_last_committed r) (num_last
  r) (uncommitted_v r) (uncommitted_pn r) (uncommitted_value r) (new_value r) (accepted r) (lease_expire r)
  (acked_lease r) (collect_timeout_event r) (accept_timeout_event r) (lease_renew_event r)
  (lease_ack_timeout_event r) (lease_timeout_event r) (pending_proposal r) (pending_finishers r)
  (committing_finishers r) (trimming r) (plugged r).
Definition set_last_committed (x : Z) (r : paxos_t) : paxos_t := mk_paxos (state r) (first_committed r) x
  (last_pn r) (accepted_pn r) (accepted_pn_from r) (peer_first_committed r) (peer_last_committed r) (num_last
  r) (uncommitted_v r) (uncommitted_pn r) (uncommitted_value r) (new_value r) (accepted r) (lease_expire r)
  (acked_lease r) (collect_timeout_event r) (accept_timeout_event r) (lease_renew_event r)
  (lease_ack_timeout_event r) (lease_timeout_event r) (pending_proposal r) (pending_finishers r)
  (committing_finishers r) (trimming r) (plugged r).
Definition set_last_pn (x : Z) (r : paxos_t) : paxos_t := mk_paxos (state r) (first_committed r)
  (last_committed r) x (accepted_pn r) (accepted_pn_from r) (peer_first_committed r) (peer_last_committed r)
  (num_last r) (uncommitted_v r) (uncommitted_pn r) (uncommitted_value r) (new_value r) (accepted r)
  (lease_expire r) (acked_lease r) (collect_timeout_event r) (accept_timeout_event r) (lease_renew_event r)
  (lease_ack_timeout_event r) (lease_timeout_event r) (pending_proposal r) (pending_finishers r)
  (committing_finishers r) (trimming r) (plugged r).
Definition set_accepted_pn (x : Z) (r : paxos_t) : paxos_t := mk_paxos (state r) (first_committed r)
  (last_committed r) (last_pn r) x (accepted_pn_from r) (peer_first_committed r) (peer_last_committed r)
  (num_last r) (uncommitted_v r) (uncommitted_pn r) (uncommitted_value r) (new_value r) (accepted r)
  (lease_expire r) (acked_lease r) (collect_timeout_event r) (accept_timeout_event r) (lease_renew_event r)
  (lease_ack_timeout_event r) (lease_timeout_event r) (pending_proposal r) (pending_finishers r)
  (committing_finishers r) (trimming r) (plugged r).
Definition set_accepted_pn_from (x : Z) (r : paxos_t) : paxos_t := mk_paxos (state r) (first_committed r)
  (last_committed r) (last_pn r) (accepted_pn r) x (peer_first_committed r) (peer_last_committed r) (num_last
  r) (uncommitted_v r) (uncommitted_pn r) (uncommitted_value r) (new_value r) (accepted r) (lease_expire r)
  (acked_lease r) (collect_timeout_event r) (accept_timeout_event r) (lease_renew_event r)
  (lease_ack_timeout_event r) (lease_timeout_event r) (pending_proposal r) (pending_finishers r)
  (committing_finishers r) (trimming r) (plugged r).
Definition set_peer_first_committed (x : list (Z * Z)) (r : paxos_t) : paxos_t := mk_paxos (state r)
  (first_committed r) (last_committed r) (last_pn r) (accepted_pn r) (accepted_pn_from r) x
  (peer_last_committed r) (num_last r) (uncommitted_v r) (uncommitted_pn r) (uncommitted_value r) (new_value
  r) (accepted r) (lease_expire r) (acked_lease r) (collect_timeout_event r) (accept_timeout_event r)
  (lease_renew_event r) (lease_ack_timeout_event r) (lease_timeout_event r) (pending_proposal r)
  (pending_finishers r) (committing_finishers r) (trimming r) (plugged r).
Definition set_peer_last_committed (x : list (Z * Z)) (r : paxos_t) : paxos_t := mk_paxos (state r)
  (first_committed r) (last_committed r) (last_pn r) (accepted_pn r) (accepted_pn_from r)
  (peer_first_committed r) x (num_last r) (uncommitted_v r) (uncommitted_pn r) (uncommitted_value r)
  (new_value r) (accepted r) (lease_expire r) (acked_lease r) (collect_timeout_event r) (accept_timeout_event
  r) (lease_renew_event r) (lease_ack_timeout_event r) (lease_timeout_event r) (pending_proposal r)
  (pending_finishers r) (committing_finishers r) (trimming r) (plugged r).
Definition set_num_last (x : Z) (r : paxos_t) : paxos_t := mk_paxos (state r) (first_committed r)
  (last_committed r) (last_pn r) (accepted_pn r) (accepted_pn_from r) (peer_first_committed r)
  (peer_last_committed r) x (uncommitted_v r) (uncommitted_pn r) (uncommitted_value r) (new_value r) (accepted
  r) (lease_expire r) (acked_lease r) (collect_timeout_event r) (accept_timeout_event r) (lease_renew_event r)
  (lease_ack_timeout_event r) (lease_timeout_event r) (pending_proposal r) (pending_finishers r)
  (committing_finishers r) (trimming r) (plugged r).
Definition set_uncommitted_v (x : Z) (r : paxos_t) : paxos_t := mk_paxos (state r) (first_committed r)
  (last_committed r) (last_pn r) (accepted_pn r) (accepted_pn_from r) (peer_first_committed r)
  (peer_last_committed r) (num_last r) x (uncommitted_pn r) (uncommitted_value r) (new_value r) (accepted r)
  (lease_expire r) (acked_lease r) (collect_timeout_event r) (accept_timeout_event r) (lease_renew_event r)
  (lease_ack_timeout_event r) (lease_timeout_event r) (pending_proposal r) (pending_finishers r)
  (committing_finishers r) (trimming r) (plugged r).
Definition set_uncommitted_pn (x : Z) (r : paxos_t) : paxos_t := mk_paxos (state r) (first_committed r)
  (last_committed r) (last_pn r) (accepted_pn r) (accepted_pn_from r) (peer_first_committed r)
  (peer_last_committed r) (num_last r) (uncommitted_v r) x (uncommitted_value r) (new_value r) (accepted r)
  (lease_expire r) (acked_lease r) (collect_timeout_event r) (accept_timeout_event r) (lease_renew_event r)
  (lease_ack_timeout_event r) (lease_timeout_event r) (pending_proposal r) (pending_finishers r)
  (committing_finishers r) (trimming r) (plugged r).
Definition set_uncommitted_value (x : bufferlist) (r : paxos_t) : paxos_t := mk_paxos (state r)
  (first_committed r) (last_committed r) (last_pn r) (accepted_pn r) (accepted_pn_from r)
  (peer_first_committed r) (peer_last_committed r) (num_last r) (uncommitted_v r) (uncommitted_pn r) x
  (new_value r) (accepted r) (lease_expire r) (acked_lease r) (collect_timeout_event r) (accept_timeout_event
  r) (lease_renew_event r) (lease_ack_timeout_event r) (lease_timeout_event r) (pending_proposal r)
  (pending_finishers r) (committing_finishers r) (trimming r) (plugged r).
Definition set_new_value (x : bufferlist) (r : paxos_t) : paxos_t := mk_paxos (state r) (first_committed r)
  (last_committed r) (last_pn r) (accepted_pn r) (accepted_pn_from r) (peer_first_committed r)
  (peer_last_committed r) (num_last r) (uncommitted_v r) (uncommitted_pn r) (uncommitted_value r) x (accepted
  r) (lease_expire r) (acked_lease r) (collect_timeout_event r) (accept_timeout_event r) (lease_renew_event r)
  (lease_ack_timeout_event r) (lease_timeout_event r) (pending_proposal r) (pending_finishers r)
  (committing_finishers r) (trimming r) (plugged r).
Definition set_accepted (x : gset Z) (r : paxos_t) : paxos_t := mk_paxos (state r) (first_committed r)
  (last_committed r) (last_pn r) (accepted_pn r) (accepted_pn_from r) (peer_first_committed r)
  (peer_last_committed r) (num_last r) (uncommitted_v r) (uncommitted_pn r) (uncommitted_value r) (new_value
  r) x (lease_expire r) (acked_lease r) (collect_timeout_event r) (accept_timeout_event r) (lease_renew_event
  r) (lease_ack_timeout_event r) (lease_timeout_event r) (pending_proposal r) (pending_finishers r)
  (committing_finishers r) (trimming r) (plugged r).
Definition set_lease_expire (x : Z) (r : paxos_t) : paxos_t := mk_paxos (state r) (first_committed r)
  (last_committed r) (last_pn r) (accepted_pn r) (accepted_pn_from r) (peer_first_committed r)
  (peer_last_committed r) (num_last r) (uncommitted_v r) (uncommitted_pn r) (uncommitted_value r) (new_value
  r) (accepted r) x (acked_lease r) (collect_timeout_event r) (accept_timeout_event r) (lease_renew_event r)
  (lease_ack_timeout_event r) (lease_timeout_event r) (pending_proposal r) (pending_finishers r)
  (committing_finishers r) (trimming r) (plugged r).
Definition set_acked_lease (x : gset Z) (r : paxos_t) : paxos_t := mk_paxos (state r) (first_committed r)
  (last_committed r) (last_pn r) (accepted_pn r) (accepted_pn_from r) (peer_first_committed r)
  (peer_last_committed r) (num_last r) (uncommitted_v r) (uncommitted_pn r) (uncommitted_value r) (new_value
  r) (accepted r) (lease_expire r) x (collect_timeout_event r) (accept_timeout_event r) (lease_renew_event r)
  (lease_ack_timeout_event r) (lease_timeout_event r) (pending_proposal r) (pending_finishers r)
  (committing_finishers r) (trimming r) (plugged r).
Definition set_collect_timeout_event (x : bool) (r : paxos_t) : paxos_t := mk_paxos (state r) (first_committed
  r) (last_committed r) (last_pn r) (accepted_pn r) (accepted_pn_from r) (peer_first_committed r)
  (peer_last_committed r) (num_last r) (uncommitted_v r) (uncommitted_pn r) (uncommitted_value r) (new_value
  r) (accepted r) (lease_expire r) (acked_lease r) x (accept_timeout_event r) (lease_renew_event r)
  (lease_ack_timeout_event r) (lease_timeout_event r) (pending_proposal r) (pending_finishers r)
  (committing_finishers r) (trimming r) (plugged r).
Definition set_accept_timeout_event (x : bool) (r : paxos_t) : paxos_t := mk_paxos (state r) (first_committed
  r) (last_committed r) (last_pn r) (accepted_pn r) (accepted_pn_from r) (peer_first_committed r)
  (peer_last_committed r) (num_last r) (uncommitted_v r) (uncommitted_pn r) (uncommitted_value r) (new_value
  r) (accepted r) (lease_expire r) (acked_lease r) (collect_timeout_event r) x (lease_renew_event r)
  (lease_ack_timeout_event r) (lease_timeout_event r) (pending_proposal r) (pending_finishers r)
  (committing_finishers r) (trimming r) (plugged r).
Definition set_lease_renew_event (x : bool) (r : paxos_t) : paxos_t := mk_paxos (state r) (first_committed r)
  (last_committed r) (last_pn r) (accepted_pn r) (accepted_pn_from r) (peer_first_committed r)
  (peer_last_committed r) (num_last r) (uncommitted_v r) (uncommitted_pn r) (uncommitted_value r) (new_value
  r) (accepted r) (lease_expire r) (acked_lease r) (collect_timeout_event r) (accept_timeout_event r) x
  (lease_ack_timeout_event r) (lease_timeout_event r) (pending_proposal r) (pending_finishers r)
  (committing_finishers r) (trimming r) (plugged r).
Definition set_lease_ack_timeout_event (x : bool) (r : paxos_t) : paxos_t := mk_paxos (state r)
  (first_committed r) (last_committed r) (last_pn r) (accepted_pn r) (accepted_pn_from r)
  (peer_first_committed r) (peer_last_committed r) (num_last r) (uncommitted_v r) (uncommitted_pn r)
  (uncommitted_value r) (new_value r) (accepted r) (lease_expire r) (acked_lease r) (collect_timeout_event r)
  (accept_timeout_event r) (lease_renew_event r) x (lease_timeout_event r) (pending_proposal r)
  (pending_finishers r) (committing_finishers r) (trimming r) (plugged r).
Definition set_lease_timeout_event (x : bool) (r : paxos_t) : paxos_t := mk_paxos (state r) (first_committed
  r) (last_committed r) (last_pn r) (accepted_pn r) (accepted_pn_from r) (peer_first_committed r)
  (peer_last_committed r) (num_last r) (uncommitted_v r) (uncommitted_pn r) (uncommitted_value r) (new_value
  r) (accepted r) (lease_expire r) (acked_lease r) (collect_timeout_event r) (accept_timeout_event r)
  (lease_renew_event r) (lease_ack_timeout_event r) x (pending_proposal r) (pending_finishers r)
  (committing_finishers r) (trimming r) (plugged r).
Definition set_pending_proposal (x : option value) (r : paxos_t) : paxos_t := mk_paxos (state r)
  (first_committed r) (last_committed r) (last_pn r) (accepted_pn r) (accepted_pn_from r)
  (peer_first_committed r) (peer_last_committed r) (num_last r) (uncommitted_v r) (uncommitted_pn r)
  (uncommitted_value r) (new_value r) (accepted r) (lease_expire r) (acked_lease r) (collect_timeout_event r)
  (accept_timeout_event r) (lease_renew_event r) (lease_ack_timeout_event r) (lease_timeout_event r) x
  (pending_finishers r) (committing_finishers r) (trimming r) (plugged r).
Definition set_pending_finishers (x : list finisher) (r : paxos_t) : paxos_t := mk_paxos (state r)
  (first_committed r) (last_committed r) (last_pn r) (accepted_pn r) (accepted_pn_from r)
  (peer_first_committed r) (peer_last_committed r) (num_last r) (uncommitted_v r) (uncommitted_pn r)
  (uncommitted_value r) (new_value r) (accepted r) (lease_expire r) (acked_lease r) (collect_timeout_event r)
  (accept_timeout_event r) (lease_renew_event r) (lease_ack_timeout_event r) (lease_timeout_event r)
  (pending_proposal r) x (committing_finishers r) (trimming r) (plugged r).
Definition set_committing_finishers (x : list finisher) (r : paxos_t) : paxos_t := mk_paxos (state r)
  (first_committed r) (last_committed r) (last_pn r) (accepted_pn r) (accepted_pn_from r)
  (peer_first_committed r) (peer_last_committed r) (num_last r) (uncommitted_v r) (uncommitted_pn r)
  (uncommitted_value r) (new_value r) (accepted r) (lease_expire r) (acked_lease r) (collect_timeout_event r)
  (accept_timeout_event r) (lease_renew_event r) (lease_ack_timeout_event r) (lease_timeout_event r)
  (pending_proposal r) (pending_finishers r) x (trimming r) (plugged r).
Definition set_trimming (x : bool) (r : paxos_t) : paxos_t := mk_paxos (state r) (first_committed r)
  (last_committed r) (last_pn r) (accepted_pn r) (accepted_pn_from r) (peer_first_committed r)
  (peer_last_committed r) (num_last r) (uncommitted_v r) (uncommitted_pn r) (uncommitted_value r) (new_value
  r) (accepted r) (lease_expire r) (acked_lease r) (collect_timeout_event r) (accept_timeout_event r)
  (lease_renew_event r) (lease_ack_timeout_event r) (lease_timeout_event r) (pending_proposal r)
  (pending_finishers r) (committing_finishers r) x (plugged r).
Definition set_plugged (x : bool) (r : paxos_t) : paxos_t := mk_paxos (state r) (first_committed r)
  (last_committed r) (last_pn r) (accepted_pn r) (accepted_pn_from r) (peer_first_committed r)
  (peer_last_committed r) (num_last r) (uncommitted_v r) (uncommitted_pn r) (uncommitted_value r) (new_value
  r) (accepted r) (lease_expire r) (acked_lease r) (collect_timeout_event r) (accept_timeout_event r)
  (lease_renew_event r) (lease_ack_timeout_event r) (lease_timeout_event r) (pending_proposal r)
  (pending_finishers r) (committing_finishers r) (trimming r) x.

Definition is_active (p : paxos_t) : bool := bool_decide (state p = STATE_ACTIVE).
Definition is_updating (p : paxos_t) : bool := bool_decide (state p = STATE_UPDATING).
Definition is_updating_previous (p : paxos_t) : bool := bool_decide (state p = STATE_UPDATING_PREVIOUS).
Definition is_writing (p : paxos_t) : bool := bool_decide (state p = STATE_WRITING).
Definition is_writing_previous (p : paxos_t) : bool := bool_decide (state p = STATE_WRITING_PREVIOUS).
Definition is_refresh (p : paxos_t) : bool := bool_decide (state p = STATE_REFRESH).

(** What the monitor is doing; a monitor that synchronizes its store or shuts down
    is not part of the model. *)
Inductive mon_state : Type := STATE_PROBING | STATE_ELECTING | STATE_LEADER | STATE_PEON.
#[export] Instance mon_state_eq_dec : EqDecision mon_state.
Proof. solve_decision. Defined.

(** The transaction handed to the writer thread of the store, and whether it has been
    applied with its completion still to run. *)
Inductive io_state : Type :=
| Idle
| Queued (t : transaction)
| Applied.

(** What this build supports and what the cluster requires of its peers. *)
Record features_t : Type := mk_features {
  supported_features : Z;
  supported_mon_features : Z;
  required_features : Z;
  required_mon_features : Z
}.

(** A monitor; [up] is false once an assertion has failed. *)
Record node : Type := mk_node {
  rank : Z;
  up : bool;
  store : db;
  io : io_state;
  elector : elector_t;
  paxos : paxos_t;
  mstate : mon_state;
  leader : Z;
  quorum : gset Z;
  monmap_epoch : Z;
  clock : Z;
  caps : features_t
}.
Definition set_rank (x : Z) (r : node) : node := mk_node x (up r) (store r) (io r) (elector r) (paxos r)
  (mstate r) (leader r) (quorum r) (monmap_epoch r) (clock r) (caps r).
Definition set_up (x : bool) (r : node) : node := mk_node (rank r) x (store r) (io r) (elector r) (paxos r)
  (mstate r) (leader r) (quorum r) (monmap_epoch r) (clock r) (caps r).
Definition set_store (x : db) (r : node) : node := mk_node (rank r) (up r) x (io r) (elector r) (paxos r)
  (mstate r) (leader r) (quorum r) (monmap_epoch r) (clock r) (caps r).
Definition set_io (x : io_state) (r : node) : node := mk_node (rank r) (up r) (store r) x (elector r) (paxos
  r) (mstate r) (leader r) (quorum r) (monmap_epoch r) (clock r) (caps r).
Definition set_elector (x : elector_t) (r : node) : node := mk_node (rank r) (up r) (store r) (io r) x (paxos
  r) (mstate r) (leader r) (quorum r) (monmap_epoch r) (clock r) (caps r).
Definition set_paxos (x : paxos_t) (r : node) : node := mk_node (rank r) (up r) (store r) (io r) (elector r) x
  (mstate r) (leader r) (quorum r) (monmap_epoch r) (clock r) (caps r).
Definition set_mstate (x : mon_state) (r : node) : node := mk_node (rank r) (up r) (store r) (io r) (elector
  r) (paxos r) x (leader r) (quorum r) (monmap_epoch r) (clock r) (caps r).
Definition set_leader (x : Z) (r : node) : node := mk_node (rank r) (up r) (store r) (io r) (elector r) (paxos
  r) (mstate r) x (quorum r) (monmap_epoch r) (clock r) (caps r).
Definition set_quorum (x : gset Z) (r : node) : node := mk_node (rank r) (up r) (store r) (io r) (elector r)
  (paxos r) (mstate r) (leader r) x (monmap_epoch r) (clock r) (caps r).
Definition set_monmap_epoch (x : Z) (r : node) : node := mk_node (rank r) (up r) (store r) (io r) (elector r)
  (paxos r) (mstate r) (leader r) (quorum r) x (clock r) (caps r).
Definition set_clock (x : Z) (r : node) : node := mk_node (rank r) (up r) (store r) (io r) (elector r) (paxos
  r) (mstate r) (leader r) (quorum r) (monmap_epoch r) x (caps r).
Definition set_caps (x : features_t) (r : node) : node := mk_node (rank r) (up r) (store r) (io r) (elector r)
  (paxos r) (mstate r) (leader r) (quorum r) (monmap_epoch r) (clock r) x.

Definition is_leader (n : node) : bool := bool_decide (mstate n = STATE_LEADER).
Definition is_peon (n : node) : bool := bool_decide (mstate n = STATE_PEON).
Definition is_electing (n : node) : bool := bool_decide (mstate n = STATE_ELECTING).
Definition is_probing (n : node) : bool := bool_decide (mstate n = STATE_PROBING).

(** Configuration, and the answers of the services: whether the state they load from
    the store makes them ask for a bootstrap, and whether this monitor has ever been
    in a quorum. *)
Record config : Type := mk_config {
  mon_count : Z;
  mon_lease : Z;
  paxos_min : Z;
  paxos_trim_min : Z;
  paxos_trim_max : Z;
  last_metadata : list Z;
  needs_bootstrap : db → bool;
  has_ever_joined : db → bool
}.

(** ** The monad of the handlers *)

Record run : Type := mk_run { nd : node; out : list (Z * message) }.
Inductive outcome (A : Type) : Type :=
| Done (a : A) (r : run)
| Abort (r : run).
Arguments Done {A} a r.
Arguments Abort {A} r.

Definition M (A : Type) : Type := run → outcome A.
Definition ret {A} (a : A) : M A := Done a.
Definition mbind {A B} (m : M A) (f : A → M B) : M B := λ r,
  match m r with Done a r => f a r | Abort r => Abort r end.
Definition abort {A} : M A := Abort.
Definition massert (b : bool) : M unit := if b then ret tt else abort.
Definition get {A} (f : node → A) : M A := λ r, Done (f (nd r)) r.
Definition modify (f : node → node) : M unit := λ r, Done tt (mk_run (f (nd r)) (out r)).
Definition mod_paxos (f : paxos_t → paxos_t) : M unit := modify (λ n, set_paxos (f (paxos n)) n).
Definition mod_elector (f : elector_t → elector_t) : M unit := modify (λ n, set_elector (f (elector n)) n).
(** [store->apply_transaction(t)]. *)
Definition apply_transaction (t : transaction) : M unit :=
  modify (λ n, set_store (apply_ops (store n) t) n).
Definition send (dst : Z) (m : message) : M unit := λ r, Done tt (mk_run (nd r) (out r ++ [(dst, m)])).
(** The loops that send [m] to every member of [l] but this monitor. *)
Definition bcast (l : list Z) (m : message) : M unit := λ r,
  Done tt (mk_run (nd r) (out r ++ ((λ p, (p, m)) <$> filter (λ p, p <> rank (nd r)) l))).

Declare Scope mon_scope.
Delimit Scope mon_scope with mon.
Notation "x <- m ;; k" := (mbind m (λ x, k))
  (at level 20, m at level 99, k at level 200) : mon_scope.
Notation "m ;;; k" := (mbind m (λ _, k))
  (at level 100, right associativity) : mon_scope.
Definition when (b : bool) (m : M unit) : M unit := if b then m else ret tt.
End MonTypes.
