(* ===== verification/Paxos.v ===== *)
(** * Paxos of the monitors (mon/Paxos.cc)

    A leader with a fixed quorum collects what its peons have accepted, proposes one
    value at a time, commits it when the whole quorum has accepted it, and shares
    committed values with peons that are behind.  [bootstrap] is what Paxos calls of
    the monitor; the completions of services that wait on Paxos are not run here, a
    service acting later is an event of its own. *)
From stdpp Require Import gmap.
From S2P Require Import Prelude StdMap MonTypes.

Module Paxos.
Import MonTypes.
Open Scope mon_scope.

(** A buffer that is decoded must not be empty. *)
Definition decode_append_transaction (t : transaction) (bl : bufferlist) : M transaction :=
  match bl with
  | Some x => ret (t ++ map Do x)
  | None => abort
  end.

Definition is_consistent (p : paxos_t) : bool := first_committed p <=? last_committed p.

(** What a process reads back when it starts. *)
Definition init : M unit :=
  d <- get store;;
  mod_paxos (λ p, set_last_pn (db_last_pn d) (set_accepted_pn (db_accepted_pn d)
    (set_last_committed (db_last_committed d) (set_first_committed (db_first_committed d) p))));;;
  p <- get paxos;;
  massert (is_consistent p).

(** [bl.length() > 0]. *)
Definition nonempty (bl : bufferlist) : bool := match bl with Some _ => true | None => false end.

(** Every message carries the election epoch of its sender. *)
Definition mk_msg (n : node) (o : paxos_op) (fc lc pn_from pn upn lease : Z) (vals : list (Z * bufferlist)) : message :=
  MsgPaxos (mk_pmsg o (epoch (elector n)) fc lc pn_from pn upn lease vals).

Definition finish_contexts (l : list finisher) (p : paxos_t) : paxos_t :=
  if existsb (λ f, match f with C_Trimmed => true | C_Service => false end) l then set_trimming false p else p.
Definition finish_pending (p : paxos_t) : paxos_t :=
  set_pending_finishers [] (finish_contexts (pending_finishers p) p).
Definition finish_committing (p : paxos_t) : paxos_t :=
  set_committing_finishers [] (finish_contexts (committing_finishers p) p).

Definition cancel_events (p : paxos_t) : paxos_t :=
  set_collect_timeout_event false (set_accept_timeout_event false (set_lease_renew_event false
    (set_lease_ack_timeout_event false (set_lease_timeout_event false p)))).

(** A number above [gt] and above all numbers this monitor has used, whose last two
    digits are its rank. *)
Definition get_new_proposal_number (gt : Z) : M Z :=
  n <- get id;;
  let pn := if last_pn (paxos n) <? gt then gt else last_pn (paxos n) in
  let pn := (pn / 100 + 1) * 100 + rank n in
  mod_paxos (set_last_pn pn);;;
  apply_transaction [Put LastPn pn];;;
  ret pn.

(** ** Phase 1 *)

(** The proposal number of the value stored at [last_committed+1]: the recorded one,
    or [prev] when the record does not belong to that version. *)
Definition stored_pn (d : db) (lc prev : Z) : Z :=
  if negb (pending_v d =? 0) && negb (pending_pn d =? 0) && (pending_v d =? lc + 1)
  then pending_pn d else prev.

Definition collect (oldpn : Z) : M unit :=
  mod_paxos (set_state STATE_RECOVERING);;;
  l <- get is_leader;;
  massert l;;;
  mod_paxos (λ p, set_uncommitted_v 0 (set_uncommitted_pn 0 (set_uncommitted_value None
    (set_peer_first_committed [] (set_peer_last_committed [] p)))));;;
  n <- get id;;
  let lc := last_committed (paxos n) in
  (match versions (store n) !! (lc + 1) with
   | Some bl =>
       massert (nonempty bl);;;
       mod_paxos (λ p, set_uncommitted_v (lc + 1)
         (set_uncommitted_pn (stored_pn (store n) lc (accepted_pn (paxos n))) (set_uncommitted_value bl p)))
   | None => ret tt
   end);;;
  pn <- get_new_proposal_number (Z.max (accepted_pn (paxos n)) oldpn);;
  mod_paxos (λ p, set_accepted_pn pn (set_accepted_pn_from (last_committed p) (set_num_last 1 p)));;;
  n <- get id;;
  bcast (elements (quorum n))
    (mk_msg n OP_COLLECT (first_committed (paxos n)) (last_committed (paxos n)) 0 (accepted_pn (paxos n)) 0 0 []);;;
  mod_paxos (set_collect_timeout_event true).

(** The versions [v], [v+1], ... of the store, [k] of them, that are present. *)
Fixpoint stored_values (d : db) (k : nat) (v : Z) : list (Z * bufferlist) :=
  match k with
  | O => []
  | S k =>
      match versions d !! v with
      | Some bl => (v, bl) :: stored_values d k (v + 1)
      | None => stored_values d k (v + 1)
      end
  end.

(** [share_state]: the values of a message for a peer that has committed up to
    [peer_last_committed]. *)
Definition share_state (peer_last_committed : Z) : M (list (Z * bufferlist)) :=
  n <- get id;;
  let lc := last_committed (paxos n) in
  massert (peer_last_committed <? lc);;;
  let vals := stored_values (store n) (Z.to_nat (lc - peer_last_committed)) (peer_last_committed + 1) in
  massert (forallb (λ e, nonempty e.2) vals);;;
  ret vals.

(** The entries of a message between [last_committed] of this monitor and that of the
    message, in version order. *)
Fixpoint skip_upto (lc : Z) (l : list (Z * bufferlist)) : list (Z * bufferlist) :=
  match l with
  | e :: l' => if e.1 <=? lc then skip_upto lc l' else l
  | [] => []
  end.
Fixpoint take_upto (lc : Z) (l : list (Z * bufferlist)) : list (Z * bufferlist) :=
  match l with
  | e :: l' => if e.1 <=? lc then e :: take_upto lc l' else []
  | [] => []
  end.

(** The transaction that writes and applies each of them. *)
Fixpoint store_values (t : transaction) (l : list (Z * bufferlist)) : M transaction :=
  match l with
  | [] => ret t
  | (v, bl) :: l =>
      t <- decode_append_transaction (t ++ [PutVersion v bl]) bl;;
      store_values t l
  end.

Definition _sanity_check_store : M unit :=
  n <- get id;;
  massert (db_last_committed (store n) =? last_committed (paxos n)).

Definition store_state (m : MMonPaxos) : M bool :=
  lc <- get (λ n, last_committed (paxos n));;
  if match p_values m with e :: _ => lc + 1 <? e.1 | [] => false end then ret false
  else
    let todo := take_upto (p_last_committed m) (skip_upto lc (p_values m)) in
    match last todo with
    | None => ret false
    | Some e =>
        let lc := e.1 in
        mod_paxos (set_last_committed lc);;;
        t <- store_values [Put LastCommitted lc] todo;;
        p <- get paxos;;
        when (negb (uncommitted_v p =? 0) && (uncommitted_v p <=? lc))
          (mod_paxos (λ p, set_uncommitted_v 0 (set_uncommitted_pn 0 (set_uncommitted_value None p))));;;
        apply_transaction t;;;
        d <- get store;;
        mod_paxos (set_first_committed (db_first_committed d));;;
        _sanity_check_store;;;
        ret true
    end.

(** ** Phase 2 *)

(** Whether the lease runs; a quorum of one needs none. *)
Definition is_lease_valid (n : node) : bool :=
  (size (quorum n) =? 1)%nat || (clock n <? lease_expire (paxos n)).
Definition is_readable (n : node) (v : Z) : bool :=
  if last_committed (paxos n) <? v then false
  else
    (is_peon n || is_leader n) &&
    (is_active (paxos n) || is_updating (paxos n) || is_writing (paxos n)) &&
    (0 <? last_committed (paxos n)) && is_lease_valid n.
Definition is_writeable (n : node) : bool :=
  is_leader n && is_active (paxos n) && is_lease_valid n.

Section Config.
Context (cf : config).

Definition extend_lease : M unit :=
  l <- get is_leader;;
  massert l;;;
  n <- get id;;
  mod_paxos (λ p, set_lease_expire (clock n + mon_lease cf) (set_acked_lease {[rank n]} p));;;
  bcast (elements (quorum n))
    (mk_msg n OP_LEASE (first_committed (paxos n)) (last_committed (paxos n)) 0 0 0 (clock n + mon_lease cf) []);;;
  mod_paxos (λ p, set_lease_ack_timeout_event true (set_lease_renew_event true p)).

(** Hands the transaction that commits the new value to the writer thread. *)
Definition commit_start : M unit :=
  n <- get id;;
  t <- decode_append_transaction [Put LastCommitted (last_committed (paxos n) + 1)] (new_value (paxos n));;
  modify (set_io (Queued t));;;
  (if is_updating_previous (paxos n) then mod_paxos (set_state STATE_WRITING_PREVIOUS)
   else if is_updating (paxos n) then mod_paxos (set_state STATE_WRITING)
   else abort);;;
  when (1 <? Z.of_nat (size (quorum n))) (mod_paxos (set_accept_timeout_event false)).

Definition begin (v : bufferlist) : M unit :=
  n <- get id;;
  massert (is_leader n);;;
  massert (is_updating (paxos n) || is_updating_previous (paxos n));;;
  massert ((size (quorum n) =? 1)%nat || (mon_count cf / 2 <? num_last (paxos n)));;;
  massert (negb (nonempty (new_value (paxos n))));;;
  x <- (if last_committed (paxos n) =? 0 then
          match v with
          | Some y => ret (Some (OpFirst 1 :: y))
          | None => abort
          end
        else ret v);;
  mod_paxos (λ p, set_new_value x (set_accepted {[rank n]} p));;;
  let lc := last_committed (paxos n) in
  apply_transaction [PutVersion (lc + 1) x; Put PendingV (lc + 1); Put PendingPn (accepted_pn (paxos n))];;;
  massert (nonempty x);;;
  if (size (quorum n) =? 1)%nat then commit_start
  else
    bcast (elements (quorum n))
      (mk_msg n OP_BEGIN 0 lc 0 (accepted_pn (paxos n)) 0 0 [(lc + 1, x)]);;;
    mod_paxos (set_accept_timeout_event true).

(** ** Proposals of this monitor *)

Definition get_pending_transaction : M value :=
  n <- get id;;
  massert (is_leader n);;;
  match pending_proposal (paxos n) with
  | Some t => ret t
  | None =>
      mod_paxos (set_pending_proposal (Some []));;;
      massert (match pending_finishers (paxos n) with [] => true | _ => false end);;;
      ret []
  end.

Definition propose_pending : M unit :=
  p <- get paxos;;
  massert (is_active p);;;
  match pending_proposal p with
  | None => abort
  | Some x =>
      mod_paxos (λ p, set_state STATE_UPDATING (set_committing_finishers (pending_finishers p)
        (set_pending_finishers (committing_finishers p) (set_pending_proposal None (cancel_events p)))));;;
      begin (Some x)
  end.

Definition queue_pending_finisher (f : finisher) : M unit :=
  mod_paxos (λ p, set_pending_finishers (pending_finishers p ++ [f]) p).

Definition trigger_propose : M bool :=
  p <- get paxos;;
  if plugged p then ret false
  else if is_active p then propose_pending;;; ret true
  else ret false.

Definition should_trim (p : paxos_t) : bool :=
  negb (trimming p || (last_committed p - first_committed p <=? paxos_min cf + paxos_trim_min cf)).

Definition trim : M unit :=
  p <- get paxos;;
  massert (should_trim p);;;
  let last := Z.min (last_committed p - paxos_min cf) (first_committed p + paxos_trim_max cf) in
  if last <=? first_committed p then ret tt
  else
    t <- get_pending_transaction;;
    let t := t ++ map OpErase (seqZ (first_committed p) (last - first_committed p)) ++ [OpFirst last] in
    mod_paxos (λ p, set_trimming true (set_pending_proposal (Some t) p));;;
    queue_pending_finisher C_Trimmed.

Definition finish_round : M unit :=
  l <- get is_leader;;
  massert l;;;
  mod_paxos (set_state STATE_ACTIVE);;;
  p <- get paxos;;
  when (should_trim p) trim;;;
  p <- get paxos;;
  when (is_active p && match pending_proposal p with Some _ => true | None => false end) propose_pending.

(** ** Handlers *)

Context (bootstrap : M unit).

(** Whether the services are content with the new state; if not, the monitor starts
    over. *)
Definition do_refresh : M bool :=
  d <- get store;;
  if needs_bootstrap cf d then bootstrap;;; ret false else ret true.

Definition commit_proposal : M unit :=
  n <- get id;;
  massert (is_leader n);;;
  massert (is_refresh (paxos n));;;
  mod_paxos finish_committing.

Definition commit_finish : M unit :=
  mod_paxos (λ p, set_lease_expire 0 (set_last_committed (last_committed p + 1) p));;;
  d <- get store;;
  mod_paxos (set_first_committed (db_first_committed d));;;
  _sanity_check_store;;;
  n <- get id;;
  let lc := last_committed (paxos n) in
  bcast (elements (quorum n))
    (mk_msg n OP_COMMIT 0 lc 0 (accepted_pn (paxos n)) 0 0 [(lc, new_value (paxos n))]);;;
  mod_paxos (set_new_value None);;;
  massert (is_writing (paxos n) || is_writing_previous (paxos n));;;
  mod_paxos (set_state STATE_REFRESH);;;
  ok <- do_refresh;;
  when ok
    (commit_proposal;;;
     when (1 <? Z.of_nat (size (quorum n))) extend_lease;;;
     finish_round).

(** A peon answers with what it has committed beyond the leader and with the value
    it has accepted but not committed. *)
Definition handle_collect (from : Z) (m : MMonPaxos) : M unit :=
  n <- get id;;
  massert (is_peon n);;;
  mod_paxos (λ p, set_lease_timeout_event true (set_state STATE_RECOVERING p));;;
  let p := paxos n in
  if last_committed p + 1 <? p_first_committed m then bootstrap
  else
    let previous_pn := accepted_pn p in
    when (accepted_pn p <? p_pn m)
      (mod_paxos (λ p, set_accepted_pn (p_pn m) (set_accepted_pn_from (p_pn_from m) p));;;
       apply_transaction [Put AcceptedPn (p_pn m)]);;;
    vals <- (if p_last_committed m <? last_committed p then share_state (p_last_committed m) else ret []);;
    n <- get id;;
    let p := paxos n in
    let lc := last_committed p in
    match (if p_last_committed m <=? lc then versions (store n) !! (lc + 1) else None) with
    | Some bl =>
        massert (nonempty bl);;;
        send from (mk_msg n OP_LAST (first_committed p) lc (accepted_pn_from p) (accepted_pn p)
          (stored_pn (store n) lc previous_pn) 0 (vals ++ [(lc + 1, bl)]))
    | None =>
        send from (mk_msg n OP_LAST (first_committed p) lc (accepted_pn_from p) (accepted_pn p) 0 0 vals)
    end.

(** The loop of [handle_last] over the peers that have answered: those behind get the
    committed values; one too far behind makes the monitor start over.  The result is
    whether it did. *)
Fixpoint share_with_peers (l : list (Z * Z)) : M bool :=
  match l with
  | [] => ret false
  | (peer, plc) :: l =>
      p <- get paxos;;
      if (plc + 1 <? first_committed p) && (1 <? first_committed p) then bootstrap;;; ret true
      else
        when (plc <? last_committed p)
          (vals <- share_state plc;;
           n <- get id;;
           send peer (mk_msg n OP_COMMIT 0 (last_committed (paxos n)) 0 0 0 0 vals));;;
        share_with_peers l
  end.

(** Whether the answer carries an uncommitted value that replaces the best so far. *)
Definition better_value (p : paxos_t) (m : MMonPaxos) : bool :=
  negb (p_uncommitted_pn m =? 0) && (uncommitted_pn p <=? p_uncommitted_pn m) &&
  (last_committed p <=? p_last_committed m) && (uncommitted_v p <=? p_last_committed m + 1).

(** Everyone has answered: propose the value that was learned, or become active.
    The result is the new [need_refresh]. *)
Definition collect_done (need_refresh : bool) : M bool :=
  mod_paxos (λ p, set_collect_timeout_event false (set_peer_first_committed [] (set_peer_last_committed [] p)));;;
  p <- get paxos;;
  if (uncommitted_v p =? last_committed p + 1) && nonempty (uncommitted_value p) then
    mod_paxos (set_state STATE_UPDATING_PREVIOUS);;;
    begin (uncommitted_value p);;;
    ret need_refresh
  else
    extend_lease;;;
    ok <- do_refresh;;
    when ok finish_round;;;
    ret false.

Definition handle_last (from : Z) (m : MMonPaxos) : M unit :=
  n <- get id;;
  if negb (is_leader n) then ret tt
  else
    mod_paxos (λ p, set_peer_first_committed (map_set from (p_first_committed m) (peer_first_committed p))
      (set_peer_last_committed (map_set from (p_last_committed m) (peer_last_committed p)) p));;;
    if last_committed (paxos n) + 1 <? p_first_committed m then bootstrap
    else
      need_refresh <- store_state m;;
      peers <- get (λ n, peer_last_committed (paxos n));;
      gone <- share_with_peers peers;;
      if (gone : bool) then ret tt
      else
        p <- get paxos;;
        need_refresh <-
          (if accepted_pn p <? p_pn m then
             mod_paxos (set_collect_timeout_event false);;;
             collect (p_pn m);;;
             ret need_refresh
           else if p_pn m =? accepted_pn p then
             mod_paxos (set_num_last (num_last p + 1));;;
             when (better_value p m)
               (mod_paxos (λ p, set_uncommitted_v (p_last_committed m + 1)
                 (set_uncommitted_pn (p_uncommitted_pn m)
                   (set_uncommitted_value (default None (map_find (p_last_committed m + 1) (p_values m))) p))));;;
             q <- get quorum;;
             if num_last p + 1 =? Z.of_nat (size q) then collect_done need_refresh else ret need_refresh
           else ret need_refresh);;
        when need_refresh (_ <- do_refresh;; ret tt).

(** A peon accepts the value under the number it has promised. *)
Definition handle_begin (from : Z) (m : MMonPaxos) : M unit :=
  n <- get id;;
  let p := paxos n in
  if p_pn m <? accepted_pn p then ret tt
  else
    massert (p_pn m =? accepted_pn p);;;
    massert (p_last_committed m =? last_committed p);;;
    mod_paxos (λ p, set_lease_expire 0 (set_state STATE_UPDATING p));;;
    let v := last_committed p + 1 in
    apply_transaction [PutVersion v (default None (map_find v (p_values m))); Put PendingV v; Put PendingPn (accepted_pn p)];;;
    n <- get id;;
    send from (mk_msg n OP_ACCEPT 0 (last_committed (paxos n)) 0 (accepted_pn (paxos n)) 0 0 []).

Definition handle_accept (from : Z) (m : MMonPaxos) : M unit :=
  n <- get id;;
  let p := paxos n in
  if negb (p_pn m =? accepted_pn p) then ret tt
  else if (0 <? last_committed p) && (p_last_committed m <? last_committed p - 1) then ret tt
  else
    massert ((p_last_committed m =? last_committed p) || (p_last_committed m =? last_committed p - 1));;;
    massert (is_updating p || is_updating_previous p);;;
    massert (negb (bool_decide (from ∈ accepted p)));;;
    mod_paxos (set_accepted ({[from]} ∪ accepted p));;;
    when (bool_decide ({[from]} ∪ accepted p = quorum n)) commit_start.

Definition handle_commit (m : MMonPaxos) : M unit :=
  l <- get is_peon;;
  massert l;;;
  _ <- store_state m;;
  _ <- do_refresh;;
  ret tt.

Definition handle_lease (from : Z) (m : MMonPaxos) : M unit :=
  n <- get id;;
  if negb (is_peon n) || negb (last_committed (paxos n) =? p_last_committed m) then ret tt
  else
    when (lease_expire (paxos n) <? p_lease_timestamp m) (mod_paxos (set_lease_expire (p_lease_timestamp m)));;;
    mod_paxos (set_state STATE_ACTIVE);;;
    n <- get id;;
    send from (mk_msg n OP_LEASE_ACK (first_committed (paxos n)) (last_committed (paxos n)) 0 0 0 (clock n) []);;;
    mod_paxos (set_lease_timeout_event true).

Definition handle_lease_ack (from : Z) : M unit :=
  n <- get id;;
  let p := paxos n in
  if negb (lease_ack_timeout_event p) then ret tt
  else if bool_decide (from ∈ acked_lease p) then ret tt
  else
    mod_paxos (set_acked_lease ({[from]} ∪ acked_lease p));;;
    when (bool_decide ({[from]} ∪ acked_lease p = quorum n)) (mod_paxos (set_lease_ack_timeout_event false)).

Definition dispatch (from : Z) (m : MMonPaxos) : M unit :=
  n <- get id;;
  if negb (is_leader n) && negb (is_peon n) then ret tt
  else
    massert (is_leader n || (is_peon n && (from =? leader n)));;;
    match p_op m with
    | OP_COLLECT => handle_collect from m
    | OP_LAST => handle_last from m
    | OP_BEGIN => handle_begin from m
    | OP_ACCEPT => handle_accept from m
    | OP_COMMIT => handle_commit m
    | OP_LEASE => handle_lease from m
    | OP_LEASE_ACK => handle_lease_ack from
    end.

(** ** Timers *)

Definition collect_timeout : M unit :=
  mod_paxos (set_collect_timeout_event false);;;
  l <- get is_leader;;
  massert l;;;
  bootstrap.
Definition accept_timeout : M unit :=
  mod_paxos (set_accept_timeout_event false);;;
  n <- get id;;
  massert (is_leader n);;;
  massert (is_updating (paxos n) || is_updating_previous (paxos n) || is_writing (paxos n) || is_writing_previous (paxos n));;;
  bootstrap.
Definition lease_ack_timeout : M unit :=
  n <- get id;;
  massert (is_leader n);;;
  massert (is_active (paxos n));;;
  mod_paxos (set_lease_ack_timeout_event false);;;
  bootstrap.
Definition lease_timeout : M unit :=
  l <- get is_peon;;
  massert l;;;
  mod_paxos (set_lease_timeout_event false);;;
  bootstrap.
Definition lease_renew_timeout : M unit :=
  mod_paxos (set_lease_renew_event false);;;
  extend_lease.

(** ** Roles *)

Definition leader_init : M unit :=
  mod_paxos (λ p, finish_committing (finish_pending (set_pending_proposal None (set_new_value None (cancel_events p)))));;;
  q <- get quorum;;
  if (size q =? 1)%nat then mod_paxos (set_state STATE_ACTIVE)
  else
    mod_paxos (λ p, set_lease_expire 0 (set_state STATE_RECOVERING p));;;
    collect 0.

Definition peon_init : M unit :=
  mod_paxos (λ p, finish_committing (finish_pending (set_pending_proposal None
    (set_lease_timeout_event true (set_lease_expire 0 (set_state STATE_RECOVERING (set_new_value None (cancel_events p)))))))).

(** Leaving a quorum.  The callers have waited for a write that was under way, so the
    flush of the source finds nothing to do (Monitor.v). *)
Definition restart : M unit :=
  mod_paxos (λ p, finish_pending (finish_committing (set_pending_proposal None
    (set_state STATE_RECOVERING (set_new_value None (cancel_events p)))))).
End Config.
End Paxos.
