(* ===== verification/Elector.v ===== *)
(** * The elector of the monitors (mon/Elector.cc)

    An election epoch is odd while an election runs and even when a quorum holds.  A
    candidate proposes itself; the others defer to it or, when they have a lower rank,
    propose themselves; a candidate that a majority has acknowledged when its timer
    expires, or that all have acknowledged, declares victory.  [MonitorOps] is what
    the elector calls of its monitor. *)
From stdpp Require Import gmap.
From S2P Require Import Prelude StdMap MonTypes.

Module Elector.
Import MonTypes.
Open Scope mon_scope.

(** ** What the elector asks of the monitor *)
Class MonitorOps := {
  join_election : M unit;
  start_election : M unit;
  bootstrap : M unit;
  win_election : Z → gset Z → M unit;
  lose_election : Z → gset Z → Z → M unit
}.

Definition mk_msg (n : node) (o : election_op) (e : Z) (q : gset Z) (qf mf : Z) : message :=
  MsgElection (mk_election o e (monmap_epoch n) q qf mf (supported_features (caps n))).

(** The epoch of the last election this monitor has seen, from the store. *)
Definition init : M unit :=
  d <- get store;;
  mod_elector (set_epoch (if election_epoch d =? 0 then 1 else election_epoch d)).

Definition reset_timer : M unit := mod_elector (set_expire_event true).
Definition cancel_timer : M unit := mod_elector (set_expire_event false).

Section Start.
Context (join_election : M unit).

Definition bump_epoch (e : Z) : M unit :=
  ep <- get (λ n, epoch (elector n));;
  massert (ep <=? e);;;
  mod_elector (set_epoch e);;;
  apply_transaction [Put ElectionEpoch e];;;
  join_election;;;
  mod_elector (λ l, set_electing_me false (set_acked_me [] l)).

(** Propose this monitor.  [cf] gives the number of monitors. *)
Definition start (cf : config) : M unit :=
  l <- get elector;;
  if negb (participating l) then ret tt
  else
    mod_elector (set_acked_me []);;;
    init;;;
    ep <- get (λ n, epoch (elector n));;
    when (ep mod 2 =? 0) (bump_epoch (ep + 1));;;
    n <- get id;;
    mod_elector (λ l, set_electing_me true (set_leader_acked (-1)
      (set_acked_me (map_set (rank n) (mk_info_t (supported_features (caps n)) (supported_mon_features (caps n))) (acked_me l)) l)));;;
    n <- get id;;
    bcast (seqZ 0 (mon_count cf)) (mk_msg n OP_PROPOSE (epoch (elector n)) ∅ 0 (supported_mon_features (caps n)));;;
    reset_timer.
End Start.

(** [a.contains_all(b)] of feature sets. *)
Definition contains_all (a b : Z) : bool := Z.land a b =? b.
(** [(required ^ have) & required]: some required feature is missing. *)
Definition missing (required have : Z) : bool := negb (Z.land (Z.lxor required have) required =? 0).

Section Handlers.
Context (cf : config) `{MonitorOps}.

Definition defer (who : Z) : M unit :=
  l <- get elector;;
  when (electing_me l) (mod_elector (λ l, set_electing_me false (set_acked_me [] l)));;;
  mod_elector (set_leader_acked who);;;
  n <- get id;;
  send who (mk_msg n OP_ACK (epoch (elector n)) ∅ 0 (supported_mon_features (caps n)));;;
  reset_timer.

(** The quorum is everyone that has acknowledged, the features those all have. *)
Definition victory : M unit :=
  mod_elector (λ l, set_leader_acked (-1) (set_electing_me false l));;;
  n <- get id;;
  let acks := acked_me (elector n) in
  let q : gset Z := list_to_set (map fst acks) in
  let cfeat := foldl (λ f e, Z.land f (cluster_features e.2)) (supported_features (caps n)) acks in
  let mfeat := foldl (λ f e, Z.land f (mon_features e.2)) (supported_mon_features (caps n)) acks in
  cancel_timer;;;
  massert (epoch (elector n) mod 2 =? 1);;;
  bump_epoch join_election (epoch (elector n) + 1);;;
  n <- get id;;
  bcast (elements q) (mk_msg n OP_VICTORY (epoch (elector n)) q cfeat mfeat);;;
  win_election (epoch (elector n)) q.

Definition expire : M unit :=
  n <- get id;;
  if electing_me (elector n) && (mon_count cf / 2 <? Z.of_nat (length (acked_me (elector n)))) then victory
  else if has_ever_joined cf (store n) then start join_election cf
  else bootstrap.

Definition nak_old_peer (from : Z) (m : MMonElection) : M unit :=
  n <- get id;;
  send from (mk_msg n OP_NAK (e_epoch m) ∅ (required_features (caps n)) (required_mon_features (caps n))).

(** The end of [handle_propose], once the epochs agree: defer to a lower rank. *)
Definition weigh (from : Z) : M unit :=
  n <- get id;;
  let acked := leader_acked (elector n) in
  if rank n <? from then
    if 0 <=? acked then massert (acked <? from)
    else when (negb (electing_me (elector n))) start_election
  else
    when ((acked <? 0) || (from <? acked) || (acked =? from)) (defer from).

Definition handle_propose (from : Z) (m : MMonElection) : M unit :=
  n <- get id;;
  let ep := epoch (elector n) in
  massert (e_epoch m mod 2 =? 1);;;
  if missing (required_features (caps n)) (con_features m) then nak_old_peer from m
  else if negb (contains_all (e_mon_features m) (required_mon_features (caps n))) then
    nak_old_peer from m;;;
    weigh from
  else if ep <? e_epoch m then
    bump_epoch join_election (e_epoch m);;;
    weigh from
  else if e_epoch m <? ep then
    if (ep mod 2 =? 0) && negb (bool_decide (from ∈ quorum n)) then
      start_election;;;
      weigh from
    else ret tt
  else weigh from.

Definition handle_ack (from : Z) (m : MMonElection) : M unit :=
  n <- get id;;
  massert (e_epoch m mod 2 =? 1);;;
  if epoch (elector n) <? e_epoch m then
    bump_epoch join_election (e_epoch m);;;
    start join_election cf
  else
    massert (e_epoch m =? epoch (elector n));;;
    if missing (required_features (caps n)) (con_features m) then ret tt
    else if negb (contains_all (e_mon_features m) (required_mon_features (caps n))) then ret tt
    else if electing_me (elector n) then
      mod_elector (λ l, set_acked_me (map_set from (mk_info_t (con_features m) (e_mon_features m)) (acked_me l)) l);;;
      l <- get elector;;
      when (Z.of_nat (length (acked_me l)) =? mon_count cf) victory
    else massert (0 <=? leader_acked (elector n)).

Definition handle_victory (from : Z) (m : MMonElection) : M unit :=
  n <- get id;;
  massert (from <? rank n);;;
  massert (e_epoch m mod 2 =? 0);;;
  mod_elector (set_leader_acked (-1));;;
  if negb (e_epoch m =? epoch (elector n) + 1) then
    bump_epoch join_election (e_epoch m);;;
    start join_election cf
  else
    bump_epoch join_election (e_epoch m);;;
    n <- get id;;
    lose_election (epoch (elector n)) (e_quorum m) from;;;
    cancel_timer.

(** The process exits: its peers need features it does not have. *)
Definition handle_nak : M unit := abort.

(** [dispatch]; a message of a newer monitor map makes the monitor take the map and
    start over. *)
Definition dispatch (from : Z) (m : MMonElection) : M unit :=
  n <- get id;;
  if negb (participating (elector n)) then ret tt
  else if mon_count cf <=? from then ret tt
  else if monmap_epoch n <? e_monmap_epoch m then
    modify (set_monmap_epoch (e_monmap_epoch m));;;
    cancel_timer;;;
    bootstrap
  else
    match e_op m with
    | OP_PROPOSE => handle_propose from m
    | o =>
        if e_epoch m <? epoch (elector n) then ret tt
        else match o with
             | OP_ACK => handle_ack from m
             | OP_VICTORY => handle_victory from m
             | _ => handle_nak
             end
    end.

Definition stop_participating : M unit := mod_elector (set_participating false).
Definition start_participating : M unit := mod_elector (set_participating true).
End Handlers.
End Elector.
