(* ===== verification/Monitor.v ===== *)
(** * Monitors and their network (mon/Monitor.cc)

    The part of [Monitor] that connects the elector and Paxos: entering and leaving
    elections and quorums, and the dispatch of messages.  A system is a fixed set of
    monitors, at least two, with one channel per ordered pair, which delivers in order
    and can lose messages.  [exec] is what one event does; the events that are not
    the delivery of a message are timers, the writer thread of the store, requests of
    services, decisions of the probing phase and restarts of the process. *)
From stdpp Require Import gmap.
From S2P Require Import Prelude StdMap MonTypes Paxos Elector.

Module Monitor.
Import MonTypes.
Open Scope mon_scope.

Section Monitor.
Context (cf : config).

(** ** Leaving a quorum *)

Definition _reset : M unit :=
  modify (set_quorum ∅);;;
  Paxos.restart.

(** [bootstrap] once no write is under way. *)
Definition bootstrap_now : M unit :=
  modify (set_mstate STATE_PROBING);;;
  _reset.

(** The writer thread applies the transaction it holds. *)
Definition store_apply : M unit :=
  s <- get io;;
  match s with
  | Queued t => apply_transaction t;;; modify (set_io Applied)
  | _ => ret tt
  end.
(** Its completion.  [commit_finish] has left the writing states when it calls
    [bootstrap], which then has no write to wait for. *)
Definition store_complete : M unit :=
  s <- get io;;
  match s with
  | Applied => modify (set_io Idle);;; Paxos.commit_finish cf bootstrap_now
  | _ => ret tt
  end.

(** The code gives up its lock while it waits for the store; here the write is applied and
    completed in one step. *)
Definition wait_for_paxos_write : M unit :=
  p <- get paxos;;
  when (is_writing p || is_writing_previous p) (store_apply;;; store_complete).

Definition bootstrap : M unit :=
  wait_for_paxos_write;;;
  bootstrap_now.

(** ** Elections *)

Definition join_election : M unit :=
  wait_for_paxos_write;;;
  _reset;;;
  modify (set_mstate STATE_ELECTING).

Definition start_election : M unit :=
  wait_for_paxos_write;;;
  _reset;;;
  modify (set_mstate STATE_ELECTING);;;
  Elector.start join_election cf.

(** The bytes of the prefix and key under which the metadata of the monitors is. *)
Definition MONITOR_STORE_PREFIX : list Z := [109; 111; 110; 105; 116; 111; 114; 95; 115; 116; 111; 114; 101].
Definition LAST_METADATA : list Z := [108; 97; 115; 116; 95; 109; 101; 116; 97; 100; 97; 116; 97].

Definition win_election (e : Z) (active : gset Z) : M unit :=
  n <- get id;;
  massert (is_electing n);;;
  modify (λ n, set_quorum active (set_leader (rank n) (set_mstate STATE_LEADER n)));;;
  Paxos.leader_init;;;
  t <- Paxos.get_pending_transaction;;
  mod_paxos (set_pending_proposal (Some (t ++ [OpService MONITOR_STORE_PREFIX LAST_METADATA (Some (last_metadata cf))]))).

Definition lose_election (e : Z) (q : gset Z) (l : Z) : M unit :=
  modify (λ n, set_quorum q (set_leader l (set_mstate STATE_PEON n)));;;
  Paxos.peon_init.

#[local] Instance monitor_ops : Elector.MonitorOps := {|
  Elector.join_election := join_election;
  Elector.start_election := start_election;
  Elector.bootstrap := bootstrap;
  Elector.win_election := win_election;
  Elector.lose_election := lose_election
|}.

(** ** Messages *)

Definition dispatch_op (from : Z) (m : message) : M unit :=
  n <- get id;;
  match m with
  | MsgPaxos m =>
      if epoch (elector n) <? p_epoch m then bootstrap
      else if negb (p_epoch m =? epoch (elector n)) then ret tt
      else Paxos.dispatch cf bootstrap from m
  | MsgElection m =>
      if is_probing n then ret tt else Elector.dispatch cf from m
  end.

(** ** Starting *)

Definition paxos0 : paxos_t :=
  mk_paxos STATE_RECOVERING 0 0 0 0 0 [] [] 0 0 0 None None ∅ 0 ∅ false false false false false None [] [] false false.
Definition elector0 : elector_t := mk_elector true false [] (-1) 0 false.

(** A process that starts with what the previous one has stored. *)
Definition process_start : M unit :=
  modify (λ n, set_elector elector0 (set_paxos paxos0 (set_leader 0 (set_quorum ∅
    (set_mstate STATE_PROBING (set_io Idle (set_up true n)))))));;;
  Paxos.init;;;
  Elector.init;;;
  bootstrap.

(** ** The system *)

Record sys : Type := mk_sys {
  nodes : Z → node;
  net : Z → Z → list message
}.

Definition upd {A} (f : Z → A) (i : Z) (a : A) : Z → A := λ j, if j =? i then a else f j.
(** Messages reach the channel of their sender and receiver in the order sent. *)
Definition post (src : Z) (ms : list (Z * message)) (nw : Z → Z → list message) : Z → Z → list message :=
  foldl (λ nw e, upd nw src (upd (nw src) e.1 (nw src e.1 ++ [e.2]))) nw ms.

(** A handler at monitor [i]; a failed assertion takes the monitor down. *)
Definition run_at (i : Z) (m : M unit) (s : sys) : sys :=
  match m (mk_run (nodes s i) []) with
  | Done _ r => mk_sys (upd (nodes s) i (nd r)) (post i (out r) (net s))
  | Abort r => mk_sys (upd (nodes s) i (set_up false (nd r))) (post i (out r) (net s))
  end.

Inductive event : Type :=
| Deliver (src dst : Z)
| Lose (src dst : Z) (k : nat)
| Tick (i t : Z)
| ElectionExpires (i : Z)
| CollectTimeout (i : Z)
| AcceptTimeout (i : Z)
| LeaseRenew (i : Z)
| LeaseAckTimeout (i : Z)
| LeaseTimeout (i : Z)
| StoreApply (i : Z)
| StoreComplete (i : Z)
| Prepare (i : Z) (prefix key : list Z) (bl : option (list Z))
| TriggerPropose (i : Z)
| Bootstrap (i : Z)
| StartElection (i : Z)
| Participate (i : Z) (b : bool)
| Restart (i : Z).

(** A service adds a write to the pending transaction. *)
Definition prepare (prefix key : list Z) (bl : option (list Z)) : M unit :=
  t <- Paxos.get_pending_transaction;;
  mod_paxos (set_pending_proposal (Some (t ++ [OpService prefix key bl])));;;
  Paxos.queue_pending_finisher C_Service.

Definition mon_id (i : Z) : bool := (0 <=? i) && (i <? mon_count cf).
Definition alive (s : sys) (i : Z) : bool := mon_id i && up (nodes s i).

Definition at_node (s : sys) (i : Z) (guard : node → bool) (m : M unit) : option sys :=
  if alive s i && guard (nodes s i) then Some (run_at i m s) else None.

Definition exec (s : sys) (e : event) : option sys :=
  match e with
  | Deliver src dst =>
      match net s src dst with
      | m :: l =>
          if alive s dst then
            Some (run_at dst (dispatch_op src m) (mk_sys (nodes s) (upd (net s) src (upd (net s src) dst l))))
          else None
      | [] => None
      end
  | Lose src dst k =>
      Some (mk_sys (nodes s) (upd (net s) src (upd (net s src) dst (delete k (net s src dst)))))
  | Tick i t => at_node s i (λ _, true) (modify (set_clock t))
  | ElectionExpires i =>
      at_node s i (λ n, expire_event (elector n)) (Elector.cancel_timer;;; Elector.expire cf)
  | CollectTimeout i => at_node s i (λ n, collect_timeout_event (paxos n)) (Paxos.collect_timeout bootstrap)
  | AcceptTimeout i => at_node s i (λ n, accept_timeout_event (paxos n)) (Paxos.accept_timeout bootstrap)
  | LeaseRenew i => at_node s i (λ n, lease_renew_event (paxos n)) (Paxos.lease_renew_timeout cf)
  | LeaseAckTimeout i => at_node s i (λ n, lease_ack_timeout_event (paxos n)) (Paxos.lease_ack_timeout bootstrap)
  | LeaseTimeout i => at_node s i (λ n, lease_timeout_event (paxos n)) (Paxos.lease_timeout bootstrap)
  | StoreApply i => at_node s i (λ _, true) store_apply
  | StoreComplete i => at_node s i (λ _, true) store_complete
  | Prepare i p k bl => at_node s i is_leader (prepare p k bl)
  | TriggerPropose i =>
      at_node s i (λ n, is_leader n && match pending_proposal (paxos n) with Some _ => true | None => false end)
        (_ <- Paxos.trigger_propose cf;; ret tt)
  | Bootstrap i => at_node s i (λ _, true) bootstrap
  | StartElection i => at_node s i (λ _, true) start_election
  | Participate i b =>
      at_node s i (λ _, true) (if b then Elector.start_participating else Elector.stop_participating)
  | Restart i => if mon_id i then Some (run_at i process_start s) else None
  end.

(** Fresh stores and empty channels, every process about to start. *)
Definition db0 : db := mk_db 0 0 0 0 0 0 0 ∅ ∅.
Definition node0 (caps : Z → features_t) (i : Z) : node :=
  mk_node i false db0 Idle elector0 paxos0 STATE_PROBING 0 ∅ 0 0 (caps i).
Definition sys0 (caps : Z → features_t) : sys := mk_sys (node0 caps) (λ _ _, []).

(** The states reached by events that [allowed] permits. *)
Inductive reachable (caps : Z → features_t) (allowed : sys → event → Prop) : sys → Prop :=
| reach_init : reachable caps allowed (sys0 caps)
| reach_step s e s' : reachable caps allowed s → allowed s e → exec s e = Some s' → reachable caps allowed s'.

(** Run a list of events. *)
Fixpoint exec_all (s : sys) (l : list event) : option sys :=
  match l with
  | [] => Some s
  | e :: l => match exec s e with Some s => exec_all s l | None => None end
  end.
End Monitor.
End Monitor.
