(* ===== verification/Consensus.v ===== *)
(** * Consensus by voting

    The abstract content of a run of the monitors: which proposals were begun under
    which number, who voted for them, and the log of values that were chosen.  What
    makes the log grow consistently is stated on these sets alone; that the handlers
    of mon/Paxos.cc maintain it is shown in PaxosInv.v and PaxosSafe.v. *)
From stdpp Require Import gmap.
From S2P Require Import Prelude StdMap MonTypes.

Module Consensus.
Import MonTypes.

(** ** Majorities *)

Definition all_ids (N : Z) : gset Z := list_to_set (seqZ 0 N).
Definition majority (N : Z) (Q : gset Z) : Prop := Q ⊆ all_ids N ∧ N < 2 * Z.of_nat (size Q).

Lemma elem_all_ids N i : i ∈ all_ids N ↔ 0 <= i < N.
Proof. unfold all_ids. rewrite elem_of_list_to_set, elem_of_seqZ. lia. Qed.

Lemma size_all_ids N : 0 <= N → Z.of_nat (size (all_ids N)) = N.
Proof.
  intros HN. unfold all_ids. rewrite size_list_to_set by apply NoDup_seqZ. rewrite length_seqZ. lia.
Qed.

(** Any two majorities have a member in common. *)
Lemma majority_meet N Q R : 0 <= N → majority N Q → majority N R → ∃ i, i ∈ Q ∧ i ∈ R.
Proof.
  intros HN [HQ SQ] [HR SR]. destruct (decide (Q ∩ R = ∅)) as [E|E].
  - exfalso. assert (Q ## R) as Hd by set_solver. apply size_union in Hd.
    assert (size (Q ∪ R) ≤ size (all_ids N))%nat by (apply subseteq_size; set_solver).
    pose proof (size_all_ids N HN). lia.
  - apply set_choose_L in E as [i Hi]. exists i. set_solver.
Qed.

(** ** Values and what they do *)

(** The first value is wrapped, every time it is proposed, in a write of the first
    version; up to that the same value is one value. *)
Fixpoint strip (x : value) : value :=
  match x with
  | OpFirst 1 :: y => strip y
  | _ => x
  end.
Definition canon (v : Z) (x : value) : value := if v =? 1 then OpFirst 1 :: strip x else x.

(** The state of the services and the first version kept after a log. *)
Definition apply_value (d : db) (x : value) : db := foldl apply_vop d x.
Definition replay (l : list value) : db := foldl apply_value (mk_db 0 0 0 0 0 0 0 ∅ ∅) l.
Definition first_after (l : list value) : Z := db_first_committed (replay l).
Definition services_after (l : list value) : gmap (list Z * list Z) (list Z) := services (replay l).

Definition is_service (o : vop) : Prop := match o with OpService _ _ _ => True | _ => False end.
(** Writes of services, then possibly a trim of the versions below [e]. *)
Definition body_ok (fc lc : Z) (x : value) : Prop :=
  ∃ sv, Forall is_service sv ∧
    (x = sv ∨ ∃ e, fc < e <= lc ∧ x = sv ++ map OpErase (seqZ fc (e - fc)) ++ [OpFirst e]).
(** The values that can be proposed for version [v] after the log [l]. *)
Definition value_ok (l : list value) (v : Z) (x : value) : Prop :=
  if v =? 1 then ∃ k sv, Forall is_service sv ∧ x = replicate (S k) (OpFirst 1) ++ sv
  else body_ok (first_after (take (Z.to_nat (v - 1)) l)) (v - 1) x.

(** ** Ballots and votes *)

Record ghost : Type := mk_ghost {
  began : Z → Z → option value;
  voted : Z → Z → Z → Prop;
  bquorum : Z → gset Z;
  counted : Z → gset Z;
  lquorum : Z → Z → option (gset Z);
  log : list value
}.

(** The entry of the log for a version. *)
Definition entry (l : list value) (v : Z) : option value := if v <? 1 then None else l !! Z.to_nat (v - 1).

Section Consensus.
Context (N : Z) (HN : 0 <= N).
Implicit Types (G : ghost) (acc : Z → Z).

(** Under number [c] nothing but [x] was or will be chosen for version [v]: a majority
    has moved past [c] and voted there, if at all, for [x]. *)
Definition no_other G acc (c v : Z) (x : value) : Prop :=
  ∃ Q, majority N Q ∧ ∀ n, n ∈ Q → c < acc n ∧
    (voted G n c v → ∃ y, began G c v = Some y ∧ canon v y = canon v x).

Definition chosen G (b v : Z) (x : value) : Prop :=
  ∃ y, began G b v = Some y ∧ canon v y = x ∧ ∀ n, n ∈ bquorum G b → voted G n b v.

(** The invariant of the votes; [acc] gives the number each monitor has promised. *)
Record votes_ok G acc : Prop := {
  vo_voted n b v : voted G n b v → is_Some (began G b v) ∧ n ∈ bquorum G b;
  vo_quorum b v x : began G b v = Some x → majority N (bquorum G b) ∧ ∀ n, n ∈ bquorum G b → b <= acc n;
  vo_value b v x : began G b v = Some x → 0 < b ∧ 1 <= v <= Z.of_nat (length (log G)) + 1 ∧ value_ok (log G) v x;
  vo_safe b v x c : began G b v = Some x → c < b → no_other G acc c v x;
  vo_log v x : entry (log G) v = Some x → ∃ b, chosen G b v x
}.

(** A value begun under a number is the one chosen under a lower or the same
    number. *)
Lemma chosen_begun G acc b c v x y : votes_ok G acc → chosen G b v x → began G c v = Some y → b <= c →
  canon v y = x.
Proof.
  intros HG (z & Ez & Hz & Hv) Ey Hbc. destruct (Z.eq_dec b c) as [->|Hne]; [congruence|].
  destruct (vo_safe _ _ HG c v y b Ey) as (Q & HQ & Hn); [lia|].
  destruct (vo_quorum _ _ HG b v z Ez) as [HQb _].
  destruct (majority_meet N Q (bquorum G b) HN HQ HQb) as (n & Hn1 & Hn2).
  destruct (Hn n Hn1) as [_ Hs]. destruct (Hs (Hv n Hn2)) as (w & Ew & Hw). congruence.
Qed.

(** At most one value is chosen for a version. *)
Lemma chosen_unique G acc b c v x y : votes_ok G acc → chosen G b v x → chosen G c v y → x = y.
Proof.
  intros HG Hx Hy. destruct (Z.le_ge_cases b c) as [Hbc|Hbc].
  - destruct Hy as (w & Ew & <- & _). symmetry. by eapply chosen_begun.
  - destruct Hx as (w & Ew & <- & _). by eapply chosen_begun.
Qed.

(** What is chosen for a version of the log is the entry of the log. *)
Lemma chosen_entry G acc b v x z : votes_ok G acc → chosen G b v x → entry (log G) v = Some z → z = x.
Proof. intros HG Hx Hz. apply (vo_log _ _ HG) in Hz as [c Hc]. by eapply chosen_unique. Qed.
(** ** Steps *)

Definition add_vote (i b v : Z) G : ghost :=
  mk_ghost (began G) (λ n c w, voted G n c w ∨ n = i ∧ c = b ∧ w = v) (bquorum G) (counted G) (lquorum G) (log G).
Definition add_began (b v : Z) (x : value) G : ghost :=
  mk_ghost (λ c w, if (c =? b) && (w =? v) then Some x else began G c w)
    (voted G) (bquorum G) (counted G) (lquorum G) (log G).
Definition add_log (x : value) G : ghost :=
  mk_ghost (began G) (voted G) (bquorum G) (counted G) (lquorum G) (log G ++ [x]).
Definition set_ballot (b : Z) (Q S : gset Z) G : ghost :=
  mk_ghost (began G) (voted G) (λ c, if c =? b then Q else bquorum G c) (λ c, if c =? b then S else counted G c)
    (lquorum G) (log G).
Definition set_counted (b : Z) (S : gset Z) G : ghost :=
  mk_ghost (began G) (voted G) (bquorum G) (λ c, if c =? b then S else counted G c) (lquorum G) (log G).
Definition add_led (i e : Z) (Q : gset Z) G : ghost :=
  mk_ghost (began G) (voted G) (bquorum G) (counted G)
    (λ j f, if (j =? i) && (f =? e) then Some Q else lquorum G j f) (log G).

Lemma no_other_mono G G' acc acc' c v x : (∀ n, acc n <= acc' n) →
  (∀ b w y, began G b w = Some y → began G' b w = Some y) →
  (∀ n, c < acc n → voted G' n c v → voted G n c v) →
  no_other G acc c v x → no_other G' acc' c v x.
Proof.
  intros Ha Hb Hv (Q & HQ & H). exists Q. split; [done|]. intros n Hn. destruct (H n Hn) as [Hc Hy]. split; [specialize (Ha n); lia|].
  intros Hvn. destruct (Hy (Hv n Hc Hvn)) as (y & Ey & Ec). exists y. split; [by apply Hb|done].
Qed.

Lemma votes_acc G acc acc' : (∀ n, acc n <= acc' n) → votes_ok G acc → votes_ok G acc'.
Proof.
  intros Ha []. split; try done.
  - intros b v x Hx. destruct (vo_quorum0 b v x Hx) as [? H]. split; [done|]. intros n Hn. specialize (Ha n). specialize (H n Hn). lia.
  - intros b v x c Hx Hc. apply (no_other_mono G _ acc); [done|done|done|by eapply vo_safe0].
Qed.

(** A vote for a value that was begun, by a member of the quorum that has not moved
    past the number. *)
Lemma votes_vote G acc i b v : is_Some (began G b v) → i ∈ bquorum G b → acc i <= b →
  votes_ok G acc → votes_ok (add_vote i b v G) acc.
Proof.
  intros Hx Hi Ha []. split; try done.
  - intros n c w [?|(-> & -> & ->)]; [by apply vo_voted0|done].
  - intros c w y d Hy Hd. apply (no_other_mono G _ acc); [done|done| |by eapply vo_safe0].
    cbn. intros n Hn [?|(-> & -> & ->)]; [done|lia].
  - intros w y Hy. destruct (vo_log0 w y Hy) as (c & z & ? & ? & Hv). exists c, z. split; [done|]. split; [done|].
    intros n Hn. left. by apply Hv.
Qed.

(** Beginning a value that is safe. *)
Lemma votes_begin G acc b v x : began G b v = None → majority N (bquorum G b) → (∀ n, n ∈ bquorum G b → b <= acc n) →
  0 < b → 1 <= v <= Z.of_nat (length (log G)) + 1 → value_ok (log G) v x → (∀ c, c < b → no_other G acc c v x) →
  votes_ok G acc → votes_ok (add_began b v x G) acc.
Proof.
  intros Hn Hm Hq Hb Hv Hx Hs []. assert (∀ c w y, began G c w = Some y → began (add_began b v x G) c w = Some y) as Hmono.
  { intros c w y Hy. cbn. destruct ((c =? b) && (w =? v)) eqn:E; [|done]. apply andb_true_iff in E as [? ?]. zb. congruence. }
  assert (∀ c w y, began (add_began b v x G) c w = Some y → c = b ∧ w = v ∧ y = x ∨ began G c w = Some y) as Hinv.
  { intros c w y. cbn. destruct ((c =? b) && (w =? v)) eqn:E; [|by right]. apply andb_true_iff in E as [? ?]. zb. intros [= <-]. by left. }
  split.
  - intros n c w Hw. destruct (vo_voted0 n c w Hw) as [[y Hy] ?]. split; [|done]. exists y. by apply Hmono.
  - intros c w y [(-> & -> & ->)|Hy]%Hinv; [done|by eapply vo_quorum0].
  - intros c w y [(-> & -> & ->)|Hy]%Hinv; [done|by eapply vo_value0].
  - intros c w y d [(-> & -> & ->)|Hy]%Hinv Hd; (apply (no_other_mono G _ acc); [done|exact Hmono|done|]); [by apply Hs|by eapply vo_safe0].
  - intros w y Hy. destruct (vo_log0 w y Hy) as (c & z & ? & ? & ?). exists c, z. split; [by apply Hmono|done].
Qed.

(** When nobody in the quorum has voted for the version under a lower number, every
    value is safe. *)
Lemma safe_fresh G acc b v x Q : majority N Q → (∀ n, n ∈ Q → b <= acc n) →
  (∀ n c, n ∈ Q → c < b → ¬ voted G n c v) → ∀ c, c < b → no_other G acc c v x.
Proof.
  intros HQ Ha Hv c Hc. exists Q. split; [done|]. intros n Hn. split; [specialize (Ha n Hn); lia|]. intros H. by apply Hv in H.
Qed.

(** Otherwise the value of the highest vote is. *)
Lemma safe_adopt G acc b v x y p Q : votes_ok G acc → majority N Q → (∀ n, n ∈ Q → b <= acc n) →
  (∀ n c, n ∈ Q → c < b → voted G n c v → c <= p) → began G p v = Some y → canon v y = canon v x →
  ∀ c, c < b → no_other G acc c v x.
Proof.
  intros HG HQ Ha Hv Hy Hyx c Hc. destruct (Z.lt_ge_cases c p) as [Hlt|Hge].
  - destruct (vo_safe _ _ HG p v y c Hy Hlt) as (R & HR & H). exists R. split; [done|]. intros n Hn.
    destruct (H n Hn) as [? H2]. split; [done|]. intros Hvn. destruct (H2 Hvn) as (z & ? & ?). exists z. split; [done|congruence].
  - exists Q. split; [done|]. intros n Hn. split; [specialize (Ha n Hn); lia|]. intros Hvn.
    specialize (Hv n c Hn Hc Hvn). assert (c = p) as -> by lia. by exists y.
Qed.

(** A value that the whole quorum of its number has voted for is entered in the log. *)
Lemma votes_log G acc b v x : v = Z.of_nat (length (log G)) + 1 → chosen G b v x →
  votes_ok G acc → votes_ok (add_log x G) acc.
Proof.
  intros Hv Hx HG. destruct HG. split; try done.
  - intros c w y Hy. destruct (vo_value0 c w y Hy) as (? & ? & Hok). split; [done|]. cbn. rewrite length_app. cbn. split; [lia|].
    revert Hok. unfold value_ok. destruct (w =? 1); [done|]. by rewrite take_app_le by lia.
  - intros w y. unfold entry. cbn. destruct (w <? 1) eqn:Ew; [done|]. zb. intros E.
    apply lookup_app_Some in E as [E|[Hlen E]].
    + apply (vo_log0 w y). unfold entry. by rewrite (proj2 (Z.ltb_ge _ _)) by lia.
    + apply list_lookup_singleton_Some in E as [Hz <-]. assert (w = v) as -> by lia. by exists b.
Qed.

Lemma votes_set_ballot G acc b Q S : (∀ v, began G b v = None) → votes_ok G acc → votes_ok (set_ballot b Q S G) acc.
Proof.
  intros Hb []. assert (∀ c v, is_Some (began G c v) → c ≠ b) as Hne by (intros c v Hs ->; rewrite Hb in Hs; by apply is_Some_None in Hs).
  assert (∀ c v, is_Some (began G c v) → bquorum (set_ballot b Q S G) c = bquorum G c) as Hq.
  { intros c v Hs. cbn. rewrite (proj2 (Z.eqb_neq _ _)); [done|by eapply Hne]. }
  split; try done.
  - intros n c v Hv. destruct (vo_voted0 n c v Hv) as [Hs ?]. rewrite (Hq c v Hs). done.
  - intros c v x Hx. rewrite (Hq c v) by (by exists x). by eapply vo_quorum0.
  - intros v x Hx. destruct (vo_log0 v x Hx) as (c & y & Hy & ? & ?). exists c, y. rewrite (Hq c v) by (by exists y). done.
Qed.
End Consensus.
End Consensus.
