(* ===== verification/PaxosInv.v ===== *)
(** * The invariant of the monitors

    What holds between events of a system of monitors: the votes are consistent
    (Consensus.v), every store holds a prefix of the log of chosen values, a leader
    knows enough of its quorum for the phase it is in, and every message in flight
    is justified.  A step of one monitor leaves what the others know intact
    ([frame_inv]). *)
From stdpp Require Import gmap.
From S2P Require Import Prelude StdMap MonTypes Consensus Paxos Elector Monitor.

Module PaxosInv.
Import MonTypes Consensus Monitor.

(** ** Messages in a channel *)

Definition pn_of (o : paxos_op) (m : message) : option Z :=
  match m with
  | MsgPaxos p => match o, p_op p with
                  | OP_COLLECT, OP_COLLECT | OP_LAST, OP_LAST | OP_BEGIN, OP_BEGIN | OP_ACCEPT, OP_ACCEPT => Some (p_pn p)
                  | _, _ => None
                  end
  | _ => None
  end.
(** The numbers of the messages of one kind, in order. *)
Definition pns (o : paxos_op) (l : list message) : list Z := omap (pn_of o) l.
(** How many of them carry the number [b]. *)
Definition tokens (o : paxos_op) (b : Z) (l : list message) : nat := length (filter (.= b) (pns o l)).
(** What monitor [b] receives of the messages [ms]. *)
Definition msgs_to (b : Z) (ms : list (Z * message)) : list message := snd <$> filter (λ e, e.1 = b) ms.

Lemma pns_app o l k : pns o (l ++ k) = pns o l ++ pns o k.
Proof. apply omap_app. Qed.
Lemma tokens_app o b l k : tokens o b (l ++ k) = (tokens o b l + tokens o b k)%nat.
Proof. unfold tokens. by rewrite pns_app, filter_app, length_app. Qed.
Lemma tokens_nil o b l : pns o l = [] → tokens o b l = 0%nat.
Proof. unfold tokens. by intros ->. Qed.
Lemma tokens_zero o b l : b ∉ pns o l → tokens o b l = 0%nat.
Proof.
  unfold tokens. induction (pns o l) as [|a k IH]; intros Hn; [done|]. apply not_elem_of_cons in Hn as [Ha Hn].
  rewrite filter_cons_False by congruence. by apply IH.
Qed.

Lemma post_at src ms nw a b : post src ms nw a b = if a =? src then nw a b ++ msgs_to b ms else nw a b.
Proof.
  unfold post. revert nw. induction ms as [|[d m] ms IH]; intros nw; cbn [foldl].
  { unfold msgs_to. cbn. rewrite app_nil_r. by destruct (a =? src). }
  rewrite IH. unfold upd, msgs_to. cbn [fst snd]. destruct (a =? src) eqn:Ea; zb; [subst a|done].
  destruct (b =? d) eqn:Eb; zb.
  - subst d. rewrite filter_cons_True by done. cbn. by rewrite <- app_assoc.
  - by rewrite filter_cons_False by (cbn; congruence).
Qed.

Lemma msgs_to_app b l k : msgs_to b (l ++ k) = msgs_to b l ++ msgs_to b k.
Proof. unfold msgs_to. by rewrite filter_app, fmap_app. Qed.

(** ** What is recorded in a store *)

Definition dlc (s : sys) (i : Z) : Z := db_last_committed (store (nodes s i)).
Definition dpn (s : sys) (i : Z) : Z := db_last_pn (store (nodes s i)).
Definition acc (s : sys) (i : Z) : Z := accepted_pn (paxos (nodes s i)).

(** A store that holds the log [l] up to its last committed version. *)
Record data_ok (l : list value) (d : db) : Prop := {
  do_range : 0 <= db_last_committed d <= Z.of_nat (length l);
  do_services : services d = services_after (take (Z.to_nat (db_last_committed d)) l);
  do_first : db_first_committed d = first_after (take (Z.to_nat (db_last_committed d)) l);
  do_kept : 0 <= db_first_committed d <= db_last_committed d;
  do_bound v bl : versions d !! v = Some bl →
    1 <= v ∧ db_first_committed d <= v <= db_last_committed d + 1 ∧
    ∃ x, bl = Some x ∧ value_ok l v x ∧ (v <= db_last_committed d → entry l v = Some (canon v x));
  do_present v : 1 <= v → db_first_committed d <= v <= db_last_committed d → is_Some (versions d !! v)
}.

(** The values of a message, for the versions up to [lc]: consecutive entries of the
    log, up to [lc] if there are any. *)
Record vals_ok (l : list value) (lc : Z) (vals : list (Z * bufferlist)) : Prop := {
  vl_sorted : StronglySorted (λ a b, a.1 < b.1) vals;
  vl_entry v bl : (v, bl) ∈ vals → 1 <= v ∧ (v <= lc → ∃ x, bl = Some x ∧ value_ok l v x ∧ entry l v = Some (canon v x));
  vl_next v w : v ∈ vals.*1 → v < w <= lc → w ∈ vals.*1
}.

Section Inv.
Context (cf : config).
Abbreviation N := (mon_count cf).
Definition ids (i : Z) : Prop := 0 <= i < N.

Record node_d (G : ghost) (i : Z) (n : node) : Prop := {
  nd_rank : rank n = i;
  nd_data : data_ok (log G) (store n);
  nd_pending x : versions (store n) !! (db_last_committed (store n) + 1) = Some (Some x) →
    pending_v (store n) = db_last_committed (store n) + 1 ∧
    voted G i (pending_pn (store n)) (db_last_committed (store n) + 1) ∧
    began G (pending_pn (store n)) (db_last_committed (store n) + 1) = Some x;
  nd_votes c v : voted G i c v → v <= db_last_committed (store n) ∨
    v = db_last_committed (store n) + 1 ∧ is_Some (versions (store n) !! v) ∧ c <= pending_pn (store n);
  nd_epoch : 0 <= election_epoch (store n);
  nd_pn : 0 <= db_accepted_pn (store n) <= accepted_pn (paxos n);
  nd_led e Q : lquorum G i e = Some Q → e <= election_epoch (store n) ∧ majority N Q ∧ i ∈ Q
}.

(** ** What a monitor knows while it runs *)

Definition writing (p : paxos_t) : Prop := state p = STATE_WRITING ∨ state p = STATE_WRITING_PREVIOUS.
Definition updating (p : paxos_t) : Prop := state p = STATE_UPDATING ∨ state p = STATE_UPDATING_PREVIOUS.
Definition settled_state (p : paxos_t) : Prop := state p = STATE_ACTIVE ∨ state p = STATE_REFRESH.

(** Memory and store agree on what is committed, but for a write under way. *)
Definition io_ok (n : node) : Prop :=
  let p := paxos n in
  let d := store n in
  match io n with
  | Idle => last_committed p = db_last_committed d ∧ first_committed p = db_first_committed d
  | Queued t => last_committed p = db_last_committed d ∧ first_committed p = db_first_committed d ∧ writing p ∧
      ∃ x, new_value p = Some x ∧ t = Put LastCommitted (last_committed p + 1) :: map Do x
  | Applied => last_committed p + 1 = db_last_committed d ∧ writing p
  end.

(** The traffic between a leader and a peon of its quorum: [into] goes to the peon and
    [from] comes from it. *)
Record link (G : ghost) (p : Z) (n : node) (into from : list message) : Prop := {
  ln_counted : p ∈ counted G (accepted_pn (paxos n)) → pns OP_COLLECT into = [] ∧ pns OP_LAST from = [];
  ln_last l1 m l2 : from = l1 ++ m :: l2 → pn_of OP_LAST m = Some (accepted_pn (paxos n)) →
    pns OP_COLLECT into = [] ∧ pns OP_LAST l2 = [];
  ln_tokens : (tokens OP_BEGIN (accepted_pn (paxos n)) into + tokens OP_ACCEPT (accepted_pn (paxos n)) from <=
    (if decide (updating (paxos n) ∧ p ∉ accepted (paxos n)) then 1 else 0))%nat;
  ln_round m : m ∈ into ∧ pn_of OP_BEGIN m = Some (accepted_pn (paxos n)) ∨
      m ∈ from ∧ pn_of OP_ACCEPT m = Some (accepted_pn (paxos n)) →
    match m with MsgPaxos pm => p_last_committed pm = last_committed (paxos n) | _ => True end
}.

(** No member of the quorum has voted under an earlier number beyond version [v]. *)
Definition settled (G : ghost) (Q : gset Z) (b v : Z) : Prop :=
  ∀ m c w, m ∈ Q → c < b → voted G m c w → w <= v.

(** The value under way under number [b]. *)
Definition proposing (G : ghost) (n : node) (b : Z) : Prop :=
  settled G (quorum n) b (last_committed (paxos n) + 1) ∧
  (∀ v, is_Some (began G b v) → v <= last_committed (paxos n) + 1) ∧
  ∃ x, new_value (paxos n) = Some x ∧ began G b (last_committed (paxos n) + 1) = Some x.

Definition phase (G : ghost) (i : Z) (n : node) : Prop :=
  let p := paxos n in
  let b := accepted_pn p in
  match state p with
  | STATE_RECOVERING =>
      io n = Idle ∧ num_last p = Z.of_nat (size (counted G b)) ∧ new_value p = None ∧ (∀ v, began G b v = None) ∧
      (∀ m c v, m ∈ counted G b → c < b → voted G m c v → v <= last_committed p ∨
         v = last_committed p + 1 ∧ uncommitted_v p = last_committed p + 1 ∧ c <= uncommitted_pn p) ∧
      (uncommitted_v p = 0 ∧ uncommitted_pn p = 0 ∨
       uncommitted_v p = last_committed p + 1 ∧ ∃ x, uncommitted_value p = Some x ∧
         began G (uncommitted_pn p) (last_committed p + 1) = Some x)
  | STATE_ACTIVE | STATE_REFRESH =>
      counted G b = quorum n ∧ settled G (quorum n) b (last_committed p) ∧
      (∀ v, is_Some (began G b v) → v <= last_committed p) ∧ new_value p = None
  | STATE_UPDATING | STATE_UPDATING_PREVIOUS =>
      counted G b = quorum n ∧ proposing G n b ∧ i ∈ accepted p ∧ accepted p ⊆ quorum n ∧
      (∀ m, m ∈ accepted p → voted G m b (last_committed p + 1))
  | STATE_WRITING | STATE_WRITING_PREVIOUS =>
      counted G b = quorum n ∧ proposing G n b ∧ (∀ m, m ∈ quorum n → voted G m b (last_committed p + 1))
  end.

(** What a leader knows of its quorum. *)
Record leads (G : ghost) (s : sys) (i : Z) (n : node) : Prop := {
  ld_pn : accepted_pn (paxos n) mod 100 = i ∧ accepted_pn (paxos n) = db_last_pn (store n) ∧ 0 < accepted_pn (paxos n);
  ld_quorum : quorum n = bquorum G (accepted_pn (paxos n)) ∧ majority N (quorum n) ∧ i ∈ quorum n;
  ld_counted : i ∈ counted G (accepted_pn (paxos n)) ∧ counted G (accepted_pn (paxos n)) ⊆ quorum n;
  ld_promised m : m ∈ counted G (accepted_pn (paxos n)) → accepted_pn (paxos n) <= acc s m;
  ld_link p : p ∈ quorum n → p ≠ i → link G p n (net s i p) (net s p i)
}.

(** What holds in the middle of a handler. *)
Record core (G : ghost) (s : sys) (i : Z) (n : node) : Prop := {
  nv_last_pn : last_pn (paxos n) = db_last_pn (store n);
  nv_epoch : 0 <= election_epoch (store n) ∧
    epoch (elector n) = if election_epoch (store n) =? 0 then 1 else election_epoch (store n);
  nv_io : io_ok n;
  nv_idle : mstate n ≠ STATE_LEADER → io n = Idle;
  nv_peon : mstate n = STATE_PEON → updating (paxos n) → accepted_pn (paxos n) mod 100 ≠ i;
  nv_pending x : pending_proposal (paxos n) = Some x → Forall is_service x;
  nv_peers : Forall (λ e, ids e.1 ∧ e.1 ≠ i ∧ 0 <= e.2) (peer_last_committed (paxos n));
  nv_acked : Forall ids (acked_me (elector n)).*1 ∧ Sorted.StronglySorted Z.lt (acked_me (elector n)).*1 ∧
    (electing_me (elector n) = true → i ∈ (acked_me (elector n)).*1);
  nv_leads : mstate n = STATE_LEADER → leads G s i n
}.

Record node_v (G : ghost) (s : sys) (i : Z) (n : node) : Prop := {
  nv_core : core G s i n;
  nv_phase : mstate n = STATE_LEADER → phase G i n
}.

(** A monitor leads at most one quorum per election epoch, and it is a candidate only
    in the epoch of an election. *)
Definition role_ok (G : ghost) (i : Z) (n : node) : Prop :=
  (mstate n = STATE_LEADER → lquorum G i (epoch (elector n)) = Some (quorum n)) ∧
  (electing_me (elector n) = true → epoch (elector n) mod 2 = 1).

(** ** What a message promises *)

Definition collect_ok (G : ghost) (s : sys) (src dst : Z) (m : MMonPaxos) : Prop :=
  (∃ Q, lquorum G src (p_epoch m) = Some Q ∧ dst ∈ Q) ∧
  p_pn m mod 100 = src ∧ 0 < p_pn m <= dpn s src ∧ 0 <= p_last_committed m <= dlc s src.

Record last_ok (G : ghost) (s : sys) (src dst : Z) (m : MMonPaxos) : Prop := {
  lt_quorum : ∃ Q, lquorum G dst (p_epoch m) = Some Q ∧ src ∈ Q;
  lt_pn : 0 <= p_pn m <= acc s src ∧ ids (p_pn m mod 100) ∧ p_pn m <= dpn s (p_pn m mod 100);
  lt_vals : vals_ok (log G) (p_last_committed m) (p_values m);
  lt_range : 0 <= p_last_committed m <= Z.of_nat (length (log G));
  lt_cover v : p_first_committed m <= v <= p_last_committed m → dlc s dst < v → v ∈ (p_values m).*1;
  lt_votes c v : c < p_pn m → voted G src c v →
    v <= p_last_committed m ∨ v <= dlc s dst ∨
    v = p_last_committed m + 1 ∧ p_uncommitted_pn m ≠ 0 ∧ c <= p_uncommitted_pn m;
  lt_uncommitted : p_uncommitted_pn m ≠ 0 → ∃ x,
    map_find (p_last_committed m + 1) (p_values m) = Some (Some x) ∧
    began G (p_uncommitted_pn m) (p_last_committed m + 1) = Some x
}.

Definition begin_ok (G : ghost) (src dst : Z) (m : MMonPaxos) : Prop :=
  p_pn m mod 100 = src ∧ dst ∈ bquorum G (p_pn m) ∧
  ∃ x, map_find (p_last_committed m + 1) (p_values m) = Some (Some x) ∧
    began G (p_pn m) (p_last_committed m + 1) = Some x.

Definition accept_ok (G : ghost) (src dst : Z) (m : MMonPaxos) : Prop :=
  p_pn m mod 100 = dst ∧ voted G src (p_pn m) (p_last_committed m + 1).

Definition msg_ok (G : ghost) (s : sys) (src dst : Z) (m : message) : Prop :=
  match m with
  | MsgElection _ => True
  | MsgPaxos m =>
      match p_op m with
      | OP_COLLECT => collect_ok G s src dst m
      | OP_LAST => last_ok G s src dst m
      | OP_BEGIN => begin_ok G src dst m
      | OP_ACCEPT => accept_ok G src dst m
      | OP_COMMIT => vals_ok (log G) (p_last_committed m) (p_values m) ∧ p_last_committed m <= Z.of_nat (length (log G))
      | OP_LEASE | OP_LEASE_ACK => True
      end
  end.

(** ** The invariant

    Nothing is known of the memory of a monitor that is down. *)
Record inv (G : ghost) (s : sys) : Prop := {
  iv_votes : votes_ok N G (acc s);
  iv_began b v : is_Some (began G b v) → ids (b mod 100) ∧ b <= dpn s (b mod 100);
  iv_acc i : ids i → ids (acc s i mod 100) ∧ acc s i <= dpn s (acc s i mod 100);
  iv_node i : ids i → node_d G i (nodes s i);
  iv_up i : ids i → up (nodes s i) = true → node_v G s i (nodes s i);
  iv_role i : ids i → up (nodes s i) = true → role_ok G i (nodes s i);
  iv_msg a b m : m ∈ net s a b → ids a ∧ ids b ∧ a ≠ b ∧ msg_ok G s a b m;
  iv_sorted a b : StronglySorted Z.lt (pns OP_COLLECT (net s a b));
  iv_fresh a b c : c ∈ pns OP_COLLECT (net s a b) → acc s b mod 100 = a → acc s b < c
}.
(** ** Monotonicity *)

Lemma entry_mono l l' v x : l `prefix_of` l' → entry l v = Some x → entry l' v = Some x.
Proof. unfold entry. intros Hp. destruct (v <? 1); [done|]. intros E. by eapply prefix_lookup_Some. Qed.

Lemma take_prefix {A} (l l' : list A) k : l `prefix_of` l' → (k <= length l)%nat → take k l' = take k l.
Proof. intros [t ->] Hk. by rewrite take_app_le. Qed.

Lemma value_ok_mono l l' v x : l `prefix_of` l' → v <= Z.of_nat (length l) + 1 → value_ok l v x → value_ok l' v x.
Proof.
  intros Hp Hv. unfold value_ok. destruct (v =? 1); [done|]. by rewrite (take_prefix l l') by (done || lia).
Qed.

Lemma entry_lt l v x : entry l v = Some x → 1 <= v <= Z.of_nat (length l).
Proof. unfold entry. destruct (v <? 1) eqn:E; [done|]. zb. intros ?%lookup_lt_Some. lia. Qed.

Lemma data_ok_mono l l' d : l `prefix_of` l' → data_ok l d → data_ok l' d.
Proof.
  intros Hp []. pose proof (prefix_length _ _ Hp). split; [lia|..].
  - rewrite (take_prefix l l') by (done || lia). done.
  - rewrite (take_prefix l l') by (done || lia). done.
  - done.
  - intros v bl Hv. destruct (do_bound0 v bl Hv) as (? & Hr & x & -> & Hok & Hx). split; [done|]. split; [done|].
    exists x. split; [done|]. split; [eapply value_ok_mono; [done|lia|done]|]. intros Hle. eapply entry_mono; [done|auto].
  - done.
Qed.

Lemma vals_ok_mono l l' lc vals : l `prefix_of` l' → vals_ok l lc vals → vals_ok l' lc vals.
Proof.
  intros Hp []. split; [done|..|done]. intros v bl Hv. destruct (vl_entry0 v bl Hv) as [H1 H2]. split; [done|].
  intros Hle. destruct (H2 Hle) as (x & -> & Hok & Hx). exists x. split; [done|].
  pose proof (entry_lt _ _ _ Hx). split; [eapply value_ok_mono; [done|lia|done]|by eapply entry_mono].
Qed.

(** Appending messages that are no answers to a leader keeps its links. *)
Lemma split_last o b (l k l1 l2 : list message) m : l ++ k = l1 ++ m :: l2 → pn_of o m = Some b → pns o k = [] →
  ∃ r, l = l1 ++ m :: r ∧ l2 = r ++ k.
Proof.
  intros E Hm Hk. apply app_eq_app in E as (r & [[-> E2]|[-> ->]]).
  - destruct r as [|m' r]; [|injection E2 as <- ->; by exists r].
    cbn in E2. subst k. unfold pns in Hk. cbn in Hk. by rewrite Hm in Hk.
  - exfalso. rewrite pns_app in Hk. apply app_eq_nil in Hk as [_ Hk]. unfold pns in Hk. cbn in Hk. by rewrite Hm in Hk.
Qed.

Lemma pns_none o b l m : pns o l = [] → m ∈ l → pn_of o m = Some b → False.
Proof.
  intros E Hm Hp. assert (b ∈ pns o l) as Hb by (unfold pns; apply list_elem_of_omap; eauto).
  rewrite E in Hb. by apply not_elem_of_nil in Hb.
Qed.

Lemma link_out G G' p n into from new :
  link G p n into from → counted G' (accepted_pn (paxos n)) = counted G (accepted_pn (paxos n)) →
  pns OP_LAST new = [] → pns OP_ACCEPT new = [] → link G' p n into (from ++ new).
Proof.
  intros [] Hc HL HA. split.
  - rewrite Hc, pns_app, HL, app_nil_r. done.
  - intros l1 m l2 E Hm. destruct (split_last _ _ _ _ _ _ _ E Hm HL) as (r & -> & ->).
    destruct (ln_last0 _ _ _ eq_refl Hm) as [? Hr]. by rewrite pns_app, HL, app_nil_r.
  - rewrite tokens_app, (tokens_nil OP_ACCEPT _ new HA). rewrite Nat.add_0_r. done.
  - intros m [Hm|[Hm Hp]]; [apply ln_round0; by left|]. apply elem_of_app in Hm as [Hm|Hm]; [apply ln_round0; by right|].
    exfalso. exact (pns_none _ _ _ _ HA Hm Hp).
Qed.

(** Losing messages keeps the links. *)
Lemma pns_sublist o l k : l `sublist_of` k → pns o l `sublist_of` pns o k.
Proof.
  induction 1 as [|m l k H IH|m l k H IH]; [constructor|..]; unfold pns in *; cbn.
  - destruct (pn_of o m); [by constructor|done].
  - destruct (pn_of o m); [by constructor|done].
Qed.
Lemma tokens_sublist o b l k : l `sublist_of` k → (tokens o b l <= tokens o b k)%nat.
Proof.
  intros H. unfold tokens. apply sublist_length. apply (pns_sublist o) in H.
  revert H. generalize (pns o l) (pns o k). induction 1 as [|m l' k' H IH|m l' k' H IH]; [done|..]; rewrite ?filter_cons.
  - destruct (decide _); [by constructor|done].
  - destruct (decide _); [by constructor|done].
Qed.
Lemma sublist_nil_eq {A} (l k : list A) : l `sublist_of` k → k = [] → l = [].
Proof. intros H ->. by apply sublist_nil_r in H. Qed.

Lemma sublist_split {A} (l k l1 l2 : list A) m : l `sublist_of` k → l = l1 ++ m :: l2 →
  ∃ k1 k2, k = k1 ++ m :: k2 ∧ l2 `sublist_of` k2.
Proof.
  intros H. revert l1. induction H as [|a l k H IH|a l k H IH]; intros l1 E.
  - by destruct l1.
  - destruct l1 as [|b l1]; injection E as -> E.
    + subst l2. by exists [], k.
    + destruct (IH _ E) as (k1 & k2 & -> & ?). by exists (b :: k1), k2.
  - destruct (IH _ E) as (k1 & k2 & -> & ?). by exists (a :: k1), k2.
Qed.

Lemma link_sub G p n into from into' from' : link G p n into from →
  into' `sublist_of` into → from' `sublist_of` from → link G p n into' from'.
Proof.
  intros [] Hi Hf. split.
  - intros Hc. destruct (ln_counted0 Hc) as [H1 H2]. split.
    + eapply sublist_nil_eq; [by apply pns_sublist|done].
    + eapply sublist_nil_eq; [by apply pns_sublist|done].
  - intros l1 m l2 E Hm. destruct (sublist_split _ _ _ _ _ Hf E) as (k1 & k2 & -> & Hk).
    destruct (ln_last0 _ _ _ eq_refl Hm) as [H1 H2]. split.
    + eapply sublist_nil_eq; [by apply pns_sublist|done].
    + eapply sublist_nil_eq; [by apply pns_sublist|done].
  - pose proof (tokens_sublist OP_BEGIN (accepted_pn (paxos n)) _ _ Hi).
    pose proof (tokens_sublist OP_ACCEPT (accepted_pn (paxos n)) _ _ Hf). lia.
  - intros m Hm. apply ln_round0. destruct Hm as [[Hm ?]|[Hm ?]]; [left|right];
      (split; [eapply elem_of_submseteq; [exact Hm|by apply sublist_submseteq]|done]).
Qed.

(** ** The frame

    What a step of monitor [j] may change of the ghost state and of the system. *)
Record frame (j : Z) (G : ghost) (s : sys) (G' : ghost) (s' : sys) : Prop := {
  fr_nodes k : k ≠ j → nodes s' k = nodes s k;
  fr_acc : acc s j <= acc s' j;
  fr_dlc : dlc s j <= dlc s' j;
  fr_dpn : dpn s j <= dpn s' j;
  fr_began b v x : began G b v = Some x → began G' b v = Some x;
  fr_began_new b v : b mod 100 ≠ j → began G' b v = began G b v;
  fr_voted n b v : voted G n b v → voted G' n b v;
  fr_voted_new n c v : voted G' n c v → voted G n c v ∨ n = j ∧ acc s' j <= c;
  fr_bquorum b : b mod 100 ≠ j ∨ b <= dpn s j → bquorum G' b = bquorum G b;
  fr_counted b : b mod 100 ≠ j → counted G' b = counted G b;
  fr_lquorum k e : k ≠ j → lquorum G' k e = lquorum G k e;
  fr_led e Q : lquorum G j e = Some Q → lquorum G' j e = Some Q;
  fr_log : log G `prefix_of` log G';
  fr_net a b : a ≠ j → net s' a b = net s a b
}.

Section Frame.
Context (j : Z) (G : ghost) (s : sys) (G' : ghost) (s' : sys) (Hf : frame j G s G' s').

Lemma fr_acc_all n : acc s n <= acc s' n.
Proof. destruct (Z.eq_dec n j) as [->|Hn]; [by apply fr_acc in Hf|]. unfold acc. by rewrite (fr_nodes _ _ _ _ _ Hf n Hn). Qed.
Lemma fr_dlc_all n : dlc s n <= dlc s' n.
Proof. destruct (Z.eq_dec n j) as [->|Hn]; [by apply fr_dlc in Hf|]. unfold dlc. by rewrite (fr_nodes _ _ _ _ _ Hf n Hn). Qed.
Lemma fr_dpn_all n : dpn s n <= dpn s' n.
Proof. destruct (Z.eq_dec n j) as [->|Hn]; [by apply fr_dpn in Hf|]. unfold dpn. by rewrite (fr_nodes _ _ _ _ _ Hf n Hn). Qed.
Lemma fr_led_all n e Q : lquorum G n e = Some Q → lquorum G' n e = Some Q.
Proof. destruct (Z.eq_dec n j) as [->|Hn]; [apply (fr_led _ _ _ _ _ Hf)|]. by rewrite (fr_lquorum _ _ _ _ _ Hf n e Hn). Qed.

(** Old votes below the number a monitor has promised are all its votes there. *)
Lemma fr_voted_old n c v b : c < b → b <= acc s n → voted G' n c v → voted G n c v.
Proof.
  intros Hc Hb Hv. destruct (fr_voted_new _ _ _ _ _ Hf n c v Hv) as [|[-> Ha]]; [done|].
  pose proof (fr_acc _ _ _ _ _ Hf). lia.
Qed.

Lemma frame_node_d i n : i ≠ j → node_d G i n → node_d G' i n.
Proof.
  intros Hi []. split; try done.
  - eapply data_ok_mono; [by apply (fr_log _ _ _ _ _ Hf)|done].
  - intros x Hx. destruct (nd_pending0 x Hx) as (? & ? & ?). split; [done|].
    split; [by apply (fr_voted _ _ _ _ _ Hf)|by apply (fr_began _ _ _ _ _ Hf)].
  - intros c v Hv. destruct (fr_voted_new _ _ _ _ _ Hf i c v Hv) as [?|[-> _]]; [by apply nd_votes0|done].
  - intros e Q. rewrite (fr_lquorum _ _ _ _ _ Hf i e Hi). apply nd_led0.
Qed.

Lemma frame_settled Q b v : (∀ m, m ∈ Q → b <= acc s m) → settled G Q b v → settled G' Q b v.
Proof. intros Hp H m c w Hm Hc Hv. eapply H; [done|done|]. eapply fr_voted_old; [exact Hc|by apply Hp|done]. Qed.

Lemma frame_phase i n : i ≠ j → accepted_pn (paxos n) mod 100 = i →
  (∀ m, m ∈ counted G (accepted_pn (paxos n)) → accepted_pn (paxos n) <= acc s m) →
  phase G i n → phase G' i n.
Proof.
  intros Hi Hb Hp. set (b := accepted_pn (paxos n)) in *. assert (b mod 100 ≠ j) as Hj by congruence.
  pose proof (fr_counted _ _ _ _ _ Hf b Hj) as Ec. pose proof (λ v, fr_began_new _ _ _ _ _ Hf b v Hj) as Eb.
  assert (counted G b = quorum n → proposing G n b → proposing G' n b) as Hprop.
  { intros Eq (Hs & Hv & x & Ex & Hx). split; [|split].
    - apply frame_settled; [|done]. by rewrite <- Eq.
    - intros v. rewrite Eb. apply Hv.
    - exists x. by rewrite Eb. }
  unfold phase. fold b. destruct (state (paxos n)); rewrite ?Ec.
  - intros (? & ? & ? & Hn & Hv & Hu). repeat (split; [done|]). split; [intros v; by rewrite Eb|]. split.
    + intros m c v Hm Hc Hv'. apply (Hv m c v Hm Hc). eapply fr_voted_old; [exact Hc|by apply Hp|done].
    + destruct Hu as [?|(? & x & ? & Hx)]; [by left|right]. split; [done|]. exists x. split; [done|]. by apply (fr_began _ _ _ _ _ Hf).
  - intros (Eq & Hs & Hv & ?). split; [done|]. split; [apply frame_settled; [by rewrite <- Eq|done]|].
    split; [|done]. intros v. rewrite Eb. apply Hv.
  - intros (Eq & Hs & ? & ? & Hv). split; [done|]. split; [by apply Hprop|]. split; [done|]. split; [done|].
    intros m Hm. apply (fr_voted _ _ _ _ _ Hf). by apply Hv.
  - intros (Eq & Hs & ? & ? & Hv). split; [done|]. split; [by apply Hprop|]. split; [done|]. split; [done|].
    intros m Hm. apply (fr_voted _ _ _ _ _ Hf). by apply Hv.
  - intros (Eq & Hs & Hv). split; [done|]. split; [by apply Hprop|].
    intros m Hm. apply (fr_voted _ _ _ _ _ Hf). by apply Hv.
  - intros (Eq & Hs & Hv). split; [done|]. split; [by apply Hprop|].
    intros m Hm. apply (fr_voted _ _ _ _ _ Hf). by apply Hv.
  - intros (Eq & Hs & Hv & ?). split; [done|]. split; [apply frame_settled; [by rewrite <- Eq|done]|].
    split; [|done]. intros v. rewrite Eb. apply Hv.
Qed.

(** The links of the other leaders, given that those to [j] hold. *)
Lemma frame_leads i n : i ≠ j → dpn s i = db_last_pn (store n) →
  (j ∈ quorum n → link G j n (net s i j) (net s j i) → link G' j n (net s' i j) (net s' j i)) →
  leads G s i n → leads G' s' i n.
Proof.
  intros Hi Hd Hl []. pose proof ld_pn0 as (Hb & Hd' & ?).
  assert (accepted_pn (paxos n) mod 100 ≠ j) as Hj by congruence.
  pose proof (fr_counted _ _ _ _ _ Hf _ Hj) as Ec. split.
  - done.
  - rewrite (fr_bquorum _ _ _ _ _ Hf); [done|]. by left.
  - by rewrite Ec.
  - intros m. rewrite Ec. intros Hm. etrans; [by apply ld_promised0|apply fr_acc_all].
  - intros p Hp Hpi. destruct (Z.eq_dec p j) as [->|Hne].
    + apply Hl; [done|by apply ld_link0].
    + rewrite !(fr_net _ _ _ _ _ Hf) by done. destruct (ld_link0 p Hp Hpi). by split; rewrite ?Ec.
Qed.

Lemma frame_msg_ok a b m : (∀ b v, is_Some (began G b v) → b <= dpn s (b mod 100)) →
  votes_ok N G (acc s) → msg_ok G s a b m → msg_ok G' s' a b m.
Proof.
  intros Hd Hvo. destruct m as [m|m]; [done|]. cbn. destruct (p_op m); try done.
  - intros ((Q & HQ & Hb) & ? & [? ?] & [? ?]). split; [exists Q; split; [by apply fr_led_all|done]|]. split; [done|].
    pose proof (fr_dpn_all a). pose proof (fr_dlc_all a). split; lia.
  - intros []. pose proof (fr_acc_all a). pose proof (fr_dpn_all (p_pn m mod 100)). pose proof (fr_dlc_all b).
    pose proof (fr_log _ _ _ _ _ Hf) as Hlog. pose proof (prefix_length _ _ Hlog). split.
    + destruct lt_quorum0 as (Q & HQ & Hb). exists Q. split; [by apply fr_led_all|done].
    + destruct lt_pn0 as (? & ? & ?). split; [lia|]. split; [done|lia].
    + by eapply vals_ok_mono.
    + lia.
    + intros v Hv Hlt. apply lt_cover0; [done|lia].
    + intros c v Hc Hv. destruct lt_pn0 as ([_ Ha] & _). apply (fr_voted_old a c v (p_pn m) Hc) in Hv; [|done].
      destruct (lt_votes0 c v Hc Hv) as [?|[?|?]]; [by left|right; left; lia|by right; right].
    + intros Hu. destruct (lt_uncommitted0 Hu) as (x & ? & ?). exists x. split; [done|]. by apply (fr_began _ _ _ _ _ Hf).
  - intros (? & Hb & x & ? & Hx). split; [done|]. split.
    + rewrite (fr_bquorum _ _ _ _ _ Hf); [done|]. destruct (Z.eq_dec (p_pn m mod 100) j) as [<-|]; [right|by left].
      apply (Hd _ (p_last_committed m + 1)). by exists x.
    + exists x. split; [done|]. by apply (fr_began _ _ _ _ _ Hf).
  - intros (? & Hv). split; [done|by apply (fr_voted _ _ _ _ _ Hf)].
  - intros [Hv ?]. pose proof (fr_log _ _ _ _ _ Hf) as Hlog. pose proof (prefix_length _ _ Hlog).
    split; [by eapply vals_ok_mono|lia].
Qed.

(** The invariant after a step of [j]: what is left to show is about [j], its votes
    and the messages it has sent. *)
Lemma frame_inv : (∀ b, ∃ new, net s' j b = net s j b ++ new ∧
    (∀ m, m ∈ new → ids j ∧ ids b ∧ j ≠ b ∧ msg_ok G' s' j b m) ∧
    (pns OP_COLLECT new = [] ∨ ∃ c, pns OP_COLLECT new = [c] ∧ dpn s j < c) ∧
    (∀ n, n = nodes s b → b ≠ j → up n = true → mstate n = STATE_LEADER → leads G s b n → j ∈ quorum n →
       link G j n (net s b j) (net s j b) → link G' j n (net s' b j) (net s' j b))) →
  (acc s' j = acc s j ∨ ∀ a c, c ∈ pns OP_COLLECT (net s a j) → a ≠ j → acc s' j mod 100 = a → acc s' j < c) →
  (∀ b v, is_Some (began G' b v) → b mod 100 = j → b <= dpn s' j) → ids j →
  (ids (acc s' j mod 100) ∧ acc s' j <= dpn s' (acc s' j mod 100)) →
  votes_ok N G' (acc s') → node_d G' j (nodes s' j) →
  (up (nodes s' j) = true → node_v G' s' j (nodes s' j)) →
  (up (nodes s' j) = true → role_ok G' j (nodes s' j)) →
  inv G s → inv G' s'.
Proof.
  intros Hnew Hacc Hbeg Hj Hpn Hvo Hd Hv Hr HI. split.
  - done.
  - intros b v Hb. destruct (Z.eq_dec (b mod 100) j) as [Ej|Ej]; [rewrite Ej; split; [done|by apply (Hbeg b v)]|].
    rewrite (fr_began_new _ _ _ _ _ Hf) in Hb by done. destruct (iv_began _ _ HI b v Hb) as [? ?]. split; [done|].
    etrans; [done|apply fr_dpn_all].
  - intros i Hi. destruct (Z.eq_dec i j) as [->|Hne]; [done|]. unfold acc. rewrite (fr_nodes _ _ _ _ _ Hf i Hne).
    destruct (iv_acc _ _ HI i Hi) as [? ?]. split; [done|]. etrans; [done|apply fr_dpn_all].
  - intros i Hi. destruct (Z.eq_dec i j) as [->|Hne]; [done|]. rewrite (fr_nodes _ _ _ _ _ Hf i Hne).
    apply frame_node_d; [done|by apply (iv_node _ _ HI)].
  - intros i Hi. destruct (Z.eq_dec i j) as [->|Hne]; [done|]. rewrite (fr_nodes _ _ _ _ _ Hf i Hne). intros Hup.
    destruct (iv_up _ _ HI i Hi Hup) as [Hc Hp]. split.
    + destruct Hc. split; try done. intros Hl. destruct (Hnew i) as (new & _ & _ & _ & Hlink).
      eapply frame_leads; [done|done| |by apply nv_leads0]. intros Hq. apply Hlink; try done. by apply nv_leads0.
    + intros Hl. destruct (nv_leads _ _ _ _ Hc Hl). apply frame_phase; [done|by apply ld_pn0|done|by apply Hp].
  - intros i Hi. destruct (Z.eq_dec i j) as [->|Hne]; [done|]. rewrite (fr_nodes _ _ _ _ _ Hf i Hne). intros Hup.
    pose proof (iv_role _ _ HI i Hi Hup). unfold role_ok. by rewrite (fr_lquorum _ _ _ _ _ Hf i _ Hne).
  - intros a b m. destruct (Z.eq_dec a j) as [->|Hne].
    + destruct (Hnew b) as (new & -> & Hm & _). intros [Ho|Hn]%elem_of_app; [|by apply Hm].
      destruct (iv_msg _ _ HI j b m Ho) as (? & ? & ? & Hmo). repeat (split; [done|]). eapply frame_msg_ok; [|apply HI|done].
      intros b' v' Hb'. by apply (iv_began _ _ HI b' v').
    + rewrite (fr_net _ _ _ _ _ Hf a b Hne). intros Ho.
      destruct (iv_msg _ _ HI a b m Ho) as (? & ? & ? & Hmo). repeat (split; [done|]). eapply frame_msg_ok; [|apply HI|done].
      intros b' v' Hb'. by apply (iv_began _ _ HI b' v').
  - intros a b. destruct (Z.eq_dec a j) as [->|Hne]; [|rewrite (fr_net _ _ _ _ _ Hf a b Hne); apply HI].
    destruct (Hnew b) as (new & -> & _ & Hc & _). rewrite pns_app. pose proof (iv_sorted _ _ HI j b) as Hs.
    destruct Hc as [->|(c & -> & Hc)]; [by rewrite app_nil_r|]. apply StronglySorted_app_2; [|done|repeat constructor].
    intros x y Hx Hy. apply list_elem_of_singleton in Hy as ->. eapply Z.le_lt_trans; [|exact Hc].
    apply list_elem_of_omap in Hx as (m & Hm & Hx). destruct (iv_msg _ _ HI j b m Hm) as (_ & _ & _ & Hok).
    destruct m as [m|m]; [done|]. cbn in Hx, Hok. destruct (p_op m); try done. injection Hx as <-.
    by destruct Hok as (_ & _ & [_ ?] & _).
  - intros a b c Hc Hm. destruct (Z.eq_dec a j) as [->|Hne].
    + destruct (Hnew b) as (new & Hn & Hok & Hc' & _). rewrite Hn, pns_app in Hc. apply elem_of_app in Hc as [Hc|Hc].
      * assert (b ≠ j) as Hb by (apply list_elem_of_omap in Hc as (m & Hm' & _); by apply (iv_msg _ _ HI) in Hm' as (_ & _ & ? & _)).
        unfold acc in *. rewrite (fr_nodes _ _ _ _ _ Hf b Hb) in *. by eapply (iv_fresh _ _ HI j b).
      * assert (b ≠ j ∧ ids b) as [Hb Hib] by (apply list_elem_of_omap in Hc as (m & Hm' & _); by apply Hok in Hm' as (_ & ? & ? & _)).
        destruct Hc' as [Hc'|(c' & Hc' & Hlt)]; rewrite Hc' in Hc; [by apply not_elem_of_nil in Hc|].
        apply list_elem_of_singleton in Hc as ->. unfold acc in *. rewrite (fr_nodes _ _ _ _ _ Hf b Hb) in *.
        destruct (iv_acc _ _ HI b Hib) as [_ Ha]. unfold acc in Ha. rewrite Hm in Ha. lia.
    + rewrite (fr_net _ _ _ _ _ Hf a b Hne) in Hc. destruct (Z.eq_dec b j) as [->|Hb].
      * destruct Hacc as [Ea|Ha]; [rewrite Ea in *; by eapply (iv_fresh _ _ HI a j)|by eapply Ha].
      * unfold acc in *. rewrite (fr_nodes _ _ _ _ _ Hf b Hb) in *. by eapply (iv_fresh _ _ HI a b).
Qed.
End Frame.
(** ** Losing messages *)

Lemma msg_ok_ext G s s' a b m : (∀ k, acc s' k = acc s k ∧ dpn s' k = dpn s k ∧ dlc s' k = dlc s k) →
  msg_ok G s a b m → msg_ok G s' a b m.
Proof.
  intros Hacc. destruct m as [m|m]; [done|]. cbn. destruct (p_op m); try done.
  - unfold collect_ok. by destruct (Hacc a) as (_ & -> & ->).
  - intros []. destruct (Hacc a) as (Ea & _), (Hacc b) as (_ & _ & Eb), (Hacc (p_pn m mod 100)) as (_ & Ed & _).
    split; rewrite ?Ea, ?Eb, ?Ed; done.
Qed.

Lemma inv_sub G s s' : (∀ k, nodes s' k = nodes s k) → (∀ a b, net s' a b `sublist_of` net s a b) →
  inv G s → inv G s'.
Proof.
  intros Hn Hs HI. assert (∀ k, acc s' k = acc s k ∧ dpn s' k = dpn s k ∧ dlc s' k = dlc s k) as Hacc.
  { intros k. unfold acc, dpn, dlc. by rewrite Hn. }
  assert (∀ a b m, m ∈ net s' a b → m ∈ net s a b) as Hin.
  { intros a b m Hm. eapply elem_of_submseteq; [exact Hm|]. by apply sublist_submseteq. }
  split.
  - eapply votes_acc; [|apply HI]. intros n. destruct (Hacc n) as (-> & _). lia.
  - intros b v. destruct (Hacc (b mod 100)) as (_ & -> & _). apply HI.
  - intros i Hi. destruct (Hacc i) as (-> & _). destruct (Hacc (acc s i mod 100)) as (_ & -> & _). by apply HI.
  - intros i Hi. rewrite Hn. by apply HI.
  - intros i Hi. rewrite Hn. intros Hu. destruct (iv_up _ _ HI i Hi Hu) as [[] Hph]. split; [|done].
    split; try done. intros Hl. destruct (nv_leads0 Hl). split; try done.
    + intros m Hm. destruct (Hacc m) as (-> & _). by apply ld_promised0.
    + intros p Hp Hpi. eapply link_sub; [by apply ld_link0|done|done].
  - intros i Hi. rewrite Hn. by apply HI.
  - intros a b m Hm. destruct (iv_msg _ _ HI a b m (Hin _ _ _ Hm)) as (? & ? & ? & Hok). repeat (split; [done|]).
    by eapply msg_ok_ext.
  - intros a b. pose proof (iv_sorted _ _ HI a b) as Hsrt. pose proof (pns_sublist OP_COLLECT _ _ (Hs a b)) as Hsub.
    revert Hsrt Hsub. generalize (pns OP_COLLECT (net s a b)) (pns OP_COLLECT (net s' a b)). intros l k Hl Hsub.
    induction Hsub as [|x l k Hsub IH|x l k Hsub IH]; [done|..]; apply StronglySorted_inv in Hl as [Hl Hx].
    + constructor; [by apply IH|]. apply Forall_forall. intros y Hy. eapply Forall_forall; [exact Hx|].
      eapply elem_of_submseteq; [exact Hy|]. by apply sublist_submseteq.
    + by apply IH.
  - intros a b c Hc. destruct (Hacc b) as (-> & _). apply (iv_fresh _ _ HI a b). eapply elem_of_submseteq; [exact Hc|].
    apply sublist_submseteq. by apply pns_sublist.
Qed.

(** ** A monitor in the middle of a handler *)

Definition view (s : sys) (i : Z) (r : run) : sys :=
  mk_sys (upd (nodes s) i (nd r)) (post i (out r) (net s)).

Lemma view_here s i r : nodes (view s i r) i = nd r.
Proof. cbn. unfold upd. by rewrite Z.eqb_refl. Qed.
Lemma view_there s i r k : k ≠ i → nodes (view s i r) k = nodes s k.
Proof. intros Hk. cbn. unfold upd. by rewrite (proj2 (Z.eqb_neq _ _)). Qed.
Lemma view_net s i r a b : net (view s i r) a b = if a =? i then net s a b ++ msgs_to b (out r) else net s a b.
Proof. apply post_at. Qed.
Lemma view_net_other s i r a b : a ≠ i → net (view s i r) a b = net s a b.
Proof. intros Ha. rewrite view_net. by rewrite (proj2 (Z.eqb_neq _ _)). Qed.

Lemma view_start G s i : inv G s → inv G (view s i (mk_run (nodes s i) [])).
Proof.
  apply inv_sub.
  - intros k. destruct (Z.eq_dec k i) as [->|Hk]; [by rewrite view_here|by rewrite view_there].
  - intros a b. rewrite view_net. cbn. rewrite app_nil_r. by destruct (a =? i).
Qed.
End Inv.
End PaxosInv.
