(* ===== verification/PaxosData.v ===== *)
(** * Committing values to a store

    Applying the next value of the log to a store that holds a prefix of the log
    gives a store that holds one more; the values a monitor shares are consecutive
    entries of the log, and storing them has the same effect as committing each. *)
From stdpp Require Import gmap.
From S2P Require Import Prelude StdMap MonTypes Consensus Paxos Elector Monitor PaxosInv.

Module PaxosData.
Import MonTypes Consensus PaxosInv.

(** ** What a value does to a store *)

(** The counters of the two stores agree. *)
Definition same_counters (d d' : db) : Prop :=
  election_epoch d' = election_epoch d ∧ db_last_pn d' = db_last_pn d ∧ db_accepted_pn d' = db_accepted_pn d ∧
  db_last_committed d' = db_last_committed d ∧ pending_v d' = pending_v d ∧ pending_pn d' = pending_pn d.

Lemma apply_vop_counters d o : same_counters d (apply_vop d o).
Proof. by destruct o as [|?|? ? []]. Qed.
Lemma apply_value_cons d o x : apply_value d (o :: x) = apply_value (apply_vop d o) x.
Proof. done. Qed.
Lemma apply_value_app d x y : apply_value d (x ++ y) = apply_value (apply_value d x) y.
Proof. apply foldl_app. Qed.
Lemma apply_value_counters d x : same_counters d (apply_value d x).
Proof.
  revert d. induction x as [|o x IH]; intros d; [done|]. rewrite apply_value_cons. unfold same_counters.
  destruct (IH (apply_vop d o)) as (-> & -> & -> & -> & -> & ->). apply apply_vop_counters.
Qed.

(** Services and the first version do not depend on the rest of the store. *)
Lemma apply_value_services d d' x : services d = services d' → services (apply_value d x) = services (apply_value d' x).
Proof.
  revert d d'. induction x as [|o x IH]; intros d d' E; [done|]. rewrite !apply_value_cons. apply IH.
  destruct o as [|?|? ? []]; cbn; by rewrite ?E.
Qed.
Lemma apply_value_first d d' x : db_first_committed d = db_first_committed d' →
  db_first_committed (apply_value d x) = db_first_committed (apply_value d' x).
Proof.
  revert d d'. induction x as [|o x IH]; intros d d' E; [done|]. rewrite !apply_value_cons. apply IH.
  by destruct o as [|?|? ? []]; cbn.
Qed.

(** Writes of services leave Paxos alone. *)
Lemma apply_services d sv : Forall is_service sv →
  versions (apply_value d sv) = versions d ∧ db_first_committed (apply_value d sv) = db_first_committed d.
Proof.
  intros H. revert d. induction H as [|o sv Ho H IH]; intros d; [done|]. rewrite apply_value_cons.
  destruct (IH (apply_vop d o)) as [-> ->]. by destruct o as [|?|? ? []].
Qed.
(** A trim erases the versions of its range. *)
Lemma apply_erases_first d l : db_first_committed (apply_value d (map OpErase l)) = db_first_committed d.
Proof. revert d. induction l as [|a l IH]; intros d; [done|]. cbn [map]. by rewrite apply_value_cons, IH. Qed.
Lemma apply_erases_nat d a n v : versions (apply_value d (map OpErase (seqZ a (Z.of_nat n)))) !! v =
  (if (a <=? v) && (v <? a + Z.of_nat n) then None else versions d !! v).
Proof.
  revert a d. induction n as [|n IH]; intros a d.
  { change (Z.of_nat 0) with 0. destruct (Z.leb_spec a v), (Z.ltb_spec v (a + 0)); cbn; done || lia. }
  rewrite seqZ_cons by lia. replace (Z.pred (Z.of_nat (S n))) with (Z.of_nat n) by lia. cbn [map].
  rewrite apply_value_cons, IH. cbn [apply_vop versions set_versions]. destruct (Z.eq_dec a v) as [->|Hne].
  - rewrite lookup_delete_eq. destruct (Z.leb_spec v v), (Z.ltb_spec v (v + Z.of_nat (S n))); try lia. cbn. by destruct (_ && _).
  - rewrite lookup_delete_ne by done.
    destruct (Z.leb_spec (Z.succ a) v), (Z.leb_spec a v), (Z.ltb_spec v (Z.succ a + Z.of_nat n)),
      (Z.ltb_spec v (a + Z.of_nat (S n))); cbn; done || lia.
Qed.
Lemma apply_erases d a k v : 0 <= k → versions (apply_value d (map OpErase (seqZ a k))) !! v =
  (if (a <=? v) && (v <? a + k) then None else versions d !! v).
Proof. intros Hk. pose proof (apply_erases_nat d a (Z.to_nat k) v) as H. by rewrite Z2Nat.id in H by lia. Qed.

(** ** Normal form *)

Lemma strip_services k sv : Forall is_service sv → strip (replicate k (OpFirst 1) ++ sv) = sv.
Proof. intros H. induction k as [|k IH]; [|done]. cbn. by destruct H as [|[]]. Qed.

Lemma apply_firsts d k : db_first_committed (apply_value d (replicate (S k) (OpFirst 1))) = 1 ∧
  services (apply_value d (replicate (S k) (OpFirst 1))) = services d ∧
  versions (apply_value d (replicate (S k) (OpFirst 1))) = versions d.
Proof.
  revert d. induction k as [|k IH]; intros d; [done|].
  change (replicate (S (S k)) (OpFirst 1)) with (OpFirst 1 :: replicate (S k) (OpFirst 1)).
  rewrite apply_value_cons. destruct (IH (apply_vop d (OpFirst 1))) as (-> & -> & ->). done.
Qed.

(** A value and its normal form act alike on services and the first version. *)
Lemma canon_acts l v x d : value_ok l v x → services (apply_value d (canon v x)) = services (apply_value d x) ∧
  db_first_committed (apply_value d (canon v x)) = db_first_committed (apply_value d x).
Proof.
  unfold value_ok, canon. destruct (v =? 1); [|done]. intros (k & sv & Hsv & ->). rewrite strip_services by done.
  rewrite apply_value_cons, apply_value_app. destruct (apply_firsts d k) as (E1 & E2 & _). split.
  - apply apply_value_services. by rewrite E2.
  - apply apply_value_first. by rewrite E1.
Qed.

(** ** Committing one value *)

Definition commit_value (d : db) (v : Z) (x : value) : db := apply_value (set_versions (<[v := Some x]> (versions d)) d) x.
Definition learn (d : db) (v : Z) (x : value) : db := set_db_last_committed v (commit_value d v x).

Lemma replay_snoc l x : replay (l ++ [x]) = apply_value (replay l) x.
Proof. apply foldl_snoc. Qed.

Lemma entry_take l v x : 1 <= v → entry l v = Some x → take (Z.to_nat v) l = take (Z.to_nat (v - 1)) l ++ [x].
Proof.
  intros Hv. unfold entry. rewrite (proj2 (Z.ltb_ge _ _)) by lia. intros E.
  replace (Z.to_nat v) with (S (Z.to_nat (v - 1))) by lia. by apply take_S_r.
Qed.

(** What a value does to the versions that are kept. *)
Lemma commit_versions l d v x : data_ok l d → v = db_last_committed d + 1 → value_ok l v x →
  0 <= db_first_committed (commit_value d v x) <= v ∧
  (∀ w bl, versions (commit_value d v x) !! w = Some bl → db_first_committed (commit_value d v x) <= w ∧
     <[v := Some x]> (versions d) !! w = Some bl) ∧
  (∀ w, 1 <= w → db_first_committed (commit_value d v x) <= w <= v → is_Some (versions (commit_value d v x) !! w)).
Proof.
  intros [] Hv Hok. unfold commit_value. set (d1 := set_versions _ d).
  assert (∀ w bl, <[v := Some x]> (versions d) !! w = Some bl → 1 <= w ∧ db_first_committed d <= w) as Hb.
  { intros w bl. rewrite lookup_insert_Some. intros [[<- _]|[_ E]]; [lia|]. destruct (do_bound0 w bl E) as (? & ? & _). lia. }
  assert (∀ w, 1 <= w → db_first_committed d <= w <= v → is_Some (<[v := Some x]> (versions d) !! w)) as Hp.
  { intros w ? ?. destruct (Z.eq_dec w v) as [->|Hne]; [rewrite lookup_insert_eq; by eexists|].
    rewrite lookup_insert_ne by done. apply do_present0; lia. }
  revert Hok. unfold value_ok. destruct (v =? 1) eqn:E1; zb.
  - intros (k & sv & Hsv & Ex). assert (versions (apply_value d1 x) = versions d1 ∧ db_first_committed (apply_value d1 x) = 1) as [-> ->].
    { rewrite Ex, apply_value_app. destruct (apply_services (apply_value d1 (replicate (S k) (OpFirst 1))) sv Hsv) as [-> ->].
      by destruct (apply_firsts d1 k) as (-> & _ & ->). }
    cbn. split; [lia|]. split; [intros w bl Hw; split; [by apply (Hb w bl)|done]|]. intros w ? ?. apply Hp; lia.
  - intros (sv & Hsv & [Ex|(e & He & Ex)]).
    + assert (versions (apply_value d1 x) = versions d1 ∧ db_first_committed (apply_value d1 x) = db_first_committed d) as [-> ->].
      { rewrite Ex. by destruct (apply_services d1 sv Hsv) as [-> ->]. }
      cbn. split; [lia|]. split; [intros w bl Hw; split; [by apply (Hb w bl)|done]|]. intros w ? ?. apply Hp; lia.
    + replace (v - 1) with (db_last_committed d) in He, Ex by lia. rewrite <- do_first0 in He, Ex.
      set (fc := db_first_committed d) in *.
      assert (db_first_committed (apply_value d1 x) = e ∧ ∀ w, versions (apply_value d1 x) !! w =
        (if (fc <=? w) && (w <? e) then None else versions d1 !! w)) as [-> Hvs].
      { rewrite Ex, !apply_value_app. cbn. split; [done|]. intros w. rewrite apply_erases by lia.
        replace (fc + (e - fc)) with e by lia. by destruct (apply_services d1 sv Hsv) as [-> _]. }
      split; [lia|]. split.
      * intros w bl. rewrite Hvs. destruct (Z.leb_spec fc w), (Z.ltb_spec w e); cbn [andb]; try done; intros Hw;
          pose proof (Hb w bl Hw); split; done || lia.
      * intros w ? ?. rewrite Hvs. destruct (Z.leb_spec fc w), (Z.ltb_spec w e); cbn [andb]; try lia; apply Hp; lia.
Qed.

(** A store that holds the log up to a version and commits the next entry holds the
    log up to the next version, with no accepted value beyond it. *)
Lemma learn_data l d v x : data_ok l d → v = db_last_committed d + 1 → entry l v = Some (canon v x) → value_ok l v x →
  data_ok l (learn d v x) ∧ versions (learn d v x) !! (v + 1) = None.
Proof.
  intros Hd Hv He Hok. destruct (commit_versions l d v x Hd Hv Hok) as (Hfc & Hb & Hp). pose proof Hd as [].
  pose proof (entry_lt _ _ _ He) as Hlen. pose proof (entry_take l v _ (proj1 Hlen) He) as Ht.
  destruct (canon_acts l v x (replay (take (Z.to_nat (v - 1)) l)) Hok) as [Es Ef].
  replace (v - 1) with (db_last_committed d) in Ht, Es, Ef by lia.
  split; [split|].
  - cbn. lia.
  - change (services (commit_value d v x) = services_after (take (Z.to_nat v) l)).
    unfold services_after. rewrite Ht, replay_snoc, Es. by apply apply_value_services.
  - change (db_first_committed (commit_value d v x) = first_after (take (Z.to_nat v) l)).
    unfold first_after. rewrite Ht, replay_snoc, Ef. by apply apply_value_first.
  - done.
  - intros w bl Hw. change (versions (commit_value d v x) !! w = Some bl) in Hw.
    destruct (Hb w bl Hw) as [Hge Hw']. cbn. split; [|split; [split; [done|]|]].
    + apply lookup_insert_Some in Hw' as [[<- _]|[_ E]]; [lia|by apply (do_bound0 w bl)].
    + apply lookup_insert_Some in Hw' as [[<- _]|[_ E]]; [lia|]. destruct (do_bound0 w bl E) as (_ & ? & _). lia.
    + apply lookup_insert_Some in Hw' as [[<- <-]|[Hne E]]; [by exists x|].
      destruct (do_bound0 w bl E) as (_ & ? & y & -> & ? & Hy). exists y. split; [done|]. split; [done|]. intros _. apply Hy. lia.
  - intros w ? ?. apply Hp; done.
  - destruct (versions (learn d v x) !! (v + 1)) as [bl|] eqn:E; [|done].
    destruct (Hb (v + 1) bl E) as [_ E']. apply lookup_insert_Some in E' as [[? _]|[_ E']]; [lia|].
    destruct (do_bound0 _ _ E') as (_ & ? & _). lia.
Qed.

(** ** Transactions *)

Lemma apply_ops_do d x : apply_ops d (map Do x) = apply_value d x.
Proof. revert d. induction x as [|o x IH]; intros d; [done|]. apply IH. Qed.
Lemma apply_ops_app d t u : apply_ops d (t ++ u) = apply_ops (apply_ops d t) u.
Proof. apply foldl_app. Qed.

Lemma vop_lc k d o : apply_vop (set_db_last_committed k d) o = set_db_last_committed k (apply_vop d o).
Proof. by destruct o as [|?|? ? []]. Qed.
Lemma value_lc k d x : apply_value (set_db_last_committed k d) x = set_db_last_committed k (apply_value d x).
Proof. revert d. induction x as [|o x IH]; intros d; [done|]. rewrite !apply_value_cons, vop_lc. apply IH. Qed.

(** The leader's commit: the value is already stored. *)
Lemma commit_transaction d x : versions d !! (db_last_committed d + 1) = Some (Some x) →
  apply_ops d (Put LastCommitted (db_last_committed d + 1) :: map Do x) = learn d (db_last_committed d + 1) x.
Proof.
  intros E. change (apply_ops (set_db_last_committed (db_last_committed d + 1) d) (map Do x) = learn d (db_last_committed d + 1) x).
  rewrite apply_ops_do, value_lc. unfold learn, commit_value. by rewrite insert_id; destruct d.
Qed.

(** The values of a message that are stored: entries of the log from [v] on. *)
Inductive chain (l : list value) : Z → list (Z * bufferlist) → Prop :=
| chain_nil v : chain l v []
| chain_cons v x t : entry l v = Some (canon v x) → value_ok l v x → chain l (v + 1) t → chain l v ((v, Some x) :: t).

Definition learn_all (d : db) (t : list (Z * bufferlist)) : db :=
  foldl (λ d e, match e.2 with Some x => learn d e.1 x | None => d end) d t.

Fixpoint chain_ops (t : list (Z * bufferlist)) : transaction :=
  match t with
  | [] => []
  | (v, Some x) :: t => (PutVersion v (Some x) :: map Do x) ++ chain_ops t
  | (v, None) :: t => chain_ops t
  end.

Lemma store_values_chain l v t u r : chain l v t → Paxos.store_values u t r = Done (u ++ chain_ops t) r.
Proof.
  intros H. revert u. induction H as [v|v x t He Hok H IH]; intros u; cbn.
  - by rewrite app_nil_r.
  - unfold mbind, Paxos.decode_append_transaction, ret. rewrite IH. by rewrite <- !app_assoc.
Qed.

Lemma chain_last l v t e : chain l v t → last t = Some e → e.1 = v + Z.of_nat (length t) - 1.
Proof.
  intros H. induction H as [v|v x t He Hok H IH]; [done|]. destruct t as [|e' t].
  - intros [= <-]. cbn. lia.
  - rewrite last_cons_cons. intros E. rewrite (IH E). cbn [length]. lia.
Qed.

Lemma chain_ops_lc k d t l v : chain l v t → apply_ops (set_db_last_committed k d) (chain_ops t) = set_db_last_committed k (apply_ops d (chain_ops t)).
Proof.
  intros H. revert d. induction H as [v|v x t He Hok H IH]; intros d; [done|]. cbn [chain_ops]. rewrite !apply_ops_app.
  cbn [apply_ops foldl]. fold (apply_ops (apply_op (set_db_last_committed k d) (PutVersion v (Some x))) (map Do x)).
  fold (apply_ops (apply_op d (PutVersion v (Some x))) (map Do x)). rewrite !apply_ops_do.
  change (apply_op (set_db_last_committed k d) (PutVersion v (Some x))) with (set_db_last_committed k (apply_op d (PutVersion v (Some x)))).
  rewrite value_lc. apply IH.
Qed.

Lemma chain_commit l v t d k : chain l v t → t ≠ [] → k = v + Z.of_nat (length t) - 1 →
  apply_ops d (Put LastCommitted k :: chain_ops t) = learn_all d t.
Proof.
  intros H Ht Hk. change (apply_ops (set_db_last_committed k d) (chain_ops t) = learn_all d t).
  rewrite (chain_ops_lc k d t l v H). subst k. revert d. induction H as [v|v x t He Hok H IH]; intros d; [done|].
  cbn [chain_ops learn_all foldl fst snd]. rewrite apply_ops_app.
  change (apply_ops d (PutVersion v (Some x) :: map Do x)) with (apply_ops (set_versions (<[v := Some x]> (versions d)) d) (map Do x)).
  rewrite apply_ops_do. fold (commit_value d v x). destruct t as [|e t].
  - cbn [length chain_ops foldl]. by replace (v + Z.of_nat 1 - 1) with v by lia.
  - fold (learn_all (learn d v x) (e :: t)). rewrite <- IH by done. unfold learn.
    rewrite (chain_ops_lc v _ (e :: t) l (v + 1) H). cbn [length].
    replace (v + Z.of_nat (S (S (length t))) - 1) with (v + 1 + Z.of_nat (S (length t)) - 1) by lia. done.
Qed.

Lemma learn_all_data l v t d : chain l v t → data_ok l d → v = db_last_committed d + 1 → t ≠ [] →
  data_ok l (learn_all d t) ∧ db_last_committed (learn_all d t) = v + Z.of_nat (length t) - 1 ∧
  versions (learn_all d t) !! (db_last_committed (learn_all d t) + 1) = None ∧
  election_epoch (learn_all d t) = election_epoch d ∧ db_last_pn (learn_all d t) = db_last_pn d ∧
  db_accepted_pn (learn_all d t) = db_accepted_pn d.
Proof.
  intros H. revert d. induction H as [v|v x t He Hok H IH]; intros d Hd Hv Ht; [done|].
  destruct (learn_data l d v x Hd Hv He Hok) as [Hd' Hn]. cbn [learn_all foldl fst snd].
  assert (election_epoch (learn d v x) = election_epoch d ∧ db_last_pn (learn d v x) = db_last_pn d ∧
    db_accepted_pn (learn d v x) = db_accepted_pn d) as (E1 & E2 & E3).
  { destruct (apply_value_counters (set_versions (<[v := Some x]> (versions d)) d) x) as (? & ? & ? & _). done. }
  destruct t as [|e t].
  - cbn [foldl length]. split; [done|]. split; [cbn; lia|]. done.
  - fold (learn_all (learn d v x) (e :: t)). destruct (IH (learn d v x) Hd' ltac:(done) ltac:(done)) as (? & -> & ? & -> & -> & ->).
    split; [done|]. split; [cbn [length]; lia|]. done.
Qed.

(** ** The values of messages *)

Abbreviation vsorted := (StronglySorted (λ a b : Z * bufferlist, a.1 < b.1)).

Lemma vsorted_head e w v : vsorted (e :: w) → v ∈ w.*1 → e.1 < v.
Proof.
  intros H Hv. apply StronglySorted_inv in H as [_ H]. apply list_elem_of_fmap in Hv as (e' & -> & He').
  by apply (proj1 (Forall_forall _ _) H e').
Qed.

(** What [take_upto] takes of consecutive entries that start at [v]. *)
Lemma take_chain l mlc v w : vsorted w → (∀ k, k ∈ w.*1 → v <= k) → (∀ e w', w = e :: w' → e.1 <= mlc → e.1 = v) →
  (∀ a b, a ∈ w.*1 → a < b <= mlc → b ∈ w.*1) →
  (∀ k bl, (k, bl) ∈ w → k <= mlc → ∃ x, bl = Some x ∧ value_ok l k x ∧ entry l k = Some (canon k x)) →
  chain l v (Paxos.take_upto mlc w) ∧
  (Paxos.take_upto mlc w ≠ [] → v + Z.of_nat (length (Paxos.take_upto mlc w)) - 1 = mlc).
Proof.
  revert v. induction w as [|[k bl] w IH]; intros v Hs Hge Hfst Hnext Hent; [split; [constructor|done]|].
  cbn [Paxos.take_upto fst]. destruct (Z.leb_spec k mlc) as [Hk|Hk]; [|split; [constructor|done]].
  assert (k = v) as -> by (by apply (Hfst _ _ eq_refl)).
  destruct (Hent v bl) as (x & -> & Hok & He); [by left|done|].
  pose proof (StronglySorted_inv Hs) as [Hs' _]. destruct (IH (v + 1)) as [Hc Hl].
  - done.
  - intros k Hk'. pose proof (vsorted_head _ _ _ Hs Hk'). cbn in *. lia.
  - intros e w' -> He'. assert (v + 1 <= e.1) by (pose proof (vsorted_head _ _ e.1 Hs ltac:(by left)); cbn in *; lia).
    assert (v + 1 ∈ ((v, Some x) :: e :: w').*1) as Hin by (apply (Hnext v); [by left|lia]).
    cbn in Hin. apply elem_of_cons in Hin as [?|Hin]; [lia|]. apply elem_of_cons in Hin as [?|Hin]; [done|].
    pose proof (vsorted_head _ _ _ Hs' Hin). lia.
  - intros a b Ha Hb. assert (b ∈ ((v, Some x) :: w).*1) as Hin by (apply (Hnext a); [by right|lia]).
    cbn in Hin. apply elem_of_cons in Hin as [->|Hin]; [|done]. pose proof (vsorted_head _ _ _ Hs Ha). cbn in *. lia.
  - intros k bl Hin. apply Hent. by right.
  - split; [by constructor|]. intros _. cbn [length]. destruct (Paxos.take_upto mlc w) as [|e t] eqn:Et; [|rewrite <- (Hl ltac:(done)); cbn [length]; lia].
    cbn [length]. destruct (Z.eq_dec v mlc) as [->|Hne]; [lia|]. exfalso.
    assert (v + 1 ∈ ((v, Some x) :: w).*1) as Hin by (apply (Hnext v); [by left|lia]).
    cbn in Hin. apply elem_of_cons in Hin as [?|Hin]; [lia|]. destruct w as [|[k' bl'] w]; [by apply not_elem_of_nil in Hin|].
    cbn in Et, Hin. destruct (Z.leb_spec k' mlc); [done|]. apply elem_of_cons in Hin as [?|Hin]; [lia|].
    pose proof (vsorted_head _ _ _ Hs' Hin). cbn in *. lia.
Qed.

Lemma skip_upto_spec lc w : vsorted w → vsorted (Paxos.skip_upto lc w) ∧
  (∀ e, e ∈ Paxos.skip_upto lc w ↔ e ∈ w ∧ lc < e.1).
Proof.
  induction w as [|e w IH]; intros Hs; [split; [done|]; intros e; cbn; rewrite elem_of_nil; tauto|].
  pose proof (StronglySorted_inv Hs) as [Hs' Hh]. cbn. destruct (Z.leb_spec e.1 lc) as [He|He].
  - destruct (IH Hs') as [H1 H2]. split; [done|]. intros e'. rewrite H2, elem_of_cons. split; [tauto|].
    intros [[->|?] ?]; [lia|done].
  - split; [done|]. intros e'. split; [|tauto]. intros Hin. split; [done|].
    apply elem_of_cons in Hin as [->|Hin]; [done|]. pose proof (proj1 (Forall_forall _ _) Hh e' Hin). cbn in *. lia.
Qed.

(** What a monitor that has committed up to [lc] stores of a message: consecutive
    entries, up to the last one of the message if any. *)
Lemma todo_chain l lc mlc vals : vals_ok l mlc vals → (∀ e w, vals = e :: w → e.1 <= lc + 1) →
  chain l (lc + 1) (Paxos.take_upto mlc (Paxos.skip_upto lc vals)) ∧
  (Paxos.take_upto mlc (Paxos.skip_upto lc vals) ≠ [] →
     lc + Z.of_nat (length (Paxos.take_upto mlc (Paxos.skip_upto lc vals))) = mlc).
Proof.
  intros [] Hfst. destruct (skip_upto_spec lc vals vl_sorted0) as [Hs Hin].
  assert (∀ k, k ∈ (Paxos.skip_upto lc vals).*1 ↔ k ∈ vals.*1 ∧ lc < k) as Hkeys.
  { intros k. rewrite !list_elem_of_fmap. setoid_rewrite Hin. split.
    - intros (e & -> & ? & ?). split; [by exists e|done].
    - intros [(e & -> & ?) ?]. by exists e. }
  destruct (take_chain l mlc (lc + 1) (Paxos.skip_upto lc vals)) as [Hc Hl].
  - done.
  - intros k Hk. apply Hkeys in Hk. lia.
  - intros [k bl] w' E Hle. assert (k ∈ vals.*1 ∧ lc < k) as [Hk Hlt] by (apply Hkeys; rewrite E; by left). cbn in *.
    destruct (Z.eq_dec k (lc + 1)) as [|Hne]; [done|]. exfalso. destruct vals as [|[k0 bl0] vals]; [done|].
    pose proof (Hfst _ _ eq_refl) as Hk0. cbn in Hk0.
    assert (lc + 1 ∈ ((k0, bl0) :: vals).*1) as Hin1.
    { destruct (Z.eq_dec k0 (lc + 1)) as [->|]; [by left|]. apply (vl_next0 k0); [by left|lia]. }
    assert (lc + 1 ∈ (Paxos.skip_upto lc ((k0, bl0) :: vals)).*1) as Hin2 by (apply Hkeys; split; [done|lia]).
    rewrite E in Hin2, Hs. cbn in Hin2. apply elem_of_cons in Hin2 as [?|Hin2]; [lia|].
    pose proof (vsorted_head _ _ _ Hs Hin2). cbn in *. lia.
  - intros a b Ha Hb. apply Hkeys in Ha as [Ha ?]. apply Hkeys. split; [by apply (vl_next0 a)|lia].
  - intros k bl Hk Hle. apply Hin in Hk as [Hk _]. by apply (vl_entry0 k bl).
  - split; [done|]. intros Hne. specialize (Hl Hne). lia.
Qed.

(** ** Sharing committed values *)

Lemma stored_values_in d k v w bl : (w, bl) ∈ Paxos.stored_values d k v ↔
  v <= w < v + Z.of_nat k ∧ versions d !! w = Some bl.
Proof.
  revert v. induction k as [|k IH]; intros v; cbn [Paxos.stored_values].
  { rewrite elem_of_nil. split; [done|lia]. }
  destruct (versions d !! v) as [bl'|] eqn:E; rewrite ?elem_of_cons, IH; split.
  - intros [[= -> ->]|[? ?]]; [split; [lia|done]|split; [lia|done]].
  - intros [? Hw]. destruct (Z.eq_dec w v) as [->|]; [left; congruence|right; split; [lia|done]].
  - intros [? ?]. split; [lia|done].
  - intros [? Hw]. destruct (Z.eq_dec w v) as [->|]; [congruence|split; [lia|done]].
Qed.
Lemma stored_values_sorted d k v : vsorted (Paxos.stored_values d k v).
Proof.
  revert v. induction k as [|k IH]; intros v; cbn [Paxos.stored_values]; [constructor|].
  destruct (versions d !! v) as [bl|]; [|apply IH]. constructor; [apply IH|]. apply Forall_forall. intros [w bl'] Hw.
  apply stored_values_in in Hw. cbn. lia.
Qed.

(** The values shared with a peer that has committed up to [plc]. *)
Lemma shared_vals l d plc : data_ok l d → 0 <= plc < db_last_committed d →
  let vals := Paxos.stored_values d (Z.to_nat (db_last_committed d - plc)) (plc + 1) in
  vals_ok l (db_last_committed d) vals ∧ (∀ e, e ∈ vals → is_Some e.2 ∧ e.1 <= db_last_committed d) ∧
  (∀ v, plc < v → db_first_committed d <= v <= db_last_committed d → v ∈ vals.*1).
Proof.
  intros [] Hp vals. assert (∀ w bl, (w, bl) ∈ vals ↔ plc < w <= db_last_committed d ∧ versions d !! w = Some bl) as Hin.
  { intros w bl. unfold vals. rewrite stored_values_in. split; intros [? ?]; (split; [lia|done]). }
  assert (∀ v, v ∈ vals.*1 ↔ plc < v <= db_last_committed d ∧ is_Some (versions d !! v)) as Hk.
  { intros v. rewrite list_elem_of_fmap. split.
    - intros ([w bl] & -> & H). apply Hin in H as [? ?]. split; [done|by eexists].
    - intros [? [bl ?]]. exists (v, bl). split; [done|]. by apply Hin. }
  split; [split|split].
  - apply stored_values_sorted.
  - intros v bl Hv. apply Hin in Hv as [Hr Hv]. destruct (do_bound0 v bl Hv) as (? & ? & x & -> & ? & Hx). split; [done|].
    intros _. exists x. split; [done|]. split; [done|]. apply Hx. lia.
  - intros v w Hv Hw. apply Hk in Hv as [? [bl Hv]]. apply Hk. destruct (do_bound0 v bl Hv) as (? & ? & _). split; [lia|].
    apply do_present0; lia.
  - intros [w bl] He. apply Hin in He as [? Hv]. destruct (do_bound0 w bl Hv) as (_ & _ & x & -> & _). cbn. split; [by eexists|lia].
  - intros v ? ?. apply Hk. split; [lia|]. apply do_present0; lia.
Qed.
End PaxosData.
