(* ===== verification/PaxosStep.v ===== *)
(** * Handlers and the invariant

    A handler that stops at a failed assertion leaves its store and the messages it
    has sent; so between the writes of a handler the invariant has to hold for a
    monitor that has just gone down ([wk_dead]), and at the end of the handler for one
    that goes on.  [wp] computes what a handler establishes; [dead_step] says what a
    write, a message or a change of the promise must satisfy. *)
From stdpp Require Import gmap.
From S2P Require Import Prelude StdMap MonTypes Consensus Paxos Elector Monitor PaxosInv.

Module PaxosStep.
Import MonTypes Consensus Monitor PaxosInv.

(** Brings the state of a run into the form of its fields. *)
Ltac tidy :=
  cbn [id participating electing_me acked_me leader_acked epoch expire_event state first_committed last_committed
    last_pn accepted_pn accepted_pn_from peer_first_committed peer_last_committed num_last uncommitted_v
    uncommitted_pn uncommitted_value new_value accepted lease_expire acked_lease collect_timeout_event
    accept_timeout_event lease_renew_event lease_ack_timeout_event lease_timeout_event pending_proposal
    pending_finishers committing_finishers trimming plugged rank up store io elector paxos mstate leader quorum
    monmap_epoch clock caps nd out set_participating set_electing_me set_acked_me set_leader_acked set_epoch
    set_expire_event set_state set_first_committed set_last_committed set_last_pn set_accepted_pn
    set_accepted_pn_from set_peer_first_committed set_peer_last_committed set_num_last set_uncommitted_v
    set_uncommitted_pn set_uncommitted_value set_new_value set_accepted set_lease_expire set_acked_lease
    set_collect_timeout_event set_accept_timeout_event set_lease_renew_event set_lease_ack_timeout_event
    set_lease_timeout_event set_pending_proposal set_pending_finishers set_committing_finishers set_trimming
    set_plugged set_rank set_up set_store set_io set_elector set_paxos set_mstate set_leader set_quorum
    set_monmap_epoch set_clock set_caps].

(** Equations between nodes, field by field. *)
Ltac by_fields := tidy; match goal with r : run |- _ => generalize (nd r) end;
  intros [? ? ? ? [] [] ? ? ? ? ? ?]; cbv; reflexivity.

(** ** Weakest preconditions *)

(** [m] ends with [Q], or stops at a failed assertion with [X]. *)
Definition wp {A} (m : M A) (Q : A → run → Prop) (X : run → Prop) (r : run) : Prop :=
  match m r with Done a r' => Q a r' | Abort r' => X r' end.

Lemma wp_mono {A} (m : M A) (Q Q' : A → run → Prop) X X' r :
  wp m Q X r → (∀ a r', Q a r' → Q' a r') → (∀ r', X r' → X' r') → wp m Q' X' r.
Proof. unfold wp. destruct (m r); auto. Qed.
Lemma wp_bind {A B} (m : M A) (f : A → M B) Q X r :
  wp m (λ a r', wp (f a) Q X r') X r → wp (mbind m f) Q X r.
Proof. unfold wp, mbind. by destruct (m r). Qed.
Lemma wp_seq {A B} (m : M A) (f : A → M B) P Q X r :
  wp m P X r → (∀ a r', P a r' → wp (f a) Q X r') → wp (mbind m f) Q X r.
Proof. intros H1 H2. apply wp_bind. by eapply wp_mono; [exact H1|exact H2|]. Qed.
Lemma wp_assoc {A B C} (m : M A) (f : A → M B) (g : B → M C) Q X r :
  wp (mbind (mbind m f) g) Q X r → wp (mbind m (λ a, mbind (f a) g)) Q X r.
Proof. unfold wp, mbind. by destruct (m r). Qed.
Lemma wp_ret {A} (a : A) (Q : A → run → Prop) X r : Q a r → wp (ret a) Q X r.
Proof. done. Qed.
Lemma wp_get {A B} (g : node → A) (f : A → M B) Q X r : wp (f (g (nd r))) Q X r → wp (mbind (get g) f) Q X r.
Proof. done. Qed.
Lemma wp_massert {B} b (f : unit → M B) Q (X : run → Prop) r :
  X r → (b = true → wp (f tt) Q X r) → wp (mbind (massert b) f) Q X r.
Proof. destruct b; intros HX H; [by apply H|done]. Qed.
Lemma wp_massert_true {B} b (f : unit → M B) Q (X : run → Prop) r :
  b = true → wp (f tt) Q X r → wp (mbind (massert b) f) Q X r.
Proof. by intros ->. Qed.
Lemma wp_assert b (Q : unit → run → Prop) (X : run → Prop) r : X r → (b = true → Q tt r) → wp (massert b) Q X r.
Proof. destruct b; intros HX H; [by apply H|done]. Qed.
Lemma wp_mod {B} g (f : unit → M B) Q X r : wp (f tt) Q X (mk_run (g (nd r)) (out r)) → wp (mbind (modify g) f) Q X r.
Proof. done. Qed.
Lemma wp_mod_paxos {B} g (f : unit → M B) Q X r :
  wp (f tt) Q X (mk_run (set_paxos (g (paxos (nd r))) (nd r)) (out r)) → wp (mbind (mod_paxos g) f) Q X r.
Proof. done. Qed.
Lemma wp_bcast {B} l m (f : unit → M B) Q X r :
  wp (f tt) Q X (mk_run (nd r) (out r ++ ((λ p, (p, m)) <$> filter (λ p, p <> rank (nd r)) l))) →
  wp (mbind (bcast l m) f) Q X r.
Proof. done. Qed.
Lemma wp_when {B} b m (f : unit → M B) P Q X r :
  (b = true → wp m P X r) → (b = false → P tt r) → (∀ r', P tt r' → wp (f tt) Q X r') →
  wp (mbind (when b m) f) Q X r.
Proof.
  intros H1 H2 H3. destruct b; cbn [when].
  - eapply wp_seq; [by apply H1|]. intros [] r' H. by apply H3.
  - apply wp_bind, wp_ret, H3. by apply H2.
Qed.

(** ** What a step may add to the ghost state

    [a] is the promise of [j] after the step and [d] the highest number it had used
    before. *)
Record gext (j a d : Z) (G G' : ghost) : Prop := {
  gx_began b v x : began G b v = Some x → began G' b v = Some x;
  gx_began_new b v : b mod 100 ≠ j → began G' b v = began G b v;
  gx_voted n b v : voted G n b v → voted G' n b v;
  gx_voted_new n c v : voted G' n c v → voted G n c v ∨ n = j ∧ a <= c;
  gx_bquorum b : b mod 100 ≠ j ∨ b <= d → bquorum G' b = bquorum G b;
  gx_counted b : b mod 100 ≠ j → counted G' b = counted G b;
  gx_lquorum k e : k ≠ j → lquorum G' k e = lquorum G k e;
  gx_led e Q : lquorum G j e = Some Q → lquorum G' j e = Some Q;
  gx_log : log G `prefix_of` log G'
}.

Lemma gext_refl j a d G : gext j a d G G.
Proof. split; try done. by left. Qed.
Lemma gext_vote j a d b v G : a <= b → gext j a d G (add_vote j b v G).
Proof.
  intros Ha. split; try done.
  - intros n c w ?. by left.
  - intros n c w [?|(-> & -> & ->)]; [by left|by right].
Qed.
Lemma gext_began j a d b v x G : b mod 100 = j → began G b v = None → gext j a d G (add_began b v x G).
Proof.
  intros Hb Hn. split; try done.
  - intros c w y Hy. cbn. destruct ((c =? b) && (w =? v)) eqn:E; [|done]. apply andb_true_iff in E as [? ?]. zb. congruence.
  - intros c w Hc. cbn. destruct (c =? b) eqn:E; [zb; congruence|done].
  - by left.
Qed.
Lemma gext_log j a d x G : gext j a d G (add_log x G).
Proof. split; try done; [by left|]. by apply prefix_app_r. Qed.
Lemma gext_ballot j a d b Q S G : b mod 100 = j → d < b → gext j a d G (set_ballot b Q S G).
Proof.
  intros Hb Hd. split; try done.
  - by left.
  - intros c [Hc|Hc]; cbn; destruct (c =? b) eqn:E; zb; [congruence|done|lia|done].
  - intros c Hc. cbn. destruct (c =? b) eqn:E; zb; [congruence|done].
Qed.
Lemma gext_set_counted j a d b S G : b mod 100 = j → gext j a d G (set_counted b S G).
Proof.
  intros Hb. split; try done; [by left|].
  intros c Hc. cbn. destruct (c =? b) eqn:E; zb; [congruence|done].
Qed.
Lemma gext_add_led j a d e Q G : lquorum G j e = None → gext j a d G (add_led j e Q G).
Proof.
  intros Hn. split; try done.
  - by left.
  - intros k f Hk. cbn. by rewrite (proj2 (Z.eqb_neq _ _)).
  - intros f R HR. cbn. destruct ((j =? j) && (f =? e)) eqn:E; [|done]. apply andb_true_iff in E as [_ ?]. zb. congruence.
Qed.
Lemma gext_trans j a d G1 G2 G3 : gext j a d G1 G2 → gext j a d G2 G3 → gext j a d G1 G3.
Proof.
  intros [] []. split; try (intros; by eauto).
  - intros b v Hb. by rewrite gx_began_new1, gx_began_new0.
  - intros n c v Hv. destruct (gx_voted_new1 n c v Hv) as [?|?]; [by apply gx_voted_new0|by right].
  - intros b Hb. by rewrite gx_bquorum1, gx_bquorum0.
  - intros b Hb. by rewrite gx_counted1, gx_counted0.
  - intros k e Hk. by rewrite gx_lquorum1, gx_lquorum0.
  - by etrans.
Qed.

(** ** A monitor at work *)

(** The monitor has just gone down. *)
Definition kill (r : run) : run := mk_run (set_up false (nd r)) (out r).

Section Node.
Context (cf : config) (s : sys) (i : Z) (Hi : ids cf i).
Abbreviation N := (mon_count cf).
Implicit Types (G : ghost) (r : run).

Lemma acc_here r : acc (view s i r) i = accepted_pn (paxos (nd r)).
Proof. unfold acc. by rewrite view_here. Qed.
Lemma dpn_here r : dpn (view s i r) i = db_last_pn (store (nd r)).
Proof. unfold dpn. by rewrite view_here. Qed.
Lemma dlc_here r : dlc (view s i r) i = db_last_committed (store (nd r)).
Proof. unfold dlc. by rewrite view_here. Qed.
Lemma acc_there r k : k ≠ i → acc (view s i r) k = acc s k.
Proof. intros Hk. unfold acc. by rewrite view_there. Qed.
Lemma dpn_there r k : k ≠ i → dpn (view s i r) k = dpn s k.
Proof. intros Hk. unfold dpn. by rewrite view_there. Qed.
Lemma dlc_there r k : k ≠ i → dlc (view s i r) k = dlc s k.
Proof. intros Hk. unfold dlc. by rewrite view_there. Qed.
Lemma acc_kill r k : acc (view s i (kill r)) k = acc (view s i r) k.
Proof. destruct (Z.eq_dec k i) as [->|Hk]; [by rewrite !acc_here|by rewrite !acc_there]. Qed.
Lemma dpn_kill r k : dpn (view s i (kill r)) k = dpn (view s i r) k.
Proof. destruct (Z.eq_dec k i) as [->|Hk]; [by rewrite !dpn_here|by rewrite !dpn_there]. Qed.
Lemma dlc_kill r k : dlc (view s i (kill r)) k = dlc (view s i r) k.
Proof. destruct (Z.eq_dec k i) as [->|Hk]; [by rewrite !dlc_here|by rewrite !dlc_there]. Qed.
Lemma net_kill r : net (view s i (kill r)) = net (view s i r).
Proof. done. Qed.
Lemma net_here r p : net (view s i r) i p = net s i p ++ msgs_to p (out r).
Proof. by rewrite view_net, Z.eqb_refl. Qed.
Lemma net_there r p : p ≠ i → net (view s i r) p i = net s p i.
Proof. apply view_net_other. Qed.

Lemma elem_msgs_to (b : Z) (m : message) ms : m ∈ msgs_to b ms ↔ (b, m) ∈ ms.
Proof.
  unfold msgs_to. rewrite list_elem_of_fmap. split.
  - intros ([b' m'] & -> & [Hb Hm]%list_elem_of_filter). cbn in *. by subst b'.
  - intros Hm. exists (b, m). split; [done|]. by apply list_elem_of_filter.
Qed.

(** What a step of the monitor has to satisfy for the invariant to hold should it go
    down. *)
Lemma dead_step G G' r r' new : inv cf G (view s i (kill r)) → out r' = out r ++ new →
  gext i (accepted_pn (paxos (nd r'))) (db_last_pn (store (nd r))) G G' →
  accepted_pn (paxos (nd r)) <= accepted_pn (paxos (nd r')) →
  db_last_committed (store (nd r)) <= db_last_committed (store (nd r')) →
  db_last_pn (store (nd r)) <= db_last_pn (store (nd r')) →
  (∀ b m, (b, m) ∈ new → ids cf b ∧ b ≠ i ∧ msg_ok cf G' (view s i r') i b m) →
  (∀ b, pns OP_COLLECT (msgs_to b new) = [] ∨
    ∃ c, pns OP_COLLECT (msgs_to b new) = [c] ∧ db_last_pn (store (nd r)) < c) →
  (∀ b, b ≠ i → up (nodes s b) = true → mstate (nodes s b) = STATE_LEADER →
     leads cf G (view s i (kill r)) b (nodes s b) → i ∈ quorum (nodes s b) →
     link G i (nodes s b) (net s b i) (net s i b ++ msgs_to b (out r)) →
     link G' i (nodes s b) (net s b i) ((net s i b ++ msgs_to b (out r)) ++ msgs_to b new)) →
  (accepted_pn (paxos (nd r')) = accepted_pn (paxos (nd r)) ∨
   ∀ a c, c ∈ pns OP_COLLECT (net s a i) → a ≠ i →
     accepted_pn (paxos (nd r')) mod 100 = a → accepted_pn (paxos (nd r')) < c) →
  (∀ b v, is_Some (began G' b v) → b mod 100 = i → b <= db_last_pn (store (nd r'))) →
  (accepted_pn (paxos (nd r')) = accepted_pn (paxos (nd r)) ∨
   ids cf (accepted_pn (paxos (nd r')) mod 100) ∧
     accepted_pn (paxos (nd r')) <= dpn (view s i r') (accepted_pn (paxos (nd r')) mod 100)) →
  votes_ok N G' (acc (view s i r')) → node_d cf G' i (nd r') → inv cf G' (view s i (kill r')).
Proof.
  intros HI Hout [] Ha Hl Hp Hnew Hcol Hlink Hacc Hbeg Hpn Hvo Hnd.
  assert (frame i G (view s i (kill r)) G' (view s i (kill r'))) as Hf.
  { split; try done; rewrite ?acc_kill, ?dlc_kill, ?dpn_kill, ?acc_here, ?dlc_here, ?dpn_here; try done.
    - intros k Hk. by rewrite !view_there.
    - intros a b Hne. by rewrite !view_net_other. }
  apply (frame_inv cf i G (view s i (kill r)) G' (view s i (kill r')) Hf);
    rewrite ?acc_kill, ?dlc_kill, ?dpn_kill, ?acc_here, ?dlc_here, ?dpn_here, ?view_here; try done.
  - intros b. exists (msgs_to b new). rewrite !net_here. cbn [out kill]. rewrite Hout, msgs_to_app, app_assoc. split; [done|].
    split; [|split; [done|]].
    + intros m Hm%elem_msgs_to. destruct (Hnew b m Hm) as (? & ? & Hok). repeat (split; [done|]).
      destruct m as [m|m]; [done|]. cbn in Hok |- *. destruct (p_op m); try done.
      * unfold collect_ok. by rewrite dpn_kill, dlc_kill.
      * destruct Hok. split; rewrite ?acc_kill, ?dlc_kill, ?dpn_kill; done.
    + intros n -> Hb. rewrite view_there by done. rewrite !net_there by done. intros Hup Hmst Hlead Hq Hk. by apply Hlink.
  - destruct Hacc as [E|H]; [by left|right]. intros a c Hc Hne. rewrite net_there in Hc by done. by apply H.
  - destruct Hpn as [E|H]; [|done].
    destruct (iv_acc _ _ _ HI i Hi) as [H1 H2]. rewrite acc_kill, acc_here, <- E in H1, H2.
    split; [done|]. etrans; [exact H2|]. rewrite <- (dpn_kill r'). apply (fr_dpn_all _ _ _ _ _ Hf).
  - eapply votes_acc; [|exact Hvo]. intros n. by rewrite acc_kill.
  - destruct Hnd. by split.
Qed.

(** ** Messages that answer nothing *)

Definition quiet (m : message) : Prop :=
  pn_of OP_COLLECT m = None ∧ pn_of OP_LAST m = None ∧ pn_of OP_ACCEPT m = None.

Lemma pns_empty o l : (∀ m, m ∈ l → pn_of o m = None) → pns o l = [].
Proof.
  unfold pns. induction l as [|m l IH]; intros H; [done|]. cbn. rewrite (H m) by left.
  apply IH. intros m' Hm'. apply H. by right.
Qed.
Lemma tokens_in o b l m : m ∈ l → pn_of o m = Some b → (1 <= tokens o b l)%nat.
Proof.
  intros Hm Hp. apply list_elem_of_split in Hm as (l1 & l2 & ->). rewrite tokens_app. unfold tokens at 2, pns. cbn. rewrite Hp.
  rewrite filter_cons_True by done. cbn. lia.
Qed.

Lemma node_d_same G n n' : node_d cf G i n → rank n' = rank n → store n' = store n →
  accepted_pn (paxos n') = accepted_pn (paxos n) → node_d cf G i n'.
Proof. intros [] E1 E2 E3. split; rewrite ?E1, ?E2, ?E3; done. Qed.

Lemma dead_quiet G r r' new : inv cf G (view s i (kill r)) → out r' = out r ++ new → rank (nd r') = rank (nd r) →
  store (nd r') = store (nd r) → accepted_pn (paxos (nd r')) = accepted_pn (paxos (nd r)) →
  (∀ b m, (b, m) ∈ new → quiet m ∧ ids cf b ∧ b ≠ i ∧ msg_ok cf G (view s i r') i b m) →
  inv cf G (view s i (kill r')).
Proof.
  intros HI Hout Er Es Ea Hnew. apply (dead_step G G r r' new); rewrite ?Es, ?Ea; try done.
  - apply gext_refl.
  - intros b m Hm. by apply Hnew.
  - intros b. left. apply pns_empty. intros m Hm%elem_msgs_to. by apply (Hnew b m).
  - intros b Hb _ _ Hl Hq Hk. apply (link_out G); try done; apply pns_empty; intros m Hm%elem_msgs_to; by apply (Hnew b m).
  - by left.
  - intros b v Hb Hm. destruct (iv_began _ _ _ HI b v Hb) as [_ H]. by rewrite Hm, dpn_kill, dpn_here in H.
  - by left.
  - eapply votes_acc; [|apply HI]. intros n. rewrite acc_kill. destruct (Z.eq_dec n i) as [->|Hn].
    + by rewrite !acc_here, Ea.
    + by rewrite !acc_there.
  - pose proof (iv_node _ _ _ HI i Hi) as H. rewrite view_here in H. by eapply node_d_same; [exact H|..].
Qed.

(** Only the memory of the monitor changes. *)
Lemma inv_swap G r r' : inv cf G (view s i r) → out r' = out r → rank (nd r') = rank (nd r) →
  store (nd r') = store (nd r) → accepted_pn (paxos (nd r')) = accepted_pn (paxos (nd r)) →
  (up (nd r') = true → node_v cf G (view s i r') i (nd r') ∧ role_ok G i (nd r')) → inv cf G (view s i r').
Proof.
  intros HI Hout Er Es Ea Hv.
  assert (∀ k, acc (view s i r') k = acc (view s i r) k) as Hacc.
  { intros k. destruct (Z.eq_dec k i) as [->|Hk]; [by rewrite !acc_here|by rewrite !acc_there]. }
  assert (frame i G (view s i r) G (view s i r')) as Hf.
  { split; try done; rewrite ?Hacc, ?dlc_here, ?dpn_here, ?Es; try done.
    - intros k Hk. by rewrite !view_there.
    - by left.
    - intros a b Hne. by rewrite !view_net_other. }
  apply (frame_inv cf i G (view s i r) G (view s i r') Hf); rewrite ?Hacc, ?view_here; try done.
  - intros b. exists []. rewrite app_nil_r, !net_here, Hout. split; [done|]. split; [by intros m ?%not_elem_of_nil|].
    split; [by left|]. intros n Hn Hb _ _ _ _. by rewrite !net_there.
  - by left.
  - intros b v Hb Hm. destruct (iv_began _ _ _ HI b v Hb) as [_ H]. rewrite Hm, dpn_here in H. by rewrite dpn_here, Es.
  - destruct (iv_acc _ _ _ HI i Hi) as [H1 H2]. split; [done|]. etrans; [exact H2|]. apply (fr_dpn_all _ _ _ _ _ Hf).
  - eapply votes_acc; [|apply HI]. intros n. by rewrite Hacc.
  - pose proof (iv_node _ _ _ HI i Hi) as H. rewrite view_here in H. by eapply node_d_same; [exact H|..].
  - intros Hu. by apply Hv.
  - intros Hu. by apply Hv.
Qed.

(** The links of a leader to its quorum when it goes on. *)
Lemma link_keep G G' p n n' into from new : link G p n into from →
  accepted_pn (paxos n') = accepted_pn (paxos n) →
  counted G' (accepted_pn (paxos n)) = counted G (accepted_pn (paxos n)) →
  (updating (paxos n) → p ∉ accepted (paxos n) → updating (paxos n') ∧ (p ∉ accepted (paxos n')) ∧
    last_committed (paxos n') = last_committed (paxos n)) →
  pns OP_COLLECT new = [] → pns OP_BEGIN new = [] → link G' p n' (into ++ new) from.
Proof.
  intros [] Ea Ec Hu HC HB.
  split; rewrite ?Ea, ?Ec, ?pns_app, ?HC, ?tokens_app, ?(tokens_nil OP_BEGIN _ new HB), ?app_nil_r; try done.
  - destruct (decide (updating (paxos n) ∧ _)) as [[? ?]|_]; [|lia].
    rewrite decide_True by (by destruct (Hu) as (? & ? & _)). lia.
  - intros m Hm. assert (m ∈ into ∧ pn_of OP_BEGIN m = Some (accepted_pn (paxos n)) ∨
        m ∈ from ∧ pn_of OP_ACCEPT m = Some (accepted_pn (paxos n))) as Hm'.
    { destruct Hm as [[[Hm|Hm]%elem_of_app Hb]|Hm]; [by left| |by right]. exfalso. exact (pns_none _ _ _ _ HB Hm Hb). }
    destruct (decide (updating (paxos n) ∧ _)) as [[H1 H2]|_].
    { destruct (Hu H1 H2) as (_ & _ & ->). by apply ln_round0. }
    exfalso. destruct Hm' as [[Hm' Hb]|[Hm' Hb]]; pose proof (tokens_in _ _ _ _ Hm' Hb); lia.
Qed.

Lemma leads_keep G G' r r' new : leads cf G (view s i r) i (nd r) → out r' = out r ++ new →
  accepted_pn (paxos (nd r')) = accepted_pn (paxos (nd r)) → db_last_pn (store (nd r')) = db_last_pn (store (nd r)) →
  quorum (nd r') = quorum (nd r) →
  counted G' (accepted_pn (paxos (nd r))) = counted G (accepted_pn (paxos (nd r))) →
  bquorum G' (accepted_pn (paxos (nd r))) = bquorum G (accepted_pn (paxos (nd r))) →
  (∀ p, p ∈ quorum (nd r) → p ≠ i → updating (paxos (nd r)) → p ∉ accepted (paxos (nd r)) →
    updating (paxos (nd r')) ∧ (p ∉ accepted (paxos (nd r'))) ∧
    last_committed (paxos (nd r')) = last_committed (paxos (nd r))) →
  (∀ b m, (b, m) ∈ new → pn_of OP_COLLECT m = None ∧ pn_of OP_BEGIN m = None) →
  leads cf G' (view s i r') i (nd r').
Proof.
  intros [] Hout Ea Ed Eq Ec Eb Hu Hnew. split; rewrite ?Ea, ?Ed, ?Eq, ?Ec, ?Eb; try done.
  - intros m Hm. etrans; [by apply ld_promised0|]. destruct (Z.eq_dec m i) as [->|Hne].
    + by rewrite !acc_here, Ea.
    + by rewrite !acc_there.
  - intros p Hp Hpi. specialize (ld_link0 p Hp Hpi). rewrite net_there, net_here in * by done.
    rewrite Hout, msgs_to_app, app_assoc. eapply link_keep; [exact ld_link0|done|done|by apply Hu|..].
    + apply pns_empty. intros m Hm%elem_msgs_to. by apply (Hnew p m).
    + apply pns_empty. intros m Hm%elem_msgs_to. by apply (Hnew p m).
Qed.

(** ** What a handler maintains

    [l0] is a part of the log, [L] the quorums the monitor has led, and [R] says
    whether its role fits the election epoch, which it does not while it moves to
    another. *)
(** Forgets what does not matter here: timers, leases, completions. *)
Definition norm (n : node) : node :=
  let p := paxos n in
  let e := elector n in
  mk_node (rank n) (up n) (store n) (io n) (mk_elector true (electing_me e) (acked_me e) 0 (epoch e) false)
    (mk_paxos (state p) (first_committed p) (last_committed p) (last_pn p) (accepted_pn p) 0 [] (peer_last_committed p)
       (num_last p) (uncommitted_v p) (uncommitted_pn p) (uncommitted_value p) (new_value p) (accepted p) 0 ∅
       false false false false false (pending_proposal p) [] [] false false)
    (mstate n) 0 (quorum n) 0 0 (mk_features 0 0 0 0).

Section Handler.
Context (l0 : list value) (L : Z → option (gset Z)) (R : Prop).

Record wk G r : Prop := {
  wk_up : up (nd r) = true;
  wk_log : l0 `prefix_of` log G;
  wk_lc : dlc s i <= db_last_committed (store (nd r));
  wk_led e : lquorum G i e = L e;
  wk_dead : inv cf G (view s i (kill r));
  wk_role : R → role_ok G i (nd r);
  wk_core : core cf G (view s i r) i (nd r)
}.
Record st G r : Prop := {
  st_wk : wk G r;
  st_phase : mstate (nd r) = STATE_LEADER → phase G i (nd r)
}.
(** The state of a monitor that stops at a failed assertion. *)
Definition dead r : Prop :=
  ∃ G, l0 `prefix_of` log G ∧ dlc s i <= db_last_committed (store (nd r)) ∧ inv cf G (view s i (kill r)).

Lemma wk_is_dead G r : wk G r → dead r.
Proof. intros []. by exists G. Qed.

Lemma dead_same G r r' : wk G r → out r' = out r → rank (nd r') = rank (nd r) → store (nd r') = store (nd r) →
  accepted_pn (paxos (nd r')) = accepted_pn (paxos (nd r)) → dead r'.
Proof.
  intros [] Eo Er Es Ea. exists G. split; [done|]. split; [by rewrite Es|]. eapply dead_quiet with (new := []); [exact wk_dead0|by rewrite app_nil_r|done|done|done|].
  by intros b m ?%not_elem_of_nil.
Qed.

Lemma wk_node_d G r : wk G r → node_d cf G i (nd r).
Proof.
  intros []. pose proof (iv_node _ _ _ wk_dead0 i Hi) as H. rewrite view_here in H.
  by eapply node_d_same; [exact H|..].
Qed.

Lemma leads_norm G v n : leads cf G v i n ↔ leads cf G v i (norm n).
Proof. split; intros []; split; try done; intros p Hp Hpi; destruct (ld_link0 p Hp Hpi); by split. Qed.
Lemma core_norm G v n : core cf G v i n ↔ core cf G v i (norm n).
Proof. split; intros []; split; try done; intros Hl; specialize (nv_leads0 Hl); by apply leads_norm in nv_leads0. Qed.

(** [n'] differs from [n] in what is not listed. *)
Definition same_base (n n' : node) : Prop :=
  last_pn (paxos n') = last_pn (paxos n) ∧ db_last_pn (store n') = db_last_pn (store n) ∧
  election_epoch (store n') = election_epoch (store n) ∧ epoch (elector n') = epoch (elector n) ∧
  electing_me (elector n') = electing_me (elector n) ∧ acked_me (elector n') = acked_me (elector n) ∧
  peer_last_committed (paxos n') = peer_last_committed (paxos n).
Lemma core_move G G' v v' n n' : core cf G v i n → same_base n n' →
  io_ok n' → (mstate n' ≠ STATE_LEADER → io n' = Idle) →
  (mstate n' = STATE_PEON → updating (paxos n') → accepted_pn (paxos n') mod 100 ≠ i) →
  (∀ x, pending_proposal (paxos n') = Some x → Forall is_service x) →
  (mstate n' = STATE_LEADER → leads cf G' v' i n') → core cf G' v' i n'.
Proof. intros [] (E1 & E2 & E3 & E4 & E5 & E6 & E7). split; rewrite ?E1, ?E2, ?E3, ?E4, ?E5, ?E6, ?E7; done. Qed.

(** The monitor has written nothing and sent messages that answer nothing. *)
Lemma wk_quiet G r r' new : wk G r → out r' = out r ++ new →
  rank (nd r') = rank (nd r) → up (nd r') = up (nd r) → store (nd r') = store (nd r) →
  accepted_pn (paxos (nd r')) = accepted_pn (paxos (nd r)) →
  (∀ b m, (b, m) ∈ new → quiet m ∧ ids cf b ∧ b ≠ i ∧ msg_ok cf G (view s i r') i b m) →
  (R → role_ok G i (nd r')) → core cf G (view s i r') i (nd r') → wk G r'.
Proof. intros [] Eo Er Eu Es Ea Hm Hr Hc. split; try done; [by rewrite Eu|by rewrite Es|by eapply dead_quiet]. Qed.

Lemma wk_lite G r r' new : wk G r → out r' = out r ++ new → norm (nd r') = norm (nd r) →
  (∀ b m, (b, m) ∈ new → quiet m ∧ pn_of OP_BEGIN m = None ∧ ids cf b ∧ b ≠ i ∧ msg_ok cf G (view s i r') i b m) →
  wk G r'.
Proof.
  intros Hw Eo En Hm. assert (∀ A (f : node → A), f (norm (nd r')) = f (norm (nd r))) as Ef by (intros; by rewrite En).
  apply (wk_quiet G r r' new); try done.
  - apply (Ef _ rank).
  - apply (Ef _ up).
  - apply (Ef _ store).
  - apply (Ef _ (λ n, accepted_pn (paxos n))).
  - intros b m Hb. destruct (Hm b m Hb) as (? & _ & ?). done.
  - intros HR. change (role_ok G i (norm (nd r'))). rewrite En. by apply (wk_role _ _ Hw).
  - assert (core cf G (view s i r) i (nd r')) as [] by (apply (proj2 (core_norm _ _ _)); rewrite En; by apply (proj1 (core_norm _ _ _)), Hw).
    split; try done. intros Hl. apply (leads_keep G G r r' new); try done.
    + apply (nv_leads _ _ _ _ _ (wk_core _ _ Hw)). rewrite <- Hl. symmetry. apply (Ef _ mstate).
    + apply (Ef _ (λ n, accepted_pn (paxos n))).
    + apply (Ef _ (λ n, db_last_pn (store n))).
    + apply (Ef _ quorum).
    + intros p _ _ Hu Hp. pose proof (Ef _ (λ n, state (paxos n)) : state (paxos (nd r')) = state (paxos (nd r))) as Est.
      pose proof (Ef _ (λ n, accepted (paxos n)) : accepted (paxos (nd r')) = accepted (paxos (nd r))) as Eac.
      unfold updating. rewrite Est, Eac. split; [done|]. split; [done|]. apply (Ef _ (λ n, last_committed (paxos n))).
    + intros b m Hb. by destruct (Hm b m Hb) as ((? & _) & ? & _).
Qed.

Lemma phase_norm G n n' : norm n' = norm n → phase G i n → phase G i n'.
Proof. intros E H. change (phase G i (norm n')). by rewrite E. Qed.
End Handler.

(** From the system to a handler and back. *)
Lemma st_start G : inv cf G s → up (nodes s i) = true →
  st (log G) (lquorum G i) True G (mk_run (nodes s i) []).
Proof.
  intros HI Hu. pose proof (view_start cf G s i HI) as HV.
  pose proof (iv_up _ _ _ HV i Hi) as Hv. rewrite view_here in Hv. destruct (Hv Hu) as [Hc Hp].
  pose proof (iv_role _ _ _ HV i Hi) as Hr. rewrite view_here in Hr. split; [|done]. split; try done.
  - by eapply inv_swap; [exact HV|..].
  - intros _. by apply Hr.
Qed.

Lemma st_end l0 L G r : st l0 L True G r → inv cf G (view s i r).
Proof.
  intros [[] Hp]. apply (inv_swap G (kill r)); try done. intros _. split; [by split|by apply wk_role0].
Qed.
End Node.
End PaxosStep.
