(* ===== verification/PaxosLead.v ===== *)
(** * A leader at work

    The steps of a leader after it has collected from its quorum: proposing a value,
    committing it, telling the quorum, and going on; and leaving the quorum. *)
From stdpp Require Import gmap.
From S2P Require Import Prelude StdMap MonTypes Consensus Paxos Elector Monitor PaxosInv PaxosData PaxosStep.

Module PaxosLead.
Import MonTypes Consensus Monitor PaxosInv PaxosData PaxosStep.

(** ** Broadcasts *)

Lemma msgs_to_list p k (l : list Z) (m : message) : NoDup l →
  msgs_to p ((λ q, (q, m)) <$> filter (λ q, q <> k) l) = if decide (p ∈ l ∧ p ≠ k) then [m] else [].
Proof.
  unfold msgs_to. induction 1 as [|q l Hq Hl IH]; [rewrite decide_False; [done|intros [H%not_elem_of_nil _]; done]|].
  rewrite filter_cons. destruct (decide (q <> k)) as [Hk|Hk]; cbn [fmap list_fmap].
  - rewrite filter_cons. cbn [fst]. destruct (decide (q = p)) as [->|Hne].
    + cbn [fmap list_fmap]. rewrite IH. rewrite decide_False by (by intros [? _]). rewrite decide_True by (split; [left|done]). done.
    + rewrite IH. destruct (decide (p ∈ l ∧ _)) as [[? ?]|Hd]; [by rewrite decide_True by (split; [by right|done])|].
      rewrite decide_False; [done|]. intros [[?|?]%elem_of_cons ?]; [congruence|]. by apply Hd.
  - rewrite IH. destruct (decide (p ∈ l ∧ _)) as [[? ?]|Hd]; [by rewrite decide_True by (split; [by right|done])|].
    rewrite decide_False; [done|]. intros [[->|?]%elem_of_cons ?]; [done|]. by apply Hd.
Qed.
Lemma msgs_bcast p k (Q : gset Z) (m : message) :
  msgs_to p ((λ q, (q, m)) <$> filter (λ q, q <> k) (elements Q)) = if decide (p ∈ Q ∧ p ≠ k) then [m] else [].
Proof.
  rewrite msgs_to_list by apply NoDup_elements. destruct (decide (p ∈ Q ∧ _)) as [[? ?]|Hd].
  - rewrite decide_True; [done|]. by rewrite elem_of_elements.
  - rewrite decide_False; [done|]. by rewrite elem_of_elements.
Qed.
Lemma elem_bcast b k (l : list Z) (m m' : message) :
  (b, m') ∈ (λ q, (q, m)) <$> filter (λ q, q <> k) l ↔ m' = m ∧ b ∈ l ∧ b ≠ k.
Proof.
  rewrite list_elem_of_fmap. split.
  - intros (q & [= -> ->] & [Hk Hq]%list_elem_of_filter). done.
  - intros (-> & Hb & Hk). exists b. split; [done|]. by apply list_elem_of_filter.
Qed.

Section Lead.
Context (cf : config) (HN : 2 <= mon_count cf <= 100).
Context (s : sys) (i : Z) (Hi : ids cf i).
Context (l0 : list value) (L : Z → option (gset Z)) (R : Prop).
Abbreviation N := (mon_count cf).
Abbreviation wk := (wk cf s i l0 L R).
Abbreviation st := (st cf s i l0 L R).
Abbreviation dead := (dead cf s i l0).
Implicit Types (G : ghost) (r : run).

Lemma wk_rank G r : wk G r → rank (nd r) = i.
Proof. intros Hw. by apply (nd_rank cf G), (wk_node_d cf s i Hi l0 L R). Qed.

Lemma quorum_ids G r : wk G r → mstate (nd r) = STATE_LEADER → ∀ b, b ∈ quorum (nd r) → ids cf b.
Proof.
  intros Hw Hl b Hb. destruct (nv_leads _ _ _ _ _ (wk_core _ _ _ _ _ _ _ _ Hw) Hl).
  destruct ld_quorum0 as (_ & [Hs _] & _). by apply elem_all_ids, Hs.
Qed.
Lemma quorum_size G r : wk G r → mstate (nd r) = STATE_LEADER → (2 <= size (quorum (nd r)))%nat.
Proof.
  intros Hw Hl. destruct (nv_leads _ _ _ _ _ (wk_core _ _ _ _ _ _ _ _ Hw) Hl).
  destruct ld_quorum0 as (_ & [_ Hs] & _). lia.
Qed.

(** Messages to the quorum that need no justification. *)
Lemma extend_lease_ok G r : wk G r → wp (Paxos.extend_lease cf) (λ _ r', wk G r' ∧ norm (nd r') = norm (nd r)) dead r.
Proof.
  intros Hw. unfold Paxos.extend_lease. apply wp_get, wp_massert; [by eapply wk_is_dead|]. intros Hl%bool_decide_eq_true.
  unfold wp. cbn -[msg_ok]. split; [|done]. eapply (wk_lite cf s i Hi); [exact Hw|reflexivity|done|].
  intros b m (-> & Hb & Hne)%elem_bcast. cbn in Hne. rewrite (wk_rank _ _ Hw) in Hne.
  split; [done|]. split; [done|]. split; [|done]. eapply quorum_ids; [done|done|by apply elem_of_elements].
Qed.

(** ** Leaving a quorum *)

(** What a monitor that leaves keeps. *)
Definition kept (n : node) : node :=
  norm (set_quorum ∅ (set_mstate STATE_PROBING (set_paxos (set_state STATE_RECOVERING
    (set_new_value None (set_pending_proposal None (paxos n)))) n))).

Lemma leave_ok G r r' : wk G r → io (nd r) = Idle → out r' = out r →
  mstate (nd r') ≠ STATE_LEADER → (mstate (nd r') = STATE_PEON → ¬ updating (paxos (nd r'))) → pending_proposal (paxos (nd r')) = None →
  kept (nd r') = kept (nd r) → st G r'.
Proof.
  intros Hw Hio Eo Hl Hp Hn E.
  assert (∀ A (f : node → A), f (kept (nd r')) = f (kept (nd r))) as Ef by (intros; by rewrite E).
  assert (io (nd r') = Idle) as Hio' by (rewrite <- Hio; apply (Ef _ io)). split; [|done].
  apply (wk_quiet cf s i Hi l0 L R G r r' []); try done.
  - by rewrite app_nil_r.
  - apply (Ef _ rank).
  - apply (Ef _ up).
  - apply (Ef _ store).
  - apply (Ef _ (λ n, accepted_pn (paxos n))).
  - by intros b m ?%not_elem_of_nil.
  - intros HR. split; [done|]. change (electing_me (elector (kept (nd r'))) = true → epoch (elector (kept (nd r'))) mod 2 = 1).
    rewrite E. by apply (wk_role _ _ _ _ _ _ _ _ Hw HR).
  - destruct (wk_core _ _ _ _ _ _ _ _ Hw). split; try done.
    + rewrite (Ef _ (λ n, last_pn (paxos n)) : last_pn (paxos (nd r')) = last_pn (paxos (nd r))).
      by rewrite (Ef _ (λ n, db_last_pn (store n)) : db_last_pn (store (nd r')) = db_last_pn (store (nd r))).
    + by change (match kept (nd r') with n => 0 <= election_epoch (store n) ∧
        epoch (elector n) = if election_epoch (store n) =? 0 then 1 else election_epoch (store n) end); rewrite E.
    + unfold io_ok in *. rewrite Hio'. rewrite Hio in nv_io0.
      by change (match kept (nd r') with n => last_committed (paxos n) = db_last_committed (store n) ∧
        first_committed (paxos n) = db_first_committed (store n) end); rewrite E.
    + intros Hpe Hu. by destruct (Hp Hpe).
    + intros x. by rewrite Hn.
    + by change (Forall (λ e : Z * Z, ids cf e.1 ∧ e.1 ≠ i ∧ 0 <= e.2) (peer_last_committed (paxos (kept (nd r'))))); rewrite E.
    + by change (match elector (kept (nd r')) with e => Forall (ids cf) (acked_me e).*1 ∧ StronglySorted Z.lt (acked_me e).*1 ∧
        (electing_me e = true → i ∈ (acked_me e).*1) end); rewrite E.
Qed.

Lemma bootstrap_now_ok G r : wk G r → io (nd r) = Idle →
  wp bootstrap_now (λ _ r', st G r' ∧ mstate (nd r') = STATE_PROBING ∧ io (nd r') = Idle) dead r.
Proof.
  intros Hw Hio. unfold wp. cbn. split; [|done].
  eapply leave_ok; [exact Hw|done|done|done|done|..]; unfold kept, Paxos.finish_pending, Paxos.finish_committing, Paxos.finish_contexts;
    cbn; by repeat (destruct (existsb _ _); cbn).
Qed.

(** The monitor has left its quorum. *)
Definition gone r : Prop := ∃ G, st G r ∧ mstate (nd r) = STATE_PROBING ∧ io (nd r) = Idle.
(** What the handlers of Paxos expect of [bootstrap]. *)
Definition boot_ok (bs : M unit) : Prop := ∀ G r, st G r → io (nd r) = Idle → wp bs (λ _ r', gone r') dead r.

Lemma wk_idle G r : wk G r → ¬ writing (paxos (nd r)) → io (nd r) = Idle.
Proof.
  intros Hw Hn. pose proof (nv_io _ _ _ _ _ (wk_core _ _ _ _ _ _ _ _ Hw)) as H. unfold io_ok in H.
  destruct (io (nd r)); [done|by destruct H as (_ & _ & ? & _)|by destruct H as (_ & ?)].
Qed.

Lemma boot_now_ok : boot_ok bootstrap_now.
Proof.
  intros G r [Hw _] Hn. eapply wp_mono; [by apply (bootstrap_now_ok G r Hw)|intros [] r' H; by exists G|done].
Qed.

Lemma do_refresh_ok bs G r : boot_ok bs → st G r → io (nd r) = Idle →
  wp (Paxos.do_refresh cf bs) (λ b r', if b then r' = r else gone r') dead r.
Proof.
  intros Hb Hs Hn. unfold Paxos.do_refresh. apply wp_get. destruct (needs_bootstrap cf _); [|done].
  eapply wp_seq; [by eapply Hb|]. intros [] r' H. by apply wp_ret.
Qed.

(** ** Proposing *)

Lemma put_version_data l d v b x : data_ok l d → v = db_last_committed d + 1 → value_ok l v x →
  data_ok l (apply_ops d [PutVersion v (Some x); Put PendingV v; Put PendingPn b]).
Proof.
  intros [] -> Hx. split; cbn; try done.
  - intros w bl. destruct (decide (w = db_last_committed d + 1)) as [->|Hne].
    + rewrite lookup_insert_eq. intros [= <-]. split; [lia|]. split; [lia|]. exists x. split; [done|]. split; [done|lia].
    + rewrite lookup_insert_ne by done. apply do_bound0.
  - intros w Hw Hr. rewrite lookup_insert_ne by lia. by apply do_present0.
Qed.

Lemma node_d_vote G G' n n' b v x : node_d cf G i n → rank n' = rank n →
  accepted_pn (paxos n') = accepted_pn (paxos n) →
  store n' = apply_ops (store n) [PutVersion v (Some x); Put PendingV v; Put PendingPn b] →
  v = db_last_committed (store n) + 1 → value_ok (log G) v x → log G' = log G →
  (∀ e, lquorum G' i e = lquorum G i e) → (∀ c w, voted G' i c w ↔ voted G i c w ∨ c = b ∧ w = v) →
  began G' b v = Some x → (∀ c w, voted G i c w → c <= b) → node_d cf G' i n'.
Proof.
  intros [] Er Ea Es Hv Hx Hl Hq Hvo Hb Hc. split; rewrite ?Er, ?Ea, ?Es, ?Hl; try done.
  - by apply put_version_data.
  - cbn. rewrite <- Hv, lookup_insert_eq. intros y [= <-]. split; [done|]. split; [|done]. apply Hvo. by right.
  - cbn. intros c w [Hw|[-> ->]]%Hvo.
    + destruct (nd_votes0 c w Hw) as [?|(-> & _ & _)]; [by left|right]. split; [done|]. rewrite <- Hv, lookup_insert_eq.
      split; [done|by eapply Hc].
    + right. split; [done|]. by rewrite lookup_insert_eq.
  - intros e Q. rewrite Hq. apply nd_led0.
Qed.

(** Votes are under numbers that were promised. *)
Lemma voted_below G r c v : wk G r → voted G i c v → c <= accepted_pn (paxos (nd r)).
Proof.
  intros Hw Hv. pose proof (iv_votes _ _ _ (wk_dead _ _ _ _ _ _ _ _ Hw)) as [].
  destruct (vo_voted0 i c v Hv) as [[x Hx] Hq]. destruct (vo_quorum0 c v x Hx) as [_ H]. specialize (H i Hq).
  by rewrite acc_kill, acc_here in H.
Qed.

(** Nothing is under way between the leader and its quorum. *)
Definition calm G r : Prop := ∀ p, p ∈ quorum (nd r) → p ≠ i →
  tokens OP_BEGIN (accepted_pn (paxos (nd r))) (net (view s i r) i p) = 0%nat ∧
  tokens OP_ACCEPT (accepted_pn (paxos (nd r))) (net (view s i r) p i) = 0%nat.

Lemma calm_start G r : wk G r → mstate (nd r) = STATE_LEADER →
  (∀ p, p ∈ quorum (nd r) → updating (paxos (nd r)) → p ∈ accepted (paxos (nd r))) → calm G r.
Proof.
  intros Hw Hl Hu p Hp Hpi. destruct (nv_leads _ _ _ _ _ (wk_core _ _ _ _ _ _ _ _ Hw) Hl).
  destruct (ld_link0 p Hp Hpi). rewrite decide_False in ln_tokens0 by (intros [? H]; apply H; by apply Hu). lia.
Qed.

(** The value as it is written: the first one also sets the first version. *)
Definition wrap (lc : Z) (x : value) : value := if lc =? 0 then OpFirst 1 :: x else x.

(** What a leader knows when it proposes [x]. *)
Record can_begin G r (x : value) : Prop := {
  cb_leader : mstate (nd r) = STATE_LEADER;
  cb_io : io (nd r) = Idle;
  cb_counted : counted G (accepted_pn (paxos (nd r))) = quorum (nd r);
  cb_settled : settled G (quorum (nd r)) (accepted_pn (paxos (nd r))) (last_committed (paxos (nd r)) + 1);
  cb_began v : is_Some (began G (accepted_pn (paxos (nd r))) v) → v <= last_committed (paxos (nd r));
  cb_calm : calm G r;
  cb_value : value_ok (log G) (last_committed (paxos (nd r)) + 1) (wrap (last_committed (paxos (nd r))) x);
  cb_safe c : c < accepted_pn (paxos (nd r)) → no_other N G (acc (view s i r)) c
    (last_committed (paxos (nd r)) + 1) (wrap (last_committed (paxos (nd r))) x)
}.

Section Begin.
Context (G : ghost) (r : run) (x : value) (Hw : wk G r) (Hc : can_begin G r x).
Let b : Z := accepted_pn (paxos (nd r)).
Let v : Z := last_committed (paxos (nd r)) + 1.
Let y : value := wrap (last_committed (paxos (nd r))) x.
Let G' : ghost := add_vote i b v (add_began b v y G).

Lemma begin_none : began G b v = None.
Proof. destruct (began G b v) eqn:E; [|done]. destruct Hc. assert (v <= last_committed (paxos (nd r))) by (apply cb_began0; eauto). lia. Qed.

Lemma begin_version : v = db_last_committed (store (nd r)) + 1.
Proof.
  destruct Hc. pose proof (nv_io _ _ _ _ _ (wk_core _ _ _ _ _ _ _ _ Hw)) as H. unfold io_ok in H. rewrite cb_io0 in H.
  unfold v. lia.
Qed.

Lemma begin_votes : votes_ok N G' (acc (view s i r)).
Proof.
  destruct Hc. destruct (nv_leads _ _ _ _ _ (wk_core _ _ _ _ _ _ _ _ Hw) cb_leader0). destruct ld_quorum0 as (Eq & Hm & Hin).
  pose proof (iv_votes _ _ _ (wk_dead _ _ _ _ _ _ _ _ Hw)) as Hvo.
  assert (votes_ok N G (acc (view s i r))) as Hvo' by (eapply votes_acc; [|exact Hvo]; intros; by rewrite acc_kill).
  apply votes_vote.
  - cbn. rewrite !Z.eqb_refl. by eexists.
  - cbn. unfold b. by rewrite <- Eq.
  - by rewrite acc_here.
  - apply votes_begin; try done.
    + apply begin_none.
    + unfold b. by rewrite <- Eq.
    + intros n Hn. unfold b in *. rewrite <- Eq, <- cb_counted0 in Hn. by apply ld_promised0.
    + apply ld_pn0.
    + rewrite begin_version. destruct (nd_data _ _ _ _ (wk_node_d cf s i Hi l0 L R _ _ Hw)). lia.
Qed.

Lemma begin_dead r1 : out r1 = out r → rank (nd r1) = rank (nd r) →
  accepted_pn (paxos (nd r1)) = b →
  store (nd r1) = apply_ops (store (nd r)) [PutVersion v (Some y); Put PendingV v; Put PendingPn b] →
  inv cf G' (view s i (kill r1)).
Proof.
  intros Eo Er Ea Es. pose proof (wk_dead _ _ _ _ _ _ _ _ Hw) as HI. destruct Hc.
  destruct (nv_leads _ _ _ _ _ (wk_core _ _ _ _ _ _ _ _ Hw) cb_leader0). destruct ld_pn0 as (Hm & Hd & Hpos).
  apply (dead_step cf s i Hi G G' r r1 []); rewrite ?Ea, ?Es; try done.
  - by rewrite app_nil_r.
  - eapply gext_trans; [by apply gext_began, begin_none|]. by apply gext_vote.
  - by intros ? m ?%not_elem_of_nil.
  - by left.
  - intros p _ _ _ _ _ Hk. by apply (link_out G).
  - by left.
  - intros c w Hs Hci. cbn in Hs. destruct (c =? b) eqn:E; [zb; cbn; unfold b in *; lia|]. cbn in Hs.
    destruct (iv_began _ _ _ HI c w Hs) as [_ H]. by rewrite Hci, dpn_kill, dpn_here in H.
  - by left.
  - eapply votes_acc; [|exact begin_votes]. intros n. destruct (Z.eq_dec n i) as [->|Hn].
    + by rewrite !acc_here, Ea.
    + by rewrite !acc_there.
  - eapply node_d_vote; [by apply (wk_node_d cf s i Hi l0 L R)|done|by rewrite Ea|done|apply begin_version|done|done|done|..].
    + intros c w. cbn. tauto.
    + cbn. by rewrite !Z.eqb_refl.
    + intros c w Hcw. by eapply voted_below.
Qed.

(** The message of the proposal. *)
Definition begin_msg (e : Z) : message :=
  MsgPaxos (mk_pmsg OP_BEGIN e 0 (last_committed (paxos (nd r))) 0 b 0 0 [(v, Some y)]).

(** The monitor after it has written and sent the proposal. *)
Context (r2 : run) (e : Z).
Context (Eo : out r2 = out r ++ ((λ p, (p, begin_msg e)) <$> filter (λ p, p <> i) (elements (quorum (nd r))))).
Context (Es : store (nd r2) = apply_ops (store (nd r)) [PutVersion v (Some y); Put PendingV v; Put PendingPn b]).
Context (En : norm (set_store (store (nd r)) (nd r2)) =
  norm (set_paxos (set_new_value (Some y) (set_accepted {[i]} (paxos (nd r)))) (nd r))).
Context (Hu : updating (paxos (nd r))).

Lemma begin_field A (f : node → A) : f (norm (set_store (store (nd r)) (nd r2))) =
  f (norm (set_paxos (set_new_value (Some y) (set_accepted {[i]} (paxos (nd r)))) (nd r))).
Proof. by rewrite En. Qed.

Lemma begin_dead2 : inv cf G' (view s i (kill r2)).
Proof.
  assert (rank (nd r2) = rank (nd r)) as Er by apply (begin_field _ rank).
  assert (accepted_pn (paxos (nd r2)) = b) as Ea by apply (begin_field _ (λ n, accepted_pn (paxos n))).
  eapply (dead_quiet cf s i Hi G' (mk_run (nd r2) (out r))); [by apply begin_dead|exact Eo|done|done|done|].
  intros p m (-> & Hp & Hne)%elem_bcast. apply elem_of_elements in Hp. split; [done|]. destruct Hc.
  split; [by eapply quorum_ids|]. split; [done|].
  destruct (nv_leads _ _ _ _ _ (wk_core _ _ _ _ _ _ _ _ Hw) cb_leader0). destruct ld_quorum0 as (Eq & _).
  split; [apply ld_pn0|]. split; [cbn; unfold b; by rewrite <- Eq|]. exists y. cbn. fold v. by rewrite !Z.eqb_refl.
Qed.

Lemma begin_link p : p ∈ quorum (nd r) → p ≠ i → link G' p (nd r2) (net (view s i r2) i p) (net (view s i r2) p i).
Proof.
  intros Hp Hpi. destruct Hc. destruct (nv_leads _ _ _ _ _ (wk_core _ _ _ _ _ _ _ _ Hw) cb_leader0).
  destruct (ld_link0 p Hp Hpi). destruct (cb_calm0 p Hp Hpi) as [H1 H2].
  fold b in ln_counted0, ln_last0, H1, H2. clear ln_tokens0 ln_round0.
  assert (accepted_pn (paxos (nd r2)) = b) as Ea by apply (begin_field _ (λ n, accepted_pn (paxos n))).
  assert (state (paxos (nd r2)) = state (paxos (nd r))) as Est by apply (begin_field _ (λ n, state (paxos n))).
  assert (accepted (paxos (nd r2)) = {[i]}) as Eac by apply (begin_field _ (λ n, accepted (paxos n))).
  assert (last_committed (paxos (nd r2)) = last_committed (paxos (nd r))) as El by apply (begin_field _ (λ n, last_committed (paxos n))).
  rewrite net_here, net_there in * by done. rewrite Eo, msgs_to_app, msgs_bcast, decide_True, app_assoc by done.
  split; rewrite ?Ea; cbn [counted]; try (rewrite pns_app; cbn; rewrite app_nil_r; done).
  - rewrite tokens_app, H1, H2. unfold updating. rewrite Est, Eac. rewrite decide_True by (split; [done|by apply not_elem_of_singleton]).
    unfold tokens, begin_msg, pns. cbn. rewrite decide_True by done. cbn. lia.
  - intros m Hm. rewrite El. destruct Hm as [[[Hm|Hm]%elem_of_app Hb]|[Hm Hb]].
    + pose proof (tokens_in _ _ _ _ Hm Hb). lia.
    + by apply list_elem_of_singleton in Hm as ->.
    + pose proof (tokens_in _ _ _ _ Hm Hb). lia.
Qed.

Lemma begin_phase : phase G' i (nd r2).
Proof.
  destruct Hc. destruct (nv_leads _ _ _ _ _ (wk_core _ _ _ _ _ _ _ _ Hw) cb_leader0). destruct ld_quorum0 as (_ & _ & Hin).
  change (phase G' i (norm (set_store (store (nd r)) (nd r2)))). rewrite En. change (phase G' i
    (set_paxos (set_new_value (Some y) (set_accepted {[i]} (paxos (nd r)))) (nd r))).
  assert (counted G b = quorum (nd r) ∧ proposing G' (set_paxos (set_new_value (Some y) (set_accepted {[i]} (paxos (nd r)))) (nd r)) b ∧
    i ∈ ({[i]} : gset Z) ∧ {[i]} ⊆ quorum (nd r) ∧ (∀ m, m ∈ ({[i]} : gset Z) → voted G' m b v)) as H.
  { split; [done|]. split; [split; [|split]|split; [by apply elem_of_singleton|split; [by apply singleton_subseteq_l|]]].
    - intros m c w Hm Hlt [Hv|(-> & -> & ->)]; [by eapply cb_settled0|done].
    - intros w Hs. cbn in Hs |- *. destruct (w =? v) eqn:E; [zb; fold v; lia|]. rewrite andb_false_r in Hs.
      specialize (cb_began0 w Hs). lia.
    - exists y. split; [done|]. cbn. by rewrite !Z.eqb_refl.
    - intros m ->%elem_of_singleton. by right. }
  unfold phase. cbn. destruct Hu as [->| ->]; exact H.
Qed.

Lemma begin_leads : leads cf G' (view s i r2) i (nd r2).
Proof.
  pose proof begin_field as Ef. destruct Hc.
  destruct (nv_leads _ _ _ _ _ (wk_core _ _ _ _ _ _ _ _ Hw) cb_leader0).
  assert (accepted_pn (paxos (nd r2)) = b) as Ea by apply (begin_field _ (λ n, accepted_pn (paxos n))).
  assert (quorum (nd r2) = quorum (nd r)) as Eq by apply (begin_field _ quorum).
  split; rewrite ?Ea, ?Eq, ?Es; try done.
  - intros m Hm. destruct (Z.eq_dec m i) as [->|Hne]; [by rewrite acc_here, Ea|].
    rewrite acc_there by done. rewrite <- (acc_there s i r m Hne). by apply ld_promised0.
  - intros p Hp Hpi. by apply begin_link.
Qed.

Lemma begin_st : st G' r2 ∧ io (nd r2) = Idle ∧ mstate (nd r2) = STATE_LEADER.
Proof.
  pose proof begin_field as Ef. destruct Hc.
  assert (io (nd r2) = Idle) as Hio by (rewrite <- cb_io0; apply (Ef _ io)).
  assert (mstate (nd r2) = STATE_LEADER) as Hl by (rewrite <- cb_leader0; apply (Ef _ mstate)).
  split; [|done]. split; [|by intros _; apply begin_phase]. destruct Hw. split; [..|].
  - rewrite <- wk_up0. apply (Ef _ up).
  - done.
  - by rewrite Es.
  - done.
  - apply begin_dead2.
  - intros HR. pose proof (wk_role0 HR). change (role_ok G' i (norm (set_store (store (nd r)) (nd r2)))). rewrite En. done.
  - apply (core_move cf i G G' (view s i r) (view s i r2) (nd r) (nd r2) wk_core0).
    + unfold same_base. rewrite Es. split; [apply (Ef _ (λ n, last_pn (paxos n)))|]. split; [done|]. split; [done|].
      split; [apply (Ef _ (λ n, epoch (elector n)))|]. split; [apply (Ef _ (λ n, electing_me (elector n)))|].
      split; [apply (Ef _ (λ n, acked_me (elector n)))|apply (Ef _ (λ n, peer_last_committed (paxos n)))].
    + pose proof (nv_io _ _ _ _ _ wk_core0) as H. unfold io_ok in *. rewrite Hio. rewrite cb_io0 in H. rewrite Es. cbn.
      rewrite (Ef _ (λ n, last_committed (paxos n)) : last_committed (paxos (nd r2)) = last_committed (paxos (nd r))).
      by rewrite (Ef _ (λ n, first_committed (paxos n)) : first_committed (paxos (nd r2)) = first_committed (paxos (nd r))).
    + done.
    + by rewrite Hl.
    + intros z Hz. apply (nv_pending _ _ _ _ _ wk_core0 z). rewrite <- Hz. symmetry. apply (Ef _ (λ n, pending_proposal (paxos n))).
    + intros _. apply begin_leads.
Qed.
End Begin.

Lemma is_updating_or p : is_updating p || is_updating_previous p = true → updating p.
Proof. unfold updating. by destruct p as [[]]; cbn; auto. Qed.

(** A leader at work between rounds or in one that it has started. *)
Definition leading r : Prop := ∃ G, st G r ∧ io (nd r) = Idle ∧ mstate (nd r) = STATE_LEADER.

Lemma begin_wp G r x : wk G r → can_begin G r x → wp (Paxos.begin cf (Some x)) (λ _ r', leading r') dead r.
Proof.
  intros Hw Hc. assert (dead r) as Hd by (by eapply wk_is_dead). pose proof (cb_leader _ _ _ Hc) as Hl.
  unfold Paxos.begin. apply wp_get, wp_massert; [done|]. intros _. apply wp_massert; [done|]. intros Hu%is_updating_or.
  apply wp_massert; [done|]. intros _. apply wp_massert; [done|]. intros _.
  assert (∀ k Q, wp (k (Some (wrap (last_committed (paxos (nd r))) x))) Q dead r → wp (mbind (if last_committed (paxos (nd r)) =? 0
    then ret (Some (OpFirst 1 :: x)) else ret (Some x)) k : M unit) Q dead r) as Hk.
  { intros k Q. unfold wrap. by destruct (_ =? 0). }
  cbn [id] in *. apply Hk. clear Hk. pose proof (quorum_size _ _ Hw Hl) as Hq.
  rewrite (proj2 (Nat.eqb_neq (size (quorum (nd r))) 1)) by lia.
  unfold wp. cbn -[apply_ops]. rewrite (wk_rank _ _ Hw).
  eexists. eapply (begin_st G r x Hw Hc); [cbn; reflexivity|reflexivity|reflexivity|exact Hu].
Qed.

(** ** Between rounds *)

(** What stays when a leader moves between phases. *)
Definition base (n : node) : node :=
  norm (set_paxos (set_state STATE_RECOVERING (set_pending_proposal None (set_new_value None (set_accepted ∅
    (set_num_last 0 (set_uncommitted_v 0 (set_uncommitted_pn 0 (set_uncommitted_value None (paxos n))))))))) n).

Lemma wk_base G r r' : wk G r → io (nd r) = Idle →
  (mstate (nd r) = STATE_LEADER → ∀ p, p ∈ quorum (nd r) → updating (paxos (nd r)) → p ∈ accepted (paxos (nd r))) →
  (mstate (nd r) = STATE_PEON → updating (paxos (nd r')) → accepted_pn (paxos (nd r)) mod 100 ≠ i) →
  out r' = out r → base (nd r') = base (nd r) →
  (∀ x, pending_proposal (paxos (nd r')) = Some x → Forall is_service x) → wk G r'.
Proof.
  intros Hw Hio Hu Hpe Eo Eb Hp. assert (∀ A (f : node → A), f (base (nd r')) = f (base (nd r))) as Ef by (intros; by rewrite Eb).
  pose proof (wk_core _ _ _ _ _ _ _ _ Hw) as Hcore.
  assert (io (nd r') = Idle) as Hio' by (rewrite <- Hio; apply (Ef _ io)).
  apply (wk_quiet cf s i Hi l0 L R G r r' []); try done.
  - by rewrite app_nil_r.
  - apply (Ef _ rank).
  - apply (Ef _ up).
  - apply (Ef _ store).
  - apply (Ef _ (λ n, accepted_pn (paxos n))).
  - by intros b m ?%not_elem_of_nil.
  - intros HR. change (role_ok G i (base (nd r'))). rewrite Eb. by apply Hw.
  - apply (core_move cf i G G (view s i r) (view s i r') (nd r) (nd r') Hcore); try done.
    + split; [apply (Ef _ (λ n, last_pn (paxos n)))|]. split; [apply (Ef _ (λ n, db_last_pn (store n)))|].
      split; [apply (Ef _ (λ n, election_epoch (store n)))|].
      split; [apply (Ef _ (λ n, epoch (elector n)))|]. split; [apply (Ef _ (λ n, electing_me (elector n)))|].
      split; [apply (Ef _ (λ n, acked_me (elector n)))|apply (Ef _ (λ n, peer_last_committed (paxos n)))].
    + pose proof (nv_io _ _ _ _ _ Hcore) as H. unfold io_ok in *. rewrite Hio'. rewrite Hio in H.
      change (last_committed (paxos (base (nd r'))) = db_last_committed (store (base (nd r'))) ∧
        first_committed (paxos (base (nd r'))) = db_first_committed (store (base (nd r')))). by rewrite Eb.
    + rewrite (Ef _ mstate : mstate (nd r') = mstate (nd r)).
      by rewrite (Ef _ (λ n, accepted_pn (paxos n)) : accepted_pn (paxos (nd r')) = accepted_pn (paxos (nd r))).
    + intros Hl. assert (mstate (nd r) = STATE_LEADER) as Hl0 by (rewrite <- Hl; symmetry; apply (Ef _ mstate)). apply (leads_keep cf s i G G r r' []); try done.
      * by apply (nv_leads _ _ _ _ _ Hcore).
      * by rewrite app_nil_r.
      * apply (Ef _ (λ n, accepted_pn (paxos n))).
      * apply (Ef _ (λ n, db_last_pn (store n))).
      * apply (Ef _ quorum).
      * intros p Hq _ H1 H2. by specialize (Hu Hl0 p Hq H1).
      * by intros b m ?%not_elem_of_nil.
Qed.

(** The quorum is settled on what is committed. *)
Definition ready G (n : node) : Prop :=
  counted G (accepted_pn (paxos n)) = quorum n ∧ settled G (quorum n) (accepted_pn (paxos n)) (last_committed (paxos n)) ∧
  (∀ v, is_Some (began G (accepted_pn (paxos n)) v) → v <= last_committed (paxos n)).

Lemma ready_base G n n' : base n' = base n → ready G n → ready G n'.
Proof. intros E H. change (ready G (base n')). by rewrite E. Qed.

Lemma ready_norm G n n' : norm n' = norm n → ready G n → ready G n'.
Proof.
  intros E. unfold ready.
  rewrite (f_equal (λ n, accepted_pn (paxos n)) E : accepted_pn (paxos n') = accepted_pn (paxos n)).
  rewrite (f_equal (λ n, last_committed (paxos n)) E : last_committed (paxos n') = last_committed (paxos n)).
  by rewrite (f_equal quorum E : quorum n' = quorum n).
Qed.

Lemma new_value_ok G r x : wk G r → io (nd r) = Idle →
  body_ok (first_committed (paxos (nd r))) (last_committed (paxos (nd r))) x →
  value_ok (log G) (last_committed (paxos (nd r)) + 1) (wrap (last_committed (paxos (nd r))) x).
Proof.
  intros Hw Hio Hx. pose proof (nv_io _ _ _ _ _ (wk_core _ _ _ _ _ _ _ _ Hw)) as H. unfold io_ok in H. rewrite Hio in H.
  destruct H as [El Ef]. destruct (nd_data _ _ _ _ (wk_node_d cf s i Hi l0 L R _ _ Hw)). rewrite El, Ef in *.
  unfold value_ok, wrap. destruct (db_last_committed (store (nd r)) =? 0) eqn:E; zb.
  - rewrite E. cbn. destruct Hx as (sv & Hsv & [->|(e & He & _)]); [by exists 0%nat, sv|lia].
  - rewrite (proj2 (Z.eqb_neq _ _)) by lia. replace (db_last_committed (store (nd r)) + 1 - 1) with (db_last_committed (store (nd r))) by lia.
    by rewrite <- do_first0.
Qed.

Lemma base_dead G r r' : wk G r → out r' = out r → base (nd r') = base (nd r) → dead r'.
Proof.
  intros Hw Eo Eb. assert (∀ A (f : node → A), f (base (nd r')) = f (base (nd r))) as Ef by (intros; by rewrite Eb).
  exists G. split; [apply Hw|]. split; [rewrite (Ef _ store : store (nd r') = store (nd r)); apply Hw|]. apply (dead_quiet cf s i Hi G r r' []).
  - apply Hw.
  - by rewrite app_nil_r.
  - apply (Ef _ rank).
  - apply (Ef _ store).
  - apply (Ef _ (λ n, accepted_pn (paxos n))).
  - by intros b m ?%not_elem_of_nil.
Qed.

(** A new value is safe when the quorum is settled. *)
Lemma can_begin_fresh G r0 r x : wk G r0 → io (nd r0) = Idle → mstate (nd r0) = STATE_LEADER →
  ready G (nd r0) → ¬ updating (paxos (nd r0)) → out r = out r0 → base (nd r) = base (nd r0) →
  body_ok (first_committed (paxos (nd r0))) (last_committed (paxos (nd r0))) x → can_begin G r x.
Proof.
  intros Hw Hio Hl (Hr1 & Hr2 & Hr3) Hu Eo Eb Hx.
  assert (∀ A (f : node → A), f (base (nd r)) = f (base (nd r0))) as Ef by (intros; by rewrite Eb).
  assert (accepted_pn (paxos (nd r)) = accepted_pn (paxos (nd r0))) as Ea by apply (Ef _ (λ n, accepted_pn (paxos n))).
  assert (last_committed (paxos (nd r)) = last_committed (paxos (nd r0))) as El by apply (Ef _ (λ n, last_committed (paxos n))).
  assert (quorum (nd r) = quorum (nd r0)) as Eq by apply (Ef _ quorum).
  destruct (nv_leads _ _ _ _ _ (wk_core _ _ _ _ _ _ _ _ Hw) Hl).
  split; rewrite ?Ea, ?El, ?Eq; try done.
  - rewrite <- Hl. apply (Ef _ mstate).
  - rewrite <- Hio. apply (Ef _ io).
  - intros m c w Hm Hc Hv. specialize (Hr2 m c w Hm Hc Hv). lia.
  - intros p. rewrite Eq, Ea, net_here, Eo, <- net_here. intros Hp Hpi. rewrite net_there, <- (net_there s i r0) by done.
    by apply (calm_start G r0).
  - by apply new_value_ok.
  - apply (safe_fresh N G (acc (view s i r)) (accepted_pn (paxos (nd r0))) _ _ (quorum (nd r0))).
    + apply ld_quorum0.
    + intros n Hn. rewrite <- Hr1 in Hn. etrans; [by apply ld_promised0|]. destruct (Z.eq_dec n i) as [->|Hne].
      * by rewrite !acc_here, Ea.
      * by rewrite !acc_there.
    + intros n c Hn Hc Hv. specialize (Hr2 n c _ Hn Hc Hv). lia.
Qed.

(** Proposing a value when the quorum is settled. *)
Lemma propose_pending_ok G r0 r : wk G r0 → io (nd r0) = Idle → mstate (nd r0) = STATE_LEADER →
  ready G (nd r0) → ¬ updating (paxos (nd r0)) → out r = out r0 → base (nd r) = base (nd r0) →
  (∀ x, pending_proposal (paxos (nd r)) = Some x → body_ok (first_committed (paxos (nd r0))) (last_committed (paxos (nd r0))) x) →
  wp (Paxos.propose_pending cf) (λ _ r', leading r') dead r.
Proof.
  intros Hw Hio Hl Hr Hu Eo Eb Hx. unfold Paxos.propose_pending. apply wp_get.
  assert (dead r) as Hd by (by eapply base_dead).
  apply wp_massert; [done|]. intros _. destruct (pending_proposal (paxos (nd r))) as [x|] eqn:Ex; [|done].
  eapply (wp_seq _ _ (λ _ r1, out r1 = out r0 ∧ base (nd r1) = base (nd r0) ∧ pending_proposal (paxos (nd r1)) = None)); [done|].
  intros [] r1 (Eo1 & Eb1 & Ep1). apply (begin_wp G).
  - apply (wk_base G r0); try done; [by rewrite Hl|by rewrite Ep1].
  - by eapply can_begin_fresh; [..|by apply Hx].
Qed.

(** The state between the steps of [finish_round]. *)
Record rounding (r0 r : run) : Prop := {
  rg_out : out r = out r0;
  rg_base : base (nd r) = base (nd r0);
  rg_active : state (paxos (nd r)) = STATE_ACTIVE;
  rg_value : new_value (paxos (nd r)) = new_value (paxos (nd r0));
  rg_pending x : pending_proposal (paxos (nd r)) = Some x →
    body_ok (first_committed (paxos (nd r0))) (last_committed (paxos (nd r0))) x
}.

Lemma trim_ok G r0 r : 0 <= paxos_min cf → 0 <= paxos_trim_min cf →
  wk G r0 → io (nd r0) = Idle → rounding r0 r →
  (∀ x, pending_proposal (paxos (nd r)) = Some x → Forall is_service x) →
  wp (Paxos.trim cf) (λ _ r', rounding r0 r') dead r.
Proof.
  intros Hmin Htrim Hw Hio Hr Hs. assert (dead r) as Hd by (eapply base_dead; [exact Hw|apply Hr|apply Hr]).
  unfold Paxos.trim. apply wp_get, wp_massert; [done|]. intros _.
  set (p := paxos (nd r)). set (e := Z.min _ _). destruct (e <=? first_committed p) eqn:He; [done|]. zb.
  assert (first_committed p = first_committed (paxos (nd r0)) ∧ last_committed p = last_committed (paxos (nd r0))) as [Ef El].
  { destruct Hr. split; [exact (f_equal (λ n, first_committed (paxos n)) rg_base0)|exact (f_equal (λ n, last_committed (paxos n)) rg_base0)]. }
  assert (∀ t, Forall is_service t → body_ok (first_committed (paxos (nd r0))) (last_committed (paxos (nd r0)))
    (t ++ map OpErase (seqZ (first_committed p) (e - first_committed p)) ++ [OpFirst e])) as Hb.
  { intros t Ht. exists t. split; [done|]. right. exists e. rewrite <- Ef, <- El. split; [|done]. unfold e in *. lia. }
  unfold Paxos.get_pending_transaction. apply wp_bind, wp_get, wp_massert; [done|]. intros _. cbn [id]. fold p.
  destruct (pending_proposal p) as [t|] eqn:Et.
  - destruct Hr. hnf. split; try done. cbn. intros x [= <-]. by apply Hb, Hs.
  - eapply (wp_seq _ _ (λ _ r1, rounding r0 r1)).
    + destruct Hr. hnf. split; try done. cbn. intros x [= <-]. exists []. split; [constructor|by left].
    + intros [] r1 Hr1. apply wp_massert; [eapply base_dead; [exact Hw|apply Hr1|apply Hr1]|]. intros _.
      destruct Hr1. hnf. split; try done. cbn. intros x [= <-]. by apply (Hb []).
Qed.

Lemma finish_round_ok G r0 : 0 <= paxos_min cf → 0 <= paxos_trim_min cf →
  wk G r0 → io (nd r0) = Idle → ready G (nd r0) → new_value (paxos (nd r0)) = None → ¬ updating (paxos (nd r0)) →
  wp (Paxos.finish_round cf) (λ _ r', leading r') dead r0.
Proof.
  intros Hmin Htrim Hw Hio Hr Hn Hu. unfold Paxos.finish_round. apply wp_get, wp_massert; [by eapply wk_is_dead|].
  intros Hl%bool_decide_eq_true. pose proof (nv_pending _ _ _ _ _ (wk_core _ _ _ _ _ _ _ _ Hw)) as Hp.
  eapply (wp_seq _ _ (λ _ r, rounding r0 r ∧ ∀ x, pending_proposal (paxos (nd r)) = Some x → Forall is_service x)).
  { hnf. split; [|done]. split; try done. intros x Hx. exists x. split; [by apply Hp|by left]. }
  intros [] r [Hrr Hs]. apply wp_get. eapply (wp_when _ _ _ (λ _ r', rounding r0 r')).
  - intros _. by eapply trim_ok.
  - done.
  - intros r1 Hr1. apply wp_get. pose proof Hr1 as []. destruct (pending_proposal (paxos (nd r1))) as [x|] eqn:Ex.
    + rewrite andb_true_r. unfold is_active. rewrite rg_active0. cbn [when].
      eapply (propose_pending_ok G r0); try done. rewrite Ex. apply rg_pending0.
    + rewrite andb_false_r. cbn [when]. apply wp_ret. exists G.
      assert (wk G r1) as Hw1. { apply (wk_base G r0); try done; [by rewrite Hl|by rewrite Ex]. }
      split; [split; [done|]|split].
      * intros _. unfold phase. rewrite rg_active0. apply (ready_base G _ _ rg_base0) in Hr as (? & ? & ?).
        rewrite rg_value0. done.
      * rewrite <- Hio. exact (f_equal io rg_base0).
      * rewrite <- Hl. exact (f_equal mstate rg_base0).
Qed.

(** ** Committing *)

Definition working r : Prop := ∃ G, st G r.

(** The whole quorum has accepted: the write is handed to the store. *)
Lemma commit_write G r r' x : st G r → io (nd r) = Idle → mstate (nd r) = STATE_LEADER → updating (paxos (nd r)) →
  accepted (paxos (nd r)) = quorum (nd r) → new_value (paxos (nd r)) = Some x → out r' = out r → writing (paxos (nd r')) →
  norm (nd r') = norm (set_io (Queued (Put LastCommitted (last_committed (paxos (nd r)) + 1) :: map Do x))
    (set_paxos (set_state (state (paxos (nd r'))) (paxos (nd r))) (nd r))) → st G r'.
Proof.
  intros [Hw Hph] Hio Hl Hu Hq Hx Eo Hwr En. set (n := set_io _ _) in En.
  assert (∀ A (f : node → A), f (norm (nd r')) = f (norm n)) as Ef by (intros; by rewrite En).
  pose proof (wk_core _ _ _ _ _ _ _ _ Hw) as Hcore. specialize (Hph Hl).
  assert (mstate (nd r') = STATE_LEADER) as Hl' by (rewrite <- Hl; apply (Ef _ mstate)). split.
  - apply (wk_quiet cf s i Hi l0 L R G r r' []); try done.
    + by rewrite app_nil_r.
    + apply (Ef _ rank).
    + apply (Ef _ up).
    + apply (Ef _ store).
    + apply (Ef _ (λ n, accepted_pn (paxos n))).
    + by intros b m ?%not_elem_of_nil.
    + intros HR. change (role_ok G i (norm (nd r'))). rewrite En. by apply Hw.
    + apply (core_move cf i G G (view s i r) (view s i r') (nd r) (nd r') Hcore); try done.
      * split; [apply (Ef _ (λ n, last_pn (paxos n)))|]. split; [apply (Ef _ (λ n, db_last_pn (store n)))|].
        split; [apply (Ef _ (λ n, election_epoch (store n)))|].
        split; [apply (Ef _ (λ n, epoch (elector n)))|]. split; [apply (Ef _ (λ n, electing_me (elector n)))|].
        split; [apply (Ef _ (λ n, acked_me (elector n)))|apply (Ef _ (λ n, peer_last_committed (paxos n)))].
      * pose proof (nv_io _ _ _ _ _ Hcore) as H. unfold io_ok in H. rewrite Hio in H. destruct H as [H1 H2].
        change (io_ok (norm (nd r'))). rewrite En. split; [done|]. split; [done|]. split; [exact Hwr|]. by exists x.
      * by rewrite Hl'.
      * intros y Hy. apply (nv_pending _ _ _ _ _ Hcore y). rewrite <- Hy. symmetry. apply (Ef _ (λ n, pending_proposal (paxos n))).
      * intros _. apply (leads_keep cf s i G G r r' []); try done.
        -- by apply (nv_leads _ _ _ _ _ Hcore).
        -- by rewrite app_nil_r.
        -- apply (Ef _ (λ n, accepted_pn (paxos n))).
        -- apply (Ef _ (λ n, db_last_pn (store n))).
        -- apply (Ef _ quorum).
        -- intros p Hp _ _ H2. by rewrite Hq in H2.
        -- by intros b m ?%not_elem_of_nil.
  - intros _. change (phase G i (norm (nd r'))). rewrite En. unfold phase in Hph |- *. cbn.
    assert (counted G (accepted_pn (paxos (nd r))) = quorum (nd r) ∧ proposing G (nd r) (accepted_pn (paxos (nd r))) ∧
      (∀ m, m ∈ quorum (nd r) → voted G m (accepted_pn (paxos (nd r))) (last_committed (paxos (nd r)) + 1))) as H.
    { destruct Hu as [E|E]; rewrite E, Hq in Hph; tauto. }
    destruct Hwr as [->| ->]; exact H.
Qed.

Lemma commit_start_ok G r : st G r → io (nd r) = Idle → mstate (nd r) = STATE_LEADER →
  accepted (paxos (nd r)) = quorum (nd r) → wp Paxos.commit_start (λ _ r', working r') dead r.
Proof.
  intros Hs Hio Hl Hq. assert (dead r) as Hd by (eapply wk_is_dead, Hs). pose proof (quorum_size _ _ (st_wk _ _ _ _ _ _ _ _ Hs) Hl).
  unfold Paxos.commit_start. apply wp_get. cbn [id]. destruct (new_value (paxos (nd r))) as [x|] eqn:Ex; [|done].
  assert (∀ r', out r' = out r → norm (nd r') = norm (set_io (Queued (Put LastCommitted (last_committed (paxos (nd r)) + 1) :: map Do x))
    (nd r)) → dead r') as Hd'.
  { intros r' Eo En. exists G. split; [apply Hs|]. split; [rewrite (f_equal store En : store (nd r') = store (nd r)); apply Hs|]. apply (dead_quiet cf s i Hi G r r' []); [apply Hs|by rewrite app_nil_r|..].
    - exact (f_equal rank En).
    - exact (f_equal store En).
    - exact (f_equal (λ n, accepted_pn (paxos n)) En).
    - by intros b m ?%not_elem_of_nil. }
  rewrite (proj2 (Z.ltb_lt 1 (Z.of_nat (size (quorum (nd r)))))) by lia.
  unfold wp. cbn. unfold is_updating_previous, is_updating.
  destruct (state (paxos (nd r))) eqn:Est; cbn; try (by apply Hd').
  - exists G. eapply (commit_write G r); try done; [by left|by left].
  - exists G. eapply (commit_write G r); try done; [by right|by right].
Qed.

(** A store that has learned more of the log. *)
Lemma node_d_learn G G' n n' : node_d cf G i n → rank n' = rank n → accepted_pn (paxos n') = accepted_pn (paxos n) →
  (∀ c v, voted G' i c v → voted G i c v) → (∀ e, lquorum G' i e = lquorum G i e) →
  data_ok (log G') (store n') → db_last_committed (store n) < db_last_committed (store n') →
  versions (store n') !! (db_last_committed (store n') + 1) = None →
  election_epoch (store n') = election_epoch (store n) → db_accepted_pn (store n') = db_accepted_pn (store n) →
  node_d cf G' i n'.
Proof.
  intros [] Er Ea Hv Hq Hd Hlt Hn Ee Eacc. split; rewrite ?Er, ?Ea, ?Eacc, ?Ee; try done.
  - intros x Hx. pose proof (eq_trans (eq_sym Hn) Hx). done.
  - intros c v Hcv. destruct (nd_votes0 c v (Hv c v Hcv)) as [?|(? & _)]; left; lia.
  - intros e Q. rewrite Hq. apply nd_led0.
Qed.

(** The value a leader writes is chosen and stored. *)
Lemma writing_value G r x : st G r → mstate (nd r) = STATE_LEADER → writing (paxos (nd r)) →
  new_value (paxos (nd r)) = Some x →
  chosen G (accepted_pn (paxos (nd r))) (last_committed (paxos (nd r)) + 1) (canon (last_committed (paxos (nd r)) + 1) x) ∧
  value_ok (log G) (last_committed (paxos (nd r)) + 1) x ∧
  (last_committed (paxos (nd r)) = db_last_committed (store (nd r)) →
   versions (store (nd r)) !! (last_committed (paxos (nd r)) + 1) = Some (Some x)).
Proof.
  intros [Hw Hph] Hl Hwr Hx. specialize (Hph Hl). set (v := last_committed (paxos (nd r)) + 1).
  destruct (nv_leads _ _ _ _ _ (wk_core _ _ _ _ _ _ _ _ Hw) Hl). destruct ld_quorum0 as (Eq & _ & Hin).
  set (b := accepted_pn (paxos (nd r))) in *.
  assert (proposing G (nd r) b ∧ ∀ m, m ∈ quorum (nd r) → voted G m b v) as [(_ & _ & y & Ey & Hb) Hv].
  { unfold phase in Hph. destruct Hwr as [E|E]; rewrite E in Hph; tauto. }
  rewrite Hx in Ey. injection Ey as <-. fold v in Hb. pose proof (iv_votes _ _ _ (wk_dead _ _ _ _ _ _ _ _ Hw)) as Hvo.
  split; [|split].
  - exists x. split; [done|]. split; [done|]. rewrite <- Eq. done.
  - by apply (vo_value _ _ _ Hvo) in Hb as (_ & _ & ?).
  - intros El. unfold v in *. rewrite El in *. pose proof (wk_node_d cf s i Hi l0 L R _ _ Hw) as []. pose proof (Hv i Hin) as Hvi.
    destruct (nd_votes0 b _ Hvi) as [?|(_ & [bl Hbl] & Hle)]; [lia|]. destruct (do_bound _ _ nd_data0 _ _ Hbl) as (_ & _ & z & -> & _).
    destruct (nd_pending0 z Hbl) as (_ & Hvz & Hz). pose proof (voted_below _ _ _ _ Hw Hvz).
    assert (pending_pn (store (nd r)) = b) as Eb by (unfold b in *; lia). rewrite Eb in Hz. etrans; [exact Hbl|].
    injection (eq_trans (eq_sym Hz) Hb) as ->. done.
Qed.

(** The entry of the log for a value that is chosen next. *)
Definition enter (v : Z) (x : value) G : ghost := if v =? Z.of_nat (length (log G)) + 1 then add_log x G else G.

Lemma enter_votes G acc b v x : votes_ok N G acc → chosen G b v x → 1 <= v <= Z.of_nat (length (log G)) + 1 →
  votes_ok N (enter v x G) acc ∧ entry (log (enter v x G)) v = Some x.
Proof.
  intros HG Hc Hv. unfold enter. destruct (v =? _) eqn:E; zb.
  - split; [by eapply votes_log|]. cbn. unfold entry. rewrite (proj2 (Z.ltb_ge _ _)) by lia.
    rewrite lookup_app_r by lia. replace (Z.to_nat (v - 1) - length (log G))%nat with 0%nat by lia. done.
  - split; [done|]. destruct (lookup_lt_is_Some_2 (log G) (Z.to_nat (v - 1))) as [z Hz]; [lia|].
    assert (entry (log G) v = Some z) as He by (unfold entry; by rewrite (proj2 (Z.ltb_ge _ _)) by lia).
    rewrite He. f_equal. exact (chosen_entry N ltac:(lia) _ _ _ _ _ _ HG Hc He).
Qed.
Lemma enter_log v x G : log G `prefix_of` log (enter v x G).
Proof. unfold enter. destruct (_ =? _); [by apply prefix_app_r|done]. Qed.
Lemma enter_gext j a d v x G : gext j a d G (enter v x G).
Proof. unfold enter. destruct (_ =? _); [apply gext_log|apply gext_refl]. Qed.
Lemma enter_phase v x G n : phase G i n → phase (enter v x G) i n.
Proof. unfold enter. by destruct (_ =? _). Qed.
Lemma enter_same v x G : began (enter v x G) = began G ∧ voted (enter v x G) = voted G ∧
  counted (enter v x G) = counted G ∧ bquorum (enter v x G) = bquorum G ∧ lquorum (enter v x G) = lquorum G.
Proof. unfold enter. by destruct (_ =? _). Qed.
Lemma learn_counters d v x : election_epoch (learn d v x) = election_epoch d ∧ db_last_pn (learn d v x) = db_last_pn d ∧
  db_accepted_pn (learn d v x) = db_accepted_pn d.
Proof. destruct (apply_value_counters (set_versions (<[v := Some x]> (versions d)) d) x) as (? & ? & ? & _). done. Qed.

(** A leader enters the value it has written in the log. *)
Lemma commit_dead G r r' v x b : wk G r → v = db_last_committed (store (nd r)) + 1 → chosen G b v (canon v x) →
  value_ok (log G) v x → out r' = out r → store (nd r') = learn (store (nd r)) v x → rank (nd r') = rank (nd r) →
  accepted_pn (paxos (nd r')) = accepted_pn (paxos (nd r)) → inv cf (enter v (canon v x) G) (view s i (kill r')).
Proof.
  intros Hw Hv Hch Hok Eo Es Er Ea. pose proof (wk_dead _ _ _ _ _ _ _ _ Hw) as HI.
  pose proof (wk_node_d cf s i Hi l0 L R _ _ Hw) as Hnd. pose proof (nd_data _ _ _ _ Hnd) as Hdata.
  assert (1 <= v <= Z.of_nat (length (log G)) + 1) as Hrange by (destruct Hdata; lia).
  destruct (enter_votes G _ _ v _ (iv_votes _ _ _ HI) Hch Hrange) as [Hvo He].
  pose proof (enter_log v (canon v x) G) as Hlog. destruct (enter_same v (canon v x) G) as (Eb & Ev & Ec & Eq & El).
  pose proof (enter_gext i (accepted_pn (paxos (nd r'))) (db_last_pn (store (nd r))) v (canon v x) G) as Hg.
  set (G' := enter v _ G) in *. destruct (learn_counters (store (nd r)) v x) as (E1 & E2 & E3).
  destruct (learn_data (log G') (store (nd r)) v x) as [Hd Hn];
    [by eapply data_ok_mono|done|done|eapply value_ok_mono; [done|lia|done]|].
  apply (dead_step cf s i Hi G G' r r' []); rewrite ?Ea, ?Es, ?E2; try done.
  - by rewrite app_nil_r.
  - by rewrite <- Ea.
  - cbn. lia.
  - by intros ? m ?%not_elem_of_nil.
  - by left.
  - intros p _ _ _ _ _ Hk. apply (link_out G); try done. by rewrite Ec.
  - by left.
  - intros c w Hs Hci. rewrite Eb in Hs. destruct (iv_began _ _ _ HI c w Hs) as [_ H]. by rewrite Hci, dpn_kill, dpn_here in H.
  - by left.
  - eapply votes_acc; [|exact Hvo]. intros n. rewrite acc_kill. destruct (Z.eq_dec n i) as [->|Hne].
    + by rewrite !acc_here, Ea.
    + by rewrite !acc_there.
  - apply (node_d_learn G G' (nd r)); rewrite ?Es; try done.
    + by rewrite Ev.
    + by rewrite El.
    + cbn. lia.
Qed.

(** The writer thread has applied the transaction. *)
Lemma commit_apply G r r' t : st G r → io (nd r) = Queued t → out r' = out r →
  store (nd r') = apply_ops (store (nd r)) t →
  norm (set_store (store (nd r)) (nd r')) = norm (set_io Applied (nd r)) → working r'.
Proof.
  intros Hs Hio Eo Es En. pose proof (st_wk _ _ _ _ _ _ _ _ Hs) as Hw. pose proof (wk_core _ _ _ _ _ _ _ _ Hw) as Hcore.
  assert (mstate (nd r) = STATE_LEADER) as Hl.
  { destruct (decide (mstate (nd r) = STATE_LEADER)) as [|Hne]; [done|]. pose proof (nv_idle _ _ _ _ _ Hcore Hne). congruence. }
  assert (∀ A (f : node → A), f (norm (set_store (store (nd r)) (nd r'))) = f (norm (set_io Applied (nd r)))) as Ef by (intros; by rewrite En).
  pose proof (nv_io _ _ _ _ _ Hcore) as H. unfold io_ok in H. rewrite Hio in H. destruct H as (El & Efc & Hwr & x & Hx & ->).
  destruct (writing_value G r x Hs Hl Hwr Hx) as (Hch & Hok & Hst). specialize (Hst El). rewrite El in *.
  rewrite (commit_transaction _ _ Hst) in Es. set (v := db_last_committed (store (nd r)) + 1) in *.
  assert (accepted_pn (paxos (nd r')) = accepted_pn (paxos (nd r))) as Ea by apply (Ef _ (λ n, accepted_pn (paxos n))).
  pose proof (commit_dead G r r' v x _ Hw eq_refl Hch Hok Eo Es (Ef _ rank) Ea) as HI'.
  pose proof (enter_log v (canon v x) G) as Hlog. destruct (enter_same v (canon v x) G) as (_ & _ & Ec & Eq & Elq).
  destruct (learn_counters (store (nd r)) v x) as (E1 & E2 & E3). exists (enter v (canon v x) G). split.
  - split; [rewrite <- (wk_up _ _ _ _ _ _ _ _ Hw); apply (Ef _ up)|etrans; [apply Hw|done]| |rewrite Elq; apply Hw|done|..].
    + pose proof (wk_lc _ _ _ _ _ _ _ _ Hw). rewrite Es. cbn. lia.
    + intros HR. change (role_ok (enter v (canon v x) G) i (norm (set_store (store (nd r)) (nd r')))). rewrite En.
      unfold role_ok. rewrite Elq. by apply Hw.
    + apply (core_move cf i G _ (view s i r) _ (nd r) (nd r') Hcore).
      * unfold same_base. rewrite Es, E1, E2. split; [apply (Ef _ (λ n, last_pn (paxos n)))|]. split; [done|]. split; [done|].
        split; [apply (Ef _ (λ n, epoch (elector n)))|]. split; [apply (Ef _ (λ n, electing_me (elector n)))|].
        split; [apply (Ef _ (λ n, acked_me (elector n)))|apply (Ef _ (λ n, peer_last_committed (paxos n)))].
      * unfold io_ok. rewrite (Ef _ io : io (nd r') = Applied), Es. split.
        -- rewrite (Ef _ (λ n, last_committed (paxos n)) : last_committed (paxos (nd r')) = last_committed (paxos (nd r))). cbn. lia.
        -- unfold writing. by rewrite (Ef _ (λ n, state (paxos n)) : state (paxos (nd r')) = state (paxos (nd r))).
      * intros Hne. by rewrite (Ef _ mstate : mstate (nd r') = mstate (nd r)) in Hne.
      * by rewrite (Ef _ mstate : mstate (nd r') = mstate (nd r)), Hl.
      * intros z Hz. apply (nv_pending _ _ _ _ _ Hcore z). rewrite <- Hz. symmetry. apply (Ef _ (λ n, pending_proposal (paxos n))).
      * intros _. apply (leads_keep cf s i G _ r r' []); rewrite ?Es, ?E2, ?Ec, ?Eq; try done.
        -- by apply (nv_leads _ _ _ _ _ Hcore).
        -- by rewrite app_nil_r.
        -- apply (Ef _ quorum).
        -- intros p _ _ Hu. destruct Hwr as [E|E], Hu as [E'|E']; congruence.
        -- by intros b m ?%not_elem_of_nil.
  - intros _. apply enter_phase. change (phase G i (norm (set_store (store (nd r)) (nd r')))). rewrite En.
    pose proof (st_phase _ _ _ _ _ _ _ _ Hs Hl) as Hph. unfold phase in *. cbn. destruct Hwr as [E|E]; rewrite E in *; exact Hph.
Qed.

Lemma writing_leads G r : wk G r → io (nd r) ≠ Idle → mstate (nd r) = STATE_LEADER ∧ writing (paxos (nd r)).
Proof.
  intros Hw Hio. pose proof (wk_core _ _ _ _ _ _ _ _ Hw) as Hcore. split.
  - destruct (decide (mstate (nd r) = STATE_LEADER)) as [|Hne]; [done|]. by pose proof (nv_idle _ _ _ _ _ Hcore Hne).
  - pose proof (nv_io _ _ _ _ _ Hcore) as H. unfold io_ok in H. destruct (io (nd r)); [done|tauto|tauto].
Qed.

Definition commit_msg (n : node) (e : Z) : message :=
  MsgPaxos (mk_pmsg OP_COMMIT e 0 (last_committed (paxos n) + 1) 0 (accepted_pn (paxos n)) 0 0
    [(last_committed (paxos n) + 1, new_value (paxos n))]).
(** The leader once the write is complete. *)
Definition told (n : node) : node :=
  set_io Idle (set_paxos (set_state STATE_REFRESH (set_new_value None (set_last_committed (last_committed (paxos n) + 1)
    (set_first_committed (db_first_committed (store n)) (paxos n))))) n).

(** The message tells the entry of the log. *)
Lemma commit_msg_ok G r e b v' : st G r → io (nd r) = Applied → msg_ok cf G v' i b (commit_msg (nd r) e).
Proof.
  intros Hs Hio. pose proof (st_wk _ _ _ _ _ _ _ _ Hs) as Hw. destruct (writing_leads G r Hw) as [Hl Hwr]; [by rewrite Hio|].
  pose proof (nv_io _ _ _ _ _ (wk_core _ _ _ _ _ _ _ _ Hw)) as H. unfold io_ok in H. rewrite Hio in H. destruct H as [El _].
  pose proof (st_phase _ _ _ _ _ _ _ _ Hs Hl) as Hph.
  assert (∃ x, new_value (paxos (nd r)) = Some x) as [x Hx].
  { unfold phase in Hph. destruct Hwr as [E|E]; rewrite E in Hph; destruct Hph as (_ & (_ & _ & x & ? & _) & _); by exists x. }
  destruct (writing_value G r x Hs Hl Hwr Hx) as (Hch & Hok & _).
  pose proof (wk_node_d cf s i Hi l0 L R _ _ Hw) as Hnd. destruct (nd_data _ _ _ _ Hnd). cbn. rewrite Hx.
  set (v := last_committed (paxos (nd r)) + 1) in *. split; [|lia].
  assert (1 <= v) as Hv by (destruct Hch as (y & Hy & _); apply (vo_value _ _ _ (iv_votes _ _ _ (wk_dead _ _ _ _ _ _ _ _ Hw))) in Hy as (_ & ? & _); lia).
  destruct (enter_votes G _ _ v _ (iv_votes _ _ _ (wk_dead _ _ _ _ _ _ _ _ Hw)) Hch) as [_ He]; [lia|].
  unfold enter in He. rewrite (proj2 (Z.eqb_neq _ _)) in He by lia. split.
  - repeat constructor.
  - intros w bl [= -> ->]%list_elem_of_singleton. split; [lia|]. intros _. by exists x.
  - intros w u ->%list_elem_of_singleton. cbn. lia.
Qed.

Lemma commit_told G r r1 e : st G r → io (nd r) = Applied →
  out r1 = out r ++ ((λ p, (p, commit_msg (nd r) e)) <$> filter (λ p, p <> i) (elements (quorum (nd r)))) →
  norm (nd r1) = norm (told (nd r)) →
  st G r1 ∧ mstate (nd r1) = STATE_LEADER ∧ state (paxos (nd r1)) = STATE_REFRESH.
Proof.
  intros Hs Hio Eo En. pose proof (st_wk _ _ _ _ _ _ _ _ Hs) as Hw. pose proof (wk_core _ _ _ _ _ _ _ _ Hw) as Hcore.
  destruct (writing_leads G r Hw) as [Hl Hwr]; [by rewrite Hio|].
  assert (∀ A (f : node → A), f (norm (nd r1)) = f (norm (told (nd r)))) as Ef by (intros; by rewrite En).
  pose proof (nv_io _ _ _ _ _ Hcore) as H. unfold io_ok in H. rewrite Hio in H. destruct H as [El _].
  assert (mstate (nd r1) = STATE_LEADER) as Hl1 by (rewrite <- Hl; apply (Ef _ mstate)).
  split; [|split; [done|apply (Ef _ (λ n, state (paxos n)))]]. split.
  - eapply (wk_quiet cf s i Hi l0 L R G r r1); [done|exact Eo|..].
    + apply (Ef _ rank).
    + apply (Ef _ up).
    + apply (Ef _ store).
    + apply (Ef _ (λ n, accepted_pn (paxos n))).
    + intros b m (-> & Hb & Hne)%elem_bcast. split; [done|]. apply elem_of_elements in Hb.
      split; [by eapply quorum_ids|]. split; [done|by eapply commit_msg_ok].
    + intros HR. change (role_ok G i (norm (nd r1))). rewrite En. by apply Hw.
    + apply (core_move cf i G G (view s i r) (view s i r1) (nd r) (nd r1) Hcore); try done.
      * split; [apply (Ef _ (λ n, last_pn (paxos n)))|]. split; [apply (Ef _ (λ n, db_last_pn (store n)))|].
        split; [apply (Ef _ (λ n, election_epoch (store n)))|].
        split; [apply (Ef _ (λ n, epoch (elector n)))|]. split; [apply (Ef _ (λ n, electing_me (elector n)))|].
        split; [apply (Ef _ (λ n, acked_me (elector n)))|apply (Ef _ (λ n, peer_last_committed (paxos n)))].
      * change (io_ok (norm (nd r1))). rewrite En. by split.
      * by rewrite Hl1.
      * intros y Hy. apply (nv_pending _ _ _ _ _ Hcore y). rewrite <- Hy. symmetry. apply (Ef _ (λ n, pending_proposal (paxos n))).
      * intros _. eapply (leads_keep cf s i G G r r1); [by apply (nv_leads _ _ _ _ _ Hcore)|exact Eo|..]; try done.
        -- apply (Ef _ (λ n, accepted_pn (paxos n))).
        -- apply (Ef _ (λ n, db_last_pn (store n))).
        -- apply (Ef _ quorum).
        -- intros p _ _ Hu. destruct Hwr as [E|E], Hu as [E'|E']; congruence.
        -- by intros b m (-> & _)%elem_bcast.
  - intros _. change (phase G i (norm (nd r1))). rewrite En. cbn.
    pose proof (st_phase _ _ _ _ _ _ _ _ Hs Hl) as Hph. unfold phase in Hph.
    destruct Hwr as [E|E]; rewrite E in Hph; destruct Hph as (? & (? & ? & _) & _); done.
Qed.

Lemma finish_committing_norm n : norm (set_paxos (Paxos.finish_committing (paxos n)) n) = norm n.
Proof. unfold Paxos.finish_committing, Paxos.finish_contexts. by destruct (existsb _ _). Qed.

Lemma told_ready G r : st G r → mstate (nd r) = STATE_LEADER → state (paxos (nd r)) = STATE_REFRESH →
  ready G (nd r) ∧ new_value (paxos (nd r)) = None.
Proof. intros [_ Hp] Hl Hst. specialize (Hp Hl). unfold phase in Hp. rewrite Hst in Hp. unfold ready. tauto. Qed.

Context (Hmin : 0 <= paxos_min cf) (Htrim : 0 <= paxos_trim_min cf).

(** The monitor has no write under way. *)
Definition idle r : Prop := ∃ G, st G r ∧ io (nd r) = Idle.

Lemma commit_finish_ok G r : st G r → io (nd r) = Applied →
  wp (mbind (modify (set_io Idle)) (λ _, Paxos.commit_finish cf bootstrap_now)) (λ _ r', idle r') dead r.
Proof.
  intros Hs Hio. pose proof (st_wk _ _ _ _ _ _ _ _ Hs) as Hw. destruct (writing_leads G r Hw) as [Hl Hwr]; [by rewrite Hio|].
  pose proof (nv_io _ _ _ _ _ (wk_core _ _ _ _ _ _ _ _ Hw)) as H. unfold io_ok in H. rewrite Hio in H. destruct H as [El _].
  assert (is_writing (paxos (nd r)) || is_writing_previous (paxos (nd r)) = true) as Hwb.
  { unfold is_writing, is_writing_previous. by destruct Hwr as [-> | ->]. }
  assert ((1 <? Z.of_nat (size (quorum (nd r)))) = true) as Hq by (pose proof (quorum_size _ _ Hw Hl); zb; lia).
  unfold Paxos.commit_finish. apply wp_mod. tidy. apply wp_mod_paxos. tidy. apply wp_get, wp_mod_paxos. tidy.
  apply wp_bind, wp_get, wp_assert; [by eapply (dead_same cf s i Hi l0 L R G r)|intros _].
  apply wp_get, wp_bcast, wp_mod_paxos. tidy. apply wp_massert_true, wp_mod_paxos; [exact Hwb|]. tidy.
  match goal with |- wp _ _ _ ?r => set (r1 := r) end.
  destruct (commit_told G r r1 (epoch (elector (nd r))) Hs Hio) as (Hs1 & Hl1 & Hst1).
  { cbn. by rewrite (wk_rank _ _ Hw). }
  { unfold r1. clear -r. by_fields. }
  match goal with |- context [size (quorum ?n)] => change (quorum n) with (quorum (nd r)) end. rewrite Hq. clearbody r1.
  assert (¬ writing (paxos (nd r1))) as Hnw by (intros [E|E]; rewrite Hst1 in E; done).
  eapply wp_seq; [by apply (do_refresh_ok _ G); [apply boot_now_ok|done|eapply wk_idle; [apply Hs1|]]|]. intros [] r2.
  - intros ->. cbn [when]. apply (wp_seq _ _ (λ _ r3, wk G r3 ∧ norm (nd r3) = norm (nd r1))).
    { apply wp_get, wp_massert; [by eapply wk_is_dead, Hs1|]. intros _. apply wp_massert; [by eapply wk_is_dead, Hs1|]. intros _.
      assert (norm (set_paxos (Paxos.finish_committing (paxos (nd r1))) (nd r1)) = norm (nd r1)) as E by apply finish_committing_norm.
      split; [|exact E]. apply (wk_lite cf s i Hi l0 L R G r1 _ []); [apply Hs1|by rewrite app_nil_r|exact E|].
      by intros b m ?%not_elem_of_nil. }
    intros [] r3 [Hw3 E3]. cbn [when].
    eapply wp_seq; [by apply extend_lease_ok|]. intros [] r4 [Hw4 E4]. rewrite E3 in E4.
    assert (∀ A (f : node → A), f (norm (nd r4)) = f (norm (nd r1))) as Ef by (intros; by rewrite E4).
    destruct (told_ready G r1 Hs1 Hl1 Hst1) as [Hr Hn].
    eapply wp_mono; [apply (finish_round_ok G r4 Hmin Htrim Hw4)|intros [] r5 (G5 & ? & ? & _); by exists G5|done].
    + rewrite <- (wk_idle G r1 (st_wk _ _ _ _ _ _ _ _ Hs1) Hnw). apply (Ef _ io).
    + by eapply ready_norm.
    + rewrite <- Hn. apply (Ef _ (λ n, new_value (paxos n))).
    + unfold updating. rewrite (Ef _ (λ n, state (paxos n)) : state (paxos (nd r4)) = state (paxos (nd r1))), Hst1. by intros [].
  - intros (G2 & Hs2 & _ & Hio2). by exists G2.
Qed.

(** The writer thread, and waiting for it. *)
Lemma store_apply_ok G r : st G r →
  wp store_apply (λ _ r', working r' ∧ ∀ t, io (nd r') ≠ Queued t) dead r.
Proof.
  intros Hs. unfold store_apply. apply wp_get. destruct (io (nd r)) as [|t|] eqn:Hio.
  - apply wp_ret. split; [by exists G|]. by rewrite Hio.
  - split; [|done]. eapply (commit_apply G r _ t Hs Hio); reflexivity.
  - apply wp_ret. split; [by exists G|]. by rewrite Hio.
Qed.
Lemma store_complete_ok G r : st G r →
  wp (store_complete cf) (λ _ r', working r' ∧ ((∀ t, io (nd r) ≠ Queued t) → idle r')) dead r.
Proof.
  intros Hs. unfold store_complete. apply wp_get. destruct (io (nd r)) as [|t|] eqn:Hio.
  - apply wp_ret. split; [by exists G|]. intros _. by exists G.
  - apply wp_ret. split; [by exists G|]. intros H. by destruct (H t).
  - eapply wp_mono; [by apply (commit_finish_ok G)|intros [] r' (G' & ? & ?); split; [by exists G'|by exists G']|done].
Qed.
Lemma wait_ok G r : st G r → wp (wait_for_paxos_write cf) (λ _ r', idle r') dead r.
Proof.
  intros Hs. unfold wait_for_paxos_write. apply wp_get.
  destruct (is_writing (paxos (nd r)) || is_writing_previous (paxos (nd r))) eqn:Hwr; cbn [when].
  - eapply wp_seq; [by apply (store_apply_ok G)|]. intros [] r1 [(G1 & Hs1) Hio1].
    eapply wp_mono; [by apply (store_complete_ok G1)| |done]. intros [] r2 [_ Hi2]. by apply Hi2.
  - exists G. split; [done|]. eapply wk_idle; [apply Hs|]. unfold is_writing, is_writing_previous in Hwr.
    intros [E|E]; rewrite E in Hwr; done.
Qed.

(** The monitor leaves its quorum, whatever it was doing. *)
Lemma bootstrap_wp G r : st G r → wp (bootstrap cf) (λ _ r', gone r') dead r.
Proof.
  intros Hs. unfold bootstrap. eapply wp_seq; [by apply (wait_ok G)|]. intros [] r1 (G1 & Hs1 & Hio1).
  eapply wp_mono; [by apply (bootstrap_now_ok G1 r1); [apply Hs1|]|intros [] r' H; by exists G1|done].
Qed.
Lemma boot_bootstrap_ok : boot_ok (bootstrap cf).
Proof. intros G r Hs _. by apply (bootstrap_wp G). Qed.
End Lead.
End PaxosLead.
