(* ===== verification/PaxosCollect.v ===== *)
(** * Collecting

    A leader that starts or restarts its first phase takes a number of its own that
    nobody has used; nothing is known of it to the quorum, and the only member that
    has answered is the leader itself. *)
From stdpp Require Import gmap.
From S2P Require Import Prelude StdMap MonTypes Consensus Paxos Elector Monitor PaxosInv PaxosData PaxosStep PaxosLead.

Module PaxosCollect.
Import MonTypes Consensus Monitor PaxosInv PaxosData PaxosStep PaxosLead.

Section Collect.
Context (cf : config) (HN : 2 <= mon_count cf <= 100).
Context (s : sys) (i : Z) (Hi : ids cf i).
Context (l0 : list value) (L : Z → option (gset Z)) (R : Prop).
Abbreviation N := (mon_count cf).
Abbreviation wk := (wk cf s i l0 L R).
Abbreviation st := (st cf s i l0 L R).
Abbreviation dead := (dead cf s i l0).
Implicit Types (G : ghost) (r : run).

(** What holds of a leader before it has a number. *)
Record fresh G r : Prop := {
  fs_up : up (nd r) = true;
  fs_log : l0 `prefix_of` log G;
  fs_lc : dlc s i <= db_last_committed (store (nd r));
  fs_led e : lquorum G i e = L e;
  fs_dead : inv cf G (view s i (kill r));
  fs_core : core cf G (view s i r) i (set_mstate STATE_PROBING (nd r))
}.

Lemma fresh_node_d G r : fresh G r → node_d cf G i (nd r).
Proof.
  intros []. pose proof (iv_node _ _ _ fs_dead0 i Hi) as H. rewrite view_here in H.
  by eapply node_d_same; [exact H|..].
Qed.
Lemma fresh_is_dead G r : fresh G r → dead r.
Proof. intros []. by exists G. Qed.

(** A number of this monitor above [gt] and above all it has used. *)
Definition next_pn (used gt : Z) : Z := (Z.max used gt / 100 + 1) * 100 + i.
Lemma next_pn_mod used gt : next_pn used gt mod 100 = i.
Proof. unfold next_pn. unfold ids in Hi. rewrite Z.add_comm, Z_mod_plus_full. apply Z.mod_small. lia. Qed.
Lemma next_pn_lt used gt : used < next_pn used gt ∧ gt < next_pn used gt.
Proof. unfold next_pn, ids in *. pose proof (Z_div_mod_eq_full (Z.max used gt) 100). pose proof (Z.mod_pos_bound (Z.max used gt) 100). lia. Qed.

(** The leader once it has asked its quorum. *)
Definition asked (b uv upn : Z) (ux : bufferlist) (n : node) : node :=
  set_store (set_db_last_pn b (store n)) (set_paxos (set_state STATE_RECOVERING (set_num_last 1 (set_accepted_pn b
    (set_last_pn b (set_uncommitted_v uv (set_uncommitted_pn upn (set_uncommitted_value ux
      (set_peer_last_committed [] (paxos n))))))))) n).
Definition collect_msg (n : node) (b : Z) : message :=
  MsgPaxos (mk_pmsg OP_COLLECT (epoch (elector n)) (first_committed (paxos n)) (last_committed (paxos n)) 0 b 0 0 []).

(** What it has accepted itself and not committed. *)
Definition own_value G (n : node) (uv upn : Z) (ux : bufferlist) : Prop :=
  match versions (store n) !! (last_committed (paxos n) + 1) with
  | Some bl => uv = last_committed (paxos n) + 1 ∧ upn = pending_pn (store n) ∧ ux = bl
  | None => uv = 0 ∧ upn = 0 ∧ ux = None
  end.

Section Asked.
Context (G : ghost) (r r' : run) (b uv upn : Z) (ux : bufferlist) (Q : gset Z).
Context (Hf : fresh G r) (Hl : mstate (nd r) = STATE_LEADER).
Context (HQ : lquorum G i (epoch (elector (nd r))) = Some Q) (Eq : quorum (nd r) = Q).
Context (Hb : b mod 100 = i) (Hb1 : db_last_pn (store (nd r)) < b) (Hb2 : accepted_pn (paxos (nd r)) < b).
Context (Hnv : new_value (paxos (nd r)) = None) (Hown : own_value G (nd r) uv upn ux).
Context (Eo : out r' = out r ++ ((λ p, (p, collect_msg (nd r) b)) <$> filter (λ p, p <> i) (elements Q))).
Context (En : norm (nd r') = norm (asked b uv upn ux (nd r))).
Let G' : ghost := set_ballot b Q {[i]} G.

Lemma asked_field A (f : node → A) : f (norm (nd r')) = f (norm (asked b uv upn ux (nd r))).
Proof. by rewrite En. Qed.
Lemma asked_acc : accepted_pn (paxos (nd r')) = b.
Proof. apply (asked_field _ (λ n, accepted_pn (paxos n))). Qed.
Lemma asked_store : store (nd r') = set_db_last_pn b (store (nd r)).
Proof. apply (asked_field _ store). Qed.
Lemma asked_quorum : majority N Q ∧ i ∈ Q.
Proof. by destruct (nd_led _ _ _ _ (fresh_node_d G r Hf) _ _ HQ) as (_ & ? & ?). Qed.

Lemma asked_idle : io (nd r) = Idle ∧ last_committed (paxos (nd r)) = db_last_committed (store (nd r)).
Proof.
  destruct (fs_core _ _ Hf). assert (io (nd r) = Idle) as Hio by (by apply nv_idle0). split; [done|].
  unfold io_ok in nv_io0. change (io (set_mstate STATE_PROBING (nd r))) with (io (nd r)) in nv_io0. rewrite Hio in nv_io0. apply nv_io0.
Qed.

Lemma asked_fresh v : began G b v = None.
Proof.
  destruct (began G b v) eqn:E; [|done]. destruct (iv_began _ _ _ (fs_dead _ _ Hf) b v) as [_ H]; [by eexists|].
  rewrite Hb, dpn_kill, dpn_here in H. lia.
Qed.

Lemma asked_dead : inv cf G' (view s i (kill r')).
Proof.
  pose proof (fs_dead _ _ Hf) as HI. pose proof asked_acc as Ea. pose proof asked_store as Es. pose proof asked_quorum as [Hm Hin].
  assert (rank (nd r') = rank (nd r)) as Er by apply (asked_field _ rank). pose proof (fresh_node_d G r Hf) as Hnd.
  eapply (dead_step cf s i Hi G G' r r'); rewrite ?Ea, ?Es; [done|exact Eo|by apply gext_ballot|lia|done|cbn; lia|..].
  - intros p m (-> & Hp & Hne)%elem_bcast. apply elem_of_elements in Hp. split; [by apply elem_all_ids, (proj1 Hm)|].
    split; [done|]. pose proof (nd_data _ _ _ _ Hnd) as []. destruct asked_idle as [_ El].
    split; [by exists Q|]. split; [done|]. cbn. rewrite dpn_here, dlc_here, Es. cbn. rewrite El. destruct (nd_pn _ _ _ _ Hnd). lia.
  - intros p. rewrite msgs_bcast. destruct (decide _); [right; by exists b|by left].
  - intros p Hp _ _ Hld _ Hk. apply (link_out G).
    + done.
    + cbn. destruct (ld_pn _ _ _ _ _ Hld) as [Hpn _]. rewrite (proj2 (Z.eqb_neq _ _)); [done|]. congruence.
    + rewrite msgs_bcast. by destruct (decide _).
    + rewrite msgs_bcast. by destruct (decide _).
  - right. intros a c _ Hne. congruence.
  - intros c v Hs Hc. destruct (iv_began _ _ _ HI c v Hs) as [_ H]. rewrite Hc, dpn_kill, dpn_here in H. cbn. lia.
  - right. rewrite Hb, dpn_here, Es. split; [done|]. cbn. lia.
  - apply votes_set_ballot; [apply asked_fresh|]. eapply votes_acc; [|apply HI]. intros n. rewrite acc_kill.
    destruct (Z.eq_dec n i) as [->|Hne]; [rewrite !acc_here, Ea; lia|by rewrite !acc_there].
  - destruct Hnd. split; rewrite ?Er, ?Ea, ?Es; try done; [|cbn; lia]. by destruct nd_data0.
Qed.

(** No message carries the new number. *)
Lemma asked_new o p m : (o = OP_BEGIN ∧ m ∈ net (view s i r) i p ∨ p ≠ i ∧ (o = OP_ACCEPT ∨ o = OP_LAST) ∧ m ∈ net s p i) →
  pn_of o m = Some b → False.
Proof.
  pose proof (fs_dead _ _ Hf) as HI. intros [[-> Hm]|(Hp & Ho & Hm)] Hpn.
  - destruct (iv_msg _ _ _ HI i p m Hm) as (_ & _ & _ & Hok). destruct m as [m|m]; [done|]. cbn in Hpn, Hok.
    destruct (p_op m); try done. injection Hpn as Eb. destruct Hok as (_ & _ & x & _ & Hx). rewrite Eb, asked_fresh in Hx. done.
  - rewrite <- (net_there s i (kill r) p Hp) in Hm. destruct (iv_msg _ _ _ HI p i m Hm) as (_ & _ & _ & Hok).
    destruct m as [m|m]; [done|]. cbn in Hpn, Hok. destruct (p_op m), Ho as [-> | ->]; try done; injection Hpn as Eb.
    + destruct Hok. destruct lt_pn0 as (_ & _ & H). rewrite Eb, Hb, dpn_kill, dpn_here in H. lia.
    + destruct Hok as [_ Hv]. apply (vo_voted _ _ _ (iv_votes _ _ _ HI)) in Hv as [[x Hx] _]. rewrite Eb, asked_fresh in Hx. done.
Qed.

Lemma asked_link p : p ∈ Q → p ≠ i → link G' p (nd r') (net (view s i r') i p) (net (view s i r') p i).
Proof.
  intros Hp Hpi. pose proof asked_acc as Ea. rewrite net_here, (net_there s i r' p) by done.
  rewrite Eo, msgs_to_app, msgs_bcast, decide_True, app_assoc by done. split; rewrite ?Ea.
  - cbn. rewrite Z.eqb_refl. by intros ?%elem_of_singleton.
  - intros l1 m l2 El Hm. exfalso. eapply (asked_new OP_LAST p m); [right|done]. split; [done|]. split; [by right|].
    rewrite El. apply elem_of_app. right. by left.
  - rewrite !tokens_zero; [lia|..].
    + intros (m & Hm & Hpn)%list_elem_of_omap. eapply (asked_new OP_ACCEPT p m); [right; split; [done|split; [by left|done]]|done].
    + rewrite pns_app. intros [(m & Hm & Hpn)%list_elem_of_omap|H]%elem_of_app; [|by apply not_elem_of_nil in H].
      rewrite <- net_here in Hm. eapply (asked_new OP_BEGIN p m); [by left|done].
  - intros m Hm. exfalso. destruct Hm as [[[Hm|Hm]%elem_of_app Hpn]|[Hm Hpn]].
    + rewrite <- net_here in Hm. eapply (asked_new OP_BEGIN p m); [by left|done].
    + by apply list_elem_of_singleton in Hm as ->.
    + eapply (asked_new OP_ACCEPT p m); [right; split; [done|split; [by left|done]]|done].
Qed.

Lemma asked_leads : leads cf G' (view s i r') i (nd r').
Proof.
  pose proof asked_acc as Ea. pose proof asked_store as Es. pose proof asked_quorum as [Hm Hin].
  assert (quorum (nd r') = Q) as Eq' by (rewrite <- Eq; apply (asked_field _ quorum)).
  assert (counted G' b = {[i]} ∧ bquorum G' b = Q) as [Ec Ebq] by (cbn; by rewrite Z.eqb_refl).
  split; rewrite ?Ea, ?Eq', ?Es, ?Ec, ?Ebq.
  - split; [done|]. split; [done|]. destruct (nd_pn _ _ _ _ (fresh_node_d G r Hf)). lia.
  - done.
  - split; [by apply elem_of_singleton|by apply singleton_subseteq_l].
  - intros m ->%elem_of_singleton. by rewrite acc_here, Ea.
  - apply asked_link.
Qed.

Lemma asked_phase : phase G' i (nd r').
Proof.
  change (phase G' i (norm (nd r'))). rewrite En. destruct asked_idle as [Hio El].
  pose proof (fresh_node_d G r Hf) as []. unfold phase. cbn. rewrite Z.eqb_refl.
  split; [done|]. split; [by rewrite size_singleton|]. split; [done|]. split; [apply asked_fresh|].
  unfold own_value in Hown. rewrite El in *. split.
  - intros m c v ->%elem_of_singleton Hc Hv. destruct (nd_votes0 c v Hv) as [?|(-> & [bl Hbl] & Hle)]; [by left|right].
    rewrite Hbl in Hown. destruct Hown as (-> & -> & _). done.
  - destruct (versions (store (nd r)) !! _) as [bl|] eqn:Ebl; [right|left; by destruct Hown as (-> & -> & _)].
    destruct Hown as (-> & -> & ->). split; [done|]. destruct (do_bound _ _ nd_data0 _ _ Ebl) as (_ & _ & x & -> & _).
    exists x. split; [done|]. by destruct (nd_pending0 x eq_refl) as (_ & _ & ?).
Qed.

Lemma asked_st : (R → role_ok G i (nd r)) → st G' r' ∧ io (nd r') = Idle ∧ mstate (nd r') = STATE_LEADER.
Proof.
  intros HR. pose proof asked_field as Ef. pose proof asked_store as Es. destruct asked_idle as [Hio El].
  assert (io (nd r') = Idle) as Hio' by (rewrite <- Hio; apply (Ef _ io)).
  assert (mstate (nd r') = STATE_LEADER) as Hl' by (rewrite <- Hl; apply (Ef _ mstate)).
  split; [|done]. split; [|by intros _; apply asked_phase]. destruct Hf. split.
  - rewrite <- fs_up0. apply (Ef _ up).
  - done.
  - by rewrite Es.
  - done.
  - apply asked_dead.
  - intros HR'. pose proof (HR HR'). change (role_ok G' i (norm (nd r'))). rewrite En. done.
  - destruct fs_core0. split.
    + rewrite Es. apply (Ef _ (λ n, last_pn (paxos n))).
    + rewrite Es. by rewrite (Ef _ (λ n, epoch (elector n)) : epoch (elector (nd r')) = epoch (elector (nd r))).
    + unfold io_ok in nv_io0 |- *. rewrite Hio', Es. change (io (set_mstate STATE_PROBING (nd r))) with (io (nd r)) in nv_io0. rewrite Hio in nv_io0.
      rewrite (Ef _ (λ n, last_committed (paxos n)) : last_committed (paxos (nd r')) = last_committed (paxos (nd r))).
      by rewrite (Ef _ (λ n, first_committed (paxos n)) : first_committed (paxos (nd r')) = first_committed (paxos (nd r))).
    + done.
    + by rewrite Hl'.
    + intros x Hx. apply nv_pending0. rewrite <- Hx. symmetry. apply (Ef _ (λ n, pending_proposal (paxos n))).
    + rewrite (Ef _ (λ n, peer_last_committed (paxos n)) : peer_last_committed (paxos (nd r')) = []). constructor.
    + rewrite (Ef _ (λ n, acked_me (elector n)) : acked_me (elector (nd r')) = acked_me (elector (nd r))).
      by rewrite (Ef _ (λ n, electing_me (elector n)) : electing_me (elector (nd r')) = electing_me (elector (nd r))).
    + intros _. apply asked_leads.
Qed.
End Asked.

(** The number of a value that is stored and not committed is on record. *)
Lemma stored_pn_pending G a j n prev x : node_d cf G j n → votes_ok N G a →
  versions (store n) !! (db_last_committed (store n) + 1) = Some (Some x) →
  Paxos.stored_pn (store n) (db_last_committed (store n)) prev = pending_pn (store n) ∧ 0 < pending_pn (store n).
Proof.
  intros [] Hvo Hx. destruct (nd_pending0 x Hx) as (Epv & Hv & Hb). destruct (vo_value _ _ _ Hvo _ _ _ Hb) as (? & ? & _).
  unfold Paxos.stored_pn. rewrite Epv, Z.eqb_refl. by rewrite !(proj2 (Z.eqb_neq _ _)) by lia.
Qed.

Lemma own_pending G r bl : fresh G r → versions (store (nd r)) !! (last_committed (paxos (nd r)) + 1) = Some bl →
  ∃ x, bl = Some x ∧ Paxos.stored_pn (store (nd r)) (last_committed (paxos (nd r))) (accepted_pn (paxos (nd r))) = pending_pn (store (nd r)).
Proof.
  intros Hf. destruct (asked_idle G r Hf) as [_ ->]. intros Ebl. pose proof (fresh_node_d G r Hf) as Hnd.
  destruct (do_bound _ _ (nd_data _ _ _ _ Hnd) _ _ Ebl) as (_ & _ & x & -> & _). exists x. split; [done|].
  by eapply stored_pn_pending; [done|apply (iv_votes _ _ _ (fs_dead _ _ Hf))|].
Qed.

(** The leader before it takes a number. *)
Definition asking (uv upn : Z) (ux : bufferlist) (n : node) : node :=
  set_paxos (set_state STATE_RECOVERING (set_uncommitted_v uv (set_uncommitted_pn upn (set_uncommitted_value ux
    (set_peer_last_committed [] (paxos n)))))) n.

Lemma asking_asked b uv upn ux n n1 : norm n1 = norm (asking uv upn ux n) →
  norm (set_store (set_db_last_pn b (store n1)) (set_paxos (set_accepted_pn b (set_num_last 1 (set_last_pn b (paxos n1)))) n1)) =
  norm (asked b uv upn ux n).
Proof.
  intros E. transitivity (norm (set_store (set_db_last_pn b (store (norm n1))) (set_paxos (set_accepted_pn b
    (set_num_last 1 (set_last_pn b (paxos (norm n1))))) (norm n1)))).
  - by destruct n1 as [? ? ? ? [] [] ? ? ? ? ? ?].
  - rewrite E. destruct n as [? ? ? ? [] [] ? ? ? ? ? ?]. cbv. reflexivity.
Qed.

Lemma collect_number G r r1 uv upn ux oldpn : fresh G r → mstate (nd r) = STATE_LEADER → new_value (paxos (nd r)) = None →
  lquorum G i (epoch (elector (nd r))) = Some (quorum (nd r)) → (R → role_ok G i (nd r)) →
  own_value G (nd r) uv upn ux → out r1 = out r → norm (nd r1) = norm (asking uv upn ux (nd r)) →
  wp (mbind (Paxos.get_new_proposal_number (Z.max (accepted_pn (paxos (nd r))) oldpn)) (λ pn,
    mbind (mod_paxos (λ p, set_accepted_pn pn (set_accepted_pn_from (last_committed p) (set_num_last 1 p)))) (λ _,
    mbind (get id) (λ n, mbind (bcast (elements (quorum n)) (Paxos.mk_msg n OP_COLLECT (first_committed (paxos n))
      (last_committed (paxos n)) 0 (accepted_pn (paxos n)) 0 0 [])) (λ _, mod_paxos (set_collect_timeout_event true))))))
    (λ _ r', leading cf s i l0 L R r') dead r1.
Proof.
  intros Hf Hl Hnv HQ HR Hown Eo En. set (gt := accepted_pn (paxos (nd r)) `max` oldpn).
  assert (∀ A (f : node → A), f (norm (nd r1)) = f (norm (asking uv upn ux (nd r)))) as Ef by (intros; by rewrite En).
  assert (last_pn (paxos (nd r1)) = db_last_pn (store (nd r))) as Elp.
  { transitivity (last_pn (paxos (nd r))); [apply (Ef _ (λ n, last_pn (paxos n)))|exact (nv_last_pn _ _ _ _ _ (fs_core _ _ Hf))]. }
  assert (rank (nd r1) = i) as Er by (rewrite <- (nd_rank _ _ _ _ (fresh_node_d G r Hf)); apply (Ef _ rank)).
  set (b := next_pn (db_last_pn (store (nd r))) gt).
  destruct (next_pn_lt (db_last_pn (store (nd r))) gt) as [Hb1 Hb2]. fold b in Hb1, Hb2.
  assert (∀ k Q, wp (k b) Q dead (mk_run (set_store (set_db_last_pn b (store (nd r1))) (set_paxos (set_last_pn b (paxos (nd r1))) (nd r1))) (out r1)) →
    wp (mbind (Paxos.get_new_proposal_number gt) k : M unit) Q dead r1) as Hk.
  { intros k Q Hk. unfold Paxos.get_new_proposal_number. apply wp_bind, wp_get. cbn [id]. rewrite Elp, Er.
    destruct (Z.ltb_spec (db_last_pn (store (nd r))) gt) as [Hlt|Hge].
    - unfold b, next_pn in Hk. rewrite Z.max_r in Hk by lia. exact Hk.
    - unfold b, next_pn in Hk. rewrite Z.max_l in Hk by lia. exact Hk. }
  apply Hk. clear Hk. assert (b mod 100 = i) as Hb by apply next_pn_mod.
  eexists. eapply (asked_st G r _ b uv upn ux _ Hf Hl HQ eq_refl Hb Hb1); [unfold gt in *; lia|done|done|..|done].
  - unfold Paxos.mk_msg, collect_msg. tidy. rewrite Eo, Er.
    rewrite (Ef _ (λ n, epoch (elector n)) : epoch (elector (nd r1)) = epoch (elector (nd r))).
    rewrite (Ef _ (λ n, first_committed (paxos n)) : first_committed (paxos (nd r1)) = first_committed (paxos (nd r))).
    rewrite (Ef _ (λ n, last_committed (paxos n)) : last_committed (paxos (nd r1)) = last_committed (paxos (nd r))).
    by rewrite (Ef _ quorum : quorum (nd r1) = quorum (nd r)).
  - etrans; [|by eapply (asking_asked b)]. clearbody b. clear -r1. by_fields.
Qed.

Lemma collect_wp oldpn G r : fresh G r → new_value (paxos (nd r)) = None →
  lquorum G i (epoch (elector (nd r))) = Some (quorum (nd r)) → (R → role_ok G i (nd r)) →
  wp (Paxos.collect oldpn) (λ _ r', leading cf s i l0 L R r') dead r.
Proof.
  intros Hf Hnv HQ HR. unfold Paxos.collect. apply wp_mod_paxos. tidy. apply wp_get, wp_massert.
  { exists G. split; [apply Hf|]. split; [apply Hf|]. by eapply (dead_quiet cf s i Hi G r _ []); [apply Hf|by rewrite app_nil_r|..|by intros ? ? ?%not_elem_of_nil]. }
  intros Hl%bool_decide_eq_true. apply wp_mod_paxos. tidy. apply wp_get. tidy.
  eapply (wp_seq _ _ (λ _ r1, out r1 = out r ∧ ∃ uv upn ux, own_value G (nd r) uv upn ux ∧ norm (nd r1) = norm (asking uv upn ux (nd r)))).
  - unfold own_value. destruct (versions (store (nd r)) !! (last_committed (paxos (nd r)) + 1)) as [bl|] eqn:Ebl.
    + destruct (own_pending G r bl Hf Ebl) as (x & -> & Epn). rewrite Epn. apply wp_massert_true; [done|].
      split; [done|]. exists (last_committed (paxos (nd r)) + 1), (pending_pn (store (nd r))), (Some x). split; [done|]. clear -r. by_fields.
    + split; [done|]. exists 0, 0, None. split; [done|]. clear -r. by_fields.
  - intros [] r1 (Eo & uv & upn & ux & Hown & En). by eapply (collect_number G r r1 uv upn ux).
Qed.
End Collect.
End PaxosCollect.
