(* ===== verification/PaxosPeer.v ===== *)
(** * Answers and proposals

    The handlers of the messages that leaders and peons exchange: what a monitor
    learns from committed values, the answers a leader counts, the promise and the
    vote of a peon. *)
From stdpp Require Import gmap.
From S2P Require Import Prelude StdMap MonTypes Consensus Paxos Elector Monitor PaxosInv PaxosData PaxosStep PaxosLead PaxosCollect.

Module PaxosPeer.
Import MonTypes Consensus Monitor PaxosInv PaxosData PaxosStep PaxosLead PaxosCollect.

Section Peer.
Context (cf : config) (HN : 2 <= mon_count cf <= 100).
Context (Hmin : 0 <= paxos_min cf) (Htrim : 0 <= paxos_trim_min cf).
Context (s : sys) (i : Z) (Hi : ids cf i).
Context (l0 : list value) (L : Z → option (gset Z)) (R : Prop).
Abbreviation N := (mon_count cf).
Abbreviation wk := (wk cf s i l0 L R).
Abbreviation st := (st cf s i l0 L R).
Abbreviation dead := (dead cf s i l0).
Implicit Types (G : ghost) (r : run).

(** ** Learning committed values *)

(** All but what is learned. *)
Definition shell (n : node) : node :=
  norm (set_store db0 (set_paxos (set_last_committed 0 (set_first_committed 0 (set_uncommitted_v 0 (set_uncommitted_pn 0
    (set_uncommitted_value None (paxos n)))))) n)).

Section Learn.
Context (G : ghost) (r r' : run) (Hs : st G r) (Hio : io (nd r) = Idle).
Context (Hph : mstate (nd r) = STATE_LEADER → state (paxos (nd r)) = STATE_RECOVERING).
Context (Hd : data_ok (log G) (store (nd r'))) (Hlt : db_last_committed (store (nd r)) < db_last_committed (store (nd r'))).
Context (Hn : versions (store (nd r')) !! (db_last_committed (store (nd r')) + 1) = None).
Context (E1 : election_epoch (store (nd r')) = election_epoch (store (nd r))).
Context (E2 : db_last_pn (store (nd r')) = db_last_pn (store (nd r))).
Context (E3 : db_accepted_pn (store (nd r')) = db_accepted_pn (store (nd r))).
Context (Eo : out r' = out r) (Esh : shell (nd r') = shell (nd r)).
Context (El : last_committed (paxos (nd r')) = db_last_committed (store (nd r'))).
Context (Ef : first_committed (paxos (nd r')) = db_first_committed (store (nd r'))).
Context (Hu : if negb (uncommitted_v (paxos (nd r)) =? 0) && (uncommitted_v (paxos (nd r)) <=? last_committed (paxos (nd r')))
  then uncommitted_v (paxos (nd r')) = 0 ∧ uncommitted_pn (paxos (nd r')) = 0
  else uncommitted_v (paxos (nd r')) = uncommitted_v (paxos (nd r)) ∧
       uncommitted_pn (paxos (nd r')) = uncommitted_pn (paxos (nd r))).

Lemma learn_field A (f : node → A) : f (shell (nd r')) = f (shell (nd r)).
Proof. by rewrite Esh. Qed.

Lemma learn_dead : inv cf G (view s i (kill r')).
Proof.
  pose proof learn_field as F. destruct Hs as [Hw _]. pose proof (wk_dead _ _ _ _ _ _ _ _ Hw) as HI.
  assert (accepted_pn (paxos (nd r')) = accepted_pn (paxos (nd r))) as Ea by apply (F _ (λ n, accepted_pn (paxos n))).
  apply (dead_step cf s i Hi G G r r' []); rewrite ?Ea, ?E2; try done.
  - by rewrite app_nil_r.
  - apply gext_refl.
  - lia.
  - by intros ? m ?%not_elem_of_nil.
  - by left.
  - intros p _ _ _ _ _ Hk. by apply (link_out G).
  - by left.
  - intros c w Hcw Hci. destruct (iv_began _ _ _ HI c w Hcw) as [_ H]. by rewrite Hci, dpn_kill, dpn_here in H.
  - by left.
  - eapply votes_acc; [|apply HI]. intros n. rewrite acc_kill. destruct (Z.eq_dec n i) as [->|Hne].
    + by rewrite !acc_here, Ea.
    + by rewrite !acc_there.
  - apply (node_d_learn cf i G G (nd r)); try done; [by apply (wk_node_d cf s i Hi l0 L R)|apply (F _ rank)].
Qed.

Lemma learn_old : last_committed (paxos (nd r)) < last_committed (paxos (nd r')).
Proof.
  pose proof (nv_io _ _ _ _ _ (wk_core _ _ _ _ _ _ _ _ (st_wk _ _ _ _ _ _ _ _ Hs))) as H. unfold io_ok in H. rewrite Hio in H. lia.
Qed.

Lemma learn_phase : mstate (nd r) = STATE_LEADER → phase G i (nd r').
Proof.
  intros Hl. pose proof learn_field as F. pose proof learn_old as Hold. pose proof (st_phase _ _ _ _ _ _ _ _ Hs Hl) as Hp.
  unfold phase in Hp |- *. rewrite (Hph Hl) in Hp.
  rewrite (F _ (λ n, state (paxos n)) : state (paxos (nd r')) = state (paxos (nd r))), (Hph Hl).
  rewrite (F _ (λ n, accepted_pn (paxos n)) : accepted_pn (paxos (nd r')) = accepted_pn (paxos (nd r))).
  destruct Hp as (_ & Hnl & Hnv & Hb & Hv & Huc).
  split; [rewrite <- Hio; apply (F _ io)|]. split; [rewrite <- Hnl; apply (F _ (λ n, num_last (paxos n)))|].
  split; [rewrite <- Hnv; apply (F _ (λ n, new_value (paxos n)))|]. split; [done|]. split.
  - intros m c v Hm Hc Hvm. left. destruct (Hv m c v Hm Hc Hvm) as [?|(? & _)]; lia.
  - left. destruct Huc as [[Eu Ep]|[Eu _]].
    + rewrite Eu in Hu. cbn in Hu. by rewrite Ep in Hu.
    + rewrite (proj2 (Z.leb_le _ _)), andb_true_r in Hu by lia. destruct (uncommitted_v (paxos (nd r)) =? 0) eqn:E0; [|done].
      zb. pose proof (wk_node_d cf s i Hi l0 L R _ _ (st_wk _ _ _ _ _ _ _ _ Hs)) as []. destruct nd_data0.
      pose proof (nv_io _ _ _ _ _ (wk_core _ _ _ _ _ _ _ _ (st_wk _ _ _ _ _ _ _ _ Hs))) as H. unfold io_ok in H. rewrite Hio in H. lia.
Qed.

Lemma learn_st : st G r'.
Proof.
  pose proof learn_field as F. assert (mstate (nd r') = mstate (nd r)) as Em by apply (F _ mstate).
  split; [|rewrite Em; apply learn_phase]. destruct (st_wk _ _ _ _ _ _ _ _ Hs). split.
  - rewrite <- wk_up0. apply (F _ up).
  - done.
  - lia.
  - done.
  - apply learn_dead.
  - intros HR. change (role_ok G i (shell (nd r'))). rewrite Esh. by apply wk_role0.
  - apply (core_move cf i G G (view s i r) (view s i r') (nd r) (nd r') wk_core0).
    + split; [apply (F _ (λ n, last_pn (paxos n)))|]. split; [done|]. split; [done|].
      split; [apply (F _ (λ n, epoch (elector n)))|]. split; [apply (F _ (λ n, electing_me (elector n)))|].
      split; [apply (F _ (λ n, acked_me (elector n)))|apply (F _ (λ n, peer_last_committed (paxos n)))].
    + unfold io_ok. rewrite (F _ io : io (nd r') = io (nd r)), Hio. done.
    + intros _. rewrite <- Hio. apply (F _ io).
    + rewrite Em. unfold updating. rewrite (F _ (λ n, state (paxos n)) : state (paxos (nd r')) = state (paxos (nd r))).
      rewrite (F _ (λ n, accepted_pn (paxos n)) : accepted_pn (paxos (nd r')) = accepted_pn (paxos (nd r))). apply wk_core0.
    + intros x Hx. apply (nv_pending _ _ _ _ _ wk_core0 x). rewrite <- Hx. symmetry. apply (F _ (λ n, pending_proposal (paxos n))).
    + rewrite Em. intros Hl. apply (leads_keep cf s i G G r r' []); try done.
      * by apply (nv_leads _ _ _ _ _ wk_core0).
      * by rewrite app_nil_r.
      * apply (F _ (λ n, accepted_pn (paxos n))).
      * apply (F _ quorum).
      * intros p _ _ Hup. unfold updating in Hup. rewrite (Hph Hl) in Hup. by destruct Hup.
      * by intros b m ?%not_elem_of_nil.
Qed.
End Learn.

(** What a monitor has learned from the message [m]. *)
Definition learned (r r' : run) (m : MMonPaxos) : Prop :=
  out r' = out r ∧ shell (nd r') = shell (nd r) ∧ last_committed (paxos (nd r)) <= last_committed (paxos (nd r')) ∧
  ((∀ w, last_committed (paxos (nd r)) < w <= p_last_committed m → w ∈ (p_values m).*1) →
   p_last_committed m <= last_committed (paxos (nd r'))).

Lemma todo_next lc mlc vals w : lc < w <= mlc → StronglySorted (λ a b : Z * bufferlist, a.1 < b.1) vals → w ∈ vals.*1 →
  Paxos.take_upto mlc (Paxos.skip_upto lc vals) ≠ [].
Proof.
  intros Hw Hsort Hin. destruct (skip_upto_spec lc vals Hsort) as [Hs Hmem].
  apply list_elem_of_fmap in Hin as (e & -> & He). assert (e ∈ Paxos.skip_upto lc vals) as He' by (apply Hmem; split; [done|lia]).
  destruct (Paxos.skip_upto lc vals) as [|e0 l]; [by apply not_elem_of_nil in He'|]. cbn.
  rewrite (proj2 (Z.leb_le _ _)); [done|]. apply elem_of_cons in He' as [->|He']; [lia|].
  apply StronglySorted_inv in Hs as [_ Hs]. pose proof (proj1 (Forall_forall _ _) Hs e He'). cbn in *. lia.
Qed.

Lemma store_state_ok G r m : st G r → io (nd r) = Idle →
  (mstate (nd r) = STATE_LEADER → state (paxos (nd r)) = STATE_RECOVERING) →
  vals_ok (log G) (p_last_committed m) (p_values m) →
  wp (Paxos.store_state m) (λ _ r', st G r' ∧ learned r r' m) dead r.
Proof.
  intros Hs Hio Hph Hv. unfold Paxos.store_state. apply wp_get. set (lc := last_committed (paxos (nd r))).
  assert (∀ b : bool, ((∀ w, lc < w <= p_last_committed m → w ∈ (p_values m).*1) → p_last_committed m <= lc) →
    wp (ret b) (λ _ r', st G r' ∧ learned r r' m) dead r) as Hskip.
  { intros b H. apply wp_ret. split; [done|]. split; [done|]. split; [done|]. split; [done|exact H]. }
  destruct (match p_values m with e :: _ => lc + 1 <? e.1 | [] => false end) eqn:Efst.
  { apply Hskip. intros H. destruct (Z_le_gt_dec (p_last_committed m) lc) as [|Hgt]; [done|]. specialize (H (lc + 1)).
    destruct (p_values m) as [|e vals] eqn:Ev; [done|]. zb. exfalso. destruct Hv as [Hsort _ _].
    assert (lc + 1 ∈ (e :: vals).*1) as Hin by (apply H; lia). cbn in Hin. apply elem_of_cons in Hin as [?|Hin]; [lia|].
    pose proof (vsorted_head _ _ _ Hsort Hin). lia. }
  destruct (todo_chain (log G) lc (p_last_committed m) (p_values m) Hv) as [Hch Hlen].
  { intros e w E. rewrite E in Efst. zb. lia. }
  set (todo := Paxos.take_upto (p_last_committed m) (Paxos.skip_upto lc (p_values m))) in *.
  destruct (last todo) as [e|] eqn:Elast.
  2:{ apply Hskip. intros H. destruct (Z_le_gt_dec (p_last_committed m) lc) as [|Hgt]; [done|]. exfalso.
      apply (todo_next lc (p_last_committed m) (p_values m) (lc + 1)); [lia|apply Hv|apply H; lia|]. fold todo. by apply last_None. }
  assert (todo ≠ []) as Hne by (intros E; by rewrite E in Elast).
  assert (length todo ≠ 0%nat) as Hne0 by (intros E; by apply length_zero_iff_nil in E).
  pose proof (chain_last _ _ _ _ Hch Elast) as Ee. specialize (Hlen Hne).
  pose proof (nv_io _ _ _ _ _ (wk_core _ _ _ _ _ _ _ _ (st_wk _ _ _ _ _ _ _ _ Hs))) as Hiok. unfold io_ok in Hiok. rewrite Hio in Hiok.
  pose proof (nd_data _ _ _ _ (wk_node_d cf s i Hi l0 L R _ _ (st_wk _ _ _ _ _ _ _ _ Hs))) as Hdata.
  destruct (learn_all_data (log G) (lc + 1) todo (store (nd r)) Hch Hdata) as (Hd & Edl & Hn & E1 & E2 & E3); [unfold lc; lia|done|].
  pose proof (chain_commit (log G) (lc + 1) todo (store (nd r)) e.1 Hch Hne Ee) as Eops.
  rewrite <- Ee in Edl. set (d := learn_all (store (nd r)) todo) in *.
  apply wp_mod_paxos. tidy. apply wp_bind. unfold wp at 1. rewrite (store_values_chain _ _ _ _ _ Hch). apply wp_get. tidy.
  eapply (wp_when _ _ _ (λ _ r2, out r2 = out r ∧ store (nd r2) = store (nd r) ∧ shell (nd r2) = shell (nd r) ∧
    last_committed (paxos (nd r2)) = e.1 ∧
    if negb (uncommitted_v (paxos (nd r)) =? 0) && (uncommitted_v (paxos (nd r)) <=? e.1)
    then uncommitted_v (paxos (nd r2)) = 0 ∧ uncommitted_pn (paxos (nd r2)) = 0
    else uncommitted_v (paxos (nd r2)) = uncommitted_v (paxos (nd r)) ∧
         uncommitted_pn (paxos (nd r2)) = uncommitted_pn (paxos (nd r)))).
  - intros Hc. hnf. cbn [nd out]. rewrite Hc. split; [done|]. split; [done|]. split; [clear -r; by_fields|done].
  - intros Hc. cbn [nd out]. rewrite Hc. split; [done|]. split; [done|]. split; [clear -r; by_fields|done].
  - intros r2 (Eo & Es & Esh & El & Hu). apply wp_mod. cbn [nd out]. rewrite Es. cbn [app]. rewrite Eops.
    apply wp_get, wp_mod_paxos. tidy. apply wp_bind, wp_get. tidy. rewrite El, Edl, Z.eqb_refl. cbn [massert].
    apply wp_ret, wp_ret. clearbody d. set (r3 := mk_run _ _).
    assert (shell (nd r3) = shell (nd r)) as Esh3 by (rewrite <- Esh; unfold r3; clear -r2; by_fields).
    assert (store (nd r3) = d ∧ last_committed (paxos (nd r3)) = e.1 ∧ first_committed (paxos (nd r3)) = db_first_committed d ∧
      uncommitted_v (paxos (nd r3)) = uncommitted_v (paxos (nd r2)) ∧ uncommitted_pn (paxos (nd r3)) = uncommitted_pn (paxos (nd r2)))
      as (Es3 & El3 & Ef3 & Eu3 & Ep3) by (unfold r3; tidy; by rewrite El).
    assert (out r3 = out r) as Eo3 by done. clearbody r3. split.
    + eapply (learn_st G r r3 Hs Hio Hph); rewrite ?Es3, ?El3, ?Ef3, ?Eu3, ?Ep3; try done. unfold lc in *. lia.
    + split; [done|]. split; [done|]. rewrite El3. unfold lc in *. split; [lia|]. intros _. lia.
Qed.

(** ** Sharing *)

Lemma st_lite G r r' new : st G r → out r' = out r ++ new → norm (nd r') = norm (nd r) →
  (∀ b m, (b, m) ∈ new → quiet m ∧ pn_of OP_BEGIN m = None ∧ ids cf b ∧ b ≠ i ∧ msg_ok cf G (view s i r') i b m) → st G r'.
Proof.
  intros [Hw Hp] Eo En Hm. split; [by eapply (wk_lite cf s i Hi)|]. intros Hl. eapply phase_norm; [done|]. apply Hp.
  rewrite <- Hl. symmetry. exact (f_equal mstate En).
Qed.

(** The monitor has sent committed values. *)
Definition shared (r r' : run) : Prop :=
  norm (nd r') = norm (nd r) ∧ ∃ new, out r' = out r ++ new ∧ ∀ b m, (b, m) ∈ new → quiet m ∧ pn_of OP_BEGIN m = None.

Lemma shared_refl r : shared r r.
Proof. split; [done|]. exists []. rewrite app_nil_r. split; [done|]. by intros b m ?%not_elem_of_nil. Qed.
Lemma shared_trans r1 r2 r3 : shared r1 r2 → shared r2 r3 → shared r1 r3.
Proof.
  intros [E1 (n1 & O1 & H1)] [E2 (n2 & O2 & H2)]. split; [congruence|]. exists (n1 ++ n2).
  rewrite O2, O1, app_assoc. split; [done|]. intros b m [?|?]%elem_of_app; eauto.
Qed.

Lemma share_state_ok G r plc : st G r → io (nd r) = Idle → 0 <= plc →
  wp (Paxos.share_state plc) (λ vals r', r' = r ∧ vals_ok (log G) (last_committed (paxos (nd r))) vals ∧
    plc < last_committed (paxos (nd r)) ∧
    (∀ e, e ∈ vals → is_Some e.2 ∧ e.1 <= last_committed (paxos (nd r))) ∧
    (∀ v, plc < v → first_committed (paxos (nd r)) <= v <= last_committed (paxos (nd r)) → v ∈ vals.*1)) dead r.
Proof.
  intros Hs Hio Hplc. pose proof (st_wk _ _ _ _ _ _ _ _ Hs) as Hw. assert (dead r) as Hd by (by eapply wk_is_dead).
  pose proof (nv_io _ _ _ _ _ (wk_core _ _ _ _ _ _ _ _ Hw)) as Hiok. unfold io_ok in Hiok. rewrite Hio in Hiok. destruct Hiok as [El Ef].
  pose proof (nd_data _ _ _ _ (wk_node_d cf s i Hi l0 L R _ _ Hw)) as Hdata.
  unfold Paxos.share_state. apply wp_get, wp_massert; [done|]. intros Hlt. zb. apply wp_massert; [done|]. intros _. apply wp_ret.
  split; [done|]. cbn [id] in *. rewrite El, Ef in *. by destruct (shared_vals (log G) (store (nd r)) plc Hdata) as (H1 & H2 & H3).
Qed.

Lemma share_with_peers_ok G bs l : boot_ok cf s i l0 L R bs → Forall (λ e, ids cf e.1 ∧ e.1 ≠ i ∧ 0 <= e.2) l →
  ∀ r, st G r → io (nd r) = Idle →
  wp (Paxos.share_with_peers bs l) (λ b r', if b then gone cf s i l0 L R r' else st G r' ∧ shared r r') dead r.
Proof.
  intros Hb. induction 1 as [|[p plc] l (Hp & Hpi & Hplc) _ IH]; intros r Hs Hio; cbn [Paxos.share_with_peers fst snd] in *.
  { apply wp_ret. split; [done|apply shared_refl]. }
  apply wp_get. destruct (_ && _).
  { eapply wp_seq; [by eapply Hb|]. intros [] r' Hg. by apply wp_ret. }
  pose proof (st_wk _ _ _ _ _ _ _ _ Hs) as Hw.
  eapply (wp_when _ _ _ (λ _ r', st G r' ∧ shared r r')).
  - intros _. eapply wp_seq; [by eapply (share_state_ok G)|]. intros vals r' (-> & Hv & _). apply wp_get. hnf.
    assert (∀ r', out r' = out r ++ [(p, Paxos.mk_msg (nd r) OP_COMMIT 0 (last_committed (paxos (nd r))) 0 0 0 0 vals)] → nd r' = nd r →
      st G r' ∧ shared r r') as Hsend.
    { intros r' Eo En. split.
      - eapply st_lite; [exact Hs|exact Eo|by rewrite En|]. intros b m [= -> ->]%list_elem_of_singleton.
        split; [done|]. split; [done|]. split; [done|]. split; [done|]. split; [done|]. cbn.
        pose proof (nv_io _ _ _ _ _ (wk_core _ _ _ _ _ _ _ _ Hw)) as Hiok. unfold io_ok in Hiok. rewrite Hio in Hiok.
        destruct (nd_data _ _ _ _ (wk_node_d cf s i Hi l0 L R _ _ Hw)). lia.
      - split; [by rewrite En|]. eexists. split; [exact Eo|]. by intros b m [= -> ->]%list_elem_of_singleton. }
    by apply Hsend.
  - intros _. split; [done|apply shared_refl].
  - intros r1 [Hs1 Hsh].
    eapply wp_mono; [apply IH; [done|rewrite <- Hio; exact (f_equal io (proj1 Hsh))]| |done].
    intros [] r2; [done|]. intros [Hs2 Hsh2]. split; [done|]. by eapply shared_trans.
Qed.

(** ** Commits *)

Lemma handle_commit_ok bs G r m : boot_ok cf s i l0 L R bs → st G r →
  vals_ok (log G) (p_last_committed m) (p_values m) →
  wp (Paxos.handle_commit cf bs m) (λ _ r', working cf s i l0 L R r') dead r.
Proof.
  intros Hb Hs Hv. pose proof (st_wk _ _ _ _ _ _ _ _ Hs) as Hw. unfold Paxos.handle_commit. apply wp_get, wp_massert; [by eapply wk_is_dead|].
  intros Hp%bool_decide_eq_true. assert (io (nd r) = Idle) as Hio by (apply (nv_idle _ _ _ _ _ (wk_core _ _ _ _ _ _ _ _ Hw)); by rewrite Hp).
  eapply wp_seq; [apply (store_state_ok G r m Hs Hio); [by rewrite Hp|done]|]. intros b r1 [Hs1 (Eo & Esh & _)].
  assert (io (nd r1) = Idle) as Hio1 by (rewrite <- Hio; exact (f_equal io Esh)).
  eapply wp_seq; [by eapply (do_refresh_ok cf s i l0 L R)|]. intros [] r2; [intros ->|intros (G2 & Hs2 & _)]; apply wp_ret.
  - by exists G.
  - by exists G2.
Qed.

(** ** Answers *)

Definition unpeered (n : node) : node := norm (set_paxos (set_peer_last_committed [] (paxos n)) n).

Lemma st_peers G r r' : st G r → out r' = out r → unpeered (nd r') = unpeered (nd r) →
  Forall (λ e, ids cf e.1 ∧ e.1 ≠ i ∧ 0 <= e.2) (peer_last_committed (paxos (nd r'))) → st G r'.
Proof.
  intros [Hw Hp] Eo E Hpl. assert (∀ A (f : node → A), f (unpeered (nd r')) = f (unpeered (nd r))) as F by (intros; by rewrite E).
  assert (mstate (nd r') = mstate (nd r)) as Em by apply (F _ mstate). split.
  - apply (wk_quiet cf s i Hi l0 L R G r r' []); try done.
    + by rewrite app_nil_r.
    + apply (F _ rank).
    + apply (F _ up).
    + apply (F _ store).
    + apply (F _ (λ n, accepted_pn (paxos n))).
    + by intros b m ?%not_elem_of_nil.
    + intros HR. change (role_ok G i (unpeered (nd r'))). rewrite E. by apply Hw.
    + destruct (wk_core _ _ _ _ _ _ _ _ Hw). split; try done.
      * rewrite (F _ (λ n, last_pn (paxos n)) : last_pn (paxos (nd r')) = last_pn (paxos (nd r))).
        by rewrite (F _ store : store (nd r') = store (nd r)).
      * rewrite (F _ store : store (nd r') = store (nd r)).
        by rewrite (F _ (λ n, epoch (elector n)) : epoch (elector (nd r')) = epoch (elector (nd r))).
      * change (io_ok (unpeered (nd r'))). by rewrite E.
      * rewrite Em. intros Hne. rewrite <- (nv_idle0 Hne). apply (F _ io).
      * rewrite Em. unfold updating. rewrite (F _ (λ n, state (paxos n)) : state (paxos (nd r')) = state (paxos (nd r))).
        by rewrite (F _ (λ n, accepted_pn (paxos n)) : accepted_pn (paxos (nd r')) = accepted_pn (paxos (nd r))).
      * intros x Hx. apply (nv_pending0 x). rewrite <- Hx. symmetry. apply (F _ (λ n, pending_proposal (paxos n))).
      * rewrite (F _ (λ n, acked_me (elector n)) : acked_me (elector (nd r')) = acked_me (elector (nd r))).
        by rewrite (F _ (λ n, electing_me (elector n)) : electing_me (elector (nd r')) = electing_me (elector (nd r))).
      * rewrite Em. intros Hl. apply (leads_keep cf s i G G r r' []); try done; [by apply nv_leads0|by rewrite app_nil_r|..].
        -- apply (F _ (λ n, accepted_pn (paxos n))).
        -- apply (F _ (λ n, db_last_pn (store n))).
        -- apply (F _ quorum).
        -- intros p _ _ H1 H2. unfold updating. rewrite (F _ (λ n, state (paxos n)) : state (paxos (nd r')) = state (paxos (nd r))).
           rewrite (F _ (λ n, accepted (paxos n)) : accepted (paxos (nd r')) = accepted (paxos (nd r))).
           split; [done|]. split; [done|]. apply (F _ (λ n, last_committed (paxos n))).
        -- by intros b m ?%not_elem_of_nil.
  - rewrite Em. intros Hl. change (phase G i (unpeered (nd r'))). rewrite E. by apply Hp.
Qed.

(** A leader can start over with a new number. *)
Lemma wk_fresh G r : wk G r → io (nd r) = Idle → fresh cf s i l0 L G r.
Proof.
  intros [] Hio. split; try done. destruct wk_core0. by split.
Qed.

(** A monitor is told to refresh. *)
Lemma refresh_ok bs b r : boot_ok cf s i l0 L R bs → idle cf s i l0 L R r →
  wp (when b (mbind (Paxos.do_refresh cf bs) (λ _, ret tt))) (λ _ r', working cf s i l0 L R r') dead r.
Proof.
  intros Hb (G & Hs & Hio). destruct b; cbn [when]; [|apply wp_ret; by exists G].
  eapply wp_seq; [by eapply (do_refresh_ok cf s i l0 L R)|]. intros [] r2; [intros ->|intros (G2 & Hs2 & _)]; apply wp_ret.
  - by exists G.
  - by exists G2.
Qed.
End Peer.
End PaxosPeer.
