(* ===== verification/PaxosLast.v ===== *)
(** * Counting answers

    A leader counts each member of its quorum once; when all have answered, what it
    has learned is everything any of them has accepted under an earlier number, and
    it goes on with that value or with its own. *)
From stdpp Require Import gmap.
From S2P Require Import Prelude StdMap MonTypes Consensus Paxos Elector Monitor PaxosInv PaxosData PaxosStep PaxosLead PaxosCollect PaxosPeer.

Module PaxosLast.
Import MonTypes Consensus Monitor PaxosInv PaxosData PaxosStep PaxosLead PaxosCollect PaxosPeer.

(** Wrapping the first value again does not change what it is. *)
Lemma wrap_canon lc x : 0 <= lc → canon (lc + 1) (wrap lc x) = canon (lc + 1) x.
Proof.
  intros Hlc. unfold wrap. destruct (lc =? 0) eqn:E; [|done]. zb. subst lc. done.
Qed.
Lemma wrap_value_ok l lc x : 0 <= lc → value_ok l (lc + 1) x → value_ok l (lc + 1) (wrap lc x).
Proof.
  intros Hlc. unfold wrap. destruct (lc =? 0) eqn:E; [|done]. zb. subst lc. intros (k & sv & Hsv & ->). by exists (S k), sv.
Qed.

Lemma better_value_spec p m : Paxos.better_value p m = true ↔ p_uncommitted_pn m ≠ 0 ∧ uncommitted_pn p <= p_uncommitted_pn m ∧
  last_committed p <= p_last_committed m ∧ uncommitted_v p <= p_last_committed m + 1.
Proof. unfold Paxos.better_value. rewrite !andb_true_iff, negb_true_iff, Z.eqb_neq, !Z.leb_le. tauto. Qed.

Section Last.
Context (cf : config) (HN : 2 <= mon_count cf <= 100).
Context (Hmin : 0 <= paxos_min cf) (Htrim : 0 <= paxos_trim_min cf).
Context (s : sys) (i : Z) (Hi : ids cf i).
Context (l0 : list value) (L : Z → option (gset Z)) (R : Prop).
Abbreviation N := (mon_count cf).
Abbreviation wk := (wk cf s i l0 L R).
Abbreviation st := (st cf s i l0 L R).
Abbreviation dead := (dead cf s i l0).
Implicit Types (G : ghost) (r : run).

(** All but what counting an answer changes. *)
Definition uncounted (n : node) : node :=
  norm (set_paxos (set_num_last 0 (set_uncommitted_v 0 (set_uncommitted_pn 0 (set_uncommitted_value None (paxos n))))) n).

Section Count.
Context (G : ghost) (r r' : run) (from : Z) (m : MMonPaxos) (d0 : Z).
Context (Hs : st G r) (Hl : mstate (nd r) = STATE_LEADER) (Hrec : state (paxos (nd r)) = STATE_RECOVERING).
Context (Hin : from ∈ quorum (nd r)) (Hne : from ≠ i).
Context (Hnc : (from ∉ counted G (accepted_pn (paxos (nd r))))).
Context (HC : pns OP_COLLECT (net (view s i r) i from) = []) (HL : pns OP_LAST (net s from i) = []).
Context (Hpn : p_pn m = accepted_pn (paxos (nd r))) (Hacc : p_pn m <= acc s from).
Context (Hplc : p_last_committed m <= last_committed (paxos (nd r))) (Hd0 : d0 <= last_committed (paxos (nd r))).
Context (Hvotes : ∀ c v, c < p_pn m → voted G from c v → v <= p_last_committed m ∨ v <= d0 ∨
  v = p_last_committed m + 1 ∧ p_uncommitted_pn m ≠ 0 ∧ c <= p_uncommitted_pn m).
Context (Hunc : p_uncommitted_pn m ≠ 0 → ∃ x, map_find (p_last_committed m + 1) (p_values m) = Some (Some x) ∧
  began G (p_uncommitted_pn m) (p_last_committed m + 1) = Some x).
(** The leader has counted the answer. *)
Context (Eo : out r' = out r).
Context (En : uncounted (nd r') = uncounted (nd r)) (Enum : num_last (paxos (nd r')) = num_last (paxos (nd r)) + 1).
Context (Ebv : if Paxos.better_value (paxos (nd r)) m
  then uncommitted_v (paxos (nd r')) = p_last_committed m + 1 ∧ uncommitted_pn (paxos (nd r')) = p_uncommitted_pn m ∧
       uncommitted_value (paxos (nd r')) = default None (map_find (p_last_committed m + 1) (p_values m))
  else uncommitted_v (paxos (nd r')) = uncommitted_v (paxos (nd r)) ∧ uncommitted_pn (paxos (nd r')) = uncommitted_pn (paxos (nd r)) ∧
       uncommitted_value (paxos (nd r')) = uncommitted_value (paxos (nd r))).
Let b : Z := accepted_pn (paxos (nd r)).
Let G' : ghost := set_counted b ({[from]} ∪ counted G b) G.

Lemma count_field A (f : node → A) : f (uncounted (nd r')) = f (uncounted (nd r)).
Proof. by rewrite En. Qed.
Lemma count_acc : accepted_pn (paxos (nd r')) = b.
Proof. apply (count_field _ (λ n, accepted_pn (paxos n))). Qed.
Lemma count_lc : last_committed (paxos (nd r')) = last_committed (paxos (nd r)).
Proof. apply (count_field _ (λ n, last_committed (paxos n))). Qed.
Lemma count_here : counted G' b = {[from]} ∪ counted G b.
Proof. cbn. by rewrite Z.eqb_refl. Qed.

Lemma count_dead : inv cf G' (view s i (kill r')).
Proof.
  pose proof (st_wk _ _ _ _ _ _ _ _ Hs) as Hw. pose proof (wk_dead _ _ _ _ _ _ _ _ Hw) as HI. pose proof count_acc as Ea.
  assert (store (nd r') = store (nd r)) as Es by apply (count_field _ store).
  assert (rank (nd r') = rank (nd r)) as Er by apply (count_field _ rank).
  destruct (ld_pn _ _ _ _ _ (nv_leads _ _ _ _ _ (wk_core _ _ _ _ _ _ _ _ Hw) Hl)) as [Hb _]. fold b in Hb.
  apply (dead_step cf s i Hi G G' r r' []); rewrite ?Ea, ?Es; try done.
  - by rewrite app_nil_r.
  - by apply gext_set_counted.
  - by intros ? k ?%not_elem_of_nil.
  - by left.
  - intros p Hp _ _ Hld _ Hk. apply (link_out G); try done. destruct (ld_pn _ _ _ _ _ Hld) as [Hp' _]. cbn.
    rewrite (proj2 (Z.eqb_neq _ _)); [done|]. intros E. rewrite E in Hp'. unfold b in *. congruence.
  - by left.
  - intros c w Hcw Hci. destruct (iv_began _ _ _ HI c w Hcw) as [_ H]. by rewrite Hci, dpn_kill, dpn_here in H.
  - by left.
  - assert (votes_ok N G (acc (view s i r'))) as []; [|by split]. eapply votes_acc; [|apply HI]. intros n. rewrite acc_kill.
    destruct (Z.eq_dec n i) as [->|Hn]; [by rewrite !acc_here, Ea|by rewrite !acc_there].
  - assert (node_d cf G i (nd r')) as []; [|by split].
    eapply node_d_same; [by apply (wk_node_d cf s i Hi l0 L R)|done|done|done].
Qed.

Lemma count_leads : leads cf G' (view s i r') i (nd r').
Proof.
  pose proof (wk_core _ _ _ _ _ _ _ _ (st_wk _ _ _ _ _ _ _ _ Hs)) as Hcore. pose proof (nv_leads _ _ _ _ _ Hcore Hl) as Hld.
  pose proof count_acc as Ea. pose proof count_here as Ec.
  assert (leads cf G (view s i r') i (nd r')) as [].
  { apply (leads_keep cf s i G G r r' []); try done.
    - by rewrite app_nil_r.
    - apply (count_field _ (λ n, db_last_pn (store n))).
    - apply (count_field _ quorum).
    - intros p _ _ Hu. unfold updating in Hu. rewrite Hrec in Hu. by destruct Hu.
    - by intros p k ?%not_elem_of_nil. }
  rewrite Ea in *. assert (quorum (nd r') = quorum (nd r)) as Eq by apply (count_field _ quorum).
  destruct ld_counted0 as [Hc1 Hc2]. split; rewrite ?Ea, ?Ec; try done.
  - split; [by apply elem_of_union_r|]. apply union_subseteq. split; [|done]. apply singleton_subseteq_l. by rewrite Eq.
  - intros p [->%elem_of_singleton|Hp]%elem_of_union; [|by apply ld_promised0]. rewrite acc_there by done. unfold b. lia.
  - intros p Hp Hpi. destruct (ld_link0 p Hp Hpi). rewrite Ea in *. split; rewrite ?Ea, ?Ec; try done.
    intros [->%elem_of_singleton|Hp']%elem_of_union; [|by apply ln_counted0].
    rewrite net_there by done. rewrite net_here, Eo, <- net_here. done.
Qed.

Lemma count_phase : phase G' i (nd r').
Proof.
  pose proof (st_phase _ _ _ _ _ _ _ _ Hs Hl) as Hp. unfold phase in Hp |- *. rewrite Hrec in Hp.
  rewrite (count_field _ (λ n, state (paxos n)) : state (paxos (nd r')) = state (paxos (nd r))), Hrec, count_acc, count_here, count_lc.
  destruct Hp as (Hio & Hnl & Hnv & Hb & Hv & Huc). fold b in Hb, Hv, Hnl. cbn [began voted G' set_counted].
  split; [rewrite <- Hio; apply (count_field _ io)|]. split.
  { rewrite Enum, Hnl, size_union by (by apply disjoint_singleton_l). rewrite size_singleton. lia. }
  split; [rewrite <- Hnv; apply (count_field _ (λ n, new_value (paxos n)))|]. split; [done|].
  pose proof (iv_votes _ _ _ (wk_dead _ _ _ _ _ _ _ _ (st_wk _ _ _ _ _ _ _ _ Hs))) as Hvo.
  assert (0 <= last_committed (paxos (nd r))) as Hlc.
  { pose proof (nv_io _ _ _ _ _ (wk_core _ _ _ _ _ _ _ _ (st_wk _ _ _ _ _ _ _ _ Hs))) as H. unfold io_ok in H. rewrite Hio in H.
    destruct (nd_data _ _ _ _ (wk_node_d cf s i Hi l0 L R _ _ (st_wk _ _ _ _ _ _ _ _ Hs))). lia. }
  assert (p_uncommitted_pn m ≠ 0 → 0 < p_uncommitted_pn m) as Hpos.
  { intros Hu. destruct (Hunc Hu) as (x & _ & Hx). by apply (vo_value _ _ _ Hvo) in Hx as [? _]. }
  assert (∀ c, c < b → c < p_pn m) as Hbm by (unfold b; lia). destruct (Paxos.better_value (paxos (nd r)) m) eqn:Eb; destruct Ebv as (-> & -> & ->).
  - apply better_value_spec in Eb as (Hu & Hle & Hlc1 & Huv). assert (p_last_committed m = last_committed (paxos (nd r))) as Elc by lia.
    destruct (Hunc Hu) as (x & Hf & Hx). rewrite Hf, Elc in *. split.
    + intros k c v Hk Hc Hvk. apply elem_of_union in Hk as [->%elem_of_singleton|Hk].
      * destruct (Hvotes c v (Hbm c Hc) Hvk) as [?|[?|(-> & _ & ?)]]; [left; lia|left; lia|by right].
      * destruct (Hv k c v Hk Hc Hvk) as [?|(-> & _ & ?)]; [by left|right]. split; [done|]. split; [done|lia].
    + right. split; [done|]. exists x. done.
  - split; [|done]. intros k c v Hk Hc Hvk. apply elem_of_union in Hk as [->%elem_of_singleton|Hk]; [|by apply (Hv k)].
    destruct (Hvotes c v (Hbm c Hc) Hvk) as [?|[?|(-> & Hu & Hle)]]; [left; lia|left; lia|].
    destruct (Z_lt_ge_dec (p_last_committed m) (last_committed (paxos (nd r)))) as [|Hge]; [left; lia|right].
    assert (p_last_committed m = last_committed (paxos (nd r))) as Elc by lia. specialize (Hpos Hu). rewrite Elc in *.
    destruct Huc as [[Eu Ep]|[Eu _]].
    + exfalso. apply not_true_iff_false in Eb. apply Eb, better_value_spec. lia.
    + split; [done|]. split; [done|]. destruct (Z_le_gt_dec (uncommitted_pn (paxos (nd r))) (p_uncommitted_pn m)) as [|]; [|lia].
      exfalso. apply not_true_iff_false in Eb. apply Eb, better_value_spec. lia.
Qed.

Lemma count_st : st G' r'.
Proof.
  pose proof count_field as F. assert (mstate (nd r') = mstate (nd r)) as Em by apply (F _ mstate).
  split; [|intros _; apply count_phase]. destruct (st_wk _ _ _ _ _ _ _ _ Hs). split.
  - rewrite <- wk_up0. apply (F _ up).
  - done.
  - by rewrite (F _ store : store (nd r') = store (nd r)).
  - done.
  - apply count_dead.
  - intros HR. change (role_ok G i (uncounted (nd r'))). rewrite En. by apply wk_role0.
  - apply (core_move cf i G G' (view s i r) (view s i r') (nd r) (nd r') wk_core0).
    + split; [apply (F _ (λ n, last_pn (paxos n)))|]. split; [apply (F _ (λ n, db_last_pn (store n)))|].
      split; [apply (F _ (λ n, election_epoch (store n)))|].
      split; [apply (F _ (λ n, epoch (elector n)))|]. split; [apply (F _ (λ n, electing_me (elector n)))|].
      split; [apply (F _ (λ n, acked_me (elector n)))|apply (F _ (λ n, peer_last_committed (paxos n)))].
    + change (io_ok (uncounted (nd r'))). rewrite En. apply wk_core0.
    + by rewrite Em.
    + by rewrite Em, Hl.
    + intros x Hx. apply (nv_pending _ _ _ _ _ wk_core0 x). rewrite <- Hx. symmetry. apply (F _ (λ n, pending_proposal (paxos n))).
    + intros _. apply count_leads.
Qed.
End Count.

(** ** Everyone has answered *)

(** The value of the highest vote is safe. *)
Lemma can_begin_adopt G r0 r x : st G r0 → mstate (nd r0) = STATE_LEADER → state (paxos (nd r0)) = STATE_RECOVERING →
  counted G (accepted_pn (paxos (nd r0))) = quorum (nd r0) →
  uncommitted_v (paxos (nd r0)) = last_committed (paxos (nd r0)) + 1 → uncommitted_value (paxos (nd r0)) = Some x →
  out r = out r0 → base (nd r) = base (nd r0) → can_begin cf s i G r x.
Proof.
  intros Hs Hl Hrec Hq Huv Hux Eo Eb. pose proof (st_wk _ _ _ _ _ _ _ _ Hs) as Hw.
  assert (∀ A (f : node → A), f (base (nd r)) = f (base (nd r0))) as F by (intros; by rewrite Eb).
  assert (accepted_pn (paxos (nd r)) = accepted_pn (paxos (nd r0))) as Ea by apply (F _ (λ n, accepted_pn (paxos n))).
  assert (last_committed (paxos (nd r)) = last_committed (paxos (nd r0))) as El by apply (F _ (λ n, last_committed (paxos n))).
  assert (quorum (nd r) = quorum (nd r0)) as Eq by apply (F _ quorum).
  destruct (nv_leads _ _ _ _ _ (wk_core _ _ _ _ _ _ _ _ Hw) Hl).
  pose proof (st_phase _ _ _ _ _ _ _ _ Hs Hl) as Hp. unfold phase in Hp. rewrite Hrec, Hq in Hp.
  destruct Hp as (Hio & _ & _ & Hb & Hv & Huc).
  pose proof (nv_io _ _ _ _ _ (wk_core _ _ _ _ _ _ _ _ Hw)) as Hiok. unfold io_ok in Hiok. rewrite Hio in Hiok.
  destruct (nd_data _ _ _ _ (wk_node_d cf s i Hi l0 L R _ _ Hw)). set (lc := last_committed (paxos (nd r0))) in *.
  assert (∃ u, began G u (lc + 1) = Some x ∧ uncommitted_pn (paxos (nd r0)) = u) as (u & Hx & Eu).
  { destruct Huc as [[Hz _]|(_ & y & Hy & Hby)]; [lia|]. rewrite Hux in Hy. injection Hy as <-. by eexists. }
  pose proof (iv_votes _ _ _ (wk_dead _ _ _ _ _ _ _ _ Hw)) as Hvo.
  assert (votes_ok N G (acc (view s i r))) as Hvo'.
  { eapply votes_acc; [|exact Hvo]. intros n. rewrite acc_kill.
    destruct (Z.eq_dec n i) as [->|Hn]; [by rewrite !acc_here, Ea|by rewrite !acc_there]. }
  split; rewrite ?Ea, ?El, ?Eq; try done.
  - rewrite <- Hl. apply (F _ mstate).
  - rewrite <- Hio. apply (F _ io).
  - intros m c w Hm Hc Hmv. destruct (Hv m c w Hm Hc Hmv) as [?|(? & _)]; lia.
  - intros v. rewrite Hb. by intros ?%is_Some_None.
  - intros p. rewrite Eq, Ea, net_here, Eo, <- net_here. intros Hp Hpi. rewrite net_there, <- (net_there s i r0) by done.
    apply (calm_start cf s i l0 L R G r0); try done. intros q _ Hu. unfold updating in Hu. rewrite Hrec in Hu. by destruct Hu.
  - apply wrap_value_ok; [lia|]. by apply (vo_value _ _ _ Hvo) in Hx as (_ & _ & ?).
  - apply (safe_adopt N G (acc (view s i r)) (accepted_pn (paxos (nd r0))) (lc + 1) (wrap lc x) x u (quorum (nd r0))); try done.
    + apply ld_quorum0.
    + intros n Hn. rewrite <- Hq in Hn. etrans; [by apply ld_promised0|]. destruct (Z.eq_dec n i) as [->|Hne].
      * by rewrite !acc_here, Ea.
      * by rewrite !acc_there.
    + intros n c Hn Hc Hvn. destruct (Hv n c _ Hn Hc Hvn) as [?|(_ & _ & ?)]; [lia|]. by rewrite <- Eu.
    + symmetry. apply wrap_canon. lia.
Qed.

Lemma collect_done_ok bs G r b : boot_ok cf s i l0 L R bs → st G r → mstate (nd r) = STATE_LEADER → state (paxos (nd r)) = STATE_RECOVERING →
  counted G (accepted_pn (paxos (nd r))) = quorum (nd r) →
  wp (Paxos.collect_done cf bs b) (λ _ r', idle cf s i l0 L R r') dead r.
Proof.
  intros Hbs Hs Hl Hrec Hq. unfold Paxos.collect_done. eapply (wp_seq _ _ (λ _ r1, out r1 = out r ∧ unpeered (nd r1) = unpeered (nd r) ∧
    peer_last_committed (paxos (nd r1)) = [])).
  { split; [done|]. split; [|done]. clear -r. unfold unpeered. by_fields. }
  intros [] r1 (Eo & Eu & Ep). assert (st G r1) as Hs1 by (eapply (st_peers cf s i Hi); [exact Hs|done|done|by rewrite Ep]).
  assert (∀ A (f : node → A), f (unpeered (nd r1)) = f (unpeered (nd r))) as F by (intros; by rewrite Eu).
  assert (mstate (nd r1) = STATE_LEADER) as Hl1 by (rewrite <- Hl; apply (F _ mstate)).
  assert (state (paxos (nd r1)) = STATE_RECOVERING) as Hrec1 by (rewrite <- Hrec; apply (F _ (λ n, state (paxos n)))).
  assert (counted G (accepted_pn (paxos (nd r1))) = quorum (nd r1)) as Hq1.
  { rewrite (F _ (λ n, accepted_pn (paxos n)) : accepted_pn (paxos (nd r1)) = accepted_pn (paxos (nd r))), Hq. symmetry. apply (F _ quorum). }
  clear Eo Eu Ep F Hs Hl Hrec Hq r. pose proof (st_wk _ _ _ _ _ _ _ _ Hs1) as Hw1.
  pose proof (st_phase _ _ _ _ _ _ _ _ Hs1 Hl1) as Hp. unfold phase in Hp. rewrite Hrec1, Hq1 in Hp.
  destruct Hp as (Hio & _ & Hnv & Hb & Hv & Huc).
  apply wp_get. destruct (_ && _) eqn:Ec.
  - apply andb_true_iff in Ec as [Huv Hne]. zb. destruct (uncommitted_value (paxos (nd r1))) as [x|] eqn:Hux; [|done].
    eapply (wp_seq _ _ (λ _ r2, out r2 = out r1 ∧ base (nd r2) = base (nd r1) ∧ pending_proposal (paxos (nd r2)) = pending_proposal (paxos (nd r1)))).
    { split; [done|]. split; [|done]. clear -r1. unfold base. by_fields. }
    intros [] r2 (Eo & Eb & Epp). eapply wp_seq; [apply (begin_wp cf HN s i Hi l0 L R G r2 x)|].
    + apply (wk_base cf s i Hi l0 L R G r1); try done.
      * intros _ p _ Hu. unfold updating in Hu. rewrite Hrec1 in Hu. by destruct Hu.
      * by rewrite Hl1.
      * rewrite Epp. apply Hw1.
    + by eapply (can_begin_adopt G r1).
    + intros [] r3 (G3 & ? & ? & _). apply wp_ret. by exists G3.
  - eapply wp_seq; [by apply (extend_lease_ok cf s i Hi l0 L R G)|]. intros [] r2 [Hw2 E2].
    assert (∀ A (f : node → A), f (norm (nd r2)) = f (norm (nd r1))) as F by (intros; by rewrite E2).
    assert (io (nd r2) = Idle) as Hio2 by (rewrite <- Hio; apply (F _ io)).
    assert (st G r2) as Hs2.
    { split; [done|]. intros _. eapply phase_norm; [done|]. by apply (st_phase _ _ _ _ _ _ _ _ Hs1). }
    eapply wp_seq; [by eapply (do_refresh_ok cf s i l0 L R)|]. intros [] r3.
    + intros ->. eapply (wp_when _ _ _ (λ _ r', idle cf s i l0 L R r')); [intros _|done|intros r' ?; by apply wp_ret].
      eapply wp_mono; [apply (finish_round_ok cf HN s i Hi l0 L R G r2 Hmin Htrim Hw2 Hio2)|intros [] r' (G' & ? & ? & _); by exists G'|done].
      * apply (ready_norm G (nd r1)); [done|]. split; [done|]. split; [|intros v; rewrite Hb; by intros ?%is_Some_None].
        intros m c w Hm Hc Hmv. destruct (Hv m c w Hm Hc Hmv) as [?|(-> & Hu & _)]; [done|].
        destruct Huc as [[Hz _]|(Hz & x & Hx & _)].
        -- pose proof (nv_io _ _ _ _ _ (wk_core _ _ _ _ _ _ _ _ Hw1)) as H. unfold io_ok in H. rewrite Hio in H.
           destruct (nd_data _ _ _ _ (wk_node_d cf s i Hi l0 L R _ _ Hw1)). lia.
        -- rewrite Hx, (proj2 (Z.eqb_eq _ _) Hz) in Ec. done.
      * rewrite <- Hnv. apply (F _ (λ n, new_value (paxos n))).
      * unfold updating. rewrite (F _ (λ n, state (paxos n)) : state (paxos (nd r2)) = state (paxos (nd r1))), Hrec1. by intros [].
    + intros (G3 & ? & _ & ?). cbn [when]. apply wp_bind, wp_ret, wp_ret. by exists G3.
Qed.

(** ** The handler *)

Lemma shell_norm n n' : norm n' = norm n → shell n' = shell n.
Proof.
  intros E. assert (∀ k, shell k = shell (norm k)) as H by (intros [? ? ? ? [] [] ? ? ? ? ? ?]; cbv; reflexivity).
  by rewrite (H n'), (H n), E.
Qed.
Lemma unpeered_shell n : unpeered (shell n) = shell (unpeered n).
Proof. destruct n as [? ? ? ? [] [] ? ? ? ? ? ?]. cbv. reflexivity. Qed.

Section Handler.
Context (HR : R) (bs : M unit) (Hbs : boot_ok cf s i l0 L R bs).
Context (G : ghost) (r : run) (from : Z) (m : MMonPaxos) (Hs : st G r).
Context (Hfrom : ids cf from) (Hne : from ≠ i).
Context (Hok : last_ok cf G (view s i r) from i m) (Hep : p_epoch m = epoch (elector (nd r))).
(** The answer has left the channel; the sender was not counted before. *)
Context (Hnc : mstate (nd r) = STATE_LEADER → (from ∉ counted G (accepted_pn (paxos (nd r))))).
Context (Hch : mstate (nd r) = STATE_LEADER → p_pn m = accepted_pn (paxos (nd r)) →
  pns OP_COLLECT (net (view s i r) i from) = [] ∧ pns OP_LAST (net s from i) = []).

Lemma last_member : mstate (nd r) = STATE_LEADER → from ∈ quorum (nd r).
Proof.
  intros Hl. destruct Hok. destruct lt_quorum0 as (Q & HQ & Hin). rewrite Hep in HQ.
  pose proof (wk_role _ _ _ _ _ _ _ _ (st_wk _ _ _ _ _ _ _ _ Hs) HR) as [Hr _]. rewrite (Hr Hl) in HQ. congruence.
Qed.

Lemma last_recovering : mstate (nd r) = STATE_LEADER → state (paxos (nd r)) = STATE_RECOVERING.
Proof.
  intros Hl. pose proof (st_phase _ _ _ _ _ _ _ _ Hs Hl) as Hp. specialize (Hnc Hl). pose proof (last_member Hl) as Hm.
  unfold phase in Hp. destruct (state (paxos (nd r))); [done|..]; destruct Hp as [E _]; rewrite E in Hnc; done.
Qed.

Lemma last_idle : mstate (nd r) = STATE_LEADER → last_committed (paxos (nd r)) = db_last_committed (store (nd r)).
Proof.
  intros Hl. pose proof (st_phase _ _ _ _ _ _ _ _ Hs Hl) as Hp. unfold phase in Hp. rewrite (last_recovering Hl) in Hp.
  pose proof (nv_io _ _ _ _ _ (wk_core _ _ _ _ _ _ _ _ (st_wk _ _ _ _ _ _ _ _ Hs))) as H. unfold io_ok in H.
  rewrite (proj1 Hp) in H. apply H.
Qed.

(** The rest of the handler, once the values of the answer are stored and shared. *)
Lemma last_count r3 nr : mstate (nd r) = STATE_LEADER → st G r3 → unpeered (shell (nd r3)) = unpeered (shell (nd r)) →
  last_committed (paxos (nd r)) <= last_committed (paxos (nd r3)) → p_last_committed m <= last_committed (paxos (nd r3)) →
  (∃ new, out r3 = out r ++ new ∧ ∀ b k, (b, k) ∈ new → quiet k ∧ pn_of OP_BEGIN k = None) →
  wp (mbind (get paxos) (λ p, mbind
      (if accepted_pn p <? p_pn m then
         mbind (mod_paxos (set_collect_timeout_event false)) (λ _, mbind (Paxos.collect (p_pn m)) (λ _, ret nr))
       else if p_pn m =? accepted_pn p then
         mbind (mod_paxos (set_num_last (num_last p + 1))) (λ _,
         mbind (when (Paxos.better_value p m)
           (mod_paxos (λ p, set_uncommitted_v (p_last_committed m + 1)
             (set_uncommitted_pn (p_uncommitted_pn m)
               (set_uncommitted_value (default None (map_find (p_last_committed m + 1) (p_values m))) p))))) (λ _,
         mbind (get quorum) (λ q,
         if num_last p + 1 =? Z.of_nat (size q) then Paxos.collect_done cf bs nr else ret nr)))
       else ret nr) (λ nr', when nr' (mbind (Paxos.do_refresh cf bs) (λ _, ret tt)))))
    (λ _ r', working cf s i l0 L R r') dead r3.
Proof.
  intros Hl Hs3 Esh Hlc Hplc (new & Eo & Hnew).
  assert (∀ A (f : node → A), f (unpeered (shell (nd r3))) = f (unpeered (shell (nd r)))) as F by (intros; by rewrite Esh).
  pose proof (st_wk _ _ _ _ _ _ _ _ Hs3) as Hw3.
  assert (mstate (nd r3) = STATE_LEADER) as Hl3 by (rewrite <- Hl; apply (F _ mstate)).
  assert (state (paxos (nd r3)) = STATE_RECOVERING) as Hrec by (rewrite <- (last_recovering Hl); apply (F _ (λ n, state (paxos n)))).
  assert (accepted_pn (paxos (nd r3)) = accepted_pn (paxos (nd r))) as Ea by apply (F _ (λ n, accepted_pn (paxos n))).
  assert (quorum (nd r3) = quorum (nd r)) as Eq by apply (F _ quorum).
  pose proof (st_phase _ _ _ _ _ _ _ _ Hs3 Hl3) as Hp. unfold phase in Hp. rewrite Hrec in Hp. destruct Hp as (Hio & Hnl & Hnv & _).
  apply wp_get. apply (wp_seq _ _ (λ _ r', idle cf s i l0 L R r')); [|intros b r' Hr'; by apply (refresh_ok cf s i)].
  destruct (accepted_pn (paxos (nd r3)) <? p_pn m) eqn:E1; [|destruct (p_pn m =? accepted_pn (paxos (nd r3))) eqn:E2; zb].
  - eapply (wp_seq _ _ (λ _ r4, out r4 = out r3 ∧ norm (nd r4) = norm (nd r3))); [split; [done|clear -r3; by_fields]|].
    intros [] r4 [Eo4 En4]. assert (wk G r4) as Hw4.
    { apply (wk_lite cf s i Hi l0 L R G r3 r4 []); [done|by rewrite app_nil_r|done|by intros ? ? ?%not_elem_of_nil]. }
    eapply wp_seq; [apply (collect_wp cf HN s i Hi l0 L R (p_pn m) G r4)|].
    + apply (wk_fresh cf s i l0 L R); [done|]. rewrite <- Hio. exact (f_equal io En4).
    + rewrite <- Hnv. exact (f_equal (λ n, new_value (paxos n)) En4).
    + pose proof (wk_role _ _ _ _ _ _ _ _ Hw4 HR) as [Hr _]. apply Hr. rewrite <- Hl3. exact (f_equal mstate En4).
    + intros _. by apply (wk_role _ _ _ _ _ _ _ _ Hw4).
    + intros [] r5 (G5 & ? & ? & _). apply wp_ret. by exists G5.
  - apply wp_mod_paxos. set (p := paxos (nd r3)).
    eapply (wp_when _ _ _ (λ _ r4, out r4 = out r3 ∧ uncounted (nd r4) = uncounted (nd r3) ∧ num_last (paxos (nd r4)) = num_last p + 1 ∧
      if Paxos.better_value p m
      then uncommitted_v (paxos (nd r4)) = p_last_committed m + 1 ∧ uncommitted_pn (paxos (nd r4)) = p_uncommitted_pn m ∧
           uncommitted_value (paxos (nd r4)) = default None (map_find (p_last_committed m + 1) (p_values m))
      else uncommitted_v (paxos (nd r4)) = uncommitted_v p ∧ uncommitted_pn (paxos (nd r4)) = uncommitted_pn p ∧
           uncommitted_value (paxos (nd r4)) = uncommitted_value p)).
    { intros Hbv. hnf. rewrite Hbv. split; [done|]. split; [|done]. unfold p. clear -r3 m. unfold uncounted. tidy. generalize (p_last_committed m + 1) (default None (map_find (p_last_committed m + 1) (p_values m))) (p_uncommitted_pn m). clear m. intros. by_fields. }
    { intros Hbv. rewrite Hbv. split; [done|]. split; [|done]. unfold p. clear -r3. unfold uncounted. by_fields. }
    intros r4 (Eo4 & En4 & Enum & Ebv). apply wp_get. destruct Hok.
    assert (from ∈ quorum (nd r3)) as Hin by (rewrite Eq; by apply last_member).
    assert (st (set_counted (accepted_pn p) ({[from]} ∪ counted G (accepted_pn p)) G) r4) as Hs4.
    { destruct (Hch Hl) as [HC HL]; [congruence|].
      apply (count_st G r3 r4 from m (db_last_committed (store (nd r)))); try done.
      - rewrite Ea. by apply Hnc.
      - rewrite net_here, Eo, msgs_to_app, app_assoc, <- net_here, pns_app, HC. apply pns_empty. intros k Hk%elem_msgs_to.
        by destruct (Hnew from k Hk) as [(? & _) _].
      - destruct lt_pn0 as ([_ H] & _). by rewrite acc_there in H.
      - etrans; [|exact Hlc]. rewrite last_idle by done. lia.
      - intros c v Hc Hv. destruct (lt_votes0 c v Hc Hv) as [?|[H|?]]; [by left|right; left|by right; right]. by rewrite dlc_here in H. }
    destruct (num_last p + 1 =? Z.of_nat (size (quorum (nd r4)))) eqn:Ecnt.
    + zb. eapply (collect_done_ok bs _ r4 nr Hbs Hs4).
      * rewrite <- Hl3. exact (f_equal mstate En4).
      * rewrite <- Hrec. exact (f_equal (λ n, state (paxos n)) En4).
      * rewrite (f_equal (λ n, accepted_pn (paxos n)) En4 : accepted_pn (paxos (nd r4)) = accepted_pn p).
        destruct (nv_leads _ _ _ _ _ (wk_core _ _ _ _ _ _ _ _ (st_wk _ _ _ _ _ _ _ _ Hs4))) as [_ _ Hc _ _];
          [rewrite <- Hl3; exact (f_equal mstate En4)|].
        rewrite (f_equal (λ n, accepted_pn (paxos n)) En4 : accepted_pn (paxos (nd r4)) = accepted_pn p) in Hc.
        apply set_subseteq_size_eq; [apply Hc|]. cbn. rewrite Z.eqb_refl, size_union, size_singleton by (apply disjoint_singleton_l; unfold p; rewrite Ea; by apply Hnc).
        fold p in Hnl. lia.
    + apply wp_ret. eexists. split; [exact Hs4|]. rewrite <- Hio. exact (f_equal io En4).
  - apply wp_ret. by exists G.
Qed.

Lemma handle_last_ok : wp (Paxos.handle_last cf bs from m) (λ _ r', working cf s i l0 L R r') dead r.
Proof.
  unfold Paxos.handle_last. apply wp_get. cbn [id]. destruct (is_leader (nd r)) eqn:El; cbn [negb]; [|apply wp_ret; by exists G].
  apply bool_decide_eq_true in El as Hl. pose proof (last_recovering Hl) as Hrec. pose proof Hok as [].
  eapply (wp_seq _ _ (λ _ r1, out r1 = out r ∧ unpeered (nd r1) = unpeered (nd r) ∧
    peer_last_committed (paxos (nd r1)) = map_set from (p_last_committed m) (peer_last_committed (paxos (nd r))))).
  { split; [done|]. split; [|done]. clear -r. unfold unpeered. tidy. generalize (map_set from (p_first_committed m) (peer_first_committed (paxos (nd r))))
      (map_set from (p_last_committed m) (peer_last_committed (paxos (nd r)))). intros. by_fields. }
  intros [] r1 (Eo & Eu & Ep). pose proof (wk_core _ _ _ _ _ _ _ _ (st_wk _ _ _ _ _ _ _ _ Hs)) as Hcore.
  assert (st G r1) as Hs1.
  { eapply (st_peers cf s i Hi); [exact Hs|done|done|]. rewrite Ep. apply map_set_Forall; [split; [done|split; [done|apply lt_range0]]|apply Hcore]. }
  assert (∀ A (f : node → A), f (unpeered (nd r1)) = f (unpeered (nd r))) as F by (intros; by rewrite Eu).
  assert (io (nd r) = Idle) as Hio.
  { pose proof (st_phase _ _ _ _ _ _ _ _ Hs Hl) as Hp. unfold phase in Hp. rewrite Hrec in Hp. apply Hp. }
  assert (io (nd r1) = Idle) as Hio1 by (rewrite <- Hio; apply (F _ io)).
  assert (last_committed (paxos (nd r1)) = last_committed (paxos (nd r))) as Elc by apply (F _ (λ n, last_committed (paxos n))).
  destruct (last_committed (paxos (nd r)) + 1 <? p_first_committed m) eqn:Efc.
  { eapply wp_mono; [by eapply Hbs|intros [] r2 (G2 & ? & _); by exists G2|done]. }
  zb. eapply wp_seq; [apply (store_state_ok cf s i Hi l0 L R G r1 m Hs1 Hio1)|].
  { intros _. rewrite <- Hrec. apply (F _ (λ n, state (paxos n))). }
  { done. }
  intros nr r2 [Hs2 (Eo2 & Esh2 & Hle2 & Hcov)]. apply wp_get.
  eapply wp_seq; [apply (share_with_peers_ok cf s i Hi l0 L R G bs _ Hbs); [|exact Hs2|]|].
  { exact (nv_peers _ _ _ _ _ (wk_core _ _ _ _ _ _ _ _ (st_wk _ _ _ _ _ _ _ _ Hs2))). }
  { rewrite <- Hio1. exact (f_equal io Esh2). }
  intros [] r3; [intros (G3 & ? & _); apply wp_ret; by exists G3|]. intros [Hs3 [En3 (new & Eo3 & Hnew)]].
  apply last_count; try done.
  - rewrite (shell_norm _ _ En3), Esh2, !unpeered_shell. by rewrite Eu.
  - rewrite (f_equal (λ n, last_committed (paxos n)) En3 : last_committed (paxos (nd r3)) = last_committed (paxos (nd r2))). lia.
  - rewrite (f_equal (λ n, last_committed (paxos n)) En3 : last_committed (paxos (nd r3)) = last_committed (paxos (nd r2))).
    apply Hcov. intros w Hw. apply lt_cover0; [lia|]. rewrite dlc_here, <- (last_idle Hl). lia.
  - exists new. split; [|done]. congruence.
Qed.
End Handler.
End Last.
End PaxosLast.
