(* ===== verification/PaxosPromise.v ===== *)
(** * Promises and votes

    What a peon does for the leader it follows: it promises a number and reports what
    it has accepted before, votes for a value under the number it has promised, and
    learns the lease; and how the leader counts the votes. *)
From stdpp Require Import gmap.
From S2P Require Import Prelude StdMap MonTypes Consensus Paxos Elector Monitor PaxosInv PaxosData PaxosStep PaxosLead PaxosCollect PaxosPeer.

Module PaxosPromise.
Import MonTypes Consensus Monitor PaxosInv PaxosData PaxosStep PaxosLead PaxosCollect PaxosPeer.

Section Promise.
Context (cf : config) (HN : 2 <= mon_count cf <= 100).
Context (s : sys) (i : Z) (Hi : ids cf i).
Context (l0 : list value) (L : Z → option (gset Z)) (R : Prop).
Abbreviation N := (mon_count cf).
Abbreviation wk := (wk cf s i l0 L R).
Abbreviation st := (st cf s i l0 L R).
Abbreviation dead := (dead cf s i l0).
Implicit Types (G : ghost) (r : run).

Lemma peon_idle G r : st G r → mstate (nd r) ≠ STATE_LEADER → io (nd r) = Idle ∧
  last_committed (paxos (nd r)) = db_last_committed (store (nd r)) ∧ first_committed (paxos (nd r)) = db_first_committed (store (nd r)).
Proof.
  intros [Hw _] Hl. pose proof (wk_core _ _ _ _ _ _ _ _ Hw) as Hc. pose proof (nv_idle _ _ _ _ _ Hc Hl) as Hio.
  pose proof (nv_io _ _ _ _ _ Hc) as H. unfold io_ok in H. by rewrite Hio in H.
Qed.

(** The phase of a monitor that does not lead is its own matter. *)
Lemma st_phase_free G r r' : st G r → mstate (nd r) ≠ STATE_LEADER → out r' = out r → base (nd r') = base (nd r) →
  (updating (paxos (nd r')) → accepted_pn (paxos (nd r)) mod 100 ≠ i) →
  pending_proposal (paxos (nd r')) = pending_proposal (paxos (nd r)) → st G r'.
Proof.
  intros Hs Hl Eo Eb Hu Ep. destruct (peon_idle G r Hs Hl) as [Hio _]. pose proof (st_wk _ _ _ _ _ _ _ _ Hs) as Hw. split.
  - apply (wk_base cf s i Hi l0 L R G r); try done. rewrite Ep. apply Hw.
  - intros Hl'. exfalso. apply Hl. rewrite <- Hl'. symmetry. exact (f_equal mstate Eb).
Qed.

(** ** The promise *)

Lemma promise_ok G r r' a c : st G r → mstate (nd r) ≠ STATE_LEADER → ¬ updating (paxos (nd r)) →
  accepted_pn (paxos (nd r)) < c → a ≠ i → c mod 100 = a → ids cf a → c <= dpn (view s i r) a →
  (∀ c', c' ∈ pns OP_COLLECT (net s a i) → c < c') →
  out r' = out r → store (nd r') = set_db_accepted_pn c (store (nd r)) →
  norm (set_store (store (nd r)) (nd r')) = norm (set_paxos (set_accepted_pn c (paxos (nd r))) (nd r)) → st G r'.
Proof.
  intros Hs Hl Hnu Hlt Ha Hc Hia Hd Hrest Eo Es En. pose proof (st_wk _ _ _ _ _ _ _ _ Hs) as Hw.
  assert (∀ A (f : node → A), f (norm (set_store (store (nd r)) (nd r'))) =
    f (norm (set_paxos (set_accepted_pn c (paxos (nd r))) (nd r)))) as F by (intros; by rewrite En).
  assert (accepted_pn (paxos (nd r')) = c) as Ea by apply (F _ (λ n, accepted_pn (paxos n))).
  assert (mstate (nd r') = mstate (nd r)) as Em by apply (F _ mstate).
  destruct (peon_idle G r Hs Hl) as (Hio & Elc & Efc). pose proof (wk_dead _ _ _ _ _ _ _ _ Hw) as HI.
  split; [|by rewrite Em]. destruct Hw. split.
  - rewrite <- wk_up0. apply (F _ up).
  - done.
  - by rewrite Es.
  - done.
  - apply (dead_step cf s i Hi G G r r' []); rewrite ?Ea, ?Es; try done.
    + by rewrite app_nil_r.
    + apply gext_refl.
    + lia.
    + by intros ? m ?%not_elem_of_nil.
    + by left.
    + intros p _ _ _ _ _ Hk. by apply (link_out G).
    + right. intros a' c' Hc' _ E. apply Hrest. by rewrite <- Hc, E.
    + intros b v Hb Hbi. destruct (iv_began _ _ _ HI b v Hb) as [_ H]. by rewrite Hbi, dpn_kill, dpn_here in H.
    + right. rewrite Hc. split; [done|]. etrans; [exact Hd|]. by rewrite !dpn_there.
    + eapply votes_acc; [|apply HI]. intros n. rewrite acc_kill.
      destruct (Z.eq_dec n i) as [->|Hn]; [rewrite !acc_here, Ea; lia|by rewrite !acc_there].
    + pose proof (iv_node _ _ _ HI i Hi) as Hnd. rewrite view_here in Hnd. destruct Hnd. cbn in *.
      split; rewrite ?Ea, ?Es; try done; [rewrite <- nd_rank0; apply (F _ rank)|by destruct nd_data0|cbn; lia].
  - intros HR. split; [by rewrite Em|]. rewrite (F _ (λ n, electing_me (elector n)) : electing_me (elector (nd r')) = electing_me (elector (nd r))).
    rewrite (F _ (λ n, epoch (elector n)) : epoch (elector (nd r')) = epoch (elector (nd r))). by apply wk_role0.
  - apply (core_move cf i G G (view s i r) (view s i r') (nd r) (nd r') wk_core0); rewrite ?Em; try done.
    + unfold same_base. rewrite Es. split; [apply (F _ (λ n, last_pn (paxos n)))|]. split; [done|]. split; [done|].
      split; [apply (F _ (λ n, epoch (elector n)))|]. split; [apply (F _ (λ n, electing_me (elector n)))|].
      split; [apply (F _ (λ n, acked_me (elector n)))|apply (F _ (λ n, peer_last_committed (paxos n)))].
    + unfold io_ok. rewrite (F _ io : io (nd r') = io (nd r)), Hio, Es.
      rewrite (F _ (λ n, last_committed (paxos n)) : last_committed (paxos (nd r')) = last_committed (paxos (nd r))).
      by rewrite (F _ (λ n, first_committed (paxos n)) : first_committed (paxos (nd r')) = first_committed (paxos (nd r))).
    + intros _. rewrite <- Hio. apply (F _ io).
    + intros _ Hu. unfold updating in *. by rewrite (F _ (λ n, state (paxos n)) : state (paxos (nd r')) = state (paxos (nd r))) in Hu.
    + intros x Hx. apply (nv_pending _ _ _ _ _ wk_core0 x). rewrite <- Hx. symmetry. apply (F _ (λ n, pending_proposal (paxos n))).
Qed.

(** What a leader does not have yet of a peon that it has asked. *)
Definition unanswered G r (a : Z) : Prop :=
  up (nodes s a) = true → mstate (nodes s a) = STATE_LEADER → i ∈ quorum (nodes s a) →
  (i ∉ counted G (accepted_pn (paxos (nodes s a)))) ∧
  ∀ k, k ∈ net (view s i r) i a → pn_of OP_LAST k ≠ Some (accepted_pn (paxos (nodes s a))).

Lemma answer_link G n a c b into from k : leads cf G a b n → p_pn k = c → p_op k = OP_LAST →
  (i ∉ counted G (accepted_pn (paxos n))) → (∀ k, k ∈ from → pn_of OP_LAST k ≠ Some (accepted_pn (paxos n))) →
  (c = accepted_pn (paxos n) → pns OP_COLLECT into = []) →
  link G i n into from → link G i n into (from ++ [MsgPaxos k]).
Proof.
  intros Hld Hk Ho Hnc Hnl Hin []. split.
  - by intros ?.
  - intros l1 m l2 E Hm. apply app_eq_app in E as (l & [[E1 E2]|[E1 E2]]).
    + destruct l as [|x l]; cbn in E2.
      * injection E2 as -> ->. split; [|done]. apply Hin. cbn in Hm. rewrite Ho in Hm. congruence.
      * exfalso. injection E2 as -> E2. apply (Hnl x); [|done]. rewrite E1. apply elem_of_app. right. by left.
    + destruct l as [|x l]; cbn in E2.
      * injection E2 as <- <-. split; [|done]. apply Hin. cbn in Hm. rewrite Ho in Hm. congruence.
      * by destruct l.
  - rewrite tokens_app. unfold tokens at 3. cbn. rewrite Ho. cbn. lia.
  - intros m [Hm|[Hm Hp]]; [apply ln_round0; by left|]. apply elem_of_app in Hm as [Hm|Hm]; [apply ln_round0; by right|].
    apply list_elem_of_singleton in Hm as ->. cbn in Hp. by rewrite Ho in Hp.
Qed.

Lemma answer_ok G r r' a c k : st G r → mstate (nd r) ≠ STATE_LEADER → ids cf a → a ≠ i → p_op k = OP_LAST →
  p_pn k = accepted_pn (paxos (nd r)) → (accepted_pn (paxos (nd r)) mod 100 = a → accepted_pn (paxos (nd r)) = c) →
  (∀ c', c' ∈ pns OP_COLLECT (net s a i) → c < c') → unanswered G r a →
  last_ok cf G (view s i r) i a k → nd r' = nd r → out r' = out r ++ [(a, MsgPaxos k)] → st G r'.
Proof.
  intros Hs Hl Hia Ha Ho Hk Hc Hrest Hun Hok En Eo. pose proof (st_wk _ _ _ _ _ _ _ _ Hs) as Hw. pose proof (wk_dead _ _ _ _ _ _ _ _ Hw) as HI.
  assert (∀ b, msgs_to b [(a, MsgPaxos k)] = if decide (b = a) then [MsgPaxos k] else []) as Hto.
  { intros b. unfold msgs_to. rewrite filter_cons. cbn. destruct (decide (a = b)) as [->|Hne]; [by rewrite decide_True|].
    by rewrite decide_False by congruence. }
  split; [|by rewrite En]. destruct Hw. split; rewrite ?En; try done.
  - apply (dead_step cf s i Hi G G r r' [(a, MsgPaxos k)]); rewrite ?En; try done.
    + apply gext_refl.
    + intros b m [= -> ->]%list_elem_of_singleton. split; [done|]. split; [done|]. cbn. rewrite Ho. destruct Hok.
      split; rewrite ?dlc_there in * by done; try done.
      destruct lt_pn0 as (H1 & H2 & H3). rewrite acc_here, En, <- (acc_here s i r). split; [done|]. split; [done|].
        destruct (Z.eq_dec (p_pn k mod 100) i) as [E|Hne]; [rewrite E, dpn_here in *; by rewrite En|by rewrite dpn_there in *].
    + intros b. rewrite Hto. left. destruct (decide _); [|done]. cbn. by rewrite Ho.
    + intros b Hb Hup Hm Hld Hq Hlk. rewrite Hto. destruct (decide (b = a)) as [->|Hne]; [|by rewrite app_nil_r].
      destruct (Hun Hup Hm Hq) as [H1 H2]. rewrite net_here in H2. eapply answer_link; try done.
      intros E. destruct (pns OP_COLLECT (net s a i)) as [|c' l] eqn:El; [done|]. exfalso.
      assert (c' ∈ pns OP_COLLECT (net s a i)) as Hin by (rewrite El; by left). rewrite <- El in Hrest. specialize (Hrest c' Hin).
      destruct (ld_pn _ _ _ _ _ Hld) as (Hmod & Hdb & _). rewrite <- E in Hmod. specialize (Hc Hmod).
      apply list_elem_of_omap in Hin as (m & Hin & Hpm). rewrite <- (net_there s i (kill r)) in Hin by done.
      destruct (iv_msg _ _ _ HI a i m Hin) as (_ & _ & _ & Hmok). destruct m as [m|m]; [done|]. cbn in Hpm, Hmok.
      destruct (p_op m); try done. injection Hpm as <-. destruct Hmok as (_ & _ & [_ H] & _).
      unfold dpn in H. rewrite view_there in H by done. lia.
    + by left.
    + intros b v Hb Hbi. destruct (iv_began _ _ _ HI b v Hb) as [_ H]. by rewrite Hbi, dpn_kill, dpn_here in H.
    + by left.
    + eapply votes_acc; [|apply HI]. intros n. rewrite acc_kill.
      destruct (Z.eq_dec n i) as [->|Hn]; [by rewrite !acc_here, En|by rewrite !acc_there].
    + by apply (wk_node_d cf s i Hi l0 L R).
  - destruct wk_core0. by split.
Qed.
(** ** Collect *)

(** The uncommitted value travels after the committed ones. *)
Lemma vals_ok_snoc l lc vals bl : vals_ok l lc vals → 0 <= lc → (∀ e, e ∈ vals → e.1 <= lc) → vals_ok l lc (vals ++ [(lc + 1, bl)]).
Proof.
  intros [] Hlc Hle. split.
  - apply StronglySorted_app_2; [|done|repeat constructor]. intros x y Hx ->%list_elem_of_singleton. specialize (Hle x Hx). cbn. lia.
  - intros v b [Hv|Hv]%elem_of_app; [by apply vl_entry0|]. apply list_elem_of_singleton in Hv as [= -> ->]. split; [lia|lia].
  - intros v w Hv Hw. rewrite fmap_app in *. apply elem_of_app. apply elem_of_app in Hv as [Hv|Hv]; [left; by eapply vl_next0|].
    apply list_elem_of_singleton in Hv as ->. cbn in Hw. lia.
Qed.
Lemma find_snoc lc (vals : list (Z * bufferlist)) bl : (∀ e, e ∈ vals → e.1 <= lc) → map_find (lc + 1) (vals ++ [(lc + 1, bl)]) = Some bl.
Proof.
  intros Hle. rewrite map_find_app; [cbn; by rewrite Z.eqb_refl|]. apply Forall_forall. intros e He. specialize (Hle e He). cbn. lia.
Qed.

Section Collect.
Context (bs : M unit) (Hbs : boot_ok cf s i l0 L R bs) (from : Z) (m : MMonPaxos) (Hfrom : ids cf from) (Hne : from ≠ i).

(** What the peon reports: [vals] are the committed values the leader lacks. *)
Definition report (n : node) (vals : list (Z * bufferlist)) : MMonPaxos :=
  let lc := last_committed (paxos n) in
  let mk upn vals := mk_pmsg OP_LAST (epoch (elector n)) (first_committed (paxos n)) lc (accepted_pn_from (paxos n))
    (accepted_pn (paxos n)) upn 0 vals in
  match (if p_last_committed m <=? lc then versions (store n) !! (lc + 1) else None) with
  | Some bl => mk (pending_pn (store n)) (vals ++ [(lc + 1, bl)])
  | None => mk 0 vals
  end.

Lemma report_ok G r vals : st G r → mstate (nd r) ≠ STATE_LEADER → collect_ok G (view s i r) from i m →
  p_epoch m = epoch (elector (nd r)) → vals_ok (log G) (last_committed (paxos (nd r))) vals →
  (∀ e, e ∈ vals → e.1 <= last_committed (paxos (nd r))) →
  (∀ v, p_last_committed m < v → first_committed (paxos (nd r)) <= v <= last_committed (paxos (nd r)) → v ∈ vals.*1) →
  last_ok cf G (view s i r) i from (report (nd r) vals).
Proof.
  intros Hs Hl ((Q & HQ & Hin) & Hmod & Hpn & Hlc) Hep Hv Hle Hcov. pose proof (st_wk _ _ _ _ _ _ _ _ Hs) as Hw.
  pose proof (wk_dead _ _ _ _ _ _ _ _ Hw) as HI. pose proof (wk_node_d cf s i Hi l0 L R _ _ Hw) as Hnd.
  destruct (peon_idle G r Hs Hl) as (_ & El & Ef). pose proof (nd_data _ _ _ _ Hnd) as [].
  destruct (iv_acc _ _ _ HI i Hi) as [Ha1 Ha2]. rewrite acc_kill, dpn_kill, acc_here in *.
  set (x := if p_last_committed m <=? last_committed (paxos (nd r))
    then versions (store (nd r)) !! (last_committed (paxos (nd r)) + 1) else None).
  assert (p_op (report (nd r) vals) = OP_LAST ∧ p_epoch (report (nd r) vals) = epoch (elector (nd r)) ∧
    p_pn (report (nd r) vals) = accepted_pn (paxos (nd r)) ∧ p_last_committed (report (nd r) vals) = last_committed (paxos (nd r)) ∧
    p_first_committed (report (nd r) vals) = first_committed (paxos (nd r)) ∧
    p_uncommitted_pn (report (nd r) vals) = match x with Some _ => pending_pn (store (nd r)) | None => 0 end ∧
    p_values (report (nd r) vals) = vals ++ match x with Some bl => [(last_committed (paxos (nd r)) + 1, bl)] | None => [] end)
    as (_ & E1 & E2 & E3 & E4 & E5 & E6).
  { unfold report. fold x. destruct x; [done|]. by rewrite app_nil_r. }
  split; rewrite ?E1, ?E2, ?E3, ?E4, ?E5, ?E6.
  - exists Q. by rewrite <- Hep.
  - rewrite acc_here. split; [|done]. destruct (nd_pn _ _ _ _ Hnd). lia.
  - destruct x; [|by rewrite app_nil_r]. apply vals_ok_snoc; [done|lia|done].
  - lia.
  - intros v Hr Hd. rewrite fmap_app. apply elem_of_app. left. apply Hcov; lia.
  - intros c v Hc Hvo. destruct (nd_votes _ _ _ _ Hnd c v Hvo) as [?|(-> & [bl Hbl] & Hcp)]; [left; lia|].
    unfold x. destruct (p_last_committed m <=? last_committed (paxos (nd r))) eqn:Eb; zb; [|right; left; lia].
    rewrite El, Hbl. right; right. destruct (do_bound0 _ _ Hbl) as (_ & _ & y & -> & _).
    destruct (stored_pn_pending cf G _ i (nd r) 0 y Hnd (iv_votes _ _ _ HI) Hbl) as [_ ?]. split; [done|]. split; [lia|done].
  - unfold x. destruct (p_last_committed m <=? last_committed (paxos (nd r))); [|done]. rewrite El.
    destruct (versions (store (nd r)) !! (db_last_committed (store (nd r)) + 1)) as [bl|] eqn:Hbl; [|done]. intros _.
    destruct (do_bound0 _ _ Hbl) as (_ & _ & y & -> & _). exists y. split; [apply find_snoc; by rewrite <- El|].
    by apply (nd_pending _ _ _ _ Hnd).
Qed.
(** The end of the handler, when the number is promised: the answer is sent. *)
Lemma report_wp G r prev c : st G r → mstate (nd r) ≠ STATE_LEADER → collect_ok G (view s i r) from i m →
  p_epoch m = epoch (elector (nd r)) → (accepted_pn (paxos (nd r)) mod 100 = from → accepted_pn (paxos (nd r)) = c) →
  (∀ c', c' ∈ pns OP_COLLECT (net s from i) → c < c') → unanswered G r from →
  wp (mbind (if p_last_committed m <? last_committed (paxos (nd r)) then Paxos.share_state (p_last_committed m) else ret []) (λ vals,
    mbind (get id) (λ n, let p := paxos n in let lc := last_committed p in
    match (if p_last_committed m <=? lc then versions (store n) !! (lc + 1) else None) with
    | Some bl => mbind (massert (Paxos.nonempty bl)) (λ _,
        send from (Paxos.mk_msg n OP_LAST (first_committed p) lc (accepted_pn_from p) (accepted_pn p)
          (Paxos.stored_pn (store n) lc prev) 0 (vals ++ [(lc + 1, bl)])))
    | None => send from (Paxos.mk_msg n OP_LAST (first_committed p) lc (accepted_pn_from p) (accepted_pn p) 0 0 vals)
    end))) (λ _ r', st G r') dead r.
Proof.
  intros Hs Hl Hok Hep Hc Hrest Hun. pose proof (st_wk _ _ _ _ _ _ _ _ Hs) as Hw.
  destruct (peon_idle G r Hs Hl) as (Hio & El & _). pose proof (wk_node_d cf s i Hi l0 L R _ _ Hw) as Hnd.
  apply (wp_seq _ _ (λ vals r', r' = r ∧ vals_ok (log G) (last_committed (paxos (nd r))) vals ∧
    (∀ e, e ∈ vals → e.1 <= last_committed (paxos (nd r))) ∧
    (∀ v, p_last_committed m < v → first_committed (paxos (nd r)) <= v <= last_committed (paxos (nd r)) → v ∈ vals.*1))).
  { destruct (p_last_committed m <? last_committed (paxos (nd r))) eqn:E; zb.
    - eapply wp_mono; [apply (share_state_ok cf s i Hi l0 L R G r _ Hs Hio)| |done].
      + by destruct Hok as (_ & _ & _ & ? & _).
      + intros vals r' (-> & ? & _ & H & ?). split; [done|]. split; [done|]. split; [|done]. intros e He. by apply H.
    - apply wp_ret. split; [done|]. split; [|split; [by intros e ?%not_elem_of_nil|lia]].
      split; [constructor|by intros ? ? ?%not_elem_of_nil|by intros ? ? ?%not_elem_of_nil]. }
  intros vals r' (-> & Hv & Hle & Hcov). apply wp_get. cbn [id].
  pose proof (report_ok G r vals Hs Hl Hok Hep Hv Hle Hcov) as Hrep.
  assert (∀ r', nd r' = nd r → out r' = out r ++ [(from, MsgPaxos (report (nd r) vals))] → st G r') as Hsend.
  { intros r' En Eo. apply (answer_ok G r r' from c (report (nd r) vals)); try done; unfold report; by destruct (if _ <=? _ then _ else _). }
  unfold report in Hsend. destruct (if _ <=? _ then _ else _) as [bl|] eqn:Ebl.
  - destruct (p_last_committed m <=? last_committed (paxos (nd r))) eqn:E; [|done]. rewrite El in Ebl.
    destruct (do_bound _ _ (nd_data _ _ _ _ Hnd) _ _ Ebl) as (_ & _ & y & -> & _). apply wp_massert_true; [done|].
    destruct (stored_pn_pending cf G _ i (nd r) prev y Hnd (iv_votes _ _ _ (wk_dead _ _ _ _ _ _ _ _ Hw)) Ebl) as [Epn _].
    apply Hsend; [done|]. unfold Paxos.mk_msg. by rewrite El, Epn.
  - by apply Hsend.
Qed.

Lemma handle_collect_ok G r : st G r → collect_ok G (view s i r) from i m → p_epoch m = epoch (elector (nd r)) →
  (accepted_pn (paxos (nd r)) mod 100 = from → accepted_pn (paxos (nd r)) < p_pn m) →
  (∀ c', c' ∈ pns OP_COLLECT (net s from i) → p_pn m < c') → unanswered G r from →
  wp (Paxos.handle_collect bs from m) (λ _ r', working cf s i l0 L R r') dead r.
Proof.
  intros Hs Hok Hep Hfresh Hrest Hun. unfold Paxos.handle_collect.
  apply wp_get, wp_massert; [by eapply wk_is_dead, Hs|]. cbn [id]. intros Hp%bool_decide_eq_true.
  assert (mstate (nd r) ≠ STATE_LEADER) as Hl by (by rewrite Hp).
  apply wp_mod_paxos. set (r1 := mk_run _ _).
  assert (st G r1) as Hs1 by (apply (st_phase_free G r); [done|done|done|unfold r1; clear -r; by_fields|by intros []|done]).
  destruct (last_committed (paxos (nd r)) + 1 <? p_first_committed m).
  { eapply wp_mono; [eapply Hbs; [exact Hs1|by apply (peon_idle G r1 Hs1)]|intros [] r2 (G2 & ? & _); by exists G2|done]. }
  assert (accepted_pn (paxos (nd r1)) = accepted_pn (paxos (nd r)) ∧ last_committed (paxos (nd r1)) = last_committed (paxos (nd r)) ∧
    epoch (elector (nd r1)) = epoch (elector (nd r)) ∧ mstate (nd r1) ≠ STATE_LEADER ∧ ¬ updating (paxos (nd r1)) ∧ out r1 = out r)
    as (Ea1 & Elc1 & Eep1 & Hl1 & Hnu1 & Eo1) by (repeat (split; [done|]); split; [by intros []|done]).
  assert (∀ r', out r' = out r → collect_ok G (view s i r') from i m ∧ unanswered G r' from) as Hkeep.
  { intros r' Eo'. split.
    - unfold collect_ok in *. by rewrite dpn_there, dlc_there in * by done.
    - intros H1 H2 H3. rewrite net_here, Eo'. specialize (Hun H1 H2 H3). by rewrite net_here in Hun. }
  clearbody r1. rewrite <- Ea1, <- Elc1.
  eapply (wp_when _ _ _ (λ _ r2, st G r2 ∧ mstate (nd r2) ≠ STATE_LEADER ∧ out r2 = out r ∧
    last_committed (paxos (nd r2)) = last_committed (paxos (nd r1)) ∧ epoch (elector (nd r2)) = epoch (elector (nd r)) ∧
    (accepted_pn (paxos (nd r2)) mod 100 = from → accepted_pn (paxos (nd r2)) = p_pn m))).
  - intros Hlt. zb. apply wp_mod_paxos. hnf. cbn [nd out]. destruct Hok as (Hq & Hmod & Hpn & Hlc).
    split; [|repeat (split; [done|]); done].
    eapply (promise_ok G r1 _ from (p_pn m) Hs1 Hl1 Hnu1 Hlt Hne Hmod Hfrom); [|done|done|done|].
    + rewrite dpn_there in Hpn |- * by done. lia.
    + clear -r1. by_fields.
  - intros Hge. zb. repeat (split; [done|]). rewrite Ea1 in *. intros Hmod. specialize (Hfresh Hmod). lia.
  - intros r2 (Hs2 & Hl2 & Eo2 & Elc2 & Eep2 & Hc2). destruct (Hkeep r2 Eo2) as [Hok2 Hun2]. rewrite <- Elc2.
    eapply wp_mono; [apply (report_wp G r2 (accepted_pn (paxos (nd r1))) (p_pn m)); try done; congruence|intros [] r3 Hr3; by exists G|done].
Qed.
End Collect.
(** ** Votes *)

(** The leader [a] waits for the vote that [m] asks for. *)
Definition awaited r (a : Z) (m : MMonPaxos) : Prop :=
  up (nodes s a) = true → mstate (nodes s a) = STATE_LEADER → i ∈ quorum (nodes s a) →
  p_pn m = accepted_pn (paxos (nodes s a)) →
  tokens OP_BEGIN (p_pn m) (net s a i) = 0%nat ∧ tokens OP_ACCEPT (p_pn m) (net (view s i r) i a) = 0%nat ∧
  updating (paxos (nodes s a)) ∧ (i ∉ accepted (paxos (nodes s a))) ∧ p_last_committed m = last_committed (paxos (nodes s a)).

Lemma vote_link G G' n into from k : p_op k = OP_ACCEPT → counted G' (accepted_pn (paxos n)) = counted G (accepted_pn (paxos n)) →
  (p_pn k = accepted_pn (paxos n) → tokens OP_BEGIN (p_pn k) into = 0%nat ∧ tokens OP_ACCEPT (p_pn k) from = 0%nat ∧
    updating (paxos n) ∧ (i ∉ accepted (paxos n)) ∧ p_last_committed k = last_committed (paxos n)) →
  link G i n into from → link G' i n into (from ++ [MsgPaxos k]).
Proof.
  intros Ho Ec Hk []. assert (pns OP_LAST [MsgPaxos k] = []) as HL by (cbn; by rewrite Ho). split.
  - by rewrite Ec, pns_app, HL, app_nil_r.
  - intros l1 m l2 E Hm. destruct (split_last _ _ _ _ _ _ _ E Hm HL) as (l & -> & ->).
    destruct (ln_last0 _ _ _ eq_refl Hm) as [? Hr]. by rewrite pns_app, HL, app_nil_r.
  - rewrite tokens_app. unfold tokens at 3. cbn. rewrite Ho. cbn.
    destruct (decide (p_pn k = accepted_pn (paxos n))) as [E|_]; [|cbn; lia].
    destruct (Hk E) as (H1 & H2 & H3 & H4 & _). rewrite <- E, H1, H2. by rewrite decide_True.
  - intros m [Hm|[Hm Hp]]; [apply ln_round0; by left|]. apply elem_of_app in Hm as [Hm|Hm]; [apply ln_round0; by right|].
    apply list_elem_of_singleton in Hm as ->. cbn in Hp. rewrite Ho in Hp. injection Hp as Hp. by apply Hk.
Qed.

Section Vote.
Context (G : ghost) (r r' : run) (from : Z) (m : MMonPaxos) (x : value) (e : Z).
Context (Hs : st G r) (Hfrom : ids cf from) (Hne : from ≠ i) (Hl : mstate (nd r) ≠ STATE_LEADER).
Context (Hok : begin_ok G from i m) (Hx : began G (p_pn m) (p_last_committed m + 1) = Some x).
Context (Hpn : p_pn m = accepted_pn (paxos (nd r))) (Hlc : p_last_committed m = last_committed (paxos (nd r))).
Context (Haw : awaited r from m).
Let b : Z := accepted_pn (paxos (nd r)).
Let v : Z := last_committed (paxos (nd r)) + 1.
Let k : MMonPaxos := mk_pmsg OP_ACCEPT e 0 (last_committed (paxos (nd r))) 0 b 0 0 [].
Let G' : ghost := add_vote i b v G.
Context (Eo : out r' = out r ++ [(from, MsgPaxos k)]).
Context (Es : store (nd r') = apply_ops (store (nd r)) [PutVersion v (Some x); Put PendingV v; Put PendingPn b]).
Context (En : norm (set_store (store (nd r)) (nd r')) = norm (set_paxos (set_state STATE_UPDATING (paxos (nd r))) (nd r))).

Lemma vote_field A (f : node → A) : f (norm (set_store (store (nd r)) (nd r'))) =
  f (norm (set_paxos (set_state STATE_UPDATING (paxos (nd r))) (nd r))).
Proof. by rewrite En. Qed.

Lemma vote_dead : inv cf G' (view s i (kill r')).
Proof.
  pose proof (st_wk _ _ _ _ _ _ _ _ Hs) as Hw. pose proof (wk_dead _ _ _ _ _ _ _ _ Hw) as HI. pose proof Hok as (Hmod & Hq & _).
  assert (accepted_pn (paxos (nd r')) = b) as Ea by apply (vote_field _ (λ n, accepted_pn (paxos n))).
  assert (began G b v = Some x) as Hx' by (unfold b, v; by rewrite <- Hpn, <- Hlc).
  destruct (peon_idle G r Hs Hl) as (_ & El & _).
  assert (∀ d, msgs_to d [(from, MsgPaxos k)] = if decide (d = from) then [MsgPaxos k] else []) as Hto.
  { intros d. unfold msgs_to. rewrite filter_cons. cbn. destruct (decide (from = d)) as [->|Hd]; [by rewrite decide_True|].
    by rewrite decide_False by congruence. }
  apply (dead_step cf s i Hi G G' r r' [(from, MsgPaxos k)]); rewrite ?Ea, ?Es; try done.
  - by apply gext_vote.
  - intros d m' [= -> ->]%list_elem_of_singleton. split; [done|]. split; [done|]. split; [cbn; unfold b; by rewrite <- Hpn|by right].
  - intros d. left. rewrite Hto. by destruct (decide _).
  - intros d Hd Hup Hm Hld Hiq Hlk. rewrite Hto. destruct (decide (d = from)) as [->|_]; [|rewrite app_nil_r; by destruct Hlk].
    apply (vote_link G); [done|done| |exact Hlk]. cbn [p_pn k]. intros E. unfold awaited in Haw. rewrite net_here in Haw.
    unfold b in E |- *. rewrite <- Hpn in E |- *. cbn [p_last_committed k]. rewrite <- Hlc. by apply Haw.
  - by left.
  - intros c w Hs' Hci. destruct (iv_began _ _ _ HI c w Hs') as [_ H]. by rewrite Hci, dpn_kill, dpn_here in H.
  - by left.
  - apply votes_vote; [by exists x|unfold b; by rewrite <- Hpn|by rewrite acc_here, Ea|].
    eapply votes_acc; [|apply HI]. intros n. rewrite acc_kill.
    destruct (Z.eq_dec n i) as [->|Hn]; [by rewrite !acc_here, Ea|by rewrite !acc_there].
  - eapply node_d_vote; [by apply (wk_node_d cf s i Hi l0 L R)|apply (vote_field _ rank)|by rewrite Ea|done|unfold v; lia|..]; try done.
    + by apply (vo_value _ _ _ (iv_votes _ _ _ HI) b v x).
    + intros c w. cbn. tauto.
    + intros c w Hcw. by eapply (voted_below cf s i l0 L R).
Qed.

Lemma vote_ok : st G' r'.
Proof.
  pose proof vote_field as F. assert (mstate (nd r') = mstate (nd r)) as Em by apply (F _ mstate).
  destruct (peon_idle G r Hs Hl) as (Hio & El & Ef). pose proof Hok as (Hmod & _).
  split; [|by rewrite Em]. destruct (st_wk _ _ _ _ _ _ _ _ Hs). split; try done.
  - rewrite <- wk_up0. apply (F _ up).
  - by rewrite Es.
  - apply vote_dead.
  - intros HR. split; [by rewrite Em|]. rewrite (F _ (λ n, electing_me (elector n)) : electing_me (elector (nd r')) = electing_me (elector (nd r))).
    rewrite (F _ (λ n, epoch (elector n)) : epoch (elector (nd r')) = epoch (elector (nd r))). by apply wk_role0.
  - apply (core_move cf i G G' (view s i r) (view s i r') (nd r) (nd r') wk_core0); rewrite ?Em; try done.
    + unfold same_base. rewrite Es. split; [apply (F _ (λ n, last_pn (paxos n)))|]. split; [done|]. split; [done|].
      split; [apply (F _ (λ n, epoch (elector n)))|]. split; [apply (F _ (λ n, electing_me (elector n)))|].
      split; [apply (F _ (λ n, acked_me (elector n)))|apply (F _ (λ n, peer_last_committed (paxos n)))].
    + unfold io_ok. rewrite (F _ io : io (nd r') = io (nd r)), Hio, Es.
      rewrite (F _ (λ n, last_committed (paxos n)) : last_committed (paxos (nd r')) = last_committed (paxos (nd r))).
      by rewrite (F _ (λ n, first_committed (paxos n)) : first_committed (paxos (nd r')) = first_committed (paxos (nd r))).
    + intros _. rewrite <- Hio. apply (F _ io).
    + intros _ _. rewrite (F _ (λ n, accepted_pn (paxos n)) : accepted_pn (paxos (nd r')) = accepted_pn (paxos (nd r))). by rewrite <- Hpn, Hmod.
    + intros y Hy. apply (nv_pending _ _ _ _ _ wk_core0 y). rewrite <- Hy. symmetry. apply (F _ (λ n, pending_proposal (paxos n))).
Qed.
End Vote.

Lemma handle_begin_ok G r from m : st G r → ids cf from → from ≠ i → begin_ok G from i m → awaited r from m →
  wp (Paxos.handle_begin from m) (λ _ r', working cf s i l0 L R r') dead r.
Proof.
  intros Hs Hfrom Hne Hok Haw. pose proof (st_wk _ _ _ _ _ _ _ _ Hs) as Hw. unfold Paxos.handle_begin. apply wp_get. cbn [id].
  destruct (p_pn m <? accepted_pn (paxos (nd r))); [apply wp_ret; by exists G|].
  apply wp_massert; [by eapply wk_is_dead|]. intros Hpn. apply wp_massert; [by eapply wk_is_dead|]. intros Hlc. zb.
  assert (mstate (nd r) ≠ STATE_LEADER) as Hl.
  { intros Hl. destruct (nv_leads _ _ _ _ _ (wk_core _ _ _ _ _ _ _ _ Hw) Hl). destruct Hok as (Hmod & _).
    destruct ld_pn0 as (Hmi & _). rewrite <- Hpn in Hmi. congruence. }
  pose proof Hok as (Hmod & Hq & x & Hf & Hx). rewrite <- Hlc, Hf. cbn [default].
  eexists. eapply (vote_ok G r _ from m x (epoch (elector (nd r))) Hs); try done.
  by rewrite Hlc.
Qed.
End Promise.
End PaxosPromise.
