(* ===== verification/PaxosHandlers.v ===== *)
(** * The handlers of Paxos

    The leader counts a vote; leases; the dispatch of messages, given what was known
    of the channel before the message left it; timers and proposals.  Every handler
    maintains the invariant, and keeps what a monitor must keep should it stop at a
    failed assertion. *)
From stdpp Require Import gmap.
From S2P Require Import Prelude StdMap MonTypes Consensus Paxos Elector Monitor PaxosInv PaxosData PaxosStep PaxosLead PaxosCollect PaxosPeer PaxosLast PaxosPromise.

Module PaxosHandlers.
Import MonTypes Consensus Monitor PaxosInv PaxosData PaxosStep PaxosLead PaxosCollect PaxosPeer PaxosLast PaxosPromise.

Section Handlers.
Context (cf : config) (HN : 2 <= mon_count cf <= 100).
Context (Hmin : 0 <= paxos_min cf) (Htrim : 0 <= paxos_trim_min cf).
Context (s : sys) (i : Z) (Hi : ids cf i).
Context (l0 : list value) (L : Z → option (gset Z)) (R : Prop).
Abbreviation N := (mon_count cf).
Abbreviation wk := (wk cf s i l0 L R).
Abbreviation st := (st cf s i l0 L R).
Abbreviation dead := (dead cf s i l0).
Abbreviation working := (working cf s i l0 L R).
Implicit Types (G : ghost) (r : run).

(** Only timers, leases and completions change. *)
Lemma st_same G r r' : st G r → out r' = out r → norm (nd r') = norm (nd r) → st G r'.
Proof.
  intros Hs Eo En. eapply (st_lite cf s i Hi l0 L R G r r' []); [done|by rewrite app_nil_r|done|]. by intros ? ? ?%not_elem_of_nil.
Qed.

Lemma st_dead G r : st G r → dead r.
Proof. intros Hs. by eapply wk_is_dead, Hs. Qed.

(** ** Counting votes *)

Section Accept.
Context (G : ghost) (r r' : run) (from : Z) (Hs : st G r) (Hne : from ≠ i).
Context (Hl : mstate (nd r) = STATE_LEADER) (Hu : updating (paxos (nd r))) (Hq : from ∈ quorum (nd r)).
Context (Hv : voted G from (accepted_pn (paxos (nd r))) (last_committed (paxos (nd r)) + 1)).
Context (Hno : tokens OP_BEGIN (accepted_pn (paxos (nd r))) (net (view s i r) i from) = 0%nat ∧
  tokens OP_ACCEPT (accepted_pn (paxos (nd r))) (net s from i) = 0%nat).
Context (Eo : out r' = out r).
Context (En : norm (nd r') = norm (set_paxos (set_accepted ({[from]} ∪ accepted (paxos (nd r))) (paxos (nd r))) (nd r))).

Lemma accept_field A (f : node → A) : f (norm (nd r')) =
  f (norm (set_paxos (set_accepted ({[from]} ∪ accepted (paxos (nd r))) (paxos (nd r))) (nd r))).
Proof. by rewrite En. Qed.

Lemma accept_leads : leads cf G (view s i r') i (nd r').
Proof.
  pose proof accept_field as F. pose proof (nv_leads _ _ _ _ _ (wk_core _ _ _ _ _ _ _ _ (st_wk _ _ _ _ _ _ _ _ Hs)) Hl) as [].
  assert (accepted_pn (paxos (nd r')) = accepted_pn (paxos (nd r))) as Ea by apply (F _ (λ n, accepted_pn (paxos n))).
  assert (quorum (nd r') = quorum (nd r)) as Eq by apply (F _ quorum).
  assert (store (nd r') = store (nd r)) as Es by apply (F _ store).
  assert (state (paxos (nd r')) = state (paxos (nd r))) as Est by apply (F _ (λ n, state (paxos n))).
  assert (accepted (paxos (nd r')) = {[from]} ∪ accepted (paxos (nd r))) as Eac by apply (F _ (λ n, accepted (paxos n))).
  assert (last_committed (paxos (nd r')) = last_committed (paxos (nd r))) as El by apply (F _ (λ n, last_committed (paxos n))).
  split; rewrite ?Ea, ?Eq, ?Es; try done.
  - intros m Hm. etrans; [by apply ld_promised0|]. destruct (Z.eq_dec m i) as [->|Hmi]; [by rewrite !acc_here, Ea|by rewrite !acc_there].
  - intros p Hp Hpi. destruct (ld_link0 p Hp Hpi). rewrite net_here, net_there in * by done. rewrite Eo.
    destruct (Z.eq_dec p from) as [->|Hpf].
    + destruct Hno as [H1 H2]. split; rewrite ?Ea, ?El; try done. rewrite H1, H2. lia.
    + split; rewrite ?Ea, ?El; try done. etrans; [exact ln_tokens0|]. unfold updating. rewrite Est, Eac.
      destruct (decide (_ ∧ p ∉ accepted (paxos (nd r)))) as [[? ?]|_]; [|lia].
      rewrite decide_True; [done|]. split; [done|]. by intros [?%elem_of_singleton|?]%elem_of_union.
Qed.

Lemma accept_phase : phase G i (nd r').
Proof.
  pose proof (st_phase _ _ _ _ _ _ _ _ Hs Hl) as Hp. change (phase G i (norm (nd r'))). rewrite En.
  change (phase G i (set_paxos (set_accepted ({[from]} ∪ accepted (paxos (nd r))) (paxos (nd r))) (nd r))).
  unfold phase in *. cbn -[union]. destruct Hu as [E|E]; rewrite E in *; destruct Hp as (? & ? & ? & ? & Hvm);
    (split; [done|]; split; [done|]; split; [apply elem_of_union; by right|]; split;
      [apply union_subseteq; split; [by apply singleton_subseteq_l|done]|
       by intros m [->%elem_of_singleton|?]%elem_of_union; [|apply Hvm]]).
Qed.

Lemma accept_st : st G r'.
Proof.
  pose proof accept_field as F. assert (mstate (nd r') = STATE_LEADER) as Hl' by (rewrite <- Hl; apply (F _ mstate)).
  split; [|intros _; apply accept_phase]. pose proof (st_wk _ _ _ _ _ _ _ _ Hs) as Hw. pose proof (wk_core _ _ _ _ _ _ _ _ Hw) as Hc.
  apply (wk_quiet cf s i Hi l0 L R G r r' []); try done.
  - by rewrite app_nil_r.
  - apply (F _ rank).
  - apply (F _ up).
  - apply (F _ store).
  - apply (F _ (λ n, accepted_pn (paxos n))).
  - by intros b m ?%not_elem_of_nil.
  - intros HR. change (role_ok G i (norm (nd r'))). rewrite En. by apply Hw.
  - apply (core_move cf i G G (view s i r) (view s i r') (nd r) (nd r') Hc); rewrite ?Hl'; try done.
    + split; [apply (F _ (λ n, last_pn (paxos n)))|]. split; [apply (F _ (λ n, db_last_pn (store n)))|].
      split; [apply (F _ (λ n, election_epoch (store n)))|].
      split; [apply (F _ (λ n, epoch (elector n)))|]. split; [apply (F _ (λ n, electing_me (elector n)))|].
      split; [apply (F _ (λ n, acked_me (elector n)))|apply (F _ (λ n, peer_last_committed (paxos n)))].
    + change (io_ok (norm (nd r'))). rewrite En. apply Hc.
    + intros x Hx. apply (nv_pending _ _ _ _ _ Hc x). rewrite <- Hx. symmetry. apply (F _ (λ n, pending_proposal (paxos n))).
    + intros _. apply accept_leads.
Qed.
End Accept.

(** The vote has left the channel; the leader was waiting for it. *)
Definition owed r (from : Z) (m : MMonPaxos) : Prop :=
  mstate (nd r) = STATE_LEADER → from ∈ quorum (nd r) → p_pn m = accepted_pn (paxos (nd r)) →
  tokens OP_BEGIN (accepted_pn (paxos (nd r))) (net (view s i r) i from) = 0%nat ∧
  tokens OP_ACCEPT (accepted_pn (paxos (nd r))) (net s from i) = 0%nat ∧ p_last_committed m = last_committed (paxos (nd r)).

Lemma handle_accept_ok G r from m : st G r → from ≠ i → accept_ok G from i m →
  (mstate (nd r) ≠ STATE_LEADER → mstate (nd r) = STATE_PEON) → owed r from m →
  wp (Paxos.handle_accept from m) (λ _ r', working r') dead r.
Proof.
  intros Hs Hne [Hmod Hv] Hpeon Hch. pose proof (st_wk _ _ _ _ _ _ _ _ Hs) as Hw. pose proof (st_dead G r Hs) as Hd.
  unfold Paxos.handle_accept. apply wp_get. cbn [id].
  destruct (p_pn m =? accepted_pn (paxos (nd r))) eqn:Epn; cbn [negb]; [|apply wp_ret; by exists G]. zb.
  destruct (_ && _); [apply wp_ret; by exists G|].
  apply wp_massert; [done|]. intros _. apply wp_massert; [done|]. intros Hu%is_updating_or. apply wp_massert; [done|]. intros _.
  destruct (decide (mstate (nd r) = STATE_LEADER)) as [Hl|Hnl].
  2:{ exfalso. apply (nv_peon _ _ _ _ _ (wk_core _ _ _ _ _ _ _ _ Hw) (Hpeon Hnl) Hu). by rewrite <- Epn. }
  assert (io (nd r) = Idle) as Hio.
  { eapply (wk_idle cf s i l0 L R); [exact Hw|]. unfold writing, updating in *. intros [E|E]; rewrite E in Hu; by destruct Hu. }
  assert (from ∈ quorum (nd r)) as Hq.
  { destruct (nv_leads _ _ _ _ _ (wk_core _ _ _ _ _ _ _ _ Hw) Hl). destruct ld_quorum0 as (-> & _). rewrite <- Epn.
    by apply (vo_voted _ _ _ (iv_votes _ _ _ (wk_dead _ _ _ _ _ _ _ _ Hw)) from (p_pn m) (p_last_committed m + 1)). }
  destruct (Hch Hl Hq Epn) as (Ht1 & Ht2 & Elc). rewrite Epn, Elc in Hv.
  eapply (wp_seq _ _ (λ _ r1, out r1 = out r ∧
    norm (nd r1) = norm (set_paxos (set_accepted ({[from]} ∪ accepted (paxos (nd r))) (paxos (nd r))) (nd r)))).
  { split; [done|]. clear -r. generalize ({[from]} ∪ accepted (paxos (nd r))). intros. by_fields. }
  intros [] r1 [Eo En]. assert (st G r1) as Hs1 by (by apply (accept_st G r r1 from)).
  case_bool_decide as Eb; cbn [when]; [|by exists G].
  eapply (commit_start_ok cf HN s i Hi l0 L R G r1 Hs1).
  - rewrite <- Hio. exact (f_equal io En).
  - rewrite <- Hl. exact (f_equal mstate En).
  - rewrite (f_equal quorum En : quorum (nd r1) = quorum (nd r)), <- Eb. exact (f_equal (λ n, accepted (paxos n)) En).
Qed.

(** ** Leases *)

Lemma handle_lease_ok G r from m : st G r → ids cf from → from ≠ i →
  wp (Paxos.handle_lease from m) (λ _ r', working r') dead r.
Proof.
  intros Hs Hfrom Hne. unfold Paxos.handle_lease. apply wp_get. cbn [id]. destruct (_ || _) eqn:Ec; [apply wp_ret; by exists G|].
  apply orb_false_iff in Ec as [Hp%negb_false_iff _]. apply bool_decide_eq_true in Hp.
  assert (mstate (nd r) ≠ STATE_LEADER) as Hl by (by rewrite Hp).
  eapply (wp_when _ _ _ (λ _ r1, out r1 = out r ∧ norm (nd r1) = norm (nd r))).
  { intros _. split; [done|]. clear -r m. generalize (p_lease_timestamp m). clear m. intros. by_fields. }
  { done. }
  intros r1 [Eo En]. assert (st G r1) as Hs1 by (by apply (st_same G r)).
  assert (mstate (nd r1) ≠ STATE_LEADER) as Hl1 by (intros E; apply Hl; rewrite <- E; symmetry; exact (f_equal mstate En)).
  apply wp_mod_paxos. set (r2 := mk_run _ _).
  assert (st G r2) as Hs2 by (apply (st_phase_free cf s i Hi l0 L R G r1); [done|done|done|unfold r2; clear -r1; by_fields|by intros []|done]).
  clearbody r2. apply wp_get. cbn [id].
  eapply (wp_seq _ _ (λ _ r3, out r3 = out r2 ++ [(from, Paxos.mk_msg (nd r2) OP_LEASE_ACK (first_committed (paxos (nd r2)))
    (last_committed (paxos (nd r2))) 0 0 0 (clock (nd r2)) [])] ∧ norm (nd r3) = norm (nd r2))); [done|].
  intros [] r3 [Eo3 En3]. exists G. apply (st_same G r3); [|done|clear -r3; by_fields].
  eapply (st_lite cf s i Hi l0 L R G r2); [done|exact Eo3|done|]. by intros b k [= -> ->]%list_elem_of_singleton.
Qed.

Lemma handle_lease_ack_ok G r from : st G r → wp (Paxos.handle_lease_ack from) (λ _ r', working r') dead r.
Proof.
  intros Hs. unfold Paxos.handle_lease_ack. apply wp_get. cbn [id]. destruct (negb _); [apply wp_ret; by exists G|].
  case_bool_decide as Ea; [apply wp_ret; by exists G|].
  eapply (wp_seq _ _ (λ _ r1, out r1 = out r ∧ norm (nd r1) = norm (nd r))).
  { split; [done|]. clear -r. generalize ({[from]} ∪ acked_lease (paxos (nd r))). intros. by_fields. }
  intros [] r1 [Eo En]. assert (st G r1) as Hs1 by (by apply (st_same G r)).
  case_bool_decide as Eq; exists G; [|done]. apply (st_same G r1); [done|done|clear -r1; by_fields].
Qed.

(** ** Dispatch *)

(** What is known of a message that has just left the channel. *)
Record arrived G r (from : Z) (m : MMonPaxos) : Prop := {
  ar_from : ids cf from;
  ar_other : from ≠ i;
  ar_ok : msg_ok cf G (view s i r) from i (MsgPaxos m);
  ar_collect : p_op m = OP_COLLECT → (accepted_pn (paxos (nd r)) mod 100 = from → accepted_pn (paxos (nd r)) < p_pn m) ∧
    (∀ c', c' ∈ pns OP_COLLECT (net s from i) → p_pn m < c') ∧ unanswered s i G r from;
  ar_last : p_op m = OP_LAST → mstate (nd r) = STATE_LEADER → from ∈ quorum (nd r) →
    (from ∉ counted G (accepted_pn (paxos (nd r)))) ∧ (p_pn m = accepted_pn (paxos (nd r)) →
      pns OP_COLLECT (net (view s i r) i from) = [] ∧ pns OP_LAST (net s from i) = []);
  ar_begin : p_op m = OP_BEGIN → awaited s i r from m;
  ar_accept : p_op m = OP_ACCEPT → owed r from m
}.

Lemma paxos_dispatch_ok G r from m : R → st G r → arrived G r from m → p_epoch m = epoch (elector (nd r)) →
  wp (Paxos.dispatch cf (bootstrap cf) from m) (λ _ r', working r') dead r.
Proof.
  intros HR Hs [] Hep. pose proof (boot_bootstrap_ok cf HN s i Hi l0 L R Hmin Htrim) as Hb.
  unfold Paxos.dispatch. apply wp_get. cbn [id]. destruct (_ && _) eqn:Ec; [apply wp_ret; by exists G|].
  apply wp_massert; [by eapply st_dead|]. intros _. cbn [msg_ok] in ar_ok0. destruct (p_op m) eqn:Eop.
  - destruct ar_collect0 as (H1 & H2 & H3); [done|]. by apply (handle_collect_ok cf s i Hi l0 L R _ Hb from m ar_from0 ar_other0 G r).
  - pose proof (ar_last0 eq_refl) as Hlast. assert (mstate (nd r) = STATE_LEADER → from ∈ quorum (nd r)) as Hq.
    { by apply (last_member cf s i l0 L R HR G r from m). }
    apply (handle_last_ok cf HN Hmin Htrim s i Hi l0 L R HR _ Hb G r from m); try done.
    + intros Hl. by apply Hlast, Hq.
    + intros Hl. by apply Hlast, Hq.
  - by apply (handle_begin_ok cf HN s i Hi l0 L R G r from m); [..|apply ar_begin0].
  - apply (handle_accept_ok G r from m); try done; [|by apply ar_accept0]. intros Hl. unfold is_leader, is_peon in Ec.
    rewrite (bool_decide_eq_false_2 _ Hl) in Ec. by destruct (bool_decide_reflect (mstate (nd r) = STATE_PEON)).
  - by apply (handle_commit_ok cf s i Hi l0 L R _ G r m Hb Hs), ar_ok0.
  - by apply (handle_lease_ok G).
  - by apply (handle_lease_ack_ok G).
Qed.
(** ** Timers *)

Lemma boot_working G r : st G r → wp (bootstrap cf) (λ _ r', working r') dead r.
Proof.
  intros Hs. eapply wp_mono; [by apply (bootstrap_wp cf HN s i Hi l0 L R Hmin Htrim G)|intros [] r' (G' & ? & _); by exists G'|done].
Qed.

Lemma collect_timeout_ok G r : st G r → wp (Paxos.collect_timeout (bootstrap cf)) (λ _ r', working r') dead r.
Proof.
  intros Hs. unfold Paxos.collect_timeout. apply wp_mod_paxos. set (r1 := mk_run _ _).
  assert (st G r1) as Hs1 by (apply (st_same G r); [done|done|unfold r1; clear -r; by_fields]). clearbody r1.
  apply wp_get, wp_massert; [by eapply st_dead|]. intros _. by apply (boot_working G).
Qed.
Lemma accept_timeout_ok G r : st G r → wp (Paxos.accept_timeout (bootstrap cf)) (λ _ r', working r') dead r.
Proof.
  intros Hs. unfold Paxos.accept_timeout. apply wp_mod_paxos. set (r1 := mk_run _ _).
  assert (st G r1) as Hs1 by (apply (st_same G r); [done|done|unfold r1; clear -r; by_fields]). clearbody r1.
  apply wp_get, wp_massert; [by eapply st_dead|]. intros _. apply wp_massert; [by eapply st_dead|]. intros _. by apply (boot_working G).
Qed.
Lemma lease_ack_timeout_ok G r : st G r → wp (Paxos.lease_ack_timeout (bootstrap cf)) (λ _ r', working r') dead r.
Proof.
  intros Hs. unfold Paxos.lease_ack_timeout. apply wp_get, wp_massert; [by eapply st_dead|]. intros _.
  apply wp_massert; [by eapply st_dead|]. intros _. apply wp_mod_paxos. apply (boot_working G), (st_same G r); [done|done|clear -r; by_fields].
Qed.
Lemma lease_timeout_ok G r : st G r → wp (Paxos.lease_timeout (bootstrap cf)) (λ _ r', working r') dead r.
Proof.
  intros Hs. unfold Paxos.lease_timeout. apply wp_get, wp_massert; [by eapply st_dead|]. intros _.
  apply wp_mod_paxos. apply (boot_working G), (st_same G r); [done|done|clear -r; by_fields].
Qed.
Lemma lease_renew_ok G r : st G r → wp (Paxos.lease_renew_timeout cf) (λ _ r', working r') dead r.
Proof.
  intros Hs. unfold Paxos.lease_renew_timeout. apply wp_mod_paxos. set (r1 := mk_run _ _).
  assert (st G r1) as Hs1 by (apply (st_same G r); [done|done|unfold r1; clear -r; by_fields]). clearbody r1.
  eapply wp_mono; [by apply (extend_lease_ok cf s i Hi l0 L R G r1), Hs1| |done]. intros [] r' [Hw En]. exists G. split; [done|].
  intros Hl. eapply phase_norm; [done|]. apply (st_phase _ _ _ _ _ _ _ _ Hs1). rewrite <- Hl. symmetry. exact (f_equal mstate En).
Qed.

(** ** Proposals *)

Definition unpending (n : node) : node := norm (set_paxos (set_pending_proposal None (paxos n)) n).

Lemma st_pending G r r' : st G r → out r' = out r → unpending (nd r') = unpending (nd r) →
  (∀ x, pending_proposal (paxos (nd r')) = Some x → Forall is_service x) → st G r'.
Proof.
  intros [Hw Hp] Eo E Hx. assert (∀ A (f : node → A), f (unpending (nd r')) = f (unpending (nd r))) as F by (intros; by rewrite E).
  assert (mstate (nd r') = mstate (nd r)) as Em by apply (F _ mstate). pose proof (wk_core _ _ _ _ _ _ _ _ Hw) as Hc. split.
  - apply (wk_quiet cf s i Hi l0 L R G r r' []); try done.
    + by rewrite app_nil_r.
    + apply (F _ rank).
    + apply (F _ up).
    + apply (F _ store).
    + apply (F _ (λ n, accepted_pn (paxos n))).
    + by intros b m ?%not_elem_of_nil.
    + intros HR. change (role_ok G i (unpending (nd r'))). rewrite E. by apply Hw.
    + apply (core_move cf i G G (view s i r) (view s i r') (nd r) (nd r') Hc); rewrite ?Em; try done.
      * split; [apply (F _ (λ n, last_pn (paxos n)))|]. split; [apply (F _ (λ n, db_last_pn (store n)))|].
        split; [apply (F _ (λ n, election_epoch (store n)))|].
        split; [apply (F _ (λ n, epoch (elector n)))|]. split; [apply (F _ (λ n, electing_me (elector n)))|].
        split; [apply (F _ (λ n, acked_me (elector n)))|apply (F _ (λ n, peer_last_committed (paxos n)))].
      * change (io_ok (unpending (nd r'))). rewrite E. apply Hc.
      * intros Hl. rewrite <- (nv_idle _ _ _ _ _ Hc Hl). apply (F _ io).
      * unfold updating. rewrite (F _ (λ n, state (paxos n)) : state (paxos (nd r')) = state (paxos (nd r))).
        rewrite (F _ (λ n, accepted_pn (paxos n)) : accepted_pn (paxos (nd r')) = accepted_pn (paxos (nd r))). apply Hc.
      * intros Hl. apply (leads_keep cf s i G G r r' []); try done; [by apply Hc|by rewrite app_nil_r|..].
        -- apply (F _ (λ n, accepted_pn (paxos n))).
        -- apply (F _ (λ n, db_last_pn (store n))).
        -- apply (F _ quorum).
        -- intros p _ _ H1 H2. unfold updating. rewrite (F _ (λ n, state (paxos n)) : state (paxos (nd r')) = state (paxos (nd r))).
           rewrite (F _ (λ n, accepted (paxos n)) : accepted (paxos (nd r')) = accepted (paxos (nd r))).
           split; [done|]. split; [done|]. apply (F _ (λ n, last_committed (paxos n))).
        -- by intros b m ?%not_elem_of_nil.
  - rewrite Em. intros Hl. change (phase G i (unpending (nd r'))). rewrite E. by apply Hp.
Qed.

Lemma pending_transaction_ok G r : st G r → wp Paxos.get_pending_transaction
  (λ t r', st G r' ∧ unpending (nd r') = unpending (nd r) ∧ out r' = out r ∧ Forall is_service t) dead r.
Proof.
  intros Hs. unfold Paxos.get_pending_transaction. apply wp_get, wp_massert; [by eapply st_dead|]. intros _. cbn [id].
  pose proof (nv_pending _ _ _ _ _ (wk_core _ _ _ _ _ _ _ _ (st_wk _ _ _ _ _ _ _ _ Hs))) as Hp.
  destruct (pending_proposal (paxos (nd r))) as [t|] eqn:Et.
  { apply wp_ret. split; [done|]. split; [done|]. split; [done|]. by apply Hp. }
  apply wp_mod_paxos. set (r1 := mk_run _ _). assert (unpending (nd r1) = unpending (nd r)) as En by (unfold r1; clear -r; by_fields).
  assert (st G r1) as Hs1 by (apply (st_pending G r); [done|done|done|]; by intros x [= <-]).
  apply wp_massert; [by eapply st_dead|]. intros _. apply wp_ret. split; [done|]. split; [done|]. split; [done|constructor].
Qed.

(** A service adds a write to the pending transaction. *)
Lemma add_pending_ok G r o t (f : paxos_t → paxos_t) : st G r → is_service o → Forall is_service t →
  (∀ n, unpending (set_paxos (f (paxos n)) n) = unpending n) →
  (∀ p, pending_proposal (f p) = Some (t ++ [o])) →
  st G (mk_run (set_paxos (f (paxos (nd r))) (nd r)) (out r)).
Proof.
  intros Hs Ho Ht Hf Hp. apply (st_pending G r); [done|done|apply Hf|]. cbn. intros x. rewrite Hp. intros [= <-].
  apply Forall_app. by split; [|constructor].
Qed.

Lemma prepare_ok G r p k bl : st G r → wp (prepare p k bl) (λ _ r', working r') dead r.
Proof.
  intros Hs. unfold prepare. eapply wp_seq; [by apply (pending_transaction_ok G)|]. intros t r1 (Hs1 & _ & _ & Ht).
  apply wp_mod_paxos. set (r2 := mk_run _ _).
  assert (st G r2) as Hs2 by (apply (add_pending_ok G r1 (OpService p k bl) t (set_pending_proposal (Some (t ++ [OpService p k bl])))); done).
  clearbody r2. exists G. apply (st_same G r2); [done|done|clear -r2; by_fields].
Qed.

Lemma trigger_propose_ok G r : st G r → mstate (nd r) = STATE_LEADER →
  wp (mbind (Paxos.trigger_propose cf) (λ _, ret tt)) (λ _ r', working r') dead r.
Proof.
  intros Hs Hl. apply (wp_seq _ _ (λ _ r', working r')); [|intros b r' H; by apply wp_ret].
  unfold Paxos.trigger_propose. apply wp_get. destruct (plugged (paxos (nd r))); [apply wp_ret; by exists G|].
  destruct (is_active (paxos (nd r))) eqn:Ea; [|apply wp_ret; by exists G]. apply bool_decide_eq_true in Ea.
  pose proof (st_phase _ _ _ _ _ _ _ _ Hs Hl) as Hp. unfold phase in Hp. rewrite Ea in Hp. destruct Hp as (H1 & H2 & H3 & _).
  pose proof (st_wk _ _ _ _ _ _ _ _ Hs) as Hw. assert (io (nd r) = Idle) as Hio.
  { eapply (wk_idle cf s i l0 L R); [exact Hw|]. unfold writing. rewrite Ea. by intros []. }
  eapply wp_seq; [apply (propose_pending_ok cf HN s i Hi l0 L R G r r Hw Hio Hl)|]; try done.
  - unfold updating. rewrite Ea. by intros [].
  - intros x Hx. exists x. split; [by apply (nv_pending _ _ _ _ _ (wk_core _ _ _ _ _ _ _ _ Hw))|by left].
  - intros [] r' (G' & ? & _). apply wp_ret. by exists G'.
Qed.
End Handlers.
End PaxosHandlers.
