(* ===== verification/PaxosElect.v ===== *)
(** * Elections

    Entering and leaving elections keeps the invariant: an election epoch only grows,
    a monitor that declares victory leads a majority that it has not led in that epoch
    before, and whatever a monitor was doing for its old quorum is finished or
    dropped. *)
From stdpp Require Import gmap.
From S2P Require Import Prelude StdMap MonTypes Consensus Paxos Elector Monitor PaxosInv PaxosData PaxosStep PaxosLead PaxosCollect PaxosPeer PaxosLast PaxosPromise PaxosHandlers.

Module PaxosElect.
Import MonTypes Consensus Monitor PaxosInv PaxosData PaxosStep PaxosLead PaxosCollect PaxosPeer PaxosLast PaxosPromise PaxosHandlers.

(** ** What a handler leaves alone *)

(** [m] does not change the part [f] of a monitor. *)
Definition keeps {A B} (f : node → B) (m : M A) : Prop :=
  ∀ r, match m r with Done _ r' | Abort r' => f (nd r') = f (nd r) end.

Section Keeps.
Context {B : Type} (f : node → B).
Lemma keeps_ret {A} (a : A) : keeps f (ret a).
Proof. by intros r. Qed.
Lemma keeps_abort {A} : keeps f (abort : M A).
Proof. by intros r. Qed.
Lemma keeps_get {A} (g : node → A) : keeps f (get g).
Proof. by intros r. Qed.
Lemma keeps_send d k : keeps f (send d k).
Proof. by intros r. Qed.
Lemma keeps_bcast l k : keeps f (bcast l k).
Proof. by intros r. Qed.
Lemma keeps_massert b : keeps f (massert b).
Proof. by destruct b; intros r. Qed.
Lemma keeps_bind {A C} (m : M A) (g : A → M C) : keeps f m → (∀ a, keeps f (g a)) → keeps f (mbind m g).
Proof.
  intros H1 H2 r. unfold mbind. specialize (H1 r). destruct (m r) as [a r1|r1]; [|done]. specialize (H2 a r1).
  by destruct (g a r1); rewrite H2.
Qed.
Lemma keeps_modify g : (∀ n, f (g n) = f n) → keeps f (modify g).
Proof. intros H r. apply H. Qed.
Lemma keeps_when b m : keeps f m → keeps f (when b m).
Proof. by destruct b. Qed.
Lemma wp_keeps {A} (m : M A) (Q : A → run → Prop) X r : keeps f m → wp m Q X r →
  wp m (λ a r', Q a r' ∧ f (nd r') = f (nd r)) X r.
Proof. unfold wp. intros H. specialize (H r). by destruct (m r). Qed.
End Keeps.

Create HintDb keeps discriminated.
#[export] Hint Resolve keeps_ret keeps_abort keeps_get keeps_send keeps_bcast keeps_massert : keeps.
Ltac keep := repeat match goal with
  | |- ∀ _, _ => intros ?
  | |- keeps _ (mbind _ _) => apply keeps_bind
  | |- keeps _ (when _ _) => apply keeps_when
  | |- keeps _ (modify _) => by apply keeps_modify
  | |- keeps _ (match ?x with _ => _ end) => destruct x
  | |- keeps _ _ => solve [auto 1 with keeps nocore]
  end.

Section Elect.
Context (cf : config) (HN : 2 <= mon_count cf <= 100).
Context (Hmin : 0 <= paxos_min cf) (Htrim : 0 <= paxos_trim_min cf).
Context (s : sys) (i : Z) (Hi : ids cf i) (l0 : list value).
Abbreviation N := (mon_count cf).
Abbreviation dead := (dead cf s i l0).
Implicit Types (G : ghost) (r : run) (L : Z → option (gset Z)) (R : Prop).

(** Writing out what Paxos holds does not touch the elector. *)
Lemma begin_elector x : keeps elector (Paxos.begin cf x).
Proof. unfold Paxos.begin, Paxos.commit_start, Paxos.decode_append_transaction, mod_paxos, apply_transaction. keep. Qed.
Lemma finish_round_elector : keeps elector (Paxos.finish_round cf).
Proof.
  unfold Paxos.finish_round, Paxos.trim, Paxos.get_pending_transaction, Paxos.queue_pending_finisher, Paxos.propose_pending, mod_paxos.
  pose proof begin_elector. keep.
Qed.
Lemma wait_elector : keeps elector (wait_for_paxos_write cf).
Proof.
  unfold wait_for_paxos_write, store_apply, store_complete, Paxos.commit_finish, Paxos.do_refresh, Paxos.commit_proposal, Paxos.extend_lease,
    bootstrap_now, _reset, Paxos.restart, Paxos._sanity_check_store, mod_paxos, apply_transaction. pose proof finish_round_elector. keep.
Qed.
Lemma st_weaken L R R' G r : st cf s i l0 L R G r → (R' → role_ok G i (nd r)) → st cf s i l0 L R' G r.
Proof. intros [[] Hp] HR. by split. Qed.

(** ** Steps of the elector *)

(** All but the candidacy. *)
Definition crew (n : node) : node := norm (set_elector (set_electing_me false (set_acked_me [] (elector n))) n).
(** Who has acknowledged a candidate: the candidate itself first of all. *)
Definition acks_ok (e : elector_t) : Prop :=
  Forall (ids cf) (acked_me e).*1 ∧ StronglySorted Z.lt (acked_me e).*1 ∧ (electing_me e = true → i ∈ (acked_me e).*1).

Lemma st_elector L R G r r' new : st cf s i l0 L R G r → out r' = out r ++ new → crew (nd r') = crew (nd r) →
  acks_ok (elector (nd r')) → (electing_me (elector (nd r')) = true → epoch (elector (nd r')) mod 2 = 1) →
  (∀ b m, (b, m) ∈ new → ids cf b ∧ b ≠ i ∧ ∃ k, m = MsgElection k) → st cf s i l0 L R G r'.
Proof.
  intros [Hw Hp] Eo E Hac Hodd Hm. assert (∀ A (f : node → A), f (crew (nd r')) = f (crew (nd r))) as F by (intros; by rewrite E).
  assert (mstate (nd r') = mstate (nd r)) as Em by apply (F _ mstate). destruct (wk_core _ _ _ _ _ _ _ _ Hw).
  assert (epoch (elector (nd r')) = epoch (elector (nd r))) as Eep by apply (F _ (λ n, epoch (elector n))).
  assert (accepted_pn (paxos (nd r')) = accepted_pn (paxos (nd r))) as Ea by apply (F _ (λ n, accepted_pn (paxos n))).
  assert (state (paxos (nd r')) = state (paxos (nd r))) as Est by apply (F _ (λ n, state (paxos n))).
  assert (store (nd r') = store (nd r)) as Es by apply (F _ store). split.
  - apply (wk_quiet cf s i Hi l0 L R G r r' new); try done.
    + apply (F _ rank).
    + apply (F _ up).
    + intros b m Hb. destruct (Hm b m Hb) as (? & ? & k & ->). done.
    + intros HR. split; [|done]. rewrite Em, Eep, (F _ quorum : quorum (nd r') = quorum (nd r)).
      by apply (wk_role _ _ _ _ _ _ _ _ Hw HR).
    + split; rewrite ?Es, ?Em, ?Eep; try done.
      * rewrite <- nv_last_pn0. apply (F _ (λ n, last_pn (paxos n))).
      * change (io_ok (crew (nd r'))). by rewrite E.
      * intros Hl. rewrite <- (nv_idle0 Hl). apply (F _ io).
      * unfold updating. by rewrite Est, Ea.
      * intros x Hx. apply (nv_pending0 x). rewrite <- Hx. symmetry. apply (F _ (λ n, pending_proposal (paxos n))).
      * by rewrite (F _ (λ n, peer_last_committed (paxos n)) : peer_last_committed (paxos (nd r')) = peer_last_committed (paxos (nd r))).
      * intros Hl. apply (leads_keep cf s i G G r r' new); try done; [by apply nv_leads0|by rewrite Es|apply (F _ quorum)|..].
        -- intros p _ _ H1 H2. unfold updating. rewrite Est, (F _ (λ n, accepted (paxos n)) : accepted (paxos (nd r')) = accepted (paxos (nd r))).
           split; [done|]. split; [done|]. apply (F _ (λ n, last_committed (paxos n))).
        -- intros b m Hb. by destruct (Hm b m Hb) as (_ & _ & k & ->).
  - rewrite Em. intros Hl. change (phase G i (crew (nd r'))). rewrite E. by apply Hp.
Qed.

(** A new epoch is recorded; the monitor may still be what it was in the old one. *)
Lemma bump_step L R G r r' e : st cf s i l0 L R G r → epoch (elector (nd r)) <= e → out r' = out r →
  store (nd r') = set_election_epoch e (store (nd r)) →
  norm (set_store (store (nd r)) (nd r')) = norm (set_elector (set_epoch e (elector (nd r))) (nd r)) → st cf s i l0 L False G r'.
Proof.
  intros [Hw Hp] He Eo Es En. assert (∀ A (f : node → A), f (norm (set_store (store (nd r)) (nd r'))) =
    f (norm (set_elector (set_epoch e (elector (nd r))) (nd r)))) as F by (intros; by rewrite En).
  assert (mstate (nd r') = mstate (nd r)) as Em by apply (F _ mstate). pose proof (wk_dead _ _ _ _ _ _ _ _ Hw) as HI.
  assert (accepted_pn (paxos (nd r')) = accepted_pn (paxos (nd r))) as Ea by apply (F _ (λ n, accepted_pn (paxos n))).
  assert (state (paxos (nd r')) = state (paxos (nd r))) as Est by apply (F _ (λ n, state (paxos n))).
  pose proof (wk_node_d cf s i Hi l0 L R _ _ Hw) as []. destruct (wk_core _ _ _ _ _ _ _ _ Hw). destruct nv_epoch0 as [Hep Eep].
  assert (election_epoch (store (nd r)) <= e ∧ 1 <= e) as [Hle Hpos].
  { destruct (election_epoch (store (nd r)) =? 0) eqn:E0; zb; lia. }
  split.
  - split; try done.
    + rewrite <- (wk_up _ _ _ _ _ _ _ _ Hw). apply (F _ up).
    + apply Hw.
    + rewrite Es. apply Hw.
    + apply Hw.
    + apply (dead_step cf s i Hi G G r r' []); rewrite ?Ea, ?Es; try done.
      * by rewrite app_nil_r.
      * apply gext_refl.
      * by intros ? m ?%not_elem_of_nil.
      * by left.
      * intros p _ _ _ _ _ Hk. by apply (link_out G).
      * by left.
      * intros b v Hb Hbi. destruct (iv_began _ _ _ HI b v Hb) as [_ H]. by rewrite Hbi, dpn_kill, dpn_here in H.
      * by left.
      * eapply votes_acc; [|apply HI]. intros n. rewrite acc_kill.
        destruct (Z.eq_dec n i) as [->|Hn]; [by rewrite !acc_here, Ea|by rewrite !acc_there].
      * split; rewrite ?Ea, ?Es; try done; [rewrite <- nd_rank0; apply (F _ rank)|by destruct nd_data0|cbn; lia|].
        intros f Q Hf. destruct (nd_led0 f Q Hf) as (? & ?). split; [cbn; lia|done].
    + split; rewrite ?Es, ?Em; try done.
      * cbn. rewrite <- nv_last_pn0. apply (F _ (λ n, last_pn (paxos n))).
      * rewrite (F _ (λ n, epoch (elector n)) : epoch (elector (nd r')) = e). cbn. split; [lia|]. by rewrite (proj2 (Z.eqb_neq _ _)) by lia.
      * unfold io_ok in *. rewrite Es, (F _ io : io (nd r') = io (nd r)).
        rewrite (F _ (λ n, last_committed (paxos n)) : last_committed (paxos (nd r')) = last_committed (paxos (nd r))).
        rewrite (F _ (λ n, first_committed (paxos n)) : first_committed (paxos (nd r')) = first_committed (paxos (nd r))).
        rewrite (F _ (λ n, new_value (paxos n)) : new_value (paxos (nd r')) = new_value (paxos (nd r))).
        unfold writing in *. by rewrite Est.
      * intros Hl. rewrite <- (nv_idle0 Hl). apply (F _ io).
      * unfold updating. by rewrite Est, Ea.
      * intros x Hx. apply (nv_pending0 x). rewrite <- Hx. symmetry. apply (F _ (λ n, pending_proposal (paxos n))).
      * by rewrite (F _ (λ n, peer_last_committed (paxos n)) : peer_last_committed (paxos (nd r')) = peer_last_committed (paxos (nd r))).
      * rewrite (F _ (λ n, acked_me (elector n)) : acked_me (elector (nd r')) = acked_me (elector (nd r))).
        by rewrite (F _ (λ n, electing_me (elector n)) : electing_me (elector (nd r')) = electing_me (elector (nd r))).
      * intros Hl. apply (leads_keep cf s i G G r r' []); try done; [by apply nv_leads0|by rewrite app_nil_r|by rewrite Es|apply (F _ quorum)|..].
        -- intros p _ _ H1 H2. unfold updating. rewrite Est, (F _ (λ n, accepted (paxos n)) : accepted (paxos (nd r')) = accepted (paxos (nd r))).
           split; [done|]. split; [done|]. apply (F _ (λ n, last_committed (paxos n))).
        -- by intros b m ?%not_elem_of_nil.
  - rewrite Em. intros Hl. change (phase G i (norm (set_store (store (nd r)) (nd r')))). rewrite En. by apply Hp.
Qed.
(** ** Entering an election *)

#[local] Hint Extern 0 Elector.MonitorOps => exact (monitor_ops cf) : typeclass_instances.

(** The monitor is in an election. *)
Definition electing L G r : Prop := st cf s i l0 L True G r ∧ mstate (nd r) = STATE_ELECTING ∧ io (nd r) = Idle.
(** The handler is done. *)
Definition fine r : Prop := ∃ L G, st cf s i l0 L True G r.

Lemma working_fine L r : working cf s i l0 L True r → fine r.
Proof. intros [G Hs]. by exists L, G. Qed.

Lemma reset_ok L R G r : wk cf s i l0 L R G r → io (nd r) = Idle →
  wp (mbind _reset (λ _, modify (set_mstate STATE_ELECTING)))
    (λ _ r', st cf s i l0 L R G r' ∧ mstate (nd r') = STATE_ELECTING ∧ io (nd r') = Idle) dead r.
Proof.
  intros Hw Hio. unfold wp. cbn. split; [|done].
  eapply (leave_ok cf s i Hi); [exact Hw|done|done|done|done|..]; unfold kept, Paxos.finish_pending, Paxos.finish_committing, Paxos.finish_contexts;
    cbn; by repeat (destruct (existsb _ _); cbn).
Qed.
Lemma reset_elector : keeps elector (mbind _reset (λ _, modify (set_mstate STATE_ELECTING))).
Proof. unfold _reset, Paxos.restart, mod_paxos. keep. Qed.

Lemma join_ok L R G r : st cf s i l0 L R G r → wp (join_election cf) (λ _ r', ∃ G', st cf s i l0 L R G' r' ∧
  mstate (nd r') = STATE_ELECTING ∧ io (nd r') = Idle ∧ elector (nd r') = elector (nd r)) dead r.
Proof.
  intros Hs. unfold join_election. eapply wp_seq; [eapply (wp_keeps elector), (wait_ok cf HN s i Hi l0 L R Hmin Htrim G r Hs); apply wait_elector|].
  intros [] r1 [(G1 & Hs1 & Hio1) E1]. eapply wp_mono; [eapply (wp_keeps elector), (reset_ok L R G1 r1); [apply reset_elector|apply Hs1|done]| |done].
  intros [] r2 [(Hs2 & Hm2 & Hio2) E2]. exists G1. repeat (split; [done|]). congruence.
Qed.

(** The election epoch of the store is that of the elector. *)
Lemma bump_ok L R G r e : st cf s i l0 L R G r → wp (Elector.bump_epoch (join_election cf) e)
  (λ _ r', ∃ G', electing L G' r' ∧ epoch (elector (nd r')) = e ∧ electing_me (elector (nd r')) = false ∧ acked_me (elector (nd r')) = []) dead r.
Proof.
  intros Hs. unfold Elector.bump_epoch. apply wp_get, wp_massert; [by eapply wk_is_dead, Hs|]. intros He. zb.
  eapply (wp_seq _ _ (λ _ r1, out r1 = out r ∧ store (nd r1) = store (nd r) ∧
    norm (nd r1) = norm (set_elector (set_epoch e (elector (nd r))) (nd r)))); [done|]. intros [] r1 (Eo1 & Es1 & En1).
  eapply (wp_seq _ _ (λ _ r2, out r2 = out r ∧ store (nd r2) = set_election_epoch e (store (nd r)) ∧
    norm (set_store (store (nd r)) (nd r2)) = norm (set_elector (set_epoch e (elector (nd r))) (nd r)))).
  { split; [done|]. split; [cbn; by rewrite Es1|]. rewrite <- En1, <- Es1. clear -r1. by_fields. }
  intros [] r2 (Eo2 & Es2 & En2). assert (st cf s i l0 L False G r2) as Hs2 by (by apply (bump_step L R G r r2 e)).
  eapply wp_seq; [by apply (join_ok L False G)|]. intros [] r3 (G3 & Hs3 & Hm3 & Hio3 & El3).
  assert (epoch (elector (nd r3)) = e) as Eep by (rewrite El3; exact (f_equal (λ n, epoch (elector n)) En2)).
  apply (wp_mono _ (λ _ r4, out r4 = out r3 ++ [] ∧ crew (nd r4) = crew (nd r3) ∧ epoch (elector (nd r4)) = e ∧
    electing_me (elector (nd r4)) = false ∧ acked_me (elector (nd r4)) = []) _ dead); [|intros [] r4 (Eo4 & Ec4 & Eep4 & Eem4 & Eac4)|done].
  { split; [by rewrite app_nil_r|]. split; [unfold crew; clear -r3; by_fields|done]. }
  exists G3. split; [|done]. assert (mstate (nd r4) = STATE_ELECTING) as Hm4 by (rewrite <- Hm3; exact (f_equal mstate Ec4)).
  split; [|split; [done|rewrite <- Hio3; exact (f_equal io Ec4)]].
  apply (st_weaken L False); [|intros _; split; [by rewrite Hm4|by rewrite Eem4]].
  eapply (st_elector L False G3 r3 _ []); [done|done|done|..]; rewrite ?Eem4; [|done|by intros ? ? ?%not_elem_of_nil].
  unfold acks_ok. rewrite Eac4, Eem4. repeat constructor. done.
Qed.

(** ** Proposing oneself *)

Lemma electing_msg n o e q qf mf : ∃ k, Elector.mk_msg n o e q qf mf = MsgElection k.
Proof. by eexists. Qed.

Lemma start_ok L G r : st cf s i l0 L True G r → wp (Elector.start (join_election cf) cf) (λ _ r', fine r') dead r.
Proof.
  intros Hs. unfold Elector.start. apply wp_get. destruct (participating (elector (nd r))); cbn [negb]; [|apply wp_ret; by exists L, G].
  pose proof (st_wk _ _ _ _ _ _ _ _ Hs) as Hw. destruct (nv_epoch _ _ _ _ _ (wk_core _ _ _ _ _ _ _ _ Hw)) as [_ Eep].
  eapply (wp_seq _ _ (λ _ r1, out r1 = out r ∧ store (nd r1) = store (nd r) ∧ crew (nd r1) = crew (nd r) ∧ acked_me (elector (nd r1)) = [] ∧
    electing_me (elector (nd r1)) = electing_me (elector (nd r)))).
  { split; [done|]. split; [done|]. split; [unfold crew; clear -r; by_fields|done]. }
  intros [] r1 (Eo1 & Es1 & Ec1 & Ea1 & Eem1).
  eapply (wp_seq _ _ (λ _ r2, out r2 = out r ∧ crew (nd r2) = crew (nd r) ∧ acked_me (elector (nd r2)) = [] ∧
    electing_me (elector (nd r2)) = electing_me (elector (nd r)))).
  { unfold Elector.init. apply wp_get. rewrite Es1, <- Eep. split; [done|]. split; [|done]. rewrite <- Ec1.
    rewrite <- (f_equal (λ n, epoch (elector n)) Ec1 : epoch (elector (nd r1)) = epoch (elector (nd r))). unfold crew. clear -r1. by_fields. }
  intros [] r2 (Eo2 & Ec2 & Ea2 & Eem2). apply wp_get.
  assert (epoch (elector (nd r2)) = epoch (elector (nd r))) as Eep2 by exact (f_equal (λ n, epoch (elector n)) Ec2).
  eapply (wp_when _ _ _ (λ _ r3, ∃ G' r0, st cf s i l0 L True G' r0 ∧ out r3 = out r0 ∧ crew (nd r3) = crew (nd r0) ∧
    acked_me (elector (nd r3)) = [] ∧ epoch (elector (nd r3)) mod 2 = 1)).
  - intros Hev. zb. assert (st cf s i l0 L True G r2) as Hs2.
    { assert (electing_me (elector (nd r)) = false) as Eem.
      { destruct (electing_me (elector (nd r))) eqn:E; [|done]. destruct (wk_role _ _ _ _ _ _ _ _ Hw I) as [_ H]. rewrite Eep2 in Hev. specialize (H E). lia. }
      rewrite Eem in Eem2. eapply (st_elector L True G r _ []); [done|by rewrite app_nil_r|done|..|by intros ? ? ?%not_elem_of_nil].
      - unfold acks_ok. rewrite Ea2, Eem2. repeat constructor. done.
      - by rewrite Eem2. }
    eapply wp_mono; [by apply (bump_ok L True G)| |done]. intros [] r3 (G3 & (Hs3 & _) & Ee3 & _ & Ea3). exists G3, r3. repeat (split; [done|]).
    rewrite Ee3. rewrite Zplus_mod, Hev. done.
  - intros Hodd. zb. exists G, r. repeat (split; [done|]). pose proof (Z.mod_pos_bound (epoch (elector (nd r2))) 2). lia.
  - intros r3 (G3 & r0 & Hs0 & Eo3 & Ec3 & Ea3 & Hodd). apply wp_get. cbn [id].
    pose proof (wk_rank cf s i Hi l0 L True G3 r0 (st_wk _ _ _ _ _ _ _ _ Hs0)) as Hr0.
    assert (rank (nd r3) = i) as Hr3 by (rewrite <- Hr0; exact (f_equal rank Ec3)). rewrite Hr3.
    eapply (wp_seq _ _ (λ _ r4, out r4 = out r3 ∧ crew (nd r4) = crew (nd r3) ∧ epoch (elector (nd r4)) = epoch (elector (nd r3)) ∧
      (acked_me (elector (nd r4))).*1 = [i])).
    { split; [done|]. split; [|split; [done|cbn; by rewrite Ea3]]. unfold crew. clear -r3.
      generalize (mk_info_t (supported_features (caps (nd r3))) (supported_mon_features (caps (nd r3)))). intros w.
      tidy. generalize (map_set i w (acked_me (elector (nd r3)))). intros. by_fields. }
    intros [] r4 (Eo4 & Ec4 & Ee4 & Ea4). apply wp_get. cbn [id].
    assert (rank (nd r4) = i) as Hr4 by (rewrite <- Hr3; exact (f_equal rank Ec4)).
    assert (∀ r5 m, out r5 = out r0 ++ ((λ p, (p, MsgElection m)) <$> filter (λ p, p <> i) (seqZ 0 N)) → crew (nd r5) = crew (nd r4) →
      elector (nd r5) = set_expire_event true (elector (nd r4)) → fine r5) as Hfin.
    { intros r5 m Eo5 Ec5 Ee5. exists L, G3. eapply (st_elector L True G3 r0); [done|exact Eo5|congruence|..].
      - unfold acks_ok. rewrite Ee5. cbn. rewrite Ea4. split; [by constructor|]. split; [repeat constructor|]. intros _. by left.
      - rewrite Ee5. cbn. by rewrite Ee4.
      - intros b k (-> & Hb & Hne)%elem_bcast. apply elem_of_seqZ in Hb. split; [unfold ids; lia|]. split; [done|by eexists]. }
    eapply Hfin; [cbn; by rewrite Hr4, Eo4, Eo3| |done]. unfold crew. clear -r4. by_fields.
Qed.

Lemma start_election_ok L G r : st cf s i l0 L True G r → wp (start_election cf) (λ _ r', fine r') dead r.
Proof.
  intros Hs. unfold start_election. eapply wp_seq; [by apply (wait_ok cf HN s i Hi l0 L True Hmin Htrim G)|]. intros [] r1 (G1 & Hs1 & Hio1).
  apply wp_assoc. eapply wp_seq; [apply (reset_ok L True G1 r1); [apply Hs1|done]|]. intros [] r2 (Hs2 & _). by apply (start_ok L G1).
Qed.

(** ** Deferring *)

Lemma defer_ok L G r who : st cf s i l0 L True G r → ids cf who → who ≠ i → wp (Elector.defer who) (λ _ r', fine r') dead r.
Proof.
  intros Hs Hwho Hne. unfold Elector.defer. apply wp_get. pose proof (nv_acked _ _ _ _ _ (wk_core _ _ _ _ _ _ _ _ (st_wk _ _ _ _ _ _ _ _ Hs))) as Hac.
  eapply (wp_when _ _ _ (λ _ r1, out r1 = out r ∧ crew (nd r1) = crew (nd r) ∧ epoch (elector (nd r1)) = epoch (elector (nd r)) ∧
    electing_me (elector (nd r1)) = false ∧ acks_ok (elector (nd r1)))).
  { intros _. split; [done|]. split; [unfold crew; clear -r; by_fields|]. split; [done|]. split; [done|]. repeat constructor. done. }
  { intros E. repeat (split; [done|]). done. }
  intros r1 (Eo1 & Ec1 & Ee1 & Eem1 & Hac1).
  eapply (wp_seq _ _ (λ _ r2, out r2 = out r ∧ crew (nd r2) = crew (nd r) ∧ epoch (elector (nd r2)) = epoch (elector (nd r)) ∧
    electing_me (elector (nd r2)) = false ∧ acks_ok (elector (nd r2)))).
  { split; [done|]. split; [rewrite <- Ec1; unfold crew; clear -r1; by_fields|]. repeat (split; [done|]). done. }
  intros [] r2 (Eo2 & Ec2 & Ee2 & Eem2 & Hac2). apply wp_get. cbn [id].
  assert (∀ r3 m, out r3 = out r ++ [(who, MsgElection m)] → crew (nd r3) = crew (nd r2) →
    elector (nd r3) = set_expire_event true (elector (nd r2)) → fine r3) as Hfin.
  { intros r3 m Eo3 Ec3 Ee3. exists L, G. eapply (st_elector L True G r); [done|exact Eo3|congruence|..]; rewrite ?Ee3; try done.
    - cbn. by rewrite Eem2.
    - intros b k [= -> ->]%list_elem_of_singleton. split; [done|]. split; [done|by eexists]. }
  eapply Hfin; [cbn; by rewrite Eo2| |done]. unfold crew. clear -r2. by_fields.
Qed.
Lemma weigh_ok L G r from : st cf s i l0 L True G r → ids cf from → from ≠ i → wp (Elector.weigh from) (λ _ r', fine r') dead r.
Proof.
  intros Hs Hfrom Hne. unfold Elector.weigh. apply wp_get. cbn [id]. assert (fine r) as Hf by (by exists L, G).
  destruct (rank (nd r) <? from).
  - destruct (0 <=? leader_acked (elector (nd r))); [apply wp_assert; [by eapply wk_is_dead, Hs|done]|].
    destruct (electing_me (elector (nd r))); [done|]. by apply (start_election_ok L G).
  - destruct (_ || _); [by apply (defer_ok L G)|done].
Qed.

Lemma nak_ok L G r from m : st cf s i l0 L True G r → ids cf from → from ≠ i →
  wp (Elector.nak_old_peer from m) (λ _ r', st cf s i l0 L True G r') dead r.
Proof.
  intros Hs Hfrom Hne. unfold Elector.nak_old_peer. apply wp_get.
  assert (∀ r' k, out r' = out r ++ [(from, MsgElection k)] → nd r' = nd r → st cf s i l0 L True G r') as Hsend; [|by eapply Hsend].
  intros r' k Eo En. eapply (st_lite cf s i Hi l0 L True G r); [done|exact Eo|by rewrite En|].
  by intros b m' [= -> ->]%list_elem_of_singleton.
Qed.

Lemma handle_propose_ok L G r from m : st cf s i l0 L True G r → ids cf from → from ≠ i →
  wp (Elector.handle_propose from m) (λ _ r', fine r') dead r.
Proof.
  intros Hs Hfrom Hne. assert (fine r) as Hf by (by exists L, G). unfold Elector.handle_propose. apply wp_get. cbn [id].
  apply wp_massert; [by eapply wk_is_dead, Hs|]. intros _. destruct (Elector.missing _ _).
  { eapply wp_mono; [by apply (nak_ok L G)|intros [] r' H; by exists L, G|done]. }
  destruct (negb _).
  { eapply wp_seq; [by apply (nak_ok L G)|]. intros [] r' H. by apply (weigh_ok L G). }
  destruct (epoch (elector (nd r)) <? e_epoch m).
  { eapply wp_seq; [by apply (bump_ok L True G)|]. intros [] r' (G' & (H & _) & _). by apply (weigh_ok L G'). }
  destruct (e_epoch m <? epoch (elector (nd r))); [|by apply (weigh_ok L G)]. destruct (_ && _); [|done].
  eapply wp_seq; [by apply (start_election_ok L G)|]. intros [] r' (L' & G' & H). by apply (weigh_ok L' G').
Qed.

(** ** Losing *)

Lemma lose_ok L G r e q l : electing L G r → wp (lose_election e q l) (λ _ r', st cf s i l0 L True G r') dead r.
Proof.
  intros (Hs & Hm & Hio). unfold wp. cbn. eapply (leave_ok cf s i Hi); [apply Hs|done|done|done|..].
  all: unfold kept, Paxos.finish_pending, Paxos.finish_committing, Paxos.finish_contexts; cbn;
    repeat (destruct (existsb _ _); cbn); done || by intros _ [].
Qed.

Lemma handle_victory_ok L G r from m : st cf s i l0 L True G r → wp (Elector.handle_victory cf from m) (λ _ r', fine r') dead r.
Proof.
  intros Hs. unfold Elector.handle_victory. apply wp_get. cbn [id]. apply wp_massert; [by eapply wk_is_dead, Hs|]. intros _.
  apply wp_massert; [by eapply wk_is_dead, Hs|]. intros _.
  eapply (wp_seq _ _ (λ _ r1, st cf s i l0 L True G r1)).
  { apply (st_same cf s i Hi l0 L True G r); [done|done|]. clear -r. by_fields. }
  intros [] r1 Hs1. destruct (negb _).
  - eapply wp_seq; [by apply (bump_ok L True G)|]. intros [] r2 (G2 & (Hs2 & _) & _). by apply (start_ok L G2).
  - eapply wp_seq; [by apply (bump_ok L True G)|]. intros [] r2 (G2 & He2 & _). apply wp_get.
    eapply wp_seq; [by apply (lose_ok L G2)|]. intros [] r3 Hs3. exists L, G2.
    apply (st_same cf s i Hi l0 L True G2 r3); [done|done|]. clear -r3. by_fields.
Qed.

(** ** Winning *)

Lemma votes_led a j e Q G : votes_ok N G a → votes_ok N (add_led j e Q G) a.
Proof. by intros []. Qed.

Section Win.
Context (L : Z → option (gset Z)) (G : ghost) (r r' : run) (q : gset Z) (Hs : st cf s i l0 L True G r) (Hio : io (nd r) = Idle).
Context (Hq : majority N q) (Hin : i ∈ q).
Let e : Z := epoch (elector (nd r)).
Context (HL : L e = None) (He1 : e ≠ 1).
Let G' : ghost := add_led i e q G.
Let L' : Z → option (gset Z) := λ f, if f =? e then Some q else L f.
(** The monitor as leader, about to collect. *)
Definition crowned (n : node) : node :=
  norm (set_quorum q (set_mstate STATE_LEADER (set_paxos (set_state STATE_RECOVERING (set_new_value None (set_pending_proposal None (paxos n)))) n))).
Context (Eo : out r' = out r) (En : norm (nd r') = crowned (nd r)).

Lemma win_fresh : fresh cf s i l0 L' G' r' ∧ lquorum G' i (epoch (elector (nd r'))) = Some (quorum (nd r')) ∧ role_ok G' i (nd r') ∧
  new_value (paxos (nd r')) = None ∧ mstate (nd r') = STATE_LEADER.
Proof.
  assert (∀ A (f : node → A), f (norm (nd r')) = f (crowned (nd r))) as F by (intros; by rewrite En).
  pose proof (st_wk _ _ _ _ _ _ _ _ Hs) as Hw. pose proof (wk_dead _ _ _ _ _ _ _ _ Hw) as HI. pose proof (wk_node_d cf s i Hi l0 L True _ _ Hw) as [].
  assert (store (nd r') = store (nd r)) as Es by apply (F _ store).
  assert (accepted_pn (paxos (nd r')) = accepted_pn (paxos (nd r))) as Ea by apply (F _ (λ n, accepted_pn (paxos n))).
  assert (epoch (elector (nd r')) = e) as Eep by apply (F _ (λ n, epoch (elector n))).
  assert (quorum (nd r') = q) as Eq by apply (F _ quorum). assert (mstate (nd r') = STATE_LEADER) as Em by apply (F _ mstate).
  destruct (wk_core _ _ _ _ _ _ _ _ Hw). assert (lquorum G i e = None) as Hnone by (by rewrite (wk_led _ _ _ _ _ _ _ _ Hw)).
  assert (e = election_epoch (store (nd r))) as He.
  { destruct nv_epoch0 as [_ E]. fold e in E. by destruct (_ =? 0). }
  split; [|rewrite Eep, Eq; split; [cbn; by rewrite !Z.eqb_refl|]].
  - split.
    + rewrite <- (wk_up _ _ _ _ _ _ _ _ Hw). apply (F _ up).
    + apply Hw.
    + rewrite Es. apply Hw.
    + intros f. cbn. rewrite Z.eqb_refl. unfold L'. by destruct (f =? e); [|apply Hw].
    + apply (dead_step cf s i Hi G G' r r' []); rewrite ?Ea, ?Es; try done.
      * by rewrite app_nil_r.
      * by apply gext_add_led.
      * by intros ? m ?%not_elem_of_nil.
      * by left.
      * intros p _ _ _ _ _ Hk. by apply (link_out G).
      * by left.
      * intros b v Hb Hbi. destruct (iv_began _ _ _ HI b v Hb) as [_ H]. by rewrite Hbi, dpn_kill, dpn_here in H.
      * by left.
      * apply votes_led. eapply votes_acc; [|apply HI]. intros n. rewrite acc_kill.
        destruct (Z.eq_dec n i) as [->|Hn]; [by rewrite !acc_here, Ea|by rewrite !acc_there].
      * split; rewrite ?Ea, ?Es; try done; [rewrite <- nd_rank0; apply (F _ rank)|].
        intros f Q. cbn. rewrite Z.eqb_refl. cbn. destruct (f =? e) eqn:Ef; [|apply nd_led0]. zb. intros [= <-]. split; [lia|done].
    + split; try done.
      * cbn. rewrite Es, <- nv_last_pn0. apply (F _ (λ n, last_pn (paxos n))).
      * cbn. by rewrite Es, Eep.
      * unfold io_ok in *. cbn. rewrite (F _ io : io (nd r') = io (nd r)), Hio, Es in *.
        rewrite (F _ (λ n, last_committed (paxos n)) : last_committed (paxos (nd r')) = last_committed (paxos (nd r))).
        by rewrite (F _ (λ n, first_committed (paxos n)) : first_committed (paxos (nd r')) = first_committed (paxos (nd r))).
      * intros _. rewrite <- Hio. apply (F _ io).
      * intros x Hx. cbn in Hx. by rewrite (F _ (λ n, pending_proposal (paxos n)) : pending_proposal (paxos (nd r')) = None) in Hx.
      * cbn. by rewrite (F _ (λ n, peer_last_committed (paxos n)) : peer_last_committed (paxos (nd r')) = peer_last_committed (paxos (nd r))).
      * cbn. rewrite (F _ (λ n, acked_me (elector n)) : acked_me (elector (nd r')) = acked_me (elector (nd r))).
        by rewrite (F _ (λ n, electing_me (elector n)) : electing_me (elector (nd r')) = electing_me (elector (nd r))).
  - split; [|split; [apply (F _ (λ n, new_value (paxos n)))|done]]. split.
    + intros _. rewrite Eep, Eq. cbn. by rewrite !Z.eqb_refl.
    + rewrite Eep, (F _ (λ n, electing_me (elector n)) : electing_me (elector (nd r')) = electing_me (elector (nd r))). by apply (wk_role _ _ _ _ _ _ _ _ Hw I).
Qed.
End Win.
Lemma win_ok L G r e q : electing L G r → majority N q → i ∈ q → L (epoch (elector (nd r))) = None → epoch (elector (nd r)) ≠ 1 →
  wp (win_election cf e q) (λ _ r', fine r') dead r.
Proof.
  intros (Hs & Hm & Hio) Hq Hin HL He. unfold win_election. apply wp_get, wp_massert; [by eapply wk_is_dead, Hs|]. intros _. cbn [id].
  assert ((size q =? 1)%nat = false) as Hsz by (apply Nat.eqb_neq; destruct Hq; lia).
  apply wp_mod. apply (wp_seq _ _ (λ _ r', ∃ L' G', st cf s i l0 L' True G' r')).
  - unfold Paxos.leader_init. apply (wp_seq _ _ (λ _ r1, out r1 = out r ∧ quorum (nd r1) = q ∧
      norm (set_paxos (set_state STATE_RECOVERING (paxos (nd r1))) (nd r1)) = crowned q (nd r))).
    { split; [done|]. split; [done|]. unfold crowned, Paxos.finish_pending, Paxos.finish_committing, Paxos.finish_contexts. cbn.
      repeat (destruct (existsb _ _); cbn); reflexivity. }
    intros [] r1 (Eo1 & Eq1 & En1). apply wp_get. rewrite Eq1, Hsz.
    apply (wp_seq _ _ (λ _ r2, out r2 = out r ∧ norm (nd r2) = crowned q (nd r))).
    { split; [done|]. rewrite <- En1. clear -r1. by_fields. }
    intros [] r2 [Eo2 En2].
    destruct (win_fresh L G r r2 q Hs Hio Hq Hin HL He Eo2 En2) as (Hf & Hlq & Hrole & Hnv & Hl).
    eapply wp_mono; [by apply (collect_wp cf HN s i Hi l0 _ True 0 _ r2 Hf Hnv Hlq)|intros [] r3 (G3 & Hs3 & _); by eexists _, G3|done].
  - intros [] r2 (L' & G2 & Hs2). eapply wp_seq; [by apply (pending_transaction_ok cf s i Hi l0 L' True G2)|]. intros t r3 (Hs3 & _ & _ & Ht).
    exists L', G2. apply (add_pending_ok cf s i Hi l0 L' True G2 r3 (OpService MONITOR_STORE_PREFIX LAST_METADATA (Some (last_metadata cf))) t
      (set_pending_proposal (Some (t ++ [OpService MONITOR_STORE_PREFIX LAST_METADATA (Some (last_metadata cf))])))); done.
Qed.

Lemma acks_majority e : acks_ok e → N < 2 * Z.of_nat (length (acked_me e)) → majority N (list_to_set (acked_me e).*1 : gset Z).
Proof.
  intros (Hid & Hsrt & _) Hlen. split.
  - intros x Hx%elem_of_list_to_set. apply elem_all_ids. by eapply Forall_forall in Hid.
  - rewrite size_list_to_set; [by rewrite length_fmap|]. clear -Hsrt.
    induction Hsrt as [|x l Hl IH Hx]; constructor; [|done]. intros Hin. eapply Forall_forall in Hx; [|exact Hin]. lia.
Qed.

Lemma victory_ok L G r : st cf s i l0 L True G r → N < 2 * Z.of_nat (length (acked_me (elector (nd r)))) →
  electing_me (elector (nd r)) = true → wp Elector.victory (λ _ r', fine r') dead r.
Proof.
  intros Hs Hlen Hme. pose proof (st_wk _ _ _ _ _ _ _ _ Hs) as Hw. pose proof (nv_acked _ _ _ _ _ (wk_core _ _ _ _ _ _ _ _ Hw)) as Hac.
  destruct (nv_epoch _ _ _ _ _ (wk_core _ _ _ _ _ _ _ _ Hw)) as [Hep0 Hep]. pose proof (acks_majority _ Hac Hlen) as Hmaj.
  assert (i ∈ (list_to_set (acked_me (elector (nd r))).*1 : gset Z)) as Hin by (apply elem_of_list_to_set; by apply Hac).
  assert (L (epoch (elector (nd r)) + 1) = None) as HL.
  { rewrite <- (wk_led _ _ _ _ _ _ _ _ Hw). destruct (lquorum G i _) as [Q|] eqn:E; [|done]. exfalso.
    destruct (nd_led _ _ _ _ (wk_node_d cf s i Hi l0 L True _ _ Hw) _ _ E) as [H _]. destruct (_ =? 0) eqn:E0; zb; lia. }
  assert (1 <= epoch (elector (nd r))) as Hpos by (destruct (_ =? 0) eqn:E0; zb; lia).
  unfold Elector.victory.
  eapply (wp_seq _ _ (λ _ r1, out r1 = out r ++ [] ∧ crew (nd r1) = crew (nd r) ∧ acked_me (elector (nd r1)) = acked_me (elector (nd r)) ∧
    electing_me (elector (nd r1)) = false ∧ epoch (elector (nd r1)) = epoch (elector (nd r)))).
  { split; [by rewrite app_nil_r|]. split; [unfold crew; clear -r; by_fields|done]. }
  intros [] r1 (Eo1 & Ec1 & Ea1 & Eem1 & Ee1). apply wp_get. cbn [id]. rewrite Ea1, Ee1.
  assert (st cf s i l0 L True G r1) as Hs1.
  { eapply (st_elector L True G r); [done|exact Eo1|done|..|by intros ? ? ?%not_elem_of_nil]; unfold acks_ok; rewrite Eem1; [|done].
    rewrite Ea1. destruct Hac as (? & ? & _). done. }
  eapply (wp_seq _ _ (λ _ r2, st cf s i l0 L True G r2)).
  { apply (st_same cf s i Hi l0 L True G r1); [done|done|]. clear -r1. by_fields. }
  intros [] r2 Hs2. apply wp_massert; [by eapply wk_is_dead, Hs2|]. intros Hodd. zb.
  eapply wp_seq; [by apply (bump_ok L True G)|]. intros [] r3 (G3 & He3 & Eep3 & _). apply wp_get. cbn [id].
  pose proof He3 as (Hs3 & Hm3 & Hio3).
  eapply (wp_seq _ _ (λ _ r4, electing L G3 r4 ∧ epoch (elector (nd r4)) = epoch (elector (nd r)) + 1)).
  { split; [|done]. split; [|done]. eapply (st_lite cf s i Hi l0 L True G3 r3); [done|reflexivity|done|].
    intros b m (-> & Hb & Hne)%elem_bcast. cbn in Hne. rewrite (wk_rank cf s i Hi l0 L True G3 r3 (st_wk _ _ _ _ _ _ _ _ Hs3)) in Hne.
    split; [done|]. split; [done|]. split; [|done]. apply elem_of_elements in Hb. by apply elem_all_ids, Hmaj. }
  intros [] r4 [He4 Ee4]. apply (win_ok L G3 r4); rewrite ?Ee4; try done. lia.
Qed.

(** ** The messages of the elector *)

Lemma map_set_keys {V} k (v : V) (l : list (Z * V)) : StronglySorted Z.lt l.*1 →
  StronglySorted Z.lt (map_set k v l).*1 ∧ ∀ x, x ∈ (map_set k v l).*1 ↔ x = k ∨ x ∈ l.*1.
Proof.
  induction l as [|[k' v'] l IH]; cbn [map_set fmap list_fmap fst]; intros Hs.
  { split; [repeat constructor|]. intros x. rewrite list_elem_of_singleton, elem_of_nil. tauto. }
  apply StronglySorted_inv in Hs as [Hs Hk]. destruct (IH Hs) as [IH1 IH2].
  destruct (k' <? k) eqn:E1; [|destruct (k' =? k) eqn:E2]; zb; cbn [fmap list_fmap fst].
  - split; [|intros x; rewrite !elem_of_cons, IH2; tauto]. constructor; [done|]. apply Forall_forall. intros x [->|Hx]%IH2; [done|].
    by eapply Forall_forall in Hk.
  - subst k'. split; [by constructor|]. intros x. rewrite !elem_of_cons. tauto.
  - split; [|intros x; rewrite !elem_of_cons; tauto]. constructor; [by constructor|]. constructor; [lia|].
    eapply Forall_impl; [exact Hk|]. cbn. intros; lia.
Qed.

Lemma handle_ack_ok L G r from m : st cf s i l0 L True G r → ids cf from → wp (Elector.handle_ack cf from m) (λ _ r', fine r') dead r.
Proof.
  intros Hs Hfrom. assert (fine r) as Hf by (by exists L, G). assert (dead r) as Hd by (by eapply wk_is_dead, Hs).
  unfold Elector.handle_ack. apply wp_get. cbn [id]. apply wp_massert; [done|]. intros _.
  destruct (epoch (elector (nd r)) <? e_epoch m).
  { eapply wp_seq; [by apply (bump_ok L True G)|]. intros [] r' (G' & (H & _) & _). by apply (start_ok L G'). }
  apply wp_massert; [done|]. intros _. destruct (Elector.missing _ _); [done|]. destruct (negb _); [done|].
  destruct (electing_me (elector (nd r))) eqn:Eme; [|by apply wp_assert].
  pose proof (nv_acked _ _ _ _ _ (wk_core _ _ _ _ _ _ _ _ (st_wk _ _ _ _ _ _ _ _ Hs))) as (Ha1 & Ha2 & Ha3).
  destruct (wk_role _ _ _ _ _ _ _ _ (st_wk _ _ _ _ _ _ _ _ Hs) I) as [_ Hodd].
  set (info := mk_info_t (con_features m) (e_mon_features m)). destruct (map_set_keys from info _ Ha2) as [Hk1 Hk2].
  eapply (wp_seq _ _ (λ _ r1, out r1 = out r ++ [] ∧ crew (nd r1) = crew (nd r) ∧
    acked_me (elector (nd r1)) = map_set from info (acked_me (elector (nd r))) ∧
    electing_me (elector (nd r1)) = true ∧ epoch (elector (nd r1)) = epoch (elector (nd r)))).
  { split; [by rewrite app_nil_r|]. split; [|done]. unfold crew. clear -r. generalize (map_set from info (acked_me (elector (nd r)))).
    intros. by_fields. }
  intros [] r1 (Eo1 & Ec1 & Ea1 & Eem1 & Ee1). apply wp_get. assert (st cf s i l0 L True G r1) as Hs1.
  { eapply (st_elector L True G r); [done|exact Eo1|done|..|by intros ? ? ?%not_elem_of_nil].
    - unfold acks_ok. rewrite Ea1. split; [|split; [done|intros _; apply Hk2; right; by apply Ha3]].
      apply Forall_forall. intros x [->|Hx]%Hk2; [done|]. by eapply Forall_forall in Ha1.
    - intros _. rewrite Ee1. by apply Hodd. }
  destruct (Z.of_nat (length (acked_me (elector (nd r1)))) =? N) eqn:Elen; [|by exists L, G]. zb.
  apply (victory_ok L G); [done|lia|done].
Qed.

Lemma expire_ok L G r : st cf s i l0 L True G r → wp (Elector.expire cf) (λ _ r', fine r') dead r.
Proof.
  intros Hs. unfold Elector.expire. apply wp_get. cbn [id]. destruct (_ && _) eqn:Ec.
  - apply andb_true_iff in Ec as [Hme Hlen]. zb. apply (victory_ok L G); [done| |done]. pose proof (Z.div_mod N 2). pose proof (Z.mod_pos_bound N 2). lia.
  - destruct (has_ever_joined cf _); [by apply (start_ok L G)|].
    eapply wp_mono; [by apply (boot_working cf HN Hmin Htrim s i Hi l0 L True G)|intros [] r' [G' ?]; by exists L, G'|done].
Qed.

Lemma elector_dispatch_ok L G r from m : st cf s i l0 L True G r → ids cf from → from ≠ i →
  wp (Elector.dispatch cf from m) (λ _ r', fine r') dead r.
Proof.
  intros Hs Hfrom Hne. assert (fine r) as Hf by (by exists L, G). unfold Elector.dispatch. apply wp_get. cbn [id].
  destruct (negb _); [done|]. destruct (N <=? from); [done|]. destruct (monmap_epoch (nd r) <? e_monmap_epoch m).
  { apply wp_mod. set (r1 := mk_run _ _).
    assert (st cf s i l0 L True G r1) as Hs1 by (by apply (st_same cf s i Hi l0 L True G r)). clearbody r1.
    eapply (wp_seq _ _ (λ _ r2, st cf s i l0 L True G r2)).
    { apply (st_same cf s i Hi l0 L True G r1); [done|done|]. clear -r1. by_fields. }
    intros [] r2 Hs2.
    eapply wp_mono; [by apply (boot_working cf HN Hmin Htrim s i Hi l0 L True G)|intros [] r' [G' ?]; by exists L, G'|done]. }
  destruct (e_op m); [by apply (handle_propose_ok L G)|..]; (destruct (e_epoch m <? epoch (elector (nd r))); [done|]).
  - by apply (handle_ack_ok L G).
  - by eapply wk_is_dead, Hs.
  - by apply (handle_victory_ok L G).
Qed.

(** ** The messages of a monitor *)

Lemma dispatch_op_ok L G r from m : st cf s i l0 L True G r → ids cf from → from ≠ i →
  (∀ k, m = MsgPaxos k → arrived cf s i G r from k) → wp (dispatch_op cf from m) (λ _ r', fine r') dead r.
Proof.
  intros Hs Hfrom Hne Har. assert (fine r) as Hf by (by exists L, G). unfold dispatch_op. apply wp_get. cbn [id]. destruct m as [m|m].
  - destruct (is_probing (nd r)); [done|]. by apply (elector_dispatch_ok L G).
  - destruct (epoch (elector (nd r)) <? p_epoch m).
    { eapply wp_mono; [by apply (boot_working cf HN Hmin Htrim s i Hi l0 L True G)|intros [] r' [G' ?]; by exists L, G'|done]. }
    destruct (p_epoch m =? epoch (elector (nd r))) eqn:Eep; [|done]. zb.
    eapply wp_mono; [by apply (paxos_dispatch_ok cf HN Hmin Htrim s i Hi l0 L True G r from m I Hs (Har m eq_refl))|intros [] r' [G' ?]; by exists L, G'|done].
Qed.
End Elect.
End PaxosElect.
