(* ===== verification/PaxosSafe.v ===== *)
(** * Agreement of the monitors

    Every event of the system maintains the invariant, as long as no monitor restarts
    with a promise that is only in its memory.  Hence the stores of all monitors hold
    prefixes of one log that only grows.  Without that condition two monitors can
    commit different values for the same version (PaxosAgree.v). *)
From stdpp Require Import gmap.
From S2P Require Import Prelude StdMap MonTypes Consensus Paxos Elector Monitor PaxosInv PaxosData PaxosStep PaxosLead PaxosCollect PaxosPeer PaxosLast PaxosPromise PaxosHandlers PaxosElect.

Module PaxosSafe.
Import MonTypes Consensus Monitor PaxosInv PaxosData PaxosStep PaxosLead PaxosCollect PaxosPeer PaxosLast PaxosPromise PaxosHandlers PaxosElect.

Section Safe.
Context (cf : config) (HN : 2 <= mon_count cf <= 100).
Context (Hmin : 0 <= paxos_min cf) (Htrim : 0 <= paxos_trim_min cf).
Abbreviation N := (mon_count cf).
Implicit Types (G : ghost) (s : sys) (e : event).

(** A step to [s']: the log grows, and at most one monitor changes, which keeps what
    it has committed. *)
Definition advance G s s' : Prop := ∃ G', log G `prefix_of` log G' ∧ inv cf G' s' ∧
  ∃ i, (∀ j, j ≠ i → nodes s' j = nodes s j) ∧ dlc s i <= dlc s' i.

(** The state of the system after a handler. *)
Lemma run_at_inv G s i m : ids cf i → wp m (λ _ r, fine cf s i (log G) r) (dead cf s i (log G)) (mk_run (nodes s i) []) →
  advance G s (run_at i m s).
Proof.
  intros Hi. unfold wp, run_at. destruct (m _) as [a r|r].
  - intros (L & G' & Hs). exists G'. split; [apply Hs|]. split; [exact (st_end cf s i Hi (log G) L G' r Hs)|]. exists i.
    split; [intros j Hj; cbn; unfold upd; by rewrite (proj2 (Z.eqb_neq _ _))|]. unfold dlc at 2. cbn. unfold upd. rewrite Z.eqb_refl. apply Hs.
  - intros (G' & Hp & Hlc & HI). exists G'. split; [done|]. split; [done|]. exists i.
    split; [intros j Hj; cbn; unfold upd; by rewrite (proj2 (Z.eqb_neq _ _))|]. unfold dlc at 2. cbn. unfold upd. by rewrite Z.eqb_refl.
Qed.

(** ** Delivery *)

Definition pop (src dst : Z) (l : list message) s : sys := mk_sys (nodes s) (upd (net s) src (upd (net s src) dst l)).

Lemma pop_net src dst l s a b : net (pop src dst l s) a b = if (a =? src) && (b =? dst) then l else net s a b.
Proof. cbn. unfold upd. destruct (a =? src) eqn:E; [|done]. zb. subst. by destruct (b =? dst). Qed.

Lemma pop_inv G s src dst l : l `sublist_of` net s src dst → inv cf G s → inv cf G (pop src dst l s).
Proof.
  intros Hl. apply inv_sub; [done|]. intros a b. rewrite pop_net. destruct (_ && _) eqn:E; [|done].
  apply andb_true_iff in E as [? ?]. zb. by subst.
Qed.

Section Deliver.
Context (G : ghost) (s : sys) (src dst : Z) (m : MMonPaxos) (l : list message).
Context (HI : inv cf G s) (Hnet : net s src dst = MsgPaxos m :: l).
Let s' : sys := pop src dst l s.
Let r : run := mk_run (nodes s' dst) [].

Lemma deliver_msg : ids cf src ∧ ids cf dst ∧ src ≠ dst ∧ msg_ok cf G s src dst (MsgPaxos m).
Proof. apply (iv_msg _ _ _ HI). rewrite Hnet. left. Qed.

(** What the receiver has sent is still there. *)
Lemma deliver_back : net (view s' dst r) dst src = net s dst src ∧ net s' src dst = l.
Proof.
  destruct deliver_msg as (_ & _ & Hne & _). rewrite net_here. cbn [out r]. rewrite app_nil_r. unfold s'. rewrite !pop_net, !Z.eqb_refl.
  by rewrite (proj2 (Z.eqb_neq dst src)) by done.
Qed.

Lemma deliver_link : up (nodes s src) = true → mstate (nodes s src) = STATE_LEADER → dst ∈ quorum (nodes s src) →
  link G dst (nodes s src) (MsgPaxos m :: l) (net s dst src).
Proof.
  intros Hu Hl Hq. destruct deliver_msg as (Hi & _ & Hne & _). destruct (iv_up _ _ _ HI src Hi Hu) as [Hc _].
  destruct (nv_leads _ _ _ _ _ Hc Hl). rewrite <- Hnet. by apply ld_link0.
Qed.
Lemma deliver_link_back : up (nodes s dst) = true → mstate (nodes s dst) = STATE_LEADER → src ∈ quorum (nodes s dst) →
  link G src (nodes s dst) (net s dst src) (MsgPaxos m :: l).
Proof.
  intros Hu Hl Hq. destruct deliver_msg as (_ & Hi & Hne & _). destruct (iv_up _ _ _ HI dst Hi Hu) as [Hc _].
  destruct (nv_leads _ _ _ _ _ Hc Hl). rewrite <- Hnet. by apply ld_link0.
Qed.

Lemma deliver_arrived : up (nodes s dst) = true → arrived cf s' dst G r src m.
Proof.
  intros Hup. destruct deliver_msg as (H1 & H2 & Hne & Hok). destruct deliver_back as [Eback El]. split; try done.
  - eapply msg_ok_ext; [|exact Hok]. intros k. unfold acc, dpn, dlc.
    destruct (Z.eq_dec k dst) as [->|Hk]; [by rewrite view_here|by rewrite view_there].
  - intros Ho. pose proof (iv_sorted _ _ _ HI src dst) as Hsort. pose proof (iv_fresh _ _ _ HI src dst (p_pn m)) as Hfr.
    rewrite Hnet in Hsort, Hfr. unfold pns in Hsort, Hfr. cbn in Hsort, Hfr. rewrite Ho in Hsort, Hfr. split; [|split].
    + intros Hmod. apply Hfr; [left|done].
    + intros c Hc. rewrite El in Hc. apply StronglySorted_inv in Hsort as [_ Hsort]. by eapply Forall_forall in Hsort.
    + intros Hu Hl Hq. destruct (deliver_link Hu Hl Hq) as [Hc Hla _ _]. rewrite Eback. split.
      * intros Hin. destruct (Hc Hin) as [H _]. unfold pns in H. cbn in H. by rewrite Ho in H.
      * intros k Hk Hpk. apply list_elem_of_split in Hk as (k1 & k2 & Ek). destruct (Hla _ _ _ Ek Hpk) as [H _].
        unfold pns in H. cbn in H. by rewrite Ho in H.
  - intros Ho Hl Hq. destruct (deliver_link_back Hup Hl Hq) as [Hc Hla _ _]. split.
    + intros Hin. destruct (Hc Hin) as [_ H]. unfold pns in H. cbn in H. by rewrite Ho in H.
    + intros Hpn. rewrite Eback, El. apply (Hla [] (MsgPaxos m) l); [done|]. cbn. rewrite Ho. by rewrite Hpn.
  - intros Ho Hu Hl Hq Hpn. destruct (deliver_link Hu Hl Hq) as [_ _ Ht Hrd]. rewrite Eback, El.
    change (nodes s' src) with (nodes s src) in *. rewrite Hpn. assert (pn_of OP_BEGIN (MsgPaxos m) = Some (accepted_pn (paxos (nodes s src)))) as Hp.
    { cbn. rewrite Ho. by rewrite Hpn. }
    specialize (Hrd (MsgPaxos m) (or_introl (conj (list_elem_of_here _ _) Hp))).
    change (MsgPaxos m :: l) with ([MsgPaxos m] ++ l) in Ht. rewrite tokens_app in Ht. unfold tokens at 1, pns in Ht. cbn [omap list_omap] in Ht.
    rewrite Hp in Ht. cbn in Ht. rewrite decide_True in Ht by done. cbn in Ht.
    destruct (decide (updating _ ∧ _)) as [[? ?]|_]; [|lia]. split; [lia|]. split; [lia|]. done.
  - intros Ho Hl Hq Hpn. destruct (deliver_link_back Hup Hl Hq) as [_ _ Ht Hrd]. rewrite Eback, El.
    change (nd r) with (nodes s dst) in *. assert (pn_of OP_ACCEPT (MsgPaxos m) = Some (accepted_pn (paxos (nodes s dst)))) as Hp.
    { cbn. rewrite Ho. by rewrite Hpn. }
    specialize (Hrd (MsgPaxos m) (or_intror (conj (list_elem_of_here _ _) Hp))).
    change (MsgPaxos m :: l) with ([MsgPaxos m] ++ l) in Ht. rewrite tokens_app in Ht. unfold tokens at 2, pns in Ht. cbn [omap list_omap] in Ht.
    rewrite Hp in Ht. cbn in Ht. rewrite decide_True in Ht by done. cbn in Ht.
    destruct (decide (updating _ ∧ _)) as [[? ?]|_]; [|lia]. split; [lia|]. split; [lia|]. done.
Qed.
End Deliver.
(** ** Restarts *)

(** The promise of a monitor is in its store. *)
Definition durable s (i : Z) : Prop := accepted_pn (paxos (nodes s i)) = db_accepted_pn (store (nodes s i)).
(** Only monitors whose promise is in their store restart. *)
Definition careful s e : Prop := match e with Restart i => durable s i | _ => True end.

(** A process that has read back its store. *)
Lemma started_ok G s i r : ids cf i → inv cf G s → durable s i → out r = [] → store (nd r) = store (nodes s i) → rank (nd r) = rank (nodes s i) →
  norm (set_store db0 (set_rank 0 (nd r))) = norm (set_elector (set_epoch (epoch (elector (nd r))) elector0)
    (set_paxos (set_first_committed (db_first_committed (store (nd r))) (set_last_committed (db_last_committed (store (nd r)))
      (set_last_pn (db_last_pn (store (nd r))) (set_accepted_pn (db_accepted_pn (store (nd r))) paxos0))))
      (mk_node 0 true db0 Idle elector0 paxos0 STATE_PROBING 0 ∅ 0 0 (mk_features 0 0 0 0)))) →
  epoch (elector (nd r)) = (if election_epoch (store (nd r)) =? 0 then 1 else election_epoch (store (nd r))) →
  st cf s i (log G) (lquorum G i) True G r.
Proof.
  intros Hi HI Hd Eo Es Er E Eep. set (n0 := mk_node 0 true _ _ _ _ _ _ _ _ _ _) in E.
  assert (∀ A (f : node → A), f (norm (set_store db0 (set_rank 0 (nd r)))) = f (norm (set_elector (set_epoch (epoch (elector (nd r))) elector0)
    (set_paxos (set_first_committed (db_first_committed (store (nd r))) (set_last_committed (db_last_committed (store (nd r)))
      (set_last_pn (db_last_pn (store (nd r))) (set_accepted_pn (db_accepted_pn (store (nd r))) paxos0)))) n0)))) as F by (intros; by rewrite E).
  clear E. assert (mstate (nd r) = STATE_PROBING) as Em by apply (F _ mstate).
  assert (accepted_pn (paxos (nd r)) = accepted_pn (paxos (nodes s i))) as Ea.
  { rewrite Hd, <- Es. apply (F _ (λ n, accepted_pn (paxos n))). }
  assert (io (nd r) = Idle) as Hio by apply (F _ io).
  assert (state (paxos (nd r)) = STATE_RECOVERING) as Est by apply (F _ (λ n, state (paxos n))).
  pose proof (view_start cf G s i HI) as HV. set (r0 := mk_run (nodes s i) []) in HV.
  assert (inv cf G (view s i (kill r0))) as HK by (by eapply (inv_swap cf s i Hi); [exact HV|..]).
  split; [|by rewrite Em]. split; try done.
  - apply (F _ up).
  - unfold dlc. by rewrite Es.
  - by eapply (dead_quiet cf s i Hi G r0 r []); [done|..|by intros ? ? ?%not_elem_of_nil].
  - intros _. split; [by rewrite Em|]. by rewrite (F _ (λ n, electing_me (elector n)) : electing_me (elector (nd r)) = false).
  - pose proof (iv_node _ _ _ HI i Hi) as []. rewrite <- Es in *. split; try done; rewrite ?Em; try done.
    + apply (F _ (λ n, last_pn (paxos n))).
    + unfold io_ok. rewrite Hio. split; [apply (F _ (λ n, last_committed (paxos n)))|apply (F _ (λ n, first_committed (paxos n)))].
    + intros x. by rewrite (F _ (λ n, pending_proposal (paxos n)) : pending_proposal (paxos (nd r)) = None).
    + by rewrite (F _ (λ n, peer_last_committed (paxos n)) : peer_last_committed (paxos (nd r)) = []).
    + rewrite (F _ (λ n, acked_me (elector n)) : acked_me (elector (nd r)) = []).
      rewrite (F _ (λ n, electing_me (elector n)) : electing_me (elector (nd r)) = false). repeat constructor. done.
Qed.

Lemma process_start_ok G s i : ids cf i → inv cf G s → durable s i →
  wp (process_start cf) (λ _ r, fine cf s i (log G) r) (dead cf s i (log G)) (mk_run (nodes s i) []).
Proof.
  intros Hi HI Hd. unfold process_start. apply wp_mod. cbn [nd out]. apply wp_bind.
  unfold Paxos.init. apply wp_get, wp_mod_paxos, wp_get. set (r1 := mk_run _ _).
  assert (store (nd r1) = store (nodes s i) ∧ rank (nd r1) = rank (nodes s i) ∧ out r1 = []) as (Es1 & Er1 & Eo1) by done.
  assert (accepted_pn (paxos (nd r1)) = accepted_pn (paxos (nodes s i))) as Ea1 by (by rewrite Hd).
  apply wp_assert.
  { pose proof (view_start cf G s i HI) as HV. exists G. split; [done|]. split; [done|].
    assert (inv cf G (view s i (kill (mk_run (nodes s i) [])))) as HK by (by eapply (inv_swap cf s i Hi); [exact HV|..]).
    by eapply (dead_quiet cf s i Hi G _ r1 []); [exact HK|..|by intros ? ? ?%not_elem_of_nil]. }
  intros _. apply (wp_seq _ _ (λ _ r, st cf s i (log G) (lquorum G i) True G r)).
  - unfold Elector.init. apply wp_get. apply started_ok; try done.
  - intros [] r Hs. eapply wp_mono; [by apply (boot_working cf HN Hmin Htrim s i Hi (log G) (lquorum G i) True G)| |done].
    intros [] r' [G' ?]. by exists (lquorum G i), G'.
Qed.
(** ** Every event *)

Lemma start_fine G s i m : ids cf i → inv cf G s → up (nodes s i) = true →
  (∀ r, st cf s i (log G) (lquorum G i) True G r → mstate (nd r) = mstate (nodes s i) →
     wp m (λ _ r, fine cf s i (log G) r) (dead cf s i (log G)) r) →
  advance G s (run_at i m s).
Proof. intros Hi HI Hu Hm. apply run_at_inv; [done|]. by apply Hm; [apply st_start|]. Qed.

Lemma at_node_inv G s i guard m s' : inv cf G s → at_node cf s i guard m = Some s' →
  (ids cf i → guard (nodes s i) = true → ∀ r, st cf s i (log G) (lquorum G i) True G r → mstate (nd r) = mstate (nodes s i) →
     wp m (λ _ r, fine cf s i (log G) r) (dead cf s i (log G)) r) →
  advance G s s'.
Proof.
  intros HI. unfold at_node, alive, mon_id. destruct (_ && _) eqn:E; [|done]. intros [= <-] Hm.
  rewrite !andb_true_iff in E. destruct E as [[[? ?] Hu] Hg]. zb. apply start_fine; [done|done|done|by apply Hm].
Qed.

Lemma exec_inv G s e s' : inv cf G s → careful s e → exec cf s e = Some s' → advance G s s'.
Proof.
  intros HI Hc. assert (∀ l i L r, working cf s i l L True r → fine cf s i l r) as Hwf by (intros; by eapply working_fine).
  destruct e; cbn [exec].
  - destruct (net s src dst) as [|m l] eqn:En; [done|]. unfold alive, mon_id. destruct (_ && _) eqn:E; [|done]. intros [= <-].
    rewrite !andb_true_iff in E. destruct E as [[? ?] Hu]. zb. fold (pop src dst l s).
    assert (inv cf G (pop src dst l s)) as HP by (apply pop_inv; [rewrite En; by constructor|done]).
    destruct (iv_msg _ _ _ HI src dst m) as (Hs & Hd & Hne & _); [rewrite En; left|].
    apply (run_at_inv G (pop src dst l s)); [done|]. apply (dispatch_op_ok cf HN Hmin Htrim _ dst Hd (log G) (lquorum G dst) G); [by apply st_start|done|done|].
    intros k ->. by apply deliver_arrived.
  - intros [= <-]. exists G. split; [done|]. split; [apply (pop_inv G s src dst); [apply sublist_delete|done]|]. by exists 0.
  - intros H. eapply at_node_inv; [exact HI|exact H|]. intros Hi _ r Hs _. exists (lquorum G i), G.
    apply (st_same cf s i Hi (log G) _ True G r); done.
  - intros H. eapply at_node_inv; [exact HI|exact H|]. intros Hi _ r Hs _.
    eapply (wp_seq _ _ (λ _ r1, st cf s i (log G) (lquorum G i) True G r1)).
    { apply (st_same cf s i Hi (log G) _ True G r); [done|done|]. clear -r. by_fields. }
    intros [] r1 Hs1. by apply (expire_ok cf HN Hmin Htrim s i Hi (log G) (lquorum G i) G).
  - intros H. eapply at_node_inv; [exact HI|exact H|]. intros Hi _ r Hs _.
    eapply wp_mono; [by apply (collect_timeout_ok cf HN Hmin Htrim s i Hi (log G) (lquorum G i) True G)|intros [] r'; by apply Hwf|done].
  - intros H. eapply at_node_inv; [exact HI|exact H|]. intros Hi _ r Hs _.
    eapply wp_mono; [by apply (accept_timeout_ok cf HN Hmin Htrim s i Hi (log G) (lquorum G i) True G)|intros [] r'; by apply Hwf|done].
  - intros H. eapply at_node_inv; [exact HI|exact H|]. intros Hi _ r Hs _.
    eapply wp_mono; [by apply (lease_renew_ok cf s i Hi (log G) (lquorum G i) True G)|intros [] r'; by apply Hwf|done].
  - intros H. eapply at_node_inv; [exact HI|exact H|]. intros Hi _ r Hs _.
    eapply wp_mono; [by apply (lease_ack_timeout_ok cf HN Hmin Htrim s i Hi (log G) (lquorum G i) True G)|intros [] r'; by apply Hwf|done].
  - intros H. eapply at_node_inv; [exact HI|exact H|]. intros Hi _ r Hs _.
    eapply wp_mono; [by apply (lease_timeout_ok cf HN Hmin Htrim s i Hi (log G) (lquorum G i) True G)|intros [] r'; by apply Hwf|done].
  - intros H. eapply at_node_inv; [exact HI|exact H|]. intros Hi _ r Hs _.
    eapply wp_mono; [by apply (store_apply_ok cf HN s i Hi (log G) (lquorum G i) True G)|intros [] r' [? _]; by eapply Hwf|done].
  - intros H. eapply at_node_inv; [exact HI|exact H|]. intros Hi _ r Hs _.
    eapply wp_mono; [by apply (store_complete_ok cf HN s i Hi (log G) (lquorum G i) True Hmin Htrim G)|intros [] r' [? _]; by eapply Hwf|done].
  - intros H. eapply at_node_inv; [exact HI|exact H|]. intros Hi _ r Hs _.
    eapply wp_mono; [by apply (prepare_ok cf s i Hi (log G) (lquorum G i) True G)|intros [] r'; by apply Hwf|done].
  - intros H. eapply at_node_inv; [exact HI|exact H|]. intros Hi Hg r Hs Hm. apply andb_true_iff in Hg as [Hg%bool_decide_eq_true _].
    eapply wp_mono; [apply (trigger_propose_ok cf HN s i Hi (log G) (lquorum G i) True G); [done|congruence]|intros [] r'; by apply Hwf|done].
  - intros H. eapply at_node_inv; [exact HI|exact H|]. intros Hi _ r Hs _.
    eapply wp_mono; [by apply (boot_working cf HN Hmin Htrim s i Hi (log G) (lquorum G i) True G)|intros [] r'; by apply Hwf|done].
  - intros H. eapply at_node_inv; [exact HI|exact H|]. intros Hi _ r Hs _.
    by apply (start_election_ok cf HN Hmin Htrim s i Hi (log G) (lquorum G i) G).
  - intros H. eapply at_node_inv; [exact HI|exact H|]. intros Hi _ r Hs _.
    assert (∀ b', fine cf s i (log G) (mk_run (set_elector (set_participating b' (elector (nd r))) (nd r)) (out r))) as Hp.
    { intros b'. exists (lquorum G i), G. apply (st_same cf s i Hi (log G) _ True G r); [done|done|]. clear -r. by_fields. }
    destruct b; apply Hp.
  - unfold mon_id. destruct (_ && _) eqn:E; [|done]. intros [= <-]. apply andb_true_iff in E as [? ?]. zb.
    apply run_at_inv; [done|]. by apply process_start_ok.
Qed.

(** ** The first state *)

Definition ghost0 : ghost := mk_ghost (λ _ _, None) (λ _ _ _, False) (λ _, ∅) (λ _, ∅) (λ _ _, None) [].

Lemma data_ok0 : data_ok [] db0.
Proof. split; cbn; try done. intros; lia. Qed.

Lemma inv0 caps : inv cf ghost0 (sys0 caps).
Proof.
  split; try done.
  - split; try done. intros v x. unfold entry. cbn. by destruct (v <? 1); rewrite ?lookup_nil.
  - intros b v H. by apply is_Some_None in H.
  - intros i _. change (ids cf 0 ∧ 0 <= 0). unfold ids. lia.
  - intros i _. split; try done. apply data_ok0.
  - by intros a b m ?%not_elem_of_nil.
  - intros a b. constructor.
  - by intros a b c ?%not_elem_of_nil.
Qed.

Lemma reachable_inv caps s : reachable cf caps careful s → ∃ G, inv cf G s.
Proof.
  induction 1 as [|s e s' _ [G HI] Hc He]; [exists ghost0; apply inv0|].
  destruct (exec_inv G s e s' HI Hc He) as (G' & _ & HI' & _). by exists G'.
Qed.
(** ** The replicated log

    What the monitors promise together: one log, to which values are added at the
    end, and for each monitor how much of it is committed there, which only grows. *)

Record spec : Type := mk_spec { slog : list value; learnt : Z → Z }.
Definition spec0 : spec := mk_spec [] (λ _, 0).
Inductive spec_step : spec → spec → Prop :=
| spec_choose a x : value_ok (slog a) (Z.of_nat (length (slog a)) + 1) x → spec_step a (mk_spec (slog a ++ [x]) (learnt a))
| spec_learn a i v : learnt a i <= v <= Z.of_nat (length (slog a)) → spec_step a (mk_spec (slog a) (upd (learnt a) i v)).

(** The store [d] holds the first [c] values of the log [l]: it has applied them, and
    has those that are not trimmed. *)
Record holds (l : list value) (c : Z) (d : db) : Prop := {
  hd_committed : db_last_committed d = c;
  hd_range : 0 <= c <= Z.of_nat (length l);
  hd_services : services d = services_after (take (Z.to_nat c) l);
  hd_first : db_first_committed d = first_after (take (Z.to_nat c) l);
  hd_versions v : 1 <= v → db_first_committed d <= v <= c → ∃ x, versions d !! v = Some (Some x) ∧ entry l v = Some (canon v x)
}.

(** A relation that takes the events of the monitors to steps of the log, and under
    which every store holds its part of it. *)
Record simulation (caps : Z → features_t) (rel : sys → spec → Prop) : Prop := {
  sim_first : rel (sys0 caps) spec0;
  sim_next s a e s' : rel s a → careful s e → exec cf s e = Some s' → ∃ a', rtc spec_step a a' ∧ rel s' a';
  sim_holds s a i : rel s a → ids cf i → holds (slog a) (learnt a i) (store (nodes s i))
}.

(** The log of the votes, and what the stores say is committed. *)
Definition logged s (a : spec) : Prop := ∃ G, inv cf G s ∧ slog a = log G ∧ ∀ i, ids cf i → learnt a i = dlc s i.

Lemma inv_holds G s i : inv cf G s → ids cf i → holds (log G) (dlc s i) (store (nodes s i)).
Proof.
  intros HI Hi. destruct (nd_data _ _ _ _ (iv_node _ _ _ HI i Hi)). split; try done.
  intros v Hv Hr. destruct (do_present0 v Hv Hr) as [bl Hbl]. destruct (do_bound0 v bl Hbl) as (_ & _ & x & -> & _ & Hx).
  exists x. split; [done|]. apply Hx. unfold dlc in Hr. lia.
Qed.

(** The entries of the log are values that could be proposed. *)
Lemma canon_value_ok l v x : value_ok l v x → value_ok l v (canon v x).
Proof.
  unfold value_ok, canon. destruct (v =? 1); [|done]. intros (k & sv & Hsv & ->). exists 0%nat, sv. split; [done|].
  by rewrite strip_services.
Qed.
Lemma log_values G s v x : inv cf G s → entry (log G) v = Some x → value_ok (log G) v x.
Proof.
  intros HI Hx. pose proof (iv_votes _ _ _ HI) as Hvo. apply (vo_log _ _ _ Hvo) in Hx as (b & y & Hy & <- & _).
  apply canon_value_ok. by apply (vo_value _ _ _ Hvo b v y).
Qed.

Lemma log_grows f l l' : l `prefix_of` l' → (∀ v x, entry l' v = Some x → value_ok l' v x) → rtc spec_step (mk_spec l f) (mk_spec l' f).
Proof.
  intros [k ->]. revert l. induction k as [|x k IH]; intros l Hv; [rewrite app_nil_r; constructor|].
  replace (l ++ x :: k) with ((l ++ [x]) ++ k) in Hv |- * by (by rewrite <- app_assoc). eapply rtc_l; [|by apply IH].
  apply (spec_choose (mk_spec l f)). cbn [slog]. assert (entry ((l ++ [x]) ++ k) (Z.of_nat (length l) + 1) = Some x) as He.
  { unfold entry. rewrite (proj2 (Z.ltb_ge _ _)) by lia. rewrite <- app_assoc. rewrite lookup_app_r by lia.
    by replace (Z.to_nat (Z.of_nat (length l) + 1 - 1) - length l)%nat with 0%nat by lia. }
  apply Hv in He. unfold value_ok in *. destruct (_ =? 1); [done|].
  rewrite (take_prefix l ((l ++ [x]) ++ k)) in He; [done|rewrite <- app_assoc; by apply prefix_app_r|lia].
Qed.

Lemma logged_next s a e s' : logged s a → careful s e → exec cf s e = Some s' → ∃ a', rtc spec_step a a' ∧ logged s' a'.
Proof.
  intros (G & HI & El & Hl) Hc He. destruct (exec_inv G s e s' HI Hc He) as (G' & Hp & HI' & i & Hn & Hi). destruct a as [l f]. cbn in *. subst l.
  exists (mk_spec (log G') (if mon_id cf i then upd f i (dlc s' i) else f)). split.
  - etrans; [apply (log_grows f _ _ Hp); intros v x; by apply (log_values G' s')|]. destruct (mon_id cf i) eqn:Ei; [|constructor].
    apply andb_true_iff in Ei as [? ?]. zb. apply rtc_once. apply (spec_learn (mk_spec (log G') f)). cbn. rewrite Hl by done.
    pose proof (do_range _ _ (nd_data _ _ _ _ (iv_node _ _ _ HI' i (conj H H0)))). unfold dlc in *. lia.
  - exists G'. split; [done|]. split; [done|]. intros j Hj. cbn. destruct (Z.eq_dec j i) as [->|Hne].
    + replace (mon_id cf i) with true by (symmetry; unfold mon_id, ids in *; apply andb_true_iff; split; zb; lia).
      unfold upd. by rewrite Z.eqb_refl.
    + transitivity (f j); [destruct (mon_id cf i); [unfold upd; by rewrite (proj2 (Z.eqb_neq _ _))|done]|].
      rewrite Hl by done. unfold dlc. by rewrite Hn.
Qed.
End Safe.
End PaxosSafe.
