(* ===== verification/PaxosRound.v ===== *)
(** * A round of Paxos ends (mon/Paxos.cc)

    What a leader and the peons of its quorum do while nothing fails: the leader
    proposes its pending transaction, every peon accepts it, the store of the leader
    writes it and every peon commits it.  Each handler is run to its end, and the
    handlers compose to the whole round in whatever order the peons are heard. *)
From stdpp Require Import gmap.
From S2P Require Import Prelude StdMap MonTypes Paxos Elector Monitor PaxosInv PaxosStep PaxosAgree.

Module PaxosRound.
Import MonTypes Monitor PaxosInv PaxosStep PaxosAgree.

(** [m] ends without a failed assertion, with [P]. *)
Definition ends (m : M unit) (n : node) (P : node → list (Z * message) → Prop) : Prop :=
  wp m (λ _ r, P (nd r) (out r)) (λ _, False) (mk_run n []).

Lemma ends_run m n P : ends m n P → ∃ n' o, P n' o ∧ m (mk_run n []) = Done tt (mk_run n' o).
Proof.
  unfold ends, wp. destruct (m (mk_run n [])) as [[] [n' o]|]; [|done]. intros H. by exists n', o.
Qed.

(** ** The services data *)

(** The services data of a store after the operations of a value. *)
Definition applied (x : value) (d : db) : gmap (list Z * list Z) (list Z) := services (foldl apply_vop d x).
Lemma applied_ext x d d' : services d = services d' → applied x d = applied x d'.
Proof.
  unfold applied. revert d d'. induction x as [|o x IH]; intros d d' E; [done|]. cbn. apply IH.
  destruct o as [v|v|p k [bl|]]; cbn; congruence.
Qed.
Lemma vops_last_committed x d : db_last_committed (foldl apply_vop d x) = db_last_committed d.
Proof.
  revert d. induction x as [|o x IH]; intros d; [done|]. cbn. rewrite IH. by destruct o as [v|v|p k [bl|]].
Qed.
Lemma apply_ops_value d x : apply_ops d (map Do x) = foldl apply_vop d x.
Proof. revert d. induction x as [|o x IH]; intros d; [done|]. apply IH. Qed.

(** The value of the first version also sets the oldest version. *)
Definition wrapped (lc : Z) (x : value) : value := if lc =? 0 then OpFirst 1 :: x else x.
Lemma applied_wrapped lc x d : applied (wrapped lc x) d = applied x d.
Proof. unfold wrapped. case_match; [|done]. by apply (applied_ext x). Qed.

(** Sets of monitors that have answered. *)
Lemma heard_more (A : gset Z) j l : j ∈ A → j ∉ l → {[j]} ∪ A ∖ list_to_set (j :: l) = A ∖ list_to_set l.
Proof. intros HA Hj. apply set_eq. intros k. destruct (decide (k = j)); set_solver. Qed.
Lemma heard_some (A : gset Z) k l : k ∈ A → k ∈ l → A ∖ list_to_set l ≠ A.
Proof. set_solver. Qed.
Lemma not_heard (A : gset Z) j l : j ∉ A ∖ list_to_set (j :: l).
Proof. set_solver. Qed.

Section Round.
Context (cf : config) (L E pn lc : Z) (Q : gset Z) (x : value).
Context (HQ : 1 < Z.of_nat (size Q)) (HL : L ∈ Q).

(** The services that load this data do not ask for a bootstrap: the monitor map is not changed. *)
Definition content (sv : gmap (list Z * list Z) (list Z)) : Prop := ∀ d, services d = sv → needs_bootstrap cf d = false.

Definition begin_msg : message := MsgPaxos (mk_pmsg OP_BEGIN E 0 lc 0 pn 0 0 [(lc + 1, Some (wrapped lc x))]).
Definition accept_msg : message := MsgPaxos (mk_pmsg OP_ACCEPT E 0 lc 0 pn 0 0 []).
Definition commit_msg : message := MsgPaxos (mk_pmsg OP_COMMIT E 0 (lc + 1) 0 pn 0 0 [(lc + 1, Some (wrapped lc x))]).
Definition to_peers (m : message) : list (Z * message) := (λ p, (p, m)) <$> filter (λ p, p ≠ L) (elements Q).

(** A peon of this quorum that has committed [c] versions. *)
Record follows (c : Z) (n : node) : Prop := {
  fo_up : up n = true;
  fo_peon : mstate n = STATE_PEON;
  fo_leader : leader n = L;
  fo_epoch : epoch (elector n) = E;
  fo_pn : accepted_pn (paxos n) = pn;
  fo_lc : last_committed (paxos n) = c;
  fo_db : db_last_committed (store n) = c
}.
(** The leader, in state [st] with [c] versions committed by its process and [d] by its store. *)
Record leads (st : paxos_state) (c d : Z) (n : node) : Prop := {
  le_up : up n = true;
  le_leader : mstate n = STATE_LEADER;
  le_rank : rank n = L;
  le_epoch : epoch (elector n) = E;
  le_pn : accepted_pn (paxos n) = pn;
  le_quorum : quorum n = Q;
  le_num : mon_count cf / 2 < num_last (paxos n);
  le_state : state (paxos n) = st;
  le_lc : last_committed (paxos n) = c;
  le_db : db_last_committed (store n) = d
}.
(** The leader about to propose [x]. *)
Record proposing (n : node) : Prop := {
  pr_leads : leads STATE_ACTIVE lc lc n;
  pr_value : pending_proposal (paxos n) = Some x;
  pr_unplugged : plugged (paxos n) = false;
  pr_new : new_value (paxos n) = None;
  pr_finishers : committing_finishers (paxos n) = []
}.
(** The leader between its proposal and its commit. *)
Record in_round (st : paxos_state) (d : Z) (n : node) : Prop := {
  ro_leads : leads st lc d n;
  ro_new : new_value (paxos n) = Some (wrapped lc x);
  ro_pending : pending_proposal (paxos n) = None;
  ro_finishers : pending_finishers (paxos n) = []
}.

(** ** The handlers *)

Ltac go := repeat first
  [ apply wp_get | apply wp_mod_paxos | apply wp_mod | apply wp_bcast
  | apply wp_massert_true; [done|] ]; cbn [id]; tidy.
Lemma leads_is_leader st c d n : leads st c d n → is_leader n = true.
Proof. intros []. unfold is_leader. by rewrite le_leader0. Qed.
Lemma follows_is_peon c n : follows c n → is_peon n = true ∧ is_leader n = false.
Proof. intros []. unfold is_leader, is_peon. by rewrite fo_peon0. Qed.
Lemma not_alone : (size Q =? 1)%nat = false.
Proof. apply Nat.eqb_neq. lia. Qed.

(** The proposal of the value [v] as the version after [c]. *)
Lemma begin_ends n o c d v : leads STATE_UPDATING c d n → new_value (paxos n) = None →
  wp (Paxos.begin cf (Some v)) (λ _ r, leads STATE_UPDATING c d (nd r) ∧ new_value (paxos (nd r)) = Some (wrapped c v) ∧
    accepted (paxos (nd r)) = {[L]} ∧ pending_proposal (paxos (nd r)) = pending_proposal (paxos n) ∧
    pending_finishers (paxos (nd r)) = pending_finishers (paxos n) ∧ services (store (nd r)) = services (store n) ∧
    out r = o ++ to_peers (MsgPaxos (mk_pmsg OP_BEGIN E 0 c 0 pn 0 0 [(c + 1, Some (wrapped c v))]))) (λ _, False) (mk_run n o).
Proof.
  intros HL' Hn. pose proof (leads_is_leader _ _ _ _ HL') as Hld. destruct HL'. unfold Paxos.begin. go.
  unfold is_updating. rewrite le_state0. go. rewrite le_quorum0, not_alone. apply wp_massert_true.
  { cbn. by apply Z.ltb_lt. }
  rewrite Hn. go. rewrite le_lc0.
  set (w := wrapped c v). eapply (wp_seq _ _ (λ y r, y = Some w ∧ r = mk_run n o)).
  { unfold w, wrapped. by destruct (c =? 0). }
  intros ? ? [-> ->]. go. unfold apply_transaction. go. unfold to_peers. rewrite le_rank0, le_pn0. unfold Paxos.mk_msg. rewrite le_epoch0.
  clear Hld. destruct n as [? ? [] ? [] [] ? ? ? ? ? ?]. cbn in *. subst. repeat split; cbn; done.
Qed.

Lemma propose_ends n o c d y : leads STATE_ACTIVE c d n → new_value (paxos n) = None → pending_proposal (paxos n) = Some y →
  wp (Paxos.propose_pending cf) (λ _ r, leads STATE_UPDATING c d (nd r) ∧ new_value (paxos (nd r)) = Some (wrapped c y) ∧
    accepted (paxos (nd r)) = {[L]} ∧ pending_proposal (paxos (nd r)) = None ∧
    pending_finishers (paxos (nd r)) = committing_finishers (paxos n) ∧ services (store (nd r)) = services (store n) ∧
    out r = o ++ to_peers (MsgPaxos (mk_pmsg OP_BEGIN E 0 c 0 pn 0 0 [(c + 1, Some (wrapped c y))]))) (λ _, False) (mk_run n o).
Proof.
  intros Hl Hn Hv. unfold Paxos.propose_pending. apply wp_get. cbn [nd]. unfold is_active. rewrite (le_state _ _ _ _ Hl).
  apply wp_massert_true; [done|]. rewrite Hv. apply wp_mod_paxos.
  eapply wp_mono; [apply (begin_ends _ o c d y)| |done]; [|done|by intros].
  destruct Hl. destruct n as [? ? [] ? [] [] ? ? ? ? ? ?]. by split.
Qed.

Lemma proposes n : proposing n →
  ends (_ <- Paxos.trigger_propose cf;; ret tt)%mon n (λ n' o,
    in_round STATE_UPDATING lc n' ∧ accepted (paxos n') = {[L]} ∧ o = to_peers begin_msg ∧
    services (store n') = services (store n)).
Proof.
  intros [Hl Hv Hp Hn Hf]. unfold ends, Paxos.trigger_propose. apply wp_bind, wp_get. cbn [nd]. rewrite Hp. unfold is_active.
  rewrite (le_state _ _ _ _ Hl). cbn [bool_decide]. rewrite bool_decide_true by done. apply wp_bind.
  eapply wp_mono; [by apply (propose_ends _ [] lc lc x)| |done].
  intros _ r (Hr & Hw & Hacc & Hpend & Hfin & Hsv & Ho). by repeat split; try apply Hr; rewrite ?Hfin.
Qed.

(** The messages of this quorum reach their handlers. *)
Lemma dispatch_current n from m P : up n = true → epoch (elector n) = E → p_epoch m = E →
  is_leader n = true ∨ is_peon n = true ∧ from = leader n →
  ends (match p_op m with
        | OP_COLLECT => Paxos.handle_collect (bootstrap cf) from m
        | OP_LAST => Paxos.handle_last cf (bootstrap cf) from m
        | OP_BEGIN => Paxos.handle_begin from m
        | OP_ACCEPT => Paxos.handle_accept from m
        | OP_COMMIT => Paxos.handle_commit cf (bootstrap cf) m
        | OP_LEASE => Paxos.handle_lease from m
        | OP_LEASE_ACK => Paxos.handle_lease_ack from
        end) n P → ends (dispatch_op cf from (MsgPaxos m)) n P.
Proof.
  intros Hu He Hm Hr HP. unfold ends, dispatch_op. apply wp_get. cbn [nd id]. rewrite He, Hm, Z.ltb_irrefl, Z.eqb_refl. cbn [negb].
  unfold Paxos.dispatch. apply wp_get. cbn [nd id]. destruct Hr as [Hl|[Hp ->]].
  - rewrite Hl. cbn [negb andb orb]. apply wp_massert_true; [done|]. exact HP.
  - rewrite Hp, Z.eqb_refl. cbn [negb andb]. rewrite andb_false_r. apply wp_massert_true; [apply orb_true_r|]. exact HP.
Qed.

Lemma peon_accepts n : follows lc n → ends (dispatch_op cf L begin_msg) n (λ n' o,
  follows lc n' ∧ o = [(L, accept_msg)] ∧ services (store n') = services (store n)).
Proof.
  intros Hf. destruct (follows_is_peon _ _ Hf) as [Hp Hl]. destruct Hf. apply dispatch_current; [done..|by right|].
  unfold ends. cbn [p_op]. unfold Paxos.handle_begin. apply wp_get. cbn [p_pn p_last_committed id nd].
  rewrite fo_pn0, fo_lc0, Z.ltb_irrefl, !Z.eqb_refl. go. unfold apply_transaction. go.
  unfold wp, send, Paxos.mk_msg, accept_msg. clear Hp Hl. destruct n as [? ? [] ? [] [] ? ? ? ? ? ?]. cbn in *. subst. repeat split; cbn; done.
Qed.

Lemma leader_counts n j : in_round STATE_UPDATING lc n → j ∉ accepted (paxos n) →
  ends (dispatch_op cf j accept_msg) n (λ n' o, o = [] ∧ services (store n') = services (store n) ∧
    if decide ({[j]} ∪ accepted (paxos n) = Q)
    then in_round STATE_WRITING lc n' ∧ io n' = Queued (Put LastCommitted (lc + 1) :: map Do (wrapped lc x))
    else in_round STATE_UPDATING lc n' ∧ accepted (paxos n') = {[j]} ∪ accepted (paxos n)).
Proof.
  intros [Hl Hw Hp Hf] Hj. pose proof (leads_is_leader _ _ _ _ Hl) as Hld. destruct Hl. apply dispatch_current; [done..|by left|].
  unfold ends. cbn [p_op]. unfold Paxos.handle_accept. apply wp_get. cbn [p_pn p_last_committed id nd].
  rewrite le_pn0, le_lc0, Z.eqb_refl. cbn [negb]. rewrite (proj2 (Z.ltb_ge lc (lc - 1))) by lia. rewrite andb_false_r, Z.eqb_refl.
  apply wp_massert_true; [done|]. unfold is_updating. rewrite le_state0. apply wp_massert_true; [done|]. rewrite bool_decide_false by done. go.
  rewrite le_quorum0. destruct (decide ({[j]} ∪ accepted (paxos n) = Q)) as [EQ|EQ].
  - rewrite bool_decide_true by done. cbn [when]. unfold Paxos.commit_start. go. rewrite Hw, le_lc0.
    clear Hld. destruct n as [? ? [] ? [] [] ? ? ? ? ? ?]. cbn in *. subst. unfold wp, mbind. cbn. unfold Paxos.commit_start. 
    rewrite (proj2 (Z.ltb_lt _ _) HQ). repeat split; cbn; done.
  - rewrite bool_decide_false by done. cbn [when].
    clear Hld. destruct n as [? ? [] ? [] [] ? ? ? ? ? ?]. cbn in *. subst. repeat split; cbn; done.
Qed.

Lemma store_applies n : in_round STATE_WRITING lc n → io n = Queued (Put LastCommitted (lc + 1) :: map Do (wrapped lc x)) →
  ends store_apply n (λ n' o, o = [] ∧ in_round STATE_WRITING (lc + 1) n' ∧ io n' = Applied ∧
    services (store n') = applied x (store n)).
Proof.
  intros [[] Hw Hp Hf] Hio. unfold ends, store_apply. apply wp_get. cbn [nd]. rewrite Hio. unfold apply_transaction. go.
  unfold wp. cbn [apply_ops foldl apply_op]. set (d := set_db_last_committed (lc + 1) (store n)).
  change (foldl apply_op d ?t) with (apply_ops d t). rewrite apply_ops_value.
  pose proof (vops_last_committed (wrapped lc x) d) as Hd. assert (services (foldl apply_vop d (wrapped lc x)) = applied x (store n)) as Hs.
  { change (applied (wrapped lc x) d = applied x (store n)). rewrite applied_wrapped. by apply applied_ext. }
  repeat split; done.
Qed.

Definition working (c : Z) (n : node) : Prop := leads STATE_ACTIVE c c n ∨ leads STATE_UPDATING c c n.

(** What follows a commit, which may be the proposal of a trim. *)
Lemma round_finishes n o c : leads STATE_REFRESH c c n → new_value (paxos n) = None → pending_proposal (paxos n) = None →
  pending_finishers (paxos n) = [] →
  wp (Paxos.finish_round cf) (λ _ r, working c (nd r) ∧ services (store (nd r)) = services (store n) ∧ ∃ o', out r = o ++ o')
    (λ _, False) (mk_run n o).
Proof.
  intros Hl Hn Hp Hf. unfold Paxos.finish_round. apply wp_get. cbn [nd]. rewrite (leads_is_leader _ _ _ _ Hl).
  apply wp_massert_true; [done|]. apply wp_mod_paxos. cbn [nd out]. set (n1 := set_paxos _ n).
  assert (leads STATE_ACTIVE c c n1) as Hl1 by (destruct Hl; by split).
  apply wp_get. cbn [nd]. eapply (wp_when _ _ _ (λ _ r, ∃ t, leads STATE_ACTIVE c c (nd r) ∧ new_value (paxos (nd r)) = None ∧
    pending_proposal (paxos (nd r)) = t ∧ services (store (nd r)) = services (store n) ∧ out r = o)).
  - intros Ht. unfold Paxos.trim. apply wp_get. cbn [nd]. apply wp_massert_true; [done|].
    case_match; [by exists None|]. unfold Paxos.get_pending_transaction. apply wp_bind, wp_get. cbn [nd id].
    rewrite (leads_is_leader _ _ _ _ Hl1). apply wp_massert_true; [done|]. rewrite (Hp : pending_proposal (paxos n1) = None).
    apply wp_mod_paxos. cbn [nd out]. rewrite (Hf : pending_finishers (paxos n1) = []). apply wp_massert_true; [done|]. apply wp_ret.
    apply wp_mod_paxos. eexists. split; [|done]. destruct Hl1. by split.
  - intros _. by exists None.
  - intros r (t & Hlr & Hnr & Hpr & Hsr & Hor). apply wp_get. unfold is_active. rewrite (le_state _ _ _ _ Hlr), Hpr.
    rewrite bool_decide_true by done. destruct t as [y|]; cbn [andb when].
    + destruct r as [nr or]. cbn in *. subst or. eapply wp_mono; [by apply (propose_ends _ o c c y)| |done].
      intros _ r' (Hr & _ & _ & _ & _ & Hs & Ho). split; [by right|]. split; [congruence|]. by eexists.
    + apply wp_ret. split; [by left|]. split; [done|]. exists []. by rewrite app_nil_r.
Qed.

Lemma to_peers_at m j : j ∈ Q → j ≠ L → msgs_to j (to_peers m) = [m].
Proof.
  intros Hj Hne. unfold to_peers, msgs_to. assert (j ∈ elements Q) as Hin by (by apply elem_of_elements).
  generalize (NoDup_elements Q). revert Hin. generalize (elements Q). intros l. induction l as [|a l IH]; intros Hin Hd.
  { by apply elem_of_nil in Hin. }
  apply NoDup_cons in Hd as [Ha Hd]. apply elem_of_cons in Hin as [->|Hin].
  - rewrite filter_cons_True by done. cbn [fmap list_fmap]. rewrite filter_cons_True by done. cbn [fmap list_fmap snd]. f_equal.
    clear IH Hd. induction l as [|b l IH]; [done|]. apply not_elem_of_cons in Ha as [Hab Ha].
    destruct (decide (b ≠ L)); [rewrite filter_cons_True by done|rewrite filter_cons_False by done; by apply IH].
    cbn [fmap list_fmap]. rewrite filter_cons_False by (cbn; congruence). by apply IH.
  - destruct (decide (a ≠ L)); [rewrite filter_cons_True by done|rewrite filter_cons_False by done; by apply IH].
    cbn [fmap list_fmap]. rewrite filter_cons_False by (cbn; congruence). by apply IH.
Qed.

(** The lease that follows a commit, and the end of the round. *)
Lemma lease_and_finish n o c : leads STATE_REFRESH c c n → new_value (paxos n) = None → pending_proposal (paxos n) = None →
  pending_finishers (paxos n) = [] →
  wp (Paxos.extend_lease cf;;; Paxos.finish_round cf)%mon
    (λ _ r, working c (nd r) ∧ services (store (nd r)) = services (store n) ∧ ∃ o', out r = o ++ o') (λ _, False) (mk_run n o).
Proof.
  intros Hl Hn Hp Hf.
  eapply (wp_seq _ _ (λ _ r, leads STATE_REFRESH c c (nd r) ∧ new_value (paxos (nd r)) = None ∧
    pending_proposal (paxos (nd r)) = None ∧ pending_finishers (paxos (nd r)) = [] ∧
    services (store (nd r)) = services (store n) ∧ ∃ o', out r = o ++ o')).
  - unfold Paxos.extend_lease. apply wp_get. cbn [nd]. rewrite (leads_is_leader _ _ _ _ Hl). apply wp_massert_true; [done|].
    apply wp_get, wp_mod_paxos, wp_bcast. cbn [nd out id]. destruct Hl. repeat split; try done. by eexists.
  - intros _ [n3 o3] (Hl3 & Hn3 & Hp3 & Hf3 & Hs3 & o' & Ho3). cbn [nd out] in *. subst o3.
    eapply wp_mono; [exact (round_finishes n3 (o ++ o') c Hl3 Hn3 Hp3 Hf3)| |done].
    intros _ r (Hk & Hs & o'' & Ho). split; [exact Hk|]. split; [by rewrite Hs|].
    exists (o' ++ o''). rewrite Ho. symmetry. apply app_assoc.
Qed.

Lemma wp_from {A} (m : M A) (P : node → Prop) W X r : P (nd r) → (∀ n, P n → wp m W X (mk_run n (out r))) → wp m W X r.
Proof. destruct r. cbn. auto. Qed.

(** The commit of a value that is in the store. *)
Lemma commit_ends n : content (services (store n)) → in_round STATE_WRITING (lc + 1) n →
  ends (Paxos.commit_finish cf bootstrap_now) n (λ n' o, working (lc + 1) n' ∧ services (store n') = services (store n) ∧
    ∃ o', o = to_peers commit_msg ++ o').
Proof.
  intros Hboot [Hl Hw Hp Hf]. unfold ends, Paxos.commit_finish. apply wp_mod_paxos, wp_get, wp_mod_paxos.
  apply (wp_from _ (λ n', leads STATE_WRITING (lc + 1) (lc + 1) n' ∧ new_value (paxos n') = Some (wrapped lc x) ∧
    pending_proposal (paxos n') = None ∧ pending_finishers (paxos n') = [] ∧ services (store n') = services (store n))).
  { destruct Hl. by repeat split; cbn; rewrite ?le_lc0. }
  clear Hl Hw Hp Hf. intros n1 (Hl & Hw & Hp & Hf & Hs). cbn [out]. unfold Paxos._sanity_check_store. apply wp_bind, wp_get. cbn [nd id].
  rewrite (le_lc _ _ _ _ Hl), (le_db _ _ _ _ Hl), Z.eqb_refl. apply (wp_ret tt), wp_get. cbn [nd id].
  apply wp_bcast, wp_mod_paxos. unfold is_writing. rewrite (le_state _ _ _ _ Hl). apply wp_massert_true; [done|]. apply wp_mod_paxos. cbn [out].
  assert (((λ p, (p, Paxos.mk_msg n1 OP_COMMIT 0 (last_committed (paxos n1)) 0 (accepted_pn (paxos n1)) 0 0
    [(last_committed (paxos n1), new_value (paxos n1))])) <$> filter (λ p, p ≠ rank n1) (elements (quorum n1))) = to_peers commit_msg) as Ho.
  { unfold to_peers, commit_msg, Paxos.mk_msg. destruct Hl. by rewrite Hw, le_rank0, le_epoch0, le_quorum0, le_pn0, le_lc0. }
  apply (wp_from _ (λ n', leads STATE_REFRESH (lc + 1) (lc + 1) n' ∧ new_value (paxos n') = None ∧
    pending_proposal (paxos n') = None ∧ pending_finishers (paxos n') = [] ∧ services (store n') = services (store n))).
  { destruct Hl. by repeat split. }
  cbn [out nd app]. rewrite Ho, (le_quorum _ _ _ _ Hl), (proj2 (Z.ltb_lt _ _) HQ). clear Ho Hl Hw Hp Hf Hs n1. intros n2 (Hl & Hn & Hp & Hf & Hs).
  unfold Paxos.do_refresh. apply wp_bind, wp_get. cbn [nd]. rewrite (Hboot (store n2) Hs). apply wp_ret. cbn [when]. unfold Paxos.commit_proposal.
  apply wp_bind, wp_get. cbn [nd id]. rewrite (leads_is_leader _ _ _ _ Hl). apply wp_massert_true; [done|].
  unfold is_refresh. rewrite (le_state _ _ _ _ Hl). apply wp_massert_true; [done|]. apply (wp_mod_paxos _ (λ _, ret tt)), wp_ret.
  apply (wp_from _ (λ n', leads STATE_REFRESH (lc + 1) (lc + 1) n' ∧ new_value (paxos n') = None ∧
    pending_proposal (paxos n') = None ∧ pending_finishers (paxos n') = [] ∧ services (store n') = services (store n))).
  { unfold Paxos.finish_committing, Paxos.finish_contexts. destruct Hl. destruct (existsb _ _); by repeat split. }
  cbn [out]. clear Hl Hn Hp Hf Hs n2. intros n3 (Hl & Hn & Hp & Hf & Hs).
  eapply wp_mono; [exact (lease_and_finish n3 _ (lc + 1) Hl Hn Hp Hf)| |done].
  intros _ r (Hk & Hsr & Ho). split; [exact Hk|]. split; [by rewrite Hsr|exact Ho].
Qed.

Lemma store_completes n : content (services (store n)) → in_round STATE_WRITING (lc + 1) n → io n = Applied →
  ends (store_complete cf) n (λ n' o, working (lc + 1) n' ∧ services (store n') = services (store n) ∧
    ∃ o', o = to_peers commit_msg ++ o').
Proof.
  intros Hboot [Hl Hw Hp Hf] Hio. unfold ends, store_complete. apply wp_get. cbn [nd]. rewrite Hio. apply wp_mod.
  apply (commit_ends (set_io Idle n) Hboot). destruct Hl. by repeat split.
Qed.
(** What the write of a committed value leaves in the store of a peon. *)
Lemma committed_store d : let d' := apply_ops d (([Put LastCommitted (lc + 1)] ++ [PutVersion (lc + 1) (Some (wrapped lc x))]) ++ map Do (wrapped lc x)) in
  db_last_committed d' = lc + 1 ∧ services d' = applied x d.
Proof.
  cbn. change (foldl apply_op ?a ?t) with (apply_ops a t). rewrite apply_ops_value, vops_last_committed. split; [done|].
  change (services (foldl apply_vop ?a ?t)) with (applied t a). rewrite applied_wrapped. by apply applied_ext.
Qed.

(** A peon that has the number of the version that it is about to write. *)
Definition writes (d : db) (n : node) : Prop :=
  up n = true ∧ mstate n = STATE_PEON ∧ leader n = L ∧ epoch (elector n) = E ∧ accepted_pn (paxos n) = pn ∧
  last_committed (paxos n) = lc + 1 ∧ store n = d.

Lemma peon_commits n : content (applied x (store n)) → follows lc n → ends (dispatch_op cf L commit_msg) n (λ n' o,
  follows (lc + 1) n' ∧ o = [] ∧ services (store n') = applied x (store n)).
Proof.
  intros Hboot Hf. destruct (follows_is_peon _ _ Hf) as [Hp Hl]. destruct Hf. apply dispatch_current; [done..|by right|].
  unfold ends. cbn [p_op]. unfold Paxos.handle_commit. apply wp_get. cbn [nd]. rewrite Hp. apply wp_massert_true; [done|].
  apply wp_bind. unfold Paxos.store_state. apply wp_get. cbn [p_values p_last_committed nd fst Paxos.skip_upto Paxos.take_upto].
  rewrite fo_lc0, Z.ltb_irrefl, (proj2 (Z.leb_gt (lc + 1) lc)) by lia. cbn [fst Paxos.take_upto]. rewrite Z.leb_refl. cbn [last fst].
  apply wp_mod_paxos. apply (wp_from _ (writes (store n))); [by repeat split|].
  clear -Hboot. intros n1 H1. cbn [out Paxos.store_values Paxos.decode_append_transaction]. apply wp_bind, wp_bind, wp_ret, wp_ret, wp_get.
  eapply (wp_when _ _ _ (λ _ r, writes (store n) (nd r) ∧ out r = [])); [done|done|]. intros [n2 o2] [H2 Ho]. cbn in Ho, H2. subst o2.
  destruct H2 as (? & ? & ? & ? & ? & Hlc & Hst). destruct (committed_store (store n2)) as [Hd Hs].
  apply wp_mod, wp_get, wp_mod_paxos, wp_bind, wp_get. cbn [nd out id store paxos set_store set_paxos set_first_committed last_committed].
  rewrite Hlc, Hd, Z.eqb_refl.
  apply (wp_ret tt), (wp_ret true), wp_bind, wp_get. cbn [nd]. rewrite Hboot by (rewrite <- Hst; exact Hs). apply (wp_ret true). rewrite <- Hst. by repeat split.
Qed.

(** ** The round *)

Lemma deliver s src dst m l P : net s src dst = m :: l → mon_id cf dst = true → up (nodes s dst) = true →
  ends (dispatch_op cf src m) (nodes s dst) P → ∃ s' o, exec cf s (Deliver src dst) = Some s' ∧ P (nodes s' dst) o ∧
    (∀ i, i ≠ dst → nodes s' i = nodes s i) ∧
    ∀ a b, net s' a b = (if decide (a = src ∧ b = dst) then l else net s a b) ++ (if decide (a = dst) then msgs_to b o else []).
Proof.
  intros Hn Hi Hu HP. destruct (ends_run _ _ _ HP) as (n' & o & HPn & Hr). eexists _, o. split_and!.
  - cbn [exec]. rewrite Hn. unfold alive, run_at. rewrite Hi, Hu. cbn [andb nodes net]. by rewrite Hr.
  - cbn. unfold upd. by rewrite Z.eqb_refl.
  - intros i Hne. cbn. unfold upd. by rewrite (proj2 (Z.eqb_neq _ _) Hne).
  - intros a b. cbn [net nodes]. rewrite post_at. unfold upd. destruct (Z.eqb_spec a src); destruct (Z.eqb_spec a dst); destruct (Z.eqb_spec b dst); subst;
      repeat case_decide; rewrite ?app_nil_r; intuition congruence.
Qed.
Lemma happens s i g m P : mon_id cf i = true → up (nodes s i) = true → g (nodes s i) = true → ends m (nodes s i) P →
  ∃ s' o, at_node cf s i g m = Some s' ∧ P (nodes s' i) o ∧ (∀ k, k ≠ i → nodes s' k = nodes s k) ∧
    ∀ a b, net s' a b = net s a b ++ (if decide (a = i) then msgs_to b o else []).
Proof.
  intros Hi Hu Hg HP. destruct (ends_run _ _ _ HP) as (n' & o & HPn & Hr). eexists _, o. split_and!.
  - unfold at_node, alive, run_at. by rewrite Hi, Hu, Hg, Hr.
  - cbn. unfold upd. by rewrite Z.eqb_refl.
  - intros k Hne. cbn. unfold upd. by rewrite (proj2 (Z.eqb_neq _ _) Hne).
  - intros a b. cbn [net nodes]. rewrite post_at. destruct (Z.eqb_spec a i); case_decide; rewrite ?app_nil_r; done.
Qed.
Lemma msgs_to_self b m : msgs_to b [(b, m)] = [m].
Proof. unfold msgs_to. by rewrite filter_cons_True. Qed.
Lemma msgs_to_other a b m : a ≠ b → msgs_to b [(a, m)] = [].
Proof. intros ?. unfold msgs_to. by rewrite filter_cons_False. Qed.
Lemma exec_all_app l k s : exec_all cf s (l ++ k) = match exec_all cf s l with Some s => exec_all cf s k | None => None end.
Proof. revert s. induction l as [|e l IH]; intros s; [done|]. cbn. destruct (exec cf s e); [apply IH|done]. Qed.

Definition peers : list Z := filter (λ p, p ≠ L) (elements Q).
Lemma elem_of_peers j : j ∈ peers ↔ j ∈ Q ∧ j ≠ L.
Proof. unfold peers. rewrite list_elem_of_filter, elem_of_elements. tauto. Qed.

(** The peons of [s] are in the quorum, with the data of [s0] and nothing from the leader but [m] to those of [l]. *)
Definition peons_of (s0 s : sys) (m : message) (l : list Z) : Prop :=
  ∀ j, j ∈ peers → follows lc (nodes s j) ∧ services (store (nodes s j)) = services (store (nodes s0 j)) ∧ net s j L = [] ∧
    net s L j = if decide (j ∈ l) then [m] else [].

(** The leader waits for the peons of [l]; once there are none it writes. *)
Definition waits (n : node) (l : list Z) : Prop :=
  if decide (l = []) then in_round STATE_WRITING lc n ∧ io n = Queued (Put LastCommitted (lc + 1) :: map Do (wrapped lc x))
  else in_round STATE_UPDATING lc n ∧ accepted (paxos n) = Q ∖ list_to_set l.

Context (Hids : ∀ j, j ∈ Q → mon_id cf j = true).

Lemma hear_one s0 s j l : j ∈ peers → j ∉ l → (∀ k, k ∈ l → k ∈ peers) →
  peons_of s0 s begin_msg (j :: l) → waits (nodes s L) (j :: l) →
  ∃ s', exec_all cf s [Deliver L j; Deliver j L] = Some s' ∧ peons_of s0 s' begin_msg l ∧ waits (nodes s' L) l ∧
    services (store (nodes s' L)) = services (store (nodes s L)).
Proof.
  intros Hj Hjl Hl Hp Hw. apply elem_of_peers in Hj as Hj'. destruct Hj' as [HjQ HjL].
  destruct (Hp j Hj) as (Hf & Hs & Hnj & Hn). rewrite decide_True in Hn by (apply elem_of_cons; by left).
  destruct (deliver s L j _ _ _ Hn (Hids _ HjQ) (fo_up _ _ Hf) (peon_accepts _ Hf)) as (s1 & o1 & E1 & (Hf1 & -> & Hs1) & Hk1 & Hn1).
  cbn [exec_all]. rewrite E1. unfold waits in Hw. rewrite decide_False in Hw by done. destruct Hw as [Hr Hacc].
  rewrite <- (Hk1 L) in Hr, Hacc by done. 
  assert (net s1 j L = [accept_msg]) as Hn'.
  { rewrite Hn1, decide_False, decide_True by intuition congruence. by rewrite Hnj, msgs_to_self. }
  assert (j ∉ accepted (paxos (nodes s1 L))) as Hja by (rewrite Hacc; apply not_heard).
  destruct (deliver s1 j L _ _ _ Hn' (Hids _ HL) (le_up _ _ _ _ (ro_leads _ _ _ Hr)) (leader_counts _ j Hr Hja))
    as (s2 & o2 & E2 & (-> & Hs2 & Hw2) & Hk2 & Hn2).
  rewrite E2. exists s2. split; [done|]. split; [|split; [|by rewrite Hs2, Hk1]].
  - intros k Hkp. apply elem_of_peers in Hkp as Hk'. destruct Hk' as [HkQ HkL]. rewrite (Hk2 k) by done. destruct (Hp k Hkp) as (Hfk & Hsk & Hnk & Hlk).
    rewrite !Hn2, !Hn1, Hnk, Hlk. destruct (decide (k = j)) as [->|Hne].
    + rewrite Hs1. split_and!; [done|done|by repeat case_decide; intuition congruence|by repeat case_decide; intuition congruence].
    + rewrite Hk1 by done. split_and!; [done|done|by repeat case_decide; intuition congruence|].
      assert (k ∈ j :: l ↔ k ∈ l) as Hkl by (rewrite elem_of_cons; tauto). repeat case_decide; intuition congruence.
  - unfold waits. rewrite Hacc, heard_more in Hw2 by done. destruct l as [|k l].
    + rewrite decide_True in Hw2 by apply difference_empty_L. by rewrite decide_True.
    + assert (k ∈ k :: l) as Hk by apply list_elem_of_here. rewrite decide_False in Hw2; [by rewrite decide_False|].
      apply (heard_some _ k); [|done]. by apply elem_of_peers, Hl.
Qed.

Lemma hear_all s0 l : NoDup l → (∀ j, j ∈ l → j ∈ peers) → ∀ s, peons_of s0 s begin_msg l → waits (nodes s L) l →
  ∃ s', exec_all cf s (flat_map (λ j, [Deliver L j; Deliver j L]) l) = Some s' ∧ peons_of s0 s' begin_msg [] ∧ waits (nodes s' L) [] ∧
    services (store (nodes s' L)) = services (store (nodes s L)).
Proof.
  induction l as [|j l IH]; intros Hd Hl s Hp Hw; [by exists s|]. apply NoDup_cons in Hd as [Hj Hd].
  assert (∀ k, k ∈ l → k ∈ peers) as Hl' by (intros k ?; by apply Hl, list_elem_of_further).
  destruct (hear_one s0 s j l) as (s1 & E1 & Hp1 & Hw1 & Hs1); [apply Hl, list_elem_of_here|done..|].
  destruct (IH Hd Hl' s1 Hp1 Hw1) as (s2 & E2 & Hp2 & Hw2 & Hs2).
  exists s2. cbn [flat_map]. rewrite exec_all_app, E1. by rewrite Hs2.
Qed.

(** The peons of [l] have a commit to hear, the others have heard it. *)
Definition committing (s0 s : sys) (l : list Z) : Prop :=
  ∀ j, j ∈ peers →
    if decide (j ∈ l)
    then follows lc (nodes s j) ∧ services (store (nodes s j)) = services (store (nodes s0 j)) ∧ ∃ k, net s L j = commit_msg :: k
    else follows (lc + 1) (nodes s j) ∧ services (store (nodes s j)) = applied x (store (nodes s0 j)).

Lemma commit_all s0 l : (∀ j, j ∈ Q → content (applied x (store (nodes s0 j)))) → NoDup l → (∀ j, j ∈ l → j ∈ peers) → ∀ s, committing s0 s l →
  ∃ s', exec_all cf s (map (Deliver L) l) = Some s' ∧ committing s0 s' [] ∧ nodes s' L = nodes s L.
Proof.
  intros Hboot. induction l as [|j l IH]; intros Hd Hl s Hc; [by exists s|]. apply NoDup_cons in Hd as [Hj Hd].
  assert (∀ k, k ∈ l → k ∈ peers) as Hl' by (intros k ?; by apply Hl, list_elem_of_further).
  assert (j ∈ peers) as Hjp by apply Hl, list_elem_of_here. apply elem_of_peers in Hjp as Hjp'. destruct Hjp' as [HjQ HjL].
  pose proof (Hc j Hjp) as Hcj. rewrite decide_True in Hcj by apply list_elem_of_here. destruct Hcj as (Hf & Hs & rest & Hn).
  assert (content (applied x (store (nodes s j)))) as Hbj by (rewrite (applied_ext x _ _ Hs); by apply Hboot).
  destruct (deliver s L j _ _ _ Hn (Hids _ HjQ) (fo_up _ _ Hf) (peon_commits _ Hbj Hf)) as (s1 & o1 & E1 & (Hf1 & -> & Hs1) & Hk1 & Hn1).
  destruct (IH Hd Hl' s1) as (s2 & E2 & Hc2 & Hs2).
  - intros k Hk. apply elem_of_peers in Hk as Hk'. destruct Hk' as [HkQ HkL]. destruct (decide (k = j)) as [->|Hne].
    + rewrite decide_False by done. split; [done|]. rewrite Hs1. by apply applied_ext.
    + pose proof (Hc k Hk) as Hck. rewrite Hk1, Hn1 by done. rewrite (decide_False (P := L = L ∧ k = j)) by tauto.
      rewrite (decide_False (P := L = j)) by congruence. rewrite app_nil_r.
      assert (k ∈ j :: l ↔ k ∈ l) as Hkl by (rewrite elem_of_cons; tauto). by rewrite (decide_ext _ _ _ _ Hkl) in Hck.
  - exists s2. cbn [map exec_all]. rewrite E1. split; [done|]. split; [done|]. by rewrite Hs2, Hk1.
Qed.

(** The leader has a transaction to propose, the peons are in step with it and no message is under way. *)
Record steady (s : sys) : Prop := {
  sy_leader : proposing (nodes s L);
  sy_peers j : j ∈ Q → j ≠ L → follows lc (nodes s j) ∧ net s L j = [] ∧ net s j L = []
}.

Lemma round_begins s l : steady s → l ≡ₚ peers → ∃ s', exec cf s (TriggerPropose L) = Some s' ∧ peons_of s s' begin_msg l ∧
  waits (nodes s' L) l ∧ services (store (nodes s' L)) = services (store (nodes s L)).
Proof.
  intros [Hp Hf] Hl. pose proof (pr_leads _ Hp) as Hld.
  assert (is_leader (nodes s L) && match pending_proposal (paxos (nodes s L)) with Some _ => true | None => false end = true) as Hg
    by (by rewrite (leads_is_leader _ _ _ _ Hld), (pr_value _ Hp)).
  destruct (happens s L (λ n, is_leader n && match pending_proposal (paxos n) with Some _ => true | None => false end)
    (_ <- Paxos.trigger_propose cf;; ret tt)%mon _ (Hids _ HL) (le_up _ _ _ _ Hld) Hg (proposes _ Hp))
    as (s1 & o1 & E1 & (Hr & Hacc & -> & Hs) & Hk & Hn).
  exists s1. split; [done|]. split; [|split; [|done]].
  - intros j Hj. assert (j ∈ l) as Hjl by (by rewrite Hl). apply elem_of_peers in Hj as [HjQ HjL]. destruct (Hf j HjQ HjL) as (Hfj & Hnl & Hnj).
    rewrite (Hk j), !Hn, Hnl, Hnj, (decide_True (P := j ∈ l)), (decide_True (P := L = L)), (decide_False (P := j = L)) by done.
    by rewrite to_peers_at.
  - unfold waits. rewrite decide_False.
    + split; [done|]. rewrite Hacc, Hl. apply set_eq. intros k. rewrite elem_of_difference, elem_of_list_to_set, elem_of_peers.
      rewrite elem_of_singleton. destruct (decide (k = L)) as [->|]; tauto.
    + intros ->. apply Permutation_nil in Hl. assert (Q ⊆ {[L]}) as Hsub.
      { intros k Hk'. destruct (decide (k = L)) as [->|Hne]; [by apply elem_of_singleton|].
        assert (k ∈ peers) as Hkp by (by apply elem_of_peers). rewrite Hl in Hkp. by apply elem_of_nil in Hkp. }
      apply subseteq_size in Hsub. rewrite size_singleton in Hsub. lia.
Qed.

(** The write of the leader and the commits that it sends. *)
Lemma round_writes s0 s l : content (applied x (store (nodes s L))) → l ≡ₚ peers → peons_of s0 s begin_msg [] → waits (nodes s L) [] →
  ∃ s', exec_all cf s [StoreApply L; StoreComplete L] = Some s' ∧ committing s0 s' l ∧ working (lc + 1) (nodes s' L) ∧
    services (store (nodes s' L)) = applied x (store (nodes s L)).
Proof.
  intros Hboot Hl Hp Hw. unfold waits in Hw. rewrite decide_True in Hw by done. destruct Hw as [Hr Hio].
  destruct (happens s L (λ _, true) store_apply _ (Hids _ HL) (le_up _ _ _ _ (ro_leads _ _ _ Hr)) eq_refl (store_applies _ Hr Hio))
    as (s1 & o1 & E1 & (-> & Hr1 & Hio1 & Hs1) & Hk1 & Hn1).
  rewrite <- Hs1 in Hboot.
  destruct (happens s1 L (λ _, true) (store_complete cf) _ (Hids _ HL) (le_up _ _ _ _ (ro_leads _ _ _ Hr1)) eq_refl (store_completes _ Hboot Hr1 Hio1))
    as (s2 & o2 & E2 & (Hw2 & Hs2 & rest & ->) & Hk2 & Hn2).
  exists s2. cbn [exec_all exec]. rewrite E1, E2. split; [done|]. split; [|split; [done|by rewrite Hs2]].
  intros j Hj. rewrite decide_True by (by rewrite Hl). destruct (Hp j Hj) as (Hf & Hsv & Hnj & Hnl). apply elem_of_peers in Hj as [HjQ HjL].
  rewrite Hk2, Hk1, Hn2, Hn1, Hnl, !(decide_True (P := L = L)) by done. rewrite msgs_to_app, to_peers_at by done.
  split; [done|]. split; [done|]. by eexists.
Qed.
End Round.

(** The events of a round in which the leader [L] hears the peons in the order [js] and they hear its commit in the order [ks]. *)
Definition round_events (L : Z) (js ks : list Z) : list event :=
  TriggerPropose L :: flat_map (λ j, [Deliver L j; Deliver j L]) js ++ [StoreApply L; StoreComplete L] ++ map (Deliver L) ks.

(** [C4] A round of Paxos ends: when a leader is active with a transaction to propose,
    the peons of its quorum are in step with it, nothing is under way between them and
    the transaction leads to data with which the services are content (a change of the
    monitor map makes a monitor start over instead),
    then the delivery of the messages, the peons in any order, and the write of the
    store run to their end with no assertion failed; every monitor of the quorum has
    committed one version more and applied the transaction to its services data, and
    the leader is active again or proposes a trim. *)
Theorem round_completes cf L E pn lc Q x s js ks : (∀ j, j ∈ Q → content cf (applied x (store (nodes s j)))) → 1 < Z.of_nat (size Q) → L ∈ Q →
  (∀ j, j ∈ Q → mon_id cf j = true) → steady cf L E pn lc Q x s → js ≡ₚ peers L Q → ks ≡ₚ peers L Q →
  ∃ s', exec_all cf s (round_events L js ks) = Some s' ∧ working cf L E pn Q (lc + 1) (nodes s' L) ∧
    ∀ j, j ∈ Q → up (nodes s' j) = true ∧ last_committed (paxos (nodes s' j)) = lc + 1 ∧
      db_last_committed (store (nodes s' j)) = lc + 1 ∧ services (store (nodes s' j)) = applied x (store (nodes s j)).
Proof.
  intros Hb HQ HL Hids Hst Hjs Hks.
  destruct (round_begins cf L E pn lc Q x HQ HL Hids s js Hst Hjs) as (s1 & E1 & Hp1 & Hw1 & Hs1).
  destruct (hear_all cf L E pn lc Q x HQ HL Hids s js) with (s := s1) as (s2 & E2 & Hp2 & Hw2 & Hs2); [|intros ? Hj; by rewrite <- Hjs|done..|].
  { rewrite Hjs. apply NoDup_filter, NoDup_elements. }
  assert (content cf (applied x (store (nodes s2 L)))) as HbL by (rewrite (applied_ext x _ (store (nodes s L))) by congruence; by apply Hb).
  destruct (round_writes cf L E pn lc Q x HQ HL Hids s s2 ks HbL Hks Hp2 Hw2) as (s3 & E3 & Hc3 & Hw3 & Hs3).
  destruct (commit_all cf L E pn lc Q x Hids s ks Hb) with (s := s3) as (s4 & E4 & Hc4 & Hs4); [|intros ? Hj; by rewrite <- Hks|done|].
  { rewrite Hks. apply NoDup_filter, NoDup_elements. }
  exists s4. split; [|split; [by rewrite Hs4|]].
  - unfold round_events. cbn [exec_all]. rewrite E1, exec_all_app, E2, exec_all_app, E3. exact E4.
  - intros j Hj. destruct (decide (j = L)) as [->|Hne].
    + rewrite Hs4, Hs3. replace (applied x (store (nodes s2 L))) with (applied x (store (nodes s L))) by (apply applied_ext; congruence).
      destruct Hw3 as [[]|[]]; done.
    + destruct (Hc4 j) as [[] Hs]; [by apply elem_of_peers|]. done.
Qed.

(** Monitors that start over when the monitor map is written, here under the prefix 9.  *)
Definition watching : config := mk_config 3 5 500 250 500 [7] (λ d, bool_decide (is_Some (services d !! ([9], [9])))) (λ _, true).
(** Three monitors elect monitor 0 and commit a version, and the leases are acknowledged; then a service has a write. *)
Definition up_and_running : list event :=
  [Restart 0; Restart 1; Restart 2; S' 1; S' 2; S' 0; D 0 1; D 0 2; D 1 0; D 1 0; D 1 2; D 2 0; D 2 0; D 0 1; D 0 1; D 0 2; D 0 2;
   D 1 0; D 2 0; D 0 1; D 0 1; D 0 2; D 0 2; D 1 0; D 1 0; D 2 0; D 2 0; D 2 1; StoreApply 0; StoreComplete 0;
   D 0 1; D 0 1; D 0 2; D 0 2; D 1 0; D 2 0; Prepare 0 [1] [1] (Some [7])].
Definition running : sys := or_first (exec_all watching (sys0 caps1) up_and_running).

Lemma round_completes_witness : ∃ s', exec_all watching running (round_events 0 [1; 2] [2; 1]) = Some s' ∧
  working watching 0 2 100 {[0; 1; 2]} 2 (nodes s' 0) ∧
  ∀ j, j ∈ ({[0; 1; 2]} : gset Z) → up (nodes s' j) = true ∧ last_committed (paxos (nodes s' j)) = 2 ∧
    db_last_committed (store (nodes s' j)) = 2 ∧
    services (store (nodes s' j)) = applied [OpService [1] [1] (Some [7])] (store (nodes running j)).
Proof.
  assert (∀ j, j ∈ ({[0; 1; 2]} : gset Z) ↔ j = 0 ∨ j = 1 ∨ j = 2) as Hin by (intros j; set_solver).
  apply (round_completes watching 0 2 100 1 {[0; 1; 2]} [OpService [1] [1] (Some [7])]).
  - intros j [->|[->| ->]]%Hin d Hd; unfold watching, needs_bootstrap; rewrite Hd; vm_compute; reflexivity.
  - vm_compute. reflexivity.
  - by apply Hin; left.
  - intros j [->|[->| ->]]%Hin; reflexivity.
  - split.
    + repeat split; vm_compute; reflexivity.
    + intros j [->|[->| ->]]%Hin Hne; [done|..]; repeat split; vm_compute; reflexivity.
  - vm_compute. apply Permutation_swap.
  - vm_compute. reflexivity.
Defined.
End PaxosRound.
