(* ===== verification/RefMap.v ===== *)
(** * [bluestore_extent_ref_map_t] (os/bluestore/bluestore_types.h, .cc)

    The map BlueStore keeps for a shared blob: an ordered map from the offset of
    an extent to its length and its reference count.  Neighbouring extents with
    the same count are merged, so that a map has one representation of every
    assignment of counts to bytes; [count] is that assignment, and the theorems
    say what [get], [put], [contains] and [intersects] do to it.

    Offsets are [uint64_t], lengths and counts [uint32_t], and the arithmetic of
    the source wraps at these widths.  Iterators are positions as in [StdMap]. *)
From S2P Require Import Prelude StdMap.

Module ExtentRefMap.

Record record_t : Type := Rec { rlen : Z; refs : Z }.

#[export] Instance record_t_eq_dec : EqDecision record_t.
Proof. solve_decision. Defined.

Abbreviation map_t := (list (Z * record_t)).

(** ** Operations *)

(** [_check]: stops at an overlap and at an unmerged pair. *)
Fixpoint check_from (pos rf : Z) (m : map_t) : res unit :=
  match m with
  | [] => Ok tt
  | (f, r) :: m' =>
      assert (negb (f <? pos));;;
      assert (negb ((f =? pos) && (refs r =? rf)));;;
      check_from (u64 (f + rlen r)) (refs r) m'
  end.

Definition _check (m : map_t) : res unit := check_from 0 0 m.

(** The iterator is updated when its node is merged into the one before. *)
Definition _maybe_merge_left (m : map_t) (p : nat) : res (map_t * nat) :=
  match p with
  | O => Ok (m, p)
  | S q =>
      '(qf, qr) <- deref (m !! q);;
      '(pf, pr) <- deref (m !! p);;
      if (refs qr =? refs pr) && (u64 (qf + rlen qr) =? pf) then
        Ok (map_erase pf (map_set qf (Rec (u32 (rlen qr + rlen pr)) (refs qr)) m), q)
      else Ok (m, p)
  end.

(** The merge at the end of [get] and [put], where [p] is not [end()]. *)
Definition finish (m : map_t) (p : nat) : res map_t :=
  match m !! p with
  | None => Ok m
  | Some _ => r <- _maybe_merge_left m p;; Ok r.1
  end.

(** The first node that ends after [offset]. *)
Definition seek (m : map_t) (offset : Z) : nat :=
  match lower_bound offset m with
  | O => O
  | S q =>
      match m !! q with
      | Some (f, r) => if u64 (f + rlen r) <=? offset then S q else q
      | None => q
      end
  end.

(** Cut the node at [p], which starts before [offset], in two; [p] then is the
    second half. *)
Definition split_at (m : map_t) (f : Z) (r : record_t) (offset : Z) : nat * map_t :=
  let left := u64 (u64 (f + rlen r) - offset) in
  map_insert offset (Rec (u32 left) (refs r))
    (map_set f (Rec (u32 (u64 (offset - f))) (refs r)) m).

(** The end of the body of [get]'s loop, where [p] is a node that should start at
    [offset]: [next] is what the rest of the loop does. *)
Definition get_here (next : map_t → nat → Z → Z → res (map_t * nat))
    (m : map_t) (p : nat) (offset length : Z) : res (map_t * nat) :=
  '(f, r) <- deref (m !! p);;
  assert (f =? offset);;;
  if length <? rlen r then
    let m1 := (map_insert (u64 (offset + length))
                 (Rec (u32 (rlen r - length)) (refs r)) m).2 in
    Ok (map_set f (Rec length (u32 (refs r + 1))) m1, p)
  else
    '(m1, p1) <- _maybe_merge_left (map_set f (Rec (rlen r) (u32 (refs r + 1))) m) p;;
    next m1 (S p1) (u64 (offset + rlen r)) (u32 (length - rlen r)).

(** The [while] of [get]. *)
Fixpoint get_loop (fuel : nat) (m : map_t) (p : nat) (offset length : Z) :
    res (map_t * nat) :=
  match fuel with
  | O => Err OutOfFuel
  | S fuel =>
      if negb (0 <? length) then Ok (m, p) else
      match m !! p with
      | None =>
          let '(p1, m1) := map_insert offset (Rec length 1) m in Ok (m1, p1)
      | Some (f, r) =>
          if offset <? f then
            let newlen := Z.min (u64 (f - offset)) length in
            let '(p1, m1) := map_insert offset (Rec (u32 newlen) 1) m in
            '(m2, p2) <- _maybe_merge_left m1 p1;;
            get_loop fuel m2 (S p2) (u64 (offset + newlen)) (u32 (length - newlen))
          else if f <? offset then
            assert (offset <? u64 (f + rlen r));;;
            let '(p1, m1) := split_at m f r offset in
            get_here (get_loop fuel) m1 p1 offset length
          else get_here (get_loop fuel) m p offset length
      end
  end.

(** Each turn adds one node at most and passes one, so two per node are enough. *)
Definition get (m : map_t) (offset length : Z) : res map_t :=
  '(m1, p) <- get_loop (2 * List.length m + 2) m (seek m offset) offset length;;
  finish m1 p.

(** The [while] of [put]: the map, the position, what was released and
    [unshared]; the last component tells [goto out] from the end of the loop. *)
Definition put_state : Type := map_t * nat * list (Z * Z) * bool * bool.

(** The turn that ends inside the node [(f, r)] of [p]. *)
Definition put_last (m : map_t) (p : nat) (f : Z) (r : record_t) (offset length : Z)
    (release : list (Z * Z)) (unshared : bool) : res put_state :=
  let unshared := if refs r =? 1 then unshared else false in
  let m1 := (map_insert (u64 (offset + length))
               (Rec (u32 (rlen r - length)) (refs r)) m).2 in
  if 1 <? refs r then
    let unshared := if refs r - 1 =? 1 then unshared else false in
    '(m2, p2) <- _maybe_merge_left (map_set f (Rec length (refs r - 1)) m1) p;;
    Ok (m2, p2, release, unshared, true)
  else Ok (map_erase f m1, p, release ++ [(f, length)], unshared, true).

Fixpoint put_loop (fuel : nat) (m : map_t) (p : nat) (offset length : Z)
    (release : list (Z * Z)) (unshared : bool) : res put_state :=
  match fuel with
  | O => Err OutOfFuel
  | S fuel =>
      if negb (0 <? length) then Ok (m, p, release, unshared, false) else
      '(f, r) <- deref (m !! p);;
      assert (f =? offset);;;
      if length <? rlen r then put_last m p f r offset length release unshared
      else
        let offset1 := u64 (offset + rlen r) in
        let length1 := u32 (length - rlen r) in
        if 1 <? refs r then
          let unshared := if refs r - 1 =? 1 then unshared else false in
          '(m2, p2) <- _maybe_merge_left (map_set f (Rec (rlen r) (refs r - 1)) m) p;;
          put_loop fuel m2 (S p2) offset1 length1 release unshared
        else
          put_loop fuel (map_erase f m) p offset1 length1 (release ++ [(f, rlen r)]) unshared
  end.

(** The node [put] starts at, which has to hold [offset]. *)
Definition put_seek (m : map_t) (offset : Z) : res nat :=
  let p := lower_bound offset m in
  if match m !! p with None => true | Some (f, _) => offset <? f end then
    match p with
    | O => Err AssertFailed
    | S q =>
        '(f, r) <- deref (m !! q);;
        assert (negb (u64 (f + rlen r) <=? offset));;;
        Ok q
    end
  else Ok p.

(** Cut off the part of that node before [offset]; the flag is [unshared]. *)
Definition put_cut (m : map_t) (p : nat) (f : Z) (r : record_t) (offset : Z) :
    nat * map_t * bool :=
  if f <? offset then
    let '(p1, m1) := split_at m f r offset in (p1, m1, refs r =? 1)
  else (p, m, true).

(** [put] with both out parameters given. *)
Definition put (m : map_t) (offset length : Z) (release : list (Z * Z)) :
    res (map_t * list (Z * Z) * bool) :=
  p <- put_seek m offset;;
  '(f, r) <- deref (m !! p);;
  let '(p, m, unshared) := put_cut m p f r offset in
  '(m, p, release, unshared, out) <-
    put_loop (S (List.length m)) m p offset length release unshared;;
  m <- (if (out : bool) then Ok m else finish m p);;
  Ok (m, release, unshared && forallb (λ x, refs x.2 =? 1) m).

(** The [while] of [contains]. *)
Fixpoint contains_loop (fuel : nat) (m : map_t) (p : nat) (offset length : Z) : res bool :=
  match fuel with
  | O => Err OutOfFuel
  | S fuel =>
      if negb (0 <? length) then Ok true else
      match m !! p with
      | None => Ok false
      | Some (f, r) =>
          if offset <? f then Ok false
          else if u64 (offset + length) <=? u64 (f + rlen r) then Ok true
          else
            let overlap := u64 (u64 (f + rlen r) - offset) in
            contains_loop fuel m (S p) (u64 (offset + overlap)) (u32 (length - overlap))
      end
  end.

Definition contains (m : map_t) (offset length : Z) : res bool :=
  let p := lower_bound offset m in
  if match m !! p with None => true | Some (f, _) => offset <? f end then
    match p with
    | O => Ok false
    | S q =>
        '(f, r) <- deref (m !! q);;
        if u64 (f + rlen r) <=? offset then Ok false
        else contains_loop (S (List.length m)) m q offset length
    end
  else contains_loop (S (List.length m)) m p offset length.

Definition intersects (m : map_t) (offset length : Z) : bool :=
  match m !! seek m offset with
  | None => false
  | Some (f, _) => if u64 (offset + length) <=? f then false else true
  end.

(** ** The counts a map stands for *)

Definition within (offset length x : Z) : bool := (offset <=? x) && (x <? offset + length).

Fixpoint count (m : map_t) (x : Z) : Z :=
  match m with
  | [] => 0
  | (f, r) :: m' => (if within f (rlen r) x then refs r else 0) + count m' x
  end.

(** A well-formed map after a node that ends at [pos] with count [rf]: what
    [_check] asks, with no empty extent, no count of zero and everything within
    its type. *)
Fixpoint wf_from (pos rf : Z) (m : map_t) : Prop :=
  match m with
  | [] => True
  | (f, r) :: m' =>
      pos <= f ∧ (f = pos → refs r ≠ rf) ∧
      0 < rlen r < 2 ^ 32 ∧ 0 < refs r < 2 ^ 32 ∧ f + rlen r < 2 ^ 64 ∧
      wf_from (f + rlen r) (refs r) m'
  end.

Definition wf (m : map_t) : Prop := wf_from 0 0 m.

(** No referenced stretch is longer than a [uint32_t] tells. *)
Definition gaps (c : Z → Z) : Prop := ∀ x, ∃ y, x <= y < x + 2 ^ 32 ∧ c y = 0.

(** The bytes of a list of extents, each as often as it occurs. *)
Fixpoint bytes (l : list (Z * Z)) (x : Z) : Z :=
  match l with
  | [] => 0
  | (f, n) :: l' => Z.b2z (within f n x) + bytes l' x
  end.

(** ** Lemmas on maps *)

Fixpoint end_of (pos : Z) (m : map_t) : Z :=
  match m with [] => pos | (f, r) :: m' => end_of (f + rlen r) m' end.
Fixpoint last_refs (rf : Z) (m : map_t) : Z :=
  match m with [] => rf | (_, r) :: m' => last_refs (refs r) m' end.

Lemma within_true o l x : within o l x = true ↔ o <= x < o + l.
Proof. unfold within. rewrite andb_true_iff, Z.leb_le, Z.ltb_lt. done. Qed.
Lemma within_false o l x : within o l x = false ↔ ~ (o <= x < o + l).
Proof. rewrite <- within_true. by destruct (within o l x). Qed.

Ltac win :=
  repeat match goal with
  | |- context [within ?o ?l ?x] =>
      let H := fresh "W" in destruct (within o l x) eqn:H;
      [apply within_true in H | apply within_false in H]
  | H : context [within ?o ?l ?x] |- _ =>
      let W := fresh "W" in destruct (within o l x) eqn:W;
      [apply within_true in W | apply within_false in W]
  end; simpl Z.b2z in *.

Lemma count_app a b x : count (a ++ b) x = count a x + count b x.
Proof. induction a as [|[f r] a IH]; simpl; [done|]. rewrite IH. lia. Qed.
Lemma bytes_app a b x : bytes (a ++ b) x = bytes a x + bytes b x.
Proof. induction a as [|[f n] a IH]; simpl; [done|]. rewrite IH. lia. Qed.

Lemma end_of_app pos a b : end_of pos (a ++ b) = end_of (end_of pos a) b.
Proof. revert pos; induction a as [|[f r] a IH]; intros pos; simpl; [done|]. apply IH. Qed.
Lemma last_refs_app rf a b : last_refs rf (a ++ b) = last_refs (last_refs rf a) b.
Proof. revert rf; induction a as [|[f r] a IH]; intros rf; simpl; [done|]. apply IH. Qed.

Lemma wf_from_app pos rf a b :
  wf_from pos rf (a ++ b) ↔ wf_from pos rf a ∧ wf_from (end_of pos a) (last_refs rf a) b.
Proof.
  revert pos rf; induction a as [|[f r] a IH]; intros pos rf; simpl; [tauto|].
  rewrite IH. tauto.
Qed.

(** The count before a map does not matter to a gap. *)
Lemma wf_from_mono pos rf pos' rf' m :
  pos' <= pos → (pos' = pos → rf' = rf ∨ rf' <= 0) → wf_from pos rf m → wf_from pos' rf' m.
Proof.
  destruct m as [|[f r] m]; intros H1 H2; [done|]; simpl.
  intros (A & B & C & D & E). split_and!; try tauto; lia.
Qed.

Lemma wf_from_weak pos rf m : wf_from pos rf m → wf_from pos (-1) m.
Proof. apply wf_from_mono; lia. Qed.

Lemma wf_from_head pos rf f r m pos' rf' :
  wf_from pos rf ((f, r) :: m) → pos' <= f → rf' <= 0 → wf_from pos' rf' ((f, r) :: m).
Proof. simpl. intros (A & B & C & D & E) H1 H2. split_and!; try tauto; lia. Qed.

Lemma wf_from_end pos rf m : wf_from pos rf m → pos <= end_of pos m.
Proof.
  revert pos rf; induction m as [|[f r] m IH]; intros pos rf; simpl; [lia|].
  intros (A & B & C & D & E & F). apply IH in F. lia.
Qed.

Lemma wf_from_below pos rf m k : wf_from pos rf m → end_of pos m <= k → keys_below k m.
Proof.
  revert pos rf; induction m as [|[f r] m IH]; intros pos rf; simpl; [by constructor|].
  intros (A & B & C & D & E & F) H. constructor; [|by eapply IH].
  apply wf_from_end in F. simpl. lia.
Qed.

Lemma wf_from_above pos rf m k : wf_from pos rf m → k < pos → keys_above k m.
Proof.
  revert pos rf; induction m as [|[f r] m IH]; intros pos rf; simpl; [by constructor|].
  intros (A & B & C & D & E & F) H. constructor; [simpl; lia|]. eapply IH; [done|lia].
Qed.

Lemma count_nonneg pos rf m x : wf_from pos rf m → 0 <= count m x.
Proof.
  revert pos rf; induction m as [|[f r] m IH]; intros pos rf; simpl; [lia|].
  intros (A & B & C & D & E & F). apply IH in F. win; lia.
Qed.

Lemma count_below pos rf m x : wf_from pos rf m → x < pos → count m x = 0.
Proof.
  revert pos rf; induction m as [|[f r] m IH]; intros pos rf; simpl; [done|].
  intros (A & B & C & D & E & F) H. rewrite (IH _ _ F) by lia. win; lia.
Qed.

Lemma count_beyond pos rf m x : wf_from pos rf m → end_of pos m <= x → count m x = 0.
Proof.
  revert pos rf; induction m as [|[f r] m IH]; intros pos rf; simpl; [done|].
  intros (A & B & C & D & E & F) H. rewrite (IH _ _ F H).
  apply wf_from_end in F. win; lia.
Qed.

(** A byte counted at the start of a map belongs to a first node that starts there. *)
Lemma count_head pos rf m :
  wf_from pos rf m → count m pos ≠ 0 → ∃ r m', m = (pos, r) :: m'.
Proof.
  destruct m as [|[f r] m]; simpl; [done|]. intros (A & B & C & D & E & F) H.
  rewrite (count_below _ _ _ _ F) in H by lia.
  win; [|lia]. replace f with pos by lia. eauto.
Qed.

(** A map is told from its counts: two maps with the same counts have the same
    first node, one inequality at a time. *)
Section Canonical.
Context (f g : Z) (r t : record_t) (a b : map_t) (pos rf pos' rf' : Z).
Context (Ha : wf_from pos rf ((f, r) :: a)) (Hb : wf_from pos' rf' ((g, t) :: b)).
Context (Hc : ∀ x, count ((f, r) :: a) x = count ((g, t) :: b) x).

Lemma head_start_le : g <= f.
Proof.
  destruct Ha as (A & B & C & D & E & F), Hb as (A' & B' & C' & D' & E' & F').
  pose proof (Hc f) as H; simpl in H. destruct (Z.le_gt_cases g f) as [|L]; [done|].
  rewrite (count_below _ _ _ f F), (count_below _ _ _ f F') in H by lia. win; lia.
Qed.

Lemma head_refs_eq : f = g → refs r = refs t.
Proof.
  intros ->. destruct Ha as (A & B & C & D & E & F), Hb as (A' & B' & C' & D' & E' & F').
  pose proof (Hc g) as H; simpl in H.
  rewrite (count_below _ _ _ g F), (count_below _ _ _ g F') in H by lia. win; lia.
Qed.

Lemma head_length_le : f = g → refs r = refs t → rlen t <= rlen r.
Proof.
  intros <- Hr. destruct Ha as (A & B & C & D & E & F), Hb as (A' & B' & C' & D' & E' & F').
  destruct (Z.le_gt_cases (rlen t) (rlen r)) as [|L]; [done|].
  pose proof (Hc (f + rlen r)) as H; simpl in H.
  rewrite (count_below _ _ _ _ F') in H by lia.
  destruct (count_head _ _ _ F) as (r' & m' & ->); [win; lia|].
  destruct F as (_ & N & R & _ & _ & F). simpl in H.
  rewrite (count_below _ _ _ _ F) in H by lia. win; lia.
Qed.
End Canonical.

(** Merged maps are canonical: the counts determine the map. *)
Lemma count_inj pos rf a b :
  wf_from pos rf a → wf_from pos rf b → (∀ x, count a x = count b x) → a = b.
Proof.
  revert pos rf b; induction a as [|[f r] a IH]; intros pos rf [|[g t] b] Ha Hb Hc; [done|..].
  - destruct Hb as (A & B & C & D & E & F). specialize (Hc g); simpl in Hc.
    apply (count_nonneg _ _ _ g) in F. win; lia.
  - destruct Ha as (A & B & C & D & E & F). specialize (Hc f); simpl in Hc.
    apply (count_nonneg _ _ _ f) in F. win; lia.
  - assert (∀ x, count ((g, t) :: b) x = count ((f, r) :: a) x) as Hc' by done.
    pose proof (head_start_le _ _ _ _ _ _ _ _ _ _ Ha Hb Hc).
    pose proof (head_start_le _ _ _ _ _ _ _ _ _ _ Hb Ha Hc').
    assert (f = g) as <- by lia.
    pose proof (head_refs_eq _ _ _ _ _ _ _ _ _ _ Ha Hb Hc eq_refl) as Hr.
    pose proof (head_length_le _ _ _ _ _ _ _ _ _ _ Ha Hb Hc eq_refl Hr).
    pose proof (head_length_le _ _ _ _ _ _ _ _ _ _ Hb Ha Hc' eq_refl (eq_sym Hr)).
    destruct r as [l1 r1], t as [l2 r2]; simpl in *; assert (l1 = l2) as <- by lia; subst r2.
    f_equal. destruct Ha as (_ & _ & _ & _ & _ & F), Hb as (_ & _ & _ & _ & _ & F').
    apply (IH _ _ _ F F'). intros x. specialize (Hc x); simpl in Hc. lia.
Qed.

(** ** The steps of the loops

    [c] bounds the bytes that are referenced while an operation runs; no stretch
    of them exceeds a length, so merging never overflows one. *)
Section Steps.
Context (c : Z → Z) (Hgaps : gaps c).

Definition under (m : map_t) : Prop := ∀ x, 0 < count m x → c x ≠ 0.

(** [pre'] is the map up to and with the node [(f, r)], merged. *)
Definition merged (pre : map_t) (f : Z) (r : record_t) (pre' : map_t) : Prop :=
  wf pre' ∧ end_of 0 pre' = f + rlen r ∧ last_refs 0 pre' = refs r ∧
  ∀ x, count pre' x = count (pre ++ [(f, r)]) x.

Lemma merged_self pre f r :
  wf pre → wf_from (end_of 0 pre) (last_refs 0 pre) [(f, r)] →
  merged pre f r (pre ++ [(f, r)]).
Proof.
  intros H1 H2. split_and!; [by apply wf_from_app| | |done].
  - by rewrite end_of_app.
  - by rewrite last_refs_app.
Qed.

Lemma merged_snoc pre qf qr f r :
  wf (pre ++ [(qf, qr)]) → 0 < rlen r → rlen qr + rlen r < 2 ^ 32 → f + rlen r < 2 ^ 64 →
  qf + rlen qr = f → refs qr = refs r →
  merged (pre ++ [(qf, qr)]) f r (pre ++ [(qf, Rec (rlen qr + rlen r) (refs qr))]).
Proof.
  intros Hp Hl Hs He Hf Hr. apply wf_from_app in Hp as [Hp (A1 & B1 & C1 & D1 & E1 & _)].
  split_and!.
  - apply wf_from_app. split; [done|]. simpl. split_and!; try done; lia.
  - rewrite end_of_app; simpl. lia.
  - by rewrite last_refs_app.
  - intros x. rewrite !count_app; simpl. win; lia.
Qed.

(** Adjacent nodes fit one length. *)
Lemma merge_fits pre qf qr f r :
  wf pre → 0 < refs qr → 0 < refs r → qf + rlen qr = f →
  under ((pre ++ [(qf, qr)]) ++ [(f, r)]) → rlen qr + rlen r < 2 ^ 32.
Proof.
  intros Hp H1 H2 Hf Hu. destruct (Hgaps qf) as (y & Hy & Hcy).
  destruct (Z.lt_ge_cases (rlen qr + rlen r) (2 ^ 32)); [done|]. exfalso.
  apply (Hu y); [|done]. rewrite !count_app; simpl.
  apply (count_nonneg _ _ _ y) in Hp. win; lia.
Qed.

Lemma merge_ok pre f r suf :
  wf pre → wf_from (end_of 0 pre) (-1) [(f, r)] → under (pre ++ [(f, r)]) →
  ∃ pre', _maybe_merge_left (pre ++ (f, r) :: suf) (length pre)
            = Ok (pre' ++ suf, pred (length pre')) ∧ pre' ≠ [] ∧ merged pre f r pre'.
Proof.
  intros Hp (A & _ & C & D & E & _) Hu. unfold _maybe_merge_left.
  assert (∀ X : res (map_t * nat), X = Ok (pre ++ (f, r) :: suf, length pre) →
    (f = end_of 0 pre → refs r ≠ last_refs 0 pre) →
    ∃ pre', X = Ok (pre' ++ suf, pred (length pre')) ∧ pre' ≠ [] ∧ merged pre f r pre') as Hself.
  { intros X -> Hn. exists (pre ++ [(f, r)]). rewrite length_app, Nat.add_1_r, <- app_assoc; simpl.
    split_and!; [done| by destruct pre |]. apply merged_self; [done|]. simpl. split_and!; try done; lia. }
  destruct pre as [|[qf qr] pre _] using rev_ind.
  { apply Hself; [done|]. simpl. lia. }
  rewrite end_of_app, last_refs_app in Hself. rewrite end_of_app in A. simpl in Hself, A.
  rewrite length_app, Nat.add_1_r, <- app_assoc in Hself |- *; simpl app in Hself |- *.
  rewrite lookup_pre_eq, lookup_pre_next; simpl.
  pose proof (proj1 (wf_from_app _ _ _ _) Hp) as [Hp' (A1 & B1 & C1 & D1 & E1 & _)].
  rewrite u64_small by (apply wf_from_end in Hp'; lia).
  destruct (Z.eqb_spec (refs qr) (refs r)) as [Hr|Hr]; simpl; [|by apply Hself].
  destruct (Z.eqb_spec (qf + rlen qr) f) as [Hf|Hf]; simpl; [|by apply Hself].
  assert (rlen qr + rlen r < 2 ^ 32) by (eapply (merge_fits pre qf qr f r); eauto; lia).
  rewrite u32_small by lia.
  exists (pre ++ [(qf, Rec (rlen qr + rlen r) (refs qr))]).
  rewrite map_set_app, map_set_here by (by eapply wf_from_below).
  rewrite map_erase_app by (eapply wf_from_below; [exact Hp'|lia]).
  rewrite map_erase_snd by lia. rewrite map_erase_here, length_app, Nat.add_1_r, <- !app_assoc; simpl.
  split_and!; [done| by destruct pre |]. apply merged_snoc; try done; lia.
Qed.

(** [split_at] cuts a node in two. *)
Lemma ref_split_ok pre f r suf offset :
  wf pre → wf_from (end_of 0 pre) (-1) ((f, r) :: suf) → f < offset < f + rlen r →
  split_at (pre ++ (f, r) :: suf) f r offset =
    (S (length pre),
     (pre ++ [(f, Rec (offset - f) (refs r))]) ++
       (offset, Rec (f + rlen r - offset) (refs r)) :: suf).
Proof.
  intros Hp (A & _ & C & D & E & F) Ho. unfold split_at.
  pose proof (wf_from_end _ _ _ Hp).
  rewrite (u64_small (f + rlen r)), !u64_small, !u32_small by lia.
  rewrite map_set_app, map_set_here by (by eapply wf_from_below).
  rewrite map_insert_after; [by rewrite <- app_assoc| |lia|].
  - eapply wf_from_below; [done|lia].
  - eapply wf_from_above; [done|lia].
Qed.

Lemma split_count f r offset x :
  f < offset < f + rlen r →
  count [(f, Rec (offset - f) (refs r)); (offset, Rec (f + rlen r - offset) (refs r))] x
  = count [(f, r)] x.
Proof. intros H. simpl. win; lia. Qed.

Lemma finish_ok pre suf :
  wf pre → wf_from (end_of 0 pre) (-1) suf → under (pre ++ suf) →
  ∃ m, finish (pre ++ suf) (length pre) = Ok m ∧ wf m ∧ ∀ x, count m x = count (pre ++ suf) x.
Proof.
  intros Hp Hs Hu. unfold finish. rewrite lookup_pre_eq.
  destruct suf as [|[f r] suf]; cbn [head].
  { exists pre. by rewrite app_nil_r. }
  pose proof Hs as (A & B & C & D & E & F).
  destruct (merge_ok pre f r suf) as (pre' & -> & Hne & M1 & M2 & M3 & M4); [done|..].
  { simpl. tauto. }
  { intros x Hx. apply (Hu x). revert Hx. rewrite !count_app; simpl.
    apply (count_nonneg _ _ _ x) in F. win; lia. }
  simpl. exists (pre' ++ suf). split_and!; [done| |].
  - apply wf_from_app. split; [done|]. by rewrite M2, M3.
  - intros x. rewrite !count_app, M4, count_app; simpl. lia.
Qed.

(** *** [get] *)

(** The loop stopped with the map cut at the iterator, merged up to it and with
    the range counted once more. *)
Definition got (m0 : map_t) (offset length : Z) (out : res (map_t * nat)) : Prop :=
  ∃ pre suf, out = Ok (pre ++ suf, List.length pre) ∧
    wf pre ∧ wf_from (end_of 0 pre) (-1) suf ∧
    ∀ x, count (pre ++ suf) x = count m0 x + Z.b2z (within offset length x).

Definition under_get (m : map_t) (offset length : Z) : Prop :=
  ∀ x, 0 < count m x + Z.b2z (within offset length x) → c x ≠ 0.

Lemma get_here_ok next pre r suf offset length :
  wf pre → wf_from (end_of 0 pre) (-1) ((offset, r) :: suf) →
  0 < length < 2 ^ 32 → refs r + 1 < 2 ^ 32 →
  under_get (pre ++ (offset, r) :: suf) offset length →
  (∀ pre', wf pre' → end_of 0 pre' = offset + rlen r → rlen r <= length →
     (∀ x, count pre' x =
        count pre x + (if within offset (rlen r) x then refs r + 1 else 0)) →
     got (pre' ++ suf) (offset + rlen r) (length - rlen r)
       (next (pre' ++ suf) (List.length pre') (offset + rlen r) (length - rlen r))) →
  got (pre ++ (offset, r) :: suf) offset length
    (get_here next (pre ++ (offset, r) :: suf) (List.length pre) offset length).
Proof.
  intros Hp Hw Hl Hr Hu Hnext. unfold get_here.
  pose proof Hw as (A & _ & C & D & E & F). pose proof (wf_from_end _ _ _ Hp).
  rewrite lookup_pre_eq; cbn [head deref bind]. rewrite Z.eqb_refl; cbn [assert bind].
  rewrite (u32_small (refs r + 1)) by lia.
  destruct (Z.ltb_spec length (rlen r)) as [L|L].
  - rewrite u64_small, u32_small by lia. rewrite map_insert_after; simpl; first last.
    { eapply wf_from_above; [done|lia]. }
    { lia. }
    { eapply wf_from_below; [done|lia]. }
    rewrite map_set_app, map_set_here by (by eapply wf_from_below).
    eexists pre, _. split_and!; [done|done| |].
    + simpl. split_and!; try done; try lia.
      replace (offset + length + (rlen r - length)) with (offset + rlen r) by lia. done.
    + intros x. rewrite !count_app; simpl. win; lia.
  - rewrite map_set_app, map_set_here by (by eapply wf_from_below).
    destruct (merge_ok pre offset (Rec (rlen r) (refs r + 1)) suf) as (pre' & -> & Hne & M); [done|..].
    { simpl. split_and!; try done; lia. }
    { intros x Hx. apply (Hu x). revert Hx. rewrite !count_app; simpl.
      apply (count_nonneg _ _ _ x) in F, Hp. win; lia. }
    simpl. rewrite u64_small, u32_small by lia.
    replace (S (pred (List.length pre'))) with (List.length pre') by (by destruct pre').
    destruct M as (M1 & M2 & M3 & M4).
    destruct (Hnext pre') as (pre2 & suf2 & -> & G1 & G2 & G3); try done.
    { intros x. rewrite M4, count_app; simpl. lia. }
    exists pre2, suf2. split_and!; try done. intros x. rewrite G3, !count_app, M4, count_app; simpl.
    win; lia.
Qed.

(** The loop can go on: the map is merged before the iterator, whose node ends
    after [offset]; one that starts before [offset] is merged to the left too. *)
Definition ready (pre suf : map_t) (offset : Z) : Prop :=
  wf pre ∧ wf_from (end_of 0 pre) (-1) suf ∧ end_of 0 pre <= offset ∧
  match suf with
  | [] => True
  | (f, r) :: _ =>
      offset < f + rlen r ∧ (f < offset → f = end_of 0 pre → refs r ≠ last_refs 0 pre)
  end.

Definition turns (suf : map_t) (offset : Z) : nat :=
  2 * List.length suf +
  match suf with (f, _) :: _ => if offset <? f then 2 else 1 | [] => 1 end.

(** Past the first node the iterator is at [offset] or beyond. *)
Lemma ready_next pre suf offset :
  wf pre → wf_from (end_of 0 pre) (-1) suf → end_of 0 pre = offset → ready pre suf offset.
Proof.
  intros H1 H2 <-. split_and!; try done. destruct suf as [|[f r] suf]; [done|].
  destruct H2 as (A & B & C & D & E & F). split; lia.
Qed.

(** Filling a gap adds a merged node. *)
Lemma gap_ok pre suf offset n :
  wf pre → end_of 0 pre <= offset → wf_from (offset + n) (-1) suf →
  0 < n < 2 ^ 32 → offset + n < 2 ^ 64 → under (pre ++ [(offset, Rec n 1)]) →
  ∃ pre', (let '(p, m) := map_insert offset (Rec (u32 n) 1) (pre ++ suf) in
           _maybe_merge_left m p) = Ok (pre' ++ suf, pred (length pre')) ∧
    pre' ≠ [] ∧ merged pre offset (Rec n 1) pre'.
Proof.
  intros Hp He Hs Hn Ho Hu. rewrite u32_small by lia. rewrite map_insert_mid.
  - apply merge_ok; [done| |done]. simpl. split_and!; try done; lia.
  - by eapply wf_from_below.
  - eapply wf_from_above; [exact Hs|lia].
Qed.

Lemma ref_under_snoc pre suf offset length f r :
  wf pre → wf_from (end_of 0 pre) (-1) suf → under_get (pre ++ suf) offset length →
  offset <= f → f + rlen r <= offset + length → under (pre ++ [(f, r)]).
Proof.
  intros Hp Hs Hu H1 H2 x Hx. apply (Hu x). revert Hx. rewrite !count_app; simpl.
  apply (count_nonneg _ _ _ x) in Hp, Hs. win; lia.
Qed.

Definition get_spec (loop : map_t → nat → Z → Z → res (map_t * nat)) (fuel : nat) : Prop :=
  ∀ pre suf offset length,
  ready pre suf offset → 0 <= length < 2 ^ 32 → offset + length < 2 ^ 64 →
  (∀ x, within offset length x = true → count suf x + 1 < 2 ^ 32) →
  under_get (pre ++ suf) offset length →
  (0 < length → (turns suf offset <= fuel)%nat) → (0 < fuel)%nat →
  got (pre ++ suf) offset length (loop (pre ++ suf) (List.length pre) offset length).

(** A turn at a node that starts at [offset]. *)
Lemma get_turn_ok fuel loop pre r suf offset length :
  get_spec loop fuel → wf pre → wf_from (end_of 0 pre) (-1) ((offset, r) :: suf) →
  0 < length < 2 ^ 32 → offset + length < 2 ^ 64 →
  (∀ x, within offset length x = true → count ((offset, r) :: suf) x + 1 < 2 ^ 32) →
  under_get (pre ++ (offset, r) :: suf) offset length →
  (2 * List.length suf + 2 <= fuel)%nat →
  got (pre ++ (offset, r) :: suf) offset length
    (get_here loop (pre ++ (offset, r) :: suf) (List.length pre) offset length).
Proof.
  intros IH Hp Hs Hl Ho Hmax Hu Hf. pose proof Hs as (A & _ & C & D & E & F).
  apply get_here_ok; try done.
  { specialize (Hmax offset). simpl in Hmax. apply (count_nonneg _ _ _ offset) in F.
    revert Hmax. win; lia. }
  intros pre' P1 P2 P3 P4. apply IH; try lia.
  - apply ready_next; [done| |done]. rewrite P2. by eapply wf_from_weak.
  - intros x Hx. specialize (Hmax x); simpl in Hmax. revert Hmax Hx. win; lia.
  - intros x Hx. apply (Hu x). revert Hx. rewrite !count_app, P4; simpl.
    apply (count_nonneg _ _ _ x) in F, Hp. win; lia.
  - unfold turns. destruct suf as [|[g t] suf]; [lia|]. destruct (_ <? g); lia.
Qed.

(** A turn at a gap. *)
Lemma get_gap_ok fuel loop pre f r suf offset length (n := Z.min (f - offset) length) :
  get_spec loop fuel → ready pre ((f, r) :: suf) offset → offset < f →
  0 < length < 2 ^ 32 → offset + length < 2 ^ 64 →
  (∀ x, within offset length x = true → count ((f, r) :: suf) x + 1 < 2 ^ 32) →
  under_get (pre ++ (f, r) :: suf) offset length →
  (2 * List.length suf + 3 <= fuel)%nat →
  got (pre ++ (f, r) :: suf) offset length
    (let '(p1, m1) := map_insert offset (Rec (u32 n) 1) (pre ++ (f, r) :: suf) in
     '(m2, p2) <- _maybe_merge_left m1 p1;;
     loop m2 (S p2) (u64 (offset + n)) (u32 (length - n))).
Proof.
  intros IH (Hp & Hs & He & _) Lf Hl Ho Hmax Hu Hf. pose proof (wf_from_end _ _ _ Hp) as H0.
  assert (0 < n <= length ∧ n <= f - offset) as Hn by lia.
  pose proof Hs as (A & _ & C & D & E & F).
  destruct (gap_ok pre ((f, r) :: suf) offset n) as (pre' & Hm & Hne & M1 & M2 & M3 & M4);
    [done|done| |lia..| |].
  { eapply wf_from_head; [exact Hs|lia..]. }
  { eapply ref_under_snoc; [done| |done|simpl; lia..]. done. }
  destruct (map_insert _ _ _) as [p1 m1]. rewrite Hm; simpl bind.
  rewrite u64_small, u32_small by lia.
  replace (S (pred (List.length pre'))) with (List.length pre') by (by destruct pre').
  simpl in M2.
  destruct (IH pre' ((f, r) :: suf) (offset + n) (length - n))
    as (pre2 & suf2 & -> & G1 & G2 & G3); try lia.
  - split_and!; try done; try lia. rewrite M2. eapply wf_from_head; [exact Hs|lia..].
  - intros x Hx. apply Hmax. win; lia.
  - intros x Hx. apply Hu. revert Hx. rewrite !count_app, M4, count_app; simpl. win; lia.
  - unfold turns; simpl. destruct (Z.ltb_spec (offset + n) f); lia.
  - exists pre2, suf2. split_and!; try done. intros x.
    rewrite G3, !count_app, M4, count_app; simpl. win; lia.
Qed.

(** A turn at a node that starts before [offset]. *)
Lemma get_split_ok fuel loop pre f r suf offset length :
  get_spec loop fuel → ready pre ((f, r) :: suf) offset → f < offset →
  0 < length < 2 ^ 32 → offset + length < 2 ^ 64 →
  (∀ x, within offset length x = true → count ((f, r) :: suf) x + 1 < 2 ^ 32) →
  under_get (pre ++ (f, r) :: suf) offset length →
  (2 * List.length suf + 2 <= fuel)%nat →
  got (pre ++ (f, r) :: suf) offset length
    (let '(p1, m1) := split_at (pre ++ (f, r) :: suf) f r offset in
     get_here loop m1 p1 offset length).
Proof.
  intros IH (Hp & Hs & He & Hh1 & Hh2) Lf Hl Ho Hmax Hu Hf.
  pose proof Hs as (A & _ & C & D & E & F). rewrite ref_split_ok by (done || lia).
  rewrite <- (Nat.add_1_r (List.length pre)).
  change 1%nat with (List.length [(f, Rec (offset - f) (refs r))]). rewrite <- length_app.
  destruct (get_turn_ok fuel loop (pre ++ [(f, Rec (offset - f) (refs r))])
    (Rec (f + rlen r - offset) (refs r)) suf offset length)
    as (pre2 & suf2 & -> & G1 & G2 & G3); try done; try lia.
  - apply wf_from_app. split; [done|]. simpl. split_and!; try done; lia.
  - rewrite end_of_app; simpl. replace (offset + (f + rlen r - offset)) with (f + rlen r) by lia.
    split_and!; try done; lia.
  - intros x Hx. specialize (Hmax x Hx); simpl in *. revert Hmax. win; lia.
  - intros x Hx. apply (Hu x). revert Hx. rewrite !count_app; simpl. win; lia.
  - exists pre2, suf2. split_and!; try done. intros x. rewrite G3, !count_app; simpl. win; lia.
Qed.

Lemma ref_get_loop_ok fuel : get_spec (get_loop fuel) fuel.
Proof.
  induction fuel as [|fuel IH]; intros pre suf offset length Hrd Hl Ho Hmax Hu Hf Hf'; [lia|].
  pose proof Hrd as (Hp & Hs & He & Hh). pose proof (wf_from_end _ _ _ Hp) as H0.
  cbn [get_loop]. destruct (Z.ltb_spec 0 length) as [L|L]; cbn [negb].
  2:{ exists pre, suf. split_and!; try done. intros x. win; lia. }
  specialize (Hf L). rewrite lookup_pre_eq. destruct suf as [|[f r] suf]; cbn [head].
  { rewrite map_insert_mid; [|by eapply wf_from_below|constructor].
    eexists pre, _. split_and!; [done|done| |].
    - simpl. split_and!; try done; lia.
    - intros x. rewrite !count_app; simpl. win; lia. }
  pose proof Hs as (A & _ & C & D & E & F). destruct Hh as [Hh1 Hh2].
  unfold turns in Hf; simpl in Hf. destruct (Z.ltb_spec offset f) as [Lf|Lf].
  { rewrite u64_small by lia. apply (get_gap_ok fuel); try done; lia. }
  destruct (Z.ltb_spec f offset) as [Lf'|Lf']; first last.
  { replace f with offset in * by lia. apply (get_turn_ok fuel); try done; lia. }
  rewrite u64_small, assert_true by lia. apply (get_split_ok fuel); try done; lia.
Qed.

(** [seek] finds the first node that ends after [offset]. *)
Lemma seek_ok m offset :
  wf m → 0 <= offset →
  ∃ pre suf, m = pre ++ suf ∧ seek m offset = length pre ∧ ready pre suf offset.
Proof.
  intros Hw H0. unfold seek. destruct (lower_bound_split offset m) as (pre & suf & -> & -> & Hb & Hs).
  pose proof (proj1 (wf_from_app _ _ _ _) Hw) as [Hp Hs'].
  destruct pre as [|[f r] pre _] using rev_ind.
  - exists [], suf. split_and!; try done. split_and!; [done|by eapply wf_from_weak|done|].
    destruct suf as [|[f r] suf]; [done|]. simpl in Hs'. split; lia.
  - rewrite length_app, Nat.add_1_r, <- app_assoc; simpl app. rewrite lookup_pre_eq; cbn [head].
    apply wf_from_app in Hp as [Hp (A & B & C & D & E & _)]. apply Forall_app in Hb as [_ Hb].
    inversion_clear Hb as [|?? Hf _]; simpl in Hf. pose proof (wf_from_end _ _ _ Hp).
    rewrite end_of_app, last_refs_app in Hs'; simpl in Hs'.
    rewrite u64_small by lia. destruct (Z.leb_spec (f + rlen r) offset).
    + exists (pre ++ [(f, r)]), suf. rewrite <- app_assoc, length_app, Nat.add_1_r.
      split_and!; try done. apply wf_from_app in Hw as [Hw _]. split_and!; [done|..].
      * rewrite end_of_app. by eapply wf_from_weak.
      * by rewrite end_of_app.
      * destruct suf as [|[g t] suf]; [done|]. simpl in Hs'. split; lia.
    + exists pre, ((f, r) :: suf). split_and!; try done. split_and!; [done| |lia|lia|tauto].
      simpl. split_and!; try done; lia.
Qed.

Lemma ref_get_ok m offset length :
  wf m → 0 <= offset → 0 <= length < 2 ^ 32 → offset + length < 2 ^ 64 →
  (∀ x, within offset length x = true → count m x + 1 < 2 ^ 32) →
  under_get m offset length →
  ∃ m', get m offset length = Ok m' ∧ wf m' ∧
    ∀ x, count m' x = count m x + Z.b2z (within offset length x).
Proof.
  intros Hw H0 Hl Ho Hmax Hu. unfold get.
  destruct (seek_ok m offset Hw H0) as (pre & suf & -> & -> & Hrd).
  destruct (ref_get_loop_ok (2 * List.length (pre ++ suf) + 2) pre suf offset length)
    as (pre' & suf' & -> & G1 & G2 & G3); try done; try lia.
  { intros x Hx. specialize (Hmax x Hx). rewrite count_app in Hmax.
    apply wf_from_app in Hw as [Hw _]. apply (count_nonneg _ _ _ x) in Hw. lia. }
  { intros _. unfold turns. rewrite length_app. destruct suf as [|[f r] suf]; [lia|].
    destruct (_ <? _); lia. }
  destruct (finish_ok pre' suf') as (m' & Hm & Hw' & Hc'); [done|done| |].
  { intros x Hx. apply (Hu x). by rewrite <- G3. }
  cbn [bind]. rewrite Hm. exists m'. split_and!; try done. intros x. by rewrite Hc'.
Qed.

(** *** [put] *)

Definition settled (m : map_t) (p : nat) (out : bool) : Prop :=
  if out then wf m else
  ∃ pre suf, m = pre ++ suf ∧ p = List.length pre ∧ wf pre ∧ wf_from (end_of 0 pre) (-1) suf.

(** What [put] makes of the map [m0] whose part from the iterator on is [suf]:
    the range counted once less, its bytes of count one released, and [unshared]
    lowered only for a count above one that stays. *)
Definition dropped (m0 suf : map_t) (offset length : Z) (release : list (Z * Z))
    (out : res put_state) : Prop :=
  ∃ m p extra unshared o, out = Ok (m, p, release ++ extra, unshared, o) ∧
    settled m p o ∧
    (∀ x, count m x = count m0 x - Z.b2z (within offset length x)) ∧
    (∀ x, bytes extra x = Z.b2z (within offset length x && (count suf x =? 1))) ∧
    (unshared = false → ∃ x, 1 < count m x).

Lemma put_last_ok pre r suf offset length release unshared :
  wf pre → end_of 0 pre <= offset → wf_from offset (-1) ((offset, r) :: suf) →
  0 < length < rlen r → under (pre ++ (offset, r) :: suf) →
  (unshared = false → ∃ x, 1 < count pre x) →
  dropped (pre ++ (offset, r) :: suf) ((offset, r) :: suf) offset length release
    (put_last (pre ++ (offset, r) :: suf) (List.length pre) offset r offset length release unshared).
Proof.
  intros Hp He Hs Hl Hu Hun. pose proof Hs as (A & _ & C & D & E & F).
  pose proof (wf_from_end _ _ _ Hp). unfold put_last.
  rewrite u64_small, u32_small by lia.
  rewrite map_insert_after; simpl; first last.
  { eapply wf_from_above; [done|lia]. }
  { lia. }
  { eapply wf_from_below; [done|lia]. }
  assert (wf_from (offset + length) (refs r - 1)
    ((offset + length, Rec (rlen r - length) (refs r)) :: suf)) as Hrest.
  { simpl. replace (offset + length + (rlen r - length)) with (offset + rlen r) by lia.
    split_and!; try done; lia. }
  destruct (Z.ltb_spec 1 (refs r)) as [L|L].
  - rewrite map_set_app, map_set_here by (by eapply wf_from_below).
    destruct (merge_ok pre offset (Rec length (refs r - 1))
      ((offset + length, Rec (rlen r - length) (refs r)) :: suf))
      as (pre' & -> & Hne & M1 & M2 & M3 & M4); [done|..].
    { simpl. split_and!; try done; lia. }
    { intros x Hx. apply (Hu x). revert Hx. rewrite !count_app; simpl.
      apply (count_nonneg _ _ _ x) in F. win; lia. }
    simpl. eexists _, _, [], _, true. rewrite app_nil_r. split_and!; [done|..].
    + apply wf_from_app. split; [done|]. rewrite M2, M3. exact Hrest.
    + intros x. rewrite !count_app, M4, count_app; simpl. win; lia.
    + intros x. simpl. destruct (within offset length x) eqn:W; [|done]. simpl.
      apply within_true in W. rewrite (count_below _ _ _ _ F) by lia. win; [|done].
      destruct (Z.eqb_spec (refs r + 0) 1); simpl; lia.
    + intros _. exists (offset + length). rewrite !count_app; simpl.
      apply (count_nonneg _ _ _ (offset + length)) in F, M1. win; lia.
  - rewrite map_erase_app, map_erase_here by (by eapply wf_from_below).
    eexists _, _, [(offset, length)], _, true. split_and!; [done|..].
    + apply wf_from_app. split; [done|]. eapply wf_from_mono; [| |exact Hrest]; lia.
    + intros x. rewrite !count_app; simpl. win; lia.
    + intros x. simpl. destruct (within offset length x) eqn:W; [|done]. simpl.
      apply within_true in W. rewrite (count_below _ _ _ _ F) by lia. win; [|lia].
      destruct (Z.eqb_spec (refs r + 0) 1); simpl; lia.
    + replace (refs r) with 1 by lia. simpl. intros Hx. destruct (Hun Hx) as (x & Hc).
      exists x. rewrite count_app. apply (count_nonneg _ _ _ x) in Hrest.
      revert Hrest; simpl. win; lia.
Qed.

Definition put_spec (fuel : nat) : Prop :=
  ∀ pre suf offset length release unshared,
  wf pre → end_of 0 pre <= offset → wf_from offset (-1) suf →
  0 <= length < 2 ^ 32 → offset + length < 2 ^ 64 →
  (∀ x, within offset length x = true → 0 < count suf x) → under (pre ++ suf) →
  (unshared = false → ∃ x, 1 < count pre x) → (List.length suf < fuel)%nat →
  dropped (pre ++ suf) suf offset length release
    (put_loop fuel (pre ++ suf) (List.length pre) offset length release unshared).

(** A turn that takes a whole node, after which [mid] is the map up to the
    iterator and [rel] what the node released. *)
Lemma ref_put_turn_ok fuel pre r suf offset length release unshared mid rel :
  put_spec fuel → wf pre → end_of 0 pre <= offset → wf_from offset (-1) ((offset, r) :: suf) →
  rlen r <= length < 2 ^ 32 → offset + length < 2 ^ 64 →
  (∀ x, within offset length x = true → 0 < count ((offset, r) :: suf) x) →
  under (pre ++ (offset, r) :: suf) → (List.length suf < fuel)%nat →
  wf mid → end_of 0 mid <= offset + rlen r →
  (∀ x, count mid x = count pre x + if within offset (rlen r) x then refs r - 1 else 0) →
  (∀ x, bytes rel x = Z.b2z (within offset (rlen r) x && (refs r =? 1))) →
  (unshared = false → ∃ x, 1 < count mid x) →
  dropped (pre ++ (offset, r) :: suf) ((offset, r) :: suf) offset length release
    (put_loop fuel (mid ++ suf) (List.length mid) (u64 (offset + rlen r))
       (u32 (length - rlen r)) (release ++ rel) unshared).
Proof.
  intros IH Hp He Hs Hl Ho Hin Hu Hf Hm Hme Hmc Hrel Hun.
  pose proof Hs as (A & _ & C & D & E & F). pose proof (wf_from_end _ _ _ Hp).
  rewrite u64_small, u32_small by lia.
  destruct (IH mid suf (offset + rlen r) (length - rlen r) (release ++ rel) unshared)
    as (m & p & extra & un & o & -> & HS & HC & HB & HU); try done; try lia.
  - by eapply wf_from_weak.
  - intros x Hx. specialize (Hin x); simpl in Hin. revert Hin Hx. win; lia.
  - intros x Hx. apply (Hu x). revert Hx. rewrite !count_app, Hmc; simpl.
    apply (count_nonneg _ _ _ x) in F, Hp. win; lia.
  - exists m, p, (rel ++ extra), un, o. rewrite app_assoc. split_and!; try done.
    + intros x. rewrite HC, !count_app, Hmc; simpl. win; lia.
    + intros x. rewrite bytes_app, Hrel, HB; simpl.
      destruct (Z.lt_ge_cases x (offset + rlen r)) as [Hx|Hx].
      * rewrite (count_below _ _ _ x F) by done. win; rewrite ?Z.add_0_r; simpl; lia.
      * win; rewrite ?Z.add_0_l; simpl; done || lia.
Qed.

Lemma ref_put_loop_ok fuel : put_spec fuel.
Proof.
  induction fuel as [|fuel IH];
    intros pre suf offset length release unshared Hp He Hs Hl Ho Hin Hu Hun Hf; [lia|].
  cbn [put_loop]. destruct (Z.ltb_spec 0 length) as [L|L]; cbn [negb].
  2:{ eexists _, _, [], _, false. rewrite app_nil_r. split_and!; [done|..].
      - exists pre, suf. split_and!; try done. eapply wf_from_mono; [| |exact Hs]; lia.
      - intros x. win; lia.
      - intros x. simpl. destruct (within offset length x) eqn:W; [|done].
        apply within_true in W. lia.
      - intros Hx. destruct (Hun Hx) as (x & Hc). exists x. rewrite count_app.
        apply (count_nonneg _ _ _ x) in Hs. lia. }
  destruct (count_head _ _ _ Hs) as (r & suf' & ->).
  { specialize (Hin offset). revert Hin. win; lia. }
  rewrite lookup_pre_eq; cbn [head deref bind]. rewrite Z.eqb_refl; cbn [assert bind].
  destruct (Z.ltb_spec length (rlen r)) as [Ll|Ll].
  { by apply put_last_ok. }
  pose proof Hs as (A & _ & C & D & E & F). simpl in Hf.
  destruct (Z.ltb_spec 1 (refs r)) as [Lr|Lr].
  - rewrite map_set_app, map_set_here by (by eapply wf_from_below).
    destruct (merge_ok pre offset (Rec (rlen r) (refs r - 1)) suf')
      as (mid & -> & Hne & M1 & M2 & M3 & M4); [done|..].
    { simpl. split_and!; try done; lia. }
    { intros x Hx. apply (Hu x). revert Hx. rewrite !count_app; simpl.
      apply (count_nonneg _ _ _ x) in F. win; lia. }
    simpl bind. replace (S (pred (List.length mid))) with (List.length mid) by (by destruct mid).
    rewrite <- (app_nil_r release) at 2.
    apply ref_put_turn_ok; try done; try lia.
    + simpl in M2. lia.
    + intros x. rewrite M4, count_app; simpl. lia.
    + intros x. simpl. destruct (Z.eqb_spec (refs r) 1); [lia|]. by rewrite andb_false_r.
    + intros Hx. destruct (Z.eqb_spec (refs r - 1) 1); simpl in *.
      * destruct (Hun Hx) as (x & Hc). exists x. rewrite M4, count_app; simpl. win; lia.
      * exists offset. rewrite M4, count_app; simpl.
        apply (count_nonneg _ _ _ offset) in Hp. win; lia.
  - rewrite map_erase_app, map_erase_here by (by eapply wf_from_below).
    apply ref_put_turn_ok; try done; try lia.
    + intros x. win; lia.
    + intros x. simpl. replace (refs r) with 1 by lia. rewrite andb_true_r. lia.
Qed.
End Steps.

(** *** The searches of [put] and [contains] *)

Lemma lower_bound_cases (m : map_t) offset :
  (∃ pre r suf, m = pre ++ (offset, r) :: suf ∧ lower_bound offset m = length pre) ∨
  (lower_bound offset m = O ∧ match m with [] => True | (f, _) :: _ => offset < f end) ∨
  (∃ pre f r suf, m = pre ++ (f, r) :: suf ∧ lower_bound offset m = S (length pre) ∧
     f < offset ∧ match suf with [] => True | (g, _) :: _ => offset < g end).
Proof.
  destruct (lower_bound_split offset m) as (pre & suf & -> & -> & Hb & Hs).
  destruct suf as [|[g t] suf].
  - right. destruct pre as [|[f r] pre _] using rev_ind; [by left|right].
    apply Forall_app in Hb as [_ Hb]. inversion_clear Hb as [|?? Hf _].
    exists pre, f, r, []. rewrite app_nil_r, length_app, Nat.add_1_r. done.
  - destruct (Z.eq_dec g offset) as [->|]; [by left; exists pre, t, suf|right].
    destruct pre as [|[f r] pre _] using rev_ind; [left; split; [done|simpl; lia]|right].
    apply Forall_app in Hb as [_ Hb]. inversion_clear Hb as [|?? Hf _].
    exists pre, f, r, ((g, t) :: suf). rewrite length_app, Nat.add_1_r, <- app_assoc.
    split_and!; try done. lia.
Qed.

(** Where the searches stop: at the node that holds [offset], if there is one. *)
Definition holds (m : map_t) (offset : Z) (p : nat) : Prop :=
  ∃ pre f r suf, m = pre ++ (f, r) :: suf ∧ p = List.length pre ∧ f <= offset < f + rlen r.

Lemma count_not_held pre f r suf offset :
  wf (pre ++ (f, r) :: suf) → f + rlen r <= offset →
  match suf with [] => True | (g, _) :: _ => offset < g end →
  count (pre ++ (f, r) :: suf) offset = 0.
Proof.
  intros Hw Hf Hs. apply wf_from_app in Hw as [Hp (A & B & C & D & E & F)].
  rewrite count_app; simpl. rewrite (count_beyond _ _ _ _ Hp) by lia.
  destruct suf as [|[g t] suf]; [win; simpl; lia|].
  rewrite (count_below g (-1) ((g, t) :: suf)); [win; lia| |done].
  eapply wf_from_head; [exact F|lia..].
Qed.

Lemma put_seek_ok m offset :
  wf m → 0 <= offset →
  if count m offset =? 0 then put_seek m offset = Err AssertFailed
  else ∃ p, put_seek m offset = Ok p ∧ holds m offset p.
Proof.
  intros Hw H0. unfold put_seek.
  destruct (lower_bound_cases m offset) as
    [(pre & r & suf & -> & ->)|[[-> Hm]|(pre & f & r & suf & -> & -> & Hf & Hs)]].
  - pose proof (proj1 (wf_from_app _ _ _ _) Hw) as [Hp (A & B & C & D & E & F)].
    rewrite lookup_pre_eq; cbn [head]. rewrite Z.ltb_irrefl, count_app; simpl.
    apply (count_nonneg _ _ _ offset) in Hp, F. win; [|lia].
    destruct (Z.eqb_spec (count pre offset + (refs r + count suf offset)) 0); [lia|].
    eexists. split; [done|]. exists pre, offset, r, suf. split_and!; try done; lia.
  - assert (count m offset = 0) as ->.
    { destruct m as [|[f r] m]; [done|].
      apply (count_below f (-1)); [|done]. eapply wf_from_head; [exact Hw|lia..]. }
    simpl. destruct m as [|[f r] m]; simpl; [done|]. by rewrite (proj2 (Z.ltb_lt _ _)).
  - rewrite lookup_pre_next, lookup_pre_eq; cbn [head deref bind].
    replace (match head suf with None => true | Some (f0, _) => offset <? f0 end) with true
      by (destruct suf as [|[g t] suf]; simpl; [done|]; by rewrite (proj2 (Z.ltb_lt _ _))).
    pose proof (proj1 (wf_from_app _ _ _ _) Hw) as [Hp (A & B & C & D & E & F)].
    pose proof (wf_from_end _ _ _ Hp).
    rewrite u64_small by lia. destruct (Z.leb_spec (f + rlen r) offset); simpl.
    + by rewrite count_not_held.
    + rewrite count_app; simpl. apply (count_nonneg _ _ _ offset) in Hp, F. win; [|lia].
      destruct (Z.eqb_spec (count pre offset + (refs r + count suf offset)) 0); [lia|].
      eexists. split; [done|]. exists pre, f, r, suf. split_and!; try done; lia.
Qed.

Lemma put_cut_ok pre f r suf offset (m := pre ++ (f, r) :: suf) :
  wf m → f <= offset < f + rlen r →
  ∃ pre1 suf1 un1, put_cut m (length pre) f r offset = (length pre1, pre1 ++ suf1, un1) ∧
    wf pre1 ∧ end_of 0 pre1 <= offset ∧ wf_from offset (-1) suf1 ∧
    (∀ x, count (pre1 ++ suf1) x = count m x) ∧ (un1 = false → ∃ x, 1 < count pre1 x).
Proof.
  intros Hw Hf. pose proof (proj1 (wf_from_app _ _ _ _) Hw) as [Hp Hs].
  pose proof Hs as (A & B & C & D & E & F). apply wf_from_weak in Hs.
  unfold put_cut. destruct (Z.ltb_spec f offset) as [L|L].
  - unfold m. rewrite ref_split_ok by (done || lia).
    eexists (pre ++ [(f, Rec (offset - f) (refs r))]), _, _.
    rewrite length_app, Nat.add_1_r. split_and!; [done|..].
    + apply wf_from_app. split; [done|]. simpl. split_and!; try done; lia.
    + rewrite end_of_app; simpl. lia.
    + simpl. replace (offset + (f + rlen r - offset)) with (f + rlen r) by lia.
      split_and!; try done; lia.
    + intros x. rewrite !count_app; simpl. win; lia.
    + intros Hr. apply Z.eqb_neq in Hr. exists f. rewrite count_app; simpl.
      apply (count_nonneg _ _ _ f) in Hp. win; lia.
  - assert (offset = f) as -> by lia. exists pre, ((f, r) :: suf), true.
    split_and!; try done. eapply wf_from_head; [exact Hs|lia..].
Qed.

(** The flag says that no byte has more than one reference left. *)
Lemma unshared_iff m :
  wf m → forallb (λ n, refs n.2 =? 1) m = true ↔ ∀ x, count m x <= 1.
Proof.
  unfold wf. generalize 0 at 1; generalize 0. induction m as [|[f r] m IH]; intros rf pos; [done|].
  intros (A & B & C & D & E & F); simpl. rewrite andb_true_iff, Z.eqb_eq, (IH _ _ F). split.
  - intros [H1 H2] x. specialize (H2 x). win; [|lia].
    rewrite (count_below _ _ _ _ F) by lia. lia.
  - intros H. split.
    + specialize (H f). apply (count_nonneg _ _ _ f) in F. win; lia.
    + intros x. specialize (H x). win; lia.
Qed.

Lemma put_ok m offset length release :
  wf m → gaps (count m) → 0 <= offset → 0 < length < 2 ^ 32 → offset + length < 2 ^ 64 →
  (∀ x, within offset length x = true → 0 < count m x) →
  ∃ m' extra, put m offset length release =
      Ok (m', release ++ extra, forallb (λ n, refs n.2 =? 1) m') ∧ wf m' ∧
    (∀ x, count m' x = count m x - Z.b2z (within offset length x)) ∧
    (∀ x, bytes extra x = Z.b2z (within offset length x && (count m x =? 1))).
Proof.
  intros Hw Hg H0 Hl Ho Hin. unfold put.
  assert (0 < count m offset) as Hc0 by (apply Hin; win; lia).
  pose proof (put_seek_ok m offset Hw H0) as Hp. destruct (Z.eqb_spec (count m offset) 0); [lia|].
  destruct Hp as (p & -> & pre & f & r & suf & -> & -> & Hf). cbn [bind].
  rewrite lookup_pre_eq; cbn [head deref bind].
  destruct (put_cut_ok pre f r suf offset Hw Hf)
    as (pre1 & suf1 & un1 & -> & P1 & P2 & P3 & P4 & P5).
  set (m := pre ++ (f, r) :: suf) in *.
  destruct (ref_put_loop_ok (count m) Hg (S (List.length (pre1 ++ suf1))) pre1 suf1 offset length release un1)
    as (m1 & p1 & extra & un & o & -> & HS & HC & HB & HU); try done; try lia.
  { intros x Hx. specialize (Hin x Hx). rewrite <- P4, count_app in Hin.
    apply within_true in Hx. rewrite (count_beyond _ _ _ _ P1) in Hin by lia. lia. }
  { intros x Hx. rewrite P4 in Hx. lia. }
  { rewrite length_app. lia. }
  cbn [bind].
  assert (∃ m', (if o then Ok m1 else finish m1 p1) = Ok m' ∧ wf m' ∧ ∀ x, count m' x = count m1 x)
    as (m' & -> & W & Hm').
  { destruct o; [by exists m1|]. destruct HS as (pre2 & suf2 & -> & -> & S1 & S2).
    apply (finish_ok (count m)); try done. intros x Hx. rewrite HC, P4 in Hx. win; lia. }
  cbn [bind]. exists m', extra. split_and!; [|done|..].
  - destruct un; [done|]. destruct (HU eq_refl) as (x & Hx). do 2 f_equal. symmetry.
    apply not_true_iff_false. rewrite unshared_iff by done. intros Hall.
    specialize (Hall x). rewrite Hm' in Hall. lia.
  - intros x. by rewrite Hm', HC, P4.
  - intros x. rewrite HB, <- P4, count_app.
    destruct (within offset length x) eqn:Wx; [|done]. apply within_true in Wx.
    rewrite (count_beyond _ _ _ _ P1) by lia. done.
Qed.

(** *** [contains] and [intersects] *)

Lemma contains_loop_ok fuel : ∀ pre suf offset length,
  wf (pre ++ suf) → 0 <= offset → 0 <= length < 2 ^ 32 → offset + length < 2 ^ 64 →
  match suf with [] => True | (f, r) :: _ => offset < f + rlen r end →
  (List.length suf < fuel)%nat →
  ∃ b, contains_loop fuel (pre ++ suf) (List.length pre) offset length = Ok b ∧
    (b = true ↔ ∀ x, within offset length x = true → 0 < count suf x).
Proof.
  induction fuel as [|fuel IH]; intros pre suf offset length Hw H0 Hl Ho Hh Hf; [lia|].
  cbn [contains_loop]. destruct (Z.ltb_spec 0 length) as [L|L]; cbn [negb].
  2:{ exists true. split; [done|]. split; [|done]. intros _ x Hx. win; [lia|done]. }
  rewrite lookup_pre_eq. destruct suf as [|[f r] suf]; cbn [head].
  { exists false. split; [done|]. split; [done|]. intros H. specialize (H offset).
    simpl in H. revert H. win; lia. }
  pose proof (proj1 (wf_from_app _ _ _ _) Hw) as [Hp Hs].
  pose proof Hs as (A & B & C & D & E & F). pose proof (wf_from_end _ _ _ Hp).
  destruct (Z.ltb_spec offset f) as [Lf|Lf].
  { exists false. split; [done|]. split; [done|]. intros H'. specialize (H' offset).
    rewrite (count_below f (-1)) in H'; [revert H'; win; lia| |done].
    eapply wf_from_head; [exact Hs|lia..]. }
  rewrite (u64_small (f + rlen r)), (u64_small (offset + length)) by lia.
  destruct (Z.leb_spec (offset + length) (f + rlen r)) as [Le|Le].
  { exists true. split; [done|]. split; [|done]. intros _ x Hx. simpl.
    apply (count_nonneg _ _ _ x) in F. win; lia. }
  rewrite (u64_small (f + rlen r - offset)), u64_small, u32_small by lia.
  replace (S (List.length pre)) with (List.length (pre ++ [(f, r)])) by (rewrite length_app; simpl; lia).
  replace (pre ++ (f, r) :: suf) with ((pre ++ [(f, r)]) ++ suf) by (by rewrite <- app_assoc).
  destruct (IH (pre ++ [(f, r)]) suf (offset + (f + rlen r - offset))
    (length - (f + rlen r - offset))) as (b & -> & Hb); try lia.
  { by rewrite <- app_assoc. }
  { destruct suf as [|[g t] suf]; [done|]. destruct F as (F1 & F2 & F3 & _). lia. }
  { simpl in Hf. lia. }
  exists b. split; [done|]. rewrite Hb. split; intros H' x Hx; specialize (H' x); simpl in *.
  - apply (count_nonneg _ _ _ x) in F. revert H' Hx. win; lia.
  - revert H' Hx. win; lia.
Qed.

(** The count of a byte at or after the node an operation starts from. *)
Lemma count_from pre f r suf offset x :
  wf (pre ++ (f, r) :: suf) → f <= offset → offset <= x →
  count (pre ++ (f, r) :: suf) x = count ((f, r) :: suf) x.
Proof.
  intros Hw Hf Hx. apply wf_from_app in Hw as [Hp (A & _)].
  rewrite count_app, (count_beyond _ _ _ _ Hp) by lia. lia.
Qed.

Lemma contains_at pre f r suf offset length (m := pre ++ (f, r) :: suf) :
  wf m → 0 <= offset → 0 <= length < 2 ^ 32 → offset + length < 2 ^ 64 →
  f <= offset < f + rlen r →
  ∃ b, contains_loop (S (List.length m)) m (List.length pre) offset length = Ok b ∧
    (b = true ↔ ∀ x, within offset length x = true → 0 < count m x).
Proof.
  intros Hw H0 Hl Ho Hf.
  destruct (contains_loop_ok (S (List.length m)) pre ((f, r) :: suf) offset length)
    as (b & Hb & Hiff); try done; try lia.
  { unfold m. rewrite length_app. lia. }
  exists b. split; [done|]. rewrite Hiff. unfold m.
  split; intros H x Hx; specialize (H x Hx); apply within_true in Hx;
    (rewrite (count_from _ _ _ _ offset) in * by (done || lia)); done.
Qed.

Lemma ref_contains_ok m offset length :
  wf m → 0 <= offset → 0 < length < 2 ^ 32 → offset + length < 2 ^ 64 →
  ∃ b, contains m offset length = Ok b ∧
    (b = true ↔ ∀ x, within offset length x = true → 0 < count m x).
Proof.
  intros Hw H0 Hl Ho. unfold contains.
  assert (count m offset = 0 → ∃ b, Ok false = Ok b ∧
    (b = true ↔ ∀ x, within offset length x = true → 0 < count m x)) as Hno.
  { intros Hc. exists false. split; [done|]. split; [done|]. intros H. specialize (H offset).
    revert H. win; lia. }
  destruct (lower_bound_cases m offset) as
    [(pre & r & suf & -> & ->)|[[-> Hm]|(pre & f & r & suf & -> & -> & Hf & Hs)]].
  - pose proof (proj1 (wf_from_app _ _ _ _) Hw) as [Hp (A & B & C & D & E & F)].
    rewrite lookup_pre_eq; cbn [head]. rewrite Z.ltb_irrefl. apply contains_at; try done; lia.
  - replace (match m !! 0%nat with None => true | Some (f, _) => offset <? f end) with true.
    2:{ destruct m as [|[f r] m]; simpl; [done|]. by rewrite (proj2 (Z.ltb_lt _ _)). }
    apply Hno. destruct m as [|[f r] m]; [done|].
    apply (count_below f (-1)); [|done]. eapply wf_from_head; [exact Hw|lia..].
  - rewrite lookup_pre_next, lookup_pre_eq; cbn [head deref bind].
    replace (match head suf with None => true | Some (f0, _) => offset <? f0 end) with true
      by (destruct suf as [|[g t] suf]; simpl; [done|]; by rewrite (proj2 (Z.ltb_lt _ _))).
    pose proof (proj1 (wf_from_app _ _ _ _) Hw) as [Hp (A & B & C & D & E & F)].
    pose proof (wf_from_end _ _ _ Hp).
    rewrite u64_small by lia. destruct (Z.leb_spec (f + rlen r) offset); simpl.
    + apply Hno. by apply count_not_held.
    + apply contains_at; try done; lia.
Qed.

Lemma intersects_ok m offset length :
  wf m → 0 <= offset → 0 < length < 2 ^ 32 → offset + length < 2 ^ 64 →
  intersects m offset length = true ↔ ∃ x, within offset length x = true ∧ 0 < count m x.
Proof.
  intros Hw H0 Hl Ho. unfold intersects.
  destruct (seek_ok m offset Hw H0) as (pre & suf & -> & -> & Hp & Hs & He & Hh).
  rewrite lookup_pre_eq, u64_small by lia. destruct suf as [|[f r] suf]; cbn [head].
  { split; [done|]. intros (x & Hx & Hc). rewrite app_nil_r in *. apply within_true in Hx.
    rewrite (count_beyond _ _ _ _ Hp) in Hc; lia. }
  pose proof Hs as (A & B & C & D & E & F).
  destruct (Z.leb_spec (offset + length) f) as [L|L]; (split; [|]); try done.
  - intros (x & Hx & Hc). apply within_true in Hx. rewrite count_app in Hc.
    rewrite (count_beyond _ _ _ _ Hp), (count_below f (-1)) in Hc; [lia| |lia|lia].
    eapply wf_from_head; [exact Hs|lia..].
  - intros _. exists (Z.max f offset). split; [apply within_true; lia|].
    rewrite count_app; simpl. apply (count_nonneg _ _ _ (Z.max f offset)) in Hp, F. win; lia.
Qed.

(** *** [_check] *)

Lemma check_from_ok pos rf m : wf_from pos rf m → 0 <= pos → check_from pos rf m = Ok tt.
Proof.
  revert pos rf; induction m as [|[f r] m IH]; intros pos rf; [done|].
  intros (A & B & C & D & E & F) H0; simpl. rewrite !assert_true; simpl.
  - rewrite u64_small by lia. apply IH; [done|lia].
  - destruct (Z.eqb_spec f pos), (Z.eqb_spec (refs r) rf); simpl; try done. by destruct B.
  - apply negb_true_iff. lia.
Qed.

Lemma wf_from_nodes pos rf m :
  0 <= pos → wf_from pos rf m →
  Forall (λ n, 0 < rlen n.2 < 2 ^ 32 ∧ 0 < refs n.2 < 2 ^ 32 ∧
               0 <= n.1 ∧ n.1 + rlen n.2 < 2 ^ 64) m.
Proof.
  revert pos rf; induction m as [|[f r] m IH]; intros pos rf H0; [by constructor|].
  intros (A & B & C & D & E & F). constructor; [simpl; lia|]. eapply IH; [|exact F]. lia.
Qed.

(** ** Histories of references

    A shared blob is referenced and released extent by extent.  The
    specification is the count of every byte; a history is legal when it stays
    within the types of the code: counts and lengths of 32 bits, no referenced
    stretch of 2^32 bytes, and only referenced bytes put. *)
Inductive op : Type :=
| Get (offset length : Z)
| Put (offset length : Z).

Definition step (m : map_t) (o : op) : res (map_t * list (Z * Z)) :=
  match o with
  | Get offset length => m1 <- get m offset length;; Ok (m1, [])
  | Put offset length => '(m1, release, _) <- put m offset length [];; Ok (m1, release)
  end.

Fixpoint run (m : map_t) (ops : list op) : res (map_t * list (Z * Z)) :=
  match ops with
  | [] => Ok (m, [])
  | o :: ops =>
      '(m1, r1) <- step m o;;
      '(m2, r2) <- run m1 ops;;
      Ok (m2, r1 ++ r2)
  end.

Definition counted (c : Z → Z) (o : op) (x : Z) : Z :=
  match o with
  | Get offset length => c x + Z.b2z (within offset length x)
  | Put offset length => c x - Z.b2z (within offset length x)
  end.

Definition freed (c : Z → Z) (o : op) (x : Z) : Z :=
  match o with
  | Get _ _ => 0
  | Put offset length => Z.b2z (within offset length x && (c x =? 1))
  end.

Definition legal (c : Z → Z) (o : op) : Prop :=
  match o with
  | Get offset length =>
      0 <= offset ∧ 0 <= length < 2 ^ 32 ∧ offset + length < 2 ^ 64 ∧
      (∀ x, within offset length x = true → c x + 1 < 2 ^ 32) ∧ gaps (counted c o)
  | Put offset length =>
      0 <= offset ∧ 0 < length < 2 ^ 32 ∧ offset + length < 2 ^ 64 ∧
      (∀ x, within offset length x = true → 0 < c x)
  end.

Fixpoint counted_all (c : Z → Z) (ops : list op) (x : Z) : Z :=
  match ops with [] => c x | o :: ops => counted_all (counted c o) ops x end.
Fixpoint freed_all (c : Z → Z) (ops : list op) (x : Z) : Z :=
  match ops with [] => 0 | o :: ops => freed c o x + freed_all (counted c o) ops x end.
Fixpoint legal_all (c : Z → Z) (ops : list op) : Prop :=
  match ops with [] => True | o :: ops => legal c o ∧ legal_all (counted c o) ops end.

Definition unreferenced (x : Z) : Z := 0.

Lemma gaps_mono c c' : gaps c → (∀ x, c x = 0 → c' x = 0) → gaps c'.
Proof. intros H Hc x. destruct (H x) as (y & Hy & Hcy). exists y. auto. Qed.

Lemma gaps_small c n : n < 2 ^ 32 → (∀ x, ~ (0 <= x < n) → c x = 0) → gaps c.
Proof.
  intros Hn Hc x. destruct (Z_lt_dec x 0); [exists x; split; [lia|apply Hc; lia]|].
  exists (Z.max x n). destruct (Z.max_spec x n) as [[H ->]|[H ->]];
    (split; [lia|apply Hc; lia]).
Qed.

(** The map [m] stands for the counts [c]. *)
Definition stands (m : map_t) (c : Z → Z) : Prop := wf m ∧ gaps c ∧ ∀ x, count m x = c x.

Lemma stands_empty : stands [] unreferenced.
Proof. split_and!; try done. by apply (gaps_small _ 0). Qed.

Lemma step_ok m c o :
  stands m c → legal c o →
  ∃ m' rel, step m o = Ok (m', rel) ∧ stands m' (counted c o) ∧
    ∀ x, bytes rel x = freed c o x.
Proof.
  intros (Hw & Hg & Hc) Hl. destruct o as [offset length|offset length]; simpl in *.
  - destruct Hl as (L1 & L2 & L3 & L4 & L5).
    destruct (ref_get_ok _ L5 m offset length) as (m' & -> & W & C); try done.
    { intros x. rewrite Hc. apply L4. }
    { intros x. rewrite Hc. simpl. lia. }
    exists m', []. split_and!; try done. split_and!; try done. intros x. by rewrite C, Hc.
  - destruct Hl as (L1 & L2 & L3 & L4).
    destruct (put_ok m offset length []) as (m' & rel & -> & W & C & B); try done.
    { eapply gaps_mono; [exact Hg|]. intros x. by rewrite Hc. }
    { intros x. rewrite Hc. apply L4. }
    exists m', rel. split_and!; [done| |intros x; by rewrite B, Hc].
    split_and!; [done| |intros x; by rewrite C, Hc].
    eapply gaps_mono; [exact Hg|]. intros x Hx. simpl.
    destruct (within offset length x) eqn:E; simpl; [|lia]. specialize (L4 x E). lia.
Qed.

Lemma run_ok ops : ∀ m c,
  stands m c → legal_all c ops →
  ∃ m' rel, run m ops = Ok (m', rel) ∧ stands m' (counted_all c ops) ∧
    ∀ x, bytes rel x = freed_all c ops x.
Proof.
  induction ops as [|o ops IH]; intros m c Hs Hl; simpl in *.
  { exists m, []. done. }
  destruct Hl as [Ho Hl]. destruct (step_ok m c o Hs Ho) as (m1 & r1 & -> & Hs1 & Hb1).
  destruct (IH m1 _ Hs1 Hl) as (m2 & r2 & Hr & Hs2 & Hb2). simpl. rewrite Hr.
  exists m2, (r1 ++ r2). split_and!; try done. intros x. by rewrite bytes_app, Hb1, Hb2.
Qed.

(** [C18] Reference counting of extents: after any legal history of [get]s and
    [put]s the map counts every byte exactly as often as it was referenced and not
    released since, and the extents handed out for release hold every byte exactly
    as often as its count went back to zero. *)
Theorem refmap_refines ops :
  legal_all unreferenced ops →
  ∃ m release, run [] ops = Ok (m, release) ∧
    (∀ x, count m x = counted_all unreferenced ops x) ∧
    (∀ x, bytes release x = freed_all unreferenced ops x).
Proof.
  intros Hl. destruct (run_ok ops [] _ stands_empty Hl) as (m & rel & -> & (_ & _ & C) & B).
  by exists m, rel.
Qed.

Lemma history_legal :
  legal_all unreferenced [Get 0 4096; Get 8192 4096; Get 2048 8192; Put 0 4096; Put 2048 2048].
Proof.
  simpl. unfold unreferenced. split_and!; try lia;
    try (apply (gaps_small _ 16384); [lia|]; intros x Hx; unfold counted);
    try (intros x Hx; revert Hx; unfold counted); win; lia.
Qed.

Lemma refmap_refines_witness :
  ∃ m release, run [] [Get 0 4096; Get 8192 4096; Get 2048 8192; Put 0 4096; Put 2048 2048]
      = Ok (m, release) ∧
    (∀ x, count m x = counted_all unreferenced
       [Get 0 4096; Get 8192 4096; Get 2048 8192; Put 0 4096; Put 2048 2048] x) ∧
    (∀ x, bytes release x = freed_all unreferenced
       [Get 0 4096; Get 8192 4096; Get 2048 8192; Put 0 4096; Put 2048 2048] x).
Proof. apply refmap_refines. apply history_legal. Defined.

(** The map is well formed after every legal history: [_check] finds neither
    an overlap nor an unmerged pair, and every node has a length and a count that
    are positive and fit their types. *)
Theorem refmap_well_formed ops :
  legal_all unreferenced ops →
  ∃ m release, run [] ops = Ok (m, release) ∧ _check m = Ok tt ∧
    Forall (λ n, 0 < rlen n.2 < 2 ^ 32 ∧ 0 < refs n.2 < 2 ^ 32 ∧
                 0 <= n.1 ∧ n.1 + rlen n.2 < 2 ^ 64) m.
Proof.
  intros Hl. destruct (run_ok ops [] _ stands_empty Hl) as (m & rel & -> & (W & _ & _) & _).
  exists m, rel. split_and!; [done|by apply check_from_ok|]. by eapply wf_from_nodes.
Qed.

Lemma refmap_well_formed_witness :
  ∃ m release, run [] [Get 0 4096; Get 8192 4096; Get 2048 8192; Put 0 4096; Put 2048 2048]
      = Ok (m, release) ∧ _check m = Ok tt ∧
    Forall (λ n, 0 < rlen n.2 < 2 ^ 32 ∧ 0 < refs n.2 < 2 ^ 32 ∧
                 0 <= n.1 ∧ n.1 + rlen n.2 < 2 ^ 64) m.
Proof. apply refmap_well_formed. apply history_legal. Defined.

(** The map depends on the counts alone: two legal histories, of whatever
    operations in whatever order, that leave every byte with the same count leave
    the same map, so that [operator==] compares counts. *)
Theorem refmap_canonical ops ops' :
  legal_all unreferenced ops → legal_all unreferenced ops' →
  (∀ x, counted_all unreferenced ops x = counted_all unreferenced ops' x) →
  ∃ m release release', run [] ops = Ok (m, release) ∧ run [] ops' = Ok (m, release').
Proof.
  intros Hl Hl' Hc.
  destruct (run_ok ops [] _ stands_empty Hl) as (m & rel & -> & (W & _ & C) & _).
  destruct (run_ok ops' [] _ stands_empty Hl') as (m' & rel' & -> & (W' & _ & C') & _).
  exists m, rel, rel'. split; [done|]. do 2 f_equal. apply (count_inj 0 0); try done.
  intros x. by rewrite C, C', Hc.
Qed.

Lemma refmap_canonical_witness :
  ∃ m release release', run [] [Get 4096 4096; Get 0 4096] = Ok (m, release) ∧
    run [] [Get 0 8192; Get 0 100; Put 0 100] = Ok (m, release').
Proof.
  apply refmap_canonical; [simpl; unfold unreferenced..|].
  - split_and!; try lia; try (apply (gaps_small _ 16384); [lia|]; intros x Hx; unfold counted);
      try (intros x Hx; revert Hx; unfold counted); win; lia.
  - split_and!; try lia; try (apply (gaps_small _ 16384); [lia|]; intros x Hx; unfold counted);
      try (intros x Hx; revert Hx; unfold counted); win; lia.
  - intros x. simpl. unfold unreferenced. win; lia.
Defined.

(** Taking a reference and dropping it restores the map, and releases exactly
    the bytes nobody else referenced. *)
Theorem get_put_roundtrip m offset length :
  wf m → 0 <= offset → 0 < length < 2 ^ 32 → offset + length < 2 ^ 64 →
  (∀ x, within offset length x = true → count m x + 1 < 2 ^ 32) →
  gaps (λ x, count m x + Z.b2z (within offset length x)) →
  ∃ m' release unshared, get m offset length = Ok m' ∧
    put m' offset length [] = Ok (m, release, unshared) ∧
    ∀ x, bytes release x = Z.b2z (within offset length x && (count m x =? 0)).
Proof.
  intros Hw H0 Hl Ho Hmax Hg.
  destruct (ref_get_ok _ Hg m offset length) as (m1 & G & W & C); try done; try lia.
  { intros x Hx. lia. }
  destruct (put_ok m1 offset length []) as (m2 & rel & P & W2 & C2 & B); try done; try lia.
  { eapply gaps_mono; [exact Hg|]. intros x. by rewrite C. }
  { intros x Hx. rewrite C, Hx. apply (count_nonneg _ _ _ x) in Hw. simpl. lia. }
  assert (m2 = m) as ->.
  { apply (count_inj 0 0); try done. intros x. rewrite C2, C. lia. }
  eexists _, _, _. split_and!; [done|exact P|]. intros x. rewrite B, C.
  destruct (within offset length x); simpl; [|done]. f_equal.
  apply (count_nonneg _ _ _ x) in Hw. lia.
Qed.

Lemma get_put_roundtrip_witness :
  ∃ m' release unshared, get [(0, Rec 8192 1)] 4096 8192 = Ok m' ∧
    put m' 4096 8192 [] = Ok ([(0, Rec 8192 1)], release, unshared) ∧
    ∀ x, bytes release x = Z.b2z (within 4096 8192 x && (count [(0, Rec 8192 1)] x =? 0)).
Proof.
  apply get_put_roundtrip; try lia.
  - split_and!; simpl; lia.
  - intros x _. simpl. win; lia.
  - apply (gaps_small _ 12288); [lia|]. intros x Hx. simpl. win; lia.
Defined.

(** [contains] and [intersects] tell whether all, or any, of the bytes of a
    range are referenced. *)
Theorem contains_intersects_correct m offset length :
  wf m → 0 <= offset → 0 < length < 2 ^ 32 → offset + length < 2 ^ 64 →
  (∃ b, contains m offset length = Ok b ∧
     (b = true ↔ ∀ x, offset <= x < offset + length → 0 < count m x)) ∧
  (intersects m offset length = true ↔ ∃ x, offset <= x < offset + length ∧ 0 < count m x).
Proof.
  intros Hw H0 Hl Ho. split.
  - destruct (ref_contains_ok m offset length) as (b & -> & Hb); try done. exists b. split; [done|].
    rewrite Hb. by setoid_rewrite within_true.
  - rewrite intersects_ok by done. by setoid_rewrite within_true.
Qed.

Lemma contains_intersects_correct_witness :
  (∃ b, contains [(0, Rec 4096 1); (4096, Rec 4096 2)] 1000 5000 = Ok b ∧
     (b = true ↔ ∀ x, 1000 <= x < 1000 + 5000 →
        0 < count [(0, Rec 4096 1); (4096, Rec 4096 2)] x)) ∧
  (intersects [(0, Rec 4096 1); (4096, Rec 4096 2)] 1000 5000 = true ↔
   ∃ x, 1000 <= x < 1000 + 5000 ∧ 0 < count [(0, Rec 4096 1); (4096, Rec 4096 2)] x).
Proof. apply contains_intersects_correct; try lia. split_and!; simpl; lia. Defined.

(** What [get] makes of an extent that adjoins the last one of the map: the merged length is cut to 32 bits. *)
Lemma get_adjoining pre o l1 l2 :
  keys_below o pre → 0 <= o → 0 < l1 < 2 ^ 32 → 0 < l2 < 2 ^ 32 → o + l1 + l2 < 2 ^ 64 →
  get (pre ++ [(o, Rec l1 1)]) (o + l1) l2 = Ok (pre ++ [(o, Rec (u32 (l1 + l2)) 1)]).
Proof.
  intros Hpre Ho H1 H2 Hw. assert (keys_below (o + l1) (pre ++ [(o, Rec l1 1)])) as Hb.
  { apply keys_below_app. split; [eapply keys_below_mono; [|done]; lia|]. repeat constructor. simpl. lia. }
  assert (seek (pre ++ [(o, Rec l1 1)]) (o + l1) = S (length pre)) as Es.
  { unfold seek. rewrite <- (app_nil_r (pre ++ _)) at 1. rewrite lower_bound_app by done. simpl. rewrite length_app, Nat.add_0_r, Nat.add_1_r.
    rewrite lookup_pre_eq. simpl. rewrite u64_small by lia. by rewrite (proj2 (Z.leb_le _ _)) by lia. }
  unfold get. rewrite Es. replace (2 * length (pre ++ [(o, Rec l1 1)]) + 2)%nat with (S (2 * length (pre ++ [(o, Rec l1 1)]) + 1)) by lia.
  cbn [get_loop]. rewrite (proj2 (Z.ltb_lt 0 l2)) by lia. cbn [negb]. rewrite lookup_pre_next. cbn [head].
  rewrite <- (app_nil_r (pre ++ _)) at 1. rewrite map_insert_mid by (done || constructor). cbn [bind]. unfold finish.
  rewrite length_app, Nat.add_1_r. rewrite <- app_assoc. cbn [app]. rewrite lookup_pre_next. cbn [head _maybe_merge_left].
  rewrite lookup_pre_eq, lookup_pre_next. cbn [head deref bind refs rlen]. rewrite u64_small, !Z.eqb_refl by lia. cbn [andb bind fst].
  rewrite map_set_app, map_set_here by done. rewrite map_erase_app by (eapply keys_below_mono; [|done]; lia).
  by rewrite map_erase_snd, map_erase_here by lia.
Qed.

(** [C37] A merge adds two 32-bit lengths: whatever else the map holds, when an extent at its end is referenced together with an adjoining one and the
    two are of 4 GiB or more, only what they have beyond 4 GiB is counted; the last 4 GiB have no reference.  Releasing the first
    of the two then dereferences the end of the map. *)
Theorem merge_loses_extent pre o l1 l2 :
  keys_below o pre → 0 <= o → 0 < l1 < 2 ^ 32 → 0 < l2 < 2 ^ 32 → 2 ^ 32 <= l1 + l2 → o + l1 + l2 < 2 ^ 64 →
  ∃ m, get (pre ++ [(o, Rec l1 1)]) (o + l1) l2 = Ok m ∧
    (∀ x, count m x = count pre x + Z.b2z (within o (l1 + l2 - 2 ^ 32) x)) ∧
    put m o l1 [] = Err BadAccess.
Proof.
  intros Hpre Ho H1 H2 H3 Hw. rewrite get_adjoining by done. set (k := l1 + l2 - 2 ^ 32).
  assert (u32 (l1 + l2) = k) as ->.
  { unfold u32, k. symmetry. apply Z.mod_unique with 1; lia. }
  exists (pre ++ [(o, Rec k 1)]). split; [done|]. split.
  - intros x. rewrite count_app. simpl. unfold Z.b2z. destruct (within o k x); lia.
  - unfold put, put_seek. rewrite lower_bound_app by done. cbn [lower_bound]. rewrite Z.ltb_irrefl, Nat.add_0_r, lookup_pre_eq. cbn [head].
    rewrite Z.ltb_irrefl. cbn [bind]. rewrite lookup_pre_eq. cbn [head deref bind]. unfold put_cut. rewrite Z.ltb_irrefl.
    rewrite length_app, Nat.add_1_r. cbn [put_loop]. rewrite (proj2 (Z.ltb_lt 0 l1)) by lia. cbn [negb]. rewrite lookup_pre_eq. cbn [head deref bind rlen refs].
    rewrite Z.eqb_refl. cbn [assert bind]. rewrite (proj2 (Z.ltb_ge l1 k)) by (unfold k; lia). cbn [Z.ltb Z.compare Pos.compare Pos.compare_cont].
    rewrite map_erase_app, map_erase_here, app_nil_r by done. rewrite (u32_small (l1 - k)) by (unfold k; lia).
    rewrite (proj2 (Z.ltb_lt 0 (l1 - k))) by (unfold k; lia). cbn [negb]. rewrite lookup_ge_None_2 by lia. done.
Qed.

(** Two halves of 4 GiB, after a referenced page. *)
Lemma merge_loses_extent_witness :
  ∃ m, get [(0, Rec 4096 2); (8192, Rec (2 ^ 31) 1)] (8192 + 2 ^ 31) (2 ^ 31) = Ok m ∧
    (∀ x, count m x = count [(0, Rec 4096 2)] x + Z.b2z (within 8192 (2 ^ 31 + 2 ^ 31 - 2 ^ 32) x)) ∧
    put m 8192 (2 ^ 31) [] = Err BadAccess.
Proof. apply (merge_loses_extent [(0, Rec 4096 2)] 8192 (2 ^ 31) (2 ^ 31)); try lia. repeat constructor. Defined.

End ExtentRefMap.
