(* ===== verification/Denc.v ===== *)
(** * Compact integer encodings (include/denc.h)

    The encoders append bytes to a [contiguous_appender], modelled by the bytes
    written; the decoders read from a [bufferptr::iterator], modelled by the bytes
    left, and throw at the end of the buffer.  Each encoding comes with the number
    of bytes its [size_t&] overload reserves, which the appender does not check.

    [int64_t] arithmetic wraps as the compiler makes it wrap; a shift by the width
    of the type or more is undefined and stops the model. *)
From S2P Require Import Prelude.

Module Denc.

(** The integer types the varint templates are used with. *)
Inductive ity : Type := U32 | U64 | S64.

Definition wrap (T : ity) : Z → Z :=
  match T with U32 => u32 | U64 => u64 | S64 => s64 end.
Definition sizeof (T : ity) : Z := match T with U32 => 4 | U64 | S64 => 8 end.

(** ** Raw bytes *)

(** [get_pos_add] of the iterator. *)
Definition get_bytes (n : nat) (l : list Z) : res (list Z * list Z) :=
  if bool_decide (n <= length l)%nat then Ok (take n l, drop n l) else Err EndOfBuffer.

(** Little-endian integers of [n] bytes. *)
Fixpoint le_bytes (n : nat) (v : Z) : list Z :=
  match n with
  | O => []
  | S n => Z.land v 255 :: le_bytes n (Z.shiftr v 8)
  end.
Fixpoint le_value (l : list Z) : Z :=
  match l with
  | [] => 0
  | b :: l => Z.lor b (Z.shiftl (le_value l) 8)
  end.

Definition get_le (n : nat) (l : list Z) : res (Z * list Z) :=
  '(b, l) <- get_bytes n l;; Ok (le_value b, l).

(** ** Varints *)

Definition denc_varint_bound (T : ity) : Z := sizeof T + 1.

(** The [while (v)] of the encoder; [Z.shiftr] is the arithmetic shift of a signed
    type and the logical one of an unsigned type. *)
Fixpoint varint_loop (fuel : nat) (v byte : Z) : res (list Z) :=
  match fuel with
  | O => Err OutOfFuel
  | S fuel =>
      if v =? 0 then Ok [byte]
      else
        l <- varint_loop fuel (Z.shiftr v 7) (Z.land v 127);;
        Ok (Z.lor byte 128 :: l)
  end.

(** Ten bytes hold any 64-bit value. *)
Definition denc_varint (v : Z) : res (list Z) :=
  varint_loop 10 (Z.shiftr v 7) (Z.land v 127).

Fixpoint unvarint_loop (T : ity) (l : list Z) (v shift : Z) : res (Z * list Z) :=
  match l with
  | [] => Err EndOfBuffer
  | byte :: l =>
      if 8 * sizeof T <=? shift then Err BadAccess else
      let v := Z.lor v (wrap T (Z.shiftl (Z.land byte 127) shift)) in
      if Z.land byte 128 =? 0 then Ok (v, l) else unvarint_loop T l v (shift + 7)
  end.

Definition undenc_varint (T : ity) (l : list Z) : res (Z * list Z) :=
  match l with
  | [] => Err EndOfBuffer
  | byte :: l =>
      let v := Z.land byte 127 in
      if Z.land byte 128 =? 0 then Ok (v, l) else unvarint_loop T l v 7
  end.

(** ** Signed varints *)

Definition denc_signed_varint_bound : Z := 8 + 2.

Definition denc_signed_varint (v : Z) : res (list Z) :=
  denc_varint (if v <? 0 then Z.lor (s64 (Z.shiftl (s64 (- v)) 1)) 1
               else s64 (Z.shiftl v 1)).

Definition undenc_signed_varint (T : ity) (l : list Z) : res (Z * list Z) :=
  '(i, l) <- undenc_varint S64 l;;
  Ok (wrap T (if Z.land i 1 =? 0 then Z.shiftr i 1 else - Z.shiftr i 1), l).

(** ** Varints with their low zero nibbles counted *)

Fixpoint pos_ctz (p : positive) : Z :=
  match p with xO p => 1 + pos_ctz p | _ => 0 end.

(** [ctz] of include/intarith.h at 64 bits. *)
Definition ctz (v : Z) : Z :=
  match v with Z0 => 64 | Zpos p | Zneg p => pos_ctz p end.

Definition lowznib (v : Z) : Z :=
  let n := if v =? 0 then 0 else ctz v / 4 in
  if 3 <? n then 3 else n.

Definition denc_varint_lowz_bound : Z := 8 + 2.

Definition denc_varint_lowz (v : Z) : res (list Z) :=
  let n := lowznib v in
  let v := Z.shiftr v (n * 4) in
  let v := u64 (Z.shiftl v 2) in
  denc_varint (Z.lor v n).

Definition undenc_varint_lowz (T : ity) (l : list Z) : res (Z * list Z) :=
  '(i, l) <- undenc_varint U64 l;;
  let n := Z.land i 3 in
  let i := Z.shiftr i 2 in
  Ok (wrap T (u64 (Z.shiftl i (n * 4))), l).

Definition denc_signed_varint_lowz_bound : Z := 8 + 2.

Definition denc_signed_varint_lowz (v : Z) : res (list Z) :=
  let negative := v <? 0 in
  let v := if negative then s64 (- v) else v in
  let n := lowznib v in
  let v := Z.shiftr v (n * 4) in
  let v := s64 (Z.shiftl v 3) in
  denc_varint (Z.lor (Z.lor v (Z.shiftl n 1)) (Z.b2z negative)).

Definition undenc_signed_varint_lowz (T : ity) (l : list Z) : res (Z * list Z) :=
  '(i, l) <- undenc_varint S64 l;;
  let n := Z.shiftr (Z.land i 6) 1 in
  let v := s64 (Z.shiftl (Z.shiftr i 3) (n * 4)) in
  Ok (wrap T (if Z.land i 1 =? 0 then v else - v), l).

(** ** Logical block addresses *)

Definition denc_lba_bound : Z := 8 + 2.

(** The low bits of the word, the shift of the data in it and the data left. *)
Definition lba_head (v : Z) : Z * Z * Z :=
  let low_zero_nibbles := if v =? 0 then 0 else ctz v / 4 in
  let t := low_zero_nibbles - 3 in
  if t <? 0 then (7, 3, v)
  else if t <? 3 then
    (Z.shiftl 1 t - 1, t + 1, Z.shiftr v (low_zero_nibbles * 4))
  else (3, 3, Z.shiftr v 20).

Definition denc_lba (v : Z) : res (list Z) :=
  let '(word, pos, v) := lba_head v in
  let word := Z.lor word (Z.land (u64 (Z.shiftl v pos)) 2147483647) in
  let v := Z.shiftr v (31 - pos) in
  if v =? 0 then Ok (le_bytes 4 word)
  else
    let word := Z.lor word 2147483648 in
    l <- varint_loop 10 (Z.shiftr v 7) (Z.land v 127);;
    Ok (le_bytes 4 word ++ l).

(** The rest of the bytes is read as those of a 64-bit varint are. *)
Definition undenc_lba (l : list Z) : res (Z * list Z) :=
  '(word, l) <- get_le 4 l;;
  let k := Z.land word 7 in
  let '(v, shift) :=
    if (k =? 1) || (k =? 5) then
      (u64 (Z.shiftl (Z.land word 2147483644) (16 - 2)), 16 + 29)
    else if k =? 3 then (u64 (Z.shiftl (Z.land word 2147483640) (20 - 3)), 20 + 28)
    else if k =? 7 then (Z.shiftr (Z.land word 2147483640) 3, 28)
    else (u64 (Z.shiftl (Z.land word 2147483646) (12 - 1)), 12 + 30) in
  let byte := u8 (Z.shiftr word 24) in
  if Z.land byte 128 =? 0 then Ok (v, l) else unvarint_loop U64 l v shift.

(** ** Lemmas on bits *)

Lemma lor_shiftl a b n : 0 <= n → 0 <= a < 2 ^ n → Z.lor a (Z.shiftl b n) = a + b * 2 ^ n.
Proof.
  intros Hn Ha. rewrite <- Z.shiftl_mul_pow2 by done.
  assert (Z.land a (Z.shiftl b n) = 0) as H0.
  { apply Z.bits_inj'. intros i Hi. rewrite Z.land_spec, Z.bits_0.
    destruct (Z.lt_ge_cases i n).
    - by rewrite Z.shiftl_spec_low, andb_false_r.
    - rewrite <- (Z.mod_small a (2 ^ n)), Z.mod_pow2_bits_high by lia. done. }
  rewrite Z.add_nocarry_lxor by done. by rewrite Z.lxor_lor.
Qed.

Lemma lor_add a b n : 0 <= n → 0 <= a < 2 ^ n → Z.lor a (b * 2 ^ n) = a + b * 2 ^ n.
Proof. intros Hn Ha. rewrite <- (Z.shiftl_mul_pow2 b n) at 1 by done. by apply lor_shiftl. Qed.

Lemma land_127 v : Z.land v 127 = v mod 128.
Proof. apply (Z.land_ones v 7). lia. Qed.
Lemma shiftr_7 v : Z.shiftr v 7 = v / 128.
Proof. by rewrite Z.shiftr_div_pow2. Qed.

(** ** Varints *)

(** The loop where the encoders enter it. *)
Definition put_varint (fuel : nat) (v : Z) : res (list Z) :=
  varint_loop fuel (Z.shiftr v 7) (Z.land v 127).

Lemma put_varint_S fuel v :
  put_varint (S fuel) v =
    if v / 128 =? 0 then Ok [v mod 128]
    else l <- put_varint fuel (v / 128);; Ok (v mod 128 + 128 :: l).
Proof.
  unfold put_varint. simpl. rewrite shiftr_7, land_127. destruct (v / 128 =? 0); [done|].
  pose proof (Z.mod_pos_bound v 128).
  destruct (varint_loop fuel (Z.shiftr (v / 128) 7) (Z.land (v / 128) 127)); simpl; [|done].
  change 128 with (1 * 2 ^ 7) at 2. rewrite lor_add by lia. done.
Qed.

Definition limit (T : ity) : Z :=
  match T with U32 => 2 ^ 32 | U64 => 2 ^ 64 | S64 => 2 ^ 63 end.

Lemma wrap_small T x : 0 <= x < limit T → wrap T x = x.
Proof. destruct T; simpl; intros H; [by apply u32_small|by apply u64_small|apply s64_small; lia]. Qed.

Lemma limit_size T x shift :
  0 < x → 0 <= shift → x * 2 ^ shift < limit T → shift < 8 * sizeof T.
Proof.
  intros Hx Hs Hl. destruct (Z.lt_ge_cases shift (8 * sizeof T)) as [|H]; [done|].
  apply (Z.pow_le_mono_r 2) in H; [|lia]. destruct T; simpl in *; nia.
Qed.

(** A byte of the encoding, read. *)
Lemma unvarint_byte T b more l v shift :
  0 <= b < 128 → 0 <= shift < 8 * sizeof T → 0 <= v < 2 ^ shift → v + b * 2 ^ shift < limit T →
  unvarint_loop T ((if more : bool then b + 128 else b) :: l) v shift =
    (if more then unvarint_loop T l (v + b * 2 ^ shift) (shift + 7)
     else Ok (v + b * 2 ^ shift, l)).
Proof.
  intros Hb Hs Hv Hl. cbn [unvarint_loop].
  rewrite (proj2 (Z.leb_gt _ _)) by lia.
  assert (Z.land (if more then b + 128 else b) 127 = b) as ->.
  { rewrite land_127. destruct more; [|by rewrite Z.mod_small].
    change 128 with (1 * 128) at 1. rewrite Z.mod_add, Z.mod_small by lia. done. }
  rewrite Z.shiftl_mul_pow2 by lia. rewrite wrap_small by nia. rewrite lor_add by lia.
  assert (Z.land (if more then b + 128 else b) 128 = if more then 128 else 0) as ->.
  { clear -Hb. destruct more.
    - assert (b = Z.land b 127) as -> by (rewrite land_127, Z.mod_small; lia).
      rewrite Z.add_nocarry_lxor, Z.lxor_lor, Z.land_lor_distr_l.
      all: try (by rewrite <- Z.land_assoc, Z.land_0_r).
    - assert (b = Z.land b 127) as -> by (rewrite land_127, Z.mod_small; lia).
      by rewrite <- Z.land_assoc, Z.land_0_r. }
  by destruct more.
Qed.

(** [n] bytes hold a value below [128 ^ n], and reading them back after [shift]
    bits of [acc] adds the value. *)
Lemma put_varint_ok n : ∀ v fuel,
  0 <= v < 128 ^ Z.of_nat (S n) → (S n <= fuel)%nat →
  ∃ bs, put_varint fuel v = Ok bs ∧ (length bs <= S n)%nat ∧
    ∀ T rest acc shift, 0 <= shift < 8 * sizeof T → 0 <= acc < 2 ^ shift →
      acc + v * 2 ^ shift < limit T →
      unvarint_loop T (bs ++ rest) acc shift = Ok (acc + v * 2 ^ shift, rest).
Proof.
  induction n as [|n IH]; intros v fuel Hv Hf; (destruct fuel as [|fuel]; [lia|]);
    rewrite put_varint_S; pose proof (Z.mod_pos_bound v 128);
    pose proof (Z.div_mod v 128 ltac:(lia)).
  - rewrite Z.div_small by (simpl in Hv; lia). simpl. eexists. split_and!; [done|simpl; lia|].
    intros T rest acc shift Hs Ha Hl. simpl in Hv. rewrite Z.mod_small by lia.
    cbn [app]. by rewrite (unvarint_byte T v false).
  - destruct (Z.eqb_spec (v / 128) 0) as [Hd|Hd].
    { eexists. split_and!; [done|simpl; lia|]. intros T rest acc shift Hs Ha Hl.
      assert (v mod 128 = v) as Hm by lia. rewrite Hm. cbn [app].
      rewrite (unvarint_byte T v false); try done; lia. }
    assert (0 < v / 128) by (apply Z.div_str_pos; pose proof (Z.div_pos v 128); lia).
    destruct (IH (v / 128) fuel) as (bs & -> & Hlen & Hdec); [|lia|].
    { split; [lia|]. apply Z.div_lt_upper_bound; [lia|].
      rewrite <- Z.pow_succ_r, <- Nat2Z.inj_succ by lia. lia. }
    eexists. split_and!; [done|simpl; lia|]. intros T rest acc shift Hs Ha Hl.
    rewrite <- app_comm_cons. rewrite (unvarint_byte T (v mod 128) true) by (lia || nia).
    assert (2 ^ (shift + 7) = 2 ^ shift * 128) as E by (by rewrite Z.pow_add_r by lia).
    rewrite Hdec.
    + rewrite E. f_equal. f_equal. nia.
    + split; [lia|]. apply (limit_size T (v / 128)); [done|lia|]. rewrite E. nia.
    + rewrite E. nia.
    + rewrite E. nia.
Qed.

Lemma undenc_varint_loop T l : undenc_varint T l = unvarint_loop T l 0 0.
Proof.
  destruct l as [|b l]; [done|]. simpl undenc_varint. cbn [unvarint_loop].
  replace (8 * sizeof T <=? 0) with false by (by destruct T).
  rewrite Z.shiftl_0_r, wrap_small, Z.lor_0_l; [done|].
  rewrite land_127. pose proof (Z.mod_pos_bound b 128). destruct T; simpl; lia.
Qed.

(** What a pair of overloads promises: a value in the domain is written in at most
    the bytes reserved, and read back whatever follows. *)
Definition reads_back {A} (enc : A → res (list Z)) (dec : list Z → res (A * list Z))
    (bound : Z) (v : A) : Prop :=
  ∃ bs, enc v = Ok bs ∧ Z.of_nat (length bs) <= bound ∧
    ∀ rest, dec (bs ++ rest) = Ok (v, rest).

Lemma denc_varint_reads T v n :
  0 <= v < limit T → v < 128 ^ Z.of_nat (S n) → (n < 10)%nat →
  reads_back denc_varint (undenc_varint T) (Z.of_nat (S n)) v.
Proof.
  intros Hv Hn Hn'. destruct (put_varint_ok n v 10) as (bs & E & Hl & Hd); [lia|lia|].
  exists bs. split_and!; [exact E|lia|]. intros rest. rewrite undenc_varint_loop, Hd; [|..].
  - do 2 f_equal. lia.
  - destruct T; simpl; lia.
  - lia.
  - lia.
Qed.

(** A varint as long as any: the case no domain but the type's own is needed for. *)
Lemma denc_varint_any T v :
  0 <= v < limit T →
  ∃ bs, denc_varint v = Ok bs ∧ (length bs <= 10)%nat ∧
    ∀ rest, undenc_varint T (bs ++ rest) = Ok (v, rest).
Proof.
  intros Hv. destruct (denc_varint_reads T v 9) as (bs & H1 & H2 & H3); [done| |lia|].
  { destruct T; simpl in *; lia. }
  exists bs. split_and!; [done|lia|done].
Qed.

Lemma put_varint_long n : ∀ v fuel bs,
  128 ^ Z.of_nat n <= v → put_varint fuel v = Ok bs → (n < length bs)%nat.
Proof.
  induction n as [|n IH]; intros v fuel bs Hv; (destruct fuel as [|fuel]; [done|]); rewrite put_varint_S.
  - destruct (_ =? 0); intros E; [simplify_eq/=; lia|].
    destruct (put_varint fuel (v / 128)); simplify_eq/=; lia.
  - assert (128 ^ Z.of_nat n <= v / 128) as Hd.
    { apply Z.div_le_lower_bound; [lia|]. rewrite <- Z.pow_succ_r, <- Nat2Z.inj_succ by lia. lia. }
    pose proof (Z.pow_pos_nonneg 128 (Z.of_nat n)).
    destruct (Z.eqb_spec (v / 128) 0); [lia|].
    destruct (put_varint fuel (v / 128)) as [l|] eqn:E; intros E'; simplify_eq/=.
    specialize (IH _ _ _ Hd E). lia.
Qed.

(** The arithmetic shift of a negative value never reaches zero. *)
Lemma put_varint_negative fuel : ∀ v, v < 0 → put_varint fuel v = Err OutOfFuel.
Proof.
  induction fuel as [|fuel IH]; intros v Hv; [done|]. rewrite put_varint_S.
  assert (v / 128 < 0) by (apply Z.div_lt_upper_bound; lia).
  destruct (Z.eqb_spec (v / 128) 0); [lia|]. by rewrite IH.
Qed.

(** ** Signed varints *)

Lemma denc_land_1 i : Z.land i 1 = i mod 2.
Proof. apply (Z.land_ones i 1). lia. Qed.
Lemma shiftr_1 v : Z.shiftr v 1 = v / 2.
Proof. by rewrite Z.shiftr_div_pow2. Qed.

Lemma signed_value v :
  - 2 ^ 62 < v < 2 ^ 62 →
  (if v <? 0 then Z.lor (s64 (Z.shiftl (s64 (- v)) 1)) 1 else s64 (Z.shiftl v 1))
  = 2 * Z.abs v + Z.b2z (v <? 0).
Proof.
  intros Hv. rewrite !Z.shiftl_mul_pow2 by lia. destruct (Z.ltb_spec v 0).
  - rewrite (s64_small (- v)), s64_small by lia. rewrite Z.lor_comm.
    rewrite (lor_add 1 (- v) 1) by lia. simpl. lia.
  - rewrite s64_small by lia. simpl. lia.
Qed.

Lemma denc_signed_varint_reads T v :
  - 2 ^ 62 < v < 2 ^ 62 → wrap T v = v →
  reads_back denc_signed_varint (undenc_signed_varint T) denc_signed_varint_bound v.
Proof.
  intros Hv HT. unfold reads_back, denc_signed_varint. rewrite signed_value by done.
  set (i := 2 * Z.abs v + Z.b2z (v <? 0)).
  assert (i mod 2 = Z.b2z (v <? 0) ∧ i / 2 = Z.abs v) as [Hm Hd].
  { unfold i. rewrite Z.mul_comm, Z.add_comm, Z.mod_add, Z.div_add by lia.
    destruct (v <? 0); (split; [done|]); [change (Z.b2z true / 2) with 0|change (Z.b2z false / 2) with 0]; lia. }
  destruct (denc_varint_any S64 i) as (bs & E & Hl & Hr).
  { unfold i. simpl. destruct (v <? 0); simpl; lia. }
  exists bs. unfold denc_signed_varint_bound. split_and!; [done|lia|]. intros rest.
  unfold undenc_signed_varint. rewrite Hr; simpl. rewrite denc_land_1, shiftr_1, Hm, Hd.
  destruct (Z.ltb_spec v 0); simpl.
  - replace (- Z.abs v) with v by lia. by rewrite HT.
  - replace (Z.abs v) with v by lia. by rewrite HT.
Qed.

(** ** Low zero nibbles *)

Lemma pos_ctz_nonneg p : 0 <= pos_ctz p.
Proof. induction p; simpl; lia. Qed.

Lemma pos_ctz_divide p : (2 ^ pos_ctz p | Zpos p).
Proof.
  induction p as [p IH|p IH|]; simpl; try apply Z.divide_1_l.
  rewrite Z.pow_add_r by (lia || apply pos_ctz_nonneg).
  rewrite (Pos2Z.inj_xO p). by apply Z.mul_divide_mono_l.
Qed.

(** Dropping at most the trailing zeros of a value loses nothing. *)
Lemma shiftr_exact v k :
  v ≠ 0 → 0 <= k <= ctz v → Z.shiftr v k * 2 ^ k = v.
Proof.
  intros Hv Hk. rewrite Z.shiftr_div_pow2 by lia. rewrite Z.mul_comm.
  symmetry. apply Z_div_exact_full_2; [pose proof (Z.pow_pos_nonneg 2 k); lia|].
  apply Z.mod_divide; [pose proof (Z.pow_pos_nonneg 2 k); lia|].
  apply (Z.divide_trans _ (2 ^ ctz v)).
  - exists (2 ^ (ctz v - k)). rewrite <- Z.pow_add_r by lia. f_equal. lia.
  - destruct v as [|p|p]; [done| |]; simpl; [apply pos_ctz_divide|].
    rewrite <- Pos2Z.opp_pos. apply Z.divide_opp_r, pos_ctz_divide.
Qed.

Lemma lowznib_range v : 0 <= lowznib v <= 3.
Proof.
  unfold lowznib. destruct (Z.eqb_spec v 0); [simpl; lia|].
  assert (0 <= ctz v / 4).
  { apply Z.div_pos; [|lia]. destruct v; simpl; [lia|apply pos_ctz_nonneg..]. }
  destruct (Z.ltb_spec 3 (ctz v / 4)); lia.
Qed.

Lemma lowznib_exact v : Z.shiftr v (lowznib v * 4) * 2 ^ (lowznib v * 4) = v.
Proof.
  destruct (Z.eq_dec v 0) as [->|Hv]; [done|]. pose proof (lowznib_range v).
  apply shiftr_exact; [done|]. split; [lia|]. revert H. unfold lowznib.
  rewrite (proj2 (Z.eqb_neq _ _) Hv). pose proof (Z.mul_div_le (ctz v) 4).
  destruct (Z.ltb_spec 3 (ctz v / 4)); lia.
Qed.

Lemma land_3 i : Z.land i 3 = i mod 4.
Proof. apply (Z.land_ones i 2). lia. Qed.

(** The domain: what is left of the value after its zero nibbles has 62 bits. *)
Definition lowz_fits (v : Z) : Prop := Z.shiftr v (lowznib v * 4) < 2 ^ 62.

Lemma lowz_fits_small v : 0 <= v < 2 ^ 62 → lowz_fits v.
Proof.
  intros Hv. unfold lowz_fits. pose proof (lowznib_range v) as Hn.
  rewrite Z.shiftr_div_pow2 by lia. pose proof (Z.pow_pos_nonneg 2 (lowznib v * 4)).
  apply (Z.le_lt_trans _ v); [|lia]. apply Z.div_le_upper_bound; nia.
Qed.

Lemma denc_varint_lowz_decodes v :
  0 <= v < 2 ^ 64 →
  ∃ bs, denc_varint_lowz v = Ok bs ∧ (length bs <= 10)%nat ∧ ∀ T rest,
    undenc_varint_lowz T (bs ++ rest) =
      Ok (wrap T (Z.shiftr v (lowznib v * 4) mod 2 ^ 62 * 2 ^ (lowznib v * 4)), rest).
Proof.
  intros Hv. unfold denc_varint_lowz. pose proof (lowznib_range v) as Hn.
  set (n := lowznib v) in *. set (k := Z.shiftr v (n * 4)).
  assert (u64 (Z.shiftl k 2) = (k mod 2 ^ 62) * 2 ^ 2) as ->.
  { unfold u64. rewrite Z.shiftl_mul_pow2 by lia. change (2 ^ 64) with (2 ^ 62 * 2 ^ 2).
    by rewrite Z.mul_mod_distr_r. }
  pose proof (Z.mod_pos_bound k (2 ^ 62)) as Hk.
  rewrite Z.lor_comm, lor_add by lia.
  destruct (denc_varint_any U64 (n + k mod 2 ^ 62 * 2 ^ 2)) as (bs & E & Hl & Hr); [simpl; lia|].
  exists bs. split_and!; [done|done|]. intros T rest. unfold undenc_varint_lowz.
  rewrite Hr; simpl bind. rewrite land_3, Z.shiftr_div_pow2, Z.shiftl_mul_pow2.
  - change (2 ^ 2) with 4. rewrite Z.mod_add, Z.div_add, (Z.mod_small n 4), (Z.div_small n 4) by lia.
    rewrite Z.add_0_l. do 3 f_equal. apply u64_small.
    assert (0 <= k) by (apply Z.shiftr_nonneg; lia).
    pose proof (Z.mod_le k (2 ^ 62) ltac:(lia) ltac:(lia)).
    pose proof (lowznib_exact v) as He. fold n in He. fold k in He.
    pose proof (Z.pow_pos_nonneg 2 (n * 4) ltac:(lia) ltac:(lia)). nia.
  - rewrite Z.mod_add by lia. pose proof (Z.mod_pos_bound n 4). lia.
  - lia.
Qed.

Lemma denc_varint_lowz_reads T v :
  0 <= v < 2 ^ 64 → wrap T v = v → lowz_fits v →
  reads_back denc_varint_lowz (undenc_varint_lowz T) denc_varint_lowz_bound v.
Proof.
  intros Hv HT Hf. destruct (denc_varint_lowz_decodes v Hv) as (bs & E & Hl & Hr).
  exists bs. unfold denc_varint_lowz_bound. split_and!; [done|lia|]. intros rest. rewrite Hr.
  unfold lowz_fits in Hf. assert (0 <= Z.shiftr v (lowznib v * 4)) by (apply Z.shiftr_nonneg; lia).
  rewrite Z.mod_small, lowznib_exact, HT by lia. done.
Qed.

(** The domain of the signed form: 60 bits are left. *)
Definition signed_lowz_fits (v : Z) : Prop :=
  Z.shiftr (Z.abs v) (lowznib (Z.abs v) * 4) < 2 ^ 60.

Lemma lor_fields k n b :
  0 <= n <= 3 → 0 <= b <= 1 → Z.lor (Z.lor (k * 8) (Z.shiftl n 1)) b = b + (n + k * 4) * 2.
Proof.
  intros Hn Hb. rewrite Z.shiftl_mul_pow2 by lia. rewrite (Z.lor_comm (k * 8)).
  change 8 with (2 ^ 3). rewrite (lor_add (n * 2 ^ 1) k 3) by lia.
  replace (n * 2 ^ 1 + k * 2 ^ 3) with ((n + k * 4) * 2 ^ 1) by lia.
  rewrite Z.lor_comm, lor_add by lia. lia.
Qed.

Lemma denc_signed_varint_lowz_reads T v :
  - 2 ^ 63 < v < 2 ^ 63 → wrap T v = v → signed_lowz_fits v →
  reads_back denc_signed_varint_lowz (undenc_signed_varint_lowz T)
    denc_signed_varint_lowz_bound v.
Proof.
  intros Hv HT Hf. unfold reads_back, denc_signed_varint_lowz, signed_lowz_fits in *.
  replace (if v <? 0 then s64 (- v) else v) with (Z.abs v)
    by (destruct (Z.ltb_spec v 0); [rewrite s64_small|]; lia).
  pose proof (lowznib_range (Z.abs v)) as Hn. pose proof (lowznib_exact (Z.abs v)) as He.
  set (n := lowznib (Z.abs v)) in *. set (k := Z.shiftr (Z.abs v) (n * 4)) in *.
  assert (0 <= k) as Hk by (apply Z.shiftr_nonneg; lia).
  rewrite Z.shiftl_mul_pow2 by lia. change (2 ^ 3) with 8. rewrite s64_small by lia.
  set (b := Z.b2z (v <? 0)). assert (0 <= b <= 1) as Hb by (unfold b; destruct (v <? 0); simpl; lia).
  rewrite lor_fields by done. set (i := b + (n + k * 4) * 2).
  destruct (denc_varint_any S64 i) as (bs & E & Hl & Hr); [unfold i; simpl; lia|].
  exists bs. unfold denc_signed_varint_lowz_bound. split_and!; [done|lia|]. intros rest.
  unfold undenc_signed_varint_lowz. rewrite Hr; simpl bind.
  assert (i mod 2 = b ∧ i / 2 = n + k * 4) as [Hi1 Hi2].
  { unfold i. rewrite Z.mod_add, Z.div_add, Z.mod_small, Z.div_small by lia. lia. }
  assert (Z.shiftr (Z.land i 6) 1 = n) as ->.
  { rewrite Z.shiftr_land, shiftr_1, Hi2. change (Z.shiftr 6 1) with 3.
    rewrite land_3, Z.mod_add, Z.mod_small by lia. done. }
  assert (Z.shiftr i 3 = k) as ->.
  { rewrite Z.shiftr_div_pow2 by lia. change (2 ^ 3) with (2 * 4).
    rewrite <- Z.div_div, Hi2, Z.div_add, Z.div_small by lia. lia. }
  rewrite Z.shiftl_mul_pow2, He, denc_land_1, Hi1 by lia. rewrite s64_small by lia.
  unfold b. destruct (Z.ltb_spec v 0); simpl.
  - replace (- Z.abs v) with v by lia. by rewrite HT.
  - replace (Z.abs v) with v by lia. by rewrite HT.
Qed.

(** ** Fixed-width integers *)

Lemma land_7 i : Z.land i 7 = i mod 8.
Proof. apply (Z.land_ones i 3). lia. Qed.
Lemma land_255 v : Z.land v 255 = v mod 256.
Proof. apply (Z.land_ones v 8). lia. Qed.

Lemma le_bytes_length n v : length (le_bytes n v) = n.
Proof. revert v; induction n; intros v; simpl; [done|]. by f_equal. Qed.

Lemma le_value_bytes n v : 0 <= v < 256 ^ Z.of_nat n → le_value (le_bytes n v) = v.
Proof.
  revert v; induction n as [|n IH]; intros v Hv; simpl; [simpl in Hv; lia|].
  rewrite land_255, Z.shiftr_div_pow2 by lia. change (2 ^ 8) with 256.
  pose proof (Z.mod_pos_bound v 256). rewrite IH.
  - rewrite lor_shiftl by lia. change (2 ^ 8) with 256. pose proof (Z.div_mod v 256). lia.
  - split; [apply Z.div_pos; lia|]. apply Z.div_lt_upper_bound; [lia|].
    rewrite <- Z.pow_succ_r, <- Nat2Z.inj_succ by lia. lia.
Qed.

Lemma get_bytes_app l rest : get_bytes (length l) (l ++ rest) = Ok (l, rest).
Proof.
  unfold get_bytes. rewrite bool_decide_eq_true_2 by (rewrite length_app; lia).
  by rewrite take_app_length, drop_app_length.
Qed.

Lemma get_le_bytes n v rest :
  0 <= v < 256 ^ Z.of_nat n → get_le n (le_bytes n v ++ rest) = Ok (v, rest).
Proof.
  intros Hv. unfold get_le. rewrite <- (le_bytes_length n v) at 1.
  rewrite get_bytes_app; simpl. by rewrite le_value_bytes.
Qed.

(** ** Logical block addresses *)

(** The first word: the tag [w] in the low [pos] bits, [d] in the next ones and
    [e] in the last. *)
Definition lba_word (w pos d e : Z) : Z := w + d * 2 ^ pos + e * 2 ^ 31.

Section LbaWord.
Context (w pos d e : Z) (Hpos : 1 <= pos <= 3) (Hw : 0 <= w < 2 ^ pos)
  (Hd : 0 <= d < 2 ^ (31 - pos)) (He : 0 <= e <= 1).

Lemma lba_word_data : d * 2 ^ pos + 2 ^ pos <= 2 ^ 31.
Proof.
  assert (2 ^ 31 = 2 ^ (31 - pos) * 2 ^ pos) as E by (rewrite <- Z.pow_add_r by lia; f_equal; lia).
  rewrite E. nia.
Qed.

Lemma lba_word_range : 0 <= lba_word w pos d e < 256 ^ 4.
Proof.
  pose proof lba_word_data. unfold lba_word.
  assert (0 <= d * 2 ^ pos) by (apply Z.mul_nonneg_nonneg; lia).
  change (256 ^ 4) with (2 ^ 31 + 2 ^ 31). lia.
Qed.

Lemma lba_word_tag : lba_word w pos d e mod 2 ^ pos = w.
Proof.
  unfold lba_word. replace (2 ^ 31) with (2 ^ (31 - pos) * 2 ^ pos)
    by (rewrite <- Z.pow_add_r by lia; f_equal; lia).
  rewrite Z.mul_assoc, Z.mod_add, Z.mod_add, Z.mod_small by lia. done.
Qed.

Lemma lba_word_mask :
  Z.land (lba_word w pos d e) (Z.shiftl (Z.ones (31 - pos)) pos) = d * 2 ^ pos.
Proof.
  rewrite land_shifted_mask by lia. unfold lba_word. replace (2 ^ 31) with (2 ^ (31 - pos) * 2 ^ pos)
    by (rewrite <- Z.pow_add_r by lia; f_equal; lia).
  rewrite Z.mul_assoc, !Z.div_add, (Z.div_small w), Z.add_0_l by lia.
  rewrite Z.mod_add, Z.mod_small by lia. done.
Qed.

Lemma lba_word_more : Z.land (u8 (Z.shiftr (lba_word w pos d e) 24)) 128 = e * 128.
Proof.
  change 128 with (Z.shiftl (Z.ones 1) 7) at 1. rewrite land_shifted_mask by lia. f_equal.
  unfold u8. rewrite Z.shiftr_div_pow2 by lia.
  change (2 ^ 8) with (2 ^ 7 * 2). rewrite Z.rem_mul_r by lia.
  rewrite Z.mul_comm, Z.div_add, (Z.div_small (_ mod _)) by (try lia; apply Z.mod_pos_bound; lia).
  rewrite Z.div_div by lia. change (2 ^ 24 * 2 ^ 7) with (2 ^ 31).
  unfold lba_word. pose proof lba_word_data.
  assert (0 <= d * 2 ^ pos) by (apply Z.mul_nonneg_nonneg; lia).
  rewrite Z.div_add, Z.div_small by lia. change (2 ^ 1) with 2.
  rewrite Z.add_0_l, Z.mod_mod, Z.mod_small by lia. done.
Qed.
End LbaWord.

(** The four forms of a word: its tag, where the data starts and the zero bits
    dropped. *)
Inductive lba_form : Z → Z → Z → Prop :=
| lba_byte : lba_form 7 3 0
| lba_4k : lba_form 0 1 12
| lba_64k : lba_form 1 2 16
| lba_1m : lba_form 3 3 20.

Lemma lba_head_form v :
  ∃ w pos k sh, lba_head v = (w, pos, k) ∧ lba_form w pos sh ∧ v = k * 2 ^ sh ∧
    k = Z.shiftr v sh.
Proof.
  unfold lba_head. set (z := if v =? 0 then 0 else ctz v / 4).
  destruct (Z.ltb_spec (z - 3) 0) as [L|L].
  { eexists _, _, _, _. split_and!; [done|constructor|lia|done]. }
  assert (v ≠ 0 ∧ z * 4 <= ctz v) as [Hv Hz].
  { unfold z in *. destruct (Z.eqb_spec v 0); [lia|]. pose proof (Z.mul_div_le (ctz v) 4). lia. }
  destruct (Z.ltb_spec (z - 3) 3) as [L'|L'].
  - assert (z = 3 ∨ z = 4 ∨ z = 5) as [Ez|[Ez|Ez]] by lia; rewrite Ez in *;
      (eexists _, _, _, _; split_and!; [done|constructor| |done]);
      symmetry; apply shiftr_exact; lia.
  - eexists _, _, _, _. split_and!; [done|constructor| |done].
    symmetry; apply shiftr_exact; lia.
Qed.

Lemma lba_form_range w pos sh :
  lba_form w pos sh → 1 <= pos <= 3 ∧ 0 <= w < 2 ^ pos ∧ 0 <= sh ∧ 28 <= 31 - pos + sh <= 48.
Proof. intros []; split_and!; simpl; lia. Qed.

(** The data of a word of each form. *)
Lemma undenc_lba_form w pos sh d e bs rest :
  lba_form w pos sh → 0 <= d < 2 ^ (31 - pos) → 0 <= e <= 1 →
  undenc_lba ((le_bytes 4 (lba_word w pos d e) ++ bs) ++ rest) =
    (if e =? 0 then Ok (d * 2 ^ sh, bs ++ rest)
     else unvarint_loop U64 (bs ++ rest) (d * 2 ^ sh) (31 - pos + sh)).
Proof.
  intros Hf Hd He. destruct (lba_form_range _ _ _ Hf) as (Hp & Hw & Hs & Hle).
  pose proof (lba_word_tag w pos d e Hp Hw) as Ht.
  pose proof (lba_word_mask w pos d e Hp Hw Hd) as Hm.
  unfold undenc_lba. rewrite <- app_assoc, get_le_bytes by (by apply lba_word_range).
  cbn [bind]. rewrite lba_word_more by done.
  replace (e * 128 =? 0) with (e =? 0) by (destruct (Z.eqb_spec e 0), (Z.eqb_spec (e * 128) 0); lia).
  set (W := lba_word w pos d e) in *. clearbody W. rewrite land_7.
  pose proof (Z.mod_pos_bound W 8). pose proof (Z.div_mod W 8). pose proof (Z.div_mod W (2 ^ pos)).
  assert (2 ^ (31 - pos) <= 2 ^ 30) by (apply Z.pow_le_mono_r; lia).
  destruct Hf;
    (match type of Hm with
     | Z.land W ?m = _ => let n := eval vm_compute in m in change m with n in Hm
     end);
    repeat (match goal with
            | |- context [W mod 8 =? ?x] => destruct (Z.eqb_spec (W mod 8) x); try lia
            end; simpl orb; cbv iota);
    rewrite Hm;
    (rewrite Z.shiftl_mul_pow2, u64_small, <- Z.mul_assoc, <- Z.pow_add_r by lia) ||
    (rewrite Z.shiftr_div_pow2, Z.div_mul, Z.mul_1_r by lia); done.
Qed.

Lemma denc_lba_word w pos k sh :
  lba_form w pos sh → 0 <= k →
  Z.lor w (Z.land (u64 (Z.shiftl k pos)) 2147483647)
  = lba_word w pos (k mod 2 ^ (31 - pos)) 0.
Proof.
  intros Hf Hk. destruct (lba_form_range _ _ _ Hf) as (Hp & Hw & _).
  rewrite (Z.land_ones _ 31), Z.shiftl_mul_pow2 by lia. unfold u64.
  change (2 ^ 64) with (2 ^ 31 * 2 ^ 33). rewrite Z.rem_mul_r by lia.
  rewrite (Z.mul_comm (2 ^ 31)), Z.mod_add, Z.mod_mod by lia.
  replace (2 ^ 31) with (2 ^ (31 - pos) * 2 ^ pos) by (rewrite <- Z.pow_add_r by lia; f_equal; lia).
  rewrite Z.mul_mod_distr_r, lor_add by lia. unfold lba_word. lia.
Qed.

Lemma denc_lba_reads v :
  0 <= v < 2 ^ 64 → reads_back denc_lba undenc_lba denc_lba_bound v.
Proof.
  intros Hv. unfold reads_back, denc_lba, denc_lba_bound.
  destruct (lba_head_form v) as (w & pos & k & sh & -> & Hf & Ev & Ek).
  destruct (lba_form_range _ _ _ Hf) as (Hp & Hw & Hs & Hle).
  assert (0 <= k) as Hk by (subst k; apply Z.shiftr_nonneg; lia).
  rewrite (denc_lba_word _ _ _ sh) by done. rewrite Z.shiftr_div_pow2 by lia.
  set (d := k mod 2 ^ (31 - pos)). set (q := k / 2 ^ (31 - pos)).
  assert (0 <= d < 2 ^ (31 - pos)) as Hd by (apply Z.mod_pos_bound, Z.pow_pos_nonneg; lia).
  assert (k = q * 2 ^ (31 - pos) + d) as Ekd
    by (rewrite (Z.mul_comm q); apply Z.div_mod; pose proof (Z.pow_pos_nonneg 2 (31 - pos)); lia).
  assert (v = d * 2 ^ sh + q * 2 ^ (31 - pos + sh)) as Evd.
  { rewrite Ev, Ekd, Z.pow_add_r by lia. ring. }
  destruct (Z.eqb_spec q 0) as [Hq|Hq].
  - eexists. split_and!; [done|by rewrite le_bytes_length|]. intros rest.
    rewrite <- (app_nil_r (le_bytes 4 _)). rewrite (undenc_lba_form _ _ sh) by (done || lia).
    simpl. do 2 f_equal. lia.
  - assert (0 < q) as Hq' by (pose proof (Z.div_pos k (2 ^ (31 - pos)) Hk); unfold q in *;
      pose proof (Z.pow_pos_nonneg 2 (31 - pos)); lia).
    assert (q < 128 ^ Z.of_nat 6) as Hq6.
    { pose proof (Z.pow_le_mono_r 2 28 (31 - pos + sh)). change (128 ^ Z.of_nat 6) with (2 ^ 42).
      assert (0 <= d * 2 ^ sh) by (apply Z.mul_nonneg_nonneg; lia). nia. }
    destruct (put_varint_ok 5 q 10) as (bs & E & Hl & Hr); [lia|lia|].
    unfold put_varint in E. rewrite E; cbn [bind]. eexists. split_and!; [done| |].
    + rewrite length_app, le_bytes_length. lia.
    + intros rest.
      assert (Z.lor (lba_word w pos d 0) 2147483648 = lba_word w pos d 1) as ->.
      { pose proof (lba_word_data pos d Hp Hd). unfold lba_word in *.
        assert (0 <= d * 2 ^ pos) by (apply Z.mul_nonneg_nonneg; lia).
        change 2147483648 with (1 * 2 ^ 31). rewrite lor_add by lia. lia. }
      rewrite (undenc_lba_form _ _ sh) by (done || lia). simpl.
      rewrite Hr; [|simpl; lia| |].
      * by rewrite Evd.
      * rewrite Z.pow_add_r by lia. pose proof (Z.pow_pos_nonneg 2 sh). nia.
      * simpl. lia.
Qed.

(** ** The encodings as a whole *)

Lemma signed_lowz_fits_small v : - 2 ^ 60 < v < 2 ^ 60 → signed_lowz_fits v.
Proof.
  intros Hv. unfold signed_lowz_fits. pose proof (lowznib_range (Z.abs v)) as Hn.
  rewrite Z.shiftr_div_pow2 by lia. pose proof (Z.pow_pos_nonneg 2 (lowznib (Z.abs v) * 4)).
  apply (Z.le_lt_trans _ (Z.abs v)); [|lia]. apply Z.div_le_upper_bound; nia.
Qed.

(** [C29] Integers survive each of the compact encodings: whatever follows them in
    the buffer, they are read back, and nothing of what follows is consumed.  A
    block address may be any 64-bit value; the forms that spend low bits on a sign
    or a count of zero nibbles have their values below 2^62 or 2^60; all but the
    plain varint fit in the bytes reserved. *)
Theorem denc_integers_roundtrip v :
  0 <= v < 2 ^ 64 →
  reads_back denc_varint (undenc_varint U64) 10 v ∧
  reads_back denc_lba undenc_lba denc_lba_bound v ∧
  (v < 2 ^ 62 →
     reads_back denc_varint_lowz (undenc_varint_lowz U64) denc_varint_lowz_bound v ∧
     reads_back denc_signed_varint (undenc_signed_varint S64) denc_signed_varint_bound v ∧
     reads_back denc_signed_varint (undenc_signed_varint S64) denc_signed_varint_bound (- v)) ∧
  (v < 2 ^ 60 →
     reads_back denc_signed_varint_lowz (undenc_signed_varint_lowz S64)
       denc_signed_varint_lowz_bound v ∧
     reads_back denc_signed_varint_lowz (undenc_signed_varint_lowz S64)
       denc_signed_varint_lowz_bound (- v)).
Proof.
  intros Hv. split_and!.
  - apply (denc_varint_reads U64 v 9); simpl; lia.
  - by apply denc_lba_reads.
  - intros H. split_and!.
    + apply denc_varint_lowz_reads; [done|by apply u64_small|apply lowz_fits_small; lia].
    + apply denc_signed_varint_reads; [lia|apply s64_small; lia].
    + apply denc_signed_varint_reads; [lia|apply s64_small; lia].
  - intros H. split; (apply denc_signed_varint_lowz_reads; [lia|apply s64_small; lia|]);
      apply signed_lowz_fits_small; lia.
Qed.

Lemma denc_integers_roundtrip_witness :
  reads_back denc_lba undenc_lba denc_lba_bound (5 * 2 ^ 20) ∧
  reads_back denc_signed_varint_lowz (undenc_signed_varint_lowz S64)
    denc_signed_varint_lowz_bound (- (5 * 2 ^ 20)).
Proof.
  destruct (denc_integers_roundtrip (5 * 2 ^ 20)) as (_ & H1 & _ & H2); [lia|].
  split; [exact H1|]. apply H2. lia.
Defined.

(** A 64-bit value of 2^63 or more is written as a varint of ten bytes, one
    more than the nine reserved for it. *)
Theorem varint_reserve_short v :
  2 ^ 63 <= v < 2 ^ 64 →
  ∃ bs, denc_varint v = Ok bs ∧ Z.of_nat (length bs) = denc_varint_bound U64 + 1.
Proof.
  intros Hv. destruct (denc_varint_reads U64 v 9) as (bs & E & L & _); [simpl; lia..|].
  exists bs. split; [done|]. pose proof (put_varint_long 9 v 10 bs ltac:(simpl; lia) E).
  unfold denc_varint_bound; simpl. lia.
Qed.

Lemma varint_reserve_short_witness :
  ∃ bs, denc_varint (2 ^ 64 - 1) = Ok bs ∧ Z.of_nat (length bs) = denc_varint_bound U64 + 1.
Proof. apply varint_reserve_short. lia. Defined.

(** The signed encoder shifts its argument left before it loops: from 2^62 on
    in absolute value the sign bit is set, the arithmetic shift never reaches zero
    and no number of turns ends the loop. *)
Theorem signed_varint_diverges v :
  2 ^ 62 <= Z.abs v < 2 ^ 63 →
  ∀ fuel, let w := if v <? 0 then Z.lor (s64 (Z.shiftl (s64 (- v)) 1)) 1
                   else s64 (Z.shiftl v 1) in
    varint_loop fuel (Z.shiftr w 7) (Z.land w 127) = Err OutOfFuel.
Proof.
  intros Hv fuel w. apply put_varint_negative. unfold w.
  assert (∀ x, 2 ^ 62 <= x < 2 ^ 63 → s64 (Z.shiftl x 1) < 0) as Hs.
  { intros x Hx. rewrite Z.shiftl_mul_pow2 by lia. unfold s64.
    replace (x * 2 ^ 1 + 2 ^ 63) with ((x * 2 - 2 ^ 63) + 1 * 2 ^ 64) by lia.
    rewrite Z.mod_add, Z.mod_small by lia. lia. }
  destruct (Z.ltb_spec v 0).
  - rewrite (s64_small (- v)) by lia. apply Z.lor_neg. left. apply Hs. lia.
  - apply Hs. lia.
Qed.

Lemma signed_varint_diverges_witness :
  ∀ fuel, let w := s64 (Z.shiftl (2 ^ 62) 1) in
    varint_loop fuel (Z.shiftr w 7) (Z.land w 127) = Err OutOfFuel.
Proof. intros fuel. apply (signed_varint_diverges (2 ^ 62)). lia. Defined.

(** The encoding that counts zero nibbles is exact about its domain: a value
    is read back if and only if what its zero nibbles leave has at most 62 bits;
    any other loses its top bits. *)
Theorem lowz_roundtrip_iff v :
  0 <= v < 2 ^ 64 →
  ∃ bs, denc_varint_lowz v = Ok bs ∧
    (undenc_varint_lowz U64 bs = Ok (v, []) ↔ lowz_fits v).
Proof.
  intros Hv. destruct (denc_varint_lowz_decodes v Hv) as (bs & E & _ & R). exists bs. split; [done|].
  pose proof (R U64 []) as H. rewrite app_nil_r in H. rewrite H. clear R H E.
  pose proof (lowznib_exact v) as He. unfold lowz_fits. pose proof (lowznib_range v).
  set (k := Z.shiftr v (lowznib v * 4)) in *.
  assert (0 <= k) by (apply Z.shiftr_nonneg; lia).
  pose proof (Z.pow_pos_nonneg 2 (lowznib v * 4) ltac:(lia) ltac:(lia)) as Hp.
  pose proof (Z.mod_pos_bound k (2 ^ 62)). pose proof (Z.mod_le k (2 ^ 62)).
  simpl wrap. rewrite u64_small by nia. split.
  - intros E. injection E as E. rewrite <- He in E at 2. apply Z.mul_cancel_r in E; lia.
  - intros Hk. rewrite Z.mod_small by lia. by rewrite He.
Qed.

Lemma lowz_roundtrip_iff_witness :
  ∃ bs, denc_varint_lowz (2 ^ 63 + 1) = Ok bs ∧
    (undenc_varint_lowz U64 bs = Ok (2 ^ 63 + 1, []) ↔ lowz_fits (2 ^ 63 + 1)).
Proof. apply lowz_roundtrip_iff. lia. Defined.

End Denc.
