(* ===== verification/BlueTypes.v ===== *)
(** * The on-disk types of BlueStore and BlueFS
      (os/bluestore/bluestore_types.h, os/bluestore/bluefs_types.h)

    Structures that are stored in the compact encodings of [Denc].  A [DENC] body
    stands for three functions, the bytes to reserve, the encoder and the decoder;
    [Codec] is that interface, [CodecLaws] what a structure promises to the one
    that contains it, and the containers are proved against the laws alone. *)
From S2P Require Import Prelude StdMap RefMap Denc.
Import Denc.

(** ** The interface *)

Class Codec (A : Type) : Type := {
  bound_encode : A → Z;
  encode : A → res (list Z);
  decode : list Z → res (A * list Z)
}.

Class CodecLaws (A : Type) {C : Codec A} : Type := {
  in_domain : A → Prop;
  codec_reads : ∀ a, in_domain a → reads_back encode decode (bound_encode a) a
}.

(** ** Containers *)

Section Containers.
Context {A : Type} {C : Codec A}.

Fixpoint encode_nohead (s : list A) : res (list Z) :=
  match s with
  | [] => Ok []
  | e :: s =>
      b <- encode e;;
      bs <- encode_nohead s;;
      Ok (b ++ bs)
  end.

Fixpoint decode_nohead (num : nat) (l : list Z) : res (list A * list Z) :=
  match num with
  | O => Ok ([], l)
  | S num =>
      '(e, l) <- decode l;;
      '(s, l) <- decode_nohead num l;;
      Ok (e :: s, l)
  end.

Definition bound_sum (s : list A) : Z := foldr (λ e n, bound_encode e + n) 0 s.

(** [_denc::container_base] of a [std::vector] whose elements are not bounded. *)
#[export] Instance vector_codec : Codec (list A) := {
  bound_encode s := 4 + bound_sum s;
  encode s :=
    bs <- encode_nohead s;;
    Ok (le_bytes 4 (u32 (Z.of_nat (length s))) ++ bs);
  decode l :=
    '(num, l) <- get_le 4 l;;
    decode_nohead (Z.to_nat num) l
}.

Context {L : CodecLaws A}.

Lemma nohead_reads s :
  Forall in_domain s →
  ∃ bs, encode_nohead s = Ok bs ∧ Z.of_nat (length bs) <= bound_sum s ∧
    ∀ rest, decode_nohead (length s) (bs ++ rest) = Ok (s, rest).
Proof.
  induction 1 as [|e s He Hs (bs & E & Hl & Hr)]; simpl; [by exists []|].
  destruct (codec_reads e He) as (b & -> & Hlb & Hrb). rewrite E. exists (b ++ bs).
  split_and!; [done|rewrite length_app; lia|]. intros rest.
  rewrite <- app_assoc, Hrb; simpl. by rewrite Hr.
Qed.

Lemma vector_reads s :
  Z.of_nat (length s) < 2 ^ 32 ∧ Forall in_domain s →
  reads_back encode decode (bound_encode s) s.
Proof.
  intros [Hl Hs]. destruct (nohead_reads s Hs) as (bs & E & Hb & Hr).
  unfold reads_back; cbn [encode bound_encode decode vector_codec]. rewrite E, u32_small by lia. cbn [bind].
  eexists. split_and!; [done| |].
  - rewrite length_app, le_bytes_length. lia.
  - intros rest. rewrite <- app_assoc, get_le_bytes by (simpl; lia).
    cbn [bind]. by rewrite Nat2Z.id.
Qed.

#[export] Instance vector_laws : CodecLaws (list A) := {
  in_domain s := Z.of_nat (length s) < 2 ^ 32 ∧ Forall in_domain s;
  codec_reads := vector_reads
}.
End Containers.

(** ** Versioned structures *)

(** [DENC_START(v, compat, p)] ... [DENC_FINISH(p)] around a body. *)
Definition frame_bound (n : Z) : Z := 2 + 4 + n.

Definition frame_encode (v compat : Z) (body : res (list Z)) : res (list Z) :=
  bs <- body;;
  Ok (le_bytes 1 v ++ le_bytes 1 compat ++ le_bytes 4 (u32 (Z.of_nat (length bs))) ++ bs).

Definition frame_decode {A} (body : list Z → res (A * list Z)) (l : list Z) :
    res (A * list Z) :=
  '(_, l) <- get_le 1 l;;
  '(_, l) <- get_le 1 l;;
  '(struct_len, l) <- get_le 4 l;;
  '(a, l1) <- body l;;
  let used := Z.of_nat (length l) - Z.of_nat (length l1) in
  assert (used <=? struct_len);;;
  '(_, l2) <- get_bytes (Z.to_nat (struct_len - used)) l1;;
  Ok (a, l2).

(** A decoder skips what a newer encoder added at the end of the body. *)
Lemma frame_decode_newer {A} (dec : list Z → res (A * list Z)) v compat bs extra a rest :
  0 <= v < 256 → 0 <= compat < 256 → Z.of_nat (length (bs ++ extra)) < 2 ^ 32 →
  (∀ rest, dec (bs ++ rest) = Ok (a, rest)) →
  frame_decode dec
    ((le_bytes 1 v ++ le_bytes 1 compat ++
      le_bytes 4 (u32 (Z.of_nat (length (bs ++ extra)))) ++ bs ++ extra) ++ rest) = Ok (a, rest).
Proof.
  intros Hv Hc Hl Hr. unfold frame_decode. rewrite <- !app_assoc.
  rewrite get_le_bytes by (simpl; lia). cbn [bind].
  rewrite get_le_bytes by (simpl; lia). cbn [bind].
  rewrite u32_small by lia. rewrite get_le_bytes by (simpl; lia). cbn [bind].
  rewrite Hr. cbn [bind]. rewrite !length_app.
  rewrite assert_true by (apply Z.leb_le; lia). cbn [bind].
  replace (Z.to_nat _) with (length extra) by lia. by rewrite get_bytes_app.
Qed.

Lemma frame_reads {A} (enc : A → res (list Z)) dec v compat n a :
  0 <= v < 256 → 0 <= compat < 256 → n < 2 ^ 32 → reads_back enc dec n a →
  reads_back (λ a, frame_encode v compat (enc a)) (frame_decode dec) (frame_bound n) a.
Proof.
  intros Hv Hc Hn (bs & E & Hl & Hr). unfold reads_back, frame_encode. rewrite E. cbn [bind].
  eexists. split_and!; [done| |].
  - rewrite !length_app, !le_bytes_length. unfold frame_bound. lia.
  - intros rest. pose proof (frame_decode_newer dec v compat bs [] a rest) as H.
    rewrite app_nil_r in H. apply H; try done. lia.
Qed.

(** ** [bluestore_pextent_t] and [PExtentVector] *)

Module Pextent.

Record bluestore_pextent_t : Type := mk { offset : Z; length : Z }.

Definition INVALID_OFFSET : Z := 2 ^ 64 - 1.
Definition is_valid (e : bluestore_pextent_t) : bool := negb (offset e =? INVALID_OFFSET).

Definition pextent_encode (e : bluestore_pextent_t) : res (list Z) :=
  b1 <- denc_lba (offset e);;
  b2 <- denc_varint_lowz (length e);;
  Ok (b1 ++ b2).
Definition pextent_decode (l : list Z) : res (bluestore_pextent_t * list Z) :=
  '(o, l) <- undenc_lba l;;
  '(n, l) <- undenc_varint_lowz U32 l;;
  Ok (mk o n, l).

#[export] Instance pextent_codec : Codec bluestore_pextent_t := {
  bound_encode _ := denc_lba_bound + denc_varint_lowz_bound;
  encode := pextent_encode;
  decode := pextent_decode
}.

Definition pextent_ok (e : bluestore_pextent_t) : Prop :=
  0 <= offset e < 2 ^ 64 ∧ 0 <= length e < 2 ^ 32.

Lemma pextent_reads e : pextent_ok e → reads_back encode decode (bound_encode e) e.
Proof.
  intros [Ho Hl]. destruct (denc_lba_reads (offset e) Ho) as (b1 & E1 & L1 & R1).
  destruct (denc_varint_lowz_reads U32 (length e)) as (b2 & E2 & L2 & R2).
  { lia. } { by apply u32_small. } { apply lowz_fits_small; lia. }
  exists (b1 ++ b2). simpl. unfold pextent_encode. rewrite E1, E2. split_and!; [done| |].
  - rewrite length_app. lia.
  - intros rest. unfold pextent_decode. rewrite <- app_assoc, R1; simpl. rewrite R2; simpl.
    by destruct e.
Qed.

#[export] Instance pextent_laws : CodecLaws bluestore_pextent_t := {
  in_domain := pextent_ok;
  codec_reads := pextent_reads
}.

(** [denc_traits<PExtentVector>], whose count is a varint. *)
Definition PExtentVector_bound (v : list bluestore_pextent_t) : Z :=
  4 + match v with
      | [] => 0
      | e :: _ => bound_encode e * Z.of_nat (List.length v)
      end.
Definition PExtentVector_encode (v : list bluestore_pextent_t) : res (list Z) :=
  b <- denc_varint (Z.of_nat (List.length v));;
  bs <- encode_nohead v;;
  Ok (b ++ bs).
Definition PExtentVector_decode (l : list Z) : res (list bluestore_pextent_t * list Z) :=
  '(num, l) <- undenc_varint U32 l;;
  decode_nohead (Z.to_nat num) l.

Lemma pextent_bound_sum v : bound_sum v = 20 * Z.of_nat (List.length v).
Proof.
  induction v as [|e v IH]; [done|]. unfold bound_sum in *. cbn [foldr List.length]. rewrite IH.
  change (bound_encode e) with 20. lia.
Qed.

Lemma PExtentVector_reads v :
  Z.of_nat (List.length v) < 2 ^ 28 → Forall pextent_ok v →
  reads_back PExtentVector_encode PExtentVector_decode (PExtentVector_bound v) v.
Proof.
  intros Hn Hv.
  destruct (denc_varint_reads U32 (Z.of_nat (List.length v)) 3) as (b & E & L & R);
    [simpl; lia|simpl; lia|lia|].
  destruct (nohead_reads (L := pextent_laws) v Hv) as (bs & E' & L' & R').
  exists (b ++ bs). unfold PExtentVector_encode. rewrite E, E'. split_and!; [done| |].
  - rewrite length_app. rewrite pextent_bound_sum in L'. unfold PExtentVector_bound.
    destruct v as [|e v]; [simpl in *; lia|]. change (bound_encode e) with 20. lia.
  - intros rest. unfold PExtentVector_decode. rewrite <- app_assoc, R; simpl. by rewrite Nat2Z.id.
Qed.

(** The extents of a blob survive being stored. *)
Theorem pextents_roundtrip v :
  Z.of_nat (List.length v) < 2 ^ 28 → Forall pextent_ok v →
  reads_back PExtentVector_encode PExtentVector_decode (PExtentVector_bound v) v.
Proof. apply PExtentVector_reads. Qed.

Lemma pextents_roundtrip_witness :
  reads_back PExtentVector_encode PExtentVector_decode
    (PExtentVector_bound [mk 65536 4096; mk INVALID_OFFSET 4096])
    [mk 65536 4096; mk INVALID_OFFSET 4096].
Proof.
  apply pextents_roundtrip; [simpl; lia|].
  repeat constructor; simpl; unfold INVALID_OFFSET; lia.
Defined.
End Pextent.

(** ** BlueFS *)

Module BlueFS.

(** Fixed-width fields ([denc] of an integer). *)
Definition denc_u8 (v : Z) : list Z := le_bytes 1 v.
Definition denc_u32 (v : Z) : list Z := le_bytes 4 v.

Record bluefs_extent_t : Type := Extent { offset : Z; length : Z; bdev : Z }.

Definition extent_body (e : bluefs_extent_t) : res (list Z) :=
  b1 <- denc_lba (offset e);;
  b2 <- denc_varint_lowz (length e);;
  Ok (b1 ++ b2 ++ denc_u8 (bdev e)).
Definition extent_unbody (l : list Z) : res (bluefs_extent_t * list Z) :=
  '(o, l) <- undenc_lba l;;
  '(n, l) <- undenc_varint_lowz U32 l;;
  '(d, l) <- get_le 1 l;;
  Ok (Extent o n d, l).

#[export] Instance extent_codec : Codec bluefs_extent_t := {
  bound_encode _ := frame_bound (denc_lba_bound + denc_varint_lowz_bound + 1);
  encode e := frame_encode 1 1 (extent_body e);
  decode := frame_decode extent_unbody
}.

Definition extent_ok (e : bluefs_extent_t) : Prop :=
  0 <= offset e < 2 ^ 64 ∧ 0 <= length e < 2 ^ 32 ∧ 0 <= bdev e < 256.

Lemma extent_body_reads e :
  extent_ok e →
  reads_back extent_body extent_unbody (denc_lba_bound + denc_varint_lowz_bound + 1) e.
Proof.
  intros (Ho & Hl & Hd). destruct (denc_lba_reads (offset e) Ho) as (b1 & E1 & L1 & R1).
  destruct (denc_varint_lowz_reads U32 (length e)) as (b2 & E2 & L2 & R2).
  { lia. } { by apply u32_small. } { apply lowz_fits_small; lia. }
  exists (b1 ++ b2 ++ denc_u8 (bdev e)). unfold extent_body. rewrite E1, E2. split_and!; [done| |].
  - rewrite !length_app. unfold denc_u8. rewrite le_bytes_length. lia.
  - intros rest. unfold extent_unbody. rewrite <- !app_assoc, R1; cbn [bind].
    rewrite R2; cbn [bind]. unfold denc_u8. rewrite get_le_bytes by (simpl; lia).
    by destruct e.
Qed.

Lemma extent_reads e : extent_ok e → reads_back encode decode (bound_encode e) e.
Proof. intros He. apply frame_reads; [lia..|by vm_compute|]. by apply extent_body_reads. Qed.

#[export] Instance extent_laws : CodecLaws bluefs_extent_t := {
  in_domain := extent_ok;
  codec_reads := extent_reads
}.

Record bluefs_fnode_t : Type := Fnode {
  ino : Z; size : Z; mtime : Z * Z; prefer_bdev : Z;
  extents : list bluefs_extent_t; allocated : Z
}.

Definition get_allocated (f : bluefs_fnode_t) : Z := allocated f.

Definition recalc_allocated (f : bluefs_fnode_t) : bluefs_fnode_t :=
  Fnode (ino f) (size f) (mtime f) (prefer_bdev f) (extents f)
    (foldl (λ a e, u64 (a + length e)) 0 (extents f)).

Definition fnode_body (f : bluefs_fnode_t) : res (list Z) :=
  b1 <- denc_varint (ino f);;
  b2 <- denc_varint (size f);;
  b3 <- encode (extents f);;
  Ok (b1 ++ b2 ++ denc_u32 (mtime f).1 ++ denc_u32 (mtime f).2 ++
      denc_u8 (prefer_bdev f) ++ b3).

(** Decoding fills a new [bluefs_fnode_t]; [allocated] is not among the fields. *)
Definition fnode_unbody (l : list Z) : res (bluefs_fnode_t * list Z) :=
  '(i, l) <- undenc_varint U64 l;;
  '(s, l) <- undenc_varint U64 l;;
  '(sec, l) <- get_le 4 l;;
  '(nsec, l) <- get_le 4 l;;
  '(d, l) <- get_le 1 l;;
  '(x, l) <- decode l;;
  Ok (Fnode i s (sec, nsec) d x 0, l).

#[export] Instance fnode_codec : Codec bluefs_fnode_t := {
  bound_encode f := frame_bound (denc_varint_bound U64 + denc_varint_bound U64 +
    4 + 4 + 1 + bound_encode (extents f));
  encode f := frame_encode 1 1 (fnode_body f);
  decode := frame_decode fnode_unbody
}.

(** The numbers are within their types, those written as varints below 2^63. *)
Definition fnode_ok (f : bluefs_fnode_t) : Prop :=
  0 <= ino f < 2 ^ 63 ∧ 0 <= size f < 2 ^ 63 ∧
  0 <= (mtime f).1 < 2 ^ 32 ∧ 0 <= (mtime f).2 < 2 ^ 32 ∧ 0 <= prefer_bdev f < 256 ∧
  Z.of_nat (List.length (extents f)) < 2 ^ 24 ∧ Forall extent_ok (extents f).

Definition forget_allocated (f : bluefs_fnode_t) : bluefs_fnode_t :=
  Fnode (ino f) (size f) (mtime f) (prefer_bdev f) (extents f) 0.

Lemma extent_bound_sum s : bound_sum (A := bluefs_extent_t) s = 27 * Z.of_nat (List.length s).
Proof.
  induction s as [|e s IH]; [done|]. unfold bound_sum in *. cbn [foldr List.length]. rewrite IH.
  change (bound_encode e) with 27. lia.
Qed.

Lemma fnode_body_reads f :
  fnode_ok f →
  ∃ bs, fnode_body f = Ok bs ∧
    Z.of_nat (List.length bs) <= 27 + bound_encode (extents f) ∧
    ∀ rest, fnode_unbody (bs ++ rest) = Ok (forget_allocated f, rest).
Proof.
  intros (Hi & Hs & Hm1 & Hm2 & Hp & Hx & Hxs).
  destruct (denc_varint_reads U64 (ino f) 8) as (b1 & E1 & L1 & R1); [simpl; lia|simpl; lia|lia|].
  destruct (denc_varint_reads U64 (size f) 8) as (b2 & E2 & L2 & R2); [simpl; lia|simpl; lia|lia|].
  destruct (codec_reads (CodecLaws := vector_laws (L := extent_laws)) (extents f)) as (b3 & E3 & L3 & R3); [split; [lia|done]|].
  unfold fnode_body. rewrite E1, E2, E3. cbn [bind]. eexists. split_and!; [done| |].
  - rewrite !length_app. unfold denc_u32, denc_u8. rewrite !le_bytes_length. lia.
  - intros rest. unfold fnode_unbody, denc_u32, denc_u8. rewrite <- !app_assoc, R1; cbn [bind].
    rewrite R2; cbn [bind]. do 2 (rewrite get_le_bytes by (simpl; lia); cbn [bind]).
    rewrite get_le_bytes by (simpl; lia); cbn [bind]. rewrite R3. cbn [bind].
    unfold forget_allocated. by destruct (mtime f).
Qed.

(** A file node survives being stored, for newer writers too: it is written in
    the bytes reserved for it, and a body that a newer version has made longer is
    read back as the fields known here, the rest being skipped. *)
Theorem fnode_roundtrip f :
  fnode_ok f →
  ∃ body, fnode_body f = Ok body ∧
    (∃ bs, encode f = Ok bs ∧ Z.of_nat (List.length bs) <= bound_encode f) ∧
    ∀ v compat extra rest, 0 <= v < 256 → 0 <= compat < 256 →
      Z.of_nat (List.length (body ++ extra)) < 2 ^ 32 →
      ∃ bs, frame_encode v compat (Ok (body ++ extra)) = Ok bs ∧
        decode (bs ++ rest) = Ok (forget_allocated f, rest).
Proof.
  intros Hf. destruct (fnode_body_reads f Hf) as (body & E & L & R). exists body. split_and!; [done|..].
  - cbn [encode bound_encode fnode_codec]. rewrite E. eexists. split; [done|].
    rewrite !length_app, !le_bytes_length. unfold frame_bound, denc_varint_bound. simpl sizeof. lia.
  - intros v compat extra rest Hv Hc Hl. eexists. split; [done|].
    by apply frame_decode_newer.
Qed.

Lemma fnode_roundtrip_witness :
  ∃ body, fnode_body (Fnode 5 8000 (1500000000, 7) 1 [Extent 65536 8192 1] 8192) = Ok body.
Proof.
  destruct (fnode_roundtrip (Fnode 5 8000 (1500000000, 7) 1 [Extent 65536 8192 1] 8192))
    as (body & E & _); [|by exists body].
  split_and!; simpl; try lia. repeat constructor; simpl; lia.
Defined.

(** What a file node read from the disk says about its space: [allocated] is
    not stored and decoding does not recompute it, so a node with extents reports
    no allocated bytes. *)
Theorem fnode_decode_loses_allocated f :
  fnode_ok f →
  ∃ bs g, encode f = Ok bs ∧ decode bs = Ok (g, []) ∧
    extents g = extents f ∧ get_allocated g = 0 ∧
    get_allocated (recalc_allocated g) = get_allocated (recalc_allocated f).
Proof.
  intros Hf. destruct (fnode_body_reads f Hf) as (body & E & L & R).
  eexists _, (forget_allocated f). cbn [encode fnode_codec]. rewrite E. split_and!; [done| |done..].
  pose proof (frame_decode_newer fnode_unbody 1 1 body [] (forget_allocated f) []) as H.
  rewrite !app_nil_r in H. apply H; try done; try lia.
  cbn [bound_encode vector_codec] in L. rewrite extent_bound_sum in L.
  destruct Hf as (_ & _ & _ & _ & _ & Hx & _). lia.
Qed.

Lemma fnode_decode_loses_allocated_witness :
  ∃ bs g, encode (Fnode 5 8000 (1500000000, 7) 1 [Extent 65536 8192 1] 8192) = Ok bs ∧
    decode bs = Ok (g, []) ∧ extents g = [Extent 65536 8192 1] ∧ get_allocated g = 0 ∧
    get_allocated (recalc_allocated g) = 8192.
Proof.
  apply (fnode_decode_loses_allocated (Fnode 5 8000 (1500000000, 7) 1 [Extent 65536 8192 1] 8192)).
  split_and!; simpl; try lia. repeat constructor; simpl; lia.
Defined.
End BlueFS.

(** ** [bluestore_extent_ref_map_t] on disk *)

Module RefMapDenc.
Import ExtentRefMap.

Definition record_encode (r : record_t) : res (list Z) :=
  b1 <- denc_varint_lowz (rlen r);;
  b2 <- denc_varint (refs r);;
  Ok (b1 ++ b2).
Definition record_decode (l : list Z) : res (record_t * list Z) :=
  '(n, l) <- undenc_varint_lowz U32 l;;
  '(c, l) <- undenc_varint U32 l;;
  Ok (Rec n c, l).

(** The [while (--n)] of [encode]: each offset as its distance from the last. *)
Fixpoint encode_rest (pos : Z) (m : map_t) : res (list Z) :=
  match m with
  | [] => Ok []
  | (f, r) :: m =>
      b1 <- denc_varint_lowz (u64 (s64 (s64 f - pos)));;
      b2 <- record_encode r;;
      bs <- encode_rest (s64 f) m;;
      Ok (b1 ++ b2 ++ bs)
  end.

Definition refmap_encode (m : map_t) : res (list Z) :=
  b <- denc_varint (u32 (Z.of_nat (length m)));;
  match m with
  | [] => Ok b
  | (f, r) :: m =>
      b1 <- denc_varint_lowz f;;
      b2 <- record_encode r;;
      bs <- encode_rest (s64 f) m;;
      Ok (b ++ b1 ++ b2 ++ bs)
  end.

Fixpoint decode_rest (n : nat) (pos : Z) (m : map_t) (l : list Z) : res (map_t * list Z) :=
  match n with
  | O => Ok (m, l)
  | S n =>
      '(delta, l) <- undenc_varint_lowz S64 l;;
      let pos := s64 (pos + delta) in
      '(r, l) <- record_decode l;;
      decode_rest n pos (map_set (u64 pos) r m) l
  end.

(** Decoding into an empty map. *)
Definition refmap_decode (l : list Z) : res (map_t * list Z) :=
  '(n, l) <- undenc_varint U32 l;;
  if n =? 0 then Ok ([], l)
  else
    '(pos, l) <- undenc_varint_lowz S64 l;;
    '(r, l) <- record_decode l;;
    decode_rest (Z.to_nat (n - 1)) pos (map_set (u64 pos) r []) l.

#[export] Instance refmap_codec : Codec map_t := {
  bound_encode m :=
    denc_varint_bound U32 +
    (denc_varint_lowz_bound + (denc_varint_lowz_bound + denc_varint_bound U32)) *
      Z.of_nat (length m);
  encode := refmap_encode;
  decode := refmap_decode
}.

(** The offsets leave room for the two bits the encoding takes. *)
Definition refmap_ok (m : map_t) : Prop :=
  wf m ∧ end_of 0 m < 2 ^ 62 ∧ Z.of_nat (length m) < 2 ^ 32.

Lemma record_reads r :
  0 < rlen r < 2 ^ 32 → 0 < refs r < 2 ^ 32 → reads_back record_encode record_decode 15 r.
Proof.
  intros Hl Hr. destruct (denc_varint_lowz_reads U32 (rlen r)) as (b1 & E1 & L1 & R1).
  { lia. } { apply u32_small; lia. } { apply lowz_fits_small; lia. }
  destruct (denc_varint_reads U32 (refs r) 4) as (b2 & E2 & L2 & R2); [simpl; lia|simpl; lia|lia|].
  exists (b1 ++ b2). unfold record_encode. rewrite E1, E2. split_and!; [done| |].
  - rewrite length_app. unfold denc_varint_lowz_bound in L1. lia.
  - intros rest. unfold record_decode. rewrite <- app_assoc, R1; simpl. rewrite R2; simpl.
    by destruct r.
Qed.

Lemma rest_reads m : ∀ pos pre,
  wf_from pos (-1) m → 0 <= pos → end_of pos m < 2 ^ 62 →
  ∀ f, 0 <= f < pos → keys_below pos pre →
  ∃ bs, encode_rest f m = Ok bs ∧ Z.of_nat (length bs) <= 25 * Z.of_nat (length m) ∧
    ∀ rest, decode_rest (length m) f pre (bs ++ rest) = Ok (pre ++ m, rest).
Proof.
  induction m as [|[g r] m IH]; intros pos pre Hw H0 He f Hf Hb.
  { exists []. split_and!; [done|done|]. intros rest. simpl. by rewrite app_nil_r. }
  simpl in He. destruct Hw as (A & _ & C & D & E & F). pose proof (wf_from_end _ _ _ F).
  destruct (denc_varint_lowz_reads S64 (g - f)) as (b1 & E1 & L1 & R1).
  { lia. } { apply s64_small; lia. } { apply lowz_fits_small; lia. }
  destruct (record_reads r C D) as (b2 & E2 & L2 & R2).
  destruct (IH (g + rlen r) (pre ++ [(g, r)])) with (f := g) as (bs & E3 & L3 & R3); try lia.
  { by eapply wf_from_weak. }
  { apply keys_below_app. split; [eapply keys_below_mono; [|done]; lia|].
    constructor; [simpl; lia|constructor]. }
  cbn [encode_rest]. rewrite (s64_small g), (s64_small (g - f)), (u64_small (g - f)) by lia.
  rewrite E1, E2, E3. exists (b1 ++ b2 ++ bs). split_and!; [done| |].
  - rewrite !length_app. unfold denc_varint_lowz_bound in L1. simpl length. lia.
  - intros rest. cbn [length decode_rest]. rewrite <- !app_assoc, R1. cbn [bind].
    replace (f + (g - f)) with g by lia. rewrite R2, s64_small, u64_small by lia. cbn [bind].
    rewrite map_set_end by (eapply keys_below_mono; [|done]; lia). rewrite R3.
    by rewrite <- app_assoc.
Qed.

Lemma refmap_reads m : refmap_ok m → reads_back encode decode (bound_encode m) m.
Proof.
  intros (Hw & He & Hn). unfold reads_back. cbn [encode decode bound_encode refmap_codec].
  unfold refmap_encode, refmap_decode. rewrite u32_small by lia.
  destruct (denc_varint_reads U32 (Z.of_nat (length m)) 4) as (b & E & L & R);
    [simpl; lia|simpl; lia|lia|]. rewrite E; cbn [bind].
  destruct m as [|[f r] m].
  { exists b. split_and!; [done|unfold denc_varint_bound; simpl in *; lia|]. intros rest. by rewrite R. }
  destruct Hw as (A & _ & C & D & E' & F). simpl in He. pose proof (wf_from_end _ _ _ F).
  destruct (denc_varint_lowz_reads S64 f) as (b1 & E1 & L1 & R1).
  { lia. } { apply s64_small; lia. } { apply lowz_fits_small; lia. }
  destruct (record_reads r C D) as (b2 & E2 & L2 & R2).
  destruct (rest_reads m (f + rlen r) [(f, r)]) with (f := f) as (bs & E3 & L3 & R3); try lia.
  { by eapply wf_from_weak. }
  { constructor; [simpl; lia|constructor]. }
  rewrite E1, E2, s64_small, E3 by lia. eexists. split_and!; [done| |].
  - rewrite !length_app. unfold denc_varint_bound, denc_varint_lowz_bound in *. simpl length in *.
    simpl sizeof. lia.
  - intros rest. rewrite <- !app_assoc, R. cbn [bind]. simpl length.
    destruct (Z.eqb_spec (Z.of_nat (S (length m))) 0); [lia|]. rewrite R1. cbn [bind].
    rewrite R2. cbn [bind]. rewrite u64_small by lia.
    replace (Z.to_nat (Z.of_nat (S (length m)) - 1)) with (length m) by lia. by rewrite R3.
Qed.

Lemma end_of_counted pos rf m n :
  wf_from pos rf m → pos <= n → (∀ x, n <= x → count m x = 0) → end_of pos m <= n.
Proof.
  revert pos rf; induction m as [|[f r] m IH]; intros pos rf; simpl; [done|].
  intros (A & B & C & D & E & F) Hn Hc. apply (IH _ _ F).
  - destruct (Z.le_gt_cases (f + rlen r) n); [done|]. specialize (Hc (f + rlen r - 1) ltac:(lia)).
    apply (count_nonneg _ _ _ (f + rlen r - 1)) in F.
    rewrite (proj2 (within_true _ _ _)) in Hc; lia.
  - intros x Hx. specialize (Hc x Hx). apply (count_nonneg _ _ _ x) in F.
    destruct (within f (rlen r) x); lia.
Qed.

(** The reference map of a shared blob survives being stored: after any legal
    history on offsets below 2^62 the map is written in the bytes reserved for it
    and read back, whatever follows it. *)
Theorem refmap_denc_roundtrip ops :
  legal_all unreferenced ops →
  (∀ x, 2 ^ 62 - 1 <= x → counted_all unreferenced ops x = 0) →
  ∃ m release, run [] ops = Ok (m, release) ∧
    (Z.of_nat (length m) < 2 ^ 32 →
     reads_back refmap_encode refmap_decode (bound_encode m) m).
Proof.
  intros Hl Hb. destruct (run_ok ops [] _ stands_empty Hl) as (m & rel & -> & (W & _ & C) & _).
  exists m, rel. split; [done|]. intros Hn. apply refmap_reads. split_and!; [done| |done].
  assert (end_of 0 m <= 2 ^ 62 - 1); [|lia].
  apply (end_of_counted _ _ _ _ W); [lia|]. intros x Hx. rewrite C. by apply Hb.
Qed.

Lemma refmap_denc_roundtrip_witness :
  ∃ m release,
    run [] [Get 0 4096; Get 8192 4096; Get 2048 8192; Put 0 4096; Put 2048 2048]
      = Ok (m, release) ∧
    (Z.of_nat (length m) < 2 ^ 32 →
     reads_back refmap_encode refmap_decode (bound_encode m) m).
Proof.
  apply refmap_denc_roundtrip; [apply history_legal|]. intros x Hx. simpl.
  unfold unreferenced, within.
  repeat (rewrite (proj2 (Z.ltb_ge x _)) by lia; rewrite andb_false_r). done.
Defined.
End RefMapDenc.
