(* ===== verification/UseTracker.v ===== *)
(** * [bluestore_blob_use_tracker_t] (os/bluestore/bluestore_types.h, .cc)

    How many bytes of each allocation unit of a blob are referenced.  A blob of one
    unit has a single counter, kept in the place of the pointer to the array a
    larger blob has; [put] reports the units nobody references any more.

    Sizes, offsets and counters are [uint32_t] and wrap. *)
From S2P Require Import Prelude RefMap Denc BlueTypes.

Module UseTracker.

(** [bytes_per_au] and [total_bytes] share their storage; the one in use is told by
    [num_au].  The array may be longer than [num_au] after [prune_tail]. *)
Record t : Type := mk {
  au_size : Z; num_au : Z; bytes_per_au : list Z; total_bytes : Z
}.

Definition new : t := mk 0 0 [] 0.

Definition clear (_ : t) : t := new.

Definition zeros (n : Z) : list Z := replicate (Z.to_nat n) 0.

Definition sum32 (l : list Z) : Z := foldl (λ a b, u32 (a + b)) 0 l.

(** The units in use. *)
Definition in_use (s : t) : list Z := take (Z.to_nat (num_au s)) (bytes_per_au s).

Definition get_referenced_bytes (s : t) : Z :=
  if num_au s =? 0 then total_bytes s else sum32 (in_use s).

Definition is_not_empty (s : t) : bool :=
  if num_au s =? 0 then negb (total_bytes s =? 0)
  else existsb (λ b, negb (b =? 0)) (in_use s).

Definition is_empty (s : t) : bool := negb (is_not_empty s).

(** [ROUND_UP_TO] of include/intarith.h on [uint32_t]. *)
Definition ROUND_UP_TO (n d : Z) : Z :=
  if n mod d =? 0 then n else u32 (n + d - n mod d).

Definition init (s : t) (full_length _au_size : Z) : res t :=
  assert ((au_size s =? 0) || is_empty s);;;
  assert (0 <? _au_size);;;
  assert (0 <? full_length);;;
  let _num_au := ROUND_UP_TO full_length _au_size / _au_size in
  if 1 <? _num_au then Ok (mk _au_size _num_au (zeros _num_au) 0)
  else Ok (mk _au_size 0 [] 0).

(** The [while (offset < end)] of [get]. *)
Fixpoint get_loop (fuel : nat) (au : Z) (a : list Z) (offset end_ : Z) : res (list Z) :=
  match fuel with
  | O => Err OutOfFuel
  | S fuel =>
      if negb (offset <? end_) then Ok a else
      let phase := offset mod au in
      b <- zget a (offset / au);;
      a <- zset a (offset / au) (u32 (b + Z.min (au - phase) (end_ - offset)));;
      get_loop fuel au a (u32 (offset + (if phase =? 0 then au else au - phase))) end_
  end.

Definition get (s : t) (offset length : Z) : res t :=
  assert (negb (au_size s =? 0));;;
  if num_au s =? 0 then
    Ok (mk (au_size s) 0 (bytes_per_au s) (u32 (total_bytes s + length)))
  else
    a <- get_loop (S (List.length (bytes_per_au s))) (au_size s) (bytes_per_au s)
           offset (u32 (offset + length));;
    Ok (mk (au_size s) (num_au s) a (total_bytes s)).

(** [release_units->back().length += au_size]. *)
Definition grow_last (au : Z) (release : list (Z * Z)) : res (list (Z * Z)) :=
  match reverse release with
  | [] => Err BadAccess
  | (o, l) :: r => Ok (reverse r ++ [(o, u32 (l + au))])
  end.

(** The [while (offset < end)] of [put]: the counters, what is released, the offset
    after the units released and [maybe_empty]. *)
Fixpoint put_loop (fuel : nat) (au : Z) (a : list Z) (offset end_ : Z)
    (release : list (Z * Z)) (next_offs : Z) (maybe_empty : bool) :
    res (list Z * list (Z * Z) * bool) :=
  match fuel with
  | O => Err OutOfFuel
  | S fuel =>
      if negb (offset <? end_) then Ok (a, release, maybe_empty) else
      let phase := offset mod au in
      let pos := offset / au in
      let diff := Z.min (au - phase) (end_ - offset) in
      b <- zget a pos;;
      assert (diff <=? b);;;
      a <- zset a pos (b - diff);;
      let offset := u32 (offset + (if phase =? 0 then au else au - phase)) in
      if b - diff =? 0 then
        release <-
          (if bool_decide (release = []) || negb (next_offs =? pos * au) then
             Ok (release ++ [(pos * au, au)])
           else grow_last au release);;
        put_loop fuel au a offset end_ release (u64 (next_offs + au)) maybe_empty
      else put_loop fuel au a offset end_ release next_offs false
  end.

(** [put] with [release_units] given. *)
Definition put (s : t) (offset length : Z) : res (t * list (Z * Z) * bool) :=
  assert (negb (au_size s =? 0));;;
  '(s, release, maybe_empty) <-
    (if num_au s =? 0 then
       assert (length <=? total_bytes s);;;
       Ok (mk (au_size s) 0 (bytes_per_au s) (total_bytes s - length), [], true)
     else
       '(a, release, maybe_empty) <-
         put_loop (S (List.length (bytes_per_au s))) (au_size s) (bytes_per_au s)
           offset (u32 (offset + length)) [] 0 true;;
       Ok (mk (au_size s) (num_au s) a (total_bytes s), release, maybe_empty));;
  let empty := if (maybe_empty : bool) then negb (is_not_empty s) else false in
  Ok (s, if empty then [] else release, empty).

Definition can_split (s : t) : bool := 0 <? num_au s.

Definition can_split_at (s : t) (blob_offset : Z) : res bool :=
  assert (negb (au_size s =? 0));;;
  Ok ((blob_offset mod au_size s =? 0) && (blob_offset <? u32 (num_au s * au_size s))).

(** The [for] of [split]: the units moved and the array they are cleared in. *)
Fixpoint split_loop (fuel : nat) (s r : t) (i new_num_au : Z) : res (t * t) :=
  match fuel with
  | O => Err OutOfFuel
  | S fuel =>
      if negb (i <? num_au s) then Ok (s, r) else
      b <- zget (bytes_per_au s) i;;
      r <- get r (u32 ((i - new_num_au) * au_size s)) b;;
      a <- zset (bytes_per_au s) i 0;;
      split_loop fuel (mk (au_size s) (num_au s) a (total_bytes s)) r (i + 1) new_num_au
  end.

(** The tracker cut at [blob_offset] and [r], which takes the rest. *)
Definition split (s : t) (blob_offset : Z) (r : t) : res (t * t) :=
  assert (negb (au_size s =? 0));;;
  assert (can_split s);;;
  c <- can_split_at s blob_offset;;
  assert c;;;
  assert (is_empty r);;;
  let new_num_au := blob_offset / au_size s in
  r <- init r (u32 ((num_au s - new_num_au) * au_size s)) (au_size s);;
  '(s, r) <- split_loop (S (Z.to_nat (num_au s))) s r new_num_au new_num_au;;
  if new_num_au =? 0 then Ok (new, r)
  else if new_num_au =? 1 then
    tmp <- zget (bytes_per_au s) 0;;
    Ok (mk (au_size s) 0 [] tmp, r)
  else Ok (mk (au_size s) new_num_au (bytes_per_au s) (total_bytes s), r).

Definition prune_tail (s : t) (new_len : Z) : res t :=
  if num_au s =? 0 then Ok s
  else
    if au_size s =? 0 then Err DivByZero else
    let _num_au := ROUND_UP_TO new_len (au_size s) / au_size s in
    assert (_num_au <=? num_au s);;;
    if _num_au =? 0 then Ok new
    else Ok (mk (au_size s) _num_au (bytes_per_au s) (total_bytes s)).

Definition add_tail (s : t) (new_len _au_size : Z) : res t :=
  let full_size := u32 (au_size s * (if num_au s =? 0 then 1 else num_au s)) in
  assert (full_size <=? new_len);;;
  if new_len =? full_size then Ok s
  else if num_au s =? 0 then
    let old_total := total_bytes s in
    s <- init (mk (au_size s) 0 (bytes_per_au s) 0) new_len _au_size;;
    assert (negb (num_au s =? 0));;;
    a <- zset (bytes_per_au s) 0 old_total;;
    Ok (mk (au_size s) (num_au s) a (total_bytes s))
  else
    assert (_au_size =? au_size s);;;
    if au_size s =? 0 then Err DivByZero else
    let _num_au := ROUND_UP_TO new_len (au_size s) / au_size s in
    assert (num_au s <=? _num_au);;;
    if num_au s <? _num_au then
      Ok (mk (au_size s) _num_au
            (in_use s ++ zeros (_num_au - num_au s)) (total_bytes s))
    else Ok s.

(** The partial sums of [equal], which stop above [referenced]. *)
Fixpoint equal_sum (l : list Z) (my referenced : Z) : bool :=
  match l with
  | [] => my =? referenced
  | b :: l =>
      let my := u32 (my + b) in
      if referenced <? my then false else equal_sum l my referenced
  end.

Definition equal (s other : t) : bool :=
  if (num_au s =? 0) && (num_au other =? 0) then
    (total_bytes s =? total_bytes other) && (au_size s =? au_size other)
  else if negb (num_au s =? 0) && negb (num_au other =? 0) then
    if negb (num_au s =? num_au other) || negb (au_size s =? au_size other) then false
    else bool_decide (in_use s = in_use other)
  else
    let '(a, b) := if num_au s =? 0 then (other, s) else (s, other) in
    equal_sum (in_use a) 0 (get_referenced_bytes b).

(** A [uint32_t] as [denc_varint] writes it. *)
#[local] Instance varint_codec : Codec Z := {
  bound_encode _ := Denc.denc_varint_bound Denc.U32;
  encode := Denc.denc_varint;
  decode := Denc.undenc_varint Denc.U32
}.

Definition use_bound (s : t) : Z :=
  let n := Denc.denc_varint_bound Denc.U32 in
  if au_size s =? 0 then n else n + n + (if num_au s =? 0 then n else n * num_au s).

Definition use_encode (s : t) : res (list Z) :=
  a <- Denc.denc_varint (au_size s);;
  if au_size s =? 0 then Ok a
  else
    n <- Denc.denc_varint (num_au s);;
    b <- (if num_au s =? 0 then Denc.denc_varint (total_bytes s) else encode_nohead (in_use s));;
    Ok (a ++ n ++ b).

Definition use_decode (l : list Z) : res (t * list Z) :=
  '(a, l) <- Denc.undenc_varint Denc.U32 l;;
  if a =? 0 then Ok (new, l)
  else
    '(n, l) <- Denc.undenc_varint Denc.U32 l;;
    if n =? 0 then
      '(b, l) <- Denc.undenc_varint Denc.U32 l;;
      Ok (mk a 0 [] b, l)
    else
      '(bs, l) <- decode_nohead (Z.to_nat n) l;;
      Ok (mk a n bs 0, l).

(** ** What a tracker stands for *)

(** The bytes of [\[lo, hi)] in unit [i]. *)
Definition overlap (au lo hi i : Z) : Z :=
  Z.max 0 (Z.min hi (i * au + au) - Z.max lo (i * au)).

(** The bytes referenced in unit [i]; a tracker of one unit does not look where. *)
Definition unit_bytes (s : t) (i : Z) : Z :=
  if num_au s =? 0 then (if i =? 0 then total_bytes s else 0)
  else default 0 (in_use s !! Z.to_nat i).

Definition wf (s : t) : Prop :=
  0 < au_size s ∧ 0 <= num_au s ∧ num_au s * au_size s < 2 ^ 32 ∧
  num_au s <= Z.of_nat (List.length (bytes_per_au s)) ∧
  0 <= total_bytes s < 2 ^ 32 ∧ Forall (λ b, 0 <= b < 2 ^ 32) (bytes_per_au s).

(** What [get] and [put] of a range add to or take from unit [i]. *)
Definition covers (s : t) (offset length i : Z) : Z :=
  if num_au s =? 0 then (if i =? 0 then length else 0)
  else overlap (au_size s) offset (offset + length) i.

(** A range lies in the blob. *)
Definition inside (s : t) (offset length : Z) : Prop :=
  0 <= offset ∧ 0 <= length < 2 ^ 32 ∧
  (num_au s ≠ 0 → offset + length <= num_au s * au_size s).

(** ** The loops *)

Section Units.
Context (au : Z) (Hau : 0 < au).

(** One turn of the loops: the unit [offset] lies in. *)
Lemma overlap_turn offset end_ i (q := offset / au) :
  0 <= offset < end_ →
  overlap au offset end_ i =
    (if i =? q then Z.min (au - offset mod au) (end_ - offset) else 0) +
    overlap au (q * au + au) end_ i.
Proof.
  intros Ho. pose proof (Z.div_mod offset au) as E. pose proof (Z.mod_pos_bound offset au) as B.
  fold q in E. unfold overlap. destruct (Z.eqb_spec i q) as [->|Hi]; [lia|].
  destruct (Z.lt_ge_cases i q); [assert (i * au + au <= q * au) by nia|assert (q * au + au <= i * au) by nia]; lia.
Qed.

Lemma overlap_none lo hi i : hi <= lo → overlap au lo hi i = 0.
Proof. intros H. unfold overlap. lia. Qed.

Lemma overlap_nonneg lo hi i : 0 <= overlap au lo hi i.
Proof. unfold overlap. lia. Qed.

(** The next offset, and that it is still in the array or past the range. *)
Lemma turn_next offset (q := offset / au) :
  0 <= offset → offset + (if offset mod au =? 0 then au else au - offset mod au) = q * au + au.
Proof.
  intros Ho. pose proof (Z.div_mod offset au). pose proof (Z.mod_pos_bound offset au).
  destruct (Z.eqb_spec (offset mod au) 0); fold q in H; lia.
Qed.

(** Units below the loop's are not touched by it. *)
Lemma overlap_before lo hi i : i * au + au <= lo → overlap au lo hi i = 0.
Proof. intros H. unfold overlap. lia. Qed.

Lemma div_in_array offset n : 0 <= offset < n * au → 0 <= offset / au < n.
Proof.
  intros H. split; [apply Z.div_pos; lia|]. apply Z.div_lt_upper_bound; lia.
Qed.

Lemma get_loop_ok n fuel : ∀ a offset end_,
  0 <= offset → end_ <= n * au → n * au < 2 ^ 32 → n <= Z.of_nat (List.length a) →
  (∀ i b, a !! i = Some b → 0 <= b ∧ b + overlap au offset end_ (Z.of_nat i) < 2 ^ 32) →
  (end_ <= offset ∨ n - offset / au < Z.of_nat fuel) → (0 < fuel)%nat →
  ∃ a', get_loop fuel au a offset end_ = Ok a' ∧ List.length a' = List.length a ∧
    ∀ i b, a !! i = Some b → a' !! i = Some (b + overlap au offset end_ (Z.of_nat i)).
Proof.
  induction fuel as [|fuel IH]; intros a offset end_ Ho He Hn Hn' Ha Hf Hf'; [lia|].
  cbn [get_loop]. destruct (Z.ltb_spec offset end_) as [L|L]; cbn [negb]; first last.
  { exists a. split_and!; try done. intros i b Hi. rewrite overlap_none by lia. by rewrite Z.add_0_r. }
  destruct (div_in_array offset n) as [Hq1 Hq2]; [lia|].
  set (q := offset / au) in *.
  destruct (zget_in a q) as (b & Hb & _); [lia|]. rewrite Hb. apply zget_ok in Hb as [_ Hb].
  cbn [bind]. pose proof (Ha _ _ Hb) as [B1 B2]. rewrite Z2Nat.id in B2 by lia.
  rewrite overlap_turn in B2 by lia. fold q in B2. rewrite Z.eqb_refl in B2.
  pose proof (overlap_nonneg (q * au + au) end_ q). pose proof (Z.mod_pos_bound offset au Hau).
  rewrite u32_small by lia. rewrite zset_ok by lia. cbn [bind].
  rewrite turn_next by lia. fold q. assert (q * au + au <= n * au) by nia.
  rewrite u32_small by lia.
  set (a1 := <[Z.to_nat q := _]> a).
  destruct (IH a1 (q * au + au) end_) as (a' & -> & Hl & Ha').
  { lia. } { done. } { done. } { unfold a1. by rewrite length_insert. }
  { intros i c Hi. unfold a1 in Hi. apply list_lookup_insert_Some in Hi as [(<- & <- & _)|(Hne & Hi)].
    - rewrite Z2Nat.id by lia. split; lia.
    - pose proof (Ha _ _ Hi) as [C1 C2]. split; [done|]. rewrite overlap_turn in C2 by lia.
      fold q in C2. destruct (Z.eqb_spec (Z.of_nat i) q); lia. }
  { right.
    replace ((q * au + au) / au) with (q + 1)
      by (rewrite <- (Z.mul_1_l au) at 2; rewrite <- Z.mul_add_distr_r, Z.div_mul; lia). lia. }
  { lia. }
  unfold a1 in *. rewrite length_insert in Hl. exists a'. split_and!; [done|done|].
  intros i c Hi. rewrite overlap_turn by lia. fold q. destruct (Z.eqb_spec (Z.of_nat i) q) as [E|E].
  - assert (i = Z.to_nat q) as -> by lia. rewrite Hb in Hi. injection Hi as <-.
    rewrite (Ha' (Z.to_nat q) (b + Z.min (au - offset mod au) (end_ - offset))).
    + f_equal. rewrite Z2Nat.id by lia. lia.
    + apply list_lookup_insert_eq. by eapply lookup_lt_Some.
  - rewrite (Ha' i c); [by f_equal; lia|]. rewrite list_lookup_insert_ne; [done|]. lia.
Qed.

(** What [put] knows of the units it released, when it is at unit [q]: [next_offs]
    counts them, and equals the unit's offset only if all before it went. *)
Definition merging (release : list (Z * Z)) (next_offs q : Z) : Prop :=
  ∃ k, 0 <= k <= q ∧ next_offs = k * au ∧ (release = [] → k = 0) ∧
    (k = q → release ≠ [] → release = [(0, q * au)]).

Definition release_unit (release : list (Z * Z)) (next_offs q : Z) : res (list (Z * Z)) :=
  if bool_decide (release = []) || negb (next_offs =? q * au) then
    Ok (release ++ [(q * au, au)])
  else grow_last au release.

Lemma release_unit_ok release next_offs q :
  merging release next_offs q → q * au + au < 2 ^ 32 →
  ∃ r, release_unit release next_offs q = Ok r ∧ merging r (u64 (next_offs + au)) (q + 1) ∧
    ∀ x, ExtentRefMap.bytes r x =
         ExtentRefMap.bytes release x + Z.b2z (ExtentRefMap.within (q * au) au x).
Proof.
  intros (k & Hk & -> & Hnil & Hall) Hq. unfold release_unit.
  assert (k * au <= q * au) by nia. assert (0 <= k * au) by nia. rewrite u64_small by lia.
  destruct (decide (release = [])) as [->|Hne].
  - rewrite bool_decide_eq_true_2 by done. simpl. eexists. split_and!; [done| |].
    + specialize (Hnil eq_refl). subst k. exists 1. split_and!; [lia..|done|].
      intros E _. replace q with 0 by lia. do 2 f_equal. lia.
    + intros x. simpl. lia.
  - rewrite bool_decide_eq_false_2 by done. simpl.
    destruct (Z.eqb_spec (k * au) (q * au)) as [E|E]; simpl.
    + assert (k = q) as -> by nia. rewrite (Hall eq_refl Hne). unfold grow_last; simpl.
      rewrite u32_small by lia. eexists. split_and!; [done| |].
      * exists (q + 1). split_and!; [lia..|done|]. intros _ _. do 2 f_equal. lia.
      * intros x. simpl. ExtentRefMap.win; lia.
    + eexists. split_and!; [done| |].
      * exists (k + 1). split_and!; [lia..| |]; intros Ex.
        { by apply app_nil in Ex as [_ ?]. }
        { exfalso. apply E. f_equal. lia. }
      * intros x. rewrite ExtentRefMap.bytes_app; simpl. lia.
Qed.

Lemma merging_skip release next_offs q :
  merging release next_offs q → merging release next_offs (q + 1).
Proof. intros (k & Hk & -> & Hnil & Hall). exists k. split_and!; [lia..|done|]. lia. Qed.

Definition put_ok (a : list Z) (offset end_ : Z) (release : list (Z * Z)) (me : bool)
    (out : res (list Z * list (Z * Z) * bool)) : Prop :=
  ∃ a' rel me', out = Ok (a', rel, me') ∧ List.length a' = List.length a ∧
    (∀ i b, a !! i = Some b → a' !! i = Some (b - overlap au offset end_ (Z.of_nat i))) ∧
    (∀ x, 0 <= x → ExtentRefMap.bytes rel x = ExtentRefMap.bytes release x +
       Z.b2z ((0 <? overlap au offset end_ (x / au)) &&
              (default 1 (a' !! Z.to_nat (x / au)) =? 0))) ∧
    (me' = false → me = false ∨ ∃ i b, Z.of_nat i * au < end_ ∧ a' !! i = Some b ∧ b ≠ 0).

Lemma within_unit q x : 0 <= x → ExtentRefMap.within (q * au) au x = (x / au =? q).
Proof.
  intros Hx. pose proof (Z.div_mod x au). pose proof (Z.mod_pos_bound x au Hau).
  apply eq_true_iff_eq. rewrite ExtentRefMap.within_true, Z.eqb_eq. split; [|nia].
  intros H1. assert (q * au < x / au * au + au) by lia. assert (x / au * au < q * au + au) by lia. nia.
Qed.

Definition put_spec (n : Z) (fuel : nat) : Prop :=
  ∀ a offset end_ release next_offs me,
  0 <= offset → end_ <= n * au → n * au < 2 ^ 32 → n <= Z.of_nat (List.length a) →
  (∀ i b, a !! i = Some b → overlap au offset end_ (Z.of_nat i) <= b) →
  merging release next_offs (offset / au) →
  (end_ <= offset ∨ n - offset / au < Z.of_nat fuel) → (0 < fuel)%nat →
  put_ok a offset end_ release me (put_loop fuel au a offset end_ release next_offs me).

Lemma next_unit q : (q * au + au) / au = q + 1.
Proof. rewrite <- (Z.mul_1_l au) at 2. rewrite <- Z.mul_add_distr_r, Z.div_mul; lia. Qed.

(** After unit [q], of [b] bytes, has lost the [d] bytes of the range in it. *)
Lemma put_turn_ok n fuel a offset end_ release me b rel1 next1 me1
    (q := offset / au) (d := Z.min (au - offset mod au) (end_ - offset)) :
  put_spec n fuel →
  0 <= offset < end_ → end_ <= n * au → n * au < 2 ^ 32 → n <= Z.of_nat (List.length a) →
  (∀ i c, a !! i = Some c → overlap au offset end_ (Z.of_nat i) <= c) →
  n - q < Z.of_nat (S fuel) → 0 <= q < n →
  a !! Z.to_nat q = Some b → merging rel1 next1 (q + 1) →
  (∀ x, 0 <= x → ExtentRefMap.bytes rel1 x = ExtentRefMap.bytes release x +
     Z.b2z ((x / au =? q) && (b - d =? 0))) →
  (me1 = false → me = false ∨ b - d ≠ 0) →
  put_ok a offset end_ release me
    (put_loop fuel au (<[Z.to_nat q := b - d]> a) (q * au + au) end_ rel1 next1 me1).
Proof.
  intros IH Ho He Hn Hn' Ha Hf Hq Hb Hm1 Hr1 Hme1. pose proof (Z.mod_pos_bound offset au Hau).
  set (a1 := <[Z.to_nat q := b - d]> a).
  assert (a1 !! Z.to_nat q = Some (b - d)) as Hq1
    by (apply list_lookup_insert_eq; by eapply lookup_lt_Some).
  assert (overlap au (q * au + au) end_ q = 0) as Hz by (apply overlap_before; lia).
  destruct (IH a1 (q * au + au) end_ rel1 next1 me1) as (a' & rel & me' & -> & Hl & Ha' & Hr & Hme);
    try (unfold a1; rewrite length_insert); rewrite ?next_unit; try (done || lia).
  { intros i c Hi. apply list_lookup_insert_Some in Hi as [(<- & <- & _)|(Hne & Hi)].
    - pose proof (Ha _ _ Hb) as B. rewrite Z2Nat.id in * by lia.
      rewrite overlap_turn in B by lia. fold q in B. rewrite Z.eqb_refl in B. fold d in B. lia.
    - pose proof (Ha _ _ Hi) as C. rewrite overlap_turn in C by lia.
      fold q in C. destruct (Z.eqb_spec (Z.of_nat i) q); lia. }
  pose proof (Ha' _ _ Hq1) as Haq. rewrite Z2Nat.id, Hz, Z.sub_0_r in Haq by lia.
  exists a', rel, me'. split_and!; [done|unfold a1 in Hl; by rewrite length_insert in Hl|..].
  - intros i c Hi. rewrite overlap_turn by lia. fold q d. destruct (Z.eqb_spec (Z.of_nat i) q) as [E|E].
    + assert (i = Z.to_nat q) as -> by lia. rewrite Hb in Hi. injection Hi as <-.
      rewrite Haq, Z2Nat.id, Hz by lia. f_equal. lia.
    + rewrite (Ha' i c); [by f_equal; lia|]. unfold a1. rewrite list_lookup_insert_ne; [done|]. lia.
  - intros x Hx. rewrite Hr, Hr1, (overlap_turn offset) by lia. fold q d.
    destruct (Z.eqb_spec (x / au) q) as [E|E]; [|rewrite Z.add_0_l; simpl; lia].
    rewrite E, Hz, Haq. simpl. rewrite (proj2 (Z.ltb_lt 0 (d + 0))) by lia. simpl. lia.
  - intros Hf1. destruct (Hme Hf1) as [Hme2|Hex]; [|by right].
    destruct (Hme1 Hme2) as [|Hbd]; [by left|right]. exists (Z.to_nat q), (b - d).
    split_and!; [|done|done]. rewrite Z2Nat.id by lia. pose proof (Z.mul_div_le offset au). unfold q. lia.
Qed.

Lemma put_loop_ok n fuel : put_spec n fuel.
Proof.
  induction fuel as [|fuel IH]; intros a offset end_ release next_offs me Ho He Hn Hn' Ha Hm Hf Hf'; [lia|].
  cbn [put_loop]. destruct (Z.ltb_spec offset end_) as [L|L]; cbn [negb]; first last.
  { exists a, release, me. split_and!; try done; [..|by left].
    - intros i b Hi. rewrite overlap_none by lia. by rewrite Z.sub_0_r.
    - intros x Hx. rewrite overlap_none by lia. simpl. lia. }
  destruct (div_in_array offset n) as [Hq1 Hq2]; [lia|].
  destruct (zget_in a (offset / au)) as (b & Hb & _); [lia|]. rewrite Hb.
  apply zget_ok in Hb as [_ Hb]. cbn [bind]. pose proof (Ha _ _ Hb) as B.
  rewrite Z2Nat.id, overlap_turn, Z.eqb_refl in B by lia.
  pose proof (overlap_nonneg (offset / au * au + au) end_ (offset / au)).
  rewrite assert_true, zset_ok by lia. cbn [bind]. rewrite turn_next by lia.
  assert (offset / au * au + au <= n * au) by nia. rewrite u32_small by nia.
  destruct (Z.eqb_spec (b - Z.min (au - offset mod au) (end_ - offset)) 0) as [E|E].
  - change (if bool_decide (release = []) || negb (next_offs =? offset / au * au) then _ else _)
      with (release_unit release next_offs (offset / au)).
    destruct (release_unit_ok release next_offs (offset / au)) as (r & -> & Hm1 & Hr); [done|lia|].
    cbn [bind]. apply (put_turn_ok n); try done; try lia; [|tauto]. intros x Hx.
    rewrite Hr, within_unit by done. by rewrite E, andb_true_r.
  - apply (put_turn_ok n); try done; try lia; [by apply merging_skip|]. intros x Hx.
    rewrite (proj2 (Z.eqb_neq _ _) E), andb_false_r. simpl. lia.
Qed.
End Units.

(** ** The operations *)

Lemma overlap_outside au lo hi n i : 0 < au → hi <= n * au → n <= i → overlap au lo hi i = 0.
Proof. intros Ha Hh Hi. unfold overlap. assert (n * au <= i * au) by nia. lia. Qed.

Lemma in_use_lookup s i : wf s → 0 <= i < num_au s → in_use s !! Z.to_nat i = bytes_per_au s !! Z.to_nat i.
Proof. intros Hw Hi. apply lookup_take_lt. lia. Qed.

Lemma unit_bytes_array s i b :
  wf s → num_au s ≠ 0 → Z.of_nat i < num_au s → bytes_per_au s !! i = Some b →
  unit_bytes s (Z.of_nat i) = b.
Proof.
  intros Hw Hn Hlt Hi. unfold unit_bytes.
  rewrite (proj2 (Z.eqb_neq _ _) Hn), in_use_lookup by (done || lia).
  by rewrite Nat2Z.id, Hi.
Qed.

Lemma unit_bytes_outside s i : wf s → num_au s ≠ 0 → num_au s <= i → unit_bytes s i = 0.
Proof.
  intros Hw Hn Hi. unfold unit_bytes. rewrite (proj2 (Z.eqb_neq _ _) Hn).
  destruct Hw as (_ & H0 & _). rewrite lookup_ge_None_2; [done|]. unfold in_use.
  rewrite length_take. lia.
Qed.

Lemma unit_bytes_range s i : wf s → 0 <= unit_bytes s i < 2 ^ 32.
Proof.
  intros Hw. pose proof Hw as (_ & _ & _ & _ & W5 & W6). unfold unit_bytes.
  destruct (num_au s =? 0); [destruct (i =? 0); lia|].
  destruct (in_use s !! Z.to_nat i) eqn:E; simpl; [|lia].
  apply lookup_take_Some in E as [E _]. apply (Forall_lookup_1 _ _ _ _ W6 E).
Qed.

(** The array after an operation that maps every counter. *)
Lemma array_units s a' (g : Z → Z) :
  wf s → num_au s ≠ 0 → List.length a' = List.length (bytes_per_au s) →
  (∀ i b, bytes_per_au s !! i = Some b → a' !! i = Some (b + g (Z.of_nat i))) →
  (∀ i, num_au s <= i → g i = 0) →
  (∀ i, 0 <= i → 0 <= unit_bytes s i + g i < 2 ^ 32) →
  let s' := mk (au_size s) (num_au s) a' (total_bytes s) in
  wf s' ∧ ∀ i, 0 <= i → unit_bytes s' i = unit_bytes s i + g i.
Proof.
  intros Hw Hn Hl Ha Hg Hb s'. pose proof Hw as (W1 & W2 & W3 & W4 & W5 & W6).
  assert (wf s') as Hw'.
  { unfold s'. split_and!; simpl; try done; try lia. apply Forall_lookup. intros i b Hi.
    destruct (lookup_lt_is_Some_2 (bytes_per_au s) i) as [c Hc]; [rewrite <- Hl; by eapply lookup_lt_Some|].
    pose proof (Ha _ _ Hc) as E. rewrite Hi in E. injection E as ->.
    pose proof (Forall_lookup_1 _ _ _ _ W6 Hc) as Hc0; simpl in Hc0.
    destruct (Z.lt_ge_cases (Z.of_nat i) (num_au s)); [|rewrite Hg; lia].
    specialize (Hb (Z.of_nat i)). rewrite (unit_bytes_array s i c) in Hb by done. apply Hb. lia. }
  split; [done|]. intros i Hi.
  destruct (Z.lt_ge_cases i (num_au s)) as [L|L].
  - destruct (lookup_lt_is_Some_2 (bytes_per_au s) (Z.to_nat i)) as [c Hc]; [lia|].
    replace i with (Z.of_nat (Z.to_nat i)) by lia.
    rewrite (unit_bytes_array s _ c) by (done || lia).
    apply unit_bytes_array; [done|done|simpl; lia|]. simpl. by apply Ha.
  - rewrite !unit_bytes_outside by done. rewrite Hg by lia. done.
Qed.

Lemma get_ok s offset length :
  wf s → inside s offset length →
  (∀ i, 0 <= i → unit_bytes s i + covers s offset length i < 2 ^ 32) →
  ∃ s', get s offset length = Ok s' ∧ wf s' ∧
    au_size s' = au_size s ∧ num_au s' = num_au s ∧
    ∀ i, 0 <= i → unit_bytes s' i = unit_bytes s i + covers s offset length i.
Proof.
  intros Hw (I1 & I2 & I3) Hmax. pose proof Hw as (W1 & W2 & W3 & W4 & W5 & W6).
  unfold get. rewrite assert_true by (apply negb_true_iff; lia). cbn [bind].
  unfold covers in *. destruct (Z.eqb_spec (num_au s) 0) as [E|E].
  - pose proof (Hmax 0) as H0. unfold unit_bytes in H0. rewrite E in H0. simpl in H0.
    rewrite u32_small by lia. eexists. split_and!; [done|by split_and!; simpl; try (done || lia)|done|done|].
    intros i Hi. unfold unit_bytes. rewrite E; simpl. destruct (i =? 0); lia.
  - specialize (I3 E). rewrite u32_small by lia.
    destruct (get_loop_ok (au_size s) W1 (num_au s) (S (List.length (bytes_per_au s))) (bytes_per_au s)
      offset (offset + length)) as (a' & -> & Hl & Ha'); try lia.
    { intros i b Hi. pose proof (Forall_lookup_1 _ _ _ _ W6 Hi) as Hb0; simpl in Hb0. specialize (Hmax (Z.of_nat i)).
      destruct (Z.lt_ge_cases (Z.of_nat i) (num_au s)).
      - rewrite (unit_bytes_array s i b) in Hmax by done. split; lia.
      - rewrite (overlap_outside _ _ _ (num_au s)) by lia. split; lia. }
    { right. pose proof (Z.div_pos offset (au_size s)). lia. }
    cbn [bind]. eexists. split; [done|].
    destruct (array_units s a' (overlap (au_size s) offset (offset + length))) as [Hw' Hu]; try done.
    + intros i Hi. apply (overlap_outside _ _ _ (num_au s)); lia.
    + intros i Hi. split; [|by apply Hmax].
      pose proof (overlap_nonneg (au_size s) W1 offset (offset + length) i).
      pose proof (unit_bytes_range s i Hw). lia.
Qed.

(** Whether any byte is referenced. *)
Lemma is_not_empty_iff s : wf s → is_not_empty s = false ↔ ∀ i, 0 <= i → unit_bytes s i = 0.
Proof.
  intros Hw. unfold is_not_empty, unit_bytes. destruct (Z.eqb_spec (num_au s) 0) as [E|E].
  - rewrite negb_false_iff, Z.eqb_eq. split; [intros -> i _; by destruct (i =? 0)|].
    intros H. by apply (H 0).
  - rewrite <- not_true_iff_false, existsb_exists. split.
    + intros H i Hi. destruct (in_use s !! Z.to_nat i) as [b|] eqn:Eb; [|done]. simpl.
      destruct (Z.eq_dec b 0) as [->|Hb]; [done|]. destruct H. exists b.
      split; [by eapply list_elem_of_In, list_elem_of_lookup_2|]. apply negb_true_iff. lia.
    + intros H (b & Hb & Hne). apply list_elem_of_In, list_elem_of_lookup in Hb as [i Hi].
      specialize (H (Z.of_nat i) ltac:(lia)). rewrite Nat2Z.id, Hi in H. simpl in H. subst b. done.
Qed.

(** What [put] of a range of [s] comes to: the range is taken from its units, the
    flag tells whether none is left, and otherwise the units of the range that
    went to zero are released. *)
Definition put_result (s : t) (offset length : Z) (out : res (t * list (Z * Z) * bool)) : Prop :=
  ∃ s' release empty, out = Ok (s', release, empty) ∧ wf s' ∧
    au_size s' = au_size s ∧ num_au s' = num_au s ∧
    (∀ i, 0 <= i → unit_bytes s' i = unit_bytes s i - covers s offset length i) ∧
    (empty = true ↔ ∀ i, 0 <= i → unit_bytes s' i = 0) ∧
    ∀ x, 0 <= x → ExtentRefMap.bytes release x =
      Z.b2z (negb empty && (0 <? covers s offset length (x / au_size s)) &&
             (unit_bytes s' (x / au_size s) =? 0)).

Lemma put_single_ok s offset length :
  wf s → num_au s = 0 → 0 <= length <= total_bytes s →
  put_result s offset length (put s offset length).
Proof.
  intros Hw E Hl. pose proof Hw as (W1 & W2 & W3 & W4 & W5 & W6).
  unfold put. rewrite assert_true by (apply negb_true_iff; lia). cbn [bind]. rewrite E.
  rewrite assert_true by lia. cbn [bind Z.eqb]. set (s' := mk _ _ _ _).
  assert (wf s') as Hw' by (unfold s'; split_and!; simpl; try (done || lia)).
  exists s', [], (negb (is_not_empty s')). unfold covers. rewrite E. split_and!; try done.
  - by destruct (is_not_empty s').
  - intros i Hi. unfold unit_bytes, s'. rewrite E; simpl. destruct (i =? 0); lia.
  - rewrite negb_true_iff. by apply is_not_empty_iff.
  - intros x Hx. destruct (is_not_empty s') eqn:En; [|done]. simpl.
    destruct (Z.eqb_spec (x / au_size s) 0) as [Ex|Ex]; [|done]. rewrite Ex.
    destruct (Z.eqb_spec (unit_bytes s' 0) 0) as [Eu|Eu]; [|by rewrite andb_false_r].
    rewrite (proj2 (is_not_empty_iff s' Hw')) in En; [done|]. intros i Hi.
    unfold unit_bytes, s' in *. simpl in *. by destruct (i =? 0).
Qed.

Lemma put_array_ok s offset length :
  wf s → num_au s ≠ 0 → 0 <= offset → 0 <= length → offset + length <= num_au s * au_size s →
  (∀ i, 0 <= i → overlap (au_size s) offset (offset + length) i <= unit_bytes s i) →
  put_result s offset length (put s offset length).
Proof.
  intros Hw E I1 I2 I3 Hmin. pose proof Hw as (W1 & W2 & W3 & W4 & W5 & W6).
  unfold put. rewrite assert_true by (apply negb_true_iff; lia). cbn [bind].
  rewrite (proj2 (Z.eqb_neq _ _) E), u32_small by lia.
  destruct (put_loop_ok (au_size s) W1 (num_au s) (S (List.length (bytes_per_au s))) (bytes_per_au s)
    offset (offset + length) [] 0 true) as (a' & rel & me & -> & Hl & Ha' & Hr & Hme); try lia.
  { intros i b Hi. destruct (Z.lt_ge_cases (Z.of_nat i) (num_au s)).
    - specialize (Hmin (Z.of_nat i)). rewrite (unit_bytes_array s i b) in Hmin by done. apply Hmin. lia.
    - rewrite (overlap_outside _ _ _ (num_au s)) by lia. by destruct (Forall_lookup_1 _ _ _ _ W6 Hi). }
  { exists 0. pose proof (Z.div_pos offset (au_size s)). split_and!; try (done || lia). }
  { right. pose proof (Z.div_pos offset (au_size s)). lia. }
  cbn [bind]. set (s' := mk _ _ _ _).
  destruct (array_units s a' (λ i, - overlap (au_size s) offset (offset + length) i)) as [Hw' Hu]; try done.
  { intros i Hi. rewrite (overlap_outside _ _ _ (num_au s)) by lia. done. }
  { intros i Hi. specialize (Hmin i Hi). pose proof (unit_bytes_range s i Hw).
    pose proof (overlap_nonneg (au_size s) W1 offset (offset + length) i). lia. }
  fold s' in Hw', Hu.
  assert ((if me then negb (is_not_empty s') else false) = negb (is_not_empty s')) as ->.
  { destruct me; [done|]. destruct (is_not_empty s') eqn:En; [done|]. exfalso.
    destruct (Hme eq_refl) as [|(i & b & Hlt & Hi & Hb)]; [done|]. apply Hb.
    rewrite <- (unit_bytes_array s' i b Hw' E) by (simpl; done || nia).
    apply is_not_empty_iff; [done|done|lia]. }
  eexists s', _, _. unfold covers. rewrite (proj2 (Z.eqb_neq _ _) E). split_and!; try done.
  - rewrite negb_true_iff. by apply is_not_empty_iff.
  - intros x Hx. destruct (is_not_empty s') eqn:En; [|done]. simpl. rewrite (Hr x Hx). simpl.
    pose proof (Z.div_pos x (au_size s) Hx W1).
    destruct (Z.lt_ge_cases (x / au_size s) (num_au s)) as [L|L].
    + destruct (lookup_lt_is_Some_2 a' (Z.to_nat (x / au_size s))) as [c Hc]; [lia|].
      pose proof (unit_bytes_array s' (Z.to_nat (x / au_size s)) c Hw' E) as Hu'.
      rewrite Z2Nat.id in Hu' by lia. rewrite Hu' by (simpl; done || lia). by rewrite Hc.
    + by rewrite (overlap_outside _ _ _ (num_au s)) by lia.
Qed.

Lemma put_op_ok s offset length :
  wf s → inside s offset length →
  (∀ i, 0 <= i → covers s offset length i <= unit_bytes s i) →
  put_result s offset length (put s offset length).
Proof.
  intros Hw (I1 & I2 & I3) Hmin. unfold covers in Hmin. destruct (Z.eqb_spec (num_au s) 0) as [E|E].
  - apply put_single_ok; try done. specialize (Hmin 0). unfold unit_bytes in Hmin.
    rewrite E in Hmin. simpl in Hmin. lia.
  - apply put_array_ok; try done; [lia|]. by apply I3.
Qed.

(** ** Creation and splitting *)

Lemma round_up_units n au :
  0 < au → 0 < n → n * au < 2 ^ 32 → ROUND_UP_TO (n * au) au / au = n.
Proof.
  intros Ha Hn Hlt. unfold ROUND_UP_TO. rewrite Z.mod_mul by lia. simpl. by apply Z.div_mul; lia.
Qed.

(** A new tracker of [n] units has no byte referenced. *)
Lemma init_units s n au :
  is_empty s = true → 0 < au → 0 < n → n * au < 2 ^ 32 →
  ∃ r, init s (n * au) au = Ok r ∧ wf r ∧ au_size r = au ∧
    num_au r = (if 1 <? n then n else 0) ∧ ∀ i, 0 <= i → unit_bytes r i = 0.
Proof.
  intros He Ha Hn Hlt. unfold init. rewrite He, orb_true_r.
  rewrite !assert_true by (done || nia). cbn [bind]. rewrite round_up_units by done.
  destruct (Z.ltb_spec 1 n) as [L|L].
  - eexists. split_and!; [done| |done|done|].
    + split_and!; simpl; try (done || lia); unfold zeros.
      * rewrite length_replicate. lia.
      * apply Forall_replicate. lia.
    + intros i Hi. unfold unit_bytes, in_use, zeros; simpl. destruct (Z.eqb_spec n 0); [lia|].
      rewrite take_replicate. destruct (_ !! _) eqn:E; [|done]. by apply lookup_replicate in E as [-> _].
  - eexists. split_and!; [done| |done|done|].
    + split_and!; simpl; try (done || lia).
    + intros i Hi. unfold unit_bytes; simpl. by destruct (i =? 0).
Qed.

(** Bytes of one unit, counted from its start. *)
Lemma covers_unit r k b i n :
  wf r → num_au r = (if 1 <? n then n else 0) → 0 <= k < n → 0 <= b <= au_size r → 0 <= i →
  covers r (k * au_size r) b i = if i =? k then b else 0.
Proof.
  intros (W1 & _) Hn Hk Hb Hi. unfold covers. destruct (Z.ltb_spec 1 n) as [L|L]; rewrite Hn; simpl.
  - destruct (Z.eqb_spec n 0); [lia|]. unfold overlap. destruct (Z.eqb_spec i k) as [->|Hne]; [lia|].
    destruct (Z.lt_ge_cases i k);
      [assert (i * au_size r + au_size r <= k * au_size r) by nia
      |assert (k * au_size r + au_size r <= i * au_size r) by nia]; lia.
  - by replace k with 0 by lia.
Qed.

Section Split.
Context (s : t) (n : Z) (Hw : wf s) (Hn : 0 <= n < num_au s).
Context (Hau : ∀ i, 0 <= i → unit_bytes s i <= au_size s).

(** The trackers when the units from [n] to [i] have been moved. *)
Definition moved (i : Z) (s1 r : t) : Prop :=
  wf r ∧ au_size r = au_size s ∧
  num_au r = (if 1 <? num_au s - n then num_au s - n else 0) ∧
  (∀ j, 0 <= j → unit_bytes r j = if j <? i - n then unit_bytes s (n + j) else 0) ∧
  au_size s1 = au_size s ∧ num_au s1 = num_au s ∧
  List.length (bytes_per_au s1) = List.length (bytes_per_au s) ∧
  Forall (λ b, 0 <= b < 2 ^ 32) (bytes_per_au s1) ∧
  ∀ j, (Z.of_nat j < n ∨ i <= Z.of_nat j) → bytes_per_au s1 !! j = bytes_per_au s !! j.

Lemma move_unit i s1 r :
  moved i s1 r → n <= i < num_au s →
  ∃ b r' a, zget (bytes_per_au s1) i = Ok b ∧ get r (u32 ((i - n) * au_size s1)) b = Ok r' ∧
    zset (bytes_per_au s1) i 0 = Ok a ∧
    moved (i + 1) (mk (au_size s1) (num_au s1) a (total_bytes s1)) r'.
Proof.
  intros (R1 & R2 & R3 & R4 & S1 & S2 & S3 & S4 & S5) Hi.
  pose proof Hw as (W1 & W2 & W3 & W4 & W5 & W6).
  destruct (lookup_lt_is_Some_2 (bytes_per_au s) (Z.to_nat i)) as [b Hb]; [lia|].
  assert (unit_bytes s i = b) as Eb.
  { replace i with (Z.of_nat (Z.to_nat i)) by lia. apply unit_bytes_array; try done; lia. }
  pose proof (Hau i ltac:(lia)). pose proof (unit_bytes_range s i Hw).
  assert ((i - n) * au_size s + au_size s <= num_au s * au_size s) by nia.
  assert (0 <= (i - n) * au_size s) by nia.
  rewrite S1, u32_small by lia.
  destruct (get_ok r ((i - n) * au_size r) b) as (r' & Hg & G1 & G2 & G3 & G4); [done|..].
  { rewrite R2. split_and!; try lia. intros Hr. rewrite R3 in *.
    destruct (1 <? num_au s - n); [nia|lia]. }
  { intros j Hj. rewrite (covers_unit r (i - n) b j (num_au s - n)) by (done || lia). rewrite R4 by done.
    destruct (Z.eqb_spec j (i - n)), (Z.ltb_spec j (i - n)); try lia.
    - pose proof (unit_bytes_range s (n + j) Hw). lia. }
  exists b, r', (<[Z.to_nat i := 0]> (bytes_per_au s1)). rewrite R2 in Hg. split_and!; [|done|..].
  - apply zget_ok. split; [lia|]. rewrite S5; [done|lia].
  - apply zset_ok. lia.
  - split_and!; simpl; try (done || lia).
    + intros j Hj. rewrite G4, R4 by done.
      rewrite (covers_unit r (i - n) b j (num_au s - n)) by (done || lia).
      destruct (Z.eqb_spec j (i - n)), (Z.ltb_spec j (i - n)), (Z.ltb_spec j (i + 1 - n)); try lia.
      replace (n + j) with i by lia. lia.
    + by rewrite length_insert.
    + apply Forall_insert; [done|lia].
    + intros j Hj. rewrite list_lookup_insert_ne by lia. apply S5. lia.
Qed.

Lemma use_split_loop_ok fuel : ∀ i s1 r,
  moved i s1 r → n <= i <= num_au s → num_au s - i < Z.of_nat fuel →
  ∃ s2 r2, split_loop fuel s1 r i n = Ok (s2, r2) ∧ moved (num_au s) s2 r2.
Proof.
  induction fuel as [|fuel IH]; intros i s1 r Hm Hi Hf; [lia|].
  cbn [split_loop]. pose proof Hm as (_ & _ & _ & _ & S1 & S2 & _).
  replace (i <? num_au s1) with (i <? num_au s) by (by rewrite S2).
  destruct (Z.ltb_spec i (num_au s)) as [L|L]; cbn [negb].
  - destruct (move_unit i s1 r Hm) as (b & r' & a & -> & Hg & Ha & Hm'); [lia|].
    cbn [bind]. rewrite Hg. cbn [bind]. rewrite Ha. cbn [bind].
    apply IH; [done|lia..].
  - assert (i = num_au s) as -> by lia. by exists s1, r.
Qed.

Lemma moved_start r :
  wf r → au_size r = au_size s →
  num_au r = (if 1 <? num_au s - n then num_au s - n else 0) →
  (∀ i, 0 <= i → unit_bytes r i = 0) → moved n s r.
Proof.
  intros H1 H2 H3 H4. split_and!; try done; [|by destruct Hw as (_ & _ & _ & _ & _ & W6)].
  intros j Hj. rewrite H4 by done. destruct (Z.ltb_spec j (n - n)); [lia|done].
Qed.

(** What is left of the tracker that was cut. *)
Lemma left_units s2 i :
  0 <= i < n →
  (∀ j, Z.of_nat j < n → bytes_per_au s2 !! j = bytes_per_au s !! j) →
  bytes_per_au s2 !! Z.to_nat i = Some (unit_bytes s i).
Proof.
  intros Hi H. pose proof Hw as (W1 & W2 & W3 & W4 & W5 & W6). rewrite H by lia.
  destruct (lookup_lt_is_Some_2 (bytes_per_au s) (Z.to_nat i)) as [b Hb]; [lia|].
  rewrite Hb. f_equal. replace i with (Z.of_nat (Z.to_nat i)) by lia. symmetry.
  apply unit_bytes_array; try done; lia.
Qed.
End Split.

Lemma split_ok s n :
  wf s → 0 <= n < num_au s → (∀ i, 0 <= i → unit_bytes s i <= au_size s) →
  ∃ s' r, split s (n * au_size s) new = Ok (s', r) ∧
    (∀ i, 0 <= i < n → unit_bytes s' i = unit_bytes s i) ∧
    (∀ i, n <= i → unit_bytes s' i = 0) ∧
    ∀ i, 0 <= i → unit_bytes r i = unit_bytes s (n + i).
Proof.
  intros Hw Hn Hau. pose proof Hw as (W1 & W2 & W3 & W4 & W5 & W6). unfold split.
  unfold can_split, can_split_at. rewrite !(assert_true (negb _)) by (apply negb_true_iff; lia).
  assert (n * au_size s < num_au s * au_size s) by nia. assert (0 <= n * au_size s) by nia.
  rewrite assert_true by lia. cbn [bind].
  rewrite Z.mod_mul, u32_small by lia. rewrite assert_true by lia. cbn [bind].
  rewrite assert_true by done. cbn [bind]. rewrite Z.div_mul by lia.
  assert (0 <= (num_au s - n) * au_size s <= num_au s * au_size s) by nia.
  rewrite u32_small by lia.
  destruct (init_units new (num_au s - n) (au_size s)) as (r & -> & R1 & R2 & R3 & R4); try done; try lia.
  cbn [bind].
  destruct (use_split_loop_ok s n Hw Hn Hau (S (Z.to_nat (num_au s))) n s r) as (s2 & r2 & -> & Hm).
  { by apply moved_start. } { lia. } { lia. }
  cbn [bind]. destruct Hm as (M1 & M2 & M3 & M4 & M5 & M6 & M7 & M8 & M9).
  assert (∀ i, 0 <= i → unit_bytes r2 i = unit_bytes s (n + i)) as Hr.
  { intros i Hi. rewrite M4 by done. destruct (Z.ltb_spec i (num_au s - n)); [done|].
    symmetry. apply unit_bytes_outside; try done; lia. }
  assert (∀ i, 0 <= i < n → bytes_per_au s2 !! Z.to_nat i = Some (unit_bytes s i)) as Hs.
  { intros i Hi. apply (left_units s n Hw Hn s2); [done|]. intros j Hj. apply M9. by left. }
  destruct (Z.eqb_spec n 0) as [->|N0].
  { exists new, r2. split_and!; try done; [lia|]. intros i Hi. unfold unit_bytes; simpl.
    by destruct (i =? 0). }
  destruct (Z.eqb_spec n 1) as [->|N1].
  - unfold zget; simpl. pose proof (Hs 0 ltac:(lia)) as Hs0. simpl in Hs0. rewrite Hs0. simpl.
    eexists _, r2. split_and!; [done|..|done]; intros i Hi; unfold unit_bytes at 1; simpl.
    + by replace i with 0 by lia.
    + destruct (Z.eqb_spec i 0); [lia|done].
  - eexists _, r2. split_and!; [done|..|done]; intros i Hi; unfold unit_bytes at 1, in_use; simpl;
      rewrite (proj2 (Z.eqb_neq _ _) N0).
    + rewrite lookup_take_lt by lia. by rewrite Hs.
    + by rewrite lookup_take_ge by lia.
Qed.

(** ** Properties *)

(** [C19] The use counters of a blob: [get] of a range inside the blob adds to every
    allocation unit the bytes of the range that lie in it, [put] takes them away, its
    flag tells whether the blob has no reference left, and otherwise the extents it
    releases are exactly the units of the range that went to zero. *)
Theorem use_tracker_correct s offset length :
  wf s → inside s offset length →
  ((∀ i, 0 <= i → unit_bytes s i + covers s offset length i < 2 ^ 32) →
   ∃ s', get s offset length = Ok s' ∧ wf s' ∧
     ∀ i, 0 <= i → unit_bytes s' i = unit_bytes s i + covers s offset length i) ∧
  ((∀ i, 0 <= i → covers s offset length i <= unit_bytes s i) →
   put_result s offset length (put s offset length)).
Proof.
  intros Hw Hi. split; intros H.
  - destruct (get_ok s offset length Hw Hi H) as (s' & E & W & _ & _ & U). by exists s'.
  - by apply put_op_ok.
Qed.

Lemma use_tracker_correct_witness :
  put_result (mk 16 4 [0; 16; 14; 0] 0) 16 30 (put (mk 16 4 [0; 16; 14; 0] 0) 16 30).
Proof.
  apply use_tracker_correct.
  - split_and!; simpl; try lia. repeat constructor; lia.
  - split_and!; simpl; lia.
  - intros i Hi. unfold covers, overlap, unit_bytes, in_use; simpl.
    destruct (Z.to_nat i) as [|[|[|[|[|k]]]]] eqn:E; simpl; lia.
Defined.

(** Cutting a tracker at a unit boundary keeps the counters of the units before
    it and moves those after it, when no unit counts more bytes than it has. *)
Theorem use_tracker_split s n :
  wf s → 0 <= n < num_au s → (∀ i, 0 <= i → unit_bytes s i <= au_size s) →
  ∃ s' r, split s (n * au_size s) new = Ok (s', r) ∧
    (∀ i, 0 <= i < n → unit_bytes s' i = unit_bytes s i) ∧
    (∀ i, n <= i → unit_bytes s' i = 0) ∧
    ∀ i, 0 <= i → unit_bytes r i = unit_bytes s (n + i).
Proof. apply split_ok. Qed.

Lemma use_tracker_split_witness :
  ∃ s' r, split (mk 16 4 [3; 16; 14; 1] 0) (2 * 16) new = Ok (s', r) ∧
    (∀ i, 0 <= i < 2 → unit_bytes s' i = unit_bytes (mk 16 4 [3; 16; 14; 1] 0) i) ∧
    (∀ i, 2 <= i → unit_bytes s' i = 0) ∧
    ∀ i, 0 <= i → unit_bytes r i = unit_bytes (mk 16 4 [3; 16; 14; 1] 0) (2 + i).
Proof.
  apply (use_tracker_split (mk 16 4 [3; 16; 14; 1] 0) 2).
  - split_and!; simpl; try lia. repeat constructor; lia.
  - simpl. lia.
  - intros i Hi. unfold unit_bytes, in_use; simpl.
    destruct (Z.to_nat i) as [|[|[|[|[|k]]]]]; simpl; lia.
Defined.

Lemma varint_u32 v : 0 <= v < 2 ^ 32 →
  Denc.reads_back Denc.denc_varint (Denc.undenc_varint Denc.U32) (Denc.denc_varint_bound Denc.U32) v.
Proof. intros Hv. apply (Denc.denc_varint_reads Denc.U32 v 4); simpl; lia. Qed.
#[local] Instance varint_laws : CodecLaws Z := { in_domain v := 0 <= v < 2 ^ 32; codec_reads := varint_u32 }.

Lemma bound_sum_varints l : bound_sum l = Denc.denc_varint_bound Denc.U32 * Z.of_nat (List.length l).
Proof. unfold bound_sum. induction l as [|a l IH]; [done|]. cbn [foldr List.length]. rewrite IH. cbn. lia. Qed.

(** A tracker that is written and read back counts the same bytes in every unit;
    what [prune_tail] left in its array is not written. *)
Theorem use_tracker_roundtrip s rest :
  wf s → au_size s < 2 ^ 32 →
  ∃ bs s', use_encode s = Ok bs ∧ Z.of_nat (List.length bs) <= use_bound s ∧
    use_decode (bs ++ rest) = Ok (s', rest) ∧ au_size s' = au_size s ∧ num_au s' = num_au s ∧
    ∀ i, unit_bytes s' i = unit_bytes s i.
Proof.
  intros (Ha & Hn & Hna & Hl & Ht & Hb) Hau. unfold use_encode, use_decode, use_bound.
  destruct (varint_u32 (au_size s)) as (a & Ea & Hla & Hra); [lia|].
  destruct (varint_u32 (num_au s)) as (n & En & Hln & Hrn); [nia|].
  rewrite Ea; cbn [bind]. rewrite En. destruct (Z.eqb_spec (au_size s) 0) as [|_]; [lia|]. cbn [bind].
  destruct (Z.eqb_spec (num_au s) 0) as [E0|E0].
  - destruct (varint_u32 (total_bytes s)) as (b & Eb & Hlb & Hrb); [lia|]. rewrite Eb; cbn [bind].
    exists (a ++ n ++ b), (mk (au_size s) 0 [] (total_bytes s)). rewrite !length_app, <- !app_assoc, Hra. cbn [bind].
    destruct (Z.eqb_spec (au_size s) 0) as [|_]; [lia|]. rewrite Hrn. cbn [bind]. rewrite E0. cbn [Z.eqb]. rewrite Hrb.
    split_and!; try done; [lia|]. intros i. unfold unit_bytes. by rewrite E0.
  - destruct (nohead_reads (in_use s)) as (b & Eb & Hlb & Hrb); [by apply Forall_take|]. rewrite Eb; cbn [bind].
    assert (List.length (in_use s) = Z.to_nat (num_au s)) as Hlen by (unfold in_use; rewrite length_take; lia).
    rewrite Hlen in Hrb. rewrite bound_sum_varints, Hlen in Hlb.
    exists (a ++ n ++ b), (mk (au_size s) (num_au s) (in_use s) 0). rewrite !length_app, <- !app_assoc, Hra. cbn [bind].
    destruct (Z.eqb_spec (au_size s) 0) as [|_]; [lia|]. rewrite Hrn. cbn [bind].
    destruct (Z.eqb_spec (num_au s) 0) as [|_]; [lia|]. rewrite Hrb.
    split_and!; try done; [lia|]. intros i. unfold unit_bytes.
    assert (in_use (mk (au_size s) (num_au s) (in_use s) 0) = in_use s) as -> by (apply take_ge; simpl; lia).
    cbn [num_au]. by destruct (Z.eqb_spec (num_au s) 0).
Qed.

Lemma use_tracker_roundtrip_witness :
  ∃ bs s', use_encode (mk 4096 2 [4096; 700; 9] 0) = Ok bs ∧
    Z.of_nat (List.length bs) <= use_bound (mk 4096 2 [4096; 700; 9] 0) ∧
    use_decode (bs ++ [1]) = Ok (s', [1]) ∧ au_size s' = 4096 ∧ num_au s' = 2 ∧
    ∀ i, unit_bytes s' i = unit_bytes (mk 4096 2 [4096; 700; 9] 0) i.
Proof.
  apply (use_tracker_roundtrip (mk 4096 2 [4096; 700; 9] 0) [1]); [|simpl; lia].
  split_and!; simpl; try lia. repeat constructor; lia.
Defined.

(** A unit referenced twice is not moved whole: [split] re-adds its counter as
    one range from the start of the unit, which spills into the next unit and, from
    the last one, past the end of the array. *)
Theorem split_spills :
  (∃ s, (s <- init new 64 16;; s <- get s 16 16;; get s 16 16) = Ok s ∧
     unit_bytes s 1 = 32 ∧ unit_bytes s 2 = 0 ∧
     ∃ s' r, split s 16 new = Ok (s', r) ∧ unit_bytes r 0 = 16 ∧ unit_bytes r 1 = 16) ∧
  (∃ s, (s <- init new 64 16;; s <- get s 48 16;; get s 48 16) = Ok s ∧
     split s 16 new = Err BadAccess).
Proof.
  split.
  - exists (mk 16 4 [0; 32; 0; 0] 0). split_and!; [vm_compute; reflexivity..|].
    exists (mk 16 0 [] 0), (mk 16 3 [16; 16; 0] 0). split_and!; vm_compute; reflexivity.
  - exists (mk 16 4 [0; 0; 0; 32] 0). split; vm_compute; reflexivity.
Qed.

End UseTracker.
