(* ===== verification/Armor.v ===== *)
(** * Base64 (common/armor.c)

    [ceph_armor] and [ceph_unarmor] write into a buffer of a given size and return
    the number of characters written, or a negative error.  The buffer is modelled
    by the characters written so far and its capacity; characters and bytes are
    numbers below 256. *)
From S2P Require Import Prelude Denc.

Module Armor.

Definition EINVAL : Z := 22.
Definition ERANGE : Z := 34.

(** ['A'..'Z'], ['a'..'z'], ['0'..'9'], ['+'], ['/']. *)
Definition pem_key : list Z :=
  [65; 66; 67; 68; 69; 70; 71; 72; 73; 74; 75; 76; 77; 78; 79; 80; 81; 82; 83; 84; 85;
   86; 87; 88; 89; 90;
   97; 98; 99; 100; 101; 102; 103; 104; 105; 106; 107; 108; 109; 110; 111; 112; 113;
   114; 115; 116; 117; 118; 119; 120; 121; 122;
   48; 49; 50; 51; 52; 53; 54; 55; 56; 57; 43; 47].

Definition NL : Z := 10.
Definition PAD : Z := 61.

Definition encode_bits (c : Z) : res Z := zget pem_key c.

Definition decode_bits (c : Z) : Z :=
  if (65 <=? c) && (c <=? 90) then c - 65
  else if (97 <=? c) && (c <=? 122) then c - 97 + 26
  else if (48 <=? c) && (c <=? 57) then c - 48 + 52
  else if (c =? 43) || (c =? 45) then 62
  else if (c =? 47) || (c =? 95) then 63
  else if c =? PAD then 0
  else - EINVAL.

(** [set_str_val]: [None] is [-ERANGE]. *)
Definition set_str_val (cap : nat) (dst : list Z) (c : Z) : option (list Z) :=
  if bool_decide (length dst < cap)%nat then Some (dst ++ [u8 c]) else None.

(** [SET_DST] returns from the function when the buffer is full: [k] is the rest. *)
Definition SET_DST {A} (cap : nat) (dst : list Z) (c : Z) (full : list Z → A)
    (k : list Z → A) : A :=
  match set_str_val cap dst c with Some d => k d | None => full dst end.

(** The value returned and the characters written. *)
Definition reply : Type := Z * list Z.
Definition range_error (dst : list Z) : res reply := Ok (- ERANGE, dst).

(** The end of a turn: a line break after [line_width] characters. *)
Definition end_line (cap : nat) (line_width line : Z) (dst : list Z) (olen : Z)
    (k : list Z → Z → Z → res reply) : res reply :=
  let olen := s32 (olen + 4) in
  let line := s32 (line + 4) in
  if negb (line_width =? 0) && (line =? line_width) then
    SET_DST cap dst NL range_error (λ dst, k dst (s32 (olen + 1)) 0)
  else k dst olen line.

Fixpoint armor_loop (cap : nat) (line_width : Z) (src dst : list Z) (olen line : Z) :
    res reply :=
  match src with
  | [] => Ok (olen, dst)
  | a :: src =>
      e1 <- encode_bits (Z.shiftr a 2);;
      SET_DST cap dst e1 range_error (λ dst,
      match src with
      | [] =>
          e2 <- encode_bits (Z.shiftl (Z.land a 3) 4);;
          SET_DST cap dst e2 range_error (λ dst,
          SET_DST cap dst PAD range_error (λ dst,
          SET_DST cap dst PAD range_error (λ dst,
          end_line cap line_width line dst olen (λ dst olen line, Ok (olen, dst)))))
      | b :: src =>
          e2 <- encode_bits (Z.lor (Z.shiftl (Z.land a 3) 4) (Z.shiftr b 4));;
          SET_DST cap dst e2 range_error (λ dst,
          match src with
          | [] =>
              e3 <- encode_bits (Z.shiftl (Z.land b 15) 2);;
              SET_DST cap dst e3 range_error (λ dst,
              SET_DST cap dst PAD range_error (λ dst,
              end_line cap line_width line dst olen (λ dst olen line, Ok (olen, dst))))
          | c :: src =>
              e3 <- encode_bits (Z.lor (Z.shiftl (Z.land b 15) 2) (Z.shiftr c 6));;
              SET_DST cap dst e3 range_error (λ dst,
              e4 <- encode_bits (Z.land c 63);;
              SET_DST cap dst e4 range_error (λ dst,
              end_line cap line_width line dst olen (armor_loop cap line_width src)))
          end)
      end)
  end.

Definition ceph_armor_line_break (cap : nat) (src : list Z) (line_width : Z) : res reply :=
  armor_loop cap line_width src [] 0 0.

Definition ceph_armor (cap : nat) (src : list Z) : res reply :=
  ceph_armor_line_break cap src 0.

Fixpoint unarmor_loop (cap : nat) (src dst : list Z) (olen : Z) : reply :=
  match src with
  | [] => (olen, dst)
  | s0 :: src =>
      if s0 =? NL then unarmor_loop cap src dst olen else
      match src with
      | s1 :: s2 :: s3 :: src =>
          let a := decode_bits s0 in
          let b := decode_bits s1 in
          let c := decode_bits s2 in
          let d := decode_bits s3 in
          if (a <? 0) || (b <? 0) || (c <? 0) || (d <? 0) then (- EINVAL, dst) else
          SET_DST cap dst (Z.lor (Z.shiftl a 2) (Z.shiftr b 4)) (λ dst, (- ERANGE, dst)) (λ dst,
          if s2 =? PAD then (s32 (olen + 1), dst) else
          SET_DST cap dst (Z.lor (Z.shiftl (Z.land b 15) 4) (Z.shiftr c 2))
            (λ dst, (- ERANGE, dst)) (λ dst,
          if s3 =? PAD then (s32 (olen + 2), dst) else
          SET_DST cap dst (Z.lor (Z.shiftl (Z.land c 3) 6) d) (λ dst, (- ERANGE, dst)) (λ dst,
          unarmor_loop cap src dst (s32 (olen + 3)))))
      | _ => (- EINVAL, dst)
      end
  end.

Definition ceph_unarmor (cap : nat) (src : list Z) : reply := unarmor_loop cap src [] 0.

(** ** Characters *)

Definition key (k : Z) : Z := default 0 (pem_key !! Z.to_nat k).

Definition key_good (k : Z) : bool :=
  match encode_bits k with Ok v => v =? key k | Err _ => false end && (decode_bits (key k) =? k) &&
  negb (key k =? NL) && negb (key k =? PAD) && (u8 (key k) =? key k).

Lemma key_table : all_below 64 key_good = true.
Proof. vm_compute. reflexivity. Qed.

Lemma key_ok k :
  0 <= k < 64 →
  encode_bits k = Ok (key k) ∧ decode_bits (key k) = k ∧ key k ≠ NL ∧ key k ≠ PAD ∧
  u8 (key k) = key k.
Proof.
  intros Hk. pose proof (all_below_spec _ _ k key_table Hk) as H. unfold key_good in H.
  rewrite !andb_true_iff, !negb_true_iff, !Z.eqb_eq, !Z.eqb_neq in H.
  destruct H as ((((H1 & H2) & H3) & H4) & H5).
  destruct (encode_bits k); [|done]. apply Z.eqb_eq in H1 as ->. auto.
Qed.

(** The six-bit groups of three bytes, and the bytes of four groups. *)
Definition g1 (a : Z) : Z := a / 4.
Definition g2 (a b : Z) : Z := a mod 4 * 16 + b / 16.
Definition g3 (b c : Z) : Z := b mod 16 * 4 + c / 64.
Definition g4 (c : Z) : Z := c mod 64.

Definition is_byte (a : Z) : Prop := 0 <= a < 256.

Lemma land_15 v : Z.land v 15 = v mod 16.
Proof. apply (Z.land_ones v 4). lia. Qed.
Lemma land_63 v : Z.land v 63 = v mod 64.
Proof. apply (Z.land_ones v 6). lia. Qed.

Lemma lor_hi_lo h l n : 0 <= n → 0 <= l < 2 ^ n → Z.lor (Z.shiftl h n) l = h * 2 ^ n + l.
Proof.
  intros Hn Hl. rewrite Z.lor_comm, Denc.lor_shiftl by done. lia.
Qed.

Ltac divmod x n :=
  pose proof (Z.div_mod x n ltac:(lia)); pose proof (Z.mod_pos_bound x n ltac:(lia)).

Lemma groups a b c :
  is_byte a → is_byte b → is_byte c →
  Z.shiftr a 2 = g1 a ∧ Z.shiftl (Z.land a 3) 4 = g2 a 0 ∧
  Z.lor (Z.shiftl (Z.land a 3) 4) (Z.shiftr b 4) = g2 a b ∧
  Z.shiftl (Z.land b 15) 2 = g3 b 0 ∧
  Z.lor (Z.shiftl (Z.land b 15) 2) (Z.shiftr c 6) = g3 b c ∧ Z.land c 63 = g4 c ∧
  0 <= g1 a < 64 ∧ 0 <= g2 a b < 64 ∧ 0 <= g3 b c < 64 ∧ 0 <= g4 c < 64.
Proof.
  unfold is_byte, g1, g2, g3, g4. intros Ha Hb Hc.
  rewrite Denc.land_3, land_15, land_63, !Z.shiftr_div_pow2 by lia.
  change (2 ^ 2) with 4; change (2 ^ 4) with 16; change (2 ^ 6) with 64.
  divmod a 4; divmod b 16; divmod c 64.
  rewrite !lor_hi_lo by lia. rewrite !Z.shiftl_mul_pow2 by lia.
  change (0 / 16) with 0; change (0 / 64) with 0. split_and!; lia.
Qed.

Lemma ungroups a b c :
  is_byte a → is_byte b → is_byte c →
  u8 (Z.lor (Z.shiftl (g1 a) 2) (Z.shiftr (g2 a b) 4)) = a ∧
  u8 (Z.lor (Z.shiftl (Z.land (g2 a b) 15) 4) (Z.shiftr (g3 b c) 2)) = b ∧
  u8 (Z.lor (Z.shiftl (Z.land (g3 b c) 3) 6) (g4 c)) = c.
Proof.
  unfold is_byte, g1, g2, g3, g4. intros Ha Hb Hc.
  rewrite Denc.land_3, land_15, !Z.shiftr_div_pow2 by lia.
  change (2 ^ 2) with 4; change (2 ^ 4) with 16.
  divmod a 4; divmod b 16; divmod c 64.
  rewrite (Z.add_comm (a mod 4 * 16)), (Z.add_comm (b mod 16 * 4)).
  rewrite !Z.div_add, !Z.mod_add, !(Z.div_div b 16 16), !(Z.div_div c 64 4) by lia.
  rewrite (Z.div_small b), (Z.div_small c), (Z.mod_small (b / 16)), (Z.mod_small (c / 64)) by lia.
  rewrite !Z.add_0_l, !lor_hi_lo by lia. rewrite !u8_small by lia. lia.
Qed.

(** ** What the encoder writes *)

Definition breaks (line_width line : Z) : bool :=
  negb (line_width =? 0) && (s32 (line + 4) =? line_width).
Definition line_break (line_width line : Z) : list Z := if breaks line_width line then [NL] else [].
Definition next_line (line_width line : Z) : Z :=
  if breaks line_width line then 0 else s32 (line + 4).

Fixpoint armored (line_width : Z) (src : list Z) (line : Z) : list Z :=
  match src with
  | [] => []
  | [a] => [key (g1 a); key (g2 a 0); PAD; PAD] ++ line_break line_width line
  | [a; b] => [key (g1 a); key (g2 a b); key (g3 b 0); PAD] ++ line_break line_width line
  | a :: b :: c :: src =>
      [key (g1 a); key (g2 a b); key (g3 b c); key (g4 c)] ++ line_break line_width line ++
      armored line_width src (next_line line_width line)
  end.

Lemma list_ind3 {A} (P : list A → Prop) :
  P [] → (∀ a, P [a]) → (∀ a b, P [a; b]) → (∀ a b c l, P l → P (a :: b :: c :: l)) → ∀ l, P l.
Proof.
  intros H0 H1 H2 H3 l. enough (P l ∧ (∀ a, P (a :: l)) ∧ ∀ a b, P (a :: b :: l)) by tauto.
  induction l as [|x l (I1 & I2 & I3)]; [by auto|]. split_and!; auto.
Qed.

Lemma set_dst_ok {A} cap dst c (full k : list Z → A) :
  (length dst < cap)%nat → SET_DST cap dst c full k = k (dst ++ [u8 c]).
Proof. intros H. unfold SET_DST, set_str_val. by rewrite bool_decide_eq_true_2. Qed.

Lemma end_line_ok cap lw line dst olen k :
  (length dst + length (line_break lw line) <= cap)%nat →
  0 <= olen → olen + 4 + Z.of_nat (length (line_break lw line)) < 2 ^ 31 →
  end_line cap lw line dst olen k =
    k (dst ++ line_break lw line) (olen + 4 + Z.of_nat (length (line_break lw line)))
      (next_line lw line).
Proof.
  intros Hc H0 Ho. unfold end_line, line_break, next_line in *. fold (breaks lw line).
  destruct (breaks lw line); simpl in *.
  - rewrite set_dst_ok by lia. rewrite (s32_small (olen + 4)), s32_small by lia. done.
  - rewrite (s32_small (olen + 4)) by lia. by rewrite app_nil_r, Z.add_0_r.
Qed.

Lemma byte_0 : is_byte 0.
Proof. unfold is_byte. lia. Qed.

Lemma encode_key k : 0 <= k < 64 → encode_bits k = Ok (key k).
Proof. intros Hk. by destruct (key_ok k Hk). Qed.

(** Appends a character of the key to the buffer. *)
Lemma set_key {A} cap dst k (full f : list Z → A) :
  0 <= k < 64 → (length dst < cap)%nat → SET_DST cap dst (key k) full f = f (dst ++ [key k]).
Proof. intros Hk Hl. rewrite set_dst_ok by done. by destruct (key_ok k Hk) as (_ & _ & _ & _ & ->). Qed.

Ltac room := rewrite ?length_app; simpl length; lia.

Lemma armor_loop_ok lw cap src : ∀ dst olen line,
  Forall is_byte src →
  (length dst + length (armored lw src line) <= cap)%nat →
  0 <= olen → olen + Z.of_nat (length (armored lw src line)) < 2 ^ 31 →
  armor_loop cap lw src dst olen line =
    Ok (olen + Z.of_nat (length (armored lw src line)), dst ++ armored lw src line).
Proof.
  induction src as [|a|a b|a b c src IH] using list_ind3; intros dst olen line Hs Hc H0 Ho.
  - simpl. by rewrite Z.add_0_r, app_nil_r.
  - inversion_clear Hs as [|?? Ha _]. cbn [armored armor_loop] in *.
    rewrite length_app in *. simpl length in *.
    destruct (groups a 0 0 Ha byte_0 byte_0) as (E1 & E2 & _ & _ & _ & _ & R1 & R2 & _ & _).
    rewrite E1, E2, !encode_key by done. cbn [bind].
    do 2 (rewrite set_key by (done || room)). do 2 (rewrite set_dst_ok by room).
    rewrite end_line_ok by (lia || room).
    change (u8 PAD) with PAD. rewrite <- !app_assoc. simpl. do 2 f_equal. lia.
  - inversion_clear Hs as [|?? Ha Hs']. inversion_clear Hs' as [|?? Hb _].
    cbn [armored armor_loop] in *. rewrite length_app in *. simpl length in *.
    destruct (groups a b 0 Ha Hb byte_0) as (E1 & _ & E2 & E3 & _ & _ & R1 & R2 & R3 & _).
    rewrite E1, E2, E3, !encode_key by done. cbn [bind].
    do 3 (rewrite set_key by (done || room)). rewrite set_dst_ok by room.
    rewrite end_line_ok by (lia || room).
    change (u8 PAD) with PAD. rewrite <- !app_assoc. simpl. do 2 f_equal. lia.
  - inversion_clear Hs as [|?? Ha Hs']. inversion_clear Hs' as [|?? Hb Hs].
    inversion_clear Hs as [|?? Hc' Hs']. cbn [armored armor_loop] in *.
    rewrite !length_app in *. simpl length in *.
    destruct (groups a b c Ha Hb Hc') as (E1 & _ & E2 & _ & E3 & E4 & R1 & R2 & R3 & R4).
    rewrite E1, E2, E3, E4, !encode_key by done. cbn [bind].
    do 4 (rewrite set_key by (done || room)). rewrite end_line_ok by (lia || room).
    rewrite IH by (done || lia || room). rewrite <- !app_assoc. simpl. do 2 f_equal. lia.
Qed.

(** ** Reading it back *)

Lemma unarmor_break cap lw line src dst olen :
  unarmor_loop cap (line_break lw line ++ src) dst olen = unarmor_loop cap src dst olen.
Proof. unfold line_break. by destruct (breaks lw line). Qed.

Lemma decode_key k : 0 <= k < 64 → decode_bits (key k) = k.
Proof. intros Hk. by destruct (key_ok k Hk) as (_ & ? & _). Qed.
Lemma key_not_nl k : 0 <= k < 64 → (key k =? NL) = false.
Proof. intros Hk. apply Z.eqb_neq. by destruct (key_ok k Hk) as (_ & _ & ? & _). Qed.
Lemma key_not_pad k : 0 <= k < 64 → (key k =? PAD) = false.
Proof. intros Hk. apply Z.eqb_neq. by destruct (key_ok k Hk) as (_ & _ & _ & ? & _). Qed.

Lemma nonneg_all x y z w :
  0 <= x → 0 <= y → 0 <= z → 0 <= w →
  (x <? 0) || (y <? 0) || (z <? 0) || (w <? 0) = false.
Proof. intros. by rewrite !(proj2 (Z.ltb_ge _ _)). Qed.

Lemma unarmor_loop_ok lw cap src : ∀ dst olen line,
  Forall is_byte src → (length dst + length src <= cap)%nat →
  0 <= olen → olen + Z.of_nat (length src) < 2 ^ 31 →
  unarmor_loop cap (armored lw src line) dst olen =
    (olen + Z.of_nat (length src), dst ++ src).
Proof.
  induction src as [|a|a b|a b c src IH] using list_ind3; intros dst olen line Hs Hc H0 Ho.
  - simpl. by rewrite Z.add_0_r, app_nil_r.
  - inversion_clear Hs as [|?? Ha _]. cbn [armored app unarmor_loop]. simpl length in *.
    destruct (groups a 0 0 Ha byte_0 byte_0) as (_ & _ & _ & _ & _ & _ & R1 & R2 & _ & _).
    destruct (ungroups a 0 0 Ha byte_0 byte_0) as (U1 & _ & _).
    rewrite key_not_nl, !decode_key by done. change (decode_bits PAD) with 0.
    rewrite nonneg_all by lia. rewrite set_dst_ok by lia. rewrite U1, Z.eqb_refl.
    rewrite s32_small by lia. done.
  - inversion_clear Hs as [|?? Ha Hs']. inversion_clear Hs' as [|?? Hb _].
    cbn [armored app unarmor_loop]. simpl length in *.
    destruct (groups a b 0 Ha Hb byte_0) as (_ & _ & _ & _ & _ & _ & R1 & R2 & R3 & _).
    destruct (ungroups a b 0 Ha Hb byte_0) as (U1 & U2 & _).
    rewrite key_not_nl, !decode_key by done. change (decode_bits PAD) with 0.
    rewrite nonneg_all by lia. rewrite set_dst_ok by lia. rewrite key_not_pad by done.
    rewrite set_dst_ok by room. rewrite U1, U2, Z.eqb_refl.
    rewrite s32_small by lia. by rewrite <- app_assoc.
  - inversion_clear Hs as [|?? Ha Hs']. inversion_clear Hs' as [|?? Hb Hs].
    inversion_clear Hs as [|?? Hc' Hs']. cbn [armored app unarmor_loop]. simpl length in *.
    destruct (groups a b c Ha Hb Hc') as (_ & _ & _ & _ & _ & _ & R1 & R2 & R3 & R4).
    destruct (ungroups a b c Ha Hb Hc') as (U1 & U2 & U3).
    rewrite key_not_nl, !decode_key by done. rewrite nonneg_all by lia.
    rewrite set_dst_ok by lia. rewrite !key_not_pad by done.
    rewrite set_dst_ok by room. rewrite set_dst_ok by room. rewrite U1, U2, U3.
    rewrite unarmor_break, s32_small by lia. rewrite IH by (done || lia || room).
    rewrite <- !app_assoc. f_equal. lia.
Qed.

Lemma armored_length lw src : ∀ line,
  (length (armored lw src line) <= 2 * length src + 3)%nat.
Proof.
  assert (∀ line, length (line_break lw line) <= 1)%nat as Hb.
  { intros line. unfold line_break. destruct (breaks lw line); simpl; lia. }
  induction src as [|a|a b|a b c src IH] using list_ind3; intros line; cbn [armored];
    rewrite ?length_app; simpl length; specialize (Hb line); try lia.
  specialize (IH (next_line lw line)). lia.
Qed.

(** Base64 is undone: what [ceph_armor_line_break] makes of any bytes, with any
    line width and room for the result, [ceph_unarmor] turns back into these bytes,
    line breaks and padding included. *)
Theorem armor_roundtrip src line_width cap cap' :
  Forall is_byte src → Z.of_nat (length src) < 2 ^ 29 →
  (2 * length src + 3 <= cap)%nat → (length src <= cap')%nat →
  ∃ text, ceph_armor_line_break cap src line_width = Ok (Z.of_nat (length text), text) ∧
    ceph_unarmor cap' text = (Z.of_nat (length src), src).
Proof.
  intros Hs Hl Hc Hc'. exists (armored line_width src 0).
  pose proof (armored_length line_width src 0) as L. split.
  - unfold ceph_armor_line_break. rewrite armor_loop_ok by (done || simpl length; lia). done.
  - unfold ceph_unarmor. rewrite unarmor_loop_ok by (done || simpl length; lia). done.
Qed.

Lemma armor_roundtrip_witness :
  ∃ text, ceph_armor_line_break 20 [0; 255; 17; 34; 99] 4 = Ok (Z.of_nat (length text), text) ∧
    ceph_unarmor 5 text = (Z.of_nat (length [0; 255; 17; 34; 99]), [0; 255; 17; 34; 99]).
Proof.
  apply armor_roundtrip; simpl; try lia. repeat constructor; unfold is_byte; lia.
Defined.

End Armor.
