(* ===== verification/Utf8.v ===== *)
(** * UTF-8 (common/utf8.c)

    The encoder of one code point of up to 31 bits, the decoder, and the checker of
    byte strings, which decodes every multi-byte character and encodes it again.
    Bytes are numbers below 256; a buffer is the bytes that can be read. *)
From S2P Require Import Prelude Denc Armor.

Module Utf8.

Definition MAX_UTF8_SZ : nat := 6.

(** The [while (1)] of [high_bits_set]; eight shifts empty a byte. *)
Fixpoint high_bits_loop (fuel : nat) (c ret : Z) : res Z :=
  match fuel with
  | O => Err OutOfFuel
  | S fuel =>
      if negb (Z.land c 128 =? 128) then Ok ret
      else high_bits_loop fuel (Z.shiftl c 1) (ret + 1)
  end.

Definition high_bits_set (c : Z) : res Z := high_bits_loop 9 c 0.

Definition max_val : list Z :=
  [0x7f; 0x7ff; 0xffff; 0x1fffff; 0x3ffffff; 0x7fffffff].

(** The first [i] with [u <= max_val\[i\]]. *)
Fixpoint find_size (l : list Z) (u : Z) : option nat :=
  match l with
  | [] => None
  | m :: l => if u <=? m then Some O else S <$> find_size l u
  end.

(** The loop that fills [buf\[i\]] down to [buf\[1\]]. *)
Fixpoint encode_tail (j : nat) (u : Z) (buf : list Z) : Z * list Z :=
  match j with
  | O => (u, buf)
  | S j => encode_tail j (Z.shiftr u 6) (Z.lor 128 (Z.land u 63) :: buf)
  end.

(** The bytes of a code point; [None] is the return value [-1]. *)
Definition encode_utf8 (u : Z) : option (list Z) :=
  match find_size max_val u with
  | None => None
  | Some O => Some [u8 u]
  | Some i =>
      let '(u, buf) := encode_tail i u [] in
      let mask := u8 (Z.lnot (Z.shiftr 255 (Z.of_nat i + 1))) in
      Some (u8 (Z.lor mask u) :: buf)
  end.

(** The loop over the continuation bytes; [None] is [INVALID_UTF8_CHAR]. *)
Fixpoint decode_tail (code : Z) (buf : list Z) : option Z :=
  match buf with
  | [] => Some code
  | b :: buf =>
      if negb (Z.land b 192 =? 128) then None
      else decode_tail (Z.lor (Z.shiftl code 6) (Z.land b 63)) buf
  end.

Definition decode_utf8 (buf : list Z) : res (option Z) :=
  match buf with
  | [] => Ok None
  | [b] => Ok (if 128 <=? b then None else Some b)
  | b :: tail =>
      i <- high_bits_set b;;
      if negb (i =? Z.of_nat (length buf)) then Ok None else
      match decode_tail (Z.land b (Z.shiftr 255 i)) tail with
      | None => Ok None
      | Some code =>
          if (code =? 0xFFFE) || (code =? 0xFFFF) then Ok None
          else if (0xD800 <=? code) && (code <=? 0xDFFF) then Ok None
          else Ok (Some code)
      end
  end.

(** The bytes of a character decode, and encode to themselves again. *)
Definition re_encodes (u : list Z) : res bool :=
  code <- decode_utf8 u;;
  match code with
  | None => Ok false
  | Some code =>
      Ok (match encode_utf8 code with
          | None => false
          | Some u' =>
              bool_decide (length u = length u') && bool_decide (u = u')
          end)
  end.

(** [unsigned int c = buf\[i\]] of a signed [char]. *)
Definition as_unsigned (b : Z) : Z := if b <? 128 then b else u32 (b - 256).

(** The [while (1)] of [check_utf8] at [i], where [rest] is [buf] from there. *)
Fixpoint check_loop (rest : list Z) (i len : Z) (u : list Z) : res Z :=
  match rest with
  | [] => Err BadAccess
  | b :: rest =>
      let c := as_unsigned b in
      if (len <=? i) || (c <? 128) || negb (Z.land c 192 =? 128) then
        ok <- (if bool_decide (u = []) then Ok true else re_encodes u);;
        if negb ok then Ok (i + 1)
        else if len <=? i then Ok 0
        else check_loop rest (i + 1) len (if 128 <=? c then [u8 c] else [])
      else if bool_decide (length u = MAX_UTF8_SZ) then Ok (i + 1)
      else check_loop rest (i + 1) len (u ++ [u8 c])
  end.

Definition check_utf8 (buf : list Z) (len : Z) : res Z := check_loop buf 0 len [].

(** [strlen]; what follows the buffer is not to be read. *)
Fixpoint strlen (buf : list Z) : res Z :=
  match buf with
  | [] => Err BadAccess
  | b :: buf => if b =? 0 then Ok 0 else n <- strlen buf;; Ok (n + 1)
  end.

(** The length becomes an [int]. *)
Definition check_utf8_cstr (buf : list Z) : res Z :=
  n <- strlen buf;; check_utf8 buf (s32 n).

Definition is_control_character (c : Z) : bool :=
  (negb (c =? 0) && (c <? 32)) || (c =? 127).

Fixpoint control_loop (buf : list Z) (i : Z) : Z :=
  match buf with
  | [] => 0
  | b :: buf => if is_control_character b then i + 1 else control_loop buf (i + 1)
  end.

Definition check_for_control_characters (buf : list Z) : Z := control_loop buf 0.

(** ** Code points *)

Definition valid_code (c : Z) : Prop :=
  0 <= c <= 0x7fffffff ∧ c ≠ 0xFFFE ∧ c ≠ 0xFFFF ∧ ~ (0xD800 <= c <= 0xDFFF).

Definition is_cont (b : Z) : bool := Z.land b 192 =? 128.

Lemma cont_byte x :
  0 <= x < 64 →
  is_cont (Z.lor 128 x) = true ∧ Z.land (Z.lor 128 x) 63 = x ∧ 0 <= Z.lor 128 x < 256.
Proof.
  intros Hx.
  assert (all_below 64 (λ x, is_cont (Z.lor 128 x) && (Z.land (Z.lor 128 x) 63 =? x) &&
    (0 <=? Z.lor 128 x) && (Z.lor 128 x <? 256)) = true) as H by (vm_compute; reflexivity).
  apply (all_below_spec _ _ x) in H; [|lia].
  rewrite !andb_true_iff, Z.eqb_eq, Z.leb_le, Z.ltb_lt in H. tauto.
Qed.

(** Decoding undoes the continuation bytes. *)
Lemma encode_tail_decodes j : ∀ u buf,
  0 <= u →
  let '(top, l) := encode_tail j u buf in
  top = u / 64 ^ Z.of_nat j ∧ length l = (j + length buf)%nat ∧
  (Forall (λ b, is_cont b = true ∧ 0 <= b < 256) buf →
   Forall (λ b, is_cont b = true ∧ 0 <= b < 256) l) ∧
  decode_tail top l = decode_tail u buf.
Proof.
  induction j as [|j IH]; intros u buf Hu.
  - simpl. split_and!; try done. by rewrite Z.div_1_r.
  - cbn [encode_tail]. specialize (IH (Z.shiftr u 6) (Z.lor 128 (Z.land u 63) :: buf)).
    destruct (encode_tail _ _ _) as [top l]. rewrite Z.shiftr_div_pow2 in IH by lia.
    change (2 ^ 6) with 64 in IH. rewrite Armor.land_63 in IH.
    pose proof (Z.mod_pos_bound u 64 ltac:(lia)) as Hm. pose proof (Z.div_mod u 64 ltac:(lia)) as Hd.
    pose proof (Z.div_pos u 64 Hu ltac:(lia)).
    destruct (cont_byte (u mod 64) Hm) as (C1 & C2 & C3).
    destruct IH as (-> & -> & Hf & ->); [lia|]. split_and!.
    + rewrite Nat2Z.inj_succ, Z.pow_succ_r, Z.div_div by lia. done.
    + simpl. lia.
    + intros Hb. apply Hf. by constructor.
    + cbn [decode_tail]. fold (is_cont (Z.lor 128 (u mod 64))). rewrite C1, C2. cbn [negb].
      rewrite Armor.lor_hi_lo by lia. change (2 ^ 6) with 64. f_equal. lia.
Qed.

(** The mask of a lead byte with [i] continuation bytes. *)
Definition lead_mask (i : Z) : Z := u8 (Z.lnot (Z.shiftr 255 (i + 1))).

(** A lead byte tells how many bytes follow and keeps its bits. *)
Definition lead_good (i top : Z) : bool :=
  let b := u8 (Z.lor (lead_mask i) top) in
  match high_bits_set b with Ok n => n =? i + 1 | Err _ => false end &&
  (Z.land b (Z.shiftr 255 (i + 1)) =? top) && (192 <=? b) && (b <? 256).

Lemma lead_table :
  all_below 5 (λ j, all_below (2 ^ (5 - Z.to_nat j)) (lead_good (j + 1))) = true.
Proof. vm_compute. reflexivity. Qed.

Lemma lead_byte i top :
  1 <= i <= 5 → 0 <= top < 2 ^ (6 - i) →
  let b := u8 (Z.lor (lead_mask i) top) in
  high_bits_set b = Ok (i + 1) ∧ Z.land b (Z.shiftr 255 (i + 1)) = top ∧ 192 <= b < 256.
Proof.
  intros Hi Ht b. pose proof (all_below_spec _ _ (i - 1) lead_table ltac:(lia)) as H. simpl in H.
  apply (all_below_spec _ _ top) in H.
  - replace (i - 1 + 1) with i in H by lia. unfold lead_good in H. fold b in H.
    rewrite !andb_true_iff, Z.eqb_eq, Z.leb_le, Z.ltb_lt in H. destruct H as (((H1 & H2) & H3) & H4).
    destruct (high_bits_set b); [|done]. apply Z.eqb_eq in H1 as ->. done.
  - assert (i = 1 ∨ i = 2 ∨ i = 3 ∨ i = 4 ∨ i = 5) as [->|[->|[->|[->| ->]]]] by lia; simpl in *; lia.
Qed.

(** The size of an encoding. *)
Lemma find_size_spec u :
  128 <= u <= 0x7fffffff →
  ∃ i, find_size max_val u = Some (S i) ∧ (S i <= 5)%nat ∧
    u / 64 ^ Z.of_nat (S i) < 2 ^ (6 - Z.of_nat (S i)).
Proof.
  intros Hu. unfold find_size, max_val.
  destruct (Z.leb_spec u 0x7f); [lia|].
  destruct (Z.leb_spec u 0x7ff); [exists 0%nat; split_and!; [done|lia|apply Z.div_lt_upper_bound; simpl; lia]|].
  destruct (Z.leb_spec u 0xffff); [exists 1%nat; split_and!; [done|lia|apply Z.div_lt_upper_bound; simpl; lia]|].
  destruct (Z.leb_spec u 0x1fffff); [exists 2%nat; split_and!; [done|lia|apply Z.div_lt_upper_bound; simpl; lia]|].
  destruct (Z.leb_spec u 0x3ffffff); [exists 3%nat; split_and!; [done|lia|apply Z.div_lt_upper_bound; simpl; lia]|].
  destruct (Z.leb_spec u 0x7fffffff); [exists 4%nat; split_and!; [done|lia|apply Z.div_lt_upper_bound; simpl; lia]|].
  lia.
Qed.

(** An encoding is a byte that is no continuation and at most five that are. *)
Definition shaped (l : list Z) : Prop :=
  ∃ b t, l = b :: t ∧ is_cont b = false ∧ 0 <= b < 256 ∧
    Forall (λ c, is_cont c = true ∧ 0 <= c < 256) t ∧ (length t <= 5)%nat.

Lemma small_not_cont b : 0 <= b < 128 → is_cont b = false.
Proof.
  intros Hb. assert (all_below 128 (λ b, negb (is_cont b)) = true) as H by (vm_compute; reflexivity).
  apply (all_below_spec _ _ b) in H; [|lia]. by apply negb_true_iff.
Qed.
Lemma large_not_cont b : 192 <= b < 256 → is_cont b = false.
Proof.
  intros Hb. assert (all_below 256 (λ b, (b <? 192) || negb (is_cont b)) = true) as H
    by (vm_compute; reflexivity).
  apply (all_below_spec _ _ b) in H; [|lia]. cbv beta in H.
  rewrite (proj2 (Z.ltb_ge b 192)) in H by lia. by apply negb_true_iff.
Qed.

Lemma encode_small u : 0 <= u < 128 → encode_utf8 u = Some [u].
Proof.
  intros Hu. unfold encode_utf8, find_size, max_val. rewrite (proj2 (Z.leb_le u _)) by lia.
  by rewrite u8_small by lia.
Qed.

(** A code point of several bytes decodes to itself. *)
Lemma encode_large u :
  valid_code u → 128 <= u →
  ∃ b t, encode_utf8 u = Some (b :: t) ∧ 192 <= b < 256 ∧ t ≠ [] ∧
    Forall (λ c, is_cont c = true ∧ 0 <= c < 256) t ∧ (length t <= 5)%nat ∧
    decode_utf8 (b :: t) = Ok (Some u).
Proof.
  intros (Hu & H1 & H2 & H3) Hl. destruct (find_size_spec u) as (i & E & Hi & Ht); [lia|].
  unfold encode_utf8. rewrite E.
  pose proof (encode_tail_decodes (S i) u [] ltac:(lia)) as H.
  destruct (encode_tail (S i) u []) as [top l]. destruct H as (-> & Hlen & Hf & Hd).
  fold (lead_mask (Z.of_nat (S i))).
  destruct (lead_byte (Z.of_nat (S i)) (u / 64 ^ Z.of_nat (S i))) as (B1 & B2 & B3).
  { lia. } { split; [|done]. apply Z.div_pos; lia. }
  set (b := u8 _) in *. exists b, l. simpl in Hlen. split_and!; [done|lia|lia| | |lia|].
  - by destruct l.
  - apply Hf. constructor.
  - unfold decode_utf8. destruct l as [|c l]; [done|]. rewrite B1. cbn [bind].
    replace (Z.of_nat (S i) + 1 =? Z.of_nat (length (b :: c :: l))) with true
      by (symmetry; apply Z.eqb_eq; simpl length in *; lia).
    cbn [negb]. rewrite B2, Hd. simpl.
    rewrite (proj2 (Z.eqb_neq u 0xFFFE)), (proj2 (Z.eqb_neq u 0xFFFF)) by done. simpl.
    destruct (Z.leb_spec 0xD800 u), (Z.leb_spec u 0xDFFF); simpl; try done. lia.
Qed.

(** ** Strings *)

(** Code points, each as the encoder writes it, one after another. *)
Inductive encoded_utf8 : list Z → Prop :=
| encoded_nil : encoded_utf8 []
| encoded_cons c l s :
    valid_code c → encode_utf8 c = Some l → encoded_utf8 s → encoded_utf8 (l ++ s).

Definition conts (l : list Z) : Prop := Forall (λ c, is_cont c = true ∧ 0 <= c < 256) l.
Definition starts (l : list Z) : Prop :=
  match l with [] => True | b :: _ => is_cont b = false end.

Lemma encode_cases c l :
  valid_code c → encode_utf8 c = Some l →
  (l = [c] ∧ c < 128) ∨
  (∃ b t, l = b :: t ∧ 192 <= b < 256 ∧ t ≠ [] ∧ conts t ∧ (length t <= 5)%nat ∧
     decode_utf8 l = Ok (Some c)).
Proof.
  intros Hc E. destruct (Z.lt_ge_cases c 128) as [L|L].
  - left. destruct Hc as (H0 & _). rewrite encode_small in E by lia. by injection E as <-.
  - right. destruct (encode_large c Hc L) as (b & t & E' & Hb & Ht & Hf & Hl & Hd).
    rewrite E in E'. injection E' as ->. by exists b, t.
Qed.

Lemma encode_shape c l :
  valid_code c → encode_utf8 c = Some l →
  ∃ b t, l = b :: t ∧ is_cont b = false ∧ conts t ∧ (length t <= 5)%nat.
Proof.
  intros Hc E. destruct (encode_cases c l Hc E) as [(-> & L)|(b & t & -> & Hb & _ & Hf & Hl & _)].
  - exists c, []. destruct Hc as (H0 & _). split_and!; [done|by apply small_not_cont; lia|constructor|simpl; lia].
  - exists b, t. split_and!; try done. by apply large_not_cont.
Qed.

Lemma valid_starts s : encoded_utf8 s → starts s.
Proof.
  intros [|c l s' Hc E _]; [done|]. destruct (encode_shape c l Hc E) as (b & t & -> & Hb & _). done.
Qed.

(** Runs of continuation bytes are delimited by what starts a character. *)
Lemma conts_unique t l t' l' :
  conts t → conts t' → starts l → starts l' → t ++ l = t' ++ l' → t = t' ∧ l = l'.
Proof.
  intros Ht. revert t'. induction Ht as [|c t [Hc _] Ht IH]; intros t' Ht' Hl Hl' E.
  - destruct Ht' as [|c' t' [Hc' _] _]; [done|]. simpl in E. subst l. simpl in Hl. congruence.
  - destruct Ht' as [|c' t' [Hc' _] Ht']; simpl in E.
    + subst l'. simpl in Hl'. congruence.
    + injection E as -> E. destruct (IH t' Ht' Hl Hl' E) as [-> ->]. done.
Qed.

Lemma valid_char b t l :
  conts t → starts l →
  encoded_utf8 (b :: t ++ l) ↔
    (∃ c, valid_code c ∧ encode_utf8 c = Some (b :: t)) ∧ encoded_utf8 l.
Proof.
  intros Ht Hl. split.
  - intros H. inversion H as [E|c e s Hc E Hs E']. destruct (encode_shape c e Hc E) as (b' & t' & -> & _ & Ht' & _).
    simpl in E'. injection E' as -> E'.
    destruct (conts_unique t' s t l) as [-> ->]; try done; [by apply valid_starts|]. eauto.
  - intros [(c & Hc & E) Hv]. change (b :: t ++ l) with ((b :: t) ++ l). by eapply encoded_cons.
Qed.

Lemma valid_ascii b l : 0 <= b < 128 → encoded_utf8 (b :: l) ↔ encoded_utf8 l.
Proof.
  intros Hb. split.
  - intros H. inversion H as [E|c e s Hc E Hs E'].
    destruct (encode_cases c e Hc E) as [(-> & _)|(b' & t' & -> & Hb' & _)]; simpl in E'.
    + by injection E' as _ <-.
    + injection E' as -> _. lia.
  - intros H. change (b :: l) with ([b] ++ l). apply (encoded_cons b); [|by apply encode_small|done].
    unfold valid_code. lia.
Qed.

(** More than five continuation bytes belong to no character. *)
Lemma too_long b t c l : length t = 5%nat → conts t → is_cont c = true → ~ encoded_utf8 (b :: t ++ c :: l).
Proof.
  intros Hl Ht Hc H. inversion H as [E|k e s Hk E Hs E'].
  destruct (encode_shape k e Hk E) as (b' & t' & -> & _ & Ht' & Hl'). simpl in E'. injection E' as -> E'.
  apply valid_starts in Hs.
  assert ((t' ++ s) !! length t' = (t ++ c :: l) !! length t') as El by (by rewrite E').
  rewrite lookup_app_r, Nat.sub_diag in El by lia.
  assert (∃ d, (t ++ c :: l) !! length t' = Some d ∧ is_cont d = true) as (d & Ed & Hd).
  { destruct (decide (length t' = 5%nat)) as [E5|].
    - exists c. rewrite lookup_app_r by lia. replace (length t' - length t)%nat with 0%nat by lia. done.
    - destruct (lookup_lt_is_Some_2 t (length t')) as [d Hd]; [lia|]. exists d.
      rewrite lookup_app_l by lia. split; [done|]. by destruct (Forall_lookup_1 _ _ _ _ Ht Hd). }
  rewrite Ed in El. destruct s as [|x s]; [done|]. injection El as ->. simpl in Hs. congruence.
Qed.

(** ** The checker *)

Lemma high_bits_total b : 0 <= b < 256 → ∃ n, high_bits_set b = Ok n.
Proof.
  intros Hb. assert (all_below 256 (λ b, match high_bits_set b with Ok _ => true | _ => false end) = true)
    as H by (vm_compute; reflexivity).
  apply (all_below_spec _ _ b) in H; [|lia]. cbv beta in H. destruct (high_bits_set b) as [n|]; [by exists n|done].
Qed.

Lemma as_unsigned_byte b :
  0 <= b < 256 →
  (as_unsigned b <? 128) = (b <? 128) ∧ (128 <=? as_unsigned b) = (128 <=? b) ∧
  (Z.land (as_unsigned b) 192 =? 128) = is_cont b ∧ u8 (as_unsigned b) = b.
Proof.
  intros Hb. assert (all_below 256 (λ b,
    Bool.eqb (as_unsigned b <? 128) (b <? 128) && Bool.eqb (128 <=? as_unsigned b) (128 <=? b) &&
    Bool.eqb (Z.land (as_unsigned b) 192 =? 128) (is_cont b) && (u8 (as_unsigned b) =? b)) = true)
    as H by (vm_compute; reflexivity).
  apply (all_below_spec _ _ b) in H; [|lia]. cbv beta in H.
  rewrite !andb_true_iff, !Bool.eqb_true_iff, Z.eqb_eq in H. tauto.
Qed.

Lemma decode_tail_nonneg t : ∀ code v, 0 <= code → decode_tail code t = Some v → 0 <= v.
Proof.
  induction t as [|b t IH]; intros code v Hc; simpl; [congruence|].
  destruct (negb _); [done|]. apply IH. rewrite Armor.land_63. apply Z.lor_nonneg.
  split; [by apply Z.shiftl_nonneg|]. apply Z.mod_pos_bound. lia.
Qed.

Lemma encode_some u l : 0 <= u → encode_utf8 u = Some l → u <= 0x7fffffff.
Proof.
  intros Hu E. destruct (Z.le_gt_cases u 0x7fffffff); [done|]. exfalso. revert E.
  unfold encode_utf8, find_size, max_val. by rewrite !(proj2 (Z.leb_gt u _)) by lia.
Qed.

(** What re-encoding finds of a byte that is not ASCII and those after it. *)
Lemma re_encodes_ok b t :
  128 <= b < 256 →
  ∃ ok, re_encodes (b :: t) = Ok ok ∧
    (ok = true ↔ ∃ c, valid_code c ∧ encode_utf8 c = Some (b :: t)).
Proof.
  intros Hb.
  assert (∀ c, valid_code c → encode_utf8 c = Some (b :: t) → decode_utf8 (b :: t) = Ok (Some c)) as Hback.
  { intros c Hc E. destruct (encode_cases c _ Hc E) as [(E' & L)|(b' & t' & _ & _ & _ & _ & _ & Hd)]; [|done].
    injection E' as -> ->. lia. }
  assert (∃ o, decode_utf8 (b :: t) = Ok o ∧ ∀ c l, o = Some c → encode_utf8 c = Some l → valid_code c)
    as (o & Ed & Ho).
  { unfold decode_utf8. destruct t as [|d t].
    { eexists. split; [done|]. rewrite (proj2 (Z.leb_le 128 b)) by lia. done. }
    destruct (high_bits_total b) as [n ->]; [lia|]. cbn [bind]. destruct (negb _); [by exists None|].
    destruct (decode_tail _ _) as [code|] eqn:Et; [|by exists None].
    apply decode_tail_nonneg in Et; [|apply Z.land_nonneg; left; lia].
    destruct ((code =? 0xFFFE) || (code =? 0xFFFF)) eqn:E1; [by exists None|].
    destruct ((0xD800 <=? code) && (code <=? 0xDFFF)) eqn:E2; [by exists None|].
    exists (Some code). split; [done|]. intros c l [= <-] E. apply encode_some in E; [|done].
    unfold valid_code. lia. }
  unfold re_encodes. rewrite Ed. cbn [bind]. destruct o as [c|].
  - eexists. split; [done|]. destruct (encode_utf8 c) as [l|] eqn:E.
    + rewrite andb_true_iff, !bool_decide_eq_true. split.
      * intros [_ <-]. exists c. eauto.
      * intros (c' & Hc' & E'). rewrite (Hback c' Hc' E') in Ed. injection Ed as ->.
        rewrite E' in E. by injection E as <-.
    + split; [done|]. intros (c' & Hc' & E'). rewrite (Hback c' Hc' E') in Ed. injection Ed as ->. congruence.
  - eexists. split; [done|]. split; [done|]. intros (c' & Hc' & E').
    rewrite (Hback c' Hc' E') in Ed. done.
Qed.

(** The bytes collected of a character. *)
Definition pending (u : list Z) : Prop :=
  u = [] ∨ ∃ b t, u = b :: t ∧ 128 <= b < 256 ∧ conts t ∧ (length t <= 5)%nat.

(** Whether what was collected is a character, when the next one starts. *)
Lemma flush_ok u l :
  pending u → starts l →
  ∃ ok, (if bool_decide (u = []) then Ok true else re_encodes u) = Ok ok ∧
    (encoded_utf8 (u ++ l) ↔ ok = true ∧ encoded_utf8 l).
Proof.
  intros [->|(b & t & -> & Hb & Ht & Hl)] Hs.
  - exists true. split; [done|]. simpl. tauto.
  - rewrite bool_decide_eq_false_2 by done. destruct (re_encodes_ok b t Hb) as (ok & -> & Hok).
    exists ok. split; [done|]. rewrite Hok. by apply valid_char.
Qed.

Lemma cont_large b : 0 <= b < 256 → is_cont b = true → 128 <= b.
Proof. intros Hb Hc. destruct (Z.lt_ge_cases b 128); [|done]. rewrite small_not_cont in Hc by lia. done. Qed.

Lemma check_loop_ok l : ∀ i len u x rest,
  0 <= i → len = i + Z.of_nat (length l) → Forall (λ b, 0 <= b < 256) (l ++ [x]) → pending u →
  ∃ r, check_loop (l ++ x :: rest) i len u = Ok r ∧ 0 <= r ∧ (r = 0 ↔ encoded_utf8 (u ++ l)).
Proof.
  induction l as [|b l IH]; intros i len u x rest Hi Hlen Hbytes Hp; cbn [app check_loop].
  - simpl in Hlen. rewrite (proj2 (Z.leb_le len i)) by lia. cbn [orb].
    destruct (flush_ok u [] Hp) as (ok & -> & Hok); [done|]. cbn [bind].
    destruct ok; simpl; eexists; (split; [done|]); (split; [lia|]); rewrite Hok.
    + split; [|done]. intros _. split; [done|constructor].
    + split; [lia|]. by intros [? _].
  - simpl length in Hlen. inversion_clear Hbytes as [|?? Hb Hbytes'].
    destruct (as_unsigned_byte b Hb) as (A1 & A2 & A3 & A4). rewrite A1, A2, A3, A4.
    rewrite (proj2 (Z.leb_gt len i)) by lia. cbn [orb].
    destruct ((b <? 128) || negb (is_cont b)) eqn:Est.
    + assert (is_cont b = false) as Hc.
      { apply orb_true_iff in Est as [E|E]; [apply small_not_cont; lia|by apply negb_true_iff]. }
      destruct (flush_ok u (b :: l) Hp) as (ok & -> & Hok); [done|]. cbn [bind].
      destruct ok; simpl; first last.
      { eexists. split; [done|]. split; [lia|]. rewrite Hok. split; [lia|]. by intros [? _]. }
      destruct (IH (i + 1) len (if 128 <=? b then [b] else []) x rest) as (r & -> & Hr & Hiff); try done; try lia.
      { destruct (Z.leb_spec 128 b); [right|by left]. exists b, []. split_and!; [done|lia|lia|constructor|simpl; lia]. }
      exists r. split_and!; [done|done|]. rewrite Hiff, Hok.
      destruct (Z.leb_spec 128 b); simpl; [tauto|]. rewrite valid_ascii by lia. tauto.
    + apply orb_false_iff in Est as [E1 E2]. apply negb_false_iff in E2.
      destruct (decide (length u = MAX_UTF8_SZ)) as [E6|E6].
      * rewrite bool_decide_eq_true_2 by done. eexists. split; [done|]. split; [lia|]. split; [lia|].
        destruct Hp as [->|(h & t & -> & Hh & Ht & Hl)]; [done|]. simpl in E6. unfold MAX_UTF8_SZ in E6.
        intros Hv. simpl in Hv. destruct (too_long h t b l); try done. lia.
      * rewrite bool_decide_eq_false_2 by done.
        destruct (IH (i + 1) len (u ++ [b]) x rest) as (r & -> & Hr & Hiff); try done; try lia.
        { right. pose proof (cont_large b Hb E2). unfold MAX_UTF8_SZ in E6.
          destruct Hp as [->|(h & t & -> & Hh & Ht & Hl)]; simpl in *.
          - exists b, []. split_and!; [done|lia|lia|constructor|simpl; lia].
          - exists h, (t ++ [b]). split_and!; try (done || lia).
            + apply Forall_app. split; [done|]. constructor; [done|constructor].
            + rewrite length_app. simpl. lia. }
        exists r. split_and!; [done|done|]. by rewrite Hiff, <- app_assoc.
Qed.

(** The number returned is at most one past the end. *)
Lemma check_loop_bound buf : ∀ i len u r, check_loop buf i len u = Ok r → 0 <= i <= len → r <= len + 1.
Proof.
  induction buf as [|b buf IH]; intros i len u r; cbn [check_loop]; [done|]. intros E Hi.
  destruct ((len <=? i) || _ || _) eqn:Ec.
  - apply bind_inv in E as (ok & _ & E). destruct ok; cbn [negb] in E; [|injection E as <-; lia].
    destruct (Z.leb_spec len i); [injection E as <-; lia|]. apply IH in E; lia.
  - destruct (bool_decide _); [injection E as <-; lia|]. destruct (Z.leb_spec len i); [done|]. apply IH in E; lia.
Qed.

(** *** What UTF-8 is *)

(** The bytes of a code point, as the format is defined: the range of the code point gives the number of bytes, the lead byte has as
    many high bits set and every byte that follows has six bits of the code point. *)
Inductive utf8_char : Z → list Z → Prop :=
| utf8_char1 c : 0 <= c < 0x80 → utf8_char c [c]
| utf8_char2 c : 0x80 <= c < 0x800 → utf8_char c [0xC0 + c / 64; 0x80 + c mod 64]
| utf8_char3 c : 0x800 <= c < 0x10000 → utf8_char c [0xE0 + c / 64 ^ 2; 0x80 + (c / 64) mod 64; 0x80 + c mod 64]
| utf8_char4 c : 0x10000 <= c < 0x200000 →
    utf8_char c [0xF0 + c / 64 ^ 3; 0x80 + (c / 64 ^ 2) mod 64; 0x80 + (c / 64) mod 64; 0x80 + c mod 64]
| utf8_char5 c : 0x200000 <= c < 0x4000000 →
    utf8_char c [0xF8 + c / 64 ^ 4; 0x80 + (c / 64 ^ 3) mod 64; 0x80 + (c / 64 ^ 2) mod 64; 0x80 + (c / 64) mod 64; 0x80 + c mod 64]
| utf8_char6 c : 0x4000000 <= c < 0x80000000 →
    utf8_char c [0xFC + c / 64 ^ 5; 0x80 + (c / 64 ^ 4) mod 64; 0x80 + (c / 64 ^ 3) mod 64; 0x80 + (c / 64 ^ 2) mod 64;
                 0x80 + (c / 64) mod 64; 0x80 + c mod 64].

(** Well-formed strings: the bytes of code points that are not reserved, one after another. *)
Inductive valid_utf8 : list Z → Prop :=
| valid_nil : valid_utf8 []
| valid_cons c l s : valid_code c → utf8_char c l → valid_utf8 s → valid_utf8 (l ++ s).

Lemma cont_sum u : Z.lor 128 (Z.land u 63) = 0x80 + u mod 64.
Proof.
  rewrite Armor.land_63. pose proof (Z.mod_pos_bound u 64 ltac:(lia)) as Hm.
  assert (all_below 64 (λ x, Z.lor 128 x =? 128 + x) = true) as H by (vm_compute; reflexivity).
  apply (all_below_spec _ _ (u mod 64)) in H; [|lia]. by apply Z.eqb_eq in H.
Qed.

(** The first byte by the number of bytes that follow. *)
Definition lead (i : Z) : Z := 256 - 2 ^ (7 - i).
Lemma lead_sum i top : 1 <= i <= 5 → 0 <= top < 2 ^ (6 - i) → u8 (Z.lor (u8 (Z.lnot (Z.shiftr 255 (i + 1)))) top) = lead i + top.
Proof.
  intros Hi Ht. assert (all_below 5 (λ j, all_below (2 ^ (5 - Z.to_nat j)) (λ t, u8 (Z.lor (lead_mask (j + 1)) t) =? lead (j + 1) + t)) = true) as H
    by (vm_compute; reflexivity).
  apply (all_below_spec _ _ (i - 1)) in H; [|lia]. cbv beta in H. replace (i - 1 + 1) with i in H by lia.
  apply (all_below_spec _ _ top) in H; [by apply Z.eqb_eq in H|].
  assert (i = 1 ∨ i = 2 ∨ i = 3 ∨ i = 4 ∨ i = 5) as [->|[->|[->|[->| ->]]]] by lia; simpl in *; lia.
Qed.

(** The encoder writes a code point of 31 bits as the format says. *)
Lemma encode_char c : 0 <= c <= 0x7fffffff → ∃ l, encode_utf8 c = Some l ∧ utf8_char c l.
Proof.
  intros Hc. assert (∀ i l, find_size max_val c = Some (S i) → (i < 5)%nat →
    c / 64 ^ Z.of_nat (S i) < 2 ^ (6 - Z.of_nat (S i)) → utf8_char c (lead (Z.of_nat (S i)) + c / 64 ^ Z.of_nat (S i) :: l) →
    (encode_tail (S i) c []).2 = l → ∃ l, encode_utf8 c = Some l ∧ utf8_char c l) as Hlarge.
  { intros i l E Hi Ht Hl El. unfold encode_utf8. rewrite E. pose proof (encode_tail_decodes (S i) c [] ltac:(lia)) as Hd.
    destruct (encode_tail (S i) c []) as [top l']. destruct Hd as (-> & _). simpl in El. subst l'. eexists. split; [reflexivity|].
    rewrite lead_sum; [done|lia|]. split; [apply Z.div_pos; lia|done]. }
  destruct (Z.lt_ge_cases c 128); [exists [c]; rewrite encode_small by lia; split; [done|apply utf8_char1; lia]|].
  destruct (find_size_spec c) as (i & E & Hi & Ht); [lia|].
  assert (∀ l, utf8_char c (lead (Z.of_nat (S i)) + c / 64 ^ Z.of_nat (S i) :: l) → (encode_tail (S i) c []).2 = l →
    ∃ l, encode_utf8 c = Some l ∧ utf8_char c l) as Hcase by (intros l; by apply Hlarge; [|lia|]).
  clear Hlarge Ht. unfold find_size, max_val in E. rewrite (proj2 (Z.leb_gt c 0x7f)) in E by lia.
  repeat (match type of E with context [?u <=? ?k] => destruct (Z.leb_spec u k) end; cbn [fmap option_fmap option_map] in E);
    try discriminate E; injection E as <-; (eapply Hcase; [|cbn [encode_tail snd]; rewrite !cont_sum, ?Z.shiftr_shiftr by lia;
      rewrite ?Z.shiftr_div_pow2 by lia; reflexivity]).
  - apply (utf8_char2 c). lia.
  - apply (utf8_char3 c). lia.
  - apply (utf8_char4 c). lia.
  - apply (utf8_char5 c). lia.
  - apply (utf8_char6 c). lia.
Qed.

Lemma utf8_char_encode c l : valid_code c → encode_utf8 c = Some l ↔ utf8_char c l.
Proof.
  intros [Hc _]. destruct (encode_char c Hc) as (l' & E & Hl'). split; [intros E'; congruence|]. intros Hl. rewrite E. f_equal.
  destruct Hl'; inversion Hl; subst; done || lia.
Qed.
Lemma valid_encoded s : valid_utf8 s ↔ encoded_utf8 s.
Proof. split; induction 1; econstructor; eauto; by apply utf8_char_encode. Qed.

Lemma strlen_ok s rest : 0 ∉ s → strlen (s ++ 0 :: rest) = Ok (Z.of_nat (length s)).
Proof.
  induction s as [|b s IH]; intros Hs; [done|]. apply not_elem_of_cons in Hs as [Hb Hs]. cbn [app strlen].
  rewrite (proj2 (Z.eqb_neq b 0)) by done. rewrite IH by done. cbn [bind length]. f_equal. lia.
Qed.

(** [C30] The UTF-8 checker accepts exactly the well-formed strings: sequences of
    code points of at most 31 bits, none a surrogate, 0xFFFE or 0xFFFF, each in
    the bytes that its range prescribes.  It always returns when one byte after the string can be read; for
    a string without zeros that is terminated by one the length need not be given. *)
Theorem check_utf8_correct s x rest :
  Forall (λ b, 0 <= b < 256) (s ++ [x]) → Z.of_nat (length s) < 2 ^ 31 - 1 →
  ∃ r, check_utf8 (s ++ x :: rest) (Z.of_nat (length s)) = Ok r ∧ 0 <= r < 2 ^ 31 ∧ (r = 0 ↔ valid_utf8 s) ∧
    (0 ∉ s → x = 0 → check_utf8_cstr (s ++ x :: rest) = Ok r).
Proof.
  intros Hs Hl. destruct (check_loop_ok s 0 (Z.of_nat (length s)) [] x rest) as (r & E & H0 & Hr); [lia|lia|done|by left|].
  exists r. unfold check_utf8_cstr, check_utf8. split; [done|]. split; [|split; [by rewrite valid_encoded|]].
  - split; [done|]. apply check_loop_bound in E; lia.
  - intros Hz ->. rewrite strlen_ok by done. cbn [bind]. rewrite s32_small by lia. exact E.
Qed.

Lemma check_utf8_correct_witness :
  ∃ r, check_utf8 [99; 0xc3; 0xa9; 0xe2; 0x82; 0xac; 0] 6 = Ok r ∧ 0 <= r < 2 ^ 31 ∧ (r = 0 ↔ valid_utf8 [99; 0xc3; 0xa9; 0xe2; 0x82; 0xac]) ∧
    (0 ∉ [99; 0xc3; 0xa9; 0xe2; 0x82; 0xac] → 0 = 0 → check_utf8_cstr [99; 0xc3; 0xa9; 0xe2; 0x82; 0xac; 0] = Ok r).
Proof. apply (check_utf8_correct [99; 0xc3; 0xa9; 0xe2; 0x82; 0xac] 0 []); [repeat constructor; lia|reflexivity]. Defined.

(** A code point the decoder does not reserve decodes from its encoding, and
    encoding rejects exactly what has more than 31 bits. *)
Theorem utf8_roundtrip c :
  0 <= c →
  (encode_utf8 c = None ↔ 0x7fffffff < c) ∧
  (valid_code c → ∃ l, encode_utf8 c = Some l ∧ (length l <= MAX_UTF8_SZ)%nat ∧
     decode_utf8 l = Ok (Some c)).
Proof.
  intros Hc. split.
  - split.
    + intros E. destruct (Z.le_gt_cases c 0x7fffffff) as [L|L]; [|done]. exfalso.
      destruct (Z.lt_ge_cases c 128); [by rewrite encode_small in E by lia|].
      destruct (find_size_spec c) as (i & E' & _); [lia|]. unfold encode_utf8 in E. rewrite E' in E.
      by destruct (encode_tail (S i) c []).
    + intros L. destruct (encode_utf8 c) eqn:E; [|done]. apply encode_some in E; lia.
  - intros Hv. destruct (Z.lt_ge_cases c 128) as [L|L].
    + exists [c]. rewrite encode_small by lia. split_and!; [done|simpl; unfold MAX_UTF8_SZ; lia|].
      simpl. by rewrite (proj2 (Z.leb_gt 128 c)) by lia.
    + destruct (encode_large c Hv L) as (b & t & -> & _ & _ & _ & Hl & Hd). exists (b :: t).
      split_and!; [done|simpl; unfold MAX_UTF8_SZ; lia|done].
Qed.

Lemma utf8_roundtrip_witness :
  ∃ l, encode_utf8 0x20AC = Some l ∧ (length l <= MAX_UTF8_SZ)%nat ∧ decode_utf8 l = Ok (Some 0x20AC).
Proof. apply (utf8_roundtrip 0x20AC); unfold valid_code; lia. Defined.

(** The number [check_utf8] returns is not the position of the bad byte: for an
    invalid first byte it is that of the byte after the bad character, plus one. *)
Theorem check_utf8_offset : check_utf8_cstr [255; 97; 98; 0] = Ok 2 ∧ ~ valid_utf8 [255].
Proof.
  split; [vm_compute; reflexivity|]. intros H.
  destruct (check_loop_ok [255] 0 1 [] 0 []) as (r & E & _ & Hr).
  { lia. } { done. } { repeat constructor; lia. } { by left. }
  vm_compute in E. injection E as <-. by apply valid_encoded, Hr in H.
Qed.

End Utf8.
