(* ===== verification/Striper.v ===== *)
(** * Striping of files over objects (osdc/Striper.cc)

    The blocks of a file are dealt out, [stripe_unit] bytes at a time, to
    [stripe_count] objects until these have [object_size] bytes, and then to the
    next set of objects.  A read maps a range of the file to extents of objects,
    reads these in any order, and puts the answers back together.

    The format of the object names, a string of the caller, is the parameter
    [name_of]. *)
From S2P Require Import Prelude StdMap.

Module Striper.

(** ** Layouts (include/fs_types.h, common/fs_types.cc) *)

Record file_layout_t : Type := mk_layout {
  stripe_unit : Z; stripe_count : Z; object_size : Z; pool_id : Z; pool_ns : list Z
}.

Definition CEPH_MIN_STRIPE_UNIT : Z := 65536.

Definition is_valid (l : file_layout_t) : bool :=
  if (stripe_unit l =? 0) || negb (Z.land (stripe_unit l) (CEPH_MIN_STRIPE_UNIT - 1) =? 0) then false
  else if (object_size l =? 0) || negb (Z.land (object_size l) (CEPH_MIN_STRIPE_UNIT - 1) =? 0) then false
  else if (object_size l <? stripe_unit l) || negb (object_size l mod stripe_unit l =? 0) then false
  else if stripe_count l =? 0 then false
  else true.

Definition get_period (l : file_layout_t) : Z := u64 (stripe_count l * object_size l).

(** Division of unsigned integers. *)
Definition udiv (a b : Z) : res Z := if b =? 0 then Err DivByZero else Ok (a / b).
Definition umod (a b : Z) : res Z := if b =? 0 then Err DivByZero else Ok (a mod b).

(** ** Extents of objects (osd/osd_types.h) *)

(** [oloc] is the pool and the namespace of the locator. *)
Record ObjectExtent : Type := mk_extent {
  oid : list Z; objectno : Z; offset : Z; length : Z; truncate_size : Z;
  oloc : Z * list Z; buffer_extents : list (Z * Z)
}.

Definition file_to_object_locator (l : file_layout_t) : Z * list Z := (pool_id l, pool_ns l).

(** [std::map<object_t, ...>]: object names are compared byte by byte. *)
Fixpoint name_ltb (a b : list Z) : bool :=
  match a, b with
  | _, [] => false
  | [], _ :: _ => true
  | x :: a, y :: b => if x =? y then name_ltb a b else x <? y
  end.

Abbreviation extent_map := (list (list Z * list ObjectExtent)).

(** [f] on [object_extents\[k\]], which is made if it is not there. *)
Fixpoint at_name (k : list Z) (f : list ObjectExtent → list ObjectExtent) (m : extent_map) : extent_map :=
  match m with
  | [] => [(k, f [])]
  | (k', v) :: m' =>
      if bool_decide (k' = k) then (k', f v) :: m'
      else if name_ltb k k' then (k, f []) :: m
      else (k', v) :: at_name k f m'
  end.

Definition object_truncate_size (l : file_layout_t) (objectno trunc_size : Z) : res Z :=
  if (trunc_size =? 0) || (trunc_size =? 2 ^ 64 - 1) then Ok trunc_size
  else
    let su := stripe_unit l in
    let count := stripe_count l in
    assert (su <=? object_size l);;;
    stripes_per_object <- udiv (object_size l) su;;
    objectsetno <- udiv objectno count;;
    trunc_objects <- udiv trunc_size (object_size l);;
    trunc_objectsetno <- udiv trunc_objects count;;
    if trunc_objectsetno <? objectsetno then Ok 0
    else if objectsetno <? trunc_objectsetno then Ok (object_size l)
    else
      trunc_blockno <- udiv trunc_size su;;
      trunc_stripeno <- udiv trunc_blockno count;;
      trunc_stripepos <- umod trunc_blockno count;;
      let trunc_objectno := u64 (u64 (trunc_objectsetno * count) + trunc_stripepos) in
      stripe <- umod trunc_stripeno stripes_per_object;;
      if objectno <? trunc_objectno then Ok (u64 (u64 (stripe + 1) * su))
      else if trunc_objectno <? objectno then Ok (u64 (stripe * su))
      else
        rest <- umod trunc_size su;;
        Ok (u64 (u64 (stripe * su) + rest)).

Definition get_num_objects (l : file_layout_t) (size : Z) : res Z :=
  let period := get_period l in
  num_periods <- udiv (u64 (u64 (size + period) - 1)) period;;
  remainder_bytes <- umod size period;;
  remainder_objs <-
    (if (0 <? remainder_bytes) && (remainder_bytes <? u64 (stripe_count l * stripe_unit l)) then
       full <- udiv (u64 (u64 (remainder_bytes + stripe_unit l) - 1)) (stripe_unit l);;
       Ok (u64 (stripe_count l - full))
     else Ok 0);;
  Ok (u64 (u64 (num_periods * stripe_count l) - remainder_objs)).

(** ** From files to objects *)

Section Names.
Context (name_of : Z → list Z).

(** The new or grown last extent of an object. *)
Definition add_extent (l : file_layout_t) (objno x_offset x_len trunc : Z) (buf : Z)
    (exv : list ObjectExtent) : list ObjectExtent :=
  match last exv with
  | Some ex =>
      if u64 (offset ex + length ex) =? x_offset then
        removelast exv ++
          [mk_extent (oid ex) (objectno ex) (offset ex) (u64 (length ex + x_len)) (truncate_size ex)
             (oloc ex) (buffer_extents ex ++ [(buf, x_len)])]
      else
        exv ++ [mk_extent (name_of objno) objno x_offset x_len trunc (file_to_object_locator l) [(buf, x_len)]]
  | None => [mk_extent (name_of objno) objno x_offset x_len trunc (file_to_object_locator l) [(buf, x_len)]]
  end.

(** The [while (left > 0)]; [su] and [stripes_per_object] are fixed before it. *)
Fixpoint extents_loop (fuel : nat) (l : file_layout_t) (su stripes_per_object start trunc_size buffer_offset : Z)
    (m : extent_map) (cur left : Z) : res extent_map :=
  match fuel with
  | O => Err OutOfFuel
  | S fuel =>
      if negb (0 <? left) then Ok m else
      blockno <- udiv cur su;;
      stripeno <- udiv blockno (stripe_count l);;
      stripepos <- umod blockno (stripe_count l);;
      objectsetno <- udiv stripeno stripes_per_object;;
      let objno := u64 (u64 (objectsetno * stripe_count l) + stripepos) in
      stripe <- umod stripeno stripes_per_object;;
      let block_start := u64 (stripe * su) in
      block_off <- umod cur su;;
      let max := u64 (su - block_off) in
      let x_offset := u64 (block_start + block_off) in
      let x_len := if max <? left then max else left in
      trunc <- object_truncate_size l objno trunc_size;;
      let buf := u64 (u64 (cur - start) + buffer_offset) in
      let m := at_name (name_of objno) (add_extent l objno x_offset x_len trunc buf) m in
      extents_loop fuel l su stripes_per_object start trunc_size buffer_offset m
        (u64 (cur + x_len)) (u64 (left - x_len))
  end.

(** Each turn but the first and the last takes a whole stripe unit. *)
Definition file_to_extents_map (l : file_layout_t) (start len trunc_size : Z) (m : extent_map)
    (buffer_offset : Z) : res extent_map :=
  assert (0 <? len);;;
  assert (stripe_unit l <=? object_size l);;;
  let su := if stripe_count l =? 1 then object_size l else stripe_unit l in
  stripes_per_object <- udiv (object_size l) su;;
  extents_loop (Z.to_nat (len / su) + 3) l su stripes_per_object start trunc_size buffer_offset m start len.

Definition assimilate_extents (m : extent_map) (extents : list ObjectExtent) : list ObjectExtent :=
  extents ++ flat_map snd m.

Definition file_to_extents (l : file_layout_t) (start len trunc_size : Z) (extents : list ObjectExtent)
    (buffer_offset : Z) : res (list ObjectExtent) :=
  m <- file_to_extents_map l start len trunc_size [] buffer_offset;;
  Ok (assimilate_extents m extents).
End Names.

(** ** From objects to files *)

Fixpoint to_file_loop (fuel : nat) (l : file_layout_t) (stripes_per_object objno off off_in_block len : Z)
    (extents : list (Z * Z)) : res (list (Z * Z)) :=
  match fuel with
  | O => Err OutOfFuel
  | S fuel =>
      if negb (0 <? len) then Ok extents else
      stripepos <- umod objno (stripe_count l);;
      objectsetno <- udiv objno (stripe_count l);;
      row <- udiv off (stripe_unit l);;
      let stripeno := u64 (row + u64 (objectsetno * stripes_per_object)) in
      let blockno := u64 (u64 (stripeno * stripe_count l) + stripepos) in
      let extent_off := u64 (u64 (blockno * stripe_unit l) + off_in_block) in
      let extent_len := Z.min len (u64 (stripe_unit l - off_in_block)) in
      to_file_loop fuel l stripes_per_object objno (u64 (off + extent_len)) 0 (u64 (len - extent_len))
        (extents ++ [(extent_off, extent_len)])
  end.

Definition extent_to_file (l : file_layout_t) (objno off len : Z) (extents : list (Z * Z)) :
    res (list (Z * Z)) :=
  assert (stripe_unit l <=? object_size l);;;
  stripes_per_object <- udiv (object_size l) (stripe_unit l);;
  off_in_block <- umod off (stripe_unit l);;
  to_file_loop (Z.to_nat (len / stripe_unit l) + 3) l stripes_per_object objno off off_in_block len extents.

(** ** Putting a striped read together *)

(** What has arrived at a place of the buffer, and how much was intended. *)
Abbreviation partial_t := (list (Z * (list Z * Z))).
Record StripedReadResult : Type := mk_result { partial : partial_t; total_intended_len : Z }.

Definition no_result : StripedReadResult := mk_result [] 0.

(** [partial\[b\]] gets [data] added and is meant to have [n] bytes. *)
Definition extend_partial (r : StripedReadResult) (b : Z) (data : list Z) (n : Z) : StripedReadResult :=
  let old := default ([], 0) (map_find b (partial r)) in
  mk_result (map_set b (old.1 ++ data, n) (partial r)) (u64 (total_intended_len r + n)).

(** One answer, which may be shorter than what was asked for. *)
Fixpoint add_partial_result (r : StripedReadResult) (bl : list Z) (bes : list (Z * Z)) : StripedReadResult :=
  match bes with
  | [] => r
  | (b, n) :: bes =>
      let actual := Z.to_nat (Z.min (Z.of_nat (List.length bl)) n) in
      add_partial_result (extend_partial r b (take actual bl) n) (drop actual bl) bes
  end.

(** The state of a sparse read: the extents of the source not used up, the data for
    them, and the place in the source. *)
Record sparse_t : Type := mk_sparse { todo : list (Z * Z); data : list Z; pos : Z }.

(** The [while (tlen > 0)] for one place of the buffer. *)
Fixpoint sparse_loop (fuel : nat) (r : StripedReadResult) (s : sparse_t) (tofs tlen : Z) :
    res (StripedReadResult * sparse_t) :=
  match fuel with
  | O => Err OutOfFuel
  | S fuel =>
      if negb (0 <? tlen) then Ok (r, s) else
      match todo s with
      | [] => Ok (extend_partial r tofs [] tlen, s)
      | (sf, sl) :: rest =>
          if sl =? 0 then sparse_loop fuel r (mk_sparse rest (data s) (pos s)) tofs tlen
          else
            let gap := if pos s <? sf then Z.min (u64 (sf - pos s)) tlen else 0 in
            let r := if pos s <? sf then extend_partial r tofs [] gap else r in
            let bl_off := u64 (pos s + gap) in
            let tofs := u64 (tofs + gap) in
            let tlen := tlen - gap in
            if tlen =? 0 then sparse_loop fuel r (mk_sparse (todo s) (data s) bl_off) tofs tlen
            else
              assert (sf <=? bl_off);;;
              let left := u64 (u64 (sf + sl) - bl_off) in
              let actual := Z.min left tlen in
              let rest := if actual =? left then rest else todo s in
              if 0 <? actual then
                if Z.of_nat (List.length (data s)) <? actual then Err (if bool_decide (data s = []) then EndOfBuffer else BadAccess) else
                let k := Z.to_nat actual in
                sparse_loop fuel (extend_partial r tofs (take k (data s)) actual)
                  (mk_sparse rest (drop k (data s)) (u64 (bl_off + actual))) (u64 (tofs + actual)) (tlen - actual)
              else sparse_loop fuel r (mk_sparse rest (data s) bl_off) tofs tlen
      end
  end.

(** Each turn uses up an extent or the place. *)
Fixpoint sparse_places (r : StripedReadResult) (s : sparse_t) (bes : list (Z * Z)) :
    res (StripedReadResult * sparse_t) :=
  match bes with
  | [] => Ok (r, s)
  | (b, n) :: bes =>
      '(r, s) <- sparse_loop (List.length (todo s) + 2) r s b n;;
      sparse_places r s bes
  end.

Definition add_partial_sparse_result (r : StripedReadResult) (bl : list Z) (bl_map : list (Z * Z))
    (bl_off : Z) (bes : list (Z * Z)) : res StripedReadResult :=
  '(r, _) <- sparse_places r (mk_sparse bl_map bl bl_off) bes;;
  Ok r.

(** The loop of [assemble_result] over the reversed map. *)
Fixpoint assemble_loop (zero_tail : bool) (m : partial_t) (end_ : Z) (bl : list Z) : res (list Z) :=
  match m with
  | [] => Ok bl
  | (b, (data, n)) :: m =>
      assert (b =? u64 (end_ - n));;;
      let len := Z.of_nat (List.length data) in
      let bl :=
        if len <? n then
          if zero_tail || bool_decide (bl ≠ []) then data ++ replicate (Z.to_nat (n - len)) 0 ++ bl
          else data ++ bl
        else data ++ bl in
      assemble_loop zero_tail m b bl
  end.

Definition assemble_result (r : StripedReadResult) (zero_tail : bool) : res (list Z * StripedReadResult) :=
  match reverse (partial r) with
  | [] => Ok ([], r)
  | (b, (_, n)) :: _ =>
      bl <- assemble_loop zero_tail (reverse (partial r)) (u64 (b + n)) [];;
      Ok (bl, mk_result [] (total_intended_len r))
  end.

(** The loop of the variant that copies to a buffer of [length] bytes, of which the
    places from [curr] on are written. *)
Fixpoint copy_loop (m : partial_t) (end_ curr : Z) (written : list Z) : res (Z * list Z) :=
  match m with
  | [] => Ok (curr, written)
  | (b, (data, n)) :: m =>
      assert (b =? u64 (end_ - n));;;
      assert (n <=? curr);;;
      let len := Z.of_nat (List.length data) in
      if Z.of_nat (List.length written) <? len - n then Err BadAccess else
      copy_loop m b (curr - n)
        (data ++ replicate (Z.to_nat (n - len)) 0 ++ drop (Z.to_nat (len - n)) written)
  end.

Definition assemble_to_buffer (r : StripedReadResult) (size : Z) : res (list Z * StripedReadResult) :=
  assert (size =? total_intended_len r);;;
  match reverse (partial r) with
  | [] => Ok ([], r)
  | (b, (_, n)) :: _ =>
      '(curr, written) <- copy_loop (reverse (partial r)) (u64 (b + n)) size [];;
      assert (curr =? 0);;;
      Ok (written, mk_result [] (total_intended_len r))
  end.
(** ** Where the bytes of a file are *)

Definition laid_out (l : file_layout_t) : Prop :=
  0 < stripe_unit l ∧ 0 < stripe_count l < 2 ^ 32 ∧ 0 < object_size l < 2 ^ 32 ∧
  object_size l mod stripe_unit l = 0 ∧ stripe_unit l <= object_size l.

Lemma is_valid_laid_out l :
  is_valid l = true → 0 <= stripe_unit l → 0 <= stripe_count l < 2 ^ 32 → 0 <= object_size l < 2 ^ 32 → laid_out l.
Proof.
  unfold is_valid, laid_out. intros H ? ? ?.
  destruct (Z.eqb_spec (stripe_unit l) 0); [done|]. simpl in H. destruct (negb _); [done|].
  destruct (Z.eqb_spec (object_size l) 0); [done|]. simpl in H. destruct (negb _); [done|].
  destruct (Z.ltb_spec (object_size l) (stripe_unit l)); [done|]. simpl in H.
  destruct (Z.eqb_spec (object_size l mod stripe_unit l) 0); [|done]. simpl in H.
  destruct (Z.eqb_spec (stripe_count l) 0); [done|]. lia.
Qed.

(** A place in the buffer, a length, and an object with a place in it. *)
Abbreviation piece := (Z * Z * (Z * Z))%type.

Section Layout.
Context (l : file_layout_t) (Hl : laid_out l).
Local Abbreviation su := (stripe_unit l).
Local Abbreviation sc := (stripe_count l).
Local Abbreviation os := (object_size l).

Definition rows : Z := os / su.
Lemma rows_spec : os = su * rows ∧ 0 < rows.
Proof.
  destruct Hl as (H1 & H2 & H3 & H4 & H5). unfold rows.
  assert (os = su * (os / su)) by (pose proof (Z.div_mod os su); lia). split; [done|]. apply Z.div_str_pos. lia.
Qed.

(** The object of byte [x] of the file and the place of the byte in it. *)
Definition locate (x : Z) : Z * Z :=
  let b := x / su in let r := b / sc in
  (r / rows * sc + b mod sc, r mod rows * su + x mod su).
(** The place in the file of byte [k] of object [o]. *)
Definition place (o k : Z) : Z := ((k / su + o / sc * rows) * sc + o mod sc) * su + k mod su.

Lemma div_plus q a b : 0 <= a < b → (q * b + a) / b = q.
Proof. intros H. rewrite Z.div_add_l by lia. rewrite Z.div_small by lia. lia. Qed.
Lemma mod_plus q a b : 0 <= a < b → (q * b + a) mod b = a.
Proof. intros H. rewrite Z.add_comm, Z.mod_add by lia. by apply Z.mod_small. Qed.

Lemma locate_place o k : 0 <= o → 0 <= k < os → locate (place o k) = (o, k).
Proof.
  intros Ho Hk. destruct rows_spec as [Hr Hr0]. destruct Hl as (H1 & H2 & H3 & H4 & H5).
  pose proof (Z.mod_pos_bound k su ltac:(lia)) as Hm. pose proof (Z.mod_pos_bound o sc ltac:(lia)) as Hn.
  assert (0 <= k / su < rows) as Hd by (split; [apply Z.div_pos; lia|apply Z.div_lt_upper_bound; lia]).
  unfold locate, place. cbn zeta. rewrite div_plus, mod_plus by lia. rewrite div_plus, mod_plus by lia.
  rewrite (Z.add_comm (k / su)), div_plus, mod_plus by lia.
  f_equal; [|]; [rewrite (Z.mul_comm _ sc); symmetry; apply Z.div_mod; lia|].
  rewrite (Z.mul_comm _ su). symmetry. apply Z.div_mod. lia.
Qed.

Lemma locate_range x : 0 <= x → 0 <= (locate x).1 <= x ∧ 0 <= (locate x).2 < os.
Proof.
  intros Hx. destruct rows_spec as [Hr Hr0]. destruct Hl as (H1 & H2 & H3 & H4 & H5). unfold locate; simpl.
  pose proof (Z.mod_pos_bound x su ltac:(lia)). pose proof (Z.mod_pos_bound (x / su) sc ltac:(lia)).
  pose proof (Z.mod_pos_bound (x / su / sc) rows ltac:(lia)).
  assert (0 <= x / su) by (apply Z.div_pos; lia). assert (0 <= x / su / sc) by (apply Z.div_pos; lia).
  assert (0 <= x / su / sc / rows) by (apply Z.div_pos; lia).
  assert (x / su <= x) by (apply Z.div_le_upper_bound; nia).
  assert (x / su / sc / rows <= x / su / sc) by (apply Z.div_le_upper_bound; nia).
  pose proof (Z.div_mod (x / su) sc). split; nia.
Qed.

Lemma place_locate x : 0 <= x → place (locate x).1 (locate x).2 = x.
Proof.
  intros Hx. destruct rows_spec as [Hr Hr0]. destruct Hl as (H1 & H2 & H3 & H4 & H5). unfold place, locate; simpl.
  pose proof (Z.mod_pos_bound x su ltac:(lia)). pose proof (Z.mod_pos_bound (x / su) sc ltac:(lia)).
  rewrite !div_plus, !mod_plus by lia.
  pose proof (Z.div_mod x su ltac:(lia)). pose proof (Z.div_mod (x / su) sc ltac:(lia)).
  pose proof (Z.div_mod (x / su / sc) rows ltac:(lia)). nia.
Qed.

(** The unit of [file_to_extents]: one object in a row makes the stripe unit of no
    importance. *)
Definition unit : Z := if sc =? 1 then os else su.
Definition locate_by (u n x : Z) : Z * Z := (x / u / sc / n * sc + (x / u) mod sc, (x / u / sc) mod n * u + x mod u).

Lemma unit_spec : 0 < unit ∧ 0 < os / unit ∧ os = unit * (os / unit).
Proof.
  destruct rows_spec as [Hr Hr0]. destruct Hl as (H1 & H2 & H3 & H4 & H5). unfold unit.
  destruct (Z.eqb_spec sc 1); [rewrite Z.div_same by lia; lia|]. unfold rows in *. lia.
Qed.

Lemma locate_by_unit x : 0 <= x → locate_by unit (os / unit) x = locate x.
Proof.
  intros Hx. destruct rows_spec as [Hr Hr0]. destruct Hl as (H1 & H2 & H3 & H4 & H5). unfold unit, locate_by, locate.
  destruct (Z.eqb_spec sc 1) as [E|_]; [|done]. rewrite E, !Z.div_1_r, !Z.mod_1_r, (Z.div_same os) by lia. cbn zeta.
  rewrite Z.div_1_r, Z.mod_1_r, Z.div_div, <- Hr by lia. f_equal.
  assert (x mod os = x mod su + su * ((x / su) mod rows)) by (rewrite Hr at 1; apply Z.rem_mul_r; lia). lia.
Qed.

Lemma locate_next x d : 0 <= x → 0 <= d → x mod unit + d < unit → locate (x + d) = ((locate x).1, (locate x).2 + d).
Proof.
  intros Hx Hd Hm. destruct unit_spec as (Hu & Hn & Ho). rewrite <- !locate_by_unit by lia. unfold locate_by; simpl.
  pose proof (Z.mod_pos_bound x unit Hu). pose proof (Z.div_mod x unit ltac:(lia)) as E.
  assert ((x + d) / unit = x / unit) as -> by (symmetry; apply (Z.div_unique _ _ _ (x mod unit + d)); lia).
  assert ((x + d) mod unit = x mod unit + d) as -> by (symmetry; apply (Z.mod_unique _ _ (x / unit)); lia). f_equal. lia.
Qed.

(** The range [x, x + n) of the file cut at the units. *)
Fixpoint pieces (fuel : nat) (x n buf : Z) : list piece :=
  match fuel with
  | O => []
  | S fuel =>
      if n <=? 0 then [] else
      let k := Z.min (unit - x mod unit) n in
      (buf, k, locate x) :: pieces fuel (x + k) (n - k) (buf + k)
  end.
End Layout.
Arguments locate : simpl never.

(** ** What [file_to_extents] returns *)

Fixpoint be_pieces (o k : Z) (bes : list (Z * Z)) : list piece :=
  match bes with
  | [] => []
  | (b, n) :: bes => (b, n, (o, k)) :: be_pieces o (k + n) bes
  end.
Definition ext_pieces (ex : ObjectExtent) : list piece := be_pieces (objectno ex) (offset ex) (buffer_extents ex).
Definition be_sum (bes : list (Z * Z)) : Z := foldr (λ e n, e.2 + n) 0 bes.

Lemma be_pieces_snoc o k bes b n : be_pieces o k (bes ++ [(b, n)]) = be_pieces o k bes ++ [(b, n, (o, k + be_sum bes))].
Proof.
  revert k. induction bes as [|[b' n'] bes IH]; intros k; simpl; [by rewrite Z.add_0_r|]. by rewrite IH, Z.add_assoc.
Qed.
Lemma be_sum_snoc bes b n : be_sum (bes ++ [(b, n)]) = be_sum bes + n.
Proof. unfold be_sum. induction bes as [|[b' n'] bes IH]; simpl in *; lia. Qed.

Definition flat (m : extent_map) : list piece := flat_map (λ e, flat_map ext_pieces e.2) m.

Section Extents.
Context (name_of : Z → list Z) (Hinj : ∀ a b, 0 <= a < 2 ^ 64 → 0 <= b < 2 ^ 64 → name_of a = name_of b → a = b).
Context (l : file_layout_t) (Hl : laid_out l) (trunc_size : Z).

(** An extent under the name [k] and its invariant. *)
Record ext_ok (k : list Z) (ex : ObjectExtent) : Prop := {
  ok_name : oid ex = k ∧ name_of (objectno ex) = k;
  ok_no : 0 <= objectno ex < 2 ^ 64;
  ok_length : length ex = be_sum (buffer_extents ex);
  ok_range : 0 <= offset ex ∧ 0 < length ex ∧ offset ex + length ex <= object_size l;
  ok_places : Forall (λ e, 0 < e.2) (buffer_extents ex);
  ok_oloc : oloc ex = file_to_object_locator l;
  ok_trunc : object_truncate_size l (objectno ex) trunc_size = Ok (truncate_size ex)
}.
Definition map_ok (m : extent_map) : Prop := Forall (λ e, Forall (ext_ok e.1) e.2) m.

Lemma at_name_ok k f m p : map_ok m →
  (∀ v, Forall (ext_ok k) v → Forall (ext_ok k) (f v) ∧ flat_map ext_pieces (f v) ≡ₚ flat_map ext_pieces v ++ [p]) →
  map_ok (at_name k f m) ∧ flat (at_name k f m) ≡ₚ flat m ++ [p].
Proof.
  intros Hm Hf. induction Hm as [|[k' v] m Hv Hm [IH1 IH2]]; simpl in *.
  { destruct (Hf [] ltac:(constructor)) as [H1 H2]. split; [by repeat constructor|]. unfold flat. simpl. by rewrite app_nil_r. }
  case_bool_decide as E; [|destruct (name_ltb k k')].
  - subst k'. destruct (Hf v Hv) as [H1 H2]. split; [by constructor|]. unfold flat; simpl. rewrite H2. solve_Permutation.
  - destruct (Hf [] ltac:(constructor)) as [H1 H2]. split; [by repeat constructor|]. unfold flat; simpl. rewrite H2. simpl. solve_Permutation.
  - split; [by constructor|]. unfold flat in *; simpl. rewrite IH2. solve_Permutation.
Qed.

Lemma add_extent_ok o x_offset x_len trunc buf v :
  0 <= o < 2 ^ 64 → 0 <= x_offset → 0 < x_len → x_offset + x_len <= object_size l →
  object_truncate_size l o trunc_size = Ok trunc → Forall (ext_ok (name_of o)) v →
  Forall (ext_ok (name_of o)) (add_extent name_of l o x_offset x_len trunc buf v) ∧
  flat_map ext_pieces (add_extent name_of l o x_offset x_len trunc buf v) ≡ₚ
    flat_map ext_pieces v ++ [(buf, x_len, (o, x_offset))].
Proof.
  intros Ho Hx Hn Hs Ht Hv. destruct Hl as (H1 & H2 & H3 & H4 & H5).
  assert (ext_ok (name_of o) (mk_extent (name_of o) o x_offset x_len trunc (file_to_object_locator l) [(buf, x_len)])) as Hnew.
  { split; simpl; try done; [lia|]. by repeat constructor. }
  unfold add_extent. destruct v as [|ex v _] using rev_ind; simpl; [split; [by apply Forall_singleton|done]|].
  rewrite last_snoc. apply Forall_app in Hv as [Hv Hex]. apply Forall_cons in Hex as [Hex _]. pose proof Hex as [[N1 N2] No Ln Rg Pl Ol Tr].
  rewrite u64_small by lia. destruct (Z.eqb_spec (offset ex + length ex) x_offset) as [E|E].
  - rewrite removelast_last, u64_small by lia. assert (objectno ex = o) as Eo by (apply Hinj; [done|done|congruence]). split.
    + apply Forall_app. split; [done|]. constructor; [|constructor]. split; simpl; try done; [|lia|].
      * rewrite be_sum_snoc. lia.
      * apply Forall_app. split; [done|]. by repeat constructor.
    + rewrite !flat_map_app. simpl. rewrite !app_nil_r. unfold ext_pieces; simpl. rewrite be_pieces_snoc, <- Ln, E, Eo.
      by rewrite app_assoc.
  - split; [|by rewrite !flat_map_app].
    apply Forall_app. split; [|by apply Forall_singleton]. apply Forall_app. split; [done|by apply Forall_singleton].
Qed.

Lemma truncate_total o t : ∃ k, object_truncate_size l o t = Ok k.
Proof.
  destruct (rows_spec l Hl) as [_ Hr]. unfold rows in Hr. destruct Hl as (H1 & H2 & H3 & H4 & H5). unfold object_truncate_size, udiv, umod.
  case_match; [by eexists|]. rewrite assert_true by (apply Z.leb_le; lia). cbn [bind].
  repeat (rewrite (proj2 (Z.eqb_neq _ 0)) by lia; cbn [bind]). repeat case_match; by eexists.
Qed.

(** One turn: the rest of the block goes to the object that has byte [cur]. *)
Lemma extents_loop_step start bo fuel m cur left :
  0 <= start <= cur → 0 < left → 0 <= bo → cur + left < 2 ^ 64 → cur - start + left + bo < 2 ^ 64 →
  ∃ n t, n = Z.min (unit l - cur mod unit l) left ∧ 0 < n ∧ object_truncate_size l (locate l cur).1 trunc_size = Ok t ∧
    0 <= (locate l cur).1 < 2 ^ 64 ∧ 0 <= (locate l cur).2 ∧ (locate l cur).2 + n <= object_size l ∧
    extents_loop name_of (S fuel) l (unit l) (object_size l / unit l) start trunc_size bo m cur left =
    extents_loop name_of fuel l (unit l) (object_size l / unit l) start trunc_size bo
      (at_name (name_of (locate l cur).1) (add_extent name_of l (locate l cur).1 (locate l cur).2 n t (bo + (cur - start))) m)
      (cur + n) (left - n).
Proof.
  destruct (unit_spec l Hl) as (Hu & Hn & Ho). pose proof Hl as (H1 & H2 & H3 & H4 & H5). intros Hs Hpos Hbo Hov1 Hov2.
  cbn [extents_loop]. rewrite (proj2 (Z.ltb_lt _ _) Hpos). cbn [negb].
  unfold udiv, umod. rewrite !(proj2 (Z.eqb_neq _ 0)) by lia. cbn [bind].
  pose proof (locate_by_unit l Hl cur ltac:(lia)) as EL. destruct (locate_range l Hl cur ltac:(lia)) as [Ro Rk].
  pose proof (f_equal fst EL) as Eo. pose proof (f_equal snd EL) as Ek. unfold locate_by in Eo, Ek; cbn [fst snd] in Eo, Ek. clear EL.
  pose proof (Z.mod_pos_bound cur (unit l) Hu) as Hmod. pose proof (Z.mod_pos_bound (cur / unit l) (stripe_count l) ltac:(lia)).
  pose proof (Z.mod_pos_bound (cur / unit l / stripe_count l) (object_size l / unit l) ltac:(lia)) as Hrow.
  assert (0 <= cur / unit l / stripe_count l / (object_size l / unit l)) by (repeat apply Z.div_pos; lia).
  assert (0 <= cur / unit l / stripe_count l / (object_size l / unit l) * stripe_count l) by (apply Z.mul_nonneg_nonneg; lia).
  assert (0 <= (cur / unit l / stripe_count l) mod (object_size l / unit l) * unit l) by (apply Z.mul_nonneg_nonneg; lia).
  assert (((cur / unit l / stripe_count l) mod (object_size l / unit l) + 1) * unit l <= object_size l / unit l * unit l) as Hlast
    by (apply Z.mul_le_mono_nonneg_r; lia).
  rewrite !(u64_small (_ * stripe_count l)) by lia. rewrite Eo, (u64_small (locate l cur).1) by lia.
  rewrite (u64_small (_ * unit l)) by lia. rewrite Ek, (u64_small (locate l cur).2) by lia.
  assert (unit l <= object_size l) by (rewrite Ho at 1; assert (unit l * 1 <= unit l * (object_size l / unit l)) by (apply Z.mul_le_mono_nonneg_l; lia); lia).
  rewrite (u64_small (unit l - _)) by lia. destruct (truncate_total (locate l cur).1 trunc_size) as [t Et]. rewrite Et. cbn [bind].
  set (n := if _ <? left then _ else left). assert (n = Z.min (unit l - cur mod unit l) left) as En by (unfold n; destruct (Z.ltb_spec (unit l - cur mod unit l) left); lia).
  clearbody n. exists n, t. rewrite !(u64_small (_ - start)), (u64_small (_ + bo)), (u64_small (cur + n)), (u64_small (left - n)) by lia.
  rewrite (Z.add_comm bo). split_and!; try done; lia.
Qed.

(** The rest of the range begins at a block. *)
Lemma next_block cur left n : 0 <= cur → n = Z.min (unit l - cur mod unit l) left → 0 < left - n → (cur + n) mod unit l = 0 ∧ n = unit l - cur mod unit l.
Proof.
  destruct (unit_spec l Hl) as (Hu & Hn & Ho). intros Hc En Hmore. assert (n = unit l - cur mod unit l) as -> by lia. split; [|done].
  symmetry. apply (Z.mod_unique _ _ (cur / unit l + 1)); [lia|]. pose proof (Z.div_mod cur (unit l)). lia.
Qed.

Lemma extents_loop_ok start bo fuel : ∀ m cur left,
  map_ok m → 0 <= start <= cur → 0 <= left → 0 <= bo → cur + left < 2 ^ 64 → cur - start + left + bo < 2 ^ 64 →
  (0 < left → left + cur mod unit l <= unit l * (Z.of_nat fuel - 1)) → (0 < fuel)%nat →
  ∃ m', extents_loop name_of fuel l (unit l) (object_size l / unit l) start trunc_size bo m cur left = Ok m' ∧ map_ok m' ∧
    flat m' ≡ₚ flat m ++ pieces l fuel cur left (bo + (cur - start)).
Proof.
  induction fuel as [|fuel IH]; intros m cur left Hm Hs Hleft Hbo Hov1 Hov2 Hf Hf0; [lia|].
  destruct (Z.ltb_spec 0 left) as [Hpos|Hz].
  2: { cbn [extents_loop pieces]. rewrite (proj2 (Z.ltb_ge _ _) Hz), (proj2 (Z.leb_le _ _) Hz). exists m. by rewrite app_nil_r. }
  destruct (extents_loop_step start bo fuel m cur left) as (n & t & En & Hn & Et & Ro & Rk & Re & ->); [done..|].
  destruct (unit_spec l Hl) as (Hu & _ & _). pose proof (Z.mod_pos_bound cur (unit l) Hu) as Hmod. specialize (Hf Hpos).
  destruct (at_name_ok (name_of (locate l cur).1) (add_extent name_of l (locate l cur).1 (locate l cur).2 n t (bo + (cur - start))) m
    (bo + (cur - start), n, ((locate l cur).1, (locate l cur).2)) Hm) as [Hm1 Hfl].
  { intros v Hv. by apply add_extent_ok. }
  destruct (IH _ (cur + n) (left - n) Hm1) as (m' & E & Hm' & Hp); [lia..| |destruct fuel; [simpl in Hf; lia|lia]|].
  { intros Hmore. destruct (next_block cur left n) as [-> En']; [lia|done|done|]. lia. }
  exists m'. split; [done|]. split; [done|]. rewrite Hp, Hfl, <- app_assoc, <- surjective_pairing.
  cbn [pieces]. rewrite (proj2 (Z.leb_gt _ _) Hpos), <- En. simpl.
  by replace (bo + (cur + n - start)) with (bo + (cur - start) + n) by lia.
Qed.

Lemma file_to_extents_ok start len bo : 0 <= start → 0 < len → 0 <= bo → start + len < 2 ^ 64 → bo + len < 2 ^ 64 →
  ∃ m, file_to_extents_map name_of l start len trunc_size [] bo = Ok m ∧ map_ok m ∧
    flat m ≡ₚ pieces l (Z.to_nat (len / unit l) + 3) start len bo.
Proof.
  intros H0 Hlen Hbo Hov1 Hov2. destruct (unit_spec l Hl) as (Hu & Hn & Ho). destruct Hl as (H1 & H2 & H3 & H4 & H5).
  unfold file_to_extents_map. rewrite !assert_true by (apply Z.ltb_lt || apply Z.leb_le; lia). cbn [bind].
  change (if stripe_count l =? 1 then object_size l else stripe_unit l) with (unit l). unfold udiv.
  rewrite (proj2 (Z.eqb_neq (unit l) 0)) by lia. cbn [bind].
  destruct (extents_loop_ok start bo (Z.to_nat (len / unit l) + 3) [] start len) as (m & E & Hm & Hp); try lia; [constructor| |].
  { intros _. assert (0 <= len / unit l) by (apply Z.div_pos; lia). pose proof (Z.mod_pos_bound start (unit l) Hu).
    pose proof (Z.mul_succ_div_gt len (unit l) Hu). replace (Z.of_nat (Z.to_nat (len / unit l) + 3) - 1) with (Z.succ (len / unit l) + 1) by lia. lia. }
  exists m. split; [done|]. split; [done|]. rewrite Hp. by replace (bo + (start - start)) with bo by lia.
Qed.
End Extents.

(** ** Buffers *)

(** Where the byte at place [q] of the buffer comes from. *)
Definition hits (ps : list piece) (q : Z) : list (Z * Z) :=
  flat_map (λ '(b, n, (o, k)), if (b <=? q) && (q <? b + n) then [(o, k + (q - b))] else []) ps.

Lemma hits_perm ps ps' q : ps ≡ₚ ps' → hits ps q ≡ₚ hits ps' q.
Proof. unfold hits. induction 1; simpl; [done|by f_equiv|solve_Permutation|by etrans]. Qed.

Lemma flat_assimilate m : flat_map ext_pieces (flat_map snd m) = flat m.
Proof. unfold flat. induction m as [|[k v] m IH]; simpl; [done|]. by rewrite flat_map_app, IH. Qed.

Section Pieces.
Context (l : file_layout_t) (Hl : laid_out l).

Lemma pieces_step fuel x n buf : (0 < fuel)%nat → 0 <= x → 0 < n → n + x mod unit l <= unit l * (Z.of_nat fuel - 1) →
  ∃ k fuel', fuel = S fuel' ∧ pieces l fuel x n buf = (buf, k, locate l x) :: pieces l fuel' (x + k) (n - k) (buf + k) ∧
    0 < k <= n ∧ x mod unit l + k <= unit l ∧ (0 < fuel')%nat ∧
    (0 < n - k → n - k + (x + k) mod unit l <= unit l * (Z.of_nat fuel' - 1)).
Proof.
  intros Hf Hx Hn Hb. destruct (unit_spec l Hl) as (Hu & _ & _). pose proof (Z.mod_pos_bound x (unit l) Hu).
  destruct fuel as [|fuel]; [lia|]. exists (Z.min (unit l - x mod unit l) n), fuel. cbn [pieces].
  rewrite (proj2 (Z.leb_gt n 0)) by lia. split_and!; try done; try lia.
  intros Hm. set (k := Z.min _ _) in *. assert (k = unit l - x mod unit l) as Ek by lia.
  assert ((x + k) mod unit l = 0) as -> by (rewrite Ek; symmetry; apply (Z.mod_unique _ _ (x / unit l + 1)); [lia|]; pose proof (Z.div_mod x (unit l)); lia).
  lia.
Qed.

Lemma pieces_hits fuel : ∀ x n buf q, (0 < fuel)%nat → 0 <= x → 0 <= n → (0 < n → n + x mod unit l <= unit l * (Z.of_nat fuel - 1)) →
  hits (pieces l fuel x n buf) q = if (buf <=? q) && (q <? buf + n) then [locate l (x + (q - buf))] else [].
Proof.
  induction fuel as [|fuel IH]; intros x n buf q Hf Hx Hn Hb; [lia|].
  destruct (Z.eq_dec n 0) as [->|Hn0].
  { simpl. case_match; [|done]. apply andb_true_iff in H as [? ?]. zb. lia. }
  destruct (pieces_step (S fuel) x n buf) as (k & fuel' & [= <-] & -> & Hk & Hku & Hf' & Hb'); [lia..|by apply Hb; lia|].
  destruct (locate l x) as [o d] eqn:El. simpl. fold (hits (pieces l fuel (x + k) (n - k) (buf + k)) q). rewrite IH by (done || lia).
  destruct (Z.leb_spec buf q), (Z.ltb_spec q (buf + k)), (Z.leb_spec (buf + k) q), (Z.ltb_spec q (buf + k + (n - k))),
    (Z.ltb_spec q (buf + n)); simpl; try lia; try done.
  - by rewrite locate_next, El by (done || lia).
  - do 2 f_equal. lia.
Qed.
End Pieces.

(** The bytes of a striped file, where [obj] has the data of the objects and what an
    object does not have reads as zero. *)
Definition file_byte (l : file_layout_t) (obj : Z → list Z) (x : Z) : Z :=
  default 0 (obj (locate l x).1 !! Z.to_nat (locate l x).2).
Definition file_bytes (l : file_layout_t) (obj : Z → list Z) (x n : Z) : list Z := map (file_byte l obj) (seqZ x n).

(** What a read of an extent returns: as much as the object has. *)
Definition read_extent (obj : Z → list Z) (ex : ObjectExtent) : list Z :=
  take (Z.to_nat (length ex)) (drop (Z.to_nat (offset ex)) (obj (objectno ex))).

(** The answers arrive one by one. *)
Definition collect_reads (obj : Z → list Z) (exts : list ObjectExtent) : StripedReadResult :=
  foldl (λ r ex, add_partial_result r (read_extent obj ex) (buffer_extents ex)) no_result exts.

Section Read.
Context (obj : Z → list Z).

(** What a piece leaves in the partial result. *)
Definition piece_data (n k : Z) (c : list Z) : list Z := take (Z.to_nat n) (drop (Z.to_nat k) c).
Definition entry (p : piece) : Z * (list Z * Z) :=
  let '(b, n, (o, k)) := p in (b, (piece_data n k (obj o), n)).

Lemma add_partial_ok o bes : ∀ r k, Forall (λ e, 0 < e.2) bes → 0 <= k → NoDup (bes.*1 ++ (partial r).*1) →
  partial (add_partial_result r (piece_data (be_sum bes) k (obj o)) bes) =
    map_set_all (map entry (be_pieces o k bes)) (partial r).
Proof.
  induction bes as [|[b n] bes IH]; intros r k Hp Hk Hd; [done|].
  apply Forall_cons in Hp as [Hn Hp]. simpl in Hn. simpl in Hd. apply NoDup_cons in Hd as [Hb Hd].
  apply not_elem_of_app in Hb as [Hb1 Hb2].
  assert (0 <= be_sum bes) by (clear -Hp; unfold be_sum; induction Hp as [|[b n]]; simpl in *; lia).
  cbn [add_partial_result be_pieces map entry]. unfold map_set_all; cbn [foldl fst snd]. fold (map_set_all (V := list Z * Z)).
  set (bl := piece_data _ _ _). set (a := Z.to_nat (Z.min _ n)).
  assert (take a bl = piece_data n k (obj o)) as ->.
  { transitivity (take (Z.to_nat n) bl).
    - subst a. destruct (Z.le_gt_cases n (Z.of_nat (List.length bl))); [by rewrite Z.min_r by lia|].
      rewrite Z.min_l, Nat2Z.id by lia. rewrite take_ge by done. rewrite take_ge by lia. done.
    - subst bl. unfold piece_data. rewrite take_take. f_equal. simpl. lia. }
  assert (drop a bl = piece_data (be_sum bes) (k + n) (obj o)) as ->.
  { transitivity (drop (Z.to_nat n) bl).
    - subst a. destruct (Z.le_gt_cases n (Z.of_nat (List.length bl))); [by rewrite Z.min_r by lia|].
      rewrite Z.min_l, Nat2Z.id by lia. by rewrite !drop_ge by lia.
    - subst bl. unfold piece_data. change (be_sum ((b, n) :: bes)) with (n + be_sum bes).
      rewrite List.skipn_firstn_comm, drop_drop, !Z2Nat.inj_add by lia. f_equal. lia. }
  unfold extend_partial. rewrite map_find_None by done. cbn [default fst app]. rewrite IH; [done|done|lia|]. cbn [partial].
  rewrite map_set_fresh by done. cbn. rewrite <- Permutation_middle. apply NoDup_cons. split; [|done].
  apply not_elem_of_app. done.
Qed.

Definition piece_keys (ps : list piece) : list Z := map (λ p, p.1.1) ps.
Definition pieces_len (ps : list piece) : Z := foldr (λ p n, p.1.2 + n) 0 ps.

Lemma entry_keys ps : (map entry ps).*1 = piece_keys ps.
Proof. induction ps as [|[[b n] [o k]] ps IH]; simpl; [done|]. f_equal. exact IH. Qed.
Lemma be_pieces_keys o bes : ∀ k, piece_keys (be_pieces o k bes) = bes.*1.
Proof. induction bes as [|[b n] bes IH]; intros k; simpl; [done|]. f_equal. apply IH. Qed.
Lemma be_pieces_len o bes : ∀ k, pieces_len (be_pieces o k bes) = be_sum bes.
Proof. induction bes as [|[b n] bes IH]; intros k; simpl; [done|]. rewrite IH. done. Qed.
Lemma pieces_len_app ps ps' : pieces_len (ps ++ ps') = pieces_len ps + pieces_len ps'.
Proof. unfold pieces_len. induction ps as [|p ps IH]; simpl in *; lia. Qed.
Lemma pieces_len_perm ps ps' : ps ≡ₚ ps' → pieces_len ps = pieces_len ps'.
Proof. unfold pieces_len. induction 1; simpl; lia. Qed.

Lemma add_partial_total bes : ∀ r bl,
  u64 (total_intended_len (add_partial_result r bl bes)) = u64 (total_intended_len r + be_sum bes).
Proof.
  induction bes as [|[b n] bes IH]; intros r bl; simpl; [by rewrite Z.add_0_r|]. rewrite IH. simpl. unfold u64.
  rewrite Zplus_mod_idemp_l. f_equal. unfold be_sum. lia.
Qed.

(** The reads of a list of extents, in its order. *)
Lemma collect_ok name_of l t exts : ∀ r, Forall (λ ex, ext_ok name_of l t (oid ex) ex) exts →
  NoDup (piece_keys (flat_map ext_pieces exts) ++ (partial r).*1) →
  let r' := foldl (λ r ex, add_partial_result r (read_extent obj ex) (buffer_extents ex)) r exts in
  partial r' = map_set_all (map entry (flat_map ext_pieces exts)) (partial r) ∧
  u64 (total_intended_len r') = u64 (total_intended_len r + pieces_len (flat_map ext_pieces exts)).
Proof.
  induction exts as [|ex exts IH]; intros r He Hd; simpl; [by rewrite Z.add_0_r|].
  apply Forall_cons in He as [Hex He]. destruct Hex as [_ _ Ln (Rg & _) Pl _].
  simpl in Hd. unfold piece_keys in Hd. rewrite map_app, <- app_assoc in Hd. change (map (λ p, p.1.1)) with piece_keys in Hd.
  unfold ext_pieces in Hd at 1. rewrite be_pieces_keys in Hd.
  assert (read_extent obj ex = piece_data (be_sum (buffer_extents ex)) (offset ex) (obj (objectno ex))) as -> by (unfold read_extent, piece_data; by rewrite Ln).
  assert (NoDup ((buffer_extents ex).*1 ++ (partial r).*1)) as Hd1.
  { apply NoDup_app in Hd as (H1 & H2 & H3). apply NoDup_app in H3 as (H4 & H5 & H6).
    apply NoDup_app. split_and!; [done| |done]. intros x Hx Hx'. apply (H2 x Hx). apply elem_of_app. by right. }
  assert (partial (add_partial_result r (piece_data (be_sum (buffer_extents ex)) (offset ex) (obj (objectno ex))) (buffer_extents ex)) =
    map_set_all (map entry (ext_pieces ex)) (partial r)) as E.
  { by apply add_partial_ok. }
  destruct (IH (add_partial_result r (piece_data (be_sum (buffer_extents ex)) (offset ex) (obj (objectno ex))) (buffer_extents ex))) as [IH1 IH2]; [done| |].
  { rewrite E. rewrite map_set_all_perm.
    - rewrite fmap_app, entry_keys. unfold ext_pieces. rewrite be_pieces_keys. rewrite Permutation_app_swap_app. exact Hd.
    - rewrite fmap_app, entry_keys. unfold ext_pieces. by rewrite be_pieces_keys. }
  rewrite IH1, IH2, E. split.
  - rewrite map_app. unfold map_set_all. by rewrite foldl_app.
  - rewrite pieces_len_app. unfold ext_pieces at 2. rewrite be_pieces_len. unfold u64 at 1. rewrite <- Zplus_mod_idemp_l.
    fold (u64 (total_intended_len (add_partial_result r (piece_data (be_sum (buffer_extents ex)) (offset ex) (obj (objectno ex))) (buffer_extents ex)))).
    rewrite add_partial_total. unfold u64. rewrite Zplus_mod_idemp_l. f_equal. lia.
Qed.
End Read.

(** ** Assembling *)

(** The entries [es] lie one after the other from [lo] to [hi]. *)
Fixpoint chain (lo : Z) (es : partial_t) (hi : Z) : Prop :=
  match es with
  | [] => lo = hi
  | (b, (d, n)) :: es => b = lo ∧ 0 < n ∧ Z.of_nat (List.length d) <= n ∧ chain (b + n) es hi
  end.
(** The data of an entry with zeros for what has not arrived. *)
Definition filled (e : Z * (list Z * Z)) : list Z :=
  e.2.1 ++ replicate (Z.to_nat (e.2.2 - Z.of_nat (List.length e.2.1))) 0.

Lemma chain_snoc es b d n lo hi :
  chain lo (es ++ [(b, (d, n))]) hi ↔ chain lo es b ∧ 0 < n ∧ Z.of_nat (List.length d) <= n ∧ hi = b + n.
Proof.
  revert lo. induction es as [|[b' [d' n']] es IH]; intros lo; simpl.
  - split; [intros (-> & ? & ? & <-)|intros (-> & ? & ? & ->)]; done.
  - rewrite IH. tauto.
Qed.
Lemma chain_le lo es hi : chain lo es hi → lo <= hi.
Proof. revert lo. induction es as [|[b [d n]] es IH]; intros lo; simpl; [lia|]. intros (-> & ? & _ & H). apply IH in H. lia. Qed.
Lemma chain_sorted lo es hi : chain lo es hi → keys_sorted es ∧ keys_above (lo - 1) es.
Proof.
  revert lo. induction es as [|[b [d n]] es IH]; intros lo; simpl; [by repeat constructor|]. intros (-> & ? & _ & H).
  apply IH in H as [H1 H2]. split; [constructor; [done|]|constructor; [simpl; lia|]]; (eapply Forall_impl; [exact H2|]); simpl; intros; lia.
Qed.

Lemma assemble_chain zt es : ∀ lo hi bl, chain lo es hi → 0 <= lo → hi < 2 ^ 64 → zt = true ∨ bl ≠ [] →
  assemble_loop zt (reverse es) hi bl = Ok (flat_map filled es ++ bl).
Proof.
  induction es as [|[b [d n]] es IH] using rev_ind; intros lo hi bl Hc Hlo Hhi Hz; [done|].
  apply chain_snoc in Hc as (Hc & Hn & Hd & ->). pose proof (chain_le _ _ _ Hc). rewrite reverse_snoc. cbn [assemble_loop].
  rewrite u64_small, assert_true by (lia || apply Z.eqb_eq; lia). cbn [bind].
  assert ((if Z.of_nat (List.length d) <? n then if zt || bool_decide (bl ≠ []) then d ++ replicate (Z.to_nat (n - Z.of_nat (List.length d))) 0 ++ bl else d ++ bl
    else d ++ bl) = filled (b, (d, n)) ++ bl) as ->.
  { unfold filled; simpl. rewrite <- app_assoc. destruct (Z.ltb_spec (Z.of_nat (List.length d)) n).
    - destruct Hz as [->|Hz]; [done|]. rewrite bool_decide_true by done. by rewrite orb_true_r.
    - replace (n - Z.of_nat (List.length d)) with 0 by lia. done. }
  rewrite (IH lo b); [|done|done|lia|].
  - rewrite flat_map_app. simpl. by rewrite app_nil_r, <- app_assoc.
  - destruct Hz as [->|Hz]; [by left|right]. by destruct (filled _), bl.
Qed.

(** Without [zero_tail] the zeros at the end that were not read are left out. *)
Lemma assemble_chain_tail es : ∀ lo hi, chain lo es hi → 0 <= lo → hi < 2 ^ 64 →
  ∃ r z, assemble_loop false (reverse es) hi [] = Ok r ∧ flat_map filled es = r ++ replicate z 0.
Proof.
  induction es as [|[b [d n]] es IH] using rev_ind; intros lo hi Hc Hlo Hhi; [by exists [], 0%nat|].
  apply chain_snoc in Hc as (Hc & Hn & Hd & ->). pose proof (chain_le _ _ _ Hc). rewrite reverse_snoc. cbn [assemble_loop].
  rewrite u64_small, assert_true by (lia || apply Z.eqb_eq; lia). cbn [bind orb]. rewrite bool_decide_false by auto.
  assert ((if Z.of_nat (List.length d) <? n then d ++ [] else d ++ []) = d) as -> by (rewrite app_nil_r; by case_match).
  rewrite flat_map_app. simpl. rewrite app_nil_r. unfold filled at 2; simpl. destruct d as [|c d].
  - destruct (IH lo b Hc Hlo ltac:(lia)) as (r & z & E & Hf). rewrite E, Hf. simpl.
    exists r, (z + Z.to_nat (n - Z.of_nat 0))%nat. split; [done|]. by rewrite replicate_add, app_assoc.
  - rewrite (assemble_chain false es lo b); [|done|done|lia|by right]. eexists _, _. split; [done|]. by rewrite app_assoc.
Qed.

Lemma copy_chain es : ∀ lo hi curr written, chain lo es hi → 0 <= lo → hi < 2 ^ 64 → hi - lo <= curr →
  copy_loop (reverse es) hi curr written = Ok (curr - (hi - lo), flat_map filled es ++ written).
Proof.
  induction es as [|[b [d n]] es IH] using rev_ind; intros lo hi curr written Hc Hlo Hhi Hcu.
  { simpl in Hc. subst hi. cbn. do 2 f_equal. lia. }
  apply chain_snoc in Hc as (Hc & Hn & Hd & ->). pose proof (chain_le _ _ _ Hc). rewrite reverse_snoc. cbn [copy_loop].
  rewrite u64_small, !assert_true by (lia || (apply Z.eqb_eq; lia) || (apply Z.leb_le; lia)). cbn [bind].
  rewrite (proj2 (Z.ltb_ge _ _)) by lia. replace (Z.to_nat (Z.of_nat (List.length d) - n)) with 0%nat by lia. rewrite drop_0.
  rewrite (IH lo b) by (done || lia). rewrite flat_map_app. simpl. rewrite app_nil_r, <- app_assoc. unfold filled at 3; simpl.
  rewrite <- app_assoc. do 2 f_equal. lia.
Qed.

Lemma filled_entry l obj b k x : laid_out l → 0 <= x → 0 < k → x mod unit l + k <= unit l →
  filled (entry obj (b, k, locate l x)) = file_bytes l obj x k.
Proof.
  intros Hl Hx Hk Hu. pose proof (locate_range l Hl x Hx) as [_ Hr].
  assert (∀ i, 0 <= i < k → locate l (x + i) = ((locate l x).1, (locate l x).2 + i)) as Hloc by (intros i Hi; apply locate_next; [done|lia..]).
  destruct (locate l x) as [o d]. unfold entry, filled, piece_data; simpl in *.
  set (c := obj o). set (p := take _ (drop _ c)). apply list_eq. intros i. unfold file_bytes.
  assert (List.length p = Nat.min (Z.to_nat k) (List.length c - Z.to_nat d)) as Hlen by (unfold p; by rewrite length_take, length_drop).
  change (map ?f ?q) with (f <$> q). rewrite list_lookup_fmap. destruct (decide (Z.of_nat i < k)) as [Hi|Hi].
  - rewrite lookup_seqZ_lt by lia. simpl. unfold file_byte. rewrite Hloc by lia. simpl. fold c.
    replace (Z.to_nat (d + Z.of_nat i)) with (Z.to_nat d + i)%nat by lia. destruct (decide (i < List.length p)%nat) as [Hp|Hp].
    + rewrite lookup_app_l by done. unfold p. rewrite lookup_take_lt, lookup_drop by lia.
      destruct (lookup_lt_is_Some_2 c (Z.to_nat d + i)) as [y Hy]; [lia|]. by rewrite Hy.
    + rewrite lookup_app_r by lia. rewrite lookup_replicate_2 by lia. rewrite lookup_ge_None_2 by lia. done.
  - rewrite lookup_seqZ_ge by lia. apply lookup_ge_None_2. rewrite length_app, length_replicate. lia.
Qed.

Lemma pieces_chain l obj : laid_out l → ∀ fuel x n buf, (0 < fuel)%nat → 0 <= x → 0 <= n →
  (0 < n → n + x mod unit l <= unit l * (Z.of_nat fuel - 1)) →
  chain buf (map (entry obj) (pieces l fuel x n buf)) (buf + n) ∧
  flat_map filled (map (entry obj) (pieces l fuel x n buf)) = file_bytes l obj x n ∧
  pieces_len (pieces l fuel x n buf) = n.
Proof.
  intros Hl. induction fuel as [|fuel IH]; intros x n buf Hf Hx Hn Hb; [lia|]. destruct (Z.eq_dec n 0) as [->|Hn0].
  { simpl. split_and!; [lia|done|done]. }
  destruct (pieces_step l Hl (S fuel) x n buf) as (k & fuel' & [= <-] & -> & Hk & Hku & Hf' & Hb'); [lia..|by apply Hb; lia|].
  destruct (IH (x + k) (n - k) (buf + k)) as (I1 & I2 & I3); [done|lia|lia|done|]. cbn [map flat_map]. rewrite filled_entry, I2 by (done || lia).
  split_and!.
  - destruct (locate l x) as [o d]. simpl. split_and!; [done|lia| |].
    + unfold piece_data. rewrite length_take. lia.
    + by replace (buf + n) with (buf + k + (n - k)) by lia.
  - unfold file_bytes. rewrite <- map_app, <- seqZ_app by lia. do 2 f_equal. lia.
  - unfold pieces_len in *; simpl. rewrite I3. lia.
Qed.

(** ** Truncation and object counts *)

Lemma lex_lt a b c d m : 0 <= b < m → 0 <= d < m → a * m + b < c * m + d ↔ a < c ∨ a = c ∧ b < d.
Proof. intros Hb Hd. split; [intros H; destruct (Z.lt_total a c) as [?|[?| ?]]; [by left|right; subst; lia|nia]|intros [?|[-> ?]]; nia]. Qed.
Lemma div_lt_iff a b q : 0 < b → a / b < q ↔ a < q * b.
Proof.
  intros Hb. pose proof (Z.div_mod a b ltac:(lia)). pose proof (Z.mod_pos_bound a b Hb). split; intros ?; [nia|].
  apply Z.div_lt_upper_bound; lia.
Qed.

Lemma lt_rows o s q c : 0 < s → 0 <= c <= s → o < q * s + c ↔ o / s < q ∨ o / s = q ∧ o mod s < c.
Proof.
  intros Hs Hc. pose proof (Z.div_mod o s ltac:(lia)) as E. pose proof (Z.mod_pos_bound o s Hs).
  destruct (Z.lt_total (o / s) q) as [L|[L|L]].
  - assert ((o / s + 1) * s <= q * s) by (apply Z.mul_le_mono_nonneg_r; lia). lia.
  - rewrite L in E. lia.
  - assert ((q + 1) * s <= o / s * s) by (apply Z.mul_le_mono_nonneg_r; lia). lia.
Qed.

Lemma rem_cases R P B s u : 0 <= R → 0 <= P < s → 0 <= B < u → let t := (R * s + P) * u + B in
  0 <= t ∧ (t = 0 → R = 0 ∧ P = 0 ∧ B = 0) ∧ (t < s * u ↔ R = 0) ∧ (R = 0 → (t + u - 1) / u = P + Z.b2z (0 <? B)).
Proof.
  intros HR HP HB t. assert (0 <= R * s) by (apply Z.mul_nonneg_nonneg; lia).
  assert (0 <= (R * s + P) * u) by (apply Z.mul_nonneg_nonneg; lia).
  assert (0 < R → s * u <= (R * s + P) * u) as HRs.
  { intros. assert (1 * s <= R * s) by (apply Z.mul_le_mono_nonneg_r; lia). apply Z.mul_le_mono_nonneg_r; lia. }
  assert (0 < s * u) by (apply Z.mul_pos_pos; lia). assert (R = 0 → t = P * u + B) as HR0 by (intros ->; unfold t; lia).
  assert (0 < P → 1 * u <= P * u) by (intros; apply Z.mul_le_mono_nonneg_r; lia).
  assert ((P + 1) * u <= s * u) by (apply Z.mul_le_mono_nonneg_r; lia).
  split_and!; [unfold t; lia| | |].
  - intros E. assert (R = 0) as ER by (destruct (Z.eq_dec R 0); [done|]; unfold t in E; lia). specialize (HR0 ER).
    assert (P = 0) as EP by (destruct (Z.eq_dec P 0); [done|]; lia). rewrite EP in HR0. lia.
  - split; [|lia]. intros Hlt. destruct (Z.eq_dec R 0); [done|]. unfold t in Hlt. lia.
  - intros ER. rewrite (HR0 ER). symmetry. apply (Z.div_unique _ _ _ (if 0 <? B then B - 1 else u - 1)); destruct (Z.ltb_spec 0 B); simpl; lia.
Qed.

Section Sizes.
Context (l : file_layout_t) (Hl : laid_out l).
Local Abbreviation su := (stripe_unit l).
Local Abbreviation sc := (stripe_count l).

(** The order of the bytes of a file: by object set, row, object and place. *)
Lemma place_lt o i t : 0 <= o → 0 <= i < object_size l → 0 <= t →
  place l o i < t ↔
    o / sc < t / su / sc / rows l ∨ o / sc = t / su / sc / rows l ∧
      (i / su < (t / su / sc) mod rows l ∨ i / su = (t / su / sc) mod rows l ∧
        (o mod sc < (t / su) mod sc ∨ o mod sc = (t / su) mod sc ∧ i mod su < t mod su)).
Proof.
  intros Ho Hi Ht. destruct (rows_spec l Hl) as [Hr Hr0]. destruct Hl as (H1 & H2 & H3 & H4 & H5).
  pose proof (Z.mod_pos_bound i su ltac:(lia)). pose proof (Z.mod_pos_bound o sc ltac:(lia)).
  pose proof (Z.mod_pos_bound t su ltac:(lia)). pose proof (Z.mod_pos_bound (t / su) sc ltac:(lia)).
  pose proof (Z.mod_pos_bound (t / su / sc) (rows l) ltac:(lia)).
  assert (0 <= i / su < rows l) by (split; [apply Z.div_pos; lia|apply Z.div_lt_upper_bound; lia]).
  pose proof (Z.div_mod t su ltac:(lia)). pose proof (Z.div_mod (t / su) sc ltac:(lia)).
  pose proof (Z.div_mod (t / su / sc) (rows l) ltac:(lia)).
  replace t with (((t / su / sc / rows l * rows l + (t / su / sc) mod rows l) * sc + (t / su) mod sc) * su + t mod su) at 1 by lia.
  unfold place. rewrite lex_lt by lia. rewrite (Z.add_comm (i / su)), lex_lt, lex_lt by lia.
  assert (∀ a b c d m, 0 <= b < m → 0 <= d < m → a * m + b = c * m + d ↔ a = c ∧ b = d) as lex_eq
    by (intros; split; [intros; assert (a = c) by nia; split; [done|subst; lia]|intros [-> ->]; done]).
  do 3 (rewrite lex_eq by lia). tauto.
Qed.

Lemma truncate_ok o t : 0 <= o < 2 ^ 64 → 0 <= t < 2 ^ 64 - 1 →
  ∃ k, object_truncate_size l o t = Ok k ∧ 0 <= k <= object_size l ∧
    ∀ i, 0 <= i < object_size l → i < k ↔ place l o i < t.
Proof.
  intros Ho Ht. destruct (rows_spec l Hl) as [Hr Hr0]. pose proof Hl as (H1 & H2 & H3 & H4 & H5).
  unfold object_truncate_size. destruct (Z.eqb_spec t 0) as [->|Ht0]; simpl orb.
  { exists 0. split; [done|]. split; [lia|]. intros i Hi. split; [lia|]. unfold place. intros Hp.
    assert (0 <= i / su) by (apply Z.div_pos; lia). assert (0 <= o / sc) by (apply Z.div_pos; lia).
    pose proof (Z.mod_pos_bound i su ltac:(lia)). pose proof (Z.mod_pos_bound o sc ltac:(lia)).
    assert (0 <= o / sc * rows l) by nia. nia. }
  rewrite (proj2 (Z.eqb_neq t _)) by lia. rewrite assert_true by (apply Z.leb_le; lia). unfold udiv, umod.
  repeat (rewrite !(proj2 (Z.eqb_neq _ 0)) by (unfold rows in Hr0; lia); cbn [bind]). fold (rows l).
  assert (t / object_size l / sc = t / su / sc / rows l) as -> by (rewrite !Z.div_div by lia; f_equal; lia).
  set (S := t / su / sc / rows l). set (R := (t / su / sc) mod rows l). set (P := (t / su) mod sc).
  assert (0 <= R < rows l) as HR by (apply Z.mod_pos_bound; lia). assert (0 <= P < sc) as HP by (apply Z.mod_pos_bound; lia).
  assert (0 <= t mod su < su) as HB by (apply Z.mod_pos_bound; lia).
  assert (0 <= S) by (unfold S; repeat apply Z.div_pos; lia).
  assert (0 <= S * sc) by (apply Z.mul_nonneg_nonneg; lia).
  assert (0 <= S * sc + P <= t) as HS.
  { split; [lia|]. pose proof (locate_range l Hl t ltac:(lia)) as [HL _]. unfold locate in HL. simpl in HL. fold S P in HL. lia. }
  rewrite (u64_small (S * sc)), (u64_small (S * sc + P)) by lia.
  assert (∀ i, 0 <= i < object_size l → 0 <= i / su < rows l ∧ 0 <= i mod su < su ∧ i = i / su * su + i mod su) as Hi'.
  { intros i Hi. pose proof (Z.mod_pos_bound i su ltac:(lia)). pose proof (Z.div_mod i su ltac:(lia)).
    split_and!; try lia; [apply Z.div_pos; lia|apply Z.div_lt_upper_bound; lia]. }
  assert (∀ j, 0 <= j <= rows l → 0 <= j * su <= object_size l) as Hrow.
  { intros j Hj. split; [apply Z.mul_nonneg_nonneg; lia|]. rewrite Hr, (Z.mul_comm su). apply Z.mul_le_mono_nonneg_r; lia. }
  pose proof (Z.div_mod o sc ltac:(lia)) as Eo. pose proof (Z.mod_pos_bound o sc ltac:(lia)) as Ho'.
  destruct (Z.ltb_spec S (o / sc)) as [L1|L1]; [|destruct (Z.ltb_spec (o / sc) S) as [L2|L2]].
  - exists 0. split; [done|]. split; [lia|]. intros i Hi. rewrite place_lt by lia. fold S. lia.
  - exists (object_size l). split; [done|]. split; [lia|]. intros i Hi. rewrite place_lt by lia. fold S. lia.
  - assert (o / sc = S) as ES by lia. rewrite ES in Eo. destruct (Z.ltb_spec o (S * sc + P)) as [L3|L3]; [|destruct (Z.ltb_spec (S * sc + P) o) as [L4|L4]].
    + pose proof (Hrow (R + 1) ltac:(lia)). rewrite (u64_small (R + 1)), u64_small by lia. eexists; split; [done|]. split; [lia|].
      intros i Hi. rewrite place_lt, ES by lia. fold S R P. destruct (Hi' i Hi) as (? & ? & Ei). 
      rewrite <- div_lt_iff by lia. lia.
    + pose proof (Hrow R ltac:(lia)). rewrite u64_small by lia. eexists; split; [done|]. split; [lia|].
      intros i Hi. rewrite place_lt, ES by lia. fold S R P. destruct (Hi' i Hi) as (? & ? & Ei).
      rewrite <- div_lt_iff by lia. lia.
    + pose proof (Hrow R ltac:(lia)). pose proof (Hrow (R + 1) ltac:(lia)). rewrite (u64_small (R * su)), u64_small by lia. eexists; split; [done|]. split; [lia|].
      intros i Hi. rewrite place_lt, ES by lia. fold S R P. destruct (Hi' i Hi) as (? & ? & Ei).
      rewrite Ei at 1. rewrite lex_lt by lia. lia.
Qed.

Lemma size_split t : 0 <= t → ∃ q R P B, t / su / sc / rows l = q ∧ (t / su / sc) mod rows l = R ∧ (t / su) mod sc = P ∧ t mod su = B ∧
  0 <= q ∧ 0 <= R < rows l ∧ 0 <= P < sc ∧ 0 <= B < su ∧ t = ((q * rows l + R) * sc + P) * su + B.
Proof.
  intros Ht. destruct (rows_spec l Hl) as [Hr Hr0]. pose proof Hl as (H1 & H2 & H3 & H4 & H5). do 4 eexists.
  do 4 (split; [reflexivity|]). split; [repeat apply Z.div_pos; lia|]. do 3 (split; [apply Z.mod_pos_bound; lia|]).
  rewrite (Z.mul_comm _ (rows l)), <- Z.div_mod, (Z.mul_comm _ sc), <- Z.div_mod, (Z.mul_comm _ su), <- Z.div_mod by lia. done.
Qed.

Lemma num_objects_ok size o : 0 <= size → size + stripe_count l * object_size l < 2 ^ 64 → 0 <= o →
  ∃ k, get_num_objects l size = Ok k ∧ (o < k ↔ place l o 0 < size).
Proof.
  intros Hs Hov Ho. destruct (rows_spec l Hl) as [Hr Hr0]. pose proof Hl as (H1 & H2 & H3 & H4 & H5).
  pose proof (place_lt o 0 size ltac:(lia) ltac:(lia) ltac:(lia)) as Hpl. rewrite Z.div_0_l, Z.mod_0_l in Hpl by lia.
  destruct (size_split size Hs) as (q & R & P & B & Eq & ER & EP & EB & Hq0 & HR & HP & HB & Es). rewrite Eq, ER, EP, EB in Hpl.
  set (rem := (R * sc + P) * su + B). set (per := sc * object_size l) in *.
  assert (size = q * per + rem) as Es' by (unfold per, rem; rewrite Es, Hr; ring). clear Es Eq ER EP EB.
  destruct (rem_cases R P B sc su ltac:(lia) HP HB) as (Hrem0 & Hz & Hlow & Hceil). fold rem in Hrem0, Hz, Hlow, Hceil.
  assert (0 <= rem < per) as Hrem.
  { split; [done|]. unfold rem, per. rewrite Hr. assert ((R + 1) * sc <= rows l * sc) by (apply Z.mul_le_mono_nonneg_r; lia).
    assert ((R * sc + P + 1) * su <= rows l * sc * su) by (apply Z.mul_le_mono_nonneg_r; lia). lia. }
  unfold get_num_objects, get_period. fold per. rewrite (u64_small per) by lia. rewrite (u64_small (size + per)), (u64_small (size + per - 1)) by lia.
  unfold udiv, umod. rewrite !(proj2 (Z.eqb_neq per 0)) by lia. cbn [bind].
  assert ((size + per - 1) / per = q + Z.b2z (0 <? rem)) as ->.
  { symmetry. apply (Z.div_unique _ _ _ (if 0 <? rem then rem - 1 else per - 1)); destruct (Z.ltb_spec 0 rem); simpl; lia. }
  assert (size mod per = rem) as -> by (symmetry; apply (Z.mod_unique _ _ q); lia).
  pose proof (Z.mod_pos_bound o sc ltac:(lia)) as Hm. pose proof (λ c, lt_rows o sc q c ltac:(lia)) as Hc.
  assert (0 <= (q + 1) * sc < 2 ^ 64) as Hq.
  { split; [apply Z.mul_nonneg_nonneg; lia|]. assert ((q + 1) * sc * 1 <= (q + 1) * sc * object_size l) by (apply Z.mul_le_mono_nonneg_l; [apply Z.mul_nonneg_nonneg; lia|lia]).
    unfold per in *. lia. }
  assert (0 <= q * sc) by (apply Z.mul_nonneg_nonneg; lia).
  assert (0 < sc * su <= per) as Hcs by (unfold per; split; [apply Z.mul_pos_pos; lia|apply Z.mul_le_mono_nonneg_l; lia]).
  rewrite (u64_small (sc * su)) by lia. destruct (Z.ltb_spec 0 rem) as [L|L]; simpl Z.b2z; simpl andb.
  - rewrite (u64_small ((q + 1) * sc)) by lia. destruct (Z.ltb_spec rem (sc * su)) as [L'|L'].
    + rewrite (proj2 (Z.eqb_neq su 0)), (u64_small (rem + su)), (u64_small (rem + su - 1)) by lia. cbn [bind].
      assert (R = 0) as ER by tauto. rewrite (Hceil ER).
      assert (0 <= P + Z.b2z (0 <? B) <= sc) as Hk by (destruct (Z.ltb_spec 0 B); simpl; lia).
      rewrite (u64_small (sc - _)), u64_small by lia. eexists. split; [done|].
      specialize (Hc _ Hk). replace ((q + 1) * sc - (sc - (P + Z.b2z (0 <? B)))) with (q * sc + (P + Z.b2z (0 <? B))) by ring.
      rewrite Hc, Hpl, ER. destruct (Z.ltb_spec 0 B); simpl; lia.
    + cbn [bind]. rewrite Z.sub_0_r, u64_small by lia. eexists. split; [done|]. specialize (Hc sc ltac:(lia)).
      replace ((q + 1) * sc) with (q * sc + sc) by ring. rewrite Hc, Hpl. lia.
  - rewrite Z.add_0_r, (u64_small (q * sc)) by lia. cbn [bind]. rewrite Z.sub_0_r, u64_small by lia. eexists. split; [done|].
    specialize (Hc 0 ltac:(lia)). rewrite Z.add_0_r in Hc. rewrite Hc, Hpl. destruct (Hz ltac:(lia)) as (-> & -> & ->). lia.
Qed.
End Sizes.

(** ** Object extents back to the file *)

Lemma seqZ_shift a n : seqZ a n = map (Z.add a) (seqZ 0 n).
Proof. symmetry. rewrite (fmap_add_seqZ a 0 n : map _ _ = _). f_equal. lia. Qed.

Lemma place_next l o k d : laid_out l → 0 <= d → k mod stripe_unit l + d < stripe_unit l → place l o (k + d) = place l o k + d.
Proof.
  intros Hl Hd Hm. pose proof Hl as (H1 & H2 & H3 & H4 & H5). pose proof (Z.mod_pos_bound k (stripe_unit l) ltac:(lia)).
  pose proof (Z.div_mod k (stripe_unit l) ltac:(lia)) as E. unfold place.
  assert ((k + d) / stripe_unit l = k / stripe_unit l) as -> by (symmetry; apply (Z.div_unique _ _ _ (k mod stripe_unit l + d)); lia).
  assert ((k + d) mod stripe_unit l = k mod stripe_unit l + d) as -> by (symmetry; apply (Z.mod_unique _ _ (k / stripe_unit l)); lia).
  lia.
Qed.

Lemma place_seq l o k n : laid_out l → 0 <= o → 0 <= k → k mod stripe_unit l + n <= stripe_unit l → k + n <= object_size l →
  map (locate l) (seqZ (place l o k) n) = map (pair o) (seqZ k n).
Proof.
  intros Hl Ho Hk Hm Hn. rewrite (seqZ_shift (place l o k)), (seqZ_shift k), !map_map. apply map_ext_in.
  intros d Hd%list_elem_of_In%elem_of_seqZ. rewrite <- place_next, locate_place by (done || lia). done.
Qed.

Lemma place_bound l o k : laid_out l → 0 <= o → 0 <= k < object_size l → 0 <= place l o k < (o / stripe_count l + 1) * (stripe_count l * object_size l).
Proof.
  intros Hl Ho Hk. destruct (rows_spec l Hl) as [Hr Hr0]. pose proof Hl as (H1 & H2 & H3 & H4 & H5). unfold place.
  pose proof (Z.mod_pos_bound k (stripe_unit l) ltac:(lia)). pose proof (Z.mod_pos_bound o (stripe_count l) ltac:(lia)).
  assert (0 <= k / stripe_unit l < rows l) by (split; [apply Z.div_pos; lia|apply Z.div_lt_upper_bound; lia]).
  assert (0 <= o / stripe_count l) by (apply Z.div_pos; lia).
  set (S := o / stripe_count l) in *. set (r := k / stripe_unit l) in *.
  assert (0 <= S * rows l) by (apply Z.mul_nonneg_nonneg; lia).
  assert (0 <= (r + S * rows l) * stripe_count l) by (apply Z.mul_nonneg_nonneg; lia).
  assert ((r + S * rows l + 1) * stripe_count l <= (S + 1) * rows l * stripe_count l) by (apply Z.mul_le_mono_nonneg_r; lia).
  assert (0 <= ((r + S * rows l) * stripe_count l + o mod stripe_count l) * stripe_unit l) by (apply Z.mul_nonneg_nonneg; lia).
  assert (((r + S * rows l) * stripe_count l + o mod stripe_count l + 1) * stripe_unit l <= (S + 1) * rows l * stripe_count l * stripe_unit l)
    by (apply Z.mul_le_mono_nonneg_r; lia).
  rewrite Hr. lia.
Qed.

(** The bytes of a list of extents of the file. *)
Definition extent_bytes (es : list (Z * Z)) : list Z := flat_map (λ e, seqZ e.1 e.2) es.

(** The place of a byte as the loop computes it. *)
Lemma place_u64 l o k : laid_out l → 0 <= o → 0 <= k < object_size l →
  (o / stripe_count l + 1) * (stripe_count l * object_size l) <= 2 ^ 64 →
  u64 (u64 (u64 (u64 (u64 (k / stripe_unit l + u64 (o / stripe_count l * rows l)) * stripe_count l) + o mod stripe_count l) * stripe_unit l)
    + k mod stripe_unit l) = place l o k.
Proof.
  intros Hl Ho Hk Hov. pose proof (place_bound l o k Hl Ho Hk) as [_ Hb]. destruct (rows_spec l Hl) as [Hr Hr0].
  pose proof Hl as (H1 & H2 & H3 & H4 & H5). unfold place in *.
  pose proof (Z.mod_pos_bound k (stripe_unit l) ltac:(lia)). pose proof (Z.mod_pos_bound o (stripe_count l) ltac:(lia)).
  assert (0 <= k / stripe_unit l) by (apply Z.div_pos; lia). assert (0 <= o / stripe_count l) by (apply Z.div_pos; lia).
  set (S := o / stripe_count l) in *. set (r := k / stripe_unit l) in *. assert (0 <= S * rows l) by (apply Z.mul_nonneg_nonneg; lia).
  assert ((r + S * rows l) * 1 <= (r + S * rows l) * stripe_count l) by (apply Z.mul_le_mono_nonneg_l; lia).
  set (b := (r + S * rows l) * stripe_count l) in *.
  assert ((b + o mod stripe_count l) * 1 <= (b + o mod stripe_count l) * stripe_unit l) by (apply Z.mul_le_mono_nonneg_l; lia).
  rewrite (u64_small (S * rows l)), (u64_small (r + _)) by lia. fold b.
  rewrite (u64_small b), (u64_small (b + _)), (u64_small (_ * stripe_unit l)), u64_small by lia. done.
Qed.

Lemma to_file_ok l o : laid_out l → 0 <= o → (o / stripe_count l + 1) * (stripe_count l * object_size l) <= 2 ^ 64 →
  ∀ fuel off ob len acc, 0 <= off → 0 <= len → off + len <= object_size l → (0 < fuel)%nat →
  (0 < len → ob = off mod stripe_unit l ∧ len + ob <= stripe_unit l * (Z.of_nat fuel - 1)) →
  ∃ es, to_file_loop fuel l (rows l) o off ob len acc = Ok (acc ++ es) ∧
    map (locate l) (extent_bytes es) = map (pair o) (seqZ off len).
Proof.
  intros Hl Ho Hov. pose proof Hl as (H1 & H2 & H3 & H4 & H5).
  induction fuel as [|fuel IH]; intros off ob len acc Hoff Hlen Hend Hf0 Hf; [lia|]. cbn [to_file_loop].
  destruct (Z.ltb_spec 0 len) as [Hpos|Hz]; cbn [negb].
  2: { exists []. rewrite app_nil_r, (seqZ_nil off len) by lia. done. }
  destruct (Hf Hpos) as [Eob Hfl]. pose proof (Z.mod_pos_bound off (stripe_unit l) ltac:(lia)) as Hm.
  unfold udiv, umod. rewrite !(proj2 (Z.eqb_neq _ 0)) by lia. cbn [bind]. rewrite Eob, place_u64 by (done || lia).
  rewrite (u64_small (stripe_unit l - _)) by lia. set (n := Z.min len (stripe_unit l - off mod stripe_unit l)).
  rewrite !u64_small by (unfold n; lia).
  destruct (IH (off + n) 0 (len - n) (acc ++ [(place l o off, n)])) as (es & E & Hes); [unfold n; lia..| | |].
  { destruct fuel; [|lia]. simpl in Hfl. lia. }
  { intros Hmore. assert (n = stripe_unit l - off mod stripe_unit l) as En by lia. split; [|lia]. rewrite En.
    apply (Z.mod_unique _ _ (off / stripe_unit l + 1)); [lia|]. pose proof (Z.div_mod off (stripe_unit l)). lia. }
  exists ((place l o off, n) :: es). rewrite E, <- app_assoc. split; [done|]. unfold extent_bytes in *. simpl.
  rewrite map_app, Hes, place_seq by (done || unfold n; lia). replace len with (n + (len - n)) at 2 by lia.
  rewrite seqZ_app, map_app by (unfold n; lia). done.
Qed.

(** ** One extent per object *)

Lemma name_ltb_irrefl a : name_ltb a a = false.
Proof. induction a as [|x a IH]; simpl; [done|]. by rewrite Z.eqb_refl. Qed.
Lemma name_ltb_trans a : ∀ b c, name_ltb a b = true → name_ltb b c = true → name_ltb a c = true.
Proof.
  induction a as [|x a IH]; intros [|y b] [|z c]; simpl; try done.
  destruct (Z.eqb_spec x y), (Z.eqb_spec y z), (Z.eqb_spec x z); subst; rewrite ?Z.ltb_lt; try done; [by apply IH|lia..].
Qed.
Lemma name_ltb_total a : ∀ b, a ≠ b → name_ltb a b = false → name_ltb b a = true.
Proof.
  induction a as [|x a IH]; intros [|y b] Hne; simpl; try done.
  rewrite (Z.eqb_sym y x). destruct (Z.eqb_spec x y) as [->|E]; [apply IH; congruence|]. rewrite Z.ltb_ge, Z.ltb_lt. lia.
Qed.

Definition names_sorted (m : extent_map) : Prop := StronglySorted (λ a b, name_ltb a.1 b.1 = true) m.

Lemma names_sorted_nodup m : names_sorted m → NoDup m.*1.
Proof.
  induction 1 as [|e m Hs IH Hf]; simpl; [constructor|]. apply NoDup_cons. split; [|done].
  intros (e' & E & He)%list_elem_of_fmap. rewrite Forall_forall in Hf. specialize (Hf _ He). rewrite E, name_ltb_irrefl in Hf. done.
Qed.

Lemma at_name_key k f m e : e ∈ at_name k f m → e.1 = k ∨ e ∈ m.
Proof.
  induction m as [|[k' v] m IH]; simpl; [rewrite list_elem_of_singleton; intros ->; by left|].
  case_bool_decide as E; [|destruct (name_ltb k k')]; rewrite !elem_of_cons; [intuition (subst; auto)..|]. intros [->|H]; [by right; left|]. destruct (IH H); auto.
Qed.

Lemma at_name_sorted k f m : names_sorted m → names_sorted (at_name k f m).
Proof.
  unfold names_sorted. induction 1 as [|[k' v] m Hs IH Hf]; simpl; [by repeat constructor|].
  case_bool_decide as E; [by constructor|]. destruct (name_ltb k k') eqn:L.
  - constructor; [by constructor|]. constructor; [done|]. eapply Forall_impl; [exact Hf|]. intros e He. by eapply name_ltb_trans.
  - constructor; [done|]. apply Forall_forall. intros e [->|He]%at_name_key; [simpl; by apply name_ltb_total; [congruence|]|].
    rewrite Forall_forall in Hf. by apply Hf.
Qed.

Lemma at_name_forall (P Q : list Z * list ObjectExtent → Prop) k f m : names_sorted m → Forall P m →
  (∀ k' v, k' ≠ k → P (k', v) → Q (k', v)) → (∀ v, P (k, v) → Q (k, f v)) → Q (k, f []) → Forall Q (at_name k f m).
Proof.
  intros Hs HP Hother Hk Hnew. assert (∀ k' m', k' = k ∨ name_ltb k k' = true → Forall (λ e, name_ltb k' e.1 = true) m' → Forall P m' → Forall Q m') as Hrest.
  { intros k' m' H0 Hlt HP'. apply Forall_forall. intros [k1 v1] He. rewrite Forall_forall in Hlt, HP'. specialize (Hlt _ He). apply Hother; [|by apply HP'].
    intros ->. destruct H0 as [->|H0]; simpl in Hlt; [by rewrite name_ltb_irrefl in Hlt|].
    pose proof (name_ltb_trans _ _ _ H0 Hlt) as C. by rewrite name_ltb_irrefl in C. }
  induction Hs as [|[k' v] m Hs IH Hf]; simpl; [by repeat constructor|]. apply Forall_cons in HP as [HP1 HP2].
  case_bool_decide as E; [subst k'; constructor; [by apply Hk|by eapply Hrest; [left| |]]|]. destruct (name_ltb k k') eqn:L.
  - constructor; [done|]. constructor; [by apply Hother|]. by eapply Hrest; [right| |].
  - constructor; [by apply Hother|by apply IH].
Qed.

Section Single.
Context (name_of : Z → list Z) (Hinj : ∀ a b, 0 <= a < 2 ^ 64 → 0 <= b < 2 ^ 64 → name_of a = name_of b → a = b).
Context (l : file_layout_t) (Hl : laid_out l) (trunc_size : Z).

Lemma place_mono o i j : 0 <= i < j → place l o i < place l o j.
Proof.
  intros Hij. pose proof Hl as (H1 & H2 & H3 & H4 & H5). unfold place.
  pose proof (Z.mod_pos_bound i (stripe_unit l) ltac:(lia)). pose proof (Z.mod_pos_bound j (stripe_unit l) ltac:(lia)).
  pose proof (Z.div_mod i (stripe_unit l) ltac:(lia)). pose proof (Z.div_mod j (stripe_unit l) ltac:(lia)).
  pose proof (Z.div_le_mono i j (stripe_unit l) ltac:(lia) ltac:(lia)). apply lex_lt; [done|done|].
  destruct (Z.eq_dec (i / stripe_unit l) (j / stripe_unit l)) as [E|E]; [right; rewrite E in *; lia|left].
  apply Z.add_lt_mono_r, Z.mul_lt_mono_pos_r; lia.
Qed.

(** The extent ends with what its object has before byte [cur] of the file. *)
Definition ends_at (cur : Z) (ex : ObjectExtent) : Prop :=
  ∀ i, 0 <= i < object_size l → i < offset ex + length ex ↔ place l (objectno ex) i < cur.
Definition single (cur : Z) (e : list Z * list ObjectExtent) : Prop :=
  ∃ ex, e.2 = [ex] ∧ ext_ok name_of l trunc_size e.1 ex ∧ ends_at cur ex.

Lemma place_block cur n d : 0 <= cur → cur mod unit l + n <= unit l → 0 <= d < n →
  place l (locate l cur).1 ((locate l cur).2 + d) = cur + d.
Proof.
  intros Hc Hn Hd. pose proof (place_locate l Hl (cur + d) ltac:(lia)) as E. rewrite locate_next in E by (done || lia). done.
Qed.

Lemma block_end cur n i : 0 <= cur → 0 < n → cur mod unit l + n <= unit l → 0 <= i →
  i < (locate l cur).2 + n ↔ place l (locate l cur).1 i < cur + n.
Proof.
  intros Hc Hn Hu Hi. destruct (locate_range l Hl cur Hc) as [Ro Rk]. split; intros H.
  - destruct (Z.lt_ge_cases i (locate l cur).2) as [L|L].
    + pose proof (place_mono (locate l cur).1 i (locate l cur).2 ltac:(lia)) as Hm. rewrite place_locate in Hm by done. lia.
    + pose proof (place_block cur n (i - (locate l cur).2) Hc Hu ltac:(lia)) as E.
      replace ((locate l cur).2 + (i - (locate l cur).2)) with i in E by lia. lia.
  - destruct (Z.lt_ge_cases i ((locate l cur).2 + n)) as [L|L]; [done|].
    pose proof (place_block cur n (n - 1) Hc Hu ltac:(lia)) as E.
    pose proof (place_mono (locate l cur).1 ((locate l cur).2 + (n - 1)) i ltac:(lia)). lia.
Qed.

Lemma other_block cur n o i : 0 <= cur → cur mod unit l + n <= unit l → 0 < n → 0 <= o → 0 <= i < object_size l →
  o ≠ (locate l cur).1 → place l o i < cur ↔ place l o i < cur + n.
Proof.
  intros Hc Hu Hn Ho Hi Hne. split; [lia|]. intros H. destruct (Z.lt_ge_cases (place l o i) cur) as [L|L]; [done|].
  destruct Hne. pose proof (locate_next l Hl cur (place l o i - cur) Hc ltac:(lia) ltac:(lia)) as E.
  replace (cur + (place l o i - cur)) with (place l o i) in E by lia. rewrite locate_place in E by done. by injection E.
Qed.

Lemma single_step cur n t buf m : 0 <= cur → 0 < n → cur mod unit l + n <= unit l →
  0 <= (locate l cur).1 < 2 ^ 64 → (locate l cur).2 + n <= object_size l → object_truncate_size l (locate l cur).1 trunc_size = Ok t →
  names_sorted m → Forall (single cur) m →
  Forall (single (cur + n)) (at_name (name_of (locate l cur).1) (add_extent name_of l (locate l cur).1 (locate l cur).2 n t buf) m).
Proof.
  intros Hc Hn Hu Ho He Ht Hs Hm. destruct (locate_range l Hl cur Hc) as [Ro Rk].
  pose proof (place_locate l Hl cur Hc) as Hpl. pose proof (λ i, block_end cur n i Hc Hn Hu) as Hbl.
  pose proof (λ o i, other_block cur n o i Hc Hu Hn) as Hob. destruct (locate l cur) as [o x]. cbn [fst snd] in *.
  assert (∀ v, Forall (ext_ok name_of l trunc_size (name_of o)) v → Forall (ext_ok name_of l trunc_size (name_of o))
    (add_extent name_of l o x n t buf v)) as Hok by (intros v Hv; apply add_extent_ok; (done || lia)).
  apply (at_name_forall (single cur)); [done|done| | |].
  - intros k v Hk (ex & Ev & Hex & Hend). exists ex. split; [done|]. split; [done|]. intros i Hi. rewrite (Hend i Hi).
    destruct Hex as [[_ Hname] Hno]. simpl in *. apply Hob; try done; [lia|]. intros E. apply Hk. by rewrite <- Hname, E.
  - intros v (ex & Ev & Hex & Hend). simpl in Ev, Hex. subst v. specialize (Hok [ex] (proj2 (Forall_singleton _ _) Hex)).
    pose proof Hex as [[N1 N2] No Ln Rg _ _ _]. assert (objectno ex = o) as Eno by (apply Hinj; (done || congruence)).
    assert (offset ex + length ex = x) as Eend.
    { pose proof (Hend x ltac:(lia)) as E1. rewrite Eno, Hpl in E1.
      destruct (Z.lt_ge_cases (offset ex + length ex) x) as [L|L]; [|lia]. exfalso.
      pose proof (Hend (offset ex + length ex) ltac:(lia)) as E2. pose proof (place_mono o (offset ex + length ex) x ltac:(lia)) as Hlt.
      rewrite Hpl in Hlt. rewrite Eno in E2. lia. }
    unfold add_extent in *. simpl in *. destruct Hl as (H1 & H2 & H3 & H4 & H5). rewrite u64_small, (proj2 (Z.eqb_eq _ _) Eend), u64_small in * by lia. simpl in *.
    eexists. split; [done|]. apply Forall_cons in Hok as [Hok _]. split; [done|]. intros i Hi. simpl.
    rewrite Eno, <- Hbl by lia. lia.
  - specialize (Hok [] ltac:(constructor)). unfold add_extent in *. simpl in *. eexists. split; [done|]. apply Forall_cons in Hok as [Hok _]. split; [done|].
    intros i Hi. simpl. apply Hbl. lia.
Qed.

Lemma extents_loop_single start bo fuel : ∀ m cur left m', names_sorted m → Forall (single cur) m →
  0 <= start <= cur → 0 <= left → 0 <= bo → cur + left < 2 ^ 64 → cur - start + left + bo < 2 ^ 64 →
  extents_loop name_of fuel l (unit l) (object_size l / unit l) start trunc_size bo m cur left = Ok m' →
  names_sorted m' ∧ Forall (single (cur + left)) m'.
Proof.
  induction fuel as [|fuel IH]; intros m cur left m' Hs Hm Hst Hleft Hbo Hov1 Hov2; [done|]. destruct (Z.ltb_spec 0 left) as [Hpos|Hz].
  2: { cbn [extents_loop]. rewrite (proj2 (Z.ltb_ge _ _) Hz). intros [= <-]. replace (cur + left) with cur by lia. done. }
  destruct (extents_loop_step name_of l Hl trunc_size start bo fuel m cur left) as (n & t & En & Hn & Et & Ro & Rk & Re & ->); [done..|].
  intros E. apply IH in E; [|by apply at_name_sorted|apply single_step; (done || lia)|lia..].
  by replace (cur + left) with (cur + n + (left - n)) by lia.
Qed.

Lemma single_objects cur m : names_sorted m → Forall (single cur) m → NoDup (map objectno (flat_map snd m)) ∧
  Forall (λ ex, ext_ok name_of l trunc_size (oid ex) ex) (flat_map snd m).
Proof.
  intros Hs%names_sorted_nodup Hm. assert (map name_of (map objectno (flat_map snd m)) = m.*1 ∧
    Forall (λ ex, ext_ok name_of l trunc_size (oid ex) ex) (flat_map snd m)) as [E Hok].
  { clear Hs. induction Hm as [|[k v] m (ex & Ev & Hex & _) Hm [IH1 IH2]]; [done|]. simpl in *. subst v. simpl. pose proof Hex as [[N1 N2] _ _ _ _ _ _].
    split; [by rewrite N2, IH1|]. constructor; [by rewrite N1|done]. }
  split; [|done]. rewrite <- E in Hs. by apply NoDup_fmap_1 in Hs.
Qed.

Lemma file_to_extents_spec start len bo : 0 <= start → 0 < len → 0 <= bo → start + len < 2 ^ 64 → bo + len < 2 ^ 64 →
  ∃ exts, file_to_extents name_of l start len trunc_size [] bo = Ok exts ∧
    Forall (λ ex, ext_ok name_of l trunc_size (oid ex) ex) exts ∧ NoDup (map objectno exts) ∧
    flat_map ext_pieces exts ≡ₚ pieces l (Z.to_nat (len / unit l) + 3) start len bo.
Proof.
  intros H0 Hlen Hbo Hov1 Hov2. destruct (file_to_extents_ok name_of Hinj l Hl trunc_size start len bo) as (m & E & _ & Hp); [done..|].
  exists (flat_map snd m). unfold file_to_extents. rewrite E. cbn [bind]. split; [done|]. rewrite flat_assimilate.
  destruct (unit_spec l Hl) as (Hu & _ & _). pose proof Hl as (H1 & H2 & H3 & H4 & H5). revert E. unfold file_to_extents_map.
  rewrite !assert_true by (apply Z.ltb_lt || apply Z.leb_le; lia). cbn [bind].
  change (if stripe_count l =? 1 then object_size l else stripe_unit l) with (unit l). unfold udiv.
  rewrite (proj2 (Z.eqb_neq (unit l) 0)) by lia. cbn [bind]. intros E.
  destruct (extents_loop_single start bo (Z.to_nat (len / unit l) + 3) [] start len m) as [Hs Hm]; [apply SSorted_nil|apply Forall_nil_2|lia..|done|].
  by destruct (single_objects _ m Hs Hm).
Qed.

Lemma enough_fuel start len : 0 <= start → 0 <= len → (0 < Z.to_nat (len / unit l) + 3)%nat ∧
  len + start mod unit l <= unit l * (Z.of_nat (Z.to_nat (len / unit l) + 3) - 1).
Proof.
  intros H0 Hlen. destruct (unit_spec l Hl) as (Hu & _ & _). split; [lia|]. assert (0 <= len / unit l) by (apply Z.div_pos; lia).
  pose proof (Z.mod_pos_bound start (unit l) Hu). pose proof (Z.mul_succ_div_gt len (unit l) Hu).
  replace (Z.of_nat (Z.to_nat (len / unit l) + 3) - 1) with (Z.succ (len / unit l) + 1) by lia. lia.
Qed.
End Single.

(** ** Theorems *)

(** [C25] Every byte of a range of a file that is mapped to extents of objects is at the
    place of the buffer that is its own, once, and comes from the place of the object that
    the layout gives it; there is one extent for each object, which ends within the object
    and has the truncation size of that object. *)
Theorem file_to_extents_correct name_of l start len trunc bo :
  (∀ a b, 0 <= a < 2 ^ 64 → 0 <= b < 2 ^ 64 → name_of a = name_of b → a = b) → laid_out l →
  0 <= start → 0 < len → 0 <= bo → start + len < 2 ^ 64 → bo + len < 2 ^ 64 →
  ∃ exts, file_to_extents name_of l start len trunc [] bo = Ok exts ∧
    Forall (λ ex, ext_ok name_of l trunc (oid ex) ex) exts ∧ NoDup (map objectno exts) ∧
    ∀ q, hits (flat_map ext_pieces exts) q = if (bo <=? q) && (q <? bo + len) then [locate l (start + (q - bo))] else [].
Proof.
  intros Hinj Hl H0 Hlen Hbo Hov1 Hov2.
  destruct (file_to_extents_spec name_of Hinj l Hl trunc start len bo) as (exts & E & Hok & Hd & Hp); [done..|].
  exists exts. split_and!; [done..|]. intros q. destruct (enough_fuel l Hl start len) as [Hf0 Hf]; [lia..|].
  pose proof (hits_perm _ _ q Hp) as Hq. rewrite (pieces_hits l Hl) in Hq by (done || lia).
  destruct (_ && _); [by apply Permutation_singleton_r in Hq|by apply Permutation_nil_r in Hq].
Qed.

Lemma add_partial_range bes : ∀ r bl, 0 <= total_intended_len r < 2 ^ 64 → 0 <= total_intended_len (add_partial_result r bl bes) < 2 ^ 64.
Proof. induction bes as [|[b n] bes IH]; intros r bl H; simpl; [done|]. apply IH. simpl. apply Z.mod_pos_bound. done. Qed.

Lemma reads_chain name_of l obj start len trunc bo exts exts' :
  (∀ a b, 0 <= a < 2 ^ 64 → 0 <= b < 2 ^ 64 → name_of a = name_of b → a = b) → laid_out l →
  0 <= start → 0 < len → 0 <= bo → start + len < 2 ^ 64 → bo + len < 2 ^ 64 →
  file_to_extents name_of l start len trunc [] bo = Ok exts → exts' ≡ₚ exts →
  ∃ es e, collect_reads obj exts' = mk_result (es ++ [e]) len ∧ chain bo (es ++ [e]) (bo + len) ∧
    flat_map filled (es ++ [e]) = file_bytes l obj start len.
Proof.
  intros Hinj Hl H0 Hlen Hbo Hov1 Hov2 E Hperm.
  destruct (file_to_extents_spec name_of Hinj l Hl trunc start len bo) as (exts0 & E0 & Hok & Hd & Hp); [done..|].
  assert (exts0 = exts) as -> by congruence. destruct (enough_fuel l Hl start len) as [Hf0 Hf]; [lia..|].
  destruct (pieces_chain l obj Hl _ start len bo Hf0 ltac:(lia) ltac:(lia) ltac:(done)) as (Hc & Hfl & Hsum).
  set (ps := pieces _ _ _ _ _) in *. assert (flat_map ext_pieces exts' ≡ₚ ps) as Hp' by (rewrite <- Hp; by apply Permutation_flat_map).
  destruct (chain_sorted _ _ _ Hc) as [Hsort _]. pose proof (keys_sorted_nodup _ Hsort) as Hnd.
  assert (NoDup (map (entry obj) (flat_map ext_pieces exts')).*1) as Hnd' by (eapply NoDup_Permutation_proper; [|exact Hnd]; by do 2 apply fmap_Permutation).
  destruct (collect_ok obj name_of l trunc exts' no_result) as [CP CT].
  { eapply Permutation_Forall; [by symmetry|done]. }
  { simpl. rewrite app_nil_r, <- (entry_keys obj). done. }
  rewrite (map_set_all_chain _ (map (entry obj) ps)) in CP; [|done|done|by apply fmap_Permutation].
  assert (0 <= total_intended_len (collect_reads obj exts') < 2 ^ 64) as Hr.
  { unfold collect_reads. clear. induction exts' as [|ex exts' IH] using rev_ind; [done|]. rewrite foldl_snoc. by apply add_partial_range. }
  change (foldl _ _ _) with (collect_reads obj exts') in CP, CT. simpl in CT. rewrite (pieces_len_perm _ _ Hp'), Hsum, !u64_small in CT by lia.
  destruct (map (entry obj) ps) as [|e es _] using rev_ind; [simpl in Hc; lia|]. exists es, e.
  split; [|done]. destruct (collect_reads obj exts'); simpl in *. by rewrite CP, CT.
Qed.

(** [C16] A striped read gives back the bytes of the file: whatever the order in which the
    objects answer, and where they are short or missing, the answers are put together to the
    bytes of the range with zeros for what no object has, into a list or into a buffer; without
    [zero_tail] only zeros at the end are left out. *)
Theorem striped_read_correct name_of l obj start len trunc bo exts exts' :
  (∀ a b, 0 <= a < 2 ^ 64 → 0 <= b < 2 ^ 64 → name_of a = name_of b → a = b) → laid_out l →
  0 <= start → 0 < len → 0 <= bo → start + len < 2 ^ 64 → bo + len < 2 ^ 64 →
  file_to_extents name_of l start len trunc [] bo = Ok exts → exts' ≡ₚ exts →
  assemble_result (collect_reads obj exts') true = Ok (file_bytes l obj start len, mk_result [] len) ∧
  assemble_to_buffer (collect_reads obj exts') len = Ok (file_bytes l obj start len, mk_result [] len) ∧
  ∃ r z, assemble_result (collect_reads obj exts') false = Ok (r, mk_result [] len) ∧
    file_bytes l obj start len = r ++ replicate z 0.
Proof.
  intros Hinj Hl H0 Hlen Hbo Hov1 Hov2 E Hperm.
  destruct (reads_chain name_of l obj start len trunc bo exts exts') as (es & [b [d n]] & -> & Hc & <-); [done..|].
  pose proof Hc as (_ & Hn & Hd & Hend)%chain_snoc. unfold assemble_result, assemble_to_buffer. cbn [partial total_intended_len].
  rewrite assert_true by apply Z.eqb_refl. cbn [bind]. rewrite reverse_snoc, <- Hend, (u64_small (bo + len)), <- reverse_snoc by lia.
  rewrite (assemble_chain true _ bo), (copy_chain _ bo) by (done || lia || by left). cbn [bind].
  rewrite !app_nil_r, assert_true by (apply Z.eqb_eq; lia). cbn [bind]. split; [done|]. split; [done|].
  destruct (assemble_chain_tail _ _ _ Hc) as (r & z & -> & Hz); [lia..|]. by exists r, z.
Qed.

(** [C26] An extent of an object is mapped to extents of the file whose bytes, in order, are the
    bytes of the extent, as long as the offsets of its object set fit in 64 bits. *)
Theorem extent_to_file_correct l o off len acc :
  laid_out l → 0 <= o → (o / stripe_count l + 1) * (stripe_count l * object_size l) <= 2 ^ 64 →
  0 <= off → 0 <= len → off + len <= object_size l →
  ∃ es, extent_to_file l o off len acc = Ok (acc ++ es) ∧
    map (locate l) (extent_bytes es) = map (pair o) (seqZ off len).
Proof.
  intros Hl Ho Hov Hoff Hlen Hend. pose proof Hl as (H1 & H2 & H3 & H4 & H5). unfold extent_to_file.
  rewrite assert_true by (apply Z.leb_le; lia). unfold udiv, umod. rewrite (proj2 (Z.eqb_neq (stripe_unit l) 0)) by lia. cbn [bind].
  apply to_file_ok; (done || lia || intros _). split; [done|]. assert (0 <= len / stripe_unit l) by (apply Z.div_pos; lia).
  pose proof (Z.mod_pos_bound off (stripe_unit l) ltac:(lia)). pose proof (Z.mul_succ_div_gt len (stripe_unit l) ltac:(lia)).
  replace (Z.of_nat (Z.to_nat (len / stripe_unit l) + 3) - 1) with (Z.succ (len / stripe_unit l) + 1) by lia. lia.
Qed.

(** The size of an object after its file is truncated: exactly the bytes of the object that
    lie before the new end of the file are kept. *)
Theorem object_truncate_size_correct l o t : laid_out l → 0 <= o < 2 ^ 64 → 0 <= t < 2 ^ 64 - 1 →
  ∃ k, object_truncate_size l o t = Ok k ∧ 0 <= k <= object_size l ∧
    ∀ i, 0 <= i < object_size l → i < k ↔ place l o i < t.
Proof. intros Hl Ho Ht. by apply truncate_ok. Qed.

(** The number of objects of a file is exact: an object is counted when its first byte is
    within the file. *)
Theorem get_num_objects_correct l size : laid_out l → 0 <= size → size + stripe_count l * object_size l < 2 ^ 64 →
  ∃ k, get_num_objects l size = Ok k ∧ ∀ o, 0 <= o → o < k ↔ place l o 0 < size.
Proof.
  intros Hl Hs Hov. destruct (num_objects_ok l Hl size 0) as (k & E & _); [done..|]. exists k. split; [done|].
  intros o Ho. destruct (num_objects_ok l Hl size o) as (k' & E' & H); [done..|]. by replace k with k' by congruence.
Qed.

(** A layout of two objects of two stripe units. *)
Definition layout2 : file_layout_t := mk_layout 65536 2 131072 0 [].
Lemma layout2_ok : laid_out layout2.
Proof. apply is_valid_laid_out; (reflexivity || simpl; lia). Qed.
Definition name1 (o : Z) : list Z := [o].

Lemma file_to_extents_correct_witness : ∃ exts,
  file_to_extents name1 layout2 65530 200000 0 [] 0 = Ok exts ∧ List.length exts = 3%nat.
Proof.
  destruct (file_to_extents_correct name1 layout2 65530 200000 0 0) as (exts & E & _);
    [by intros a b _ _ [= ->]|exact layout2_ok|lia..|].
  exists exts. split; [exact E|]. vm_compute in E. by injection E as <-.
Defined.
Lemma striped_read_correct_witness : ∃ exts, file_to_extents name1 layout2 65533 6 0 [] 0 = Ok exts ∧
  assemble_result (collect_reads (λ o, if o =? 1 then [1; 2; 3; 4] else []) (reverse exts)) true =
    Ok ([0; 0; 0; 1; 2; 3], mk_result [] 6).
Proof.
  eexists. split; [vm_compute; reflexivity|]. etransitivity.
  - eapply (striped_read_correct name1 layout2 (λ o, if o =? 1 then [1; 2; 3; 4] else []) 65533 6 0 0);
      [by intros a b _ _ [= ->]|exact layout2_ok|lia..|vm_compute; reflexivity|apply reverse_Permutation].
  - vm_compute. reflexivity.
Defined.
Lemma extent_to_file_correct_witness : ∃ es, extent_to_file layout2 1 65530 10 [] = Ok es ∧ List.length es = 2%nat.
Proof.
  destruct (extent_to_file_correct layout2 1 65530 10 []) as (es & E & _); [exact layout2_ok|lia|vm_compute; discriminate|lia|lia|simpl; lia|].
  exists es. split; [exact E|]. vm_compute in E. by injection E as <-.
Defined.
Lemma object_truncate_size_correct_witness : object_truncate_size layout2 1 200000 = Ok 68928.
Proof.
  destruct (object_truncate_size_correct layout2 1 200000) as (k & E & _); [exact layout2_ok|lia..|].
  rewrite E. vm_compute in E. by injection E as <-.
Defined.
Lemma get_num_objects_correct_witness : get_num_objects layout2 300000 = Ok 3.
Proof.
  destruct (get_num_objects_correct layout2 300000) as (k & E & _); [exact layout2_ok|simpl; lia..|].
  rewrite E. vm_compute in E. by injection E as <-.
Defined.
End Striper.
