(* ===== verification/StupidAllocator.v ===== *)
(** * The extent allocator of BlueStore (os/bluestore/StupidAllocator.cc)

    Free space is kept in ten sets of extents, by the logarithm of the length of the
    extent.  The sets are [btree_interval_set]s, which differ from [interval_set] in
    the container and in the order of the statements of [insert]; [Btree.insert_at] is
    that code, and the other operations are those of [IntervalSet].

    [bdev_block_size] and [bluestore_debug_small_allocations] are options of the
    configuration; what [rand()] returns is an argument. *)
From S2P Require Import Prelude StdMap IntervalSet.

(** ** [btree_interval_set<uint64_t>::insert] (include/btree_interval_set.h) *)
Module Btree.
Import IntervalSet.

Definition insert_at (s : t) (start len : Z) : res (t * (Z * Z)) :=
  assert (0 <? len);;;
  let sz := s64 (_size s + len) in
  let p := find_adj s start in
  match m s !! p with
  | None => Ok (mk sz (map_set start len (m s)), (start, len))
  | Some (f, l) =>
      if f <? start then
        assert (u64 (f + l) =? start);;;
        let l1 := u64 (l + len) in
        let m1 := map_set f l1 (m s) in
        match m1 !! S p with
        | Some (nf, nl) =>
            if u64 (start + len) =? nf then
              let l2 := u64 (l1 + nl) in
              Ok (mk sz (map_erase nf (map_set f l2 m1)), (f, l2))
            else Ok (mk sz m1, (f, l1))
        | None => Ok (mk sz m1, (f, l1))
        end
      else if u64 (start + len) =? f then
        Ok (mk sz (map_set start (u64 (len + l)) (map_erase f (m s))), (start, u64 (len + l)))
      else
        assert (u64 (start + len) <? f);;;
        Ok (mk sz (map_set start len (m s)), (start, len))
  end.

(** It is the insertion of [interval_set]. *)
Lemma insert_at_eq s start len : chain 0 (m s) → 0 < len < 2 ^ 63 → 0 <= start < 2 ^ 63 →
  insert_at s start len = IntervalSet.insert_at s start len.
Proof.
  intros Hc Hlen Hstart. destruct (find_adj_spec s start Hc) as (pre & suf & Em & Ei & Hpre & Hsuf).
  unfold insert_at, IntervalSet.insert_at. rewrite Ei, Em, lookup_pre_eq. destruct suf as [|[f n] suf]; cbn [head]; [done|].
  destruct (Z.ltb_spec f start); [done|]. rewrite u64_small by lia. destruct (Z.eqb_spec (start + len) f) as [<-|]; [|done].
  rewrite Em in Hc. pose proof Hc as [Hp (? & ? & ? & Hs)]%chain_app. assert (Hb : bound 0 pre <= start) by (apply bound_le; [lia|done]).
  assert (Hkb : ∀ k, bound 0 pre <= k → keys_below k pre).
  { intros k Hk. eapply chain_keys_below; [done|]. eapply Forall_impl; [by apply chain_ends | simpl; lia]. }
  assert (keys_above start suf) by (eapply chain_keys_above; [eauto|lia]).
  assert (keys_above start ((start + len, n) :: suf)) by (constructor; [simpl; lia|done]).
  assert (keys_below start pre) by (by apply Hkb). assert (keys_below (start + len) pre) by (apply Hkb; lia).
  rewrite (map_set_app _ _ pre ((start + len, n) :: suf)), (map_set_above _ _ ((start + len, n) :: suf)), !map_erase_app, map_erase_here, map_erase_snd, map_erase_here, map_set_app, map_set_above by (done || lia). done.
Qed.
End Btree.

Module StupidAllocator.
Import IntervalSet.

Definition ENOSPC : Z := 28.

(** ** Lists of extents (os/bluestore/bluestore_types.h) *)

Record AllocExtent : Type := mk_extent { offset : Z; length : Z }.

(** [ExtentList::add_extents] with the blocks of one byte of the allocators of extents. *)
Definition add_extents (m_max_blocks : Z) (exts : list AllocExtent) (start count : Z) : list AllocExtent :=
  match last exts with
  | Some e =>
      if (u64 (offset e + length e) =? u64 start) && ((m_max_blocks =? 0) || (length e + count <=? m_max_blocks)) then
        removelast exts ++ [mk_extent (offset e) (u32 (length e + count))]
      else exts ++ [mk_extent (u64 start) (u32 count)]
  | None => [mk_extent (u64 start) (u32 count)]
  end.

(** ** State *)

Record state : Type := mk_state { num_free : Z; num_reserved : Z; free : list t; last_alloc : Z }.

(** [StupidAllocator()]. *)
Definition init : state := mk_state 0 0 (replicate 10 new) 0.

(** [cbits] of a [uint64_t] (include/intarith.h). *)
Definition cbits (v : Z) : Z := if v =? 0 then 0 else 64 - (63 - Z.log2 v).

Definition P2ALIGN (x align : Z) : Z := Z.land x (u64 (- align)).

Section Conf.
Context (bdev_block_size bluestore_debug_small_allocations : Z).

Definition choose_bin (bins : list t) (orig_len : Z) : res Z :=
  if bdev_block_size =? 0 then Err DivByZero
  else Ok (Z.min (cbits (orig_len / bdev_block_size)) (Z.of_nat (List.length bins) - 1)).

(** The [while (true)] of [_insert_free]. *)
Fixpoint insert_free_loop (fuel : nat) (bins : list t) (bin off len : Z) : res (list t) :=
  match fuel with
  | O => Err OutOfFuel
  | S fuel =>
      s <- zget bins bin;;
      '(s, (off, len)) <- Btree.insert_at s off len;;
      newbin <- choose_bin bins len;;
      if newbin =? bin then zset bins bin s
      else
        s <- erase s off len;;
        bins <- zset bins bin s;;
        insert_free_loop fuel bins newbin off len
  end.

(** Each turn but the last goes up by a bin at least. *)
Definition insert_free (bins : list t) (off len : Z) : res (list t) :=
  bin <- choose_bin bins len;;
  insert_free_loop (S (List.length bins)) bins bin off len.

Definition reserve (st : state) (need : Z) : Z * state :=
  if num_free st - num_reserved st <? s64 need then (- ENOSPC, st)
  else (0, mk_state (num_free st) (s64 (num_reserved st + need)) (free st) (last_alloc st)).

Definition unreserve (st : state) (unused : Z) : res state :=
  assert (s64 unused <=? num_reserved st);;;
  Ok (mk_state (num_free st) (s64 (num_reserved st - unused)) (free st) (last_alloc st)).

Definition skew_of (start alloc_unit : Z) : res Z :=
  if alloc_unit =? 0 then Err DivByZero
  else Ok (if start mod alloc_unit =? 0 then 0 else alloc_unit - start mod alloc_unit).

Definition aligned_len (p : Z * Z) (alloc_unit : Z) : res Z :=
  skew <- skew_of p.1 alloc_unit;;
  Ok (if p.2 <? skew then 0 else p.2 - skew).

(** The inner loops of the search: the first extent with room for [room] bytes. *)
Fixpoint scan (l : list (Z * Z)) (alloc_unit room : Z) : res (option (Z * Z)) :=
  match l with
  | [] => Ok None
  | p :: l =>
      len <- aligned_len p alloc_unit;;
      if room <=? len then Ok (Some p) else scan l alloc_unit room
  end.

(** The outer loops over the bins, in the order [order]; [part] is what of a bin is
    searched. *)
Fixpoint search (bins : list t) (part : t → list (Z * Z)) (alloc_unit room : Z) (order : list Z) :
    res (option (Z * (Z * Z))) :=
  match order with
  | [] => Ok None
  | bin :: order =>
      s <- zget bins bin;;
      found <- scan (part s) alloc_unit room;;
      match found with
      | Some p => Ok (Some (bin, p))
      | None => search bins part alloc_unit room order
      end
  end.

Definition from_hint (hint : Z) (s : t) : list (Z * Z) := drop (find_inc s (u64 hint)) (m s).
Definition before_hint (hint : Z) (s : t) : list (Z * Z) :=
  if hint =? 0 then m s else take (find_inc s (u64 hint)) (m s).

(** The four searches of [allocate_int]. *)
Definition find_extent (bins : list t) (want_size alloc_unit hint : Z) : res (option (Z * (Z * Z))) :=
  orig_bin <- choose_bin bins (Z.max alloc_unit want_size);;
  let up := seqZ orig_bin (Z.of_nat (List.length bins) - orig_bin) in
  let down := reverse (seqZ 0 (orig_bin + 1)) in
  r <- (if hint =? 0 then Ok None else search bins (from_hint hint) alloc_unit want_size up);;
  match r with Some x => Ok (Some x) | None =>
  r <- search bins (before_hint hint) alloc_unit want_size up;;
  match r with Some x => Ok (Some x) | None =>
  r <- (if hint =? 0 then Ok None else search bins (from_hint hint) alloc_unit alloc_unit down);;
  match r with Some x => Ok (Some x) | None =>
  search bins (before_hint hint) alloc_unit alloc_unit down
  end end end.

(** An extent of the bin that has [x] moves to the bin of its length. *)
Definition demote (bins : list t) (bin x : Z) : res (list t) :=
  s <- zget bins bin;;
  c <- contains_at s x;;
  match c with
  | None => Ok bins
  | Some (off, len) =>
      newbin <- choose_bin bins len;;
      if newbin =? bin then Ok bins
      else
        s <- erase s off len;;
        bins <- zset bins bin s;;
        insert_free bins off len
  end.

(** What is taken of an extent that was found. *)
Definition take_length (want_size alloc_unit rnd : Z) (len : Z) : res Z :=
  let length := u32 (Z.min (Z.max alloc_unit want_size) (P2ALIGN len alloc_unit)) in
  if bluestore_debug_small_allocations =? 0 then Ok length
  else
    let max := u64 (alloc_unit * (rnd mod bluestore_debug_small_allocations)) in
    Ok (if negb (max =? 0) && (max <? length) then u32 max else length).

Definition allocate_int (st : state) (want_size alloc_unit hint rnd : Z) : res (option (Z * Z) * state) :=
  let hint := if hint =? 0 then s64 (last_alloc st) else hint in
  found <- find_extent (free st) want_size alloc_unit hint;;
  match found with
  | None => Ok (None, st)
  | Some (bin, (start, len)) =>
      skew <- skew_of start alloc_unit;;
      let offset := u64 (start + skew) in
      length <- take_length want_size alloc_unit rnd (u64 (len - skew));;
      s <- zget (free st) bin;;
      s <- erase s offset length;;
      bins <- zset (free st) bin s;;
      bins <- (if offset =? 0 then Ok bins else demote bins bin (u64 (offset - skew - 1)));;
      bins <- demote bins bin (u64 (offset + length));;
      let num_free := s64 (num_free st - length) in
      let num_reserved := s64 (num_reserved st - length) in
      assert (0 <=? num_free);;;
      assert (0 <=? num_reserved);;;
      Ok (Some (offset, length), mk_state num_free num_reserved bins (u64 (offset + length)))
  end.

(** The [while] of [allocate]; [rnd] has what [rand()] returns in each turn. *)
Fixpoint allocate_loop (fuel : nat) (st : state) (want_size alloc_unit max_alloc_size hint : Z) (rnd : nat → Z)
    (exts : list AllocExtent) (allocated_size : Z) : res (Z * list AllocExtent * state) :=
  match fuel with
  | O => Err OutOfFuel
  | S fuel =>
      if negb (allocated_size <? want_size) then Ok (allocated_size, exts, st) else
      '(r, st) <- allocate_int st (Z.min max_alloc_size (u64 (want_size - allocated_size))) alloc_unit hint (rnd fuel);;
      match r with
      | None => Ok (allocated_size, exts, st)
      | Some (offset, length) =>
          allocate_loop fuel st want_size alloc_unit max_alloc_size (s64 (offset + length)) rnd
            (add_extents (s64 max_alloc_size) exts offset length) (u64 (allocated_size + length))
      end
  end.

Definition allocate (fuel : nat) (st : state) (want_size alloc_unit max_alloc_size hint : Z) (rnd : nat → Z) :
    res (Z * list AllocExtent * state) :=
  let max_alloc_size := if max_alloc_size =? 0 then want_size else max_alloc_size in
  '(allocated_size, exts, st) <- allocate_loop fuel st want_size alloc_unit max_alloc_size hint rnd [] 0;;
  Ok (if allocated_size =? 0 then - ENOSPC else s64 allocated_size, exts, st).

Definition release (st : state) (off len : Z) : res state :=
  bins <- insert_free (free st) off len;;
  Ok (mk_state (s64 (num_free st + len)) (num_reserved st) bins (last_alloc st)).

Definition get_free (st : state) : Z := u64 (num_free st).

Definition init_add_free (st : state) (off len : Z) : res state :=
  bins <- insert_free (free st) off len;;
  Ok (mk_state (s64 (num_free st + len)) (num_reserved st) bins (last_alloc st)).

(** The loop of [init_rm_free] over the bins. *)
Fixpoint rm_loop (bins : list t) (rm : t) : res (list t * t) :=
  match bins with
  | [] => Ok ([], rm)
  | s :: rest =>
      if empty rm then Ok (s :: rest, rm) else
      overlap <- intersection_of rm s;;
      '(s, rm) <- (if empty overlap then Ok (s, rm)
                   else s <- subtract s overlap;; rm <- subtract rm overlap;; Ok (s, rm));;
      '(rest, rm) <- rm_loop rest rm;;
      Ok (s :: rest, rm)
  end.

Definition init_rm_free (st : state) (off len : Z) : res state :=
  '(rm, _) <- Btree.insert_at new off len;;
  '(bins, rm) <- rm_loop (free st) rm;;
  assert (empty rm);;;
  let num_free := s64 (num_free st - len) in
  assert (0 <=? num_free);;;
  Ok (mk_state num_free (num_reserved st) bins (last_alloc st)).
End Conf.

Lemma div_lt a b q : 0 < b → a / b < q → a < q * b.
Proof. intros Hb H. pose proof (Z.mul_succ_div_gt a b Hb). assert ((a / b + 1) * b <= q * b) by (apply Z.mul_le_mono_nonneg_r; lia). lia. Qed.

(** ** Intervals of a set *)

(** The intervals are the maximal runs. *)
Lemma interval_iff s f n : wf s → (f, n) ∈ m s ↔ 0 <= f ∧ 0 < n ∧ within f n s ∧ ((f - 1) ∉ s) ∧ ((f + n) ∉ s).
Proof.
  intros [Hc _]. split.
  - intros (pre & suf & E)%list_elem_of_split. unfold within, elem_of, elem_of_t. rewrite E in *.
    pose proof Hc as [Hp (? & ? & ? & Hs)]%chain_app. pose proof (bound_ge 0 pre Hp).
    assert (∀ x, covers pre x → x + 1 < f) as Hpre.
    { intros x (q & Hq & Hx)%Exists_exists. pose proof (chain_ends 0 pre Hp) as He. rewrite Forall_forall in He. specialize (He q Hq). lia. }
    pose proof (λ x, covers_above _ _ x Hs) as Hsuf.
    split_and!; [lia|lia|intros x Hx; apply covers_app, or_intror, covers_cons; by left|..];
      (intros [Hx%Hpre|[Hx|Hx%Hsuf]%covers_cons]%covers_app; lia).
  - intros (H0 & Hn & Hw & Hlo & Hhi). destruct (find_inc_spec s f Hc) as (pre & suf & Em & Ei & Hpre & Hsuf).
    apply (within_single s f n pre suf Hc Hn Em Hpre Hsuf) in Hw as (g & k & suf' & -> & Hg & Hk).
    assert (∀ x, g <= x < g + k → x ∈ s) as Hin by (intros x Hx; rewrite elem_of_eq, Em; apply covers_app, or_intror, covers_cons; by left).
    rewrite Em. apply elem_of_app. right. destruct (Z.eq_dec f g) as [->|]; [|by destruct Hlo; apply Hin; lia].
    destruct (Z.eq_dec n k) as [->|]; [left|]. destruct Hhi. apply Hin. lia.
Qed.

Lemma interval_max s f n : wf s → (f, n) ∈ m s → f + n < 2 ^ 63.
Proof. intros [Hc _] Hf. pose proof (chain_nonempty 0 _ Hc) as H. rewrite Forall_forall in H. by apply (H (f, n)). Qed.

(** Two intervals that meet are the same. *)
Lemma interval_same s f n g k x : wf s → (f, n) ∈ m s → (g, k) ∈ m s → f <= x < f + n → g <= x < g + k → f = g ∧ n = k.
Proof.
  intros Hwf (H1 & H2 & H3 & H4 & H5)%interval_iff (G1 & G2 & G3 & G4 & G5)%interval_iff Hx Hx'; [|done..].
  assert (f = g) as -> by (destruct (Z.lt_total f g) as [?|[?|?]]; [destruct G4; apply H3; lia|done|destruct H4; apply G3; lia]).
  split; [done|]. destruct (Z.lt_total n k) as [?|[?|?]]; [destruct H5; apply G3; lia|done|destruct G5; apply H3; lia].
Qed.

(** The intervals that an insertion does not touch. *)
Lemma intervals_insert s s' start len p : wf s → wf s' → 0 < len → (∀ x, x ∈ s' ↔ x ∈ s ∨ start <= x < start + len) →
  p ∈ m s' → p.1 <= start → start + len <= p.1 + p.2 → ∀ q, q ∈ m s' → q = p ∨ q ∈ m s.
Proof.
  intros Hwf Hwf' Hlen Hs' Hp Hp1 Hp2 [g k] Hq. destruct p as [f n]; simpl in *.
  destruct (decide ((g, k) = (f, n))) as [|Hne]; [by left|right].
  assert (∀ x, g <= x < g + k → x ∈ s) as Hin.
  { intros x Hx. apply interval_iff in Hq as Hq'; [|done]. destruct (proj1 (Hs' x)) as [|Hr]; [by apply Hq'|done|].
    destruct Hne. destruct (interval_same s' f n g k x); [done..|lia|lia|]. congruence. }
  apply interval_iff in Hq as (H1 & H2 & H3 & H4 & H5); [|done]. apply interval_iff; [done|].
  rewrite Hs' in H4, H5. unfold within. tauto.
Qed.

(** The intervals that are left when one is removed. *)
Lemma intervals_erase s s' p : wf s → wf s' → p ∈ m s → (∀ x, x ∈ s' ↔ x ∈ s ∧ ¬ (p.1 <= x < p.1 + p.2)) →
  ∀ q, q ∈ m s' → q ∈ m s ∧ q ≠ p.
Proof.
  intros Hwf Hwf' Hp Hs' [g k] (H1 & H2 & H3 & H4 & H5)%interval_iff; [|done]. destruct p as [f n]; simpl in *.
  apply interval_iff in Hp as (P1 & P2 & P3 & P4 & P5); [|done].
  assert (∀ x, g <= x < g + k → x ∈ s ∧ ¬ (f <= x < f + n)) as Hin by (intros x Hx; apply Hs', H3; lia).
  split; [|intros [= -> ->]; pose proof (Hin f); lia]. apply interval_iff; [done|].
  split_and!; [done|done|intros x Hx; by apply Hin|..].
  - intros C. apply H4, Hs'. split; [done|]. intros Hr. assert (g = f + n) as -> by (pose proof (Hin g); lia). destruct P5. apply Hin. lia.
  - intros C. apply H5, Hs'. split; [done|]. intros Hr. assert (g + k = f) as E by (pose proof (Hin (g + k - 1)); lia).
    destruct P4. rewrite <- E. apply Hin. lia.
Qed.

(** ** The bins *)

(** The bytes that are free. *)
Definition in_bins (bins : list t) (x : Z) : Prop := ∃ i s, bins !! i = Some s ∧ x ∈ s.
(** ... in another bin than [i]. *)
Definition others (bins : list t) (i : nat) (x : Z) : Prop := ∃ j s, j ≠ i ∧ bins !! j = Some s ∧ x ∈ s.
Definition size_sum (bins : list t) : Z := foldr (λ s n, size s + n) 0 bins.

(** Each byte is in one bin at most. *)
Record bins_ok (bins : list t) : Prop := {
  bins_wf : Forall wf bins;
  bins_disjoint : ∀ i s x, bins !! i = Some s → x ∈ s → ¬ others bins i x
}.

Lemma in_bins_split bins i s x : bins !! i = Some s → in_bins bins x ↔ x ∈ s ∨ others bins i x.
Proof.
  intros Hi. split.
  - intros (j & s' & Hj & Hx). destruct (decide (j = i)) as [->|]; [left; congruence|right]. by exists j, s'.
  - intros [Hx|(j & s' & _ & Hj & Hx)]; [by exists i, s|by exists j, s'].
Qed.

Lemma in_bins_cons s bins x : in_bins (s :: bins) x ↔ x ∈ s ∨ in_bins bins x.
Proof.
  split.
  - intros ([|i] & b & Hi & Hx); [injection Hi as <-; by left|right; by exists i, b].
  - intros [Hx|(i & b & Hi & Hx)]; [by exists 0%nat, s|by exists (S i), b].
Qed.

Lemma others_insert bins i s x : others (<[i := s]> bins) i x ↔ others bins i x.
Proof. unfold others. split; intros (j & s' & Hj & H & Hx); exists j, s'; rewrite list_lookup_insert_ne in * by done; done. Qed.

Lemma in_bins_insert bins i s s' x : bins !! i = Some s → in_bins (<[i := s']> bins) x ↔ x ∈ s' ∨ others bins i x.
Proof.
  intros Hi. rewrite (in_bins_split _ i s'), others_insert; [done|]. apply list_lookup_insert_eq. by eapply lookup_lt_Some.
Qed.

Lemma size_sum_insert bins i s s' : bins !! i = Some s → size_sum (<[i := s']> bins) = size_sum bins + size s' - size s.
Proof.
  revert i. induction bins as [|b bins IH]; intros [|i] H; simpl in *; [done..| |].
  - injection H as ->. lia.
  - rewrite (IH _ H). lia.
Qed.

Lemma size_sum_nonneg bins : bins_ok bins → 0 <= size_sum bins.
Proof.
  intros [H _]. induction H as [|s bins [Hc Hs] H IH]; simpl; [lia|]. pose proof (total_small _ Hc). unfold size. lia.
Qed.

Lemma bins_wf_at bins i s : bins_ok bins → bins !! i = Some s → wf s.
Proof. intros [H _] Hi. rewrite Forall_lookup in H. by apply (H i). Qed.

Lemma bins_ok_insert bins i s s' : bins_ok bins → bins !! i = Some s → wf s' → (∀ x, x ∈ s' → ¬ others bins i x) → bins_ok (<[i := s']> bins).
Proof.
  intros [Hw Hd] Hi Hs' Hx. split; [by apply Forall_insert|]. intros j b x Hj Hb (k & c & Hk & Hkc & Hc).
  apply list_lookup_insert_Some in Hj as [(-> & -> & _)|(Hne & Hj)]; apply list_lookup_insert_Some in Hkc as [(-> & -> & _)|(Hne' & Hkc)].
  - done.
  - apply (Hx x Hb). by exists k, c.
  - apply (Hx x Hc). by exists j, b.
  - apply (Hd j b x Hj Hb). by exists k, c.
Qed.

(** ** Sets of whole allocation units *)

Definition unit_set (au : Z) (s : t) : Prop := ∀ x y, x / au = y / au → x ∈ s → y ∈ s.
Definition unit_bins (au : Z) (bins : list t) : Prop := ∀ i s, bins !! i = Some s → unit_set au s.

Lemma unit_lt au k x : 0 < au → (au | k) → k <= x ↔ k / au <= x / au.
Proof.
  intros Ha [q ->]. rewrite Z.div_mul by lia. split; intros H; [apply Z.div_le_lower_bound; lia|].
  pose proof (Z.mul_div_le x au Ha). assert (q * au <= x / au * au) by (apply Z.mul_le_mono_nonneg_r; lia). lia.
Qed.

Lemma unit_range au off len x y : 0 < au → (au | off) → (au | len) → x / au = y / au → off <= x < off + len → off <= y < off + len.
Proof.
  intros Ha Ho Hl E. rewrite !Z.lt_nge, !(unit_lt au off), !(unit_lt au (off + len)), E by (done || by apply Z.divide_add_r). done.
Qed.

Lemma unit_set_insert au s s' off len : 0 < au → unit_set au s → (au | off) → (au | len) →
  (∀ x, x ∈ s' ↔ x ∈ s ∨ off <= x < off + len) → unit_set au s'.
Proof. intros Ha Hs Ho Hl H x y E. rewrite !H. intros [Hx|Hx]; [left; by eapply Hs|right; by eapply unit_range]. Qed.
Lemma unit_set_erase au s s' off len : 0 < au → unit_set au s → (au | off) → (au | len) →
  (∀ x, x ∈ s' ↔ x ∈ s ∧ ¬ (off <= x < off + len)) → unit_set au s'.
Proof. intros Ha Hs Ho Hl H x y E. rewrite !H. intros [Hx Hn]. split; [by eapply Hs|]. contradict Hn. by eapply unit_range. Qed.

Lemma unit_interval au s f n : 0 < au → wf s → unit_set au s → (f, n) ∈ m s → (au | f) ∧ (au | n).
Proof.
  intros Ha Hwf Hu (H0 & Hn & Hw & Hlo & Hhi)%interval_iff; [|done].
  assert (∀ x, x mod au ≠ 0 → (x - 1) / au = x / au) as Hprev.
  { intros x Hx. pose proof (Z.mod_pos_bound x au Ha). pose proof (Z.div_mod x au ltac:(lia)).
    symmetry. apply (Z.div_unique _ _ _ (x mod au - 1)); lia. }
  assert (au | f) as Hf.
  { apply Z.mod_divide; [lia|]. destruct (Z.eq_dec (f mod au) 0) as [|E]; [done|]. destruct Hlo.
    apply (Hu f); [symmetry; by apply Hprev|apply Hw; lia]. }
  assert (au | f + n) as Hfn.
  { apply Z.mod_divide; [lia|]. destruct (Z.eq_dec ((f + n) mod au) 0) as [|E]; [done|]. destruct Hhi.
    apply (Hu (f + n - 1)); [by apply Hprev|apply Hw; lia]. }
  split; [done|]. replace n with (f + n - f) by lia. by apply Z.divide_sub_r.
Qed.

Lemma unit_bins_insert au bins i s' : unit_bins au bins → unit_set au s' → unit_bins au (<[i := s']> bins).
Proof. intros Hb Hs j b [(-> & -> & _)|(_ & Hj)]%list_lookup_insert_Some; [done|by eapply Hb]. Qed.

Section Bins.
Context (bs : Z) (Hbs : 0 < bs).

Lemma cbits_mono a b : 0 <= a <= b → 0 <= cbits a <= cbits b.
Proof.
  intros H. unfold cbits. pose proof (Z.log2_le_mono a b). pose proof (Z.log2_nonneg a). pose proof (Z.log2_nonneg b).
  destruct (Z.eqb_spec a 0), (Z.eqb_spec b 0); lia.
Qed.

Lemma choose_bin_ok bins len : (0 < List.length bins)%nat → 0 <= len →
  ∃ b, choose_bin bs bins len = Ok b ∧ 0 <= b < Z.of_nat (List.length bins).
Proof.
  intros Hb Hl. unfold choose_bin. rewrite (proj2 (Z.eqb_neq _ _)) by lia. eexists. split; [done|].
  assert (0 <= len / bs) by (apply Z.div_pos; lia). pose proof (cbits_mono (len / bs) (len / bs)). lia.
Qed.

Lemma choose_bin_mono bins len len' b b' : 0 <= len <= len' → choose_bin bs bins len = Ok b → choose_bin bs bins len' = Ok b' → b <= b'.
Proof.
  intros Hl. unfold choose_bin. rewrite (proj2 (Z.eqb_neq _ _)) by lia. intros [= <-] [= <-].
  pose proof (Z.div_le_mono len len' bs). assert (0 <= len / bs) by (apply Z.div_pos; lia).
  pose proof (cbits_mono (len / bs) (len' / bs)). lia.
Qed.

Lemma choose_bin_length bins bins' len : List.length bins = List.length bins' → choose_bin bs bins len = choose_bin bs bins' len.
Proof. intros E. unfold choose_bin. by rewrite E. Qed.

(** Every extent is in the bin of its length. *)
Definition binned (bins : list t) : Prop :=
  ∀ i s f n, bins !! i = Some s → (f, n) ∈ m s → choose_bin bs bins n = Ok (Z.of_nat i).

Lemma binned_insert bins i s s' : binned bins → bins !! i = Some s →
  (∀ f n, (f, n) ∈ m s' → choose_bin bs bins n = Ok (Z.of_nat i)) → binned (<[i := s']> bins).
Proof.
  intros Hb Hi Hs' j b f n Hj Hf. rewrite (choose_bin_length _ bins) by apply length_insert.
  apply list_lookup_insert_Some in Hj as [(-> & -> & _)|(Hne & Hj)]; [by apply (Hs' f)|by eapply Hb].
Qed.

(** What [_insert_free] does to the bins. *)
Definition inserted (bins : list t) (off len : Z) (bins' : list t) : Prop :=
  bins_ok bins' ∧ List.length bins' = List.length bins ∧ size_sum bins' = size_sum bins + len ∧
  (∀ x, in_bins bins' x ↔ in_bins bins x ∨ off <= x < off + len) ∧ (binned bins → binned bins') ∧
  (∀ au, 0 < au → unit_bins au bins → (au | off) → (au | len) → unit_bins au bins').

Lemma insert_free_loop_ok fuel : ∀ bins bin off len,
  bins_ok bins → 0 <= off → 0 < len → off + len < 2 ^ 63 → (∀ x, off <= x < off + len → ¬ in_bins bins x) →
  choose_bin bs bins len = Ok bin → 0 <= bin < Z.of_nat (List.length bins) → Z.of_nat (List.length bins) - bin < Z.of_nat fuel →
  ∃ bins', insert_free_loop bs fuel bins bin off len = Ok bins' ∧ inserted bins off len bins'.
Proof.
  induction fuel as [|fuel IH]; intros bins bin off len Hok H0 Hlen Hmax Hdis Hbin Hrange Hfuel; [lia|].
  cbn [insert_free_loop]. destruct (zget_in bins bin Hrange) as (s & Es & _). rewrite Es. cbn [bind]. apply zget_ok in Es as [_ Es].
  pose proof (bins_wf_at _ _ _ Hok Es) as Hwf. rewrite Btree.insert_at_eq by (lia || apply Hwf).
  assert (disjoint_from off len s) as Hds by (intros x Hx Hxs; apply (Hdis x Hx); by exists (Z.to_nat bin), s).
  destruct (insert_at_ok s off len) as (s1 & [off1 len1] & -> & Hwf1 & Hsz1 & Hin1 & Hp & Hp1 & Hp2); [done..|]. cbn [bind fst snd] in *.
  pose proof (intervals_insert s s1 off len (off1, len1) Hwf Hwf1 Hlen Hin1 Hp Hp1 Hp2) as Hint.
  apply interval_iff in Hp as Hmax1; [|done]. destruct Hmax1 as (M0 & M1 & M2 & M3 & M4).
  assert (∀ x, x ∈ s1 → ¬ others bins (Z.to_nat bin) x) as Hno.
  { intros x [Hx|Hx]%Hin1; [by eapply bins_disjoint|]. intros Ho. apply (Hdis x Hx). by apply (in_bins_split _ (Z.to_nat bin) s); [|right]. }
  destruct (choose_bin_ok bins len1) as (newbin & Enew & Hnew); [lia|lia|]. rewrite Enew. cbn [bind].
  assert (bin <= newbin) by (eapply (choose_bin_mono bins len len1); [lia|done|done]).
  destruct (Z.eqb_spec newbin bin) as [->|Hne].
  - rewrite zset_ok by done. eexists. split; [done|]. split_and!.
    + by eapply bins_ok_insert.
    + apply length_insert.
    + rewrite (size_sum_insert _ _ s) by done. lia.
    + intros x. rewrite (in_bins_insert _ _ s), (in_bins_split bins (Z.to_nat bin) s), Hin1 by done. tauto.
    + intros Hb. eapply binned_insert; [done|done|]. intros f n [[= -> ->]|Hf]%Hint; [|by eapply Hb]. rewrite Enew. f_equal. lia.
    + intros au Ha Hu Ho Hl. apply unit_bins_insert; [done|]. by apply (unit_set_insert au s _ off len); [|eapply Hu| | |].
  - assert (within off1 len1 s1) as Hw by done. destruct (erase_ok s1 off1 len1) as (s2 & -> & Hwf2 & Hsz2 & Hin2); [done..|]. cbn [bind].
    rewrite zset_ok by done. cbn [bind]. set (bins2 := <[Z.to_nat bin := s2]> bins).
    assert (List.length bins2 = List.length bins) as Elen by apply length_insert.
    assert (∀ x, in_bins bins2 x ↔ x ∈ s2 ∨ others bins (Z.to_nat bin) x) as Hb2 by (intros x; by apply (in_bins_insert _ _ s)).
    destruct (IH bins2 newbin off1 len1) as (bins' & E & Hok' & Hl' & Hs' & Hi' & Hb' & Hu').
    + eapply bins_ok_insert; [done|done|done|]. intros x [Hx _]%Hin2. by apply Hno.
    + lia.
    + lia.
    + by apply (interval_max s1).
    + intros x Hx. rewrite Hb2, Hin2. intros [[_ ?]|Ho]; [done|]. apply (Hno x); [by apply M2|done].
    + by rewrite (choose_bin_length _ bins).
    + by rewrite Elen.
    + rewrite Elen. lia.
    + exists bins'. split; [done|]. split_and!; [done|by rewrite Hl'| | | |].
      * rewrite Hs'. unfold bins2. rewrite (size_sum_insert _ _ s) by done. lia.
      * intros x. rewrite Hi', Hb2, Hin2, Hin1, (in_bins_split bins (Z.to_nat bin) s) by done.
        pose proof (M2 x) as Hx. rewrite Hin1 in Hx. destruct (decide (off1 <= x < off1 + len1)); [tauto|].
        assert (¬ (off <= x < off + len)) by lia. tauto.
      * intros Hb. apply Hb'. eapply binned_insert; [done|done|]. intros f n Hf.
        destruct (intervals_erase s1 s2 (off1, len1) Hwf1 Hwf2 Hp Hin2 (f, n) Hf) as [[Heq|Hf1]%Hint Hnp]; [congruence|by eapply Hb].
      * intros au Ha Hu Ho Hl. assert (unit_set au s1) as Hu1 by (by apply (unit_set_insert au s _ off len); [|eapply Hu| | |]).
        destruct (unit_interval au s1 off1 len1) as [Ho1 Hl1]; [done..|]. apply Hu'; [done| |done|done].
        apply unit_bins_insert; [done|]. by apply (unit_set_erase au s1 _ off1 len1).
Qed.

Lemma insert_free_ok bins off len :
  bins_ok bins → (0 < List.length bins)%nat → 0 <= off → 0 < len → off + len < 2 ^ 63 → (∀ x, off <= x < off + len → ¬ in_bins bins x) →
  ∃ bins', insert_free bs bins off len = Ok bins' ∧ inserted bins off len bins'.
Proof.
  intros Hok Hb H0 Hlen Hmax Hdis. unfold insert_free. destruct (choose_bin_ok bins len) as (b & E & Hb'); [done|lia|].
  rewrite E. cbn [bind]. apply insert_free_loop_ok; (done || lia).
Qed.

(** ** The search *)

Definition pad (start au : Z) : Z := if start mod au =? 0 then 0 else au - start mod au.
Definition room (au : Z) (p : Z * Z) : Z := if p.2 <? pad p.1 au then 0 else p.2 - pad p.1 au.

Lemma pad_spec start au : 0 < au → 0 <= pad start au < au ∧ (start + pad start au) mod au = 0.
Proof.
  intros Ha. unfold pad. pose proof (Z.mod_pos_bound start au Ha). pose proof (Z.div_mod start au ltac:(lia)).
  destruct (Z.eqb_spec (start mod au) 0) as [E|E]; [by rewrite Z.add_0_r; lia|]. split; [lia|].
  symmetry. apply (Z.mod_unique _ _ (start / au + 1)); lia.
Qed.
Lemma skew_of_ok start au : 0 < au → skew_of start au = Ok (pad start au).
Proof. intros Ha. unfold skew_of. by rewrite (proj2 (Z.eqb_neq au 0)) by lia. Qed.

Lemma scan_spec au r l : 0 < au → ∃ o, scan l au r = Ok o ∧
  match o with Some p => p ∈ l ∧ r <= room au p | None => Forall (λ p, room au p < r) l end.
Proof.
  intros Ha. induction l as [|p l (o & E & IH)]; [by exists None|]. cbn [scan]. unfold aligned_len. rewrite skew_of_ok by done. cbn [bind].
  fold (room au p). destruct (Z.leb_spec r (room au p)).
  - exists (Some p). split; [done|]. split; [left|done].
  - exists o. split; [done|]. destruct o as [q|]; [destruct IH; by split; [right|]|by constructor].
Qed.

Lemma search_spec bins part au r order : 0 < au → Forall (λ b, 0 <= b < Z.of_nat (List.length bins)) order →
  ∃ o, search bins part au r order = Ok o ∧
  match o with
  | Some (b, p) => ∃ s, 0 <= b ∧ bins !! Z.to_nat b = Some s ∧ p ∈ part s ∧ r <= room au p
  | None => ∀ b s, b ∈ order → bins !! Z.to_nat b = Some s → Forall (λ p, room au p < r) (part s)
  end.
Proof.
  intros Ha. induction 1 as [|b order Hb Ho (o & E & IH)]; [exists None; split; [done|]; intros b s []%not_elem_of_nil|].
  cbn [search]. destruct (zget_in bins b Hb) as (s & Es & _). rewrite Es. cbn [bind]. apply zget_ok in Es as [_ Es].
  destruct (scan_spec au r (part s) Ha) as ([p|] & -> & Hp); cbn [bind].
  - exists (Some (b, p)). split; [done|]. destruct Hp. exists s. by split_and!; [lia|..].
  - exists o. split; [done|]. destruct o as [[b' p]|]; [done|]. intros b' s' [->|Hb']%elem_of_cons Hs'; [congruence|by apply (IH b')].
Qed.

Lemma from_hint_sub hint s p : p ∈ from_hint hint s → p ∈ m s.
Proof. unfold from_hint. rewrite <- (take_drop (find_inc s (u64 hint)) (m s)) at 2. rewrite elem_of_app. by right. Qed.
Lemma before_hint_sub hint s p : p ∈ before_hint hint s → p ∈ m s.
Proof.
  unfold before_hint. destruct (hint =? 0); [done|]. rewrite <- (take_drop (find_inc s (u64 hint)) (m s)) at 2. rewrite elem_of_app. by left.
Qed.
Lemma hint_split hint s p : p ∈ m s → p ∈ before_hint hint s ∨ hint ≠ 0 ∧ p ∈ from_hint hint s.
Proof.
  unfold before_hint, from_hint. destruct (Z.eqb_spec hint 0); [by left|].
  rewrite <- (take_drop (find_inc s (u64 hint)) (m s)) at 1. rewrite elem_of_app. tauto.
Qed.

(** What the searches find, and what there is when they find nothing. *)
Lemma find_extent_spec bins want au hint : 0 < au → (0 < List.length bins)%nat → ∃ o, find_extent bs bins want au hint = Ok o ∧
  match o with
  | Some (b, p) => ∃ s, 0 <= b ∧ bins !! Z.to_nat b = Some s ∧ p ∈ m s ∧ Z.min want au <= room au p
  | None => ∃ ob, choose_bin bs bins (Z.max au want) = Ok ob ∧ ∀ i s p, bins !! i = Some s → p ∈ m s →
      (ob <= Z.of_nat i → room au p < want) ∧ (Z.of_nat i <= ob → room au p < au)
  end.
Proof.
  intros Ha Hb. unfold find_extent. destruct (choose_bin_ok bins (Z.max au want)) as (ob & -> & Hob); [done|lia|]. cbn [bind].
  set (up := seqZ _ _). set (down := reverse _).
  assert (Forall (λ b, 0 <= b < Z.of_nat (List.length bins)) up) as Hup by (apply Forall_forall; intros b Hin%elem_of_seqZ; lia).
  assert (Forall (λ b, 0 <= b < Z.of_nat (List.length bins)) down) as Hdn by (apply Forall_reverse, Forall_forall; intros b Hin%elem_of_seqZ; lia).
  assert (∀ r order, Forall (λ b, 0 <= b < Z.of_nat (List.length bins)) order →
    ∃ o, (if hint =? 0 then Ok None else search bins (from_hint hint) au r order) = Ok o ∧
    match o with
    | Some (b, p) => ∃ s, 0 <= b ∧ bins !! Z.to_nat b = Some s ∧ p ∈ from_hint hint s ∧ r <= room au p
    | None => hint = 0 ∨ ∀ b s, b ∈ order → bins !! Z.to_nat b = Some s → Forall (λ p, room au p < r) (from_hint hint s)
    end) as Hfrom.
  { intros r order Hord. destruct (Z.eqb_spec hint 0) as [|]; [exists None; auto|].
    destruct (search_spec bins (from_hint hint) au r order Ha Hord) as ([[b p]|] & E & H); eexists; (split; [exact E|]); [exact H|by right]. }
  destruct (Hfrom want up Hup) as ([[b p]|] & -> & H1); cbn [bind].
  { exists (Some (b, p)). split; [done|]. destruct H1 as (s & ? & ? & ?%from_hint_sub & ?). exists s. split_and!; (done || lia). }
  destruct (search_spec bins (before_hint hint) au want up Ha Hup) as ([[b p]|] & -> & H2); cbn [bind].
  { exists (Some (b, p)). split; [done|]. destruct H2 as (s & ? & ? & ?%before_hint_sub & ?). exists s. split_and!; (done || lia). }
  destruct (Hfrom au down Hdn) as ([[b p]|] & -> & H3); cbn [bind].
  { exists (Some (b, p)). split; [done|]. destruct H3 as (s & ? & ? & ?%from_hint_sub & ?). exists s. split_and!; (done || lia). }
  destruct (search_spec bins (before_hint hint) au au down Ha Hdn) as ([[b p]|] & -> & H4).
  { exists (Some (b, p)). split; [done|]. destruct H4 as (s & ? & ? & ?%before_hint_sub & ?). exists s. split_and!; (done || lia). }
  exists None. split; [done|]. exists ob. split; [done|]. intros i s p Hi Hp. pose proof (lookup_lt_Some _ _ _ Hi).
  assert (Hi' : bins !! Z.to_nat (Z.of_nat i) = Some s) by (by rewrite Nat2Z.id).
  assert (∀ r (order : list Z), Z.of_nat i ∈ order → (hint = 0 ∨ ∀ b s, b ∈ order → bins !! Z.to_nat b = Some s → Forall (λ p, room au p < r) (from_hint hint s)) →
    (∀ b s, b ∈ order → bins !! Z.to_nat b = Some s → Forall (λ p, room au p < r) (before_hint hint s)) → room au p < r) as Hall.
  { intros r order Hin Hf Hbf. specialize (Hbf _ _ Hin Hi'). rewrite Forall_forall in Hbf.
    destruct (hint_split hint s p Hp) as [?|[Hne Hpf]]; [by apply Hbf|]. destruct Hf as [|Hf]; [done|]. specialize (Hf _ _ Hin Hi').
    rewrite Forall_forall in Hf. by apply Hf. }
  split; intros Hle; [apply (Hall want up)|apply (Hall au down)]; try done; [apply elem_of_seqZ; lia|apply elem_of_reverse, elem_of_seqZ; lia].
Qed.

(** ** Allocation *)

(** Bins with the same free bytes. *)
Definition same_free (bins bins' : list t) : Prop :=
  bins_ok bins' ∧ List.length bins' = List.length bins ∧ size_sum bins' = size_sum bins ∧
  (∀ x, in_bins bins' x ↔ in_bins bins x) ∧ (∀ au, 0 < au → unit_bins au bins → unit_bins au bins').

(** Every extent but the one of [bin] that has [x] is in the bin of its length. *)
Definition binned_but (bins : list t) (bin x : Z) : Prop :=
  ∀ i s f n, bins !! i = Some s → (f, n) ∈ m s → choose_bin bs bins n = Ok (Z.of_nat i) ∨ Z.of_nat i = bin ∧ f <= x < f + n.

Lemma demote_ok bins bin x s : bins_ok bins → 0 <= bin → bins !! Z.to_nat bin = Some s → 0 <= x →
  ∃ bins', demote bs bins bin x = Ok bins' ∧ same_free bins bins' ∧ (binned_but bins bin x → binned bins').
Proof.
  intros Hok Hbin Hs Hx. pose proof (bins_wf_at _ _ _ Hok Hs) as Hwf. pose proof (lookup_lt_Some _ _ _ Hs) as Hlt.
  unfold demote. rewrite (proj2 (zget_ok bins bin s)) by done. cbn [bind].
  destruct (contains_at_ok s x Hwf Hx) as ([[f n]|] & -> & Hc); cbn [bind].
  2: { exists bins. split; [done|]. split; [by split_and!|]. intros Hb i b g k Hi Hg. destruct (Hb i b g k Hi Hg) as [|[Ei Hr]]; [done|].
       assert (b = s) as -> by (rewrite <- Ei, Nat2Z.id in Hs; congruence). destruct Hc. apply interval_iff in Hg as (_ & _ & Hw & _); [|done]. by apply Hw. }
  destruct Hc as [Hf Hfx]. apply interval_iff in Hf as Hf'; [|done]. destruct Hf' as (M0 & M1 & M2 & _ & _).
  destruct (choose_bin_ok bins n) as (nb & Enb & Hnb); [lia|lia|]. rewrite Enb. cbn [bind]. destruct (Z.eqb_spec nb bin) as [->|Hne].
  { exists bins. split; [done|]. split; [by split_and!|]. intros Hb i b g k Hi Hg. destruct (Hb i b g k Hi Hg) as [|[Ei Hr]]; [done|].
    assert (b = s) as -> by (rewrite <- Ei, Nat2Z.id in Hs; congruence). destruct (interval_same s f n g k x) as [-> ->]; [done..|]. by rewrite Ei. }
  destruct (erase_ok s f n) as (s2 & -> & Hwf2 & Hsz2 & Hin2); [done..|]. cbn [bind]. rewrite zset_ok by lia. cbn [bind].
  set (bins2 := <[Z.to_nat bin := s2]> bins). assert (List.length bins2 = List.length bins) as Elen by apply length_insert.
  assert (∀ y, in_bins bins2 y ↔ y ∈ s2 ∨ others bins (Z.to_nat bin) y) as Hb2 by (intros y; by apply (in_bins_insert _ _ s)).
  destruct (insert_free_ok bins2 f n) as (bins' & E & Hok' & Hl' & Hs' & Hi' & Hb' & Hu').
  - eapply bins_ok_insert; [done..|]. intros y [Hy _]%Hin2. by eapply bins_disjoint.
  - lia.
  - done.
  - done.
  - by apply (interval_max s).
  - intros y Hy. rewrite Hb2, Hin2. intros [[_ ?]|Ho]; [done|]. eapply (bins_disjoint _ Hok); [exact Hs|by apply M2|done].
  - exists bins'. split; [done|]. split; [split_and!|].
    + done.
    + congruence.
    + rewrite Hs'. unfold bins2. rewrite (size_sum_insert _ _ s) by done. lia.
    + intros y. rewrite Hi', Hb2, Hin2, (in_bins_split bins (Z.to_nat bin) s) by done. pose proof (M2 y).
      destruct (decide (f <= y < f + n)); tauto.
    + intros au Ha Hu. destruct (unit_interval au s f n) as [? ?]; [done|done|by eapply Hu|done|].
      apply Hu'; [done| |done|done]. apply unit_bins_insert; [done|]. by apply (unit_set_erase au s _ f n); [|eapply Hu| | |].
    + intros Hb. apply Hb'. intros i b g k Hi Hg. rewrite (choose_bin_length _ bins) by done.
      apply list_lookup_insert_Some in Hi as [(Ei & Eb & _)|(Hne' & Hi)].
      * subst i b. destruct (intervals_erase s s2 (f, n) Hwf Hwf2 Hf Hin2 (g, k) Hg) as [Hg1 Hgne]. destruct (Hb _ s g k Hs Hg1) as [|[_ Hr]]; [done|].
        destruct Hgne. destruct (interval_same s f n g k x) as [-> ->]; done.
      * destruct (Hb i b g k Hi Hg) as [|[Ei _]]; [done|]. lia.
Qed.

Lemma demote_none bins bin x s : wf s → 0 <= bin → bins !! Z.to_nat bin = Some s → 0 <= x → x ∉ s → demote bs bins bin x = Ok bins.
Proof.
  intros Hwf Hbin Hs Hx Hn. unfold demote. rewrite (proj2 (zget_ok bins bin s)) by done. cbn [bind].
  destruct (contains_at_ok s x Hwf Hx) as ([[f n]|] & -> & Hc); [|done]. destruct Hn, Hc as [(_ & _ & Hw & _)%interval_iff Hr]; [|done]. by apply Hw.
Qed.

Lemma P2ALIGN_ok x a : 0 <= a < 64 → 0 <= x < 2 ^ 64 → P2ALIGN x (2 ^ a) = x / 2 ^ a * 2 ^ a.
Proof. apply land_align. Qed.

(** What is taken is at least a unit, at most what is wanted and at most what is there. *)
Lemma take_length_ok small want a rnd len : 0 <= small → 0 <= rnd → 0 <= a < 32 → 2 ^ a <= want < 2 ^ 32 → 2 ^ a <= len < 2 ^ 63 →
  (small < 2 ^ 31) → ∃ k, take_length small want (2 ^ a) rnd len = Ok k ∧ 2 ^ a <= k <= want ∧ k <= len ∧ ((2 ^ a | want) → (2 ^ a | k)).
Proof.
  intros Hsm Hrnd Ha Hw Hlen Hsm2. unfold take_length. rewrite P2ALIGN_ok, Z.max_r by lia. assert (0 < 2 ^ a) as Hp by (apply Z.pow_pos_nonneg; lia).
  pose proof (Z.mul_div_le len (2 ^ a) Hp). assert (2 ^ a <= len / 2 ^ a * 2 ^ a).
  { assert (1 <= len / 2 ^ a) by (apply Z.div_le_lower_bound; lia). assert (1 * 2 ^ a <= len / 2 ^ a * 2 ^ a) by (apply Z.mul_le_mono_nonneg_r; lia). lia. }
  rewrite u32_small by lia. set (k := Z.min want (len / 2 ^ a * 2 ^ a)).
  assert ((2 ^ a | want) → (2 ^ a | k)) as Hd by (intros; unfold k; destruct (Z.min_spec want (len / 2 ^ a * 2 ^ a)) as [[_ ->]|[_ ->]]; [done|apply Z.divide_factor_r]).
  destruct (Z.eqb_spec small 0); [exists k; split_and!; (done || unfold k; lia)|].
  set (mx := u64 (2 ^ a * (rnd mod small))). assert (mx = 2 ^ a * (rnd mod small)) as Emx.
  { apply u64_small. pose proof (Z.mod_pos_bound rnd small ltac:(lia)). pose proof (Z.pow_le_mono_r 2 a 31).
    assert (2 ^ a * (rnd mod small) <= 2 ^ 31 * 2 ^ 31) by (apply Z.mul_le_mono_nonneg; lia).
    split; [apply Z.mul_nonneg_nonneg; lia|lia]. }
  destruct (Z.eqb_spec mx 0) as [|Hmx]; simpl; [exists k; split_and!; (done || unfold k; lia)|].
  destruct (Z.ltb_spec mx k); [|exists k; split_and!; (done || unfold k; lia)].
  pose proof (Z.mod_pos_bound rnd small ltac:(lia)). assert (1 <= rnd mod small) by (destruct (Z.eq_dec (rnd mod small) 0) as [E0|]; [rewrite E0 in Emx|]; lia).
  assert (2 ^ a * 1 <= mx) by (rewrite Emx; apply Z.mul_le_mono_nonneg_l; lia).
  exists mx. rewrite u32_small by (unfold k in *; lia). split_and!; [done|lia|unfold k in *; lia|unfold k in *; lia|]. intros _. rewrite Emx. apply Z.divide_factor_l.
Qed.

(** The invariant of the allocator. *)
Record inv (st : state) : Prop := {
  inv_bins : bins_ok (free st);
  inv_ten : List.length (free st) = 10%nat;
  inv_num_free : num_free st = size_sum (free st);
  inv_max : 0 <= num_free st < 2 ^ 63;
  inv_reserved : 0 <= num_reserved st < 2 ^ 63;
  inv_last : 0 <= last_alloc st < 2 ^ 64
}.

(** The bytes of [off, off + len) leave the free space of [st]. *)
Record taken (st : state) (off len : Z) (st' : state) : Prop := {
  taken_were : ∀ x, off <= x < off + len → in_bins (free st) x;
  taken_now : ∀ x, in_bins (free st') x ↔ in_bins (free st) x ∧ ¬ (off <= x < off + len);
  taken_free : num_free st' = num_free st - len
}.

(** Taking a part of an extent out of its bin. *)
Lemma take_part bins bin s start len off k : bins_ok bins → bins !! bin = Some s → (start, len) ∈ m s →
  start <= off → 0 < k → off + k <= start + len →
  ∃ s1, erase s off k = Ok s1 ∧ bins_ok (<[bin := s1]> bins) ∧ size_sum (<[bin := s1]> bins) = size_sum bins - k ∧
    (∀ x, x ∈ s1 ↔ x ∈ s ∧ ¬ (off <= x < off + k)) ∧
    (∀ x, in_bins (<[bin := s1]> bins) x ↔ in_bins bins x ∧ ¬ (off <= x < off + k)) ∧
    (∀ x, off <= x < off + k → in_bins bins x) ∧
    (∀ au, 0 < au → unit_bins au bins → (au | off) → (au | k) → unit_bins au (<[bin := s1]> bins)) ∧
    (start = off → binned bins → binned_but (<[bin := s1]> bins) (Z.of_nat bin) (off + k)).
Proof.
  intros Hok Hs Hin Hoff Hk Hend. pose proof (bins_wf_at _ _ _ Hok Hs) as Hwf.
  apply interval_iff in Hin as Hin'; [|done]. destruct Hin' as (M0 & M1 & M2 & M3 & M4).
  assert (∀ x, off <= x < off + k → x ∈ s) as Hw by (intros x Hx; apply M2; lia).
  destruct (erase_ok s off k) as (s1 & E & Hwf1 & Hsz1 & Hin1); [done|lia|lia|done|].
  exists s1. split; [done|]. split_and!.
  - eapply bins_ok_insert; [done..|]. intros x [Hx _]%Hin1. by eapply bins_disjoint.
  - rewrite (size_sum_insert _ _ s) by done. lia.
  - done.
  - intros x. rewrite (in_bins_insert _ _ s), (in_bins_split bins bin s), Hin1 by done. split; [|tauto].
    intros [?|Ho]; [tauto|]. split; [by right|]. intros Hx. by apply (bins_disjoint _ Hok bin s x Hs (Hw x Hx)).
  - intros x Hx. exists bin, s. auto.
  - intros au Ha Hu Ho Hl. apply unit_bins_insert; [done|]. by apply (unit_set_erase au s _ off k); [|eapply Hu| | |].
  - intros -> Hb i b g n Hi Hg. rewrite (choose_bin_length _ bins) by apply length_insert.
    apply list_lookup_insert_Some in Hi as [(<- & <- & _)|(Hne & Hi)]; [|left; by eapply Hb].
    destruct (decide (g <= off + k < g + n)) as [|Hno]; [by right|left]. apply (Hb bin s g n Hs).
    apply interval_iff in Hg as (G0 & G1 & G2 & G3 & G4); [|done]. apply interval_iff; [done|].
    assert (∀ x, g <= x < g + n → x ∈ s ∧ ¬ (off <= x < off + k)) as Hgs by (intros x Hx; by apply Hin1, G2).
    split_and!; [done|done|intros x Hx; by apply Hgs|..].
    + intros C. apply G3, Hin1. split; [done|]. intros Hr. assert (g = off + k) by (pose proof (Hgs g); lia). lia.
    + intros C. apply G4, Hin1. split; [done|]. intros Hr. assert (g + n = off) as Eg by (pose proof (Hgs (g + n - 1)); lia).
      apply M3. rewrite <- Eg. apply Hgs. lia.
Qed.

Context (small : Z) (Hsmall : 0 <= small < 2 ^ 31).

Lemma allocate_int_ok st want a hint rnd : inv st → 0 <= rnd → 0 <= a < 32 → 2 ^ a <= want < 2 ^ 32 → want <= num_reserved st →
  ∃ r st', allocate_int bs small st want (2 ^ a) hint rnd = Ok (r, st') ∧
  match r with
  | Some (off, k) => 0 <= off ∧ off mod 2 ^ a = 0 ∧ 2 ^ a <= k <= want ∧ off + k < 2 ^ 63 ∧ ((2 ^ a | want) → (2 ^ a | k)) ∧
      inv st' ∧ taken st off k st' ∧ num_reserved st' = num_reserved st - k ∧
      ((2 ^ a | want) → unit_bins (2 ^ a) (free st) → unit_bins (2 ^ a) (free st') ∧ (binned (free st) → binned (free st')))
  | None => st' = st ∧ ∃ ob, choose_bin bs (free st) want = Ok ob ∧ ∀ i s p, free st !! i = Some s → p ∈ m s →
      (ob <= Z.of_nat i → room (2 ^ a) p < want) ∧ (Z.of_nat i <= ob → room (2 ^ a) p < 2 ^ a)
  end.
Proof.
  intros [Iok I10 Inf Imax Ires Ilast] Hrnd Ha Hw Hres. assert (0 < 2 ^ a) as Hp by (apply Z.pow_pos_nonneg; lia).
  unfold allocate_int. set (h := if hint =? 0 then _ else _).
  destruct (find_extent_spec (free st) want (2 ^ a) h Hp) as ([[b [start len]]|] & -> & Hf); [lia| |]; cbn [bind].
  2: { exists None, st. split; [done|]. split; [done|]. by rewrite Z.max_r in Hf by lia. }
  destruct Hf as (s & Hb0 & Hs & Hin & Hroom). pose proof (bins_wf_at _ _ _ Iok Hs) as Hwf. rewrite Z.min_r in Hroom by lia.
  pose proof (lookup_lt_Some _ _ _ Hs) as Hlt. destruct (pad_spec start (2 ^ a) Hp) as [Hpad Hal]. set (k := pad start (2 ^ a)) in *.
  unfold room in Hroom. cbn [fst snd] in Hroom. fold k in Hroom. destruct (Z.ltb_spec len k) as [|Hlen]; [lia|].
  pose proof (interval_max s start len Hwf Hin). apply interval_iff in Hin as Hin'; [|done]. destruct Hin' as (M0 & M1 & M2 & M3 & M4).
  rewrite skew_of_ok by done. cbn [bind]. fold k. rewrite (u64_small (start + k)), (u64_small (len - k)) by lia.
  destruct (take_length_ok small want a rnd (len - k)) as (n & -> & Hn & Hn2 & Hdiv); [lia..|]. cbn [bind].
  rewrite (proj2 (zget_ok (free st) b s)) by done. cbn [bind].
  destruct (take_part (free st) (Z.to_nat b) s start len (start + k) n) as (s1 & -> & Hok1 & Hsz1 & Hin1 & Hbins1 & Hwere & Hu1 & Hb1); [done..|lia|lia|lia|].
  cbn [bind]. rewrite zset_ok by lia. cbn [bind]. set (bins1 := <[Z.to_nat b := s1]> (free st)) in *.
  assert (bins1 !! Z.to_nat b = Some s1) as Hs1 by (by apply list_lookup_insert_eq).
  assert ((if start + k =? 0 then Ok bins1 else demote bs bins1 b (u64 (start + k - k - 1))) = Ok bins1) as ->.
  { destruct (Z.eqb_spec (start + k) 0); [done|]. assert (start ≠ 0) by (intros ->; unfold k, pad in *; rewrite Z.mod_0_l in * by lia; simpl in *; lia).
    rewrite u64_small by lia. apply (demote_none _ _ _ s1); [by eapply bins_wf_at|done|done|lia|].
    intros [C _]%Hin1. apply M3. by replace (start - 1) with (start + k - k - 1) by lia. }
  cbn [bind]. rewrite (u64_small (start + k + n)) by lia.
  destruct (demote_ok bins1 b (start + k + n) s1) as (bins2 & -> & (Hok2 & Hl2 & Hsz2 & Hin2 & Hu2) & Hb2); [done|done|done|lia|]. cbn [bind].
  assert (n <= num_free st) as Hnf.
  { rewrite Inf. pose proof (size_sum_nonneg bins1 Hok1). lia. }
  rewrite !s64_small by lia. rewrite !assert_true by (apply Z.leb_le; lia). cbn [bind].
  eexists _, _. split; [done|]. cbn [free num_free num_reserved last_alloc]. split_and!; try done; try lia.
  - split; cbn [free num_free num_reserved last_alloc]; [done| |lia..]. rewrite Hl2. unfold bins1. by rewrite length_insert.
  - split; cbn [free num_free num_reserved last_alloc]; [done| |lia]. intros x. by rewrite Hin2, Hbins1.
  - intros Hdw Hu. assert (unit_bins (2 ^ a) bins1) as Hu1' by (apply Hu1; [done|done|apply Z.mod_divide; [lia|done]|by apply Hdiv]).
    split; [by apply Hu2|]. intros Hb. apply Hb2. rewrite <- (Z2Nat.id b) by done. apply Hb1; [|done].
    destruct (unit_interval (2 ^ a) s start len) as [Hst _]; [done|done|by eapply Hu|done|].
    unfold k, pad. rewrite (proj2 (Z.mod_divide start (2 ^ a) ltac:(lia)) Hst). simpl. lia.
Qed.

Lemma release_ok st off len : inv st → 0 <= off → 0 < len → off + len < 2 ^ 63 → num_free st + len < 2 ^ 63 →
  (∀ x, off <= x < off + len → ¬ in_bins (free st) x) →
  ∃ st', release bs st off len = Ok st' ∧ inv st' ∧ num_free st' = num_free st + len ∧ num_reserved st' = num_reserved st ∧
    inserted (free st) off len (free st').
Proof.
  intros [Iok I10 Inf Imax Ires Ilast] H0 Hlen Hmax Hov Hdis. unfold release.
  destruct (insert_free_ok (free st) off len) as (bins' & -> & Hi); [done|lia|done..|]. cbn [bind]. rewrite s64_small by lia.
  eexists. split; [done|]. cbn [free num_free num_reserved]. split; [|done].
  destruct Hi as (Hok & Hl & Hs & _). split; cbn [free num_free num_reserved last_alloc]; (done || lia).
Qed.

(** ** Removal from all bins *)

Lemma erase_all_size l : ∀ s lo, 0 <= lo → chain lo l → wf s → (∀ x, covers l x → x ∈ s) →
  ∃ s', erase_all s l = Ok s' ∧ size s' = size s - total l.
Proof.
  induction l as [|[f n] l IH]; intros s lo Hlo Hc Hwf Hin; simpl; [exists s; split; [done|lia]|].
  destruct Hc as (? & ? & ? & Hc). pose proof (λ x, covers_above _ _ x Hc) as Hcl.
  destruct (erase_ok s f n) as (s1 & -> & Hwf1 & Hsz & Hs1); auto; try lia.
  { intros x Hx. apply Hin, covers_cons. by left. }
  destruct (IH s1 (f + n + 1)) as (s' & E & ?); auto; try lia.
  { intros x Hx. apply Hs1. split; [apply Hin, covers_cons; by right|]. apply Hcl in Hx. lia. }
  exists s'. split; [done|]. lia.
Qed.

Lemma subtract_ok s a : wf s → wf a → (∀ x, x ∈ a → x ∈ s) →
  ∃ s', subtract s a = Ok s' ∧ wf s' ∧ size s' = size s - size a ∧ ∀ x, x ∈ s' ↔ x ∈ s ∧ x ∉ a.
Proof.
  intros Hs [Ha Hsz] Hin. destruct (erase_all_ok (m a) s 0) as (s' & E & Hwf & Hx); [lia|done..|].
  destruct (erase_all_size (m a) s 0) as (s'' & E' & Hz); [lia|done..|]. assert (s'' = s') as -> by congruence.
  exists s'. split; [done|]. split; [done|]. split; [unfold size in *; lia|done].
Qed.

Lemma empty_spec s : wf s → empty s = true ↔ ∀ x, x ∉ s.
Proof.
  intros [Hc _]. unfold empty. rewrite bool_decide_eq_true. split.
  - intros E x. rewrite elem_of_eq, E, covers_nil. tauto.
  - intros H. destruct (m s) as [|[f n] l] eqn:E; [done|]. destruct (H f). rewrite elem_of_eq, E. simpl in Hc. apply covers_cons. left. lia.
Qed.

Lemma bins_ok_cons s bins : bins_ok (s :: bins) → wf s ∧ bins_ok bins ∧ ∀ x, x ∈ s → ¬ in_bins bins x.
Proof.
  intros [Hw Hd]. apply Forall_cons in Hw as [Hs Hw]. split; [done|]. split; [split; [done|]|].
  - intros i b x Hi Hx (j & c & Hj & Hjc & Hc). apply (Hd (S i) b x Hi Hx). exists (S j), c. split; [lia|done].
  - intros x Hx (j & c & Hj & Hc). apply (Hd 0%nat s x eq_refl Hx). by exists (S j), c.
Qed.

(** One bin: what is to be removed leaves the bin, and the rest is left to remove. *)
Definition rm_one (s rm s' rm' : t) : Prop :=
  wf s' ∧ wf rm' ∧ size s' - size rm' = size s - size rm ∧ (∀ x, x ∈ s' ↔ x ∈ s ∧ x ∉ rm) ∧ (∀ x, x ∈ rm' ↔ x ∈ rm ∧ x ∉ s).

Lemma rm_bin_ok s rm : wf s → wf rm → ∃ overlap s' rm', intersection_of rm s = Ok overlap ∧
  (if empty overlap then Ok (s, rm) else s <- subtract s overlap;; rm <- subtract rm overlap;; Ok (s, rm)) = Ok (s', rm') ∧ rm_one s rm s' rm'.
Proof.
  intros Hs Hrm. destruct (intersection_of_ok rm s) as (ov & E & Hov & Hx); [done..|]. exists ov. destruct (empty ov) eqn:Ee.
  - exists s, rm. split; [done|]. split; [done|]. rewrite empty_spec in Ee by done. split_and!; [done..| |]; intros x; specialize (Ee x); rewrite Hx in Ee; tauto.
  - destruct (subtract_ok s ov) as (s' & -> & ? & ? & H1); [done|done|intros x ?%Hx; tauto|].
    destruct (subtract_ok rm ov) as (rm' & -> & ? & ? & H2); [done|done|intros x ?%Hx; tauto|].
    exists s', rm'. split; [done|]. split; [done|]. split_and!; [done|done|lia|..]; intros x; [rewrite H1, Hx|rewrite H2, Hx]; split; intros [? Hn]; split; try done; tauto.
Qed.

Lemma rm_loop_ok bins : ∀ rm, bins_ok bins → wf rm →
  ∃ bins' rm', rm_loop bins rm = Ok (bins', rm') ∧ wf rm' ∧ size_sum bins' - size rm' = size_sum bins - size rm ∧
    Forall2 (λ s s', wf s' ∧ ∀ x, x ∈ s' ↔ x ∈ s ∧ x ∉ rm) bins bins' ∧ (∀ x, x ∈ rm' ↔ x ∈ rm ∧ ¬ in_bins bins x).
Proof.
  induction bins as [|s bins IH]; intros rm Hok Hrm.
  { exists [], rm. split_and!; try done. intros x. split; [|tauto]. intros Hx. split; [done|]. by intros (i & s & Hi & _). }
  destruct (bins_ok_cons _ _ Hok) as (Hs & Hbins & Hdis). cbn [rm_loop]. destruct (empty rm) eqn:Ee.
  - exists (s :: bins), rm. rewrite empty_spec in Ee by done. split_and!; try done.
    + destruct Hok as [Hw _]. clear -Hw Ee. induction Hw; constructor; [|done]. split; [done|]. intros y. specialize (Ee y). tauto.
    + intros x. specialize (Ee x). tauto.
  - destruct (rm_bin_ok s rm Hs Hrm) as (ov & s' & rm1 & -> & E & (Hs' & Hrm1 & Hsz & Hx1 & Hx2)). cbn [bind]. rewrite E. cbn [bind].
    destruct (IH rm1 Hbins Hrm1) as (bins' & rm' & -> & Hrm' & Hsz' & Hb & Hx). cbn [bind]. exists (s' :: bins'), rm'.
    split_and!; [done|done|simpl; lia| |].
    + constructor; [done|]. apply Forall2_same_length_lookup_2; [by eapply Forall2_length|]. intros i b b' Hi Hi'.
      destruct (Forall2_lookup_lr _ _ _ _ _ _ Hb Hi Hi') as [Hwb Hxb]. split; [done|]. intros x. rewrite Hxb, Hx2.
      assert (x ∈ b → x ∉ s) by (intros Hxb' Hxs; apply (Hdis x Hxs); by exists i, b). tauto.
    + intros x. rewrite Hx, Hx2, (in_bins_cons s bins). tauto.
Qed.

Lemma removed_bins bins bins' (rm : t) : bins_ok bins → Forall2 (λ s s', wf s' ∧ ∀ x, x ∈ s' ↔ x ∈ s ∧ x ∉ rm) bins bins' →
  bins_ok bins' ∧ ∀ x, in_bins bins' x ↔ in_bins bins x ∧ x ∉ rm.
Proof.
  intros [Hw Hd] HF.
  assert (∀ i s', bins' !! i = Some s' → ∃ s, bins !! i = Some s ∧ wf s' ∧ ∀ x, x ∈ s' ↔ x ∈ s ∧ x ∉ rm) as Hinv.
  { intros i s' Hi. destruct (Forall2_lookup_r _ _ _ _ _ HF Hi) as (s & Hs & H). by exists s. }
  split; [split|].
  - apply Forall_lookup. intros i s' (s & _ & H & _)%Hinv. done.
  - intros i s' x (s & Hs & _ & Hx)%Hinv [Hxs _]%Hx (j & c' & Hj & (c & Hc & _ & Hy)%Hinv & [Hxc _]%Hy).
    apply (Hd i s x Hs Hxs). by exists j, c.
  - intros x. split.
    + intros (i & s' & (s & Hs & _ & Hx)%Hinv & [Hxs Hn]%Hx). split; [by exists i, s|done].
    + intros [(i & s & Hs & Hx) Hn]. destruct (Forall2_lookup_l _ _ _ _ _ HF Hs) as (s' & Hs' & _ & Hy). exists i, s'. split; [done|]. by apply Hy.
Qed.

Lemma init_rm_free_ok st off len : inv st → 0 <= off → 0 < len → off + len < 2 ^ 63 → (∀ x, off <= x < off + len → in_bins (free st) x) →
  ∃ st', init_rm_free st off len = Ok st' ∧ inv st' ∧ taken st off len st'.
Proof.
  intros [Iok I10 Inf Imax Ires Ilast] H0 Hlen Hmax Hin. unfold init_rm_free. rewrite Btree.insert_at_eq by (simpl; done || lia).
  destruct (insert_at_ok new off len) as (rm & p & -> & Hrm & Hszrm & Hx & _); [apply wf_new|done..|intros x _; apply new_empty|]. cbn [bind].
  assert (∀ x, x ∈ rm ↔ off <= x < off + len) as Hx' by (intros x; rewrite Hx; pose proof (new_empty x); tauto).
  destruct (rm_loop_ok (free st) rm Iok Hrm) as (bins' & rm' & -> & Hrm' & Hsz & HF & Hr). cbn [bind].
  assert (empty rm' = true) as Hem.
  { apply empty_spec; [done|]. intros x [Hxr Hn]%Hr. by apply Hn, Hin, Hx'. }
  rewrite assert_true by done. cbn [bind]. destruct (removed_bins (free st) bins' rm Iok HF) as [Hok' Hb'].
  assert (size rm' = 0) as Hz by (destruct Hrm' as [_ E]; unfold size; rewrite E; unfold empty in Hem; apply bool_decide_eq_true in Hem; by rewrite Hem).
  change (size new) with 0 in Hszrm. pose proof (size_sum_nonneg bins' Hok'). rewrite s64_small by lia. rewrite assert_true by (apply Z.leb_le; lia). cbn [bind].
  eexists. split; [done|]. split; split; cbn [free num_free num_reserved last_alloc]; try done; try lia.
  - rewrite <- I10. symmetry. by eapply Forall2_length.
  - intros x. by rewrite Hb', Hx'.
Qed.

(** ** No space *)

Lemma cbits_log v : 0 <= v → v < 2 ^ cbits v ∧ (∀ n, 0 <= n → n < cbits v → 2 ^ n <= v).
Proof.
  intros Hv. unfold cbits. destruct (Z.eqb_spec v 0) as [->|Hv0]; [split; [done|lia]|].
  replace (64 - (63 - Z.log2 v)) with (Z.succ (Z.log2 v)) by lia. pose proof (Z.log2_spec v ltac:(lia)). split; [lia|].
  intros n H0 Hn. transitivity (2 ^ Z.log2 v); [apply Z.pow_le_mono_r; lia|lia].
Qed.

(** An extent of a bin above the bin of [want] has room for it. *)
Lemma higher_bin_room a c want bins ob i f n : bs = 2 ^ c → 0 <= c <= a → (2 ^ a | want) → 2 ^ a <= want → 0 <= n →
  choose_bin bs bins want = Ok ob → choose_bin bs bins n = Ok i → ob < i → want <= room (2 ^ a) (f, n).
Proof.
  intros Ebs Hc [q Eq] Hw Hn. unfold choose_bin. rewrite (proj2 (Z.eqb_neq bs 0)) by lia. intros [= Eob] [= Ei] Hlt.
  assert (0 < 2 ^ a) as Hp by (apply Z.pow_pos_nonneg; lia). assert (0 <= want / bs) by (apply Z.div_pos; lia). assert (0 <= n / bs) by (apply Z.div_pos; lia).
  destruct (cbits_log (want / bs)) as [Hw1 Hw2]; [done|]. destruct (cbits_log (n / bs)) as [_ Hn2]; [done|].
  assert (ob = cbits (want / bs)) as Eob' by lia. pose proof (cbits_mono (want / bs) (want / bs) ltac:(lia)). rewrite <- Eob' in Hw1.
  assert (2 ^ ob <= n / bs) as Hnb by (apply Hn2; lia).
  assert (2 ^ (a - c) <= want / bs) as Hwb.
  { apply Z.div_le_lower_bound; [lia|]. rewrite Ebs, <- Z.pow_add_r by lia. by replace (c + (a - c)) with a by lia. }
  assert (a - c < ob) as Hac by (apply (Z.pow_lt_mono_r_iff 2); lia).
  assert (want < 2 ^ ob * bs) as Hwlt by (by apply div_lt).
  assert (2 ^ ob * bs = 2 ^ (ob + c - a) * 2 ^ a) as Epow by (rewrite Ebs, <- !Z.pow_add_r by lia; f_equal; lia).
  assert (want + 2 ^ a <= 2 ^ ob * bs) as Hgap.
  { rewrite Epow, Eq in *. assert (q < 2 ^ (ob + c - a)) by (apply (Z.mul_lt_mono_pos_r (2 ^ a)); lia).
    assert ((q + 1) * 2 ^ a <= 2 ^ (ob + c - a) * 2 ^ a) by (apply Z.mul_le_mono_nonneg_r; lia). lia. }
  assert (2 ^ ob * bs <= n / bs * bs) by (apply Z.mul_le_mono_nonneg_r; lia). pose proof (Z.mul_div_le n bs Hbs).
  unfold room. cbn [fst snd]. destruct (pad_spec f (2 ^ a) Hp) as [Hpad _]. destruct (Z.ltb_spec n (pad f (2 ^ a))); lia.
Qed.

Lemma no_space a c want bins ob : bs = 2 ^ c → 0 <= c <= a → (2 ^ a | want) → 2 ^ a <= want → bins_ok bins → binned bins → unit_bins (2 ^ a) bins →
  choose_bin bs bins want = Ok ob → (∀ i s p, bins !! i = Some s → p ∈ m s →
    (ob <= Z.of_nat i → room (2 ^ a) p < want) ∧ (Z.of_nat i <= ob → room (2 ^ a) p < 2 ^ a)) →
  ∀ x, ¬ in_bins bins x.
Proof.
  intros Ebs Hc Hd Hw Hok Hb Hu Eob H x (i & s & Hi & Hx). assert (0 < 2 ^ a) as Hp by (apply Z.pow_pos_nonneg; lia).
  pose proof (bins_wf_at _ _ _ Hok Hi) as Hwf. assert (∃ f n, (f, n) ∈ m s) as (f & n & Hf).
  { apply Exists_exists in Hx as ([f n] & Hf & _). by exists f, n. }
  destruct (H i s (f, n) Hi Hf) as [H1 H2]. destruct (unit_interval (2 ^ a) s f n) as [Hf2 [k Hk]]; [done|done|by eapply Hu|done|].
  apply interval_iff in Hf as Hf'; [|done]. destruct Hf' as (_ & Hn & _). destruct (Z.lt_ge_cases ob (Z.of_nat i)) as [L|L].
  - specialize (H1 ltac:(lia)). pose proof (higher_bin_room a c want bins ob (Z.of_nat i) f n Ebs Hc Hd Hw ltac:(lia) Eob (Hb i s f n Hi Hf) L). lia.
  - specialize (H2 ltac:(lia)). unfold room in H2. cbn [fst snd] in H2. unfold pad in H2.
    rewrite (proj2 (Z.mod_divide f (2 ^ a) ltac:(lia)) Hf2) in H2. simpl in H2. destruct (Z.ltb_spec n 0); [lia|].
    assert (1 <= k) by (destruct (Z.lt_ge_cases k 1) as [L'|]; [|done]; assert (k * 2 ^ a <= 0 * 2 ^ a) by (apply Z.mul_le_mono_nonneg_r; lia); lia).
    assert (1 * 2 ^ a <= k * 2 ^ a) by (apply Z.mul_le_mono_nonneg_r; lia). lia.
Qed.

(** ** Allocation of several extents *)

(** How many of the extents have byte [x], and what they have together. *)
Definition cov (exts : list AllocExtent) (x : Z) : Z :=
  foldr (λ e n, Z.b2z ((offset e <=? x) && (x <? offset e + length e)) + n) 0 exts.
Definition sum_length (exts : list AllocExtent) : Z := foldr (λ e n, length e + n) 0 exts.
Definition extent_ok (mx : Z) (e : AllocExtent) : Prop := 0 <= offset e ∧ 0 < length e <= mx ∧ offset e + length e < 2 ^ 63.

Lemma cov_snoc exts e x : cov (exts ++ [e]) x = cov exts x + Z.b2z ((offset e <=? x) && (x <? offset e + length e)).
Proof. induction exts as [|e' exts IH]; simpl; lia. Qed.
Lemma sum_length_snoc exts e : sum_length (exts ++ [e]) = sum_length exts + length e.
Proof. induction exts as [|e' exts IH]; simpl; lia. Qed.

Lemma add_extents_ok mx exts off k : 0 < mx < 2 ^ 32 → Forall (extent_ok mx) exts → 0 <= off → 0 < k <= mx → off + k < 2 ^ 63 →
  let exts' := add_extents mx exts off k in
  Forall (extent_ok mx) exts' ∧ sum_length exts' = sum_length exts + k ∧
  ∀ x, cov exts' x = cov exts x + Z.b2z ((off <=? x) && (x <? off + k)).
Proof.
  intros Hmx Hex Hoff Hk Hend.
  assert (∀ l, let l' := l ++ [mk_extent off k] in Forall (extent_ok mx) l → Forall (extent_ok mx) l' ∧ sum_length l' = sum_length l + k ∧
    ∀ x, cov l' x = cov l x + Z.b2z ((off <=? x) && (x <? off + k))) as Happ.
  { intros l l' Hl. unfold l'. split; [by apply Forall_app; split; [|apply Forall_singleton]|]. rewrite sum_length_snoc. split; [done|].
    intros x. by rewrite cov_snoc. }
  unfold add_extents. destruct exts as [|e exts _] using rev_ind; rewrite (u64_small off), (u32_small k) by lia; [by apply (Happ [])|]. rewrite last_snoc.
  apply Forall_app in Hex as Hex'. destruct Hex' as [Hx1 Hx2]. apply Forall_cons in Hx2 as [(E1 & E2 & E3) _].
  rewrite (u64_small (offset e + _)) by lia. destruct (Z.eqb_spec (offset e + length e) off) as [Eo|]; [|by apply Happ].
  rewrite (proj2 (Z.eqb_neq mx 0)) by lia. simpl. destruct (Z.leb_spec (length e + k) mx) as [Hle|]; [|by apply Happ].
  rewrite removelast_last, u32_small by lia. split; [apply Forall_app; split; [done|]; apply Forall_singleton; unfold extent_ok; simpl; lia|].
  rewrite !sum_length_snoc. simpl. split; [lia|]. intros x. rewrite !cov_snoc. simpl.
  destruct (Z.leb_spec (offset e) x), (Z.leb_spec off x), (Z.ltb_spec x (offset e + (length e + k))),
    (Z.ltb_spec x (offset e + length e)), (Z.ltb_spec x (off + k)); simpl; lia.
Qed.

(** Byte [x] was free and is now in one more of the extents, or nothing changed for it. *)
Definition moved (bins : list t) (exts : list AllocExtent) (bins' : list t) (exts' : list AllocExtent) (x : Z) : Prop :=
  (in_bins bins x ∧ ¬ in_bins bins' x ∧ cov exts' x = cov exts x + 1) ∨
  ((in_bins bins' x ↔ in_bins bins x) ∧ cov exts' x = cov exts x).

Lemma allocate_loop_ok a c want mx rnd : bs = 2 ^ c → 0 <= c <= a → a < 32 → (2 ^ a | want) → (2 ^ a | mx) → 2 ^ a <= mx < 2 ^ 32 →
  (∀ i, 0 <= rnd i) → ∀ fuel st hint exts al,
  inv st → unit_bins (2 ^ a) (free st) → binned (free st) → Forall (extent_ok mx) exts → (2 ^ a | al) → 0 <= al <= want →
  want - al <= num_reserved st → want < 2 ^ 63 → want - al < Z.of_nat fuel * 2 ^ a →
  ∃ n exts' st', allocate_loop bs small fuel st want (2 ^ a) mx hint rnd exts al = Ok (al + n, exts', st') ∧
    0 <= n ∧ al + n <= want ∧ inv st' ∧ unit_bins (2 ^ a) (free st') ∧ binned (free st') ∧ Forall (extent_ok mx) exts' ∧
    sum_length exts' = sum_length exts + n ∧ num_free st' = num_free st - n ∧ num_reserved st' = num_reserved st - n ∧
    (∀ x, moved (free st) exts (free st') exts' x) ∧ (al + n < want → ∀ x, ¬ in_bins (free st') x).
Proof.
  intros Ebs Hc Ha Hdw Hdm Hmx Hrnd. assert (0 < 2 ^ a) as Hp by (apply Z.pow_pos_nonneg; lia).
  induction fuel as [|fuel IH]; intros st hint exts al Hinv Hu Hb Hex Hda Hal Hres Hw Hf; [lia|]. cbn [allocate_loop].
  destruct (Z.ltb_spec al want) as [Hlt|Hge]; cbn [negb].
  2: { exists 0, exts, st. rewrite Z.add_0_r. split_and!; try done; try lia. intros x. right. done. }
  rewrite (u64_small (want - al)) by lia. set (req := Z.min mx (want - al)).
  assert (2 ^ a | want - al) as Hdl by (by apply Z.divide_sub_r).
  assert (2 ^ a <= want - al) as Hge by (apply Z.divide_pos_le; [lia|done]).
  assert (2 ^ a | req) as Hdr by (unfold req; destruct (Z.min_spec mx (want - al)) as [[_ ->]|[_ ->]]; done).
  destruct (allocate_int_ok st req a hint (rnd fuel)) as (r & st1 & -> & Hr); [done|done|lia|unfold req; lia|unfold req; lia|]. cbn [bind].
  destruct r as [[off k]|].
  - destruct Hr as (Hoff & _ & Hk & Hend & Hdk & Hinv1 & [Hwere Hnow Hnf] & Hres1 & Hub). specialize (Hdk Hdr). destruct (Hub Hdr Hu) as [Hu1 Hb1].
    rewrite (s64_small mx), (u64_small (al + k)) by (unfold req in *; lia).
    destruct (add_extents_ok mx exts off k) as (Hex1 & Hsum1 & Hcov1); [lia|done|done|unfold req in *; lia|done|].
    destruct (IH st1 (s64 (off + k)) (add_extents mx exts off k) (al + k)) as (n & exts' & st' & E & Hn & Hn2 & Hi' & Hu' & Hb' & Hex' & Hs' & Hf' & Hr' & Hm & Hfull);
      [done|done|by apply Hb1|done|by apply Z.divide_add_r|unfold req in *; lia|lia|done|lia|].
    exists (k + n), exts', st'. rewrite Z.add_assoc. split_and!; try done; try lia.
    intros x. specialize (Hcov1 x). specialize (Hm x). unfold moved in *. rewrite Hnow in Hm. pose proof (Hwere x) as Hwx.
    destruct (decide (off <= x < off + k)) as [Hr|Hr].
    + rewrite (proj2 (Z.leb_le _ _)), (proj2 (Z.ltb_lt _ _)) in Hcov1 by lia. simpl in Hcov1.
      destruct Hm as [[[_ C] _]|[Hm Ec]]; [done|]. left. split; [by apply Hwx|]. split; [rewrite Hm; tauto|lia].
    + assert (Z.b2z ((off <=? x) && (x <? off + k)) = 0) as E0 by (destruct (Z.leb_spec off x), (Z.ltb_spec x (off + k)); simpl; lia).
      destruct Hm as [([A _] & B & C)|[A C]]; [left; split_and!; [done|done|lia]|right; split; [tauto|lia]].
  - destruct Hr as (-> & ob & Eob & Hno). exists 0, exts, st. rewrite Z.add_0_r. split_and!; try done; try lia; [by right|].
    intros _. eapply (no_space a c req); [done..|unfold req; lia|apply Hinv|done|done|exact Eob|done].
Qed.

(** ** Reachable states *)

(** All extents are whole units of [2 ^ a] bytes, and no more is reserved than is free. *)
Record good (a : Z) (st : state) : Prop := {
  good_inv : inv st;
  good_units : unit_bins (2 ^ a) (free st);
  good_binned : binned (free st);
  good_reserved : num_reserved st <= num_free st
}.

Lemma size_sum_zero bins : bins_ok bins → (∀ x, ¬ in_bins bins x) → size_sum bins = 0.
Proof.
  intros [H _]. induction H as [|s bins [Hc Hs] H IH]; intros Hn; simpl; [done|].
  rewrite IH by (intros x Hx; apply (Hn x), in_bins_cons; by right). destruct (m s) as [|[f n] l] eqn:E; [unfold size; rewrite Hs; done|].
  destruct (Hn f). apply in_bins_cons. left. rewrite elem_of_eq, E. simpl in Hc. apply covers_cons. left. lia.
Qed.

Lemma good_init a : 0 <= a → good a init.
Proof.
  intros Ha. assert (∀ i s, replicate 10 new !! i = Some s → s = new) as Hnew by (intros i s [-> _]%lookup_replicate; done).
  assert (∀ x, x ∉ new) as Hx by apply new_empty. split; [split|..]; cbn [init free num_free num_reserved last_alloc]; try lia; try done.
  - split; [by apply Forall_replicate, wf_new|]. intros i s x ->%Hnew Hxs. by apply Hx in Hxs.
  - intros i s Hs%Hnew x y _ Hxs. rewrite Hs in Hxs. by apply Hx in Hxs.
  - intros i s f n Hs%Hnew Hf. rewrite Hs in Hf. by apply not_elem_of_nil in Hf.
Qed.

(** What the users of the allocator do, in whole units of [2 ^ a] bytes. *)
Inductive step (a : Z) (st : state) : state → Prop :=
  | StepRelease off len st' : (2 ^ a | off) → (2 ^ a | len) → 0 <= off → 0 < len → off + len < 2 ^ 63 → num_free st + len < 2 ^ 63 →
      (∀ x, off <= x < off + len → ¬ in_bins (free st) x) → release bs st off len = Ok st' → step a st st'
  | StepAdd off len st' : (2 ^ a | off) → (2 ^ a | len) → 0 <= off → 0 < len → off + len < 2 ^ 63 → num_free st + len < 2 ^ 63 →
      (∀ x, off <= x < off + len → ¬ in_bins (free st) x) → init_add_free bs st off len = Ok st' → step a st st'
  | StepReserve need : 0 <= need < 2 ^ 63 → step a st (reserve st need).2
  | StepUnreserve unused st' : 0 <= unused < 2 ^ 63 → unreserve st unused = Ok st' → step a st st'
  | StepAllocate want hint rnd r st' : 0 <= rnd → (2 ^ a | want) → 2 ^ a <= want < 2 ^ 32 → want <= num_reserved st →
      allocate_int bs small st want (2 ^ a) hint rnd = Ok (r, st') → step a st st'.

Inductive reachable (a : Z) : state → Prop :=
  | reach_init : reachable a init
  | reach_step st st' : reachable a st → step a st st' → reachable a st'.

Lemma good_release a st off len : 0 <= a → good a st → (2 ^ a | off) → (2 ^ a | len) → 0 <= off → 0 < len → off + len < 2 ^ 63 → num_free st + len < 2 ^ 63 →
  (∀ x, off <= x < off + len → ¬ in_bins (free st) x) → ∃ st', release bs st off len = Ok st' ∧ good a st' ∧
    num_free st' = num_free st + len ∧ ∀ x, in_bins (free st') x ↔ in_bins (free st) x ∨ off <= x < off + len.
Proof.
  intros Ha [Hi Hu Hb Hr] Ho Hl H0 Hlen Hmax Hov Hdis. destruct (release_ok st off len) as (st' & E & Hi' & Hnf & Hnr & Hin); [done..|].
  exists st'. destruct Hin as (_ & _ & _ & Hx & Hb' & Hu'). split; [done|]. split; [split|done].
  - done.
  - apply Hu'; try done. apply Z.pow_pos_nonneg; lia.
  - by apply Hb'.
  - lia.
Qed.

Lemma good_step a st st' : 0 <= a < 32 → good a st → step a st st' → good a st'.
Proof.
  intros Ha Hg [off len st1 Ho Hl H0 Hlen Hmax Hov Hdis E|off len st1 Ho Hl H0 Hlen Hmax Hov Hdis E|need Hn|unused st1 Hn E|want hint rnd r st1 Hrnd Hd Hw Hres E].
  - destruct (good_release a st off len) as (st2 & E2 & H & _); [lia|done..|]. by replace st1 with st2 by congruence.
  - destruct (good_release a st off len) as (st2 & E2 & H & _); [lia|done..|].
    change (init_add_free bs st off len) with (release bs st off len) in E. by replace st1 with st2 by congruence.
  - destruct Hg as [Hi Hu Hb Hr]. unfold reserve. pose proof Hi as [? ? ? Hmax Hrs ?].
    destruct (Z.ltb_spec (num_free st - num_reserved st) (s64 need)) as [|Hle]; simpl; [done|]. rewrite s64_small in Hle by lia.
    rewrite s64_small by lia. split; [split|..]; simpl; (done || lia).
  - destruct Hg as [Hi Hu Hb Hr]. unfold unreserve in E. pose proof Hi as [? ? ? Hmax Hrs ?]. rewrite s64_small in E by lia.
    destruct (Z.leb_spec unused (num_reserved st)) as [Hle|]; [|done]. simpl in E. injection E as <-. rewrite s64_small by lia.
    split; [split|..]; simpl; (done || lia).
  - destruct Hg as [Hi Hu Hb Hr]. destruct (allocate_int_ok st want a hint rnd) as (r' & st2 & E2 & H); [done..|].
    assert (r' = r ∧ st2 = st1) as [-> ->] by (rewrite E in E2; by injection E2).
    destruct r as [[off k]|]; [|destruct H as [-> _]; done]. destruct H as (_ & _ & _ & _ & _ & Hi' & [_ _ Hnf] & Hnr & Hub).
    destruct (Hub Hd Hu) as [Hu' Hb']. split; [done|done|by apply Hb'|lia].
Qed.
End Bins.

(** ** Theorems *)

(** [C17] In every state that users who allocate and release whole units of [2 ^ a] bytes can
    reach, the bins are disjoint sets of whole units with every extent in the bin of its length,
    [num_free] is what the bins hold, and no more is reserved than is free. *)
Theorem allocator_invariant bs small a st : 0 < bs → 0 <= small < 2 ^ 31 → 0 <= a < 32 → reachable bs small a st → good bs a st.
Proof.
  intros Hbs Hsm Ha. induction 1 as [|st st' _ IH Hs]; [apply good_init; lia|]. by apply (good_step bs Hbs small Hsm a st).
Qed.

(** [C14] An allocation of reserved space succeeds in full: the extents that are returned have the
    bytes that were wanted, every one of which was free, is in one extent and is free no more; all
    other bytes stay as they are. *)
Theorem allocate_reserved bs small a c st want mx hint rnd :
  bs = 2 ^ c → 0 <= c <= a → a < 32 → 0 <= small < 2 ^ 31 → good bs a st → (2 ^ a | want) → 0 < want <= num_reserved st →
  (2 ^ a | mx) → 0 <= mx < 2 ^ 32 → (mx = 0 → want < 2 ^ 32) → (∀ i, 0 <= rnd i) →
  ∃ exts st', allocate bs small (Z.to_nat (want / 2 ^ a) + 1) st want (2 ^ a) mx hint rnd = Ok (want, exts, st') ∧
    good bs a st' ∧ num_free st' = num_free st - want ∧ num_reserved st' = num_reserved st - want ∧
    sum_length exts = want ∧ ∀ x, moved (free st) [] (free st') exts x.
Proof.
  intros Ebs Hc Ha Hsm [Hi Hu Hb Hr] Hdw Hw Hdm Hmx Hmx0 Hrnd. assert (0 < bs) as Hbs by (rewrite Ebs; apply Z.pow_pos_nonneg; lia).
  assert (0 < 2 ^ a) as Hp by (apply Z.pow_pos_nonneg; lia). unfold allocate. set (mx' := if mx =? 0 then want else mx).
  assert ((2 ^ a | mx') ∧ 2 ^ a <= mx' < 2 ^ 32) as [Hdm' Hmx'].
  { unfold mx'. destruct (Z.eqb_spec mx 0) as [E|E]; (split; [done|]); split; try lia; apply Z.divide_pos_le; (done || lia). }
  pose proof Hi as [_ _ _ _ Hres _].
  destruct (allocate_loop_ok bs Hbs small Hsm a c want mx' rnd Ebs Hc Ha Hdw Hdm' Hmx' Hrnd (Z.to_nat (want / 2 ^ a) + 1) st hint [] 0)
    as (n & exts & st' & -> & Hn & Hn2 & Hi' & Hu' & Hb' & _ & Hsum & Hnf & Hnr & Hm & Hfull); try done; try lia; [apply Z.divide_0_r| |].
  { pose proof (Z.mul_succ_div_gt want (2 ^ a) Hp). assert (0 <= want / 2 ^ a) by (apply Z.div_pos; lia).
    replace (Z.of_nat (Z.to_nat (want / 2 ^ a) + 1)) with (Z.succ (want / 2 ^ a)) by lia. lia. }
  pose proof Hi' as [Hok' _ Hnf' _ Hres' _].
  assert (n = want) as ->.
  { destruct (Z.lt_ge_cases n want) as [L|L]; [|lia]. pose proof (size_sum_zero (free st') Hok' (Hfull L)). lia. }
  cbn [bind]. rewrite Z.add_0_l, (proj2 (Z.eqb_neq want 0)), s64_small by lia. exists exts, st'. split_and!; try done.
  split; [done|done|done|lia].
Qed.

(** Space that is released, or added when the allocator is loaded, is free afterwards and nothing else
    changes. *)
Theorem release_correct bs a st off len : 0 < bs → 0 <= a → good bs a st → (2 ^ a | off) → (2 ^ a | len) → 0 <= off → 0 < len →
  off + len < 2 ^ 63 → num_free st + len < 2 ^ 63 → (∀ x, off <= x < off + len → ¬ in_bins (free st) x) →
  ∃ st', release bs st off len = Ok st' ∧ good bs a st' ∧ num_free st' = num_free st + len ∧
    ∀ x, in_bins (free st') x ↔ in_bins (free st) x ∨ off <= x < off + len.
Proof. intros Hbs Ha Hg Ho Hl H0 Hlen Hmax Hov Hdis. by apply good_release. Qed.

(** Space that is taken away when the allocator is loaded leaves whatever bins it is in. *)
Theorem init_rm_free_correct st off len : inv st → 0 <= off → 0 < len → off + len < 2 ^ 63 → (∀ x, off <= x < off + len → in_bins (free st) x) →
  ∃ st', init_rm_free st off len = Ok st' ∧ inv st' ∧ taken st off len st'.
Proof. intros. apply (init_rm_free_ok 0); (done || lia). Qed.

(** The part of an extent that an aligned allocation leaves before it stays in the bin of the whole extent: the
    place where the code looks for it, one before the start of the extent, is never in the bin. *)
Theorem left_part_not_demoted bs bins bin s start len off k s1 : bins_ok bins → bins !! Z.to_nat bin = Some s → 0 <= bin →
  (start, len) ∈ m s → 0 < start <= off → 0 < k → off + k <= start + len → erase s off k = Ok s1 →
  demote bs (<[Z.to_nat bin := s1]> bins) bin (off - (off - start) - 1) = Ok (<[Z.to_nat bin := s1]> bins).
Proof.
  intros Hok Hs Hbin Hin Hoff Hk Hend E. pose proof (bins_wf_at _ _ _ Hok Hs) as Hwf.
  apply interval_iff in Hin as Hin'; [|done]. destruct Hin' as (M0 & M1 & M2 & M3 & M4).
  destruct (erase_ok s off k) as (s2 & E2 & Hwf2 & _ & Hx); [done|lia|lia|intros x Hx; apply M2; lia|].
  assert (s2 = s1) as -> by congruence. apply (demote_none _ _ _ _ s1); [done|done| |lia|].
  - apply list_lookup_insert_eq. by eapply lookup_lt_Some.
  - intros [C _]%Hx. apply M3. by replace (start - 1) with (off - (off - start) - 1) by lia.
Qed.

(** A device of 16 blocks of 4096 bytes that is all free; the same when all but the first block
    is taken away. *)
Definition device16 : state := mk_state 65536 0 (<[5%nat := mk 65536 [(0, 65536)]]> (replicate 10 new)) 0.
Definition device1 : state := mk_state 4096 0 (<[5%nat := mk 4096 [(0, 4096)]]> (replicate 10 new)) 0.

(** The extents that [init_rm_free] leaves stay in their bin: an allocation of two blocks in units of
    one then finds no space, although a block is free, and gets that block where it is added directly. *)
Theorem init_rm_free_hides_space :
  init_add_free 4096 init 0 65536 = Ok device16 ∧ init_rm_free device16 4096 61440 = Ok device1 ∧
  in_bins (free device1) 0 ∧ allocate_int 4096 0 device1 8192 4096 0 0 = Ok (None, device1) ∧
  ∃ st st', init_add_free 4096 init 0 4096 = Ok st ∧ (∀ x, in_bins (free st) x ↔ in_bins (free device1) x) ∧
    allocate_int 4096 0 (mk_state (num_free st) 8192 (free st) 0) 8192 4096 0 0 = Ok (Some (0, 4096), st').
Proof.
  split; [vm_compute; reflexivity|]. split; [vm_compute; reflexivity|].
  split; [exists 5%nat, (mk 4096 [(0, 4096)]); split; [done|]; by constructor; simpl; lia|]. split; [vm_compute; reflexivity|].
  eexists _, _. split; [vm_compute; reflexivity|]. split; [|vm_compute; reflexivity]. intros x.
  assert (∀ i s, x ∉ new → in_bins (<[i := s]> (replicate 10 new)) x → x ∈ s) as Hins.
  { intros i s Hn (j & b & Hj & Hx). apply list_lookup_insert_Some in Hj as [(_ & <- & _)|(_ & Hj)]; [done|]. apply lookup_replicate in Hj as [-> _]. done. }
  split; intros H; [exists 5%nat|exists 1%nat]; exists (mk 4096 [(0, 4096)]); (split; [done|]); [apply (Hins 1%nat)|apply (Hins 5%nat)]; try done; apply new_empty.
Qed.

(** A device of 2 ^ 33 bytes that is all free. *)
Definition device8g : state := mk_state (2 ^ 33) (2 ^ 32) (<[9%nat := mk (2 ^ 33) [(0, 2 ^ 33)]]> (replicate 10 new)) 0.

(** [C39] The length of an extent is stored in 32 bits: an allocation of 2 ^ 32 bytes without a maximum for an extent gets an
    extent of no bytes in each turn and never ends. *)
Theorem allocate_4g_never_ends fuel rnd : allocate 4096 0 fuel device8g (2 ^ 32) 4096 0 0 rnd = Err OutOfFuel.
Proof.
  unfold allocate. rewrite Z.eqb_refl. assert (∀ r, allocate_int 4096 0 device8g (2 ^ 32) 4096 0 r = Ok (Some (0, 0), device8g)) as E by (intros r; vm_compute; reflexivity).
  assert (∀ exts, exts = [] ∨ exts = [mk_extent 0 0] → allocate_loop 4096 0 fuel device8g (2 ^ 32) 4096 (2 ^ 32) 0 rnd exts 0 = Err OutOfFuel) as H.
  { induction fuel as [|fuel IH]; intros exts He; [done|]. cbn [allocate_loop]. change (negb (0 <? 2 ^ 32)) with false. cbn iota.
    change (Z.min (2 ^ 32) (u64 (2 ^ 32 - 0))) with (2 ^ 32). rewrite E. cbn [bind]. apply IH. right. by destruct He as [-> | ->]. }
  by rewrite (H [] (or_introl eq_refl)).
Qed.

Lemma init_nothing_free x : ¬ in_bins (free init) x.
Proof. intros (i & s & [-> _]%lookup_replicate & Hx). by apply new_empty in Hx. Qed.

Lemma device16_step : step 4096 0 12 init device16.
Proof.
  apply (StepAdd _ _ _ _ 0 65536); [by exists 0|by exists 16|lia|lia|lia|simpl; lia|intros x _; apply init_nothing_free|vm_compute; reflexivity].
Qed.
Lemma device16_good : good 4096 12 device16.
Proof. by apply (good_step 4096 ltac:(lia) 0 ltac:(lia) 12 init); [|apply good_init|apply device16_step]. Qed.
Definition device16_reserved : state := (reserve device16 8192).2.
Lemma device16_reserved_good : good 4096 12 device16_reserved.
Proof. apply (good_step 4096 ltac:(lia) 0 ltac:(lia) 12 device16); [done|apply device16_good|by apply StepReserve]. Qed.

Lemma allocator_invariant_witness : reachable 4096 0 12 device16 ∧ num_reserved device16 <= num_free device16.
Proof.
  assert (reachable 4096 0 12 device16) as H by (eapply reach_step; [apply reach_init|apply device16_step]).
  split; [exact H|]. apply (good_reserved 4096 12), (allocator_invariant 4096 0 12 device16); [lia|lia|lia|exact H].
Defined.
Lemma allocate_reserved_witness : ∃ exts st', allocate 4096 0 3 device16_reserved 8192 4096 0 0 (λ _, 0) = Ok (8192, exts, st') ∧ exts = [mk_extent 0 8192].
Proof.
  destruct (allocate_reserved 4096 0 12 12 device16_reserved 8192 0 0 (λ _, 0)) as (exts & st' & E & _);
    [reflexivity|lia|lia|lia|apply device16_reserved_good|by exists 2|vm_compute; split; [reflexivity|discriminate]|by exists 0|lia|lia|intros; lia|].
  exists exts, st'. split; [exact E|]. vm_compute in E. by injection E as <- <-.
Defined.
Lemma release_correct_witness : ∃ st', release 4096 init 8192 4096 = Ok st' ∧ num_free st' = 4096.
Proof.
  destruct (release_correct 4096 12 init 8192 4096) as (st' & E & _ & H & _);
    [lia|lia|by apply good_init|by exists 2|by exists 1|lia|lia|lia|simpl; lia|intros x _; apply init_nothing_free|].
  by exists st'.
Defined.
Lemma init_rm_free_correct_witness : ∃ st', init_rm_free device16 4096 61440 = Ok st' ∧ taken device16 4096 61440 st'.
Proof.
  destruct (init_rm_free_correct device16 4096 61440) as (st' & E & _ & H); [apply device16_good|lia|lia|lia| |by exists st'].
  intros x Hx. exists 5%nat, (mk 65536 [(0, 65536)]). split; [done|]. constructor. simpl. lia.
Defined.
Lemma left_part_not_demoted_witness :
  demote 1 [mk 6 [(2, 2); (6, 4)]] 0 1 = Ok [mk 6 [(2, 2); (6, 4)]].
Proof.
  apply (left_part_not_demoted 1 [mk 8 [(2, 8)]] 0 (mk 8 [(2, 8)]) 2 8 4 2 (mk 6 [(2, 2); (6, 4)]));
    [|reflexivity|lia|left|lia|lia|lia|vm_compute; reflexivity].
  split; [apply Forall_singleton; split; [simpl; lia|reflexivity]|]. intros i b x Hi _ (j & c & Hj & Hc & _). apply lookup_lt_Some in Hi, Hc. simpl in Hi, Hc. lia.
Defined.
End StupidAllocator.
