(* ===== verification/Flock.v ===== *)
(** * File locks (mds/flock.cc, mds/flock.h)

    The locks that clients hold on the bytes of a file, those that wait, and the
    search for cycles of waiting owners.  A multimap is the list of its nodes in key
    order; a node of [held_locks] has a number, which stands for the iterators to it.
    The number of bytes of a lock is 0 where it goes on to the end of the file.

    All lock states share [global_waiting_locks], so the operations work on a world of
    lock states; a [ceph_lock_state_t *] is the number of a state. *)
From S2P Require Import Prelude StdMap.

Module Flock.

Definition CEPH_LOCK_FCNTL : Z := 1.
Definition CEPH_LOCK_SHARED : Z := 1.
Definition CEPH_LOCK_EXCL : Z := 2.
Definition CEPH_LOCK_UNLOCK : Z := 4.
Definition MAX_DEADLK_DEPTH : nat := 5.

Record filelock : Type := mk_lock { start : Z; length : Z; client : Z; owner : Z; pid : Z; type : Z }.

#[export] Instance filelock_eq_dec : EqDecision filelock.
Proof. solve_decision. Defined.

Definition set_range (l : filelock) (s n : Z) : filelock := mk_lock s n (client l) (owner l) (pid l) (type l).
Definition set_type (l : filelock) (t : Z) : filelock := mk_lock (start l) (length l) (client l) (owner l) (pid l) t.

(** ** Comparison of locks *)

Definition owner_equal (l r : filelock) : bool :=
  if negb (client l =? client r) || negb (owner l =? owner r) then false
  else if Z.testbit (owner l) 63 then true
  else pid l =? pid r.

Definition cmp (a b : Z) : Z := if b <? a then 1 else -1.

Definition owner_compare (l r : filelock) : Z :=
  if negb (client l =? client r) then cmp (client l) (client r)
  else if negb (owner l =? owner r) then cmp (owner l) (owner r)
  else if Z.testbit (owner l) 63 then 0
  else if negb (pid l =? pid r) then cmp (pid l) (pid r)
  else 0.

Definition compare (l r : filelock) : Z :=
  let ret := owner_compare l r in
  if negb (ret =? 0) then ret
  else if negb (start l =? start r) then cmp (start l) (start r)
  else if negb (length l =? length r) then cmp (length l) (length r)
  else if negb (type l =? type r) then cmp (type l) (type r)
  else 0.

Definition lock_ltb (l r : filelock) : bool := compare l r <? 0.

(** ** State *)

Abbreviation node := (Z * filelock)%type.

Record lock_state : Type := mk_state {
  ls_type : Z;
  held_locks : list node;
  next_node : Z;
  waiting_locks : list filelock;
  client_held_lock_counts : list (Z * Z);
  client_waiting_lock_counts : list (Z * Z)
}.

Definition new_state (t : Z) : lock_state := mk_state t [] 0 [] [] [].

Record world : Type := mk_world { states : list lock_state; global_waiting_locks : list (filelock * Z) }.

Definition set_held (s : lock_state) (h : list node) (n : Z) (c : list (Z * Z)) : lock_state :=
  mk_state (ls_type s) h n (waiting_locks s) c (client_waiting_lock_counts s).
Definition set_waiting (s : lock_state) (w : list filelock) (c : list (Z * Z)) : lock_state :=
  mk_state (ls_type s) (held_locks s) (next_node s) w (client_held_lock_counts s) c.

(** [counts\[c\] += d], and the node is erased when it has become 0. *)
Definition count_add (c d : Z) (m : list (Z * Z)) : list (Z * Z) := map_set c (default 0 (map_find c m) + d) m.
Definition count_drop (c : Z) (m : list (Z * Z)) : list (Z * Z) :=
  if default 0 (map_find c m) =? 0 then map_erase c m else m.

(** ** Nodes of [held_locks] *)

(** A multimap puts a new node after those with the same key. *)
Fixpoint insert_node (n : node) (m : list node) : list node :=
  match m with
  | [] => [n]
  | n' :: m' => if start n'.2 <=? start n.2 then n' :: insert_node n m' else n :: m
  end.
Definition erase_node (id : Z) (m : list node) : list node := List.filter (λ n, negb (n.1 =? id)) m.
Definition find_node (id : Z) (m : list node) : option filelock := snd <$> find (λ n, n.1 =? id) m.
(** [old_lock->length = n]. *)
Definition resize_node (id len : Z) (m : list node) : list node :=
  map (λ n, if n.1 =? id then (n.1, set_range n.2 (start n.2) len) else n) m.

(** What [adjust_locks] and [remove_lock] change: the nodes, the next number and the counts. *)
Record table : Type := mk_table { nodes : list node; fresh_id : Z; counts : list (Z * Z) }.

Definition t_insert (t : table) (l : filelock) : table :=
  mk_table (insert_node (fresh_id t, l) (nodes t)) (fresh_id t + 1) (count_add (client l) 1 (counts t)).
Definition t_erase (t : table) (id c : Z) : table :=
  mk_table (erase_node id (nodes t)) (fresh_id t) (count_add c (-1) (counts t)).
Definition t_resize (t : table) (id len : Z) : table := mk_table (resize_node id len (nodes t)) (fresh_id t) (counts t).
Definition t_drop (t : table) (c : Z) : table := mk_table (nodes t) (fresh_id t) (count_drop c (counts t)).

(** ** Overlapping locks *)

Definition share_space_range (l : filelock) (s e : Z) : bool :=
  ((s <=? start l) && (start l <=? e)) ||
  ((start l <? s) && ((s <=? u64 (u64 (start l + length l) - 1)) || (length l =? 0))).

Definition share_space (l lock : filelock) : bool :=
  let e := if length lock =? 0 then 2 ^ 64 - 1 else u64 (start lock + u64 (length lock - 1)) in
  share_space_range l (start lock) e.

(** The nodes up to the last one that starts at [e] or before, last one first. *)
Definition nodes_from_last_before (e : Z) (m : list node) : list node :=
  let last := upper_bound e (map (λ n, (start n.2, tt)) m) in
  reverse (take (if bool_decide (last = 0%nat) then 1 else last) m).

Fixpoint overlap_loop (m : list node) (lock check : filelock) (with_neighbors : bool) (overlaps neighbors : list node) :
    list node * list node :=
  match m with
  | [] => (overlaps, neighbors)
  | n :: m =>
      let '(overlaps, neighbors) :=
        if share_space n.2 lock then (n :: overlaps, neighbors)
        else if with_neighbors && owner_equal check n.2 && share_space n.2 check then (overlaps, n :: neighbors)
        else (overlaps, neighbors) in
      if (start n.2 <? start lock) && (type n.2 =? CEPH_LOCK_EXCL) then (overlaps, neighbors)
      else overlap_loop m lock check with_neighbors overlaps neighbors
  end.

(** A lock that starts one earlier and ends one later. *)
Definition neighbor_check_lock (lock : filelock) : filelock :=
  if negb (start lock =? 0) then
    set_range lock (u64 (start lock - 1)) (if length lock =? 0 then 0 else u64 (length lock + 2))
  else set_range lock 0 (if length lock =? 0 then 0 else u64 (length lock + 1)).

Definition get_overlapping_locks (held : list node) (lock : filelock) (with_neighbors : bool) : list node * list node :=
  let endpoint := if length lock =? 0 then 2 ^ 64 - 1 else u64 (start lock + length lock) in
  overlap_loop (nodes_from_last_before endpoint held) lock (neighbor_check_lock lock) with_neighbors [] [].

(** [split_by_owner]: the locks of others and the own ones. *)
Definition split_by_owner (lock : filelock) (locks : list node) : list node * list node :=
  (List.filter (λ n, negb (owner_equal n.2 lock)) locks, List.filter (λ n, owner_equal n.2 lock) locks).

Definition contains_exclusive_lock (locks : list node) : option filelock :=
  snd <$> find (λ n, type n.2 =? CEPH_LOCK_EXCL) locks.

(** ** Waiting locks *)

(** The nodes from the first one with key [s] on; none if there is no such key. *)
Fixpoint waiting_from (s : Z) (w : list filelock) : list filelock :=
  match w with
  | [] => []
  | l :: w' => if start l =? s then w else waiting_from s w'
  end.

Fixpoint is_waiting_loop (w : list filelock) (fl : filelock) : bool :=
  match w with
  | [] => false
  | l :: w =>
      if start fl <? start l then false
      else if (length l =? length fl) && owner_equal l fl then true
      else is_waiting_loop w fl
  end.
Definition is_waiting (s : lock_state) (fl : filelock) : bool := is_waiting_loop (waiting_from (start fl) (waiting_locks s)) fl.

(** [remove_global_waiting]: the first node of this state among those of the key. *)
Fixpoint remove_global_loop (g : list (filelock * Z)) (fl : filelock) (this : Z) : list (filelock * Z) :=
  match g with
  | [] => []
  | (k, p) :: g' =>
      if negb (compare k fl =? 0) then g
      else if p =? this then g' else (k, p) :: remove_global_loop g' fl this
  end.
Fixpoint remove_global_waiting (g : list (filelock * Z)) (fl : filelock) (this : Z) : list (filelock * Z) :=
  match g with
  | [] => []
  | (k, p) :: g' => if compare k fl =? 0 then remove_global_loop g fl this else (k, p) :: remove_global_waiting g' fl this
  end.

(** [insert] into [global_waiting_locks]. *)
Fixpoint insert_global (g : list (filelock * Z)) (fl : filelock) (this : Z) : list (filelock * Z) :=
  match g with
  | [] => [(fl, this)]
  | (k, p) :: g' => if lock_ltb fl k then (fl, this) :: g else (k, p) :: insert_global g' fl this
  end.

(** The loop of [remove_waiting]: what is left, and the lock that was removed. *)
Fixpoint remove_waiting_loop (w : list filelock) (fl : filelock) : list filelock * option filelock :=
  match w with
  | [] => ([], None)
  | l :: w' =>
      if start fl <? start l then (w, None)
      else if (length l =? length fl) && owner_equal l fl then (w', Some l)
      else let '(w', r) := remove_waiting_loop w' fl in (l :: w', r)
  end.
Definition before_key (s : Z) (w : list filelock) : list filelock := take (List.length w - List.length (waiting_from s w)) w.

Definition remove_waiting (s : lock_state) (g : list (filelock * Z)) (this : Z) (fl : filelock) : lock_state * list (filelock * Z) :=
  let '(w, r) := remove_waiting_loop (waiting_from (start fl) (waiting_locks s)) fl in
  match r with
  | None => (s, g)
  | Some l =>
      (set_waiting s (before_key (start fl) (waiting_locks s) ++ w)
         (count_drop (client fl) (count_add (client fl) (-1) (client_waiting_lock_counts s))),
       if ls_type s =? CEPH_LOCK_FCNTL then remove_global_waiting g l this else g)
  end.

Fixpoint insert_waiting (w : list filelock) (fl : filelock) : list filelock :=
  match w with
  | [] => [fl]
  | l :: w' => if start l <=? start fl then l :: insert_waiting w' fl else fl :: w
  end.

Definition add_waiting (s : lock_state) (g : list (filelock * Z)) (this : Z) (fl : filelock) : lock_state * list (filelock * Z) :=
  (set_waiting s (insert_waiting (waiting_locks s) fl) (count_add (client fl) 1 (client_waiting_lock_counts s)),
   if ls_type s =? CEPH_LOCK_FCNTL then insert_global g fl this else g).

(** [~ceph_lock_state_t]: its waiting locks leave the global map. *)
Definition destroy (s : lock_state) (g : list (filelock * Z)) (this : Z) : list (filelock * Z) :=
  if ls_type s =? CEPH_LOCK_FCNTL then foldl (λ g l, remove_global_waiting g l this) g (waiting_locks s) else g.

(** ** Deadlocks *)

(** [set<ceph_filelock>::insert]. *)
Fixpoint set_insert (l : filelock) (m : list filelock) : list filelock :=
  match m with
  | [] => [l]
  | l' :: m' => if lock_ltb l' l then l' :: set_insert l m' else if lock_ltb l l' then l :: m else m
  end.

(** The first loop: [None] when a lock of the first owner is found, or the owners of the
    conflicting locks. *)
Fixpoint conflict_owners (fl : filelock) (first : option filelock) (overlaps : list node) (owners : list filelock) :
    option (list filelock) :=
  match overlaps with
  | [] => Some owners
  | n :: overlaps =>
      if (type fl =? CEPH_LOCK_SHARED) && (type n.2 =? CEPH_LOCK_SHARED) then conflict_owners fl first overlaps owners
      else if match first with Some f => owner_equal f n.2 | None => false end then None
      else conflict_owners fl first overlaps (set_insert (set_type (set_range n.2 0 0) 0) owners)
  end.

(** The entries of [global_waiting_locks] from [lower_bound(o)] on that have the owner of [o]. *)
Fixpoint take_owner (o : filelock) (g : list (filelock * Z)) : list (filelock * Z) :=
  match g with
  | [] => []
  | (k, p) :: g => if owner_equal k o then (k, p) :: take_owner o g else []
  end.
Fixpoint waiting_of (o : filelock) (g : list (filelock * Z)) : list (filelock * Z) :=
  match g with
  | [] => []
  | (k, p) :: g' => if lock_ltb k o then waiting_of o g' else take_owner o g
  end.

(** [existsb] for a predicate that may fault: stops at the first [true]. *)
Fixpoint exists_res {A} (f : A → res bool) (l : list A) : res bool :=
  match l with
  | [] => Ok false
  | a :: l => r <- f a;; if r : bool then Ok true else exists_res f l
  end.

(** [fuel] is how much of [MAX_DEADLK_DEPTH] is left. *)
Fixpoint is_deadlock (fuel : nat) (w : world) (t : Z) (fl : filelock) (overlaps : list node) (first : option filelock) : res bool :=
  if negb (t =? CEPH_LOCK_FCNTL) then Ok false else
  match conflict_owners fl first overlaps [] with
  | None => Ok true
  | Some owners =>
      match fuel with
      | O => Ok false
      | S fuel =>
          let first := default fl first in
          exists_res (λ o,
            exists_res (λ q : filelock * Z,
              state <- zget (states w) q.2;;
              let '(others, _) := split_by_owner q.1 (get_overlapping_locks (held_locks state) q.1 false).1 in
              if bool_decide (others = []) then Ok false
              else is_deadlock fuel w t q.1 others (Some first))
              (waiting_of o (global_waiting_locks w))) owners
      end
  end.

(** ** Setting a lock *)

(** One overlapping lock of the same owner. [new_lock_to_end] is as it was before the first one. *)
Definition adjust_old (new_lock_to_end : bool) (t : table) (new_lock : filelock) (id : Z) : res (table * filelock) :=
  old <- deref (find_node id (nodes t));;
  let old_end := u64 (u64 (start old + length old) - 1) in
  let new_end := u64 (u64 (start new_lock + length new_lock) - 1) in
  let shrink t := if start old <? start new_lock then t_resize t id (u64 (start new_lock - start old)) else t_erase t id (client old) in
  let '(t, new_lock) :=
    if new_lock_to_end || (length old =? 0) then
      if type old =? type new_lock then
        (t_erase t id (client old),
         set_range new_lock (if start new_lock <? start old then start new_lock else start old) 0)
      else if new_lock_to_end then (shrink t, new_lock)
      else (shrink (t_insert t (set_range old (u64 (new_end + 1)) (length old))), new_lock)
    else if type old =? type new_lock then
      let s := if start old <? start new_lock then start old else start new_lock in
      let e := s32 (if old_end <? new_end then new_end else old_end) in
      (t_erase t id (client old), set_range new_lock s (u64 (u64 (u64 e - s) + 1)))
    else
      let t :=
        if new_end <? old_end then
          let s := u64 (new_end + 1) in t_insert t (set_range old s (u64 (u64 (old_end - s) + 1)))
        else t in
      (shrink t, new_lock) in
  Ok (t_drop t (client old), new_lock).

(** One neighboring lock of the same owner. *)
Definition adjust_neighbor (t : table) (new_lock : filelock) (id : Z) : res (table * filelock) :=
  old <- deref (find_node id (nodes t));;
  '(t, new_lock) <-
    (if type old =? type new_lock then
       new_lock <-
         (if length new_lock =? 0 then
            if u64 (start old + length old) =? start new_lock then Ok (set_range new_lock (start old) 0) else Err AssertFailed
          else if length old =? 0 then
            if u64 (start new_lock + length new_lock) =? start old then Ok (set_range new_lock (start new_lock) 0) else Err AssertFailed
          else if u64 (start old + length old) =? start new_lock then
            Ok (set_range new_lock (start old) (u64 (length old + length new_lock)))
          else if u64 (start new_lock + length new_lock) =? start old then
            Ok (set_range new_lock (start new_lock) (u64 (length old + length new_lock)))
          else Ok new_lock);;
       Ok (t_erase t id (client old), new_lock)
     else Ok (t, new_lock));;
  Ok (t_drop t (client old), new_lock).

Fixpoint adjust_loop (f : table → filelock → Z → res (table * filelock)) (t : table) (new_lock : filelock) (ids : list Z) :
    res (table * filelock) :=
  match ids with
  | [] => Ok (t, new_lock)
  | id :: ids => '(t, new_lock) <- f t new_lock id;; adjust_loop f t new_lock ids
  end.

Definition adjust_locks (t : table) (old_locks : list Z) (new_lock : filelock) (neighbor_locks : list Z) : res (table * filelock) :=
  '(t, new_lock) <- adjust_loop (adjust_old (length new_lock =? 0)) t new_lock old_locks;;
  adjust_loop adjust_neighbor t new_lock neighbor_locks.

Definition table_of (s : lock_state) : table := mk_table (held_locks s) (next_node s) (client_held_lock_counts s).
Definition with_table (s : lock_state) (t : table) : lock_state := set_held s (nodes t) (fresh_id t) (counts t).

(** What [add_lock] gives back: whether the lock is set, [*deadlock], and the lock as it was
    adjusted. *)
Record added : Type := mk_added { add_ret : bool; add_deadlock : bool; add_new : filelock }.

Definition add_lock (w : world) (this : Z) (new_lock : filelock) (wait_on_fail replay : bool) : res (added * world) :=
  s <- zget (states w) this;;
  let '(found, neighbors) := get_overlapping_locks (held_locks s) new_lock true in
  let '(overlaps, self) := split_by_owner new_lock found in
  let put s g := states' <- zset (states w) this s;; Ok (mk_world states' g) in
  let blocked :=
    if wait_on_fail && negb replay then
      dead <- is_deadlock MAX_DEADLK_DEPTH w (ls_type s) new_lock overlaps None;;
      if dead : bool then Ok (mk_added false true new_lock, w)
      else
        let '(s, g) := add_waiting s (global_waiting_locks w) this new_lock in
        w <- put s g;; Ok (mk_added false false new_lock, w)
    else Ok (mk_added false false new_lock, w) in
  let set :=
    let '(s, g) := remove_waiting s (global_waiting_locks w) this new_lock in
    '(t, new_lock) <- adjust_locks (table_of s) (map fst self) new_lock (map fst neighbors);;
    w <- put (with_table s (t_insert t new_lock)) g;;
    Ok (mk_added true false new_lock, w) in
  if negb (bool_decide (overlaps = [])) then
    if type new_lock =? CEPH_LOCK_EXCL then blocked
    else if bool_decide (contains_exclusive_lock overlaps ≠ None) then blocked
    else set
  else set.

Definition look_for_lock (s : lock_state) (testing_lock : filelock) : filelock :=
  let '(overlaps, _) := split_by_owner testing_lock (get_overlapping_locks (held_locks s) testing_lock false).1 in
  match overlaps with
  | n :: _ =>
      if type testing_lock =? CEPH_LOCK_EXCL then n.2
      else match contains_exclusive_lock overlaps with
           | Some blocking_lock => blocking_lock
           | None => set_type testing_lock CEPH_LOCK_UNLOCK
           end
  | [] => set_type testing_lock CEPH_LOCK_UNLOCK
  end.

(** ** Removing locks *)

Definition remove_old (removal : filelock) (t : table) (id : Z) : res table :=
  old <- deref (find_node id (nodes t));;
  let removal_end := u64 (u64 (start removal + length removal) - 1) in
  let old_end := u64 (u64 (start old + length old) - 1) in
  let shrink t := if start old <? start removal then t_resize t id (u64 (start removal - start old)) else t_erase t id (client old) in
  let t :=
    if length removal =? 0 then shrink t
    else if length old =? 0 then shrink (t_insert t (set_range old (u64 (removal_end + 1)) (length old)))
    else if removal_end <? old_end then
      let s := u64 (removal_end + 1) in shrink (t_insert t (set_range old s (u64 (u64 (old_end - s) + 1))))
    else shrink t in
  Ok (t_drop t (client old)).

Fixpoint remove_loop (removal : filelock) (t : table) (ids : list Z) : res table :=
  match ids with
  | [] => Ok t
  | id :: ids => t <- remove_old removal t id;; remove_loop removal t ids
  end.

Definition remove_lock (s : lock_state) (removal : filelock) : res lock_state :=
  let '(_, self) := split_by_owner removal (get_overlapping_locks (held_locks s) removal false).1 in
  t <- remove_loop removal (table_of s) (map fst self);;
  Ok (with_table s t).

Definition remove_all_from (s : lock_state) (g : list (filelock * Z)) (this c : Z) : bool * lock_state * list (filelock * Z) :=
  let '(cleared, s) :=
    match map_find c (client_held_lock_counts s) with
    | Some _ => (true, set_held s (List.filter (λ n, negb (client n.2 =? c)) (held_locks s)) (next_node s) (map_erase c (client_held_lock_counts s)))
    | None => (false, s)
    end in
  match map_find c (client_waiting_lock_counts s) with
  | Some _ =>
      (cleared,
       set_waiting s (List.filter (λ l, negb (client l =? c)) (waiting_locks s)) (map_erase c (client_waiting_lock_counts s)),
       if ls_type s =? CEPH_LOCK_FCNTL
       then foldl (λ g l, remove_global_waiting g l this) g (List.filter (λ l, client l =? c) (waiting_locks s))
       else g)
  | None => (cleared, s, g)
  end.

Definition empty (s : lock_state) : bool :=
  bool_decide (held_locks s = []) && bool_decide (waiting_locks s = []) &&
  bool_decide (client_held_lock_counts s = []) && bool_decide (client_waiting_lock_counts s = []).

(** ** Ranges of bytes *)

Definition covers (l : filelock) (x : Z) : Prop := start l <= x ∧ (length l = 0 ∨ x < start l + length l).
Definition overlap (a b : filelock) : Prop := ∃ x, covers a x ∧ covers b x.
#[export] Instance covers_dec l x : Decision (covers l x).
Proof. unfold covers. apply _. Defined.

Record lock_ok (l : filelock) : Prop := {
  ok_range : 0 <= start l ∧ 0 <= length l ∧ start l + length l < 2 ^ 63;
  ok_type : type l = CEPH_LOCK_SHARED ∨ type l = CEPH_LOCK_EXCL
}.

Lemma overlap_sym a b : overlap a b ↔ overlap b a.
Proof. unfold overlap. split; intros (x & ? & ?); by exists x. Qed.

Lemma overlap_iff a b : lock_ok a → lock_ok b → overlap a b ↔
  (length a = 0 ∨ start b < start a + length a) ∧ (length b = 0 ∨ start a < start b + length b).
Proof.
  intros [Ha _] [Hb _]. split.
  - intros (x & [? ?] & [? ?]). lia.
  - intros H. exists (Z.max (start a) (start b)). unfold covers. lia.
Qed.

Lemma share_space_spec l lock : lock_ok l → lock_ok lock → share_space l lock = true ↔ overlap l lock.
Proof.
  intros Hl Hk. rewrite overlap_iff by done. destruct Hl as [Hl _], Hk as [Hk _]. unfold share_space, share_space_range.
  rewrite orb_true_iff, !andb_true_iff, orb_true_iff, !Z.leb_le, !Z.ltb_lt, Z.eqb_eq.
  assert (length l ≠ 0 → u64 (u64 (start l + length l) - 1) = start l + length l - 1) as El
    by (intros; rewrite (u64_small (start l + length l)), u64_small by lia; done).
  assert (length lock ≠ 0 → u64 (start lock + u64 (length lock - 1)) = start lock + length lock - 1) as Ek
    by (intros; rewrite (u64_small (length lock - 1)), u64_small by lia; lia).
  destruct (Z.eqb_spec (length lock) 0) as [E|E]; [|rewrite Ek by done]; (destruct (Z.eq_dec (length l) 0) as [E'|E']; [|rewrite El by done]); split; intros; lia.
Qed.

(** ** Owners *)

Lemma owner_equal_iff a b : owner_equal a b = true ↔
  client a = client b ∧ owner a = owner b ∧ (Z.testbit (owner a) 63 = true ∨ pid a = pid b).
Proof.
  unfold owner_equal. destruct (Z.eqb_spec (client a) (client b)), (Z.eqb_spec (owner a) (owner b)); cbn [negb orb]; try (split; [done|lia]).
  destruct (Z.testbit (owner a) 63); [by split; [auto|]|]. rewrite Z.eqb_eq. split; [auto|]. intros (_ & _ & [|]); done.
Qed.
Lemma owner_equal_refl a : owner_equal a a = true.
Proof. apply owner_equal_iff. auto. Qed.
Lemma owner_equal_sym a b : owner_equal a b = owner_equal b a.
Proof.
  apply eq_true_iff_eq. rewrite !owner_equal_iff. split; intros (E1 & E2 & E3); rewrite E1, E2 in *; (split; [done|]; split; [done|]); destruct E3; auto.
Qed.
Lemma owner_equal_trans a b c : owner_equal a b = true → owner_equal b c = owner_equal a c.
Proof.
  intros H. apply eq_true_iff_eq. rewrite !owner_equal_iff in *. destruct H as (E1 & E2 & E3). rewrite E1, E2 in *.
  split; intros (? & ? & H3); (split; [done|]; split; [done|]); destruct E3, H3; auto; right; congruence.
Qed.
Lemma owner_same a b o : owner_equal a o = true → owner_equal b o = true → owner_equal a b = true.
Proof. intros Ha Hb. rewrite <- (owner_equal_trans a o b) by done. by rewrite owner_equal_sym. Qed.
Lemma owner_equal_range a b s n : owner_equal (set_range a s n) b = owner_equal a b.
Proof. done. Qed.

(** ** The table of held locks *)

(** Locks of one owner never overlap, and locks of different owners only when both are
    shared. *)
Record coherent (ns : list node) : Prop := {
  co_ids : NoDup ns.*1;
  co_sorted : StronglySorted (λ a b, start a.2 <= start b.2) ns;
  co_ok : ∀ n, n ∈ ns → lock_ok n.2;
  co_conflict : ∀ a b, a ∈ ns → b ∈ ns → a.1 ≠ b.1 → overlap a.2 b.2 →
    owner_equal a.2 b.2 = false ∧ type a.2 = CEPH_LOCK_SHARED ∧ type b.2 = CEPH_LOCK_SHARED
}.

(** ** Finding overlapping locks *)

Definition hit (lock : filelock) (n : node) : bool := share_space n.2 lock.
Definition near (lock : filelock) (n : node) : bool :=
  negb (share_space n.2 lock) && (owner_equal (neighbor_check_lock lock) n.2 && share_space n.2 (neighbor_check_lock lock)).

Lemma overlap_loop_all lock wn m : ∀ ov nb,
  (∀ pre n suf, m = pre ++ n :: suf → (start n.2 <? start lock) && (type n.2 =? CEPH_LOCK_EXCL) = true →
    Forall (λ n', hit lock n' = false ∧ near lock n' = false) suf) →
  overlap_loop m lock (neighbor_check_lock lock) wn ov nb =
    (reverse (List.filter (hit lock) m) ++ ov, (if wn then reverse (List.filter (near lock) m) else []) ++ nb).
Proof.
  assert (∀ m', Forall (λ n', hit lock n' = false ∧ near lock n' = false) m' → List.filter (hit lock) m' = [] ∧ List.filter (near lock) m' = []) as Hnone.
  { induction 1 as [|n m' [E1 E2] _ [IH1 IH2]]; [done|]. simpl. by rewrite E1, E2. }
  induction m as [|n m IH]; intros ov nb Hstop; [by destruct wn|]. cbn [overlap_loop List.filter].
  assert (∀ ov nb, (if (start n.2 <? start lock) && (type n.2 =? CEPH_LOCK_EXCL) then (ov, nb) else
      overlap_loop m lock (neighbor_check_lock lock) wn ov nb) =
    (reverse (List.filter (hit lock) m) ++ ov, (if wn then reverse (List.filter (near lock) m) else []) ++ nb)) as Hrest.
  { intros ov' nb'. destruct (_ && _) eqn:E.
    - destruct (Hnone m (Hstop [] n m eq_refl E)) as [-> ->]. by destruct wn.
    - apply IH. intros pre n' suf ->. by apply (Hstop (n :: pre)). }
  change (hit lock n) with (share_space n.2 lock). unfold near at 1. destruct (share_space n.2 lock) eqn:E1; cbn [negb andb]; cbv beta iota.
  - rewrite Hrest, reverse_cons, <- app_assoc. done.
  - destruct wn; cbn [andb]; cbv beta iota; [|apply Hrest].
    destruct (owner_equal (neighbor_check_lock lock) n.2 && share_space n.2 (neighbor_check_lock lock)); cbv beta iota; rewrite Hrest; [|done]. by rewrite reverse_cons, <- app_assoc.
Qed.

Lemma filter_none {A} (f : A → bool) l : (∀ a, a ∈ l → f a = false) → List.filter f l = [].
Proof. intros H. induction l as [|a l IH]; [done|]. simpl. rewrite (H a) by left. apply IH. intros b Hb. apply H. by right. Qed.
Lemma sorted_before {A} (R : A → A → Prop) l1 a l2 : StronglySorted R (l1 ++ a :: l2) → Forall (λ b, R b a) l1.
Proof.
  induction l1 as [|b l1 IH]; intros H; [constructor|]. simpl in H. apply StronglySorted_inv in H as [H1 H2]. constructor; [|by apply IH].
  rewrite Forall_forall in H2. apply H2, elem_of_app. right. left.
Qed.

Lemma neighbor_check_ok lock : lock_ok lock → start lock + length lock < 2 ^ 63 - 1 → lock_ok (neighbor_check_lock lock).
Proof.
  intros [Hr Ht] Hend. unfold neighbor_check_lock. destruct (Z.eqb_spec (start lock) 0), (Z.eqb_spec (length lock) 0); cbn [negb];
    split; cbn [set_range start length type]; try done; rewrite ?u64_small by lia; rewrite ?u64_small by lia; lia.
Qed.

Lemma neighbor_check_covers lock x : lock_ok lock → start lock + length lock < 2 ^ 63 - 1 →
  covers (neighbor_check_lock lock) x ↔ 0 <= x ∧ start lock - 1 <= x ∧ (length lock = 0 ∨ x <= start lock + length lock).
Proof.
  intros [Hr Ht] Hend. unfold neighbor_check_lock, covers. destruct (Z.eqb_spec (start lock) 0), (Z.eqb_spec (length lock) 0); cbn [negb];
    cbn [set_range start length]; rewrite ?u64_small by lia; rewrite ?u64_small by lia; lia.
Qed.

Lemma last_before_split e m : StronglySorted (λ a b, start a.2 <= start b.2) m →
  ∃ pre suf, m = pre ++ suf ∧ nodes_from_last_before e m = reverse pre ∧ Forall (λ n, e < start n.2) suf.
Proof.
  intros Hs. unfold nodes_from_last_before. set (ub := upper_bound e _).
  assert (Forall (λ n, e < start n.2) (drop ub m)) as Hd.
  { unfold ub. clear ub. induction Hs as [|[i l] m Hs IH Hf]; simpl; [constructor|]. destruct (Z.leb_spec (start l) e); simpl; [done|].
    constructor; [done|]. eapply Forall_impl; [exact Hf|]. simpl. intros. lia. }
  case_bool_decide as E.
  - rewrite E in Hd. exists (take 1 m), (drop 1 m). rewrite take_drop. split; [done|]. split; [done|]. by apply Forall_drop, Hd.
  - exists (take ub m), (drop ub m). by rewrite take_drop.
Qed.

(** The early end of the search leaves nothing out. *)
Lemma get_overlapping_spec ns lock wn : coherent ns → lock_ok lock → start lock + length lock < 2 ^ 63 - 1 →
  get_overlapping_locks ns lock wn = (List.filter (hit lock) ns, if wn then List.filter (near lock) ns else []).
Proof.
  intros [Hids Hsort Hok Hconf] Hlock Hend. pose proof (neighbor_check_ok lock Hlock Hend) as Hck. unfold get_overlapping_locks.
  set (e := if length lock =? 0 then _ else _).
  destruct (last_before_split e ns Hsort) as (pre & suf & E & -> & Hsuf).
  assert (∀ n, n ∈ ns → hit lock n = true ∨ near lock n = true → overlap n.2 (neighbor_check_lock lock)) as Hov.
  { intros n Hn H. pose proof (Hok n Hn) as Hn'. unfold hit, near in H. destruct H as [H|H].
    - apply share_space_spec in H as (x & H1 & H2); [|done..]. exists x. split; [done|]. apply neighbor_check_covers; [done..|].
      destruct Hlock as [? _]. unfold covers in H2. lia.
    - apply andb_true_iff in H as [_ [_ H]%andb_true_iff]. by apply share_space_spec in H. }
  assert (Forall (λ n, hit lock n = false ∧ near lock n = false) suf) as Hnone.
  { apply Forall_forall. intros n Hn. rewrite Forall_forall in Hsuf. specialize (Hsuf n Hn). assert (n ∈ ns) as Hin by (rewrite E; apply elem_of_app; by right).
    assert (¬ (hit lock n = true ∨ near lock n = true)); [|destruct (hit lock n), (near lock n); tauto]. intros (x & H1 & H2)%Hov; [|done].
    apply neighbor_check_covers in H2; [|done..]. destruct Hlock as [? _]. destruct (Hok n Hin) as [? _].
    unfold covers in H1. unfold e in Hsuf. destruct (Z.eqb_spec (length lock) 0); [|rewrite u64_small in Hsuf by lia]; lia. }
  rewrite overlap_loop_all.
  - rewrite !app_nil_r, E. assert (∀ f, (∀ n, n ∈ suf → f n = false) → reverse (List.filter f (reverse pre)) = List.filter f (pre ++ suf)) as Hf.
    { intros f Hf. unfold reverse. rewrite <- !rev_alt, List.filter_rev, rev_involutive, List.filter_app, (filter_none f suf), app_nil_r by done. done. }
    rewrite Forall_forall in Hnone. f_equal; [|destruct wn; [|done]]; apply Hf; intros n Hn; by apply Hnone.
  - intros p n s Ep [Hlt Hex]%andb_true_iff. apply Z.ltb_lt in Hlt. apply Z.eqb_eq in Hex.
    assert (pre = reverse s ++ n :: reverse p) as Epre by (rewrite <- (reverse_involutive pre), Ep, reverse_app, reverse_cons, <- app_assoc; done).
    rewrite Epre, <- app_assoc in E. simpl in E. apply Forall_forall. intros n' Hn'. assert (n' ∈ ns) as Hin' by (rewrite E; apply elem_of_app; left; by apply elem_of_reverse).
    assert (n ∈ ns) as Hin by (rewrite E; apply elem_of_app; right; left).
    rewrite E in Hsort, Hids. apply sorted_before in Hsort. rewrite Forall_forall in Hsort. specialize (Hsort n' ltac:(by apply elem_of_reverse)).
    assert (n'.1 ≠ n.1) as Hne.
    { rewrite fmap_app in Hids. apply NoDup_app in Hids as (_ & Hd & _). intros Eq. apply (Hd n'.1); [apply list_elem_of_fmap_2, elem_of_reverse, Hn'|]. rewrite Eq. left. }
    assert (¬ (hit lock n' = true ∨ near lock n' = true)); [|destruct (hit lock n'), (near lock n'); tauto].
    intros (x & H1 & H2)%Hov; [|done]. apply neighbor_check_covers in H2; [|done..]. destruct (Hok n Hin) as [? _].
    destruct (Hconf n' n Hin' Hin Hne) as (_ & _ & C); [exists (start n.2); unfold covers in *; lia|]. rewrite C in Hex. done.
Qed.

(** ** Changes of the table *)

Definition cnt (c : Z) (ns : list node) : Z := Z.of_nat (List.length (List.filter (λ n, client n.2 =? c) ns)).

(** The table while a lock of client [c] is being changed: the count of [c] may be a 0 that is
    not erased yet. *)
Record mid_ok (c : Z) (t : table) : Prop := {
  mid_co : coherent (nodes t);
  mid_fresh : ∀ n, n ∈ nodes t → n.1 < fresh_id t;
  mid_keys : keys_sorted (counts t);
  mid_cnt : ∀ c', default 0 (map_find c' (counts t)) = cnt c' (nodes t);
  mid_nz : ∀ c', c' ≠ c → map_find c' (counts t) ≠ Some 0
}.
Record table_ok (t : table) : Prop := {
  tab_co : coherent (nodes t);
  tab_fresh : ∀ n, n ∈ nodes t → n.1 < fresh_id t;
  tab_keys : keys_sorted (counts t);
  tab_cnt : ∀ c, default 0 (map_find c (counts t)) = cnt c (nodes t);
  tab_nz : ∀ c, map_find c (counts t) ≠ Some 0
}.

Lemma drop_ok c t : mid_ok c t → table_ok (t_drop t c).
Proof.
  intros [Hco Hfr Hk Hc Hz]. unfold t_drop, count_drop. destruct (Z.eqb_spec (default 0 (map_find c (counts t))) 0) as [E|E].
  - split; cbn [nodes fresh_id counts]; try done; [by apply map_erase_sorted|..]; intros c'; rewrite map_find_erase by done; destruct (Z.eqb_spec c' c) as [->|]; try done.
    + by rewrite <- Hc, E.
    + by apply Hz.
  - split; cbn [nodes fresh_id counts]; try done. intros c'. destruct (Z.eq_dec c' c) as [->|]; [|by apply Hz]. intros H. by rewrite H in E.
Qed.

Lemma cnt_perm c ns ns' : ns ≡ₚ ns' → cnt c ns = cnt c ns'.
Proof. intros H. unfold cnt. f_equal. induction H; simpl; repeat case_match; simpl; congruence || lia. Qed.
Lemma cnt_app c ns ns' : cnt c (ns ++ ns') = cnt c ns + cnt c ns'.
Proof. unfold cnt. rewrite List.filter_app, length_app. lia. Qed.

Lemma insert_node_perm n ns : insert_node n ns ≡ₚ n :: ns.
Proof.
  induction ns as [|n' ns IH]; simpl; [done|]. destruct (_ <=? _); [|done]. rewrite IH. apply Permutation_swap.
Qed.
Lemma insert_node_sorted n ns : StronglySorted (λ a b : node, start a.2 <= start b.2) ns → StronglySorted (λ a b : node, start a.2 <= start b.2) (insert_node n ns).
Proof.
  induction 1 as [|n' ns Hs IH Hf]; simpl; [by repeat constructor|]. destruct (Z.leb_spec (start n'.2) (start n.2)).
  - constructor; [done|]. rewrite insert_node_perm. by constructor.
  - constructor; [by constructor|]. constructor; [lia|]. eapply Forall_impl; [exact Hf|]. simpl. lia.
Qed.

Lemma elem_of_erase id ns n : n ∈ erase_node id ns ↔ n ∈ ns ∧ n.1 ≠ id.
Proof. unfold erase_node. rewrite !list_elem_of_In, filter_In, negb_true_iff, Z.eqb_neq. done. Qed.
Lemma erase_cons id n ns : erase_node id (n :: ns) = if n.1 =? id then erase_node id ns else n :: erase_node id ns.
Proof. unfold erase_node. simpl. by destruct (n.1 =? id). Qed.
Lemma resize_cons id len n ns :
  resize_node id len (n :: ns) = (if n.1 =? id then (n.1, set_range n.2 (start n.2) len) else n) :: resize_node id len ns.
Proof. done. Qed.
Lemma node_first (id i : Z) (l k : filelock) ns : NoDup ((i, k) :: ns).*1 → (id, l) ∈ (i, k) :: ns →
  (i = id ∧ k = l ∧ id ∉ ns.*1) ∨ (i ≠ id ∧ (id, l) ∈ ns).
Proof.
  intros [Hi _]%NoDup_cons [[= <- <-]|Hin]%elem_of_cons; [by left|right]. split; [|done].
  intros ->. apply Hi. by apply (list_elem_of_fmap_2 fst) in Hin.
Qed.
Lemma erase_node_fresh id ns : id ∉ ns.*1 → erase_node id ns = ns.
Proof.
  induction ns as [|n ns IH]; intros H; [done|]. rewrite erase_cons. apply not_elem_of_cons in H as [H1 H2].
  rewrite (proj2 (Z.eqb_neq _ _)) by congruence. by rewrite IH.
Qed.
Lemma erase_node_perm id l ns : NoDup ns.*1 → (id, l) ∈ ns → ns ≡ₚ (id, l) :: erase_node id ns.
Proof.
  induction ns as [|[i k] ns IH]; intros Hd Hin; [by apply not_elem_of_nil in Hin|]. rewrite erase_cons. simpl.
  destruct (node_first _ _ _ _ _ Hd Hin) as [(-> & -> & Hf)|[Hne Hin']]; [by rewrite Z.eqb_refl, erase_node_fresh|].
  rewrite (proj2 (Z.eqb_neq _ _)) by done. apply NoDup_cons in Hd as [_ Hd]. rewrite (IH Hd Hin') at 1. apply Permutation_swap.
Qed.
Lemma find_node_spec id l ns : NoDup ns.*1 → (id, l) ∈ ns → find_node id ns = Some l.
Proof.
  intros Hd Hin. unfold find_node. induction ns as [|[i k] ns IH]; [by apply not_elem_of_nil in Hin|].
  destruct (node_first _ _ _ _ _ Hd Hin) as [(-> & -> & Hf)|[Hne Hin']]; simpl; [by rewrite Z.eqb_refl|].
  rewrite (proj2 (Z.eqb_neq _ _)) by done. apply NoDup_cons in Hd as [_ Hd]. by apply IH.
Qed.
Lemma node_unique id old (ns : list node) n : NoDup ns.*1 → (id, old) ∈ ns → n ∈ ns → n.1 = id → n.2 = old.
Proof.
  intros Hd Hin Hn E. pose proof (find_node_spec id old ns Hd Hin) as H1. rewrite (find_node_spec id n.2) in H1; [congruence|done|].
  rewrite <- E. by destruct n.
Qed.
Lemma node_eq (ns : list node) n n' : NoDup ns.*1 → n ∈ ns → n' ∈ ns → n.1 = n'.1 → n = n'.
Proof. destruct n as [i l], n' as [j l']. simpl. intros Hd Hn Hn' E. subst j. f_equal. by apply (node_unique i l' ns (i, l)). Qed.
Lemma resize_fresh id len ns : id ∉ ns.*1 → resize_node id len ns = ns.
Proof.
  induction ns as [|n ns IH]; intros H; [done|]. rewrite resize_cons. apply not_elem_of_cons in H as [H1 H2].
  rewrite (proj2 (Z.eqb_neq _ _)) by congruence. by rewrite IH.
Qed.
Lemma resize_perm id l len ns : NoDup ns.*1 → (id, l) ∈ ns → resize_node id len ns ≡ₚ (id, set_range l (start l) len) :: erase_node id ns.
Proof.
  induction ns as [|[i k] ns IH]; intros Hd Hin; [by apply not_elem_of_nil in Hin|]. rewrite resize_cons, erase_cons. cbn [fst snd].
  destruct (node_first _ _ _ _ _ Hd Hin) as [(-> & -> & Hf)|[Hne Hin']]; [by rewrite Z.eqb_refl, resize_fresh, erase_node_fresh|].
  rewrite (proj2 (Z.eqb_neq _ _)) by done. apply NoDup_cons in Hd as [_ Hd]. rewrite (IH Hd Hin'). apply Permutation_swap.
Qed.
Lemma erase_node_sorted id ns : StronglySorted (λ a b : node, start a.2 <= start b.2) ns → StronglySorted (λ a b : node, start a.2 <= start b.2) (erase_node id ns).
Proof.
  induction 1 as [|n ns Hs IH Hf]; [constructor|]. rewrite erase_cons. destruct (n.1 =? id); [done|]. constructor; [done|].
  rewrite Forall_forall in *. intros b [Hb _]%elem_of_erase. by apply Hf.
Qed.
Lemma resize_node_sorted id len ns : StronglySorted (λ a b : node, start a.2 <= start b.2) ns → StronglySorted (λ a b : node, start a.2 <= start b.2) (resize_node id len ns).
Proof.
  induction 1 as [|n ns Hs IH Hf]; [constructor|]. rewrite resize_cons. constructor; [done|]. apply Forall_map. eapply Forall_impl; [exact Hf|].
  intros b Hb. simpl. destruct (n.1 =? id), (b.1 =? id); done.
Qed.

Lemma erase_perm_proper id ns ns' : ns ≡ₚ ns' → erase_node id ns ≡ₚ erase_node id ns'.
Proof. intros H. unfold erase_node. induction H; simpl; repeat case_match; (by constructor) || (by etrans) || done. Qed.

(** A lock is replaced by parts of it. *)
Record part (old : filelock) (l : filelock) : Prop := {
  part_ok : lock_ok l;
  part_client : client l = client old;
  part_owner : ∀ q, owner_equal l q = owner_equal old q;
  part_type : type l = type old;
  part_covers : ∀ x, covers l x → covers old x
}.
Record replaced (t : table) (id : Z) (old : filelock) (ps : list node) (t' : table) : Prop := {
  rep_nodes : nodes t' ≡ₚ ps ++ erase_node id (nodes t);
  rep_sorted : StronglySorted (λ a b : node, start a.2 <= start b.2) (nodes t');
  rep_fresh : fresh_id t <= fresh_id t';
  rep_nodup : NoDup ps.*1;
  rep_ids : ∀ p, p ∈ ps → p.1 = id ∨ fresh_id t <= p.1 < fresh_id t';
  rep_parts : ∀ p, p ∈ ps → part old p.2;
  rep_disjoint : ∀ p q, p ∈ ps → q ∈ ps → p.1 ≠ q.1 → ¬ overlap p.2 q.2;
  rep_keys : keys_sorted (counts t');
  rep_cnt : ∀ c, default 0 (map_find c (counts t')) = default 0 (map_find c (counts t)) + (if c =? client old then Z.of_nat (List.length ps) - 1 else 0);
  rep_nz : ∀ c, c ≠ client old → map_find c (counts t') ≠ Some 0
}.

Lemma rep_elem t id old ps t' n : replaced t id old ps t' → n ∈ nodes t' ↔ n ∈ ps ∨ n ∈ nodes t ∧ n.1 ≠ id.
Proof. intros H. by rewrite (rep_nodes _ _ _ _ _ H), elem_of_app, elem_of_erase. Qed.

Lemma cnt_parts old ps c : (∀ p, p ∈ ps → part old p.2) → cnt c ps = if c =? client old then Z.of_nat (List.length ps) else 0.
Proof.
  unfold cnt. induction ps as [|p ps IH]; intros H; [by destruct (c =? client old)|]. simpl.
  specialize (IH (λ q Hq, H q ltac:(by right))). rewrite (part_client _ _ (H p ltac:(left))), (Z.eqb_sym c). rewrite (Z.eqb_sym c) in IH.
  destruct (client old =? c); simpl; lia.
Qed.

Lemma replaced_ok t id old ps t' : table_ok t → (id, old) ∈ nodes t → replaced t id old ps t' → table_ok (t_drop t' (client old)).
Proof.
  intros [Hco Hfr Hk Hc Hz] Hin Hrep. pose proof (λ n, rep_elem _ _ _ _ _ n Hrep) as Hel. destruct Hrep as [Hn Hs Hf Hd Hids Hparts Hdis Hk' Hc' Hz'].
  pose proof Hco as [Cid Cs Cok Cconf]. apply drop_ok. split; try done.
  - split; [|done|..].
    + rewrite (fmap_Permutation fst _ _ Hn), fmap_app. apply NoDup_app. split; [done|]. split.
      * intros i (p & -> & Hp)%list_elem_of_fmap (q & Eq & [Hq Hne]%elem_of_erase)%list_elem_of_fmap. specialize (Hfr q Hq). destruct (Hids p Hp); [congruence|lia].
      * apply (NoDup_Permutation_proper _ _ (fmap_Permutation fst _ _ (erase_node_perm id old (nodes t) Cid Hin))) in Cid. by apply NoDup_cons in Cid as [_ ?].
    + intros n [Hp|[H _]]%Hel; [by apply (part_ok old), Hparts|by apply Cok].
    + assert (∀ p b, p ∈ ps → b ∈ nodes t → b.1 ≠ id → overlap p.2 b.2 →
        owner_equal p.2 b.2 = false ∧ type p.2 = CEPH_LOCK_SHARED ∧ type b.2 = CEPH_LOCK_SHARED) as Hpb.
      { intros p b Hp Hb Hne (x & H1 & H2). destruct (Hparts p Hp) as [_ _ Po Pt Pc]. rewrite Po, Pt. apply (Cconf (id, old) b Hin Hb); [simpl; congruence|]. exists x. auto. }
      intros a b [Ha|[Ha Hia]]%Hel [Hb|[Hb Hib]]%Hel Hne Hov.
      * by destruct (Hdis a b Ha Hb Hne).
      * by apply Hpb.
      * apply overlap_sym in Hov. destruct (Hpb b a Hb Ha Hia Hov) as (E & ? & ?). by rewrite owner_equal_sym.
      * by apply Cconf.
  - intros n [Hp|[H _]]%Hel; [destruct (Hids n Hp) as [->|]; [|lia]|]; [specialize (Hfr _ Hin)|specialize (Hfr _ H)]; simpl in *; lia.
  - intros c. rewrite Hc', Hc, (cnt_perm c _ _ Hn), cnt_app, (cnt_parts old ps c Hparts), (cnt_perm c _ _ (erase_node_perm id old (nodes t) Cid Hin)).
    change ((id, old) :: erase_node id (nodes t)) with ([(id, old)] ++ erase_node id (nodes t)). rewrite cnt_app. unfold cnt at 1. simpl. rewrite (Z.eqb_sym c).
    destruct (client old =? c); simpl; lia.
Qed.

(** ** Cutting a range out of a lock *)

(** The end of a merged lock is kept in an [int]. *)
Definition small (l : filelock) : Prop := start l <= 2 ^ 31 ∧ (length l = 0 ∨ start l + length l <= 2 ^ 31).

Definition left_part (old lock : filelock) : list filelock :=
  if start old <? start lock then [set_range old (start old) (start lock - start old)] else [].
Definition right_part (old lock : filelock) : list filelock :=
  if (length lock =? 0) then [] else
  let e := start lock + length lock in
  if length old =? 0 then [set_range old e 0]
  else if e <? start old + length old then [set_range old e (start old + length old - e)] else [].

Definition cut (t : table) (id : Z) (old lock : filelock) : table :=
  let t := match right_part old lock with r :: _ => t_insert t r | [] => t end in
  if start old <? start lock then t_resize t id (start lock - start old) else t_erase t id (client old).

Definition cut_parts (t : table) (id : Z) (old lock : filelock) : list node :=
  map (pair id) (left_part old lock) ++ map (pair (fresh_id t)) (right_part old lock).

Lemma cut_covers old lock x : lock_ok old → lock_ok lock → overlap old lock →
  Exists (λ l, covers l x) (left_part old lock ++ right_part old lock) ↔ covers old x ∧ ¬ covers lock x.
Proof.
  intros Ho Hl Hov. apply overlap_iff in Hov; [|done..]. destruct Ho as [Ho _], Hl as [Hl _]. unfold left_part, right_part.
  destruct (Z.ltb_spec (start old) (start lock)), (Z.eqb_spec (length lock) 0), (Z.eqb_spec (length old) 0);
    try (destruct (Z.ltb_spec (start lock + length lock) (start old + length old))); cbn [app];
    rewrite ?Exists_cons, ?Exists_nil; unfold covers; cbn [set_range start length]; lia.
Qed.

Lemma cut_part_ok old lock l : lock_ok old → lock_ok lock → overlap old lock → l ∈ left_part old lock ++ right_part old lock →
  part old l ∧ ¬ overlap l lock ∧ (small old → small lock → small l).
Proof.
  intros Ho Hl Hov Hin. assert (∃ s n, l = set_range old s n ∧ (0 <= s ∧ 0 <= n ∧ s + n < 2 ^ 63) ∧
    (small old → small lock → s <= 2 ^ 31 ∧ (n = 0 ∨ s + n <= 2 ^ 31))) as (s & n & -> & Hr & Hsm).
  { revert Hin. apply overlap_iff in Hov; [|done..]. destruct Ho as [Ho _], Hl as [Hl _]. unfold left_part, right_part.
    destruct (Z.ltb_spec (start old) (start lock)), (Z.eqb_spec (length lock) 0), (Z.eqb_spec (length old) 0);
    try (destruct (Z.ltb_spec (start lock + length lock) (start old + length old))); cbn [app];
    rewrite ?elem_of_cons, ?elem_of_nil; intros; destruct_or!; subst; try done; eexists _, _; (split; [done|unfold small; lia]). }
  assert (∀ x, covers (set_range old s n) x → covers old x ∧ ¬ covers lock x) as Hc.
  { intros x Hx. apply cut_covers; [done..|]. apply Exists_exists. eexists. split; [exact Hin|exact Hx]. }
  split; [|split; [|exact Hsm]].
  - split; cbn [set_range client type]; try done; [split; [done|apply Ho]|]. intros x Hx. by apply Hc.
  - intros (x & H1%Hc & H2). tauto.
Qed.

Lemma cut_parts_disjoint old lock a b : lock_ok old → lock_ok lock → overlap old lock →
  a ∈ left_part old lock → b ∈ right_part old lock → ¬ overlap a b.
Proof.
  intros Ho Hl Hov. apply overlap_iff in Hov; [|done..]. destruct Ho as [Ho _], Hl as [Hl _]. unfold left_part, right_part.
  destruct (Z.ltb_spec (start old) (start lock)); [|by intros ?%not_elem_of_nil]. intros ->%list_elem_of_singleton.
  destruct (Z.eqb_spec (length lock) 0); [by intros ?%not_elem_of_nil|].
  destruct (Z.eqb_spec (length old) 0); [|destruct (Z.ltb_spec (start lock + length lock) (start old + length old)); [|by intros ?%not_elem_of_nil]];
    intros ->%list_elem_of_singleton (x & H1 & H2); unfold covers in *; cbn [set_range start length] in *; lia.
Qed.

Lemma right_part_single old lock : right_part old lock = [] ∨ ∃ r, right_part old lock = [r].
Proof. unfold right_part. repeat case_match; eauto. Qed.

Lemma count_add_find c d m c' : default 0 (map_find c' (count_add c d m)) = default 0 (map_find c' m) + (if c' =? c then d else 0).
Proof. unfold count_add. rewrite map_find_set. destruct (Z.eqb_spec c' c) as [->|]; simpl; lia. Qed.
Lemma count_add_other c d m c' : c' ≠ c → map_find c' (count_add c d m) = map_find c' m.
Proof. intros H. unfold count_add. rewrite map_find_set. by rewrite (proj2 (Z.eqb_neq _ _)). Qed.

(** The node is shortened or erased. *)
Lemma shrink_replaced t id old lock n : NoDup (nodes t).*1 → StronglySorted (λ a b : node, start a.2 <= start b.2) (nodes t) → (id, old) ∈ nodes t →
  n = start lock - start old → let t' := if start old <? start lock then t_resize t id n else t_erase t id (client old) in
  nodes t' ≡ₚ map (pair id) (left_part old lock) ++ erase_node id (nodes t) ∧ StronglySorted (λ a b : node, start a.2 <= start b.2) (nodes t') ∧
  fresh_id t' = fresh_id t ∧ (keys_sorted (counts t) → keys_sorted (counts t')) ∧
  (∀ c, default 0 (map_find c (counts t')) = default 0 (map_find c (counts t)) + (if c =? client old then Z.of_nat (List.length (left_part old lock)) - 1 else 0)) ∧
  (∀ c, c ≠ client old → map_find c (counts t') = map_find c (counts t)).
Proof.
  intros Hd Hs Hin En t'. unfold t', left_part. destruct (start old <? start lock); cbn [t_resize t_erase nodes fresh_id counts map].
  - subst n. split; [by apply resize_perm|]. split_and!; try done; [by apply resize_node_sorted|]. intros c. destruct (c =? client old); simpl; lia.
  - split_and!; try done; [by apply erase_node_sorted|by apply map_set_sorted|intros c; rewrite count_add_find; destruct (c =? client old); simpl; lia|].
    intros c Hc. by rewrite count_add_other.
Qed.

Lemma cut_replaced t id old lock : table_ok t → (id, old) ∈ nodes t → lock_ok lock → overlap old lock →
  replaced t id old (cut_parts t id old lock) (cut t id old lock).
Proof.
  intros [Hco Hfr Hk Hc Hz] Hin Hl Hov. pose proof Hco as [Cid Cs Cok _]. pose proof (Cok _ Hin) as Ho. simpl in Ho. pose proof (Hfr _ Hin) as Hlt. simpl in Hlt.
  unfold cut, cut_parts. set (t1 := match right_part old lock with r :: _ => _ | [] => _ end).
  assert (nodes t1 ≡ₚ map (pair (fresh_id t)) (right_part old lock) ++ nodes t ∧ StronglySorted (λ a b : node, start a.2 <= start b.2) (nodes t1) ∧
    fresh_id t1 = fresh_id t + Z.of_nat (List.length (right_part old lock)) ∧ keys_sorted (counts t1) ∧
    (∀ c, default 0 (map_find c (counts t1)) = default 0 (map_find c (counts t)) + (if c =? client old then Z.of_nat (List.length (right_part old lock)) else 0)) ∧
    (∀ c, c ≠ client old → map_find c (counts t1) = map_find c (counts t))) as (N1 & S1 & F1 & K1 & C1 & Z1).
  { unfold t1. destruct (right_part_single old lock) as [E|[r E]]; rewrite E; simpl.
    - split_and!; try done; [lia|]. intros c. destruct (c =? client old); lia.
    - assert (client r = client old) as Er by (apply (part_client old r), (cut_part_ok old lock); [done..|]; rewrite E; apply elem_of_app; right; left).
      rewrite Er. split_and!; [apply insert_node_perm|by apply insert_node_sorted|lia|by apply map_set_sorted|apply count_add_find|intros c Hne; by apply count_add_other]. }
  assert (fresh_id t ∉ (nodes t).*1) as Hff by (intros (n & E & Hn)%list_elem_of_fmap; specialize (Hfr n Hn); lia).
  assert (NoDup (map (pair (fresh_id t)) (right_part old lock)).*1) as Hrd.
  { destruct (right_part_single old lock) as [E|[r E]]; rewrite E; simpl; [constructor|apply NoDup_singleton]. }
  assert (∀ i, i ∈ (map (pair (fresh_id t)) (right_part old lock)).*1 → i = fresh_id t) as Hri.
  { intros i (p & -> & Hp)%list_elem_of_fmap. apply list_elem_of_fmap in Hp as (r & -> & _). done. }
  destruct (shrink_replaced t1 id old lock (start lock - start old)) as (N2 & S2 & F2 & K2 & C2 & Z2); [|done| |done|].
  { rewrite (fmap_Permutation fst _ _ N1), fmap_app. apply NoDup_app. split; [done|]. split; [|done]. intros i ->%Hri. done. }
  { rewrite N1. apply elem_of_app. by right. }
  set (t2 := if start old <? start lock then _ else _) in *. split.
  - rewrite N2, (erase_perm_proper id _ _ N1), <- app_assoc. apply Permutation_app_head. unfold erase_node at 1. rewrite List.filter_app. apply Permutation_app_tail.
    destruct (right_part_single old lock) as [E|[r E]]; rewrite E; simpl; [done|]. by rewrite (proj2 (Z.eqb_neq _ _)) by lia.
  - done.
  - lia.
  - rewrite fmap_app. apply NoDup_app. split; [unfold left_part; destruct (_ <? _); simpl; [apply NoDup_singleton|constructor]|]. split; [|done].
    intros i (p & -> & Hp)%list_elem_of_fmap Hr%Hri. apply list_elem_of_fmap in Hp as (r & -> & _). simpl in Hr. lia.
  - intros p [Hp|Hp]%elem_of_app; apply list_elem_of_fmap in Hp as (r & -> & Hr); [by left|right]. simpl. rewrite F2, F1.
    destruct (right_part old lock); [by apply not_elem_of_nil in Hr|simpl; lia].
  - intros p [Hp|Hp]%elem_of_app; apply list_elem_of_fmap in Hp as (r & -> & Hr); apply (cut_part_ok old lock); try done; apply elem_of_app; auto.
  - assert (∀ a b, a ∈ left_part old lock → b ∈ right_part old lock → ¬ overlap a b) as Hlr by (intros a c Ha Hc'; by apply (cut_parts_disjoint old lock)).
    assert (∀ a b, a ∈ left_part old lock → b ∈ right_part old lock → ¬ overlap b a) as Hrl by (intros a c Ha Hc'; rewrite overlap_sym; by apply Hlr).
    intros p q [Hp|Hp]%elem_of_app [Hq|Hq]%elem_of_app; apply list_elem_of_fmap in Hp as (r & -> & Hr); apply list_elem_of_fmap in Hq as (r' & -> & Hr'); simpl; auto; done.
  - by apply K2.
  - intros c. rewrite C2, C1, length_app, !length_map. destruct (c =? client old); lia.
  - intros c Hne. rewrite Z2, Z1 by done. apply Hz.
Qed.

(** What cutting the range of [lock] out of node [id] means. *)
Record cut_done (t : table) (id : Z) (old lock : filelock) (t' : table) : Prop := {
  cd_ok : table_ok t';
  cd_keep : ∀ n, n ∈ nodes t → n.1 ≠ id → n ∈ nodes t';
  cd_from : ∀ n, n ∈ nodes t' → n ∈ nodes t ∧ n.1 ≠ id ∨ part old n.2 ∧ ¬ overlap n.2 lock ∧ (small old → small lock → small n.2);
  cd_rest : ∀ x, covers old x → ¬ covers lock x → ∃ n, n ∈ nodes t' ∧ part old n.2 ∧ covers n.2 x;
  cd_fresh : fresh_id t <= fresh_id t'
}.

Lemma cut_ok t id old lock : table_ok t → (id, old) ∈ nodes t → lock_ok lock → overlap old lock →
  cut_done t id old lock (t_drop (cut t id old lock) (client old)).
Proof.
  intros Ht Hin Hl Hov. pose proof (co_ok _ (tab_co _ Ht) _ Hin) as Ho. simpl in Ho. pose proof (cut_replaced t id old lock Ht Hin Hl Hov) as Hrep.
  pose proof (λ n, rep_elem _ _ _ _ _ n Hrep) as Hel. pose proof Hrep as [_ _ Hf _ Hids Hparts _ _ _ _].
  assert (∀ n, n ∈ cut_parts t id old lock → ∃ l, n.2 = l ∧ l ∈ left_part old lock ++ right_part old lock) as Hcp.
  { intros n [Hn|Hn]%elem_of_app; apply list_elem_of_fmap in Hn as (l & -> & Hl'); exists l; (split; [done|]); apply elem_of_app; auto. }
  split; cbn [t_drop nodes fresh_id].
  - by apply (replaced_ok t id old (cut_parts t id old lock)).
  - intros n Hn Hne. apply Hel. by right.
  - intros n [Hn|Hn]%Hel; [right|by left]. destruct (Hcp n Hn) as (l & -> & Hl'). by apply (cut_part_ok old lock).
  - intros x Hx Hnx. pose proof (proj2 (cut_covers old lock x Ho Hl Hov) (conj Hx Hnx)) as (l & Hl' & Hc)%Exists_exists.
    assert (∃ i, (i, l) ∈ cut_parts t id old lock) as (i & Hi).
    { unfold cut_parts. apply elem_of_app in Hl' as [H|H]; [exists id|exists (fresh_id t)]; apply elem_of_app; [left|right]; apply list_elem_of_fmap; by exists l. }
    exists (i, l). split; [apply Hel; by left|]. split; [by apply (Hparts (i, l))|done].
  - done.
Qed.

(** Erasing a node. *)
Lemma table_erase_ok t id old : table_ok t → (id, old) ∈ nodes t →
  let t' := t_drop (t_erase t id (client old)) (client old) in
  table_ok t' ∧ (∀ n, n ∈ nodes t' ↔ n ∈ nodes t ∧ n.1 ≠ id) ∧ fresh_id t' = fresh_id t.
Proof.
  intros Ht Hin t'. pose proof Ht as [Hco Hfr Hk Hc Hz]. split; [|split; [intros n; apply elem_of_erase|done]].
  apply (replaced_ok t id old []); [done..|]. split; cbn [t_erase nodes fresh_id counts]; try done.
  - apply erase_node_sorted, Hco.
  - constructor.
  - by intros p ?%not_elem_of_nil.
  - by intros p ?%not_elem_of_nil.
  - by intros p q ?%not_elem_of_nil.
  - by apply map_set_sorted.
  - intros c. rewrite count_add_find. destruct (c =? client old); simpl; lia.
  - intros c Hne. rewrite count_add_other by done. apply Hz.
Qed.

(** ** Removing a lock *)

Lemma remove_old_eq t id old lock : table_ok t → (id, old) ∈ nodes t → lock_ok lock → overlap old lock →
  remove_old lock t id = Ok (t_drop (cut t id old lock) (client old)).
Proof.
  intros Ht Hin Hl Hov. pose proof (co_ok _ (tab_co _ Ht) _ Hin) as Ho. simpl in Ho. apply overlap_iff in Hov; [|done..]. destruct Ho as [Ho _], Hl as [Hl _].
  unfold remove_old. rewrite (find_node_spec id old) by (done || apply Ht). cbn [deref bind]. do 2 f_equal. unfold cut, right_part. cbv zeta.
  rewrite (u64_small (start lock + _)), (u64_small (start old + _)) by lia.
  destruct (Z.eqb_spec (length lock) 0) as [E|E]; [destruct (Z.ltb_spec (start old) (start lock)); [rewrite u64_small by lia|]; done|].
  rewrite (u64_small (start lock + length lock - 1)), (u64_small (start lock + length lock - 1 + 1)) by lia.
  replace (start lock + length lock - 1 + 1) with (start lock + length lock) by lia.
  assert (∀ t, (if start old <? start lock then t_resize t id (u64 (start lock - start old)) else t_erase t id (client old)) =
    (if start old <? start lock then t_resize t id (start lock - start old) else t_erase t id (client old))) as Hs
    by (intros t0; destruct (Z.ltb_spec (start old) (start lock)); [rewrite u64_small by lia|]; done).
  rewrite !Hs. destruct (Z.eqb_spec (length old) 0) as [E'|E']; [by rewrite E'|].
  rewrite (u64_small (start old + length old - 1)) by lia.
  replace (start lock + length lock - 1 <? start old + length old - 1) with (start lock + length lock <? start old + length old)
    by (destruct (Z.ltb_spec (start lock + length lock) (start old + length old)), (Z.ltb_spec (start lock + length lock - 1) (start old + length old - 1)); lia).
  destruct (Z.ltb_spec (start lock + length lock) (start old + length old)); [|done]. rewrite (u64_small (_ - _ - _)), u64_small by lia.
  by replace (start old + length old - 1 - (start lock + length lock) + 1) with (start old + length old - (start lock + length lock)) by lia.
Qed.

(** The owner of [o] holds a lock of type [ty] on byte [x]. *)
Definition holds (ns : list node) (o : filelock) (x ty : Z) : Prop :=
  ∃ n, n ∈ ns ∧ owner_equal n.2 o = true ∧ covers n.2 x ∧ type n.2 = ty.

Lemma cut_other t id old lock t' n : cut_done t id old lock t' → (id, old) ∈ nodes t → NoDup (nodes t).*1 → owner_equal old lock = true → owner_equal n.2 lock = false →
  n ∈ nodes t' ↔ n ∈ nodes t.
Proof.
  intros [_ Hk Hf _ _] Hin Hd Ho Hn. split.
  - intros [[? _]|(Hp & _)]%Hf; [done|]. rewrite (part_owner _ _ Hp) in Hn. congruence.
  - intros H. apply Hk; [done|]. intros <-. rewrite (node_unique n.1 old (nodes t) n) in Hn by done. congruence.
Qed.

Lemma cut_holds t id old lock t' x ty : cut_done t id old lock t' → (id, old) ∈ nodes t → NoDup (nodes t).*1 → owner_equal old lock = true → ¬ covers lock x →
  holds (nodes t') lock x ty ↔ holds (nodes t) lock x ty.
Proof.
  intros [_ Hk Hf Hr _] Hin Hd Ho Hx. split.
  - intros (n & Hn & Hon & Hc & Ety). apply Hf in Hn as [[Hn _]|(Hp & _)]; [by exists n|]. exists (id, old). split; [done|]. split; [done|].
    split; [by apply (part_covers _ _ Hp)|rewrite <- Ety; symmetry; by apply part_type].
  - intros (n & Hn & Hon & Hc & Ety). destruct (Z.eq_dec n.1 id) as [E|Hne]; [|exists n; auto].
    rewrite (node_unique id old (nodes t) n) in * by done. destruct (Hr x Hc Hx) as (n' & Hn' & Hp & Hc'). exists n'. split; [done|]. split; [by rewrite (part_owner _ _ Hp)|]. split; [done|by rewrite (part_type _ _ Hp)].
Qed.

Lemma remove_loop_ok lock : lock_ok lock → ∀ ids t, table_ok t → NoDup ids →
  (∀ id, id ∈ ids → ∃ old, (id, old) ∈ nodes t ∧ owner_equal old lock = true ∧ overlap old lock) →
  (∀ n, n ∈ nodes t → owner_equal n.2 lock = true → overlap n.2 lock → n.1 ∈ ids) →
  ∃ t', remove_loop lock t ids = Ok t' ∧ table_ok t' ∧ (∀ n, owner_equal n.2 lock = false → n ∈ nodes t' ↔ n ∈ nodes t) ∧
    ∀ x ty, holds (nodes t') lock x ty ↔ holds (nodes t) lock x ty ∧ ¬ covers lock x.
Proof.
  intros Hl. induction ids as [|id ids IH]; intros t Ht Hd Hids Hall.
  { exists t. split; [done|]. split; [done|]. split; [done|]. intros x ty. split; [|tauto]. intros H. split; [done|]. intros Hx.
    destruct H as (n & Hn & Ho & Hc & _). by apply (not_elem_of_nil n.1), Hall; [..|exists x]. }
  apply NoDup_cons in Hd as [Hid Hd]. destruct (Hids id ltac:(left)) as (old & Hin & Ho & Hov). cbn [remove_loop].
  rewrite (remove_old_eq t id old) by done. cbn [bind]. pose proof (cut_ok t id old lock Ht Hin Hl Hov) as Hcut. set (t1 := t_drop _ _) in *.
  pose proof Hcut as [Hok1 Hk Hf _ _]. pose proof (co_ids _ (tab_co _ Ht)) as Hnd. destruct (IH t1) as (t' & E & Ht' & Hoth & Hh); [done|done|..].
  - intros i Hi. destruct (Hids i ltac:(by right)) as (old' & Hin' & ? & ?). exists old'. split; [|done]. apply Hk; [done|]. simpl. congruence.
  - intros n [[Hn Hne]|(_ & Hno & _)]%Hf Hon Hov'; [|done]. pose proof (Hall n Hn Hon Hov') as Hi. apply elem_of_cons in Hi as [|]; done.
  - exists t'. split; [done|]. split; [done|]. split.
    + intros n Hn. rewrite Hoth by done. by apply (cut_other t id old lock t1).
    + intros x ty. rewrite Hh. split; intros [H Hx]; (split; [|done]); by apply (cut_holds t id old lock t1).
Qed.

(** ** Setting a lock *)

Definition join (new old : filelock) : filelock :=
  let s := Z.min (start new) (start old) in
  set_range new s (if (length new =? 0) || (length old =? 0) then 0 else Z.max (start new + length new) (start old + length old) - s).

Lemma adjust_old_same t id old new : table_ok t → (id, old) ∈ nodes t → lock_ok new → small old → small new → type old = type new → 
  adjust_old (length new =? 0) t new id = Ok (t_drop (t_erase t id (client old)) (client old), join new old).
Proof.
  intros Ht Hin [Hl _] Hs1 Hs2 Ety. pose proof (co_ok _ (tab_co _ Ht) _ Hin) as [Ho _]. simpl in Ho.
  unfold adjust_old. rewrite (find_node_spec id old) by (done || apply Ht). cbn [deref bind]. unfold join, small in *. rewrite Ety, Z.eqb_refl.
  rewrite (u64_small (start old + _)), (u64_small (start new + _)) by lia.
  replace (if start new <? start old then start new else start old) with (Z.min (start new) (start old)) by (destruct (Z.ltb_spec (start new) (start old)); lia).
  destruct (Z.eqb_spec (length new) 0) as [E|E]; simpl; [done|]. destruct (Z.eqb_spec (length old) 0) as [E'|E']; simpl; [done|].
  replace (if start old <? start new then start old else start new) with (Z.min (start new) (start old)) by (destruct (Z.ltb_spec (start old) (start new)); lia).
  rewrite (u64_small (start old + length old - 1)), (u64_small (start new + length new - 1)) by lia.
  set (m := if _ <? _ then start new + length new - 1 else _).
  assert (m = Z.max (start new + length new) (start old + length old) - 1) as Em
    by (unfold m; destruct (Z.ltb_spec (start old + length old - 1) (start new + length new - 1)); lia).
  rewrite s32_small, (u64_small m), (u64_small (m - _)), u64_small by lia. do 3 f_equal. lia.
Qed.

Lemma adjust_old_other t id old new : table_ok t → (id, old) ∈ nodes t → lock_ok new → overlap old new → type old ≠ type new →
  adjust_old (length new =? 0) t new id = Ok (t_drop (cut t id old new) (client old), new).
Proof.
  intros Ht Hin Hl Hov Hty. pose proof (co_ok _ (tab_co _ Ht) _ Hin) as Ho. simpl in Ho. apply overlap_iff in Hov; [|done..]. destruct Ho as [Ho _], Hl as [Hl _].
  unfold adjust_old. rewrite (find_node_spec id old) by (done || apply Ht). cbn [deref bind]. rewrite (proj2 (Z.eqb_neq _ _) Hty). unfold cut, right_part. cbv zeta.
  rewrite (u64_small (start new + _)), (u64_small (start old + _)) by lia.
  assert (∀ t, (if start old <? start new then t_resize t id (u64 (start new - start old)) else t_erase t id (client old)) =
    (if start old <? start new then t_resize t id (start new - start old) else t_erase t id (client old))) as Hs
    by (intros t0; destruct (Z.ltb_spec (start old) (start new)); [rewrite u64_small by lia|]; done).
  rewrite !Hs. destruct (Z.eqb_spec (length new) 0) as [E|E]; cbn [orb]; cbv beta iota; [done|].
  rewrite (u64_small (start new + length new - 1)), (u64_small (start new + length new - 1 + 1)) by lia.
  replace (start new + length new - 1 + 1) with (start new + length new) by lia.
  destruct (Z.eqb_spec (length old) 0) as [E'|E']; cbv beta iota; [by rewrite E'|].
  rewrite (u64_small (start old + length old - 1)) by lia.
  replace (start new + length new - 1 <? start old + length old - 1) with (start new + length new <? start old + length old)
    by (destruct (Z.ltb_spec (start new + length new) (start old + length old)), (Z.ltb_spec (start new + length new - 1) (start old + length old - 1)); lia).
  destruct (Z.ltb_spec (start new + length new) (start old + length old)); [|done]. rewrite (u64_small (_ - _ - _)), u64_small by lia.
  by replace (start old + length old - 1 - (start new + length new) + 1) with (start old + length old - (start new + length new)) by lia.
Qed.

Lemma join_lock_ok new old : lock_ok new → lock_ok old → lock_ok (join new old).
Proof.
  intros [Hn Ht] [Ho _]. split; [|done]. unfold join. cbn [set_range start length].
  destruct (Z.eqb_spec (length new) 0), (Z.eqb_spec (length old) 0); simpl; lia.
Qed.
Lemma join_small new old : small new → small old → lock_ok new → lock_ok old → small (join new old).
Proof.
  unfold small, join. cbn [set_range start length]. intros Hn Ho [? _] [? _].
  destruct (Z.eqb_spec (length new) 0), (Z.eqb_spec (length old) 0); simpl; lia.
Qed.
(** The two ranges overlap or touch. *)
Definition touching (a b : filelock) : Prop := (length a = 0 ∨ start b <= start a + length a) ∧ (length b = 0 ∨ start a <= start b + length b).
Lemma join_covers new old x : lock_ok new → lock_ok old → touching new old → covers (join new old) x ↔ covers new x ∨ covers old x.
Proof.
  intros [Hn _] [Ho _] Ht. unfold touching in Ht. unfold join, covers. cbn [set_range start length].
  destruct (Z.eqb_spec (length new) 0), (Z.eqb_spec (length old) 0); simpl; lia.
Qed.
Lemma overlap_touching a b : lock_ok a → lock_ok b → overlap a b → touching a b.
Proof. intros Ha Hb Hov. apply overlap_iff in Hov; [|done..]. unfold touching. lia. Qed.

Lemma holds_owner ns a b x ty : owner_equal a b = true → holds ns a x ty ↔ holds ns b x ty.
Proof.
  intros H. unfold holds. split; intros (n & Hn & Ho & ?); exists n; (split; [done|]; split; [|done]).
  - apply (owner_same n.2 b a); [done|by rewrite owner_equal_sym].
  - by apply (owner_same n.2 a b).
Qed.

Section Adjust.
Context (t0 : table) (lock0 : filelock).

(** The locks of the owner once [new] is set. *)
Definition view (t : table) (new : filelock) (x ty : Z) : Prop :=
  covers new x ∧ ty = type lock0 ∨ ¬ covers new x ∧ holds (nodes t) lock0 x ty.

(** [R] are the overlapping locks that are left to do, [K] those that are done. *)
Record adjusting (K : list Z) (t : table) (new : filelock) (R : list Z) : Prop := {
  ad_ok : table_ok t;
  ad_new : lock_ok new;
  ad_same : ∀ q, owner_equal new q = owner_equal lock0 q;
  ad_type : type new = type lock0 ∧ client new = client lock0;
  ad_small : small new ∧ ∀ n, n ∈ nodes t → owner_equal n.2 lock0 = true → small n.2;
  ad_nodup : NoDup R;
  ad_in : ∀ id, id ∈ R → ∃ old, (id, old) ∈ nodes t ∧ owner_equal old lock0 = true ∧ overlap old new;
  ad_all : ∀ n, n ∈ nodes t → owner_equal n.2 lock0 = true → overlap n.2 new → n.1 ∈ R;
  ad_others : ∀ n, owner_equal n.2 lock0 = false → n ∈ nodes t ↔ n ∈ nodes t0;
  ad_conf : ∀ n, n ∈ nodes t0 → owner_equal n.2 lock0 = false → overlap n.2 new → type n.2 = CEPH_LOCK_SHARED ∧ type lock0 = CEPH_LOCK_SHARED;
  ad_sub : ∀ x, covers lock0 x → covers new x;
  ad_keep : ∀ n, n ∈ nodes t0 → n.1 ∉ K → n ∈ nodes t;
  ad_view : ∀ x ty, view t new x ty ↔ view t0 lock0 x ty
}.

(** A lock of the owner and of the same type becomes part of the new one. *)
Lemma merge_step K t new R id old : adjusting K t new R → (id, old) ∈ nodes t → owner_equal old lock0 = true → type old = type new → touching new old →
  adjusting (id :: K) (t_drop (t_erase t id (client old)) (client old)) (join new old) (List.filter (λ i, negb (i =? id)) R).
Proof.
  intros [Aok Anew Asame Aty Asm And Ain Aall Aoth Aconf Asub Akeep Aview] Hin Ho Ety Htou. pose proof (co_ok _ (tab_co _ Aok) _ Hin) as Hold. simpl in Hold.
  destruct (table_erase_ok t id old Aok Hin) as (Hok' & Hn' & _). set (t' := t_drop _ _) in *. pose proof (λ x, join_covers new old x Anew Hold Htou) as Hjc.
  pose proof (tab_co _ Aok) as [Cid _ Cok Cconf].
  assert (∀ n, n ∈ nodes t → n.1 ≠ id → owner_equal n.2 lock0 = true → ¬ overlap n.2 old) as Hdis.
  { intros n Hn Hne Hon Hov. destruct (Cconf n (id, old) Hn Hin Hne Hov) as [C _]. simpl in C. rewrite (owner_same n.2 old lock0) in C; done. }
  split; try done.
  - by apply join_lock_ok.
  - split; [by apply join_small; [apply Asm|apply (proj2 Asm (id, old))|..]|]. intros n [Hn _]%Hn' Hon. by apply Asm.
  - by apply NoDup_ListNoDup, List.NoDup_filter, NoDup_ListNoDup.
  - intros i [Hi Hne]%list_elem_of_In%filter_In. apply list_elem_of_In in Hi. apply negb_true_iff, Z.eqb_neq in Hne.
    destruct (Ain i Hi) as (o & Hio & ? & (x & H1 & H2)). exists o. split; [by apply Hn'|]. split; [done|]. exists x. split; [done|]. apply Hjc. by left.
  - intros n [Hn Hne]%Hn' Hon (x & H1 & [H2|H2]%Hjc); [|destruct (Hdis n Hn Hne Hon); by exists x].
    apply list_elem_of_In, filter_In. split; [apply list_elem_of_In, Aall; [done..|by exists x]|]. by apply negb_true_iff, Z.eqb_neq.
  - intros n Hon. rewrite Hn', <- Aoth by done. split; [tauto|]. intros Hn. split; [done|]. intros E.
    rewrite (node_unique id old (nodes t) n) in Hon by done. congruence.
  - intros n Hn Hon (x & H1 & [H2|H2]%Hjc); [apply Aconf; [done..|by exists x]|].
    apply (Aoth n Hon) in Hn as Hnt. destruct (Cconf n (id, old) Hnt Hin) as (_ & ? & E); [|by exists x|].
    + intros E. simpl in E. rewrite (node_unique id old (nodes t) n) in Hon by done. congruence.
    + simpl in E. split; [done|]. rewrite <- (proj1 Aty), <- Ety. done.
  - intros x Hx. apply Hjc. left. by apply Asub.
  - intros n Hn [Hne Hnr]%not_elem_of_cons. apply Hn'. by split; [apply Akeep|].
  - intros x ty. rewrite <- Aview. unfold view. rewrite Hjc. split.
    + intros [[[Hx|Hx] ->]|[Hx (n & [Hn _]%Hn' & H)]]; [by left|..].
      * destruct (decide (covers new x)) as [|Hnx]; [by left|right]. split; [done|]. exists (id, old). simpl. rewrite Ety. by split_and!; [..|apply Aty].
      * right. split; [tauto|]. by exists n.
    + intros [[Hx ->]|[Hx (n & Hn & Hon & Hc & Et)]]; [left; auto|]. destruct (Z.eq_dec n.1 id) as [E|Hne].
      * rewrite (node_unique id old (nodes t) n) in * by done. left. split; [by right|]. rewrite <- Et, Ety. apply Aty.
      * right. split; [|exists n; split_and!; try done; by apply Hn']. intros [|Ho']; [done|]. destruct (Hdis n Hn Hne Hon). by exists x.
Qed.

(** A lock of the owner and of the other type makes room for the new one. *)
Lemma cut_step K t new R id old : adjusting K t new R → (id, old) ∈ nodes t → owner_equal old lock0 = true → overlap old new →
  adjusting (id :: K) (t_drop (cut t id old new) (client old)) new (List.filter (λ i, negb (i =? id)) R).
Proof.
  intros [Aok Anew Asame Aty Asm And Ain Aall Aoth Aconf Asub Akeep Aview] Hin Ho Hov. pose proof (co_ok _ (tab_co _ Aok) _ Hin) as Hold. simpl in Hold.
  pose proof (cut_ok t id old new Aok Hin Anew Hov) as Hcut. set (t' := t_drop _ _) in *. pose proof Hcut as [Cok Ck Cf Cr _].
  pose proof (co_ids _ (tab_co _ Aok)) as Cid. assert (∀ n : node, owner_equal n.2 new = owner_equal n.2 lock0) as Hsame by (intros n; rewrite owner_equal_sym, Asame; apply owner_equal_sym).
  assert (owner_equal old new = true) as Ho' by (rewrite owner_equal_sym, Asame, owner_equal_sym; done).
  split; try done.
  - split; [apply Asm|]. intros n [[Hn _]|(_ & _ & Hs)]%Cf Hon; [by apply Asm|]. apply Hs; [by apply (proj2 Asm (id, old))|apply Asm].
  - by apply NoDup_ListNoDup, List.NoDup_filter, NoDup_ListNoDup.
  - intros i [Hi Hne]%list_elem_of_In%filter_In. apply list_elem_of_In in Hi. apply negb_true_iff, Z.eqb_neq in Hne.
    destruct (Ain i Hi) as (o & Hio & ? & ?). exists o. split; [by apply Ck|done].
  - intros n [[Hn Hne]|(_ & Hno & _)]%Cf Hon Hov'; [|done].
    apply list_elem_of_In, filter_In. split; [by apply list_elem_of_In, Aall|]. by apply negb_true_iff, Z.eqb_neq.
  - intros n Hon. rewrite <- Aoth by done. apply (cut_other t id old new); try done. by rewrite Hsame.
  - intros n Hn [Hne Hnr]%not_elem_of_cons. by apply Ck; [apply Akeep|].
  - intros x ty. rewrite <- Aview. unfold view. assert (¬ covers new x → holds (nodes t') lock0 x ty ↔ holds (nodes t) lock0 x ty) as Hh; [|tauto].
    intros Hx. rewrite <- !(holds_owner _ new lock0) by (rewrite Asame; apply owner_equal_refl). by apply (cut_holds t id old new).
Qed.

(** The locks are done in the order of their starts, so that only the last one has no end: as
    long as a lock is left to do, the new one reaches to the end if and only if it did at first. *)
Definition ended (i : Z) : Prop := ∀ old, (i, old) ∈ nodes t0 → length old ≠ 0.

Lemma adjust_old_loop to_end R : ∀ K t new, adjusting K t new R → StronglySorted (λ i _, ended i) R →
  (∀ i, i ∈ R → (i ∉ K) ∧ i ∈ (nodes t0).*1) → R = [] ∨ to_end = (length new =? 0) →
  ∃ t' new', adjust_loop (adjust_old to_end) t new R = Ok (t', new') ∧ adjusting (reverse R ++ K) t' new' [].
Proof.
  induction R as [|id R IH]; intros K t new Had Hso HR Hend; [by exists t, new|]. destruct Hend as [Hend|Hend]; [done|subst to_end]. pose proof Had as [Aok Anew Asame Aty Asm And Ain Aall _ _ _ _ _].
  destruct (Ain id ltac:(left)) as (old & Hin & Ho & Hov). apply NoDup_cons in And as [Hid And].
  assert (List.filter (λ i, negb (i =? id)) (id :: R) = R) as EF.
  { simpl. rewrite Z.eqb_refl. simpl. clear -Hid. induction R as [|i R IH]; [done|]. apply not_elem_of_cons in Hid as [H1 H2]. simpl.
    rewrite (proj2 (Z.eqb_neq _ _)) by congruence. simpl. by rewrite IH. }
  cbn [adjust_loop]. rewrite reverse_cons, <- app_assoc. simpl. pose proof (co_ok _ (tab_co _ Aok) _ Hin) as Hold. simpl in Hold.
  apply StronglySorted_inv in Hso as [Hso Hlast].
  assert (∀ i, i ∈ R → (i ∉ id :: K) ∧ i ∈ (nodes t0).*1) as HR'.
  { intros i Hi. destruct (HR i ltac:(by right)). split; [|done]. apply not_elem_of_cons. split; [by intros ->|done]. }
  destruct (Z.eq_dec (type old) (type new)) as [Ety|Hty].
  - rewrite (adjust_old_same t id old new) by (done || apply Asm || by apply (proj2 Asm (id, old))). cbn [bind]. apply IH; [|done..|].
    + rewrite <- EF. apply merge_step; try done. apply overlap_touching; [done..|by apply overlap_sym].
    + destruct R as [|j R]; [by left|right]. apply Forall_cons in Hlast as [Hne _]. destruct (HR id ltac:(left)) as [HK ([i o] & -> & Hin0)%list_elem_of_fmap].
      pose proof (ad_keep _ _ _ _ Had _ Hin0 HK) as Hino. rewrite <- (node_unique i o (nodes t) (i, old)) in Hin0 by (done || apply Aok).
      apply Hne in Hin0. unfold join. cbn [set_range length]. clear -Hin0 Hold Anew Hov. apply overlap_iff in Hov; [|done..]. destruct Hold as [Ho _], Anew as [Hn _].
      rewrite (proj2 (Z.eqb_neq (length old) 0)) by done. rewrite orb_false_r. destruct (Z.eqb_spec (length new) 0); [done|]. symmetry. apply Z.eqb_neq. lia.
  - rewrite (adjust_old_other t id old new) by done. cbn [bind]. apply IH; [|done..|by right]. rewrite <- EF. by apply cut_step.
Qed.

Lemma drop_same t n : table_ok t → n ∈ nodes t → t_drop t (client n.2) = t.
Proof.
  intros [_ _ _ Hc _] Hn. unfold t_drop, count_drop. rewrite Hc. destruct (Z.eqb_spec (cnt (client n.2) (nodes t)) 0) as [E|]; [|by destruct t].
  exfalso. unfold cnt in E. assert (n ∈ List.filter (λ m : node, client m.2 =? client n.2) (nodes t)) as H.
  { apply list_elem_of_In, filter_In. split; [by apply list_elem_of_In|apply Z.eqb_refl]. }
  destruct (List.filter _ _); [by apply not_elem_of_nil in H|simpl in E; lia].
Qed.

(** A lock of the owner next to the new one. *)
Definition next_to (nb new : filelock) : Prop :=
  length nb ≠ 0 ∧ start nb + length nb = start new ∨ length new ≠ 0 ∧ start new + length new = start nb.

Lemma next_to_new nb new : lock_ok nb → lock_ok new → lock_ok lock0 → (∀ x, covers lock0 x → covers new x) → ¬ overlap nb new →
  covers nb (start lock0 - 1) ∨ length lock0 ≠ 0 ∧ covers nb (start lock0 + length lock0) → next_to nb new.
Proof.
  intros [Hn _] [Hw _] [H0 _] Hsub Hno Hnear. assert (∀ x, covers new x → ¬ covers nb x) as Hd by (intros x H1 H2; apply Hno; by exists x).
  assert (covers new (start lock0)) as Hfirst by (apply Hsub; unfold covers; lia). pose proof (Hd _ Hfirst) as Hf'. unfold next_to. destruct Hnear as [Hx|[Hl Hx]].
  - left. assert (¬ covers new (start lock0 - 1)) by (intros C; by apply (Hd _ C)). unfold covers in *. lia.
  - right. assert (covers new (start lock0 + length lock0 - 1)) as Hlast by (apply Hsub; unfold covers; lia). pose proof (Hd _ Hlast) as Hl'.
    assert (¬ covers new (start lock0 + length lock0)) by (intros C; by apply (Hd _ C)). unfold covers in *. lia.
Qed.

Lemma adjust_neighbor_same t id nb new : table_ok t → (id, nb) ∈ nodes t → lock_ok new → next_to nb new → type nb = type new →
  adjust_neighbor t new id = Ok (t_drop (t_erase t id (client nb)) (client nb), join new nb).
Proof.
  intros Ht Hin [Hl _] Hnext Ety. pose proof (co_ok _ (tab_co _ Ht) _ Hin) as [Ho _]. simpl in Ho. unfold adjust_neighbor.
  rewrite (find_node_spec id nb) by (done || apply Ht). cbn [deref bind]. rewrite Ety, Z.eqb_refl, (u64_small (start nb + _)), (u64_small (start new + _)) by lia.
  unfold join, next_to in *. destruct (Z.eqb_spec (length new) 0) as [E|E]; simpl.
  - rewrite (proj2 (Z.eqb_eq (start nb + length nb) (start new))) by lia. simpl. do 3 f_equal. lia.
  - destruct (Z.eqb_spec (length nb) 0) as [E'|E']; simpl.
    + rewrite (proj2 (Z.eqb_eq (start new + length new) (start nb))) by lia. simpl. do 3 f_equal. lia.
    + destruct (Z.eqb_spec (start nb + length nb) (start new)) as [E2|E2]; simpl.
      * rewrite u64_small by lia. do 3 f_equal; lia.
      * rewrite (proj2 (Z.eqb_eq (start new + length new) (start nb))) by lia. simpl. rewrite u64_small by lia. do 3 f_equal; lia.
Qed.

Lemma next_to_touching nb new : lock_ok nb → lock_ok new → next_to nb new → touching new nb.
Proof. intros [? _] [? _] H. unfold next_to, touching in *. lia. Qed.

Lemma adjust_neighbor_loop N : ∀ K t new, adjusting K t new [] → lock_ok lock0 → NoDup N →
  (∀ id, id ∈ N → (id ∉ K) ∧ ∃ nb, (id, nb) ∈ nodes t0 ∧ owner_equal nb lock0 = true ∧
    (covers nb (start lock0 - 1) ∨ length lock0 ≠ 0 ∧ covers nb (start lock0 + length lock0))) →
  ∃ K' t' new', adjust_loop adjust_neighbor t new N = Ok (t', new') ∧ adjusting K' t' new' [].
Proof.
  induction N as [|id N IH]; intros K t new Had H0 Hd HN; [by exists K, t, new|]. apply NoDup_cons in Hd as [Hid Hd].
  destruct (HN id ltac:(left)) as (HK & nb & Hin0 & Ho & Hnear). pose proof Had as [Aok Anew _ Aty _ _ _ Aall _ _ Asub Akeep _].
  pose proof (Akeep (id, nb) Hin0 HK) as Hin. pose proof (co_ok _ (tab_co _ Aok) _ Hin) as Hnb. simpl in Hnb.
  assert (¬ overlap nb new) as Hno by (intros C; by apply (not_elem_of_nil id), (Aall (id, nb))).
  pose proof (next_to_new nb new Hnb Anew H0 Asub Hno Hnear) as Hnext. cbn [adjust_loop]. destruct (Z.eq_dec (type nb) (type new)) as [Ety|Hty].
  - rewrite (adjust_neighbor_same t id nb new) by done. cbn [bind]. apply (IH (id :: K)); [|done|done|].
    + apply (merge_step K t new [] id nb); try done. by apply next_to_touching.
    + intros i Hi. destruct (HN i ltac:(by right)) as [HiK Hi']. split; [|done]. apply not_elem_of_cons. split; [|done]. by intros ->.
  - unfold adjust_neighbor. rewrite (find_node_spec id nb) by (done || apply Aok). cbn [deref bind]. rewrite (proj2 (Z.eqb_neq _ _) Hty). cbn [bind].
    rewrite (drop_same t (id, nb) Aok Hin : t_drop t (client nb) = t). apply (IH K); try done. intros i Hi. apply HN. by right.
Qed.
End Adjust.

Lemma table_insert_ok t new : table_ok t → lock_ok new →
  (∀ n, n ∈ nodes t → overlap n.2 new → owner_equal n.2 new = false ∧ type n.2 = CEPH_LOCK_SHARED ∧ type new = CEPH_LOCK_SHARED) →
  table_ok (t_insert t new) ∧ ∀ n, n ∈ nodes (t_insert t new) ↔ n = (fresh_id t, new) ∨ n ∈ nodes t.
Proof.
  intros [[Cid Cs Cok Cconf] Hf Hk Hc Hz] Hnew Hconf. pose proof (insert_node_perm (fresh_id t, new) (nodes t)) as Hp.
  assert (∀ n, n ∈ nodes (t_insert t new) ↔ n = (fresh_id t, new) ∨ n ∈ nodes t) as Hel by (intros n; cbn [t_insert nodes]; rewrite Hp; apply elem_of_cons).
  assert (fresh_id t ∉ (nodes t).*1) as Hff by (intros (n & E & Hn)%list_elem_of_fmap; specialize (Hf n Hn); lia).
  split; [|done]. split; [split|..].
  - cbn [t_insert nodes]. rewrite (fmap_Permutation fst _ _ Hp). by apply NoDup_cons.
  - by apply insert_node_sorted.
  - intros n [->|Hn]%Hel; [done|by apply Cok].
  - intros a b [->|Ha]%Hel [->|Hb]%Hel Hne Hov; [done|..|by apply Cconf].
    + apply overlap_sym in Hov. destruct (Hconf b Hb Hov) as (E & ? & ?). simpl. by rewrite owner_equal_sym.
    + by apply Hconf.
  - intros n [->|Hn]%Hel; cbn [t_insert fresh_id fst]; [lia|specialize (Hf n Hn); lia].
  - by apply map_set_sorted.
  - intros c. cbn [t_insert nodes counts]. rewrite count_add_find, Hc, (cnt_perm c _ _ Hp). change ((fresh_id t, new) :: nodes t) with ([(fresh_id t, new)] ++ nodes t).
    rewrite cnt_app. unfold cnt at 2. simpl. rewrite (Z.eqb_sym c). destruct (client new =? c); simpl; lia.
  - intros c. cbn [t_insert counts]. unfold count_add. rewrite map_find_set. destruct (Z.eqb_spec c (client new)) as [->|]; [|apply Hz].
    rewrite Hc. unfold cnt. intros [= E]. lia.
Qed.

(** The bytes that the owners hold once [lock] is set, or removed. *)
Definition holds_set (ns : list node) (lock o : filelock) (x ty : Z) : Prop :=
  if owner_equal o lock then covers lock x ∧ ty = type lock ∨ ¬ covers lock x ∧ holds ns o x ty else holds ns o x ty.
Definition holds_unset (ns : list node) (lock o : filelock) (x ty : Z) : Prop :=
  holds ns o x ty ∧ ¬ (owner_equal o lock = true ∧ covers lock x).

Lemma holds_others ns ns' lock o x ty : (∀ n, owner_equal n.2 lock = false → n ∈ ns' ↔ n ∈ ns) → owner_equal o lock = false → holds ns' o x ty ↔ holds ns o x ty.
Proof.
  intros Hoth Ho. unfold holds. split; intros (n & Hn & Hon & H); exists n; (split; [|done]); apply Hoth; try done;
    by rewrite <- (owner_equal_trans o n.2 lock) in Ho by (by rewrite owner_equal_sym).
Qed.

(** A request conflicts with a lock of another owner where one of them is exclusive. *)
Definition conflict (ns : list node) (lock : filelock) : Prop :=
  ∃ n, n ∈ ns ∧ owner_equal n.2 lock = false ∧ overlap n.2 lock ∧ (type lock = CEPH_LOCK_EXCL ∨ type n.2 = CEPH_LOCK_EXCL).

Lemma filter_ids (f : node → bool) ns : NoDup ns.*1 → NoDup (map fst (List.filter f ns)).
Proof.
  induction ns as [|n ns IH]; intros Hd; [constructor|]. simpl in *. apply NoDup_cons in Hd as [H1 H2]. destruct (f n); simpl; [|by apply IH].
  apply NoDup_cons. split; [|by apply IH]. intros (m & E & [Hm _]%list_elem_of_In%filter_In)%list_elem_of_fmap. apply H1. rewrite E. apply list_elem_of_fmap_2. by apply list_elem_of_In.
Qed.

Lemma elem_filter {A} (f : A → bool) l a : a ∈ List.filter f l ↔ a ∈ l ∧ f a = true.
Proof. by rewrite !list_elem_of_In, filter_In. Qed.

Lemma near_spec lock n : lock_ok lock → start lock + length lock < 2 ^ 63 - 1 → lock_ok n.2 → near lock n = true →
  owner_equal n.2 lock = true ∧ ¬ overlap n.2 lock ∧
  (covers n.2 (start lock - 1) ∨ length lock ≠ 0 ∧ covers n.2 (start lock + length lock)).
Proof.
  intros Hl Hend Hn [H1 [H2 H3]%andb_true_iff]%andb_true_iff. pose proof (neighbor_check_ok lock Hl Hend).
  assert (owner_equal n.2 lock = true) as Ho by (rewrite owner_equal_sym; unfold neighbor_check_lock in H2; by destruct (negb (start lock =? 0))).
  apply negb_true_iff, not_true_iff_false in H1. rewrite share_space_spec in H1 by done. apply share_space_spec in H3; [|done..].
  split; [done|]. split; [done|]. destruct H3 as (x & Hx & Hc). apply neighbor_check_covers in Hc; [|done..].
  assert (¬ covers lock x) by (intros C; apply H1; by exists x). unfold covers in *. destruct Hl as [? _], Hn as [? _].
  destruct (Z.eq_dec x (start lock - 1)) as [->|]; [by left|]. right. replace (start lock + length lock) with x by lia. lia.
Qed.

Lemma only_last_open t lock f : coherent (nodes t) → StronglySorted (λ i _, ended t i) (map fst (List.filter (λ n, owner_equal n.2 lock) (List.filter f (nodes t)))).
Proof.
  intros [Cid Cs Cok Cconf]. assert (∀ ns, ns ⊆ nodes t → NoDup ns.*1 → StronglySorted (λ a b, start a.2 <= start b.2) ns →
    StronglySorted (λ i _, ended t i) (map fst (List.filter (λ n, owner_equal n.2 lock) (List.filter f ns)))) as H; [|by apply H].
  induction ns as [|n ns IH]; intros Hsub Hd Hs; [constructor|]. apply StronglySorted_inv in Hs as [Hs Hn]. apply NoDup_cons in Hd as [Hid Hd].
  specialize (IH (λ m Hm, Hsub m (list_elem_of_further m n ns Hm)) Hd Hs). simpl. destruct (f n); simpl; [|done]. destruct (owner_equal n.2 lock) eqn:Ho; [|done]. simpl. constructor; [done|].
  apply Forall_forall. intros j (m & -> & [[Hm _]%elem_filter Hom]%elem_filter)%list_elem_of_fmap old Hold E.
  assert (n ∈ nodes t ∧ m ∈ nodes t) as [Hnt Hmt] by (split; apply Hsub; [left|by right]).
  rewrite <- (node_unique n.1 old (nodes t) n) in E by done. rewrite Forall_forall in Hn. specialize (Hn m Hm). simpl in Hn.
  destruct (Cconf n m Hnt Hmt) as [C _]; [intros En; apply Hid; rewrite En; by apply list_elem_of_fmap_2| |].
  - apply overlap_iff; [by apply Cok..|]. destruct (Cok m Hmt) as [? _]. lia.
  - rewrite (owner_same n.2 m.2 lock) in C; done.
Qed.

(** Setting a lock that nothing is in the way of. *)
Lemma set_lock_ok t0 lock : table_ok t0 → lock_ok lock → small lock → (∀ n, n ∈ nodes t0 → owner_equal n.2 lock = true → small n.2) → ¬ conflict (nodes t0) lock →
  ∃ t new, adjust_locks t0 (map fst (List.filter (λ n, owner_equal n.2 lock) (List.filter (hit lock) (nodes t0)))) lock (map fst (List.filter (near lock) (nodes t0))) = Ok (t, new) ∧
    table_ok (t_insert t new) ∧ ∀ o x ty, holds (nodes (t_insert t new)) o x ty ↔ holds_set (nodes t0) lock o x ty.
Proof.
  intros Ht Hl Hs Hsm Hnc. pose proof (tab_co _ Ht) as [Cid _ Cok _]. set (R := map fst (List.filter _ (List.filter _ _))). set (N := map fst _).
  assert (start lock + length lock < 2 ^ 63 - 1) as Hend by (destruct Hl as [? _]; unfold small in Hs; lia).
  assert (∀ n, n ∈ nodes t0 → hit lock n = true ↔ overlap n.2 lock) as Hhit by (intros n Hn; apply share_space_spec; [by apply Cok|done]).
  assert (adjusting t0 lock [] t0 lock R) as Had.
  { split; try done.
    - apply filter_ids. by apply (filter_ids (hit lock)).
    - intros id (n & -> & [[Hn Hh]%elem_filter Ho]%elem_filter)%list_elem_of_fmap. exists n.2. split; [by destruct n|]. split; [done|]. by apply Hhit.
    - intros n Hn Ho Hov. apply list_elem_of_fmap_2, elem_filter. split; [|done]. apply elem_filter. split; [done|]. by apply Hhit.
    - intros n Hn Ho Hov. destruct (Cok n Hn) as [_ [Et|Et]]; [|by destruct Hnc; exists n; auto]. split; [done|]. destruct Hl as [_ [El|El]]; [done|]. destruct Hnc. exists n. auto. }
  unfold adjust_locks. destruct (adjust_old_loop t0 lock (length lock =? 0) R [] t0 lock Had) as (t1 & new1 & -> & Had1);
    [by apply only_last_open, tab_co| |by right|].
  { intros i (n & -> & [[Hn _]%elem_filter _]%elem_filter)%list_elem_of_fmap. split; [by apply not_elem_of_nil|]. by apply list_elem_of_fmap_2. }
  cbn [bind].
  destruct (adjust_neighbor_loop t0 lock N (reverse R ++ []) t1 new1) as (K & t & new & -> & [Aok Anew Asame Aty _ _ _ Aall Aoth Aconf _ _ Aview]); [done|done|by apply filter_ids| |].
  { intros id (n & -> & [Hn Hnear]%elem_filter)%list_elem_of_fmap. destruct (near_spec lock n Hl Hend (Cok n Hn) Hnear) as (Ho & Hno & Hadj).
    split; [|exists n.2; split; [by destruct n|done]]. rewrite app_nil_r, elem_of_reverse. intros (n' & E & [[Hn' Hh]%elem_filter _]%elem_filter)%list_elem_of_fmap.
    apply Hno. apply Hhit; [done|]. by rewrite (node_eq (nodes t0) n n'). }
  exists t, new. split; [done|]. destruct (table_insert_ok t new Aok Anew) as [Hok Hel].
  { intros n Hn Hov. destruct (owner_equal n.2 lock) eqn:Ho; [by apply (not_elem_of_nil n.1) in Aall|].
    rewrite owner_equal_sym, Asame, owner_equal_sym. split; [done|]. destruct (Aconf n) as [? ?]; [by apply Aoth|done|done|]. split; [done|]. by rewrite (proj1 Aty). }
  split; [done|]. intros o x ty. unfold holds_set. destruct (owner_equal o lock) eqn:Ho.
  - rewrite (holds_owner _ o lock), (holds_owner (nodes t0) o lock) by done. specialize (Aview x ty). unfold view in Aview. rewrite <- Aview. unfold holds at 1. split.
    + intros (n & [->|Hn]%Hel & Hon & Hc & <-); simpl in *; [left; split; [done|apply Aty]|right].
      split; [|by exists n]. intros Hcn. by apply (not_elem_of_nil n.1), Aall; [..|exists x].
    + intros [[Hc ->]|[_ (n & Hn & H)]]; [|exists n; split; [apply Hel; by right|done]]. exists (fresh_id t, new). split; [apply Hel; by left|]. simpl.
      split_and!; [by rewrite Asame, owner_equal_refl|done|apply Aty].
  - apply (holds_others _ _ lock); [|done]. intros n Hn. rewrite Hel, Aoth by done. split; [|auto]. intros [->|]; [|done]. simpl in Hn. rewrite Asame, owner_equal_refl in Hn. done.
Qed.

(** ** Deadlocks *)

(** Lock [h] is in the way of the request [fl] on the file of state [p]. *)
Definition in_the_way (w : world) (fl : filelock) (p : Z) (h : filelock) : Prop :=
  ∃ s id, zget (states w) p = Ok s ∧ (id, h) ∈ held_locks s ∧ owner_equal h fl = false ∧ share_space h fl = true ∧
    ¬ (type fl = CEPH_LOCK_SHARED ∧ type h = CEPH_LOCK_SHARED).

(** A chain of at most [d] waiting requests from [fl] to a lock of the owner of [f]. *)
Inductive wait_chain (w : world) (f : filelock) : nat → filelock → Z → Prop :=
  | chain_end d fl p h : in_the_way w fl p h → owner_equal f h = true → wait_chain w f d fl p
  | chain_next d fl p h k q : in_the_way w fl p h → (k, q) ∈ global_waiting_locks w → owner_equal k h = true →
      wait_chain w f d k q → wait_chain w f (S d) fl p.

Lemma overlap_loop_sub lock check wn m : ∀ ov nb n, n ∈ (overlap_loop m lock check wn ov nb).1 → n ∈ ov ∨ n ∈ m ∧ share_space n.2 lock = true.
Proof.
  induction m as [|a m IH]; intros ov nb n; [by left|]. cbn [overlap_loop].
  assert (∀ ov' nb', (n ∈ ov' → n ∈ ov ∨ n = a ∧ share_space a.2 lock = true) →
    n ∈ (if (start a.2 <? start lock) && (type a.2 =? CEPH_LOCK_EXCL) then (ov', nb') else overlap_loop m lock check wn ov' nb').1 →
    n ∈ ov ∨ n ∈ a :: m ∧ share_space n.2 lock = true) as H.
  { intros ov' nb' Hov. destruct (_ && _); simpl.
    - intros Hn. destruct (Hov Hn) as [|[-> ?]]; [by left|right; split; [left|done]].
    - intros [Hn|[Hn Hs]]%IH; [destruct (Hov Hn) as [|[-> ?]]; [by left|right; split; [left|done]]|right; split; [by right|done]]. }
  destruct (share_space a.2 lock) eqn:E; [apply H; intros [->|]%elem_of_cons; auto|]. destruct (_ && _ && _); by apply H; left.
Qed.

Lemma overlap_loop_neighbors m lock check : ∀ ov nb nb', (overlap_loop m lock check true ov nb).1 = (overlap_loop m lock check false ov nb').1.
Proof.
  induction m as [|n m IH]; intros ov nb nb'; [done|]. cbn [overlap_loop]. destruct (share_space n.2 lock); cbv beta iota; [by destruct (_ && _)|]. cbn [andb].
  destruct (owner_equal check n.2 && share_space n.2 check); by destruct (_ && _).
Qed.

Lemma found_others w p s fl n : zget (states w) p = Ok s → n ∈ (split_by_owner fl (get_overlapping_locks (held_locks s) fl false).1).1 →
  ∃ s id, zget (states w) p = Ok s ∧ (id, n.2) ∈ held_locks s ∧ owner_equal n.2 fl = false ∧ share_space n.2 fl = true.
Proof.
  intros Hs Hn. cbn [split_by_owner fst] in Hn. apply elem_filter in Hn as [Hn Ho]. apply negb_true_iff in Ho.
  unfold get_overlapping_locks in Hn. apply overlap_loop_sub in Hn as [Hn%not_elem_of_nil|[Hn Hsh]]; [done|].
  exists s, n.1. split_and!; try done. unfold nodes_from_last_before in Hn. apply elem_of_reverse, elem_of_take in Hn as (i & Hi & _).
  rewrite <- surjective_pairing. by eapply list_elem_of_lookup_2.
Qed.

Lemma set_insert_elem l m o : o ∈ set_insert l m → o = l ∨ o ∈ m.
Proof.
  induction m as [|l' m IH]; simpl; [rewrite list_elem_of_singleton; auto|]. destruct (lock_ltb l' l); [|destruct (lock_ltb l l'); [rewrite elem_of_cons; tauto|auto]].
  rewrite !elem_of_cons. intros [|[|]%IH]; auto.
Qed.

(** The owners that are found are those of locks in the way. *)
Lemma conflict_owners_spec fl first overlaps : ∀ owners,
  match conflict_owners fl first overlaps owners with
  | None => ∃ n f, n ∈ overlaps ∧ first = Some f ∧ owner_equal f n.2 = true ∧ ¬ (type fl = CEPH_LOCK_SHARED ∧ type n.2 = CEPH_LOCK_SHARED)
  | Some os => ∀ o, o ∈ os → o ∈ owners ∨ ∃ n, n ∈ overlaps ∧ (∀ q, owner_equal q o = owner_equal q n.2) ∧ ¬ (type fl = CEPH_LOCK_SHARED ∧ type n.2 = CEPH_LOCK_SHARED)
  end.
Proof.
  induction overlaps as [|a m IH]; intros owners; cbn [conflict_owners]; [by left|].
  assert (∀ owners', (∀ o, o ∈ owners' → o ∈ owners ∨ (∀ q, owner_equal q o = owner_equal q a.2) ∧ ¬ (type fl = CEPH_LOCK_SHARED ∧ type a.2 = CEPH_LOCK_SHARED)) →
    match conflict_owners fl first m owners' with
    | None => ∃ n f, n ∈ a :: m ∧ first = Some f ∧ owner_equal f n.2 = true ∧ ¬ (type fl = CEPH_LOCK_SHARED ∧ type n.2 = CEPH_LOCK_SHARED)
    | Some os => ∀ o, o ∈ os → o ∈ owners ∨ ∃ n, n ∈ a :: m ∧ (∀ q, owner_equal q o = owner_equal q n.2) ∧ ¬ (type fl = CEPH_LOCK_SHARED ∧ type n.2 = CEPH_LOCK_SHARED)
    end) as H.
  { intros owners' Hin. specialize (IH owners'). destruct (conflict_owners fl first m owners').
    - intros o [Ho|(n & Hn & Hq)]%IH; [destruct (Hin o Ho) as [|Ha]; [by left|right; exists a; split; [left|done]]|right; exists n; split; [by right|done]].
    - destruct IH as (n & f & Hn & Hq). exists n, f. split; [by right|done]. }
  destruct (_ && _) eqn:E; [by apply H; left|].
  assert (¬ (type fl = CEPH_LOCK_SHARED ∧ type a.2 = CEPH_LOCK_SHARED)) as Hty.
  { intros [E1 E2]. rewrite E1, E2 in E. done. }
  destruct first as [f|]; [destruct (owner_equal f a.2) eqn:Ef; [exists a, f; split_and!; [left|done..]|]|]; apply H; intros o [->|]%set_insert_elem; auto; right; (split; [|done]); intros q; done.
Qed.

Lemma waiting_of_sub o g k q : (k, q) ∈ waiting_of o g → (k, q) ∈ g ∧ owner_equal k o = true.
Proof.
  assert (∀ g, (k, q) ∈ take_owner o g → (k, q) ∈ g ∧ owner_equal k o = true) as Ht.
  { clear g. induction g as [|[k' p'] g IH]; simpl; [by intros ?%not_elem_of_nil|]. destruct (owner_equal k' o) eqn:E; [|by intros ?%not_elem_of_nil].
    intros [[= <- <-]|[? ?]%IH]%elem_of_cons; (split; [|done]); [left|by right]. }
  induction g as [|[k' p'] g IH]; cbn [waiting_of]; [by intros ?%not_elem_of_nil|]. destruct (lock_ltb k' o); [|apply Ht]. intros [? ?]%IH. split; [by right|done].
Qed.

Lemma exists_res_true {A} (f : A → res bool) l : exists_res f l = Ok true → ∃ a, a ∈ l ∧ f a = Ok true.
Proof.
  induction l as [|a l IH]; simpl; [done|]. destruct (f a) as [[]|] eqn:E; simpl; [intros _; exists a; split; [left|done]| |done].
  intros (b & Hb & Ef)%IH. exists b. split; [by right|done].
Qed.
Lemma exists_res_total {A} (f : A → res bool) l : (∀ a, a ∈ l → ∃ b, f a = Ok b) → ∃ b, exists_res f l = Ok b.
Proof.
  induction l as [|a l IH]; intros H; simpl; [by eexists|]. destruct (H a ltac:(left)) as [[] ->]; simpl; [by eexists|]. apply IH. intros b Hb. apply H. by right.
Qed.

Lemma is_deadlock_sound w t d : ∀ fl overlaps first p, is_deadlock d w t fl overlaps first = Ok true →
  (∀ n, n ∈ overlaps → ∃ s id, zget (states w) p = Ok s ∧ (id, n.2) ∈ held_locks s ∧ owner_equal n.2 fl = false ∧ share_space n.2 fl = true) →
  wait_chain w (default fl first) d fl p.
Proof.
  induction d as [|d IH]; intros fl overlaps first p; cbn [is_deadlock]; (destruct (negb (t =? CEPH_LOCK_FCNTL)); [done|]);
    pose proof (conflict_owners_spec fl first overlaps []) as Hco; (destruct (conflict_owners fl first overlaps []) as [os|]; [|intros _ Hov;
      destruct Hco as (n & f & Hn & -> & Hf & Hty); destruct (Hov n Hn) as (s & id & ? & ? & ? & ?); eapply chain_end; [exists s, id; by split_and!|done]]); [done|].
  intros (o & Ho & ([k q] & Hk & E)%exists_res_true)%exists_res_true Hov. apply waiting_of_sub in Hk as [Hk Hko].
  destruct (Hco o Ho) as [Hnil%not_elem_of_nil|(n & Hn & Hq & Hty)]; [done|]. destruct (Hov n Hn) as (s & id & Hs & Hin & Hown & Hsh).
  simpl in E. destruct (zget (states w) q) as [sq|] eqn:Eq; [|done]. cbn [bind] in E.
  eapply (chain_next w _ d fl p n.2 k q); [exists s, id; by split_and!|done|by rewrite <- Hq|].
  set (others := List.filter _ _) in E. case_bool_decide as Enil; [done|]. apply (IH k others (Some (default fl first)) q E).
  intros m Hm. by apply (found_others w q sq k m).
Qed.

(** The numbers of states in [global_waiting_locks] are those of states. *)
Definition world_ok (w : world) : Prop := ∀ k q, (k, q) ∈ global_waiting_locks w → 0 <= q < Z.of_nat (List.length (states w)).

Lemma is_deadlock_total w t d : world_ok w → ∀ fl overlaps first, ∃ b, is_deadlock d w t fl overlaps first = Ok b.
Proof.
  intros Hw. induction d as [|d IH]; intros fl overlaps first; cbn [is_deadlock]; (destruct (negb (t =? CEPH_LOCK_FCNTL)); [by eexists|]);
    (destruct (conflict_owners fl first overlaps []) as [os|]; [|by eexists]); [by eexists|].
  apply exists_res_total. intros o _. apply exists_res_total. intros [k q] [Hk _]%waiting_of_sub. cbn [fst snd].
  destruct (zget_in (states w) q (Hw k q Hk)) as (s & -> & _). cbn [bind split_by_owner]. cbv beta iota. case_bool_decide; [by eexists|apply IH].
Qed.

Lemma conflict_found ns lock : coherent ns → lock_ok lock → start lock + length lock < 2 ^ 63 - 1 →
  let others := List.filter (λ n, negb (owner_equal n.2 lock)) (List.filter (hit lock) ns) in
  (negb (bool_decide (others = [])) && ((type lock =? CEPH_LOCK_EXCL) || bool_decide (contains_exclusive_lock others ≠ None))) = true ↔ conflict ns lock.
Proof.
  intros Hco Hl Hend others. assert (∀ n, n ∈ others ↔ n ∈ ns ∧ owner_equal n.2 lock = false ∧ overlap n.2 lock) as Hel.
  { intros n. unfold others. rewrite !elem_filter, negb_true_iff. split.
    - intros [[Hn Hh] Ho]. split_and!; try done. apply share_space_spec; [by apply Hco|done|done].
    - intros (Hn & Ho & Hov). split_and!; try done. apply share_space_spec; [by apply Hco|done|done]. }
  rewrite andb_true_iff, orb_true_iff, negb_true_iff, bool_decide_eq_false, bool_decide_eq_true, Z.eqb_eq. unfold contains_exclusive_lock, conflict. split.
  - intros [Hne [Ht|Hx]].
    + destruct others as [|n l] eqn:E; [done|]. destruct (proj1 (Hel n) ltac:(left)) as (? & ? & ?). exists n. auto.
    + destruct (find _ others) as [n|] eqn:E; [|done]. apply find_some in E as [Hn Ht%Z.eqb_eq]. apply list_elem_of_In, Hel in Hn as (? & ? & ?). exists n. auto.
  - intros (n & Hn & Ho & Hov & Ht). assert (n ∈ others) as Hin by (by apply Hel). split; [intros E; rewrite E in Hin; by apply not_elem_of_nil in Hin|].
    destruct Ht as [|Ht]; [by left|right]. destruct (find _ others) as [m|] eqn:E; [done|]. apply list_elem_of_In in Hin.
    pose proof (find_none _ _ E n Hin) as C. simpl in C. rewrite Ht in C. done.
Qed.

Lemma zget_set (w : world) this s s' : zget (states w) this = Ok s →
  ∃ l, zset (states w) this s' = Ok l ∧ zget l this = Ok s' ∧ List.length l = List.length (states w).
Proof.
  intros [H0 Hs]%zget_ok. pose proof (lookup_lt_Some _ _ _ Hs). rewrite zset_ok by lia. eexists. split; [done|]. split; [|apply length_insert].
  apply zget_ok. split; [done|]. by apply list_lookup_insert_eq.
Qed.

Lemma loop_insert w fl : is_waiting_loop (insert_waiting w fl) fl = true.
Proof.
  induction w as [|l w IH]; simpl; [by rewrite Z.ltb_irrefl, Z.eqb_refl, owner_equal_refl|]. destruct (Z.leb_spec (start l) (start fl)); simpl.
  - rewrite (proj2 (Z.ltb_ge _ _)) by lia. by destruct (_ && _).
  - by rewrite Z.ltb_irrefl, Z.eqb_refl, owner_equal_refl.
Qed.
Lemma waiting_insert w fl : is_waiting_loop (waiting_from (start fl) (insert_waiting w fl)) fl = true.
Proof.
  induction w as [|l w IH]; [simpl; rewrite Z.eqb_refl; apply (loop_insert [])|]. cbn [insert_waiting].
  destruct (Z.leb_spec (start l) (start fl)) as [Hle|Hgt]; cbn [waiting_from].
  - destruct (Z.eqb_spec (start l) (start fl)); [|done]. pose proof (loop_insert (l :: w) fl) as H. cbn [insert_waiting] in H. by rewrite (proj2 (Z.leb_le _ _) Hle) in H.
  - rewrite Z.eqb_refl. simpl. by rewrite Z.ltb_irrefl, Z.eqb_refl, owner_equal_refl.
Qed.

Lemma remove_waiting_table s g this fl s' g' : remove_waiting s g this fl = (s', g') → table_of s' = table_of s.
Proof. unfold remove_waiting. destruct (remove_waiting_loop _ _) as [w [l|]]; by intros [= <- <-]. Qed.

(** ** Theorems *)

(** [C15] A lock is set exactly when no other owner holds a lock on one of its bytes with which it conflicts. Then
    its owner holds it on all its bytes and what it held before on the others, and the other owners hold what they
    held; the locks stay coherent and counted.  A lock that is not set leaves the held locks as they are. *)
Theorem add_lock_correct w this s new wait replay :
  zget (states w) this = Ok s → world_ok w → table_ok (table_of s) → lock_ok new → small new →
  (∀ n, n ∈ held_locks s → owner_equal n.2 new = true → small n.2) →
  ∃ a w' s', add_lock w this new wait replay = Ok (a, w') ∧ zget (states w') this = Ok s' ∧ table_ok (table_of s') ∧
    (add_ret a = true ↔ ¬ conflict (held_locks s) new) ∧
    (if add_ret a then ∀ o x ty, holds (held_locks s') o x ty ↔ holds_set (held_locks s) new o x ty
     else held_locks s' = held_locks s ∧
       (wait && negb replay = true → add_deadlock a = true ∧ w' = w ∨ add_deadlock a = false ∧ is_waiting s' new = true)).
Proof.
  intros Hs Hw Ht Hl Hsm Hown. assert (start new + length new < 2 ^ 63 - 1) as Hend by (destruct Hl as [? _]; unfold small in Hsm; lia).
  unfold add_lock. rewrite Hs. cbn [bind]. rewrite (get_overlapping_spec _ _ _ (tab_co _ Ht)) by done. cbv beta iota. unfold split_by_owner. cbv beta iota.
  pose proof (conflict_found (held_locks s) new (tab_co _ Ht) Hl Hend) as Hcf. set (others := List.filter (λ n, negb _) _) in *. cbv zeta in Hcf. cbv zeta.
  set (blocked := if wait && negb replay then _ else _). set (set_it := let '(s, g) := remove_waiting _ _ _ _ in _).
  replace (if negb (bool_decide (others = [])) then _ else set_it) with
    (if negb (bool_decide (others = [])) && ((type new =? CEPH_LOCK_EXCL) || bool_decide (contains_exclusive_lock others ≠ None)) then blocked else set_it)
    by (destruct (bool_decide (others = [])), (type new =? CEPH_LOCK_EXCL); simpl; by repeat case_match).
  destruct (negb (bool_decide (others = [])) && _).
  - assert (conflict (held_locks s) new) as Hc by (by apply Hcf).
    assert (false = true ↔ ¬ conflict (held_locks s) new) as Hret by (split; [done|intros C; by destruct (C Hc)]). unfold blocked. destruct (wait && negb replay).
    + destruct (is_deadlock_total w (ls_type s) MAX_DEADLK_DEPTH Hw new others None) as [[] ->]; cbn [bind].
      * eexists _, _, s. split; [done|]. split; [done|]. split; [done|]. split; [done|]. split; [done|]. intros _. by left.
      * unfold add_waiting. destruct (zget_set w this s (set_waiting s (insert_waiting (waiting_locks s) new) (count_add (client new) 1 (client_waiting_lock_counts s))) Hs) as (l & -> & Hg & _).
        cbn [bind]. eexists _, _, _. split; [done|]. split; [exact Hg|]. split; [done|]. split; [done|]. split; [done|]. intros _. right. split; [done|]. apply waiting_insert.
    + eexists _, _, s. by split_and!.
  - assert (¬ conflict (held_locks s) new) as Hc by (by rewrite <- Hcf). unfold set_it. clear blocked set_it.
    destruct (remove_waiting s (global_waiting_locks w) this new) as [s1 g1] eqn:Erw. apply remove_waiting_table in Erw as Etab. rewrite Etab.
    destruct (set_lock_ok (table_of s) new Ht Hl Hsm Hown Hc) as (t & new' & E & Hok & Hh). cbn [table_of nodes] in E. fold (table_of s) in E.
    replace (adjust_locks _ _ _ _) with (Ok (t, new')). cbn [bind].
    destruct (zget_set w this s (with_table s1 (t_insert t new')) Hs) as (l & -> & Hg & _). cbn [bind].
    eexists _, _, _. split; [done|]. split; [exact Hg|]. split; [by destruct (t_insert t new')|]. split; [done|exact Hh].
Qed.

(** [C23] Removing a lock takes its bytes from its owner, whose locks are cut or split where they reach beyond it, and
    changes nothing else. *)
Theorem remove_lock_correct s lock : table_ok (table_of s) → lock_ok lock → start lock + length lock < 2 ^ 63 - 1 →
  ∃ s', remove_lock s lock = Ok s' ∧ table_ok (table_of s') ∧ waiting_locks s' = waiting_locks s ∧
    ∀ o x ty, holds (held_locks s') o x ty ↔ holds_unset (held_locks s) lock o x ty.
Proof.
  intros Ht Hl Hend. pose proof (tab_co _ Ht) as Hco. unfold remove_lock. rewrite get_overlapping_spec by done. cbn [fst split_by_owner]. cbv beta iota.
  assert (∀ n, n ∈ held_locks s → hit lock n = true ↔ overlap n.2 lock) as Hhit by (intros n Hn; apply share_space_spec; [by apply Hco|done]).
  destruct (remove_loop_ok lock Hl (map fst (List.filter (λ n, owner_equal n.2 lock) (List.filter (hit lock) (held_locks s)))) (table_of s)) as (t & -> & Hok & Hoth & Hh); [done|..].
  - apply filter_ids. apply (filter_ids (hit lock)), Hco.
  - intros id (n & -> & [[Hn Hh]%elem_filter Ho]%elem_filter)%list_elem_of_fmap. exists n.2. split; [by destruct n|]. split; [done|]. by apply Hhit.
  - intros n Hn Ho Hov. apply list_elem_of_fmap_2, elem_filter. split; [|done]. apply elem_filter. split; [done|]. by apply Hhit.
  - cbn [bind]. exists (with_table s t). split; [done|]. split; [by destruct t|]. split; [done|]. intros o x ty. unfold holds_unset. cbn [with_table set_held held_locks].
    destruct (owner_equal o lock) eqn:Ho.
    + rewrite (holds_owner _ o lock), (holds_owner (held_locks s) o lock), Hh by done. cbn [table_of nodes]. tauto.
    + rewrite (holds_others (held_locks s) (nodes t) lock) by done. split; [intros H; split; [done|by intros [? _]]|tauto].
Qed.

(** [C24] A request is refused as a deadlock only when it is one: there is a chain of at most [MAX_DEADLK_DEPTH] requests that
    wait for each other's owners from the locks that are in its way back to a lock of its own owner. *)
Theorem deadlock_sound w this s new a w' : zget (states w) this = Ok s → add_lock w this new true false = Ok (a, w') →
  add_deadlock a = true → add_ret a = false ∧ w' = w ∧ wait_chain w new MAX_DEADLK_DEPTH new this.
Proof.
  intros Hs. unfold add_lock. rewrite Hs. cbn [bind]. destruct (get_overlapping_locks (held_locks s) new true) as [found nbs] eqn:Eg. unfold split_by_owner. cbv beta iota zeta.
  assert (found = (get_overlapping_locks (held_locks s) new false).1) as Ef.
  { pose proof (overlap_loop_neighbors (nodes_from_last_before (if length new =? 0 then 2 ^ 64 - 1 else u64 (start new + length new)) (held_locks s)) new (neighbor_check_lock new) [] [] []) as H.
    unfold get_overlapping_locks in *. by rewrite Eg in H. }
  set (others := List.filter (λ n, negb _) _). cbn [andb negb].
  assert (∀ r, (dead <- is_deadlock MAX_DEADLK_DEPTH w (ls_type s) new others None;;
     if dead : bool then Ok (mk_added false true new, w) else r) = Ok (a, w') → (∀ a w', r = Ok (a, w') → add_deadlock a = false) → add_deadlock a = true →
     add_ret a = false ∧ w' = w ∧ wait_chain w new MAX_DEADLK_DEPTH new this) as Hb.
  { intros r E Hr Hd. destruct (is_deadlock _ _ _ _ _ _) as [[]|] eqn:Ed; cbn [bind] in E; [|by rewrite (Hr a w' E) in Hd|done].
    injection E as <- <-. split; [done|]. split; [done|]. apply (is_deadlock_sound _ _ _ new others None this Ed). intros n Hn.
    apply (found_others w this s new n Hs). cbn [split_by_owner fst]. by rewrite <- Ef. }
  assert (∀ r : res (added * world), r = Ok (a, w') → (∀ a w', r = Ok (a, w') → add_deadlock a = false) → add_deadlock a = true → False) as Hn by (intros r E Hr Hd; by rewrite (Hr a w' E) in Hd).
  set (waiting := let '(s, g) := add_waiting _ _ _ _ in _). set (setting := let '(s, g) := remove_waiting _ _ _ _ in _).
  assert (∀ a w', waiting = Ok (a, w') → add_deadlock a = false) as Hwt.
  { intros a1 w1. unfold waiting. destruct (add_waiting _ _ _ _) as [s1 g1]. intros E. by res_inv. }
  assert (∀ a w', setting = Ok (a, w') → add_deadlock a = false) as Hst.
  { intros a1 w1. unfold setting. destruct (remove_waiting _ _ _ _) as [s1 g1]. destruct (adjust_locks _ _ _ _) as [[t1 n1]|]; cbn [bind]; [|done]. intros E. by res_inv. }
  destruct (bool_decide (others = [])); cbn [negb]; [intros E Hd; by destruct (Hn setting E Hst Hd)|].
  destruct (type new =? CEPH_LOCK_EXCL); [intros E; by apply (Hb waiting)|]. destruct (bool_decide _); [intros E; by apply (Hb waiting)|].
  intros E Hd. by destruct (Hn setting E Hst Hd).
Qed.

(** A lock is tested without being set: it comes back unlocked when nothing is in its way, and as one of the locks that are
    in its way otherwise. *)
Theorem look_for_lock_correct s lock : table_ok (table_of s) → lock_ok lock → start lock + length lock < 2 ^ 63 - 1 →
  (conflict (held_locks s) lock → ∃ n, n ∈ held_locks s ∧ look_for_lock s lock = n.2 ∧ owner_equal n.2 lock = false ∧ overlap n.2 lock ∧
     (type lock = CEPH_LOCK_EXCL ∨ type n.2 = CEPH_LOCK_EXCL)) ∧
  (¬ conflict (held_locks s) lock → look_for_lock s lock = set_type lock CEPH_LOCK_UNLOCK).
Proof.
  intros Ht Hl Hend. pose proof (tab_co _ Ht) as Hco. pose proof (conflict_found (held_locks s) lock Hco Hl Hend) as Hcf. unfold look_for_lock.
  rewrite get_overlapping_spec by done. cbn [fst split_by_owner]. cbv beta iota. set (others := List.filter (λ n, negb _) _) in *. cbv zeta in Hcf.
  assert (∀ n, n ∈ others → n ∈ held_locks s ∧ owner_equal n.2 lock = false ∧ overlap n.2 lock) as Hel.
  { intros n [[Hn Hh]%elem_filter Ho%negb_true_iff]%elem_filter. split_and!; try done. apply share_space_spec; [by apply Hco|done|done]. }
  clearbody others. destruct others as [|n others]; [rewrite <- Hcf; by split|]. rewrite <- Hcf. cbn [negb bool_decide_eq_false]. rewrite bool_decide_eq_false_2 by done. cbn [negb andb].
  destruct (Z.eqb_spec (type lock) CEPH_LOCK_EXCL) as [Et|Et]; cbn [orb].
  - split; [|done]. intros _. destruct (Hel n ltac:(left)) as (? & ? & ?). exists n. split_and!; auto.
  - unfold contains_exclusive_lock. destruct (find _ (n :: others)) as [m|] eqn:E; cbn [fmap option_fmap option_map].
    + apply find_some in E as [Hm Hty%Z.eqb_eq]. split; [intros _|by intros C; destruct C]. apply list_elem_of_In, Hel in Hm as (? & ? & ?). exists m. split_and!; auto.
    + by split.
Qed.

Lemma coherent_filter (f : node → bool) ns : coherent ns → coherent (List.filter f ns).
Proof.
  intros [Hid Hs Hok Hc]. split.
  - by apply filter_ids.
  - clear -Hs. induction Hs as [|n ns Hs IH Hf]; simpl; [constructor|]. destruct (f n); [|done]. constructor; [done|].
    rewrite Forall_forall in *. intros b [Hb _]%elem_filter. by apply Hf.
  - intros n [Hn _]%elem_filter. by apply Hok.
  - intros a b [Ha _]%elem_filter [Hb _]%elem_filter. by apply Hc.
Qed.
Lemma cnt_filter c c' ns : cnt c' (List.filter (λ n, negb (client n.2 =? c)) ns) = if c' =? c then 0 else cnt c' ns.
Proof.
  unfold cnt. induction ns as [|n ns IH]; simpl; [by destruct (c' =? c)|].
  destruct (Z.eqb_spec (client n.2) c), (Z.eqb_spec (client n.2) c'), (Z.eqb_spec c' c); simpl; rewrite ?(proj2 (Z.eqb_eq _ _)), ?(proj2 (Z.eqb_neq _ _)) by congruence; simpl; lia.
Qed.
Lemma cnt_pos c ns : 0 < cnt c ns ↔ ∃ n, n ∈ ns ∧ client n.2 = c.
Proof.
  unfold cnt. split.
  - intros H. destruct (List.filter _ ns) as [|n l] eqn:E; [simpl in H; lia|]. exists n. rewrite <- Z.eqb_eq. apply (elem_filter (λ n, client n.2 =? c)). rewrite E. left.
  - intros (n & Hn & E). assert (n ∈ List.filter (λ n, client n.2 =? c) ns) as H by (apply elem_filter; split; [done|by apply Z.eqb_eq]).
    destruct (List.filter _ ns); [by apply not_elem_of_nil in H|simpl; lia].
Qed.

(** When a client goes away its locks are gone, all others stay, and it is reported whether there were any. *)
Theorem remove_all_from_correct s g this c cleared s' g' : table_ok (table_of s) → remove_all_from s g this c = (cleared, s', g') →
  (cleared = true ↔ ∃ n, n ∈ held_locks s ∧ client n.2 = c) ∧ (∀ n, n ∈ held_locks s' ↔ n ∈ held_locks s ∧ client n.2 ≠ c) ∧ table_ok (table_of s').
Proof.
  intros [Hco Hf Hk Hc Hz] E. cbn [table_of nodes fresh_id counts] in *.
  assert (∃ s1, table_of s' = table_of s1 ∧ (cleared, s1) = match map_find c (client_held_lock_counts s) with
    | Some _ => (true, set_held s (List.filter (λ n, negb (client n.2 =? c)) (held_locks s)) (next_node s) (map_erase c (client_held_lock_counts s)))
    | None => (false, s) end) as (s1 & Es & E1).
  { unfold remove_all_from in E. destruct (match map_find c (client_held_lock_counts s) with Some _ => _ | None => _ end) as [cl s1]. exists s1.
    destruct (map_find c (client_waiting_lock_counts s1)); by injection E as <- <- <-. }
  assert (held_locks s' = held_locks s1) as Eh by (by injection Es). rewrite Eh, Es. clear E Es Eh s'. rewrite <- cnt_pos, <- Hc. specialize (Hz c) as Hzc.
  destruct (map_find c (client_held_lock_counts s)) as [k|] eqn:Ek; injection E1 as -> ->; cbn [default].
  - assert (0 < k) by (specialize (Hc c); rewrite Ek in Hc; simpl in Hc; unfold cnt in Hc; assert (k ≠ 0) by congruence; lia).
    split; [done|]. split; [intros n; cbn [set_held held_locks]; by rewrite elem_filter, negb_true_iff, Z.eqb_neq|].
    split; cbn [table_of set_held held_locks next_node client_held_lock_counts nodes fresh_id counts].
    + by apply coherent_filter.
    + intros n [Hn _]%elem_filter. by apply Hf.
    + by apply map_erase_sorted.
    + intros c'. rewrite map_find_erase, cnt_filter by done. by destruct (c' =? c).
    + intros c'. rewrite map_find_erase by done. by destruct (c' =? c).
  - split; [by split|]. split; [|by split]. intros n. split; [|tauto]. intros Hn. split; [done|]. intros En.
    pose proof (proj2 (cnt_pos c (held_locks s)) (ex_intro _ n (conj Hn En))) as H. rewrite <- Hc, Ek in H. simpl in H. lia.
Qed.

(** Process 7 of client 1 holds ten bytes at 2 ^ 31 and asks for the ten bytes from the middle of them on. *)
Definition far_lock : filelock := mk_lock (2 ^ 31) 10 1 5 7 CEPH_LOCK_SHARED.
Definition far_request : filelock := mk_lock (2 ^ 31 + 5) 10 1 5 7 CEPH_LOCK_SHARED.
Definition far_world : world := mk_world [with_table (new_state CEPH_LOCK_FCNTL) (t_insert (mk_table [] 0 []) far_lock)] [].


(** Two files, a process of client 1 that holds the first ten bytes of file 0, and one of client 2 that holds those of
    file 1 and waits for file 0. *)
Definition lock_a : filelock := mk_lock 0 10 1 5 7 CEPH_LOCK_EXCL.
Definition lock_b : filelock := mk_lock 0 10 2 6 8 CEPH_LOCK_EXCL.
Definition file_of (l : filelock) : lock_state := with_table (new_state CEPH_LOCK_FCNTL) (t_insert (mk_table [] 0 []) l).
Definition two_files : world := mk_world [file_of lock_a; file_of lock_b] [(lock_b, 0)].

Lemma file_of_ok l : lock_ok l → table_ok (table_of (file_of l)).
Proof.
  intros Hl. assert (table_ok (mk_table [] 0 [])) as H0.
  { split; cbn [nodes fresh_id counts]; try done; [|by intros n ?%not_elem_of_nil|constructor]. split; [constructor|constructor|by intros n ?%not_elem_of_nil|by intros a b ?%not_elem_of_nil]. }
  exact (proj1 (table_insert_ok _ l H0 Hl (λ n Hn, False_ind _ (not_elem_of_nil n Hn)))).
Qed.
Lemma lock_a_ok : lock_ok lock_a.
Proof. split; [simpl; lia|by right]. Qed.
Lemma two_files_ok : world_ok two_files.
Proof. intros k q [= -> ->]%list_elem_of_singleton. simpl. lia. Qed.

Lemma add_lock_correct_witness : ∃ a w', add_lock two_files 0 (mk_lock 3 4 1 5 7 CEPH_LOCK_SHARED) false false = Ok (a, w') ∧ add_ret a = true.
Proof.
  destruct (add_lock_correct two_files 0 (file_of lock_a) (mk_lock 3 4 1 5 7 CEPH_LOCK_SHARED) false false) as (a & w' & s' & E & _);
    [reflexivity|apply two_files_ok|apply file_of_ok, lock_a_ok|split; [simpl; lia|by left]|unfold small; simpl; lia| |].
  { intros n [= ->]%list_elem_of_singleton _. unfold small. simpl. lia. }
  exists a, w'. split; [exact E|]. vm_compute in E. by injection E as <- _.
Defined.
Lemma remove_lock_correct_witness : ∃ s', remove_lock (file_of lock_a) (mk_lock 3 4 1 5 7 CEPH_LOCK_EXCL) = Ok s' ∧ List.length (held_locks s') = 2%nat.
Proof.
  destruct (remove_lock_correct (file_of lock_a) (mk_lock 3 4 1 5 7 CEPH_LOCK_EXCL)) as (s' & E & _);
    [apply file_of_ok, lock_a_ok|split; [simpl; lia|by right]|simpl; lia|].
  exists s'. split; [exact E|]. vm_compute in E. by injection E as <-.
Defined.
Lemma deadlock_sound_witness : wait_chain two_files (mk_lock 2 1 1 5 7 CEPH_LOCK_EXCL) MAX_DEADLK_DEPTH (mk_lock 2 1 1 5 7 CEPH_LOCK_EXCL) 1.
Proof.
  eapply (deadlock_sound two_files 1 (file_of lock_b) (mk_lock 2 1 1 5 7 CEPH_LOCK_EXCL)); [reflexivity|vm_compute; reflexivity|reflexivity].
Defined.
Lemma look_for_lock_correct_witness : look_for_lock (file_of lock_a) (mk_lock 10 0 2 6 8 CEPH_LOCK_EXCL) = mk_lock 10 0 2 6 8 CEPH_LOCK_UNLOCK.
Proof.
  apply (look_for_lock_correct (file_of lock_a) (mk_lock 10 0 2 6 8 CEPH_LOCK_EXCL));
    [apply file_of_ok, lock_a_ok|split; [simpl; lia|by right]|simpl; lia|].
  intros (n & [= ->]%list_elem_of_singleton & _ & (x & H1 & H2) & _). unfold covers in *. simpl in *. lia.
Defined.
Lemma remove_all_from_correct_witness :
  (0, lock_a) ∈ held_locks (remove_all_from (file_of lock_a) [] 0 1).1.2 ↔ (0, lock_a) ∈ held_locks (file_of lock_a) ∧ client lock_a ≠ 1.
Proof.
  apply (remove_all_from_correct (file_of lock_a) [] 0 1 true (remove_all_from (file_of lock_a) [] 0 1).1.2 [] (file_of_ok lock_a lock_a_ok) eq_refl).
Defined.
End Flock.
