(* ===== verification/PGLog.v ===== *)
(** * The log of a placement group and its missing set (osd/PGLog.h, osd/PGLog.cc, osd/osd_types.h)

    A placement group keeps a log of its recent changes and, next to it, the set of objects
    whose logged version is not in the store.  When the group peers, a log that diverges from
    the authoritative one is rewound, what it did to the store is undone or the objects are
    marked as missing, and the authoritative entries are appended.

    The log keeps iterators into its list.  A reverse iterator is the number of entries from
    it to the end, and so is [complete_to]; both stay what they are when entries are pushed or
    spliced at the other end, as the iterators do.  [complete_to] is [None] when the entry it
    points to has left the log.

    What the log does to the store it does through a [LogEntryHandler].  The index by request
    identifier is left out; the index by object is kept. *)
From stdpp Require Import gmap.
From S2P Require Import Prelude StdMap IntervalSet PgPool.

Module PGLog.
Import PgPool.

(** ** Versions (osd_types.h) *)

Record eversion_t : Type := mk_ev { epoch : Z; version : Z }.
#[export] Instance eversion_eq_dec : EqDecision eversion_t.
Proof. solve_decision. Defined.
#[export] Program Instance eversion_countable : Countable eversion_t :=
  inj_countable' (λ v, (epoch v, version v)) (λ p, mk_ev p.1 p.2) _.
Next Obligation. by intros []. Qed.

Definition ev0 : eversion_t := mk_ev 0 0.
Definition ev_max : eversion_t := mk_ev (2 ^ 32 - 1) (2 ^ 64 - 1).
Definition ev_lt (l r : eversion_t) : bool :=
  if epoch l =? epoch r then version l <? version r else epoch l <? epoch r.
Definition ev_le (l r : eversion_t) : bool :=
  if epoch l =? epoch r then version l <=? version r else epoch l <=? epoch r.
Definition ev_eqb (l r : eversion_t) : bool := bool_decide (l = r).
(** [MAX]. *)
Definition ev_MAX (a b : eversion_t) : eversion_t := if ev_lt b a then a else b.

(** ** Log entries *)

Record osd_reqid_t : Type := mk_reqid { name_type : Z; name_num : Z; tid : Z; inc : Z }.
#[export] Instance reqid_eq_dec : EqDecision osd_reqid_t.
Proof. solve_decision. Defined.

Inductive op_t : Type :=
| MODIFY | CLONE | DELETE | BACKLOG | LOST_REVERT | LOST_DELETE | LOST_MARK | PROMOTE | CLEAN | ERROR.
#[export] Instance op_eq_dec : EqDecision op_t.
Proof. solve_decision. Defined.

#[export] Instance hobject_eq_dec : EqDecision hobject_t.
Proof. solve_decision. Defined.
#[export] Program Instance hobject_countable : Countable hobject_t :=
  inj_countable' (λ h, (h_max h, (h_pool h, h_hash h), (h_nspace h, h_key h), (h_oid h, h_snap h)))
    (λ p, mk_hobj p.1.1.1 p.1.1.2.1 p.1.1.2.2 p.1.2.1 p.1.2.2 p.2.1 p.2.2) _.
Next Obligation. by intros []. Qed.

(** Of the description of a modification only [can_local_rollback] is looked at here. *)
Record pg_log_entry_t : Type := mk_entry {
  op : op_t;
  soid : hobject_t;
  reqid : osd_reqid_t;
  extra_reqids : list (osd_reqid_t * Z);
  e_version : eversion_t;
  prior_version : eversion_t;
  reverting_to : eversion_t;
  user_version : Z;
  return_code : Z;
  can_rollback : bool
}.
#[export] Instance entry_eq_dec : EqDecision pg_log_entry_t.
Proof. solve_decision. Defined.

Definition is_clone (e : pg_log_entry_t) : bool := if op e is CLONE then true else false.
Definition is_backlog (e : pg_log_entry_t) : bool := if op e is BACKLOG then true else false.
Definition is_lost_delete (e : pg_log_entry_t) : bool := if op e is LOST_DELETE then true else false.
Definition is_error (e : pg_log_entry_t) : bool := if op e is ERROR then true else false.
Definition is_update (e : pg_log_entry_t) : bool :=
  match op e with
  | CLONE | MODIFY | PROMOTE | CLEAN | BACKLOG | LOST_REVERT | LOST_MARK => true
  | _ => false
  end.
Definition is_delete (e : pg_log_entry_t) : bool :=
  match op e with DELETE | LOST_DELETE => true | _ => false end.
Definition object_is_indexed (e : pg_log_entry_t) : bool := negb (is_error e).

Record pg_log_dup_t : Type := mk_dup { d_reqid : osd_reqid_t; d_version : eversion_t; d_user_version : Z; d_return_code : Z }.
Definition dup_of_entry (e : pg_log_entry_t) : pg_log_dup_t := mk_dup (reqid e) (e_version e) (user_version e) (return_code e).

(** [hobject_t] comparisons. *)
Definition hobj_gt (l r : hobject_t) : bool := if hobj_cmp l r is Gt then true else false.
Definition hobj_le (l r : hobject_t) : bool := negb (hobj_gt l r).

(** ** The missing set *)

Record pg_missing_item : Type := mk_item { need : eversion_t; have : eversion_t; item_delete : bool }.

(** [changed] is the set of the tracker, which [pg_missing_t] does not have. *)
Record pg_missing_set : Type := mk_missing {
  missing : gmap hobject_t pg_missing_item;
  rmissing : list (Z * hobject_t);
  changed : gset hobject_t;
  may_include_deletes : bool
}.

Definition is_missing (m : pg_missing_set) (o : hobject_t) : bool := bool_decide (is_Some (missing m !! o)).
(** [is_missing] with a version. *)
Definition is_missing_at (m : pg_missing_set) (o : hobject_t) (v : eversion_t) : bool :=
  match missing m !! o with Some it => negb (ev_lt v (need it)) | None => false end.
Definition have_old (m : pg_missing_set) (o : hobject_t) : eversion_t :=
  match missing m !! o with Some it => have it | None => ev0 end.
Definition have_missing (m : pg_missing_set) : bool := negb (bool_decide (missing m = ∅)).

Definition add_next_event (m : pg_missing_set) (e : pg_log_entry_t) : res pg_missing_set :=
  let old := missing m !! soid e in
  it <-
    (if ev_eqb (prior_version e) ev0 || is_clone e then Ok (mk_item (e_version e) ev0 (is_delete e))
     else match old with
     | Some it => Ok (mk_item (e_version e) (have it) (is_delete e))
     | None =>
         if is_backlog e then Err AssertFailed
         else Ok (mk_item (e_version e) (prior_version e) (is_delete e))
     end);;
  let rm := match old with Some it => map_erase (version (need it)) (rmissing m) | None => rmissing m end in
  Ok (mk_missing (<[soid e := it]> (missing m)) (map_set (version (e_version e)) (soid e) rm)
        ({[soid e]} ∪ changed m) (may_include_deletes m)).

Definition revise_need (m : pg_missing_set) (o : hobject_t) (n : eversion_t) (del : bool) : pg_missing_set :=
  let '(it, rm) :=
    match missing m !! o with
    | Some it => (mk_item n (have it) del, map_erase (version (need it)) (rmissing m))
    | None => (mk_item n ev0 del, rmissing m)
    end in
  mk_missing (<[o := it]> (missing m)) (map_set (version n) o rm) ({[o]} ∪ changed m) (may_include_deletes m).

Definition revise_have (m : pg_missing_set) (o : hobject_t) (h : eversion_t) : pg_missing_set :=
  match missing m !! o with
  | Some it =>
      mk_missing (<[o := mk_item (need it) h (item_delete it)]> (missing m)) (rmissing m) ({[o]} ∪ changed m)
        (may_include_deletes m)
  | None => m
  end.

(** [add]. *)
Definition missing_add (m : pg_missing_set) (o : hobject_t) (n h : eversion_t) (del : bool) : pg_missing_set :=
  mk_missing (<[o := mk_item n h del]> (missing m)) (map_set (version n) o (rmissing m)) ({[o]} ∪ changed m)
    (may_include_deletes m).

(** [rm] and [got] of an iterator, which points to [o]. *)
Definition rm_it (m : pg_missing_set) (o : hobject_t) (it : pg_missing_item) : pg_missing_set :=
  mk_missing (delete o (missing m)) (map_erase (version (need it)) (rmissing m)) ({[o]} ∪ changed m) (may_include_deletes m).
Definition rm (m : pg_missing_set) (o : hobject_t) (v : eversion_t) : pg_missing_set :=
  match missing m !! o with
  | Some it => if ev_le (need it) v then rm_it m o it else m
  | None => m
  end.
Definition got (m : pg_missing_set) (o : hobject_t) (v : eversion_t) : res pg_missing_set :=
  match missing m !! o with
  | None => Err AssertFailed
  | Some it => assert (ev_le (need it) v || item_delete it);;; Ok (rm_it m o it)
  end.

Definition missing_clear (m : pg_missing_set) : pg_missing_set :=
  mk_missing ∅ [] (dom (missing m) ∪ changed m) (may_include_deletes m).

(** [missing.get_items().at(missing.get_rmissing().begin()->second).need]: the end of an empty map
    is dereferenced, and [at] throws where there is no item. *)
Definition first_missing (m : pg_missing_set) : res eversion_t :=
  match rmissing m with
  | [] => Err BadAccess
  | (_, o) :: _ => match missing m !! o with Some it => Ok (need it) | None => Err AssertFailed end
  end.

(** ** The log *)

Record pg_log_t : Type := mk_log {
  head : eversion_t;
  tail : eversion_t;
  can_rollback_to : eversion_t;
  rollback_info_trimmed_to : eversion_t;
  log : list pg_log_entry_t;
  dups : list pg_log_dup_t
}.

Definition log_null (l : pg_log_t) : bool := (version (head l) =? 0) && (epoch (head l) =? 0).

(** The search of [rewind_from_head] from the end of the log; [rlog] is reversed. *)
Fixpoint rewind_loop (newhead : eversion_t) (rlog divergent : list pg_log_entry_t) :
    res (list pg_log_entry_t * list pg_log_entry_t) :=
  match rlog with
  | [] => Ok ([], divergent)
  | p :: rest =>
      if version (e_version p) <=? version newhead then Ok (reverse rlog, divergent)
      else
        assert (ev_lt newhead (e_version p));;;
        rewind_loop newhead rest (p :: divergent)
  end.

Definition log_rewind_from_head (l : pg_log_t) (newhead : eversion_t) : res (list pg_log_entry_t * pg_log_t) :=
  assert (ev_le (tail l) newhead);;;
  '(kept, divergent) <- rewind_loop newhead (reverse (log l)) [];;
  Ok (divergent,
      mk_log newhead (tail l)
        (if ev_lt newhead (can_rollback_to l) then newhead else can_rollback_to l)
        (if ev_lt newhead (rollback_info_trimmed_to l) then newhead else rollback_info_trimmed_to l)
        kept (dups l)).

(** ** The handler of what is done to the store *)

Class LogEntryHandler (S : Type) := {
  h_rollback : pg_log_entry_t → S → S;
  h_rollforward : pg_log_entry_t → S → S;
  h_trim : pg_log_entry_t → S → S;
  h_remove : hobject_t → S → S;
  h_try_stash : hobject_t → Z → S → S
}.

(** ** The indexed log *)

Record IndexedLog : Type := mk_ilog {
  base : pg_log_t;
  objects : gmap hobject_t pg_log_entry_t;
  indexed_objects : bool;
  complete_to : option nat;
  last_requested : Z;
  riter : nat
}.

Definition set_base (l : IndexedLog) (b : pg_log_t) : IndexedLog :=
  mk_ilog b (objects l) (indexed_objects l) (complete_to l) (last_requested l) (riter l).

Fixpoint take_while {A} (f : A → bool) (l : list A) : list A :=
  match l with [] => [] | x :: l => if f x then x :: take_while f l else [] end.
Fixpoint drop_while {A} (f : A → bool) (l : list A) : list A :=
  match l with [] => [] | x :: l' => if f x then drop_while f l' else l end.

(** [reset_rollback_info_trimmed_to_riter]: past the entries that are newer. *)
Definition riter_of (b : pg_log_t) : nat :=
  length (take_while (λ e, ev_lt (rollback_info_trimmed_to b) (e_version e)) (reverse (log b))).
Definition reset_rollback_info_trimmed_to_riter (l : IndexedLog) : IndexedLog :=
  mk_ilog (base l) (objects l) (indexed_objects l) (complete_to l) (last_requested l) (riter_of (base l)).

(** [index]: the last entry of an object wins. *)
Definition index_of (es : list pg_log_entry_t) : gmap hobject_t pg_log_entry_t :=
  foldl (λ m e, if object_is_indexed e then <[soid e := e]> m else m) ∅ es.
Definition index (l : IndexedLog) : IndexedLog :=
  mk_ilog (base l) (index_of (log (base l))) true (complete_to l) (last_requested l) (riter l).
Definition unindex (l : IndexedLog) : IndexedLog :=
  mk_ilog (base l) ∅ false (complete_to l) (last_requested l) (riter l).

(** [index] and [unindex] of one entry. *)
Definition index_entry (l : IndexedLog) (e : pg_log_entry_t) : IndexedLog :=
  if indexed_objects l && object_is_indexed e then
    match objects l !! soid e with
    | Some old =>
        if ev_lt (e_version old) (e_version e) then
          mk_ilog (base l) (<[soid e := e]> (objects l)) true (complete_to l) (last_requested l) (riter l)
        else l
    | None => mk_ilog (base l) (<[soid e := e]> (objects l)) true (complete_to l) (last_requested l) (riter l)
    end
  else l.
Definition unindex_entry (objs : gmap hobject_t pg_log_entry_t) (indexed : bool) (e : pg_log_entry_t) :
    gmap hobject_t pg_log_entry_t :=
  match objs !! soid e with
  | Some old => if indexed && ev_eqb (e_version old) (e_version e) then delete (soid e) objs else objs
  | None => objs
  end.

(** [IndexedLog(const pg_log_t &)]. *)
Definition indexed_log (b : pg_log_t) : IndexedLog := index (mk_ilog b ∅ false (Some 0%nat) 0 (riter_of b)).

Definition rewind_from_head (l : IndexedLog) (newhead : eversion_t) : res (list pg_log_entry_t * IndexedLog) :=
  '(divergent, b) <- log_rewind_from_head (base l) newhead;;
  let n := length divergent in
  let c :=
    match complete_to l with
    | Some k => if (k =? 0)%nat then Some 0%nat else if (k <=? n)%nat then None else Some (k - n)%nat
    | None => None
    end in
  Ok (divergent,
      reset_rollback_info_trimmed_to_riter
        (index (mk_ilog b (objects l) (indexed_objects l) c (last_requested l) (riter l)))).

(** The walk of [advance_can_rollback_to] towards the head; the entries that are left are newer. *)
Fixpoint advance_loop {S} (f : pg_log_entry_t → S → S) (to : eversion_t) (es : list pg_log_entry_t) (h : S) : nat * S :=
  match es with
  | [] => (0%nat, h)
  | e :: rest => if ev_lt to (e_version e) then (length es, h) else advance_loop f to rest (f e h)
  end.
Definition advance_can_rollback_to {S} (f : pg_log_entry_t → S → S) (l : IndexedLog) (to : eversion_t) (h : S) :
    IndexedLog * S :=
  let b := base l in
  let trimmed := if ev_lt (rollback_info_trimmed_to b) to then to else rollback_info_trimmed_to b in
  let '(d, h) := advance_loop f trimmed (drop (length (log b) - riter l) (log b)) h in
  (mk_ilog (mk_log (head b) (tail b) (if ev_lt (can_rollback_to b) to then to else can_rollback_to b) trimmed (log b) (dups b))
     (objects l) (indexed_objects l) (complete_to l) (last_requested l) d, h).

Definition skip_can_rollback_to_to_head (l : IndexedLog) : IndexedLog :=
  (advance_can_rollback_to (λ _ (h : unit), h) l (head (base l)) tt).1.

(** [add]. *)
Definition log_add (l : IndexedLog) (e : pg_log_entry_t) (applied : bool) : res IndexedLog :=
  let b := base l in
  assert (applied || ev_eqb (can_rollback_to b) (head b));;;
  assert (ev_lt (head b) (e_version e));;;
  assert ((version (head b) =? 0) || (version (head b) <? version (e_version e)));;;
  let l :=
    mk_ilog (mk_log (e_version e) (tail b) (can_rollback_to b) (rollback_info_trimmed_to b) (log b ++ [e]) (dups b))
      (if indexed_objects l && object_is_indexed e then <[soid e := e]> (objects l) else objects l)
      (indexed_objects l)
      (match complete_to l with Some (S k) => Some (S (S k)) | c => c end)
      (last_requested l) (S (riter l)) in
  Ok (if applied then l else skip_can_rollback_to_to_head l).

Definition reset_recovery_pointers (l : IndexedLog) : IndexedLog :=
  mk_ilog (base l) (objects l) (indexed_objects l) (Some 0%nat) 0 (riter l).
Definition log_zero (l : IndexedLog) : res IndexedLog :=
  assert (ev_eqb (rollback_info_trimmed_to (base l)) (head (base l)));;;
  assert (riter l =? 0)%nat;;;
  Ok (mk_ilog (mk_log ev0 ev0 ev0 ev0 [] []) ∅ false (Some 0%nat) 0 0).
Definition log_clear (l : IndexedLog) : res IndexedLog := log_zero (skip_can_rollback_to_to_head l).
Definition claim_log_and_clear_rollback_info (l : IndexedLog) (o : pg_log_t) : res IndexedLog :=
  assert (ev_eqb (rollback_info_trimmed_to (base l)) (head (base l)));;;
  assert (riter l =? 0)%nat;;;
  Ok (index (skip_can_rollback_to_to_head (indexed_log o))).

(** *** Trimming *)

Record trim_t : Type := mk_trim {
  t_objects : gmap hobject_t pg_log_entry_t;
  t_dups : list pg_log_dup_t;
  t_trimmed : gset eversion_t;
  t_dirty : bool
}.

(** The duplicates that an entry leaves behind. *)
Definition dups_of_entry (e : pg_log_entry_t) : list pg_log_dup_t :=
  dup_of_entry e :: map (λ x : osd_reqid_t * Z, mk_dup x.1 (e_version e) x.2 (return_code e)) (extra_reqids e).

Fixpoint trim_loop (s : eversion_t) (earliest : Z) (indexed : bool) (es : list pg_log_entry_t) (t : trim_t) :
    list pg_log_entry_t * trim_t :=
  match es with
  | [] => ([], t)
  | e :: rest =>
      if ev_lt s (e_version e) then (es, t)
      else
        let keep := earliest <=? version (e_version e) in
        trim_loop s earliest indexed rest
          (mk_trim (unindex_entry (t_objects t) indexed e)
             (if keep then t_dups t ++ dups_of_entry e else t_dups t)
             ({[e_version e]} ∪ t_trimmed t) (t_dirty t || keep))
  end.

Definition log_trim (dups_tracked : Z) (l : IndexedLog) (s : eversion_t) (trimmed : gset eversion_t)
    (trimmed_dups : list pg_log_dup_t) (dirty_dups : bool) :
    res (IndexedLog * gset eversion_t * list pg_log_dup_t * bool) :=
  let b := base l in
  c <- deref (complete_to l);;
  assert (ev_le s (can_rollback_to b));;;
  newest <- deref (last (log b));;
  let v := version (e_version newest) in
  let earliest := if v <? dups_tracked then 0 else v - dups_tracked in
  let '(es, t) := trim_loop s earliest (indexed_objects l) (log b) (mk_trim (objects l) (dups b) trimmed dirty_dups) in
  let old := take_while (λ d, version (d_version d) <? earliest) (t_dups t) in
  let ds := drop_while (λ d, version (d_version d) <? earliest) (t_dups t) in
  Ok (mk_ilog (mk_log (head b) (if ev_lt (tail b) s then s else tail b) (can_rollback_to b) (rollback_info_trimmed_to b) es ds)
        (t_objects t) (indexed_objects l)
        (if (c <=? length es)%nat then Some c else None)
        (last_requested l) (riter l `min` length es)%nat,
      t_trimmed t, trimmed_dups ++ old, t_dirty t).

(** ** The placement group *)

(** What the merge copies from another OSD without looking at it: the rest of the statistics
    and the history of hit sets. *)
Section Group.
Context {HitSet Stats : Type}.

Record pg_stat_t : Type := mk_stats { reported_seq : Z; reported_epoch : Z; stats_rest : Stats }.

(** The members of [pg_info_t] that the log reads or writes. *)
Record pg_info_t : Type := mk_info {
  last_update : eversion_t;
  last_complete : eversion_t;
  last_user_version : Z;
  log_tail : eversion_t;
  last_backfill : hobject_t;
  purged_snaps : IntervalSet.t;
  stats : pg_stat_t;
  hit_set : HitSet
}.

Definition set_last_update (i : pg_info_t) (v : eversion_t) : pg_info_t :=
  mk_info v (last_complete i) (last_user_version i) (log_tail i) (last_backfill i) (purged_snaps i) (stats i) (hit_set i).
Definition set_last_complete (i : pg_info_t) (v : eversion_t) : pg_info_t :=
  mk_info (last_update i) v (last_user_version i) (log_tail i) (last_backfill i) (purged_snaps i) (stats i) (hit_set i).
Definition set_log_tail (i : pg_info_t) (v : eversion_t) : pg_info_t :=
  mk_info (last_update i) (last_complete i) (last_user_version i) v (last_backfill i) (purged_snaps i) (stats i) (hit_set i).
Definition set_stats (i : pg_info_t) (st : pg_stat_t) : pg_info_t :=
  mk_info (last_update i) (last_complete i) (last_user_version i) (log_tail i) (last_backfill i) (purged_snaps i) st (hit_set i).
Definition set_hit_set (i : pg_info_t) (h : HitSet) : pg_info_t :=
  mk_info (last_update i) (last_complete i) (last_user_version i) (log_tail i) (last_backfill i) (purged_snaps i) (stats i) h.
Definition set_user (i : pg_info_t) (v : Z) (ps : IntervalSet.t) : pg_info_t :=
  mk_info (last_update i) (last_complete i) v (log_tail i) (last_backfill i) ps (stats i) (hit_set i).

Record PGLog_t : Type := mk_pglog {
  p_missing : pg_missing_set;
  p_log : IndexedLog;
  dirty_to : eversion_t;
  dirty_from : eversion_t;
  writeout_from : eversion_t;
  trimmed : gset eversion_t;
  trimmed_dups : list pg_log_dup_t;
  dirty_dups : bool
}.

Definition set_missing (p : PGLog_t) (m : pg_missing_set) : PGLog_t :=
  mk_pglog m (p_log p) (dirty_to p) (dirty_from p) (writeout_from p) (trimmed p) (trimmed_dups p) (dirty_dups p).
Definition set_log (p : PGLog_t) (l : IndexedLog) : PGLog_t :=
  mk_pglog (p_missing p) l (dirty_to p) (dirty_from p) (writeout_from p) (trimmed p) (trimmed_dups p) (dirty_dups p).
Definition mark_dirty_to (p : PGLog_t) (v : eversion_t) : PGLog_t :=
  mk_pglog (p_missing p) (p_log p) (if ev_lt (dirty_to p) v then v else dirty_to p) (dirty_from p) (writeout_from p)
    (trimmed p) (trimmed_dups p) (dirty_dups p).
Definition mark_dirty_from (p : PGLog_t) (v : eversion_t) : PGLog_t :=
  mk_pglog (p_missing p) (p_log p) (dirty_to p) (if ev_lt v (dirty_from p) then v else dirty_from p) (writeout_from p)
    (trimmed p) (trimmed_dups p) (dirty_dups p).
Definition mark_writeout_from (p : PGLog_t) (v : eversion_t) : PGLog_t :=
  mk_pglog (p_missing p) (p_log p) (dirty_to p) (dirty_from p) (if ev_lt v (writeout_from p) then v else writeout_from p)
    (trimmed p) (trimmed_dups p) (dirty_dups p).

(** [add] and [trim] of the log of a group. *)
Definition pg_add (p : PGLog_t) (e : pg_log_entry_t) (applied : bool) : res PGLog_t :=
  l <- log_add (p_log p) e applied;;
  Ok (set_log (mark_writeout_from p (e_version e)) l).

Definition pg_trim (dups_tracked : Z) (p : PGLog_t) (info : pg_info_t) (trim_to : eversion_t) : res (PGLog_t * pg_info_t) :=
  if ev_lt (tail (base (p_log p))) trim_to then
    assert (ev_le trim_to (last_complete info));;;
    '(l, ts, ds, dirty) <- log_trim dups_tracked (p_log p) trim_to (trimmed p) (trimmed_dups p) (dirty_dups p);;
    Ok (mk_pglog (p_missing p) l (dirty_to p) (dirty_from p) (writeout_from p) ts ds dirty,
        set_log_tail info (tail (base l)))
  else Ok (p, info).

(** The group takes over the log of another OSD when it is backfilled. *)
Definition reset_backfill_claim_log {S} `{!LogEntryHandler S} (p : PGLog_t) (o : pg_log_t) (h : S) : res (PGLog_t * S) :=
  let '(l, h) := advance_can_rollback_to h_trim (p_log p) (head (base (p_log p))) h in
  l <- claim_log_and_clear_rollback_info l o;;
  Ok (mark_dirty_to (set_missing (set_log p l) (missing_clear (p_missing p))) ev_max, h).

(** *** Recovery *)

(** The entry [complete_to] points to. *)
Definition complete_entry (l : IndexedLog) (k : nat) : res pg_log_entry_t :=
  if (k =? 0)%nat then Err BadAccess else deref (log (base l) !! (length (log (base l)) - k)%nat).

Definition set_complete_to (l : IndexedLog) (k : nat) : IndexedLog :=
  mk_ilog (base l) (objects l) (indexed_objects l) (Some k) (last_requested l) (riter l).

(** The loop of [recover_got] that raises [last_complete]; [k] entries are left. *)
Fixpoint raise_complete (m : pg_missing_set) (l : IndexedLog) (k : nat) (info : pg_info_t) : res (nat * pg_info_t) :=
  match k with
  | O => Ok (0%nat, info)
  | S k' =>
      n <- first_missing m;;
      e <- complete_entry l k;;
      if ev_le n (e_version e) then Ok (k, info)
      else raise_complete m l k' (if ev_lt (last_complete info) (e_version e) then set_last_complete info (e_version e) else info)
  end.

Definition recover_got (p : PGLog_t) (info : pg_info_t) (o : hobject_t) (v : eversion_t) : res (PGLog_t * pg_info_t) :=
  '(p, info) <-
    (if is_missing_at (p_missing p) o v then
       m <- got (p_missing p) o v;;
       '(k, info) <-
         (if bool_decide (missing m = ∅) then Ok (0%nat, set_last_complete info (last_update info))
          else
            k <- deref (complete_to (p_log p));;
            raise_complete m (p_log p) k info);;
       Ok (set_log (set_missing p m) (set_complete_to (p_log p) k), info)
     else Ok (p, info));;
  assert (ev_le v (can_rollback_to (base (p_log p))));;;
  Ok (p, info).

(** The loop of [reset_complete_to]; the version is read before the end of the log is asserted. *)
Fixpoint seek_complete (m : pg_missing_set) (l : IndexedLog) (k : nat) : res nat :=
  if bool_decide (missing m = ∅) then Ok k
  else
    e <- complete_entry l k;;
    n <- first_missing m;;
    if ev_lt (e_version e) n then match k with O => Err AssertFailed | S k' => seek_complete m l k' end
    else Ok k.

Definition reset_complete_to (p : PGLog_t) (info : pg_info_t) : res (PGLog_t * pg_info_t) :=
  let l := p_log p in
  let n := length (log (base l)) in
  k <- seek_complete (p_missing p) l n;;
  assert (negb (k =? 0)%nat);;;
  v <- (if (k =? n)%nat then Ok ev0 else e <- complete_entry l (S k);; Ok (e_version e));;
  Ok (set_log p (set_complete_to l k), set_last_complete info v).

Definition activate_not_complete (p : PGLog_t) (info : pg_info_t) : res (PGLog_t * pg_info_t) :=
  '(p, info) <- reset_complete_to p info;;
  let l := p_log p in
  Ok (set_log p (mk_ilog (base l) (objects l) (indexed_objects l) (complete_to l) 0 (riter l)), info).

(** *** Divergent entries *)

(** [split_by_object]: a [std::map] in the order of the objects. *)
Fixpoint split_add (e : pg_log_entry_t) (m : list (hobject_t * list pg_log_entry_t)) :
    list (hobject_t * list pg_log_entry_t) :=
  match m with
  | [] => [(soid e, [e])]
  | (o, es) :: rest =>
      match hobj_cmp (soid e) o with
      | Eq => (o, es ++ [e]) :: rest
      | Lt => (soid e, [e]) :: m
      | Gt => (o, es) :: split_add e rest
      end
  end.
Definition split_by_object (es : list pg_log_entry_t) : list (hobject_t * list pg_log_entry_t) :=
  foldl (λ m e, split_add e m) [] es.

(** The entries of an object without those that returned an error, which are checked on the way. *)
Fixpoint strip_errors (hoid : hobject_t) (first seen : bool) (last : eversion_t) (es : list pg_log_entry_t) :
    res (list pg_log_entry_t) :=
  match es with
  | [] => Ok []
  | i :: rest =>
      assert (bool_decide (soid i = hoid));;;
      let first_non_error := negb seen && negb (is_error i) in
      (if negb first && negb (ev_eqb (prior_version i) ev0) && negb first_non_error then
         assert (ev_lt last (e_version i));;;
         assert (ev_eqb (prior_version i) last || is_error i)
       else Ok tt);;;
      if is_error i then strip_errors hoid false seen last rest
      else
        kept <- strip_errors hoid false true (e_version i) rest;;
        Ok (i :: kept)
  end.

Section Handled.
Context {S : Type} `{!LogEntryHandler S}.

Definition trim_all (es : list pg_log_entry_t) (h : S) : S := foldl (λ h e, h_trim e h) h es.
(** The object leaves the store, unless it is not there, and the undo information of its entries goes. *)
Definition remove_trim (not_in_store : bool) (o : hobject_t) (es : list pg_log_entry_t) (h : S) : S :=
  trim_all es (if not_in_store then h else h_remove o h).

(** The entry of the object in the log, when it is not older than the first divergent one. *)
Definition newer_entry (l : IndexedLog) (hoid : hobject_t) (v : eversion_t) : option pg_log_entry_t :=
  match objects l !! hoid with
  | Some o => if ev_le v (e_version o) then Some o else None
  | None => None
  end.

Definition _merge_object_divergent_entries (l : IndexedLog) (hoid : hobject_t) (orig_entries : list pg_log_entry_t)
    (bf : hobject_t) (olog_can_rollback_to : eversion_t) (m : pg_missing_set) (rb : option S) : res (pg_missing_set * option S) :=
  if hobj_gt hoid bf then Ok (m, rb) else
  assert (negb (bool_decide (orig_entries = [])));;;
  entries <- strip_errors hoid true false ev0 orig_entries;;
  match entries, last entries with
  | front :: _, Some back =>
      let prior := prior_version front in
      let not_in_store := negb (is_missing m hoid) && is_delete back in
      match newer_entry l hoid (e_version front) with
      | Some o =>
          (* case 1 *)
          assert (ev_lt (e_version back) (e_version o));;;
          (if is_update o || (may_include_deletes m && is_delete o) then
             assert (bool_decide (need <$> missing m !! hoid = Some (e_version o)))
           else assert (negb (is_missing m hoid)));;;
          Ok (revise_have m hoid ev0, remove_trim not_in_store hoid entries <$> rb)
      | None =>
          if ev_eqb prior ev0 || is_clone front then
            (* case 2 *)
            Ok (match missing m !! hoid with Some it => rm_it m hoid it | None => m end,
                remove_trim not_in_store hoid entries <$> rb)
          else
            match missing m !! hoid with
            | Some it =>
                (* case 3 *)
                Ok (if ev_eqb (have it) prior then rm_it m hoid it else revise_need m hoid prior false,
                    trim_all entries <$> rb)
            | None =>
                if forallb (λ i, can_rollback i && ev_lt olog_can_rollback_to (e_version i)) entries then
                  (* case 4 *)
                  Ok (m, (λ h, foldr h_rollback h entries) <$> rb)
                else
                  (* case 5 *)
                  Ok (missing_add m hoid prior ev0 false, remove_trim not_in_store hoid entries <$> rb)
            end
      end
  | _, _ => Ok (m, rb)
  end.

(** The loop of [_merge_divergent_entries] over the objects. *)
Fixpoint merge_split (l : IndexedLog) (split : list (hobject_t * list pg_log_entry_t)) (bf : hobject_t)
    (olog_can_rollback_to : eversion_t) (m : pg_missing_set) (rb : option S) : res (pg_missing_set * option S) :=
  match split with
  | [] => Ok (m, rb)
  | (o, es) :: split =>
      '(m, rb) <- _merge_object_divergent_entries l o es bf olog_can_rollback_to m rb;;
      merge_split l split bf olog_can_rollback_to m rb
  end.
Definition _merge_divergent_entries (l : IndexedLog) (entries : list pg_log_entry_t) (bf : hobject_t)
    (olog_can_rollback_to : eversion_t) (m : pg_missing_set) (rb : option S) : res (pg_missing_set * option S) :=
  merge_split l (split_by_object entries) bf olog_can_rollback_to m rb.

Definition rewind_divergent_log (p : PGLog_t) (info : pg_info_t) (newhead : eversion_t) (h : S) : res (PGLog_t * pg_info_t * S) :=
  let info := if ev_lt newhead (last_complete info) then set_last_complete info newhead else info in
  '(divergent, l) <- rewind_from_head (p_log p) newhead;;
  let p := match divergent with e :: _ => mark_dirty_from p (e_version e) | [] => p end in
  let info := set_last_update info newhead in
  '(m, rb) <- _merge_divergent_entries l divergent (last_backfill info) (can_rollback_to (base l)) (p_missing p) (Some h);;
  Ok (set_missing (set_log p l) m, info, default h rb).

(** *** New entries *)

(** What one new entry does to the missing set and the store. *)
Definition update_missing (bf : hobject_t) (maintain_rollback : bool) (p : pg_log_entry_t) (m : pg_missing_set) (rb : option S) :
    res (pg_missing_set * option S) :=
  if hobj_le (soid p) bf && negb (is_error p) then
    if may_include_deletes m then m <- add_next_event m p;; Ok (m, rb)
    else
      m <- (if is_delete p then Ok (rm m (soid p) (e_version p)) else add_next_event m p);;
      Ok (m,
          (λ h : S,
            if maintain_rollback && is_lost_delete p && can_rollback p then h_try_stash (soid p) (version (e_version p)) h
            else if is_delete p then h_remove (soid p) h
            else h) <$> rb)
  else Ok (m, rb).

Fixpoint append_loop (bf : hobject_t) (maintain_rollback : bool) (es : list pg_log_entry_t) (l : option IndexedLog)
    (m : pg_missing_set) (rb : option S) (invalidate : bool) : res (option IndexedLog * pg_missing_set * option S * bool) :=
  match es with
  | [] => Ok (l, m, rb, invalidate)
  | p :: es =>
      l <- (match l with Some l => l <- log_add l p true;; Ok (Some l) | None => Ok None end);;
      '(m, rb) <- update_missing bf maintain_rollback p m rb;;
      append_loop bf maintain_rollback es l m rb (invalidate || negb (is_error p))
  end.
Definition append_log_entries_update_missing (bf : hobject_t) (es : list pg_log_entry_t) (maintain_rollback : bool)
    (l : option IndexedLog) (m : pg_missing_set) (rb : option S) : res (option IndexedLog * pg_missing_set * option S * bool) :=
  (match l, es with Some l, e :: _ => assert (ev_lt (head (base l)) (e_version e)) | _, _ => Ok tt end);;;
  append_loop bf maintain_rollback es l m rb false.

Definition append_new_log_entries (p : PGLog_t) (info : pg_info_t) (es : list pg_log_entry_t) (rb : option S) :
    res (PGLog_t * option S * bool) :=
  '(l, m, rb, invalidate) <- append_log_entries_update_missing (last_backfill info) es true (Some (p_log p)) (p_missing p) rb;;
  let p := set_missing (set_log p (default (p_log p) l)) m in
  match es with
  | [] => Ok (p, rb, invalidate)
  | e :: _ =>
      let p := mark_writeout_from p (e_version e) in
      if is_lost_delete e then '(p, _) <- reset_complete_to p info;; Ok (p, rb, invalidate)
      else Ok (p, rb, invalidate)
  end.

(** *** Merging with the authoritative log *)

(** [merge_log_dups]. *)
Definition extend_dups (ds ods : list pg_log_dup_t) : list pg_log_dup_t * bool :=
  match ods, last ods, ds, last ds with
  | ofront :: _, Some oback, front :: _, Some back =>
      let newer := ev_lt (d_version back) (d_version oback) in
      let ds := if newer then ds ++ reverse (take_while (λ d, ev_lt (d_version back) (d_version d)) (reverse ods)) else ds in
      let older := ev_lt (d_version ofront) (d_version front) in
      (if older then take_while (λ d, ev_lt (d_version d) (d_version front)) ods ++ ds else ds, newer || older)
  | _ :: _, Some _, _, _ => (ods, true)
  | _, _, _, _ => (ds, false)
  end.
Definition merge_log_dups (l : IndexedLog) (olog : pg_log_t) : IndexedLog * bool :=
  let b := base l in
  let '(ds, changed) := extend_dups (dups b) (dups olog) in
  let ds' := reverse (drop_while (λ d, ev_le (tail b) (d_version d)) (reverse ds)) in
  (set_base l (mk_log (head b) (tail b) (can_rollback_to b) (rollback_info_trimmed_to b) (log b) ds'),
   changed || negb (length ds' =? length ds)%nat).

(** Filling in history at the tail; the entries that are left of the other log are returned. *)
Definition extend_tail (p : PGLog_t) (info : pg_info_t) (olog : pg_log_t) : PGLog_t * pg_info_t * list pg_log_entry_t :=
  let b := base (p_log p) in
  let older := λ e, ev_le (e_version e) (tail b) in
  let old := take_while older (log olog) in
  let l := foldl index_entry (p_log p) old in
  let b := mk_log (head b) (tail olog) (can_rollback_to b) (rollback_info_trimmed_to b) (old ++ log b) (dups b) in
  (set_log (mark_dirty_to p (default ev0 (e_version <$> last old))) (set_base l b),
   set_log_tail info (tail olog), drop_while older (log olog)).

(** Appending what is new at the head; [oes] is what is left of the other log. *)
Definition extend_head (p : PGLog_t) (info oinfo : pg_info_t) (olog : pg_log_t) (oes : list pg_log_entry_t) (orig_tail : eversion_t)
    (h : S) : res (PGLog_t * pg_info_t * S) :=
  let hd := head (base (p_log p)) in
  let newer := λ e, ev_lt hd (e_version e) in
  let shared := drop_while newer (reverse oes) in
  let new_entries := reverse (take_while newer (reverse oes)) in
  let bound := ev_MAX (tail olog) orig_tail in
  let lower_bound := match shared with e :: _ => ev_MAX bound (e_version e) | [] => bound end in
  let p := mark_dirty_from p lower_bound in
  '(divergent, l) <- rewind_from_head (p_log p) lower_bound;;
  let '(l, h) := advance_can_rollback_to h_rollforward l (head (base l)) h in
  '(l', m, rb, _) <- append_log_entries_update_missing (last_backfill info) new_entries false (Some l) (p_missing p) (Some h);;
  let l := default l l' in
  '(m, rb) <- _merge_divergent_entries l divergent (last_backfill info) (can_rollback_to (base l)) m rb;;
  let b := base l in
  let l := set_base l (mk_log (head olog) (tail b) (can_rollback_to b) (rollback_info_trimmed_to b) (log b) (dups b)) in
  let l := skip_can_rollback_to_to_head l in
  Ok (set_missing (set_log p l) m,
      set_user (set_last_update info (head olog)) (last_user_version oinfo) (purged_snaps oinfo), default h rb).

(** Divergent entries are thrown out where our log is longer, and new ones appended where the other is. *)
Definition merge_heads (p : PGLog_t) (oinfo info : pg_info_t) (olog : pg_log_t) (oes : list pg_log_entry_t) (orig_tail : eversion_t)
    (h : S) : res (PGLog_t * pg_info_t * S * bool) :=
  let shorter := ev_lt (head olog) (head (base (p_log p))) in
  '(p, info, h) <- (if shorter then rewind_divergent_log p info (head olog) h else Ok (p, info, h));;
  let longer := ev_lt (head (base (p_log p))) (head olog) in
  '(p, info, h) <- (if longer then extend_head p info oinfo olog oes orig_tail h else Ok (p, info, h));;
  Ok (p, info, h, shorter || longer).

Definition merge_log (p : PGLog_t) (oinfo info : pg_info_t) (olog : pg_log_t) (h : S) : res (PGLog_t * pg_info_t * pg_info_t * S * bool) :=
  let b := base (p_log p) in
  assert (negb (log_null b) || ev_eqb (tail olog) ev0);;;
  assert (ev_le (tail olog) (head b) && ev_le (tail b) (head olog));;;
  let orig_tail := tail b in
  let longer_tail := ev_lt (tail olog) (tail b) in
  let '(p, info, oes) := if longer_tail then extend_tail p info olog else (p, info, log olog) in
  let oinfo :=
    if (reported_seq (stats oinfo) <? reported_seq (stats info)) || (reported_epoch (stats oinfo) <? reported_epoch (stats info)) then
      set_stats oinfo (mk_stats (reported_seq (stats info)) (reported_epoch (stats info)) (stats_rest (stats oinfo)))
    else oinfo in
  let info := if h_max (last_backfill info) then set_stats info (stats oinfo) else info in
  let info := set_hit_set info (hit_set oinfo) in
  '(p, info, h, changed) <- merge_heads p oinfo info olog oes orig_tail h;;
  let '(l, dups_changed) := merge_log_dups (p_log p) olog in
  Ok (mk_pglog (p_missing p) l (dirty_to p) (dirty_from p) (writeout_from p) (trimmed p) (trimmed_dups p) (dirty_dups p || dups_changed),
      oinfo, info, h, longer_tail || changed || dups_changed).

(** *** The log of a replica, seen from the primary *)

Definition proc_replica_log (p : PGLog_t) (oinfo : pg_info_t) (olog : pg_log_t) (omissing : pg_missing_set) : res (pg_info_t * pg_missing_set) :=
  let b := base (p_log p) in
  if ev_lt (head olog) (tail b) then Ok (oinfo, omissing)
  else if ev_eqb (head olog) (head b) then Ok (oinfo, omissing)
  else
    assert (ev_le (tail b) (head olog));;;
    let limit := ev_MAX (tail olog) (tail b) in
    let lu :=
      match drop_while (λ e, ev_lt (head olog) (e_version e)) (reverse (log b)) with
      | e :: _ => if ev_lt (e_version e) limit then limit else e_version e
      | [] => limit
      end in
    '(divergent, folog) <- rewind_from_head (indexed_log olog) lu;;
    '(omissing, _) <- _merge_divergent_entries folog divergent (last_backfill oinfo) (can_rollback_to olog) omissing None;;
    let oinfo := if ev_lt lu (last_update oinfo) then set_last_update oinfo lu else oinfo in
    v <-
      (if have_missing omissing then
         n <- first_missing omissing;;
         Ok (default ev0 (e_version <$> last (take_while (λ e, ev_lt (e_version e) n) (log olog))))
       else Ok (last_update oinfo));;
    Ok (set_last_complete oinfo v, omissing).
End Handled.
End Group.
Arguments pg_info_t : clear implicits.
Arguments pg_stat_t : clear implicits.
End PGLog.
