(* ===== verification/PGLogMerge.v ===== *)
(** * Merging the logs of a placement group (osd/PGLog.h, osd/PGLog.cc)

    What a log says about an object, what it means for a missing set and a store to be in
    accordance with a log, and the proof that merging with the authoritative log leaves them in
    accordance with it. *)
From stdpp Require Import gmap.
From S2P Require Import Prelude StdMap IntervalSet PgPool PgSplit PGLog.

Module PGLogMerge.
Import PgPool PGLog.

(** ** The order of versions *)

Lemma ev_lt_iff a b : ev_lt a b = true ↔ epoch a < epoch b ∨ epoch a = epoch b ∧ version a < version b.
Proof. unfold ev_lt. destruct (Z.eqb_spec (epoch a) (epoch b)); rewrite Z.ltb_lt; lia. Qed.
Lemma ev_le_iff a b : ev_le a b = true ↔ epoch a < epoch b ∨ epoch a = epoch b ∧ version a <= version b.
Proof. unfold ev_le. destruct (Z.eqb_spec (epoch a) (epoch b)); rewrite Z.leb_le; lia. Qed.
Lemma ev_lt_nle a b : ev_lt a b = false ↔ ev_le b a = true.
Proof. rewrite <- not_true_iff_false, ev_lt_iff, ev_le_iff. lia. Qed.
Lemma ev_le_nlt a b : ev_le a b = false ↔ ev_lt b a = true.
Proof. rewrite <- not_true_iff_false, ev_lt_iff, ev_le_iff. lia. Qed.
Lemma ev_eqb_eq a b : ev_eqb a b = true ↔ a = b.
Proof. apply bool_decide_eq_true. Qed.
Lemma ev_eq a b : epoch a = epoch b → version a = version b → a = b.
Proof. destruct a, b; simpl; congruence. Qed.
Lemma ev_le_antisym a b : ev_le a b = true → ev_le b a = true → a = b.
Proof. rewrite !ev_le_iff. intros. apply ev_eq; lia. Qed.

(** [ev_lia] reads the comparisons of versions as integer arithmetic. *)
Ltac ev_lia :=
  repeat match goal with
    | H : ev_lt _ _ = true |- _ => rewrite ev_lt_iff in H
    | H : ev_le _ _ = true |- _ => rewrite ev_le_iff in H
    | H : ev_lt _ _ = false |- _ => rewrite ev_lt_nle, ev_le_iff in H
    | H : ev_le _ _ = false |- _ => rewrite ev_le_nlt, ev_lt_iff in H
    | |- ev_lt _ _ = true => rewrite ev_lt_iff
    | |- ev_le _ _ = true => rewrite ev_le_iff
    | |- ev_lt _ _ = false => rewrite ev_lt_nle, ev_le_iff
    | |- ev_le _ _ = false => rewrite ev_le_nlt, ev_lt_iff
    end; (lia || (try subst; simpl in *; lia)).

Lemma ev_MAX_spec a b : (ev_le a b = true ∧ ev_MAX a b = b) ∨ (ev_lt b a = true ∧ ev_MAX a b = a).
Proof. unfold ev_MAX. destruct (ev_lt b a) eqn:E; [by right|]. left. split; [ev_lia|done]. Qed.

(** ** The order of objects *)

(** A comparison that is a total preorder. *)
Record cmp_laws {A} (f : A → A → comparison) : Prop := {
  cmp_opp : ∀ x y, f y x = CompOpp (f x y);
  cmp_trans : ∀ x y z, f x y = Lt → f y z = Lt → f x z = Lt;
  cmp_eq : ∀ x y z, f x y = Eq → f x z = f y z
}.

Lemma cmp_laws_Z {A} (g : A → Z) : cmp_laws (λ x y, g x ?= g y).
Proof.
  split; intros x y; [by rewrite Z.compare_antisym|intros z; rewrite !Z.compare_lt_iff; lia|].
  intros z E%Z.compare_eq. by rewrite E.
Qed.
Lemma str_cmp_laws : cmp_laws str_cmp.
Proof.
  split.
  - intros x. induction x as [|a x IH]; intros [|b y]; simpl; try done. rewrite (Z.compare_antisym a b).
    destruct (a ?= b); simpl; [apply IH|done|done].
  - intros x. induction x as [|a x IH]; intros [|b y] [|c z]; simpl; try done.
    destruct (Z.compare_spec a b), (Z.compare_spec b c); try done; subst; intros H1 H2.
    + rewrite Z.compare_refl. by eapply IH.
    + by rewrite (proj2 (Z.compare_lt_iff b c)).
    + by rewrite (proj2 (Z.compare_lt_iff a c)).
    + by rewrite (proj2 (Z.compare_lt_iff a c)) by lia.
  - intros x. induction x as [|a x IH]; intros [|b y] z; simpl; try done. destruct (Z.compare_spec a b) as [->| |]; try done.
    intros E. destruct z as [|c z]; [done|]. destruct (b ?= c); [by apply IH|done|done].
Qed.
Lemma str_cmp_eq a b : str_cmp a b = Eq → a = b.
Proof.
  revert b. induction a as [|x a IH]; intros [|y b]; simpl; try done. destruct (Z.compare_spec x y) as [->| |]; try done.
  intros E. by rewrite (IH b).
Qed.
Lemma cmp_laws_proj {A B} (g : A → B) f : cmp_laws f → cmp_laws (λ x y, f (g x) (g y)).
Proof. intros [H1 H2 H3]. split; intros; [apply H1|by eapply H2|by apply H3]. Qed.
Lemma cmp_laws_then {A} (f g : A → A → comparison) : cmp_laws f → cmp_laws g → cmp_laws (λ x y, then_cmp (f x y) (g x y)).
Proof.
  intros [F1 F2 F3] [G1 G2 G3]. split.
  - intros x y. rewrite F1, G1. by destruct (f x y).
  - intros x y z. unfold then_cmp. destruct (f x y) eqn:E1; [| |done].
    + rewrite (F3 x y z E1). destruct (f y z); [by apply G2|done|done].
    + intros _. destruct (f y z) eqn:E2; [| |done]; intros _.
      * pose proof (F3 _ _ x E2) as E3. rewrite !(F1 x), E1 in E3. by destruct (f x z).
      * by rewrite (F2 _ _ _ E1 E2).
  - intros x y z. unfold then_cmp. destruct (f x y) eqn:E1; [|done|done]. intros E2. rewrite (F3 x y z E1). destruct (f y z); [by apply G3|done|done].
Qed.
Lemma hobj_cmp_laws : cmp_laws hobj_cmp.
Proof.
  unfold hobj_cmp. repeat apply cmp_laws_then; try apply (cmp_laws_Z _); try apply (cmp_laws_proj _ _ str_cmp_laws).
Qed.

(** Objects as the constructors make them: the hash has 32 bits and a key is not the name. *)
Definition hobj_ok (o : hobject_t) : Prop :=
  h_max o = false ∧ 0 <= h_hash o < 2 ^ 32 ∧ (h_key o = [] ∨ h_key o ≠ h_oid o).

Lemma then_cmp_eq c d : then_cmp c d = Eq → c = Eq ∧ d = Eq.
Proof. by destruct c. Qed.
Lemma hobj_cmp_eq a b : hobj_ok a → hobj_ok b → hobj_cmp a b = Eq → a = b.
Proof.
  intros (Ma & Ha & Ka) (Mb & Hb & Kb). unfold hobj_cmp.
  intros (_ & (E1%Z.compare_eq & (E2%Z.compare_eq & (E3%str_cmp_eq & (E4%str_cmp_eq & (E5%str_cmp_eq & E6%Z.compare_eq)%then_cmp_eq)%then_cmp_eq)%then_cmp_eq)%then_cmp_eq)%then_cmp_eq)%then_cmp_eq.
  unfold get_bitwise_key in E2. rewrite Ma, Mb in E2. apply (f_equal reverse_bits) in E2. rewrite !PgSplit.reverse_involutive in E2 by done.
  destruct a as [ma pa ha na ka oa sa], b as [mb pb hb nb kb ob sb]. unfold get_effective_key in E4. simpl in *. subst.
  f_equal. destruct ka, kb; try congruence; [destruct Kb|destruct Ka]; congruence.
Qed.
Lemma hobj_cmp_refl o : hobj_cmp o o = Eq.
Proof. pose proof (cmp_opp _ hobj_cmp_laws o o) as E. by destruct (hobj_cmp o o). Qed.

(** ** What a log says about an object *)

(** The entries of an object, without those that returned an error. *)
Definition entries_of (o : hobject_t) (es : list pg_log_entry_t) : list pg_log_entry_t :=
  List.filter (λ e, bool_decide (soid e = o) && negb (is_error e)) es.
(** The version that an entry leaves in the store, zero for none. *)
Definition after (e : pg_log_entry_t) : eversion_t := if is_delete e then ev0 else e_version e.
(** The version of an object after a log whose first entry finds the versions [b]. *)
Definition wanted (b : hobject_t → eversion_t) (es : list pg_log_entry_t) (o : hobject_t) : eversion_t :=
  match last (entries_of o es) with Some e => after e | None => b o end.

(** An entry knows the version it replaces; a clone is new. *)
Definition entry_ok (v : eversion_t) (e : pg_log_entry_t) : Prop := if is_clone e then v = ev0 else prior_version e = v.
Definition chained (b : hobject_t → eversion_t) (es : list pg_log_entry_t) : Prop :=
  ∀ pre e post, es = pre ++ e :: post → is_error e = false → entry_ok (wanted b pre (soid e)) e.
(** The same for the entries of one object; a clone is the first of its entries. *)
Fixpoint object_chain (v : eversion_t) (es : list pg_log_entry_t) : Prop :=
  match es with [] => True | e :: es => entry_ok v e ∧ object_chain (after e) es end.
Definition clones_first (es : list pg_log_entry_t) : Prop :=
  ∀ pre e post, es = pre ++ e :: post → is_clone e = true → entries_of (soid e) pre = [].

Lemma entries_of_app o es es' : entries_of o (es ++ es') = entries_of o es ++ entries_of o es'.
Proof. apply List.filter_app. Qed.
Lemma elem_entries_of o es e : e ∈ entries_of o es ↔ e ∈ es ∧ soid e = o ∧ is_error e = false.
Proof.
  unfold entries_of. rewrite !list_elem_of_In, List.filter_In, andb_true_iff, bool_decide_eq_true, negb_true_iff. tauto.
Qed.
Lemma last_entries o es e : last (entries_of o es) = Some e → e ∈ es.
Proof. intros H%last_Some_elem_of. by apply elem_entries_of in H as [H _]. Qed.
Lemma entries_of_other o e : soid e ≠ o ∨ is_error e = true → entries_of o [e] = [].
Proof. intros H. simpl. destruct (bool_decide_reflect (soid e = o)), (is_error e); simpl; try done. by destruct H. Qed.
Lemma entries_of_one o e : soid e = o → is_error e = false → entries_of o [e] = [e].
Proof. intros <- E. simpl. by rewrite bool_decide_eq_true_2, E. Qed.

Lemma wanted_app b es es' o : wanted b (es ++ es') o = wanted (wanted b es) es' o.
Proof. unfold wanted. rewrite entries_of_app, last_app. by destruct (last (entries_of o es')). Qed.
Lemma wanted_none b es o : entries_of o es = [] → wanted b es o = b o.
Proof. unfold wanted. by intros ->. Qed.
Lemma wanted_ext b b' es o : b o = b' o → wanted b es o = wanted b' es o.
Proof. unfold wanted. by intros ->. Qed.

Lemma chained_app b es es' : chained b (es ++ es') ↔ chained b es ∧ chained (wanted b es) es'.
Proof.
  split.
  - intros H. split.
    + intros pre e post -> He. apply (H pre e (post ++ es')); [|done]. by rewrite <- app_assoc.
    + intros pre e post -> He. rewrite <- wanted_app. apply (H (es ++ pre) e post); [|done]. by rewrite <- app_assoc.
  - intros [H1 H2] pre e post E He. apply app_eq_app in E as (k & [[-> E]|[-> E]]).
    + destruct k as [|e' k]; simpl in E.
      * rewrite app_nil_r in *. by apply (H2 [] e post).
      * injection E as <- ->. by apply (H1 pre e k).
    + rewrite wanted_app. by apply (H2 k e post).
Qed.

Lemma object_chain_app v es es' : object_chain v (es ++ es') ↔
  object_chain v es ∧ object_chain (match last es with Some e => after e | None => v end) es'.
Proof.
  revert v. induction es as [|e es IH]; intros v; [simpl; tauto|]. cbn [app object_chain]. rewrite IH.
  replace (match last (e :: es) with Some e => after e | None => v end) with (match last es with Some e => after e | None => after e end); [tauto|].
  destruct es as [|e' es]; [done|]. rewrite last_cons_cons. destruct (last (e' :: es)) eqn:E; [done|by apply last_None in E].
Qed.
Lemma chained_object b es o : chained b es → object_chain (b o) (entries_of o es).
Proof.
  induction es as [|e es IH] using rev_ind; intros H; [done|]. pose proof H as H'. apply chained_app in H as [H1 H2]. rewrite entries_of_app.
  destruct (decide (soid e = o ∧ is_error e = false)) as [[Eo Ee]|N].
  - rewrite (entries_of_one o e) by done. apply object_chain_app. split; [by apply IH|]. simpl. split; [|done].
    specialize (H2 [] e [] eq_refl Ee). simpl in H2. unfold wanted in H2 at 1. simpl in H2. rewrite Eo in H2. exact H2.
  - rewrite entries_of_other, app_nil_r by (destruct (is_error e); [by right|left; tauto]). by apply IH.
Qed.

(** ** Entries by object *)

Definition groups_sorted (m : list (hobject_t * list pg_log_entry_t)) : Prop :=
  StronglySorted (λ a b, hobj_cmp a.1 b.1 = Lt) m.
Definition all_of (o : hobject_t) (es : list pg_log_entry_t) : list pg_log_entry_t :=
  List.filter (λ e, bool_decide (soid e = o)) es.

Lemma entries_of_all o es : entries_of o es = List.filter (λ e, negb (is_error e)) (all_of o es).
Proof.
  unfold entries_of, all_of. induction es as [|e es IH]; simpl; [done|]. destruct (bool_decide (soid e = o)); simpl; [|done]. by rewrite IH.
Qed.

Lemma split_add_keys e m o : o ∈ (split_add e m).*1 → o = soid e ∨ o ∈ m.*1.
Proof.
  induction m as [|[k g] m IH]; cbn [split_add]; [intros ->%list_elem_of_singleton; by left|].
  destruct (hobj_cmp (soid e) k); cbn [fmap list_fmap fst]; [by right|rewrite elem_of_cons; tauto|].
  rewrite !elem_of_cons. intros [->|H]; [right; by left|]. destruct (IH H); auto.
Qed.
Lemma split_add_sorted e m : groups_sorted m → groups_sorted (split_add e m).
Proof.
  destruct hobj_cmp_laws as [Hopp Htr Heq]. induction 1 as [|[k g] m Hs IH Hf]; cbn [split_add]; [repeat constructor|].
  destruct (hobj_cmp (soid e) k) eqn:E.
  - by constructor.
  - constructor; [by constructor|]. constructor; [done|]. eapply Forall_impl; [exact Hf|]. intros x Hx. simpl in *. by eapply Htr.
  - constructor; [done|]. apply Forall_forall. intros x Hx. assert (x.1 ∈ (split_add e m).*1) as [->|Hk]%split_add_keys by (by apply list_elem_of_fmap_2).
    + simpl. by rewrite Hopp, E.
    + apply list_elem_of_fmap in Hk as (y & -> & Hy). rewrite Forall_forall in Hf. by apply Hf.
Qed.
Lemma split_add_groups e m : groups_sorted m → hobj_ok (soid e) → (∀ o, o ∈ m.*1 → hobj_ok o) →
  ∀ o g, (o, g) ∈ split_add e m ↔
    if decide (o = soid e) then (∃ g0, (o, g0) ∈ m ∧ g = g0 ++ [e]) ∨ (o ∉ m.*1) ∧ g = [e] else (o, g) ∈ m.
Proof.
  destruct hobj_cmp_laws as [Hopp Htr Heq]. intros Hs He. induction Hs as [|[k g'] m Hs IH Hf]; intros Hk o g; cbn [split_add].
  - rewrite list_elem_of_singleton. case_decide as D; [subst o|split; [intros [= -> ->]; by destruct D|by intros ?%not_elem_of_nil]].
    split; [intros [= ->]; right; by split; [apply not_elem_of_nil|]|]. intros [(g0 & []%not_elem_of_nil & _)|[_ ->]]; done.
  - rewrite Forall_forall in Hf. assert (k ∉ m.*1) as Hnk.
    { intros (x & -> & Hx)%list_elem_of_fmap. specialize (Hf x Hx). simpl in Hf. by rewrite hobj_cmp_refl in Hf. }
    assert (∀ g, (k, g) ∉ m) as Hnk' by (intros g0 H; apply Hnk; exact (list_elem_of_fmap_2 fst _ _ H)).
    specialize (IH (λ o Ho, Hk o (list_elem_of_further _ _ _ Ho))).
    destruct (hobj_cmp (soid e) k) eqn:E.
    + assert (k = soid e) as ->. { symmetry. apply hobj_cmp_eq; [done|apply Hk; left|done]. }
      rewrite !elem_of_cons. cbn [fmap list_fmap fst]. case_decide as D; [subst o|].
      * split; [intros [[= ->]|H]; [left; exists g'; split; [by left|done]|by destruct (Hnk' g)]|].
        intros [(g0 & [[= ->]|H]%elem_of_cons & ->)|[H _]]; [by left|by destruct (Hnk' g0)|]. destruct H. left.
      * rewrite elem_of_cons. split; [intros [[= -> ->]|H]; [by destruct D|by right]|intros [[= -> ->]|H]; [by destruct D|by right]].
    + assert (soid e ∉ (k :: m.*1)) as Hn.
      { intros [Ek|(x & Ex & Hx)%list_elem_of_fmap]%elem_of_cons; [by rewrite Ek, hobj_cmp_refl in E|]. specialize (Hf x Hx). simpl in Hf.
        pose proof (Htr _ _ _ E Hf) as H. by rewrite Ex, hobj_cmp_refl in H. }
      rewrite elem_of_cons. case_decide as D; [subst o|].
      * split; [intros [[= ->]|H]; [by right|destruct Hn; exact (list_elem_of_fmap_2 fst _ _ H)]|].
        intros [(g0 & H & _)|[_ ->]]; [destruct Hn; exact (list_elem_of_fmap_2 fst _ _ H)|by left].
      * split; [intros [[= -> _]|H]; [by destruct D|done]|by right].
    + assert (k ≠ soid e) as Hne by (intros ->; by rewrite hobj_cmp_refl in E).
      rewrite elem_of_cons, IH. cbn [fmap list_fmap fst]. case_decide as D; [subst o|by rewrite elem_of_cons].
      split.
      * intros [[= Ek _]|[(g0 & H & ->)|[H ->]]]; [by destruct Hne|left; exists g0; split; [by right|done]|right; split; [|done]].
        by intros [Ek|?]%elem_of_cons.
      * intros [(g0 & [[= Ek _]|H]%elem_of_cons & ->)|[H ->]]; [by destruct Hne|right; left; by exists g0|right; right].
        split; [|done]. intros C. apply H. by right.
Qed.

Lemma split_spec es : Forall (λ e, hobj_ok (soid e)) es →
  groups_sorted (split_by_object es) ∧ ∀ o g, (o, g) ∈ split_by_object es ↔ g = all_of o es ∧ g ≠ [].
Proof.
  unfold split_by_object. induction es as [|e es IH] using rev_ind; intros Hok.
  { split; [constructor|]. intros o g. simpl. split; [intros []%not_elem_of_nil|by intros [-> ?]]. }
  apply Forall_app in Hok as [Hok [He _]%Forall_cons]. destruct (IH Hok) as [Hs Hg]. rewrite foldl_snoc. split; [by apply split_add_sorted|].
  assert (∀ o, o ∈ (split_by_object es).*1 ↔ all_of o es ≠ []) as Hk.
  { intros o. split; [intros ([o' g] & -> & [-> H]%Hg)%list_elem_of_fmap; done|]. intros H. exact (list_elem_of_fmap_2 fst _ (o, all_of o es) (proj2 (Hg _ _) (conj eq_refl H))). }
  intros o g. rewrite split_add_groups; [|done|done|].
  - unfold all_of. rewrite List.filter_app. cbn [List.filter]. fold (all_of o es). case_decide as D; [subst o; rewrite bool_decide_eq_true_2 by done|rewrite bool_decide_eq_false_2 by done; by rewrite app_nil_r, Hg].
    change (foldl _ [] es) with (split_by_object es). rewrite Hk. split.
    + intros [(g0 & [-> _]%Hg & ->)|[Hn ->]]; [by split; [|destruct (all_of _ _)]|]. apply dec_stable in Hn. by rewrite Hn.
    + intros [-> _]. destruct (all_of (soid e) es) as [|x l] eqn:E; [right; split; [by intros []|done]|left]. exists (x :: l). split; [|done].
      apply Hg. by rewrite E.
  - intros o' Ho. change (foldl _ [] es) with (split_by_object es) in Ho. apply Hk in Ho.
    destruct (all_of o' es) as [|x l] eqn:E; [done|]. assert (x ∈ all_of o' es) as Hx by (rewrite E; left).
    unfold all_of in Hx. apply list_elem_of_In, List.filter_In in Hx as [Hx <-%bool_decide_eq_true]. rewrite Forall_forall in Hok. apply Hok. by apply list_elem_of_In.
Qed.
Lemma groups_nodup m : groups_sorted m → NoDup m.*1.
Proof.
  induction 1 as [|[k g] m Hs IH Hf]; [constructor|]. cbn [fmap list_fmap fst]. constructor; [|done].
  intros (x & -> & Hx)%list_elem_of_fmap. rewrite Forall_forall in Hf. specialize (Hf x Hx). simpl in Hf. by rewrite hobj_cmp_refl in Hf.
Qed.

(** Versions grow along a log. *)
Definition log_sorted (es : list pg_log_entry_t) : Prop := StronglySorted (λ a b, ev_lt (e_version a) (e_version b) = true) es.
Definition live (es : list pg_log_entry_t) : list pg_log_entry_t := List.filter (λ e, negb (is_error e)) es.

Lemma sorted_filter (f : pg_log_entry_t → bool) es : log_sorted es → log_sorted (List.filter f es).
Proof.
  induction 1 as [|e es Hs IH Hf]; simpl; [constructor|]. destruct (f e); [|done]. constructor; [done|]. rewrite Forall_forall in *.
  intros x [Hx _]%list_elem_of_In%List.filter_In. apply Hf. by apply list_elem_of_In.
Qed.
Lemma sorted_app es es' : log_sorted (es ++ es') ↔
  log_sorted es ∧ log_sorted es' ∧ ∀ e e', e ∈ es → e' ∈ es' → ev_lt (e_version e) (e_version e') = true.
Proof. unfold log_sorted. rewrite StronglySorted_app. tauto. Qed.

Lemma strip_ok o g : ∀ first seen last v, Forall (λ e, soid e = o) g → log_sorted g → Forall (λ e, ev_lt last (e_version e) = true) g →
  object_chain v (live g) →
  (if seen : bool then (v = last ∨ v = ev0) ∧ Forall (λ e, is_clone e = false) (live g)
   else ∀ e l, live g = e :: l → Forall (λ e, is_clone e = false) l) →
  strip_errors o first seen last g = Ok (live g).
Proof.
  induction g as [|i g IH]; intros first seen last v Ho Hs Hl Hc Hseen; [done|]. cbn [strip_errors].
  apply Forall_cons in Ho as [Hi Ho]. apply Forall_cons in Hl as [Hli Hl]. apply StronglySorted_inv in Hs as [Hs Hlt].
  rewrite bool_decide_eq_true_2 by done. cbn [assert bind]. unfold live in *. cbn [List.filter] in *. destruct (is_error i) eqn:Ee; cbn [negb] in *.
  - replace (if _ : bool then _ : res unit else Ok tt) with (Ok tt : res unit); [|destruct (_ && _); [|done]; rewrite Hli, orb_true_r; done].
    cbn [bind]. by apply (IH _ _ _ v).
  - cbn [object_chain] in Hc. destruct Hc as [Hok Hc].
    replace (if _ : bool then _ : res unit else Ok tt) with (Ok tt : res unit).
    2:{ destruct seen; cbn [negb andb]; [|by rewrite andb_false_r]. rewrite andb_true_r. destruct Hseen as [Hv [Hcl _]%Forall_cons].
        unfold entry_ok in Hok. rewrite Hcl in Hok. destruct (negb first); [|done]. cbn [andb]. destruct (ev_eqb (prior_version i) ev0) eqn:E0; [done|]. cbn [negb]. rewrite Hli. cbn [assert bind].
        destruct Hv as [->| ->]; [|by rewrite Hok in E0; unfold ev_eqb in E0; apply bool_decide_eq_false in E0]. unfold ev_eqb. by rewrite bool_decide_eq_true_2. }
    cbn [bind]. rewrite (IH false true (e_version i) (after i)); [done|done|done|done|done|]. split.
    + unfold after. destruct (is_delete i); auto.
    + destruct seen; [by destruct Hseen as [_ [_ ?]%Forall_cons]|]. by apply (Hseen i).
Qed.

(** ** The store behind the handler *)

(** What the log relies on: [ver] is the version of an object in the store, zero where there is none, and
    [undo] says that the store has what it takes to undo an entry.  A clone and the removal of an object that was
    given up as lost are never undone on the way back to an older version. *)
Class HandlerLaws (S : Type) `{!LogEntryHandler S} := {
  ver : S → hobject_t → eversion_t;
  undo : S → pg_log_entry_t → Prop;
  ver_remove : ∀ o h o', ver (h_remove o h) o' = if decide (o' = o) then ev0 else ver h o';
  ver_trim : ∀ e h o, ver (h_trim e h) o = ver h o;
  ver_rollforward : ∀ e h o, ver (h_rollforward e h) o = ver h o;
  ver_rollback : ∀ e h o, undo h e → is_lost_delete e = false → is_clone e = false → ver h (soid e) = after e →
    ver (h_rollback e h) o = if decide (o = soid e) then prior_version e else ver h o;
  undo_remove : ∀ o h e, undo h e → soid e ≠ o → undo (h_remove o h) e;
  undo_trim : ∀ e' h e, undo h e → e ≠ e' → undo (h_trim e' h) e;
  undo_rollforward : ∀ e' h e, undo h e → e ≠ e' → undo (h_rollforward e' h) e;
  undo_rollback : ∀ e' h e, undo h e → e ≠ e' → undo (h_rollback e' h) e
}.

(** An item of the missing set and a version in the store are in accordance with the entries of an object: an object
    that is not missing has the version the entries leave, a missing one needs that version, and what is said to be
    there is there.  Deletions are in the set only where it may include them. *)
Definition item_ok (deletes : bool) (b : eversion_t) (es : list pg_log_entry_t) (it : option pg_missing_item) (v : eversion_t) : Prop :=
  match it with
  | None => v = match last es with Some e => after e | None => b end
  | Some it =>
      match last es with
      | Some e => need it = e_version e ∧ item_delete it = is_delete e ∧ (is_delete e = true → deletes = true)
      | None => need it = b ∧ item_delete it = false ∧ b ≠ ev0
      end ∧ (have it ≠ ev0 → v = have it)
  end.

Lemma is_update_delete e : is_error e = false → is_update e = negb (is_delete e).
Proof. unfold is_error, is_update, is_delete. by destruct (op e). Qed.

Section Store.
Context {HitSet Stats : Type} {S : Type} `{HandlerLaws S}.

Definition accurate (bf : hobject_t) (b : hobject_t → eversion_t) (es : list pg_log_entry_t) (m : pg_missing_set) (h : S) : Prop :=
  ∀ o, hobj_le o bf = true → item_ok (may_include_deletes m) (b o) (entries_of o es) (missing m !! o) (ver h o).

Lemma trim_all_ver es h o : ver (trim_all es h) o = ver h o.
Proof. unfold trim_all. induction es as [|e es IH] using rev_ind; [done|]. by rewrite foldl_snoc, ver_trim. Qed.
Lemma trim_all_undo es h e : undo h e → e ∉ es → undo (trim_all es h) e.
Proof.
  unfold trim_all. induction es as [|e' es IH] using rev_ind; [done|]. intros Hu Hn. rewrite foldl_snoc. apply undo_trim; [|set_solver].
  apply IH; set_solver.
Qed.
Lemma remove_trim_ver nis o es h o' : ver (remove_trim nis o es h) o' = if decide (o' = o) then if nis : bool then ver h o else ev0 else ver h o'.
Proof. unfold remove_trim. rewrite trim_all_ver. destruct nis; [by case_decide; subst|]. by rewrite ver_remove. Qed.
Lemma remove_trim_undo nis o es h e : undo h e → soid e ≠ o → Forall (λ e, soid e = o) es → undo (remove_trim nis o es h) e.
Proof.
  intros Hu Ho Hes. apply trim_all_undo; [destruct nis; [done|by apply undo_remove]|]. rewrite Forall_forall in Hes. intros C%Hes. done.
Qed.

Lemma rollback_undo es h e : undo h e → e ∉ es → undo (foldr h_rollback h es) e.
Proof. intros Hu. induction es as [|e' es IH]; intros Hn; [done|]. simpl. apply undo_rollback; [apply IH; set_solver|set_solver]. Qed.

(** Undoing the entries of an object, the last one first, leads back to the version before the first. *)
Lemma rollback_ver o es : ∀ v h, Forall (λ e, soid e = o) es → object_chain v es → Forall (λ e, is_clone e = false ∧ is_lost_delete e = false) es →
  Forall (undo h) es → NoDup es → ver h o = match last es with Some e => after e | None => v end →
  ∀ o', ver (foldr h_rollback h es) o' = if decide (o' = o) then v else ver h o'.
Proof.
  induction es as [|e es IH]; intros v h Ho Hc Hn Hu Hd Hv o'; [simpl in *; by case_decide; subst|]. cbn [foldr].
  apply Forall_cons in Ho as [Hoe Ho]. apply Forall_cons in Hn as [[Hcl Hld] Hn]. apply Forall_cons in Hu as [Hue Hu]. apply NoDup_cons in Hd as [Hde Hd].
  destruct Hc as [Hok Hc]. unfold entry_ok in Hok. rewrite Hcl in Hok.
  assert (∀ o', ver (foldr h_rollback h es) o' = if decide (o' = o) then after e else ver h o') as E.
  { apply IH; try done. rewrite Hv. destruct es; [done|]. rewrite last_cons_cons. destruct (last (p :: es)) eqn:El; [done|by apply last_None in El]. }
  rewrite ver_rollback; [|..].
  - rewrite Hoe, E. case_decide; [done|done].
  - by apply rollback_undo.
  - done.
  - done.
  - rewrite Hoe, E. by rewrite decide_True.
Qed.

(** ** Divergent entries of one object *)

(** [Co] are the entries of an object that are shared, [Do] those that only our log has and [No] those that only the
    authoritative log has; [b] is its version before all of them. *)
Record diverges (b : eversion_t) (Co Do No : list pg_log_entry_t) : Prop := {
  dv_chain : object_chain (match last Co with Some e => after e | None => b end) Do;
  dv_clones : ∀ e t, Do = e :: t → Forall (λ e, is_clone e = false) t;
  dv_CD : ∀ e e', e ∈ Co → e' ∈ Do → ev_lt (e_version e) (e_version e') = true;
  dv_DN : ∀ e e', e ∈ Do → e' ∈ No → ev_lt (e_version e) (e_version e') = true;
  dv_live : Forall (λ e, is_error e = false) No
}.

(** What is known of the object when the new entries are appended and its divergent ones are not merged yet. *)
Definition merge_pre (deletes : bool) (b : eversion_t) (Co Do No : list pg_log_entry_t) (it : option pg_missing_item) (v : eversion_t) : Prop :=
  match Do, last No with
  | [], _ => item_ok deletes b (Co ++ No) it v
  | _ :: _, None => item_ok deletes b (Co ++ Do) it v
  | _ :: _, Some e =>
      if deletes || negb (is_delete e) then ∃ i, it = Some i ∧ need i = e_version e ∧ item_delete i = is_delete e
      else it = None ∧ v = ev0
  end.

(** A change of the missing set and the store that is about one object. *)
Record only (o : hobject_t) (m : pg_missing_set) (h : S) (m' : pg_missing_set) (h' : S) : Prop := {
  only_deletes : may_include_deletes m' = may_include_deletes m;
  only_missing : ∀ o', o' ≠ o → missing m' !! o' = missing m !! o';
  only_ver : ∀ o', o' ≠ o → ver h' o' = ver h o';
  only_undo : ∀ e, soid e ≠ o → undo h e → undo h' e
}.
Lemma only_refl o m h : only o m h m h.
Proof. by split. Qed.

Lemma only_have o m h n h' : only o m h m h' → only o m h (revise_have m o n) h'.
Proof.
  intros [_ H2 H3 H4]. unfold revise_have. destruct (missing m !! o); [|by split]. split; simpl; try done. intros o' Ho. by rewrite lookup_insert_ne.
Qed.
Lemma only_need o m h n d h' : only o m h m h' → only o m h (revise_need m o n d) h'.
Proof. intros [_ H2 H3 H4]. unfold revise_need. destruct (missing m !! o); split; simpl; try done; intros o' Ho; by rewrite lookup_insert_ne. Qed.
Lemma only_add o m h n v d h' : only o m h m h' → only o m h (missing_add m o n v d) h'.
Proof. intros [_ H2 H3 H4]. split; simpl; try done; intros o' Ho; by rewrite lookup_insert_ne. Qed.
Lemma only_rm o m h it h' : only o m h m h' → only o m h (rm_it m o it) h'.
Proof. intros [_ H2 H3 H4]. split; simpl; try done; intros o' Ho; by rewrite lookup_delete_ne. Qed.
Lemma only_remove_trim nis o m h es : Forall (λ e, soid e = o) es → only o m h m (remove_trim nis o es h).
Proof.
  intros Hes. split; try done; [|intros e Ho Hu; by apply remove_trim_undo]. intros o' Ho. rewrite remove_trim_ver. by rewrite decide_False.
Qed.

(** The first case: the authoritative log has a newer entry of the object. *)
Lemma merge_newer deletes b Co Do No i m h e nis o entries : last No = Some e → merge_pre deletes b Co (i :: Do) No (missing m !! o) (ver h o) →
  item_ok deletes b (Co ++ No) (missing (revise_have m o ev0) !! o) (ver (remove_trim nis o entries h) o).
Proof.
  intros He. unfold merge_pre, item_ok, revise_have. rewrite He, last_app, He, remove_trim_ver, decide_True by done. destruct (deletes || negb (is_delete e)) eqn:Ed.
  - intros (it & -> & Hn & Hd). simpl. rewrite lookup_insert_eq. simpl. split; [|done]. split_and!; [done|done|]. intros E. rewrite E, orb_false_r in Ed. done.
  - intros [E Hv]. apply orb_false_iff in Ed as [_ Ed%negb_false_iff]. rewrite E, E, Hv. unfold after. rewrite Ed. by destruct nis.
Qed.

(** The other cases: the object goes back to what the shared entries left, [w]. *)
Lemma item_ok_need deletes b Co it v h : let w := match last Co with Some e => after e | None => b end in
  w ≠ ev0 → need it = w → item_delete it = false → have it = v → (v ≠ ev0 → h = v) → item_ok deletes b Co (Some it) h.
Proof.
  intros w Hw Hn Hd Hh Hv. unfold item_ok. rewrite Hh. split; [|done]. subst w. destruct (last Co) as [e|]; [|done].
  unfold after in *. destruct (is_delete e); done.
Qed.

(** The second case: the object did not exist. *)
Lemma merge_created deletes b Co Do m h o nis : match last Co with Some e => after e | None => b end = ev0 → Forall (λ e, soid e = o) Do →
  (nis = true → ver h o = ev0) →
  only o m h (match missing m !! o with Some it => rm_it m o it | None => m end) (remove_trim nis o Do h) ∧
  item_ok deletes b Co (missing (match missing m !! o with Some it => rm_it m o it | None => m end) !! o) (ver (remove_trim nis o Do h) o).
Proof.
  intros Hw Ho Hnis. split; [destruct (missing m !! o); [apply only_rm|]; by apply only_remove_trim|].
  replace (missing _ !! o) with (None : option pg_missing_item) by (destruct (missing m !! o) eqn:E; simpl; [by rewrite lookup_delete_eq|done]).
  simpl. rewrite Hw, remove_trim_ver, decide_True by done. destruct nis; auto.
Qed.
(** The third case: it is missing already. *)
Lemma merge_missing deletes b Co Do m h o it : let w := match last Co with Some e => after e | None => b end in
  w ≠ ev0 → Forall (λ e, soid e = o) Do → missing m !! o = Some it → (have it ≠ ev0 → ver h o = have it) →
  let m' := if ev_eqb (have it) w then rm_it m o it else revise_need m o w false in
  only o m h m' (trim_all Do h) ∧ item_ok deletes b Co (missing m' !! o) (ver (trim_all Do h) o).
Proof.
  intros w Hw Ho Em Hhave. assert (only o m h m (trim_all Do h)) as Hon by exact (only_remove_trim true o m h Do Ho). cbv zeta.
  destruct (ev_eqb (have it) w) eqn:Eh; (split; [by (apply only_rm || apply only_need)|]).
  - simpl. rewrite lookup_delete_eq. unfold item_ok. fold w. apply ev_eqb_eq in Eh. rewrite trim_all_ver, <- Eh. apply Hhave. congruence.
  - unfold revise_need. rewrite Em. simpl. rewrite lookup_insert_eq, trim_all_ver. by apply (item_ok_need _ _ _ _ (have it)).
Qed.
(** The fourth case: all its entries are undone. *)
Lemma merge_rolled_back deletes b Co Do m h o : let w := match last Co with Some e => after e | None => b end in
  object_chain w Do → Forall (λ e, soid e = o) Do → Forall (λ e, is_clone e = false) Do → NoDup Do →
  Forall (λ e, undo h e ∧ is_lost_delete e = false) Do → missing m !! o = None →
  ver h o = match last Do with Some e => after e | None => w end →
  only o m h m (foldr h_rollback h Do) ∧ item_ok deletes b Co (missing m !! o) (ver (foldr h_rollback h Do) o).
Proof.
  intros w Hc Ho Hcl Hnd Hundo Em Hv. rewrite Forall_forall in Hundo, Hcl.
  assert (∀ o', ver (foldr h_rollback h Do) o' = if decide (o' = o) then w else ver h o') as Hr.
  { apply rollback_ver; try done; apply Forall_forall; intros e He; [split; [by apply Hcl|by apply Hundo]|by apply Hundo]. }
  split; [|rewrite Em; simpl; fold w; rewrite Hr; by rewrite decide_True]. split; try done.
  - intros o' Hne. rewrite Hr. by rewrite decide_False.
  - intros e He Hu. apply rollback_undo; [done|]. rewrite Forall_forall in Ho. intros C%Ho. done.
Qed.

Lemma sorted_nodup es : log_sorted es → NoDup es.
Proof. induction 1 as [|e es Hl IH Hf]; constructor; [|done]. intros C. rewrite Forall_forall in Hf. specialize (Hf e C). ev_lia. Qed.
Lemma live_soid o g : Forall (λ e, soid e = o) g → Forall (λ e, soid e = o) (live g).
Proof. intros Ho. apply Forall_forall. intros e [He _]%list_elem_of_In%List.filter_In. rewrite Forall_forall in Ho. apply Ho. by apply list_elem_of_In. Qed.

Lemma newer_found l o Co No e v : objects l !! o = last (Co ++ No) → last No = Some e → ev_lt v (e_version e) = true → newer_entry l o v = Some e.
Proof. intros Hobj Ee Hv. unfold newer_entry. rewrite Hobj, last_app, Ee. by replace (ev_le _ _) with true by (symmetry; ev_lia). Qed.
Lemma newer_none l o Co v : objects l !! o = last Co → (∀ e, e ∈ Co → ev_lt (e_version e) v = true) → newer_entry l o v = None.
Proof.
  intros Hobj Hv. unfold newer_entry. rewrite Hobj. destruct (last Co) as [c|] eqn:Ec; [|done]. apply last_Some_elem_of, Hv in Ec.
  by replace (ev_le _ _) with false by (symmetry; ev_lia).
Qed.

Lemma merge_object_ok l o g bf crt m h b Co No : hobj_le o bf = true → g ≠ [] → Forall (λ e, soid e = o) g → log_sorted g →
  Forall (λ e, ev_lt ev0 (e_version e) = true) g → diverges b Co (live g) No → objects l !! o = last (Co ++ No) →
  (No = [] → Forall (λ e, can_rollback e = true → undo h e ∧ is_lost_delete e = false) (live g)) →
  merge_pre (may_include_deletes m) b Co (live g) No (missing m !! o) (ver h o) →
  ∃ m' h', _merge_object_divergent_entries l o g bf crt m (Some h) = Ok (m', Some h') ∧ only o m h m' h' ∧
    item_ok (may_include_deletes m) b (Co ++ No) (missing m' !! o) (ver h' o).
Proof.
  intros Hbf Hg Ho Hs Hpos [Hc Hcl HCD HDN Hlive] Hobj Hundo Hpre. unfold _merge_object_divergent_entries.
  unfold hobj_le in Hbf. apply negb_true_iff in Hbf. rewrite Hbf. rewrite bool_decide_eq_false_2 by done. cbn [negb assert bind].
  rewrite (strip_ok o g true false ev0 _ Ho Hs Hpos Hc) by done. cbn [bind].
  apply live_soid in Ho. apply (sorted_filter (λ e, negb (is_error e))) in Hs. fold (live g) in Hs. apply sorted_nodup in Hs as Hnd.
  destruct (live g) as [|front rest] eqn:El; [exists m, h; split; [done|]; split; [apply only_refl|done]|].
  destruct (last (front :: rest)) as [back|] eqn:Eb; [|by apply last_None in Eb].
  assert (back ∈ front :: rest) as Hback by (by apply last_Some_elem_of).
  destruct (last No) as [e|] eqn:Ee.
  - assert (e ∈ No) as Hin by (by apply last_Some_elem_of). rewrite (newer_found l o Co No e _ Hobj Ee (HDN front e ltac:(left) Hin)).
    rewrite (HDN back e Hback Hin). cbn [assert bind]. rewrite Forall_forall in Hlive. rewrite is_update_delete by (by apply Hlive).
    replace (if _ : bool then _ : res unit else _) with (Ok tt : res unit).
    2:{ unfold merge_pre in Hpre. rewrite Ee in Hpre. destruct (is_delete e), (may_include_deletes m); simpl in *; try (destruct Hpre as (it & -> & Hn & _); simpl; by rewrite Hn, bool_decide_eq_true_2).
        unfold is_missing. by destruct Hpre as [-> _]. }
    cbn [bind fmap option_fmap option_map]. eexists _, _. split; [done|]. split; [by apply only_have, only_remove_trim|]. by apply merge_newer with (1 := Ee) (2 := Hpre).
  - apply last_None in Ee as ->. specialize (Hundo eq_refl). rewrite app_nil_r in *. unfold merge_pre in Hpre. cbn [last] in Hpre.
    rewrite (newer_none l o Co _ Hobj (λ c Hc', HCD c front Hc' ltac:(left))).
    assert (missing m !! o = None → ver h o = after back) as Hnone by (intros E; rewrite E in Hpre; simpl in Hpre; by rewrite last_app, Eb in Hpre).
    pose proof Hc as [Hok _]. unfold entry_ok in Hok. cbn [fmap option_fmap option_map].
    destruct (ev_eqb (prior_version front) ev0 || is_clone front) eqn:E2.
    + eexists _, _. split; [done|]. apply merge_created; [|done|].
      * destruct (is_clone front); [done|]. rewrite orb_false_r in E2. apply ev_eqb_eq in E2. congruence.
      * intros [En1%negb_true_iff En2]%andb_true_iff. apply bool_decide_eq_false, eq_None_not_Some in En1. rewrite Hnone by done. unfold after. by rewrite En2.
    + apply orb_false_iff in E2 as [E2 Ecl]. rewrite Ecl in Hok. apply bool_decide_eq_false in E2. rewrite Hok in *.
      destruct (missing m !! o) as [it|] eqn:Em; [eexists _, _; split; [done|]; apply merge_missing; [done|done|done|apply Hpre]|].
      destruct (forallb _ _) eqn:Ef; eexists _, _; (split; [done|]).
      * rewrite forallb_forall in Ef. apply merge_rolled_back; try done; [by constructor; [|apply (Hcl front)]| |by rewrite Eb, Hnone].
        rewrite Forall_forall in *. intros e He. apply Hundo; [done|]. apply list_elem_of_In, Ef, andb_true_iff in He. tauto.
      * split; [by apply only_add, only_remove_trim|]. simpl. rewrite lookup_insert_eq. by apply (item_ok_need _ _ _ _ ev0).
Qed.

(** ** All divergent entries *)

Lemma live_all o es : live (all_of o es) = entries_of o es.
Proof. by rewrite entries_of_all. Qed.
Lemma elem_all_of o es e : e ∈ all_of o es ↔ e ∈ es ∧ soid e = o.
Proof. unfold all_of. by rewrite !list_elem_of_In, List.filter_In, bool_decide_eq_true. Qed.

Section Divergent.
Context (l : IndexedLog) (bf : hobject_t) (crt : eversion_t) (b : hobject_t → eversion_t) (C D N : list pg_log_entry_t).
Hypothesis Hobj : ∀ o, objects l !! o = last (entries_of o (C ++ N)).
Hypothesis Hdiv : ∀ o, diverges (b o) (entries_of o C) (entries_of o D) (entries_of o N).
Hypothesis Hsort : log_sorted D.
Hypothesis Hpos : Forall (λ e, ev_lt ev0 (e_version e) = true) D.
Hypothesis Hnames : Forall (λ e, hobj_ok (soid e)) D.

Definition pre_at (m : pg_missing_set) (h : S) (o : hobject_t) : Prop :=
  hobj_le o bf = true → merge_pre (may_include_deletes m) (b o) (entries_of o C) (entries_of o D) (entries_of o N) (missing m !! o) (ver h o).
Definition post_at (m : pg_missing_set) (h : S) (o : hobject_t) : Prop :=
  hobj_le o bf = true → item_ok (may_include_deletes m) (b o) (entries_of o (C ++ N)) (missing m !! o) (ver h o).
Definition can_undo (h : S) (o : hobject_t) : Prop :=
  entries_of o N = [] → ∀ e, e ∈ entries_of o D → can_rollback e = true → undo h e ∧ is_lost_delete e = false.

Lemma merge_group o m h : all_of o D ≠ [] → pre_at m h o → can_undo h o →
  ∃ m' h', _merge_object_divergent_entries l o (all_of o D) bf crt m (Some h) = Ok (m', Some h') ∧ only o m h m' h' ∧ post_at m' h' o.
Proof.
  intros Hne Hpre Hu. unfold pre_at, post_at, _merge_object_divergent_entries in *. destruct (hobj_le o bf) eqn:Eb.
  - specialize (Hpre eq_refl). destruct (merge_object_ok l o (all_of o D) bf crt m h (b o) (entries_of o C) (entries_of o N)) as (m' & h' & E & Hon & Hit); try done.
    + apply Forall_forall. intros e He. by apply elem_all_of in He as [_ He].
    + by apply sorted_filter.
    + rewrite Forall_forall in *. intros e [He _]%elem_all_of. by apply Hpos.
    + by rewrite live_all.
    + by rewrite <- entries_of_app.
    + rewrite live_all. intros HN. apply Forall_forall. by apply Hu.
    + by rewrite live_all.
    + exists m', h'. split; [exact E|]. split; [done|]. intros _. rewrite entries_of_app, (only_deletes _ _ _ _ _ Hon). done.
  - unfold hobj_le in Eb. apply negb_false_iff in Eb. rewrite Eb. exists m, h. split; [done|]. split; [apply only_refl|done].
Qed.

Lemma merge_split_ok sp : NoDup sp.*1 → (∀ o g, (o, g) ∈ sp → g = all_of o D ∧ g ≠ []) → ∀ m h,
  (∀ o, o ∈ sp.*1 → pre_at m h o ∧ can_undo h o) →
  ∃ m' h', merge_split l sp bf crt m (Some h) = Ok (m', Some h') ∧ may_include_deletes m' = may_include_deletes m ∧
    (∀ o, o ∈ sp.*1 → post_at m' h' o) ∧ (∀ o, o ∉ sp.*1 → missing m' !! o = missing m !! o ∧ ver h' o = ver h o).
Proof.
  induction sp as [|[o g] sp IH]; intros Hnd Hg m h Hpre; cbn [merge_split].
  { exists m, h. split_and!; try done. by intros o ?%not_elem_of_nil. }
  cbn [fmap list_fmap fst] in *. apply NoDup_cons in Hnd as [Hno Hnd]. destruct (Hg o g ltac:(left)) as [-> Hne].
  destruct (Hpre o ltac:(left)) as [Hp Hu]. destruct (merge_group o m h Hne Hp Hu) as (m1 & h1 & -> & Hon & Hpost). cbn [bind].
  destruct Hon as [Hd Hm Hv Hun]. destruct (IH Hnd (λ o g H, Hg o g (list_elem_of_further _ _ _ H)) m1 h1) as (m2 & h2 & -> & Hd2 & Hin & Hout).
  - intros o' Ho'. assert (o' ≠ o) as Hneq by (by intros ->). destruct (Hpre o' (list_elem_of_further _ _ _ Ho')) as [Hp' Hu']. split.
    + unfold pre_at in *. by rewrite Hd, Hm, Hv.
    + intros HN e He Hc. destruct (Hu' HN e He Hc) as [? ?]. split; [|done]. apply Hun; [|done]. by apply elem_entries_of in He as (_ & -> & _).
  - exists m2, h2. split; [done|]. split; [by rewrite Hd2|]. split.
    + intros o' [->|Ho']%elem_of_cons; [|by apply Hin]. destruct (Hout o Hno) as [E1 E2]. unfold post_at in *. by rewrite Hd2, E1, E2.
    + intros o' Ho'. apply not_elem_of_cons in Ho' as [Hneq Ho']. destruct (Hout o' Ho') as [-> ->]. split; [by apply Hm|by apply Hv].
Qed.

Lemma merge_divergent_ok m h : (∀ o, pre_at m h o) → (∀ o, can_undo h o) →
  ∃ m' h', _merge_divergent_entries l D bf crt m (Some h) = Ok (m', Some h') ∧ may_include_deletes m' = may_include_deletes m ∧
    accurate bf b (C ++ N) m' h'.
Proof.
  intros Hpre Hu. destruct (split_spec D Hnames) as [Hs Hg]. destruct (merge_split_ok (split_by_object D) (groups_nodup _ Hs) (λ o g H, proj1 (Hg o g) H) m h) as (m' & h' & E & Hd & Hin & Hout); [done|].
  exists m', h'. split; [exact E|]. split; [done|]. intros o Ho. destruct (decide (all_of o D = [])) as [Ea|Ea].
  - destruct (Hout o) as [E1 E2].
    { intros ([o' g] & -> & [-> H']%Hg)%list_elem_of_fmap. done. }
    specialize (Hpre o Ho). unfold merge_pre in Hpre. rewrite <- (live_all o D), Ea in Hpre. simpl in Hpre. by rewrite Hd, E1, E2, entries_of_app.
  - apply Hin; [|done]. exact (list_elem_of_fmap_2 fst _ (o, all_of o D) (proj2 (Hg _ _) (conj eq_refl Ea))).
Qed.
End Divergent.

(** ** Appending entries *)

Definition ilog_ok (l : IndexedLog) : Prop := indexed_objects l = true ∧ ∀ o, objects l !! o = last (entries_of o (log (base l))).

Lemma index_of_spec es o : index_of es !! o = last (entries_of o es).
Proof.
  unfold index_of. induction es as [|e es IH] using rev_ind; [done|]. rewrite foldl_snoc, entries_of_app, last_app. unfold object_is_indexed.
  destruct (is_error e) eqn:Ee; cbn [negb]; [by rewrite entries_of_other by auto|].
  destruct (decide (soid e = o)) as [<-|Hne]; [by rewrite lookup_insert_eq, entries_of_one|]. rewrite lookup_insert_ne by done. by rewrite entries_of_other by auto.
Qed.

(** The entries can be added to a log with the head [hd] one after the other. *)
Fixpoint addable (hd : eversion_t) (es : list pg_log_entry_t) : Prop :=
  match es with
  | [] => True
  | e :: es => ev_lt hd (e_version e) = true ∧ (version hd = 0 ∨ version hd < version (e_version e)) ∧ addable (e_version e) es
  end.

Lemma log_add_ok l e : ilog_ok l → ev_lt (head (base l)) (e_version e) = true → (version (head (base l)) = 0 ∨ version (head (base l)) < version (e_version e)) →
  ∃ l', log_add l e true = Ok l' ∧ ilog_ok l' ∧ log (base l') = log (base l) ++ [e] ∧ head (base l') = e_version e ∧ tail (base l') = tail (base l) ∧
    can_rollback_to (base l') = can_rollback_to (base l).
Proof.
  intros [Hi Hix] Hlt Hnum. unfold log_add. cbn [orb assert bind]. rewrite Hlt. cbn [assert bind].
  rewrite assert_true by (apply orb_true_iff; rewrite Z.eqb_eq, Z.ltb_lt; tauto). cbn [bind]. eexists. split; [done|]. cbn [base log head tail can_rollback_to]. split; [|done].
  split; [done|]. intros o. cbn [objects base log]. rewrite Hi, entries_of_app, last_app. unfold object_is_indexed. cbn [andb].
  destruct (is_error e) eqn:Ee; cbn [negb]; [by rewrite entries_of_other by auto|].
  destruct (decide (soid e = o)) as [<-|Hne]; [by rewrite lookup_insert_eq, entries_of_one|]. rewrite lookup_insert_ne by done. by rewrite entries_of_other by auto.
Qed.

(** What a new entry does to the item and the version of its object. *)
Definition event (deletes : bool) (e : pg_log_entry_t) (it : option pg_missing_item) (v : eversion_t) (it' : option pg_missing_item) (v' : eversion_t) : Prop :=
  if deletes || negb (is_delete e) then
    it' = Some (mk_item (e_version e)
      (if ev_eqb (prior_version e) ev0 || is_clone e then ev0 else match it with Some i => have i | None => prior_version e end) (is_delete e)) ∧ v' = v
  else it' = match it with Some i => if ev_le (need i) (e_version e) then None else Some i | None => None end ∧ v' = ev0.

Lemma add_next_ok m e : is_backlog e = false →
  ∃ m', add_next_event m e = Ok m' ∧ may_include_deletes m' = may_include_deletes m ∧ (∀ o, o ≠ soid e → missing m' !! o = missing m !! o) ∧
    missing m' !! soid e = Some (mk_item (e_version e)
      (if ev_eqb (prior_version e) ev0 || is_clone e then ev0 else match missing m !! soid e with Some i => have i | None => prior_version e end) (is_delete e)).
Proof.
  intros Hb. unfold add_next_event. rewrite Hb. destruct (_ || is_clone e); [|destruct (missing m !! soid e)]; cbn [bind]; eexists; (split; [done|]); simpl;
    (split; [done|]); (split; [|by rewrite lookup_insert_eq]); intros o Ho; by rewrite lookup_insert_ne.
Qed.

Lemma update_missing_ok bf e m h : is_backlog e = false →
  ∃ m' h', update_missing bf false e m (Some h) = Ok (m', Some h') ∧ only (soid e) m h m' h' ∧
    if hobj_le (soid e) bf && negb (is_error e) then event (may_include_deletes m) e (missing m !! soid e) (ver h (soid e)) (missing m' !! soid e) (ver h' (soid e))
    else m' = m ∧ h' = h.
Proof.
  intros Hb. unfold update_missing. destruct (hobj_le (soid e) bf && negb (is_error e)); [|exists m, h; split; [done|]; split; [apply only_refl|done]].
  unfold event. destruct (add_next_ok m e Hb) as (m' & E & Hd & Hoth & Hit). destruct (may_include_deletes m) eqn:Emid; cbn [orb].
  { rewrite E. cbn [bind]. exists m', h. split; [done|]. split; [split; try done; congruence|done]. }
  destruct (is_delete e) eqn:Ed; cbn [negb bind fmap option_fmap option_map andb].
  - eexists _, _. split; [done|]. rewrite ver_remove, decide_True by done. unfold rm. split.
    + destruct (missing m !! soid e) as [i|]; [destruct (ev_le _ _)|]; split; simpl; try done; intros x Hx; rewrite ?ver_remove, ?decide_False, ?lookup_delete_ne by done; try done; intros Hu; by apply undo_remove.
    + destruct (missing m !! soid e) as [i|] eqn:Ei; [destruct (ev_le _ _)|]; simpl; by rewrite ?lookup_delete_eq.
  - rewrite E. cbn [bind]. exists m', h. split; [done|]. split; [split; try done; congruence|]. done.
Qed.

Lemma merge_pre_event deletes b Co Do No e it v it' v' : merge_pre deletes b Co Do No it v → event deletes e it v it' v' →
  entry_ok (match last (Co ++ No) with Some e => after e | None => b end) e → (∀ i, it = Some i → ev_le (need i) (e_version e) = true) →
  merge_pre deletes b Co Do (No ++ [e]) it' v'.
Proof.
  intros Hpre Hev Hok Hneed. unfold merge_pre in *. rewrite last_snoc. unfold event in Hev. destruct Do as [|d Do].
  - unfold item_ok. rewrite app_assoc, last_snoc. destruct (deletes || negb (is_delete e)) eqn:Ed.
    + destruct Hev as [-> ->]. cbn [need have item_delete]. split.
      * split_and!; [done|done|]. intros E. by rewrite E, orb_false_r in Ed.
      * destruct (ev_eqb (prior_version e) ev0 || is_clone e) eqn:E; [done|]. apply orb_false_iff in E as [_ E]. unfold entry_ok in Hok. rewrite E in Hok.
        destruct it as [i|]; [apply Hpre|]. simpl in Hpre. by rewrite Hpre, Hok.
    + apply orb_false_iff in Ed as [_ Ed%negb_false_iff]. destruct Hev as [-> ->]. destruct it as [i|]; [rewrite (Hneed i eq_refl)|]; unfold after; by rewrite Ed.
  - destruct (deletes || negb (is_delete e)); destruct Hev as [-> ->]; [by eexists|]. split; [|done]. destruct it as [i|]; [by rewrite (Hneed i eq_refl)|done].
Qed.

Lemma event_need deletes e it v it' v' i : event deletes e it v it' v' → it' = Some i → (∀ i, it = Some i → ev_le (need i) (e_version e) = true) → ev_le (need i) (e_version e) = true.
Proof.
  unfold event. intros Hev -> Hn. destruct (_ || _); destruct Hev as [E _]; [injection E as ->; simpl; ev_lia|].
  destruct it as [j|]; [|done]. by rewrite (Hn j eq_refl) in E.
Qed.

Definition needs_below (bf : hobject_t) (m : pg_missing_set) (v : eversion_t) : Prop :=
  ∀ o i, hobj_le o bf = true → missing m !! o = Some i → ev_le (need i) v = true.

Section Append.
Context (bf : hobject_t) (b : hobject_t → eversion_t) (C D : list pg_log_entry_t).

Lemma append_step Np e m h hd : (∀ o, pre_at bf b C D Np m h o) → needs_below bf m hd → ev_lt hd (e_version e) = true → is_backlog e = false →
  chained b (C ++ Np ++ [e]) →
  ∃ m' h', update_missing bf false e m (Some h) = Ok (m', Some h') ∧ may_include_deletes m' = may_include_deletes m ∧
    (∀ o, pre_at bf b C D (Np ++ [e]) m' h' o) ∧ needs_below bf m' (e_version e) ∧ (∀ e', entries_of (soid e') [e] = [] → undo h e' → undo h' e').
Proof.
  intros Hpre Hneed Hlt Hb Hch. destruct (update_missing_ok bf e m h Hb) as (m' & h' & E & [Hd Hm Hv Hu] & Hev). exists m', h'. split; [done|]. split; [done|].
  assert (∀ o i, hobj_le o bf = true → missing m !! o = Some i → ev_le (need i) (e_version e) = true) as Hn.
  { intros o i Ho Hi. specialize (Hneed o i Ho Hi). ev_lia. }
  destruct (hobj_le (soid e) bf && negb (is_error e)) eqn:Ec.
  - apply andb_true_iff in Ec as [Ebf Eer%negb_true_iff]. split_and!.
    + intros o Ho. rewrite Hd, entries_of_app. destruct (decide (o = soid e)) as [->|Hne].
      * rewrite (entries_of_one _ e) by done. eapply merge_pre_event; [by apply Hpre|exact Hev| |by intros i; apply Hn].
        rewrite app_assoc, chained_app in Hch. destruct Hch as [_ Hch]. specialize (Hch [] e [] eq_refl Eer). simpl in Hch. by rewrite <- entries_of_app.
      * rewrite (entries_of_other _ e), app_nil_r, Hm, Hv by auto. by apply Hpre.
    + intros o i Ho Hi. destruct (decide (o = soid e)) as [->|Hne]; [by apply (event_need _ _ _ _ _ _ i Hev Hi); intros j; apply Hn|]. rewrite Hm in Hi by done. by apply (Hn o).
    + intros e' He'. apply Hu. intros Eq. rewrite (entries_of_one _ e) in He' by done. done.
  - destruct Hev as [-> ->]. split_and!; [|by intros o i; apply Hn|done]. intros o Ho. rewrite entries_of_app. specialize (Hpre o Ho).
    destruct (decide (soid e = o)) as [Eo|Hne]; [|by rewrite entries_of_other, app_nil_r by auto].
    rewrite entries_of_other, app_nil_r; [done|]. right. rewrite Eo, Ho in Ec. by destruct (is_error e).
Qed.

Lemma append_ok es : ∀ Np l m h inv v, ilog_ok l → addable (head (base l)) es → log_sorted es → Forall (λ e, is_backlog e = false) es →
  chained b (C ++ Np ++ es) → (∀ o, pre_at bf b C D Np m h o) → needs_below bf m v → (∀ e, e ∈ es → ev_lt v (e_version e) = true) →
  ∃ l' m' h' inv', append_loop bf false es (Some l) m (Some h) inv = Ok (Some l', m', Some h', inv') ∧ ilog_ok l' ∧
    log (base l') = log (base l) ++ es ∧ tail (base l') = tail (base l) ∧ can_rollback_to (base l') = can_rollback_to (base l) ∧
    may_include_deletes m' = may_include_deletes m ∧ (∀ o, pre_at bf b C D (Np ++ es) m' h' o) ∧
    (∀ e, entries_of (soid e) es = [] → undo h e → undo h' e).
Proof.
  induction es as [|e es IH]; intros Np l m h inv v Hl Had Hs Hb Hch Hpre Hneed Hv; cbn [append_loop].
  { exists l, m, h, inv. rewrite !app_nil_r. by split_and!. }
  destruct Had as (Hlt & Hnum & Had). apply Forall_cons in Hb as [Hbe Hb]. apply StronglySorted_inv in Hs as [Hs Hse]. rewrite Forall_forall in Hse.
  destruct (log_add_ok l e Hl Hlt Hnum) as (l1 & -> & Hl1 & Elog & Ehd & Etl & Ecr). cbn [bind].
  replace (Np ++ e :: es) with ((Np ++ [e]) ++ es) in * by (by rewrite <- app_assoc).
  destruct (append_step Np e m h v) as (m1 & h1 & -> & Hd1 & Hpre1 & Hneed1 & Hu1); try done; [apply Hv; left| |].
  { rewrite app_assoc in Hch. by apply chained_app in Hch as [? _]. }
  cbn [bind]. destruct (IH (Np ++ [e]) l1 m1 h1 (inv || negb (is_error e)) (e_version e)) as (l2 & m2 & h2 & inv2 & -> & Hl2 & Elog2 & Etl2 & Ecr2 & Hd2 & Hpre2 & Hu2); try done; [by rewrite Ehd|].
  exists l2, m2, h2, inv2. split_and!; try done; try congruence.
  - rewrite Elog2, Elog. by rewrite <- app_assoc.
  - intros e' He' Hu. change (e :: es) with ([e] ++ es) in He'. rewrite entries_of_app in He'. apply app_eq_nil in He' as [He1 He2]. apply Hu2; [done|]. by apply Hu1.
Qed.
End Append.

(** ** Rewinding and rolling forward *)

Lemma rewind_loop_ok nh C D acc : Forall (λ e, version (e_version e) <= version nh) C →
  Forall (λ e, version nh < version (e_version e) ∧ ev_lt nh (e_version e) = true) D →
  rewind_loop nh (reverse (C ++ D)) acc = Ok (C, D ++ acc).
Proof.
  intros HC. revert acc. induction D as [|e D IH] using rev_ind; intros acc HD.
  - rewrite app_nil_r. destruct C as [|e C _] using rev_ind; [done|]. rewrite reverse_snoc. cbn [rewind_loop]. apply Forall_app in HC as [_ [He _]%Forall_cons].
    rewrite (proj2 (Z.leb_le _ _) He). by rewrite <- reverse_snoc, reverse_involutive.
  - apply Forall_app in HD as [HD [[H1 H2] _]%Forall_cons]. rewrite app_assoc, reverse_snoc. cbn [rewind_loop]. rewrite (proj2 (Z.leb_gt _ _)) by lia. rewrite H2. cbn [assert bind].
    rewrite IH by done. by rewrite <- app_assoc.
Qed.

Lemma rewind_ok l nh C D : log (base l) = C ++ D → ev_le (tail (base l)) nh = true → Forall (λ e, version (e_version e) <= version nh) C →
  Forall (λ e, version nh < version (e_version e) ∧ ev_lt nh (e_version e) = true) D →
  ∃ l', rewind_from_head l nh = Ok (D, l') ∧ ilog_ok l' ∧ log (base l') = C ∧ head (base l') = nh ∧ tail (base l') = tail (base l).
Proof.
  intros E Ht HC HD. unfold rewind_from_head, log_rewind_from_head. rewrite Ht, E. cbn [assert bind]. rewrite rewind_loop_ok, app_nil_r by done. cbn [bind].
  eexists. split; [done|]. split; [|done]. split; [done|]. apply index_of_spec.
Qed.

Lemma advance_fields {T} (f : pg_log_entry_t → T → T) l to h :
  let r := advance_can_rollback_to f l to h in
  objects r.1 = objects l ∧ indexed_objects r.1 = indexed_objects l ∧ log (base r.1) = log (base l) ∧ head (base r.1) = head (base l) ∧
  tail (base r.1) = tail (base l).
Proof. unfold advance_can_rollback_to. by destruct (advance_loop _ _ _ _). Qed.
Lemma advance_ilog {T} (f : pg_log_entry_t → T → T) l to h : ilog_ok l → ilog_ok (advance_can_rollback_to f l to h).1.
Proof. pose proof (advance_fields f l to h) as (E1 & E2 & E3 & _). intros [H1 H2]. split; [by rewrite E2|]. intros o. by rewrite E1, E3. Qed.

Lemma forward_loop to es : ∀ h, (∀ o, ver (advance_loop h_rollforward to es h).2 o = ver h o) ∧
  (∀ e, e ∉ es → undo h e → undo (advance_loop h_rollforward to es h).2 e).
Proof.
  induction es as [|e es IH]; intros h; cbn [advance_loop]; [done|]. destruct (ev_lt to (e_version e)); [done|]. destruct (IH (h_rollforward e h)) as [H1 H2]. split.
  - intros o. by rewrite H1, ver_rollforward.
  - intros e' Hn Hu. apply H2; [set_solver|]. apply undo_rollforward; [done|set_solver].
Qed.
Lemma forward_ok l to h : (∀ o, ver (advance_can_rollback_to h_rollforward l to h).2 o = ver h o) ∧
  (∀ e, e ∉ log (base l) → undo h e → undo (advance_can_rollback_to h_rollforward l to h).2 e).
Proof.
  unfold advance_can_rollback_to. set (t := if ev_lt _ to then _ else _). destruct (forward_loop t (drop (length (log (base l)) - riter l) (log (base l))) h) as [H1 H2].
  destruct (advance_loop _ _ _ _) as [d h']. simpl in *. split; [done|]. intros e He. apply H2. intros C. apply He.
  rewrite <- (take_drop (length (log (base l)) - riter l) (log (base l))). apply elem_of_app. by right.
Qed.
End Store.
End PGLogMerge.
