(* ===== verification/PGLogPeering.v ===== *)
(** * Peering: our log and the authoritative one (osd/PGLog.cc)

    Two logs of a placement group share a history up to some version.  Merging the authoritative log into ours never
    fails an assertion, leaves its history in our log, and leaves the missing set and the store in accordance with it. *)
From stdpp Require Import gmap.
From S2P Require Import Prelude StdMap IntervalSet PgPool PGLog PGLogMerge.

Module PGLogPeering.
Import PgPool PGLog PGLogMerge.

Lemma take_drop_while {X} (f : X → bool) l1 l2 : (∀ x, x ∈ l1 → f x = true) → (∀ x, x ∈ l2 → f x = false) →
  take_while f (l1 ++ l2) = l1 ∧ drop_while f (l1 ++ l2) = l2.
Proof.
  intros H1 H2. induction l1 as [|x l1 IH]; simpl.
  - destruct l2 as [|x l2]; [done|]. simpl. by rewrite (H2 x ltac:(left)).
  - rewrite (H1 x ltac:(left)). destruct IH as [-> ->]; [|done]. intros y Hy. apply H1. by right.
Qed.

(** Along a history the numbers of the versions grow with the versions. *)
Definition numbered (vs : list eversion_t) : Prop := ∀ v w, v ∈ vs → w ∈ vs → ev_lt v w = true → version v < version w.

Lemma numbered_le vs v w : numbered vs → v ∈ vs → w ∈ vs → ev_le v w = true → version v <= version w.
Proof. intros Hn Hv Hw H. destruct (ev_lt v w) eqn:E; [specialize (Hn v w Hv Hw E); lia|]. assert (v = w) as ->; [|lia]. apply ev_le_antisym; ev_lia. Qed.

(** [L] and [A] share the history up to [c]: [C] are our entries that are shared, [D] those that are not, [N] what the other
    log has beyond [c] and [old] what it has before our tail.  The other log was continued in a later interval, so whatever it has
    beyond [c] is newer than our head. *)
Record peers (L A : pg_log_t) (c : eversion_t) (old C D N : list pg_log_entry_t) : Prop := {
  pe_L : log L = C ++ D;
  pe_A : log A = (if ev_lt (tail A) (tail L) then old ++ C else List.filter (λ e, ev_lt (tail A) (e_version e)) C) ++ N;
  pe_old : if ev_lt (tail A) (tail L) then Forall (λ e, ev_le (e_version e) (tail L) = true) old else old = [];
  pe_sL : log_sorted (log L);
  pe_sA : log_sorted (log A);
  pe_C : ∀ e, e ∈ C → ev_lt (tail L) (e_version e) = true ∧ ev_le (e_version e) c = true;
  pe_D : ∀ e, e ∈ D → ev_lt c (e_version e) = true ∧ ev_le (e_version e) (head L) = true;
  pe_N : ∀ e, e ∈ N → ev_lt (head L) (e_version e) = true ∧ ev_le (e_version e) (head A) = true;
  pe_tails : ev_le ev0 (tail L) = true ∧ ev_le ev0 (tail A) = true ∧ ev_le (tail L) c = true ∧ ev_le (tail A) c = true;
  pe_heads : ev_le c (head L) = true ∧ ev_le c (head A) = true;
  pe_later : head A = c ∨ ev_lt (head L) (head A) = true;
  pe_numL : numbered ([tail L; tail A; c] ++ map e_version (log L));
  pe_numA : numbered ([tail L; tail A; c] ++ map e_version (log A))
}.

Section Peers.
Context (L A : pg_log_t) (c : eversion_t) (old C D N : list pg_log_entry_t) (Hp : peers L A c old C D N).

Lemma old_below e : e ∈ old → ev_le (e_version e) (tail L) = true.
Proof. pose proof (pe_old _ _ _ _ _ _ _ Hp) as H. destruct (ev_lt _ _); [rewrite Forall_forall in H; apply H|]. rewrite H. by intros ?%not_elem_of_nil. Qed.
Lemma shared_below e : e ∈ old ++ C → ev_le (e_version e) c = true.
Proof.
  pose proof (pe_tails _ _ _ _ _ _ _ Hp) as (_ & _ & Ht & _). intros [H%old_below|H%(pe_C _ _ _ _ _ _ _ Hp)]%elem_of_app; [ev_lia|apply H].
Qed.
Lemma old_first : ev_lt (tail A) (tail L) = true → take_while (λ e, ev_le (e_version e) (tail L)) (log A) = old ∧
  drop_while (λ e, ev_le (e_version e) (tail L)) (log A) = C ++ N.
Proof.
  intros E. pose proof (pe_A _ _ _ _ _ _ _ Hp) as EA. rewrite E in EA. rewrite EA, <- app_assoc.
  assert (∀ e, e ∈ C ++ N → ev_le (e_version e) (tail L) = false) as Hn.
  { pose proof (pe_tails _ _ _ _ _ _ _ Hp) as (_ & _ & Ht & _). pose proof (pe_heads _ _ _ _ _ _ _ Hp) as (Hh & _).
    intros e [H%(pe_C _ _ _ _ _ _ _ Hp)|H%(pe_N _ _ _ _ _ _ _ Hp)]%elem_of_app; destruct H; ev_lia. }
  apply take_drop_while; [apply old_below|done].
Qed.

(** *** The cut *)

(** What is left of the other log is what it shares, [X], and what is new. *)
Definition shared_part : list pg_log_entry_t := if ev_lt (tail A) (tail L) then C else List.filter (λ e, ev_lt (tail A) (e_version e)) C.
Lemma shared_part_in e : e ∈ shared_part → e ∈ C.
Proof. unfold shared_part. destruct (ev_lt _ _); [done|]. rewrite !list_elem_of_In, List.filter_In. tauto. Qed.
Lemma shared_part_log e : e ∈ shared_part → e ∈ log A.
Proof.
  rewrite (pe_A _ _ _ _ _ _ _ Hp). unfold shared_part. destruct (ev_lt _ _); intros H; apply elem_of_app; left; [|done]. apply elem_of_app. by right.
Qed.

(** The version where [merge_log] cuts our log. *)
Definition cut_point : eversion_t :=
  match reverse shared_part with e :: _ => ev_MAX (ev_MAX (tail A) (tail L)) (e_version e) | [] => ev_MAX (tail A) (tail L) end.

Lemma cut_in : cut_point = tail A ∨ cut_point = tail L ∨ ∃ e, e ∈ shared_part ∧ cut_point = e_version e.
Proof.
  unfold cut_point. destruct (reverse shared_part) as [|e r] eqn:E.
  - destruct (ev_MAX_spec (tail A) (tail L)) as [[_ ->]|[_ ->]]; auto.
  - assert (e ∈ shared_part) as He by (rewrite <- (reverse_involutive shared_part), E, elem_of_reverse; left).
    destruct (ev_MAX_spec (ev_MAX (tail A) (tail L)) (e_version e)) as [[_ ->]|[_ ->]]; [right; right; by exists e|]. destruct (ev_MAX_spec (tail A) (tail L)) as [[_ ->]|[_ ->]]; auto.
Qed.
Lemma cut_above : ev_le (tail A) cut_point = true ∧ ev_le (tail L) cut_point = true.
Proof.
  unfold cut_point. assert (ev_le (tail A) (ev_MAX (tail A) (tail L)) = true ∧ ev_le (tail L) (ev_MAX (tail A) (tail L)) = true) as [H1 H2].
  { destruct (ev_MAX_spec (tail A) (tail L)) as [[H ->]|[H ->]]; split; ev_lia. }
  destruct (reverse shared_part) as [|e r]; [done|]. destruct (ev_MAX_spec (ev_MAX (tail A) (tail L)) (e_version e)) as [[H ->]|[H ->]]; split; ev_lia.
Qed.
Lemma cut_below : ev_le cut_point c = true.
Proof.
  pose proof (pe_tails _ _ _ _ _ _ _ Hp) as (_ & _ & Ht & Ha). destruct cut_in as [->|[->|(e & He & ->)]]; [done|done|].
  apply (pe_C _ _ _ _ _ _ _ Hp). by apply shared_part_in.
Qed.
Lemma sorted_last es e r x : log_sorted es → reverse es = e :: r → x ∈ es → ev_le (e_version x) (e_version e) = true.
Proof.
  intros Hs E Hx. assert (es = reverse r ++ [e]) as -> by (by rewrite <- (reverse_involutive es), E, reverse_cons). apply sorted_app in Hs as (_ & _ & Hs).
  apply elem_of_app in Hx as [Hx| ->%list_elem_of_singleton]; [specialize (Hs x e Hx ltac:(left))|]; ev_lia.
Qed.
Lemma cut_shared e : e ∈ old ++ C → ev_le (e_version e) cut_point = true.
Proof.
  pose proof cut_above as [Ha Hl]. intros [H%old_below|H]%elem_of_app; [ev_lia|].
  destruct (decide (e ∈ shared_part)) as [Hs|Hs].
  - unfold cut_point. destruct (reverse shared_part) as [|x r] eqn:E; [apply (f_equal reverse) in E; rewrite reverse_involutive in E; rewrite E in Hs; by apply not_elem_of_nil in Hs|].
    assert (log_sorted shared_part) as Hso.
    { pose proof (pe_sL _ _ _ _ _ _ _ Hp) as HsL. rewrite (pe_L _ _ _ _ _ _ _ Hp) in HsL. apply sorted_app in HsL as (HsL & _). unfold shared_part. destruct (ev_lt _ _); [done|by apply sorted_filter]. }
    pose proof (sorted_last _ _ _ e Hso E Hs). destruct (ev_MAX_spec (ev_MAX (tail A) (tail L)) (e_version x)) as [[H' ->]|[H' ->]]; ev_lia.
  - unfold shared_part in Hs. destruct (ev_lt (tail A) (tail L)); [done|]. destruct (ev_lt (tail A) (e_version e)) eqn:E; [|ev_lia].
    destruct Hs. apply list_elem_of_In, List.filter_In. split; [by apply list_elem_of_In|done].
Qed.

Definition versionsL : list eversion_t := [tail L; tail A; c] ++ map e_version (log L).
Definition versionsA : list eversion_t := [tail L; tail A; c] ++ map e_version (log A).
Lemma cut_versions : cut_point ∈ versionsL ∧ cut_point ∈ versionsA.
Proof.
  unfold versionsL, versionsA. destruct cut_in as [->|[->|(e & He & ->)]]; [split; right; left|split; left|]. split; apply elem_of_app; right; apply list_elem_of_fmap_2.
  - rewrite (pe_L _ _ _ _ _ _ _ Hp). apply elem_of_app. left. by apply shared_part_in.
  - by apply shared_part_log.
Qed.
Lemma c_versions : c ∈ versionsL ∧ c ∈ versionsA.
Proof. split; do 2 right; left. Qed.

Lemma old_log e : e ∈ old → e ∈ log A.
Proof.
  intros He. pose proof (pe_old _ _ _ _ _ _ _ Hp) as Ho. rewrite (pe_A _ _ _ _ _ _ _ Hp). destruct (ev_lt _ _); [by rewrite <- app_assoc; apply elem_of_app; left|]. rewrite Ho in He. by apply not_elem_of_nil in He.
Qed.
Lemma kept_numbers v : v ∈ versionsL → v ∈ versionsA → (∀ e, e ∈ old ++ C → ev_le (e_version e) v = true) →
  Forall (λ e, version (e_version e) <= version v) (old ++ C).
Proof.
  intros HL HA Hv. apply Forall_forall. intros e He. specialize (Hv e He). apply elem_of_app in He as [He%old_log|He].
  - apply (numbered_le _ _ _ (pe_numA _ _ _ _ _ _ _ Hp)); [|done|done]. apply elem_of_app. right. by apply list_elem_of_fmap_2.
  - apply (numbered_le _ _ _ (pe_numL _ _ _ _ _ _ _ Hp)); [|done|done]. apply elem_of_app. right. apply list_elem_of_fmap_2. rewrite (pe_L _ _ _ _ _ _ _ Hp). apply elem_of_app. auto.
Qed.
Lemma divergent_numbers v : v ∈ versionsL → ev_le v c = true → Forall (λ e, version v < version (e_version e) ∧ ev_lt v (e_version e) = true) D.
Proof.
  intros HL Hv. apply Forall_forall. intros e He. pose proof (pe_D _ _ _ _ _ _ _ Hp e He) as [H1 _]. assert (ev_lt v (e_version e) = true) as Hlt by ev_lia. split; [|done].
  apply (pe_numL _ _ _ _ _ _ _ Hp); [done| |done]. apply elem_of_app. right. apply list_elem_of_fmap_2. rewrite (pe_L _ _ _ _ _ _ _ Hp). apply elem_of_app. auto.
Qed.
Lemma new_addable v : v ∈ versionsA → ev_le v (head L) = true → addable v N ∧ log_sorted N.
Proof.
  intros HA Hv. assert (∀ e, e ∈ N → ev_lt v (e_version e) = true) as Hlt by (intros e He; pose proof (pe_N _ _ _ _ _ _ _ Hp e He) as [H1 _]; ev_lia).
  assert (log_sorted N) as Hs by (pose proof (pe_sA _ _ _ _ _ _ _ Hp) as H; rewrite (pe_A _ _ _ _ _ _ _ Hp) in H; by apply sorted_app in H as (_ & H & _)). split; [|done].
  assert (∀ e, e ∈ N → e_version e ∈ versionsA) as Hin by (intros e He; apply elem_of_app; right; apply list_elem_of_fmap_2; rewrite (pe_A _ _ _ _ _ _ _ Hp); apply elem_of_app; by right).
  clear Hv. pose proof (pe_numA _ _ _ _ _ _ _ Hp) as Hnum. fold versionsA in Hnum. clear Hp. revert v HA Hlt. induction Hs as [|e es Hs IH Hf]; intros v HA Hlt; [done|].
  split; [apply Hlt; left|]. split; [right; apply Hnum; [done|apply Hin; left|apply Hlt; left]|]. rewrite Forall_forall in Hf. apply IH; [intros x Hx; apply Hin; by right|apply Hin; left|done].
Qed.

(** *** The entries of one object *)

Context (b : hobject_t → eversion_t).
Hypothesis Hours : chained b ((old ++ C) ++ D).
Hypothesis Hclones : clones_first ((old ++ C) ++ D).

Lemma entries_of_split o es l1 x l2 : entries_of o es = l1 ++ x :: l2 → ∃ pre post, es = pre ++ x :: post ∧ entries_of o pre = l1.
Proof.
  revert l1. induction es as [|e es IH]; intros l1 E; [by destruct l1|]. unfold entries_of in E. cbn [List.filter] in E. fold (entries_of o es) in E.
  destruct (bool_decide (soid e = o) && negb (is_error e)) eqn:Ef.
  - destruct l1 as [|y l1]; [injection E as -> _; by exists [], es|]. injection E as -> E. destruct (IH l1 E) as (pre & post & -> & <-). exists (y :: pre), post.
    split; [done|]. unfold entries_of. cbn [List.filter]. by rewrite Ef.
  - destruct (IH l1 E) as (pre & post & -> & <-). exists (e :: pre), post. split; [done|]. unfold entries_of. cbn [List.filter]. by rewrite Ef.
Qed.
Lemma peers_diverge o : diverges (b o) (entries_of o (old ++ C)) (entries_of o D) (entries_of o N).
Proof.
  split.
  - apply chained_app in Hours as [_ H]. apply (chained_object _ _ o) in H. exact H.
  - intros e t E. apply Forall_forall. intros x Hx. destruct (is_clone x) eqn:Ex; [|done]. apply list_elem_of_split in Hx as (t1 & t2 & ->).
    destruct (entries_of_split o ((old ++ C) ++ D) (entries_of o (old ++ C) ++ e :: t1) x t2) as (pre & post & E1 & E2).
    { rewrite entries_of_app, E. by rewrite <- app_assoc. }
    assert (x ∈ entries_of o D) as (_ & Eo & _)%elem_entries_of by (rewrite E; right; apply elem_of_app; right; left).
    pose proof (Hclones pre x post E1 Ex) as H. rewrite Eo, E2 in H. by destruct (entries_of o (old ++ C)).
  - intros e e' (He & _)%elem_entries_of (He' & _)%elem_entries_of. apply shared_below in He. apply (pe_D _ _ _ _ _ _ _ Hp) in He' as [He' _]. ev_lia.
  - intros e e' (He & _)%elem_entries_of (He' & _)%elem_entries_of. apply (pe_D _ _ _ _ _ _ _ Hp) in He as [_ He]. apply (pe_N _ _ _ _ _ _ _ Hp) in He' as [He' _]. ev_lia.
  - apply Forall_forall. by intros e (_ & _ & He)%elem_entries_of.
Qed.
End Peers.

(** ** Merging *)

(** The index stays right when older entries are put in front. *)
Lemma index_older old : ∀ l pre, indexed_objects l = true → log_sorted (pre ++ old) →
  (∀ e e', e ∈ pre ++ old → e' ∈ log (base l) → ev_lt (e_version e) (e_version e') = true) →
  (∀ o, objects l !! o = last (entries_of o (pre ++ log (base l)))) →
  let l' := foldl index_entry l old in
  base l' = base l ∧ indexed_objects l' = true ∧ ∀ o, objects l' !! o = last (entries_of o ((pre ++ old) ++ log (base l))).
Proof.
  induction old as [|e old IH]; intros l pre Hi Hs Hlt Hobj; cbn [foldl]; [by rewrite app_nil_r|].
  replace (pre ++ e :: old) with ((pre ++ [e]) ++ old) in * by (by rewrite <- app_assoc).
  assert (base (index_entry l e) = base l ∧ indexed_objects (index_entry l e) = true ∧
    ∀ o, objects (index_entry l e) !! o = last (entries_of o ((pre ++ [e]) ++ log (base l)))) as (E1 & E2 & E3).
  { unfold index_entry. rewrite Hi. unfold object_is_indexed. cbn [andb]. destruct (is_error e) eqn:Ee; cbn [negb].
    { split; [done|]. split; [done|]. intros o. rewrite Hobj, !entries_of_app, (entries_of_other o e), app_nil_r by auto. done. }
    assert (∀ o, o ≠ soid e → objects l !! o = last (entries_of o ((pre ++ [e]) ++ log (base l)))) as Hoth.
    { intros o Ho. rewrite Hobj, !entries_of_app, (entries_of_other o e), app_nil_r by auto. done. }
    pose proof (Hobj (soid e)) as Hse. rewrite entries_of_app, last_app in Hse.
    destruct (last (entries_of (soid e) (log (base l)))) as [x|] eqn:Ex.
    - rewrite Hse. apply last_entries in Ex as Hx.
      rewrite (proj2 (ev_lt_nle (e_version x) (e_version e))) by (specialize (Hlt e x ltac:(rewrite <- app_assoc; apply elem_of_app; right; left) Hx); ev_lia).
      split; [done|]. split; [done|]. intros o. destruct (decide (o = soid e)) as [->|Ho]; [|by apply Hoth]. by rewrite Hse, entries_of_app, last_app, Ex.
    - assert (∀ o, <[soid e := e]> (objects l) !! o = last (entries_of o ((pre ++ [e]) ++ log (base l)))) as Hins.
      { intros o. destruct (decide (o = soid e)) as [->|Ho]; [|by rewrite lookup_insert_ne by done; apply Hoth]. by rewrite lookup_insert_eq, entries_of_app, last_app, Ex, entries_of_app, (entries_of_one _ e), last_snoc. }
      rewrite Hse. destruct (last (entries_of (soid e) pre)) as [y|] eqn:Ey; [|done].
      apply last_entries in Ey as Hy. apply sorted_app in Hs as (Hs & _). apply sorted_app in Hs as (_ & _ & Hs).
      by rewrite (Hs y e Hy ltac:(left)). }
  destruct (IH (index_entry l e) (pre ++ [e])) as (E4 & E5 & E6); [done|done|by rewrite E1|by rewrite E1|]. split; [by rewrite E4|]. split; [done|]. intros o. by rewrite E6, E1.
Qed.

Section Merge.
Context {HitSet Stats : Type} {S : Type} `{HandlerLaws S}.

Lemma accurate_extend bf b old es m (h : S) : accurate bf (wanted b old) es m h → accurate bf b (old ++ es) m h.
Proof.
  intros Ha o Ho. specialize (Ha o Ho). unfold item_ok in *. rewrite entries_of_app, last_app. unfold wanted in Ha.
  destruct (missing m !! o) as [it|]; destruct (last (entries_of o es)) as [e|]; try done. destruct Ha as [(Hn & Hd & Hz) Hh]. split; [|done].
  destruct (last (entries_of o old)) as [e|]; [|done]. unfold after in *. by destruct (is_delete e).
Qed.
Lemma accurate_needs bf b es m (h : S) v : accurate bf b es m h → (∀ o, ev_le (b o) v = true) → (∀ e, e ∈ es → ev_le (e_version e) v = true) → needs_below bf m v.
Proof.
  intros Ha Hb Hes o i Ho Hi. specialize (Ha o Ho). rewrite Hi in Ha. destruct Ha as [Ha _]. destruct (last (entries_of o es)) as [e|] eqn:E.
  - destruct Ha as [-> _]. apply Hes. by apply last_entries in E.
  - by destruct Ha as [-> _].
Qed.
Lemma accurate_pre bf b C D m (h : S) : accurate bf b (C ++ D) m h → ∀ o, pre_at bf b C D [] m h o.
Proof.
  intros Ha o Ho. specialize (Ha o Ho). unfold merge_pre. rewrite entries_of_app in Ha. change (entries_of o []) with (@nil pg_log_entry_t). cbn [last].
  destruct (entries_of o D); [done|done].
Qed.

(** What the merge needs to know of the histories: the entries of each know what they replace; divergent entries that say that they
    can be undone can be. *)
Record histories (b : hobject_t → eversion_t) (tl : eversion_t) (old C D N : list pg_log_entry_t) (h : S) : Prop := {
  hi_base : ∀ o, ev_le (b o) tl = true;
  hi_ours : chained b ((old ++ C) ++ D);
  hi_theirs : chained b ((old ++ C) ++ N);
  hi_clones : clones_first ((old ++ C) ++ D);
  hi_names : Forall (λ e, hobj_ok (soid e)) D;
  hi_backlog : Forall (λ e, is_backlog e = false) N;
  hi_undo : ∀ e, e ∈ D → can_rollback e = true → undo h e ∧ is_lost_delete e = false
}.

(** The log, the missing set and the store are those of the history [es]. *)
Record holds_history (bf : hobject_t) (b : hobject_t → eversion_t) (es : list pg_log_entry_t) (hd tl : eversion_t) (p : PGLog_t) (h : S) : Prop := {
  hh_log : log (base (p_log p)) = es;
  hh_head : head (base (p_log p)) = hd;
  hh_tail : tail (base (p_log p)) = tl;
  hh_index : ilog_ok (p_log p);
  hh_accurate : accurate bf b es (p_missing p) h
}.

Section Run.
Context (L A : pg_log_t) (c : eversion_t) (old C D N : list pg_log_entry_t) (Hp : peers L A c old C D N).
Context (b : hobject_t → eversion_t) (bf : hobject_t).
Definition both_tail : eversion_t := if ev_lt (tail A) (tail L) then tail A else tail L.

Lemma both_tail_below v : ev_le (tail L) v = true → ev_le both_tail v = true.
Proof. intros Hv. unfold both_tail. destruct (ev_lt (tail A) (tail L)) eqn:E; ev_lia. Qed.

Lemma divergent_pos : Forall (λ e, ev_lt ev0 (e_version e) = true) D.
Proof.
  pose proof (pe_tails _ _ _ _ _ _ _ Hp) as (H0 & _ & H1 & _). apply Forall_forall. intros e He. apply (pe_D _ _ _ _ _ _ _ Hp) in He as [He _]. ev_lia.
Qed.
Lemma divergent_sorted : log_sorted D.
Proof. pose proof (pe_sL _ _ _ _ _ _ _ Hp) as Hs. rewrite (pe_L _ _ _ _ _ _ _ Hp) in Hs. by apply sorted_app in Hs as (_ & Hs & _). Qed.

(** Our log is longer: it is rewound. *)
Lemma rewind_divergent_ok (p : PGLog_t) (info : pg_info_t HitSet Stats) h : histories b (tail L) old C D N h → N = [] → bf = last_backfill info →
  holds_history bf b ((old ++ C) ++ D) (head L) both_tail p h →
  ∃ p' info' h', rewind_divergent_log p info c h = Ok (p', info', h') ∧ holds_history bf b (old ++ C) c both_tail p' h' ∧
    last_update info' = c ∧ last_backfill info' = bf.
Proof.
  intros [Hb Ho Ht Hcl Hn Hbl Hu] HN Ebf [Elog Ehd Etl Hix Hacc]. destruct (c_versions L A c) as [HL HA]. pose proof (pe_tails _ _ _ _ _ _ _ Hp) as (_ & _ & Htl & _).
  unfold rewind_divergent_log. destruct (rewind_ok (p_log p) c (old ++ C) D) as (l & E & Hl & El & Eh & Et).
  { done. } { rewrite Etl. by apply both_tail_below. } { apply (kept_numbers L A c old C D N Hp c HL HA (shared_below L A c old C D N Hp)). } { apply (divergent_numbers L A c old C D N Hp c HL). ev_lia. }
  rewrite E. cbn [bind]. set (info1 := set_last_update _ c). set (p1 := match D with e :: _ => _ | [] => p end).
  assert (last_backfill info1 = bf) as Ebf1 by (unfold info1; rewrite Ebf; by destruct (ev_lt c (last_complete info))).
  assert (p_missing p1 = p_missing p) as -> by (unfold p1; by destruct D).
  destruct (merge_divergent_ok l bf (can_rollback_to (base l)) b (old ++ C) D []) with (m := p_missing p) (h := h) as (m & h' & Em & Hd & Ha); try done.
  - intros o. rewrite app_nil_r. destruct Hl as [_ Hl]. by rewrite Hl, El.
  - intros o. rewrite <- HN. by apply (peers_diverge L A c old C D N Hp).
  - apply divergent_sorted.
  - apply divergent_pos.
  - by apply accurate_pre.
  - intros o _ e (He & _)%elem_entries_of. by apply Hu.
  - rewrite Ebf1, Em. cbn [bind default from_option id]. eexists _, _, _. split; [done|]. rewrite app_nil_r in Ha. split; [|by split].
    split; cbn [set_missing set_log p_log p_missing]; try done. by rewrite Et.
Qed.

(** The other log is longer: ours is cut, the new entries are appended and the divergent ones are merged. *)
Lemma extend_search : let newer := λ e, ev_lt (head L) (e_version e) in
  take_while newer (reverse (shared_part L A C ++ N)) = reverse N ∧ drop_while newer (reverse (shared_part L A C ++ N)) = reverse (shared_part L A C).
Proof.
  intros newer. rewrite reverse_app. pose proof (pe_heads _ _ _ _ _ _ _ Hp) as (Hh & _). apply take_drop_while; intros e He; rewrite elem_of_reverse in He; unfold newer.
  - by apply (pe_N _ _ _ _ _ _ _ Hp) in He as [He _].
  - apply shared_part_in, (pe_C _ _ _ _ _ _ _ Hp) in He as [_ He]. ev_lia.
Qed.

Lemma head_bound e : e ∈ (old ++ C) ++ D → ev_le (e_version e) (head L) = true.
Proof.
  pose proof (pe_heads _ _ _ _ _ _ _ Hp) as (Hh & _). intros [He%(shared_below L A c old C D N Hp)|He%(pe_D _ _ _ _ _ _ _ Hp)]%elem_of_app; [ev_lia|apply He].
Qed.

Lemma extend_head_ok (p : PGLog_t) (info oinfo : pg_info_t HitSet Stats) h : histories b (tail L) old C D N h → bf = last_backfill info →
  holds_history bf b ((old ++ C) ++ D) (head L) both_tail p h →
  ∃ p' info' h', extend_head p info oinfo A (shared_part L A C ++ N) (tail L) h = Ok (p', info', h') ∧
    holds_history bf b ((old ++ C) ++ N) (head A) both_tail p' h' ∧ last_update info' = head A ∧ last_backfill info' = bf.
Proof.
  intros [Hb Ho Ht Hcl Hn Hbl Hu] Ebf [Elog Ehd Etl Hix Hacc]. destruct (cut_versions L A c old C D N Hp) as [HL HA].
  pose proof (pe_tails _ _ _ _ _ _ _ Hp) as (_ & _ & Htl & _). pose proof (pe_heads _ _ _ _ _ _ _ Hp) as (Hh & _).
  pose proof (cut_above L A C) as [_ Hcl1]. pose proof (cut_below L A c old C D N Hp) as Hcb.
  unfold extend_head. rewrite Ehd. destruct extend_search as [-> ->]. rewrite reverse_involutive. fold (cut_point L A C). cbn [mark_dirty_from p_log p_missing].
  destruct (rewind_ok (p_log p) (cut_point L A C) (old ++ C) D) as (l1 & -> & Hl1 & El1 & Eh1 & Et1).
  { done. } { rewrite Etl. by apply both_tail_below. } { apply (kept_numbers L A c old C D N Hp _ HL HA (cut_shared L A c old C D N Hp)). } { by apply (divergent_numbers L A c old C D N Hp _ HL). }
  cbn [bind]. pose proof (advance_fields h_rollforward l1 (head (base l1)) h) as (_ & _ & El2 & Eh2 & Et2). pose proof (advance_ilog h_rollforward l1 (head (base l1)) h Hl1) as Hl2.
  pose proof (forward_ok l1 (head (base l1)) h) as [Hv2 Hu2]. destruct (advance_can_rollback_to h_rollforward l1 _ h) as [l2 h2]. cbn [fst snd] in *.
  rewrite El1 in El2. rewrite Eh1 in Eh2. rewrite Et1, Etl in Et2.
  destruct (new_addable L A c old C D N Hp (cut_point L A C) HA) as [Hadd Hsort]; [ev_lia|]. unfold append_log_entries_update_missing.
  replace (match N with e :: _ => assert _ | [] => _ end) with (Ok tt : res unit) by (destruct N as [|e N']; [done|]; rewrite Eh2; destruct Hadd as [-> _]; done). cbn [bind].
  destruct (append_ok bf b (old ++ C) D N [] l2 (p_missing p) h2 false (head L)) as (l3 & m3 & h3 & inv & E3 & Hl3 & El3 & Et3 & Ec3 & Hd3 & Hpre3 & Hu3); try done.
  { by rewrite Eh2. }
  { intros o. pose proof (accurate_pre _ _ _ _ _ _ Hacc o) as Hpre. unfold pre_at in *. by rewrite Hv2. }
  { apply (accurate_needs _ _ _ _ _ _ Hacc); [intros o; specialize (Hb o); ev_lia|apply head_bound]. }
  { intros e He. by apply (pe_N _ _ _ _ _ _ _ Hp) in He as [He _]. }
  rewrite <- Ebf, E3. cbn [bind default from_option id].
  destruct (merge_divergent_ok l3 bf (can_rollback_to (base l3)) b (old ++ C) D N) with (m := m3) (h := h3) as (m4 & h4 & E4 & Hd4 & Ha4); try done.
  - intros o. destruct Hl3 as [_ Hl3]. by rewrite Hl3, El3, El2.
  - intros o. by apply (peers_diverge L A c old C D N Hp).
  - apply divergent_sorted.
  - apply divergent_pos.
  - intros o HN e He Hc. apply elem_entries_of in He as (He & Eo & _). destruct (Hu e He Hc) as [Hue Hld]. split; [|done]. apply Hu3; [by rewrite Eo|]. apply Hu2; [|done].
    rewrite El1. intros Hs%(shared_below L A c old C D N Hp). apply (pe_D _ _ _ _ _ _ _ Hp) in He as [He _]. ev_lia.
  - rewrite E4. cbn [bind default from_option id]. eexists _, _, _. split; [done|]. split; [|done]. unfold skip_can_rollback_to_to_head.
    set (l5 := set_base l3 _). pose proof (advance_fields (λ _ (u : unit), u) l5 (head (base l5)) tt) as (_ & _ & El5 & Eh5 & Et5).
    split; cbn [set_missing set_log p_log p_missing mark_dirty_from]; [rewrite El5|rewrite Eh5|rewrite Et5|apply advance_ilog; exact Hl3|done];
      unfold l5; simpl; congruence.
Qed.
End Run.

(** Filling in history at the tail. *)
Lemma extend_tail_ok A c old C D N b bf (p : PGLog_t) (info : pg_info_t HitSet Stats) h :
  let L := base (p_log p) in
  peers L A c old C D N → ilog_ok (p_log p) → accurate bf (wanted b old) (log L) (p_missing p) h →
  let '(p1, info1, oes) := if ev_lt (tail A) (tail L) then extend_tail p info A else (p, info, log A) in
  holds_history bf b ((old ++ C) ++ D) (head L) (both_tail L A) p1 h ∧ oes = shared_part L A C ++ N ∧
  last_backfill info1 = last_backfill info ∧ last_update info1 = last_update info.
Proof.
  intros L Hp Hix Hacc. apply accurate_extend in Hacc. pose proof (pe_L _ _ _ _ _ _ _ Hp) as EL. rewrite EL, app_assoc in Hacc. unfold both_tail, shared_part.
  pose proof (pe_old _ _ _ _ _ _ _ Hp) as Ho. pose proof (pe_A _ _ _ _ _ _ _ Hp) as EA. pose proof (pe_sA _ _ _ _ _ _ _ Hp) as Hs.
  destruct (ev_lt (tail A) (tail L)) eqn:Et.
  - unfold extend_tail. fold L. destruct (old_first L A c old C D N Hp Et) as [-> ->]. split; [|done].
    destruct (index_older old (p_log p) []) as (E1 & E2 & E3); [apply Hix| | | |].
    { rewrite EA, <- app_assoc in Hs. by apply sorted_app in Hs as [? _]. }
    { intros e e' He%(old_below L A c old C D N Hp) He'. fold L in He'. rewrite EL in He'. pose proof (pe_tails _ _ _ _ _ _ _ Hp) as (_ & _ & Htl & _).
      apply elem_of_app in He' as [He'%(pe_C _ _ _ _ _ _ _ Hp)|He'%(pe_D _ _ _ _ _ _ _ Hp)]; destruct He'; ev_lia. }
    { apply Hix. }
    split; cbn; try done. by rewrite EL, app_assoc.
  - subst old. split; [|done]. by split.
Qed.

Lemma no_new L A c old C D N : peers L A c old C D N → ev_le (head A) (head L) = true → head A = c ∧ N = [].
Proof.
  intros Hp Hle. destruct (pe_later _ _ _ _ _ _ _ Hp) as [E|E]; [|ev_lia]. split; [done|]. destruct N as [|e N]; [done|].
  destruct (pe_N _ _ _ _ _ _ _ Hp e ltac:(left)). ev_lia.
Qed.

Lemma merge_heads_ok L A c old C D N : peers L A c old C D N → ∀ b bf (p1 : PGLog_t) (oinfo1 info2 : pg_info_t HitSet Stats) h,
  histories b (tail L) old C D N h → last_backfill info2 = bf → last_update info2 = head L → holds_history bf b ((old ++ C) ++ D) (head L) (both_tail L A) p1 h →
  ∃ p' info' h' ch, merge_heads p1 oinfo1 info2 A (shared_part L A C ++ N) (tail L) h = Ok (p', info', h', ch) ∧
    holds_history bf b ((old ++ C) ++ N) (head A) (both_tail L A) p' h' ∧ last_update info' = head A.
Proof.
  intros Hp b bf p1 oinfo1 info2 h Hh Ebf2 Elu2 Hh1. pose proof (pe_heads _ _ _ _ _ _ _ Hp) as (HhL & HhA). unfold merge_heads. rewrite (hh_head _ _ _ _ _ _ _ Hh1).
  destruct (ev_lt (head A) (head L)) eqn:Es.
  - destruct (no_new L A c old C D N Hp) as [Ec EN]; [ev_lia|]. rewrite Ec in Es |- *.
    destruct (rewind_divergent_ok L A c old C D N Hp b bf p1 info2 h Hh EN (eq_sym Ebf2) Hh1) as (p2 & info3 & h2 & -> & Hh2 & Elu3 & _). cbn [bind].
    rewrite (hh_head _ _ _ _ _ _ _ Hh2). rewrite (proj2 (ev_lt_nle c c)) by ev_lia. cbn [bind].
    exists p2, info3, h2, true. split; [done|]. by rewrite EN, app_nil_r.
  - cbn [bind]. rewrite (hh_head _ _ _ _ _ _ _ Hh1). destruct (ev_lt (head L) (head A)) eqn:El.
    + destruct (extend_head_ok L A c old C D N Hp b bf p1 info2 oinfo1 h Hh (eq_sym Ebf2) Hh1) as (p2 & info3 & h2 & -> & Hh2 & Elu3 & _). cbn [bind]. by exists p2, info3, h2, true.
    + destruct (no_new L A c old C D N Hp) as [Ec ->]; [ev_lia|]. assert (head A = head L) as EAL by (apply ev_le_antisym; ev_lia).
      assert (D = []) as ->. { destruct D as [|e D]; [done|]. destruct (pe_D _ _ _ _ _ _ _ Hp e ltac:(left)). rewrite <- Ec, EAL in *. ev_lia. }
      cbn [bind]. exists p1, info2, h, false. split; [done|]. rewrite EAL. by split.
Qed.

(** [C5] Merging the authoritative log into ours: under the conditions on the histories no assertion fails, our log then holds the history
    of the authoritative one with its head and the older tail of the two, and for every object up to [last_backfill] the missing set and the
    store are in accordance with that history: what is not missing has its version, what is missing is needed in its version. *)
Theorem merge_log_correct (p : PGLog_t) (oinfo info : pg_info_t HitSet Stats) (A : pg_log_t) (h : S) c old C D N b :
  let L := base (p_log p) in
  peers L A c old C D N → histories b (tail L) old C D N h → ilog_ok (p_log p) → last_update info = head L →
  accurate (last_backfill info) (wanted b old) (log L) (p_missing p) h →
  ∃ p' oinfo' info' h' changed, merge_log p oinfo info A h = Ok (p', oinfo', info', h', changed) ∧
    holds_history (last_backfill info) b ((old ++ C) ++ N) (head A) (both_tail L A) p' h' ∧ last_update info' = head A.
Proof.
  intros L Hp Hh Hix Hlu Hacc. set (bf := last_backfill info) in *. unfold merge_log. fold L.
  pose proof (pe_tails _ _ _ _ _ _ _ Hp) as (H0 & H0' & Htl & Hta). pose proof (pe_heads _ _ _ _ _ _ _ Hp) as (HhL & HhA).
  assert (negb (log_null L) || ev_eqb (tail A) ev0 = true) as ->.
  { unfold log_null. destruct (Z.eqb_spec (version (head L)) 0), (Z.eqb_spec (epoch (head L)) 0); try done. simpl. apply ev_eqb_eq, ev_le_antisym; [|done].
    destruct (head L) as [eh vh]. simpl in *. subst. ev_lia. }
  assert (ev_le (tail A) (head L) && ev_le (tail L) (head A) = true) as -> by (apply andb_true_iff; split; ev_lia). cbn [assert bind].
  pose proof (extend_tail_ok A c old C D N b bf p info h Hp Hix Hacc) as Ht. fold L in Ht.
  destruct (if ev_lt (tail A) (tail L) then extend_tail p info A else (p, info, log A)) as [[p1 info1] oes]. destruct Ht as (Hh1 & -> & Ebf1 & Elu1).
  set (oinfo1 := if _ || _ then _ else oinfo). set (info2 := set_hit_set _ _).
  assert (last_backfill info2 = bf ∧ last_update info2 = head L) as [Ebf2 Elu2] by (unfold info2; destruct (h_max _); simpl; by rewrite Ebf1, Elu1).
  destruct (merge_heads_ok L A c old C D N Hp b bf p1 oinfo1 info2 h Hh Ebf2 Elu2 Hh1) as (p' & info' & h' & ch & -> & [E1 E2 E3 E4 E5] & Hlu'). cbn [bind].
  unfold merge_log_dups. destruct (extend_dups _ _) as [ds chd]. eexists _, _, _, _, _. split; [done|]. by split.
Qed.
End Merge.

(** *** A store and a merge *)

(** The versions of the objects, and the entries whose undo information is kept. *)
Record store : Type := mk_store { versions : gmap hobject_t eversion_t; kept : list pg_log_entry_t }.
Definition without (e : pg_log_entry_t) (es : list pg_log_entry_t) : list pg_log_entry_t := List.filter (λ e', negb (bool_decide (e' = e))) es.
#[export] Instance store_handler : LogEntryHandler store := {|
  h_rollback e h :=
    if bool_decide (e ∈ kept h) then mk_store (<[soid e := prior_version e]> (versions h)) (without e (kept h)) else h;
  h_rollforward e h := mk_store (versions h) (without e (kept h));
  h_trim e h := mk_store (versions h) (without e (kept h));
  h_remove o h := mk_store (delete o (versions h)) (kept h);
  h_try_stash o v h := mk_store (delete o (versions h)) (kept h)
|}.

Lemma elem_without e e' es : e ∈ es → e ≠ e' → e ∈ without e' es.
Proof. intros He Hne. apply list_elem_of_In, List.filter_In. split; [by apply list_elem_of_In|]. by rewrite bool_decide_false. Qed.

#[export] Program Instance store_laws : HandlerLaws store := {|
  ver h o := default ev0 (versions h !! o);
  undo h e := e ∈ kept h
|}.
Next Obligation. intros o h o'. cbn. case_decide as D; [subst o'; by rewrite lookup_delete_eq|by rewrite lookup_delete_ne]. Qed.
Next Obligation. done. Qed.
Next Obligation. done. Qed.
Next Obligation.
  intros e h o He _ _ _. cbn. rewrite bool_decide_true by done. cbn. case_decide as D; [subst o; by rewrite lookup_insert_eq|by rewrite lookup_insert_ne].
Qed.
Next Obligation. done. Qed.
Next Obligation. intros. by apply elem_without. Qed.
Next Obligation. intros. by apply elem_without. Qed.
Next Obligation. intros e' h e He Hne. cbn. case_bool_decide; [|done]. by apply elem_without. Qed.

Module Run.
Definition obj (n : Z) : hobject_t := mk_hobj false 1 n [] [] [n] 0.
Definition entry (o : hobject_t) (v prior : eversion_t) : pg_log_entry_t := mk_entry MODIFY o (mk_reqid 0 0 0 0) [] v prior ev0 0 0 true.
Definition shared : pg_log_entry_t := entry (obj 1) (mk_ev 1 1) ev0.
Definition divergent : pg_log_entry_t := entry (obj 1) (mk_ev 1 2) (mk_ev 1 1).
Definition new : pg_log_entry_t := entry (obj 2) (mk_ev 2 2) ev0.
Definition bf : hobject_t := mk_hobj true 0 0 [] [] [] 0.
Definition info : pg_info_t unit unit := mk_info (mk_ev 1 2) (mk_ev 1 2) 0 ev0 bf (IntervalSet.mk 0 []) (mk_stats 0 0 tt) tt.
Definition group : PGLog_t := mk_pglog (mk_missing ∅ [] ∅ false) (indexed_log (mk_log (mk_ev 1 2) ev0 ev0 ev0 [shared; divergent] [])) ev0 ev_max ev_max ∅ [] false.
Definition authority : pg_log_t := mk_log (mk_ev 2 2) ev0 (mk_ev 2 2) ev0 [shared; new] [].
Definition disk : store := mk_store {[obj 1 := mk_ev 1 2]} [divergent].

Lemma ours_theirs : peers (base (p_log group)) authority (mk_ev 1 1) [] [shared] [divergent] [new].
Proof.
  assert (∀ vs, numbered vs ↔ Forall (λ v, Forall (λ w, ev_lt v w = true → version v < version w) vs) vs) as En.
  { intros vs. unfold numbered. rewrite Forall_forall. split; intros H v; [|intros w Hv; specialize (H v Hv); rewrite Forall_forall in H; by apply H]. intros Hv. rewrite Forall_forall. intros w. by apply H. }
  split; try done; try (by repeat constructor); try (intros e ->%list_elem_of_singleton; by split).
  - apply En. repeat constructor; vm_compute; congruence.
  - apply En. repeat constructor; vm_compute; congruence.
Qed.
Lemma both_histories : histories (λ _, ev0) ev0 [] [shared] [divergent] [new] disk.
Proof.
  assert (∀ (P : list pg_log_entry_t → pg_log_entry_t → Prop) x y, P [] x → P [x] y → ∀ pre e post, [x; y] = pre ++ e :: post → P pre e) as Hsplit.
  { intros P x y Hx Hy [|a [|a' pre]] e post E; simplify_eq/=; try done. by destruct pre. }
  split; try (by repeat constructor).
  - intros pre e post E. by refine (Hsplit (λ pre e, is_error e = false → entry_ok (wanted (λ _, ev0) pre (soid e)) e) shared divergent _ _ pre e post E).
  - intros pre e post E. by refine (Hsplit (λ pre e, is_error e = false → entry_ok (wanted (λ _, ev0) pre (soid e)) e) shared new _ _ pre e post E).
  - intros pre e post E. by refine (Hsplit (λ pre e, is_clone e = true → entries_of (soid e) pre = []) shared divergent _ _ pre e post E).
  - intros e ->%list_elem_of_singleton _. split; [left|done].
Qed.
Lemma disk_accurate : accurate bf (wanted (λ _, ev0) []) [shared; divergent] (mk_missing ∅ [] ∅ false) disk.
Proof.
  intros o _. cbn [missing]. rewrite lookup_empty. cbn [item_ok]. destruct (decide (obj 1 = o)) as [<-|Hne]; [done|].
  unfold entries_of, ver, store_laws, disk. cbn [List.filter shared divergent entry soid versions]. rewrite !bool_decide_false by done. by rewrite lookup_singleton_ne.
Qed.
End Run.

(** Our divergent modification of the first object is undone, and the new object of the other log is missing. *)
Lemma merge_log_correct_witness :
  ∃ p' oinfo' info' h' changed, merge_log Run.group Run.info Run.info Run.authority Run.disk = Ok (p', oinfo', info', h', changed) ∧
    holds_history Run.bf (λ _, ev0) [Run.shared; Run.new] (mk_ev 2 2) ev0 p' h' ∧ last_update info' = mk_ev 2 2.
Proof.
  apply (merge_log_correct Run.group Run.info Run.info Run.authority Run.disk (mk_ev 1 1) [] [Run.shared] [Run.divergent] [Run.new] (λ _, ev0)).
  - exact Run.ours_theirs.
  - exact Run.both_histories.
  - split; [reflexivity|]. apply index_of_spec.
  - reflexivity.
  - exact Run.disk_accurate.
Defined.
End PGLogPeering.
