(* ===== verification/PGLogRecovery.v ===== *)
(** * The index of the missing set and recovery (osd/PGLog.h, osd/osd_types.h)

    The missing set has a second map, from the number of the version that is needed to the object, which gives the oldest
    version that is missing.  It stays the inverse of the set as long as no two objects need versions with the same number;
    recovery relies on it to raise [last_complete]. *)
From stdpp Require Import gmap.
From S2P Require Import Prelude StdMap IntervalSet PgPool PGLog PGLogMerge PGLogPeering.

Module PGLogRecovery.
Import PgPool PGLog PGLogMerge PGLogPeering.

(** [rmissing] is the inverse of [missing]. *)
Record rmissing_ok (m : pg_missing_set) : Prop := {
  rm_sorted : keys_sorted (rmissing m);
  rm_inverse : ∀ n o, map_find n (rmissing m) = Some o ↔ ∃ it, missing m !! o = Some it ∧ version (need it) = n
}.

Section Known.
(** The versions that objects have had; a number belongs to one object. *)
Context (known : hobject_t → eversion_t → Prop).
Hypothesis known_inj : ∀ o o' v v', known o v → known o' v' → version v = version v' → o = o'.

Record indexed (m : pg_missing_set) : Prop := {
  ix_inverse : rmissing_ok m;
  ix_known : ∀ o it, missing m !! o = Some it → known o (need it)
}.

Lemma indexed_set m o it ch : indexed m → known o (need it) →
  indexed (mk_missing (<[o := it]> (missing m))
    (map_set (version (need it)) o (match missing m !! o with Some i => map_erase (version (need i)) (rmissing m) | None => rmissing m end))
    ch (may_include_deletes m)).
Proof.
  intros [[Hs Hinv] Hk] Ho. set (R := match missing m !! o with Some i => _ | None => _ end).
  assert (keys_sorted R ∧ ∀ k, map_find k R = match map_find k (rmissing m) with Some o' => if decide (o' = o) then None else Some o' | None => None end) as [HsR HR].
  { unfold R. destruct (missing m !! o) as [i|] eqn:Ei.
    - split; [by apply map_erase_sorted|]. intros k. rewrite map_find_erase by done. destruct (Z.eqb_spec k (version (need i))) as [->|Hne].
      + rewrite (proj2 (Hinv _ o)) by (by exists i). by rewrite decide_True.
      + destruct (map_find k (rmissing m)) as [o'|] eqn:E; [|done]. case_decide as D; [|done]. subst o'. apply Hinv in E as (i' & Ei' & <-). congruence.
    - split; [done|]. intros k. destruct (map_find k (rmissing m)) as [o'|] eqn:E; [|done]. case_decide as D; [|done]. subst o'. apply Hinv in E as (i' & Ei' & _). congruence. }
  split; [split|].
  - by apply map_set_sorted.
  - intros k o'. cbn [missing rmissing]. rewrite map_find_set, HR. destruct (decide (o' = o)) as [->|Hne].
    + rewrite lookup_insert_eq. destruct (Z.eqb_spec k (version (need it))) as [->|Hk']; [split; [by exists it|done]|]. split.
      * destruct (map_find k (rmissing m)); [|done]. case_decide; [done|]. congruence.
      * intros (i & [= <-] & E). congruence.
    + rewrite lookup_insert_ne by done. destruct (Z.eqb_spec k (version (need it))) as [->|Hk'].
      * split; [congruence|]. intros (i & Ei & E). destruct Hne. by apply (known_inj o' o (need i) (need it)); [apply Hk| |].
      * rewrite <- Hinv. destruct (map_find k (rmissing m)) as [o2|]; [|done]. case_decide; split; congruence.
  - intros o' i. cbn [missing]. destruct (decide (o' = o)) as [->|Hne]; [by rewrite lookup_insert_eq; intros [= <-]|]. rewrite lookup_insert_ne by done. apply Hk.
Qed.

Lemma indexed_rm m o it : indexed m → missing m !! o = Some it → indexed (rm_it m o it).
Proof.
  intros [[Hs Hinv] Hk] Ei. split; [split|]; cbn [rm_it missing rmissing].
  - by apply map_erase_sorted.
  - intros k o'. rewrite map_find_erase by done. destruct (Z.eqb_spec k (version (need it))) as [->|Hne].
    + split; [done|]. intros (i & [Hne Ei']%lookup_delete_Some & E). destruct Hne. symmetry. by apply (known_inj o' o (need i) (need it)); [apply Hk|apply Hk|].
    + rewrite Hinv. split; intros (i & Hi & E).
      * exists i. split; [|done]. rewrite lookup_delete_ne; [done|]. intros <-. congruence.
      * apply lookup_delete_Some in Hi as [_ Hi]. by exists i.
  - intros o' i [_ Hi]%lookup_delete_Some. by apply Hk.
Qed.

Lemma indexed_have m o v : indexed m → indexed (revise_have m o v).
Proof.
  intros Hm. unfold revise_have. destruct (missing m !! o) as [i|] eqn:Ei; [|done]. destruct Hm as [[Hs Hinv] Hk].
  assert (∀ o', (∃ j, <[o := mk_item (need i) v (item_delete i)]> (missing m) !! o' = Some j) → ∃ j j', <[o := mk_item (need i) v (item_delete i)]> (missing m) !! o' = Some j ∧ missing m !! o' = Some j' ∧ need j = need j') as Hn.
  { intros o' [j Hj]. destruct (decide (o' = o)) as [->|Hne]; [rewrite lookup_insert_eq; by exists (mk_item (need i) v (item_delete i)), i|]. rewrite lookup_insert_ne in * by done. by exists j, j. }
  split; [split|]; cbn [missing rmissing]; [done| |].
  - intros n o'. rewrite Hinv. split; intros (j & Hj & E).
    + destruct (decide (o' = o)) as [->|Hne]; [exists (mk_item (need i) v (item_delete i)); rewrite lookup_insert_eq; split; [done|]; simpl; congruence|]. exists j. by rewrite lookup_insert_ne.
    + destruct (Hn o' (ex_intro _ j Hj)) as (j1 & j2 & E1 & E2 & E3). exists j2. split; [done|]. congruence.
  - intros o' j Hj. destruct (Hn o' (ex_intro _ j Hj)) as (j1 & j2 & E1 & E2 & E3). replace (need j) with (need j2) by congruence. by apply Hk.
Qed.

Lemma indexed_need m o v d : indexed m → known o v → indexed (revise_need m o v d).
Proof.
  intros Hm Ho. unfold revise_need. pose proof (λ it ch, indexed_set m o it ch Hm) as H. destruct (missing m !! o) as [i|]; [apply (H (mk_item v (have i) d))|apply (H (mk_item v ev0 d))]; done.
Qed.
Lemma indexed_add m o v h d : indexed m → missing m !! o = None → known o v → indexed (missing_add m o v h d).
Proof. intros Hm Hn Ho. pose proof (indexed_set m o (mk_item v h d) ({[o]} ∪ changed m) Hm Ho) as H. by rewrite Hn in H. Qed.
Lemma indexed_event m e m' : indexed m → known (soid e) (e_version e) → add_next_event m e = Ok m' → indexed m'.
Proof.
  intros Hm Hk. unfold add_next_event. intros (it & E & E2)%bind_inv. injection E2 as <-.
  assert (need it = e_version e) as En by (destruct (_ || _); [by injection E as <-|]; destruct (missing m !! soid e); [by injection E as <-|]; destruct (is_backlog e); [done|by injection E as <-]).
  rewrite <- En in *. by apply indexed_set.
Qed.

(** *** Merging keeps the index *)

(** The version an entry makes and the version it replaces. *)
Definition makes (e : pg_log_entry_t) : Prop := is_error e = false → known (soid e) (e_version e).
Definition replaces (e : pg_log_entry_t) : Prop :=
  is_error e = false → is_clone e = false → prior_version e ≠ ev0 → known (soid e) (prior_version e).

Section Handled.
Context {S HitSet Stats : Type} `{!LogEntryHandler S}.

Lemma indexed_update bf mr e m (rb : option S) m' rb' : indexed m → makes e → update_missing bf mr e m rb = Ok (m', rb') → indexed m'.
Proof.
  intros Hm He. unfold update_missing. destruct (hobj_le _ _); simpl; [|by intros [= <- _]]. destruct (is_error e) eqn:Ee; simpl; [by intros [= <- _]|].
  specialize (He Ee). destruct (may_include_deletes m).
  - intros (m1 & E & [= <- _])%bind_inv. by eapply indexed_event.
  - intros (m1 & E & [= <- _])%bind_inv. destruct (is_delete e); [|by eapply indexed_event]. injection E as <-. unfold rm.
    destruct (missing m !! soid e) eqn:Ei; [|done]. destruct (ev_le _ _); [by apply indexed_rm|done].
Qed.

Lemma indexed_append bf mr es : ∀ l m (rb : option S) inv l' m' rb' inv', indexed m → Forall makes es →
  append_loop bf mr es l m rb inv = Ok (l', m', rb', inv') → indexed m'.
Proof.
  induction es as [|e es IH]; intros l m rb inv l' m' rb' inv' Hm Hes; cbn [append_loop]; [by intros [= _ <- _ _]|].
  apply Forall_cons in Hes as [He Hes]. intros (l1 & _ & H)%bind_inv. apply bind_inv in H as ([m1 rb1] & E & H).
  eapply IH; [|done|exact H]. by eapply indexed_update.
Qed.

Lemma strip_sub o g : ∀ first seen last es, strip_errors o first seen last g = Ok es → ∀ e, e ∈ es → e ∈ g ∧ soid e = o ∧ is_error e = false.
Proof.
  induction g as [|i g IH]; intros first seen last es; cbn [strip_errors]; [intros [= <-] e []%not_elem_of_nil|].
  intros ([] & Hi%assert_ok & H)%bind_inv. apply bool_decide_eq_true in Hi. apply bind_inv in H as (u' & _ & H). destruct (is_error i) eqn:Ei.
  - intros e He. destruct (IH _ _ _ _ H e He) as (? & ? & ?). split; [by right|done].
  - apply bind_inv in H as (kept & E & [= <-]). intros e [->|He]%elem_of_cons; [split; [left|done]|]. destruct (IH _ _ _ _ E e He) as (? & ? & ?). split; [by right|done].
Qed.

Lemma indexed_merge_object l o g bf crt m (rb : option S) m' rb' : indexed m → Forall replaces g →
  _merge_object_divergent_entries l o g bf crt m rb = Ok (m', rb') → indexed m'.
Proof.
  intros Hm Hg. unfold _merge_object_divergent_entries. destruct (hobj_gt o bf); [by intros [= <- _]|]. intros (u & _ & H)%bind_inv. apply bind_inv in H as (es & Es & H).
  destruct es as [|front es]; [by injection H as <- _|]. destruct (last (front :: es)) as [back|]; [|by injection H as <- _].
  destruct (strip_sub _ _ _ _ _ _ Es front ltac:(left)) as (Hf & <- & Ef). rewrite Forall_forall in Hg. specialize (Hg front Hf Ef).
  destruct (newer_entry _ _ _) as [n|]; [apply bind_inv in H as (? & _ & H); apply bind_inv in H as (? & _ & H); injection H as <- _; by apply indexed_have|].
  destruct (ev_eqb (prior_version front) ev0 || is_clone front) eqn:Ep;
    [injection H as <- _; destruct (missing m !! soid front) eqn:Ei; [by apply indexed_rm|done]|].
  apply orb_false_iff in Ep as [Ep%bool_decide_eq_false Ecl]. specialize (Hg Ecl Ep).
  destruct (missing m !! soid front) as [it|] eqn:Ei.
  - injection H as <- _. destruct (ev_eqb _ _); [by apply indexed_rm|by apply indexed_need].
  - destruct (forallb _ _); injection H as <- _; [done|by apply indexed_add].
Qed.

Lemma split_add_from e m : Forall (λ og, Forall replaces og.2) m → replaces e → Forall (λ og, Forall replaces og.2) (split_add e m).
Proof.
  intros Hm He. induction Hm as [|[o g] m Hg Hm IH]; cbn [split_add]; [by apply Forall_singleton, Forall_singleton|].
  simpl in Hg. destruct (hobj_cmp (soid e) o); repeat apply Forall_cons_2; simpl; auto. apply Forall_app. by rewrite Forall_singleton.
Qed.
Lemma split_from es : Forall replaces es → Forall (λ og, Forall replaces og.2) (split_by_object es).
Proof.
  unfold split_by_object. induction es as [|e es IH] using rev_ind; [constructor|]. intros [H [He _]%Forall_cons]%Forall_app. rewrite foldl_snoc. by apply split_add_from; [apply IH|].
Qed.

Lemma indexed_merge_split l bf crt gs : ∀ m (rb : option S) m' rb', indexed m → Forall (λ og, Forall replaces og.2) gs →
  merge_split l gs bf crt m rb = Ok (m', rb') → indexed m'.
Proof.
  induction gs as [|[o g] gs IH]; intros m rb m' rb' Hm Hgs; cbn [merge_split]; [by intros [= <- _]|]. apply Forall_cons in Hgs as [Hg Hgs].
  intros ([m1 rb1] & E & H)%bind_inv. eapply IH; [|done|exact H]. by eapply indexed_merge_object.
Qed.
Lemma indexed_merge_divergent l es bf crt m (rb : option S) m' rb' : indexed m → Forall replaces es →
  _merge_divergent_entries l es bf crt m rb = Ok (m', rb') → indexed m'.
Proof. intros Hm Hes H. eapply indexed_merge_split; [exact Hm|by apply split_from|exact H]. Qed.

Lemma rewind_loop_from nh rl : ∀ acc k d, Forall replaces rl → Forall replaces acc → rewind_loop nh rl acc = Ok (k, d) → Forall replaces k ∧ Forall replaces d.
Proof.
  induction rl as [|e rl IH]; intros acc k d Hrl Hacc; cbn [rewind_loop]; [by intros [= <- <-]|]. destruct (_ <=? _); [intros [= <- <-]; split; [by apply Forall_reverse|done]|].
  intros (u & _ & H)%bind_inv. apply Forall_cons in Hrl as [He Hrl]. eapply IH; [exact Hrl| |exact H]. by constructor.
Qed.
Lemma rewind_from l nh d l' : Forall replaces (log (base l)) → rewind_from_head l nh = Ok (d, l') → Forall replaces d ∧ Forall replaces (log (base l')).
Proof.
  intros Hl. unfold rewind_from_head, log_rewind_from_head. intros ([d' b] & H & E)%bind_inv. apply bind_inv in H as (u & _ & H). apply bind_inv in H as ([k d2] & H & E2).
  injection E2 as <- <-. injection E as <- <-. apply rewind_loop_from in H as [Hk Hd]; [by split|by apply Forall_reverse|constructor].
Qed.

(** What the steps of the merge keep. *)
Definition told (p : PGLog_t) : Prop := indexed (p_missing p) ∧ Forall replaces (log (base (p_log p))).

Lemma told_rewind p (info : pg_info_t HitSet Stats) nh h p' info' (h' : S) : told p → rewind_divergent_log p info nh h = Ok (p', info', h') → told p'.
Proof.
  intros [Hm Hl]. unfold rewind_divergent_log. intros ([d l] & E & H)%bind_inv. apply rewind_from in E as [Hd Hl']; [|done].
  apply bind_inv in H as ([m rb] & E & H). injection H as <- _ _. split; [|done]. eapply indexed_merge_divergent; [|exact Hd|exact E]. by destruct d.
Qed.
Lemma take_while_from (P : pg_log_entry_t → Prop) (f : pg_log_entry_t → bool) es : Forall P es → Forall P (take_while f es).
Proof. induction 1; simpl; [constructor|]. destruct (f _); by constructor. Qed.
Lemma drop_while_from (P : pg_log_entry_t → Prop) (f : pg_log_entry_t → bool) es : Forall P es → Forall P (drop_while f es).
Proof. induction 1; simpl; [constructor|]. destruct (f _); [done|by constructor]. Qed.

Lemma told_head p (info oinfo : pg_info_t HitSet Stats) A oes ot h p' info' (h' : S) : told p → Forall makes oes →
  extend_head p info oinfo A oes ot h = Ok (p', info', h') → indexed (p_missing p').
Proof.
  intros [Hm Hl] Ho. unfold extend_head. intros ([d l] & E & H)%bind_inv. apply rewind_from in E as [Hd _]; [|done].
  destruct (advance_can_rollback_to _ _ _ _) as [l1 h1]. apply bind_inv in H as ([[[l2 m1] rb1] inv] & E & H). apply bind_inv in H as ([m2 rb2] & E2 & H).
  injection H as <- _ _. eapply indexed_merge_divergent; [|exact Hd|exact E2]. unfold append_log_entries_update_missing in E. apply bind_inv in E as (u & _ & E).
  eapply indexed_append; [| |exact E]; [done|]. by apply Forall_reverse, take_while_from, Forall_reverse.
Qed.

(** [C21] The index of the missing set: merging a log keeps [rmissing] the inverse of [missing] when the versions that are needed before,
    those the other log makes and those that entries of either log replace have numbers that tell their objects apart. *)
Theorem merge_log_index (p : PGLog_t) (oinfo info : pg_info_t HitSet Stats) A (h : S) p' oinfo' info' h' changed :
  indexed (p_missing p) → Forall replaces (log (base (p_log p))) → Forall replaces (log A) → Forall makes (log A) →
  merge_log p oinfo info A h = Ok (p', oinfo', info', h', changed) → indexed (p_missing p').
Proof.
  intros Hm HL HA HM. unfold merge_log. intros (u1 & _ & H)%bind_inv. apply bind_inv in H as (u2 & _ & H).
  set (r := if ev_lt (tail A) (tail (base (p_log p))) then extend_tail p info A else (p, info, log A)) in H.
  assert (told r.1.1 ∧ Forall makes r.2) as [Hp Ho].
  { unfold r. destruct (ev_lt _ _); [|done]. split; [|by apply drop_while_from]. split; [done|]. simpl. apply Forall_app. split; [by apply take_while_from|done]. }
  destruct r as [[p1 info1] oes]. simpl in Hp, Ho. apply bind_inv in H as ([[[p2 info2] h2] ch] & E & H).
  destruct (merge_log_dups _ _) as [l dch]. injection H as <- _ _ _ _. simpl. unfold merge_heads in E.
  apply bind_inv in E as ([[p3 info3] h3] & E1 & E). apply bind_inv in E as ([[p4 info4] h4] & E2 & E). injection E as -> _ _ _.
  assert (told p3) as Hp3. { destruct (ev_lt (head A) _); [by eapply told_rewind|]. by injection E1 as <- _ _. }
  destruct (ev_lt _ (head A)); [by eapply told_head|]. injection E2 as <- _ _. by destruct Hp3.
Qed.
End Handled.
End Known.

(** ** Recovery *)

(** Every missing object needs a version beyond [v]. *)
Definition below_needs (v : eversion_t) (m : pg_missing_set) : Prop := ∀ o it, missing m !! o = Some it → ev_lt v (need it) = true.
Definition needs_numbered (m : pg_missing_set) : Prop := ∀ o it o' it',
  missing m !! o = Some it → missing m !! o' = Some it' → ev_lt (need it) (need it') = true → version (need it) < version (need it').

(** The entries before [complete_to] are complete, and nothing that is missing is needed at [last_complete] or before. *)
Record progress {HitSet Stats} (p : PGLog_t) (info : pg_info_t HitSet Stats) : Prop := {
  pr_index : rmissing_ok (p_missing p);
  pr_numbered : needs_numbered (p_missing p);
  pr_below : below_needs (last_complete info) (p_missing p);
  pr_pointer : ∃ k, complete_to (p_log p) = Some k ∧ (k <= length (log (base (p_log p))))%nat ∧
    Forall (λ e, ev_le (e_version e) (last_complete info) = true) (take (length (log (base (p_log p))) - k) (log (base (p_log p))))
}.

Lemma rmissing_rm m o it : rmissing_ok m → missing m !! o = Some it → rmissing_ok (rm_it m o it).
Proof.
  intros Hm Hi. destruct (indexed_rm (λ o v, ∃ it, missing m !! o = Some it ∧ need it = v)) with (m := m) (o := o) (it := it) as [H _]; [|split; [done|]; eauto|done|done].
  intros o1 o2 v1 v2 (i1 & E1 & <-) (i2 & E2 & <-) E. pose proof (proj2 (rm_inverse m Hm _ o1) (ex_intro _ i1 (conj E1 E))) as F1.
  pose proof (proj2 (rm_inverse m Hm _ o2) (ex_intro _ i2 (conj E2 eq_refl))) as F2. congruence.
Qed.
Lemma numbered_rm m o it : needs_numbered m → needs_numbered (rm_it m o it).
Proof. intros H o1 i1 o2 i2. cbn [rm_it missing]. intros [_ H1]%lookup_delete_Some [_ H2]%lookup_delete_Some. by eapply H. Qed.

(** The first key of the index is that of the oldest version that is needed. *)
Lemma first_missing_ok m : rmissing_ok m → needs_numbered m → missing m ≠ ∅ →
  ∃ o it, missing m !! o = Some it ∧ first_missing m = Ok (need it) ∧ ∀ o' it', missing m !! o' = Some it' → ev_le (need it) (need it') = true.
Proof.
  intros [Hs Hinv] Hn Hne. unfold first_missing. destruct (rmissing m) as [|[k o] r] eqn:Er.
  - destruct Hne. apply map_eq. intros o. rewrite lookup_empty. destruct (missing m !! o) as [it|] eqn:E; [|done].
    pose proof (proj2 (Hinv _ o) (ex_intro _ it (conj E eq_refl))). done.
  - destruct (proj1 (Hinv k o)) as (it & E & Ek); [simpl; by rewrite Z.eqb_refl|]. exists o, it. rewrite E. repeat split. intros o' it' E'.
    destruct (ev_le (need it) (need it')) eqn:El; [done|]. apply ev_le_nlt in El. specialize (Hn _ _ _ _ E' E El).
    pose proof (proj2 (Hinv _ o') (ex_intro _ it' (conj E' eq_refl))) as F. rewrite map_find_above in F; [done|]. apply StronglySorted_inv in Hs as [_ Hf].
    constructor; simpl; [lia|]. eapply Forall_impl; [exact Hf|]. intros [k' x]. simpl. lia.
Qed.

(** The entry that [complete_to] points to is the first of those that are left. *)
Lemma complete_entry_ok l k : (S k <= length (log (base l)))%nat →
  ∃ e, complete_entry l (S k) = Ok e ∧ drop (length (log (base l)) - S k) (log (base l)) = e :: drop (length (log (base l)) - k) (log (base l)) ∧
    take (length (log (base l)) - k) (log (base l)) = take (length (log (base l)) - S k) (log (base l)) ++ [e].
Proof.
  intros Hk. unfold complete_entry. cbn [Nat.eqb]. set (es := log (base l)) in *. destruct (lookup_lt_is_Some_2 es (length es - S k)) as [e E]; [lia|].
  exists e. rewrite E. replace (length es - k)%nat with (S (length es - S k)) by lia. split; [done|]. split; [by apply drop_S|by apply take_S_r].
Qed.

Section Search.
Context (m : pg_missing_set) (l : IndexedLog) (n : eversion_t) (Hfirst : first_missing m = Ok n) (Hne : missing m ≠ ∅).
Abbreviation entries := (log (base l)).

Lemma seek_complete_ok k : (k <= length entries)%nat → Forall (λ e, ev_lt (e_version e) n = true) (take (length entries - k) entries) →
  (∃ e, e ∈ drop (length entries - k) entries ∧ ev_le n (e_version e) = true) →
  ∃ k', seek_complete m l k = Ok k' ∧ (0 < k' <= k)%nat ∧ Forall (λ e, ev_lt (e_version e) n = true) (take (length entries - k') entries).
Proof.
  induction k as [|k IH]; intros Hk Hf (e & He & Hle).
  - rewrite Nat.sub_0_r, drop_all in He. by apply not_elem_of_nil in He.
  - destruct (complete_entry_ok l k Hk) as (e0 & E & Ed & Et). cbn [seek_complete]. rewrite bool_decide_false, E by done. cbn [bind]. rewrite Hfirst. cbn [bind].
    destruct (ev_lt (e_version e0) n) eqn:El; [|exists (S k); split; [done|]; split; [lia|done]].
    destruct IH as (k' & -> & Hk' & Hf'); [lia| | |exists k'; split; [done|]; split; [lia|done]].
    + rewrite Et. apply Forall_app. by rewrite Forall_singleton.
    + exists e. split; [|done]. rewrite Ed in He. apply elem_of_cons in He as [->|He]; [ev_lia|done].
Qed.

Lemma raise_complete_ok {HitSet Stats} k u : Forall (λ e, ev_le (e_version e) u = true) entries → ∀ info : pg_info_t HitSet Stats,
  (k <= length entries)%nat → ev_le (last_complete info) u = true → ev_lt (last_complete info) n = true →
  Forall (λ e, ev_le (e_version e) (last_complete info) = true) (take (length entries - k) entries) →
  ∃ k' info', raise_complete m l k info = Ok (k', info') ∧ (k' <= length entries)%nat ∧ ev_lt (last_complete info') n = true ∧
    ev_le (last_complete info) (last_complete info') = true ∧ last_update info' = last_update info ∧
    ev_le (last_complete info') u = true ∧ Forall (λ e, ev_le (e_version e) (last_complete info') = true) (take (length entries - k') entries).
Proof.
  intros Hu. induction k as [|k IH]; intros info Hk Hlu Hl Hf; cbn [raise_complete].
  - exists 0%nat, info. repeat split; try done. ev_lia.
  - destruct (complete_entry_ok l k Hk) as (e & E & Ed & Et). rewrite Hfirst. cbn [bind]. rewrite E. cbn [bind]. destruct (ev_le n (e_version e)) eqn:El.
    { exists (S k), info. repeat split; try done. ev_lia. }
    assert (ev_le (e_version e) u = true) as He.
    { rewrite Forall_forall in Hu. apply Hu. rewrite <- (take_drop (length entries - k) entries), Et. apply elem_of_app. left. apply elem_of_app. right. left. }
    set (info1 := if ev_lt (last_complete info) (e_version e) then _ else info).
    assert (ev_le (last_complete info1) u = true ∧ ev_lt (last_complete info1) n = true ∧ ev_le (last_complete info) (last_complete info1) = true ∧ ev_le (e_version e) (last_complete info1) = true ∧ last_update info1 = last_update info) as (Hu1 & H1 & H2 & H3 & H4).
    { unfold info1. destruct (ev_lt (last_complete info) (e_version e)) eqn:E1; simpl; repeat split; ev_lia || done. }
    destruct (IH info1) as (k' & info' & -> & Hk' & F1 & F2 & F3 & F5 & F4); [lia|done|done| |].
    { rewrite Et. apply Forall_app. rewrite Forall_singleton. split; [|done]. eapply Forall_impl; [exact Hf|]. simpl. intros. ev_lia. }
    exists k', info'. rewrite F3, H4. repeat split; try done. ev_lia.
Qed.
End Search.

Section Recovery.
Context {HitSet Stats : Type}.

(** [C22] Activation with missing objects: [last_complete] is set below every version that is needed and [complete_to] behind entries that are
    complete.  The log reaches a version that is needed, so the search ends before it. *)
Theorem activate_not_complete_correct (p : PGLog_t) (info : pg_info_t HitSet Stats) o it e :
  rmissing_ok (p_missing p) → needs_numbered (p_missing p) → below_needs ev0 (p_missing p) → log_sorted (log (base (p_log p))) →
  missing (p_missing p) !! o = Some it → e ∈ log (base (p_log p)) → ev_le (need it) (e_version e) = true →
  ∃ p' info', activate_not_complete p info = Ok (p', info') ∧ progress p' info' ∧ p_missing p' = p_missing p ∧
    base (p_log p') = base (p_log p) ∧ last_update info' = last_update info.
Proof.
  intros Hix Hn H0 Hs Ho He Hle. assert (missing (p_missing p) ≠ ∅) as Hne by (intros E; rewrite E, lookup_empty in Ho; done).
  destruct (first_missing_ok _ Hix Hn Hne) as (o1 & i1 & E1 & Ef & Hmin). set (es := log (base (p_log p))) in *.
  destruct (seek_complete_ok (p_missing p) (p_log p) (need i1) Ef Hne (length es)) as (k & Ek & Hk & Hf); [done| | |].
  { rewrite Nat.sub_diag. constructor. }
  { exists e. rewrite Nat.sub_diag. split; [done|]. specialize (Hmin _ _ Ho). ev_lia. }
  unfold activate_not_complete, reset_complete_to. fold es. rewrite Ek. cbn [bind]. rewrite (proj2 (Nat.eqb_neq k 0)) by lia. cbn [negb assert bind].
  assert (∃ v, (if (k =? length es)%nat then Ok ev0 else e' <- complete_entry (p_log p) (S k);; Ok (e_version e')) = Ok v ∧ ev_lt v (need i1) = true ∧
    Forall (λ e, ev_le (e_version e) v = true) (take (length es - k) es)) as (v & -> & Hv & Hfv).
  { destruct (Nat.eqb_spec k (length es)) as [->|Hkn]; [exists ev0; rewrite Nat.sub_diag; split; [done|]; split; [by eapply H0|constructor]|].
    destruct (complete_entry_ok (p_log p) k) as (e' & -> & _ & Et); [fold es; lia|]. fold es in Et. exists (e_version e'). split; [done|]. fold es in Hf. rewrite Et in Hf |- *.
    apply Forall_app in Hf as [_ Hf]. rewrite Forall_singleton in Hf. split; [done|]. apply Forall_app. rewrite Forall_singleton. split; [|ev_lia].
    rewrite <- (take_drop (length es - k) es) in Hs. apply sorted_app in Hs as (Hs & _ & _). rewrite Et in Hs. apply sorted_app in Hs as (_ & _ & Hs).
    apply Forall_forall. intros x Hx. specialize (Hs x e' Hx ltac:(left)). ev_lia. }
  cbn [bind]. eexists _, _. split; [done|]. split; [|done]. split; [done|done| |].
  - intros o2 i2 E2. cbn. specialize (Hmin _ _ E2). ev_lia.
  - exists k. split; [done|]. split; [cbn; fold es; lia|exact Hfv].
Qed.

(** An object is recovered: it leaves the missing set; [last_complete] does not go back, stays below every version that is still needed, and
    reaches [last_update] with the last object. *)
Lemma recover_got_ok (p : PGLog_t) (info : pg_info_t HitSet Stats) o it v :
  progress p info → missing (p_missing p) !! o = Some it → ev_le (need it) v = true → ev_le v (can_rollback_to (base (p_log p))) = true →
  Forall (λ e, ev_le (e_version e) (last_update info) = true) (log (base (p_log p))) → ev_le (last_complete info) (last_update info) = true →
  ∃ p' info', recover_got p info o v = Ok (p', info') ∧ progress p' info' ∧ missing (p_missing p') = delete o (missing (p_missing p)) ∧
    base (p_log p') = base (p_log p) ∧ last_update info' = last_update info ∧ ev_le (last_complete info) (last_complete info') = true ∧
    ev_le (last_complete info') (last_update info) = true ∧ (missing (p_missing p') = ∅ → last_complete info' = last_update info).
Proof.
  intros [Hix Hn Hb (k & Ek & Hk & Hf)] Ho Hv Hc Hu Hlu. unfold recover_got, is_missing_at, got. rewrite Ho, (proj2 (ev_lt_nle _ _) Hv), Hv. cbn [negb orb assert bind].
  set (m := rm_it _ _ _). assert (rmissing_ok m ∧ needs_numbered m) as [Hix' Hn'] by (split; [by apply rmissing_rm|by apply numbered_rm]).
  assert (∀ o' i, missing m !! o' = Some i → missing (p_missing p) !! o' = Some i) as Hsub by (intros o' i; cbn; intros [_ H]%lookup_delete_Some; done).
  destruct (decide (missing m = ∅)) as [Em|Em].
  - rewrite bool_decide_true by done. cbn [bind p_log set_log set_complete_to base]. rewrite Hc. cbn [assert bind]. eexists _, _. split; [done|]. split; [|repeat split; try done; ev_lia].
    split; [done|done| |exists 0%nat; split; [done|]; split; [lia|]; by apply Forall_take]. intros o' i E. change (missing m !! o' = Some i) in E. by rewrite Em, lookup_empty in E.
  - rewrite bool_decide_false, Ek by done. cbn [deref bind]. destruct (first_missing_ok m Hix' Hn' Em) as (o1 & i1 & E1 & Ef & Hmin).
    destruct (raise_complete_ok m (p_log p) (need i1) Ef k _ Hu info Hk Hlu) as (k' & info' & -> & Hk' & F1 & F2 & F3 & F5 & F4); [by apply (Hb o1), Hsub|done|].
    cbn [bind]. cbn [p_log set_log set_complete_to base]. rewrite Hc. cbn [assert bind]. exists (set_log (set_missing p m) (set_complete_to (p_log p) k')), info'.
    split; [done|]. split; [|by repeat split]. split; [done|done| |by exists k']. intros o' i E. specialize (Hmin _ _ E). ev_lia.
Qed.

(** The objects are recovered one after the other. *)
Fixpoint recover_all (os : list (hobject_t * eversion_t)) (p : PGLog_t) (info : pg_info_t HitSet Stats) : res (PGLog_t * pg_info_t HitSet Stats) :=
  match os with
  | [] => Ok (p, info)
  | (o, v) :: os => '(p, info) <- recover_got p info o v;; recover_all os p info
  end.

(** The missing objects in the order of their recovery, with versions that the store has by then. *)
Record pending (os : list (hobject_t * eversion_t)) (p : PGLog_t) : Prop := {
  pd_once : NoDup os.*1;
  pd_missing : ∀ o v, (o, v) ∈ os → ∃ it, missing (p_missing p) !! o = Some it ∧ ev_le (need it) v = true ∧ ev_le v (can_rollback_to (base (p_log p))) = true;
  pd_all : ∀ o, is_Some (missing (p_missing p) !! o) → o ∈ os.*1
}.

Lemma pending_got o v os p p' : pending ((o, v) :: os) p → missing (p_missing p') = delete o (missing (p_missing p)) → base (p_log p') = base (p_log p) → pending os p'.
Proof.
  intros [Hd Hm Ha] E Eb. apply NoDup_cons in Hd as [Ho Hd]. split; [done| |]; rewrite E.
  - intros o' v' H. rewrite Eb, lookup_delete_ne; [apply Hm; by right|]. intros <-. apply Ho. exact (list_elem_of_fmap_2 fst _ _ H).
  - intros o' [it [Hne H]%lookup_delete_Some]. destruct (elem_of_cons (os.*1) o' o) as [Hc _]. destruct Hc as [->|]; [|done|done]. by apply (Ha o'); exists it.
Qed.

(** [C13] Recovery: whatever the order in which the missing objects are recovered, no step fails, nothing is missing in the end, and [last_complete] has
    reached [last_update]. *)
Theorem recover_all_complete (os : list (hobject_t * eversion_t)) (p : PGLog_t) (info : pg_info_t HitSet Stats) :
  os ≠ [] → progress p info → pending os p →
  Forall (λ e, ev_le (e_version e) (last_update info) = true) (log (base (p_log p))) → ev_le (last_complete info) (last_update info) = true →
  ∃ p' info', recover_all os p info = Ok (p', info') ∧ missing (p_missing p') = ∅ ∧ rmissing (p_missing p') = [] ∧ base (p_log p') = base (p_log p) ∧
    last_update info' = last_update info ∧ last_complete info' = last_update info.
Proof.
  revert p info. induction os as [|[o v] os IH]; [done|]. intros p info _ Hp Hd Hu Hl. destruct (pd_missing _ _ Hd o v ltac:(left)) as (it & Ho & Hv & Hc).
  cbn [recover_all]. destruct (recover_got_ok p info o it v Hp Ho Hv Hc Hu Hl) as (p1 & i1 & -> & Hp1 & Em & Eb & Elu & _ & Elc & Eall). cbn [bind].
  pose proof (pending_got o v os p p1 Hd Em Eb) as Hd1. destruct os as [|ov os].
  - assert (missing (p_missing p1) = ∅) as E0. { apply map_eq. intros o'. rewrite lookup_empty. destruct (missing (p_missing p1) !! o') eqn:E; [|done]. apply mk_is_Some, (pd_all _ _ Hd1), not_elem_of_nil in E. done. }
    exists p1, i1. split; [done|]. split; [done|]. split; [|by rewrite Eall]. destruct (rmissing (p_missing p1)) as [|[k x] r] eqn:Er; [done|].
    destruct (proj1 (rm_inverse _ (pr_index _ _ Hp1) k x)) as (i & E & _); [rewrite Er; simpl; by rewrite Z.eqb_refl|]. by rewrite E0, lookup_empty in E.
  - destruct (IH p1 i1) as (p' & info' & E & H1 & H2 & H3 & H4 & H5); [done|done|done|by rewrite Eb, Elu|by rewrite Elu|].
    exists p', info'. rewrite <- Elu, <- Eb. done.
Qed.
End Recovery.

(** *** Runs *)

Module Index.
Import Run.
(** Versions with numbers that tell the objects apart. *)
Definition known (o : hobject_t) (v : eversion_t) : Prop := o = obj 1 ∧ v = mk_ev 1 1 ∨ o = obj 2 ∧ v = mk_ev 2 2.
(** The first object was not recovered to its divergent version yet: its number is that of the new one of the second. *)
Definition recovering : PGLog_t := set_missing group (mk_missing {[obj 1 := mk_item (mk_ev 1 2) (mk_ev 1 1) false]} [(2, obj 1)] ∅ false).
Definition recovering_disk : store := mk_store {[obj 1 := mk_ev 1 1]} [divergent].

Lemma recovering_accurate : accurate bf (wanted (λ _, ev0) []) [shared; divergent] (p_missing recovering) recovering_disk.
Proof.
  intros o _. cbn [p_missing recovering set_missing missing]. destruct (decide (obj 1 = o)) as [<-|Hne].
  - rewrite lookup_singleton_eq. by repeat split.
  - rewrite lookup_singleton_ne by done. unfold item_ok, entries_of, ver, store_laws, recovering_disk.
    cbn [List.filter shared divergent entry soid versions]. rewrite !bool_decide_false by done. by rewrite lookup_singleton_ne.
Qed.

Lemma empty_indexed : indexed known (p_missing group).
Proof.
  split; [split; [constructor|]|]; cbn; [|intros o it; by rewrite lookup_empty]. intros n o. split; [done|]. intros (it & H & _). by rewrite lookup_empty in H.
Qed.
Definition merged (p : PGLog_t) (d : store) : res (PGLog_t * pg_info_t unit unit * pg_info_t unit unit * store * bool) :=
  merge_log p info info authority d.
Lemma merged_ok : (if merged group disk is Ok _ then true else false) = true.
Proof. by vm_compute. Qed.
Lemma recovering_merged :
  match merged recovering recovering_disk with
  | Ok (p', _, info', _, _) =>
      have_missing (p_missing p') && bool_decide (rmissing (p_missing p') = []) && (if activate_not_complete p' info' is Err BadAccess then true else false)
  | Err _ => false
  end = true.
Proof. by vm_compute. Qed.
End Index.

Module Two.
Import Run.
(** Both objects are missing, and the log has an entry for each. *)
Definition later : pg_log_entry_t := entry (obj 2) (mk_ev 1 2) ev0.
Definition item1 : pg_missing_item := mk_item (mk_ev 1 1) ev0 false.
Definition item2 : pg_missing_item := mk_item (mk_ev 1 2) ev0 false.
Definition two : PGLog_t :=
  mk_pglog (mk_missing {[obj 1 := item1; obj 2 := item2]} [(1, obj 1); (2, obj 2)] ∅ false)
    (mk_ilog (mk_log (mk_ev 1 2) ev0 (mk_ev 1 2) ev0 [shared; later] []) ∅ false (Some 2%nat) 0 0) ev0 ev_max ev_max ∅ [] false.
Definition start_info : pg_info_t unit unit := set_last_complete info ev0.

Lemma two_missing o it : missing (p_missing two) !! o = Some it ↔ o = obj 1 ∧ it = item1 ∨ o = obj 2 ∧ it = item2.
Proof.
  cbn [two p_missing missing]. rewrite lookup_insert_Some, lookup_singleton_Some. assert (obj 1 ≠ obj 2) by done. naive_solver.
Qed.
Lemma two_index : rmissing_ok (p_missing two).
Proof.
  split; [repeat constructor|]. intros n o. setoid_rewrite two_missing. cbn [two p_missing rmissing map_find].
  destruct (Z.eqb_spec 1 n) as [<-|H1]; [|destruct (Z.eqb_spec 2 n) as [<-|H2]].
  - split; [intros [= <-]; exists item1; auto|]. by intros (it & [[-> ->]|[-> ->]] & E).
  - split; [intros [= <-]; exists item2; auto|]. by intros (it & [[-> ->]|[-> ->]] & E).
  - split; [done|]. by intros (it & [[-> ->]|[-> ->]] & E).
Qed.
Lemma two_numbered : needs_numbered (p_missing two).
Proof. intros o it o' it' [[_ ->]|[_ ->]]%two_missing [[_ ->]|[_ ->]]%two_missing; vm_compute; congruence. Qed.
Lemma two_below : below_needs ev0 (p_missing two).
Proof. by intros o it [[_ ->]|[_ ->]]%two_missing. Qed.
Lemma two_pending : pending [(obj 2, mk_ev 1 2); (obj 1, mk_ev 1 1)] two.
Proof.
  split.
  - repeat constructor; [by intros ?%list_elem_of_singleton|by intros ?%not_elem_of_nil].
  - intros o v [[= -> ->]|[= -> ->]%list_elem_of_singleton]%elem_of_cons; eexists; rewrite two_missing; eauto.
  - intros o [it [[-> _]|[-> _]]%two_missing]; [right; left|left].
Qed.
Lemma two_progress : progress two start_info.
Proof. split; [exact two_index|exact two_numbered|exact two_below|]. exists 2%nat. split; [done|]. split; [done|constructor]. Qed.
End Two.

(** Both objects are missing when the group is activated. *)
Lemma activate_not_complete_correct_witness :
  ∃ p' info', activate_not_complete Two.two Run.info = Ok (p', info') ∧ progress p' info' ∧ p_missing p' = p_missing Two.two ∧
    base (p_log p') = base (p_log Two.two) ∧ last_update info' = last_update Run.info.
Proof.
  apply (activate_not_complete_correct Two.two Run.info (Run.obj 1) Two.item1 Run.shared).
  - exact Two.two_index.
  - exact Two.two_numbered.
  - exact Two.two_below.
  - repeat constructor.
  - apply Two.two_missing. auto.
  - left.
  - reflexivity.
Defined.

(** The second object is recovered before the first. *)
Lemma recover_all_complete_witness :
  ∃ p' info', recover_all [(Run.obj 2, mk_ev 1 2); (Run.obj 1, mk_ev 1 1)] Two.two Two.start_info = Ok (p', info') ∧ missing (p_missing p') = ∅ ∧
    rmissing (p_missing p') = [] ∧ base (p_log p') = base (p_log Two.two) ∧ last_update info' = mk_ev 1 2 ∧ last_complete info' = mk_ev 1 2.
Proof.
  apply (recover_all_complete [(Run.obj 2, mk_ev 1 2); (Run.obj 1, mk_ev 1 1)] Two.two Two.start_info).
  - discriminate.
  - exact Two.two_progress.
  - exact Two.two_pending.
  - repeat constructor.
  - reflexivity.
Defined.

Lemma merge_log_index_witness :
  match Index.merged Run.group Run.disk with
  | Ok (p', _, _, _, _) => indexed Index.known (p_missing p')
  | Err _ => False
  end.
Proof.
  pose proof Index.merged_ok as H. destruct (Index.merged Run.group Run.disk) as [[[[[p' oi] i] h] ch]|] eqn:E; [clear H|discriminate H].
  refine (merge_log_index Index.known _ Run.group Run.info Run.info Run.authority Run.disk p' oi i h ch _ _ _ _ E).
  - intros o o' v v' [[-> ->]|[-> ->]] [[-> ->]|[-> ->]]; vm_compute; congruence.
  - exact Index.empty_indexed.
  - apply (proj2 (Forall_cons _ Run.shared [Run.divergent])). rewrite Forall_singleton. split; intros _ _ H; [by destruct H|by left].
  - apply (proj2 (Forall_cons _ Run.shared [Run.new])). rewrite Forall_singleton. split; intros _ _ H; by destruct H.
  - apply (proj2 (Forall_cons _ Run.shared [Run.new])). rewrite Forall_singleton. split; intros _; [by left|by right].
Defined.

(** [C36] A version number that two objects share: one was not recovered to its divergent version, the other is new in the authoritative log with the
    same number.  The state before the merge is in accordance with our log, the two logs are as the merge needs them, and the merge succeeds; but
    the index of the missing set is then empty while an object is missing, and the search for the first missing version that follows
    dereferences its end. *)
Theorem merge_log_loses_index :
  peers (base (p_log Index.recovering)) Run.authority (mk_ev 1 1) [] [Run.shared] [Run.divergent] [Run.new] ∧
  accurate Run.bf (wanted (λ _, ev0) []) (log (base (p_log Index.recovering))) (p_missing Index.recovering) Index.recovering_disk ∧
  rmissing_ok (p_missing Index.recovering) ∧
  ∃ p' oinfo' info' h' changed, merge_log Index.recovering Run.info Run.info Run.authority Index.recovering_disk = Ok (p', oinfo', info', h', changed) ∧
    have_missing (p_missing p') = true ∧ rmissing (p_missing p') = [] ∧ activate_not_complete p' info' = Err BadAccess.
Proof.
  split; [exact Run.ours_theirs|]. split; [exact Index.recovering_accurate|]. split.
  - split; [repeat constructor|]. intros n o. cbn [p_missing Index.recovering set_missing rmissing missing map_find]. destruct (Z.eqb_spec 2 n) as [<-|Hn].
    + split; [intros [= <-]; by eexists; rewrite lookup_singleton_eq|]. by intros (it & [<- _]%lookup_singleton_Some & _).
    + split; [done|]. by intros (it & [_ <-]%lookup_singleton_Some & E).
  - pose proof Index.recovering_merged as H. unfold Index.merged in H. destruct (merge_log _ _ _ _ _) as [[[[[p' oi] i] h] ch]|]; [|done].
    exists p', oi, i, h, ch. apply andb_true_iff in H as [[H1 H2%bool_decide_eq_true]%andb_true_iff H3]. repeat split; try done.
    by destruct (activate_not_complete p' i) as [|[]].
Qed.
End PGLogRecovery.
