(* ===== verification/PGLogReplica.v ===== *)
(** * The log of a replica, seen from the primary (osd/PGLog.cc)

    The primary rewinds the log of a replica to the last version they share and works out what the replica will miss once it has undone
    its divergent entries, without access to the store of the replica. *)
From stdpp Require Import gmap.
From S2P Require Import Prelude StdMap IntervalSet PgPool PGLog PGLogMerge PGLogPeering PGLogRecovery.

Module PGLogReplica.
Import PgPool PGLog PGLogMerge PGLogPeering PGLogRecovery.

(** ** The missing set does not depend on the handler *)

Section NoHandler.
Context {S : Type} `{!LogEntryHandler S}.

Lemma merge_object_none l o g bf crt m (rb : option S) m' rb' :
  _merge_object_divergent_entries l o g bf crt m rb = Ok (m', rb') → _merge_object_divergent_entries (S := S) l o g bf crt m None = Ok (m', None).
Proof.
  unfold _merge_object_divergent_entries. destruct (hobj_gt o bf); [by intros [= <- _]|]. intros ([] & -> & H)%bind_inv. cbn [bind].
  apply bind_inv in H as (es & -> & H). cbn [bind]. destruct es as [|front es]; [by injection H as <- _|]. destruct (last (front :: es)); [|by injection H as <- _].
  destruct (newer_entry _ _ _) as [n|].
  { apply bind_inv in H as ([] & -> & H). cbn [bind]. apply bind_inv in H as ([] & -> & H). cbn [bind]. by injection H as <- _. }
  destruct (_ || _); [by injection H as <- _|]. destruct (missing m !! o); [by injection H as <- _|]. destruct (forallb _ _); by injection H as <- _.
Qed.
Lemma merge_split_none l bf crt gs : ∀ m (rb : option S) m' rb',
  merge_split l gs bf crt m rb = Ok (m', rb') → merge_split (S := S) l gs bf crt m None = Ok (m', None).
Proof.
  induction gs as [|[o g] gs IH]; intros m rb m' rb'; cbn [merge_split]; [by intros [= <- _]|]. intros ([m1 rb1] & E & H)%bind_inv.
  rewrite (merge_object_none _ _ _ _ _ _ _ _ _ E). cbn [bind]. by eapply IH.
Qed.
End NoHandler.

(** ** The cut *)

Section Replica.
Context (L A : pg_log_t) (c : eversion_t) (old C D N : list pg_log_entry_t) (Hp : peers L A c old C D N).

(** What [proc_replica_log] finds walking back from the head of the log of the primary. *)
Definition last_shared : eversion_t :=
  let limit := ev_MAX (tail L) (tail A) in
  match drop_while (λ e, ev_lt (head L) (e_version e)) (reverse (log A)) with
  | e :: _ => if ev_lt (e_version e) limit then limit else e_version e
  | [] => limit
  end.

Lemma max_comm a b : ev_MAX a b = ev_MAX b a.
Proof. destruct (ev_MAX_spec a b) as [[H ->]|[H ->]], (ev_MAX_spec b a) as [[H' ->]|[H' ->]]; try done; try (apply ev_le_antisym; ev_lia). Qed.

Lemma last_shared_cut : last_shared = cut_point L A C.
Proof.
  pose proof (pe_heads _ _ _ _ _ _ _ Hp) as (Hh & _). unfold last_shared, cut_point. rewrite (max_comm (tail L)). set (limit := ev_MAX (tail A) (tail L)).
  assert (∀ e, (if ev_lt (e_version e) limit then limit else e_version e) = ev_MAX limit (e_version e)) as Emax.
  { intros e. unfold ev_MAX. done. }
  rewrite (pe_A _ _ _ _ _ _ _ Hp), reverse_app. set (X := if ev_lt (tail A) (tail L) then old ++ C else _).
  assert (∀ e, e ∈ X → e ∈ old ++ C) as HX.
  { unfold X. destruct (ev_lt _ _); [done|]. intros e He. apply elem_of_app. right. apply list_elem_of_In, List.filter_In in He as [He _]. by apply list_elem_of_In. }
  destruct (take_drop_while (λ e, ev_lt (head L) (e_version e)) (reverse N) (reverse X)) as [_ ->].
  - intros e He. rewrite elem_of_reverse in He. by apply (pe_N _ _ _ _ _ _ _ Hp) in He as [He _].
  - intros e He. rewrite elem_of_reverse in He. apply HX, (shared_below _ _ _ _ _ _ _ Hp) in He. ev_lia.
  - unfold X, shared_part in *. destruct (ev_lt (tail A) (tail L)) eqn:Et; [|destruct (reverse _); [done|apply Emax]]. rewrite reverse_app.
    destruct (reverse C) as [|e r] eqn:EC; simpl; [|apply Emax]. destruct (reverse old) as [|e r] eqn:Eo; [done|].
    assert (e ∈ old) as He by (rewrite <- (reverse_involutive old), elem_of_reverse, Eo; left). apply (old_below _ _ _ _ _ _ _ Hp) in He.
    assert (limit = tail L) as El by (unfold limit; destruct (ev_MAX_spec (tail A) (tail L)) as [[_ ?]|[? ->]]; [done|ev_lia]).
    rewrite El. destruct (ev_lt (e_version e) (tail L)) eqn:E; [done|]. apply ev_le_antisym; ev_lia.
Qed.

Lemma peers_replica b o : chained b ((old ++ C) ++ D) → clones_first ((old ++ C) ++ D) → diverges (wanted b old o) (entries_of o C) (entries_of o D) [].
Proof.
  intros Hc Hf. destruct (peers_diverge L A c old C D N Hp b Hc Hf o) as [H1 H2 H3 _ _]. rewrite entries_of_app in H1, H3. split.
  - rewrite last_app in H1. unfold wanted. by destruct (last (entries_of o C)).
  - done.
  - intros e e' He. apply H3. apply elem_of_app. by right.
  - by intros e e' _ ?%not_elem_of_nil.
  - constructor.
Qed.
End Replica.

(** ** What the primary works out *)

Section Proc.
Context {HitSet Stats S : Type} `{HandlerLaws S}.
(** The versions that objects have had: numbers tell the objects apart and grow with the versions. *)
Context (known : hobject_t → eversion_t → Prop).
Hypothesis known_inj : ∀ o o' v v', known o v → known o' v' → version v = version v' → o = o'.
Hypothesis known_numbered : ∀ o o' v v', known o v → known o' v' → ev_lt v v' = true → version v < version v'.
Hypothesis known_pos : ∀ o v, known o v → ev_lt ev0 v = true.

Lemma known_numbers m : indexed known m → needs_numbered m ∧ below_needs ev0 m.
Proof. intros [_ Hk]. split; [intros o i o' i' Hi Hi'; apply (known_numbered o o'); by apply Hk|intros o i Hi; by apply (known_pos o), Hk]. Qed.

(** The last version before the first one that is missing is below all that are needed. *)
Lemma replica_complete m es : indexed known m → have_missing m = true →
  ∃ n, first_missing m = Ok n ∧ below_needs (default ev0 (e_version <$> last (take_while (λ e, ev_lt (e_version e) n) es))) m.
Proof.
  intros Hm Hne. destruct (known_numbers m Hm) as [Hn H0]. destruct (first_missing_ok m (ix_inverse _ _ Hm) Hn) as (o & it & E & Ef & Hmin).
  { unfold have_missing in Hne. by apply negb_true_iff, bool_decide_eq_false in Hne. }
  exists (need it). split; [done|]. intros o' it' E'. specialize (Hmin _ _ E'). destruct (last _) as [e|] eqn:El; [|by apply (H0 o')].
  assert (ev_lt (e_version e) (need it) = true); [|simpl; ev_lia]. clear -El. apply last_Some_elem_of in El. induction es as [|x es IH]; simpl in El; [by apply not_elem_of_nil in El|].
  destruct (ev_lt (e_version x) (need it)) eqn:E; [|by apply not_elem_of_nil in El]. apply elem_of_cons in El as [->|El]; [done|by apply IH].
Qed.

(** [C12] The primary's view of a replica: from the log and the missing set of the replica it works out, without the store, a missing set that is in
    accordance with the shared history and the store the replica has once its divergent entries are merged; [last_update] is the version where the
    replica's log is cut, and [last_complete] is below everything the replica needs. *)
Theorem proc_replica_log_correct (p : PGLog_t) (oinfo : pg_info_t HitSet Stats) (olog : pg_log_t) (om : pg_missing_set) (h : S) c old C D N b :
  let A := base (p_log p) in
  peers olog A c old C D N → histories b (tail olog) old C D N h → head olog ≠ head A → last_update oinfo = head olog →
  indexed known om → Forall (replaces known) D → accurate (last_backfill oinfo) (wanted b old) (log olog) om h →
  ∃ oinfo' om' folog h', proc_replica_log (S := S) p oinfo olog om = Ok (oinfo', om') ∧
    _merge_divergent_entries folog D (last_backfill oinfo) (can_rollback_to olog) om (Some h) = Ok (om', Some h') ∧ log (base folog) = C ∧
    accurate (last_backfill oinfo) (wanted b old) C om' h' ∧ last_update oinfo' = cut_point olog A C ∧
    (if have_missing om' then below_needs (last_complete oinfo') om' else last_complete oinfo' = cut_point olog A C).
Proof.
  intros A Hp [Hb Ho Ht Hcl Hn Hbl Hu] Hhd Hlu Hix Hrep Hacc. set (L := olog) in *. set (bf := last_backfill oinfo) in *.
  pose proof (pe_tails _ _ _ _ _ _ _ Hp) as (H0 & _ & Htl & Hta). pose proof (pe_heads _ _ _ _ _ _ _ Hp) as (Hh & _).
  destruct (cut_versions L A c old C D N Hp) as [HL HA]. pose proof (cut_above L A C) as [_ Hcl1]. pose proof (cut_below L A c old C D N Hp) as Hcb.
  unfold proc_replica_log. fold A bf. rewrite (proj2 (ev_lt_nle _ _)) by ev_lia. unfold ev_eqb at 1. rewrite bool_decide_false by done.
  replace (ev_le (tail A) (head L)) with true by (symmetry; ev_lia). cbn [assert bind]. fold (last_shared L A). rewrite (last_shared_cut L A c old C D N Hp).
  destruct (rewind_ok (indexed_log L) (cut_point L A C) C D) as (folog & -> & Hl & El & _ & _).
  { by apply (pe_L _ _ _ _ _ _ _ Hp). } { done. }
  { pose proof (kept_numbers L A c old C D N Hp _ HL HA (cut_shared L A c old C D N Hp)) as [_ Hk]%Forall_app. done. } { by apply (divergent_numbers L A c old C D N Hp _ HL). }
  cbn [bind]. destruct (merge_divergent_ok folog bf (can_rollback_to L) (wanted b old) C D []) with (m := om) (h := h) as (m & h' & Em & _ & Ha); try done.
  - intros o. rewrite app_nil_r. destruct Hl as [_ Hl]. by rewrite Hl, El.
  - intros o. by apply (peers_replica L A c old C D N Hp).
  - by eapply divergent_sorted.
  - by eapply divergent_pos.
  - apply accurate_pre. by rewrite <- (pe_L _ _ _ _ _ _ _ Hp).
  - intros o _ e (He & _)%elem_entries_of. by apply Hu.
  - rewrite (merge_split_none _ _ _ _ _ _ _ _ Em : _merge_divergent_entries _ _ _ _ _ None = _). cbn [bind]. rewrite app_nil_r in Ha.
    pose proof (indexed_merge_divergent known known_inj _ _ _ _ _ _ _ _ Hix Hrep Em) as Hix'.
    set (oinfo1 := if ev_lt _ _ then _ else oinfo).
    assert (last_update oinfo1 = cut_point L A C) as Elu.
    { unfold oinfo1. rewrite Hlu. destruct (ev_lt (cut_point L A C) (head L)) eqn:E; [reflexivity|]. rewrite Hlu. apply ev_le_antisym; ev_lia. }
    destruct (have_missing m) eqn:Eh; [destruct (replica_complete m (log L) Hix' Eh) as (n & -> & Hb')|]; cbn [bind];
      eexists _, m, folog, h'; (split; [done|]); repeat (split; [done|]); rewrite Eh; done.
Qed.
End Proc.

(** The replica has modified the first object, which the primary does not know of. *)
Lemma proc_replica_log_correct_witness :
  let p := set_log Run.group (indexed_log Run.authority) in
  let olog := base (p_log Run.group) in
  ∃ oinfo' om' folog h', proc_replica_log (S := store) p Run.info olog (p_missing Run.group) = Ok (oinfo', om') ∧
    _merge_divergent_entries folog [Run.divergent] Run.bf ev0 (p_missing Run.group) (Some Run.disk) = Ok (om', Some h') ∧ log (base folog) = [Run.shared] ∧
    accurate Run.bf (wanted (λ _, ev0) []) [Run.shared] om' h' ∧ last_update oinfo' = mk_ev 1 1 ∧
    (if have_missing om' then below_needs (last_complete oinfo') om' else last_complete oinfo' = mk_ev 1 1).
Proof.
  apply (proc_replica_log_correct Index.known) with (p := set_log Run.group (indexed_log Run.authority)) (oinfo := Run.info) (olog := base (p_log Run.group))
    (om := p_missing Run.group) (h := Run.disk) (c := mk_ev 1 1) (old := []) (C := [Run.shared]) (D := [Run.divergent]) (N := [Run.new]) (b := λ _ : hobject_t, ev0).
  - intros o o' v v' [[-> ->]|[-> ->]] [[-> ->]|[-> ->]]; vm_compute; congruence.
  - intros o o' v v' [[-> ->]|[-> ->]] [[-> ->]|[-> ->]]; vm_compute; congruence.
  - intros o v [[-> ->]|[-> ->]]; reflexivity.
  - exact Run.ours_theirs.
  - exact Run.both_histories.
  - discriminate.
  - reflexivity.
  - exact Index.empty_indexed.
  - apply Forall_singleton. intros _ _ _. left. split; reflexivity.
  - exact Run.disk_accurate.
Defined.
End PGLogReplica.
