(* ===== verification/PGLogTrim.v ===== *)
(** * Trimming the log (osd/PGLog.cc)

    Entries leave the log at its tail.  The index by object follows, what the missing set and the store say stays true of the entries that are
    left, and the requests of recent entries are remembered as duplicates. *)
From stdpp Require Import gmap.
From S2P Require Import Prelude StdMap IntervalSet PgPool PGLog PGLogMerge PGLogPeering PGLogRecovery.

Module PGLogTrim.
Import PgPool PGLog PGLogMerge PGLogPeering PGLogRecovery.

(** The index without the oldest entry. *)
Lemma unindex_ok objs e es : log_sorted (e :: es) → (∀ o, objs !! o = last (entries_of o (e :: es))) →
  ∀ o, unindex_entry objs true e !! o = last (entries_of o es).
Proof.
  intros Hs Hobj o. apply StronglySorted_inv in Hs as [_ Hf]. rewrite Forall_forall in Hf. unfold unindex_entry.
  assert (∀ o, last (entries_of o (e :: es)) = match last (entries_of o es) with Some x => Some x | None => last (entries_of o [e]) end) as El.
  { intros o'. change (e :: es) with ([e] ++ es). by rewrite entries_of_app, last_app. }
  destruct (decide (soid e = o)) as [<-|Hne].
  - rewrite (Hobj (soid e)), El. destruct (last (entries_of (soid e) es)) as [x|] eqn:Ex.
    + apply last_entries in Ex as Hx. apply Hf in Hx. unfold ev_eqb. rewrite bool_decide_false by (intros E; rewrite E in Hx; ev_lia). cbn [andb]. by rewrite Hobj, El, Ex.
    + destruct (is_error e) eqn:Ee; [by rewrite entries_of_other, Hobj, El, Ex, entries_of_other by auto|]. rewrite entries_of_one by done. cbn [last andb]. unfold ev_eqb. rewrite bool_decide_true by done.
      by rewrite lookup_delete_eq.
  - assert (objs !! o = last (entries_of o es)) as E by (rewrite Hobj, El, entries_of_other by auto; by destruct (last _)).
    destruct (objs !! soid e) as [x|]; [|done]. destruct (_ && _); [|done]. by rewrite lookup_delete_ne.
Qed.

(** What the entries that are trimmed leave behind. *)
Definition remembered (earliest : Z) (es : list pg_log_entry_t) : list pg_log_dup_t :=
  concat (map (λ e, if earliest <=? version (e_version e) then dups_of_entry e else []) es).

Lemma trim_loop_ok s earliest pre rest : ∀ t, Forall (λ e, ev_le (e_version e) s = true) pre → Forall (λ e, ev_lt s (e_version e) = true) rest →
  log_sorted (pre ++ rest) → (∀ o, t_objects t !! o = last (entries_of o (pre ++ rest))) →
  ∃ t', trim_loop s earliest true (pre ++ rest) t = (rest, t') ∧ (∀ o, t_objects t' !! o = last (entries_of o rest)) ∧
    t_dups t' = t_dups t ++ remembered earliest pre ∧ t_trimmed t' = list_to_set (map e_version pre) ∪ t_trimmed t.
Proof.
  induction pre as [|e pre IH]; intros t Hpre Hrest Hs Hobj.
  - exists t. unfold remembered. simpl. rewrite app_nil_r, (left_id_L ∅ _). split; [|done]. destruct Hrest as [|e rest He Hrest]; [done|]. cbn [trim_loop]. by rewrite He.
  - apply Forall_cons in Hpre as [He Hpre]. cbn [app trim_loop]. rewrite (proj2 (ev_lt_nle _ _) He). cbn zeta.
    set (t1 := mk_trim _ _ _ _). destruct (IH t1) as (t' & -> & Ho & Hd & Ht); [done|done|by apply StronglySorted_inv in Hs as [Hs _]|by apply unindex_ok|].
    exists t'. split; [done|]. split; [done|]. rewrite Hd, Ht. unfold t1, remembered. cbn. split; [destruct (earliest <=? _); [by rewrite <- app_assoc|done]|].
    apply set_eq. intros v. rewrite !elem_of_union. tauto.
Qed.

Lemma drop_while_keeps {X} (f : X → bool) l x : x ∈ l → f x = false → x ∈ drop_while f l.
Proof. induction l as [|y l IH]; [done|]. simpl. intros [->|H]%elem_of_cons Hx; [rewrite Hx; left|]. destruct (f y); [by apply IH|by right]. Qed.

Section Trim.
Context {HitSet Stats S : Type} `{HandlerLaws S}.

Lemma accurate_trim bf b pre rest m (h : S) s : accurate bf b (pre ++ rest) m h → (∀ o, ev_le (b o) s = true) →
  Forall (λ e, ev_le (e_version e) s = true) pre → below_needs s m → accurate bf (wanted b pre) rest m h.
Proof.
  intros Ha Hb Hpre Hn o Ho. specialize (Ha o Ho). rewrite entries_of_app in Ha. unfold item_ok in *. rewrite last_app in Ha. unfold wanted.
  destruct (missing m !! o) as [it|] eqn:Ei; destruct (last (entries_of o rest)) as [e|]; try done. destruct Ha as [Ha _]. specialize (Hn o it Ei).
  destruct (last (entries_of o pre)) as [e|] eqn:Ee.
  - apply last_entries in Ee. rewrite Forall_forall in Hpre. specialize (Hpre e Ee). destruct Ha as [E _]. rewrite E in Hn. ev_lia.
  - destruct Ha as [E _]. rewrite E in Hn. specialize (Hb o). ev_lia.
Qed.

(** [C20] Trimming the log to a version that is complete: exactly the entries up to it leave, the index is that of the entries that are left, the
    missing set and the store are in accordance with them on top of what the trimmed ones have made, and the requests of the entries that leave are
    among the duplicates unless their numbers are too old, as are the recent duplicates from before. *)
Theorem pg_trim_correct tracked (p : PGLog_t) (info : pg_info_t HitSet Stats) s pre rest k b (h : S) :
  let L := base (p_log p) in
  log L = pre ++ rest → log_sorted (log L) → Forall (λ e, ev_le (e_version e) s = true) pre → Forall (λ e, ev_lt s (e_version e) = true) rest →
  log L ≠ [] → ev_lt (tail L) s = true → ev_le s (last_complete info) = true → ev_le s (can_rollback_to L) = true → ilog_ok (p_log p) →
  complete_to (p_log p) = Some k → (k <= length rest)%nat → below_needs (last_complete info) (p_missing p) →
  (∀ o, ev_le (b o) s = true) → accurate (last_backfill info) b (log L) (p_missing p) h →
  ∃ p' info', pg_trim tracked p info s = Ok (p', info') ∧
    holds_history (last_backfill info') (wanted b pre) rest (head L) s p' h ∧ log_tail info' = s ∧ complete_to (p_log p') = Some k ∧
    ∀ newest, last (log L) = Some newest → ∀ d, d ∈ dups L ∨ (∃ e, e ∈ pre ∧ d ∈ dups_of_entry e) →
      version (e_version newest) - tracked <= version (d_version d) → 0 <= version (d_version d) → d ∈ dups (base (p_log p')).
Proof.
  intros L EL Hs Hpre Hrest Hne Htl Hlc Hcrt [Hi Hix] Hk Hkl Hbn Hb Ha. unfold pg_trim. fold L. rewrite Htl, Hlc. cbn [assert bind].
  unfold log_trim. fold L. rewrite Hk. cbn [deref bind]. rewrite Hcrt. cbn [assert bind].
  destruct (last (log L)) as [newest|] eqn:En; [|by apply last_None in En]. cbn [deref bind].
  set (earliest := if _ <? tracked then 0 else _). rewrite Hi, EL. fold L in Hix. rewrite EL in Hix, Hs.
  destruct (trim_loop_ok s earliest pre rest (mk_trim (objects (p_log p)) (dups L) (trimmed p) (dirty_dups p)) Hpre Hrest Hs Hix) as (t & -> & Ho & Hd & _).
  rewrite Htl, (proj2 (Nat.leb_le _ _) Hkl). cbn [bind]. eexists _, _. split; [done|]. split; [|split; [done|split; [done|]]].
  - split; try done. apply (accurate_trim _ _ _ _ _ _ s); [by rewrite EL in Ha|done|done|]. intros o it E. specialize (Hbn o it E). ev_lia.
  - intros ? [= <-] d Hin Hv H0. cbn. assert (earliest <= version (d_version d)) as Hear by (unfold earliest; destruct (_ <? tracked); lia).
    apply drop_while_keeps; [|apply Z.ltb_ge; lia]. rewrite Hd. apply elem_of_app. destruct Hin as [Hin|(e & He & Hde)]; [by left|right].
    unfold remembered. apply list_elem_of_In, in_concat. exists (dups_of_entry e). split; [|by apply list_elem_of_In]. apply in_map_iff. exists e. split; [|by apply list_elem_of_In].
    assert (d_version d = e_version e) as Ev. { apply elem_of_cons in Hde as [->|Hde]; [done|]. apply list_elem_of_In, in_map_iff in Hde as (x & <- & _). done. }
    rewrite <- Ev. by rewrite (proj2 (Z.leb_le _ _) Hear).
Qed.
End Trim.

Definition full : PGLog_t := set_log Run.group (indexed_log (mk_log (mk_ev 1 2) ev0 (mk_ev 1 2) ev0 [Run.shared; Run.divergent] [])).

(** The first of two entries is trimmed, and its request is remembered. *)
Lemma pg_trim_correct_witness :
  ∃ p' info', pg_trim 10 full Run.info (mk_ev 1 1) = Ok (p', info') ∧
    holds_history (last_backfill info') (wanted (wanted (λ _, ev0) []) [Run.shared]) [Run.divergent] (mk_ev 1 2) (mk_ev 1 1) p' Run.disk ∧
    log_tail info' = mk_ev 1 1 ∧ complete_to (p_log p') = Some 0%nat ∧
    ∀ newest, last (log (base (p_log full))) = Some newest → ∀ d, d ∈ dups (base (p_log full)) ∨ (∃ e, e ∈ [Run.shared] ∧ d ∈ dups_of_entry e) →
      version (e_version newest) - 10 <= version (d_version d) → 0 <= version (d_version d) → d ∈ dups (base (p_log p')).
Proof.
  apply (pg_trim_correct 10 full Run.info (mk_ev 1 1) [Run.shared] [Run.divergent] 0 (wanted (λ _, ev0) []) Run.disk).
  - reflexivity.
  - repeat constructor.
  - repeat constructor.
  - repeat constructor.
  - discriminate.
  - reflexivity.
  - reflexivity.
  - reflexivity.
  - split; [reflexivity|]. apply index_of_spec.
  - reflexivity.
  - apply Nat.le_0_l.
  - intros o it E. cbn in E. rewrite lookup_empty in E. discriminate E.
  - intros o. reflexivity.
  - exact Run.disk_accurate.
Defined.
End PGLogTrim.
